(* ===== verification/_CoqProject ===== *)
-Q . S2P
Prelude.v
Bytes.v
Text.v
Core.v
Envelope.v
ConfigChange.v
ConfigState.v
LogSegment.v
AnchorCodec.v
LogStore.v
LogNames.v
LogScan.v
LogInv.v
LogSpec.v
LogCrash.v
LogIntents.v
LogRedo.v
LogSwap.v
LogTruncate.v
LogCompact.v
LogReach.v
LogWitnesses.v
KvCodec.v
KvStore.v
KvTables.v
KvSpec.v
KvRefine.v
KvOps.v
KvScan.v
KvHistory.v
KvWitnesses.v
Proposal.v
Isr.v
DecisionProof.v
Consensus.v
Inspect.v
RecorderCodec.v
Recorder.v
Reopen.v
RecorderSpec.v
Durable.v
DurableOps.v
Recovery.v
Crash.v
CrashGaps.v
ReadFence.v
System.v
Agreement.v
Trace.v
Witnesses.v
CrashWitnesses.v
SqlPages.v
SqlMerkle.v
SqlPatch.v
WalCapture.v
Qwal.v
QwalFile.v
SqlCommand.v
SqlPolicy.v
SqlVtable.v
SqlExecute.v
SqlControl.v
SqlMachine.v
SqlNode.v
SqlSpec.v
SqlInstall.v
SqlHistory.v
SqlTrace.v
SqlReplica.v
SqlRetry.v
SqlWitnesses.v
SqlReplicaWitnesses.v
