(* ===== verification/Prelude.v ===== *)
(** * rhiza: a verified model of the ordered core of a replicated database

    rhiza replicates a database (SQL, graph or key-value) by putting every command
    into one totally ordered, hash-chained log.  A proposer gets a command chosen
    for a slot of the log by QuePaxa over three to seven recorders; the recorders
    keep what they accepted in files; a node appends the decided entries to its
    log and applies them to its database; configurations of recorders succeed one
    another through stop and activation commands in the log.

    ** The parts and the files that model them

    - [Prelude], [Bytes], [Text]: what the sources use of Rust: [Result], [u8] and
      [uN] with checked and wrapping arithmetic (an [N] with its width as a
      predicate, [is_u64]), slices, UTF-8, decimal text; the error monad, tactics
      and hint databases of the development.
    - [Core], [Envelope], [ConfigChange], [ConfigState] model crates/rhiza-core:
      hashes, stored commands, log entries and their hash chain; the wire form of
      a command; configuration-change commands; the configuration state machine
      that [validate_entry] runs over the log, recovery anchors and snapshots.
    - [Proposal], [Isr], [DecisionProof], [Consensus], [Inspect] model the proposer
      and reader side of crates/rhiza-quepaxa: memberships and priorities, the
      interval summary register, decision proofs and certificates, [drive] and the
      proposal loop, decision inspection and read fences.
    - [RecorderCodec], [Recorder], [Reopen] model the recorder side: the seven file
      formats; [RecorderFileStore] with every operation on files, write-ahead log
      and memory (a state-passing error monad, [call]); opening a recorder on the
      files it finds (a monad over the root directory, [opening]).
    - [RecorderSpec], [Durable], [DurableOps], [Recovery], [Crash], [CrashGaps]:
      the theorems about the recorder.  [ReadFence]: recorder and reader composed.
    - [System], [Agreement], [Trace]: the protocol of one slot as a transition
      system over proposers, recorders and messages in any order, its agreement
      theorem, and an executable form of its runs.
    - [LogSegment], [AnchorCodec], [LogStore] model crates/rhiza-log: the segment
      format and its recovery, recovery anchors and intents, and [FileLogStore] with
      every operation on a directory of files (a state monad, [st], over [Disk] and
      [FileLogStoreInner]).  [LogNames], [LogScan], [LogInv]: names, scanning, the
      invariant; [LogSpec], [LogCrash], [LogIntents], [LogRedo], [LogSwap],
      [LogTruncate], [LogCompact], [LogReach]: the theorems about the store;
      [LogWitnesses]: the store at work.
    - [KvCodec], [KvStore] model crates/rhiza-kv: commands, replicated batches,
      receipts and snapshot objects; [RedbStateMachine] with every operation on its
      four tables.  redb is a parameter: the classes [RedbTable], [RedbLaws] (ordered
      maps) and [RedbFile] (a file that reopens as the database written to it); a
      write transaction is a result that is committed or dropped.  [KvTables]:
      tables up to what they answer, ranges, prefixes; [KvSpec]: the abstract
      machine; [KvRefine], [KvOps], [KvScan], [KvHistory]: the theorems;
      [KvWitnesses]: an instance on finite maps.
    - [SqlPages], [WalCapture], [Qwal], [QwalFile] model the page effects of
      crates/rhiza-sql: the Merkle state of a database file, the capture of a
      transaction from SQLite's write-ahead log, the effect envelope, and its
      installation in a file.  [SqlMerkle], [SqlPatch]: the theory of the page state.
      [SqlCommand], [SqlPolicy], [SqlExecute]: commands, the authorizer with its
      reserved names, and running statements with their limits.  [SqlControl]: the
      control sidecar as its four tables.  [SqlMachine], [SqlNode]:
      [SqliteStateMachine] with every operation (a state monad that keeps the machine
      when it fails, [machine]).  [SqlSpec]: the abstract machine; [SqlInstall],
      [SqlHistory], [SqlTrace], [SqlReplica], [SqlRetry]: the theorems.  SQLite is a
      parameter (the class [SqliteEngine]), as are the serializers (the class [Serde]
      with the laws [PostcardLaws], [ConfigLaws], [SnapshotLaws], [EffectTypes]).
    - [Witnesses], [CrashWitnesses], [SqlWitnesses], [SqlReplicaWitnesses]: the
      theorems with hypotheses at concrete inputs.

    ** What the theorems show

    - Agreement ([Agreement.drive_agreement]): decision proofs that proposers reach
      for one slot carry one value, provided the first member offers one value
      per slot; [Trace.leader_two_proposals_disagree] shows that the proviso is
      needed, [Trace.inspection_certifies_undecided_value] that proofs assembled
      from inspected summaries are weaker.
    - The register refines the history of its inputs ([Isr]); accepted proofs hold
      a quorum of evidence ([DecisionProof]); proposals, inspections and fetches
      return what they say ([Consensus], [Inspect]).
    - The recorder implements the slot step on its files, keeps every slot inside
      its configuration, never changes a decided slot, and installs successors
      only on a certified stop ([RecorderSpec]); an empty read fence means a quorum
      without state at the slot ([ReadFence]).
    - Durability: after any run of operations and crashes, opening gives back
      the recorder that was running, and a crash inside an operation loses it as a
      whole or completes it ([Crash]); two crash windows in which opening fails
      for good ([CrashGaps]).
    - Round trips of every file and wire format, in both directions where the
      decoder is canonical; the hash of the last entry binds the whole log up to a
      collision ([Core]); the configuration state machine ([ConfigState]).
    - The log store implements an append-only log with truncation and compaction
      ([LogSpec.Log]): a batch is appended as a whole or refused ([LogSpec]), the
      entries from an index on are removed ([LogTruncate]), a prefix gives way to an
      anchor that matches it ([LogCompact]).  Every directory that an operation
      passes through, at every byte of a write, opens to the log before or after it,
      for an append with the first entries of the batch ([LogCrash]); so any history
      with crashes leaves a hash-chained log that opens again ([LogReach]).
      Segments and anchors read back, what is read is a chained run, and the reading
      loops end ([LogSegment], [AnchorCodec]); [decode_segment] can read nothing
      that was written.
    - The key-value machine implements the abstract one on every branch of
      [apply_entry] ([KvRefine]); whatever applications, replays, compactions,
      restarts and snapshots led to a database, it is a function of the applied log,
      so that replicas answer alike and a command takes effect exactly once
      ([KvHistory]); paging returns every row once and ends ([KvScan]); a snapshot
      carries the state to another node, the embedded log reads back ([KvOps]);
      batches and snapshot objects have one accepted form ([KvCodec]).
    - A captured transaction is exactly what a complete write-ahead log says
      ([WalCapture]); its effect installs on every copy of the base and leaves the
      bytes of the speculative copy, and the incremental page state agrees with a
      rebuild ([QwalFile], [SqlPatch]).  Whatever applications with injected failures,
      preparations, snapshots, crashes and restores led to a SQL machine, its
      database bytes, receipts and configuration are those of its hash-chained log,
      replicas at one tip are identical and a request takes effect once
      ([SqlReplica]); an application whose control commit failed can be completed
      ([SqlRetry]); results of executed commands are within the limits of their
      encoding ([SqlExecute]), and no spelling hides a reserved table in a virtual
      table definition ([SqlVtable]).

    ** Assumptions and bounds

    - SHA-256 is a parameter (the class [Sha256]); nothing is assumed of it but its
      output length.  Collision freedom is never assumed: theorems either exhibit a
      collision or take the equality of two stored commands as a hypothesis.
    - Machine integers are natural numbers; theorems about encoders carry the width
      of their arguments as a hypothesis, and every overflow check of the code is
      in the model.
    - Worker threads, channels and timeouts are the sequence of results that the
      code reads from them; locks are held for one operation.
    - File operations succeed; a crash leaves a prefix of the writes of an
      operation, in their order, with the last log frame possibly torn.  Each
      [atomic_replace] is one step.  The log store's disk keeps the directories it
      passed through ([dk_past]), with every prefix of a write to a file; a rename
      or a removal is one step.  A counter that runs out is an I/O error and
      ends the run of a recorder.
    - redb's own I/O errors and the staging file of a snapshot restore are outside;
      each would return an error and drop the transaction.
    - The SQL database file is its bytes with a stamp that stands for the metadata the
      code compares (every write gives a new one); a crash is one of the process,
      leaves the committed transactions of the sidecar, and any bytes in the
      database file.  SQLite's own I/O errors are outside.
    - Loops over a buffer run with the length of the buffer as fuel, which is enough
      because every round reads at least one byte; no theorem assumes that fuel
      suffices.

    ** Not modelled

    The HTTP and TCP services, the runtime and the checkpoint coordination of
    rhiza-node; the graph engine (it calls a graph library); SQLite and the
    file-system clone of a database; the archive and object store; the client, the
    command line, the facade crate, the test kit and the benchmarks.  What each would
    need is in the manifest. *)

From stdpp Require Export prelude strings gmap list sorting.


(** ** Results: Rust's [Result<A, E>] *)

Inductive result (E A : Type) : Type :=
| Ok (a : A)
| Err (e : E).
Arguments Ok {E A} a.
Arguments Err {E A} e.

#[export] Instance result_eq_dec `{EqDecision E, EqDecision A} : EqDecision (result E A).
Proof. solve_decision. Defined.

#[export] Instance result_ret {E} : MRet (result E) := λ A a, Ok a.
#[export] Instance result_bind {E} : MBind (result E) :=
  λ A B f m, match m with Ok a => f a | Err e => Err e end.
#[export] Instance result_fmap {E} : FMap (result E) :=
  λ A B f m, match m with Ok a => Ok (f a) | Err e => Err e end.

(** [Option::ok_or], [Result::map_err], and the early return [if c { return Err(e) }]. *)
Definition ok_or {E A} (o : option A) (e : E) : result E A :=
  match o with Some a => Ok a | None => Err e end.

Definition map_err {E F A} (f : E → F) (r : result E A) : result F A :=
  match r with Ok a => Ok a | Err e => Err (f e) end.

Definition reject_if {E} (c : bool) (e : E) : result E () :=
  if c then Err e else Ok ().

Definition is_ok {E A} (r : result E A) : bool :=
  match r with Ok _ => true | Err _ => false end.

(** [iter.map(f).collect::<Result<Vec<_>, _>>()]: stops at the first error. *)
Fixpoint collect {E A B} (f : A → result E B) (l : list A) : result E (list B) :=
  match l with
  | [] => Ok []
  | x :: l => y ← f x; ys ← collect f l; Ok (y :: ys)
  end.

(** A fold whose body may return early: [for x in l { acc = f(acc, x)?; }]. *)
Fixpoint try_fold {E A B} (f : B → A → result E B) (b : B) (l : list A) : result E B :=
  match l with
  | [] => Ok b
  | x :: l => b' ← f b x; try_fold f b' l
  end.

Lemma try_fold_app {E A B} (f : B → A → result E B) b l k :
  try_fold f b (l ++ k) = (b' ← try_fold f b l; try_fold f b' k).
Proof. revert b. induction l as [|x l IH]; intros b; [done|]. cbn. destruct (f b x); cbn; [apply IH|done]. Qed.
Lemma try_fold_snoc {E A B} (f : B → A → result E B) b l x : try_fold f b (l ++ [x]) = (b' ← try_fold f b l; f b' x).
Proof. rewrite try_fold_app. destruct (try_fold f b l) as [b'|]; [|done]. cbn. by destruct (f b' x). Qed.

Lemma Ok_inj {E A} (a b : A) : Ok (E := E) a = Ok b → a = b.
Proof. by intros [= ->]. Qed.

Lemma bind_Ok_inv {E A B} (m : result E A) (f : A → result E B) (b : B) :
  (m ≫= f) = Ok b ↔ ∃ a, m = Ok a ∧ f a = Ok b.
Proof. destruct m; cbn; naive_solver. Qed.

Lemma ok_or_Ok {E A} (o : option A) (e : E) (a : A) : ok_or o e = Ok a ↔ o = Some a.
Proof. destruct o; cbn; naive_solver. Qed.

Lemma map_err_Ok {E F A} (f : E → F) (r : result E A) (a : A) : map_err f r = Ok a ↔ r = Ok a.
Proof. destruct r; cbn; naive_solver. Qed.

Lemma reject_if_Ok {E} (c : bool) (e : E) u : reject_if c e = Ok u ↔ c = false.
Proof. destruct c, u; cbn; naive_solver. Qed.

Lemma collect_Ok {E A B} (f : A → result E B) (l : list A) (ys : list B) :
  collect f l = Ok ys ↔ Forall2 (λ x y, f x = Ok y) l ys.
Proof.
  revert ys; induction l as [|x l IH]; intros ys; cbn.
  - split; [intros [= <-]; constructor | by inversion 1].
  - rewrite bind_Ok_inv. setoid_rewrite bind_Ok_inv. setoid_rewrite IH. split.
    + intros (y & Hy & ys' & Hys & [= <-]); by constructor.
    + inversion 1; subst; eauto 6.
Qed.

(** [res_inv] takes apart every hypothesis that says a monadic computation
    returned [Ok]. *)
Ltac res_inv_step :=
  match goal with
  | H : (_ ≫= _) = Ok _ |- _ =>
      let x := fresh "v" in let Hx := fresh "Hok" in
      apply bind_Ok_inv in H as (x & Hx & H)
  | H : ok_or _ _ = Ok _ |- _ => apply ok_or_Ok in H
  | H : map_err _ _ = Ok _ |- _ => apply map_err_Ok in H
  | H : reject_if _ _ = Ok _ |- _ => apply reject_if_Ok in H
  | H : mret _ = Ok _ |- _ => unfold mret, result_ret in H
  | H : Ok _ = Ok ?e |- _ => is_var e; apply Ok_inj in H; subst e
  | H : Ok _ = Ok _ |- _ => injection H as H; subst
  | H : Err _ = Ok _ |- _ => discriminate H
  | H : Ok _ = Err _ |- _ => discriminate H
  | H : Some _ = Some _ |- _ => injection H as H; subst
  | H : None = Some _ |- _ => discriminate H
  | H : Some _ = None |- _ => discriminate H
  | p : (_ * _)%type |- _ => destruct p
  | u : unit |- _ => destruct u
  end.
Ltac res_inv := repeat (res_inv_step; cbn beta iota zeta in * ).

(** ** Total orders: Rust's [Ord] *)

Class Ord (A : Type) := cmp : A → A → comparison.
#[export] Hint Mode Ord ! : typeclass_instances.

(** A lawful [Ord]: [cmp] is antisymmetric, transitive, and [Eq] only on equal values. *)
Class LawfulOrd (A : Type) {O : Ord A} : Prop := {
  cmp_eq (x y : A) : cmp x y = Eq ↔ x = y;
  cmp_opp (x y : A) : cmp y x = CompOpp (cmp x y);
  cmp_lt_trans (x y z : A) : cmp x y = Lt → cmp y z = Lt → cmp x z = Lt
}.
#[export] Hint Mode LawfulOrd ! - : typeclass_instances.

Definition ltb `{Ord A} (x y : A) : bool := match cmp x y with Lt => true | _ => false end.
Definition leb `{Ord A} (x y : A) : bool := match cmp x y with Gt => false | _ => true end.
Definition eqb `{EqDecision A} (x y : A) : bool := bool_decide (x = y).
Definition neqb `{EqDecision A} (x y : A) : bool := negb (eqb x y).

Lemma eqb_true `{EqDecision A} (x y : A) : eqb x y = true ↔ x = y.
Proof. apply bool_decide_eq_true. Qed.
Lemma eqb_false `{EqDecision A} (x y : A) : eqb x y = false ↔ x ≠ y.
Proof. apply bool_decide_eq_false. Qed.
Lemma neqb_true `{EqDecision A} (x y : A) : neqb x y = true ↔ x ≠ y.
Proof. unfold neqb. rewrite negb_true_iff. apply eqb_false. Qed.
Lemma neqb_false `{EqDecision A} (x y : A) : neqb x y = false ↔ x = y.
Proof. unfold neqb. rewrite negb_false_iff. apply eqb_true. Qed.
Lemma eqb_refl `{EqDecision A} (x : A) : eqb x x = true.
Proof. by apply eqb_true. Qed.
Lemma neqb_refl `{EqDecision A} (x : A) : neqb x x = false.
Proof. by apply neqb_false. Qed.

(** Boolean conditions of the code, as propositions. *)
Create Rewrite HintDb boolprop.
#[export] Hint Rewrite @eqb_true @eqb_false @neqb_true @neqb_false
  orb_false_iff orb_true_iff andb_true_iff andb_false_iff negb_true_iff negb_false_iff
  N.eqb_eq N.eqb_neq N.ltb_lt N.ltb_ge N.leb_le N.leb_gt
  Nat.eqb_eq Nat.eqb_neq Nat.ltb_lt Nat.ltb_ge Nat.leb_le Nat.leb_gt : boolprop.
Ltac bool_prop := autorewrite with boolprop in *.

Definition ole `{Ord A} (x y : A) : Prop := cmp x y ≠ Gt.

(** A total preorder: what is left of the laws when [cmp] may answer [Eq] on
    values that differ. *)
Class TotalPreOrd (A : Type) {O : Ord A} : Prop := {
  pre_opp (x y : A) : cmp y x = CompOpp (cmp x y);
  pre_trans (x y z : A) : ole x y → ole y z → ole x z
}.
#[export] Hint Mode TotalPreOrd ! - : typeclass_instances.

Section preorder.
Context `{TotalPreOrd A}.
Implicit Types x y z : A.

Lemma ole_refl x : ole x x.
Proof. unfold ole. pose proof (pre_opp x x). by destruct (cmp x x). Qed.

Lemma ole_total x y : ole x y ∨ ole y x.
Proof. unfold ole. rewrite (pre_opp x y). destruct (cmp x y); naive_solver. Qed.

Lemma not_ole_Gt x y : ¬ ole x y ↔ cmp x y = Gt.
Proof. unfold ole. destruct (cmp x y); naive_solver. Qed.

Lemma Gt_ole x y : cmp x y = Gt → ole y x.
Proof. unfold ole. intros Hgt. by rewrite (pre_opp x y), Hgt. Qed.

Lemma Lt_ole x y : cmp x y = Lt → ole x y.
Proof. unfold ole. by intros ->. Qed.
End preorder.

Section lawful.
Context `{LawfulOrd A}.
Implicit Types x y z : A.

Lemma cmp_refl x : cmp x x = Eq.
Proof. by apply cmp_eq. Qed.

#[export] Instance lawful_preord : TotalPreOrd A.
Proof.
  split; [apply cmp_opp|]. intros x y z. unfold ole.
  destruct (cmp x y) eqn:Hxy; [apply cmp_eq in Hxy as ->; done| |done].
  destruct (cmp y z) eqn:Hyz; [apply cmp_eq in Hyz as ->; by rewrite Hxy| |done].
  by rewrite (cmp_lt_trans x y z).
Qed.

Lemma ole_antisym x y : ole x y → ole y x → x = y.
Proof.
  unfold ole. rewrite (cmp_opp x y).
  destruct (cmp x y) eqn:Hc; [by apply cmp_eq in Hc|done|done].
Qed.

Lemma ltb_lt x y : ltb x y = true ↔ cmp x y = Lt.
Proof. unfold ltb. destruct (cmp x y); naive_solver. Qed.
End lawful.

(** *** Instances *)

#[export] Instance N_ord : Ord N := N.compare.
#[export] Instance N_lawful : LawfulOrd N.
Proof.
  split; unfold cmp, N_ord.
  - apply N.compare_eq_iff.
  - intros x y. apply N.compare_antisym.
  - intros x y z. rewrite !N.compare_lt_iff. lia.
Qed.

(** An order pulled back along an injection (used for newtypes and fixed arrays). *)
Definition inj_ord {A B} `{Ord B} (f : A → B) : Ord A := λ x y, cmp (f x) (f y).
Lemma inj_lawful {A B} `{LawfulOrd B} (f : A → B) `{!Inj (=) (=) f} :
  @LawfulOrd A (inj_ord f).
Proof.
  split; change (@cmp A (inj_ord f)) with (λ x y, cmp (f x) (f y)); cbn beta.
  - intros x y. rewrite cmp_eq. split; [intros Hf; by apply (inj f) in Hf|congruence].
  - intros x y. apply cmp_opp.
  - intros x y z. apply cmp_lt_trans.
Qed.

(** Tuples compare lexicographically. *)
#[export] Instance prod_ord `{Ord A, Ord B} : Ord (A * B) :=
  λ x y, match cmp x.1 y.1 with Eq => cmp x.2 y.2 | c => c end.
Lemma prod_cmp `{Ord A, Ord B} (x1 y1 : A) (x2 y2 : B) :
  cmp (x1, x2) (y1, y2) = match cmp x1 y1 with Eq => cmp x2 y2 | c => c end.
Proof. done. Qed.
#[export] Instance prod_lawful `{LawfulOrd A, LawfulOrd B} : LawfulOrd (A * B).
Proof.
  split.
  - intros [x1 x2] [y1 y2]; rewrite prod_cmp. destruct (cmp x1 y1) eqn:E.
    + apply cmp_eq in E as ->. rewrite cmp_eq. naive_solver.
    + split; [done|]. intros [= -> ->]. by rewrite cmp_refl in E.
    + split; [done|]. intros [= -> ->]. by rewrite cmp_refl in E.
  - intros [x1 x2] [y1 y2]; rewrite !prod_cmp, (cmp_opp x1 y1), (cmp_opp x2 y2).
    by destruct (cmp x1 y1).
  - intros [x1 x2] [y1 y2] [z1 z2]; rewrite !prod_cmp.
    destruct (cmp x1 y1) eqn:E1; [|intros _|done].
    + apply cmp_eq in E1 as ->. intros Hxy.
      destruct (cmp y1 z1) eqn:E2; [|done|done]. by apply cmp_lt_trans.
    + destruct (cmp y1 z1) eqn:E2; [|intros _|done].
      * apply cmp_eq in E2 as ->. by rewrite E1.
      * by rewrite (cmp_lt_trans x1 y1 z1).
Qed.

(** [None < Some _]. *)
#[export] Instance option_ord `{Ord A} : Ord (option A) :=
  λ x y, match x, y with
         | None, None => Eq
         | None, Some _ => Lt
         | Some _, None => Gt
         | Some x, Some y => cmp x y
         end.
#[export] Instance option_lawful `{LawfulOrd A} : LawfulOrd (option A).
Proof.
  assert (Hu : ∀ x y : A, cmp (Some x) (Some y) = cmp x y) by done.
  split.
  - intros [x|] [y|]; try done. rewrite Hu, cmp_eq. naive_solver.
  - intros [x|] [y|]; try done. rewrite !Hu. apply cmp_opp.
  - intros [x|] [y|] [z|]; try done. rewrite !Hu. apply cmp_lt_trans.
Qed.

(** Slices and strings compare lexicographically. *)
#[export] Instance list_ord `{Ord A} : Ord (list A) :=
  fix go l k := match l, k with
    | [], [] => Eq
    | [], _ :: _ => Lt
    | _ :: _, [] => Gt
    | x :: l, y :: k => match cmp x y with Eq => go l k | c => c end
    end.
Lemma list_cmp_cons `{Ord A} (x y : A) (l k : list A) :
  cmp (x :: l) (y :: k) = match cmp x y with Eq => cmp l k | c => c end.
Proof. done. Qed.
#[export] Instance list_lawful `{LawfulOrd A} : LawfulOrd (list A).
Proof.
  split.
  - intros l. induction l as [|x l IH]; intros [|y k]; try done.
    rewrite list_cmp_cons. destruct (cmp x y) eqn:E.
    + apply cmp_eq in E as ->. rewrite IH. naive_solver.
    + split; [done|]. intros [= -> ->]. by rewrite cmp_refl in E.
    + split; [done|]. intros [= -> ->]. by rewrite cmp_refl in E.
  - intros l. induction l as [|x l IH]; intros [|y k]; try done.
    rewrite !list_cmp_cons, (cmp_opp x y), IH. by destruct (cmp x y).
  - intros l. induction l as [|x l IH]; intros [|y k] [|z m]; try done.
    rewrite !list_cmp_cons.
    destruct (cmp x y) eqn:E1; [|intros _|done].
    + apply cmp_eq in E1 as ->. destruct (cmp y z) eqn:E2; [|done|done]. by apply IH.
    + destruct (cmp y z) eqn:E2; [|intros _|done].
      * apply cmp_eq in E2 as ->. by rewrite E1.
      * by rewrite (cmp_lt_trans x y z).
Qed.

(** ** Iterator and slice operations *)

(** [Iterator::max]: the last of the maximal elements. *)
Definition max2 `{Ord A} (x y : A) : A := match cmp x y with Gt => x | _ => y end.
Fixpoint iter_max_from `{Ord A} (acc : A) (l : list A) : A :=
  match l with [] => acc | x :: l => iter_max_from (max2 acc x) l end.
Definition iter_max `{Ord A} (l : list A) : option A :=
  match l with [] => None | x :: l => Some (iter_max_from x l) end.

(** [Iterator::min_by] on a key: the first of the minimal elements. *)
Fixpoint iter_min_by_from {A K} `{Ord K} (key : A → K) (acc : A) (l : list A) : A :=
  match l with
  | [] => acc
  | x :: l => iter_min_by_from key (match cmp (key acc) (key x) with Gt => x | _ => acc end) l
  end.
Definition iter_min_by {A K} `{Ord K} (key : A → K) (l : list A) : option A :=
  match l with [] => None | x :: l => Some (iter_min_by_from key x l) end.

(** Stable sorting by a key ([slice::sort], [sort_by], [sort_by_key]). *)
Fixpoint insert_by {A K} `{Ord K} (key : A → K) (x : A) (l : list A) : list A :=
  match l with
  | [] => [x]
  | y :: l => match cmp (key x) (key y) with Gt => y :: insert_by key x l | _ => x :: y :: l end
  end.
Fixpoint sort_by {A K} `{Ord K} (key : A → K) (l : list A) : list A :=
  match l with [] => [] | x :: l => insert_by key x (sort_by key l) end.

(** [Vec::dedup_by_key]: drops an element whose key equals its kept predecessor's. *)
Fixpoint dedup_by_from {A K} `{EqDecision K} (key : A → K) (prev : A) (l : list A) : list A :=
  match l with
  | [] => []
  | x :: l => if eqb (key x) (key prev) then dedup_by_from key prev l
              else x :: dedup_by_from key x l
  end.
Definition dedup_by {A K} `{EqDecision K} (key : A → K) (l : list A) : list A :=
  match l with [] => [] | x :: l => x :: dedup_by_from key x l end.

(** [slice.windows(2).all(|pair| key(pair[0]) < key(pair[1]))]. *)
Fixpoint strictly_ascending {A K} `{Ord K} (key : A → K) (l : list A) : bool :=
  match l with
  | [] => true
  | x :: k => match k with
              | [] => true
              | y :: _ => ltb (key x) (key y) && strictly_ascending key k
              end
  end.

Section iter.
Context `{TotalPreOrd A}.
Implicit Types x y acc : A.

Lemma max2_spec x y : (max2 x y = x ∨ max2 x y = y) ∧ ole x (max2 x y) ∧ ole y (max2 x y).
Proof.
  unfold max2. destruct (cmp x y) eqn:E.
  - split_and!; [by right| |apply ole_refl]. unfold ole. by rewrite E.
  - split_and!; [by right| |apply ole_refl]. by apply Lt_ole.
  - split_and!; [by left|apply ole_refl|]. by apply Gt_ole.
Qed.

Lemma iter_max_from_spec l acc :
  (iter_max_from acc l ∈ acc :: l) ∧ ∀ x, x ∈ acc :: l → ole x (iter_max_from acc l).
Proof.
  revert acc; induction l as [|y l IH]; intros acc; cbn.
  - split; [by left|]. intros x [->|Hx]%elem_of_cons; [apply ole_refl|by inversion Hx].
  - destruct (IH (max2 acc y)) as [Hin Hle], (max2_spec acc y) as (Hm & Hla & Hly).
    split.
    + apply elem_of_cons in Hin as [Heq|Hin]; [|by right; right].
      rewrite Heq. destruct Hm as [->| ->]; [by left|by right; left].
    + intros x [->|[->|Hx]%elem_of_cons]%elem_of_cons.
      * eapply pre_trans; [exact Hla|]. apply Hle. by left.
      * eapply pre_trans; [exact Hly|]. apply Hle. by left.
      * apply Hle. by right.
Qed.

Lemma iter_max_Some l m :
  iter_max l = Some m → m ∈ l ∧ ∀ x, x ∈ l → ole x m.
Proof. destruct l as [|x l]; [done|]. intros [= <-]. apply iter_max_from_spec. Qed.

Lemma iter_max_None (l : list A) : iter_max l = None ↔ l = [].
Proof. by destruct l. Qed.
End iter.

Section sorting.
Context {A K : Type} `{LawfulOrd K} `{!EqDecision K} (key : A → K).
Implicit Types l : list A.

Lemma insert_by_perm x l : insert_by key x l ≡ₚ x :: l.
Proof.
  induction l as [|y l IH]; cbn; [done|].
  destruct (cmp (key x) (key y)); [done|done|]. rewrite IH. apply Permutation_swap.
Qed.

Lemma sort_by_perm l : sort_by key l ≡ₚ l.
Proof. induction l as [|x l IH]; cbn; [done|]. by rewrite insert_by_perm, IH. Qed.

Definition key_le (x y : A) : Prop := ole (key x) (key y).
Definition key_lt (x y : A) : Prop := cmp (key x) (key y) = Lt.

Lemma key_le_trans x y z : key_le x y → key_le y z → key_le x z.
Proof. apply (pre_trans (key x) (key y) (key z)). Qed.
Lemma key_lt_trans x y z : key_lt x y → key_lt y z → key_lt x z.
Proof. apply (cmp_lt_trans (key x) (key y) (key z)). Qed.

Lemma insert_by_sorted x l :
  StronglySorted key_le l → StronglySorted key_le (insert_by key x l).
Proof.
  induction 1 as [|y l Hs IH Hy]; cbn; [repeat constructor|].
  destruct (cmp (key x) (key y)) eqn:E.
  - assert (key_le x y) by (unfold key_le, ole; by rewrite E).
    repeat constructor; try done.
    eapply Forall_impl; [exact Hy|]. intros z. by apply key_le_trans.
  - assert (key_le x y) by by apply Lt_ole.
    repeat constructor; try done.
    eapply Forall_impl; [exact Hy|]. intros z. by apply key_le_trans.
  - constructor; [done|]. rewrite insert_by_perm. constructor; [by apply Gt_ole|done].
Qed.

Lemma sort_by_sorted l : StronglySorted key_le (sort_by key l).
Proof. induction l; cbn; [constructor|by apply insert_by_sorted]. Qed.

Lemma dedup_by_from_sublist x l : dedup_by_from key x l `sublist_of` l.
Proof.
  revert x; induction l as [|y l IH]; intros x; cbn; [done|].
  destruct (eqb _ _); [by apply sublist_cons|by apply sublist_skip].
Qed.

Lemma dedup_by_sublist l : dedup_by key l `sublist_of` l.
Proof. destruct l; cbn; [done|]. apply sublist_skip, dedup_by_from_sublist. Qed.

Lemma dedup_by_from_ascending x l :
  StronglySorted key_le (x :: l) → StronglySorted key_lt (x :: dedup_by_from key x l).
Proof.
  revert x; induction l as [|y l IH]; intros x; cbn; [repeat constructor|].
  inversion 1 as [|? ? Hs Hx]; subst. inversion Hs as [|? ? Hs' Hy]; subst.
  inversion Hx as [|? ? Hxy Hx']; subst.
  destruct (eqb (key y) (key x)) eqn:E.
  - apply IH. by constructor.
  - apply eqb_false in E. assert (key_lt x y) as Hlt.
    { unfold key_lt, key_le, ole in *. destruct (cmp (key x) (key y)) eqn:C; [|done|done].
      by apply cmp_eq in C. }
    specialize (IH y Hs). inversion IH as [|? ? HsI HyI]; subst.
    repeat constructor; try done. eapply Forall_impl; [exact HyI|].
    intros z. by apply key_lt_trans.
Qed.

Lemma dedup_by_ascending l :
  StronglySorted key_le l → StronglySorted key_lt (dedup_by key l).
Proof. destruct l; cbn; [constructor|]. apply dedup_by_from_ascending. Qed.

Lemma strictly_ascending_spec l : strictly_ascending key l = true ↔ StronglySorted key_lt l.
Proof.
  induction l as [|x l IH]; [split; [constructor|done]|].
  destruct l as [|y l].
  - split; [repeat constructor|done].
  - change (strictly_ascending key (x :: y :: l))
      with (ltb (key x) (key y) && strictly_ascending key (y :: l)).
    rewrite andb_true_iff, IH, ltb_lt. split.
    + intros [Hlt Hs]. constructor; [done|]. inversion Hs as [|? ? Hs' Hy]; subst.
      constructor; [done|]. eapply Forall_impl; [exact Hy|]. intros z. by apply key_lt_trans.
    + inversion 1 as [|? ? Hs Hx]; subst. inversion Hx; subst. done.
Qed.

Lemma sort_by_ascending l : StronglySorted key_lt l → sort_by key l = l.
Proof.
  induction 1 as [|x l Hs IH Hx]; cbn; [done|]. rewrite IH.
  destruct Hx as [|y l Hxy Hx]; cbn; [done|]. by rewrite Hxy.
Qed.

Lemma dedup_by_from_id x l : StronglySorted key_lt (x :: l) → dedup_by_from key x l = l.
Proof.
  revert x; induction l as [|y l IH]; intros x; cbn; [done|].
  inversion 1 as [|? ? Hs Hx]; subst. inversion Hx as [|? ? Hxy _]; subst.
  assert (eqb (key y) (key x) = false) as ->.
  { apply eqb_false. intros Heq. unfold key_lt in Hxy. by rewrite Heq, cmp_refl in Hxy. }
  f_equal. by apply IH.
Qed.

Lemma dedup_by_id l : StronglySorted key_lt l → dedup_by key l = l.
Proof. destruct l; cbn; [done|]. intros. f_equal. by apply dedup_by_from_id. Qed.

Lemma ascending_NoDup l : StronglySorted key_lt l → NoDup (key <$> l).
Proof.
  induction 1 as [|x l Hs IH Hx]; cbn; constructor; [|done].
  intros (y & Heq & Hy)%list_elem_of_fmap. rewrite Forall_forall in Hx.
  specialize (Hx y Hy). unfold key_lt in Hx. by rewrite Heq, cmp_refl in Hx.
Qed.
End sorting.

(** Sorting by the values themselves forgets the order of the input. *)
Lemma sort_id_unique `{LawfulOrd A} `{!EqDecision A} (l k : list A) :
  l ≡ₚ k → sort_by id l = sort_by id k.
Proof.
  intros Hp. assert (AntiSymm (=) (key_le (id : A → A))) by (intros x y; apply ole_antisym).
  apply (StronglySorted_unique (key_le id)); [apply sort_by_sorted..|].
  by rewrite !sort_by_perm.
Qed.

(** ** Quorums *)

(** Two duplicate-free selections from [m] whose sizes add up to more than [m] share a member. *)
Lemma quorum_overlap {A} `{EqDecision A} (m q1 q2 : list A) :
  NoDup q1 → NoDup q2 → q1 ⊆ m → q2 ⊆ m →
  length m < length q1 + length q2 →
  ∃ x, x ∈ q1 ∧ x ∈ q2.
Proof.
  intros H1 H2 S1 S2 Hlen.
  destruct (decide (Exists (λ x, x ∈ q2) q1)) as [Hex|Hno].
  { apply Exists_exists in Hex. naive_solver. }
  exfalso. assert (NoDup (q1 ++ q2)) as Hnd.
  { apply NoDup_app. split_and!; [done| |done]. intros x Hx Hx2.
    apply Hno, Exists_exists. eauto. }
  assert (q1 ++ q2 ⊆ m) as Hs by set_solver.
  pose proof (NoDup_submseteq _ _ Hnd Hs) as Hsub%submseteq_length.
  rewrite length_app in Hsub. lia.
Qed.
