(* ===== verification/Bytes.v ===== *)
(** * Bytes: machine integers, slices, UTF-8 and cursor readers

    What the Rust sources use of the language: [u8], [uN::to_be_bytes],
    [uN::from_be_bytes], [checked_add], [slice.get(a..b)] and
    [std::str::from_utf8]; and the way the codecs are reasoned about: a reader
    takes the whole buffer and a cursor and returns a value and a new cursor. *)

From S2P Require Import Prelude.
From Stdlib Require Strings.Byte.

Abbreviation byte := Byte.byte.
Abbreviation bytes := (list Byte.byte).

Arguments Byte.to_N : simpl never.
Arguments Byte.of_N : simpl never.

#[export] Instance byte_eq_dec : EqDecision byte := Byte.byte_eq_dec.

#[export] Instance byte_ord : Ord byte := inj_ord Byte.to_N.
Lemma to_N_inj : Inj (=) (=) Byte.to_N.
Proof.
  intros x y Hxy. pose proof (Byte.of_to_N x) as Hx. rewrite Hxy, Byte.of_to_N in Hx. congruence.
Qed.
#[export] Existing Instance to_N_inj.
#[export] Instance byte_lawful : LawfulOrd byte.
Proof. apply (inj_lawful Byte.to_N). Qed.

#[export] Instance byte_countable : Countable byte.
Proof. refine (inj_countable Byte.to_N Byte.of_N _). apply Byte.of_to_N. Defined.

(** ** Machine integers are values of [N] below their width. *)

Definition u8_max : N := 2 ^ 8 - 1.
Definition u16_max : N := 2 ^ 16 - 1.
Definition u32_max : N := 2 ^ 32 - 1.
Definition u64_max : N := 2 ^ 64 - 1.
Definition is_u16 (n : N) : bool := (n <=? u16_max)%N.
Definition is_u32 (n : N) : bool := (n <=? u32_max)%N.
Definition is_u64 (n : N) : bool := (n <=? u64_max)%N.

(** [u64::checked_add] and [usize::checked_add] on a 64-bit target. *)
Definition checked_add (a b : N) : option N :=
  if (a + b <=? u64_max)%N then Some (a + b)%N else None.
Definition saturating_add (a b : N) : N := N.min (a + b) u64_max.

Lemma checked_add_Some a b c : checked_add a b = Some c ↔ c = (a + b)%N ∧ (a + b ≤ u64_max)%N.
Proof. unfold checked_add. destruct (N.leb_spec (a + b) u64_max); naive_solver lia. Qed.

(** ** Bytes of an integer *)

Definition byte_of_N (n : N) : byte :=
  match Byte.of_N (n mod 256) with Some b => b | None => Byte.x00 end.

Lemma to_N_of_N n : Byte.to_N (byte_of_N n) = (n mod 256)%N.
Proof.
  unfold byte_of_N. destruct (Byte.of_N (n mod 256)) as [b|] eqn:E.
  - by apply Byte.to_of_N.
  - apply Byte.of_N_None_iff in E. pose proof (N.mod_lt n 256). lia.
Qed.

Lemma to_N_bound (b : byte) : (Byte.to_N b < 256)%N.
Proof. pose proof (Byte.to_N_bounded b). lia. Qed.

Lemma of_N_to_N (b : byte) : byte_of_N (Byte.to_N b) = b.
Proof. apply to_N_inj. rewrite to_N_of_N. apply N.mod_small, to_N_bound. Qed.

(** [n.to_be_bytes()] of a [k]-byte integer, and [from_be_bytes]. *)
Fixpoint be_bytes (k : nat) (n : N) : bytes :=
  match k with
  | O => []
  | S k => be_bytes k (n / 256) ++ [byte_of_N n]
  end.
Definition be_value (l : bytes) : N := fold_left (λ acc b, acc * 256 + Byte.to_N b)%N l 0%N.
Arguments be_value : simpl never.

Lemma be_value_snoc l b : be_value (l ++ [b]) = (be_value l * 256 + Byte.to_N b)%N.
Proof. unfold be_value. by rewrite fold_left_app. Qed.

Lemma length_be_bytes k n : length (be_bytes k n) = k.
Proof. revert n; induction k as [|k IH]; intros n; cbn; [done|]. rewrite length_app, IH. cbn. lia. Qed.

Lemma be_value_bytes k n : (n < 256 ^ N.of_nat k)%N → be_value (be_bytes k n) = n.
Proof.
  revert n; induction k as [|k IH]; intros n Hn; cbn.
  - cbn in Hn. unfold be_value; cbn. lia.
  - rewrite be_value_snoc, IH, to_N_of_N.
    + rewrite (N.div_mod n 256) at 3 by done. lia.
    + rewrite Nat2N.inj_succ, N.pow_succ_r in Hn by lia. apply N.Div0.div_lt_upper_bound; lia.
Qed.

Lemma be_bytes_value l : be_bytes (length l) (be_value l) = l.
Proof.
  induction l as [|b l IH] using rev_ind; [done|].
  rewrite length_app, Nat.add_1_r. cbn. rewrite be_value_snoc.
  pose proof (to_N_bound b).
  assert ((be_value l * 256 + Byte.to_N b) / 256 = be_value l)%N as ->.
  { symmetry. apply (N.div_unique _ _ _ (Byte.to_N b)); lia. }
  rewrite IH. f_equal. f_equal. apply to_N_inj. rewrite to_N_of_N.
  rewrite N.add_comm, N.Div0.mod_add. apply N.mod_small; lia.
Qed.

Lemma be_value_bound l : (be_value l < 256 ^ N.of_nat (length l))%N.
Proof.
  induction l as [|b l IH] using rev_ind; [done|].
  rewrite be_value_snoc, length_app, Nat.add_1_r, Nat2N.inj_succ, N.pow_succ_r by lia.
  pose proof (to_N_bound b). lia.
Qed.

Arguments be_bytes : simpl never.

(** ASCII literals such as [b"QCMD"]. *)
Definition lit (s : string) : bytes := String.list_byte_of_string s.

(** ** Slices *)

Definition blen (l : bytes) : N := N.of_nat (length l).

Lemma blen_app l k : blen (l ++ k) = (blen l + blen k)%N.
Proof. unfold blen. rewrite length_app. lia. Qed.
Lemma blen_be_bytes k n : blen (be_bytes k n) = N.of_nat k.
Proof. unfold blen. by rewrite length_be_bytes. Qed.
Lemma blen_cons b l : blen (b :: l) = (1 + blen l)%N.
Proof. unfold blen. cbn. lia. Qed.
Lemma blen_nil : blen [] = 0%N.
Proof. done. Qed.

Create Rewrite HintDb blen.
#[export] Hint Rewrite blen_app blen_be_bytes blen_cons blen_nil : blen.
(** [blen_lia] closes equations between lengths of concatenations. *)
Ltac blen_lia := autorewrite with blen in *; lia.

(** [bytes.get(a..b)] *)
Definition slice (l : bytes) (a b : N) : option bytes :=
  if (a <=? b)%N && (b <=? blen l)%N
  then Some (take (N.to_nat (b - a)) (drop (N.to_nat a) l)) else None.
(** [&bytes[a..b]] under a guard that keeps the range inside the buffer, so
    that the panic of direct indexing cannot be reached. *)
Definition index_range (l : bytes) (a b : N) : bytes := default [] (slice l a b).
(** [bytes.get(i)] *)
Definition byte_at (l : bytes) (i : N) : option byte :=
  if (i <? blen l)%N then l !! N.to_nat i else None.

Lemma slice_app p m s : slice (p ++ m ++ s) (blen p) (blen p + blen m) = Some m.
Proof.
  unfold slice. rewrite !blen_app.
  destruct (N.leb_spec (blen p) (blen p + blen m)) as [_|]; [|lia].
  destruct (N.leb_spec (blen p + blen m) (blen p + (blen m + blen s))) as [_|]; [|lia].
  cbn. f_equal. unfold blen.
  replace (N.to_nat (N.of_nat (length p) + N.of_nat (length m) - N.of_nat (length p)))
    with (length m) by lia.
  replace (N.to_nat (N.of_nat (length p))) with (length p) by lia.
  by rewrite drop_app_length, take_app_length.
Qed.

Lemma slice_Some l a b m :
  slice l a b = Some m ↔ ∃ p s, l = p ++ m ++ s ∧ blen p = a ∧ (a + blen m)%N = b.
Proof.
  split.
  - unfold slice. destruct (N.leb_spec a b); [|done]. destruct (N.leb_spec b (blen l)); [|done].
    cbn. intros [= <-]. unfold blen in *.
    exists (take (N.to_nat a) l), (drop (N.to_nat b) l).
    split_and!.
    + rewrite <-(take_drop (N.to_nat a) l) at 1. f_equal.
      rewrite <-(take_drop (N.to_nat (b - a)) (drop (N.to_nat a) l)) at 1. f_equal.
      rewrite drop_drop. f_equal. lia.
    + rewrite length_take. lia.
    + rewrite length_take, length_drop. lia.
  - intros (p & s & -> & <- & <-). apply slice_app.
Qed.

Lemma slice_at l p m s a b :
  l = p ++ m ++ s → a = blen p → b = (a + blen m)%N → slice l a b = Some m.
Proof. intros -> -> ->. apply slice_app. Qed.

Lemma slice_full l : slice l 0 (blen l) = Some l.
Proof. apply slice_Some. exists [], []. rewrite app_nil_r. done. Qed.

(** The fields of a layout: the [i]th part of a concatenation stands between
    the lengths of what precedes it and of what it completes. *)
Lemma slice_part (parts : list bytes) (i : nat) m a b :
  parts !! i = Some m → a = blen (concat (take i parts)) → b = (a + blen m)%N →
  slice (concat parts) a b = Some m.
Proof.
  intros Hi. apply slice_at with (s := concat (drop (S i) parts)).
  rewrite <-(take_drop_middle parts i m Hi) at 1. by rewrite concat_app.
Qed.

Lemma index_range_Some l a b m : slice l a b = Some m → index_range l a b = m.
Proof. unfold index_range. by intros ->. Qed.

Lemma slice_whole l m : slice l 0 (blen l) = Some m → l = m.
Proof. rewrite slice_full. by intros [= ->]. Qed.

Lemma slice_in_range l a b : (a ≤ b)%N → (b ≤ blen l)%N → ∃ m, slice l a b = Some m.
Proof.
  intros. unfold slice. destruct (N.leb_spec a b); [|lia]. destruct (N.leb_spec b (blen l)); [|lia].
  by eexists.
Qed.

Lemma slice_length l a b m : slice l a b = Some m → blen m = (b - a)%N ∧ (a ≤ b ≤ blen l)%N.
Proof. intros (p & s & -> & <- & <-)%slice_Some. rewrite !blen_app. lia. Qed.

Lemma slice_snoc_parts l a b c m1 m2 :
  slice l a b = Some m1 → slice l b c = Some m2 → slice l a c = Some (m1 ++ m2).
Proof.
  intros (p & s & -> & <- & <-)%slice_Some (p' & s' & Heq & Hp & <-)%slice_Some.
  rewrite app_assoc in Heq.
  apply app_inj_1 in Heq as [<- Heq].
  2:{ unfold blen in *. rewrite length_app. lia. }
  subst s. apply slice_Some. exists p, s'. rewrite blen_app, <-app_assoc. split_and!; [done|done|lia].
Qed.

Lemma index_range_slice l a b :
  (a ≤ b)%N → (b ≤ blen l)%N → slice l a b = Some (index_range l a b).
Proof.
  intros Ha Hb. destruct (slice_in_range l a b Ha Hb) as [m Hm].
  by rewrite (index_range_Some _ _ _ _ Hm).
Qed.

(** A big-endian field read out of a buffer, written back. *)
Lemma be_bytes_of_slice k l a b m :
  slice l a b = Some m → (b - a)%N = N.of_nat k → be_bytes k (be_value m) = m.
Proof.
  intros [Hm _]%slice_length Hk. assert (length m = k) as <- by (unfold blen in Hm; lia).
  apply be_bytes_value.
Qed.

Lemma slice_prefix (m l : bytes) : slice (m ++ l) 0 (blen m) = Some m.
Proof. apply (slice_app [] m l). Qed.

Lemma byte_at_app p b s : byte_at (p ++ b :: s) (blen p) = Some b.
Proof.
  unfold byte_at, blen. rewrite length_app. cbn.
  destruct (N.ltb_spec (N.of_nat (length p)) (N.of_nat (length p + S (length s)))); [|lia].
  rewrite Nat2N.id. by rewrite lookup_app_r, Nat.sub_diag by lia.
Qed.

Lemma byte_at_slice l i b : byte_at l i = Some b ↔ slice l i (i + 1) = Some [b].
Proof.
  split.
  - unfold byte_at. destruct (N.ltb_spec i (blen l)); [|done]. intros Hl.
    apply slice_Some. apply list_elem_of_split_length in Hl as (p & s & -> & Hlen).
    exists p, s. unfold blen. split_and!; [done| |cbn]; lia.
  - intros (p & s & -> & <- & _)%slice_Some. cbn. apply byte_at_app.
Qed.

(** ** UTF-8: [std::str::from_utf8] accepts exactly these byte sequences

    A Rust [String] is modelled by its UTF-8 bytes; [is_str] is the invariant
    of the type. *)

Definition in_range (b : byte) (lo hi : N) : bool :=
  (lo <=? Byte.to_N b)%N && (Byte.to_N b <=? hi)%N.
Definition continuation (b : byte) : bool := in_range b 128 191.

Fixpoint is_str (l : bytes) : bool :=
  match l with
  | [] => true
  | b :: l =>
      if in_range b 0 127 then is_str l
      else if in_range b 194 223 then
        match l with c1 :: l => continuation c1 && is_str l | _ => false end
      else if in_range b 224 239 then
        match l with
        | c1 :: c2 :: l =>
            (if in_range b 224 224 then in_range c1 160 191
             else if in_range b 237 237 then in_range c1 128 159
             else continuation c1) && continuation c2 && is_str l
        | _ => false
        end
      else if in_range b 240 244 then
        match l with
        | c1 :: c2 :: c3 :: l =>
            (if in_range b 240 240 then in_range c1 144 191
             else if in_range b 244 244 then in_range c1 128 143
             else continuation c1) && continuation c2 && continuation c3 && is_str l
        | _ => false
        end
      else false
  end.

Definition from_utf8 {E} (l : bytes) (e : E) : result E bytes :=
  if is_str l then Ok l else Err e.

Lemma from_utf8_Ok {E} (l k : bytes) (e : E) : from_utf8 l e = Ok k ↔ k = l ∧ is_str l = true.
Proof. unfold from_utf8. destruct (is_str l); naive_solver. Qed.

(** ** Cursor readers *)

Definition reader (E A : Type) : Type := bytes → N → result E (A * N).

(** [reads rd enc a]: wherever [enc] stands in a buffer, [rd] reads it as [a]
    and leaves the cursor behind it. *)
Definition reads {E A} (rd : reader E A) (enc : bytes) (a : A) : Prop :=
  ∀ p s, (blen (p ++ enc ++ s) ≤ u64_max)%N →
    rd (p ++ enc ++ s) (blen p) = Ok (a, blen p + blen enc)%N.

(** [consumes rd enc]: whatever [rd] reads stands in the buffer in its encoded form. *)
Definition consumes {E A} (rd : reader E A) (enc : A → bytes) : Prop :=
  ∀ l c a c', rd l c = Ok (a, c') → slice l c c' = Some (enc a).

Lemma reads_at {E A} (rd : reader E A) enc a p s l c :
  reads rd enc a → l = p ++ enc ++ s → c = blen p → (blen l ≤ u64_max)%N →
  rd l c = Ok (a, c + blen enc)%N.
Proof. intros Hr -> -> Hl. by apply Hr. Qed.

Definition bind_reader {E A B} (rd : reader E A) (k : A → reader E B) : reader E B :=
  λ l c, '(a, c) ← rd l c; k a l c.

Lemma reads_bind {E A B} (rd : reader E A) (k : A → reader E B) e1 e2 a b :
  reads rd e1 a → reads (k a) e2 b → reads (bind_reader rd k) (e1 ++ e2) b.
Proof.
  intros H1 H2 p s Hl. unfold bind_reader.
  rewrite <-app_assoc in *. rewrite H1 by done. cbn.
  erewrite (reads_at (k a) e2 b (p ++ e1) s); [|done|by rewrite <-!app_assoc|by rewrite blen_app|done].
  rewrite blen_app. f_equal. f_equal. lia.
Qed.

Lemma reads_ret {E A} (a : A) : reads (E := E) (λ _ c, Ok (a, c)) [] a.
Proof. intros p s _. rewrite blen_nil, N.add_0_r. done. Qed.

(** A fixed number of repetitions: [(0..n).map(|_| rd(bytes, cursor)).collect()]. *)
Fixpoint read_many {E A} (rd : reader E A) (n : nat) : reader E (list A) :=
  match n with
  | O => λ _ c, Ok ([], c)
  | S n => λ l c, '(a, c) ← rd l c; '(r, c) ← read_many rd n l c; Ok (a :: r, c)
  end.

Lemma reads_many {E A} (rd : reader E A) (enc : A → bytes) (l : list A) :
  Forall (λ a, reads rd (enc a) a) l →
  reads (read_many rd (length l)) (concat (enc <$> l)) l.
Proof.
  induction 1 as [|a l Ha Hl IH]; [apply reads_ret|].
  cbn [length fmap list_fmap concat].
  change (reads (bind_reader rd (λ a, bind_reader (read_many rd (length l))
    (λ r _ c, Ok (a :: r, c)))) (enc a ++ concat (enc <$> l)) (a :: l)).
  eapply reads_bind; [exact Ha|].
  rewrite <-(app_nil_r (concat _)). eapply reads_bind; [exact IH|apply reads_ret].
Qed.

Lemma read_many_consumes {E A} (rd : reader E A) (enc : A → bytes) n l c r c' :
  consumes rd enc → read_many rd n l c = Ok (r, c') → (c ≤ blen l)%N →
  slice l c c' = Some (concat (enc <$> r)) ∧ length r = n.
Proof.
  intros Hc. revert c r; induction n as [|n IH]; intros c r Hr Hle; cbn in Hr.
  - injection Hr as <- <-. split; [|done]. cbn. apply slice_Some.
    destruct (slice l 0 c) as [p|] eqn:Hp.
    + apply slice_Some in Hp as (p0 & s & -> & Hp0 & Hb).
      exists (p0 ++ p), s. rewrite <-app_assoc, blen_app, blen_nil. split_and!; [done|lia|lia].
    + unfold slice in Hp. destruct (N.leb_spec 0 c); [|lia]. destruct (N.leb_spec c (blen l)); [done|lia].
  - res_inv. apply Hc in Hok as Hs1. apply slice_length in Hs1 as Hb.
    apply IH in Hok0 as [Hs2 Hlen]; [|lia]. split; [|cbn; lia].
    cbn. eapply slice_snoc_parts; eauto.
Qed.

(** The shape every fixed-width field reader has: take [k] bytes and convert them. *)
Definition read_field {E A} (k : N) (conv : bytes → option A) (e : E) : reader E A := λ l c,
  c' ← ok_or (checked_add c k) e;
  m ← ok_or (slice l c c') e;
  a ← ok_or (conv m) e; Ok (a, c').

Lemma reads_field {E A} k (conv : bytes → option A) (e : E) m a :
  blen m = k → conv m = Some a → reads (read_field k conv e) m a.
Proof.
  intros <- Hc p s Hl. unfold read_field.
  assert (checked_add (blen p) (blen m) = Some (blen p + blen m)%N) as ->.
  { apply checked_add_Some. rewrite !blen_app in Hl. lia. }
  cbn. rewrite slice_app. cbn. by rewrite Hc.
Qed.

Lemma consumes_field {E A} k (conv : bytes → option A) (e : E) (enc : A → bytes) :
  (∀ m a, blen m = k → conv m = Some a → enc a = m) → consumes (read_field k conv e) enc.
Proof.
  intros Henc l c a c' Hr. unfold read_field in Hr. res_inv.
  apply checked_add_Some in Hok as [-> _]. rewrite Hok0. f_equal. symmetry. apply Henc; [|done].
  apply slice_length in Hok0 as [-> _]. lia.
Qed.

Lemma consumes_bounds {E A} (rd : reader E A) enc l c a c' :
  consumes rd enc → rd l c = Ok (a, c') → c' = (c + blen (enc a))%N ∧ (c' ≤ blen l)%N.
Proof. intros Hc Hr. apply Hc in Hr. apply slice_length in Hr as [Hb ?]. lia. Qed.

Lemma reads_ext {E A} (rd rd' : reader E A) enc a :
  (∀ l c, rd l c = rd' l c) → reads rd' enc a → reads rd enc a.
Proof. intros Hext Hr p s Hl. rewrite Hext. by apply Hr. Qed.

Lemma consumes_ext {E A} (rd rd' : reader E A) enc :
  (∀ l c, rd l c = rd' l c) → consumes rd' enc → consumes rd enc.
Proof. intros Hext Hr l c a c'. rewrite Hext. apply Hr. Qed.

(** A reader on a buffer that ends with what it reads. *)
Lemma reads_whole {E A} (rd : reader E A) enc a p l c :
  reads rd enc a → l = p ++ enc → c = blen p → (blen l ≤ u64_max)%N → rd l c = Ok (a, blen l).
Proof.
  intros Hr -> -> Hl. specialize (Hr p []). rewrite app_nil_r in Hr. rewrite Hr by done.
  by rewrite blen_app.
Qed.

(** What is left of a buffer at a cursor. *)
Definition at_pos (l : bytes) (c : N) (rest : bytes) : Prop := ∃ p, l = p ++ rest ∧ c = blen p.

Lemma at_pos_start (p m s : bytes) : at_pos (p ++ m ++ s) (blen p) (m ++ s).
Proof. by exists p. Qed.
Lemma at_pos_zero (l : bytes) : at_pos l 0 l.
Proof. by exists []. Qed.
Lemma at_pos_step l c m rest : at_pos l c (m ++ rest) → at_pos l (c + blen m) rest.
Proof. intros (p & -> & ->). exists (p ++ m). by rewrite <-app_assoc, blen_app. Qed.
Lemma at_pos_slice l c m rest : at_pos l c (m ++ rest) → slice l c (c + blen m) = Some m.
Proof. intros (p & -> & ->). apply slice_app. Qed.
Lemma at_pos_byte l c b rest : at_pos l c (b :: rest) → byte_at l c = Some b.
Proof. intros (p & -> & ->). apply byte_at_app. Qed.
Lemma at_pos_end l c : at_pos l c [] → c = blen l.
Proof. intros (p & -> & ->). by rewrite app_nil_r. Qed.

Lemma reads_step {E A B} (rd : reader E A) enc a rest l c (k : A → N → result E B) :
  at_pos l c (enc ++ rest) → reads rd enc a → (blen l ≤ u64_max)%N →
  (rd l c ≫= λ '(a', c'), k a' c') = k a (c + blen enc)%N.
Proof. intros (p & -> & ->) Hr Hl. by rewrite Hr. Qed.

(** [read_next] runs the next reader of a decoder on a buffer whose remaining
    layout at the cursor is known. *)
Create HintDb codec.
Ltac read_next :=
  match goal with
  | Hat : at_pos ?l ?c (?enc ++ ?rest), Hl : (blen ?l ≤ u64_max)%N |- _ =>
      etransitivity; [eapply (reads_step _ enc _ rest l c); [exact Hat|solve [eauto with codec]|exact Hl]|];
      apply at_pos_step in Hat; cbn beta iota
  end.

(** [consume_all] glues the slices that a decoder consumed. *)
Lemma slice_empty l c : (c ≤ blen l)%N → slice l c c = Some [].
Proof.
  intros. unfold slice. destruct (N.leb_spec c c); [|lia]. destruct (N.leb_spec c (blen l)); [|lia].
  by rewrite N.sub_diag.
Qed.
Ltac consume_all :=
  repeat match goal with
  | |- slice _ _ _ = Some (_ ++ _) =>
      eapply slice_snoc_parts; [solve [eassumption | eauto with codec]|]
  end; try solve [eassumption | eauto with codec].
