(* ===== verification/Text.v ===== *)
(** * Text: decimal numerals and string slicing

    What the sources use of Rust's formatting and string library: the decimal
    form of an integer ([format!("{n}")] and its zero-padded form), its parser
    ([str::parse::<usize>]), [strip_prefix], [split_once] and slicing a string
    at a character boundary. *)

From S2P Require Import Prelude Bytes.
From Stdlib Require Strings.Byte.

Definition digit (d : N) : byte := byte_of_N (48 + d).
Definition is_digit (b : byte) : bool := in_range b 48 57.
Definition digit_value (b : byte) : N := (Byte.to_N b - 48)%N.

(** The last [k] decimal digits of [n], most significant first. *)
Fixpoint low_digits (k : nat) (n : N) : bytes :=
  match k with
  | O => []
  | S k => low_digits k (n / 10) ++ [digit (n mod 10)]
  end.

(** The number of decimal digits of [n]; a 64-bit integer has at most twenty. *)
Fixpoint digit_count (fuel : nat) (n : N) : nat :=
  match fuel with
  | O => 1
  | S fuel => if (n <? 10)%N then 1 else S (digit_count fuel (n / 10))
  end.

(** [format!("{n}")] *)
Definition decimal (n : N) : bytes := low_digits (digit_count 20 n) n.
(** [format!("{n:0w}")] *)
Definition decimal_padded (w : nat) (n : N) : bytes := low_digits (max w (digit_count 20 n)) n.

Definition digits_value (l : bytes) : N := fold_left (λ acc b, acc * 10 + digit_value b)%N l 0%N.

(** [str::parse::<usize>]: an optional plus sign, then at least one digit, no overflow. *)
Definition parse_usize (l : bytes) : option N :=
  let digits := match l with b :: r => if eqb b Byte.x2b then r else l | [] => l end in
  match digits with
  | [] => None
  | _ => if forallb is_digit digits && (digits_value digits <=? u64_max)%N
         then Some (digits_value digits) else None
  end.

Definition strip_prefix (prefix l : bytes) : option bytes :=
  if eqb (take (length prefix) l) prefix then Some (drop (length prefix) l) else None.

(** [l.split_once(sep)] at the first occurrence. *)
Fixpoint split_once (sep : byte) (l : bytes) : option (bytes * bytes) :=
  match l with
  | [] => None
  | b :: l => if eqb b sep then Some ([], l)
              else '(x, y) ← split_once sep l; Some (b :: x, y)
  end.

(** [str::is_char_boundary] *)
Definition char_boundary (l : bytes) (i : N) : bool :=
  (i =? 0)%N || (i =? blen l)%N
  || match byte_at l i with Some b => negb (continuation b) | None => false end.
(** [s.get(..i)] and [s.get(i..)] *)
Definition str_prefix (l : bytes) (i : N) : option bytes :=
  if char_boundary l i then slice l 0 i else None.
Definition str_suffix (l : bytes) (i : N) : option bytes :=
  if char_boundary l i then slice l i (blen l) else None.

(** ** Decimal round trip *)

Lemma digit_value_digit d : (d < 10)%N → digit_value (digit d) = d.
Proof. intros Hd. unfold digit_value, digit. rewrite to_N_of_N, N.mod_small by lia. lia. Qed.
Lemma is_digit_digit d : (d < 10)%N → is_digit (digit d) = true.
Proof.
  intros Hd. unfold is_digit, in_range, digit. rewrite to_N_of_N, N.mod_small by lia.
  apply andb_true_iff. rewrite !N.leb_le. lia.
Qed.

Lemma digits_value_snoc l b : digits_value (l ++ [b]) = (digits_value l * 10 + digit_value b)%N.
Proof. unfold digits_value. by rewrite fold_left_app. Qed.

Lemma low_digits_value k n : digits_value (low_digits k n) = (n mod 10 ^ N.of_nat k)%N.
Proof.
  revert n; induction k as [|k IH]; intros n; cbn [low_digits].
  - cbn. by rewrite N.mod_1_r.
  - rewrite digits_value_snoc, IH, digit_value_digit by (apply N.mod_lt; done).
    rewrite Nat2N.inj_succ, N.pow_succ_r by lia.
    rewrite N.Div0.mod_mul_r. lia.
Qed.
Lemma low_digits_digits k n : forallb is_digit (low_digits k n) = true.
Proof.
  revert n; induction k as [|k IH]; intros n; cbn [low_digits]; [done|].
  rewrite forallb_app, IH; cbn. by rewrite is_digit_digit by (apply N.mod_lt; done).
Qed.
Lemma length_low_digits k n : length (low_digits k n) = k.
Proof. revert n; induction k as [|k IH]; intros n; cbn [low_digits]; [done|]. rewrite length_app, IH. cbn. lia. Qed.

Lemma digit_count_enough fuel n :
  (n < 10 ^ N.of_nat (S fuel))%N → (n < 10 ^ N.of_nat (digit_count fuel n))%N.
Proof.
  revert n; induction fuel as [|fuel IH]; intros n Hn; cbn [digit_count]; [done|].
  destruct (N.ltb_spec n 10); [by cbn|].
  rewrite Nat2N.inj_succ, N.pow_succ_r by lia.
  assert (n / 10 < 10 ^ N.of_nat (S fuel))%N as Hd.
  { apply N.Div0.div_lt_upper_bound. rewrite Nat2N.inj_succ, N.pow_succ_r in Hn by lia. lia. }
  apply IH in Hd. pose proof (N.div_mod n 10 ltac:(done)). pose proof (N.mod_lt n 10 ltac:(done)). lia.
Qed.

Lemma digits_value_decimal n : (n ≤ u64_max)%N → digits_value (decimal n) = n.
Proof.
  intros Hn. unfold decimal. rewrite low_digits_value, N.mod_small; [done|].
  apply digit_count_enough. unfold u64_max in Hn. change (10 ^ N.of_nat 21)%N with 1000000000000000000000%N. lia.
Qed.

Lemma digits_value_decimal_padded w n :
  (n ≤ u64_max)%N → digits_value (decimal_padded w n) = n.
Proof.
  intros Hn. unfold decimal_padded. rewrite low_digits_value, N.mod_small; [done|].
  eapply N.lt_le_trans; [apply (digit_count_enough 20)|].
  - unfold u64_max in Hn. change (10 ^ N.of_nat 21)%N with 1000000000000000000000%N. lia.
  - apply N.pow_le_mono_r; [done|]. lia.
Qed.

Lemma digit_count_pos fuel n : 1 ≤ digit_count fuel n.
Proof. destruct fuel; cbn; [lia|]. destruct (n <? 10)%N; lia. Qed.

Lemma digit_not_plus b : is_digit b = true → eqb b Byte.x2b = false ∧ eqb b Byte.x3a = false.
Proof. by destruct b. Qed.

Lemma parse_usize_decimal n : (n ≤ u64_max)%N → parse_usize (decimal n) = Some n.
Proof.
  intros Hn. unfold parse_usize. pose proof (digits_value_decimal n Hn) as Hv.
  pose proof (low_digits_digits (digit_count 20 n) n) as Hd.
  pose proof (length_low_digits (digit_count 20 n) n) as Hl. fold (decimal n) in Hd, Hl.
  pose proof (digit_count_pos 20 n). destruct (decimal n) as [|b l]; [cbn [length] in Hl; lia|].
  pose proof Hd as Hb. cbn in Hb. apply andb_true_iff in Hb as [Hb _].
  destruct (digit_not_plus b Hb) as [-> _].
  rewrite Hd, Hv. cbn [andb]. by destruct (N.leb_spec n u64_max); [|lia].
Qed.

Lemma strip_prefix_app prefix l : strip_prefix prefix (prefix ++ l) = Some l.
Proof. unfold strip_prefix. by rewrite take_app_length, eqb_refl, drop_app_length. Qed.

Lemma split_once_digits l k :
  forallb is_digit l = true → split_once Byte.x3a (l ++ Byte.x3a :: k) = Some (l, k).
Proof.
  induction l as [|b l IH]; cbn; [done|]. intros [Hb Hl]%andb_true_iff.
  destruct (digit_not_plus b Hb) as [_ ->]. by rewrite IH.
Qed.

Lemma is_str_head_boundary b l : is_str (b :: l) = true → continuation b = false.
Proof.
  cbn. unfold continuation, in_range. intros Hs. pose proof (to_N_bound b).
  destruct (N.leb_spec 128 (Byte.to_N b)); [|done].
  destruct (N.leb_spec (Byte.to_N b) 191); [|done]. exfalso.
  repeat match type of Hs with context [(?x <=? ?y)%N] =>
    first [destruct (N.leb_spec x y); [lia|] | destruct (N.leb_spec x y); [|lia]]; cbn in Hs end; done.
Qed.

(** A string can be cut between two strings. *)
Lemma str_split_app x y :
  is_str y = true → str_prefix (x ++ y) (blen x) = Some x ∧ str_suffix (x ++ y) (blen x) = Some y.
Proof.
  intros Hy. assert (char_boundary (x ++ y) (blen x) = true) as Hb.
  { unfold char_boundary. destruct y as [|b y].
    - rewrite app_nil_r, N.eqb_refl. by rewrite orb_true_r.
    - rewrite byte_at_app, (is_str_head_boundary b y Hy). by rewrite orb_true_r. }
  unfold str_prefix, str_suffix. rewrite Hb. split.
  - apply slice_prefix.
  - apply (slice_at _ x y []); [by rewrite app_nil_r|done|by rewrite blen_app].
Qed.

(** Strings are closed under concatenation. *)
Lemma is_str_app x y : is_str x = true → is_str y = true → is_str (x ++ y) = true.
Proof.
  intros Hx Hy. remember (length x) as n eqn:Hn. revert x Hn Hx.
  induction n as [n IH] using lt_wf_ind. intros x -> Hx.
  destruct x as [|b x]; [done|]. cbn [is_str app] in Hx |- *.
  destruct (in_range b 0 127); [eapply IH; [|reflexivity|done]; cbn; lia|].
  destruct (in_range b 194 223); [|destruct (in_range b 224 239); [|destruct (in_range b 240 244); [|done]]].
  - destruct x as [|c1 x]; [done|]. cbn [app]. apply andb_true_iff in Hx as [-> Hx].
    eapply IH; [|reflexivity|done]; cbn; lia.
  - destruct x as [|c1 [|c2 x]]; [done..|]. cbn [app]. apply andb_true_iff in Hx as [-> Hx].
    eapply IH; [|reflexivity|done]; cbn; lia.
  - destruct x as [|c1 [|c2 [|c3 x]]]; [done..|]. cbn [app]. apply andb_true_iff in Hx as [-> Hx].
    eapply IH; [|reflexivity|done]; cbn; lia.
Qed.

Lemma is_str_ascii l : forallb (λ b, in_range b 0 127) l = true → is_str l = true.
Proof.
  induction l as [|b l IH]; cbn [forallb is_str]; [done|].
  intros [-> Hl]%andb_true_iff. by apply IH.
Qed.

Lemma decimal_str n : is_str (decimal n) = true.
Proof.
  unfold decimal. apply is_str_ascii. generalize (digit_count 20 n) as k. intros k. revert n.
  induction k as [|k IH]; intros n; cbn [low_digits]; [done|].
  rewrite forallb_app, IH. cbn [forallb andb]. rewrite andb_true_r. unfold in_range, digit.
  rewrite to_N_of_N. pose proof (N.mod_lt n 10 ltac:(done)) as Hd. revert Hd.
  generalize (n `mod` 10)%N. intros d Hd. rewrite N.mod_small by lia.
  apply andb_true_iff. split; apply N.leb_le; lia.
Qed.
