(* ===== verification/Core.v ===== *)
(** * Core: the domain types of rhiza-core

    Models [crates/rhiza-core/src/lib.rs]: hashes and their hexadecimal form,
    entry types, execution profiles, error classification, stored commands and
    log entries with the hash that chains them.  SHA-256 comes from the [sha2]
    crate, so it is a parameter of the model (the class [Sha256]). *)

From S2P Require Import Prelude Bytes.
From Stdlib Require Strings.Byte.

(** ** Fixed arrays [[u8; 32]] *)

Record array32 : Type := Array32 {
  as_bytes : bytes;
  as_bytes_len : Nat.eqb (length as_bytes) 32 = true
}.
Add Printing Constructor array32.

Lemma array32_eq (h k : array32) : as_bytes h = as_bytes k → h = k.
Proof.
  destruct h as [l Hl], k as [m Hm]; cbn. intros ->. f_equal. apply proof_irrel.
Qed.
#[export] Instance as_bytes_inj : Inj (=) (=) as_bytes := array32_eq.

#[export] Instance array32_eq_dec : EqDecision array32.
Proof.
  refine (λ h k, cast_if (decide (as_bytes h = as_bytes k))); abstract (naive_solver eauto using array32_eq).
Defined.

#[export] Instance array32_ord : Ord array32 := inj_ord as_bytes.
#[export] Instance array32_lawful : LawfulOrd array32.
Proof. apply (inj_lawful as_bytes). Qed.

Lemma length_as_bytes (h : array32) : length (as_bytes h) = 32.
Proof. destruct h; cbn. by apply Nat.eqb_eq. Qed.
Lemma blen_as_bytes (h : array32) : blen (as_bytes h) = 32%N.
Proof. unfold blen. by rewrite length_as_bytes. Qed.

#[export] Hint Rewrite blen_as_bytes : blen.

(** [slice.try_into::<[u8; 32]>()] *)
Definition array32_of (l : bytes) : option array32 :=
  match decide (Nat.eqb (length l) 32 = true) with
  | left H => Some (Array32 l H)
  | right _ => None
  end.

Lemma array32_of_as_bytes (h : array32) : array32_of (as_bytes h) = Some h.
Proof.
  unfold array32_of. case_decide as Hd; [by f_equal; apply array32_eq|].
  destruct Hd. apply as_bytes_len.
Qed.
Lemma array32_of_Some l h : array32_of l = Some h ↔ as_bytes h = l.
Proof.
  split; [|intros <-; apply array32_of_as_bytes].
  unfold array32_of. case_decide; naive_solver.
Qed.

#[export] Instance array32_countable : Countable array32.
Proof.
  refine (inj_countable as_bytes array32_of _). apply array32_of_as_bytes.
Defined.

Definition array32_fill (b : byte) : array32 := Array32 (replicate 32 b) eq_refl.

(** ** Hashes *)

Abbreviation LogHash := array32.
Definition LogHash_ZERO : LogHash := array32_fill Byte.x00.

(** The SHA-256 function of the [sha2] crate. *)
Class Sha256 : Type := sha256 : bytes → LogHash.

Definition digest `{Sha256} (parts : list bytes) : LogHash := sha256 (concat parts).

(** Hexadecimal form; [None] is the [unreachable!] of the source. *)
Definition hex_char (value : N) : option byte :=
  if (value <=? 9)%N then Some (byte_of_N (48 + value))
  else if (value <=? 15)%N then Some (byte_of_N (97 + value - 10))
  else None.

Definition hex_value (value : byte) : option N :=
  let v := Byte.to_N value in
  if in_range value 48 57 then Some (v - 48)%N
  else if in_range value 97 102 then Some (v - 97 + 10)%N
  else if in_range value 65 70 then Some (v - 65 + 10)%N
  else None.

Fixpoint hex_encode (l : bytes) : option bytes :=
  match l with
  | [] => Some []
  | b :: l =>
      c1 ← hex_char (N.shiftr (Byte.to_N b) 4);
      c2 ← hex_char (N.land (Byte.to_N b) 15);
      r ← hex_encode l; Some (c1 :: c2 :: r)
  end.
Definition to_hex (h : LogHash) : option bytes := hex_encode (as_bytes h).

(** [chunks_exact(2)] drops a final odd byte, which a length of 64 excludes. *)
Fixpoint hex_decode (l : bytes) : option bytes :=
  match l with
  | c1 :: c2 :: l =>
      v1 ← hex_value c1; v2 ← hex_value c2;
      r ← hex_decode l; Some (byte_of_N (N.lor (N.shiftl v1 4) v2) :: r)
  | _ => Some []
  end.
Definition from_hex (hex : bytes) : option LogHash :=
  if negb (blen hex =? 64)%N then None else hex_decode hex ≫= array32_of.

(** ** Entry types and execution profiles *)

Inductive EntryType : Type :=
| Command | ConfigChangeEntry | SnapshotBarrier | SnapshotPublished | Noop.
#[export] Instance EntryType_eq_dec : EqDecision EntryType.
Proof. solve_decision. Defined.

Definition EntryType_as_u8 (t : EntryType) : byte :=
  match t with
  | Command => Byte.x01 | ConfigChangeEntry => Byte.x02 | SnapshotBarrier => Byte.x03
  | SnapshotPublished => Byte.x04 | Noop => Byte.x05
  end.
Definition EntryType_from_u8 (b : byte) : option EntryType :=
  match b with
  | Byte.x01 => Some Command | Byte.x02 => Some ConfigChangeEntry
  | Byte.x03 => Some SnapshotBarrier | Byte.x04 => Some SnapshotPublished
  | Byte.x05 => Some Noop | _ => None
  end.

Lemma EntryType_from_as_u8 t : EntryType_from_u8 (EntryType_as_u8 t) = Some t.
Proof. by destruct t. Qed.
Lemma EntryType_as_from_u8 b t : EntryType_from_u8 b = Some t → EntryType_as_u8 t = b.
Proof. by destruct b; try done; intros [= <-]. Qed.
#[export] Instance EntryType_as_u8_inj : Inj (=) (=) EntryType_as_u8.
Proof. intros x y Hxy. apply (f_equal EntryType_from_u8) in Hxy. rewrite !EntryType_from_as_u8 in Hxy. by injection Hxy. Qed.

Inductive ExecutionProfile : Type := Sqlite | Graph | Kv.
#[export] Instance ExecutionProfile_eq_dec : EqDecision ExecutionProfile.
Proof. solve_decision. Defined.

Definition wire_id (p : ExecutionProfile) : byte :=
  match p with Sqlite => Byte.x01 | Graph => Byte.x02 | Kv => Byte.x03 end.
Definition from_wire_id (b : byte) : option ExecutionProfile :=
  match b with
  | Byte.x01 => Some Sqlite | Byte.x02 => Some Graph | Byte.x03 => Some Kv | _ => None
  end.
Lemma from_wire_id_wire_id p : from_wire_id (wire_id p) = Some p.
Proof. by destruct p. Qed.
Lemma wire_id_from_wire_id b p : from_wire_id b = Some p → wire_id p = b.
Proof. by destruct b; try done; intros [= <-]. Qed.

Definition profile_as_str (p : ExecutionProfile) : bytes :=
  match p with Sqlite => lit "sql" | Graph => lit "graph" | Kv => lit "kv" end.
(** [FromStr]; [None] is [ExecutionProfileParseError]. *)
Definition profile_from_str (s : bytes) : option ExecutionProfile :=
  if eqb s (lit "sql") then Some Sqlite
  else if eqb s (lit "graph") then Some Graph
  else if eqb s (lit "kv") then Some Kv
  else None.

(** ** Error classification *)

Inductive ErrorCategory : Type :=
| InvalidRequestCat | AuthenticationCat | ConflictCat | UnavailableCat
| ResourceExhaustedCat | InternalCat | UnknownCat.
#[export] Instance ErrorCategory_eq_dec : EqDecision ErrorCategory.
Proof. solve_decision. Defined.

Record ErrorClassification : Type := {
  ec_code : bytes; ec_category : ErrorCategory; ec_retryable : bool
}.

Definition one_of (code : bytes) (codes : list string) : bool :=
  existsb (λ c, eqb code (lit c)) codes.

Definition from_server_code (code : bytes) (retryable : bool) : ErrorClassification :=
  let category :=
    if one_of code ["invalid_request"; "invalid_json"; "invalid_content_type"]
    then InvalidRequestCat
    else if one_of code ["unauthorized"] then AuthenticationCat
    else if one_of code ["request_conflict"; "precondition_failed"] then ConflictCat
    else if one_of code ["unavailable"; "durability_unavailable"; "write_timeout";
      "writes_unavailable"; "configuration_transition"; "contention";
      "winner_limit_exceeded"; "leader_unavailable"; "snapshot_required"]
    then UnavailableCat
    else if one_of code ["resource_exhausted"; "overloaded"; "payload_too_large"]
    then ResourceExhaustedCat
    else if one_of code ["data_root_locked"; "unsupported_ack_mode";
      "execution_profile_mismatch"; "storage_error"; "reconciliation_error";
      "invariant_violation"; "fatal"; "task_failed"]
    then InternalCat
    else UnknownCat in
  {| ec_code := code; ec_category := category; ec_retryable := retryable |}.

(** ** Commands and log entries *)

Inductive CommandKind : Type := Deterministic | ReadBarrier.
Record ClientCommand : Type := { cc_kind : CommandKind; cc_payload : bytes }.

Record StoredCommand : Type := mkStoredCommand {
  sc_entry_type : EntryType; sc_payload : bytes
}.
#[export] Instance StoredCommand_eq_dec : EqDecision StoredCommand.
Proof. solve_decision. Defined.

Record LogEntry : Type := mkLogEntry {
  le_cluster_id : bytes; le_epoch : N; le_config_id : N; le_index : N;
  le_entry_type : EntryType; le_payload : bytes;
  le_prev_hash : LogHash; le_hash : LogHash
}.
#[export] Instance LogEntry_eq_dec : EqDecision LogEntry.
Proof. solve_decision. Defined.

Record LogAnchor : Type := mkLogAnchor { la_index : N; la_hash : LogHash }.
#[export] Instance LogAnchor_eq_dec : EqDecision LogAnchor.
Proof. solve_decision. Defined.

Definition command_preimage (c : StoredCommand) : bytes :=
  concat [lit "rhiza-command-v2"; [EntryType_as_u8 (sc_entry_type c)]; sc_payload c].

Definition entry_preimage (cluster_id : bytes) (index epoch config_id : N)
    (entry_type : EntryType) (prev_hash payload_hash : LogHash) : bytes :=
  concat [lit "rhiza-log-entry-v3" ++ [Byte.x00];
    be_bytes 8 (blen cluster_id); cluster_id;
    be_bytes 8 index; be_bytes 8 epoch; be_bytes 8 config_id;
    [EntryType_as_u8 entry_type]; as_bytes prev_hash; as_bytes payload_hash].

Section hashing.
Context `{Sha256}.

Definition command_hash (c : StoredCommand) : LogHash := sha256 (command_preimage c).

Definition calculate_hash (cluster_id : bytes) (index epoch config_id : N)
    (entry_type : EntryType) (prev_hash : LogHash) (payload : bytes) : LogHash :=
  let payload_hash := digest [payload] in
  sha256 (entry_preimage cluster_id index epoch config_id entry_type prev_hash payload_hash).

Definition recompute_hash (e : LogEntry) : LogHash :=
  calculate_hash (le_cluster_id e) (le_index e) (le_epoch e) (le_config_id e)
    (le_entry_type e) (le_prev_hash e) (le_payload e).
End hashing.

(** ** Hexadecimal round trip *)

Lemma hex_value_char v : (v < 16)%N → ∃ c, hex_char v = Some c ∧ hex_value c = Some v.
Proof.
  intros Hv. assert (v = N.of_nat (N.to_nat v)) as -> by lia.
  assert (N.to_nat v < 16) as Hn by lia. revert Hn. generalize (N.to_nat v) as n; intros n Hn.
  do 16 (destruct n as [|n]; [eexists; split; vm_compute; reflexivity|]). lia.
Qed.

Lemma nibbles_join b :
  byte_of_N (N.lor (N.shiftl (N.shiftr (Byte.to_N b) 4) 4) (N.land (Byte.to_N b) 15)) = b.
Proof. by destruct b. Qed.

Lemma hex_decode_encode l :
  ∃ s, hex_encode l = Some s ∧ length s = 2 * length l ∧ hex_decode s = Some l.
Proof.
  induction l as [|b l (s & He & Hl & Hd)]; [by exists []|].
  destruct (hex_value_char (N.shiftr (Byte.to_N b) 4)) as (c1 & Hc1 & Hv1).
  { rewrite N.shiftr_div_pow2. apply N.Div0.div_lt_upper_bound. pose proof (to_N_bound b). lia. }
  destruct (hex_value_char (N.land (Byte.to_N b) 15)) as (c2 & Hc2 & Hv2).
  { change 15%N with (N.ones 4). rewrite N.land_ones. by apply N.mod_lt. }
  exists (c1 :: c2 :: s). cbn. rewrite Hc1, Hc2, He, Hv1, Hv2, Hd. cbn.
  rewrite nibbles_join. split_and!; [done|lia|done].
Qed.

(** The hexadecimal form of a hash always exists (the [unreachable!] in
    [hex_char] is not reached), has 64 characters, and parses back to the hash. *)
Lemma from_hex_to_hex (h : LogHash) :
  ∃ s, to_hex h = Some s ∧ blen s = 64%N ∧ from_hex s = Some h.
Proof.
  destruct (hex_decode_encode (as_bytes h)) as (s & He & Hl & Hd).
  rewrite length_as_bytes in Hl. exists s. unfold to_hex, from_hex, blen.
  rewrite He, Hl, Hd. split_and!; [done|done|]. cbn. apply array32_of_as_bytes.
Qed.

Lemma hex_decode_length l r : hex_decode l = Some r → length l = 64 → length r = 32.
Proof.
  assert (∀ n l r, length l = 2 * n → hex_decode l = Some r → length r = n) as Hgen.
  { clear. induction n as [|n IH]; intros l r Hl Hd.
    - destruct l; [by injection Hd as <-|done].
    - destruct l as [|c1 [|c2 l]]; [done|cbn in Hl; lia|].
      cbn in Hd. destruct (hex_value c1), (hex_value c2); try done.
      destruct (hex_decode l) as [r'|] eqn:E; [|done]. injection Hd as <-.
      cbn. f_equal. apply (IH l); [cbn in Hl; lia|done]. }
  intros Hd Hl. by apply (Hgen 32 l).
Qed.

(** ** What a hash binds *)

Definition collision `{Sha256} : Prop := ∃ x y : bytes, x ≠ y ∧ sha256 x = sha256 y.

Lemma sha256_inj_or_collision `{Sha256} (x y : bytes) :
  sha256 x = sha256 y → x = y ∨ collision.
Proof. intros Heq. destruct (decide (x = y)); [by left|right; by exists x, y]. Qed.

Lemma be_bytes_inj k n m :
  (n < 256 ^ N.of_nat k)%N → (m < 256 ^ N.of_nat k)%N → be_bytes k n = be_bytes k m → n = m.
Proof. intros Hn Hm Heq. by rewrite <-(be_value_bytes k n), <-(be_value_bytes k m), Heq. Qed.

Lemma app_inj_len {A} (x y x' y' : list A) :
  length x = length x' → x ++ y = x' ++ y' → x = x' ∧ y = y'.
Proof. intros Hl Heq. by apply app_inj_1. Qed.

Ltac split_bytes H :=
  apply app_inj_len in H as [? H];
  [|rewrite ?length_be_bytes, ?length_as_bytes; done].

Lemma command_preimage_inj : Inj (=) (=) command_preimage.
Proof.
  intros [t p] [t' p']. unfold command_preimage; cbn [concat sc_entry_type sc_payload].
  intros Heq. split_bytes Heq. injection Heq as Ht Hp. rewrite !app_nil_r in Hp.
  apply (inj EntryType_as_u8) in Ht. by subst.
Qed.

(** The integer fields of an entry are [u64] values. *)
Definition entry_in_range (e : LogEntry) : bool :=
  is_u64 (le_epoch e) && is_u64 (le_config_id e) && is_u64 (le_index e)
  && is_u64 (blen (le_cluster_id e)).

Lemma is_u64_bound n : is_u64 n = true ↔ (n < 256 ^ N.of_nat 8)%N.
Proof. unfold is_u64. rewrite N.leb_le. unfold u64_max. cbn. lia. Qed.

Lemma entry_preimage_inj c c' i i' e e' g g' t t' h h' p p' :
  is_u64 (blen c) = true → is_u64 (blen c') = true →
  is_u64 i = true → is_u64 i' = true → is_u64 e = true → is_u64 e' = true →
  is_u64 g = true → is_u64 g' = true →
  entry_preimage c i e g t h p = entry_preimage c' i' e' g' t' h' p' →
  c = c' ∧ i = i' ∧ e = e' ∧ g = g' ∧ t = t' ∧ h = h' ∧ p = p'.
Proof.
  rewrite !is_u64_bound. intros. unfold entry_preimage in *. cbn [concat] in *.
  match goal with H : _ = _ |- _ => rename H into Heq end.
  do 2 split_bytes Heq.
  match goal with H : be_bytes 8 (blen c) = _ |- _ => apply be_bytes_inj in H as Hlen; [|done..] end.
  unfold blen in Hlen. apply app_inj_len in Heq as [? Heq]; [|lia].
  do 3 split_bytes Heq. injection Heq as Ht Heq. apply (inj EntryType_as_u8) in Ht.
  split_bytes Heq. rewrite !app_nil_r in Heq.
  repeat match goal with H : be_bytes 8 _ = be_bytes 8 _ |- _ => apply be_bytes_inj in H; [|done..] end.
  repeat match goal with H : as_bytes _ = as_bytes _ |- _ => apply array32_eq in H end.
  by subst.
Qed.

(** Two commands with the same hash are the same command, unless two different
    byte strings with the same SHA-256 digest are at hand. *)
Lemma command_hash_binds `{Sha256} (c d : StoredCommand) :
  command_hash c = command_hash d → c = d ∨ collision.
Proof.
  unfold command_hash. intros [Heq|Hc]%sha256_inj_or_collision; [left|by right].
  by apply command_preimage_inj.
Qed.

Lemma entry_hash_binds `{Sha256} (e1 e2 : LogEntry) :
  entry_in_range e1 = true → entry_in_range e2 = true →
  recompute_hash e1 = le_hash e1 → recompute_hash e2 = le_hash e2 →
  le_hash e1 = le_hash e2 → e1 = e2 ∨ collision.
Proof.
  unfold entry_in_range. intros R1 R2 H1 H2 Heq. bool_prop.
  destruct R1 as [[[? ?] ?] ?], R2 as [[[? ?] ?] ?].
  assert (recompute_hash e1 = recompute_hash e2) as Hr by congruence.
  unfold recompute_hash, calculate_hash in Hr.
  apply sha256_inj_or_collision in Hr as [Hr|]; [|by right].
  apply entry_preimage_inj in Hr as (Hc & Hi & He & Hg & Ht & Hh & Hp); [|done..].
  unfold digest in Hp. apply sha256_inj_or_collision in Hp as [Hp|]; [|by right].
  cbn in Hp. rewrite !app_nil_r in Hp. left. destruct e1, e2; cbn in *. congruence.
Qed.

(** ** Chains of entries *)

(** An entry continues a log whose last entry has index [i] and hash [h]. *)
Definition follows (i : N) (h : LogHash) (e : LogEntry) : bool :=
  eqb (le_index e) (i + 1)%N && eqb (le_prev_hash e) h.

Fixpoint chained `{Sha256} (i : N) (h : LogHash) (log : list LogEntry) : bool :=
  match log with
  | [] => true
  | e :: log =>
      follows i h e && eqb (recompute_hash e) (le_hash e) && entry_in_range e
      && chained (le_index e) (le_hash e) log
  end.

Definition tip_hash (h : LogHash) (log : list LogEntry) : LogHash :=
  match last log with Some e => le_hash e | None => h end.

Lemma chained_snoc `{Sha256} i h log e :
  chained i h (log ++ [e]) = true →
  chained i h log = true ∧ le_prev_hash e = tip_hash h log
  ∧ recompute_hash e = le_hash e ∧ entry_in_range e = true.
Proof.
  revert i h; induction log as [|x log IH]; intros i h; cbn [app chained].
  - unfold follows. intros Hc. bool_prop. unfold tip_hash; cbn. naive_solver.
  - rewrite !andb_true_iff. intros [[[Hf Hr] Hx] Hc].
    apply IH in Hc as (Hc & Hp & He & Hi). split_and!; try done.
    rewrite Hp. unfold tip_hash. rewrite last_cons. by destruct (last log).
Qed.

Lemma tip_hash_snoc h log e : tip_hash h (log ++ [e]) = le_hash e.
Proof. unfold tip_hash. by rewrite last_snoc. Qed.

(** The hash of the last entry determines the whole log: two logs of the same
    length that extend the same point by a hash chain and end in the same hash
    are equal, or two different byte strings with the same SHA-256 digest are
    at hand. *)
Lemma log_hash_chain_binds `{Sha256} (i : N) (h : LogHash) (log1 log2 : list LogEntry) :
  chained i h log1 = true → chained i h log2 = true →
  length log1 = length log2 → tip_hash h log1 = tip_hash h log2 →
  log1 = log2 ∨ collision.
Proof.
  revert log2. induction log1 as [|e1 log1 IH] using rev_ind; intros log2 H1 H2 Hl Ht.
  - left. destruct log2; [done|cbn in Hl; lia].
  - destruct log2 as [|e2 log2 _] using rev_ind; [rewrite length_app in Hl; cbn in Hl; lia|].
    rewrite !length_app in Hl; cbn in Hl.
    apply chained_snoc in H1 as (C1 & P1 & R1 & I1), H2 as (C2 & P2 & R2 & I2).
    rewrite !tip_hash_snoc in Ht.
    destruct (entry_hash_binds e1 e2) as [-> |]; try done; [|by right].
    destruct (IH log2) as [-> |]; try done; [lia|congruence|by left|by right].
Qed.

(** ** A concrete hash function, on which the definitions are evaluated in examples *)

Lemma length_be_bytes_eqb k n : Nat.eqb (length (be_bytes k n)) k = true.
Proof. apply Nat.eqb_eq, length_be_bytes. Qed.
Definition sample_sha256 : Sha256 := λ l,
  Array32 (be_bytes 32 (fold_left (λ acc b, (acc * 31 + Byte.to_N b + 1) mod 65521)%N l 0%N))
    (length_be_bytes_eqb 32 _).

(** An entry with the hash of its contents. *)
Definition seal_entry `{Sha256} (cluster_id : bytes) (epoch config_id index : N) (t : EntryType)
    (payload : bytes) (prev_hash : LogHash) : LogEntry :=
  mkLogEntry cluster_id epoch config_id index t payload prev_hash
    (calculate_hash cluster_id index epoch config_id t prev_hash payload).

Definition sample_log : list LogEntry :=
  let h := sample_sha256 in
  let e1 := seal_entry (lit "cluster-a") 1 1 1 Noop [] LogHash_ZERO in
  let e2 := seal_entry (lit "cluster-a") 1 1 2 Command (lit "payload") (le_hash e1) in
  [e1; e2].
