(* ===== verification/Envelope.v ===== *)
(** * Envelope: the wire form of a replicated command

    Models [ReplicatedCommandEnvelope] of [crates/rhiza-core/src/lib.rs]: the
    header [QCMD], a format version, the execution profile, the command version
    and two lengths, then the request id and the body.  The theorems say that
    encoding and decoding are inverse to each other in both directions, so that
    every envelope has exactly one accepted byte form. *)

From S2P Require Import Prelude Bytes Core.
From Stdlib Require Strings.Byte.

Inductive CommandEnvelopeError : Type :=
| InvalidMagic | UnsupportedFormatVersion (v : N) | UnknownExecutionProfile (b : byte)
| InvalidCommandVersion | EmptyRequestId | RequestIdTooLong | BodyTooLong
| InvalidRequestIdUtf8 | Truncated | LengthOverflow | TrailingBytes.

Record ReplicatedCommandEnvelope : Type := mkEnvelope {
  env_profile : ExecutionProfile; env_command_version : N;
  env_request_id : bytes; env_body : bytes
}.

Definition REPLICATED_COMMAND_MAGIC : bytes := lit "QCMD".
Definition REPLICATED_COMMAND_FORMAT_VERSION : N := 1.
Definition REPLICATED_COMMAND_HEADER_BYTES : N := 15.

Definition validate_command_envelope_fields (command_version : N) (request_id body : bytes) :
    result CommandEnvelopeError () :=
  _ ← reject_if (command_version =? 0)%N InvalidCommandVersion;
  _ ← reject_if (blen request_id =? 0)%N EmptyRequestId;
  _ ← reject_if (negb (is_u16 (blen request_id))) RequestIdTooLong;
  reject_if (negb (is_u32 (blen body))) BodyTooLong.

Definition envelope_new (profile : ExecutionProfile) (command_version : N)
    (request_id body : bytes) : result CommandEnvelopeError ReplicatedCommandEnvelope :=
  _ ← validate_command_envelope_fields command_version request_id body;
  Ok (mkEnvelope profile command_version request_id body).

Definition envelope_encode (e : ReplicatedCommandEnvelope) : result CommandEnvelopeError bytes :=
  _ ← validate_command_envelope_fields (env_command_version e) (env_request_id e) (env_body e);
  _ ← reject_if (negb (is_u16 (blen (env_request_id e)))) RequestIdTooLong;
  _ ← reject_if (negb (is_u32 (blen (env_body e)))) BodyTooLong;
  _ ← ok_or (size ← checked_add REPLICATED_COMMAND_HEADER_BYTES (blen (env_request_id e));
             checked_add size (blen (env_body e))) LengthOverflow;
  Ok (concat [REPLICATED_COMMAND_MAGIC;
      be_bytes 2 REPLICATED_COMMAND_FORMAT_VERSION;
      [wire_id (env_profile e)];
      be_bytes 2 (env_command_version e);
      be_bytes 2 (blen (env_request_id e));
      be_bytes 4 (blen (env_body e));
      env_request_id e;
      env_body e]).

Definition envelope_decode (encoded : bytes) :
    result CommandEnvelopeError ReplicatedCommandEnvelope :=
  _ ← reject_if (blen encoded <? REPLICATED_COMMAND_HEADER_BYTES)%N Truncated;
  _ ← reject_if (neqb (slice encoded 0 4) (Some REPLICATED_COMMAND_MAGIC)) InvalidMagic;
  let format_version := be_value (index_range encoded 4 6) in
  _ ← reject_if (neqb format_version REPLICATED_COMMAND_FORMAT_VERSION)
        (UnsupportedFormatVersion format_version);
  let id := default Byte.x00 (byte_at encoded 6) in
  profile ← ok_or (from_wire_id id) (UnknownExecutionProfile id);
  let command_version := be_value (index_range encoded 7 9) in
  let request_id_len := be_value (index_range encoded 9 11) in
  let body_len := be_value (index_range encoded 11 15) in
  request_id_end ← ok_or (checked_add REPLICATED_COMMAND_HEADER_BYTES request_id_len) LengthOverflow;
  body_end ← ok_or (checked_add request_id_end body_len) LengthOverflow;
  _ ← reject_if (blen encoded <? body_end)%N Truncated;
  _ ← reject_if (neqb (blen encoded) body_end) TrailingBytes;
  raw ← ok_or (slice encoded REPLICATED_COMMAND_HEADER_BYTES request_id_end) Truncated;
  request_id ← from_utf8 raw InvalidRequestIdUtf8;
  body ← ok_or (slice encoded request_id_end body_end) Truncated;
  envelope_new profile command_version request_id body.

(** ** Round trips *)

(** The fields as their Rust types hold them. *)
Definition envelope_typed (e : ReplicatedCommandEnvelope) : bool :=
  is_u16 (env_command_version e) && is_str (env_request_id e).

Lemma validate_fields_Ok v r b u :
  validate_command_envelope_fields v r b = Ok u ↔
  (v ≠ 0 ∧ blen r ≠ 0 ∧ blen r ≤ u16_max ∧ blen b ≤ u32_max)%N.
Proof.
  destruct u. unfold validate_command_envelope_fields, is_u16, is_u32, reject_if.
  destruct (N.eqb_spec v 0), (N.eqb_spec (blen r) 0), (N.leb_spec (blen r) u16_max),
    (N.leb_spec (blen b) u32_max); cbn; split; naive_solver lia.
Qed.


(** The header fields of a buffer with the layout of [envelope_encode]. *)
Lemma decode_layout p v r b :
  (v < 256 ^ 2)%N → (blen r < 256 ^ 2)%N → (blen b < 256 ^ 4)%N → is_str r = true →
  envelope_decode (concat [REPLICATED_COMMAND_MAGIC; be_bytes 2 REPLICATED_COMMAND_FORMAT_VERSION;
    [wire_id p]; be_bytes 2 v; be_bytes 2 (blen r); be_bytes 4 (blen b); r; b])
  = envelope_new p v r b.
Proof.
  intros Hv Hr Hb Hs. set (parts := [_; _; _; _; _; _; r; b]).
  assert (blen (concat parts) = 15 + blen r + blen b)%N as Hlen.
  { unfold parts; cbn [concat]. rewrite !blen_app, !blen_be_bytes, blen_cons, blen_nil.
    change (blen REPLICATED_COMMAND_MAGIC) with 4%N. lia. }
  assert (∀ i m a c, parts !! i = Some m → a = blen (concat (take i parts)) →
    c = (a + blen m)%N → index_range (concat parts) a c = m) as Hix.
  { intros. by eapply index_range_Some, slice_part. }
  unfold envelope_decode. fold parts. rewrite Hlen.
  unfold REPLICATED_COMMAND_HEADER_BYTES.
  destruct (N.ltb_spec (15 + blen r + blen b) 15); [lia|]. cbn [reject_if mbind result_bind].
  rewrite (slice_part parts 0 REPLICATED_COMMAND_MAGIC) by done.
  rewrite neqb_refl. cbn [reject_if mbind result_bind].
  rewrite (Hix 1 (be_bytes 2 REPLICATED_COMMAND_FORMAT_VERSION) 4%N 6%N) by done.
  rewrite be_value_bytes by done. rewrite neqb_refl. cbn [reject_if mbind result_bind].
  assert (byte_at (concat parts) 6 = Some (wire_id p)) as ->.
  { apply byte_at_slice, (slice_part parts 2); done. }
  cbn [from_option id]. rewrite from_wire_id_wire_id. cbn [ok_or mbind result_bind].
  rewrite (Hix 3 (be_bytes 2 v) 7%N 9%N), (Hix 4 (be_bytes 2 (blen r)) 9%N 11%N),
    (Hix 5 (be_bytes 4 (blen b)) 11%N 15%N) by done.
  rewrite !be_value_bytes by done.
  assert (checked_add 15 (blen r) = Some (15 + blen r)%N) as ->.
  { apply checked_add_Some. unfold u64_max. lia. }
  cbn [ok_or mbind result_bind].
  assert (checked_add (15 + blen r) (blen b) = Some (15 + blen r + blen b)%N) as ->.
  { apply checked_add_Some. unfold u64_max. lia. }
  cbn [ok_or mbind result_bind].
  rewrite N.ltb_irrefl, neqb_refl. cbn [reject_if mbind result_bind].
  rewrite (slice_part parts 6 r 15) by done. cbn [ok_or mbind result_bind].
  unfold from_utf8. rewrite Hs. cbn [mbind result_bind].
  rewrite (slice_part parts 7 b); [done|done| |done].
  unfold parts; cbn [take concat]. rewrite !blen_app, !blen_be_bytes, blen_cons, blen_nil.
  change (blen REPLICATED_COMMAND_MAGIC) with 4%N. lia.
Qed.

Lemma encode_valid p v r b u :
  validate_command_envelope_fields v r b = Ok u →
  envelope_encode (mkEnvelope p v r b) =
  Ok (concat [REPLICATED_COMMAND_MAGIC; be_bytes 2 REPLICATED_COMMAND_FORMAT_VERSION;
    [wire_id p]; be_bytes 2 v; be_bytes 2 (blen r); be_bytes 4 (blen b); r; b]).
Proof.
  intros Hok. pose proof Hok as (Hv0 & Hr0 & Hr & Hb)%validate_fields_Ok.
  unfold envelope_encode; cbn [env_command_version env_request_id env_body env_profile].
  rewrite Hok. unfold is_u16, is_u32.
  destruct (N.leb_spec (blen r) u16_max); [|lia].
  destruct (N.leb_spec (blen b) u32_max); [|lia]. cbn [negb reject_if mbind result_bind].
  unfold REPLICATED_COMMAND_HEADER_BYTES. unfold u16_max, u32_max in *.
  assert (checked_add 15 (blen r) = Some (15 + blen r)%N) as ->.
  { apply checked_add_Some. unfold u64_max. lia. }
  cbn [mbind option_bind].
  assert (checked_add (15 + blen r) (blen b) = Some (15 + blen r + blen b)%N) as ->.
  { apply checked_add_Some. unfold u64_max. lia. }
  done.
Qed.

(** Encoding then decoding gives the envelope back: every envelope with the
    field types of the struct that [new] accepts encodes, and its bytes decode
    to it. *)
Theorem envelope_roundtrip (p : ExecutionProfile) (v : N) (r b : bytes) (e : ReplicatedCommandEnvelope) :
  is_u16 v = true → is_str r = true → envelope_new p v r b = Ok e →
  ∃ l, envelope_encode e = Ok l ∧ envelope_decode l = Ok e.
Proof.
  intros Hv Hs Hn. pose proof Hn as Hn'. unfold envelope_new in Hn. res_inv.
  pose proof Hok as (Hv0 & Hr0 & Hr & Hb)%validate_fields_Ok.
  eexists; split; [by eapply encode_valid|].
  unfold is_u16, u16_max in *. apply N.leb_le in Hv. unfold u32_max in Hb.
  rewrite decode_layout; [done|lia|lia|lia|done].
Qed.

(** Decoding is canonical: whatever bytes are accepted are the bytes that
    encoding the decoded envelope produces, so no two byte strings decode to
    the same command; and the decoded fields respect their Rust types. *)
Theorem envelope_decode_canonical (l : bytes) (e : ReplicatedCommandEnvelope) :
  envelope_decode l = Ok e → envelope_encode e = Ok l ∧ envelope_typed e = true.
Proof.
  unfold envelope_decode, envelope_new, REPLICATED_COMMAND_HEADER_BYTES. intros H. res_inv.
  apply from_utf8_Ok in Hok8 as [-> Hstr].
  apply checked_add_Some in Hok3 as [-> _], Hok4 as [-> _]. bool_prop.
  destruct (slice_in_range l 6 7) as [m2 Hm2]; [lia|lia|].
  assert (byte_at l 6 = Some (default Byte.x00 (byte_at l 6))) as Hid.
  { destruct (byte_at l 6) eqn:E; [done|]. unfold byte_at in E.
    destruct (N.ltb_spec 6 (blen l)); [|lia].
    apply lookup_ge_None in E. unfold blen in *. lia. }
  apply wire_id_from_wire_id in Hok2. rewrite <-Hok2 in Hid. apply byte_at_slice in Hid.
  pose proof (index_range_slice l 4 6) as S1. pose proof (index_range_slice l 7 9) as S3.
  pose proof (index_range_slice l 9 11) as S4. pose proof (index_range_slice l 11 15) as S5.
  specialize (S1 ltac:(lia) ltac:(lia)). specialize (S3 ltac:(lia) ltac:(lia)).
  specialize (S4 ltac:(lia) ltac:(lia)). specialize (S5 ltac:(lia) ltac:(lia)).
  pose proof (slice_length _ _ _ _ Hok7) as [Hr _]. pose proof (slice_length _ _ _ _ Hok9) as [Hb _].
  split.
  - erewrite encode_valid by done. f_equal. symmetry. apply slice_whole. rewrite Hok6. cbn [concat].
    rewrite <-Hok1, app_nil_r.
    replace (blen v7) with (be_value (index_range l 9 11)) by lia.
    replace (blen v9) with (be_value (index_range l 11 15)) by lia.
    erewrite !be_bytes_of_slice by done.
    eapply slice_snoc_parts; [exact Hok0|]. eapply slice_snoc_parts; [exact S1|].
    eapply slice_snoc_parts; [exact Hid|]. eapply slice_snoc_parts; [exact S3|].
    eapply slice_snoc_parts; [exact S4|]. eapply slice_snoc_parts; [exact S5|].
    by eapply slice_snoc_parts.
  - unfold envelope_typed, is_u16; cbn. rewrite Hstr, andb_true_r. apply N.leb_le.
    pose proof (be_value_bound (index_range l 7 9)) as Hbd. apply slice_length in S3 as [S3 _].
    unfold blen in S3. replace (length (index_range l 7 9)) with 2 in Hbd by lia.
    unfold u16_max. cbn in *. lia.
Qed.

Definition sample_envelope : ReplicatedCommandEnvelope :=
  mkEnvelope Kv 1 (lit "request-1") (lit "body").

Lemma envelope_roundtrip_witness :
  ∃ l, envelope_encode sample_envelope = Ok l ∧ envelope_decode l = Ok sample_envelope.
Proof.
  apply (envelope_roundtrip Kv 1 (lit "request-1") (lit "body")); vm_compute; reflexivity.
Defined.

Definition sample_envelope_bytes : bytes :=
  lit "QCMD" ++ [Byte.x00; Byte.x01; Byte.x03; Byte.x00; Byte.x01; Byte.x00; Byte.x09;
    Byte.x00; Byte.x00; Byte.x00; Byte.x04] ++ lit "request-1" ++ lit "body".

Lemma envelope_decode_canonical_witness :
  envelope_encode sample_envelope = Ok sample_envelope_bytes ∧ envelope_typed sample_envelope = true.
Proof. apply envelope_decode_canonical. vm_compute. reflexivity. Defined.
