(* ===== verification/ConfigChange.v ===== *)
(** * ConfigChange: successor descriptors and configuration-change commands

    Models the reconfiguration commands of [crates/rhiza-core/src/lib.rs]:
    [SuccessorDescriptor] (a validated, canonically ordered member set bound to
    its predecessor configuration), [ConfigChange] and its two payload versions,
    and the decoders [recognize_parts], [decode_successor] and [read_config_*].
    A decoder takes the whole payload and a cursor ([reader] of [Bytes]). *)

From S2P Require Import Prelude Bytes Core.

From Stdlib Require Strings.Byte.

Inductive ConfigChangeDecodeError : Type := ConfigChangeDecodeErr.
Abbreviation cc_result := (result ConfigChangeDecodeError).
Abbreviation cc_err := ConfigChangeDecodeErr.

Record SuccessorDescriptor : Type := mkSuccessor {
  sd_cluster_id : bytes; sd_predecessor_config_id : N; sd_predecessor_config_digest : LogHash;
  sd_config_id : N; sd_config_digest : LogHash; sd_members : list bytes
}.
#[export] Instance SuccessorDescriptor_eq_dec : EqDecision SuccessorDescriptor.
Proof. solve_decision. Defined.

Definition member_count_ok (members : list bytes) : bool :=
  (3 <=? length members) && (length members <=? 7).
Definition member_name_bad (member : bytes) : bool :=
  (blen member =? 0)%N || (u16_max <? blen member)%N.

Definition membership_preimage (members : list bytes) : bytes :=
  lit "QMEM" ++ [Byte.x00; Byte.x01] ++ be_bytes 8 (N.of_nat (length members))
  ++ concat ((λ m, be_bytes 8 (blen m) ++ m) <$> members).

Section successor.
Context `{Sha256}.

Definition canonical_membership_digest (members : list bytes) : cc_result LogHash :=
  if negb (member_count_ok members) || existsb member_name_bad members
     || negb (strictly_ascending id members)
  then Err cc_err
  else Ok (digest [membership_preimage members]).

Definition successor_new (cluster_id : bytes) (predecessor_config_id : N)
    (predecessor_config_digest : LogHash) (config_id : N) (members : list bytes) :
    cc_result SuccessorDescriptor :=
  _ ← reject_if ((blen cluster_id =? 0)%N || (u16_max <? blen cluster_id)%N) cc_err;
  _ ← reject_if (neqb (checked_add predecessor_config_id 1) (Some config_id)) cc_err;
  let canonical := dedup_by id (sort_by id members) in
  _ ← reject_if (negb (length canonical =? length members)
                 || negb (member_count_ok canonical)
                 || existsb member_name_bad canonical) cc_err;
  config_digest ← canonical_membership_digest canonical;
  Ok (mkSuccessor cluster_id predecessor_config_id predecessor_config_digest
        config_id config_digest canonical).

(** [Deserialize]: the derived wire struct, then the same validation. *)
Definition successor_from_wire (wire : SuccessorDescriptor) : cc_result SuccessorDescriptor :=
  _ ← reject_if (negb (strictly_ascending id (sd_members wire))) cc_err;
  descriptor ← successor_new (sd_cluster_id wire) (sd_predecessor_config_id wire)
    (sd_predecessor_config_digest wire) (sd_config_id wire) (sd_members wire);
  _ ← reject_if (neqb (sd_config_digest descriptor) (sd_config_digest wire)) cc_err;
  Ok descriptor.
End successor.

Inductive ConfigChange : Type :=
| Stop (config_id : N) (config_digest : LogHash)
| ActivationBarrier (config_id : N) (config_digest : LogHash) (stop_slot : N) (prefix_hash : LogHash)
| BoundStop (successor : SuccessorDescriptor)
| BoundActivationBarrier (successor : SuccessorDescriptor) (stop_slot : N)
    (prefix_hash stop_command_hash : LogHash).
#[export] Instance ConfigChange_eq_dec : EqDecision ConfigChange.
Proof. solve_decision. Defined.

Definition CONFIG_CHANGE_MAGIC : bytes := lit "QCFG".
Definition CONFIG_CHANGE_VERSION : N := 1.
Definition BOUND_CONFIG_CHANGE_VERSION : N := 2.

Definition change_successor (c : ConfigChange) : option SuccessorDescriptor :=
  match c with
  | BoundStop s | BoundActivationBarrier s _ _ _ => Some s
  | _ => None
  end.

Definition binding (c : ConfigChange) : N * LogHash :=
  match c with
  | Stop i d | ActivationBarrier i d _ _ => (i, d)
  | BoundStop s => (sd_predecessor_config_id s, sd_predecessor_config_digest s)
  | BoundActivationBarrier s _ _ _ => (sd_config_id s, sd_config_digest s)
  end.

(** *** Encoding.  The [expect]s on lengths hold by [successor_wf] below. *)

Definition encode_string (s : bytes) : bytes := be_bytes 2 (blen s) ++ s.

Definition encode_successor (s : SuccessorDescriptor) : bytes :=
  encode_string (sd_cluster_id s)
  ++ be_bytes 8 (sd_predecessor_config_id s)
  ++ as_bytes (sd_predecessor_config_digest s)
  ++ be_bytes 8 (sd_config_id s)
  ++ as_bytes (sd_config_digest s)
  ++ be_bytes 1 (N.of_nat (length (sd_members s)))
  ++ concat (encode_string <$> sd_members s).

Definition change_payload (c : ConfigChange) : bytes :=
  let version :=
    match c with
    | BoundStop _ | BoundActivationBarrier _ _ _ _ => BOUND_CONFIG_CHANGE_VERSION
    | _ => CONFIG_CHANGE_VERSION
    end in
  CONFIG_CHANGE_MAGIC ++ be_bytes 2 version ++
  match c with
  | Stop i d => Byte.x01 :: be_bytes 8 i ++ as_bytes d
  | ActivationBarrier i d slot h =>
      Byte.x02 :: be_bytes 8 i ++ as_bytes d ++ be_bytes 8 slot ++ as_bytes h
  | BoundStop s => Byte.x01 :: encode_successor s
  | BoundActivationBarrier s slot h k =>
      Byte.x02 :: encode_successor s ++ be_bytes 8 slot ++ as_bytes h ++ as_bytes k
  end.

Definition to_stored_command (c : ConfigChange) : StoredCommand :=
  mkStoredCommand ConfigChangeEntry (change_payload c).

(** *** Decoding *)

Definition read_config_u16 (l : bytes) (offset : N) : cc_result N :=
  end_ ← ok_or (checked_add offset 2) cc_err;
  m ← ok_or (slice l offset end_) cc_err; Ok (be_value m).
Definition read_config_u64 (l : bytes) (offset : N) : cc_result N :=
  end_ ← ok_or (checked_add offset 8) cc_err;
  m ← ok_or (slice l offset end_) cc_err; Ok (be_value m).
Definition read_config_hash (l : bytes) (offset : N) : cc_result LogHash :=
  end_ ← ok_or (checked_add offset 32) cc_err;
  m ← ok_or (slice l offset end_) cc_err; ok_or (array32_of m) cc_err.

Definition read_config_u64_at : reader ConfigChangeDecodeError N := λ l cursor,
  v ← read_config_u64 l cursor;
  cursor ← ok_or (checked_add cursor 8) cc_err; Ok (v, cursor).
Definition read_config_hash_at : reader ConfigChangeDecodeError LogHash := λ l cursor,
  v ← read_config_hash l cursor;
  cursor ← ok_or (checked_add cursor 32) cc_err; Ok (v, cursor).
Definition read_config_string : reader ConfigChangeDecodeError bytes := λ l cursor,
  length ← read_config_u16 l cursor;
  value_start ← ok_or (checked_add cursor 2) cc_err;
  value_end ← ok_or (checked_add value_start length) cc_err;
  value ← ok_or (slice l value_start value_end) cc_err;
  s ← from_utf8 value cc_err; Ok (s, value_end).

Section decode.
Context `{Sha256}.

Definition decode_successor : reader ConfigChangeDecodeError SuccessorDescriptor := λ l cursor,
  '(cluster_id, cursor) ← read_config_string l cursor;
  '(predecessor_config_id, cursor) ← read_config_u64_at l cursor;
  '(predecessor_config_digest, cursor) ← read_config_hash_at l cursor;
  '(config_id, cursor) ← read_config_u64_at l cursor;
  '(encoded_digest, cursor) ← read_config_hash_at l cursor;
  b ← ok_or (byte_at l cursor) cc_err;
  let count := N.to_nat (Byte.to_N b) in
  _ ← reject_if (negb ((3 <=? count) && (count <=? 7))) cc_err;
  '(members, cursor) ← read_many read_config_string count l (cursor + 1)%N;
  _ ← reject_if (negb (strictly_ascending id members)) cc_err;
  descriptor ← successor_new cluster_id predecessor_config_id predecessor_config_digest
    config_id members;
  _ ← reject_if (neqb (sd_config_digest descriptor) encoded_digest) cc_err;
  Ok (descriptor, cursor).

Definition recognize_parts (entry_type : EntryType) (l : bytes) : cc_result ConfigChange :=
  _ ← reject_if (neqb entry_type ConfigChangeEntry) cc_err;
  _ ← reject_if (neqb (slice l 0 4) (Some CONFIG_CHANGE_MAGIC)) cc_err;
  version ← read_config_u16 l 4;
  if eqb version BOUND_CONFIG_CHANGE_VERSION then
    kind ← ok_or (byte_at l 6) cc_err;
    '(successor, cursor) ← decode_successor l 7%N;
    '(change, cursor) ←
      match kind with
      | Byte.x01 => Ok (BoundStop successor, cursor)
      | Byte.x02 =>
          '(stop_slot, cursor) ← read_config_u64_at l cursor;
          '(prefix_hash, cursor) ← read_config_hash_at l cursor;
          '(stop_command_hash, cursor) ← read_config_hash_at l cursor;
          Ok (BoundActivationBarrier successor stop_slot prefix_hash stop_command_hash, cursor)
      | _ => Err cc_err
      end;
    _ ← reject_if (neqb cursor (blen l)) cc_err;
    Ok change
  else
    _ ← reject_if (neqb version CONFIG_CHANGE_VERSION) cc_err;
    kind ← ok_or (byte_at l 6) cc_err;
    config_id ← read_config_u64 l 7;
    config_digest ← read_config_hash l 15;
    match kind with
    | Byte.x01 => if eqb (blen l) 47%N then Ok (Stop config_id config_digest) else Err cc_err
    | Byte.x02 =>
        if eqb (blen l) 87%N then
          stop_slot ← read_config_u64 l 47;
          prefix_hash ← read_config_hash l 55;
          Ok (ActivationBarrier config_id config_digest stop_slot prefix_hash)
        else Err cc_err
    | _ => Err cc_err
    end.

Definition recognize (c : StoredCommand) : cc_result ConfigChange :=
  recognize_parts (sc_entry_type c) (sc_payload c).

Definition bound_stop (cluster_id : bytes) (predecessor_config_id : N)
    (predecessor_config_digest : LogHash) (successor_config_id : N)
    (successor_members : list bytes) : cc_result ConfigChange :=
  successor ← successor_new cluster_id predecessor_config_id predecessor_config_digest
    successor_config_id successor_members;
  Ok (BoundStop successor).
End decode.

(** ** Reading what was written *)

Lemma read_config_u64_at_field l c :
  read_config_u64_at l c = read_field 8 (λ m, Some (be_value m)) cc_err l c.
Proof.
  unfold read_config_u64_at, read_config_u64, read_field.
  destruct (checked_add c 8); cbn; [|done]. by destruct (slice l c n).
Qed.
Lemma read_config_hash_at_field l c :
  read_config_hash_at l c = read_field 32 array32_of cc_err l c.
Proof.
  unfold read_config_hash_at, read_config_hash, read_field.
  destruct (checked_add c 32); cbn; [|done]. by destruct (slice l c n).
Qed.

Lemma reads_config_u64 n : is_u64 n = true → reads read_config_u64_at (be_bytes 8 n) n.
Proof.
  rewrite is_u64_bound. intros Hn. eapply reads_ext; [apply read_config_u64_at_field|].
  apply reads_field; [apply blen_be_bytes|]. by rewrite be_value_bytes.
Qed.
Lemma reads_config_hash h : reads read_config_hash_at (as_bytes h) h.
Proof.
  eapply reads_ext; [apply read_config_hash_at_field|].
  apply reads_field; [apply blen_as_bytes|]. apply array32_of_as_bytes.
Qed.
Lemma consumes_config_u64 : consumes read_config_u64_at (be_bytes 8).
Proof.
  eapply consumes_ext; [apply read_config_u64_at_field|]. apply consumes_field.
  intros m a Hm [= <-]. assert (length m = 8) as <- by (unfold blen in Hm; lia). apply be_bytes_value.
Qed.
Lemma consumes_config_hash : consumes read_config_hash_at as_bytes.
Proof.
  eapply consumes_ext; [apply read_config_hash_at_field|]. apply consumes_field.
  intros m a _. apply array32_of_Some.
Qed.

#[export] Hint Resolve reads_config_u64 reads_config_hash consumes_config_u64 consumes_config_hash : codec.

Lemma reads_config_string s :
  is_str s = true → (blen s ≤ u16_max)%N → reads read_config_string (encode_string s) s.
Proof.
  intros Hs Hb p q Hl. unfold read_config_string, read_config_u16, encode_string in *.
  rewrite <-!app_assoc, !blen_app, blen_be_bytes in *.
  assert (checked_add (blen p) 2 = Some (blen p + 2)%N) as Hc by (apply checked_add_Some; lia).
  rewrite Hc. cbn [ok_or mbind result_bind].
  erewrite (slice_at _ p (be_bytes 2 (blen s))) by (rewrite ?blen_be_bytes; done).
  cbn [ok_or mbind result_bind]. unfold u16_max in Hb.
  rewrite be_value_bytes by lia.
  assert (checked_add (blen p + 2) (blen s) = Some (blen p + 2 + blen s)%N) as ->.
  { apply checked_add_Some. lia. }
  cbn [ok_or mbind result_bind].
  rewrite (slice_at _ (p ++ be_bytes 2 (blen s)) s q).
  - cbn. unfold from_utf8. rewrite Hs. cbn. f_equal. f_equal. lia.
  - by rewrite <-app_assoc.
  - rewrite blen_app, blen_be_bytes. done.
  - done.
Qed.

Lemma consumes_config_string l c s c' :
  read_config_string l c = Ok (s, c') →
  slice l c c' = Some (encode_string s) ∧ is_str s = true ∧ (blen s ≤ u16_max)%N.
Proof.
  unfold read_config_string, read_config_u16, encode_string. intros H. res_inv.
  apply from_utf8_Ok in Hok3 as [-> Hs].
  apply checked_add_Some in Hok0 as [-> _], Hok1 as [-> _], Hok4 as [-> _].
  pose proof (slice_length _ _ _ _ Hok2) as [Hb _].
  pose proof (slice_length _ _ _ _ Hok5) as [Hb5 _].
  assert (blen v2 = be_value v5) as Hlen by lia.
  split_and!; [|done|].
  - rewrite Hlen. erewrite be_bytes_of_slice; [|done|lia]. by eapply slice_snoc_parts.
  - pose proof (be_value_bound v5) as Hbd. unfold blen in Hb5.
    replace (length v5) with 2 in Hbd by lia. unfold u16_max. cbn in Hbd. lia.
Qed.
Lemma consumes_string : consumes read_config_string encode_string.
Proof. intros l c a c' Hr. by apply consumes_config_string in Hr as []. Qed.
#[export] Hint Resolve reads_config_string consumes_string : codec.

(** ** Successor descriptors *)

Section wf.
Context `{Sha256}.
Implicit Types s : SuccessorDescriptor.

(** The invariant of [SuccessorDescriptor]: what [new] and [Deserialize] establish. *)
Definition successor_wf s : Prop :=
  is_str (sd_cluster_id s) = true ∧ (0 < blen (sd_cluster_id s) ≤ u16_max)%N
  ∧ checked_add (sd_predecessor_config_id s) 1 = Some (sd_config_id s)
  ∧ member_count_ok (sd_members s) = true
  ∧ Forall (λ m, is_str m = true ∧ 0 < blen m ≤ u16_max)%N (sd_members s)
  ∧ strictly_ascending id (sd_members s) = true
  ∧ sd_config_digest s = digest [membership_preimage (sd_members s)].

Lemma names_ok (l : list bytes) :
  existsb member_name_bad l = false ↔ Forall (λ m, 0 < blen m ≤ u16_max)%N l.
Proof.
  induction l as [|m l IH]; cbn; [naive_solver|].
  rewrite orb_false_iff, IH, Forall_cons. unfold member_name_bad.
  rewrite orb_false_iff, N.eqb_neq, N.ltb_ge. naive_solver lia.
Qed.

Lemma canonical_digest_Ok (l : list bytes) d :
  canonical_membership_digest l = Ok d ↔
  member_count_ok l = true ∧ Forall (λ m, 0 < blen m ≤ u16_max)%N l
  ∧ strictly_ascending id l = true ∧ d = digest [membership_preimage l].
Proof.
  unfold canonical_membership_digest. rewrite <-names_ok.
  destruct (member_count_ok l), (existsb member_name_bad l), (strictly_ascending id l);
    cbn; naive_solver.
Qed.

Lemma canonical_sorted (l : list bytes) :
  strictly_ascending id l = true → dedup_by id (sort_by id l) = l.
Proof.
  intros Hs%strictly_ascending_spec. by rewrite (sort_by_ascending id), (dedup_by_id id).
Qed.

Lemma canonical_perm (l : list bytes) :
  length (dedup_by id (sort_by id l)) = length l → dedup_by id (sort_by id l) ≡ₚ l.
Proof.
  intros Hl. pose proof (dedup_by_sublist id (sort_by id l)) as Hs.
  assert (length (sort_by id l) = length l) as Hl2 by by rewrite (sort_by_perm id l).
  rewrite <-(sort_by_perm id l) at 2.
  apply sublist_submseteq, submseteq_length_Permutation in Hs; [done|lia].
Qed.

Lemma successor_new_Ok c p d i ms s :
  successor_new c p d i ms = Ok s →
  is_str c = true → Forall (λ m, is_str m = true) ms →
  successor_wf s ∧ sd_members s ≡ₚ ms ∧ sd_members s = dedup_by id (sort_by id ms)
  ∧ sd_cluster_id s = c ∧ sd_predecessor_config_id s = p ∧ sd_predecessor_config_digest s = d ∧ sd_config_id s = i.
Proof.
  unfold successor_new. intros Hn Hc Hms. res_inv. bool_prop.
  apply canonical_digest_Ok in Hok2 as (Hcount & Hnames & Hasc & ->).
  destruct Hok1 as [[Hlen _] _]. apply canonical_perm in Hlen.
  split; [|done]. unfold successor_wf; cbn. split_and!; try done; [lia|lia|].
  apply Forall_and; split; [|done]. by rewrite Hlen.
Qed.

Lemma successor_wf_new s :
  successor_wf s →
  successor_new (sd_cluster_id s) (sd_predecessor_config_id s) (sd_predecessor_config_digest s)
    (sd_config_id s) (sd_members s) = Ok s.
Proof.
  destruct s as [c p d i g ms]; unfold successor_wf; cbn.
  intros (Hs & Hc & Hi & Hn & [Hms Hnames]%Forall_and & Ha & ->).
  unfold successor_new. rewrite canonical_sorted by done.
  destruct (N.eqb_spec (blen c) 0); [lia|]. destruct (N.ltb_spec u16_max (blen c)); [lia|].
  cbn [orb reject_if mbind result_bind]. rewrite Hi, neqb_refl. cbn [reject_if mbind result_bind].
  rewrite Nat.eqb_refl, Hn, (proj2 (names_ok ms) Hnames). cbn [negb orb reject_if mbind result_bind].
  by rewrite (proj2 (canonical_digest_Ok ms (digest [membership_preimage ms]))) by done.
Qed.

Lemma successor_wf_lengths s :
  successor_wf s → (N.of_nat (length (sd_members s)) < 256 ^ 1)%N ∧ 3 ≤ length (sd_members s) ≤ 7
  ∧ is_u64 (sd_config_id s) = true ∧ is_u64 (sd_predecessor_config_id s) = true.
Proof.
  intros (_ & _ & Hi & Hn & _). unfold member_count_ok in Hn. bool_prop.
  apply checked_add_Some in Hi as [-> Hi]. unfold is_u64. rewrite !N.leb_le. lia.
Qed.

(** The member set of a successor descriptor does not depend on the order
    in which the members are listed. *)
Theorem successor_new_order_independent (c : bytes) (p : N) (d : LogHash) (i : N)
    (ms ms' : list bytes) :
  ms ≡ₚ ms' → successor_new c p d i ms = successor_new c p d i ms'.
Proof.
  intros Hp. unfold successor_new. by rewrite (sort_id_unique ms ms' Hp), (Permutation_length Hp).
Qed.

Lemma read_members_reads ms :
  Forall (λ m, is_str m = true ∧ 0 < blen m ≤ u16_max)%N ms →
  reads (read_many read_config_string (length ms)) (concat (encode_string <$> ms)) ms.
Proof.
  intros Hms. apply reads_many. eapply Forall_impl; [exact Hms|].
  intros m (? & ? & ?). by apply reads_config_string.
Qed.

Lemma decode_successor_reads s :
  successor_wf s → reads decode_successor (encode_successor s) s.
Proof.
  intros Hwf p rest Hl. pose proof (successor_wf_lengths s Hwf) as (Hlt & Hcnt & Hi & Hp).
  pose proof Hwf as (Hs & [_ Hc] & _ & Hn & Hms & Ha & _).
  pose proof (at_pos_start p (encode_successor s) rest) as Hat.
  unfold encode_successor in Hat at 2. rewrite <-!app_assoc in Hat.
  set (l := p ++ encode_successor s ++ rest) in *. unfold decode_successor.
  do 5 read_next.
  erewrite (at_pos_byte l) by exact Hat. cbn [ok_or mbind result_bind].
  rewrite to_N_of_N, N.mod_small, Nat2N.id by done.
  unfold member_count_ok in Hn. rewrite Hn. cbn [negb reject_if mbind result_bind].
  apply (at_pos_step l _ [_]) in Hat. pose proof (read_members_reads _ Hms). read_next.
  rewrite Ha. cbn [negb reject_if mbind result_bind].
  rewrite successor_wf_new by done. cbn [mbind result_bind].
  rewrite neqb_refl. cbn [reject_if mbind result_bind]. f_equal. f_equal.
  unfold encode_successor. blen_lia.
Qed.

Lemma read_members_str n l c ms c' :
  read_many read_config_string n l c = Ok (ms, c') → Forall (λ m, is_str m = true) ms.
Proof.
  revert c ms; induction n as [|n IH]; intros c ms Hr; cbn in Hr.
  - injection Hr as <- _. constructor.
  - res_inv. constructor; [|by eapply IH]. by apply consumes_config_string in Hok as (_ & ? & _).
Qed.

Lemma decode_successor_consumes l c s c' :
  decode_successor l c = Ok (s, c') → slice l c c' = Some (encode_successor s) ∧ successor_wf s.
Proof.
  unfold decode_successor. intros Hd. res_inv. bool_prop.
  pose proof (consumes_config_string _ _ _ _ Hok) as (Hs1 & Hc & _).
  apply consumes_config_u64 in Hok0, Hok2. apply consumes_config_hash in Hok1, Hok3.
  pose proof (read_members_str _ _ _ _ _ Hok6) as Hstr. apply byte_at_slice in Hok4.
  apply (read_many_consumes _ encode_string) in Hok6 as [Hms Hlen];
    [|apply consumes_string|by apply slice_length in Hok4 as [_ ?]; lia].
  apply successor_new_Ok in Hok8 as (Hwf & _ & Hm & <- & <- & <- & <-); [|done..].
  rewrite canonical_sorted in Hm by done. subst l1. subst a0. split; [|done].
  unfold encode_successor. consume_all.
  replace (be_bytes 1 (N.of_nat (length (sd_members s)))) with [v]; [consume_all|].
  rewrite Hlen, N2Nat.id. unfold be_bytes; cbn [app]. by rewrite of_N_to_N.
Qed.

(** ** Configuration changes *)

(** The fields of a change as their Rust types hold them. *)
Definition change_wf (c : ConfigChange) : Prop :=
  match c with
  | Stop i _ => is_u64 i = true
  | ActivationBarrier i _ slot _ => is_u64 i = true ∧ is_u64 slot = true
  | BoundStop s => successor_wf s
  | BoundActivationBarrier s slot _ _ => successor_wf s ∧ is_u64 slot = true
  end.

Lemma read_config_u64_pos l c n rest :
  at_pos l c (be_bytes 8 n ++ rest) → is_u64 n = true → (blen l ≤ u64_max)%N →
  read_config_u64 l c = Ok n.
Proof.
  intros Hat Hn Hl. pose proof (reads_config_u64 n Hn) as Hr. destruct Hat as (p & -> & ->).
  specialize (Hr p rest Hl). unfold read_config_u64_at in Hr. by res_inv.
Qed.
Lemma read_config_hash_pos l c h rest :
  at_pos l c (as_bytes h ++ rest) → (blen l ≤ u64_max)%N → read_config_hash l c = Ok h.
Proof.
  intros Hat Hl. pose proof (reads_config_hash h) as Hr. destruct Hat as (p & -> & ->).
  specialize (Hr p rest Hl). unfold read_config_hash_at in Hr. by res_inv.
Qed.
Lemma read_config_u16_pos l c n rest :
  at_pos l c (be_bytes 2 n ++ rest) → is_u16 n = true → (blen l ≤ u64_max)%N →
  read_config_u16 l c = Ok n.
Proof.
  intros Hat Hn Hl. unfold read_config_u16. apply at_pos_slice in Hat as Hs.
  rewrite blen_be_bytes in Hs. change (N.of_nat 2) with 2%N in Hs. apply slice_length in Hs as Hb.
  assert (checked_add c 2 = Some (c + 2)%N) as -> by (apply checked_add_Some; lia).
  cbn [ok_or mbind result_bind]. rewrite Hs. cbn [ok_or mbind result_bind].
  unfold is_u16, u16_max in Hn. bool_prop. by rewrite be_value_bytes by (cbn; lia).
Qed.

Lemma change_payload_header c :
  ∃ k body, change_payload c =
    CONFIG_CHANGE_MAGIC ++ be_bytes 2 (if change_successor c then 2 else 1)%N ++ [k] ++ body.
Proof. destruct c; cbn; eauto. Qed.

Lemma recognize_header c :
  (blen (change_payload c) ≤ u64_max)%N →
  slice (change_payload c) 0 4 = Some CONFIG_CHANGE_MAGIC
  ∧ read_config_u16 (change_payload c) 4 = Ok (if change_successor c then 2 else 1)%N.
Proof.
  destruct (change_payload_header c) as (k & body & Hp). intros Hl. split.
  - rewrite Hp. by eapply (slice_at _ [] CONFIG_CHANGE_MAGIC).
  - pose proof (at_pos_zero (change_payload c)) as Hat. rewrite Hp in Hat at 2.
    apply at_pos_step in Hat. change (0 + blen CONFIG_CHANGE_MAGIC)%N with 4%N in Hat.
    eapply read_config_u16_pos; [exact Hat| |done]. by destruct (change_successor c).
Qed.

Lemma recognize_bound_stop (s : SuccessorDescriptor) :
  successor_wf s → (blen (change_payload (BoundStop s)) ≤ u64_max)%N →
  recognize (to_stored_command (BoundStop s)) = Ok (BoundStop s).
Proof.
  intros Hwf Hl. destruct (recognize_header (BoundStop s) Hl) as [Hm Hv].
  unfold recognize, to_stored_command; cbn [sc_entry_type sc_payload].
  set (l := change_payload (BoundStop s)) in *.
  assert (at_pos l 6 ([Byte.x01] ++ encode_successor s ++ [])) as Hat.
  { exists (CONFIG_CHANGE_MAGIC ++ be_bytes 2 2). by rewrite app_nil_r. }
  unfold recognize_parts. rewrite Hm, Hv, neqb_refl. cbn [reject_if mbind result_bind eqb change_successor].
  rewrite neqb_refl, eqb_refl. cbn [reject_if mbind result_bind].
  rewrite (at_pos_byte _ _ _ _ Hat). cbn [ok_or mbind result_bind].
  apply at_pos_step in Hat. change (6 + blen [Byte.x01])%N with 7%N in Hat.
  pose proof (decode_successor_reads s Hwf). read_next.
  cbn [mbind result_bind]. apply at_pos_end in Hat as <-.
  by rewrite neqb_refl.
Qed.

Lemma recognize_bound_activation (s : SuccessorDescriptor) slot h k :
  let c := BoundActivationBarrier s slot h k in
  successor_wf s → is_u64 slot = true → (blen (change_payload c) ≤ u64_max)%N →
  recognize (to_stored_command c) = Ok c.
Proof.
  intros c Hwf Hu Hl. destruct (recognize_header c Hl) as [Hm Hv].
  unfold recognize, to_stored_command; cbn [sc_entry_type sc_payload].
  set (l := change_payload c) in *.
  assert (at_pos l 6 ([Byte.x02] ++ encode_successor s ++ be_bytes 8 slot
    ++ as_bytes h ++ as_bytes k ++ [])) as Hat.
  { exists (CONFIG_CHANGE_MAGIC ++ be_bytes 2 2). by rewrite app_nil_r. }
  unfold recognize_parts. rewrite Hm, Hv, neqb_refl. cbn [reject_if mbind result_bind change_successor c].
  rewrite neqb_refl, eqb_refl. cbn [reject_if mbind result_bind].
  rewrite (at_pos_byte _ _ _ _ Hat). cbn [ok_or mbind result_bind].
  apply at_pos_step in Hat. change (6 + blen [Byte.x02])%N with 7%N in Hat.
  pose proof (decode_successor_reads s Hwf). read_next.
  rewrite (reads_step _ _ slot _ _ _ _ Hat (reads_config_u64 slot Hu) Hl).
  apply at_pos_step in Hat.
  rewrite (reads_step _ _ h _ _ _ _ Hat (reads_config_hash h) Hl). apply at_pos_step in Hat.
  rewrite (reads_step _ _ k _ _ _ _ Hat (reads_config_hash k) Hl). apply at_pos_step in Hat.
  cbn [mbind result_bind]. apply at_pos_end in Hat as <-.
  by rewrite neqb_refl.
Qed.

Lemma recognize_plain c :
  change_successor c = None → change_wf c → (blen (change_payload c) ≤ u64_max)%N →
  recognize (to_stored_command c) = Ok c.
Proof.
  intros Hn Hwf Hl. destruct (recognize_header c Hl) as [Hm Hv]. rewrite Hn in Hv.
  unfold recognize, to_stored_command; cbn [sc_entry_type sc_payload].
  unfold recognize_parts. rewrite Hm, Hv, neqb_refl. cbn [reject_if mbind result_bind].
  rewrite neqb_refl. cbn [reject_if mbind result_bind].
  assert (∃ k i d rest, at_pos (change_payload c) 6 ([k] ++ be_bytes 8 i ++ as_bytes d ++ rest)
    ∧ is_u64 i = true
    ∧ match c with
      | Stop i' d' => k = Byte.x01 ∧ i = i' ∧ d = d' ∧ rest = []
      | ActivationBarrier i' d' slot h => k = Byte.x02 ∧ i = i' ∧ d = d'
          ∧ rest = be_bytes 8 slot ++ as_bytes h ++ []
      | _ => False
      end) as (k & i & d & rest & Hat & Hi & Hc).
  { destruct c as [i d|i d slot h|s|s slot h k]; try done.
    - exists Byte.x01, i, d, []. split_and!; try done.
      exists (CONFIG_CHANGE_MAGIC ++ be_bytes 2 1). by rewrite app_nil_r.
    - destruct Hwf. exists Byte.x02, i, d, (be_bytes 8 slot ++ as_bytes h ++ []).
      split_and!; try done.
      exists (CONFIG_CHANGE_MAGIC ++ be_bytes 2 1). by rewrite app_nil_r. }
  rewrite (at_pos_byte _ _ _ _ Hat). cbn [ok_or mbind result_bind].
  apply at_pos_step in Hat. change (6 + blen [k])%N with 7%N in Hat.
  rewrite (read_config_u64_pos _ _ _ _ Hat Hi Hl). cbn [mbind result_bind].
  apply at_pos_step in Hat. rewrite blen_be_bytes in Hat. change (7 + N.of_nat 8)%N with 15%N in Hat.
  rewrite (read_config_hash_pos _ _ _ _ Hat Hl). cbn [mbind result_bind].
  apply at_pos_step in Hat. rewrite blen_as_bytes in Hat. change (15 + 32)%N with 47%N in Hat.
  destruct c as [i' d'|i' d' slot h|s|s slot h k']; try done;
    destruct Hc as (-> & <- & <- & ->).
  - apply at_pos_end in Hat as <-. done.
  - destruct Hwf as [_ Hs]. rewrite (read_config_u64_pos _ _ _ _ Hat Hs Hl).
    apply at_pos_step in Hat. rewrite blen_be_bytes in Hat. change (47 + N.of_nat 8)%N with 55%N in Hat.
    rewrite (read_config_hash_pos _ _ _ _ Hat Hl).
    apply at_pos_step in Hat. rewrite blen_as_bytes in Hat. apply at_pos_end in Hat as <-. done.
Qed.

Lemma members_size ms :
  Forall (λ m, is_str m = true ∧ 0 < blen m ≤ u16_max)%N ms →
  (blen (concat (encode_string <$> ms)) ≤ N.of_nat (length ms) * 65537)%N.
Proof.
  unfold u16_max. induction 1 as [|m ms (_ & _ & Hm) _ IH]; cbn [fmap list_fmap concat length].
  - rewrite blen_nil. lia.
  - unfold encode_string at 1. blen_lia.
Qed.

Lemma change_payload_size c : change_wf c → (blen (change_payload c) ≤ u64_max)%N.
Proof.
  assert (∀ s, successor_wf s → (blen (encode_successor s) ≤ 600000)%N) as Hs.
  { intros s Hwf. pose proof (successor_wf_lengths s Hwf) as (_ & Hcnt & _).
    destruct Hwf as (_ & Hc & _ & _ & Hms%members_size & _).
    unfold encode_successor, u16_max in *. rewrite blen_app. unfold encode_string at 1. blen_lia. }
  assert (blen CONFIG_CHANGE_MAGIC = 4%N) by done. unfold u64_max.
  destruct c as [i d|i d slot h|s|s slot h k]; cbn [change_wf]; intros Hwf;
    unfold change_payload; autorewrite with blen; [lia..| |].
  - apply Hs in Hwf. lia.
  - destruct Hwf as [Hwf%Hs _]. lia.
Qed.

(** Every configuration change, with a validated successor descriptor
    where it carries one, is recognized from the command it is stored as. *)
Theorem config_change_roundtrip (c : ConfigChange) :
  change_wf c → recognize (to_stored_command c) = Ok c.
Proof.
  intros Hwf. pose proof (change_payload_size c Hwf) as Hl.
  destruct c as [i d|i d slot h|s|s slot h k].
  - by apply recognize_plain.
  - by apply recognize_plain.
  - by apply recognize_bound_stop.
  - destruct Hwf. by apply recognize_bound_activation.
Qed.

Lemma read_config_u64_slice l c n :
  read_config_u64 l c = Ok n → slice l c (c + 8) = Some (be_bytes 8 n) ∧ is_u64 n = true.
Proof.
  unfold read_config_u64. intros Hr. res_inv. apply checked_add_Some in Hok as [-> _].
  assert (length v0 = 8) as Hlen by (apply slice_length in Hok0 as [Hb _]; unfold blen in Hb; lia).
  split; [by erewrite be_bytes_of_slice; [|done|lia]|].
  apply is_u64_bound. rewrite <-Hlen. apply be_value_bound.
Qed.
Lemma read_config_hash_slice l c h :
  read_config_hash l c = Ok h → slice l c (c + 32) = Some (as_bytes h).
Proof.
  unfold read_config_hash. intros Hr. res_inv. apply checked_add_Some in Hok as [-> _].
  apply array32_of_Some in Hr. by subst.
Qed.
Lemma read_config_u16_slice l c n :
  read_config_u16 l c = Ok n → slice l c (c + 2) = Some (be_bytes 2 n).
Proof.
  unfold read_config_u16. intros Hr. res_inv. apply checked_add_Some in Hok as [-> _].
  by erewrite be_bytes_of_slice; [|done|lia].
Qed.

(** The version-2 branch of [recognize_parts]. *)
Lemma recognize_bound_canonical l v s n c :
  slice l 0 6 = Some (CONFIG_CHANGE_MAGIC ++ be_bytes 2 BOUND_CONFIG_CHANGE_VERSION) →
  byte_at l 6 = Some v → decode_successor l 7%N = Ok (s, n) →
  match v with
  | Byte.x01 => Ok (BoundStop s, n)
  | Byte.x02 =>
      '(stop_slot, cursor) ← read_config_u64_at l n;
      '(prefix_hash, cursor) ← read_config_hash_at l cursor;
      '(stop_command_hash, cursor) ← read_config_hash_at l cursor;
      Ok (BoundActivationBarrier s stop_slot prefix_hash stop_command_hash, cursor)
  | _ => Err cc_err
  end = Ok (c, blen l) →
  slice l 0 (blen l) = Some (change_payload c) ∧ change_wf c.
Proof.
  intros Hh Hv%byte_at_slice Hs Hk. change (6 + 1)%N with 7%N in Hv.
  apply decode_successor_consumes in Hs as [Hs Hwf].
  destruct v; try discriminate Hk; res_inv.
  - split; [|done]. unfold change_payload.
    change (?x :: encode_successor s) with ([x] ++ encode_successor s).
    rewrite app_assoc. consume_all.
  - unfold read_config_u64_at in Hok. res_inv. apply checked_add_Some in Hok3 as [-> _].
    apply read_config_u64_slice in Hok2 as [Hu Hu64].
    apply consumes_config_hash in Hok0, Hok1. split; [|done]. unfold change_payload.
    change (?x :: encode_successor s ++ ?k) with ([x] ++ encode_successor s ++ k).
    rewrite (app_assoc CONFIG_CHANGE_MAGIC). consume_all.
Qed.

Lemma recognize_inv (cmd : StoredCommand) (c : ConfigChange) :
  recognize cmd = Ok c → to_stored_command c = cmd ∧ change_wf c.
Proof.
  destruct cmd as [t l]. unfold recognize, recognize_parts, to_stored_command;
    cbn [sc_entry_type sc_payload]. intros Hr. res_inv. bool_prop. subst t.
  apply read_config_u16_slice in Hok1.
  pose proof (slice_snoc_parts _ _ _ _ _ _ Hok0 Hok1) as Hh. change (4 + 2)%N with 6%N in Hh.
  enough (slice l 0 (blen l) = Some (change_payload c) ∧ change_wf c) as [Hp%slice_whole Hwf]
    by (by subst).
  destruct (eqb v1 BOUND_CONFIG_CHANGE_VERSION) eqn:Ev; bool_prop; res_inv.
  - subst. bool_prop. subst. by eapply recognize_bound_canonical.
  - bool_prop. subst. apply byte_at_slice in Hok2. change (6 + 1)%N with 7%N in Hok2.
    apply read_config_u64_slice in Hok3 as [Hi Hi64]. apply read_config_hash_slice in Hok4.
    change (7 + 8)%N with 15%N in Hi. change (15 + 32)%N with 47%N in Hok4.
    match goal with b : byte |- _ => destruct b; try discriminate Hr end.
    + destruct (eqb (blen l) 47%N) eqn:El; [|done]. injection Hr as <-. bool_prop. rewrite El.
      split; [|done]. unfold change_payload.
      change (?x :: ?a ++ ?b) with ([x] ++ a ++ b). rewrite app_assoc. consume_all.
    + destruct (eqb (blen l) 87%N) eqn:El; [|done]. bool_prop. rewrite El. res_inv.
      apply read_config_u64_slice in Hok as [Hslot Hs64]. apply read_config_hash_slice in Hok3.
      change (47 + 8)%N with 55%N in Hslot. change (55 + 32)%N with 87%N in Hok3.
      split; [|done]. unfold change_payload.
      change (?x :: ?a ++ ?b) with ([x] ++ a ++ b). rewrite (app_assoc CONFIG_CHANGE_MAGIC). consume_all.
Qed.

(** Recognition is canonical: a command is recognized as a configuration
    change only if it is the stored form of that change, and the change then
    satisfies its invariant (in particular its successor is a validated
    descriptor whose digest is the digest of its members). *)
Theorem recognize_canonical (cmd : StoredCommand) (c : ConfigChange) :
  recognize cmd = Ok c → to_stored_command c = cmd ∧ change_wf c.
Proof. apply recognize_inv. Qed.

Lemma length_prefixed_inj (ms ms' : list bytes) :
  Forall (λ m, 0 < blen m ≤ u16_max)%N ms → Forall (λ m, 0 < blen m ≤ u16_max)%N ms' →
  length ms = length ms' →
  concat ((λ m, be_bytes 8 (blen m) ++ m) <$> ms)
  = concat ((λ m, be_bytes 8 (blen m) ++ m) <$> ms') → ms = ms'.
Proof.
  intros Hms. revert ms'. induction Hms as [|m ms Hm _ IH]; intros [|m' ms'] Hms' Hl Heq; try done.
  inversion Hms' as [|? ? Hm' Hms'']; subst. cbn [fmap list_fmap concat] in Heq.
  rewrite <-!app_assoc in Heq. split_bytes Heq. unfold u16_max in *.
  match goal with Hb : be_bytes 8 _ = _ |- _ => apply be_bytes_inj in Hb; [|cbn; lia..] end.
  apply app_inj_len in Heq as [-> Heq]; [|unfold blen in *; lia].
  f_equal. apply IH; [done|cbn in Hl; lia|done].
Qed.

Lemma config_digest_binds_members (s1 s2 : SuccessorDescriptor) :
  successor_wf s1 → successor_wf s2 → sd_config_digest s1 = sd_config_digest s2 →
  sd_members s1 = sd_members s2 ∨ collision.
Proof.
  intros Hw1 Hw2. pose proof (successor_wf_lengths _ Hw1) as (_ & L1 & _).
  pose proof (successor_wf_lengths _ Hw2) as (_ & L2 & _).
  destruct Hw1 as (_ & _ & _ & _ & [_ N1]%Forall_and & _ & ->).
  destruct Hw2 as (_ & _ & _ & _ & [_ N2]%Forall_and & _ & ->).
  unfold digest; cbn [concat]. rewrite !app_nil_r.
  intros [Heq|]%sha256_inj_or_collision; [left|by right].
  unfold membership_preimage in Heq. apply app_inv_head in Heq.
  apply app_inv_head in Heq. split_bytes Heq.
  match goal with Hb : be_bytes 8 _ = _ |- _ => apply be_bytes_inj in Hb; [|cbn; lia..] end.
  apply length_prefixed_inj; [done|done|lia|done].
Qed.
End wf.

(** ** Examples *)

Definition sample_members : list bytes := [lit "n1"; lit "n2"; lit "n3"].

Definition sample_successor : SuccessorDescriptor :=
  let h := sample_sha256 in
  mkSuccessor (lit "cluster-a") 1 LogHash_ZERO 2 (digest [membership_preimage sample_members])
    sample_members.

Lemma sample_successor_wf : @successor_wf sample_sha256 sample_successor.
Proof.
  unfold successor_wf. split_and!; try (vm_compute; reflexivity); try (vm_compute; congruence).
  repeat constructor; vm_compute; congruence.
Defined.

Lemma successor_new_order_independent_witness :
  let h := sample_sha256 in
  successor_new (lit "cluster-a") 1 LogHash_ZERO 2 [lit "n2"; lit "n1"; lit "n3"]
  = successor_new (lit "cluster-a") 1 LogHash_ZERO 2 sample_members.
Proof. apply successor_new_order_independent, perm_swap. Defined.

Lemma config_change_roundtrip_witness :
  let h := sample_sha256 in
  recognize (to_stored_command (BoundStop sample_successor)) = Ok (BoundStop sample_successor).
Proof. apply config_change_roundtrip, sample_successor_wf. Defined.

Lemma recognize_canonical_witness :
  let h := sample_sha256 in
  to_stored_command (Stop 7 LogHash_ZERO)
  = mkStoredCommand ConfigChangeEntry
      (lit "QCFG" ++ be_bytes 2 1 ++ [Byte.x01] ++ be_bytes 8 7 ++ as_bytes LogHash_ZERO)
  ∧ change_wf (Stop 7 LogHash_ZERO).
Proof. apply recognize_canonical. vm_compute. reflexivity. Defined.
