(* ===== verification/ConfigState.v ===== *)
(** * ConfigState: the configuration state machine of the log

    Models [ConfigurationState::validate_entry] of [crates/rhiza-core/src/lib.rs]
    (how each log entry moves the cluster between an active configuration and a
    stopped one), and the metadata records that carry such a state:
    [RecoveryAnchor], [SnapshotIdentity] and [SnapshotManifest] with the checks
    their [Deserialize] implementations make. *)

From S2P Require Import Prelude Bytes Core ConfigChange.
From Stdlib Require Strings.Byte.

Inductive StopBinding : Type :=
| Unknown | Unbound
| Bound (successor : SuccessorDescriptor) (stop_command_hash : LogHash).
#[export] Instance StopBinding_eq_dec : EqDecision StopBinding.
Proof. solve_decision. Defined.

Inductive ConfigurationState : Type :=
| Active (config_id : N) (digest : LogHash)
| Stopped (config_id : N) (digest : LogHash) (stop : LogAnchor) (binding : StopBinding).
#[export] Instance ConfigurationState_eq_dec : EqDecision ConfigurationState.
Proof. solve_decision. Defined.

Inductive ConfigurationTransitionError : Type :=
| EntryHashMismatch | InvalidConfigChange | ConfigurationMismatch | InvalidActivation.

Definition active (config_id : N) (d : LogHash) : ConfigurationState := Active config_id d.
Definition stopped (config_id : N) (d : LogHash) (stop : LogAnchor) : ConfigurationState :=
  Stopped config_id d stop Unbound.
Definition cs_config_id (s : ConfigurationState) : N :=
  match s with Active i _ | Stopped i _ _ _ => i end.
Definition cs_digest (s : ConfigurationState) : LogHash :=
  match s with Active _ d | Stopped _ d _ _ => d end.
Definition cs_stop (s : ConfigurationState) : option LogAnchor :=
  match s with Active _ _ => None | Stopped _ _ a _ => Some a end.
Definition is_active (s : ConfigurationState) : bool :=
  match s with Active _ _ => true | Stopped _ _ _ _ => false end.

Section validate.
Context `{Sha256}.

Definition bound_stop_hash (s : SuccessorDescriptor) : LogHash :=
  command_hash (to_stored_command (BoundStop s)).

Definition validate_entry (self : ConfigurationState) (entry : LogEntry) :
    result ConfigurationTransitionError ConfigurationState :=
  _ ← reject_if (neqb (recompute_hash entry) (le_hash entry)) EntryHashMismatch;
  change ← (if eqb (le_entry_type entry) ConfigChangeEntry
            then c ← map_err (λ _, InvalidConfigChange)
                       (recognize_parts (le_entry_type entry) (le_payload entry));
                 Ok (Some c)
            else Ok None);
  match self, change with
  | Active config_id digest, Some (Stop stop_config_id config_digest) =>
      if eqb (le_config_id entry) config_id && eqb stop_config_id config_id
         && (eqb digest LogHash_ZERO || eqb config_digest digest)
      then Ok (stopped config_id config_digest (mkLogAnchor (le_index entry) (le_hash entry)))
      else Err ConfigurationMismatch
  | Active config_id digest, Some (BoundStop successor) =>
      if eqb (le_cluster_id entry) (sd_cluster_id successor)
         && eqb (le_config_id entry) config_id
         && eqb (sd_predecessor_config_id successor) config_id
         && eqb (sd_predecessor_config_digest successor) digest
      then Ok (Stopped config_id digest (mkLogAnchor (le_index entry) (le_hash entry))
                 (Bound successor (bound_stop_hash successor)))
      else Err ConfigurationMismatch
  | Active config_id _, None =>
      if eqb (le_config_id entry) config_id then Ok self else Err ConfigurationMismatch
  | Active _ _, Some _ => Err ConfigurationMismatch
  | Stopped predecessor_id _ stop Unbound,
    Some (ActivationBarrier config_id config_digest stop_slot prefix_hash) =>
      if eqb (checked_add predecessor_id 1) (Some config_id)
         && eqb (le_config_id entry) config_id
         && eqb (checked_add (la_index stop) 1) (Some (le_index entry))
         && eqb (le_prev_hash entry) (la_hash stop)
         && eqb stop_slot (la_index stop)
         && eqb prefix_hash (la_hash stop)
      then Ok (active config_id config_digest)
      else Err InvalidActivation
  | Stopped predecessor_id predecessor_digest stop (Bound authorized_successor authorized_hash),
    Some (BoundActivationBarrier successor stop_slot prefix_hash stop_command_hash) =>
      if eqb (sd_predecessor_config_id successor) predecessor_id
         && eqb (sd_predecessor_config_digest successor) predecessor_digest
         && eqb successor authorized_successor
         && eqb (le_cluster_id entry) (sd_cluster_id successor)
         && eqb (le_config_id entry) (sd_config_id successor)
         && eqb (checked_add (la_index stop) 1) (Some (le_index entry))
         && eqb (le_prev_hash entry) (la_hash stop)
         && eqb stop_slot (la_index stop)
         && eqb prefix_hash (la_hash stop)
         && eqb authorized_hash (bound_stop_hash authorized_successor)
         && eqb stop_command_hash authorized_hash
      then Ok (active (sd_config_id successor) (sd_config_digest successor))
      else Err InvalidActivation
  | Stopped _ _ _ _, _ => Err InvalidActivation
  end.

(** The state after a log: each entry is validated in turn. *)
Definition config_run : ConfigurationState → list LogEntry →
    result ConfigurationTransitionError ConfigurationState := try_fold validate_entry.
End validate.

(** ** Recovery metadata *)

Record SnapshotIdentity : Type := mkSnapshotIdentity {
  si_snapshot_id : bytes; si_digest : LogHash; si_size_bytes : N;
  si_executor_fingerprint : option LogHash
}.
#[export] Instance SnapshotIdentity_eq_dec : EqDecision SnapshotIdentity.
Proof. solve_decision. Defined.

Record RecoveryAnchor : Type := mkRecoveryAnchor {
  ra_format_version : N; ra_cluster_id : bytes; ra_epoch : N; ra_config_id : N;
  ra_configuration_state : ConfigurationState; ra_recovery_generation : N;
  ra_compacted : LogAnchor; ra_snapshot : SnapshotIdentity
}.
#[export] Instance RecoveryAnchor_eq_dec : EqDecision RecoveryAnchor.
Proof. solve_decision. Defined.

Definition RECOVERY_ANCHOR_FORMAT_VERSION : N := 2.
Definition RECOVERY_ANCHOR_V1_FORMAT_VERSION : N := 1.

Definition anchor_new (cluster_id : bytes) (epoch config_id recovery_generation : N)
    (compacted : LogAnchor) (snapshot : SnapshotIdentity) : RecoveryAnchor :=
  mkRecoveryAnchor RECOVERY_ANCHOR_FORMAT_VERSION cluster_id epoch config_id
    (active config_id LogHash_ZERO) recovery_generation compacted snapshot.
Definition anchor_new_with_configuration (cluster_id : bytes) (epoch : N)
    (configuration_state : ConfigurationState) (recovery_generation : N)
    (compacted : LogAnchor) (snapshot : SnapshotIdentity) : RecoveryAnchor :=
  mkRecoveryAnchor RECOVERY_ANCHOR_FORMAT_VERSION cluster_id epoch
    (cs_config_id configuration_state) configuration_state recovery_generation compacted snapshot.
Definition anchor_from_v1 (cluster_id : bytes) (epoch config_id recovery_generation : N)
    (compacted : LogAnchor) (snapshot : SnapshotIdentity) : RecoveryAnchor :=
  mkRecoveryAnchor RECOVERY_ANCHOR_V1_FORMAT_VERSION cluster_id epoch config_id
    (active config_id LogHash_ZERO) recovery_generation compacted snapshot.

(** The derived wire struct of [RecoveryAnchor::deserialize]; [None] in the
    result is the serde error. *)
Record AnchorWire : Type := mkAnchorWire {
  aw_format_version : N; aw_cluster_id : bytes; aw_epoch : N; aw_config_id : N;
  aw_configuration_state : option ConfigurationState; aw_recovery_generation : N;
  aw_compacted : LogAnchor; aw_snapshot : SnapshotIdentity
}.

Definition anchor_from_wire (wire : AnchorWire) : option RecoveryAnchor :=
  configuration_state ←
    (if eqb (aw_format_version wire) RECOVERY_ANCHOR_V1_FORMAT_VERSION then
       match aw_configuration_state wire with
       | None => Some (active (aw_config_id wire) LogHash_ZERO)
       | Some state =>
           if eqb state (active (aw_config_id wire) LogHash_ZERO) then Some state else None
       end
     else if eqb (aw_format_version wire) RECOVERY_ANCHOR_FORMAT_VERSION then
       match aw_configuration_state wire with
       | Some state => if eqb (cs_config_id state) (aw_config_id wire) then Some state else None
       | None => None
       end
     else None);
  Some (mkRecoveryAnchor (aw_format_version wire) (aw_cluster_id wire) (aw_epoch wire)
    (aw_config_id wire) configuration_state (aw_recovery_generation wire)
    (aw_compacted wire) (aw_snapshot wire)).

(** [Serialize] is derived: every field as it stands. *)
Definition anchor_to_wire (a : RecoveryAnchor) : AnchorWire :=
  mkAnchorWire (ra_format_version a) (ra_cluster_id a) (ra_epoch a) (ra_config_id a)
    (Some (ra_configuration_state a)) (ra_recovery_generation a) (ra_compacted a) (ra_snapshot a).

(** ** The state machine *)

Section machine.
Context `{Sha256}.
Implicit Types (s : ConfigurationState) (e : LogEntry).

(** One step of the machine, as a relation: what each accepted entry is. *)
Inductive config_step : ConfigurationState → LogEntry → ConfigurationState → Prop :=
| step_ordinary i d e :
    le_entry_type e ≠ ConfigChangeEntry → le_config_id e = i →
    config_step (Active i d) e (Active i d)
| step_stop i d e g :
    recognize_parts (le_entry_type e) (le_payload e) = Ok (Stop i g) →
    le_config_id e = i → d = LogHash_ZERO ∨ g = d →
    config_step (Active i d) e (Stopped i g (mkLogAnchor (le_index e) (le_hash e)) Unbound)
| step_bound_stop i d e (s : SuccessorDescriptor) :
    recognize_parts (le_entry_type e) (le_payload e) = Ok (BoundStop s) →
    le_config_id e = i → le_cluster_id e = sd_cluster_id s →
    sd_predecessor_config_id s = i → sd_predecessor_config_digest s = d →
    config_step (Active i d) e
      (Stopped i d (mkLogAnchor (le_index e) (le_hash e)) (Bound s (bound_stop_hash s)))
| step_activate i d stop e g :
    recognize_parts (le_entry_type e) (le_payload e)
      = Ok (ActivationBarrier (i + 1) g (la_index stop) (la_hash stop)) →
    (i + 1 ≤ u64_max)%N → le_config_id e = (i + 1)%N →
    le_index e = (la_index stop + 1)%N → le_prev_hash e = la_hash stop →
    config_step (Stopped i d stop Unbound) e (Active (i + 1) g)
| step_bound_activate i d stop e (s : SuccessorDescriptor) :
    recognize_parts (le_entry_type e) (le_payload e)
      = Ok (BoundActivationBarrier s (la_index stop) (la_hash stop) (bound_stop_hash s)) →
    sd_predecessor_config_id s = i → sd_predecessor_config_digest s = d →
    le_cluster_id e = sd_cluster_id s → le_config_id e = sd_config_id s →
    le_index e = (la_index stop + 1)%N → le_prev_hash e = la_hash stop →
    config_step (Stopped i d stop (Bound s (bound_stop_hash s))) e
      (Active (sd_config_id s) (sd_config_digest s)).

Lemma validate_entry_sound s e s' :
  validate_entry s e = Ok s' → recompute_hash e = le_hash e ∧ config_step s e s'.
Proof.
  unfold validate_entry. intros Hv. res_inv. bool_prop. split; [done|].
  destruct (eqb (le_entry_type e) ConfigChangeEntry) eqn:Et.
  - res_inv. rename v into c, Hok into Hc. 
    destruct s as [i d|i d stop [| |s h]], c; try discriminate Hv;
      match type of Hv with (if ?b then _ else _) = _ => destruct b eqn:Eb end;
      try discriminate Hv; injection Hv as <-; bool_prop; destruct_and?; simplify_eq.
    + by apply step_stop.
    + by apply step_bound_stop.
    + match goal with Hs : checked_add (la_index _) 1 = _ |- _ => apply checked_add_Some in Hs as [? _] end.
      match goal with Hs : checked_add i 1 = _ |- _ => apply checked_add_Some in Hs as [Hi ?] end.
      rewrite Hi in *. by apply step_activate.
    + match goal with Hs : checked_add (la_index _) 1 = _ |- _ => apply checked_add_Some in Hs as [? _] end.
      by apply step_bound_activate.
  - res_inv. bool_prop. destruct s as [i d|i d stop b].
    + destruct (eqb (le_config_id e) i) eqn:Ei; [|done]. injection Hv as <-. bool_prop.
      by apply step_ordinary.
    + by destruct b.
Qed.

Lemma recognize_parts_wf t l c : recognize_parts t l = Ok c → change_wf c.
Proof. intros Hr. by apply (recognize_inv (mkStoredCommand t l)). Qed.

Lemma recognize_parts_type t l c : recognize_parts t l = Ok c → t = ConfigChangeEntry.
Proof. unfold recognize_parts. intros Hr. res_inv. by bool_prop. Qed.

Lemma validate_entry_complete s e s' :
  recompute_hash e = le_hash e → (le_index e ≤ u64_max)%N → config_step s e s' →
  validate_entry s e = Ok s'.
Proof.
  intros Hh Hu Hs. unfold validate_entry. rewrite (proj2 (neqb_false _ _) Hh).
  cbn [reject_if mbind result_bind].
  destruct Hs as [i d e Ht Hi|i d e g Hr Hi Hd|i d e s Hr Hi Hc Hp Hg
    |i d stop e g Hr Hu' Hi Hx Hp|i d stop e s Hr Hp Hd Hc Hi Hx Hh'];
    [rewrite (proj2 (eqb_false _ _) Ht); cbn [mbind result_bind]; by rewrite Hi, eqb_refl| | | |];
    pose proof (recognize_parts_type _ _ _ Hr) as Ht; rewrite Ht in Hr |- *;
    rewrite (eqb_refl ConfigChangeEntry), Hr; cbn [map_err mbind result_bind].
  - rewrite Hi, !eqb_refl. destruct Hd as [-> | ->]; [done|]. by rewrite eqb_refl, orb_true_r.
  - by rewrite Hc, Hi, Hp, Hg, !eqb_refl.
  - assert (checked_add i 1 = Some (i + 1)%N) as -> by by apply checked_add_Some.
    assert (checked_add (la_index stop) 1 = Some (le_index e)) as ->.
    { apply checked_add_Some. lia. }
    by rewrite Hi, Hp, !eqb_refl.
  - assert (checked_add (la_index stop) 1 = Some (le_index e)) as ->.
    { apply checked_add_Some. lia. }
    by rewrite Hp, Hd, Hc, Hi, Hh', !eqb_refl.
Qed.

(** C36. The code's case analysis accepts an entry exactly when its hash is the
    hash of its contents and the configuration state machine has a step on it:
    an ordinary entry or a stop of the active configuration, or, once
    stopped, the activation of the successor at the very next index. *)
Theorem validate_entry_iff_step s e s' :
  (le_index e ≤ u64_max)%N →
  validate_entry s e = Ok s' ↔ recompute_hash e = le_hash e ∧ config_step s e s'.
Proof.
  intros Hu. split; [apply validate_entry_sound|].
  intros []; by apply validate_entry_complete.
Qed.

Lemma config_step_ids s e s' :
  config_step s e s' →
  le_config_id e = cs_config_id s'
  ∧ (cs_config_id s' = cs_config_id s ∧ is_active s = true
     ∨ cs_config_id s' = cs_config_id s + 1 ∧ is_active s = false ∧ is_active s' = true)%N.
Proof.
  destruct 1 as [| | | |i d stop e s Hr <-]; cbn in *; split; auto.
  right. apply recognize_parts_wf in Hr as [(_ & _ & Hi & _) _].
  apply checked_add_Some in Hi as [-> _]. done.
Qed.

Lemma config_step_from_stopped i d stop b e s' :
  config_step (Stopped i d stop b) e s' →
  is_active s' = true ∧ cs_config_id s' = (i + 1)%N
  ∧ le_index e = (la_index stop + 1)%N ∧ le_prev_hash e = la_hash stop
  ∧ ∀ succ h, b = Bound succ h → s' = Active (sd_config_id succ) (sd_config_digest succ).
Proof.
  intros Hs. pose proof (config_step_ids _ _ _ Hs) as [_ Hids].
  inversion Hs; subst; cbn in *; split_and!; try done; naive_solver congruence.
Qed.

(** Along a log, configuration ids never go back and grow by at most one per
    entry. *)
Fixpoint ids_advance (i : N) (log : list LogEntry) : Prop :=
  match log with
  | [] => True
  | e :: log => (i ≤ le_config_id e ≤ i + 1)%N ∧ ids_advance (le_config_id e) log
  end.
Definition last_id (i : N) (log : list LogEntry) : N :=
  match last log with Some e => le_config_id e | None => i end.

(** Every entry of a validated log belongs to the configuration that is
    in force after it; the ids never go back, and each entry raises them by at
    most one. *)
Theorem config_run_ids_monotone s log s' :
  config_run s log = Ok s' →
  ids_advance (cs_config_id s) log ∧ cs_config_id s' = last_id (cs_config_id s) log.
Proof.
  unfold config_run, last_id. revert s; induction log as [|e log IH]; intros s; cbn.
  - intros [= ->]. done.
  - intros Hr. res_inv. apply validate_entry_sound in Hok as [_ Hs].
    apply config_step_ids in Hs as [He Hs]. apply IH in Hr as [Hadv Hlast].
    rewrite He. split; [split; [lia|done]|]. rewrite Hlast.
    change (match log with [] => Some e | _ :: _ => last log end) with (last (e :: log)).
    rewrite last_cons. by destruct (last log).
Qed.

(** The state a stop leaves behind records exactly the stopping entry. *)
Lemma config_step_stops s e s' :
  config_step s e s' → is_active s' = false →
  ∃ g b, s' = Stopped (cs_config_id s) g (mkLogAnchor (le_index e) (le_hash e)) b
    ∧ is_active s = true
    ∧ ∀ succ, recognize_parts (le_entry_type e) (le_payload e) = Ok (BoundStop succ) →
        b = Bound succ (bound_stop_hash succ).
Proof. destruct 1; cbn; intros Ha; try done; eexists _, _; split_and!; try done; congruence. Qed.

(** C35. Reconfiguration hand-over: after an entry that stops the active
    configuration, the only entry that validates is an activation at the next
    index that extends exactly the stopped prefix; it activates the next
    configuration id, and when the stop was bound to a successor, exactly that
    successor's id and membership digest. *)
Theorem stop_hands_over_to_successor s e1 s1 e2 s2 :
  validate_entry s e1 = Ok s1 → is_active s1 = false → validate_entry s1 e2 = Ok s2 →
  le_index e2 = (le_index e1 + 1)%N ∧ le_prev_hash e2 = le_hash e1
  ∧ is_active s2 = true ∧ cs_config_id s2 = (cs_config_id s + 1)%N
  ∧ ∀ succ, recognize_parts (le_entry_type e1) (le_payload e1) = Ok (BoundStop succ) →
      s2 = Active (sd_config_id succ) (digest [membership_preimage (sd_members succ)]).
Proof.
  intros [_ H1]%validate_entry_sound Ha [_ H2]%validate_entry_sound.
  apply config_step_stops in H1 as (g & b & -> & _ & Hb); [|done].
  apply config_step_from_stopped in H2 as (? & ? & ? & ? & Hs). split_and!; try done.
  intros succ Hr. pose proof (recognize_parts_wf _ _ _ Hr) as (_ & _ & _ & _ & _ & _ & <-).
  by eapply Hs, Hb.
Qed.
End machine.

(** ** Recovery anchors *)

(** What the constructors and [Deserialize] promise of an anchor. *)
Definition anchor_wf (a : RecoveryAnchor) : bool :=
  (eqb (ra_format_version a) RECOVERY_ANCHOR_FORMAT_VERSION
   && eqb (cs_config_id (ra_configuration_state a)) (ra_config_id a))
  || (eqb (ra_format_version a) RECOVERY_ANCHOR_V1_FORMAT_VERSION
      && eqb (ra_configuration_state a) (active (ra_config_id a) LogHash_ZERO)).

(** A recovery anchor deserializes to itself from its serialized fields
    exactly when it satisfies the invariant of its format version, and nothing
    that violates the invariant is ever deserialized. *)
Theorem anchor_wire_roundtrip (a : RecoveryAnchor) :
  (anchor_wf a = true ↔ anchor_from_wire (anchor_to_wire a) = Some a)
  ∧ ∀ w, anchor_from_wire w = Some a → anchor_wf a = true.
Proof.
  unfold anchor_wf. split.
  - destruct a as [v c e i st g k sn]. unfold anchor_from_wire, anchor_to_wire; cbn.
    destruct (eqb v RECOVERY_ANCHOR_V1_FORMAT_VERSION) eqn:E1.
    + apply eqb_true in E1 as ->. cbn. by destruct (eqb st _).
    + destruct (eqb v RECOVERY_ANCHOR_FORMAT_VERSION) eqn:E2; cbn; [|done].
      rewrite orb_false_r. by destruct (eqb (cs_config_id st) i).
  - intros [v c e i st g k sn]. unfold anchor_from_wire; cbn.
    destruct (eqb v RECOVERY_ANCHOR_V1_FORMAT_VERSION) eqn:E1.
    + apply eqb_true in E1 as ->. destruct st as [st|]; cbn.
      * destruct (eqb st (active i LogHash_ZERO)) eqn:E; [|done]. intros [= <-]. cbn. by rewrite E.
      * intros [= <-]. cbn. by rewrite !eqb_refl.
    + destruct (eqb v RECOVERY_ANCHOR_FORMAT_VERSION) eqn:E2; [|done].
      destruct st as [st|]; [|done]. destruct (eqb (cs_config_id st) i) eqn:E; [|done].
      cbn. intros [= <-]; cbn. by rewrite E2, E.
Qed.

(** ** Examples *)

Definition sample_active : ConfigurationState := Active 1 LogHash_ZERO.
Definition sample_stop_entry : LogEntry :=
  let h := sample_sha256 in
  seal_entry (lit "cluster-a") 1 1 5 ConfigChangeEntry (change_payload (BoundStop sample_successor))
    LogHash_ZERO.
Definition sample_stopped : ConfigurationState :=
  let h := sample_sha256 in
  Stopped 1 LogHash_ZERO (mkLogAnchor 5 (le_hash sample_stop_entry))
    (Bound sample_successor (bound_stop_hash sample_successor)).
Definition sample_activation_entry : LogEntry :=
  let h := sample_sha256 in
  seal_entry (lit "cluster-a") 1 2 6 ConfigChangeEntry
    (change_payload (BoundActivationBarrier sample_successor 5 (le_hash sample_stop_entry)
       (bound_stop_hash sample_successor)))
    (le_hash sample_stop_entry).
Definition sample_activated : ConfigurationState :=
  Active 2 (sd_config_digest sample_successor).

Lemma validate_entry_iff_step_witness :
  let h := sample_sha256 in
  recompute_hash sample_stop_entry = le_hash sample_stop_entry
  ∧ config_step sample_active sample_stop_entry sample_stopped.
Proof.
  apply (@validate_entry_iff_step sample_sha256); [vm_compute; congruence|].
  vm_compute. reflexivity.
Defined.

Lemma config_run_ids_monotone_witness :
  let h := sample_sha256 in
  ids_advance 1 [sample_stop_entry; sample_activation_entry]
  ∧ cs_config_id sample_activated = last_id 1 [sample_stop_entry; sample_activation_entry].
Proof.
  apply (@config_run_ids_monotone sample_sha256 sample_active). vm_compute. reflexivity.
Defined.

Lemma stop_hands_over_to_successor_witness :
  let h := sample_sha256 in
  le_index sample_activation_entry = (le_index sample_stop_entry + 1)%N
  ∧ le_prev_hash sample_activation_entry = le_hash sample_stop_entry
  ∧ is_active sample_activated = true
  ∧ cs_config_id sample_activated = (cs_config_id sample_active + 1)%N
  ∧ ∀ succ, recognize_parts (le_entry_type sample_stop_entry) (le_payload sample_stop_entry)
      = Ok (BoundStop succ) →
      sample_activated = Active (sd_config_id succ) (digest [membership_preimage (sd_members succ)]).
Proof.
  eapply (@stop_hands_over_to_successor sample_sha256 sample_active sample_stop_entry sample_stopped);
    vm_compute; reflexivity.
Defined.
