(* ===== verification/LogSegment.v ===== *)
(** * LogSegment: the segment files of the log

    Models the segment codec of [crates/rhiza-log/src/lib.rs]: the header [QLOG],
    a frame [QFRM] per entry with its CRC-32C, the footer [QEND] of a closed
    segment, the recovery of an open segment whose last frame is torn, and the
    file names.  The theorems: what is written is read back; a torn append loses
    only itself; whatever decodes is a hash-chained run of entries; decoding always
    terminates. *)

From S2P Require Import Prelude Bytes Text Core ConfigChange ConfigState.
From Stdlib Require Strings.Byte.

Inductive Error : Type :=
| InvalidIndexRange (start end_ : N) | CompactionUnsupported
| CompactionAboveTip (target : N) (tip : option N) | CompactionHashMismatch (index : N)
| CompactionRegression (target anchor : N) | CompactionConflict (index : N)
| TruncateCompactedPrefix (from anchor : N)
| Decode (message : string) | Io (message : string).
#[export] Instance Error_eq_dec : EqDecision Error.
Proof. solve_decision. Defined.

Definition QLOG_MAGIC : bytes := lit "QLOG".
Definition QLOG_FORMAT_VERSION : N := 1.
Definition QLOG_HEADER_LEN : N := 76.
Definition QLOG_FRAME_MAGIC : bytes := lit "QFRM".
Definition QLOG_FOOTER_MAGIC : bytes := lit "QEND".
Definition OPEN_SEGMENT_MAX_BYTES : N := 8 * 1024 * 1024.
Definition OPEN_SEGMENT_MAX_ENTRIES : N := 4096.
Definition HEADER_WITHOUT_CRC_LEN : N := 72.
Definition FRAME_PREFIX_LEN : N := 108.
Definition FRAME_MIN_LEN : N := 144.
Definition FOOTER_LEN : N := 88.

(** ** Integers in a buffer *)

Definition put_u16 (value : N) : bytes := be_bytes 2 value.
(** [value as u32] keeps the low 32 bits. *)
Definition put_u32 (value : N) : bytes := be_bytes 4 value.
Definition put_u64 (value : N) : bytes := be_bytes 8 value.
Arguments put_u16 : simpl never.
Arguments put_u32 : simpl never.
Arguments put_u64 : simpl never.

Definition read_u16 (l : bytes) (offset : N) : result Error N :=
  m ← ok_or (slice l offset (offset + 2)) (Decode "short qlog u16"); Ok (be_value m).
Definition read_u32 (l : bytes) (offset : N) : result Error N :=
  m ← ok_or (slice l offset (offset + 4)) (Decode "short qlog u32"); Ok (be_value m).
Definition read_u64 (l : bytes) (offset : N) : result Error N :=
  m ← ok_or (slice l offset (offset + 8)) (Decode "short qlog u64"); Ok (be_value m).
Definition read_hash (l : bytes) (offset : N) : result Error LogHash :=
  m ← ok_or (slice l offset (offset + 32)) (Decode "short qlog hash");
  ok_or (array32_of m) (Decode "short qlog hash").

(** ** CRC-32C *)

Definition u32_not (n : N) : N := N.lxor n u32_max.
Definition crc_bit (crc : N) : N :=
  let mask := ((2 ^ 32 - N.land crc 1) mod 2 ^ 32)%N in
  N.lxor (N.shiftr crc 1) (N.land 0x82f63b78 mask).
Definition crc_byte (crc : N) (b : byte) : N := Nat.iter 8 crc_bit (N.lxor crc (Byte.to_N b)).
Definition crc32c (l : bytes) : N := u32_not (fold_left crc_byte l (u32_not 0)).
Arguments crc32c : simpl never.

(** ** Ranges and file names *)

Record IndexRange : Type := mkIndexRange { ir_start : N; ir_end : N }.
#[export] Instance IndexRange_eq_dec : EqDecision IndexRange.
Proof. solve_decision. Defined.

Definition IndexRange_new (start end_ : N) : result Error IndexRange :=
  if (end_ <? start)%N then Err (InvalidIndexRange start end_) else Ok (mkIndexRange start end_).

Definition segment_file_name (range : IndexRange) : bytes :=
  decimal_padded 20 (ir_start range) ++ lit "-" ++ decimal_padded 20 (ir_end range) ++ lit ".qlog".
Definition open_segment_file_name (start : N) : bytes := decimal_padded 20 start ++ lit "-open.qlog".

Definition strip_suffix (suffix l : bytes) : option bytes :=
  let n := length l - length suffix in
  if (length suffix <=? length l) && eqb (drop n l) suffix then Some (take n l) else None.

Definition parse_closed_segment_name (name : bytes) : result Error IndexRange :=
  let invalid := Decode "invalid closed qlog segment filename" in
  stem ← ok_or (strip_suffix (lit ".qlog") name) invalid;
  '(start, end_) ← ok_or (split_once Byte.x2d stem) invalid;
  _ ← reject_if (neqb (blen start) 20%N || neqb (blen end_) 20%N
                 || negb (forallb is_digit start) || negb (forallb is_digit end_)) invalid;
  start ← ok_or (parse_usize start) invalid;
  end_ ← ok_or (parse_usize end_) invalid;
  IndexRange_new start end_.

Definition parse_open_segment_name (name : bytes) : result Error N :=
  let invalid := Decode "invalid open qlog segment filename" in
  start ← ok_or (strip_suffix (lit "-open.qlog") name) invalid;
  _ ← reject_if (neqb (blen start) 20%N || negb (forallb is_digit start)) invalid;
  ok_or (parse_usize start) invalid.

(** ** Segments *)

Record SegmentHeader : Type := mkSegmentHeader {
  sh_magic : bytes; sh_cluster_id_hash : LogHash; sh_epoch : N; sh_config_id : N;
  sh_start_index : N; sh_created_at_unix_ms : N
}.

Section segments.
Context `{Sha256}.

Definition new_with_config (cluster_id_hash : LogHash) (epoch config_id start_index created : N) :
    SegmentHeader :=
  mkSegmentHeader QLOG_MAGIC cluster_id_hash epoch config_id start_index created.

Definition encode_header (first : LogEntry) : bytes :=
  let out := QLOG_MAGIC ++ put_u16 QLOG_FORMAT_VERSION ++ put_u16 QLOG_HEADER_LEN
    ++ put_u64 (le_index first) ++ put_u64 (le_epoch first) ++ put_u64 (le_config_id first)
    ++ as_bytes (digest [le_cluster_id first]) ++ put_u64 0 in
  out ++ put_u32 (crc32c out).

Definition decode_header (l cluster_id : bytes) : result Error (SegmentHeader * N) :=
  _ ← reject_if (blen l <? QLOG_HEADER_LEN)%N (Decode "short qlog header");
  _ ← reject_if (neqb (index_range l 0 4) QLOG_MAGIC) (Decode "wrong qlog magic");
  version ← read_u16 l 4;
  _ ← reject_if (neqb version QLOG_FORMAT_VERSION) (Decode "unsupported qlog version");
  header_len ← read_u16 l 6;
  _ ← reject_if (neqb header_len QLOG_HEADER_LEN) (Decode "invalid qlog header_len");
  expected_crc ← read_u32 l HEADER_WITHOUT_CRC_LEN;
  _ ← reject_if (neqb (crc32c (index_range l 0 HEADER_WITHOUT_CRC_LEN)) expected_crc)
        (Decode "qlog header crc mismatch");
  cluster_id_hash ← read_hash l 32;
  _ ← reject_if (negb (blen cluster_id =? 0)%N && neqb (digest [cluster_id]) cluster_id_hash)
        (Decode "qlog cluster_id hash mismatch");
  epoch ← read_u64 l 16;
  config_id ← read_u64 l 24;
  start_index ← read_u64 l 8;
  created ← read_u64 l 64;
  Ok (new_with_config cluster_id_hash epoch config_id start_index created, QLOG_HEADER_LEN).

Definition frame_body (entry : LogEntry) : bytes :=
  QLOG_FRAME_MAGIC ++ put_u32 (FRAME_MIN_LEN + blen (le_payload entry))
  ++ put_u64 (le_index entry) ++ put_u64 (le_epoch entry) ++ put_u64 (le_config_id entry)
  ++ [EntryType_as_u8 (le_entry_type entry)] ++ replicate 7 Byte.x00
  ++ as_bytes (le_prev_hash entry) ++ as_bytes (digest [le_payload entry])
  ++ put_u32 (blen (le_payload entry)) ++ le_payload entry ++ as_bytes (le_hash entry).
Definition encode_frame (entry : LogEntry) : bytes :=
  let out := frame_body entry in out ++ put_u32 (crc32c out).

Definition decode_frame (l : bytes) (offset : N) (cluster_id : bytes) : result Error (LogEntry * N) :=
  _ ← reject_if (blen l - offset <? FRAME_MIN_LEN)%N (Decode "short qlog frame");
  _ ← reject_if (neqb (index_range l offset (offset + 4)) QLOG_FRAME_MAGIC)
        (Decode "wrong qlog frame magic");
  frame_len ← read_u32 l (offset + 4);
  frame_end ← ok_or (checked_add offset frame_len) (Decode "invalid qlog frame_len");
  _ ← reject_if ((frame_len <? FRAME_MIN_LEN) || (blen l <? frame_end))%N
        (Decode "invalid qlog frame_len");
  let crc_offset := (frame_end - 4)%N in
  expected_crc ← read_u32 l crc_offset;
  _ ← reject_if (neqb (crc32c (index_range l offset crc_offset)) expected_crc)
        (Decode "qlog frame crc mismatch");
  index ← read_u64 l (offset + 8);
  epoch ← read_u64 l (offset + 16);
  config_id ← read_u64 l (offset + 24);
  entry_type ← ok_or (byte_at l (offset + 32) ≫= EntryType_from_u8) (Decode "invalid qlog entry_type");
  prev_hash ← read_hash l (offset + 40);
  payload_hash ← read_hash l (offset + 72);
  payload_len ← read_u32 l (offset + 104);
  _ ← reject_if (neqb (checked_add FRAME_MIN_LEN payload_len) (Some frame_len))
        (Decode "qlog frame_len does not match payload_len");
  let payload_start := (offset + FRAME_PREFIX_LEN)%N in
  payload_end ← ok_or (checked_add payload_start payload_len) (Decode "invalid qlog payload_len");
  let payload := index_range l payload_start payload_end in
  _ ← reject_if (neqb (digest [payload]) payload_hash) (Decode "qlog payload_hash mismatch");
  hash ← read_hash l payload_end;
  let entry := mkLogEntry cluster_id epoch config_id index entry_type payload prev_hash hash in
  _ ← reject_if (neqb (recompute_hash entry) hash) (Decode "qlog entry_hash mismatch");
  Ok (entry, frame_end).

Definition encode_footer (header entry_hashes : bytes) (end_index entry_count : N)
    (last_entry_hash : LogHash) : bytes :=
  let prefix := QLOG_FOOTER_MAGIC ++ put_u64 end_index ++ put_u64 entry_count
    ++ as_bytes last_entry_hash in
  let out := prefix ++ as_bytes (digest [header; entry_hashes; prefix]) in
  out ++ put_u32 (crc32c out).

Definition decode_footer (l : bytes) (offset : N) (header entry_hashes : bytes)
    (entries : list LogEntry) : result Error () :=
  _ ← reject_if (neqb (blen l - offset)%N FOOTER_LEN) (Decode "invalid qlog footer length");
  let footer := index_range l offset (offset + FOOTER_LEN) in
  expected_crc ← read_u32 footer (FOOTER_LEN - 4);
  _ ← reject_if (neqb (crc32c (index_range footer 0 (FOOTER_LEN - 4))) expected_crc)
        (Decode "qlog footer crc mismatch");
  end_index ← read_u64 footer 4;
  entry_count ← read_u64 footer 12;
  last_hash ← read_hash footer 20;
  segment_hash ← read_hash footer 52;
  _ ← reject_if (neqb segment_hash (digest [header; entry_hashes; index_range footer 0 52]))
        (Decode "qlog segment_hash mismatch");
  _ ← reject_if (neqb (N.of_nat (length entries)) entry_count)
        (Decode "qlog footer entry_count mismatch");
  match last entries with
  | Some last =>
      reject_if (neqb (le_index last) end_index || neqb (le_hash last) last_hash)
        (Decode "qlog footer last entry mismatch")
  | None => reject_if (neqb entry_count 0%N) (Decode "qlog empty footer mismatch")
  end.

Definition validate_decoded_entry (header : SegmentHeader) (position : nat)
    (previous : option LogEntry) (entry : LogEntry) : result Error () :=
  _ ← reject_if (neqb (checked_add (sh_start_index header) (N.of_nat position)) (Some (le_index entry)))
        (Decode "qlog index gap");
  _ ← reject_if (neqb (le_epoch entry) (sh_epoch header) || neqb (le_config_id entry) (sh_config_id header))
        (Decode "qlog epoch/config mismatch");
  match previous with
  | Some previous =>
      reject_if (neqb (le_prev_hash entry) (le_hash previous)) (Decode "qlog hash chain mismatch")
  | None => Ok ()
  end.

Fixpoint validate_entries_from (header : SegmentHeader) (position : nat) (previous : option LogEntry)
    (entries : list LogEntry) : result Error () :=
  match entries with
  | [] => Ok ()
  | entry :: entries =>
      _ ← validate_decoded_entry header position previous entry;
      validate_entries_from header (S position) (Some entry) entries
  end.
Definition validate_entries (header : SegmentHeader) (entries : list LogEntry) : result Error () :=
  validate_entries_from header 0 None entries.

Definition hashes_of (entries : list LogEntry) : bytes := concat ((as_bytes ∘ le_hash) <$> entries).

Definition encode_segment_inner (entries : list LogEntry) (closed : bool) : bytes :=
  match entries with
  | [] => []
  | first :: _ =>
      let out := encode_header first ++ concat (encode_frame <$> entries) in
      match last entries with
      | Some last =>
          if closed
          then out ++ encode_footer (index_range out 0 QLOG_HEADER_LEN) (hashes_of entries)
                        (le_index last) (N.of_nat (length entries)) (le_hash last)
          else out
      | None => out
      end
  end.
Definition encode_segment (entries : list LogEntry) : bytes := encode_segment_inner entries true.
Definition encode_open_segment (entries : list LogEntry) : bytes := encode_segment_inner entries false.

Definition out_of_fuel : Error := Decode "out of fuel".

(** The loop of [decode_segment_for_cluster]; every round reads a frame of at least
    144 bytes, so the length of the buffer is enough fuel. *)
Fixpoint decode_segment_loop (fuel : nat) (l cluster_id : bytes) (header : SegmentHeader) (offset : N)
    (entries : list LogEntry) : result Error (list LogEntry) :=
  if (blen l <=? offset)%N then Err (Decode "missing qlog footer")
  else if (4 <=? blen l - offset)%N && eqb (index_range l offset (offset + 4)) QLOG_FOOTER_MAGIC
  then
    _ ← decode_footer l offset (index_range l 0 QLOG_HEADER_LEN) (hashes_of entries) entries;
    _ ← validate_entries header entries;
    Ok entries
  else
    match fuel with
    | O => Err out_of_fuel
    | S fuel =>
        '(entry, next_offset) ← decode_frame l offset cluster_id;
        decode_segment_loop fuel l cluster_id header next_offset (entries ++ [entry])
    end.
Definition decode_segment_for_cluster (l cluster_id : bytes) : result Error (list LogEntry) :=
  '(header, offset) ← decode_header l cluster_id;
  let cluster_id :=
    if (blen cluster_id =? 0)%N then default [] (to_hex (sh_cluster_id_hash header)) else cluster_id in
  decode_segment_loop (length l) l cluster_id header offset [].
Definition decode_segment (l : bytes) : result Error (list LogEntry) := decode_segment_for_cluster l [].

(** *** Open segments *)

Definition final_frame_is_incomplete (l : bytes) (offset : N) : result Error bool :=
  let tail_ := index_range l offset (blen l) in
  let magic_prefix_len := Nat.min (length tail_) 4 in
  if neqb (take magic_prefix_len tail_) (take magic_prefix_len QLOG_FRAME_MAGIC) then Ok false
  else if (blen tail_ <? 8)%N then Ok true
  else
    frame_len ← read_u32 tail_ 4;
    if (frame_len <? FRAME_MIN_LEN)%N then Ok false
    else
      consistent ←
        (if (FRAME_PREFIX_LEN <=? blen tail_)%N
         then payload_len ← read_u32 tail_ 104;
              Ok (eqb (checked_add FRAME_MIN_LEN payload_len) (Some frame_len))
         else Ok true);
      Ok (consistent && (blen tail_ <? frame_len)%N).

Fixpoint recover_loop (fuel : nat) (l cluster_id : bytes) (header : SegmentHeader) (offset : N)
    (entries : list LogEntry) : result Error (list LogEntry * N) :=
  if (blen l <=? offset)%N then Ok (entries, offset)
  else
    match fuel with
    | O => Err out_of_fuel
    | S fuel =>
        match decode_frame l offset cluster_id with
        | Ok (entry, next_offset) =>
            _ ← validate_decoded_entry header (length entries) (last entries) entry;
            recover_loop fuel l cluster_id header next_offset (entries ++ [entry])
        | Err err =>
            incomplete ← final_frame_is_incomplete l offset;
            if incomplete : bool then Ok (entries, offset) else Err err
        end
    end.
(** The entries and the length of the part of the file they take. *)
Definition recover_open_segment_prefix (l cluster_id : bytes) : result Error (list LogEntry * N) :=
  '(header, offset) ← decode_header l cluster_id;
  recover_loop (length l) l cluster_id header offset [].

(** [recover_open_segment_file]: the entries and the file cut after them. *)
Definition recover_open_segment_file (name contents cluster_id : bytes) :
    result Error (list LogEntry * bytes) :=
  _ ← reject_if (eqb (strip_suffix (lit "-open.qlog") name) None)
        (Decode "refusing to recover non-open qlog segment");
  '(entries, valid_len) ← recover_open_segment_prefix contents cluster_id;
  Ok (entries, if (valid_len <? blen contents)%N then take (N.to_nat valid_len) contents else contents).

(** ** Reading fields back *)

Lemma lxor_bound a b k : (a < 2 ^ k → b < 2 ^ k → N.lxor a b < 2 ^ k)%N.
Proof.
  intros Ha Hb. destruct (N.eq_dec (N.lxor a b) 0%N) as [->|Hn]; [lia|].
  apply N.log2_lt_pow2; [lia|]. pose proof (N.log2_lxor a b) as Hl.
  assert (N.lxor a b ≠ 0)%N by done.
  destruct (N.eq_dec a 0%N) as [->|Ha0].
  { rewrite N.lxor_0_l in *. apply N.log2_lt_pow2; lia. }
  destruct (N.eq_dec b 0%N) as [->|Hb0].
  { rewrite N.lxor_0_r in *. apply N.log2_lt_pow2; lia. }
  apply N.log2_lt_pow2 in Ha; [|lia]. apply N.log2_lt_pow2 in Hb; [|lia]. lia.
Qed.

Lemma crc_bit_bound c : (c < 2 ^ 32 → crc_bit c < 2 ^ 32)%N.
Proof.
  intros Hc. unfold crc_bit. apply lxor_bound.
  - rewrite N.shiftr_div_pow2. apply N.Div0.div_lt_upper_bound. lia.
  - set (mask := ((2 ^ 32 - N.land c 1) mod 2 ^ 32)%N).
    enough (N.land 0x82f63b78 mask ≤ 0x82f63b78)%N by lia. apply N.land_le_l.
Qed.
Lemma crc_byte_bound c b : (c < 2 ^ 32 → crc_byte c b < 2 ^ 32)%N.
Proof.
  intros Hc. unfold crc_byte. assert (N.lxor c (Byte.to_N b) < 2 ^ 32)%N as Hx.
  { apply lxor_bound; [done|]. pose proof (to_N_bound b). lia. }
  revert Hx. generalize (N.lxor c (Byte.to_N b)). intros x Hx.
  do 8 (rewrite Nat.iter_succ || cbn [Nat.iter nat_rect]). repeat apply crc_bit_bound. done.
Qed.
Lemma crc32c_bound l : (crc32c l < 2 ^ 32)%N.
Proof.
  unfold crc32c, u32_not. apply lxor_bound; [|unfold u32_max; lia].
  assert (N.lxor 0 u32_max < 2 ^ 32)%N as Hi by (vm_compute; reflexivity).
  revert Hi. generalize (N.lxor 0 u32_max). induction l as [|b l IH]; intros c Hc; [done|].
  cbn. apply IH. by apply crc_byte_bound.
Qed.

Lemma slice_shift p m s a b x : slice m a b = Some x → slice (p ++ m ++ s) (blen p + a) (blen p + b) = Some x.
Proof.
  intros (q & t & -> & <- & <-)%slice_Some. apply slice_Some. exists (p ++ q), (t ++ s).
  rewrite <-!app_assoc. split_and!; [done|by rewrite blen_app|lia].
Qed.

(** A field that stands at [a] in [m]. *)
Lemma field_u16 l a m : slice l a (a + 2) = Some (put_u16 m) → (m < 2 ^ 16)%N → read_u16 l a = Ok m.
Proof. intros Hs Hm. unfold read_u16. rewrite Hs. cbn. by rewrite (be_value_bytes 2). Qed.
Lemma field_u32 l a m : slice l a (a + 4) = Some (put_u32 m) → (m < 2 ^ 32)%N → read_u32 l a = Ok m.
Proof. intros Hs Hm. unfold read_u32. rewrite Hs. cbn. by rewrite (be_value_bytes 4). Qed.
Lemma field_u64 l a m : slice l a (a + 8) = Some (put_u64 m) → is_u64 m = true → read_u64 l a = Ok m.
Proof. intros Hs Hm%is_u64_bound. unfold read_u64. rewrite Hs. cbn. by rewrite (be_value_bytes 8). Qed.
Lemma field_hash l a h : slice l a (a + 32) = Some (as_bytes h) → read_hash l a = Ok h.
Proof. intros Hs. unfold read_hash. rewrite Hs. cbn. by rewrite array32_of_as_bytes. Qed.
Lemma field_byte l a b : slice l a (a + 1) = Some [b] → byte_at l a = Some b.
Proof. by rewrite byte_at_slice. Qed.

(** ** Frames *)

(** An entry that fits into a frame. *)
Definition entry_fits (e : LogEntry) : bool :=
  is_u64 (le_index e) && is_u64 (le_epoch e) && is_u64 (le_config_id e)
  && (FRAME_MIN_LEN + blen (le_payload e) <=? u32_max)%N.

Definition frame_parts (e : LogEntry) : list bytes :=
  [QLOG_FRAME_MAGIC; put_u32 (FRAME_MIN_LEN + blen (le_payload e)); put_u64 (le_index e);
   put_u64 (le_epoch e); put_u64 (le_config_id e); [EntryType_as_u8 (le_entry_type e)];
   replicate 7 Byte.x00; as_bytes (le_prev_hash e); as_bytes (digest [le_payload e]);
   put_u32 (blen (le_payload e)); le_payload e; as_bytes (le_hash e); put_u32 (crc32c (frame_body e))].

Lemma encode_frame_parts e : encode_frame e = concat (frame_parts e).
Proof. unfold encode_frame, frame_parts. cbn [concat]. unfold frame_body at 1. by rewrite <-!app_assoc, app_nil_r. Qed.

Lemma blen_put_u16 n : blen (put_u16 n) = 2%N. Proof. apply blen_be_bytes. Qed.
Lemma blen_put_u32 n : blen (put_u32 n) = 4%N. Proof. apply blen_be_bytes. Qed.
Lemma blen_put_u64 n : blen (put_u64 n) = 8%N. Proof. apply blen_be_bytes. Qed.

Lemma blen_frame_body e : blen (frame_body e) = (140 + blen (le_payload e))%N.
Proof.
  unfold frame_body. rewrite !blen_app, !blen_put_u32, !blen_put_u64, !blen_as_bytes.
  change (blen QLOG_FRAME_MAGIC) with 4%N. change (blen [EntryType_as_u8 (le_entry_type e)]) with 1%N.
  change (blen (replicate 7 Byte.x00)) with 7%N. lia.
Qed.
Lemma blen_frame e : blen (encode_frame e) = (FRAME_MIN_LEN + blen (le_payload e))%N.
Proof. unfold encode_frame, FRAME_MIN_LEN. rewrite blen_app, blen_frame_body, blen_put_u32. lia. Qed.

(** The part number [i] of the frame, read in a buffer that holds it at [blen p]. *)
Lemma frame_field e p s i m a n :
  frame_parts e !! i = Some m → a = blen (concat (take i (frame_parts e))) → n = blen m →
  slice (p ++ encode_frame e ++ s) (blen p + a) (blen p + a + n) = Some m.
Proof.
  intros Hi -> ->. rewrite <-N.add_assoc. apply slice_shift. rewrite encode_frame_parts. by eapply slice_part.
Qed.

(** [frame_at i] gives the [i]th field of a frame at its offset. *)
Ltac frame_at i :=
  eapply (frame_field _ _ _ i);
  [reflexivity
  |cbn [take frame_parts concat]; rewrite ?blen_app, ?blen_put_u32, ?blen_put_u64, ?blen_as_bytes; reflexivity
  |rewrite ?blen_put_u32, ?blen_put_u64, ?blen_as_bytes; reflexivity].

(** The entry of a frame, as the reader of cluster [c] sees it. *)
Definition entry_of_cluster (c : bytes) (e : LogEntry) : LogEntry :=
  mkLogEntry c (le_epoch e) (le_config_id e) (le_index e) (le_entry_type e) (le_payload e)
    (le_prev_hash e) (le_hash e).

Lemma frame_reads_as e c p s :
  entry_fits e = true → (blen (p ++ encode_frame e ++ s) ≤ u64_max)%N →
  decode_frame (p ++ encode_frame e ++ s) (blen p) c
  = (_ ← reject_if (neqb (recompute_hash (entry_of_cluster c e)) (le_hash e)) (Decode "qlog entry_hash mismatch");
     Ok (entry_of_cluster c e, (blen p + blen (encode_frame e))%N)).
Proof.
  intros Hfit Hlen. unfold entry_fits in Hfit. bool_prop. destruct Hfit as [[[Hi He] Hc] Hp].
  pose proof (blen_frame e) as Hfl. pose proof (blen_app p (encode_frame e ++ s)) as Hl. rewrite (blen_app (encode_frame e) s) in Hl.
  unfold decode_frame. set (l := p ++ encode_frame e ++ s) in *. unfold FRAME_MIN_LEN, u32_max in *.
  destruct (N.ltb_spec (blen l - blen p) 144); [lia|]. cbn [reject_if mbind result_bind].
  assert (index_range l (blen p) (blen p + 4) = QLOG_FRAME_MAGIC) as ->.
  { apply index_range_Some. rewrite <-(N.add_0_r (blen p)) at 1 2. frame_at 0. }
  rewrite neqb_refl. cbn [reject_if mbind result_bind].
  rewrite (field_u32 l (blen p + 4) (144 + blen (le_payload e))); [|frame_at 1|lia].
  cbn [mbind result_bind].
  assert (checked_add (blen p) (144 + blen (le_payload e)) = Some (blen p + (144 + blen (le_payload e)))%N) as ->
    by (apply checked_add_Some; lia).
  cbn [ok_or mbind result_bind]. destruct (N.ltb_spec (144 + blen (le_payload e)) 144); [lia|].
  destruct (N.ltb_spec (blen l) (blen p + (144 + blen (le_payload e)))); [lia|].
  cbn [orb reject_if mbind result_bind].
  assert (slice l (blen p) (blen p + (140 + blen (le_payload e))) = Some (frame_body e)) as Hbody.
  { rewrite <-(blen_frame_body e). unfold l, encode_frame. rewrite <-app_assoc. apply slice_app. }
  replace (blen p + (144 + blen (le_payload e)) - 4)%N with (blen p + (140 + blen (le_payload e)))%N by lia.
  rewrite (index_range_Some _ _ _ _ Hbody).
  rewrite (field_u32 l (blen p + (140 + blen (le_payload e))) (crc32c (frame_body e))); [| |apply crc32c_bound].
  2:{ apply (slice_at l (p ++ frame_body e) _ s); [|rewrite blen_app, blen_frame_body; lia|by rewrite blen_put_u32].
      unfold l, encode_frame. rewrite <-app_assoc. apply app_assoc. }
  cbn [mbind result_bind]. rewrite neqb_refl. cbn [reject_if mbind result_bind].
  rewrite (field_u64 l (blen p + 8) (le_index e)); [|frame_at 2|done]. cbn [mbind result_bind].
  rewrite (field_u64 l (blen p + 16) (le_epoch e)); [|frame_at 3|done]. cbn [mbind result_bind].
  rewrite (field_u64 l (blen p + 24) (le_config_id e)); [|frame_at 4|done]. cbn [mbind result_bind].
  rewrite (field_byte l (blen p + 32) (EntryType_as_u8 (le_entry_type e))); [|frame_at 5].
  cbn [mbind option_bind]. rewrite EntryType_from_as_u8. cbn [ok_or mbind result_bind].
  rewrite (field_hash l (blen p + 40) (le_prev_hash e)); [|frame_at 7]. cbn [mbind result_bind].
  rewrite (field_hash l (blen p + 72) (digest [le_payload e])); [|frame_at 8]. cbn [mbind result_bind].
  rewrite (field_u32 l (blen p + 104) (blen (le_payload e))); [|frame_at 9|lia]. cbn [mbind result_bind].
  assert (checked_add 144 (blen (le_payload e)) = Some (144 + blen (le_payload e))%N) as ->
    by (apply checked_add_Some; unfold u64_max in *; lia).
  rewrite neqb_refl. cbn [reject_if mbind result_bind]. unfold FRAME_PREFIX_LEN.
  assert (checked_add (blen p + 108) (blen (le_payload e)) = Some (blen p + 108 + blen (le_payload e))%N) as ->
    by (apply checked_add_Some; lia).
  cbn [ok_or mbind result_bind].
  assert (index_range l (blen p + 108) (blen p + 108 + blen (le_payload e)) = le_payload e) as ->
    by (apply index_range_Some; frame_at 10).
  rewrite neqb_refl. cbn [reject_if mbind result_bind].
  rewrite (field_hash l (blen p + 108 + blen (le_payload e)) (le_hash e)).
  2:{ rewrite <-N.add_assoc. eapply (frame_field _ _ _ 11); [reflexivity| |by rewrite blen_as_bytes].
      cbn [take frame_parts concat]. rewrite !blen_app, !blen_put_u32, !blen_put_u64, !blen_as_bytes, blen_nil.
      change (blen QLOG_FRAME_MAGIC) with 4%N. change (blen [EntryType_as_u8 (le_entry_type e)]) with 1%N.
      change (blen (replicate 7 Byte.x00)) with 7%N. lia. }
  cbn [mbind result_bind].
  fold (entry_of_cluster c e). by rewrite Hfl.
Qed.

Lemma frame_reads e p s :
  entry_fits e = true → recompute_hash e = le_hash e →
  (blen (p ++ encode_frame e ++ s) ≤ u64_max)%N →
  decode_frame (p ++ encode_frame e ++ s) (blen p) (le_cluster_id e)
  = Ok (e, (blen p + blen (encode_frame e))%N).
Proof.
  intros Hfit Hhash Hlen. rewrite frame_reads_as by done.
  assert (entry_of_cluster (le_cluster_id e) e = e) as -> by (by destruct e).
  by rewrite Hhash, neqb_refl.
Qed.

(** ** Headers *)

Definition header_of (e : LogEntry) : SegmentHeader :=
  new_with_config (digest [le_cluster_id e]) (le_epoch e) (le_config_id e) (le_index e) 0.

Definition header_body (e : LogEntry) : bytes :=
  QLOG_MAGIC ++ put_u16 QLOG_FORMAT_VERSION ++ put_u16 QLOG_HEADER_LEN ++ put_u64 (le_index e)
  ++ put_u64 (le_epoch e) ++ put_u64 (le_config_id e) ++ as_bytes (digest [le_cluster_id e]) ++ put_u64 0.
Definition header_parts (e : LogEntry) : list bytes :=
  [QLOG_MAGIC; put_u16 QLOG_FORMAT_VERSION; put_u16 QLOG_HEADER_LEN; put_u64 (le_index e);
   put_u64 (le_epoch e); put_u64 (le_config_id e); as_bytes (digest [le_cluster_id e]); put_u64 0;
   put_u32 (crc32c (header_body e))].

Lemma encode_header_parts e : encode_header e = concat (header_parts e).
Proof. unfold encode_header, header_parts, header_body. cbn [concat]. by rewrite <-!app_assoc, app_nil_r. Qed.
Lemma blen_header_body e : blen (header_body e) = 72%N.
Proof.
  unfold header_body. rewrite !blen_app, !blen_put_u16, !blen_put_u64, blen_as_bytes. reflexivity.
Qed.
Lemma blen_header e : blen (encode_header e) = QLOG_HEADER_LEN.
Proof. unfold encode_header. fold (header_body e). rewrite blen_app, blen_header_body, blen_put_u32. done. Qed.

Lemma header_field e s i m a b :
  header_parts e !! i = Some m → a = blen (concat (take i (header_parts e))) → b = (a + blen m)%N →
  slice (encode_header e ++ s) a b = Some m.
Proof.
  intros Hi -> ->. apply (slice_shift [] (encode_header e) s). rewrite encode_header_parts. by eapply slice_part.
Qed.
Ltac header_at i :=
  eapply (header_field _ _ i);
  [reflexivity
  |cbn [take header_parts concat];
   rewrite ?blen_app, ?blen_put_u16, ?blen_put_u32, ?blen_put_u64, ?blen_as_bytes; reflexivity
  |rewrite ?blen_put_u16, ?blen_put_u32, ?blen_put_u64, ?blen_as_bytes; reflexivity].

Lemma header_reads e cluster s :
  entry_fits e = true → cluster = [] ∨ cluster = le_cluster_id e →
  decode_header (encode_header e ++ s) cluster = Ok (header_of e, QLOG_HEADER_LEN).
Proof.
  intros Hfit Hcl. unfold entry_fits in Hfit. bool_prop. destruct Hfit as [[[Hi He] Hc] _].
  pose proof (blen_app (encode_header e) s) as Hl. rewrite blen_header in Hl.
  unfold decode_header. set (l := encode_header e ++ s) in *.
  destruct (N.ltb_spec (blen l) QLOG_HEADER_LEN); [lia|]. cbn [reject_if mbind result_bind].
  assert (index_range l 0 4 = QLOG_MAGIC) as -> by (apply index_range_Some; header_at 0).
  rewrite neqb_refl. cbn [reject_if mbind result_bind].
  rewrite (field_u16 l 4 QLOG_FORMAT_VERSION); [|header_at 1|done]. cbn [mbind result_bind].
  rewrite neqb_refl. cbn [reject_if mbind result_bind].
  rewrite (field_u16 l 6 QLOG_HEADER_LEN); [|header_at 2|done]. cbn [mbind result_bind].
  rewrite neqb_refl. cbn [reject_if mbind result_bind].
  rewrite (field_u32 l HEADER_WITHOUT_CRC_LEN (crc32c (header_body e))); [|header_at 8|apply crc32c_bound].
  cbn [mbind result_bind].
  assert (index_range l 0 HEADER_WITHOUT_CRC_LEN = header_body e) as ->.
  { apply index_range_Some. apply (slice_at l [] _ (put_u32 (crc32c (header_body e)) ++ s)); [|done|].
    - unfold l, encode_header. fold (header_body e). by rewrite <-app_assoc.
    - by rewrite blen_header_body. }
  rewrite neqb_refl. cbn [reject_if mbind result_bind].
  rewrite (field_hash l 32 (digest [le_cluster_id e])) by (header_at 6). cbn [mbind result_bind].
  assert (negb (blen cluster =? 0)%N && neqb (digest [cluster]) (digest [le_cluster_id e]) = false) as ->.
  { destruct Hcl as [->| ->]; [done|]. by rewrite neqb_refl, andb_false_r. }
  cbn [reject_if mbind result_bind].
  rewrite (field_u64 l 16 (le_epoch e)); [|header_at 4|done]. cbn [mbind result_bind].
  rewrite (field_u64 l 24 (le_config_id e)); [|header_at 5|done]. cbn [mbind result_bind].
  rewrite (field_u64 l 8 (le_index e)); [|header_at 3|done]. cbn [mbind result_bind].
  rewrite (field_u64 l 64 0); [|header_at 7|done]. done.
Qed.

(** ** Footers *)

Definition footer_prefix (end_index entry_count : N) (last_entry_hash : LogHash) : bytes :=
  QLOG_FOOTER_MAGIC ++ put_u64 end_index ++ put_u64 entry_count ++ as_bytes last_entry_hash.
Definition footer_body (header hashes : bytes) (i n : N) (h : LogHash) : bytes :=
  footer_prefix i n h ++ as_bytes (digest [header; hashes; footer_prefix i n h]).
Definition footer_parts (header hashes : bytes) (i n : N) (h : LogHash) : list bytes :=
  [QLOG_FOOTER_MAGIC; put_u64 i; put_u64 n; as_bytes h;
   as_bytes (digest [header; hashes; footer_prefix i n h]); put_u32 (crc32c (footer_body header hashes i n h))].

Lemma encode_footer_parts header hashes i n h :
  encode_footer header hashes i n h = concat (footer_parts header hashes i n h).
Proof.
  unfold encode_footer, footer_parts. fold (footer_prefix i n h). fold (footer_body header hashes i n h).
  cbn [concat]. unfold footer_body at 1. unfold footer_prefix at 1. by rewrite <-!app_assoc, app_nil_r.
Qed.
Lemma blen_footer header hashes i n h : blen (encode_footer header hashes i n h) = FOOTER_LEN.
Proof.
  rewrite encode_footer_parts. cbn [footer_parts concat].
  rewrite !blen_app, !blen_put_u64, !blen_put_u32, !blen_as_bytes. reflexivity.
Qed.

Lemma footer_reads p header entries e n :
  last entries = Some e → n = N.of_nat (length entries) → is_u64 n = true → is_u64 (le_index e) = true →
  decode_footer (p ++ encode_footer header (hashes_of entries) (le_index e) n (le_hash e)) (blen p) header
    (hashes_of entries) entries = Ok ().
Proof.
  intros Hlast Hn Hn64 Hi64. unfold decode_footer.
  set (footer := encode_footer header (hashes_of entries) (le_index e) n (le_hash e)).
  assert (blen footer = FOOTER_LEN) as Hbl by apply blen_footer.
  rewrite blen_app, Hbl. assert (neqb (blen p + FOOTER_LEN - blen p)%N FOOTER_LEN = false) as ->
    by (apply neqb_false; lia).
  cbn [reject_if mbind result_bind].
  assert (index_range (p ++ footer) (blen p) (blen p + FOOTER_LEN) = footer) as ->.
  { apply index_range_Some. apply (slice_at _ p footer []); [by rewrite app_nil_r|done|by rewrite Hbl]. }
  assert (∀ k m a b, footer_parts header (hashes_of entries) (le_index e) n (le_hash e) !! k = Some m →
    a = blen (concat (take k (footer_parts header (hashes_of entries) (le_index e) n (le_hash e)))) →
    b = (a + blen m)%N → slice footer a b = Some m) as Hf.
  { intros k m a b Hk. unfold footer. rewrite encode_footer_parts. by apply slice_part. }
  rewrite (field_u32 footer (FOOTER_LEN - 4) _ (Hf 5 _ _ _ eq_refl
    ltac:(cbn [take footer_parts concat]; rewrite !blen_app, !blen_put_u64, !blen_as_bytes; reflexivity)
    ltac:(rewrite blen_put_u32; reflexivity)) (crc32c_bound _)). cbn [mbind result_bind].
  assert (index_range footer 0 (FOOTER_LEN - 4) = footer_body header (hashes_of entries) (le_index e) n (le_hash e)) as ->.
  { apply index_range_Some.
    apply (slice_at _ [] _ (put_u32 (crc32c (footer_body header (hashes_of entries) (le_index e) n (le_hash e)))));
      [done|done|]. unfold footer_body, footer_prefix. rewrite !blen_app, !blen_put_u64, !blen_as_bytes. done. }
  rewrite neqb_refl. cbn [reject_if mbind result_bind].
  rewrite (field_u64 footer 4 _ (Hf 1 _ _ _ eq_refl eq_refl eq_refl) Hi64). cbn [mbind result_bind].
  rewrite (field_u64 footer 12 _ (Hf 2 _ _ _ eq_refl eq_refl eq_refl) Hn64). cbn [mbind result_bind].
  rewrite (field_hash footer 20 _ (Hf 3 _ _ _ eq_refl eq_refl
    ltac:(rewrite blen_as_bytes; reflexivity))). cbn [mbind result_bind].
  rewrite (field_hash footer 52 _ (Hf 4 _ _ _ eq_refl
    ltac:(cbn [take footer_parts concat]; rewrite !blen_app, !blen_put_u64, !blen_as_bytes; reflexivity)
    ltac:(rewrite blen_as_bytes; reflexivity))). cbn [mbind result_bind].
  assert (index_range footer 0 52 = footer_prefix (le_index e) n (le_hash e)) as ->.
  { apply index_range_Some. eapply (slice_at _ [] _ _); [unfold footer, encode_footer; cbn zeta;
      rewrite <-!app_assoc; reflexivity|done|].
    unfold footer_prefix. rewrite !blen_app, !blen_put_u64, !blen_as_bytes. done. }
  rewrite neqb_refl. cbn [reject_if mbind result_bind]. rewrite Hn, neqb_refl. cbn [reject_if mbind result_bind].
  rewrite Hlast, !neqb_refl. done.
Qed.

(** ** Runs of entries *)

(** [e] comes right after [prev] in a segment. *)
Definition continues (prev e : LogEntry) : bool :=
  eqb (le_index e) (le_index prev + 1)%N && eqb (le_prev_hash e) (le_hash prev)
  && eqb (le_epoch e) (le_epoch prev) && eqb (le_config_id e) (le_config_id prev).
Fixpoint linked (prev : LogEntry) (entries : list LogEntry) : bool :=
  match entries with [] => true | e :: entries => continues prev e && linked e entries end.
Definition is_run (entries : list LogEntry) : bool :=
  match entries with [] => true | e :: entries => linked e entries end.
(** An entry of cluster [c] with its own hash. *)
Definition sealed_in (c : bytes) (e : LogEntry) : bool :=
  eqb (le_cluster_id e) c && eqb (recompute_hash e) (le_hash e).

(** A run that can be written as a segment of cluster [c]. *)
Definition segment_run (c : bytes) (entries : list LogEntry) : bool :=
  is_run entries && forallb (λ e, sealed_in c e && entry_fits e) entries.

(** What [validate_entries] accepts, position by position. *)
Lemma validate_from_linked first h pos prev entries :
  sh_start_index h = le_index first → sh_epoch h = le_epoch first → sh_config_id h = le_config_id first →
  le_index prev = (le_index first + N.of_nat pos)%N → le_epoch prev = le_epoch first →
  le_config_id prev = le_config_id first → forallb (λ e, is_u64 (le_index e)) entries = true →
  validate_entries_from h (S pos) (Some prev) entries = Ok () ↔ linked prev entries = true.
Proof.
  intros Hs He Hc. revert pos prev. induction entries as [|e es IH]; intros pos prev Hi Hpe Hpc Hu; [done|].
  cbn in Hu. apply andb_true_iff in Hu as [Hu Hus]. unfold is_u64 in Hu. cbn [validate_entries_from linked].
  unfold validate_decoded_entry, continues. rewrite Hs, He, Hc, bind_Ok_inv.
  setoid_rewrite bind_Ok_inv. setoid_rewrite bind_Ok_inv. bool_prop. split.
  - intros ([] & ([] & H1 & [] & H2 & H3) & H4). apply reject_if_Ok in H1, H2, H3. bool_prop.
    apply checked_add_Some in H1 as [H1 _]. destruct H2 as [H2 H2'].
    split; [split_and!; try done; [lia|congruence|congruence]|].
    apply (IH (S pos)); [lia|done..].
  - intros [[[[H1 H2] H3] H4] H5]. exists (). split.
    + exists (). split; [apply reject_if_Ok, neqb_false, checked_add_Some; lia|].
      exists (). split; [apply reject_if_Ok; bool_prop; split; congruence|].
      apply reject_if_Ok. by bool_prop.
    + apply (IH (S pos)); [lia|congruence|congruence|done|done].
Qed.

Lemma validate_header_of e es :
  forallb (λ e, is_u64 (le_index e)) (e :: es) = true →
  validate_entries (header_of e) (e :: es) = Ok () ↔ linked e es = true.
Proof.
  intros Hu. cbn in Hu. apply andb_true_iff in Hu as [Hu Hus]. unfold is_u64 in Hu. bool_prop.
  unfold validate_entries. cbn [validate_entries_from].
  assert (validate_decoded_entry (header_of e) 0 None e = Ok ()) as ->.
  { unfold validate_decoded_entry, header_of, new_with_config. cbn [sh_start_index sh_epoch sh_config_id].
    assert (checked_add (le_index e) (N.of_nat 0) = Some (le_index e)) as ->
      by (apply checked_add_Some; lia).
    by rewrite !neqb_refl. }
  cbn [mbind result_bind]. by apply (validate_from_linked e); [..|lia|done|done|].
Qed.

Definition frames (entries : list LogEntry) : bytes := concat (encode_frame <$> entries).

Lemma frames_cons e es : frames (e :: es) = encode_frame e ++ frames es.
Proof. done. Qed.
Lemma frames_app es fs : frames (es ++ fs) = frames es ++ frames fs.
Proof. unfold frames. by rewrite fmap_app, concat_app. Qed.
Lemma hashes_of_app es fs : hashes_of (es ++ fs) = hashes_of es ++ hashes_of fs.
Proof. unfold hashes_of. by rewrite fmap_app, concat_app. Qed.
Lemma length_frames es : length es ≤ length (frames es).
Proof.
  induction es as [|e es IH]; [done|]. rewrite frames_cons, length_app.
  pose proof (blen_frame e) as Hb. unfold blen, FRAME_MIN_LEN in Hb. cbn. lia.
Qed.
Lemma frame_magic e : ∃ m, encode_frame e = QLOG_FRAME_MAGIC ++ m.
Proof. unfold encode_frame, frame_body. eexists. rewrite <-app_assoc. reflexivity. Qed.
Lemma footer_magic header hashes i n h : ∃ m, encode_footer header hashes i n h = QLOG_FOOTER_MAGIC ++ m.
Proof. rewrite encode_footer_parts. by eexists. Qed.

(** The first four bytes at a position decide whether the footer starts there. *)
Lemma footer_here p m s :
  length m = 4 →
  (4 <=? blen (p ++ m ++ s) - blen p)%N && eqb (index_range (p ++ m ++ s) (blen p) (blen p + 4)) QLOG_FOOTER_MAGIC
  = eqb m QLOG_FOOTER_MAGIC.
Proof.
  intros Hm. assert (blen m = 4%N) as Hb by (unfold blen; lia).
  rewrite !blen_app, Hb. destruct (N.leb_spec 4 (blen p + (4 + blen s) - blen p)); [|lia].
  rewrite <-Hb at 1. rewrite (index_range_Some _ _ _ _ (slice_app p m s)). done.
Qed.

Lemma decode_loop_frames fuel p c h done es s :
  forallb (λ e, sealed_in c e && entry_fits e) es = true → length es ≤ fuel →
  (blen (p ++ frames es ++ s) ≤ u64_max)%N →
  decode_segment_loop fuel (p ++ frames es ++ s) c h (blen p) done
  = decode_segment_loop (fuel - length es) (p ++ frames es ++ s) c h (blen (p ++ frames es)) (done ++ es).
Proof.
  revert fuel p done. induction es as [|e es IH]; intros fuel p acc Hes Hf Hl.
  { by rewrite !app_nil_r, Nat.sub_0_r. }
  cbn in Hes, Hf. apply andb_true_iff in Hes as [He Hes]. unfold sealed_in in He. bool_prop.
  destruct He as [[Hc Hh] Hfit]. destruct fuel as [|fuel]; [lia|].
  rewrite frames_cons, <-!app_assoc in *. cbn [decode_segment_loop].
  set (l := p ++ encode_frame e ++ frames es ++ s) in *.
  destruct (N.leb_spec (blen l) (blen p)) as [Hx|_].
  { unfold l in Hx. rewrite !blen_app, blen_frame in Hx. unfold FRAME_MIN_LEN in Hx. lia. }
  destruct (frame_magic e) as [m Hm].
  assert (l = p ++ QLOG_FRAME_MAGIC ++ m ++ frames es ++ s) as Hl' by (unfold l; by rewrite Hm, <-app_assoc).
  rewrite Hl' at 1 2. rewrite footer_here by done. cbn [eqb]. 
  change (eqb QLOG_FRAME_MAGIC QLOG_FOOTER_MAGIC) with false. cbv iota.
  assert (decode_frame l (blen p) c = Ok (e, blen (p ++ encode_frame e))) as ->.
  { rewrite <-Hc, blen_app. by apply frame_reads. }
  cbn [mbind result_bind]. unfold l. rewrite (app_assoc p (encode_frame e) (frames es ++ s)).
  rewrite IH; [|done|lia|by rewrite <-app_assoc]. by rewrite <-!app_assoc.
Qed.

Lemma run_indices c es :
  forallb (λ e, sealed_in c e && entry_fits e) es = true → forallb (λ e, is_u64 (le_index e)) es = true.
Proof.
  intros Hes. apply forallb_forall. intros e He. rewrite forallb_forall in Hes. specialize (Hes e He).
  unfold entry_fits in Hes. rewrite !andb_true_iff in Hes. tauto.
Qed.

(** The bytes of a segment. *)
Lemma encode_segment_cons e es :
  ∃ lst, last (e :: es) = Some lst ∧ lst ∈ e :: es ∧
  encode_segment (e :: es) = (encode_header e ++ frames (e :: es))
    ++ encode_footer (encode_header e) (hashes_of (e :: es)) (le_index lst) (N.of_nat (length (e :: es))) (le_hash lst).
Proof.
  unfold encode_segment, encode_segment_inner. destruct (last (e :: es)) as [lst|] eqn:Hlast.
  2:{ by apply last_None in Hlast. }
  exists lst. split_and!; [done|by apply list_elem_of_In, last_Some_elem_of in Hlast || by apply last_Some_elem_of|].
  fold (frames (e :: es)).
  rewrite (index_range_Some _ _ _ (encode_header e)); [done|].
  apply (slice_at _ [] _ (frames (e :: es))); [done|done|by rewrite blen_header].
Qed.

(** ** Closed segments *)

Lemma decode_loop_footer fuel c h e es lst :
  let head := encode_header e ++ frames (e :: es) in
  let n := N.of_nat (length (e :: es)) in
  last (e :: es) = Some lst → is_u64 n = true → is_u64 (le_index lst) = true →
  decode_segment_loop fuel
    (head ++ encode_footer (encode_header e) (hashes_of (e :: es)) (le_index lst) n (le_hash lst))
    c h (blen head) (e :: es) = (_ ← validate_entries h (e :: es); Ok (e :: es)).
Proof.
  intros head n Hlast Hn Hi.
  destruct (footer_magic (encode_header e) (hashes_of (e :: es)) (le_index lst) n (le_hash lst)) as [m Hm].
  set (footer := encode_footer _ _ _ _ _) in *. set (l := head ++ footer).
  assert (blen l = (blen head + FOOTER_LEN)%N) as Hll
    by (unfold l, footer; rewrite blen_app; by rewrite blen_footer).
  assert (l = head ++ QLOG_FOOTER_MAGIC ++ m) as Hl' by (unfold l; by rewrite Hm).
  assert (index_range l 0 QLOG_HEADER_LEN = encode_header e) as Hh.
  { apply index_range_Some, (slice_at _ [] _ (frames (e :: es) ++ footer)); [|done|by rewrite blen_header].
    unfold l, head. by rewrite <-app_assoc. }
  assert (decode_footer l (blen head) (encode_header e) (hashes_of (e :: es)) (e :: es) = Ok ()) as Hfoot
    by (unfold l, footer; by apply footer_reads).
  destruct fuel as [|fuel]; cbn [decode_segment_loop];
    (destruct (N.leb_spec (blen l) (blen head)); [unfold FOOTER_LEN in *; lia|]);
    rewrite Hl' at 1 2; rewrite footer_here, eqb_refl, Hh, Hfoot by done; done.
Qed.

Lemma segment_reads (c : bytes) (entries : list LogEntry) :
  c ≠ [] → entries ≠ [] → segment_run c entries = true →
  (blen (encode_segment entries) ≤ u64_max)%N →
  decode_segment_for_cluster (encode_segment entries) c = Ok entries.
Proof.
  intros Hc Hne Hrun Hlen. destruct entries as [|e es]; [done|].
  unfold segment_run in Hrun. apply andb_true_iff in Hrun as [Hlink Hes].
  pose proof (run_indices _ _ Hes) as Hidx. destruct (encode_segment_cons e es) as (lst & Hlast & Hin & Henc).
  rewrite Henc in *. set (footer := encode_footer _ _ _ _ _) in *.
  pose proof Hes as Hes'. cbn in Hes'. unfold sealed_in in Hes'. bool_prop. destruct Hes' as [[[Hce _] Hfit] _].
  assert (blen c ≠ 0)%N as Hc0 by (destruct c; [done|]; rewrite blen_cons; lia).
  pose proof (length_frames (e :: es)) as Hlf.
  unfold decode_segment_for_cluster. rewrite <-app_assoc, header_reads by (done || right; done).
  cbn [mbind result_bind]. destruct (N.eqb_spec (blen c) 0); [done|].
  rewrite <-(blen_header e), <-app_assoc in *. rewrite decode_loop_frames; [|done| |done].
  2:{ rewrite !length_app. lia. }
  cbn [app]. rewrite (app_assoc (encode_header e)). unfold footer. rewrite decode_loop_footer.
  - by rewrite (proj2 (validate_header_of e es Hidx) Hlink).
  - done.
  - unfold is_u64. apply N.leb_le. rewrite !blen_app in Hlen. unfold blen in Hlen. lia.
  - rewrite forallb_forall in Hidx. apply (Hidx lst). by apply list_elem_of_In.
Qed.

(** A closed segment reads back: the entries of a hash-chained run of one
    cluster, epoch and configuration, written by [encode_segment], are what
    [decode_segment_for_cluster] returns for that cluster. *)
Theorem segment_roundtrip (c : bytes) (entries : list LogEntry) :
  c ≠ [] → entries ≠ [] → segment_run c entries = true →
  (blen (encode_segment entries) ≤ u64_max)%N →
  decode_segment_for_cluster (encode_segment entries) c = Ok entries.
Proof. apply segment_reads. Qed.

Lemma sealed_in_range c e : is_u64 (blen c) = true → sealed_in c e && entry_fits e = true → entry_in_range e = true.
Proof. unfold sealed_in, entry_fits, entry_in_range. intros ? Hs. rewrite !andb_true_iff in *. bool_prop. naive_solver. Qed.


(** ** Open segments *)

Lemma validate_from_app h pos prev es fs :
  validate_entries_from h pos prev (es ++ fs) = Ok () →
  validate_entries_from h pos prev es = Ok ().
Proof.
  revert pos prev. induction es as [|e es IH]; intros pos prev; [done|]. cbn [app validate_entries_from].
  rewrite !bind_Ok_inv. intros ([] & He & Hes). exists (). eauto.
Qed.

Lemma recover_loop_frames fuel p c h acc es s :
  forallb (λ e, sealed_in c e && entry_fits e) es = true → length es ≤ fuel →
  (blen (p ++ frames es ++ s) ≤ u64_max)%N → validate_entries_from h (length acc) (last acc) es = Ok () →
  recover_loop fuel (p ++ frames es ++ s) c h (blen p) acc
  = recover_loop (fuel - length es) (p ++ frames es ++ s) c h (blen (p ++ frames es)) (acc ++ es).
Proof.
  revert fuel p acc. induction es as [|e es IH]; intros fuel p acc Hes Hf Hl Hv.
  { by rewrite !app_nil_r, Nat.sub_0_r. }
  cbn in Hes, Hf, Hv. apply andb_true_iff in Hes as [He Hes]. unfold sealed_in in He. bool_prop.
  destruct He as [[Hc Hh] Hfit]. destruct fuel as [|fuel]; [lia|].
  rewrite frames_cons, <-!app_assoc in *. cbn [recover_loop].
  set (l := p ++ encode_frame e ++ frames es ++ s) in *.
  destruct (N.leb_spec (blen l) (blen p)) as [Hx|_].
  { unfold l in Hx. rewrite !blen_app, blen_frame in Hx. unfold FRAME_MIN_LEN in Hx. lia. }
  assert (decode_frame l (blen p) c = Ok (e, blen (p ++ encode_frame e))) as ->.
  { rewrite <-Hc, blen_app. by apply frame_reads. }
  apply bind_Ok_inv in Hv as ([] & Hv & Hvs). rewrite Hv. cbn [mbind result_bind].
  unfold l. rewrite (app_assoc p (encode_frame e) (frames es ++ s)).
  rewrite IH; [by rewrite <-!app_assoc|done|lia|by rewrite <-app_assoc|].
  rewrite length_app, last_snoc. cbn. by rewrite Nat.add_1_r.
Qed.

Lemma slice_take l a b m k : slice l a b = Some m → (b ≤ N.of_nat k)%N → slice (take k l) a b = Some m.
Proof.
  intros (p & t & -> & <- & <-)%slice_Some Hk. apply slice_Some. unfold blen in Hk.
  exists p, (take (k - length p - length m) t). by rewrite !take_app_ge by lia.
Qed.
Lemma torn_frame_field e k i m a b :
  frame_parts e !! i = Some m → a = blen (concat (take i (frame_parts e))) → b = (a + blen m)%N →
  (b ≤ N.of_nat k)%N → slice (take k (encode_frame e)) a b = Some m.
Proof. intros. apply slice_take; [|done]. rewrite encode_frame_parts. by eapply slice_part. Qed.

(** The part of a frame that a crash leaves at the end of the file. *)
Lemma torn_frame_refused e p k c :
  entry_fits e = true → k < length (encode_frame e) →
  ∃ err, decode_frame (p ++ take k (encode_frame e)) (blen p) c = Err err.
Proof.
  intros Hfit Hk. pose proof (blen_frame e) as Hb. unfold entry_fits in Hfit. bool_prop. destruct Hfit as [_ Hp].
  unfold FRAME_MIN_LEN, u32_max in *.
  assert (blen (take k (encode_frame e)) = N.of_nat k) as Hbk by (unfold blen; rewrite length_take; lia).
  destruct (decode_frame _ _ _) as [[e' fe]|err] eqn:Hd; [exfalso|by eexists].
  unfold decode_frame in Hd. rewrite blen_app, Hbk in Hd.
  destruct (N.ltb_spec (blen p + N.of_nat k - blen p) FRAME_MIN_LEN) as [|Hk']; [done|]. unfold FRAME_MIN_LEN in *.
  cbn [reject_if mbind result_bind] in Hd. destruct (reject_if _ _); [|done]. cbn [mbind result_bind] in Hd.
  rewrite (field_u32 _ (blen p + 4) (144 + blen (le_payload e))) in Hd; [|rewrite <-N.add_assoc;
    rewrite <-(app_nil_r (take _ _)); apply slice_shift, (torn_frame_field e k 1); [reflexivity|reflexivity|by rewrite blen_put_u32|lia]|lia].
  cbn [mbind result_bind] in Hd. destruct (checked_add _ _) as [fe'|] eqn:Hca; [|done].
  apply checked_add_Some in Hca as [-> _]. cbn [ok_or mbind result_bind] in Hd.
  destruct (N.ltb_spec (blen p + N.of_nat k) (blen p + (144 + blen (le_payload e)))) as [|Hx].
  - rewrite orb_true_r in Hd. done.
  - unfold blen in *. lia.
Qed.

Lemma index_range_tail p t : index_range (p ++ t) (blen p) (blen (p ++ t)) = t.
Proof.
  apply index_range_Some. apply (slice_at _ p _ []); [by rewrite app_nil_r|done|by rewrite blen_app].
Qed.

Lemma torn_frame_incomplete e p k :
  entry_fits e = true → k < length (encode_frame e) →
  final_frame_is_incomplete (p ++ take k (encode_frame e)) (blen p) = Ok true.
Proof.
  intros Hfit Hk. pose proof (blen_frame e) as Hb. unfold entry_fits in Hfit. bool_prop. destruct Hfit as [_ Hp].
  unfold FRAME_MIN_LEN, u32_max in *. unfold final_frame_is_incomplete. rewrite index_range_tail.
  assert (length (take k (encode_frame e)) = k) as Hlk by (rewrite length_take; lia).
  assert (blen (take k (encode_frame e)) = N.of_nat k) as Hbk by (unfold blen; by rewrite Hlk).
  rewrite Hlk, Hbk. destruct (frame_magic e) as [m Hm].
  assert (take (k `min` 4) (take k (encode_frame e)) = take (k `min` 4) QLOG_FRAME_MAGIC) as ->.
  { rewrite take_take, Hm, take_app_le by (cbn; lia). f_equal. lia. }
  rewrite neqb_refl. destruct (N.ltb_spec (N.of_nat k) 8); [done|].
  rewrite (field_u32 _ 4 (144 + blen (le_payload e)));
    [|apply (torn_frame_field e k 1); [reflexivity|reflexivity|by rewrite blen_put_u32|lia]|lia].
  cbn [mbind result_bind]. unfold FRAME_MIN_LEN. destruct (N.ltb_spec (144 + blen (le_payload e)) 144); [lia|].
  assert ((N.of_nat k <? 144 + blen (le_payload e))%N = true) as -> by (apply N.ltb_lt; unfold blen in *; lia).
  unfold FRAME_PREFIX_LEN. destruct (N.leb_spec 108 (N.of_nat k)); [|done].
  rewrite (field_u32 _ 104 (blen (le_payload e))); [| |lia].
  2:{ apply (torn_frame_field e k 9); [reflexivity| |by rewrite blen_put_u32|lia].
      cbn [take frame_parts concat]. rewrite ?blen_app, ?blen_put_u32, ?blen_put_u64, ?blen_as_bytes. reflexivity. }
  cbn [mbind result_bind]. assert (checked_add 144 (blen (le_payload e)) = Some (144 + blen (le_payload e))%N) as ->
    by (apply checked_add_Some; unfold u64_max in *; lia).
  by rewrite eqb_refl.
Qed.

Lemma recover_loop_end fuel l c h acc : recover_loop fuel l c h (blen l) acc = Ok (acc, blen l).
Proof. destruct fuel; cbn [recover_loop]; by rewrite N.leb_refl. Qed.

Lemma recover_loop_torn fuel e p k c h acc :
  entry_fits e = true → k < length (encode_frame e) → k ≤ fuel →
  recover_loop fuel (p ++ take k (encode_frame e)) c h (blen p) acc = Ok (acc, blen p).
Proof.
  intros Hfit Hk Hf. destruct k as [|k].
  { rewrite take_0, app_nil_r. apply recover_loop_end. }
  destruct fuel as [|fuel]; [lia|]. cbn [recover_loop].
  destruct (torn_frame_refused e p (S k) c) as [err ->]; [done|done|].
  rewrite torn_frame_incomplete by done. cbn [mbind result_bind]. by destruct (blen _ <=? blen p)%N.
Qed.

(** What a torn write leaves after the complete frames. *)
Definition torn_tail (tail : bytes) : Prop :=
  tail = [] ∨ ∃ e i, entry_fits e = true ∧ tail = take i (encode_frame e) ∧ i < length (encode_frame e).

(** An open segment that ends in a torn frame; its header is that of any entry at its start. *)
Lemma recover_torn c h es tail :
  entry_fits h = true → le_cluster_id h = c → forallb (λ e, sealed_in c e && entry_fits e) es = true →
  validate_entries (header_of h) es = Ok () → torn_tail tail →
  (blen (encode_header h ++ frames es ++ tail) ≤ u64_max)%N →
  recover_open_segment_prefix (encode_header h ++ frames es ++ tail) c = Ok (es, blen (encode_header h ++ frames es)).
Proof.
  intros Hfit Hc Hes Hval Htail Hlen. unfold recover_open_segment_prefix. rewrite header_reads by (done || by right).
  cbn [mbind result_bind]. rewrite <-(blen_header h). pose proof (length_frames es) as Hlf.
  rewrite recover_loop_frames; [|done|rewrite !length_app; lia|done|done]. cbn [app]. rewrite (app_assoc (encode_header h)).
  destruct Htail as [->|(e & i & He & -> & Hi)].
  - rewrite app_nil_r. apply recover_loop_end.
  - apply recover_loop_torn; [done|done|]. rewrite !length_app, (length_take (encode_frame e)). lia.
Qed.
Lemma recover_frames c h es :
  entry_fits h = true → le_cluster_id h = c → forallb (λ e, sealed_in c e && entry_fits e) es = true →
  validate_entries (header_of h) es = Ok () → (blen (encode_header h ++ frames es) ≤ u64_max)%N →
  recover_open_segment_prefix (encode_header h ++ frames es) c = Ok (es, blen (encode_header h ++ frames es)).
Proof.
  intros Hfit Hc Hes Hval Hlen. pose proof (recover_torn c h es [] Hfit Hc Hes Hval) as Hr.
  rewrite !app_nil_r in Hr. apply Hr; [by left|done].
Qed.

(** A cut through the frames leaves whole frames and a part of the next one. *)
Lemma frames_cut es k :
  k ≤ length (frames es) →
  ∃ n j, take k (frames es) = frames (take n es) ++ j
    ∧ (n = length es ∧ j = []
       ∨ ∃ e i, es !! n = Some e ∧ j = take i (encode_frame e) ∧ i < length (encode_frame e)).
Proof.
  revert k. induction es as [|e es IH]; intros k Hk.
  { exists 0, []. split; [by rewrite (take_nil k : take k (frames []) = [])|by left]. }
  rewrite frames_cons, length_app in *. destruct (decide (k < length (encode_frame e))).
  - exists 0, (take k (encode_frame e)). split; [by rewrite take_app_le by lia|]. right. by exists e, k.
  - destruct (IH (k - length (encode_frame e))) as (n' & j & Ht & Hj); [lia|].
    exists (S n'), j. rewrite take_app_ge, Ht by lia. split; [by rewrite app_assoc|]. cbn. naive_solver.
Qed.

Lemma frames_take_mono es n m : n ≤ m → (blen (frames (take n es)) ≤ blen (frames (take m es)))%N.
Proof.
  intros Hnm. replace (take n es) with (take n (take m es)) by (rewrite take_take; f_equal; lia).
  rewrite <-(take_drop n (take m es)) at 2. rewrite frames_app, blen_app. lia.
Qed.

(** The length of the file of an open segment that holds the first [n] entries. *)
Definition open_len (entries : list LogEntry) (n : nat) : N := QLOG_HEADER_LEN + blen (frames (take n entries)).

(** A torn append loses only itself: an open segment that is cut anywhere after
    its header is recovered to the largest number of entries whose frames are
    complete in the file, and to the length of that part of the file. *)
Theorem torn_segment_recovers (c : bytes) (entries : list LogEntry) (cut : N) :
  entries ≠ [] → segment_run c entries = true → (blen (encode_open_segment entries) ≤ u64_max)%N →
  (QLOG_HEADER_LEN ≤ cut ≤ blen (encode_open_segment entries))%N →
  ∃ n, recover_open_segment_prefix (take (N.to_nat cut) (encode_open_segment entries)) c
         = Ok (take n entries, open_len entries n)
    ∧ (open_len entries n ≤ cut)%N
    ∧ ∀ m, m ≤ length entries → (open_len entries m ≤ cut)%N → m ≤ n.
Proof.
  intros Hne Hrun Hlen Hcut. destruct entries as [|e es]; [done|].
  unfold segment_run in Hrun. apply andb_true_iff in Hrun as [Hlink Hes].
  pose proof (run_indices _ _ Hes) as Hidx. pose proof (proj2 (validate_header_of e es Hidx) Hlink) as Hval.
  assert (encode_open_segment (e :: es) = encode_header e ++ frames (e :: es)) as Henc.
  { unfold encode_open_segment, encode_segment_inner. by destruct (last (e :: es)). }
  assert (le_cluster_id e = c ∧ entry_fits e = true) as [Hc Hfit].
  { cbn in Hes. unfold sealed_in in Hes. bool_prop. naive_solver. }
  rewrite Henc in *. rewrite blen_app, blen_header in Hlen, Hcut.
  assert (length (encode_header e) = 76) as Hlh.
  { pose proof (blen_header e) as Hbh. unfold blen, QLOG_HEADER_LEN in Hbh. lia. }
  unfold QLOG_HEADER_LEN in Hcut, Hlen. rewrite take_app_ge, Hlh by lia.
  destruct (frames_cut (e :: es) (N.to_nat cut - 76)) as (n & j & Ht & Hj); [unfold blen in Hcut; lia|].
  rewrite Ht. assert (length (frames (take n (e :: es)) ++ j) = N.to_nat cut - 76) as Hlt.
  { rewrite <-Ht, length_take. unfold blen in Hcut. lia. }
  rewrite length_app in Hlt. exists n. split; [|split].
  - assert (blen (encode_header e ++ frames (take n (e :: es))) = open_len (e :: es) n) as <-
      by (by rewrite blen_app, blen_header).
    apply recover_torn; [done|done| | | |].
    + rewrite <-(take_drop n (e :: es)), forallb_app in Hes. by apply andb_true_iff in Hes as [? _].
    + unfold validate_entries in *. rewrite <-(take_drop n (e :: es)) in Hval. by apply validate_from_app in Hval.
    + destruct Hj as [[-> ->]|(e' & i & He' & -> & Hi)]; [by left|right]. exists e', i. split_and!; [|done|done].
      apply list_elem_of_lookup_2 in He'. rewrite forallb_forall in Hes.
      apply list_elem_of_In in He'. specialize (Hes _ He'). rewrite andb_true_iff in Hes. tauto.
    + rewrite !blen_app, blen_header. unfold QLOG_HEADER_LEN, blen in *. lia.
  - unfold open_len, QLOG_HEADER_LEN. unfold blen. lia.
  - intros m Hm Hle. destruct (decide (m ≤ n)) as [|Hmn]; [done|exfalso].
    destruct Hj as [[-> _]|(e' & i & He' & -> & Hi)]; [lia|].
    pose proof (frames_take_mono (e :: es) (S n) m) as Hmono. rewrite (take_S_r _ _ _ He'), frames_app, blen_app in Hmono.
    unfold open_len, QLOG_HEADER_LEN in Hle. cbn [frames fmap list_fmap concat] in Hmono. rewrite app_nil_r in Hmono.
    rewrite length_take in Hlt. unfold blen in *. lia.
Qed.

(** ** Whatever decodes *)

Lemma decode_frame_Ok l off c e next :
  decode_frame l off c = Ok (e, next) →
  sealed_in c e = true ∧ is_u64 (le_index e) = true ∧ (off + FRAME_MIN_LEN ≤ next ≤ blen l)%N.
Proof.
  unfold decode_frame. intros Hd.
  apply bind_Ok_inv in Hd as ([] & _ & Hd). apply bind_Ok_inv in Hd as ([] & _ & Hd).
  apply bind_Ok_inv in Hd as (frame_len & _ & Hd). apply bind_Ok_inv in Hd as (fe & Hfe & Hd).
  apply ok_or_Ok, checked_add_Some in Hfe as [-> _]. apply bind_Ok_inv in Hd as ([] & Hb & Hd).
  apply reject_if_Ok in Hb. bool_prop. destruct Hb as [Hb1 Hb2].
  apply bind_Ok_inv in Hd as (crc & _ & Hd). apply bind_Ok_inv in Hd as ([] & _ & Hd).
  apply bind_Ok_inv in Hd as (index & Hi & Hd). apply bind_Ok_inv in Hd as (epoch & _ & Hd).
  apply bind_Ok_inv in Hd as (cfg & _ & Hd). apply bind_Ok_inv in Hd as (t & _ & Hd).
  apply bind_Ok_inv in Hd as (prev & _ & Hd). apply bind_Ok_inv in Hd as (ph & _ & Hd).
  apply bind_Ok_inv in Hd as (plen & _ & Hd). apply bind_Ok_inv in Hd as ([] & _ & Hd).
  apply bind_Ok_inv in Hd as (pe & _ & Hd). apply bind_Ok_inv in Hd as ([] & _ & Hd).
  apply bind_Ok_inv in Hd as (hash & _ & Hd). apply bind_Ok_inv in Hd as ([] & Hh & Hd).
  apply reject_if_Ok in Hh. apply (proj1 (neqb_false _ _)) in Hh. apply Ok_inj, pair_eq in Hd as [<- <-].
  unfold sealed_in. cbn [le_cluster_id le_hash le_index]. rewrite Hh, !eqb_refl. split_and!; [done| |lia|lia].
  unfold read_u64 in Hi. apply bind_Ok_inv in Hi as (m & Hm & Hi). apply Ok_inj in Hi as <-.
  apply ok_or_Ok, slice_length in Hm as [Hm _]. apply is_u64_bound. pose proof (be_value_bound m) as Hbv.
  replace (length m) with 8 in Hbv by (unfold blen in Hm; lia). done.
Qed.

(** Entries that were read: sealed for the cluster, with machine-width indices. *)
Definition read_ok (c : bytes) (e : LogEntry) : bool := sealed_in c e && is_u64 (le_index e).

Lemma validated_run h es :
  forallb (λ e, is_u64 (le_index e)) es = true → validate_entries h es = Ok () → is_run es = true.
Proof.
  intros Hu Hv. destruct es as [|e es]; [done|]. cbn in Hu. apply andb_true_iff in Hu as [_ Hu].
  unfold validate_entries in Hv. cbn [validate_entries_from] in Hv. apply bind_Ok_inv in Hv as ([] & H0 & Hv).
  unfold validate_decoded_entry in H0. apply bind_Ok_inv in H0 as ([] & H1 & H0).
  apply bind_Ok_inv in H0 as ([] & H2 & _). apply reject_if_Ok in H1, H2. bool_prop.
  apply checked_add_Some in H1 as [H1 _]. destruct H2 as [H2 H3].
  apply (validate_from_linked e h 0 e es); [lia|done|done|lia|done..].
Qed.

Lemma validate_from_snoc h pos prev es e :
  validate_entries_from h pos prev es = Ok () →
  validate_decoded_entry h (pos + length es) (if es is [] then prev else last es) e = Ok () →
  validate_entries_from h pos prev (es ++ [e]) = Ok ().
Proof.
  revert pos prev. induction es as [|x es IH]; intros pos prev; cbn [app length validate_entries_from].
  - rewrite Nat.add_0_r. intros _ ->. done.
  - rewrite bind_Ok_inv. intros ([] & Hx & Hes) He. rewrite Hx. cbn [mbind result_bind]. apply IH; [done|].
    rewrite Nat.add_succ_comm. destruct es; done.
Qed.

Lemma decode_loop_Ok fuel l c h off acc es :
  decode_segment_loop fuel l c h off acc = Ok es → forallb (read_ok c) acc = true →
  forallb (read_ok c) es = true ∧ validate_entries h es = Ok ().
Proof.
  revert off acc. induction fuel as [|fuel IH]; intros off acc; cbn [decode_segment_loop];
    (destruct (_ <=? _)%N; [done|]); (destruct (_ && _);
      [intros ([] & _ & ([] & Hv & Hd)%bind_Ok_inv)%bind_Ok_inv Hacc; by apply Ok_inj in Hd as <-|]); [done|].
  intros ([e next] & (Hs & Hu & _)%decode_frame_Ok & Hd)%bind_Ok_inv Hacc.
  apply IH in Hd; [done|]. rewrite forallb_app, Hacc. unfold read_ok; cbn. by rewrite Hs, Hu.
Qed.

Lemma recover_loop_Ok fuel l c h off acc es n :
  recover_loop fuel l c h off acc = Ok (es, n) → forallb (read_ok c) acc = true →
  validate_entries h acc = Ok () → forallb (read_ok c) es = true ∧ validate_entries h es = Ok ().
Proof.
  revert off acc. induction fuel as [|fuel IH]; intros off acc; cbn [recover_loop];
    (destruct (_ <=? _)%N; [by intros [<- _]%Ok_inj%pair_eq|]); [done|].
  destruct (decode_frame l off c) as [[e next]|err] eqn:He.
  - apply decode_frame_Ok in He as (Hs & Hu & _). intros ([] & Hv & Hd)%bind_Ok_inv Hacc Hva.
    apply IH in Hd; [done| |].
    + rewrite forallb_app, Hacc. unfold read_ok; cbn. by rewrite Hs, Hu.
    + apply validate_from_snoc; [done|]. by destruct acc.
  - destruct (final_frame_is_incomplete l off) as [[]|]; cbn [mbind result_bind]; try done.
    by intros [<- _]%Ok_inj%pair_eq.
Qed.

Lemma read_ok_split c es :
  forallb (read_ok c) es = true →
  forallb (sealed_in c) es = true ∧ forallb (λ e, is_u64 (le_index e)) es = true.
Proof.
  rewrite !forallb_forall. unfold read_ok. intros Hes. split; intros e He; apply Hes in He;
    rewrite andb_true_iff in He; tauto.
Qed.

(** C38. Whatever is read from a closed segment or recovered from an open one is a
    run of entries of the given cluster: consecutive indices, each entry carrying
    its own hash and the hash of the one before, in one epoch and configuration. *)
Theorem decoded_segment_is_run (c l : bytes) (entries : list LogEntry) :
  c ≠ [] →
  decode_segment_for_cluster l c = Ok entries ∨ (∃ n, recover_open_segment_prefix l c = Ok (entries, n)) →
  is_run entries = true ∧ forallb (sealed_in c) entries = true.
Proof.
  intros Hc Hd. enough (∃ h, forallb (read_ok c) entries = true ∧ validate_entries h entries = Ok ())
    as (h & [Hs Hu]%read_ok_split & Hv) by (split; [by eapply validated_run|done]).
  destruct Hd as [Hd|[n Hd]]; [unfold decode_segment_for_cluster in Hd|unfold recover_open_segment_prefix in Hd];
    apply bind_Ok_inv in Hd as ([h off] & _ & Hd); exists h.
  - destruct (N.eqb_spec (blen c) 0) as [Hx|_]; [destruct c; [done|rewrite blen_cons in Hx; lia]|].
    by apply decode_loop_Ok in Hd.
  - by apply recover_loop_Ok in Hd.
Qed.

(** ** Termination *)

Lemma bind_no_err {E A B} (m : result E A) (f : A → result E B) (err : E) :
  m ≠ Err err → (∀ a, f a ≠ Err err) → (m ≫= f) ≠ Err err.
Proof. destruct m; cbn; [eauto|congruence]. Qed.
Lemma ok_or_no_err {E A} (o : option A) (e err : E) : e ≠ err → ok_or o e ≠ Err err.
Proof. destruct o; cbn; congruence. Qed.
Lemma reject_no_err {E} (b : bool) (e err : E) : e ≠ err → reject_if b e ≠ Err err.
Proof. destruct b; cbn; congruence. Qed.

(** [no_fuel_err] shows that a computation does not report exhausted fuel. *)
Ltac no_fuel_err :=
  repeat first
    [ apply bind_no_err; [|intros ?] | apply ok_or_no_err; discriminate
    | apply reject_no_err; discriminate | discriminate
    | match goal with |- context [match ?x with _ => _ end] => destruct x end ].

Lemma decode_frame_no_fuel l off c : decode_frame l off c ≠ Err out_of_fuel.
Proof. unfold decode_frame, read_u32, read_u64, read_hash, out_of_fuel. no_fuel_err. Qed.
Lemma decode_footer_no_fuel l off h k es : decode_footer l off h k es ≠ Err out_of_fuel.
Proof. unfold decode_footer, read_u32, read_u64, read_hash, out_of_fuel. no_fuel_err. Qed.
Lemma validate_entry_no_fuel h pos prev e : validate_decoded_entry h pos prev e ≠ Err out_of_fuel.
Proof. unfold validate_decoded_entry, out_of_fuel. no_fuel_err. Qed.
Lemma validate_entries_no_fuel h pos prev es : validate_entries_from h pos prev es ≠ Err out_of_fuel.
Proof.
  revert pos prev. induction es as [|e es IH]; intros pos prev; [done|]. cbn [validate_entries_from].
  apply bind_no_err; [apply validate_entry_no_fuel|]. intros _. apply IH.
Qed.
Lemma incomplete_no_fuel l off : final_frame_is_incomplete l off ≠ Err out_of_fuel.
Proof.
  unfold final_frame_is_incomplete, read_u32, out_of_fuel. cbv zeta.
  destruct (neqb _ _); [done|]. destruct (_ <? 8)%N; [done|]. no_fuel_err.
Qed.

Lemma decode_loop_fuel fuel extra l c h off acc :
  (blen l ≤ off + N.of_nat fuel)%N →
  decode_segment_loop (fuel + extra) l c h off acc = decode_segment_loop fuel l c h off acc
  ∧ decode_segment_loop fuel l c h off acc ≠ Err out_of_fuel.
Proof.
  revert off acc. induction fuel as [|fuel IH]; intros off acc Hf.
  { destruct extra; cbn [Nat.add decode_segment_loop]; destruct (N.leb_spec (blen l) off); (done || lia). }
  cbn [Nat.add decode_segment_loop]. destruct (_ <=? _)%N; [done|]. destruct (_ && _).
  { split; [done|]. apply bind_no_err; [apply decode_footer_no_fuel|intros _].
    apply bind_no_err; [apply validate_entries_no_fuel|done]. }
  destruct (decode_frame l off c) as [[e next]|err] eqn:He; cbn [mbind result_bind].
  - apply decode_frame_Ok in He as (_ & _ & Hn). unfold FRAME_MIN_LEN in Hn. apply IH. lia.
  - split; [done|]. pose proof (decode_frame_no_fuel l off c). congruence.
Qed.

Lemma recover_loop_fuel fuel extra l c h off acc :
  (blen l ≤ off + N.of_nat fuel)%N →
  recover_loop (fuel + extra) l c h off acc = recover_loop fuel l c h off acc
  ∧ recover_loop fuel l c h off acc ≠ Err out_of_fuel.
Proof.
  revert off acc. induction fuel as [|fuel IH]; intros off acc Hf.
  { destruct extra; cbn [Nat.add recover_loop]; destruct (N.leb_spec (blen l) off); (done || lia). }
  cbn [Nat.add recover_loop]. destruct (_ <=? _)%N; [done|].
  pose proof (decode_frame_no_fuel l off c) as Hnf.
  destruct (decode_frame l off c) as [[e next]|err] eqn:He.
  - apply decode_frame_Ok in He as (_ & _ & Hn). unfold FRAME_MIN_LEN in Hn.
    destruct (IH next (acc ++ [e])) as [-> IH2]; [lia|]. split; [done|].
    apply bind_no_err; [apply validate_entry_no_fuel|done].
  - split; [done|]. apply bind_no_err; [apply incomplete_no_fuel|]. intros []; [done|congruence].
Qed.

(** Reading a segment terminates: with the length of the buffer as fuel neither
    loop runs out of it, whatever the bytes and wherever it starts, and any larger
    amount of fuel gives the same answer. *)
Theorem segment_decoding_terminates (c l : bytes) (h : SegmentHeader) (off : N) (acc : list LogEntry)
    (extra : nat) :
  let fuel := length l in
  decode_segment_loop (fuel + extra) l c h off acc = decode_segment_loop fuel l c h off acc
  ∧ decode_segment_loop fuel l c h off acc ≠ Err out_of_fuel
  ∧ recover_loop (fuel + extra) l c h off acc = recover_loop fuel l c h off acc
  ∧ recover_loop fuel l c h off acc ≠ Err out_of_fuel.
Proof.
  intros fuel. assert (blen l ≤ off + N.of_nat fuel)%N by (unfold fuel, blen; lia).
  pose proof (decode_loop_fuel fuel extra l c h off acc). pose proof (recover_loop_fuel fuel extra l c h off acc).
  tauto.
Qed.
End segments.

(** ** The hypotheses on a concrete log *)

Definition sample_cluster : bytes := lit "cluster-a".
Lemma sample_cluster_ne : sample_cluster ≠ [].
Proof. discriminate. Qed.
Lemma sample_log_ne : sample_log ≠ [].
Proof. vm_compute. discriminate. Qed.
Lemma sample_log_run : @segment_run sample_sha256 sample_cluster sample_log = true.
Proof. vm_compute. reflexivity. Qed.
Definition sample_segment : bytes := Eval vm_compute in @encode_segment sample_sha256 sample_log.
Definition sample_open_segment : bytes := Eval vm_compute in @encode_open_segment sample_sha256 sample_log.
Lemma sample_segment_eq : @encode_segment sample_sha256 sample_log = sample_segment.
Proof. vm_compute. reflexivity. Qed.
Lemma sample_open_segment_eq : @encode_open_segment sample_sha256 sample_log = sample_open_segment.
Proof. vm_compute. reflexivity. Qed.

Lemma segment_roundtrip_witness :
  @decode_segment_for_cluster sample_sha256 (@encode_segment sample_sha256 sample_log) sample_cluster = Ok sample_log.
Proof.
  apply (@segment_roundtrip sample_sha256 sample_cluster sample_log sample_cluster_ne sample_log_ne sample_log_run).
  rewrite sample_segment_eq. vm_compute. discriminate.
Defined.


(** The second frame is cut in its payload. *)
Lemma torn_segment_recovers_witness :
  ∃ n, @recover_open_segment_prefix sample_sha256
         (take 330 (@encode_open_segment sample_sha256 sample_log)) sample_cluster
         = Ok (take n sample_log, @open_len sample_sha256 sample_log n)
    ∧ (@open_len sample_sha256 sample_log n ≤ 330)%N
    ∧ ∀ m, m ≤ length sample_log → (@open_len sample_sha256 sample_log m ≤ 330)%N → m ≤ n.
Proof.
  apply (@torn_segment_recovers sample_sha256 sample_cluster sample_log 330 sample_log_ne sample_log_run);
    rewrite sample_open_segment_eq; [vm_compute; discriminate|split; vm_compute; discriminate].
Defined.

Lemma decoded_segment_is_run_witness :
  @is_run sample_log = true ∧ forallb (@sealed_in sample_sha256 sample_cluster) sample_log = true.
Proof.
  apply (@decoded_segment_is_run sample_sha256 sample_cluster sample_segment sample_log sample_cluster_ne).
  left. apply (proj1 (bool_decide_eq_true _)). vm_compute. reflexivity.
Defined.
