(* ===== verification/AnchorCodec.v ===== *)
(** * AnchorCodec: the recovery anchor and the intents of the log

    Models the small files of [crates/rhiza-log/src/lib.rs] beside the segments:
    [recovery.anchor] (the compacted prefix with its snapshot and configuration
    state) in its four versions, and the intents [.truncate-intent] and
    [.compact-intent] that make a group of file changes atomic.  The theorems: an
    anchor of the current version reads back; an anchor of the first version is
    written in a form that cannot be read. *)

From S2P Require Import Prelude Bytes Text Core ConfigChange ConfigState LogSegment.
From Stdlib Require Strings.Byte.

Definition TRUNCATE_INTENT_FILE_NAME : bytes := lit ".truncate-intent".
Definition TRUNCATE_INTENT_MAGIC : bytes := lit "QTRN".
Definition TRUNCATE_INTENT_VERSION : N := 1.
Definition TRUNCATE_INTENT_REPLACEMENT : N := 1.
Definition ANCHOR_FILE_NAME : bytes := lit "recovery.anchor".
Definition ANCHOR_MAGIC : bytes := lit "QANC".
Definition ANCHOR_VERSION : N := 4.
Definition ANCHOR_V3_VERSION : N := 3.
Definition ANCHOR_V2_VERSION : N := 2.
Definition ANCHOR_V1_VERSION : N := 1.
Definition COMPACT_INTENT_FILE_NAME : bytes := lit ".compact-intent".
Definition COMPACT_INTENT_MAGIC : bytes := lit "QCMP".
Definition COMPACT_INTENT_VERSION : N := 1.
Definition COMPACT_INTENT_PREVIOUS_ANCHOR : N := 1.
Definition COMPACT_INTENT_REPLACEMENT : N := 2.

(** ** Strings and blobs *)

Definition too_long (field : string) : Error := Decode (field +:+ " is too long").

Definition put_intent_name (name : bytes) : result Error bytes :=
  _ ← reject_if (u16_max <? blen name)%N (Decode "truncate intent name is too long");
  Ok (put_u16 (blen name) ++ name).
Definition put_string (value : bytes) (field : string) : result Error bytes :=
  _ ← reject_if (u16_max <? blen value)%N (too_long field);
  Ok (put_u16 (blen value) ++ value).
Definition put_blob (l : bytes) (field : string) : result Error bytes :=
  _ ← reject_if (u32_max <? blen l)%N (Decode (field +:+ " is too large"));
  Ok (put_u32 (blen l) ++ l).

Definition read_intent_name (end_ : N) : reader Error bytes := λ l cursor,
  len ← read_u16 l cursor;
  cursor ← ok_or (checked_add cursor 2) (Decode "truncate intent cursor overflow");
  name_end ← ok_or (checked_add cursor len) (Decode "truncate intent name overflow");
  _ ← reject_if (end_ <? name_end)%N (Decode "short truncate intent name");
  name ← from_utf8 (index_range l cursor name_end) (Decode "invalid utf-8 sequence");
  Ok (name, name_end).

Definition read_string (field : string) (end_ : N) : reader Error bytes := λ l cursor,
  '(value, cursor) ← read_intent_name end_ l cursor;
  _ ← reject_if (blen value =? 0)%N (Decode (field +:+ " is empty"));
  Ok (value, cursor).

Definition read_blob (field : string) (end_ : N) : reader Error bytes := λ l cursor,
  len ← read_u32 l cursor;
  cursor ← ok_or (checked_add cursor 4) (Decode (field +:+ " cursor overflow"));
  value_end ← ok_or (checked_add cursor len) (Decode (field +:+ " length overflow"));
  _ ← reject_if (end_ <? value_end)%N (Decode ("short " +:+ field));
  Ok (index_range l cursor value_end, value_end).

(** ** The fields of a configuration state *)

Definition short_state : Error := Decode "short recovery anchor configuration state".

(** [checked_add(n).filter(|next| *next <= end)] *)
Definition next_within (end_ cursor n : N) : result Error N :=
  next ← ok_or (checked_add cursor n) short_state;
  _ ← reject_if (end_ <? next)%N short_state;
  Ok next.

Definition read_state_u8 (end_ : N) : reader Error byte := λ l cursor,
  value ← ok_or (byte_at l cursor) short_state;
  _ ← reject_if (end_ <=? cursor)%N short_state;
  Ok (value, (cursor + 1)%N).
Definition read_state_u16 (end_ : N) : reader Error N := λ l cursor,
  next ← next_within end_ cursor 2; value ← read_u16 l cursor; Ok (value, next).
Definition read_state_u64 (end_ : N) : reader Error N := λ l cursor,
  next ← next_within end_ cursor 8; value ← read_u64 l cursor; Ok (value, next).
Definition read_state_hash (end_ : N) : reader Error LogHash := λ l cursor,
  next ← next_within end_ cursor 32; value ← read_hash l cursor; Ok (value, next).

Section anchors.
Context `{Sha256}.

Definition encode_successor_descriptor (s : SuccessorDescriptor) : result Error bytes :=
  cluster ← put_string (sd_cluster_id s) "successor cluster_id";
  members ← collect (λ m, put_string m "successor member") (sd_members s);
  Ok (cluster ++ put_u64 (sd_predecessor_config_id s) ++ as_bytes (sd_predecessor_config_digest s)
      ++ put_u64 (sd_config_id s) ++ as_bytes (sd_config_digest s)
      ++ put_u16 (N.of_nat (length (sd_members s))) ++ concat members).

Definition encode_configuration_state (state : ConfigurationState) : result Error bytes :=
  match state with
  | Active _ digest => Ok (Byte.x01 :: as_bytes digest)
  | Stopped _ digest stop binding =>
      b ← match binding with
          | Unknown => Ok [Byte.x00]
          | Unbound => Ok [Byte.x01]
          | Bound successor stop_command_hash =>
              s ← encode_successor_descriptor successor;
              Ok (Byte.x02 :: s ++ as_bytes stop_command_hash)
          end;
      Ok (Byte.x02 :: as_bytes digest ++ put_u64 (la_index stop) ++ as_bytes (la_hash stop) ++ b)
  end.

Definition decode_stop_binding (end_ : N) : reader Error StopBinding := λ l cursor,
  '(kind, cursor) ← read_state_u8 end_ l cursor;
  match kind with
  | Byte.x00 => Ok (Unknown, cursor)
  | Byte.x01 => Ok (Unbound, cursor)
  | Byte.x02 =>
      '(cluster_id, cursor) ← read_string "successor cluster_id" end_ l cursor;
      '(predecessor_config_id, cursor) ← read_state_u64 end_ l cursor;
      '(predecessor_config_digest, cursor) ← read_state_hash end_ l cursor;
      '(successor_config_id, cursor) ← read_state_u64 end_ l cursor;
      '(encoded_digest, cursor) ← read_state_hash end_ l cursor;
      '(member_count, cursor) ← read_state_u16 end_ l cursor;
      '(members, cursor) ← read_many (read_string "successor member" end_) (N.to_nat member_count) l cursor;
      successor ← map_err (λ _, Decode "invalid recovery anchor successor descriptor")
        (successor_new cluster_id predecessor_config_id predecessor_config_digest
           successor_config_id members);
      _ ← reject_if (neqb (sd_config_digest successor) encoded_digest)
            (Decode "recovery anchor successor digest mismatch");
      '(stop_command_hash, cursor) ← read_state_hash end_ l cursor;
      Ok (Bound successor stop_command_hash, cursor)
  | _ => Err (Decode "invalid recovery anchor stop binding")
  end.

Definition decode_configuration_state (config_id version end_ : N) : reader Error ConfigurationState :=
  λ l cursor,
  '(kind, cursor) ← read_state_u8 end_ l cursor;
  '(digest, cursor) ← read_state_hash end_ l cursor;
  match kind with
  | Byte.x01 => Ok (active config_id digest, cursor)
  | Byte.x02 =>
      '(stop_index, cursor) ← read_state_u64 end_ l cursor;
      '(stop_hash, cursor) ← read_state_hash end_ l cursor;
      '(binding, cursor) ← (if eqb version ANCHOR_VERSION then decode_stop_binding end_ l cursor
                            else Ok (Unknown, cursor));
      Ok (Stopped config_id digest (mkLogAnchor stop_index stop_hash) binding, cursor)
  | _ => Err (Decode "invalid recovery anchor configuration state")
  end.

(** ** Anchors *)

Definition validate_anchor (anchor : RecoveryAnchor) : result Error () :=
  _ ← reject_if (negb (eqb (ra_format_version anchor) RECOVERY_ANCHOR_V1_FORMAT_VERSION
                       || eqb (ra_format_version anchor) RECOVERY_ANCHOR_FORMAT_VERSION))
        (Decode "unsupported recovery anchor version");
  _ ← reject_if ((blen (ra_cluster_id anchor) =? 0)%N || eqb (ra_recovery_generation anchor) 0%N
                 || eqb (la_index (ra_compacted anchor)) 0%N
                 || (blen (si_snapshot_id (ra_snapshot anchor)) =? 0)%N
                 || eqb (si_size_bytes (ra_snapshot anchor)) 0%N)
        (Decode "invalid recovery anchor identity");
  reject_if (neqb (cs_config_id (ra_configuration_state anchor)) (ra_config_id anchor)
             || match cs_stop (ra_configuration_state anchor) with
                | Some stop => neqb stop (ra_compacted anchor)
                | None => false
                end)
    (Decode "invalid recovery anchor configuration state").

Definition validate_anchor_identity (anchor : option RecoveryAnchor) (cluster_id : bytes) (epoch : N) :
    result Error () :=
  match anchor with
  | Some anchor =>
      _ ← validate_anchor anchor;
      reject_if (neqb (ra_cluster_id anchor) cluster_id || neqb (ra_epoch anchor) epoch)
        (Decode "recovery anchor does not match configured cluster/epoch")
  | None => Ok ()
  end.

(** What stands before the strings. *)
Definition anchor_fixed (anchor : RecoveryAnchor) : bytes :=
  ANCHOR_MAGIC
  ++ put_u16 (if eqb (ra_format_version anchor) RECOVERY_ANCHOR_V1_FORMAT_VERSION
              then ANCHOR_V1_VERSION else ANCHOR_VERSION)
  ++ put_u16 0 ++ put_u64 (ra_epoch anchor) ++ put_u64 (ra_config_id anchor)
  ++ put_u64 (ra_recovery_generation anchor) ++ put_u64 (la_index (ra_compacted anchor))
  ++ as_bytes (la_hash (ra_compacted anchor)) ++ as_bytes (si_digest (ra_snapshot anchor))
  ++ put_u64 (si_size_bytes (ra_snapshot anchor))
  ++ match si_executor_fingerprint (ra_snapshot anchor) with
     | Some fingerprint => Byte.x01 :: as_bytes fingerprint
     | None => Byte.x00 :: as_bytes LogHash_ZERO
     end.

Definition encode_anchor (anchor : RecoveryAnchor) : result Error bytes :=
  _ ← validate_anchor anchor;
  state ← (if eqb (ra_format_version anchor) RECOVERY_ANCHOR_FORMAT_VERSION
           then encode_configuration_state (ra_configuration_state anchor) else Ok []);
  cluster ← put_string (ra_cluster_id anchor) "anchor cluster_id";
  snapshot ← put_string (si_snapshot_id (ra_snapshot anchor)) "anchor snapshot_id";
  let out := anchor_fixed anchor ++ state ++ cluster ++ snapshot in
  Ok (out ++ put_u32 (crc32c out)).

Definition decode_anchor (l : bytes) : result Error RecoveryAnchor :=
  _ ← reject_if ((blen l <? 120)%N || neqb (slice l 0 4) (Some ANCHOR_MAGIC))
        (Decode "invalid recovery anchor magic");
  let crc_offset := (blen l - 4)%N in
  expected_crc ← read_u32 l crc_offset;
  _ ← reject_if (neqb (crc32c (index_range l 0 crc_offset)) expected_crc)
        (Decode "recovery anchor crc mismatch");
  version ← read_u16 l 4;
  zero ← read_u16 l 6;
  _ ← reject_if (negb (eqb version ANCHOR_V1_VERSION || eqb version ANCHOR_V2_VERSION
                       || eqb version ANCHOR_V3_VERSION || eqb version ANCHOR_VERSION)
                 || neqb zero 0%N) (Decode "unsupported recovery anchor version");
  let has_fingerprint := eqb version ANCHOR_V3_VERSION || eqb version ANCHOR_VERSION in
  executor_fingerprint ←
    (if has_fingerprint then
       present ← ok_or (byte_at l 112) (Decode "truncated executor fingerprint flag");
       fingerprint ← read_hash l 113;
       match present with
       | Byte.x00 => if eqb fingerprint LogHash_ZERO then Ok None
                     else Err (Decode "invalid executor fingerprint encoding")
       | Byte.x01 => Ok (Some fingerprint)
       | _ => Err (Decode "invalid executor fingerprint encoding")
       end
     else Ok None);
  let cursor := if has_fingerprint then 145%N else 112%N in
  config_id ← read_u64 l 16;
  '(configuration_state, cursor) ←
    (if neqb version ANCHOR_V1_VERSION
     then decode_configuration_state config_id version crc_offset l cursor
     else Ok (active config_id LogHash_ZERO, cursor));
  '(cluster_id, cursor) ← read_string "anchor cluster_id" crc_offset l cursor;
  '(snapshot_id, cursor) ← read_string "anchor snapshot_id" crc_offset l cursor;
  _ ← reject_if (neqb cursor crc_offset) (Decode "trailing recovery anchor bytes");
  compacted_index ← read_u64 l 32;
  compacted_hash ← read_hash l 40;
  let compacted := mkLogAnchor compacted_index compacted_hash in
  snapshot_digest ← read_hash l 72;
  size_bytes ← read_u64 l 104;
  let snapshot := mkSnapshotIdentity snapshot_id snapshot_digest size_bytes executor_fingerprint in
  epoch ← read_u64 l 8;
  generation ← read_u64 l 24;
  let anchor :=
    if eqb version ANCHOR_V1_VERSION
    then anchor_from_v1 cluster_id epoch config_id generation compacted snapshot
    else anchor_new_with_configuration cluster_id epoch configuration_state generation compacted snapshot in
  _ ← validate_anchor anchor;
  Ok anchor.

(** ** Intents *)

Record TruncateReplacement : Type := mkTruncateReplacement { tr_temp_name : bytes; tr_final_name : bytes }.
#[export] Instance TruncateReplacement_eq_dec : EqDecision TruncateReplacement.
Proof using Type. solve_decision. Defined.
Record TruncateIntent : Type := mkTruncateIntent {
  ti_old_segment_names : list bytes; ti_replacement : option TruncateReplacement
}.
#[export] Instance TruncateIntent_eq_dec : EqDecision TruncateIntent.
Proof using Type. solve_decision. Defined.
Record CompactIntent : Type := mkCompactIntent {
  ci_previous_anchor : option RecoveryAnchor; ci_anchor : RecoveryAnchor;
  ci_old_segment_names : list bytes; ci_replacement : option TruncateReplacement
}.

(** [Path::components]: a separator ends a component, empty ones and a [.] that is not
    the first are skipped. *)
Fixpoint split_path (l : bytes) : list bytes :=
  match l with
  | [] => [[]]
  | Byte.x2f :: l => [] :: split_path l
  | b :: l => match split_path l with [] => [[b]] | part :: parts => (b :: part) :: parts end
  end.
Definition single_normal_component (name : bytes) : bool :=
  match split_path name with
  | first :: rest =>
      negb (eqb first [] || eqb first (lit ".") || eqb first (lit ".."))
      && forallb (λ part, eqb part [] || eqb part (lit ".")) rest
  | [] => false
  end.
Definition validate_relative_name (name : bytes) : result Error () :=
  reject_if ((blen name =? 0)%N || negb (single_normal_component name))
    (Decode "unsafe truncate intent path").
Definition validate_closed_segment_name (name : bytes) : result Error () :=
  _ ← validate_relative_name name;
  range ← parse_closed_segment_name name;
  reject_if (neqb (segment_file_name range) name) (Decode "non-canonical truncate segment name").
Definition validate_temp_name (name : bytes) : result Error () :=
  _ ← validate_relative_name name;
  reject_if (negb (bool_decide (head name = Some Byte.x2e)) || eqb (strip_suffix (lit ".tmp") name) None)
    (Decode "invalid truncate temp name").

(** The names are closed segments, without repetition. *)
Fixpoint validate_old_names (earlier names : list bytes) (duplicate : string) : result Error () :=
  match names with
  | [] => Ok ()
  | name :: names =>
      _ ← validate_closed_segment_name name;
      _ ← reject_if (bool_decide (name ∈ earlier)) (Decode duplicate);
      validate_old_names (earlier ++ [name]) names duplicate
  end.

Definition validate_truncate_intent (intent : TruncateIntent) : result Error () :=
  _ ← reject_if (eqb (length (ti_old_segment_names intent)) 0) (Decode "truncate intent has no old segments");
  _ ← validate_old_names [] (ti_old_segment_names intent) "duplicate truncate segment name";
  match ti_replacement intent with
  | Some replacement =>
      _ ← validate_temp_name (tr_temp_name replacement);
      _ ← validate_closed_segment_name (tr_final_name replacement);
      reject_if (bool_decide (tr_final_name replacement ∈ ti_old_segment_names intent))
        (Decode "truncate replacement overlaps old segment name")
  | None => Ok ()
  end.

Definition validate_compact_intent (intent : CompactIntent) : result Error () :=
  let anchor := ci_anchor intent in
  _ ← validate_anchor anchor;
  _ ← reject_if (eqb (length (ci_old_segment_names intent)) 0) (Decode "compact intent has no old segments");
  _ ← match ci_previous_anchor intent with
      | Some previous =>
          _ ← validate_anchor previous;
          reject_if (neqb (ra_cluster_id previous) (ra_cluster_id anchor)
                     || neqb (ra_epoch previous) (ra_epoch anchor)
                     || neqb (ra_recovery_generation previous) (ra_recovery_generation anchor)
                     || (la_index (ra_compacted anchor) <=? la_index (ra_compacted previous))%N)
            (Decode "compact intent anchor regression or conflict")
      | None => Ok ()
      end;
  _ ← validate_old_names [] (ci_old_segment_names intent) "duplicate compact segment name";
  match ci_replacement intent with
  | Some replacement =>
      _ ← validate_temp_name (tr_temp_name replacement);
      _ ← validate_closed_segment_name (tr_final_name replacement);
      _ ← reject_if (bool_decide (tr_final_name replacement ∈ ci_old_segment_names intent))
            (Decode "compact replacement overlaps old segment name");
      replacement_range ← parse_closed_segment_name (tr_final_name replacement);
      next ← ok_or (checked_add (la_index (ra_compacted anchor)) 1) (Decode "compact anchor index overflow");
      reject_if (neqb (ir_start replacement_range) next)
        (Decode "compact replacement does not start after anchor")
  | None => Ok ()
  end.

Definition encode_replacement (replacement : option TruncateReplacement) : result Error bytes :=
  match replacement with
  | Some replacement =>
      temp ← put_intent_name (tr_temp_name replacement);
      final ← put_intent_name (tr_final_name replacement);
      Ok (temp ++ final)
  | None => Ok []
  end.
Definition flag_when (b : bool) (flag : N) : N := if b then flag else 0%N.

Definition encode_truncate_intent (intent : TruncateIntent) : result Error bytes :=
  _ ← validate_truncate_intent intent;
  let n := N.of_nat (length (ti_old_segment_names intent)) in
  _ ← reject_if (u32_max <? n)%N (Decode "too many truncate segments");
  names ← collect put_intent_name (ti_old_segment_names intent);
  replacement ← encode_replacement (ti_replacement intent);
  let out := TRUNCATE_INTENT_MAGIC ++ put_u16 TRUNCATE_INTENT_VERSION
    ++ put_u16 (flag_when (neqb (ti_replacement intent) None) TRUNCATE_INTENT_REPLACEMENT)
    ++ put_u32 n ++ concat names ++ replacement in
  Ok (out ++ put_u32 (crc32c out)).

Definition decode_replacement (present : bool) (end_ : N) : reader Error (option TruncateReplacement) :=
  λ l cursor,
  if present then
    '(temp_name, cursor) ← read_intent_name end_ l cursor;
    '(final_name, cursor) ← read_intent_name end_ l cursor;
    Ok (Some (mkTruncateReplacement temp_name final_name), cursor)
  else Ok (None, cursor).
(** [flags & !allowed != 0] and [flags & flag != 0] *)
Definition other_flags (flags allowed : N) : bool := neqb (N.ldiff flags allowed) 0%N.
Definition has_flag (flags flag : N) : bool := neqb (N.land flags flag) 0%N.

Definition decode_truncate_intent (l : bytes) : result Error TruncateIntent :=
  _ ← reject_if ((blen l <? 16)%N || neqb (slice l 0 4) (Some TRUNCATE_INTENT_MAGIC))
        (Decode "invalid truncate intent magic");
  let crc_offset := (blen l - 4)%N in
  expected_crc ← read_u32 l crc_offset;
  _ ← reject_if (neqb (crc32c (index_range l 0 crc_offset)) expected_crc)
        (Decode "truncate intent crc mismatch");
  version ← read_u16 l 4;
  _ ← reject_if (neqb version TRUNCATE_INTENT_VERSION) (Decode "unsupported truncate intent version");
  flags ← read_u16 l 6;
  _ ← reject_if (other_flags flags TRUNCATE_INTENT_REPLACEMENT) (Decode "invalid truncate intent flags");
  count ← read_u32 l 8;
  '(old_segment_names, cursor) ← read_many (read_intent_name crc_offset) (N.to_nat count) l 12%N;
  '(replacement, cursor) ←
    decode_replacement (has_flag flags TRUNCATE_INTENT_REPLACEMENT) crc_offset l cursor;
  _ ← reject_if (neqb cursor crc_offset) (Decode "trailing truncate intent bytes");
  let intent := mkTruncateIntent old_segment_names replacement in
  _ ← validate_truncate_intent intent;
  Ok intent.

Definition encode_compact_intent (intent : CompactIntent) : result Error bytes :=
  _ ← validate_compact_intent intent;
  let flags := (flag_when (neqb (ci_previous_anchor intent) None) COMPACT_INTENT_PREVIOUS_ANCHOR
                + flag_when (neqb (ci_replacement intent) None) COMPACT_INTENT_REPLACEMENT)%N in
  let n := N.of_nat (length (ci_old_segment_names intent)) in
  _ ← reject_if (u32_max <? n)%N (Decode "too many compact segments");
  anchor ← encode_anchor (ci_anchor intent);
  anchor ← put_blob anchor "compact anchor";
  previous ← match ci_previous_anchor intent with
             | Some previous => p ← encode_anchor previous; put_blob p "compact previous anchor"
             | None => Ok []
             end;
  names ← collect put_intent_name (ci_old_segment_names intent);
  replacement ← encode_replacement (ci_replacement intent);
  let out := COMPACT_INTENT_MAGIC ++ put_u16 COMPACT_INTENT_VERSION ++ put_u16 flags ++ put_u32 n
    ++ anchor ++ previous ++ concat names ++ replacement in
  Ok (out ++ put_u32 (crc32c out)).

Definition decode_compact_intent (l : bytes) : result Error CompactIntent :=
  _ ← reject_if ((blen l <? 20)%N || neqb (slice l 0 4) (Some COMPACT_INTENT_MAGIC))
        (Decode "invalid compact intent magic");
  let crc_offset := (blen l - 4)%N in
  expected_crc ← read_u32 l crc_offset;
  _ ← reject_if (neqb (crc32c (index_range l 0 crc_offset)) expected_crc)
        (Decode "compact intent crc mismatch");
  version ← read_u16 l 4;
  _ ← reject_if (neqb version COMPACT_INTENT_VERSION) (Decode "unsupported compact intent version");
  flags ← read_u16 l 6;
  _ ← reject_if (other_flags flags (COMPACT_INTENT_PREVIOUS_ANCHOR + COMPACT_INTENT_REPLACEMENT))
        (Decode "invalid compact intent flags");
  count ← read_u32 l 8;
  '(anchor, cursor) ← read_blob "compact anchor" crc_offset l 12%N;
  anchor ← decode_anchor anchor;
  '(previous_anchor, cursor) ←
    (if has_flag flags COMPACT_INTENT_PREVIOUS_ANCHOR then
       '(previous, cursor) ← read_blob "compact previous anchor" crc_offset l cursor;
       previous ← decode_anchor previous; Ok (Some previous, cursor)
     else Ok (None, cursor));
  '(old_segment_names, cursor) ← read_many (read_intent_name crc_offset) (N.to_nat count) l cursor;
  '(replacement, cursor) ←
    decode_replacement (has_flag flags COMPACT_INTENT_REPLACEMENT) crc_offset l cursor;
  _ ← reject_if (neqb cursor crc_offset) (Decode "trailing compact intent bytes");
  let intent := mkCompactIntent previous_anchor anchor old_segment_names replacement in
  _ ← validate_compact_intent intent;
  Ok intent.

End anchors.

(** ** Reading back *)

(** [reads_to rd enc a]: a reader that stops at a bound reads [enc] as [a] wherever
    [enc] stands before the bound. *)
Definition reads_to {A} (rd : N → reader Error A) (enc : bytes) (a : A) : Prop :=
  ∀ end_ l c rest, at_pos l c (enc ++ rest) → (c + blen enc ≤ end_ ≤ blen l)%N → (blen l ≤ u64_max)%N →
    rd end_ l c = Ok (a, c + blen enc)%N.

Lemma next_within_Ok end_ c n : (c + n ≤ end_ ≤ u64_max)%N → next_within end_ c n = Ok (c + n)%N.
Proof.
  intros Hn. unfold next_within.
  assert (checked_add c n = Some (c + n)%N) as -> by (apply checked_add_Some; lia).
  cbn [ok_or mbind result_bind]. destruct (N.ltb_spec end_ (c + n)); [lia|done].
Qed.

Lemma reads_to_u8 b : reads_to read_state_u8 [b] b.
Proof.
  intros end_ l c rest Hat Hend Hl. unfold read_state_u8. rewrite (at_pos_byte _ _ _ _ Hat).
  change (blen [b]) with 1%N in *. cbn [ok_or mbind result_bind]. by destruct (N.leb_spec end_ c); [lia|].
Qed.
Lemma reads_to_u16 n : (n < 2 ^ 16)%N → reads_to read_state_u16 (put_u16 n) n.
Proof.
  intros Hn end_ l c rest Hat Hend Hl. rewrite blen_put_u16 in *. unfold read_state_u16.
  rewrite next_within_Ok by lia. cbn [mbind result_bind]. apply at_pos_slice in Hat. rewrite blen_put_u16 in Hat.
  by rewrite (field_u16 l c n).
Qed.
Lemma reads_to_u64 n : is_u64 n = true → reads_to read_state_u64 (put_u64 n) n.
Proof.
  intros Hn end_ l c rest Hat Hend Hl. rewrite blen_put_u64 in *. unfold read_state_u64.
  rewrite next_within_Ok by lia. cbn [mbind result_bind]. apply at_pos_slice in Hat. rewrite blen_put_u64 in Hat.
  by rewrite (field_u64 l c n).
Qed.
Lemma reads_to_hash h : reads_to read_state_hash (as_bytes h) h.
Proof.
  intros end_ l c rest Hat Hend Hl. rewrite blen_as_bytes in *. unfold read_state_hash.
  rewrite next_within_Ok by lia. cbn [mbind result_bind]. apply at_pos_slice in Hat. rewrite blen_as_bytes in Hat.
  by rewrite (field_hash l c h).
Qed.

(** A name that [put_intent_name] and [put_string] accept and UTF-8 readers return. *)
Definition name_ok (name : bytes) : bool := is_str name && (blen name <=? u16_max)%N.

Definition string_bytes (m : bytes) : bytes := put_u16 (blen m) ++ m.

Lemma put_string_ok name field : name_ok name = true → put_string name field = Ok (string_bytes name).
Proof.
  unfold name_ok, put_string. intros Hn. bool_prop. destruct Hn as [_ Hn].
  by destruct (N.ltb_spec u16_max (blen name)); [lia|].
Qed.

Lemma reads_to_name name :
  name_ok name = true → reads_to read_intent_name (string_bytes name) name.
Proof.
  unfold string_bytes.
  intros Hn end_ l c rest Hat Hend Hl. unfold name_ok, u16_max in Hn. bool_prop. destruct Hn as [Hstr Hlen].
  rewrite <-app_assoc in Hat. rewrite blen_app, blen_put_u16 in *. unfold read_intent_name.
  pose proof (at_pos_slice _ _ _ _ Hat) as Hs. rewrite blen_put_u16 in Hs.
  rewrite (field_u16 l c (blen name) Hs) by lia. cbn [mbind result_bind].
  assert (checked_add c 2 = Some (c + 2)%N) as -> by (apply checked_add_Some; lia). cbn [ok_or mbind result_bind].
  assert (checked_add (c + 2) (blen name) = Some (c + 2 + blen name)%N) as -> by (apply checked_add_Some; lia).
  cbn [ok_or mbind result_bind]. destruct (N.ltb_spec end_ (c + 2 + blen name)); [lia|].
  cbn [reject_if mbind result_bind]. apply at_pos_step in Hat. rewrite blen_put_u16 in Hat.
  rewrite (index_range_Some _ _ _ _ (at_pos_slice _ _ _ _ Hat)).
  unfold from_utf8. rewrite Hstr. cbn [mbind result_bind]. do 2 f_equal. lia.
Qed.

Lemma reads_to_string name field :
  name_ok name = true → name ≠ [] →
  reads_to (read_string field) (string_bytes name) name.
Proof.
  intros Hn Hne end_ l c rest Hat Hend Hl. unfold read_string.
  rewrite (reads_to_name name Hn end_ l c rest Hat Hend Hl). cbn [mbind result_bind].
  destruct (N.eqb_spec (blen name) 0) as [Hz|]; [|done]. destruct name; [done|rewrite blen_cons in Hz; lia].
Qed.

Lemma reads_to_many {A} (rd : N → reader Error A) (enc : A → bytes) (xs : list A) :
  Forall (λ x, reads_to rd (enc x) x) xs →
  reads_to (λ end_, read_many (rd end_) (length xs)) (concat (enc <$> xs)) xs.
Proof.
  induction 1 as [|x xs Hx Hxs IH]; intros end_ l c rest Hat Hend Hl; cbn [length read_many fmap list_fmap concat].
  { by rewrite N.add_0_r. }
  cbn [fmap list_fmap concat] in *. rewrite <-app_assoc in Hat. rewrite blen_app in *.
  rewrite (Hx end_ l c _ Hat) by lia. cbn [mbind result_bind]. apply at_pos_step in Hat.
  rewrite (IH end_ l _ rest Hat) by lia. cbn [mbind result_bind]. do 2 f_equal. lia.
Qed.

Lemma at_pos_blen l c m : at_pos l c m → blen l = (c + blen m)%N.
Proof. intros (p & -> & ->). apply blen_app. Qed.

Lemma reads_to_step {A B} (rd : N → reader Error A) enc a rest end_ l c (k : A → N → result Error B) :
  at_pos l c (enc ++ rest) → reads_to rd enc a → (end_ ≤ blen l ≤ end_ + blen rest)%N → (blen l ≤ u64_max)%N →
  (rd end_ l c ≫= λ '(a', c'), k a' c') = k a (c + blen enc)%N.
Proof.
  intros Hat Hr Hend Hl. pose proof (at_pos_blen _ _ _ Hat) as Hb. rewrite blen_app in Hb.
  rewrite (Hr end_ l c rest Hat) by lia. done.
Qed.

(** [read_to] runs the next bounded reader on a buffer whose layout is known. *)
Ltac read_to :=
  match goal with
  | Hat : at_pos ?l ?c (?enc ++ ?rest), Hl : (blen ?l ≤ u64_max)%N |- _ =>
      etransitivity;
      [eapply (reads_to_step _ enc _ rest _ l c);
       [exact Hat|solve [eauto with codec]|rewrite ?blen_app in *; lia|exact Hl]|];
      apply at_pos_step in Hat; cbn beta iota
  end.
#[export] Hint Resolve reads_to_u8 reads_to_u16 reads_to_u64 reads_to_hash reads_to_name reads_to_string : codec.

Section reading.
Context `{Sha256}.

(** What a stop binding must satisfy to be written. *)
Definition binding_wf (b : StopBinding) : Prop :=
  match b with Bound s _ => successor_wf s | _ => True end.
Definition state_wf (s : ConfigurationState) : Prop :=
  is_u64 (cs_config_id s) = true
  ∧ match s with Active _ _ => True | Stopped _ _ stop b => is_u64 (la_index stop) = true ∧ binding_wf b end.

Definition descriptor_bytes (s : SuccessorDescriptor) : bytes :=
  string_bytes (sd_cluster_id s) ++ put_u64 (sd_predecessor_config_id s)
  ++ as_bytes (sd_predecessor_config_digest s) ++ put_u64 (sd_config_id s) ++ as_bytes (sd_config_digest s)
  ++ put_u16 (N.of_nat (length (sd_members s))) ++ concat (string_bytes <$> sd_members s).

Lemma wf_names s :
  successor_wf s →
  (name_ok (sd_cluster_id s) = true ∧ sd_cluster_id s ≠ [])
  ∧ Forall (λ m, name_ok m = true ∧ m ≠ []) (sd_members s).
Proof.
  intros (Hs & Hc & _ & _ & Hms & _). unfold name_ok.
  assert (∀ m, is_str m = true ∧ (0 < blen m ≤ u16_max)%N → is_str m && (blen m <=? u16_max)%N = true ∧ m ≠ []) as Hm.
  { intros m [H1 H2]. split; [rewrite H1; apply N.leb_le; lia|]. intros ->. rewrite blen_nil in H2. lia. }
  split; [by apply Hm|]. eapply Forall_impl; [exact Hms|]. exact Hm.
Qed.

Lemma encode_descriptor_Ok s : successor_wf s → encode_successor_descriptor s = Ok (descriptor_bytes s).
Proof.
  intros Hwf. destruct (wf_names s Hwf) as [[Hc _] Hms]. unfold encode_successor_descriptor.
  rewrite put_string_ok by done. cbn [mbind result_bind].
  assert (collect (λ m, put_string m "successor member") (sd_members s) = Ok (string_bytes <$> sd_members s)) as ->.
  { apply collect_Ok. induction Hms as [|m ms [Hm _] _ IH]; constructor; [by apply put_string_ok|done]. }
  done.
Qed.

Definition binding_bytes (b : StopBinding) : bytes :=
  match b with
  | Unknown => [Byte.x00] | Unbound => [Byte.x01]
  | Bound s h => [Byte.x02] ++ descriptor_bytes s ++ as_bytes h
  end.

Lemma reads_to_binding b : binding_wf b → reads_to decode_stop_binding (binding_bytes b) b.
Proof.
  intros Hwf end_ l c rest Hat Hend Hl. unfold decode_stop_binding.
  assert (end_ ≤ blen l ≤ end_ + blen rest)%N as Hb by (apply at_pos_blen in Hat; rewrite blen_app in Hat; lia).
  clear Hend. destruct b as [| |s h]; cbn [binding_bytes] in *; [read_to; done..|].
  destruct (wf_names s Hwf) as [[Hcn Hcne] Hms]. pose proof (successor_wf_lengths s Hwf) as (Hn & _ & Hi & Hp).
  unfold descriptor_bytes in *. rewrite <-!app_assoc in Hat.
  assert (∀ m, In m (sd_members s) → reads_to (read_string "successor member") (string_bytes m) m) as Hrm.
  { intros m Hm. rewrite Forall_forall in Hms. apply list_elem_of_In, Hms in Hm as [? ?]. by apply reads_to_string. }
  assert (reads_to (λ end_, read_many (read_string "successor member" end_) (length (sd_members s)))
    (concat (string_bytes <$> sd_members s)) (sd_members s)) as Hmany.
  { apply (reads_to_many (read_string "successor member")), Forall_forall.
    intros m Hm. by apply Hrm, list_elem_of_In. }
  assert (N.of_nat (length (sd_members s)) < 2 ^ 16)%N by lia. do 7 read_to.
  rewrite Nat2N.id.
  etransitivity; [eapply (reads_to_step (λ end_, read_many (read_string "successor member" end_) (length (sd_members s))));
    [exact Hat|exact Hmany|rewrite ?blen_app in *; lia|exact Hl]|].
  apply at_pos_step in Hat. cbn beta iota. rewrite successor_wf_new by done. cbn [map_err mbind result_bind].
  rewrite neqb_refl. cbn [reject_if mbind result_bind]. read_to.
  do 2 f_equal. rewrite !blen_app. lia.
Qed.

Definition state_bytes (s : ConfigurationState) : bytes :=
  match s with
  | Active _ d => [Byte.x01] ++ as_bytes d
  | Stopped _ d stop b =>
      [Byte.x02] ++ as_bytes d ++ put_u64 (la_index stop) ++ as_bytes (la_hash stop) ++ binding_bytes b
  end.

Lemma encode_state_Ok s : state_wf s → encode_configuration_state s = Ok (state_bytes s).
Proof.
  unfold state_wf. destruct s as [i d|i d stop b]; cbn [encode_configuration_state state_bytes]; [done|].
  intros (_ & _ & Hb). destruct b as [| |s h]; [done..|]. cbn [binding_wf] in Hb.
  rewrite encode_descriptor_Ok by done. done.
Qed.

Lemma reads_to_state s :
  state_wf s → reads_to (decode_configuration_state (cs_config_id s) ANCHOR_VERSION) (state_bytes s) s.
Proof.
  intros (Hi & Hs) end_ l c rest Hat Hend Hl. unfold decode_configuration_state.
  assert (end_ ≤ blen l ≤ end_ + blen rest)%N as Hb by (apply at_pos_blen in Hat; rewrite blen_app in Hat; lia).
  clear Hend. destruct s as [i d|i d stop b]; cbn [state_bytes] in *; rewrite <-!app_assoc in Hat.
  - do 2 read_to. cbn [cs_config_id]. do 2 f_equal. rewrite blen_app. lia.
  - destruct Hs as [Hst Hbw]. pose proof (reads_to_binding b Hbw). do 4 read_to. rewrite eqb_refl. read_to.
    destruct stop as [si sh]. cbn [cs_config_id la_index la_hash]. do 2 f_equal. rewrite !blen_app. lia.
Qed.
Hint Resolve reads_to_state : codec.

Lemma state_bytes_size s : state_wf s → (blen (state_bytes s) ≤ 700000)%N.
Proof.
  unfold state_wf. destruct s as [i d|i d stop b]; cbn [state_bytes].
  { intros _. rewrite blen_app, blen_as_bytes. change (blen [Byte.x01]) with 1%N. lia. }
  intros (_ & _ & Hb). rewrite !blen_app, !blen_as_bytes, blen_put_u64. change (blen [Byte.x02]) with 1%N.
  enough (blen (binding_bytes b) ≤ 600000)%N by lia. destruct b as [| |s h]; [done..|].
  cbn [binding_bytes binding_wf] in *. pose proof (successor_wf_lengths s Hb) as (_ & Hn & _).
  destruct Hb as (_ & Hc & _ & _ & Hms%members_size & _). unfold u16_max in Hc.
  change (blen (concat (string_bytes <$> sd_members s)) ≤ N.of_nat (length (sd_members s)) * 65537)%N in Hms.
  unfold descriptor_bytes. rewrite !blen_app, !blen_as_bytes, !blen_put_u64, blen_put_u16.
  unfold string_bytes at 1. rewrite blen_app, blen_put_u16. change (blen [Byte.x02]) with 1%N. lia.
Qed.

(** *** The fixed part *)

Definition fingerprint_bytes (a : RecoveryAnchor) : list bytes :=
  match si_executor_fingerprint (ra_snapshot a) with
  | Some f => [[Byte.x01]; as_bytes f]
  | None => [[Byte.x00]; as_bytes LogHash_ZERO]
  end.
Definition anchor_file_version (a : RecoveryAnchor) : N :=
  if eqb (ra_format_version a) RECOVERY_ANCHOR_V1_FORMAT_VERSION then ANCHOR_V1_VERSION else ANCHOR_VERSION.
Definition anchor_parts (a : RecoveryAnchor) : list bytes :=
  [ANCHOR_MAGIC; put_u16 (anchor_file_version a); put_u16 0; put_u64 (ra_epoch a); put_u64 (ra_config_id a);
   put_u64 (ra_recovery_generation a); put_u64 (la_index (ra_compacted a)); as_bytes (la_hash (ra_compacted a));
   as_bytes (si_digest (ra_snapshot a)); put_u64 (si_size_bytes (ra_snapshot a))] ++ fingerprint_bytes a.

Lemma anchor_fixed_parts a : anchor_fixed a = concat (anchor_parts a).
Proof.
  unfold anchor_fixed, anchor_parts, fingerprint_bytes, anchor_file_version.
  destruct (si_executor_fingerprint _); cbn [concat app]; by rewrite ?app_nil_r, <-?app_assoc.
Qed.
Lemma blen_anchor_fixed a : blen (anchor_fixed a) = 145%N.
Proof.
  unfold anchor_fixed. rewrite !blen_app, !blen_put_u16, !blen_put_u64, !blen_as_bytes.
  by destruct (si_executor_fingerprint _); rewrite blen_cons, blen_as_bytes.
Qed.

Lemma anchor_field a rest i m x y :
  anchor_parts a !! i = Some m → x = blen (concat (take i (anchor_parts a))) → y = (x + blen m)%N →
  slice (anchor_fixed a ++ rest) x y = Some m.
Proof.
  intros Hi -> ->. apply (slice_shift [] (anchor_fixed a) rest). rewrite anchor_fixed_parts. by eapply slice_part.
Qed.
Ltac anchor_at i :=
  eapply (anchor_field _ _ i);
  [reflexivity
  |cbn [take anchor_parts app concat];
   rewrite ?blen_app, ?blen_put_u16, ?blen_put_u64, ?blen_as_bytes; reflexivity
  |rewrite ?blen_put_u16, ?blen_put_u64, ?blen_as_bytes; reflexivity].

(** The widths of an anchor's numbers and the forms of its strings. *)
Definition anchor_fits (a : RecoveryAnchor) : bool :=
  is_u64 (ra_epoch a) && is_u64 (ra_config_id a) && is_u64 (ra_recovery_generation a)
  && is_u64 (la_index (ra_compacted a)) && is_u64 (si_size_bytes (ra_snapshot a))
  && name_ok (ra_cluster_id a) && name_ok (si_snapshot_id (ra_snapshot a)).

(** The checks that come before the strings. *)
Lemma anchor_prologue a rest :
  let out := anchor_fixed a ++ rest in
  let l := out ++ put_u32 (crc32c out) in
  (blen l <? 120)%N || neqb (slice l 0 4) (Some ANCHOR_MAGIC) = false
  ∧ read_u32 l (blen l - 4) = Ok (crc32c (index_range l 0 (blen l - 4)))
  ∧ read_u16 l 4 = Ok (anchor_file_version a) ∧ read_u16 l 6 = Ok 0%N.
Proof.
  intros out l. assert (blen l = blen out + 4)%N as Hl by (unfold l; by rewrite blen_app, blen_put_u32).
  assert (145 ≤ blen out)%N by (unfold out; rewrite blen_app, blen_anchor_fixed; lia).
  assert (l = anchor_fixed a ++ (rest ++ put_u32 (crc32c out))) as Hl' by (unfold l, out; by rewrite <-app_assoc).
  split_and!.
  - destruct (N.ltb_spec (blen l) 120); [lia|]. apply neqb_false. rewrite Hl'. anchor_at 0.
  - replace (blen l - 4)%N with (blen out) by lia.
    rewrite (index_range_Some l 0 (blen out) out) by (apply slice_prefix).
    apply field_u32; [|apply crc32c_bound]. apply (slice_at l out _ []); [unfold l; by rewrite app_nil_r|done|by rewrite blen_put_u32].
  - rewrite Hl'. apply field_u16; [anchor_at 1|]. unfold anchor_file_version. by destruct (eqb _ _).
  - rewrite Hl'. apply field_u16; [anchor_at 2|done].
Qed.

Lemma anchor_fingerprint a rest :
  let l := anchor_fixed a ++ rest in
  read_hash l 113 = Ok (default LogHash_ZERO (si_executor_fingerprint (ra_snapshot a)))
  ∧ byte_at l 112 = Some (if si_executor_fingerprint (ra_snapshot a) then Byte.x01 else Byte.x00).
Proof.
  intros l. assert (∀ m h, fingerprint_bytes a = [[m]; as_bytes h] →
    slice l 112 113 = Some [m] ∧ slice l 113 145 = Some (as_bytes h)) as Hf.
  { intros m h Hm. split; eapply (anchor_field a rest).
    - unfold anchor_parts. rewrite Hm. exact (eq_refl : _ !! 10 = _).
    - by destruct (si_executor_fingerprint (ra_snapshot a)); cbn [take anchor_parts app concat];
        rewrite !blen_app, !blen_put_u16, !blen_put_u64, !blen_as_bytes.
    - done.
    - unfold anchor_parts. rewrite Hm. exact (eq_refl : _ !! 11 = _).
    - cbn [take anchor_parts app concat]. rewrite Hm. cbn [take app concat].
      by rewrite !blen_app, !blen_put_u16, !blen_put_u64, !blen_as_bytes.
    - by rewrite blen_as_bytes. }
  unfold fingerprint_bytes in Hf. destruct (si_executor_fingerprint (ra_snapshot a)) as [f|];
    destruct (Hf _ _ eq_refl) as [H1 H2]; (split; [by apply field_hash|by apply field_byte]).
Qed.

(** What is needed of an anchor to write it and read it back. *)
Record anchor_wf (a : RecoveryAnchor) : Prop := {
  aw_version : ra_format_version a = RECOVERY_ANCHOR_FORMAT_VERSION;
  aw_valid : validate_anchor a = Ok ();
  aw_fits : anchor_fits a = true;
  aw_state : state_wf (ra_configuration_state a)
}.

Lemma anchor_reads (a : RecoveryAnchor) :
  anchor_wf a → ∃ l, encode_anchor a = Ok l ∧ decode_anchor l = Ok a ∧ (blen l ≤ 2 ^ 20)%N.
Proof.
  intros [Hv Hval Hfit Hst]. unfold anchor_fits in Hfit. bool_prop.
  destruct Hfit as [[[[[[He Hc] Hg] Hi] Hsz] Hcn] Hsn].
  pose proof (state_bytes_size _ Hst) as Hssz.
  set (rest := state_bytes (ra_configuration_state a) ++ string_bytes (ra_cluster_id a)
    ++ string_bytes (si_snapshot_id (ra_snapshot a))).
  destruct (anchor_prologue a rest) as (Hp1 & Hp2 & Hp3 & Hp4).
  set (out := anchor_fixed a ++ rest) in *. exists (out ++ put_u32 (crc32c out)). split; [|split].
  { unfold encode_anchor. rewrite Hval, Hv, eqb_refl. cbn [mbind result_bind].
    rewrite encode_state_Ok, !put_string_ok by done. done. }
  2:{ unfold out, rest, string_bytes, name_ok, u16_max in *. bool_prop.
      rewrite !blen_app, blen_anchor_fixed, !blen_put_u16, blen_put_u32. lia. }
  set (l := out ++ put_u32 (crc32c out)) in *.
  assert (anchor_file_version a = ANCHOR_VERSION) as Hav by (unfold anchor_file_version; by rewrite Hv).
  unfold decode_anchor. rewrite Hp1. cbn [reject_if mbind result_bind]. cbv zeta.
  rewrite Hp2. cbn [mbind result_bind]. rewrite neqb_refl. cbn [reject_if mbind result_bind].
  rewrite Hp3. cbn [mbind result_bind]. rewrite Hp4. cbn [mbind result_bind]. rewrite Hav.
  change (negb _ || _) with false. change (eqb ANCHOR_VERSION ANCHOR_V3_VERSION || eqb ANCHOR_VERSION ANCHOR_VERSION) with true.
  change (neqb ANCHOR_VERSION ANCHOR_V1_VERSION) with true. change (eqb ANCHOR_VERSION ANCHOR_V1_VERSION) with false.
  cbn [reject_if mbind result_bind]. cbv iota.
  set (tail := rest ++ put_u32 (crc32c out)). assert (l = anchor_fixed a ++ tail) as Hl' by (unfold l, out; by rewrite <-app_assoc).
  destruct (anchor_fingerprint a tail) as [Hf1 Hf2]. rewrite <-Hl' in Hf1, Hf2. rewrite Hf1, Hf2.
  cbn [ok_or mbind result_bind].
  match goal with |- (?x ≫= _) = _ => assert (x = Ok (si_executor_fingerprint (ra_snapshot a))) as -> end.
  { destruct (si_executor_fingerprint (ra_snapshot a)); [done|]. cbn [default]. by rewrite eqb_refl. }
  cbn [mbind result_bind].
  assert (∀ i n x, anchor_parts a !! i = Some (put_u64 n) → x = blen (concat (take i (anchor_parts a))) →
    is_u64 n = true → read_u64 l x = Ok n) as Hu.
  { intros i n x Hin -> Hn. apply field_u64; [|done]. rewrite Hl'. eapply (anchor_field _ _ i); [done|done|by rewrite blen_put_u64]. }
  rewrite (Hu 4 (ra_config_id a) 16%N eq_refl eq_refl Hc). cbn [mbind result_bind].
  pose proof Hval as Hval'. unfold validate_anchor in Hval'.
  apply bind_Ok_inv in Hval' as ([] & _ & Hval'). apply bind_Ok_inv in Hval' as ([] & Hid & Hcs).
  apply reject_if_Ok in Hid, Hcs. bool_prop. destruct Hid as [[[[Hc0 _] _] Hs0] _]. destruct Hcs as [Hcs _].
  assert (at_pos l 145 (state_bytes (ra_configuration_state a) ++ string_bytes (ra_cluster_id a)
    ++ string_bytes (si_snapshot_id (ra_snapshot a)) ++ put_u32 (crc32c out))) as Hat.
  { exists (anchor_fixed a). rewrite blen_anchor_fixed, Hl'. unfold tail, rest. by rewrite <-!app_assoc. }
  pose proof (at_pos_blen _ _ _ Hat) as Hb. rewrite !blen_app, blen_put_u32 in Hb.
  assert (∀ m, name_ok m = true → blen m ≠ 0%N → m ≠ [] ∧ (blen (string_bytes m) ≤ 65537)%N) as Hsm.
  { intros m Hm Hm0. unfold name_ok, u16_max in Hm. bool_prop. unfold string_bytes. rewrite blen_app, blen_put_u16.
    split; [by intros ->|lia]. }
  destruct (Hsm _ Hcn Hc0) as [Hcne Hcl], (Hsm _ Hsn Hs0) as [Hsne Hsl].
  assert (blen l ≤ u64_max)%N as Hl by (unfold u64_max; lia).
  pose proof (blen_put_u32 (crc32c out)) as H4. rewrite <-Hcs. read_to. read_to. read_to.
  apply at_pos_blen in Hat. rewrite Hat, blen_put_u32. rewrite (proj2 (neqb_false _ _)) by lia.
  cbn [reject_if mbind result_bind]. rewrite (Hu 6 (la_index (ra_compacted a)) 32%N eq_refl eq_refl Hi). cbn [mbind result_bind].
  rewrite (field_hash l 40 (la_hash (ra_compacted a))) by (rewrite Hl'; anchor_at 7). cbn [mbind result_bind].
  rewrite (field_hash l 72 (si_digest (ra_snapshot a))) by (rewrite Hl'; anchor_at 8). cbn [mbind result_bind].
  rewrite (Hu 9 (si_size_bytes (ra_snapshot a)) 104%N eq_refl ltac:(cbn [take anchor_parts app concat];
    rewrite !blen_app, !blen_put_u16, !blen_put_u64, !blen_as_bytes; reflexivity) Hsz). cbn [mbind result_bind].
  rewrite (Hu 3 (ra_epoch a) 8%N eq_refl eq_refl He). cbn [mbind result_bind].
  rewrite (Hu 5 (ra_recovery_generation a) 24%N eq_refl eq_refl Hg). cbn [mbind result_bind].
  match goal with |- (validate_anchor ?x ≫= _) = _ => assert (x = a) as -> end.
  { unfold anchor_new_with_configuration. destruct a as [v c e i st g [ki kh] [sid sd ss sf]]. cbn in *. by subst. }
  by rewrite Hval.
Qed.

(** A recovery anchor of the current format reads back: every anchor that
    [validate_anchor] accepts is encoded, and its file decodes to the same anchor,
    with its configuration state, stop binding and executor fingerprint. *)
Theorem anchor_file_roundtrip (a : RecoveryAnchor) :
  ra_format_version a = RECOVERY_ANCHOR_FORMAT_VERSION → validate_anchor a = Ok () →
  anchor_fits a = true → state_wf (ra_configuration_state a) →
  ∃ l, encode_anchor a = Ok l ∧ decode_anchor l = Ok a.
Proof. intros. destruct (anchor_reads a) as (l & ? & ? & _); [done|]. by exists l. Qed.

(** An anchor of the first format cannot be read back: [encode_anchor] writes the
    executor fingerprint for it, which [decode_anchor] does not expect there, so that
    the file of every such anchor without a fingerprint is refused. *)
Theorem v1_anchor_unreadable (a : RecoveryAnchor) (l : bytes) :
  ra_format_version a = RECOVERY_ANCHOR_V1_FORMAT_VERSION →
  si_executor_fingerprint (ra_snapshot a) = None → is_u64 (ra_config_id a) = true →
  encode_anchor a = Ok l →
  decode_anchor l = Err (Decode "anchor cluster_id is empty").
Proof.
  intros Hv Hf Hc Henc. unfold encode_anchor in Henc. rewrite Hv in Henc.
  apply bind_Ok_inv in Henc as ([] & _ & Henc). apply bind_Ok_inv in Henc as (st & Hst & Henc).
  change (eqb RECOVERY_ANCHOR_V1_FORMAT_VERSION RECOVERY_ANCHOR_FORMAT_VERSION) with false in Hst.
  cbv iota in Hst. apply Ok_inj in Hst as <-.
  apply bind_Ok_inv in Henc as (cl & _ & Henc). apply bind_Ok_inv in Henc as (sn & _ & Henc).
  apply Ok_inj in Henc as <-. destruct (anchor_prologue a ([] ++ cl ++ sn)) as (Hp1 & Hp2 & Hp3 & Hp4).
  set (out := anchor_fixed a ++ [] ++ cl ++ sn) in *. set (l := out ++ put_u32 (crc32c out)) in *.
  assert (anchor_file_version a = ANCHOR_V1_VERSION) as Hav by (unfold anchor_file_version; by rewrite Hv).
  unfold decode_anchor. rewrite Hp1. cbn [reject_if mbind result_bind]. cbv zeta.
  rewrite Hp2. cbn [mbind result_bind]. rewrite neqb_refl. cbn [reject_if mbind result_bind].
  rewrite Hp3. cbn [mbind result_bind]. rewrite Hp4. cbn [mbind result_bind]. rewrite Hav.
  change (negb _ || _) with false.
  change (eqb ANCHOR_V1_VERSION ANCHOR_V3_VERSION || eqb ANCHOR_V1_VERSION ANCHOR_VERSION) with false.
  change (neqb ANCHOR_V1_VERSION ANCHOR_V1_VERSION) with false. cbn [reject_if mbind result_bind]. cbv iota.
  assert (l = anchor_fixed a ++ ([] ++ cl ++ sn) ++ put_u32 (crc32c out)) as Hl' by (unfold l, out; by rewrite <-app_assoc).
  rewrite (field_u64 l 16 (ra_config_id a)); [|rewrite Hl'; anchor_at 4|done]. cbn [mbind result_bind].
  unfold read_string, read_intent_name. rewrite (field_u16 l 112 0%N); [| |done].
  2:{ rewrite Hl', anchor_fixed_parts. unfold anchor_parts, fingerprint_bytes. rewrite Hf.
      eapply (slice_at _ (concat (take 10 (anchor_parts a))) _ _); [..|by rewrite blen_put_u16];
        unfold anchor_parts, fingerprint_bytes; rewrite Hf; cbn [take app concat].
      - rewrite <-!app_assoc. reflexivity.
      - rewrite !blen_app, !blen_put_u16, !blen_put_u64, !blen_as_bytes. reflexivity. }
  cbn [mbind result_bind]. change (checked_add 112 2) with (Some 114%N). cbn [ok_or mbind result_bind].
  change (checked_add 114 0) with (Some 114%N). cbn [ok_or mbind result_bind].
  assert (149 ≤ blen l)%N as Hlen.
  { unfold l, out. rewrite !blen_app, blen_anchor_fixed, blen_put_u32. lia. }
  destruct (N.ltb_spec (blen l - 4) 114); [lia|]. cbn [reject_if mbind result_bind].
  unfold index_range. rewrite slice_empty by lia. reflexivity.
Qed.
End reading.

(** ** Concrete anchors *)

(** An anchor at a stop that is bound to a successor. *)
Definition sample_anchor : RecoveryAnchor :=
  anchor_new_with_configuration (lit "cluster-a") 1 sample_stopped 3
    (mkLogAnchor 5 (le_hash sample_stop_entry))
    (mkSnapshotIdentity (lit "snapshot-5") LogHash_ZERO 100 (Some (array32_fill Byte.x07))).
Definition sample_v1_anchor : RecoveryAnchor :=
  anchor_from_v1 (lit "cluster-a") 1 1 3 (mkLogAnchor 5 LogHash_ZERO)
    (mkSnapshotIdentity (lit "snapshot-5") LogHash_ZERO 100 None).
Definition sample_v1_file : bytes :=
  Eval vm_compute in match @encode_anchor sample_v1_anchor with Ok l => l | Err _ => [] end.

Lemma anchor_file_roundtrip_witness :
  let h := sample_sha256 in
  ∃ l, encode_anchor sample_anchor = Ok l ∧ decode_anchor l = Ok sample_anchor.
Proof.
  apply (@anchor_file_roundtrip sample_sha256 sample_anchor); [reflexivity|vm_compute; reflexivity..|].
  unfold state_wf. split; [vm_compute; reflexivity|]. cbn. split; [vm_compute; reflexivity|apply sample_successor_wf].
Defined.

Lemma v1_anchor_unreadable_witness :
  let h := sample_sha256 in decode_anchor sample_v1_file = Err (Decode "anchor cluster_id is empty").
Proof.
  apply (@v1_anchor_unreadable sample_sha256 sample_v1_anchor); [reflexivity|reflexivity|vm_compute; reflexivity..].
Defined.
