(* ===== verification/LogStore.v ===== *)
(** * LogStore: the file log store

    Models [FileLogStore] of [crates/rhiza-log/src/lib.rs]: the directory of segment
    files with its recovery anchor and intents, the store that keeps the decoded
    segments in memory, and every operation: opening, appending with the rolling of
    the open segment, reading, truncation of a suffix, compaction of a prefix and
    the installation of an anchor.

    The directory is a map from file names to contents.  File operations succeed.  The
    disk keeps the directories it went through, which are the points at which a crash
    can happen, with every part of a write that a crash may leave; nothing in the code
    reads them.  Locks are held for one operation, and
    syncing changes nothing here. *)

From S2P Require Import Prelude Bytes Text Core ConfigChange ConfigState LogSegment AnchorCodec.
From Stdlib Require Strings.Byte.

(** ** Operations with a state that survives an error *)

Definition st (S A : Type) : Type := S → result Error A * S.
#[export] Instance st_ret {S} : MRet (st S) := λ A a s, (Ok a, s).
#[export] Instance st_bind {S} : MBind (st S) := λ A B f m s,
  match m s with (Ok a, s') => f a s' | (Err e, s') => (Err e, s') end.
Definition get {S} : st S S := λ s, (Ok s, s).
Definition modify {S} (f : S → S) : st S () := λ s, (Ok (), f s).
Definition of_result {S A} (r : result Error A) : st S A := λ s, (r, s).

(** ** The directory *)

Abbreviation files :=
  (@gmap bytes (@list_eq_dec Byte.byte byte_eq_dec) (@list_countable Byte.byte byte_eq_dec byte_countable) bytes).
Record Disk : Type := mkDisk { dk_files : files; dk_past : list files; dk_next_temp : N }.
Abbreviation io := (st Disk).

Definition change (f : files → files) : io () :=
  modify (λ d, mkDisk (f (dk_files d)) (dk_past d ++ [dk_files d]) (dk_next_temp d)).
Definition not_found : Error := Io "No such file or directory".
Definition exists_file (name : bytes) : io bool :=
  d ← get; mret (bool_decide (is_Some (dk_files d !! name))).
Definition read_file (name : bytes) : io bytes :=
  d ← get; of_result (ok_or (dk_files d !! name) not_found).
Definition write_file (name contents : bytes) : io () := change (insert name contents).
(** [write_all] at the end of a file; a crash leaves any part of it. *)
Definition write_all (name data : bytes) : io () :=
  contents ← read_file name;
  modify (λ d, mkDisk (insert name (contents ++ data) (dk_files d))
    (dk_past d ++ ((λ j, insert name (contents ++ take j data) (dk_files d)) <$> seq 0 (length data)))
    (dk_next_temp d)).
Definition remove_file (name : bytes) : io () :=
  _ ← read_file name; change (delete name).
Definition rename_file (from to : bytes) : io () :=
  contents ← read_file from; change (λ f, insert to contents (delete from f)).

(** [Iterator::take_while] *)
Fixpoint take_while {A} (f : A → bool) (l : list A) : list A :=
  match l with [] => [] | x :: l => if f x then x :: take_while f l else [] end.

Section store.
Context `{Sha256} (process_id : N).

Definition temp_name (final_name : bytes) (id : N) : bytes :=
  lit "." ++ final_name ++ lit "." ++ decimal process_id ++ lit "." ++ decimal id ++ lit ".tmp".

(** The counter of temporary files is atomic and wraps around; one more attempt than
    there are files finds a free name. *)
Fixpoint create_unique_loop (fuel : nat) (final_name : bytes) : io bytes :=
  match fuel with
  | O => of_result (Err out_of_fuel)
  | S fuel =>
      d ← get;
      let id := dk_next_temp d in
      let path := temp_name final_name id in
      _ ← modify (λ d, mkDisk (dk_files d) (dk_past d) ((id + 1) mod 2 ^ 64)%N);
      taken ← exists_file path;
      if taken : bool then create_unique_loop fuel final_name
      else _ ← write_file path []; mret path
  end.
Definition create_unique_temp_file (final_name : bytes) : io bytes :=
  d ← get; create_unique_loop (S (size (dk_files d))) final_name.

(** A new file is written beside its place and renamed. *)
Definition install_file (final_name contents : bytes) : io () :=
  temp ← create_unique_temp_file final_name;
  _ ← write_all temp contents;
  rename_file temp final_name.

Definition publish_closed_segment (entries : list LogEntry) : io bytes :=
  first ← of_result (ok_or (head entries) (Decode "cannot write empty segment"));
  last ← of_result (ok_or (last entries) (Decode "cannot write empty segment"));
  range ← of_result (IndexRange_new (le_index first) (le_index last));
  let final := segment_file_name range in
  taken ← exists_file final;
  if taken : bool then of_result (Err (Io "qlog segment already exists"))
  else _ ← install_file final (encode_segment entries); mret final.
Definition write_segment_file (entries : list LogEntry) : io bytes := publish_closed_segment entries.
Definition read_segment_file (name : bytes) : io (list LogEntry) :=
  contents ← read_file name; of_result (decode_segment contents).

(** ** Anchors on disk *)

Definition read_anchor : io (option RecoveryAnchor) :=
  taken ← exists_file ANCHOR_FILE_NAME;
  if taken : bool then
    contents ← read_file ANCHOR_FILE_NAME;
    anchor ← of_result (decode_anchor contents); mret (Some anchor)
  else mret None.

Definition install_anchor (intent : CompactIntent) : io () :=
  current ← read_anchor;
  if eqb current (Some (ci_anchor intent)) then mret ()
  else if neqb current (ci_previous_anchor intent)
  then of_result (Err (CompactionConflict (la_index (ra_compacted (ci_anchor intent)))))
  else
    temp ← create_unique_temp_file ANCHOR_FILE_NAME;
    contents ← of_result (encode_anchor (ci_anchor intent));
    _ ← write_all temp contents;
    rename_file temp ANCHOR_FILE_NAME.

(** ** Intents on disk *)

Definition install_replacement (replacement : option TruncateReplacement) (operation : string) : io () :=
  match replacement with
  | None => mret ()
  | Some replacement =>
      let temp := tr_temp_name replacement in
      let final := tr_final_name replacement in
      temp_exists ← exists_file temp;
      final_exists ← exists_file final;
      match temp_exists : bool, final_exists : bool with
      | true, false => rename_file temp final
      | true, true =>
          temp_bytes ← read_file temp;
          final_bytes ← read_file final;
          if neqb temp_bytes final_bytes
          then of_result (Err (Decode (operation +:+ " replacement files disagree")))
          else remove_file temp
      | false, true => mret ()
      | false, false => of_result (Err (Decode (operation +:+ " replacement file is missing")))
      end
  end.

Definition remove_if_exists (name : bytes) : io () :=
  taken ← exists_file name;
  if taken : bool then remove_file name else mret ().
Fixpoint remove_all (names : list bytes) : io () :=
  match names with
  | [] => mret ()
  | name :: names => _ ← remove_if_exists name; remove_all names
  end.

Definition publish_intent (final_name : bytes) (taken_message : string) (contents : result Error bytes) : io () :=
  taken ← exists_file final_name;
  if taken : bool then of_result (Err (Io taken_message))
  else
    temp ← create_unique_temp_file final_name;
    contents ← of_result contents;
    _ ← write_all temp contents;
    rename_file temp final_name.

Definition publish_truncate_intent (intent : TruncateIntent) : io () :=
  publish_intent TRUNCATE_INTENT_FILE_NAME "truncate intent already exists" (encode_truncate_intent intent).
Definition apply_truncate_intent (intent : TruncateIntent) : io () :=
  _ ← of_result (validate_truncate_intent intent);
  _ ← remove_all (ti_old_segment_names intent);
  _ ← install_replacement (ti_replacement intent) "truncate";
  remove_if_exists TRUNCATE_INTENT_FILE_NAME.
Definition recover_truncate_intent : io () :=
  taken ← exists_file TRUNCATE_INTENT_FILE_NAME;
  if taken : bool then
    contents ← read_file TRUNCATE_INTENT_FILE_NAME;
    intent ← of_result (decode_truncate_intent contents);
    apply_truncate_intent intent
  else mret ().

Definition publish_compact_intent (intent : CompactIntent) : io () :=
  publish_intent COMPACT_INTENT_FILE_NAME "compact intent already exists" (encode_compact_intent intent).
Definition apply_compact_intent (intent : CompactIntent) : io () :=
  _ ← of_result (validate_compact_intent intent);
  _ ← install_anchor intent;
  _ ← remove_all (ci_old_segment_names intent);
  _ ← install_replacement (ci_replacement intent) "compact";
  remove_if_exists COMPACT_INTENT_FILE_NAME.
Definition recover_compact_intent : io () :=
  taken ← exists_file COMPACT_INTENT_FILE_NAME;
  if taken : bool then
    contents ← read_file COMPACT_INTENT_FILE_NAME;
    intent ← of_result (decode_compact_intent contents);
    apply_compact_intent intent
  else mret ().

(** ** Scanning *)

Record ClosedSegment : Type := mkClosed { cs_entries : list LogEntry }.
Record OpenSegment : Type := mkOpen {
  os_config_id : N; os_path : bytes; os_bytes_len : N; os_entries : list LogEntry
}.

(** [expect("non-empty segment")]: a closed segment is never empty. *)
Definition cs_start (s : ClosedSegment) : N := default 0%N (le_index <$> head (cs_entries s)).
Definition cs_end (s : ClosedSegment) : N := default 0%N (le_index <$> last (cs_entries s)).
Definition cs_hash (s : ClosedSegment) : LogHash := default LogHash_ZERO (le_hash <$> last (cs_entries s)).

Definition ends_with (suffix name : bytes) : bool := neqb (strip_suffix suffix name) None.
Definition is_open_name (name : bytes) : bool := ends_with (lit "-open.qlog") name.
Definition is_closed_name (name : bytes) : bool := negb (is_open_name name) && ends_with (lit ".qlog") name.

Definition transition_message (e : ConfigurationTransitionError) : string :=
  "invalid configuration transition: " +:+
  match e with
  | EntryHashMismatch => "EntryHashMismatch"
  | InvalidConfigChange => "InvalidConfigChange"
  | ConfigurationMismatch => "ConfigurationMismatch"
  | InvalidActivation => "InvalidActivation"
  end.
Definition run_entries (state : ConfigurationState) (entries : list LogEntry) : result Error ConfigurationState :=
  map_err (λ e, Decode (transition_message e)) (config_run state entries).

(** Where the first retained entry stands and what it continues. *)
Definition after_anchor (anchor : option RecoveryAnchor) : result Error (N * LogHash) :=
  match anchor with
  | Some anchor =>
      next ← ok_or (checked_add (la_index (ra_compacted anchor)) 1) (Decode "qlog anchor index overflow");
      Ok (next, la_hash (ra_compacted anchor))
  | None => Ok (1%N, LogHash_ZERO)
  end.

Definition scan_closed_segment (cluster_id : bytes) (epoch : N) (anchor : option RecoveryAnchor)
    (dir : files) (scanned : list ClosedSegment * ConfigurationState) (path : IndexRange * bytes) :
    result Error (list ClosedSegment * ConfigurationState) :=
  let '(segments, configuration_state) := scanned in
  let '(range, name) := path in
  contents ← ok_or (dir !! name) not_found;
  entries ← decode_segment_for_cluster contents cluster_id;
  first ← ok_or (head entries) (Decode "closed qlog segment is empty");
  last_ ← ok_or (last entries) (Decode "closed qlog segment is empty");
  _ ← reject_if (neqb (le_index first) (ir_start range) || neqb (le_index last_) (ir_end range))
        (Decode "qlog segment filename range does not match entries");
  _ ← reject_if (neqb (le_epoch first) epoch) (Decode "qlog segment does not match configured epoch");
  _ ← match last segments with
      | None =>
          '(expected_index, expected_prev_hash) ← after_anchor anchor;
          reject_if (neqb (le_index first) expected_index || neqb (le_prev_hash first) expected_prev_hash)
            (Decode "qlog first retained entry does not match recovery anchor")
      | Some previous =>
          _ ← reject_if (neqb (checked_add (cs_end previous) 1) (Some (le_index first)))
                (Decode "qlog index gap across segments");
          reject_if (neqb (le_prev_hash first) (cs_hash previous))
            (Decode "qlog hash chain mismatch across segments")
      end;
  configuration_state ← run_entries configuration_state entries;
  Ok (segments ++ [mkClosed entries], configuration_state).

Definition closed_paths (dir : files) : result Error (list (IndexRange * bytes)) :=
  paths ← collect (λ name, range ← parse_closed_segment_name name; Ok (range, name))
            (filter (λ name, is_closed_name name = true) (map_to_list dir).*1);
  Ok (sort_by (λ path, (ir_start path.1, ir_end path.1)) paths).

Definition scan_closed_segments (cluster_id : bytes) (epoch : N) (initial_configuration : ConfigurationState)
    (anchor : option RecoveryAnchor) (dir : files) : result Error (list ClosedSegment * ConfigurationState) :=
  paths ← closed_paths dir;
  let configuration_state :=
    match anchor with Some anchor => ra_configuration_state anchor | None => initial_configuration end in
  try_fold (scan_closed_segment cluster_id epoch anchor dir) ([], configuration_state) paths.

(** The open segments of a directory in the order of their names. *)
Definition open_names (dir : files) : list bytes :=
  sort_by id (filter (λ name, is_open_name name = true) (map_to_list dir).*1).

(** [recover_open_segment_file] on the disk. *)
Definition recover_open_file (name cluster_id : bytes) : io (list LogEntry) :=
  contents ← read_file name;
  '(entries, kept) ← of_result (recover_open_segment_file name contents cluster_id);
  _ ← (if (blen kept <? blen contents)%N then write_file name kept else mret ());
  mret entries.

Definition expected_after (anchor : option RecoveryAnchor) (segments : list ClosedSegment) :
    result Error (N * LogHash) :=
  match last segments with
  | Some segment =>
      next ← ok_or (checked_add (cs_end segment) 1) (Decode "qlog index overflow");
      Ok (next, cs_hash segment)
  | None => after_anchor anchor
  end.

Definition scan_open_segment (cluster_id : bytes) (epoch : N) (anchor : option RecoveryAnchor)
    (segments : list ClosedSegment) (configuration_state : ConfigurationState) :
    io (option OpenSegment * ConfigurationState) :=
  d ← get;
  let names := open_names (dk_files d) in
  if (1 <? length names) then of_result (Err (Decode "multiple open qlog segments"))
  else match last names with
  | None => mret (None, configuration_state)
  | Some name =>
      start ← of_result (parse_open_segment_name name);
      contents ← read_file name;
      '(header, _) ← of_result (decode_header contents cluster_id);
      _ ← of_result (reject_if (neqb (sh_start_index header) start || neqb (sh_epoch header) epoch)
            (Decode "open qlog filename or epoch does not match header"));
      entries ← recover_open_file name cluster_id;
      match find (λ segment, eqb (cs_start segment) start && eqb (cs_entries segment) entries) segments with
      | Some segment =>
          _ ← of_result (reject_if (neqb (cs_end segment) (default start (le_index <$> last entries)))
                (Decode "open qlog duplicate range mismatch"));
          _ ← remove_file name;
          mret (None, configuration_state)
      | None =>
          '(expected_index, expected_prev_hash) ← of_result (expected_after anchor segments);
          _ ← of_result (reject_if (neqb start expected_index)
                (Decode "open qlog does not start at the retained tip"));
          _ ← of_result match head entries with
                | Some first => reject_if (neqb (le_prev_hash first) expected_prev_hash)
                                  (Decode "qlog hash chain mismatch before open segment")
                | None => Ok ()
                end;
          configuration_state ← of_result (run_entries configuration_state entries);
          contents ← read_file name;
          mret (Some (mkOpen (sh_config_id header) name (blen contents) entries), configuration_state)
      end
  end.

(** ** The store *)

Record FileLogStoreInner : Type := mkStore {
  fs_disk : Disk; fs_cluster_id : bytes; fs_epoch : N;
  fs_initial_configuration : ConfigurationState; fs_configuration_state : ConfigurationState;
  fs_anchor : option RecoveryAnchor; fs_segments : list ClosedSegment;
  fs_open_segment : option OpenSegment
}.
Abbreviation action := (st FileLogStoreInner).

Definition set_disk (d : Disk) (s : FileLogStoreInner) : FileLogStoreInner :=
  mkStore d (fs_cluster_id s) (fs_epoch s) (fs_initial_configuration s) (fs_configuration_state s)
    (fs_anchor s) (fs_segments s) (fs_open_segment s).
Definition set_log (segments : list ClosedSegment) (open : option OpenSegment) (s : FileLogStoreInner) :
    FileLogStoreInner :=
  mkStore (fs_disk s) (fs_cluster_id s) (fs_epoch s) (fs_initial_configuration s) (fs_configuration_state s)
    (fs_anchor s) segments open.
Definition set_open (open : option OpenSegment) (s : FileLogStoreInner) : FileLogStoreInner :=
  set_log (fs_segments s) open s.
Definition set_configuration (c : ConfigurationState) (s : FileLogStoreInner) : FileLogStoreInner :=
  mkStore (fs_disk s) (fs_cluster_id s) (fs_epoch s) (fs_initial_configuration s) c
    (fs_anchor s) (fs_segments s) (fs_open_segment s).
Definition set_anchor (a : option RecoveryAnchor) (s : FileLogStoreInner) : FileLogStoreInner :=
  mkStore (fs_disk s) (fs_cluster_id s) (fs_epoch s) (fs_initial_configuration s) (fs_configuration_state s)
    a (fs_segments s) (fs_open_segment s).

(** A disk operation of the store. *)
Definition on_disk {A} (m : io A) : action A := λ s,
  let '(r, d) := m (fs_disk s) in (r, set_disk d s).

Definition open_entries (s : FileLogStoreInner) : list LogEntry :=
  match fs_open_segment s with Some open => os_entries open | None => [] end.
(** The entries in memory: closed segments, then the open one. *)
Definition all_entries (s : FileLogStoreInner) : list LogEntry :=
  concat (cs_entries <$> fs_segments s) ++ open_entries s.

Definition open_with_configuration (d : Disk) (cluster_id : bytes) (epoch : N)
    (initial_configuration : ConfigurationState) : result Error FileLogStoreInner * Disk :=
  (_ ← of_result (reject_if (blen cluster_id =? 0)%N (Decode "cluster_id must not be empty"));
   _ ← recover_truncate_intent;
   _ ← recover_compact_intent;
   anchor ← read_anchor;
   _ ← of_result (validate_anchor_identity anchor cluster_id epoch);
   d ← get;
   '(segments, configuration_state) ←
     of_result (scan_closed_segments cluster_id epoch initial_configuration anchor (dk_files d));
   '(open_segment, configuration_state) ←
     scan_open_segment cluster_id epoch anchor segments configuration_state;
   d ← get;
   mret (mkStore d cluster_id epoch initial_configuration configuration_state anchor segments open_segment)) d.
Definition open (d : Disk) (cluster_id : bytes) (epoch config_id : N) :
    result Error FileLogStoreInner * Disk :=
  open_with_configuration d cluster_id epoch (active config_id LogHash_ZERO).

Definition last_index (s : FileLogStoreInner) : option N :=
  match last (open_entries s) with
  | Some entry => Some (le_index entry)
  | None =>
      match last (fs_segments s) with
      | Some segment => Some (cs_end segment)
      | None => (λ anchor, la_index (ra_compacted anchor)) <$> fs_anchor s
      end
  end.

Record LogState : Type := mkLogState {
  ls_anchor : option RecoveryAnchor; ls_first_retained_index : N; ls_tip : option LogAnchor
}.
Definition logical_state (s : FileLogStoreInner) : result Error LogState :=
  '(first_retained_index, _) ← after_anchor (fs_anchor s);
  let tip :=
    match last (open_entries s) with
    | Some entry => Some (mkLogAnchor (le_index entry) (le_hash entry))
    | None =>
        match last (fs_segments s) with
        | Some segment => Some (mkLogAnchor (cs_end segment) (cs_hash segment))
        | None => ra_compacted <$> fs_anchor s
        end
    end in
  Ok (mkLogState (fs_anchor s) first_retained_index tip).
Definition configuration_state (s : FileLogStoreInner) : ConfigurationState := fs_configuration_state s.

(** *** Reading *)

Definition read (s : FileLogStoreInner) (index : N) : option LogEntry :=
  match find (λ segment, (cs_start segment <=? index) && (index <=? cs_end segment))%N (fs_segments s) with
  | Some segment => cs_entries segment !! N.to_nat (index - cs_start segment)
  | None =>
      match head (open_entries s) with
      | Some first =>
          if (le_index first <=? index)%N then open_entries s !! N.to_nat (index - le_index first) else None
      | None => None
      end
  end.
Definition in_index_range (range : IndexRange) (entry : LogEntry) : bool :=
  (ir_start range <=? le_index entry)%N && (le_index entry <=? ir_end range)%N.
Definition read_range (s : FileLogStoreInner) (range : IndexRange) : list LogEntry :=
  filter (λ entry, in_index_range range entry = true) (all_entries s).

(** *** Appending *)

Definition expected_next (s : FileLogStoreInner) : result Error (N * LogHash) :=
  match last (open_entries s) with
  | Some entry =>
      next ← ok_or (checked_add (le_index entry) 1) (Decode "qlog index overflow");
      Ok (next, le_hash entry)
  | None => expected_after (fs_anchor s) (fs_segments s)
  end.

Fixpoint validate_append_loop (cluster_id : bytes) (epoch expected_index : N) (expected_prev_hash : LogHash)
    (configuration_state : ConfigurationState) (entries : list LogEntry) : result Error ConfigurationState :=
  match entries with
  | [] => Ok configuration_state
  | entry :: entries =>
      _ ← reject_if (neqb (le_cluster_id entry) cluster_id || neqb (le_epoch entry) epoch)
            (Decode "qlog entry does not match configured cluster/epoch");
      _ ← reject_if (neqb (le_index entry) expected_index) (Decode "qlog append index is not contiguous");
      _ ← reject_if (neqb (le_prev_hash entry) expected_prev_hash) (Decode "qlog append prev_hash mismatch");
      _ ← reject_if (neqb (recompute_hash entry) (le_hash entry)) (Decode "qlog append entry_hash mismatch");
      configuration_state ← run_entries configuration_state [entry];
      expected_index ←
        match entries with
        | [] => Ok expected_index
        | _ => ok_or (checked_add expected_index 1) (Decode "qlog index overflow")
        end;
      validate_append_loop cluster_id epoch expected_index (le_hash entry) configuration_state entries
  end.
Definition validate_append (s : FileLogStoreInner) (entries : list LogEntry) : result Error ConfigurationState :=
  '(expected_index, expected_prev_hash) ← expected_next s;
  validate_append_loop (fs_cluster_id s) (fs_epoch s) expected_index expected_prev_hash
    (fs_configuration_state s) entries.

Definition seal_open_segment : action () :=
  s ← get;
  match fs_open_segment s with
  | None => mret ()
  | Some open =>
      let entries := os_entries open in
      match head entries, last entries with
      | Some first, Some last =>
          range ← of_result (IndexRange_new (le_index first) (le_index last));
          let final := segment_file_name range in
          taken ← on_disk (exists_file final);
          _ ← (if taken : bool then
                 existing ← on_disk (read_file final);
                 decoded ← of_result (decode_segment_for_cluster existing (fs_cluster_id s));
                 of_result (reject_if (neqb decoded entries) (Decode "open and closed qlog segments disagree"))
               else _ ← on_disk (publish_closed_segment entries); mret ());
          _ ← on_disk (remove_file (os_path open));
          modify (λ s, set_log (fs_segments s ++ [mkClosed entries]) None s)
      | _, _ =>
          _ ← on_disk (remove_file (os_path open));
          modify (set_open None)
      end
  end.

Definition ensure_open_segment (first : LogEntry) : action () :=
  s ← get;
  if match fs_open_segment s with Some open => eqb (os_config_id open) (le_config_id first) | None => false end
  then mret ()
  else
    _ ← seal_open_segment;
    let final := open_segment_file_name (le_index first) in
    taken ← on_disk (exists_file final);
    if taken : bool then of_result (Err (Io "open qlog segment already exists"))
    else
      _ ← on_disk (install_file final (encode_header first));
      modify (set_open (Some (mkOpen (le_config_id first) final QLOG_HEADER_LEN []))).

(** The number of entries that still go into the open segment. *)
Fixpoint chunk_len_loop (was_empty : bool) (bytes_len entry_count : N) (chunk_len : nat)
    (entries : list LogEntry) : result Error nat :=
  match entries with
  | [] => Ok chunk_len
  | entry :: entries =>
      frame_len ← ok_or (checked_add FRAME_MIN_LEN (blen (le_payload entry)))
                    (Decode "qlog frame length overflow");
      next_bytes_len ← ok_or (checked_add bytes_len frame_len) (Decode "qlog segment length overflow");
      next_entry_count ← ok_or (checked_add entry_count 1) (Decode "qlog segment entry count overflow");
      let oversized_first_entry := was_empty && (chunk_len =? 0) in
      if negb oversized_first_entry
         && ((OPEN_SEGMENT_MAX_BYTES <? next_bytes_len)%N || (OPEN_SEGMENT_MAX_ENTRIES <? next_entry_count)%N)
      then Ok chunk_len
      else chunk_len_loop was_empty next_bytes_len next_entry_count (S chunk_len) entries
  end.
Definition open_segment_chunk_len (open : OpenSegment) (entries : list LogEntry) : result Error nat :=
  chunk_len_loop (eqb (length (os_entries open)) 0) (os_bytes_len open)
    (N.of_nat (length (os_entries open))) 0 entries.

(** [chunk_by]: maximal runs of entries of one configuration. *)
Fixpoint chunk_by_config (entries : list LogEntry) : list (list LogEntry) :=
  match entries with
  | [] => []
  | entry :: entries =>
      match chunk_by_config entries with
      | (next :: chunk) :: chunks =>
          if eqb (le_config_id entry) (le_config_id next) then (entry :: next :: chunk) :: chunks
          else [entry] :: (next :: chunk) :: chunks
      | chunks => [entry] :: chunks
      end
  end.

Definition append_chunk (chunk : list LogEntry) : action () :=
  s ← get;
  match fs_open_segment s with
  | None => of_result (Err (Io "open segment exists"))
  | Some open =>
      let frames := concat (encode_frame <$> chunk) in
      _ ← on_disk (write_all (os_path open) frames);
      _ ← modify (set_open (Some (mkOpen (os_config_id open) (os_path open)
                    (os_bytes_len open + blen frames) (os_entries open ++ chunk))));
      configuration_state ← of_result (run_entries (fs_configuration_state s) chunk);
      modify (set_configuration configuration_state)
  end.

(** The inner loop; a round appends at least one entry, or seals a full segment and
    then appends, so twice the number of entries is enough fuel. *)
Fixpoint append_homogeneous (fuel : nat) (entries : list LogEntry) : action () :=
  match entries with
  | [] => mret ()
  | first :: _ =>
      match fuel with
      | O => of_result (Err out_of_fuel)
      | S fuel =>
          _ ← ensure_open_segment first;
          s ← get;
          match fs_open_segment s with
          | None => of_result (Err (Io "open segment exists"))
          | Some open =>
              chunk_len ← of_result (open_segment_chunk_len open entries);
              if chunk_len =? 0 then _ ← seal_open_segment; append_homogeneous fuel entries
              else
                _ ← append_chunk (take chunk_len entries);
                append_homogeneous fuel (drop chunk_len entries)
          end
      end
  end.
Fixpoint append_chunks (chunks : list (list LogEntry)) : action () :=
  match chunks with
  | [] => mret ()
  | chunk :: chunks => _ ← append_homogeneous (2 * length chunk) chunk; append_chunks chunks
  end.
Definition append_batch_to_open_segment (entries : list LogEntry) : action () :=
  match entries with
  | [] => mret ()
  | _ =>
      s ← get;
      _ ← of_result (validate_append s entries);
      append_chunks (chunk_by_config entries)
  end.
(** [append_batch], [append_batch_buffered] and [append] differ in the data sync. *)
Definition append_batch (entries : list LogEntry) : action () := append_batch_to_open_segment entries.
Definition append_batch_buffered (entries : list LogEntry) : action () := append_batch_to_open_segment entries.
Definition append (entry : LogEntry) : action () := append_batch [entry].
Definition sync (s : FileLogStoreInner) : option N := last_index s.

(** *** Truncation *)

Definition segment_name (s : ClosedSegment) : bytes := segment_file_name (mkIndexRange (cs_start s) (cs_end s)).

(** A replacement for the segment that a cut goes through. *)
Definition prepare_replacement (entries : list LogEntry) : io (option TruncateReplacement) :=
  match head entries, last entries with
  | Some first, Some last =>
      range ← of_result (IndexRange_new (le_index first) (le_index last));
      let final := segment_file_name range in
      temp ← create_unique_temp_file final;
      _ ← write_all temp (encode_segment entries);
      mret (Some (mkTruncateReplacement temp final))
  | _, _ => mret None
  end.

Definition truncate_suffix_with_hook (segments : list ClosedSegment) (from : N) : io () :=
  match list_find (λ segment, (from <=? cs_end segment)%N = true) segments with
  | None => mret ()
  | Some (position, segment) =>
      let old_segment_names := segment_name <$> drop position segments in
      let replacement_entries :=
        if (cs_start segment <? from)%N
        then take_while (λ entry, (le_index entry <? from)%N) (cs_entries segment) else [] in
      replacement ← prepare_replacement replacement_entries;
      let intent := mkTruncateIntent old_segment_names replacement in
      _ ← publish_truncate_intent intent;
      apply_truncate_intent intent
  end.

Definition rescan : action () :=
  s ← get;
  '(segments, configuration_state) ←
    of_result (scan_closed_segments (fs_cluster_id s) (fs_epoch s) (fs_initial_configuration s)
                 (fs_anchor s) (dk_files (fs_disk s)));
  _ ← modify (λ s, set_log segments (fs_open_segment s) s);
  modify (set_configuration configuration_state).

Definition truncate_suffix (from : N) : action () :=
  s ← get;
  _ ← of_result match fs_anchor s with
        | Some anchor =>
            reject_if (from <=? la_index (ra_compacted anchor))%N
              (TruncateCompactedPrefix from (la_index (ra_compacted anchor)))
        | None => Ok ()
        end;
  _ ← seal_open_segment;
  s ← get;
  _ ← on_disk (truncate_suffix_with_hook (fs_segments s) from);
  rescan.

(** *** Compaction *)

Fixpoint configuration_at_loop (state : ConfigurationState) (found : bool) (target : N)
    (entries : list LogEntry) : result Error (ConfigurationState * bool) :=
  match entries with
  | [] => Ok (state, found)
  | entry :: entries =>
      if (target <? le_index entry)%N then Ok (state, found)
      else
        state ← run_entries state [entry];
        configuration_at_loop state (eqb (le_index entry) target) target entries
  end.
Definition configuration_state_at (s : FileLogStoreInner) (target : N) : result Error ConfigurationState :=
  let '(state, start) :=
    match fs_anchor s with
    | Some anchor => (ra_configuration_state anchor, la_index (ra_compacted anchor))
    | None => (fs_initial_configuration s, 0%N)
    end in
  if eqb target start then Ok state
  else
    '(state, found) ← configuration_at_loop state false target (all_entries s);
    if found : bool then Ok state else Err (CompactionAboveTip target (last_index s)).

Definition validate_compaction (s : FileLogStoreInner) (anchor : RecoveryAnchor) : result Error bool :=
  _ ← validate_anchor anchor;
  _ ← validate_anchor_identity (Some anchor) (fs_cluster_id s) (fs_epoch s);
  let target := la_index (ra_compacted anchor) in
  let tip := last_index s in
  _ ← reject_if match tip with None => true | Some tip => (tip <? target)%N end (CompactionAboveTip target tip);
  state ← configuration_state_at s target;
  _ ← reject_if (neqb state (ra_configuration_state anchor)) (CompactionConflict target);
  let check_entry :=
    entry ← ok_or (find (λ entry, eqb (le_index entry) target) (all_entries s)) (CompactionAboveTip target tip);
    _ ← reject_if (neqb (le_hash entry) (la_hash (ra_compacted anchor))) (CompactionHashMismatch target);
    Ok true in
  match fs_anchor s with
  | Some current =>
      let current_index := la_index (ra_compacted current) in
      _ ← reject_if (target <? current_index)%N (CompactionRegression target current_index);
      if eqb target current_index
      then if eqb current anchor then Ok false else Err (CompactionConflict target)
      else
        _ ← reject_if (neqb (ra_recovery_generation anchor) (ra_recovery_generation current))
              (CompactionConflict target);
        check_entry
  | None => check_entry
  end.

Definition compact_prefix_with_hook (s : FileLogStoreInner) (anchor : RecoveryAnchor) : io () :=
  compacts ← of_result (validate_compaction s anchor);
  if negb compacts then mret ()
  else
    let target := la_index (ra_compacted anchor) in
    let old_segments := take_while (λ segment, (cs_start segment <=? target)%N) (fs_segments s) in
    let old_segment_names := segment_name <$> old_segments in
    let replacement_entries :=
      match last old_segments with
      | Some segment =>
          if (target <? cs_end segment)%N
          then filter (λ entry, (target <? le_index entry)%N = true) (cs_entries segment) else []
      | None => []
      end in
    replacement ← prepare_replacement replacement_entries;
    let intent := mkCompactIntent (fs_anchor s) anchor old_segment_names replacement in
    _ ← publish_compact_intent intent;
    apply_compact_intent intent.

Definition compact_prefix (anchor : RecoveryAnchor) : action () :=
  s ← get;
  compacts ← of_result (validate_compaction s anchor);
  if negb compacts then mret ()
  else
    _ ← seal_open_segment;
    s ← get;
    _ ← on_disk (compact_prefix_with_hook s anchor);
    installed ← on_disk read_anchor;
    _ ← modify (set_anchor installed);
    rescan.

Definition install_recovery_anchor (verified : RecoveryAnchor) (expected_generation : N)
    (expected_configuration : ConfigurationState) : action () :=
  s ← get;
  _ ← of_result (validate_anchor verified);
  _ ← of_result (validate_anchor_identity (Some verified) (fs_cluster_id s) (fs_epoch s));
  _ ← of_result (reject_if (neqb (ra_recovery_generation verified) expected_generation)
        (Decode "recovery anchor generation does not match expected generation"));
  _ ← of_result (reject_if (neqb (ra_configuration_state verified) expected_configuration)
        (Decode "recovery anchor configuration state does not match expected state"));
  _ ← of_result (reject_if (neqb (fs_anchor s) None || negb (length (fs_segments s) =? 0)
                            || match fs_open_segment s with Some _ => true | None => false end)
        (Decode "recovery anchor installation requires an empty qlog store"));
  _ ← on_disk (install_anchor (mkCompactIntent None verified [] None));
  _ ← modify (set_anchor (Some verified));
  modify (set_configuration (ra_configuration_state verified)).
End store.
