(* ===== verification/LogNames.v ===== *)
(** * LogNames: the file names of the log directory

    The names of closed and open segments read back, they are told apart from each
    other and from the anchor, the intents and the temporary files, and the search for
    an unused temporary name of [crates/rhiza-log/src/lib.rs] succeeds. *)

From S2P Require Import Prelude Bytes Text Core ConfigChange ConfigState LogSegment AnchorCodec LogStore.
From Stdlib Require Strings.Byte.

(** ** Decimal fields of fixed width *)

Lemma digit_count_le fuel n k : 1 ≤ k → (n < 10 ^ N.of_nat k)%N → digit_count fuel n ≤ k.
Proof.
  revert n k. induction fuel as [|fuel IH]; intros n k Hk Hn; cbn [digit_count]; [lia|].
  destruct (N.ltb_spec n 10); [lia|]. destruct k as [|[|k]]; [lia|cbn in Hn; lia|].
  apply le_n_S, IH; [lia|]. apply N.Div0.div_lt_upper_bound.
  rewrite Nat2N.inj_succ, N.pow_succ_r in Hn by lia. done.
Qed.

Lemma length_padded n : (n ≤ u64_max)%N → length (decimal_padded 20 n) = 20.
Proof.
  intros Hn. unfold decimal_padded. rewrite length_low_digits.
  pose proof (digit_count_le 20 n 20 ltac:(lia)) as Hd. unfold u64_max in Hn.
  change (10 ^ N.of_nat 20)%N with 100000000000000000000%N in Hd. specialize (Hd ltac:(lia)). lia.
Qed.
Lemma digits_padded n : forallb is_digit (decimal_padded 20 n) = true.
Proof. apply low_digits_digits. Qed.

Lemma parse_digits l :
  forallb is_digit l = true → l ≠ [] → (digits_value l ≤ u64_max)%N → parse_usize l = Some (digits_value l).
Proof.
  intros Hd Hne Hv. unfold parse_usize. destruct l as [|b l]; [done|]. pose proof Hd as Hb. cbn in Hb.
  apply andb_true_iff in Hb as [Hb _]. destruct (digit_not_plus b Hb) as [-> _]. rewrite Hd.
  by destruct (N.leb_spec (digits_value (b :: l)) u64_max); [|lia].
Qed.
Lemma parse_padded n : (n ≤ u64_max)%N → parse_usize (decimal_padded 20 n) = Some n.
Proof.
  intros Hn. pose proof (digits_value_decimal_padded 20 n Hn) as Hv. rewrite <-Hv at 2. apply parse_digits.
  - apply digits_padded.
  - intros Hnil. pose proof (length_padded n Hn) as Hl. by rewrite Hnil in Hl.
  - lia.
Qed.

(** ** Suffixes *)

Lemma strip_suffix_app suffix l : strip_suffix suffix (l ++ suffix) = Some l.
Proof.
  unfold strip_suffix. rewrite length_app. destruct (Nat.leb_spec (length suffix) (length l + length suffix)); [|lia].
  replace (length l + length suffix - length suffix) with (length l) by lia.
  by rewrite drop_app_length, take_app_length, eqb_refl.
Qed.
Lemma strip_suffix_Some suffix name l : strip_suffix suffix name = Some l → name = l ++ suffix.
Proof.
  unfold strip_suffix. destruct (_ && _) eqn:E; [|done]. intros [= <-]. apply andb_true_iff in E as [_ E].
  apply (proj1 (eqb_true _ _)) in E. rewrite <-E at 2. by rewrite take_drop.
Qed.
Lemma ends_with_app suffix l : ends_with suffix (l ++ suffix) = true.
Proof. unfold ends_with. by rewrite strip_suffix_app. Qed.
Lemma ends_with_true suffix name : ends_with suffix name = true → ∃ l, name = l ++ suffix.
Proof.
  unfold ends_with. intros Hn. apply (proj1 (neqb_true _ _)) in Hn. destruct (strip_suffix suffix name) as [l|] eqn:E; [|done].
  exists l. by apply strip_suffix_Some.
Qed.

(** Two names that end differently differ. *)
Lemma suffix_last (suffix l : bytes) b : last suffix = Some b → last (l ++ suffix) = Some b.
Proof. intros Hs. rewrite last_app, Hs. done. Qed.
Lemma not_ends_with suffix name b c :
  last suffix = Some b → last name = Some c → b ≠ c → ends_with suffix name = false.
Proof.
  intros Hs Hn Hbc. destruct (ends_with suffix name) eqn:E; [|done]. apply ends_with_true in E as [l ->].
  rewrite (suffix_last _ _ _ Hs) in Hn. congruence.
Qed.

(** ** Segment names *)

Definition range_ok (r : IndexRange) : Prop := (ir_start r ≤ ir_end r ≤ u64_max)%N.

Lemma digit_not_dash b : is_digit b = true → eqb b Byte.x2d = false.
Proof. by destruct b. Qed.
Lemma split_once_dash l k :
  forallb is_digit l = true → split_once Byte.x2d (l ++ Byte.x2d :: k) = Some (l, k).
Proof.
  induction l as [|b l IH]; cbn; [done|]. intros [Hb Hl]%andb_true_iff. by rewrite (digit_not_dash b Hb), IH.
Qed.

Lemma parse_closed_name r : range_ok r → parse_closed_segment_name (segment_file_name r) = Ok r.
Proof.
  intros [Hse He]. assert (ir_start r ≤ u64_max)%N as Hs by lia. unfold parse_closed_segment_name, segment_file_name.
  rewrite (app_assoc (lit "-")), (app_assoc (decimal_padded 20 (ir_start r))), strip_suffix_app.
  cbn [ok_or mbind result_bind]. change (lit "-") with [Byte.x2d]. cbn [app].
  rewrite split_once_dash by apply digits_padded. cbn [ok_or mbind result_bind].
  unfold blen. rewrite !length_padded, !digits_padded by done. cbn [reject_if mbind result_bind negb orb].
  change (neqb (N.of_nat 20) 20%N) with false. cbn [reject_if mbind result_bind negb orb].
  rewrite !parse_padded by done. cbn [ok_or mbind result_bind]. unfold IndexRange_new.
  destruct (N.ltb_spec (ir_end r) (ir_start r)); [lia|]. by destruct r.
Qed.
Lemma segment_file_name_inj r r' :
  range_ok r → range_ok r' → segment_file_name r = segment_file_name r' → r = r'.
Proof. intros Hr Hr' Heq. apply parse_closed_name in Hr, Hr'. rewrite Heq in Hr. congruence. Qed.

Lemma parse_open_name n : (n ≤ u64_max)%N → parse_open_segment_name (open_segment_file_name n) = Ok n.
Proof.
  intros Hn. unfold parse_open_segment_name, open_segment_file_name. rewrite strip_suffix_app.
  cbn [ok_or mbind result_bind]. unfold blen. rewrite length_padded, digits_padded by done.
  change (neqb (N.of_nat 20) 20%N) with false. cbn [reject_if mbind result_bind negb orb].
  by rewrite parse_padded.
Qed.

Lemma last_digits l b : forallb is_digit l = true → last l = Some b → is_digit b = true.
Proof.
  intros Hd Hl. apply last_Some in Hl as [l' ->]. rewrite forallb_app in Hd. cbn in Hd. bool_prop. naive_solver.
Qed.

Lemma closed_not_open r : range_ok r → is_open_name (segment_file_name r) = false.
Proof.
  intros [_ He]. unfold is_open_name. destruct (ends_with _ _) eqn:E; [|done]. apply ends_with_true in E as [l Hl].
  unfold segment_file_name in Hl. change (lit "-open.qlog") with (lit "-open" ++ lit ".qlog") in Hl.
  rewrite !app_assoc in Hl. apply app_inv_tail in Hl. apply (f_equal last) in Hl. rewrite !last_app in Hl.
  destruct (last (decimal_padded 20 (ir_end r))) as [b|] eqn:Hb.
  - apply last_digits in Hb; [|apply digits_padded]. cbn in Hl. injection Hl as ->. done.
  - apply last_None in Hb. pose proof (length_padded (ir_end r) He) as Hlen. by rewrite Hb in Hlen.
Qed.
Lemma closed_name r : range_ok r → is_closed_name (segment_file_name r) = true.
Proof.
  intros Hr. unfold is_closed_name. rewrite closed_not_open by done. unfold segment_file_name.
  rewrite (app_assoc (lit "-")), (app_assoc (decimal_padded 20 (ir_start r))). apply ends_with_app.
Qed.
Lemma open_name n : is_open_name (open_segment_file_name n) = true.
Proof. apply ends_with_app. Qed.
Lemma open_not_closed n : is_closed_name (open_segment_file_name n) = false.
Proof. unfold is_closed_name. by rewrite open_name. Qed.

(** Names of neither kind. *)
Definition other_name (name : bytes) : Prop := is_open_name name = false ∧ is_closed_name name = false.
Lemma other_by_last name b : last name = Some b → b ≠ Byte.x67 → other_name name.
Proof.
  intros Hl Hb. unfold other_name, is_closed_name, is_open_name.
  rewrite !(not_ends_with _ name Byte.x67 b) by done. done.
Qed.
Lemma other_anchor : other_name ANCHOR_FILE_NAME. Proof. by eapply other_by_last. Qed.
Lemma other_truncate : other_name TRUNCATE_INTENT_FILE_NAME. Proof. by eapply other_by_last. Qed.
Lemma other_compact : other_name COMPACT_INTENT_FILE_NAME. Proof. by eapply other_by_last. Qed.
Lemma last_temp pid final id : last (temp_name pid final id) = Some Byte.x70.
Proof. unfold temp_name. rewrite !app_assoc. by apply suffix_last. Qed.
Lemma other_temp pid final id : other_name (temp_name pid final id).
Proof. eapply other_by_last; [apply last_temp|done]. Qed.

(** ** Running disk operations *)

Lemma bind_run {S A B} (m : st S A) (f : A → st S B) (s : S) :
  (m ≫= f) s = match m s with (Ok a, s') => f a s' | (Err e, s') => (Err e, s') end.
Proof. done. Qed.
Lemma bind_Ok_run {S A B} (m : st S A) (f : A → st S B) (s s' : S) a :
  m s = (Ok a, s') → (m ≫= f) s = f a s'.
Proof. rewrite bind_run. by intros ->. Qed.
Lemma get_run {S A} (f : S → st S A) (s : S) : (get ≫= f) s = f s s.
Proof. done. Qed.
Lemma modify_run {S A} (g : S → S) (f : () → st S A) (s : S) : (modify g ≫= f) s = f () (g s).
Proof. done. Qed.

(** The disk after one change of its files. *)
Definition changed (d : Disk) (f : files) : Disk := mkDisk f (dk_past d ++ [dk_files d]) (dk_next_temp d).

Lemma exists_true name d c : dk_files d !! name = Some c → exists_file name d = (Ok true, d).
Proof.
  intros Hn. unfold exists_file. rewrite get_run. unfold mret, st_ret.
  by rewrite bool_decide_true by (by rewrite Hn).
Qed.
Lemma exists_false name d : dk_files d !! name = None → exists_file name d = (Ok false, d).
Proof.
  intros Hn. unfold exists_file. rewrite get_run. unfold mret, st_ret.
  rewrite bool_decide_false; [done|]. rewrite Hn. by intros [].
Qed.
Lemma read_run name d c : dk_files d !! name = Some c → read_file name d = (Ok c, d).
Proof. intros Hn. unfold read_file. rewrite get_run. unfold of_result. by rewrite Hn. Qed.
Lemma write_run name c d : write_file name c d = (Ok (), changed d (<[name := c]> (dk_files d))).
Proof. done. Qed.
(** The directories of a torn write. *)
Definition torn (f : files) (name contents data : bytes) : list files :=
  (λ j, <[name := contents ++ take j data]> f) <$> seq 0 (length data).
Lemma write_all_run name data d c :
  dk_files d !! name = Some c →
  write_all name data d
  = (Ok (), mkDisk (<[name := c ++ data]> (dk_files d)) (dk_past d ++ torn (dk_files d) name c data) (dk_next_temp d)).
Proof. intros Hn. unfold write_all. by rewrite (bind_Ok_run _ _ d d c) by (by apply read_run). Qed.
Lemma remove_run name d c :
  dk_files d !! name = Some c → remove_file name d = (Ok (), changed d (delete name (dk_files d))).
Proof. intros Hn. unfold remove_file. by rewrite (bind_Ok_run _ _ d d c) by (by apply read_run). Qed.
Lemma rename_run from to d c :
  dk_files d !! from = Some c →
  rename_file from to d = (Ok (), changed d (<[to := c]> (delete from (dk_files d)))).
Proof. intros Hn. unfold rename_file. by rewrite (bind_Ok_run _ _ d d c) by (by apply read_run). Qed.

(** ** Temporary files *)

Definition temps (f : files) : gset bytes := filter (λ name, ends_with (lit ".tmp") name = true) (dom f).

(** The counter is a 64-bit integer, and [n] more temporary files can be named. *)
Definition room (d : Disk) (n : nat) : Prop :=
  (dk_next_temp d < 2 ^ 64)%N ∧ (N.of_nat (size (temps (dk_files d)) + n) < 2 ^ 64)%N.

Lemma decimal_inj n m : (n < 2 ^ 64)%N → (m < 2 ^ 64)%N → decimal n = decimal m → n = m.
Proof.
  intros Hn Hm Heq. apply (f_equal digits_value) in Heq.
  by rewrite !digits_value_decimal in Heq by (unfold u64_max; lia).
Qed.
Lemma temp_name_inj pid final n m :
  (n < 2 ^ 64)%N → (m < 2 ^ 64)%N → temp_name pid final n = temp_name pid final m → n = m.
Proof.
  intros Hn Hm Heq. unfold temp_name in Heq. rewrite !app_assoc in Heq. apply app_inv_tail in Heq.
  apply app_inv_head in Heq. by apply decimal_inj.
Qed.
Lemma temp_ends pid final id : ends_with (lit ".tmp") (temp_name pid final id) = true.
Proof. unfold temp_name. rewrite !app_assoc. apply ends_with_app. Qed.

Section temp.
Context (pid : N).

(** The name of the [i]th attempt. *)
Definition attempt (d : Disk) (final : bytes) (i : nat) : bytes :=
  temp_name pid final ((dk_next_temp d + N.of_nat i) mod 2 ^ 64).

Lemma create_loop_finds fuel final d i :
  (dk_next_temp d < 2 ^ 64)%N → i < fuel → dk_files d !! attempt d final i = None →
  ∃ temp next, create_unique_loop pid fuel final d
      = (Ok temp, mkDisk (<[temp := []]> (dk_files d)) (dk_past d ++ [dk_files d]) next)
    ∧ dk_files d !! temp = None ∧ (∃ id, temp = temp_name pid final id) ∧ (next < 2 ^ 64)%N.
Proof.
  revert d i. induction fuel as [|fuel IH]; intros d i Hn Hi Hfree; [lia|].
  assert ((dk_next_temp d + 1) mod 2 ^ 64 < 2 ^ 64)%N as Hn' by (apply N.mod_lt; done).
  cbn [create_unique_loop]. rewrite get_run, modify_run.
  set (d1 := mkDisk (dk_files d) (dk_past d) ((dk_next_temp d + 1) mod 2 ^ 64)%N).
  destruct (dk_files d !! temp_name pid final (dk_next_temp d)) as [c|] eqn:E.
  - rewrite (bind_Ok_run _ _ d1 d1 true) by (by eapply exists_true). destruct i as [|i].
    { unfold attempt in Hfree. rewrite N.add_0_r, N.mod_small in Hfree by done. congruence. }
    apply (IH d1 i); [done|lia|]. unfold attempt in *. cbn [dk_next_temp d1 dk_files]. rewrite N.Div0.add_mod_idemp_l.
    replace (dk_next_temp d + 1 + N.of_nat i)%N with (dk_next_temp d + N.of_nat (S i))%N by lia. done.
  - rewrite (bind_Ok_run _ _ d1 d1 false) by (by apply exists_false). eexists _, _. split; [reflexivity|]. eauto.
Qed.

Lemma free_attempt d final :
  room d 0 → ∃ i, i < S (size (dk_files d)) ∧ dk_files d !! attempt d final i = None.
Proof.
  intros [Hn Hs]. rewrite Nat.add_0_r in Hs.
  assert (size (temps (dk_files d)) ≤ size (dk_files d)) as Hle.
  { rewrite <-size_dom. apply subseteq_size. unfold temps. intros x Hx. by apply elem_of_filter in Hx as [_ ?]. }
  destruct (decide (Exists (λ i, dk_files d !! attempt d final i = None) (seq 0 (S (size (temps (dk_files d)))))))
    as [Hex|Hno].
  { apply Exists_exists in Hex as (i & Hi & Hf). apply elem_of_seq in Hi. exists i. split; [lia|done]. }
  exfalso. apply not_Exists_Forall in Hno; [|apply _]. rewrite Forall_forall in Hno.
  set (l := attempt d final <$> seq 0 (S (size (temps (dk_files d))))).
  assert (NoDup l) as Hnd.
  { apply NoDup_fmap_2_strong; [|apply NoDup_seq]. intros i j Hi Hj Heq. apply elem_of_seq in Hi, Hj.
    unfold attempt in Heq. apply temp_name_inj in Heq; [|apply N.mod_lt; done..].
    assert (∀ x, x < 2 ^ 64 → (dk_next_temp d + x) mod 2 ^ 64
      = if decide (dk_next_temp d + x < 2 ^ 64) then dk_next_temp d + x else dk_next_temp d + x - 2 ^ 64)%N as Hmod.
    { intros x Hx. case_decide; [by apply N.mod_small|]. symmetry. apply (N.mod_unique _ _ 1); lia. }
    rewrite !Hmod in Heq by lia. repeat case_decide; lia. }
  assert (list_to_set l ⊆ temps (dk_files d)) as Hsub.
  { intros x Hx. apply elem_of_list_to_set, list_elem_of_fmap in Hx as (i & -> & Hi). specialize (Hno i Hi).
    unfold temps. apply elem_of_filter. split; [apply temp_ends|]. apply elem_of_dom.
    destruct (dk_files d !! attempt d final i) eqn:E; [by eexists|done]. }
  apply subseteq_size in Hsub. rewrite size_list_to_set in Hsub by done. unfold l in Hsub.
  rewrite length_fmap, length_seq in Hsub. lia.
Qed.

Lemma create_unique_ok d final :
  room d 0 →
  ∃ temp next, create_unique_temp_file pid final d
      = (Ok temp, mkDisk (<[temp := []]> (dk_files d)) (dk_past d ++ [dk_files d]) next)
    ∧ dk_files d !! temp = None ∧ (∃ id, temp = temp_name pid final id) ∧ (next < 2 ^ 64)%N.
Proof.
  intros Hr. destruct (free_attempt d final Hr) as (i & Hi & Hf).
  apply (create_loop_finds (S (size (dk_files d))) final d i); [apply Hr|done|done].
Qed.
End temp.
