(* ===== verification/LogScan.v ===== *)
(** * LogScan: scanning a log directory

    What [scan_closed_segments] and [scan_open_segment] of
    [crates/rhiza-log/src/lib.rs] return on a directory that holds the files of a
    well-formed log: exactly its segments and the configuration state after them. *)

From S2P Require Import Prelude Bytes Text Core ConfigChange ConfigState LogSegment AnchorCodec LogStore LogNames.
From Stdlib Require Strings.Byte.

(** ** Permutations *)

Lemma collect_perm {E A B} (f : A → result E B) (l k : list A) (ys : list B) :
  l ≡ₚ k → collect f k = Ok ys → ∃ xs, collect f l = Ok xs ∧ xs ≡ₚ ys.
Proof.
  setoid_rewrite collect_Ok. intros Hp. revert ys. induction Hp as [|x l k Hp IH|x y l|l k m Hp1 IH1 Hp2 IH2]; intros ys Hk.
  - inversion Hk; subst. by exists [].
  - inversion Hk as [|? y ? ys' Hy Hys]; subst. destruct (IH ys' Hys) as (xs & Hxs & Hpx).
    exists (y :: xs). split; [by constructor|by constructor].
  - inversion Hk as [|? a ? ys' Ha Hk']; subst. inversion Hk' as [|? b ? ys'' Hb Hys]; subst.
    exists (b :: a :: ys''). split; [by repeat constructor|apply Permutation_swap].
  - destruct (IH2 ys Hk) as (zs & Hzs & Hpz). destruct (IH1 zs Hzs) as (xs & Hxs & Hpx).
    exists xs. split; [done|by transitivity zs].
Qed.

Lemma sorted_perm_unique {A K} `{LawfulOrd K} (key : A → K) (m k : list A) :
  StronglySorted (key_le key) m → StronglySorted (key_lt key) k → m ≡ₚ k → m = k.
Proof.
  revert m. induction k as [|x k IH]; intros m Hm Hk Hp; [by apply Permutation_nil_r in Hp|].
  destruct m as [|y m]; [by apply Permutation_nil_l in Hp|].
  inversion Hm as [|? ? Hm' Hy]; subst. inversion Hk as [|? ? Hk' Hx]; subst.
  assert (y = x) as ->.
  { assert (x ∈ y :: m) as Hxm by (rewrite Hp; by left). assert (y ∈ x :: k) as Hyk by (rewrite <-Hp; by left).
    apply elem_of_cons in Hxm as [->|Hxm]; [done|]. apply elem_of_cons in Hyk as [->|Hyk]; [done|].
    rewrite Forall_forall in Hy, Hx. specialize (Hy x Hxm). specialize (Hx y Hyk).
    unfold key_le, key_lt, ole in *. exfalso. apply Hy. rewrite cmp_opp, Hx. done. }
  f_equal. apply IH; [done|done|]. by apply Permutation_cons_inv in Hp.
Qed.
Lemma sort_by_to {A K} `{LawfulOrd K} `{!EqDecision K} (key : A → K) (l k : list A) :
  StronglySorted (key_lt key) k → l ≡ₚ k → sort_by key l = k.
Proof. intros Hk Hp. apply (sorted_perm_unique key); [apply sort_by_sorted|done|]. by rewrite sort_by_perm. Qed.

(** ** Well-formed logs *)

Section scan.
Context `{Sha256}.

(** [entries] continue a log whose next index is [i] and whose last hash is [h]. *)
Fixpoint log_from (c : bytes) (epoch i : N) (h : LogHash) (entries : list LogEntry) : bool :=
  match entries with
  | [] => true
  | e :: entries =>
      eqb (le_index e) i && eqb (le_prev_hash e) h && eqb (le_epoch e) epoch && sealed_in c e && entry_fits e
      && log_from c epoch (i + 1) (le_hash e) entries
  end.
Definition next_index (i : N) (entries : list LogEntry) : N := (i + N.of_nat (length entries))%N.

Lemma log_from_cons c epoch i h e es :
  log_from c epoch i h (e :: es) = true ↔
  le_index e = i ∧ le_prev_hash e = h ∧ le_epoch e = epoch ∧ sealed_in c e = true ∧ entry_fits e = true
  ∧ log_from c epoch (i + 1) (le_hash e) es = true.
Proof. cbn [log_from]. rewrite !andb_true_iff, !eqb_true. tauto. Qed.

Lemma log_from_app c epoch i h es fs :
  log_from c epoch i h (es ++ fs) = log_from c epoch i h es && log_from c epoch (next_index i es) (tip_hash h es) fs.
Proof.
  revert i h. induction es as [|e es IH]; intros i h; cbn [app log_from].
  - unfold next_index, tip_hash. cbn. by rewrite N.add_0_r.
  - rewrite IH, !andb_assoc. do 2 f_equal. unfold next_index. cbn [length].
    replace (i + 1 + N.of_nat (length es))%N with (i + N.of_nat (S (length es)))%N by lia. f_equal.
    unfold tip_hash. rewrite last_cons. by destruct (last es).
Qed.
Lemma next_index_app i es fs : next_index i (es ++ fs) = next_index (next_index i es) fs.
Proof. unfold next_index. rewrite length_app. lia. Qed.
Lemma tip_hash_app h es fs : tip_hash h (es ++ fs) = tip_hash (tip_hash h es) fs.
Proof. unfold tip_hash. rewrite last_app. by destruct (last fs). Qed.

Lemma log_from_lookup c epoch i h es k e :
  log_from c epoch i h es = true → es !! k = Some e →
  le_index e = (i + N.of_nat k)%N ∧ le_epoch e = epoch ∧ sealed_in c e = true ∧ entry_fits e = true.
Proof.
  revert i h k. induction es as [|x es IH]; intros i h k Hl Hk; [done|]. cbn [log_from] in Hl.
  rewrite !andb_true_iff in Hl. destruct Hl as [[[[[Hi Hp] He] Hs] Hf] Hl]. rewrite eqb_true in Hi, He.
  destruct k as [|k]; cbn in Hk; [injection Hk as ->; split_and!; [lia|done..]|].
  destruct (IH _ _ _ Hl Hk) as (H1 & H2). split; [lia|done].
Qed.
Lemma log_from_fits c epoch i h es :
  log_from c epoch i h es = true → forallb (λ e, sealed_in c e && entry_fits e) es = true.
Proof.
  revert i h. induction es as [|x es IH]; intros i h Hl; [done|]. cbn [log_from forallb] in *.
  rewrite !andb_true_iff in *. destruct Hl as [[[[[? ?] ?] ?] ?] Hl]. split; [done|]. by eapply IH.
Qed.

(** The first and the last entry. *)
Lemma log_from_first c epoch i h e es : log_from c epoch i h (e :: es) = true → le_index e = i ∧ le_prev_hash e = h ∧ le_epoch e = epoch.
Proof. cbn [log_from]. rewrite !andb_true_iff, !eqb_true. tauto. Qed.
Lemma log_from_last c epoch i h es e :
  log_from c epoch i h es = true → last es = Some e →
  (le_index e + 1)%N = next_index i es ∧ le_hash e = tip_hash h es ∧ (le_index e ≤ u64_max)%N.
Proof.
  intros Hl He. apply last_Some in He as [es' ->]. rewrite log_from_app, andb_true_iff in Hl. destruct Hl as [_ Hl].
  cbn [log_from] in Hl. rewrite !andb_true_iff in Hl. destruct Hl as [[[[[Hi _] _] _] Hf] _]. rewrite eqb_true in Hi.
  rewrite next_index_app, tip_hash_app. unfold next_index in *. cbn [length]. unfold entry_fits in Hf. rewrite !andb_true_iff in Hf.
  destruct Hf as [[[Hu _] _] _]. unfold is_u64 in Hu. apply N.leb_le in Hu. split_and!; [lia|done|done].
Qed.

(** Entries of one configuration. *)
Definition one_config (es : list LogEntry) : Prop := ∃ c, Forall (λ e, le_config_id e = c) es.

Lemma log_from_linked c epoch i h e es :
  log_from c epoch i h (e :: es) = true → one_config (e :: es) → linked e es = true.
Proof.
  intros Hl [cfg Hc]. revert i h e Hl Hc. induction es as [|x es IH]; intros i h e Hl Hc; [done|].
  cbn [linked]. apply log_from_cons in Hl as (Hi & _ & He & _ & _ & Hl).
  pose proof Hl as (Hxi & Hxp & Hxe & _ & _ & _)%log_from_cons.
  inversion Hc as [|? ? Hce Hcs]; subst. inversion Hcs as [|? ? Hcx _]; subst.
  rewrite andb_true_iff. split; [|by eapply (IH _ _ x)]. unfold continues. rewrite !andb_true_iff, !eqb_true. done.
Qed.
Lemma log_from_run c epoch i h es :
  log_from c epoch i h es = true → one_config es → segment_run c es = true.
Proof.
  intros Hl Hc. unfold segment_run. rewrite (log_from_fits _ _ _ _ _ Hl), andb_true_r.
  destruct es as [|e es]; [done|]. by eapply log_from_linked.
Qed.

(** ** Closed segments on disk *)

Definition flat (segs : list ClosedSegment) : list LogEntry := concat (cs_entries <$> segs).
Definition seg_wf (seg : ClosedSegment) : Prop :=
  cs_entries seg ≠ [] ∧ one_config (cs_entries seg) ∧ (blen (encode_segment (cs_entries seg)) ≤ u64_max)%N.
Definition seg_range (seg : ClosedSegment) : IndexRange := mkIndexRange (cs_start seg) (cs_end seg).

Lemma flat_cons seg segs : flat (seg :: segs) = cs_entries seg ++ flat segs.
Proof. done. Qed.
Lemma flat_one seg : flat [seg] = cs_entries seg.
Proof. unfold flat. cbn. apply app_nil_r. Qed.
Lemma flat_app segs segs' : flat (segs ++ segs') = flat segs ++ flat segs'.
Proof. unfold flat. by rewrite fmap_app, concat_app. Qed.

(** The directory holds exactly the closed segments [segs]. *)
Definition closed_on_disk (f : files) (segs : list ClosedSegment) : Prop :=
  (∀ name, is_closed_name name = true → is_Some (f !! name) → name ∈ segment_name <$> segs)
  ∧ Forall (λ seg, f !! segment_name seg = Some (encode_segment (cs_entries seg))) segs.

Lemma seg_bounds c epoch i h seg :
  cs_entries seg ≠ [] → log_from c epoch i h (cs_entries seg) = true →
  cs_start seg = i ∧ (cs_end seg + 1)%N = next_index i (cs_entries seg) ∧ (cs_start seg ≤ cs_end seg ≤ u64_max)%N
  ∧ cs_hash seg = tip_hash h (cs_entries seg).
Proof.
  intros Hne Hl. unfold cs_start, cs_end, cs_hash. destruct (last (cs_entries seg)) as [e|] eqn:He.
  2:{ by apply last_None in He. }
  destruct (log_from_last _ _ _ _ _ _ Hl He) as (Hn & Hh & Hu). unfold next_index in *.
  destruct (cs_entries seg) as [|x xs]; [done|]. apply log_from_cons in Hl as (Hi & _). cbn [head length fmap option_map option_fmap default from_option] in *.
  unfold fmap, option_fmap, option_map. cbn. split_and!; [done|lia|lia|lia|done].
Qed.

Lemma segs_from c epoch i h segs :
  Forall seg_wf segs → log_from c epoch i h (flat segs) = true →
  Forall (λ seg, (i ≤ cs_start seg)%N ∧ range_ok (seg_range seg)) segs.
Proof.
  intros Hwf. revert i h. induction Hwf as [|seg segs (Hne & _) _ IH]; intros i h Hl; [constructor|].
  rewrite flat_cons, log_from_app, andb_true_iff in Hl. destruct Hl as [Hl1 Hl2].
  destruct (seg_bounds _ _ _ _ _ Hne Hl1) as (Hs & He & Hr & _). constructor; [split; [lia|done]|].
  eapply Forall_impl; [by eapply IH|]. cbn. intros x [Hx ?]. split; [|done]. unfold next_index in Hx. lia.
Qed.

Definition seg_path (seg : ClosedSegment) : IndexRange * bytes := (seg_range seg, segment_name seg).
Definition path_key (path : IndexRange * bytes) : N * N := (ir_start path.1, ir_end path.1).

Lemma segs_ascending c epoch i h segs :
  Forall seg_wf segs → log_from c epoch i h (flat segs) = true →
  StronglySorted (key_lt path_key) (seg_path <$> segs).
Proof.
  intros Hwf. revert i h. induction Hwf as [|seg segs (Hne & Hwf') Hwf IH]; intros i h Hl; [constructor|].
  rewrite flat_cons, log_from_app, andb_true_iff in Hl. destruct Hl as [Hl1 Hl2].
  destruct (seg_bounds _ _ _ _ _ Hne Hl1) as (Hs & He & Hr & _). cbn [fmap list_fmap]. constructor; [by eapply IH|].
  apply Forall_fmap. eapply Forall_impl; [by eapply segs_from|]. cbn. intros x [Hx _].
  unfold key_lt, path_key, seg_path. cbn [fst ir_start ir_end seg_range]. rewrite prod_cmp.
  unfold cmp, N_ord. destruct (N.compare_spec (cs_start seg) (cs_start x)); [lia|done|lia].
Qed.

Lemma segment_names_NoDup c epoch i h segs :
  Forall seg_wf segs → log_from c epoch i h (flat segs) = true → NoDup (segment_name <$> segs).
Proof.
  intros Hwf. revert i h. induction Hwf as [|seg segs (Hne & Hwf') Hwf IH]; intros i h Hl; [constructor|].
  rewrite flat_cons, log_from_app, andb_true_iff in Hl. destruct Hl as [Hl1 Hl2].
  destruct (seg_bounds _ _ _ _ _ Hne Hl1) as (Hs & He & Hr & _). cbn [fmap list_fmap]. constructor; [|by eapply IH].
  intros (x & Heq & Hx)%list_elem_of_fmap. pose proof (segs_from _ _ _ _ _ Hwf Hl2) as Hf.
  rewrite Forall_forall in Hf. destruct (Hf x Hx) as [Hge Hrx]. unfold segment_name in Heq.
  apply (segment_file_name_inj (seg_range seg) (seg_range x)) in Heq; [|done..].
  injection Heq as Hst _. lia.
Qed.

Lemma closed_paths_ok c epoch i h f segs :
  Forall seg_wf segs → log_from c epoch i h (flat segs) = true → closed_on_disk f segs →
  closed_paths f = Ok (seg_path <$> segs).
Proof.
  intros Hwf Hl [Hin Hfiles]. pose proof (segs_from _ _ _ _ _ Hwf Hl) as Hr.
  assert (filter (λ name, is_closed_name name = true) (map_to_list f).*1 ≡ₚ segment_name <$> segs) as Hp.
  { apply NoDup_Permutation; [apply NoDup_filter, NoDup_fst_map_to_list|by eapply segment_names_NoDup|].
    intros name. rewrite list_elem_of_filter. split.
    - intros [Hc ([k v] & -> & Hkv)%list_elem_of_fmap]. apply elem_of_map_to_list in Hkv. apply Hin; [done|by eexists].
    - intros (seg & -> & Hseg)%list_elem_of_fmap. rewrite Forall_forall in Hr, Hfiles. destruct (Hr seg Hseg) as [_ Hrs].
      split; [by apply (closed_name (seg_range seg))|]. apply list_elem_of_fmap. exists (segment_name seg, encode_segment (cs_entries seg)).
      split; [done|]. apply elem_of_map_to_list. by apply Hfiles. }
  unfold closed_paths.
  destruct (collect_perm (λ name, range ← parse_closed_segment_name name; Ok (range, name)) _ _ (seg_path <$> segs) Hp) as (xs & Hxs & Hpx).
  { apply collect_Ok. clear -Hr. induction Hr as [|seg segs [_ Hrs] _ IH]; constructor; [|done].
    assert (parse_closed_segment_name (segment_name seg) = Ok (seg_range seg)) as -> by (by apply parse_closed_name).
    done. }
  rewrite Hxs. cbn [mbind result_bind]. f_equal. apply (sort_by_to path_key); [by eapply segs_ascending|done].
Qed.

(** ** The scan *)

Definition base_configuration (initial : ConfigurationState) (anchor : option RecoveryAnchor) : ConfigurationState :=
  match anchor with Some anchor => ra_configuration_state anchor | None => initial end.

Lemma config_run_app s es fs : config_run s (es ++ fs) = (s' ← config_run s es; config_run s' fs).
Proof. apply try_fold_app. Qed.

Lemma expected_after_ok c epoch i h anchor segs :
  after_anchor anchor = Ok (i, h) → Forall seg_wf segs → log_from c epoch i h (flat segs) = true →
  (next_index i (flat segs) ≤ u64_max)%N →
  expected_after anchor segs = Ok (next_index i (flat segs), tip_hash h (flat segs)).
Proof.
  intros Ha Hwf Hl Hu. unfold expected_after. destruct (last segs) as [seg|] eqn:Hlast.
  - apply last_Some in Hlast as [segs' ->]. rewrite flat_app, log_from_app, andb_true_iff in Hl. destruct Hl as [_ Hl].
    apply Forall_app in Hwf as [_ Hwf]. inversion Hwf as [|? ? (Hne & _) _]; subst. rewrite flat_one in Hl. destruct (seg_bounds _ _ _ _ _ Hne Hl) as (_ & He & _ & Hh).
    rewrite flat_app, flat_one, next_index_app in *. rewrite tip_hash_app, <-He in *.
    assert (checked_add (cs_end seg) 1 = Some (cs_end seg + 1)%N) as -> by (apply checked_add_Some; lia).
    cbn. by rewrite Hh.
  - apply last_None in Hlast as ->. unfold next_index, tip_hash. cbn. by rewrite N.add_0_r.
Qed.

Lemma map_err_run state es state' :
  config_run state es = Ok state' → run_entries state es = Ok state'.
Proof. intros Hr. unfold run_entries. by rewrite Hr. Qed.

(** One segment of the scan. *)
Lemma scan_segment_ok c epoch anchor f done seg cfg cfg' i h :
  c ≠ [] → after_anchor anchor = Ok (i, h) → Forall seg_wf done → seg_wf seg →
  log_from c epoch i h (flat done) = true →
  log_from c epoch (next_index i (flat done)) (tip_hash h (flat done)) (cs_entries seg) = true →
  f !! segment_name seg = Some (encode_segment (cs_entries seg)) →
  config_run cfg (cs_entries seg) = Ok cfg' →
  scan_closed_segment c epoch anchor f (done, cfg) (seg_path seg) = Ok (done ++ [seg], cfg').
Proof.
  intros Hc Ha Hdone (Hne & Hone & Hsize) Hl1 Hl2 Hf Hcfg. unfold scan_closed_segment, seg_path.
  rewrite Hf. cbn [ok_or mbind result_bind].
  rewrite segment_reads; [|done|done|by eapply log_from_run|done]. cbn [mbind result_bind].
  destruct (seg_bounds _ _ _ _ _ Hne Hl2) as (Hs & He & Hr & _).
  destruct (cs_entries seg) as [|e es] eqn:Hes; [done|].
  destruct (last (e :: es)) as [lst|] eqn:Hlast; [|by apply last_None in Hlast].
  assert (cs_start seg = le_index e) as Hse by (unfold cs_start; by rewrite Hes).
  assert (cs_end seg = le_index lst) as Hee by (unfold cs_end; by rewrite Hes, Hlast).
  cbn [head ok_or mbind result_bind seg_range ir_start ir_end]. rewrite Hse, Hee.
  pose proof (log_from_first _ _ _ _ _ _ Hl2) as (Hi & Hp & Hep).
  rewrite !neqb_refl, Hep, neqb_refl. cbn [orb reject_if mbind result_bind].
  assert (next_index i (flat done) ≤ u64_max)%N as Hu by lia.
  pose proof (expected_after_ok c epoch i h anchor done Ha Hdone Hl1 Hu) as Hexp. unfold expected_after in Hexp.
  destruct (last done) as [prev|] eqn:Hprev.
  - apply bind_Ok_inv in Hexp as (nx & Hnx & Hexp). apply Ok_inj, pair_eq in Hexp as [-> Hh]. apply ok_or_Ok in Hnx.
    rewrite Hnx, Hi, neqb_refl. cbn [reject_if mbind result_bind]. rewrite Hp, Hh, neqb_refl. cbn [reject_if mbind result_bind].
    rewrite (map_err_run _ _ _ Hcfg). cbn. by destruct seg; cbn in Hes; subst.
  - rewrite Hexp. cbn [mbind result_bind]. rewrite Hi, Hp, !neqb_refl. cbn [orb reject_if mbind result_bind].
    rewrite (map_err_run _ _ _ Hcfg). cbn. by destruct seg; cbn in Hes; subst.
Qed.

Lemma scan_fold_ok c epoch anchor f i h segs done cfg cfg' :
  c ≠ [] → after_anchor anchor = Ok (i, h) → Forall seg_wf (done ++ segs) →
  log_from c epoch i h (flat (done ++ segs)) = true →
  Forall (λ seg, f !! segment_name seg = Some (encode_segment (cs_entries seg))) segs →
  config_run cfg (flat segs) = Ok cfg' →
  try_fold (scan_closed_segment c epoch anchor f) (done, cfg) (seg_path <$> segs) = Ok (done ++ segs, cfg').
Proof.
  intros Hc Ha. revert done cfg. induction segs as [|seg segs IH]; intros done cfg Hwf Hl Hf Hcfg.
  { rewrite app_nil_r. apply Ok_inj in Hcfg as ->. done. }
  rewrite flat_cons, config_run_app, bind_Ok_inv in Hcfg. destruct Hcfg as (cfg1 & Hc1 & Hc2).
  inversion Hf as [|? ? Hf1 Hf2]; subst. cbn [fmap list_fmap try_fold].
  pose proof Hwf as Hwf'. apply Forall_app in Hwf as [Hwd Hws]. inversion Hws as [|? ? Hw1 _]; subst.
  pose proof Hl as Hl'. rewrite flat_app, flat_cons, !log_from_app, !andb_true_iff in Hl. destruct Hl as (Hl1 & Hl2 & _).
  rewrite (scan_segment_ok c epoch anchor f done seg cfg cfg1 i h) by done. cbn [mbind result_bind].
  rewrite (cons_middle seg done segs), app_assoc in *. by apply IH.
Qed.

Lemma scan_closed_ok c epoch initial anchor f segs cfg i h :
  c ≠ [] → after_anchor anchor = Ok (i, h) → Forall seg_wf segs →
  log_from c epoch i h (flat segs) = true → closed_on_disk f segs →
  config_run (base_configuration initial anchor) (flat segs) = Ok cfg →
  scan_closed_segments c epoch initial anchor f = Ok (segs, cfg).
Proof.
  intros Hc Ha Hwf Hl Hd Hcfg. unfold scan_closed_segments.
  rewrite (closed_paths_ok c epoch i h f segs) by done. cbn [mbind result_bind].
  apply (scan_fold_ok c epoch anchor f i h segs [] _ cfg); [done|done|done|done|apply Hd|done].
Qed.

(** ** The open segment on disk *)

(** A header says the cluster, the epoch, the configuration and the first index. *)
Definition header_entry (c : bytes) (epoch cfg i : N) : LogEntry :=
  mkLogEntry c epoch cfg i Noop [] LogHash_ZERO LogHash_ZERO.
Definition open_bytes (c : bytes) (epoch cfg i : N) (es : list LogEntry) : bytes :=
  encode_header (header_entry c epoch cfg i) ++ frames es.

Lemma open_bytes_of e es :
  open_bytes (le_cluster_id e) (le_epoch e) (le_config_id e) (le_index e) es = encode_header e ++ frames es.
Proof. done. Qed.

Record open_wf (c : bytes) (epoch start : N) (f : files) (o : OpenSegment) : Prop := {
  ow_path : os_path o = open_segment_file_name start;
  ow_file : f !! os_path o = Some (open_bytes c epoch (os_config_id o) start (os_entries o));
  ow_only : ∀ name, is_open_name name = true → is_Some (f !! name) → name = os_path o;
  ow_len : os_bytes_len o = blen (open_bytes c epoch (os_config_id o) start (os_entries o));
  ow_config : Forall (λ e, le_config_id e = os_config_id o) (os_entries o);
  ow_size : (os_bytes_len o ≤ 2 ^ 33)%N;
  ow_u64 : is_u64 (os_config_id o) = true
}.
Definition open_on_disk (c : bytes) (epoch start : N) (f : files) (o : option OpenSegment) : Prop :=
  match o with
  | None => ∀ name, is_open_name name = true → f !! name = None
  | Some o => open_wf c epoch start f o
  end.

Lemma open_valid c epoch cfg start h es :
  log_from c epoch start h es = true → Forall (λ e, le_config_id e = cfg) es →
  validate_entries (header_of (header_entry c epoch cfg start)) es = Ok ().
Proof.
  intros Hl Hc. destruct es as [|e es]; [done|].
  pose proof (log_from_first _ _ _ _ _ _ Hl) as (Hi & _ & He).
  pose proof (log_from_fits _ _ _ _ _ Hl) as Hf. inversion Hc as [|? ? Hce _]; subst.
  assert (le_cluster_id e = c) as Hcl.
  { cbn in Hf. unfold sealed_in in Hf. rewrite !andb_true_iff, eqb_true in Hf. tauto. }
  assert (header_of (header_entry c (le_epoch e) (le_config_id e) (le_index e)) = header_of e) as ->
    by (unfold header_of; cbn; by rewrite Hcl).
  apply validate_header_of; [by eapply run_indices|]. eapply log_from_linked; [done|by eexists].
Qed.

Lemma header_entry_fits c epoch cfg start :
  is_u64 epoch = true → is_u64 cfg = true → (start ≤ u64_max)%N → entry_fits (header_entry c epoch cfg start) = true.
Proof.
  intros He Hc Hs. unfold entry_fits. cbn [le_index le_epoch le_config_id le_payload header_entry].
  rewrite He, Hc. unfold is_u64. apply N.leb_le in Hs as ->. done.
Qed.

Lemma open_names_one f name :
  is_open_name name = true → is_Some (f !! name) →
  (∀ n, is_open_name n = true → is_Some (f !! n) → n = name) → open_names f = [name].
Proof.
  intros Ho Hin Honly. unfold open_names. apply (sort_by_to id); [repeat constructor|].
  apply NoDup_Permutation; [apply NoDup_filter, NoDup_fst_map_to_list|apply NoDup_singleton|].
  intros n. rewrite list_elem_of_filter, list_elem_of_singleton. split.
  - intros [Hn ([k v] & -> & Hkv)%list_elem_of_fmap]. apply elem_of_map_to_list in Hkv. apply Honly; [done|by eexists].
  - intros ->. split; [done|]. destruct Hin as [v Hv]. apply list_elem_of_fmap. exists (name, v).
    split; [done|by apply elem_of_map_to_list].
Qed.
Lemma open_names_none f : (∀ n, is_open_name n = true → f !! n = None) → open_names f = [].
Proof.
  intros Hno. unfold open_names. assert (filter (λ n, is_open_name n = true) (map_to_list f).*1 = []) as ->; [|done].
  destruct (filter _ _) as [|n l] eqn:E; [done|].
  assert (n ∈ filter (λ n, is_open_name n = true) (map_to_list f).*1) as Hn by (rewrite E; by left).
  apply list_elem_of_filter in Hn as [Hn ([k v] & -> & Hkv)%list_elem_of_fmap].
  apply elem_of_map_to_list in Hkv. cbn in Hn. by rewrite (Hno k Hn) in Hkv.
Qed.

Lemma segs_start_lt c epoch i h segs :
  Forall seg_wf segs → log_from c epoch i h (flat segs) = true →
  Forall (λ seg, (cs_start seg < next_index i (flat segs))%N) segs.
Proof.
  intros Hwf. revert i h. induction Hwf as [|seg segs (Hne & _) _ IH]; intros i h Hl; [constructor|].
  rewrite flat_cons, log_from_app, andb_true_iff in Hl. destruct Hl as [Hl1 Hl2].
  destruct (seg_bounds _ _ _ _ _ Hne Hl1) as (Hs & He & Hr & _). rewrite flat_cons, next_index_app.
  constructor; [|by eapply IH]. unfold next_index in *. lia.
Qed.

(** The file of the open segment may end in a torn frame, which is cut off. *)
Definition cut_file (d : Disk) (name l tail : bytes) : Disk :=
  match tail with [] => d | _ => mkDisk (<[name := l]> (dk_files d)) (dk_past d ++ [dk_files d]) (dk_next_temp d) end.

Lemma recover_file_run d name c l tail es :
  (∃ p, name = p ++ lit "-open.qlog") → dk_files d !! name = Some (l ++ tail) →
  recover_open_segment_prefix (l ++ tail) c = Ok (es, blen l) →
  recover_open_file name c d = (Ok es, cut_file d name l tail).
Proof.
  intros [p Hp] Hf Hr. unfold recover_open_file. rewrite (bind_Ok_run _ _ d d _ (read_run _ _ _ Hf)).
  rewrite (bind_Ok_run _ _ d d (es, l)).
  - cbn beta iota. rewrite blen_app. unfold cut_file. destruct tail as [|b tail].
    + by rewrite N.add_0_r, N.ltb_irrefl.
    + rewrite blen_cons. by destruct (N.ltb_spec (blen l) (blen l + (1 + blen tail))) as [_|]; [|lia].
  - unfold of_result, recover_open_segment_file. rewrite Hp, strip_suffix_app. cbn [eqb reject_if mbind result_bind].
    rewrite Hr. cbn [mbind result_bind]. rewrite blen_app. destruct (N.ltb_spec (blen l) (blen l + blen tail)) as [_|Hz].
    + unfold blen. by rewrite Nat2N.id, take_app_length.
    + destruct tail; [by rewrite app_nil_r|rewrite blen_cons in Hz; lia].
Qed.

(** What the scan of the open segment reads, up to the search for a closed copy. *)
Lemma scan_open_reads c epoch anchor segs cfg start d h o tail :
  let l := open_bytes c epoch (os_config_id o) start (os_entries o) in
  c ≠ [] → is_u64 epoch = true → (start ≤ u64_max)%N →
  log_from c epoch start h (os_entries o) = true → open_wf c epoch start (<[os_path o := l]> (dk_files d)) o →
  dk_files d !! os_path o = Some (l ++ tail) → torn_tail tail → (blen (l ++ tail) ≤ u64_max)%N →
  scan_open_segment c epoch anchor segs cfg d =
  match find (λ seg, eqb (cs_start seg) start && eqb (cs_entries seg) (os_entries o)) segs with
  | Some segment =>
      (_ ← of_result (reject_if (neqb (cs_end segment) (default start (le_index <$> last (os_entries o))))
             (Decode "open qlog duplicate range mismatch"));
       _ ← remove_file (os_path o); mret (None, cfg)) (cut_file d (os_path o) l tail)
  | None =>
      ('(expected_index, expected_prev_hash) ← of_result (expected_after anchor segs);
       _ ← of_result (reject_if (neqb start expected_index) (Decode "open qlog does not start at the retained tip"));
       _ ← of_result match head (os_entries o) with
             | Some first => reject_if (neqb (le_prev_hash first) expected_prev_hash)
                               (Decode "qlog hash chain mismatch before open segment")
             | None => Ok ()
             end;
       configuration_state ← of_result (run_entries cfg (os_entries o));
       contents ← read_file (os_path o);
       mret (Some (mkOpen (os_config_id o) (os_path o) (blen contents) (os_entries o)), configuration_state))
      (cut_file d (os_path o) l tail)
  end.
Proof.
  intros l Hc He Hst Hl [Hpath _ Honly Hlen Hconf Hsize Hcu] Hfile Htail Hll. unfold scan_open_segment. rewrite get_run.
  rewrite (open_names_one _ (os_path o)); [|by rewrite Hpath; apply open_name|by eexists|].
  2:{ intros n Hn Hin. apply Honly; [done|]. destruct (decide (n = os_path o)) as [->|Hne].
      - by rewrite lookup_insert_eq.
      - by rewrite lookup_insert_ne. }
  cbn [length Nat.ltb Nat.leb last]. rewrite Hpath at 1.
  unfold of_result at 1. rewrite (bind_Ok_run _ _ d d start) by (by rewrite parse_open_name).
  rewrite (bind_Ok_run _ _ d d _ (read_run _ _ _ Hfile)).
  assert (entry_fits (header_entry c epoch (os_config_id o) start) = true) as Hhf by (by apply header_entry_fits).
  rewrite (bind_Ok_run _ _ d d (header_of (header_entry c epoch (os_config_id o) start), QLOG_HEADER_LEN)).
  2:{ unfold of_result, l, open_bytes. rewrite <-app_assoc, header_reads by (done || by right). done. }
  cbn beta iota. rewrite (bind_Ok_run _ _ d d ()).
  2:{ unfold of_result, header_of, new_with_config. cbn [sh_start_index sh_epoch header_entry le_index le_epoch]. by rewrite !neqb_refl. }
  rewrite (bind_Ok_run _ _ d (cut_file d (os_path o) l tail) (os_entries o)).
  2:{ apply recover_file_run; [rewrite Hpath; unfold open_segment_file_name; by eexists|done|].
      unfold l, open_bytes in *. rewrite <-app_assoc in *. apply recover_torn; [done|done|by eapply log_from_fits|by eapply open_valid|done|done]. }
  by destruct (find _ _).
Qed.

(** The open segment continues the closed ones. *)
Lemma scan_open_continues c epoch anchor segs cfg cfg' i h d o tail :
  let start := next_index i (flat segs) in
  let l := open_bytes c epoch (os_config_id o) start (os_entries o) in
  c ≠ [] → is_u64 epoch = true → after_anchor anchor = Ok (i, h) → Forall seg_wf segs →
  log_from c epoch i h (flat segs ++ os_entries o) = true → (start ≤ u64_max)%N →
  open_wf c epoch start (<[os_path o := l]> (dk_files d)) o →
  dk_files d !! os_path o = Some (l ++ tail) → torn_tail tail → (blen (l ++ tail) ≤ u64_max)%N →
  config_run cfg (os_entries o) = Ok cfg' →
  scan_open_segment c epoch anchor segs cfg d = (Ok (Some o, cfg'), cut_file d (os_path o) l tail).
Proof.
  intros start l Hc He Ha Hwf Hl Hst Ho Hfile Htail Hll Hcfg.
  rewrite log_from_app, andb_true_iff in Hl. destruct Hl as [Hl1 Hl2]. fold start in Hl2.
  rewrite (scan_open_reads c epoch anchor segs cfg start d (tip_hash h (flat segs)) o tail) by done. fold l.
  assert (find (λ seg, eqb (cs_start seg) start && eqb (cs_entries seg) (os_entries o)) segs = None) as ->.
  { pose proof (segs_start_lt _ _ _ _ _ Hwf Hl1) as Hlt. fold start in Hlt. clearbody start. clear -Hlt.
    induction Hlt as [|seg segs Hs _ IH]; [done|]. cbn [find]. rewrite IH.
    rewrite (proj2 (eqb_false (cs_start seg) start)) by lia. done. }
  set (d' := cut_file d (os_path o) l tail).
  rewrite (bind_Ok_run _ _ d' d' (start, tip_hash h (flat segs))) by (unfold of_result; by rewrite (expected_after_ok c epoch i h)).
  cbn beta iota. rewrite neqb_refl. rewrite (bind_Ok_run _ _ d' d' ()) by done.
  rewrite (bind_Ok_run _ _ d' d' ()).
  2:{ unfold of_result. destruct (os_entries o) as [|e es'] eqn:Hes; [done|]. cbn [head].
      pose proof (log_from_first _ _ _ _ _ _ Hl2) as (_ & Hp & _). by rewrite Hp, neqb_refl. }
  rewrite (bind_Ok_run _ _ d' d' cfg') by (unfold of_result; by rewrite (map_err_run cfg (os_entries o) cfg')).
  rewrite (bind_Ok_run _ _ d' d' l).
  2:{ apply read_run. unfold d', cut_file. destruct tail; cbn [dk_files]; [by rewrite app_nil_r in Hfile|by rewrite lookup_insert_eq]. }
  unfold l. rewrite <-(ow_len _ _ _ _ _ Ho). by destruct o.
Qed.

Lemma scan_open_ok c epoch anchor segs cfg cfg' i h d o :
  let es := match o with Some o => os_entries o | None => [] end in
  let start := next_index i (flat segs) in
  c ≠ [] → is_u64 epoch = true → after_anchor anchor = Ok (i, h) → Forall seg_wf segs →
  log_from c epoch i h (flat segs ++ es) = true → (o ≠ None → start ≤ u64_max)%N →
  open_on_disk c epoch start (dk_files d) o → config_run cfg es = Ok cfg' →
  scan_open_segment c epoch anchor segs cfg d = (Ok (o, cfg'), d).
Proof.
  intros es start Hc He Ha Hwf Hl Hst Ho Hcfg. destruct o as [o|]; cbn [open_on_disk] in Ho.
  - pose proof (ow_file _ _ _ _ _ Ho) as Hfile. pose proof (ow_len _ _ _ _ _ Ho) as Hlen. pose proof (ow_size _ _ _ _ _ Ho) as Hsz.
    rewrite (scan_open_continues c epoch anchor segs cfg cfg' i h d o []); try done.
    + by apply Hst.
    + fold start. rewrite insert_id by done. exact Ho.
    + by rewrite app_nil_r.
    + by left.
    + rewrite app_nil_r. fold start. rewrite <-Hlen. unfold u64_max. lia.
  - unfold scan_open_segment. rewrite get_run, open_names_none by done. cbn. apply Ok_inj in Hcfg as ->. done.
Qed.

(** The open segment was closed already: its file is removed. *)
Lemma scan_open_closed c epoch anchor segs cfg start h d o seg :
  let l := open_bytes c epoch (os_config_id o) start (os_entries o) in
  c ≠ [] → is_u64 epoch = true → (start ≤ u64_max)%N →
  log_from c epoch start h (os_entries o) = true → open_wf c epoch start (dk_files d) o →
  cs_entries seg = os_entries o → os_entries o ≠ [] → Forall (λ x, cs_start x < start)%N segs →
  scan_open_segment c epoch anchor (segs ++ [seg]) cfg d
  = (Ok (None, cfg), changed d (delete (os_path o) (dk_files d))).
Proof.
  intros l Hc He Hst Hl Ho Hseg Hne Hlt. pose proof (ow_file _ _ _ _ _ Ho) as Hfile. fold l in Hfile.
  pose proof (ow_len _ _ _ _ _ Ho) as Hlen. pose proof (ow_size _ _ _ _ _ Ho) as Hsz. fold l in Hlen.
  rewrite (scan_open_reads c epoch anchor _ cfg start d h o []); try done; fold l.
  - cbn [cut_file].
    assert (cs_start seg = start) as Hcs.
    { unfold cs_start. rewrite Hseg. destruct (os_entries o); [done|]. by apply log_from_first in Hl as [Hl _]. }
    assert (find (λ seg, eqb (cs_start seg) start && eqb (cs_entries seg) (os_entries o)) (segs ++ [seg]) = Some seg) as ->.
    { clear -Hlt Hcs Hseg. induction Hlt as [|x segs Hs _ IH]; cbn [app find].
      - by rewrite Hcs, Hseg, !eqb_refl.
      - rewrite IH. by rewrite (proj2 (eqb_false (cs_start x) start)) by lia. }
    rewrite (bind_Ok_run _ _ d d ()).
    2:{ unfold of_result, cs_end. rewrite Hseg. destruct (last (os_entries o)) as [e|] eqn:E; [|by apply last_None in E].
        cbn. by rewrite neqb_refl. }
    by rewrite (bind_Ok_run _ _ d _ () (remove_run _ d _ Hfile)).
  - by rewrite insert_id.
  - by rewrite app_nil_r.
  - by left.
  - rewrite app_nil_r, <-Hlen. unfold u64_max. lia.
Qed.
End scan.
