(* ===== verification/LogInv.v ===== *)
(** * LogInv: the invariant of the log store

    What holds of a [FileLogStore] ([crates/rhiza-log/src/lib.rs]) between two
    operations: the entries in memory are a hash-chained log that continues the anchor,
    the configuration state is the one after them, and the directory holds exactly their
    segments, the anchor and no intent.  Opening the directory of such a store gives the
    store back; sealing, rolling and appending keep the invariant. *)

From S2P Require Import Prelude Bytes Text Core ConfigChange ConfigState LogSegment AnchorCodec LogStore LogNames LogScan.
From Stdlib Require Strings.Byte.

(** ** Files *)

Definition is_temp (name : bytes) : bool := ends_with (lit ".tmp") name.

(** Two directories that differ in temporary files only. *)
Definition visible_eq (f g : files) : Prop := ∀ name, is_temp name = false → g !! name = f !! name.

Lemma temps_insert f name c : is_temp name = false → temps (<[name := c]> f) = temps f.
Proof.
  intros Hn. unfold temps. apply set_eq. intros x. rewrite !elem_of_filter, !elem_of_dom.
  destruct (decide (x = name)) as [->|Hx].
  - unfold is_temp in Hn. rewrite Hn. naive_solver.
  - by rewrite lookup_insert_ne.
Qed.
Lemma temps_delete f name : is_temp name = false → temps (delete name f) = temps f.
Proof.
  intros Hn. unfold temps. apply set_eq. intros x. rewrite !elem_of_filter, !elem_of_dom.
  destruct (decide (x = name)) as [->|Hx].
  - unfold is_temp in Hn. rewrite Hn. naive_solver.
  - by rewrite lookup_delete_ne.
Qed.
Lemma room_files d n f past next :
  room d n → temps f = temps (dk_files d) → (next < 2 ^ 64)%N → room (mkDisk f past next) n.
Proof. intros [Hn Hs] Ht Hx. split; [done|]. cbn [dk_files]. by rewrite Ht. Qed.
Lemma room_le d n m : room d n → m ≤ n → room d m.
Proof. intros [Hn Hs] Hm. split; [done|]. lia. Qed.

Lemma seg_not_temp r : range_ok r → is_temp (segment_file_name r) = false.
Proof.
  intros _. unfold is_temp. eapply not_ends_with; [reflexivity| |].
  - unfold segment_file_name. rewrite !app_assoc. by apply suffix_last.
  - done.
Qed.
Lemma open_not_temp n : is_temp (open_segment_file_name n) = false.
Proof.
  unfold is_temp. eapply not_ends_with; [reflexivity| |].
  - unfold open_segment_file_name. by apply suffix_last.
  - done.
Qed.

Section inv.
Context `{Sha256} (pid : N).

(** Writing a file beside its place and renaming it. *)
Lemma install_file_run final c d n :
  room d n → is_temp final = false →
  ∃ d' id, install_file pid final c d = (Ok (), d') ∧ dk_files d' = <[final := c]> (dk_files d) ∧ room d' n
    ∧ dk_files d !! temp_name pid final id = None
    ∧ ∃ past, dk_past d' = dk_past d ++ past
        ∧ Forall (λ f, f = dk_files d ∨ ∃ x, f = <[temp_name pid final id := x]> (dk_files d)) past.
Proof.
  intros Hr Hf. destruct (create_unique_ok pid d final (room_le _ _ _ Hr (Nat.le_0_l _))) as (temp & next & Hc & Hfree & [id Hid] & Hn).
  assert (temp ≠ final) as Hne.
  { intros ->. rewrite Hid in Hf. unfold is_temp in Hf. by rewrite temp_ends in Hf. }
  set (d1 := mkDisk (<[temp := []]> (dk_files d)) (dk_past d ++ [dk_files d]) next) in *.
  unfold install_file. rewrite (bind_Ok_run _ _ d d1 temp Hc).
  rewrite (bind_Ok_run _ _ d1 _ () (write_all_run temp c d1 [] ltac:(cbn; by rewrite lookup_insert_eq))).
  rewrite (rename_run temp final _ c) by (cbn; by rewrite lookup_insert_eq).
  assert (<[final := c]> (delete temp (<[temp := c]> (<[temp := []]> (dk_files d)))) = <[final := c]> (dk_files d)) as Hfs.
  { rewrite insert_insert_eq, delete_insert_id by done. done. }
  eexists _, id. split; [reflexivity|]. unfold changed. cbn [dk_files dk_past dk_next_temp d1 app]. rewrite Hfs, <-Hid. split_and!; [done| |done|].
  - eapply room_files; [exact Hr|by apply temps_insert|done].
  - eexists. rewrite <-!app_assoc. split; [reflexivity|]. cbn [app]. constructor; [by left|]. apply Forall_app. split.
    + apply Forall_fmap, Forall_forall. intros j _. cbn. right. rewrite insert_insert_eq. by eexists.
    + constructor; [|done]. right. rewrite insert_insert_eq. by eexists.
Qed.
Lemma install_file_ok final c d n :
  room d n → is_temp final = false →
  ∃ d', install_file pid final c d = (Ok (), d') ∧ dk_files d' = <[final := c]> (dk_files d) ∧ room d' n
    ∧ ∃ past, dk_past d' = dk_past d ++ past ∧ Forall (visible_eq (dk_files d)) past.
Proof.
  intros Hr Hf. destruct (install_file_run final c d n Hr Hf) as (d' & id & Hi & Hd & Hr' & _ & past & Hp & Hall).
  exists d'. split_and!; [done|done|done|]. exists past. split; [done|]. eapply Forall_impl; [exact Hall|].
  intros f [->|[x ->]]; [done|]. intros name Hname. rewrite lookup_insert_ne; [done|].
  intros <-. unfold is_temp in Hname. by rewrite temp_ends in Hname.
Qed.

(** ** The invariant *)

Definition anchor_on_disk (f : files) (a : option RecoveryAnchor) : Prop :=
  match a with
  | None => f !! ANCHOR_FILE_NAME = None
  | Some a => ∃ l, f !! ANCHOR_FILE_NAME = Some l ∧ decode_anchor l = Ok a
  end.

(** The log that continues the anchor. *)
Record log_inv (s : FileLogStoreInner) (i : N) (h : LogHash) : Prop := {
  li_base : after_anchor (fs_anchor s) = Ok (i, h);
  li_log : log_from (fs_cluster_id s) (fs_epoch s) i h (all_entries s) = true;
  li_next : fs_open_segment s ≠ None → (next_index i (flat (fs_segments s)) ≤ u64_max)%N;
  li_open : open_on_disk (fs_cluster_id s) (fs_epoch s) (next_index i (flat (fs_segments s)))
              (dk_files (fs_disk s)) (fs_open_segment s)
}.

Record store_inv (s : FileLogStoreInner) : Prop := {
  si_cluster : fs_cluster_id s ≠ [];
  si_epoch : is_u64 (fs_epoch s) = true;
  si_anchor : anchor_on_disk (dk_files (fs_disk s)) (fs_anchor s);
  si_identity : validate_anchor_identity (fs_anchor s) (fs_cluster_id s) (fs_epoch s) = Ok ();
  si_segs : Forall seg_wf (fs_segments s);
  si_log : ∃ i h, log_inv s i h;
  si_config : config_run (base_configuration (fs_initial_configuration s) (fs_anchor s)) (all_entries s)
              = Ok (fs_configuration_state s);
  si_closed : closed_on_disk (dk_files (fs_disk s)) (fs_segments s);
  si_truncate : dk_files (fs_disk s) !! TRUNCATE_INTENT_FILE_NAME = None;
  si_compact : dk_files (fs_disk s) !! COMPACT_INTENT_FILE_NAME = None;
  si_room : room (fs_disk s) 2
}.

Lemma read_anchor_ok d a : anchor_on_disk (dk_files d) a → read_anchor d = (Ok a, d).
Proof.
  unfold read_anchor. destruct a as [a|]; cbn [anchor_on_disk].
  - intros (l & Hl & Hd). rewrite (bind_Ok_run _ _ d d true) by (by eapply exists_true).
    rewrite (bind_Ok_run _ _ d d l) by (by apply read_run). rewrite (bind_Ok_run _ _ d d a) by (unfold of_result; by rewrite Hd). done.
  - intros Hn. by rewrite (bind_Ok_run _ _ d d false) by (by apply exists_false).
Qed.

Lemma all_entries_eq s : all_entries s = flat (fs_segments s) ++ open_entries s.
Proof. done. Qed.

(** Opening a directory, after the recovery of intents. *)
Lemma open_run d d1 d2 c epoch initial anchor segs cfg i h :
  c ≠ [] → recover_truncate_intent d = (Ok (), d1) → recover_compact_intent pid d1 = (Ok (), d2) →
  anchor_on_disk (dk_files d2) anchor → validate_anchor_identity anchor c epoch = Ok () →
  after_anchor anchor = Ok (i, h) → Forall seg_wf segs → log_from c epoch i h (flat segs) = true →
  closed_on_disk (dk_files d2) segs → config_run (base_configuration initial anchor) (flat segs) = Ok cfg →
  open_with_configuration pid d c epoch initial =
  ('(open_segment, configuration_state) ← scan_open_segment c epoch anchor segs cfg;
   d ← get;
   mret (mkStore d c epoch initial configuration_state anchor segs open_segment)) d2.
Proof.
  intros Hc Ht Hcp Ha Hid Hbase Hsegs Hl Hcl Hcfg. unfold open_with_configuration.
  rewrite (bind_Ok_run _ _ d d ()).
  2:{ unfold of_result. destruct (N.eqb_spec (blen c) 0) as [Hz|]; [|done]. destruct c; [done|rewrite blen_cons in Hz; lia]. }
  rewrite (bind_Ok_run _ _ d d1 () Ht), (bind_Ok_run _ _ d1 d2 () Hcp), (bind_Ok_run _ _ d2 d2 _ (read_anchor_ok d2 _ Ha)).
  rewrite (bind_Ok_run _ _ d2 d2 ()) by (unfold of_result; by rewrite Hid). rewrite get_run.
  rewrite (bind_Ok_run _ _ d2 d2 (segs, cfg)); [done|].
  unfold of_result. by rewrite (scan_closed_ok _ _ _ _ _ segs cfg i h).
Qed.

Lemma no_truncate_intent d : dk_files d !! TRUNCATE_INTENT_FILE_NAME = None → recover_truncate_intent d = (Ok (), d).
Proof. intros Hn. unfold recover_truncate_intent. by rewrite (bind_Ok_run _ _ d d false) by (by apply exists_false). Qed.
Lemma no_compact_intent d : dk_files d !! COMPACT_INTENT_FILE_NAME = None → recover_compact_intent pid d = (Ok (), d).
Proof. intros Hn. unfold recover_compact_intent. by rewrite (bind_Ok_run _ _ d d false) by (by apply exists_false). Qed.

Lemma reopen_inv s :
  store_inv s →
  open_with_configuration pid (fs_disk s) (fs_cluster_id s) (fs_epoch s) (fs_initial_configuration s)
  = (Ok s, fs_disk s).
Proof.
  intros [Hc He Ha Hid Hsegs (i & h & Hlog) Hcfg Hcl Ht Hcp _]. destruct Hlog as [Hbase Hl Hnext Hopen].
  rewrite all_entries_eq in Hl, Hcfg. rewrite config_run_app, bind_Ok_inv in Hcfg. destruct Hcfg as (cfg & Hc1 & Hc2).
  pose proof Hl as Hl'. rewrite log_from_app, andb_true_iff in Hl'. destruct Hl' as [Hl1 _].
  rewrite (open_run _ _ _ _ _ _ (fs_anchor s) (fs_segments s) cfg i h Hc (no_truncate_intent _ Ht) (no_compact_intent _ Hcp)) by done.
  rewrite (bind_Ok_run _ _ (fs_disk s) (fs_disk s) (fs_open_segment s, fs_configuration_state s)).
  2:{ by apply (scan_open_ok _ _ _ _ cfg _ i h (fs_disk s) (fs_open_segment s)). }
  cbn beta iota. rewrite get_run. unfold mret, st_ret. by destruct s.
Qed.

(** ** Operations of the store *)

Lemma on_disk_run {A} (m : io A) s a d :
  m (fs_disk s) = (Ok a, d) → on_disk m s = (Ok a, set_disk d s).
Proof. intros Hm. unfold on_disk. by rewrite Hm. Qed.

(** The same log of the same cluster, behind possibly different files. *)
Record same_log (s s' : FileLogStoreInner) : Prop := {
  sl_cluster : fs_cluster_id s' = fs_cluster_id s;
  sl_epoch : fs_epoch s' = fs_epoch s;
  sl_initial : fs_initial_configuration s' = fs_initial_configuration s;
  sl_anchor : fs_anchor s' = fs_anchor s;
  sl_config : fs_configuration_state s' = fs_configuration_state s;
  sl_entries : all_entries s' = all_entries s
}.
Lemma same_log_refl s : same_log s s.
Proof. done. Qed.
Lemma same_log_trans s1 s2 s3 : same_log s1 s2 → same_log s2 s3 → same_log s1 s3.
Proof. intros [] []. split; congruence. Qed.

(** The directories that an operation went through. *)
Definition passed (s s' : FileLogStoreInner) (P : files → Prop) : Prop :=
  ∃ past, dk_past (fs_disk s') = dk_past (fs_disk s) ++ past ∧ Forall P past.
Lemma passed_refl s P : passed s s P.
Proof. exists []. by rewrite app_nil_r. Qed.
Lemma passed_trans s1 s2 s3 P : passed s1 s2 P → passed s2 s3 P → passed s1 s3 P.
Proof.
  intros (p1 & H1 & F1) (p2 & H2 & F2). exists (p1 ++ p2). rewrite H2, H1, app_assoc. split; [done|].
  by apply Forall_app.
Qed.
Lemma passed_impl (s s' : FileLogStoreInner) (P Q : files → Prop) : passed s s' P → (∀ f, P f → Q f) → passed s s' Q.
Proof. intros (p & Hp & HF) HPQ. exists p. split; [done|]. by eapply Forall_impl. Qed.

Lemma visible_refl f : visible_eq f f.
Proof. done. Qed.

(** A name that is not one of the store's files does not matter to it. *)
Lemma other_anchor_ne name : is_open_name name = true ∨ is_closed_name name = true → name ≠ ANCHOR_FILE_NAME.
Proof. intros Hn ->. destruct other_anchor as [H1 H2]. rewrite H1, H2 in Hn. naive_solver. Qed.
Lemma other_truncate_ne name : is_open_name name = true ∨ is_closed_name name = true → name ≠ TRUNCATE_INTENT_FILE_NAME.
Proof. intros Hn ->. destruct other_truncate as [H1 H2]. rewrite H1, H2 in Hn. naive_solver. Qed.
Lemma other_compact_ne name : is_open_name name = true ∨ is_closed_name name = true → name ≠ COMPACT_INTENT_FILE_NAME.
Proof. intros Hn ->. destruct other_compact as [H1 H2]. rewrite H1, H2 in Hn. naive_solver. Qed.
Lemma closed_open_ne name name' : is_open_name name = true → is_closed_name name' = true → name ≠ name'.
Proof. intros Ho Hc ->. unfold is_closed_name in Hc. by rewrite Ho in Hc. Qed.

(** The parts of the invariant that depend on files other than segments. *)
Lemma anchor_on_disk_eq f g a : g !! ANCHOR_FILE_NAME = f !! ANCHOR_FILE_NAME → anchor_on_disk f a → anchor_on_disk g a.
Proof. intros Hg. unfold anchor_on_disk. by rewrite Hg. Qed.

Lemma closed_on_disk_eq f g segs :
  (∀ name, is_closed_name name = true → g !! name = f !! name) → Forall (λ seg, range_ok (seg_range seg)) segs →
  closed_on_disk f segs → closed_on_disk g segs.
Proof.
  intros Hg Hr [H1 H2]. split.
  - intros name Hn Hin. apply H1; [done|]. by rewrite <-Hg.
  - rewrite !Forall_forall in *. intros seg Hseg. rewrite Hg; [by apply H2|]. apply (closed_name (seg_range seg)). by apply Hr.
Qed.

Lemma segs_ranges c epoch i h segs :
  Forall seg_wf segs → log_from c epoch i h (flat segs) = true → Forall (λ seg, range_ok (seg_range seg)) segs.
Proof. intros Hwf Hl. eapply Forall_impl; [by eapply segs_from|]. by intros x [_ ?]. Qed.

Lemma inv_log_closed s i h :
  log_inv s i h → log_from (fs_cluster_id s) (fs_epoch s) i h (flat (fs_segments s)) = true.
Proof. intros [_ Hl _ _]. rewrite all_entries_eq, log_from_app, andb_true_iff in Hl. tauto. Qed.

(** Sealing an empty open segment removes its file. *)
Lemma seal_empty_ok s o :
  store_inv s → fs_open_segment s = Some o → os_entries o = [] →
  ∃ s', seal_open_segment pid s = (Ok (), s') ∧ store_inv s' ∧ same_log s s' ∧ fs_open_segment s' = None
    ∧ passed s s' (visible_eq (dk_files (fs_disk s))) ∧ fs_segments s' = fs_segments s.
Proof.
  intros Hinv Ho Hes. destruct Hinv as [Hc He Ha Hid Hsegs (i & h & Hlog) Hcfg Hcl Ht Hcp Hroom].
  pose proof Hlog as [Hbase Hl Hnext Hopen]. rewrite Ho in Hopen, Hnext. cbn [open_on_disk] in Hopen.
  destruct Hopen as [Hpath Hfile Honly _ _ _ _].
  assert (is_open_name (os_path o) = true) as Hon by (rewrite Hpath; apply open_name).
  unfold seal_open_segment. rewrite get_run, Ho, Hes. cbn [head last].
  rewrite (bind_Ok_run _ _ s _ () (on_disk_run _ s _ _ (remove_run _ _ _ Hfile))).
  eexists. split; [reflexivity|]. set (s' := set_open None _).
  assert (all_entries s' = all_entries s) as Hall.
  { rewrite !all_entries_eq. unfold open_entries. cbn. by rewrite Ho, Hes. }
  assert (∀ name, name ≠ os_path o → dk_files (fs_disk s') !! name = dk_files (fs_disk s) !! name) as Hkeep.
  { intros name Hn. cbn. by rewrite lookup_delete_ne. }
  split; [split|split_and!]; try done.
  - eapply anchor_on_disk_eq; [|done]. apply Hkeep. apply not_eq_sym, other_anchor_ne. by left.
  - exists i, h. split; [done|by rewrite Hall|done|]. cbn [open_on_disk s' fs_open_segment set_open set_log].
    intros name Hn. cbn. destruct (decide (name = os_path o)) as [->|Hne]; [by rewrite lookup_delete_eq|].
    rewrite lookup_delete_ne by done. destruct (dk_files (fs_disk s) !! name) eqn:E; [|done].
    exfalso. apply Hne, Honly; [done|by eexists].
  - by rewrite Hall.
  - eapply closed_on_disk_eq; [| |exact Hcl].
    + intros name Hn. apply Hkeep. intros ->. by eapply closed_open_ne.
    + eapply segs_ranges; [done|]. exact (inv_log_closed s i h Hlog).
  - cbn. rewrite lookup_delete_ne; [done|]. apply other_truncate_ne. by left.
  - cbn. rewrite lookup_delete_ne; [done|]. apply other_compact_ne. by left.
  - eapply room_files; [exact Hroom| |apply Hroom]. apply temps_delete. rewrite Hpath. apply open_not_temp.
  - exists [dk_files (fs_disk s)]. split; [done|]. constructor; [apply visible_refl|done].
Qed.

Lemma blen_encode_segment e es :
  blen (encode_segment (e :: es)) = (QLOG_HEADER_LEN + blen (frames (e :: es)) + FOOTER_LEN)%N.
Proof.
  destruct (encode_segment_cons e es) as (lst & _ & _ & ->). by rewrite !blen_app, blen_header, blen_footer.
Qed.
Lemma blen_open_bytes c epoch cfg i es : blen (open_bytes c epoch cfg i es) = (QLOG_HEADER_LEN + blen (frames es))%N.
Proof. unfold open_bytes. by rewrite blen_app, blen_header. Qed.

(** The next segment has a name of its own. *)
Lemma next_segment_fresh c epoch i h f segs seg :
  Forall seg_wf segs → log_from c epoch i h (flat segs) = true → closed_on_disk f segs →
  range_ok (seg_range seg) → cs_start seg = next_index i (flat segs) → f !! segment_name seg = None.
Proof.
  intros Hwf Hl [Hin _] Hr Hs. destruct (f !! segment_name seg) eqn:E; [exfalso|done].
  assert (segment_name seg ∈ segment_name <$> segs) as (x & Heq & Hx)%list_elem_of_fmap.
  { apply Hin; [by apply (closed_name (seg_range seg))|by eexists]. }
  pose proof (segs_start_lt _ _ _ _ _ Hwf Hl) as Hlt. pose proof (segs_ranges _ _ _ _ _ Hwf Hl) as Hrs.
  rewrite Forall_forall in Hlt, Hrs. apply (segment_file_name_inj (seg_range seg) (seg_range x)) in Heq; [|done|by apply Hrs].
  injection Heq as Hst _. specialize (Hlt x Hx). lia.
Qed.

Lemma publish_closed_ok seg d n :
  cs_entries seg ≠ [] → range_ok (seg_range seg) → dk_files d !! segment_name seg = None → room d n →
  ∃ d', publish_closed_segment pid (cs_entries seg) d = (Ok (segment_name seg), d')
    ∧ dk_files d' = <[segment_name seg := encode_segment (cs_entries seg)]> (dk_files d) ∧ room d' n
    ∧ ∃ past, dk_past d' = dk_past d ++ past ∧ Forall (visible_eq (dk_files d)) past.
Proof.
  intros Hne Hr Hfree Hroom. unfold publish_closed_segment.
  destruct (cs_entries seg) as [|e es] eqn:Hes; [done|].
  destruct (last (e :: es)) as [lst|] eqn:Hlast; [|by apply last_None in Hlast].
  assert (cs_start seg = le_index e) as Hse by (unfold cs_start; by rewrite Hes).
  assert (cs_end seg = le_index lst) as Hee by (unfold cs_end; by rewrite Hes, Hlast).
  cbn [head]. rewrite (bind_Ok_run _ _ d d e) by done. rewrite (bind_Ok_run _ _ d d lst) by done.
  assert (IndexRange_new (le_index e) (le_index lst) = Ok (seg_range seg)) as Hrange.
  { unfold IndexRange_new, seg_range. rewrite <-Hse, <-Hee. destruct Hr as [Hr _]. cbn in Hr.
    by destruct (N.ltb_spec (cs_end seg) (cs_start seg)); [lia|]. }
  rewrite (bind_Ok_run _ _ d d (seg_range seg)) by (unfold of_result; by rewrite Hrange).
  change (segment_file_name (seg_range seg)) with (segment_name seg).
  rewrite (bind_Ok_run _ _ d d false) by (by apply exists_false).
  destruct (install_file_ok (segment_name seg) (encode_segment (e :: es)) d n Hroom) as (d' & Hi & Hd & Hr' & Hp).
  { by apply (seg_not_temp (seg_range seg)). }
  exists d'. split; [by rewrite (bind_Ok_run _ _ d d' () Hi)|]. by rewrite Hd.
Qed.

(** What is known of a store with a non-empty open segment. *)
Record open_facts (s : FileLogStoreInner) (o : OpenSegment) (i : N) (h : LogHash) : Prop := {
  of_base : after_anchor (fs_anchor s) = Ok (i, h);
  of_closed : log_from (fs_cluster_id s) (fs_epoch s) i h (flat (fs_segments s)) = true;
  of_entries : log_from (fs_cluster_id s) (fs_epoch s) (next_index i (flat (fs_segments s)))
                 (tip_hash h (flat (fs_segments s))) (os_entries o) = true;
  of_next : (next_index i (flat (fs_segments s)) ≤ u64_max)%N;
  of_wf : open_wf (fs_cluster_id s) (fs_epoch s) (next_index i (flat (fs_segments s))) (dk_files (fs_disk s)) o
}.
Lemma open_facts_of s o : store_inv s → fs_open_segment s = Some o → ∃ i h, open_facts s o i h.
Proof.
  intros [_ _ _ _ Hsegs (i & h & Hlog) _ _ _ _ _] Ho. exists i, h. pose proof (inv_log_closed s i h Hlog) as Hlc.
  destruct Hlog as [Hb Hl Hnext Hopen]. rewrite Ho in Hopen. cbn [open_on_disk] in Hopen.
  rewrite all_entries_eq, log_from_app, andb_true_iff in Hl. unfold open_entries in Hl. rewrite Ho in Hl.
  split; [done|done|tauto|apply Hnext; by rewrite Ho|done].
Qed.

Lemma open_segment_range s o i h :
  open_facts s o i h → os_entries o ≠ [] →
  let seg := mkClosed (os_entries o) in
  range_ok (seg_range seg) ∧ cs_start seg = next_index i (flat (fs_segments s))
  ∧ is_open_name (os_path o) = true ∧ is_closed_name (segment_name seg) = true ∧ os_path o ≠ segment_name seg.
Proof.
  intros [_ _ Hlo _ Hw] Hes seg. change (os_entries o) with (cs_entries seg) in Hlo.
  destruct (seg_bounds _ _ _ _ seg Hes Hlo) as (Hs & _ & Hr & _).
  assert (is_open_name (os_path o) = true) as Hon by (rewrite (ow_path _ _ _ _ _ Hw); apply open_name).
  assert (is_closed_name (segment_name seg) = true) as Hcn by (by apply (closed_name (seg_range seg))).
  split_and!; [done|done|done|done|by apply closed_open_ne].
Qed.

(** The store after its open segment was closed. *)
Lemma sealed_inv s o d :
  let seg := mkClosed (os_entries o) in
  store_inv s → fs_open_segment s = Some o → os_entries o ≠ [] →
  dk_files d = delete (os_path o) (<[segment_name seg := encode_segment (os_entries o)]> (dk_files (fs_disk s))) →
  room d 2 →
  let s' := set_log (fs_segments s ++ [seg]) None (set_disk d s) in store_inv s' ∧ same_log s s'.
Proof.
  intros seg Hinv Ho Hes Hd Hroom s'. destruct (open_facts_of s o Hinv Ho) as (i & h & Hof).
  destruct (open_segment_range s o i h Hof Hes) as (Hrok & Hs & Hon & Hcn & Hne). fold seg in Hrok, Hs, Hcn, Hne.
  destruct Hof as [Hbase Hlc Hlo Hnext [Hpath Hfile Honly Hlen Hconf Hsize _]].
  destruct Hinv as [Hc He Ha Hid Hsegs (i' & h' & Hlog) Hcfg Hcl Ht Hcp _].
  destruct Hlog as [Hbase' Hl _ _]. rewrite Hbase in Hbase'. apply Ok_inj, pair_eq in Hbase' as [<- <-].
  pose proof (next_segment_fresh _ _ _ _ _ _ seg Hsegs Hlc Hcl Hrok Hs) as Hfree.
  assert (all_entries s' = all_entries s) as Hall.
  { rewrite !all_entries_eq. unfold open_entries. change (fs_segments s') with (fs_segments s ++ [seg]).
    rewrite flat_app, flat_one, Ho. apply app_nil_r. }
  assert (∀ name, name ≠ os_path o → name ≠ segment_name seg →
    dk_files (fs_disk s') !! name = dk_files (fs_disk s) !! name) as Hkeep.
  { intros name H1 H2. cbn. rewrite Hd, lookup_delete_ne, lookup_insert_ne; done. }
  split; [|done]. split; try done.
  - eapply anchor_on_disk_eq; [|done]. apply Hkeep; apply not_eq_sym, other_anchor_ne; auto.
  - cbn. apply Forall_app. split; [done|]. constructor; [|done]. split_and!; [done|by eexists|].
    cbn [cs_entries seg]. destruct (os_entries o); [done|].
    rewrite blen_encode_segment. rewrite Hlen, blen_open_bytes in Hsize. unfold u64_max, FOOTER_LEN. lia.
  - exists i, h. split; [done|by rewrite Hall|done|]. intros name Hn. cbn. rewrite Hd.
    destruct (decide (name = os_path o)) as [->|Hno]; [by rewrite lookup_delete_eq|].
    rewrite lookup_delete_ne, lookup_insert_ne; [|by apply not_eq_sym, closed_open_ne|done].
    destruct (dk_files (fs_disk s) !! name) eqn:E; [|done]. exfalso. apply Hno, Honly; [done|by eexists].
  - by rewrite Hall.
  - split.
    + intros name Hn Hin. cbn. rewrite fmap_app. apply elem_of_app.
      destruct (decide (name = segment_name seg)) as [->|Hns]; [right; by left|]. left. destruct Hcl as [Hcl _]. apply Hcl; [done|].
      rewrite <-Hkeep; [done| |done]. intros ->. by eapply closed_open_ne.
    + pose proof (segs_ranges _ _ _ _ _ Hsegs Hlc) as Hrs. cbn. apply Forall_app. split; [|constructor; [|done]].
      * destruct Hcl as [_ Hcl]. rewrite Forall_forall in *. intros x Hx.
        assert (is_closed_name (segment_name x) = true) as Hcx by (apply (closed_name (seg_range x)); by apply Hrs).
        specialize (Hcl x Hx). cbn in Hcl. rewrite Hd, lookup_delete_ne, lookup_insert_ne; [done| |by apply closed_open_ne].
        intros Heq. rewrite <-Heq, Hfree in Hcl. done.
      * rewrite Hd, lookup_delete_ne, lookup_insert_eq by done. done.
  - rewrite Hkeep; [done|apply not_eq_sym, other_truncate_ne; auto..].
  - rewrite Hkeep; [done|apply not_eq_sym, other_compact_ne; auto..].
Qed.

(** Sealing turns the open segment into a closed one. *)
Lemma seal_nonempty_ok s o :
  store_inv s → fs_open_segment s = Some o → os_entries o ≠ [] →
  let closed := <[segment_name (mkClosed (os_entries o)) := encode_segment (os_entries o)]> (dk_files (fs_disk s)) in
  ∃ s', seal_open_segment pid s = (Ok (), s') ∧ store_inv s' ∧ same_log s s' ∧ fs_open_segment s' = None
    ∧ passed s s' (λ f, visible_eq (dk_files (fs_disk s)) f ∨ f = closed)
    ∧ length (fs_segments s') = S (length (fs_segments s)).
Proof.
  intros Hinv Ho Hes closed. destruct (open_facts_of s o Hinv Ho) as (i & h & Hof).
  destruct (open_segment_range s o i h Hof Hes) as (Hrok & Hs & Hon & Hcn & Hne).
  destruct Hof as [Hbase Hlc Hlo Hnext [Hpath Hfile _ _ _ _ _]].
  pose proof (next_segment_fresh _ _ _ _ _ _ _ (si_segs s Hinv) Hlc (si_closed s Hinv) Hrok Hs) as Hfree.
  destruct (publish_closed_ok (mkClosed (os_entries o)) (fs_disk s) 2 Hes Hrok Hfree (si_room s Hinv)) as (d1 & Hpub & Hd1 & Hroom1 & past & Hpast & Hvis).
  set (name := segment_name (mkClosed (os_entries o))) in *. cbn [cs_entries] in *.
  assert (dk_files d1 !! os_path o = dk_files (fs_disk s) !! os_path o) as Hopath by (rewrite Hd1, lookup_insert_ne; done).
  set (d2 := changed d1 (delete (os_path o) (dk_files d1))).
  assert (room d2 2) as Hroom2.
  { eapply room_files; [exact Hroom1| |apply Hroom1]. apply temps_delete. rewrite Hpath. apply open_not_temp. }
  destruct (sealed_inv s o d2 Hinv Ho Hes) as [Hinv' Hsame]; [cbn; by rewrite Hd1|done|].
  exists (set_log (fs_segments s ++ [mkClosed (os_entries o)]) None (set_disk d2 s)). split; [|split_and!; [done|done|done| |cbn; rewrite length_app; cbn; lia]].
  - unfold seal_open_segment. rewrite get_run, Ho. cbn [cs_entries] in *.
    destruct (os_entries o) as [|e es] eqn:Hoe; [done|].
    destruct (last (e :: es)) as [lst|] eqn:Hlast; [|by apply last_None in Hlast]. cbn [head].
    assert (IndexRange_new (le_index e) (le_index lst) = Ok (seg_range (mkClosed (e :: es)))) as Hrange.
    { unfold IndexRange_new, seg_range, range_ok, cs_start, cs_end in *. cbn [cs_entries ir_start ir_end seg_range] in *. rewrite Hlast in *.
      cbn in Hrok |- *. by destruct (N.ltb_spec (le_index lst) (le_index e)); [lia|]. }
    rewrite (bind_Ok_run _ _ s s (seg_range (mkClosed (e :: es)))) by (unfold of_result; by rewrite Hrange).
    change (segment_file_name (seg_range (mkClosed (e :: es)))) with name.
    rewrite (bind_Ok_run _ _ s s false).
    2:{ rewrite (on_disk_run _ s false (fs_disk s)) by (by apply exists_false). by destruct s. }
    rewrite (bind_Ok_run _ _ s (set_disk d1 s) ()).
    2:{ by rewrite (bind_Ok_run _ _ s (set_disk d1 s) name) by (by apply on_disk_run). }
    rewrite (bind_Ok_run _ _ (set_disk d1 s) _ () (on_disk_run _ (set_disk d1 s) _ _ (remove_run _ d1 _ ltac:(by rewrite Hopath)))).
    done.
  - exists (past ++ [dk_files d1]). split; [cbn; by rewrite Hpast, app_assoc|]. apply Forall_app. split.
    + eapply Forall_impl; [exact Hvis|]. auto.
    + constructor; [|done]. right. by rewrite Hd1.
Qed.

(** The directories sealing goes through: the old files, or both forms of the segment. *)
Definition sealing (s : FileLogStoreInner) (f : files) : Prop :=
  visible_eq (dk_files (fs_disk s)) f
  ∨ ∃ o, fs_open_segment s = Some o ∧ os_entries o ≠ []
      ∧ f = <[segment_name (mkClosed (os_entries o)) := encode_segment (os_entries o)]> (dk_files (fs_disk s)).

Lemma seal_ok s :
  store_inv s →
  ∃ s', seal_open_segment pid s = (Ok (), s') ∧ store_inv s' ∧ same_log s s' ∧ fs_open_segment s' = None
    ∧ passed s s' (sealing s) ∧ length (fs_segments s') ≤ S (length (fs_segments s)).
Proof.
  intros Hinv. destruct (fs_open_segment s) as [o|] eqn:Ho.
  2:{ exists s. unfold seal_open_segment. rewrite get_run, Ho. split_and!; [done..|apply passed_refl|lia]. }
  destruct (os_entries o) as [|e es] eqn:Hes.
  - destruct (seal_empty_ok s o Hinv Ho Hes) as (s' & Hs & Hi & Hl & Hn & Hp & Hlen). exists s'. split_and!; [done..| |rewrite Hlen; lia].
    eapply passed_impl; [exact Hp|]. intros f Hf. by left.
  - destruct (seal_nonempty_ok s o Hinv Ho) as (s' & Hs & Hi & Hl & Hn & Hp & Hlen); [by rewrite Hes|]. exists s'. split_and!; [done..| |lia].
    eapply passed_impl; [exact Hp|]. intros f [Hf|Hf]; [by left|right]. exists o. rewrite Hes. by rewrite Hes in Hf.
Qed.

(** The entry that the log takes next. *)
Record next_entry (s : FileLogStoreInner) (e : LogEntry) : Prop := {
  ne_index : ∀ i h, after_anchor (fs_anchor s) = Ok (i, h) → le_index e = next_index i (all_entries s);
  ne_cluster : le_cluster_id e = fs_cluster_id s;
  ne_epoch : le_epoch e = fs_epoch s;
  ne_fits : entry_fits e = true
}.

Lemma fits_u64 e : entry_fits e = true → (le_index e ≤ u64_max)%N ∧ is_u64 (le_config_id e) = true ∧ (blen (le_payload e) ≤ u32_max)%N.
Proof.
  unfold entry_fits, is_u64, FRAME_MIN_LEN. rewrite !andb_true_iff, !N.leb_le. intros ([[Hi _] Hc] & Hp).
  split_and!; [done|done|lia].
Qed.

(** A fresh open segment. *)
Lemma create_open_ok s e :
  store_inv s → next_entry s e → fs_open_segment s = None →
  ∃ d, install_file pid (open_segment_file_name (le_index e)) (encode_header e) (fs_disk s) = (Ok (), d)
    ∧ let o := mkOpen (le_config_id e) (open_segment_file_name (le_index e)) QLOG_HEADER_LEN [] in
      let s' := set_open (Some o) (set_disk d s) in
      dk_files (fs_disk s) !! open_segment_file_name (le_index e) = None
      ∧ store_inv s' ∧ same_log s s' ∧ passed s s' (visible_eq (dk_files (fs_disk s))).
Proof.
  intros Hinv [Hix Hcl' Hep' Hfit] Ho. destruct Hinv as [Hc He Ha Hid Hsegs (i & h & Hlog) Hcfg Hcl Ht Hcp Hroom].
  pose proof (inv_log_closed s i h Hlog) as Hlc. destruct Hlog as [Hbase Hl Hnext Hopen]. specialize (Hix i h Hbase).
  rewrite Ho in Hopen. cbn [open_on_disk] in Hopen. destruct (fits_u64 e Hfit) as (Hiu & Hcu & _).
  assert (all_entries s = flat (fs_segments s)) as Hall by (rewrite all_entries_eq; unfold open_entries; by rewrite Ho, app_nil_r).
  set (name := open_segment_file_name (le_index e)) in *.
  destruct (install_file_ok name (encode_header e) (fs_disk s) 2 Hroom (open_not_temp _)) as (d & Hd & Hf & Hr & Hp).
  exists d. split; [done|]. assert (is_open_name name = true) as Hon by apply open_name.
  intros o s'. rewrite Hall in Hix.
  assert (all_entries s' = all_entries s) as Hall' by (rewrite Hall; unfold all_entries, flat; cbn; by rewrite app_nil_r).
  assert (∀ n, n ≠ name → dk_files (fs_disk s') !! n = dk_files (fs_disk s) !! n) as Hkeep.
  { intros n Hn. cbn. rewrite Hf, lookup_insert_ne; done. }
  split_and!; [by apply Hopen| |done|done]. split; try done.
  - eapply anchor_on_disk_eq; [|done]. apply Hkeep. apply not_eq_sym, other_anchor_ne. by left.
  - exists i, h. split; [done|by rewrite Hall'|intros _; change (fs_segments s') with (fs_segments s); by rewrite <-Hix|].
    change (open_wf (fs_cluster_id s) (fs_epoch s) (next_index i (flat (fs_segments s))) (dk_files d) o).
    rewrite <-Hix. split; cbn [os_path os_bytes_len os_entries os_config_id o]; rewrite ?Hf.
    + done.
    + rewrite lookup_insert_eq, <-Hcl', <-Hep', open_bytes_of. by rewrite app_nil_r.
    + intros n Hn Hin. destruct (decide (n = name)) as [->|Hne]; [done|].
      rewrite lookup_insert_ne, (Hopen n Hn) in Hin by done. by destruct Hin.
    + by rewrite blen_open_bytes.
    + done.
    + unfold QLOG_HEADER_LEN. lia.
    + done.
  - by rewrite Hall'.
  - eapply closed_on_disk_eq; [| |exact Hcl].
    + intros n Hn. apply Hkeep. intros ->. by eapply closed_open_ne.
    + by eapply segs_ranges.
  - rewrite Hkeep; [done|]. apply not_eq_sym, other_truncate_ne. by left.
  - rewrite Hkeep; [done|]. apply not_eq_sym, other_compact_ne. by left.
Qed.

Lemma next_entry_same s s' e : same_log s s' → next_entry s e → next_entry s' e.
Proof.
  intros [] [H1 H2 H3 H4]. split; [|congruence..|done]. intros i h Hl. rewrite sl_entries0. apply (H1 i h). congruence.
Qed.

(** An open segment of the configuration of [e] is at hand. *)
Lemma ensure_ok s e :
  store_inv s → next_entry s e →
  ∃ s' o, ensure_open_segment pid e s = (Ok (), s') ∧ store_inv s' ∧ same_log s s'
    ∧ fs_open_segment s' = Some o ∧ os_config_id o = le_config_id e
    ∧ (fs_open_segment s = None → os_entries o = [])
    ∧ passed s s' (λ f, sealing s f ∨ ∃ s1, store_inv s1 ∧ same_log s s1 ∧ visible_eq (dk_files (fs_disk s1)) f).
Proof.
  intros Hinv Hne. unfold ensure_open_segment. rewrite get_run.
  destruct (match fs_open_segment s with Some open => eqb (os_config_id open) (le_config_id e) | None => false end) eqn:Hm.
  - destruct (fs_open_segment s) as [o|] eqn:Ho; [|done]. apply (proj1 (eqb_true _ _)) in Hm.
    exists s, o. split_and!; [done|done|done|done|done|done|apply passed_refl].
  - destruct (seal_ok s Hinv) as (s1 & Hs1 & Hi1 & Hl1 & Hn1 & Hp1 & _). rewrite (bind_Ok_run _ _ s s1 () Hs1).
    destruct (create_open_ok s1 e Hi1 (next_entry_same _ _ _ Hl1 Hne) Hn1) as (d & Hd & Hfree & Hi2 & Hl2 & Hp2).
    rewrite (bind_Ok_run _ _ s1 s1 false).
    2:{ rewrite (on_disk_run _ s1 false (fs_disk s1)) by (by apply exists_false). by destruct s1. }
    rewrite (bind_Ok_run _ _ s1 (set_disk d s1) ()) by (by apply on_disk_run).
    eexists _, _. split; [reflexivity|]. split_and!; [done|by eapply same_log_trans|reflexivity|done|done|].
    eapply passed_trans; [eapply passed_impl; [exact Hp1|]; by left|].
    eapply passed_impl; [exact Hp2|]. intros f Hf. right. by exists s1.
Qed.

(** ** Appending *)

(** [es] can be appended to the log of [s]. *)
Definition appendable (s : FileLogStoreInner) (es : list LogEntry) : Prop :=
  ∀ i h, after_anchor (fs_anchor s) = Ok (i, h) →
    log_from (fs_cluster_id s) (fs_epoch s) (next_index i (all_entries s)) (tip_hash h (all_entries s)) es = true.

(** [s'] is [s] with [es] appended. *)
Record appended (s s' : FileLogStoreInner) (es : list LogEntry) : Prop := {
  ap_cluster : fs_cluster_id s' = fs_cluster_id s;
  ap_epoch : fs_epoch s' = fs_epoch s;
  ap_initial : fs_initial_configuration s' = fs_initial_configuration s;
  ap_anchor : fs_anchor s' = fs_anchor s;
  ap_config : config_run (fs_configuration_state s) es = Ok (fs_configuration_state s');
  ap_entries : all_entries s' = all_entries s ++ es
}.
Lemma appended_nil s s' : same_log s s' → appended s s' [].
Proof. intros []. split; try done; [by rewrite sl_config0|by rewrite app_nil_r]. Qed.
Lemma appended_app s1 s2 s3 es fs : appended s1 s2 es → appended s2 s3 fs → appended s1 s3 (es ++ fs).
Proof.
  intros [] []. split; try congruence.
  - rewrite config_run_app, ap_config0. done.
  - by rewrite ap_entries1, ap_entries0, app_assoc.
Qed.
Lemma appended_same s1 s2 s3 es : same_log s1 s2 → appended s2 s3 es → appended s1 s3 es.
Proof. intros Hs Ha. apply (appended_app s1 s2 s3 [] es); [by apply appended_nil|done]. Qed.

Lemma appendable_app s es fs : appendable s (es ++ fs) → appendable s es.
Proof. intros Ha i h Hb. specialize (Ha i h Hb). rewrite log_from_app, andb_true_iff in Ha. tauto. Qed.
Lemma appendable_rest s s' es fs : appendable s (es ++ fs) → appended s s' es → appendable s' fs.
Proof.
  intros Ha [] i h Hb. rewrite ap_cluster0, ap_epoch0, ap_entries0, next_index_app, tip_hash_app.
  rewrite ap_anchor0 in Hb. specialize (Ha i h Hb). rewrite log_from_app, andb_true_iff in Ha. tauto.
Qed.
Lemma appendable_next s e es : appendable s (e :: es) → store_inv s → next_entry s e.
Proof.
  intros Ha [_ _ _ _ _ (i & h & Hlog) _ _ _ _ _]. destruct Hlog as [Hb _ _ _].
  pose proof (Ha i h Hb) as (Hi & _ & He & Hs & Hf & _)%log_from_cons.
  split; [|unfold sealed_in in Hs; rewrite andb_true_iff, eqb_true in Hs; tauto|done|done].
  intros i' h' Hb'. rewrite Hb in Hb'. by apply Ok_inj, pair_eq in Hb' as [<- <-].
Qed.

(** The file of the open segment. *)
Definition open_contents (s : FileLogStoreInner) (o : OpenSegment) : bytes :=
  default [] (dk_files (fs_disk s) !! os_path o).

(** The store whose open segment was extended. *)
Definition extended (o : OpenSegment) (es : list LogEntry) : OpenSegment :=
  mkOpen (os_config_id o) (os_path o) (os_bytes_len o + blen (frames es)) (os_entries o ++ es).

Lemma extended_wf c epoch start f o es :
  let l := open_bytes c epoch (os_config_id o) start (os_entries o) in
  open_wf c epoch start f o → Forall (λ e, le_config_id e = os_config_id o) es →
  (os_bytes_len o + blen (frames es) ≤ 2 ^ 33)%N →
  open_wf c epoch start (<[os_path o := l ++ frames es]> f) (extended o es).
Proof.
  intros l [Hpath Hfile Honly Hlen Hoc Hsize Hcu] Hconf Hsz. split; cbn [os_path os_bytes_len os_entries os_config_id extended]; try done.
  - rewrite lookup_insert_eq. unfold l, open_bytes. by rewrite frames_app, app_assoc.
  - intros n Hn Hin. destruct (decide (n = os_path o)) as [|Hne]; [done|]. rewrite lookup_insert_ne in Hin by done. by apply Honly.
  - rewrite Hlen, !blen_open_bytes, frames_app, blen_app. lia.
  - by apply Forall_app.
Qed.

Lemma open_contents_eq s o i h :
  open_facts s o i h →
  open_contents s o = open_bytes (fs_cluster_id s) (fs_epoch s) (os_config_id o) (next_index i (flat (fs_segments s))) (os_entries o).
Proof. intros [_ _ _ _ Hw]. unfold open_contents. by rewrite (ow_file _ _ _ _ _ Hw). Qed.

Lemma extended_inv s o es cfg d :
  store_inv s → fs_open_segment s = Some o → appendable s es →
  Forall (λ e, le_config_id e = os_config_id o) es → (os_bytes_len o + blen (frames es) ≤ 2 ^ 33)%N →
  config_run (fs_configuration_state s) es = Ok cfg →
  dk_files d = <[os_path o := open_contents s o ++ frames es]> (dk_files (fs_disk s)) → room d 2 →
  let s' := set_configuration cfg (set_open (Some (extended o es)) (set_disk d s)) in store_inv s' ∧ appended s s' es.
Proof.
  intros Hinv Ho Happ Hconf Hsz Hrun Hd Hroom s'. destruct (open_facts_of s o Hinv Ho) as (i & h & Hof).
  rewrite (open_contents_eq s o i h Hof) in Hd. destruct Hof as [Hbase Hlc Hlo Hnext Hw].
  destruct Hinv as [Hc He Ha Hid Hsegs (i' & h' & Hlog) Hcfg Hcl Ht Hcp _].
  destruct Hlog as [Hbase' Hl _ _]. rewrite Hbase in Hbase'. apply Ok_inj, pair_eq in Hbase' as [<- <-]. specialize (Happ i h Hbase).
  assert (is_open_name (os_path o) = true) as Hon by (rewrite (ow_path _ _ _ _ _ Hw); apply open_name).
  assert (all_entries s' = all_entries s ++ es) as Hall.
  { unfold all_entries, open_entries. cbn. rewrite Ho. by rewrite app_assoc. }
  assert (∀ n, n ≠ os_path o → dk_files (fs_disk s') !! n = dk_files (fs_disk s) !! n) as Hkeep.
  { intros n Hn. cbn. by rewrite Hd, lookup_insert_ne. }
  split; [|by split]. split; try done.
  - eapply anchor_on_disk_eq; [|done]. apply Hkeep. apply not_eq_sym, other_anchor_ne. by left.
  - exists i, h. split; [done| |done|].
    + rewrite Hall, log_from_app, andb_true_iff. done.
    + change (open_wf (fs_cluster_id s) (fs_epoch s) (next_index i (flat (fs_segments s))) (dk_files d) (extended o es)).
      rewrite Hd. by apply extended_wf.
  - change (config_run (base_configuration (fs_initial_configuration s) (fs_anchor s)) (all_entries s') = Ok cfg).
    rewrite Hall, config_run_app, Hcfg. done.
  - eapply closed_on_disk_eq; [| |exact Hcl].
    + intros n Hn. apply Hkeep. intros ->. by eapply closed_open_ne.
    + by eapply segs_ranges.
  - rewrite Hkeep; [done|]. apply not_eq_sym, other_truncate_ne. by left.
  - rewrite Hkeep; [done|]. apply not_eq_sym, other_compact_ne. by left.
Qed.

Lemma append_chunk_ok s o es cfg :
  store_inv s → fs_open_segment s = Some o → appendable s es →
  Forall (λ e, le_config_id e = os_config_id o) es → (os_bytes_len o + blen (frames es) ≤ 2 ^ 33)%N →
  config_run (fs_configuration_state s) es = Ok cfg →
  ∃ s', append_chunk es s = (Ok (), s') ∧ store_inv s' ∧ appended s s' es
    ∧ passed s s' (λ f, ∃ j, f = <[os_path o := open_contents s o ++ take j (frames es)]> (dk_files (fs_disk s))).
Proof.
  intros Hinv Ho Happ Hconf Hsz Hrun. destruct (open_facts_of s o Hinv Ho) as (i & h & [_ _ _ _ Hw]).
  assert (dk_files (fs_disk s) !! os_path o = Some (open_contents s o)) as Hfile.
  { unfold open_contents. by rewrite (ow_file _ _ _ _ _ Hw). }
  unfold append_chunk. rewrite get_run, Ho. fold (frames es).
  rewrite (bind_Ok_run _ _ s _ () (on_disk_run _ s _ _ (write_all_run (os_path o) (frames es) (fs_disk s) _ Hfile))).
  rewrite modify_run, (bind_Ok_run _ _ _ _ cfg) by (unfold of_result; by rewrite (map_err_run _ _ _ Hrun)).
  set (d := mkDisk _ _ _). destruct (extended_inv s o es cfg d Hinv Ho Happ Hconf Hsz Hrun) as [Hi Ha]; [done| |].
  { eapply room_files; [exact (si_room s Hinv)| |apply (si_room s Hinv)]. apply temps_insert.
    rewrite (ow_path _ _ _ _ _ Hw). apply open_not_temp. }
  eexists. split; [reflexivity|]. split_and!; [exact Hi|exact Ha|]. eexists. split; [reflexivity|].
  apply Forall_fmap, Forall_forall. intros j _. by exists j.
Qed.

(** *** How much goes into the open segment *)

Lemma chunk_len_ok we (b n : N) (k : nat) es :
  forallb entry_fits es = true → (b ≤ 2 ^ 33)%N → (n ≤ b)%N → (we = true → k = 0 → (b ≤ 100)%N) →
  ∃ m, chunk_len_loop we b n k es = Ok (k + m) ∧ m ≤ length es
    ∧ (we = true → k = 0 → es ≠ [] → 1 ≤ m) ∧ (b + blen (frames (take m es)) ≤ 2 ^ 33)%N.
Proof.
  revert b n k. induction es as [|e es IH]; intros b n k Hfit Hb Hn Hwe.
  { exists 0. cbn. rewrite Nat.add_0_r. split_and!; [done|lia|done|by rewrite N.add_0_r]. }
  cbn [forallb] in Hfit. apply andb_true_iff in Hfit as [Hfe Hfit]. cbn [chunk_len_loop].
  assert (FRAME_MIN_LEN + blen (le_payload e) ≤ u32_max)%N as Hpl.
  { unfold entry_fits in Hfe. rewrite !andb_true_iff, N.leb_le in Hfe. tauto. }
  unfold u32_max in Hpl. assert (∀ x y, (x + y ≤ 2 ^ 40)%N → checked_add x y = Some (x + y)%N) as Hca.
  { intros x y Hxy. apply checked_add_Some. unfold u64_max. lia. }
  do 3 (rewrite Hca by (unfold FRAME_MIN_LEN in *; lia); cbn [ok_or mbind result_bind]).
  set (b' := (b + (FRAME_MIN_LEN + blen (le_payload e)))%N).
  assert (n + 1 ≤ b')%N as Hn' by (unfold b', FRAME_MIN_LEN; lia).
  match goal with |- context [if ?c then _ else _] => destruct c eqn:Hstop end.
  { exists 0. rewrite Nat.add_0_r. change (blen (frames (take 0 (e :: es)))) with 0%N. split_and!; [done|lia| |lia].
    intros -> -> _. cbn in Hstop. done. }
  assert (b' ≤ 2 ^ 33)%N as Hb'.
  { destruct (we && (k =? 0)) eqn:Hfirst.
    - apply andb_true_iff in Hfirst as [Hw Hk]. apply Nat.eqb_eq in Hk. specialize (Hwe Hw Hk). unfold b'. lia.
    - cbn in Hstop. apply orb_false_iff in Hstop as [Hstop _]. apply N.ltb_ge in Hstop. unfold OPEN_SEGMENT_MAX_BYTES in Hstop. fold b' in Hstop. lia. }
  destruct (IH b' (n + 1)%N (S k) Hfit Hb' Hn' ltac:(lia)) as (m & Hm & Hle & _ & Hsz).
  exists (S m). rewrite Nat.add_succ_r. split_and!; [done|cbn; lia|lia|].
  cbn [take]. rewrite frames_cons, blen_app, blen_frame. unfold b' in Hsz. lia.
Qed.

Lemma open_chunk_ok c epoch start f o es :
  open_wf c epoch start f o → forallb entry_fits es = true →
  ∃ m, open_segment_chunk_len o es = Ok m ∧ m ≤ length es ∧ (os_entries o = [] → es ≠ [] → 1 ≤ m)
    ∧ (os_bytes_len o + blen (frames (take m es)) ≤ 2 ^ 33)%N.
Proof.
  intros [_ _ _ Hlen _ Hsize _] Hfit. unfold open_segment_chunk_len.
  destruct (chunk_len_ok (eqb (length (os_entries o)) 0) (os_bytes_len o) (N.of_nat (length (os_entries o))) 0 es) as (m & Hm & H1 & H2 & H3);
    [done|done| | |].
  - rewrite Hlen, blen_open_bytes. pose proof (length_frames (os_entries o)). unfold blen. lia.
  - intros Hz _. apply (proj1 (eqb_true _ _)) in Hz. apply length_zero_iff_nil in Hz. rewrite Hlen, blen_open_bytes, Hz. done.
  - exists m. split_and!; [done|done| |done]. intros Hnil Hne. by apply H2; [rewrite Hnil|..].
Qed.

(** *** The loop *)

(** A write of the frames of [es] to the open segment that a crash tears. *)
Definition tearing (s : FileLogStoreInner) (es : list LogEntry) (f : files) : Prop :=
  ∃ o j, fs_open_segment s = Some o ∧ Forall (λ e, le_config_id e = os_config_id o) es
    ∧ (os_bytes_len o + blen (frames es) ≤ 2 ^ 33)%N
    ∧ f = <[os_path o := open_contents s o ++ take j (frames es)]> (dk_files (fs_disk s)).

(** The directories of an append: those of a store that holds the log with the first
    of the new entries, up to temporary files, with both forms of a segment or with a
    torn write of the entries that follow. *)
Definition on_the_way (s : FileLogStoreInner) (es : list LogEntry) (f : files) : Prop :=
  ∃ s1 k, store_inv s1 ∧ appended s s1 (take k es)
    ∧ (visible_eq (dk_files (fs_disk s1)) f ∨ sealing s1 f ∨ ∃ m, tearing s1 (take m (drop k es)) f).

Lemma on_the_way_app s s' es fs f : appended s s' es → on_the_way s' fs f → on_the_way s (es ++ fs) f.
Proof.
  intros Ha (s1 & k & Hi & Hb & Hf). exists s1, (length es + k). split_and!; [done| |].
  - rewrite take_app_add. by eapply appended_app.
  - by rewrite drop_app_add.
Qed.
Lemma on_the_way_start s s1 es f :
  store_inv s1 → same_log s s1 →
  visible_eq (dk_files (fs_disk s1)) f ∨ sealing s1 f ∨ (∃ m, tearing s1 (take m es) f) → on_the_way s es f.
Proof. intros Hi Hs Hf. exists s1, 0. split_and!; [done|by apply appended_nil|done]. Qed.
Lemma on_the_way_more s es fs f : on_the_way s es f → on_the_way s (es ++ fs) f.
Proof.
  intros (s1 & k & Hi & Ha & Hf). exists s1, (k `min` length es). split_and!; [done| |].
  - rewrite take_app_le by lia. destruct (Nat.le_ge_cases k (length es)) as [Hk|Hk].
    + by rewrite Nat.min_l.
    + rewrite Nat.min_r, firstn_all by done. by rewrite take_ge in Ha by done.
  - destruct Hf as [Hf|[Hf|[m Hf]]]; [by left|by right; left|right; right].
    exists (m `min` length (drop k es)). rewrite drop_app_le by lia.
    assert (drop (k `min` length es) es = drop k es) as ->.
    { destruct (Nat.le_ge_cases k (length es)) as [Hk|Hk]; [by rewrite Nat.min_l|]. rewrite Nat.min_r by done. by rewrite !drop_ge by lia. }
    rewrite take_app_le by lia. destruct (Nat.le_ge_cases m (length (drop k es))) as [Hm|Hm].
    + by rewrite Nat.min_l.
    + rewrite Nat.min_r, firstn_all by done. by rewrite take_ge in Hf by done.
Qed.

Lemma appendable_same s s' es : same_log s s' → appendable s es → appendable s' es.
Proof. intros [] Ha i h Hb. rewrite sl_cluster0, sl_epoch0, sl_entries0. apply Ha. congruence. Qed.
Lemma appendable_fits s es : store_inv s → appendable s es → forallb entry_fits es = true.
Proof.
  intros [_ _ _ _ _ (i & h & Hlog) _ _ _ _ _] Ha. destruct Hlog as [Hb _ _ _]. specialize (Ha i h Hb).
  apply log_from_fits in Ha. rewrite forallb_forall in *. intros e He. apply Ha in He. by apply andb_true_iff in He as [_ ?].
Qed.
Lemma appended_config s s' es : same_log s s' → config_run (fs_configuration_state s) es = config_run (fs_configuration_state s') es.
Proof. intros []. by rewrite sl_config0. Qed.

(** One round of the loop, up to the choice between sealing and appending. *)
Lemma append_round fuel e es s :
  store_inv s → appendable s (e :: es) →
  ∃ s1 o m, store_inv s1 ∧ same_log s s1 ∧ fs_open_segment s1 = Some o ∧ os_config_id o = le_config_id e
    ∧ m ≤ length (e :: es) ∧ (fs_open_segment s = None → 1 ≤ m)
    ∧ (os_bytes_len o + blen (frames (take m (e :: es))) ≤ 2 ^ 33)%N
    ∧ append_homogeneous pid (S fuel) (e :: es) s
      = (if m =? 0 then (_ ← seal_open_segment pid; append_homogeneous pid fuel (e :: es)) s1
         else (_ ← append_chunk (take m (e :: es)); append_homogeneous pid fuel (drop m (e :: es))) s1)
    ∧ passed s s1 (on_the_way s (e :: es)).
Proof.
  intros Hinv Ha. destruct (ensure_ok s e Hinv (appendable_next _ _ _ Ha Hinv)) as (s1 & o & He & Hi1 & Hl1 & Ho & Hcfg & Hfresh & Hp).
  pose proof (appendable_fits s _ Hinv Ha) as Hfit. pose proof Hi1 as [_ _ _ _ _ (i & h & Hlog) _ _ _ _ _].
  destruct Hlog as [_ _ _ Hopen]. rewrite Ho in Hopen. cbn [open_on_disk] in Hopen.
  destruct (open_chunk_ok _ _ _ _ _ _ Hopen Hfit) as (m & Hm & Hle & Hone & Hsz).
  exists s1, o, m. split_and!; try done.
  - intros Hn. apply Hone; [by apply Hfresh|done].
  - cbn [append_homogeneous]. rewrite (bind_Ok_run _ _ s s1 () He), get_run, Ho.
    rewrite (bind_Ok_run _ _ s1 s1 m) by (unfold of_result; by rewrite Hm). by destruct (m =? 0).
  - eapply passed_impl; [exact Hp|]. intros f [Hf|(s2 & Hi2 & Hl2 & Hf)].
    + apply (on_the_way_start s s); [done|done|by right; left].
    + apply (on_the_way_start s s2); [done|done|by left].
Qed.

Lemma append_homogeneous_ok fuel es s cfgid cfg :
  store_inv s → appendable s es → Forall (λ e, le_config_id e = cfgid) es →
  config_run (fs_configuration_state s) es = Ok cfg →
  2 * length es ≤ fuel ∨ (2 * length es ≤ S fuel ∧ fs_open_segment s = None) →
  ∃ s', append_homogeneous pid fuel es s = (Ok (), s') ∧ store_inv s' ∧ appended s s' es
    ∧ passed s s' (on_the_way s es).
Proof.
  revert es s. induction fuel as [|fuel IH]; intros es s Hinv Ha Hcfg Hrun Hfuel.
  { destruct es as [|e es]; [|cbn in Hfuel; lia]. exists s. split_and!; [done|done|by apply appended_nil|apply passed_refl]. }
  destruct es as [|e es]; [exists s; split_and!; [done|done|by apply appended_nil|apply passed_refl]|].
  destruct (append_round fuel e es s Hinv Ha) as (s1 & o & m & Hi1 & Hl1 & Ho & Hoc & Hm & Hone & Hsz & -> & Hp1).
  destruct (Nat.eqb_spec m 0) as [->|Hm0].
  - destruct (seal_ok s1 Hi1) as (s2 & Hs2 & Hi2 & Hl2 & Hn2 & Hp2 & _). rewrite (bind_Ok_run _ _ s1 s2 () Hs2).
    assert (same_log s s2) as Hl by (by eapply same_log_trans).
    destruct (IH (e :: es) s2 Hi2) as (s' & Hs' & Hi' & Ha' & Hp'); [by eapply appendable_same|done|by rewrite <-(appended_config s s2)| |].
    { right. split; [|done]. destruct Hfuel as [|[? Hno]]; [lia|]. specialize (Hone Hno). lia. }
    exists s'. split_and!; [done|done|by eapply appended_same|].
    eapply passed_trans; [exact Hp1|]. eapply passed_trans.
    + eapply passed_impl; [exact Hp2|]. intros f Hf. apply (on_the_way_start s s1); [done|done|by right; left].
    + eapply passed_impl; [exact Hp'|]. intros f Hf. apply (on_the_way_app s s2 [] (e :: es)); [by apply appended_nil|done].
  - remember (e :: es) as all eqn:Hall. rewrite <-(take_drop m all) in Ha, Hcfg, Hrun.
    apply Forall_app in Hcfg as [Hcf1 Hcf2]. rewrite config_run_app, bind_Ok_inv in Hrun. destruct Hrun as (cfg1 & Hr1 & Hr2).
    assert (∀ x, x ∈ take m all → le_config_id x = os_config_id o) as Hcx.
    { intros x Hx. rewrite Forall_forall in Hcf1. rewrite (Hcf1 x Hx), Hoc. symmetry. apply Hcf1. rewrite Hall. destruct m; [done|]. by left. }
    destruct (append_chunk_ok s1 o (take m all) cfg1) as (s2 & Hs2 & Hi2 & Ha2 & Hp2); [done|done| | |done| |].
    { eapply appendable_same; [done|]. by eapply appendable_app. }
    { by apply Forall_forall. }
    { by rewrite <-(appended_config s s1). }
    rewrite (bind_Ok_run _ _ s1 s2 () Hs2). pose proof (appended_same _ _ _ _ Hl1 Ha2) as Ha12.
    destruct (IH (drop m all) s2 Hi2) as (s' & Hs' & Hi' & Ha' & Hp'); [by eapply appendable_rest|done| | |].
    { destruct Ha12. rewrite ap_config0 in Hr1. by apply Ok_inj in Hr1 as ->. }
    { left. rewrite length_drop. lia. }
    exists s'. rewrite <-(take_drop m all) at 2 3. split_and!; [done|done|by eapply appended_app|].
    eapply passed_trans; [eapply passed_impl; [exact Hp1|]; by rewrite take_drop|]. eapply passed_trans.
    + eapply passed_impl; [exact Hp2|]. intros f (j & ->). apply (on_the_way_start s s1); [done|done|]. right; right.
      exists m. rewrite take_drop. exists o, j. split_and!; [done|by apply Forall_forall|done|done].
    + eapply passed_impl; [exact Hp'|]. intros f Hf. by eapply on_the_way_app.
Qed.

(** *** Batches *)

Lemma chunk_by_config_spec es :
  concat (chunk_by_config es) = es ∧ Forall (λ chunk, chunk ≠ [] ∧ one_config chunk) (chunk_by_config es).
Proof.
  induction es as [|e es [IH1 IH2]]; [done|]. cbn [chunk_by_config].
  destruct (chunk_by_config es) as [|[|x chunk] chunks] eqn:E.
  - cbn in IH1. subst es. split; [done|]. constructor; [|done]. split; [done|]. exists (le_config_id e). by constructor.
  - inversion IH2 as [|? ? [Hx _] _]; subst. done.
  - inversion IH2 as [|? ? [_ [c Hc]] Hrest]; subst. destruct (eqb (le_config_id e) (le_config_id x)) eqn:Hex; (split; [done|]).
    + constructor; [|done]. split; [done|]. exists c. constructor; [|done]. apply (proj1 (eqb_true _ _)) in Hex. rewrite Hex. by inversion Hc.
    + constructor; [split; [done|exists (le_config_id e); by constructor]|done].
Qed.

Lemma append_chunks_ok chunks s cfg :
  store_inv s → Forall (λ chunk, chunk ≠ [] ∧ one_config chunk) chunks → appendable s (concat chunks) →
  config_run (fs_configuration_state s) (concat chunks) = Ok cfg →
  ∃ s', append_chunks pid chunks s = (Ok (), s') ∧ store_inv s' ∧ appended s s' (concat chunks)
    ∧ passed s s' (on_the_way s (concat chunks)).
Proof.
  intros Hinv Hch. revert s Hinv. induction Hch as [|chunk chunks [_ [c Hc]] _ IH]; intros s Hinv Ha Hrun; cbn [concat] in *.
  { exists s. split_and!; [done|done|by apply appended_nil|apply passed_refl]. }
  rewrite config_run_app, bind_Ok_inv in Hrun. destruct Hrun as (cfg1 & Hr1 & Hr2).
  destruct (append_homogeneous_ok (2 * length chunk) chunk s c cfg1) as (s1 & Hs1 & Hi1 & Ha1 & Hp1);
    [done|by eapply appendable_app|done|done|by left|].
  destruct (IH s1 Hi1) as (s' & Hs' & Hi' & Ha' & Hp').
  { by eapply appendable_rest. }
  { destruct Ha1. rewrite ap_config0 in Hr1. by apply Ok_inj in Hr1 as ->. }
  exists s'. split_and!; [cbn [append_chunks]; by rewrite (bind_Ok_run _ _ s s1 () Hs1)|done|by eapply appended_app|].
  eapply passed_trans; (eapply passed_impl; [eassumption|]); intros f Hf.
  - by apply on_the_way_more.
  - by eapply on_the_way_app.
Qed.

Lemma validate_loop_iff c epoch n h cfg0 es cfg :
  forallb entry_fits es = true → (n ≤ u64_max)%N →
  validate_append_loop c epoch n h cfg0 es = Ok cfg ↔ log_from c epoch n h es = true ∧ config_run cfg0 es = Ok cfg.
Proof.
  revert n h cfg0. induction es as [|e es IH]; intros n h cfg0 Hfit Hn; [split; [by intros ->%Ok_inj|by intros [_ ->%Ok_inj]]|].
  cbn [forallb] in Hfit. apply andb_true_iff in Hfit as [Hfe Hfit].
  assert (config_run cfg0 (e :: es) = Ok cfg ↔ ∃ cfg1, run_entries cfg0 [e] = Ok cfg1 ∧ config_run cfg1 es = Ok cfg) as Hrun.
  { change (e :: es) with ([e] ++ es). rewrite config_run_app, bind_Ok_inv. unfold run_entries.
    split; intros (x & H1 & H2); exists x; (split; [|done]); [by apply map_err_Ok|by apply map_err_Ok in H1]. }
  assert (∀ cfg1, (expected ← (match es with [] => Ok n | _ => ok_or (checked_add n 1) (Decode "qlog index overflow") end);
      validate_append_loop c epoch expected (le_hash e) cfg1 es) = Ok cfg
    ↔ log_from c epoch (n + 1) (le_hash e) es = true ∧ config_run cfg1 es = Ok cfg) as Hrest.
  { intros cfg1. destruct es as [|x es].
    - cbn [mbind result_bind]. rewrite IH by done. done.
    - rewrite bind_Ok_inv. setoid_rewrite ok_or_Ok. setoid_rewrite checked_add_Some. split.
      + intros (n' & [-> Hn'] & Hv). by apply IH in Hv.
      + intros [Hl Hc]. pose proof Hl as (Hi & _)%log_from_cons. pose proof Hfit as Hf'. cbn [forallb] in Hf'.
        apply andb_true_iff in Hf' as [Hu%fits_u64 _]. exists (n + 1)%N. split; [lia|]. apply IH; [done|lia|done]. }
  cbn [validate_append_loop]. rewrite log_from_cons, Hrun. unfold sealed_in. rewrite andb_true_iff, !eqb_true. split.
  - intros Hv. apply bind_Ok_inv in Hv as ([] & H1 & Hv). apply bind_Ok_inv in Hv as ([] & H2 & Hv).
    apply bind_Ok_inv in Hv as ([] & H3 & Hv). apply bind_Ok_inv in Hv as ([] & H4 & Hv).
    apply bind_Ok_inv in Hv as (cfg1 & H5 & Hv). apply Hrest in Hv as [Hl Hc]. apply reject_if_Ok in H1, H2, H3, H4. bool_prop.
    destruct H1 as [H1 H1']. split_and!; [done..|by exists cfg1].
  - intros [(Hi & Hp & He & [Hc Hh] & _ & Hl) (cfg1 & Hr & Hr')]. rewrite Hc, He, Hi, Hp, Hh, !neqb_refl.
    cbn [orb reject_if mbind result_bind]. rewrite Hr. cbn [mbind result_bind]. by apply Hrest.
Qed.

Lemma expected_next_inv s i h n g :
  store_inv s → after_anchor (fs_anchor s) = Ok (i, h) → expected_next s = Ok (n, g) →
  n = next_index i (all_entries s) ∧ g = tip_hash h (all_entries s) ∧ (n ≤ u64_max ∨ all_entries s = [])%N.
Proof.
  intros [_ _ _ _ Hsegs (i' & h' & Hlog) _ _ _ _ _] Hb. pose proof (inv_log_closed s i' h' Hlog) as Hlc.
  destruct Hlog as [Hb' Hl _ _]. rewrite Hb in Hb'. apply Ok_inj, pair_eq in Hb' as [<- <-].
  unfold expected_next. rewrite all_entries_eq in *. intros Hx. destruct (last (open_entries s)) as [e|] eqn:Hlast.
  - apply bind_Ok_inv in Hx as (m & Hm & Hx). apply ok_or_Ok, checked_add_Some in Hm as [-> Hm].
    apply Ok_inj, pair_eq in Hx as [<- <-].
    destruct (log_from_last _ _ _ _ _ e Hl) as (H1 & H2 & _); [by rewrite last_app, Hlast|]. auto.
  - apply last_None in Hlast. rewrite Hlast, app_nil_r in *. unfold expected_after in Hx.
    destruct (last (fs_segments s)) as [seg|] eqn:Hls.
    + apply bind_Ok_inv in Hx as (m & Hm & Hx). apply ok_or_Ok, checked_add_Some in Hm as [-> Hm].
      pose proof (expected_after_ok _ _ i h (fs_anchor s) _ Hb Hsegs Hlc) as He. unfold expected_after in He. rewrite Hls in He.
      apply last_Some in Hls as [segs Hls]. rewrite Hls in *.
      apply Forall_app in Hsegs as [_ Hws]. inversion Hws as [|? ? (Hne & _) _]; subst.
      rewrite flat_app, flat_one, log_from_app, andb_true_iff in Hlc. destruct Hlc as [_ Hlc].
      destruct (seg_bounds _ _ _ _ _ Hne Hlc) as (_ & Hend & _ & Hh). apply Ok_inj, pair_eq in Hx as [<- <-].
      rewrite flat_app, flat_one, next_index_app, tip_hash_app. auto.
    + apply last_None in Hls. rewrite Hls. rewrite Hb in Hx. apply Ok_inj, pair_eq in Hx as [<- <-].
      unfold next_index, tip_hash, flat. cbn. split_and!; [lia|done|by right].
Qed.
End inv.
