(* ===== verification/LogSpec.v ===== *)
(** * LogSpec: the log store implements an append-only log

    The abstract log of [FileLogStore] ([crates/rhiza-log/src/lib.rs]) is the list of
    its entries with the configuration state after them.  Appending a batch appends
    all of it or nothing, reading finds the entry of an index, and opening the
    directory again gives the same log, also the directory that a crash left in the
    middle of an append: then the log holds the first entries of the batch. *)

From S2P Require Import Prelude Bytes Text Core ConfigChange ConfigState LogSegment AnchorCodec LogStore LogNames LogScan LogInv.
From Stdlib Require Strings.Byte.

Section spec.
Context `{Sha256}.

(** ** The abstract log *)

Record Log : Type := mkLog {
  lg_cluster_id : bytes; lg_epoch : N; lg_initial : ConfigurationState; lg_anchor : option RecoveryAnchor;
  lg_entries : list LogEntry; lg_configuration : ConfigurationState
}.
Definition abs (s : FileLogStoreInner) : Log :=
  mkLog (fs_cluster_id s) (fs_epoch s) (fs_initial_configuration s) (fs_anchor s) (all_entries s)
    (fs_configuration_state s).

(** All of a batch that continues the log, or nothing. *)
Definition log_append (l : Log) (es : list LogEntry) : option Log :=
  match after_anchor (lg_anchor l) with
  | Ok (i, h) =>
      if log_from (lg_cluster_id l) (lg_epoch l) (next_index i (lg_entries l)) (tip_hash h (lg_entries l)) es
      then match config_run (lg_configuration l) es with
           | Ok cfg => Some (mkLog (lg_cluster_id l) (lg_epoch l) (lg_initial l) (lg_anchor l)
                               (lg_entries l ++ es) cfg)
           | Err _ => None
           end
      else None
  | Err _ => None
  end.
(** The entry of an index. *)
Definition log_read (l : Log) (index : N) : option LogEntry :=
  find (λ e, eqb (le_index e) index) (lg_entries l).
(** The index and the hash of the last entry. *)
Definition log_tip (l : Log) : option LogAnchor :=
  match last (lg_entries l) with
  | Some e => Some (mkLogAnchor (le_index e) (le_hash e))
  | None => ra_compacted <$> lg_anchor l
  end.

Lemma abs_same s s' : same_log s s' → abs s' = abs s.
Proof. intros []. unfold abs. congruence. Qed.
Lemma log_append_abs s es i h :
  after_anchor (fs_anchor s) = Ok (i, h) →
  log_append (abs s) es =
    if log_from (fs_cluster_id s) (fs_epoch s) (next_index i (all_entries s)) (tip_hash h (all_entries s)) es
    then match config_run (fs_configuration_state s) es with
         | Ok cfg => Some (mkLog (fs_cluster_id s) (fs_epoch s) (fs_initial_configuration s) (fs_anchor s)
                             (all_entries s ++ es) cfg)
         | Err _ => None
         end
    else None.
Proof. intros Hb. unfold log_append. cbn [abs lg_anchor]. by rewrite Hb. Qed.
Lemma log_append_Some s es l :
  store_inv s → log_append (abs s) es = Some l → appendable s es ∧ ∃ cfg, config_run (fs_configuration_state s) es = Ok cfg.
Proof.
  intros Hinv Hl. destruct (si_log s Hinv) as (i & h & [Hb _ _ _]). rewrite (log_append_abs s es i h Hb) in Hl.
  destruct (log_from _ _ _ _ es) eqn:Hlf; [|done]. destruct (config_run _ es) as [cfg|] eqn:Hc; [|done].
  split; [|by eexists]. intros i' h' Hb'. rewrite Hb in Hb'. by apply Ok_inj, pair_eq in Hb' as [<- <-].
Qed.
Lemma log_append_appended s s' es :
  store_inv s → appendable s es → appended s s' es → log_append (abs s) es = Some (abs s').
Proof.
  intros Hinv Ha []. destruct (si_log s Hinv) as (i & h & [Hb _ _ _]). rewrite (log_append_abs s es i h Hb), (Ha i h Hb), ap_config.
  unfold abs. by rewrite ap_cluster, ap_epoch, ap_initial, ap_anchor, ap_entries.
Qed.

Lemma log_append_app l es fs :
  log_append l (es ++ fs) = match log_append l es with Some l' => log_append l' fs | None => None end.
Proof.
  unfold log_append. destruct (after_anchor (lg_anchor l)) as [[i h]|] eqn:Hb; [|done].
  rewrite log_from_app. destruct (log_from _ _ _ _ es) eqn:E; cbn [andb]; [|done]. rewrite config_run_app.
  destruct (config_run _ es) as [cfg|] eqn:Ec; cbn [mbind result_bind]; [|by destruct (log_from _ _ _ _ fs)].
  cbn [lg_anchor lg_cluster_id lg_epoch lg_entries lg_configuration lg_initial].
  by rewrite Hb, next_index_app, tip_hash_app, <-app_assoc.
Qed.

(** ** Appending *)

Lemma after_anchor_u64 a i h : after_anchor a = Ok (i, h) → (i ≤ u64_max)%N.
Proof.
  unfold after_anchor. destruct a as [a|].
  - intros Hx. apply bind_Ok_inv in Hx as (n & Hn & Hx). apply ok_or_Ok, checked_add_Some in Hn. apply Ok_inj, pair_eq in Hx as [<- _]. lia.
  - intros Hx. apply Ok_inj, pair_eq in Hx as [<- _]. unfold u64_max. lia.
Qed.

(** Without an overflow the next index and hash are those after the last entry. *)
Lemma expected_next_ok s i h :
  store_inv s → after_anchor (fs_anchor s) = Ok (i, h) → (next_index i (all_entries s) ≤ u64_max)%N →
  expected_next s = Ok (next_index i (all_entries s), tip_hash h (all_entries s)).
Proof.
  intros Hinv Hb Hu. destruct (si_log s Hinv) as (i' & h' & Hlog). pose proof (inv_log_closed s i' h' Hlog) as Hlc.
  destruct Hlog as [Hb' Hl _ _]. rewrite Hb in Hb'. apply Ok_inj, pair_eq in Hb' as [<- <-].
  unfold expected_next. rewrite all_entries_eq in *. destruct (last (open_entries s)) as [e|] eqn:Hlast.
  - destruct (log_from_last _ _ _ _ _ e Hl) as (H1 & H2 & _); [by rewrite last_app, Hlast|]. rewrite <-H1, <-H2 in *.
    assert (checked_add (le_index e) 1 = Some (le_index e + 1)%N) as -> by (apply checked_add_Some; lia). done.
  - apply last_None in Hlast. rewrite Hlast, app_nil_r in *. by apply (expected_after_ok (fs_cluster_id s) (fs_epoch s)); [|apply si_segs|..].
Qed.

Lemma validate_append_spec s es cfg :
  store_inv s → forallb entry_fits es = true → es ≠ [] →
  validate_append s es = Ok cfg ↔ appendable s es ∧ config_run (fs_configuration_state s) es = Ok cfg.
Proof.
  intros Hinv Hfit Hne. destruct (si_log s Hinv) as (i & h & Hlog). destruct Hlog as [Hb Hl _ _].
  pose proof (after_anchor_u64 _ _ _ Hb) as Hiu. unfold validate_append. rewrite bind_Ok_inv. split.
  - intros ([n g] & Hx & Hv). destruct (expected_next_inv s i h n g Hinv Hb Hx) as (-> & -> & Hn).
    rewrite validate_loop_iff in Hv; [|done|destruct Hn as [|Hn]; [done|rewrite Hn; unfold next_index; cbn; lia]].
    destruct Hv as [Hv Hc]. split; [|done]. intros i' h' Hb'. rewrite Hb in Hb'. by apply Ok_inj, pair_eq in Hb' as [<- <-].
  - intros [Ha Hc]. specialize (Ha i h Hb). destruct es as [|e es]; [done|].
    assert (next_index i (all_entries s) ≤ u64_max)%N as Hu.
    { pose proof Ha as (Hi & _ & _ & _ & He & _)%log_from_cons. apply fits_u64 in He as [He _]. by rewrite <-Hi. }
    exists (next_index i (all_entries s), tip_hash h (all_entries s)). split; [by apply expected_next_ok|].
    by apply validate_loop_iff.
Qed.

Lemma append_batch_ok pid s es cfg :
  store_inv s → appendable s es → config_run (fs_configuration_state s) es = Ok cfg →
  ∃ s', append_batch pid es s = (Ok (), s') ∧ store_inv s' ∧ appended s s' es ∧ passed s s' (on_the_way s es).
Proof.
  intros Hinv Ha Hc. unfold append_batch, append_batch_to_open_segment. destruct es as [|e es].
  { exists s. split_and!; [done|done|by apply appended_nil|apply passed_refl]. }
  rewrite get_run, (bind_Ok_run _ _ s s cfg).
  2:{ unfold of_result. f_equal. apply validate_append_spec; [done| |done|done]. by eapply appendable_fits. }
  destruct (chunk_by_config_spec (e :: es)) as [Hcat Hch]. rewrite <-Hcat in Ha, Hc.
  destruct (append_chunks_ok pid _ s cfg Hinv Hch Ha Hc) as (s' & Hs & Hi & Hap & Hp). rewrite Hcat in Hap, Hp. by exists s'.
Qed.

Lemma append_batch_spec pid s es :
  store_inv s → forallb entry_fits es = true →
  match log_append (abs s) es with
  | Some l => ∃ s', append_batch pid es s = (Ok (), s') ∧ store_inv s' ∧ abs s' = l ∧ passed s s' (on_the_way s es)
  | None => ∃ err, append_batch pid es s = (Err err, s)
  end.
Proof.
  intros Hinv Hfit. destruct (log_append (abs s) es) as [l|] eqn:Hl.
  - destruct (log_append_Some s es l Hinv Hl) as [Ha [cfg Hc]].
    destruct (append_batch_ok pid s es cfg Hinv Ha Hc) as (s' & Hs & Hi & Hap & Hp). exists s'. split_and!; [done|done| |done].
    rewrite (log_append_appended s s' es Hinv Ha Hap) in Hl. congruence.
  - destruct (si_log s Hinv) as (i & h & [Hb _ _ _]). unfold append_batch, append_batch_to_open_segment.
    assert (es ≠ []) as Hne by (intros ->; by rewrite (log_append_abs s [] i h Hb) in Hl).
    destruct (validate_append s es) as [cfg|err] eqn:Hv.
    + apply validate_append_spec in Hv as [Ha Hc]; [|done..]. rewrite (log_append_abs s es i h Hb), (Ha i h Hb), Hc in Hl. done.
    + exists err. destruct es; [done|]. rewrite get_run, bind_run. unfold of_result. by rewrite Hv.
Qed.

(** C20. Appending a batch is atomic and exact: the batch is appended to the log, in
    the closed and open segments on disk and in memory, exactly when it continues the
    log (cluster, epoch, contiguous indices, hash chain, recomputed hashes) and its
    configuration changes are valid; otherwise it is refused and nothing changes. *)
Theorem append_batch_refines (pid : N) (s : FileLogStoreInner) (es : list LogEntry) :
  store_inv s → forallb entry_fits es = true →
  match log_append (abs s) es with
  | Some l => ∃ s', append_batch pid es s = (Ok (), s') ∧ store_inv s' ∧ abs s' = l
  | None => ∃ err, append_batch pid es s = (Err err, s)
  end.
Proof.
  intros Hinv Hfit. pose proof (append_batch_spec pid s es Hinv Hfit) as Hs.
  destruct (log_append (abs s) es); [|done]. destruct Hs as (s' & ? & ? & ? & _). by exists s'.
Qed.

(** ** Reading *)

Lemma find_app {A} (f : A → bool) l k : find f (l ++ k) = match find f l with Some x => Some x | None => find f k end.
Proof. induction l as [|x l IH]; [done|]. cbn. by destruct (f x). Qed.

Lemma find_index c epoch i h es index :
  log_from c epoch i h es = true →
  find (λ e, eqb (le_index e) index) es = if (i <=? index)%N then es !! N.to_nat (index - i) else None.
Proof.
  revert i h. induction es as [|e es IH]; intros i h Hl; [by destruct (i <=? index)%N|].
  apply log_from_cons in Hl as (Hi & _ & _ & _ & _ & Hl). cbn [find]. rewrite (IH _ _ Hl), Hi.
  destruct (eqb i index) eqn:E; bool_prop.
  - rewrite E, N.leb_refl, N.sub_diag. done.
  - destruct (N.leb_spec (i + 1) index), (N.leb_spec i index); [|lia..|done].
    by replace (N.to_nat (index - i)) with (S (N.to_nat (index - (i + 1)))) by lia.
Qed.
Lemma find_index_None c epoch i h es index :
  log_from c epoch i h es = true → (index < i ∨ next_index i es ≤ index)%N → find (λ e, eqb (le_index e) index) es = None.
Proof.
  intros Hl Hx. rewrite (find_index _ _ _ _ _ _ Hl). destruct (N.leb_spec i index); [|done].
  apply lookup_ge_None. unfold next_index in Hx. lia.
Qed.

(** The search of the code finds the segment that holds an index. *)
Lemma read_segments c epoch i h segs index :
  Forall seg_wf segs → log_from c epoch i h (flat segs) = true →
  match find (λ seg, (cs_start seg <=? index) && (index <=? cs_end seg))%N segs with
  | Some seg => ∃ e, cs_entries seg !! N.to_nat (index - cs_start seg) = Some e
                 ∧ find (λ e, eqb (le_index e) index) (flat segs) = Some e
  | None => find (λ e, eqb (le_index e) index) (flat segs) = None
  end.
Proof.
  intros Hwf. revert i h. induction Hwf as [|seg segs (Hne & _) _ IH]; intros i h Hl; [done|].
  rewrite flat_cons, log_from_app, andb_true_iff in Hl. destruct Hl as [Hl1 Hl2].
  destruct (seg_bounds _ _ _ _ _ Hne Hl1) as (Hs & He & _). specialize (IH _ _ Hl2). cbn [find]. rewrite flat_cons, find_app.
  destruct ((cs_start seg <=? index) && (index <=? cs_end seg))%N eqn:Hin.
  - apply andb_true_iff in Hin as [H1%N.leb_le H2%N.leb_le]. rewrite (find_index _ _ _ _ _ index Hl1), Hs.
    destruct (N.leb_spec i index); [|lia]. destruct (cs_entries seg !! N.to_nat (index - i)) as [e|] eqn:E; [by exists e|].
    apply lookup_ge_None in E. unfold next_index in He. lia.
  - rewrite (find_index_None _ _ _ _ _ _ Hl1); [done|]. apply andb_false_iff in Hin as [H1%N.leb_gt|H1%N.leb_gt]; lia.
Qed.

Lemma read_ok s index : store_inv s → read s index = log_read (abs s) index.
Proof.
  intros Hinv. destruct (si_log s Hinv) as (i & h & Hlog). pose proof (inv_log_closed s i h Hlog) as Hlc.
  destruct Hlog as [_ Hl _ _]. rewrite all_entries_eq, log_from_app, andb_true_iff in Hl. destruct Hl as [_ Hlo].
  unfold read, log_read. cbn [abs lg_entries]. rewrite all_entries_eq, find_app.
  pose proof (read_segments _ _ _ _ _ index (si_segs s Hinv) Hlc) as Hr. destruct (find _ (fs_segments s)) as [seg|].
  - destruct Hr as (e & -> & ->). done.
  - rewrite Hr, (find_index _ _ _ _ _ index Hlo). destruct (open_entries s) as [|e es]; cbn [head].
    + by destruct (_ <=? _)%N.
    + by apply log_from_cons in Hlo as (-> & _).
Qed.

Lemma tip_ok s :
  store_inv s →
  match last (open_entries s) with
  | Some entry => Some (mkLogAnchor (le_index entry) (le_hash entry))
  | None =>
      match last (fs_segments s) with
      | Some segment => Some (mkLogAnchor (cs_end segment) (cs_hash segment))
      | None => ra_compacted <$> fs_anchor s
      end
  end = log_tip (abs s).
Proof.
  intros Hinv. unfold log_tip. cbn [abs lg_entries lg_anchor]. rewrite all_entries_eq, last_app.
  destruct (last (open_entries s)) as [e|]; [done|]. pose proof (si_segs s Hinv) as Hwf.
  destruct (last (fs_segments s)) as [seg|] eqn:Hls.
  - apply last_Some in Hls as [segs Hls]. rewrite Hls in *. apply Forall_app in Hwf as [_ Hwf]. inversion Hwf as [|? ? (Hne & _) _]; subst.
    rewrite flat_app, flat_one, last_app. unfold cs_end, cs_hash. destruct (last (cs_entries seg)) as [e|] eqn:E; [done|].
    by apply last_None in E.
  - by apply last_None in Hls as ->.
Qed.

(** Reads see the log: the entry read at an index is the entry of the log with
    that index, a range reads the entries of its indices in order, and the last index,
    the tip and the first retained index are those of the log. *)
Theorem read_refines (s : FileLogStoreInner) (index : N) (range : IndexRange) :
  store_inv s →
  read s index = log_read (abs s) index
  ∧ read_range s range = filter (λ e, (ir_start range ≤ le_index e ≤ ir_end range)%N) (lg_entries (abs s))
  ∧ last_index s = la_index <$> log_tip (abs s)
  ∧ ∃ i h, after_anchor (fs_anchor s) = Ok (i, h)
      ∧ logical_state s = Ok (mkLogState (fs_anchor s) i (log_tip (abs s)))
      ∧ (∀ e, head (lg_entries (abs s)) = Some e → le_index e = i).
Proof.
  intros Hinv. split_and!; [by apply read_ok| | |].
  - unfold read_range. apply list_filter_iff. intros e. unfold in_index_range. by rewrite andb_true_iff, !N.leb_le.
  - rewrite <-(tip_ok s Hinv). unfold last_index. destruct (last (open_entries s)); [done|].
    destruct (last (fs_segments s)); [done|]. by destruct (fs_anchor s).
  - destruct (si_log s Hinv) as (i & h & [Hb Hl _ _]). exists i, h. split_and!; [done| |].
    + unfold logical_state. rewrite Hb. cbn [mbind result_bind]. by rewrite (tip_ok s Hinv).
    + cbn [abs lg_entries]. intros e He. destruct (all_entries s); [done|]. cbn in He. injection He as ->. by apply log_from_cons in Hl as (-> & _).
Qed.
End spec.
