(* ===== verification/LogCrash.v ===== *)
(** * LogCrash: what a crash in the middle of an append leaves

    Every directory that [FileLogStore] ([crates/rhiza-log/src/lib.rs]) passes through
    while it appends, torn writes included, opens to a store that holds the log with
    the first entries of the batch. *)

From S2P Require Import Prelude Bytes Text Core ConfigChange ConfigState LogSegment AnchorCodec LogStore LogNames LogScan LogInv LogSpec.
From Stdlib Require Strings.Byte.

(** ** Files that matter *)

Lemma segment_not_temp name : is_open_name name = true ∨ is_closed_name name = true → is_temp name = false.
Proof.
  intros Hn. assert (last name = Some Byte.x67) as Hl.
  { destruct Hn as [Hn|Hn].
    - apply ends_with_true in Hn as [l ->]. by apply suffix_last.
    - apply andb_true_iff in Hn as [_ Hn]. apply ends_with_true in Hn as [l ->]. by apply suffix_last. }
  unfold is_temp. by eapply not_ends_with.
Qed.

Section crash.
Context `{Sha256}.

(** Opening the directory gives the log. *)
Definition recovers (l : Log) (f : files) : Prop :=
  ∀ pid past next, room (mkDisk f past next) 2 →
    ∃ s, open_with_configuration pid (mkDisk f past next) (lg_cluster_id l) (lg_epoch l) (lg_initial l)
           = (Ok s, fs_disk s)
      ∧ store_inv s ∧ abs s = l.

(** Temporary files do not matter. *)
Lemma inv_visible s d :
  store_inv s → visible_eq (dk_files (fs_disk s)) (dk_files d) → room d 2 → store_inv (set_disk d s).
Proof.
  intros [Hc He Ha Hid Hsegs (i & h & Hlog) Hcfg Hcl Ht Hcp _] Hv Hroom. pose proof (inv_log_closed s i h Hlog) as Hlc.
  destruct Hlog as [Hbase Hl Hnext Hopen]. split; try done.
  - eapply anchor_on_disk_eq; [|done]. by apply Hv.
  - exists i, h. split; [done|done|done|]. cbn [set_disk fs_open_segment fs_disk fs_cluster_id fs_epoch fs_segments].
    destruct (fs_open_segment s) as [o|]; cbn [open_on_disk] in *.
    + destruct Hopen as [Hpath Hfile Honly Hlen Hoc Hsize Hcu]. split; try done.
      * rewrite Hv; [done|]. rewrite Hpath. apply open_not_temp.
      * intros n Hn Hin. apply Honly; [done|]. rewrite <-Hv; [done|]. apply segment_not_temp. by left.
    + intros n Hn. rewrite Hv; [by apply Hopen|]. apply segment_not_temp. by left.
  - eapply closed_on_disk_eq; [| |exact Hcl].
    + intros n Hn. apply Hv, segment_not_temp. by right.
    + by eapply segs_ranges.
  - cbn. by rewrite Hv.
  - cbn. by rewrite Hv.
Qed.

Lemma recovers_visible s f : store_inv s → visible_eq (dk_files (fs_disk s)) f → recovers (abs s) f.
Proof.
  intros Hinv Hv pid past next Hroom. pose proof (inv_visible s (mkDisk f past next) Hinv Hv Hroom) as Hi.
  exists (set_disk (mkDisk f past next) s). split_and!; [|done|done].
  exact (reopen_inv pid (set_disk (mkDisk f past next) s) Hi).
Qed.

(** The parts of opening that a change of segment files leaves alone. *)
Lemma keep_others s f :
  store_inv s →
  (∀ name, is_open_name name = false → is_closed_name name = false → f !! name = dk_files (fs_disk s) !! name) →
  anchor_on_disk f (fs_anchor s) ∧ f !! TRUNCATE_INTENT_FILE_NAME = None ∧ f !! COMPACT_INTENT_FILE_NAME = None.
Proof.
  intros Hinv Hk. destruct other_anchor, other_truncate, other_compact. split_and!.
  - eapply anchor_on_disk_eq; [by apply Hk|]. apply si_anchor. done.
  - rewrite Hk by done. by apply si_truncate.
  - rewrite Hk by done. by apply si_compact.
Qed.

(** Both forms of a sealed segment are there: the open one is removed. *)
Lemma recovers_sealed s o :
  store_inv s → fs_open_segment s = Some o → os_entries o ≠ [] →
  recovers (abs s) (<[segment_name (mkClosed (os_entries o)) := encode_segment (os_entries o)]> (dk_files (fs_disk s))).
Proof.
  intros Hinv Ho Hes pid past next Hroom. destruct (open_facts_of s o Hinv Ho) as (i & h & Hof).
  destruct (open_segment_range s o i h Hof Hes) as (Hrok & Hs & Hon & Hcn & Hne).
  set (seg := mkClosed (os_entries o)) in *. set (f := <[segment_name seg := _]> _) in *. set (d := mkDisk f past next) in *.
  set (d' := changed d (delete (os_path o) f)).
  assert (room d' 2) as Hroom'.
  { eapply room_files; [exact Hroom| |apply Hroom]. apply temps_delete, segment_not_temp. by left. }
  destruct (sealed_inv s o d' Hinv Ho Hes) as [Hinv' Hsame]; [done|done|]. fold seg in Hinv', Hsame.
  set (s' := set_log (fs_segments s ++ [seg]) None (set_disk d' s)) in *. exists s'. split_and!; [|done|by apply abs_same].
  destruct (keep_others s f Hinv) as (Ha & Ht & Hcp).
  { intros n Hno Hnc. unfold f. rewrite lookup_insert_ne; [done|]. intros <-. congruence. }
  destruct Hof as [Hbase Hlc Hlo Hnext Hw].
  pose proof (si_segs s' Hinv') as Hsegs'. pose proof (si_closed s' Hinv') as Hcl'. pose proof (si_config s' Hinv') as Hcfg'.
  change (fs_segments s') with (fs_segments s ++ [seg]) in *. change (dk_files (fs_disk s')) with (delete (os_path o) f) in Hcl'.
  rewrite all_entries_eq in Hcfg'. change (open_entries s') with (@nil LogEntry) in Hcfg'. rewrite app_nil_r in Hcfg'.
  cbn [abs lg_cluster_id lg_epoch lg_initial].
  assert (log_from (fs_cluster_id s) (fs_epoch s) i h (flat (fs_segments s ++ [seg])) = true) as Hl.
  { rewrite flat_app, flat_one, log_from_app, andb_true_iff. done. }
  rewrite (open_run pid d d d _ _ _ (fs_anchor s) (fs_segments s ++ [seg]) (fs_configuration_state s) i h
    (si_cluster s Hinv) (no_truncate_intent d Ht) (no_compact_intent pid d Hcp) Ha (si_identity s Hinv) Hbase Hsegs' Hl); [| |exact Hcfg'].
  - rewrite (bind_Ok_run _ _ d d' (None, fs_configuration_state s)); [done|].
    eapply scan_open_closed; [by apply si_cluster|by apply si_epoch|exact Hnext|exact Hlo| |done|done|by eapply segs_start_lt; [apply si_segs|]].
    destruct Hw as [Hpath Hfile Honly Hlen Hoc Hsize Hcu]. split; try done; cbn [dk_files d]; unfold f.
    + rewrite lookup_insert_ne; [exact Hfile|done].
    + intros n Hn Hin. apply Honly; [done|]. rewrite lookup_insert_ne in Hin; [done|]. apply not_eq_sym. by apply closed_open_ne.
  - eapply closed_on_disk_eq; [|by eapply segs_ranges|exact Hcl']. intros n Hn. cbn. rewrite lookup_delete_ne; [done|]. by apply closed_open_ne.
Qed.

(** A part of the frames is complete frames and a torn one. *)
Lemma frames_torn es j :
  forallb entry_fits es = true → ∃ n tail, take j (frames es) = frames (take n es) ++ tail ∧ torn_tail tail.
Proof.
  intros Hfit. destruct (frames_cut es (j `min` length (frames es))) as (n & tail & Hcut & Ht); [lia|]. exists n, tail. split.
  - rewrite <-Hcut. destruct (Nat.le_ge_cases j (length (frames es))); [by rewrite Nat.min_l|].
    rewrite Nat.min_r, firstn_all by done. by apply take_ge.
  - destruct Ht as [[_ ->]|(e & k & He & -> & Hk)]; [by left|right]. exists e, k. split_and!; [|done|done].
    rewrite forallb_forall in Hfit. apply Hfit, list_elem_of_In. by eapply list_elem_of_lookup_2.
Qed.

(** A torn write: the complete frames stay. *)
Lemma recovers_torn s es cfg f :
  store_inv s → appendable s es → config_run (fs_configuration_state s) es = Ok cfg → tearing s es f →
  ∃ n l, log_append (abs s) (take n es) = Some l ∧ recovers l f.
Proof.
  intros Hinv Happ Hcfg (o & j & Ho & Hconf & Hsz & ->).
  destruct (open_facts_of s o Hinv Ho) as (i & h & Hof). pose proof (open_contents_eq s o i h Hof) as Hcont. destruct Hof as [Hbase Hlc Hlo Hnext Hw].
  set (start := next_index i (flat (fs_segments s))) in *. set (l0 := open_contents s o) in *.
  destruct (frames_torn es j (appendable_fits s es Hinv Happ)) as (n & tail & Hcut & Htail).
  pose proof Happ as Happ'. rewrite <-(take_drop n es) in Happ'. apply appendable_app in Happ'.
  pose proof Hcfg as Hcfg'. rewrite <-(take_drop n es), config_run_app, bind_Ok_inv in Hcfg'. destruct Hcfg' as (cfg1 & Hcfg1 & _).
  assert (Forall (λ e, le_config_id e = os_config_id o) (take n es)) as Hconf1 by (by apply Forall_take).
  assert (blen (frames (take n es) ++ tail) ≤ blen (frames es))%N as Hle.
  { rewrite <-Hcut. unfold blen. rewrite length_take. lia. }
  rewrite blen_app in Hle.
  set (o' := extended o (take n es)).
  assert (open_bytes (fs_cluster_id s) (fs_epoch s) (os_config_id o') start (os_entries o') = l0 ++ frames (take n es)) as Hb.
  { rewrite Hcont. unfold open_bytes. cbn [os_entries os_config_id o' extended]. by rewrite frames_app, app_assoc. }
  rewrite Hcut, app_assoc. set (f := <[os_path o := _]> _).
  exists n, (mkLog (fs_cluster_id s) (fs_epoch s) (fs_initial_configuration s) (fs_anchor s) (all_entries s ++ take n es) cfg1). split.
  { by rewrite (log_append_abs s _ i h Hbase), (Happ' i h Hbase), Hcfg1. }
  intros pid past next Hroom. set (d := mkDisk f past next) in *. set (d' := cut_file d (os_path o) (l0 ++ frames (take n es)) tail).
  assert (is_temp (os_path o) = false) as Hnt by (rewrite (ow_path _ _ _ _ _ Hw); apply open_not_temp).
  assert (dk_files d' = <[os_path o := l0 ++ frames (take n es)]> (dk_files (fs_disk s))) as Hd'.
  { unfold d', cut_file, d, f. destruct tail; cbn [dk_files]; [by rewrite app_nil_r|by rewrite insert_insert_eq]. }
  assert (room d' 2) as Hroom'.
  { unfold d', cut_file. destruct tail; [done|]. eapply room_files; [exact Hroom| |apply Hroom]. by apply temps_insert. }
  destruct (extended_inv s o (take n es) cfg1 d' Hinv Ho Happ' Hconf1) as [Hinv' Hap]; [lia|done|done|done|].
  fold o' in Hinv', Hap. set (s' := set_configuration cfg1 _) in *. exists s'. split_and!; [|done|].
  2:{ destruct Hap. unfold abs. by rewrite ap_cluster, ap_epoch, ap_initial, ap_anchor, ap_entries. }
  destruct (keep_others s f Hinv) as (Ha & Ht & Hcp).
  { intros m Hno Hnc. unfold f. rewrite lookup_insert_ne; [done|]. intros <-. rewrite (ow_path _ _ _ _ _ Hw), open_name in Hno. done. }
  pose proof (si_config s Hinv) as Hcf. rewrite all_entries_eq, config_run_app, bind_Ok_inv in Hcf. destruct Hcf as (cfg0 & Hc0 & Hc1).
  unfold open_entries in Hc1. rewrite Ho in Hc1.
  cbn [lg_cluster_id lg_epoch lg_initial].
  rewrite (open_run pid d d d _ _ _ (fs_anchor s) (fs_segments s) cfg0 i h
    (si_cluster s Hinv) (no_truncate_intent d Ht) (no_compact_intent pid d Hcp) Ha (si_identity s Hinv) Hbase (si_segs s Hinv) Hlc); [| |exact Hc0].
  - rewrite (bind_Ok_run _ _ d d' (Some o', cfg1)); [done|]. unfold d'. rewrite <-Hb. change (os_path o) with (os_path o').
    eapply (scan_open_continues _ _ _ _ cfg0 cfg1 i h d o' tail (si_cluster s Hinv) (si_epoch s Hinv) Hbase (si_segs s Hinv)); [|exact Hnext| | |done| |].
    + cbn [os_entries o' extended]. rewrite !log_from_app, !andb_true_iff. split_and!; [done|done|].
      specialize (Happ' i h Hbase). rewrite all_entries_eq in Happ'. unfold open_entries in Happ'. rewrite Ho, next_index_app, tip_hash_app in Happ'. done.
    + fold start. rewrite Hb. cbn [dk_files d]. unfold f. change (os_path o') with (os_path o). rewrite insert_insert_eq, Hcont. apply extended_wf; [done|done|lia].
    + fold start. rewrite Hb. cbn [dk_files d]. unfold f. change (os_path o') with (os_path o). by rewrite lookup_insert_eq.
    + fold start. rewrite Hb, !blen_app, Hcont. fold start in Hw. rewrite <-(ow_len _ _ _ _ _ Hw). unfold u64_max. lia.
    + cbn [os_entries o' extended]. rewrite config_run_app, Hc1. done.
  - eapply closed_on_disk_eq; [|eapply segs_ranges; [apply si_segs; done|done]|apply si_closed; done]. intros m Hm. cbn. unfold f.
    rewrite lookup_insert_ne; [done|]. apply closed_open_ne; [rewrite (ow_path _ _ _ _ _ Hw); apply open_name|done].
Qed.

Lemma on_the_way_recovers s es cfg f :
  store_inv s → appendable s es → config_run (fs_configuration_state s) es = Ok cfg → on_the_way s es f →
  ∃ n l, log_append (abs s) (take n es) = Some l ∧ recovers l f.
Proof.
  intros Hinv Ha Hc (s1 & k & Hi1 & Hap & Hf).
  pose proof Ha as Ha1. rewrite <-(take_drop k es) in Ha1. pose proof (appendable_rest _ _ _ _ Ha1 Hap) as Ha2.
  apply appendable_app in Ha1. pose proof (log_append_appended s s1 _ Hinv Ha1 Hap) as Hl1.
  destruct Hf as [Hv|[[Hv|(o & Ho & Hes & ->)]|[m Ht]]].
  - exists k, (abs s1). split; [done|by apply recovers_visible].
  - exists k, (abs s1). split; [done|by apply recovers_visible].
  - exists k, (abs s1). split; [done|by apply recovers_sealed].
  - rewrite <-(take_drop k es), config_run_app, (ap_config _ _ _ Hap) in Hc. cbn [mbind result_bind] in Hc.
    rewrite <-(take_drop m (drop k es)) in Ha2, Hc. apply appendable_app in Ha2.
    rewrite config_run_app, bind_Ok_inv in Hc. destruct Hc as (cfg1 & Hc & _).
    destruct (recovers_torn s1 _ cfg1 f Hi1 Ha2 Hc Ht) as (n & l & Hl & Hr). exists (k + n `min` m), l. split; [|done].
    by rewrite <-take_take_drop, log_append_app, Hl1, <-take_take.
Qed.

(** C15. No crash loses or invents entries: when appending a batch succeeds, opening
    the directory again gives the log with the whole batch, and opening any directory
    that the append passed through, at every byte of a write, gives the log with some
    of the first entries of the batch, as a store that satisfies the invariant. *)
Theorem append_crash_recovers (pid : N) (s s' : FileLogStoreInner) (es : list LogEntry) (f : files) :
  store_inv s → forallb entry_fits es = true → append_batch pid es s = (Ok (), s') →
  f ∈ drop (length (dk_past (fs_disk s))) (dk_past (fs_disk s')) →
  (∃ l, log_append (abs s) es = Some l ∧ recovers l (dk_files (fs_disk s')))
  ∧ ∃ n l, log_append (abs s) (take n es) = Some l ∧ recovers l f.
Proof.
  intros Hinv Hfit Hrun Hf. pose proof (append_batch_spec pid s es Hinv Hfit) as Hs.
  destruct (log_append (abs s) es) as [l|] eqn:Hl; [|destruct Hs as [err Hs]; congruence].
  destruct Hs as (s2 & Hs & Hi2 & Hl2 & past & Hpast & Hway). rewrite Hs in Hrun. apply pair_eq in Hrun as [_ <-].
  destruct (log_append_Some s es l Hinv Hl) as [Ha [cfg Hc]]. split.
  - exists l. split; [done|]. rewrite <-Hl2. by apply recovers_visible.
  - rewrite Hpast, drop_app_length in Hf. rewrite Forall_forall in Hway. by eapply on_the_way_recovers; [..|apply Hway].
Qed.
End crash.
