(* ===== verification/LogIntents.v ===== *)
(** * LogIntents: intents read back

    The intents of truncation and compaction ([crates/rhiza-log/src/lib.rs]) are the
    redo records of the log store.  An intent that names files of the store is
    accepted by its validation, is encoded, and its file decodes to the same intent. *)

From S2P Require Import Prelude Bytes Text Core ConfigChange ConfigState LogSegment AnchorCodec LogStore LogNames.
From Stdlib Require Strings.Byte.

(** ** Names in intents *)

Definition no_slash (l : bytes) : bool := forallb (λ b, neqb b Byte.x2f) l.
Lemma no_slash_app l k : no_slash (l ++ k) = no_slash l && no_slash k.
Proof. apply forallb_app. Qed.
Lemma no_slash_digits l : forallb is_digit l = true → no_slash l = true.
Proof.
  unfold no_slash. rewrite !forallb_forall. intros Hd b Hb. specialize (Hd b Hb).
  apply neqb_true. by intros ->.
Qed.
Lemma split_no_slash l : no_slash l = true → split_path l = [l].
Proof.
  unfold no_slash. induction l as [|b l IH]; [done|]. cbn [forallb split_path]. intros [Hb Hl]%andb_true_iff.
  rewrite (IH Hl). destruct b; try done.
Qed.
Lemma relative_ok name :
  no_slash name = true → 3 ≤ length name → validate_relative_name name = Ok ().
Proof.
  intros Hs Hl. unfold validate_relative_name, single_normal_component. rewrite (split_no_slash _ Hs).
  destruct name as [|b1 [|b2 [|b3 name]]]; cbn in Hl; [lia..|]. rewrite !blen_cons.
  destruct (N.eqb_spec (1 + (1 + (1 + blen name))) 0); [lia|]. cbn [orb forallb andb].
  rewrite !(proj2 (eqb_false _ _)) by done. done.
Qed.

Lemma digits_ascii l : forallb is_digit l = true → is_str l = true.
Proof.
  intros Hd. apply is_str_ascii. rewrite forallb_forall in *. intros b Hb. specialize (Hd b Hb). by destruct b.
Qed.
Lemma decimal_digits n : forallb is_digit (decimal n) = true.
Proof. apply low_digits_digits. Qed.
Lemma decimal_length n : length (decimal n) ≤ 21.
Proof.
  unfold decimal. rewrite length_low_digits. assert (∀ fuel m, digit_count fuel m ≤ S fuel) as Hf; [|apply Hf].
  induction fuel as [|fuel IH]; intros m; cbn [digit_count]; [lia|]. destruct (m <? 10)%N; [lia|]. specialize (IH (m / 10)%N). lia.
Qed.

(** Everything an intent needs of the name of a closed segment. *)
Lemma segment_name_ok r :
  range_ok r →
  let name := segment_file_name r in
  name_ok name = true ∧ no_slash name = true ∧ length name = 46 ∧ validate_closed_segment_name name = Ok ().
Proof.
  intros Hr name. pose proof Hr as [H1 H2].
  assert (length name = 46) as Hlen.
  { unfold name, segment_file_name. rewrite !length_app, !length_padded by lia. done. }
  assert (no_slash name = true) as Hs.
  { unfold name, segment_file_name. rewrite !no_slash_app, !andb_true_iff. split_and!; try done; apply no_slash_digits, digits_padded. }
  assert (is_str name = true) as Hstr.
  { unfold name, segment_file_name. repeat apply is_str_app; try done; apply digits_ascii, digits_padded. }
  split_and!; [|done|done|].
  - unfold name_ok. rewrite Hstr. unfold blen. rewrite Hlen. done.
  - unfold validate_closed_segment_name. rewrite relative_ok by (done || lia). cbn [mbind result_bind].
    unfold name. rewrite parse_closed_name by done. cbn [mbind result_bind]. by rewrite neqb_refl.
Qed.
Lemma temp_name_ok pid r id :
  range_ok r →
  name_ok (temp_name pid (segment_file_name r) id) = true
  ∧ validate_temp_name (temp_name pid (segment_file_name r) id) = Ok ().
Proof.
  intros Hr. destruct (segment_name_ok r Hr) as (Hn & Hs & Hlen & _). set (final := segment_file_name r) in *. clearbody final.
  pose proof (decimal_length pid). pose proof (decimal_length id).
  assert (is_str final = true) as Hstr by (unfold name_ok in Hn; by apply andb_true_iff in Hn as [? _]).
  assert (46 ≤ length (temp_name pid final id) ≤ 200) as Hl by (unfold temp_name; rewrite !length_app, Hlen; change (length (lit ".")) with 1; change (length (lit ".tmp")) with 4; lia).
  split.
  - unfold name_ok. rewrite andb_true_iff, N.leb_le. split; [|unfold blen, u16_max; lia].
    unfold temp_name. repeat apply is_str_app; try done; apply decimal_str.
  - unfold validate_temp_name. rewrite relative_ok; [|unfold temp_name; rewrite !no_slash_app, !andb_true_iff; split_and!; try done; apply no_slash_digits, decimal_digits|lia].
    cbn [mbind result_bind]. unfold temp_name at 1. rewrite bool_decide_true by done. unfold temp_name. rewrite !app_assoc, strip_suffix_app. done.
Qed.

(** ** The frame of an intent file *)

Lemma intent_prologue magic version flags n rest :
  let out := magic ++ put_u16 version ++ put_u16 flags ++ put_u32 n ++ rest in
  let l := out ++ put_u32 (crc32c out) in
  blen magic = 4%N → (version < 2 ^ 16)%N → (flags < 2 ^ 16)%N → (n < 2 ^ 32)%N →
  slice l 0 4 = Some magic ∧ blen l = (16 + blen rest)%N
  ∧ read_u32 l (blen l - 4) = Ok (crc32c (index_range l 0 (blen l - 4)))
  ∧ read_u16 l 4 = Ok version ∧ read_u16 l 6 = Ok flags ∧ read_u32 l 8 = Ok n
  ∧ at_pos l 12 (rest ++ put_u32 (crc32c out)).
Proof.
  intros out l Hm Hv Hf Hn.
  assert (l = concat [magic; put_u16 version; put_u16 flags; put_u32 n; rest; put_u32 (crc32c out)]) as Hl.
  { unfold l, out. cbn [concat]. by rewrite app_nil_r, <-!app_assoc. }
  assert (blen l = 16 + blen rest)%N as Hlen.
  { rewrite Hl. cbn [concat]. rewrite !blen_app, Hm, !blen_put_u16, !blen_put_u32. change (blen []) with 0%N. lia. }
  assert (∀ i m a, [magic; put_u16 version; put_u16 flags; put_u32 n; rest; put_u32 (crc32c out)] !! i = Some m →
    a = blen (concat (take i [magic; put_u16 version; put_u16 flags; put_u32 n; rest; put_u32 (crc32c out)])) →
    slice l a (a + blen m) = Some m) as Hpart.
  { intros i m a Hi Ha. rewrite Hl. by eapply slice_part. }
  split_and!; [|done| | | | |].
  - specialize (Hpart 0 magic 0%N eq_refl eq_refl). by rewrite Hm in Hpart.
  - assert (blen l - 4 = blen out)%N as -> by (unfold l; rewrite blen_app, blen_put_u32; lia).
    rewrite (index_range_Some l 0 (blen out) out) by apply slice_prefix.
    apply field_u32; [|apply crc32c_bound]. apply (slice_at l out _ []); [unfold l; by rewrite app_nil_r|done|by rewrite blen_put_u32].
  - apply field_u16; [|done]. apply (Hpart 1 _ 4%N eq_refl). cbn [take concat]. by rewrite app_nil_r, Hm.
  - apply field_u16; [|done]. apply (Hpart 2 _ 6%N eq_refl). cbn [take concat]. by rewrite app_nil_r, blen_app, Hm.
  - apply field_u32; [|done]. apply (Hpart 3 _ 8%N eq_refl). cbn [take concat]. by rewrite app_nil_r, !blen_app, Hm.
  - exists (magic ++ put_u16 version ++ put_u16 flags ++ put_u32 n). split; [unfold l, out; by rewrite <-!app_assoc|].
    by rewrite !blen_app, Hm, !blen_put_u16, blen_put_u32.
Qed.

Definition names_bytes (names : list bytes) : bytes := concat (string_bytes <$> names).
Definition replacement_bytes (r : option TruncateReplacement) : bytes :=
  match r with Some r => string_bytes (tr_temp_name r) ++ string_bytes (tr_final_name r) | None => [] end.
Definition replacement_ok (r : option TruncateReplacement) : Prop :=
  match r with Some r => name_ok (tr_temp_name r) = true ∧ name_ok (tr_final_name r) = true | None => True end.

Lemma put_name_ok name : name_ok name = true → put_intent_name name = Ok (string_bytes name).
Proof. exact (put_string_ok name "truncate intent name"). Qed.
Lemma collect_names names :
  Forall (λ name, name_ok name = true) names → collect put_intent_name names = Ok (string_bytes <$> names).
Proof. intros Hn. apply collect_Ok. induction Hn as [|name names Hname _ IH]; constructor; [by apply put_name_ok|done]. Qed.
Lemma names_size names :
  Forall (λ name, name_ok name = true) names → (blen (names_bytes names) ≤ 65537 * N.of_nat (length names))%N.
Proof.
  induction 1 as [|name names Hname _ IH]; [done|]. unfold names_bytes in *. cbn [fmap list_fmap concat length].
  unfold name_ok, u16_max in Hname. bool_prop. unfold string_bytes at 1. rewrite !blen_app, blen_put_u16. lia.
Qed.
Lemma reads_names names :
  Forall (λ name, name_ok name = true) names →
  reads_to (λ end_, read_many (read_intent_name end_) (length names)) (names_bytes names) names.
Proof. intros Hn. apply reads_to_many. eapply Forall_impl; [exact Hn|]. intros name. apply reads_to_name. Qed.

Lemma encode_replacement_ok r : replacement_ok r → encode_replacement r = Ok (replacement_bytes r).
Proof. destruct r as [r|]; [|done]. intros [Ht Hf]. cbn [encode_replacement]. by rewrite !put_name_ok. Qed.
Lemma replacement_size r : replacement_ok r → (blen (replacement_bytes r) ≤ 131074)%N.
Proof.
  destruct r as [r|]; cbn [replacement_ok replacement_bytes]; [|change (blen []) with 0%N; lia]. unfold name_ok, u16_max. intros [Ht Hf]. bool_prop.
  unfold string_bytes. rewrite !blen_app, !blen_put_u16. lia.
Qed.
Lemma reads_replacement r : replacement_ok r → reads_to (decode_replacement (neqb r None)) (replacement_bytes r) r.
Proof.
  destruct r as [r|]; cbn [replacement_ok replacement_bytes].
  - intros [Ht Hf] end_ l c rest Hat Hend Hl. rewrite (proj2 (neqb_true _ _)) by done. cbn [decode_replacement].
    rewrite <-app_assoc in Hat. rewrite blen_app in *. rewrite (reads_to_name _ Ht end_ l c _ Hat) by lia.
    cbn [mbind result_bind]. apply at_pos_step in Hat. rewrite (reads_to_name _ Hf end_ l _ _ Hat) by lia.
    cbn [mbind result_bind]. rewrite N.add_assoc. by destruct r.
  - intros _ end_ l c rest _ _ _. rewrite neqb_refl. cbn. by rewrite N.add_0_r.
Qed.
#[export] Hint Resolve reads_replacement : codec.

Ltac read_names names :=
  match goal with
  | Hat : at_pos ?l ?c (?enc ++ ?rest), Hl : (blen ?l ≤ u64_max)%N |- _ =>
      etransitivity;
      [eapply (reads_to_step (λ end_, read_many (read_intent_name end_) (length names)) enc _ rest _ l c);
       [exact Hat|by apply reads_names|rewrite ?blen_app in *; lia|exact Hl]|];
      apply at_pos_step in Hat; cbn beta iota
  end.

(** ** Truncation intents *)

Record truncate_intent_wf (intent : TruncateIntent) : Prop := {
  tw_valid : validate_truncate_intent intent = Ok ();
  tw_names : Forall (λ name, name_ok name = true) (ti_old_segment_names intent);
  tw_replacement : replacement_ok (ti_replacement intent);
  tw_count : (N.of_nat (length (ti_old_segment_names intent)) ≤ u32_max)%N
}.

Lemma truncate_intent_reads intent :
  truncate_intent_wf intent → ∃ l, encode_truncate_intent intent = Ok l ∧ decode_truncate_intent l = Ok intent.
Proof.
  intros [Hval Hnames Hrep Hcount]. set (names := ti_old_segment_names intent) in *. set (n := N.of_nat (length names)) in *.
  set (flags := flag_when (neqb (ti_replacement intent) None) TRUNCATE_INTENT_REPLACEMENT).
  assert (flags < 2 ^ 16)%N as Hflags by (unfold flags; by destruct (neqb _ _)).
  assert (other_flags flags TRUNCATE_INTENT_REPLACEMENT = false) as Hof by (unfold flags; by destruct (neqb _ _)).
  assert (has_flag flags TRUNCATE_INTENT_REPLACEMENT = neqb (ti_replacement intent) None) as Hhf by (unfold flags; by destruct (neqb _ _)).
  unfold u32_max in Hcount.
  destruct (intent_prologue TRUNCATE_INTENT_MAGIC TRUNCATE_INTENT_VERSION flags n (names_bytes names ++ replacement_bytes (ti_replacement intent)))
    as (H0 & Hlen & Hcrc & H4 & H6 & H8 & Hat); [done|done|done|lia|]. set (out := TRUNCATE_INTENT_MAGIC ++ _) in *.
  set (l := out ++ put_u32 (crc32c out)) in *. exists l. split.
  { unfold encode_truncate_intent. rewrite Hval. cbn [mbind result_bind]. fold names n flags.
    destruct (N.ltb_spec u32_max n); [unfold u32_max in *; lia|]. cbn [reject_if mbind result_bind].
    rewrite collect_names, encode_replacement_ok by done. done. }
  pose proof (names_size names Hnames) as Hns. pose proof (replacement_size _ Hrep) as Hrs. fold n in Hns. rewrite blen_app in Hlen.
  assert (blen l ≤ u64_max)%N as Hl by (unfold u64_max; lia).
  unfold decode_truncate_intent. rewrite H0, neqb_refl. destruct (N.ltb_spec (blen l) 16); [lia|]. cbn [orb reject_if mbind result_bind].
  rewrite Hcrc. cbn [mbind result_bind]. rewrite neqb_refl. cbn [reject_if mbind result_bind]. rewrite H4. cbn [mbind result_bind].
  rewrite neqb_refl. cbn [reject_if mbind result_bind]. rewrite H6. cbn [mbind result_bind]. rewrite Hof, Hhf. cbn [reject_if mbind result_bind].
  rewrite H8. cbn [mbind result_bind]. unfold n. rewrite Nat2N.id. rewrite <-app_assoc in Hat.
  pose proof (blen_put_u32 (crc32c out)) as Hc4. cbv zeta. read_names names. read_to.
  apply at_pos_blen in Hat. rewrite Hat, blen_put_u32. rewrite (proj2 (neqb_false _ _)) by lia.
  cbn [reject_if mbind result_bind]. unfold names. destruct intent. cbn in *. by rewrite Hval.
Qed.

(** ** Compaction intents *)

Definition blob_bytes (l : bytes) : bytes := put_u32 (blen l) ++ l.
Lemma put_blob_ok l field : (blen l ≤ u32_max)%N → put_blob l field = Ok (blob_bytes l).
Proof. intros Hl. unfold put_blob. by destruct (N.ltb_spec u32_max (blen l)); [lia|]. Qed.
Lemma reads_to_blob l field : (blen l ≤ u32_max)%N → reads_to (read_blob field) (blob_bytes l) l.
Proof.
  intros Hb end_ k c rest Hat Hend Hk. unfold blob_bytes in *. unfold u32_max in Hb.
  rewrite <-app_assoc in Hat. rewrite blen_app, blen_put_u32 in *. unfold read_blob.
  pose proof (at_pos_slice _ _ _ _ Hat) as Hs. rewrite blen_put_u32 in Hs.
  rewrite (field_u32 k c (blen l) Hs) by lia. cbn [mbind result_bind].
  assert (checked_add c 4 = Some (c + 4)%N) as -> by (apply checked_add_Some; lia). cbn [ok_or mbind result_bind].
  assert (checked_add (c + 4) (blen l) = Some (c + 4 + blen l)%N) as -> by (apply checked_add_Some; lia).
  cbn [ok_or mbind result_bind]. destruct (N.ltb_spec end_ (c + 4 + blen l)); [lia|].
  cbn [reject_if mbind result_bind]. apply at_pos_step in Hat. rewrite blen_put_u32 in Hat.
  rewrite (index_range_Some _ _ _ _ (at_pos_slice _ _ _ _ Hat)). do 2 f_equal. lia.
Qed.
#[export] Hint Resolve reads_to_blob : codec.

Section compact.
Context `{Sha256}.

Record compact_intent_wf (intent : CompactIntent) : Prop := {
  cw_valid : validate_compact_intent intent = Ok ();
  cw_anchor : anchor_wf (ci_anchor intent);
  cw_previous : ∀ previous, ci_previous_anchor intent = Some previous → anchor_wf previous;
  cw_names : Forall (λ name, name_ok name = true) (ci_old_segment_names intent);
  cw_replacement : replacement_ok (ci_replacement intent);
  cw_count : (N.of_nat (length (ci_old_segment_names intent)) ≤ u32_max)%N
}.

(** The optional blob of the previous anchor. *)
Lemma previous_reads (previous : option RecoveryAnchor) :
  (∀ p, previous = Some p → anchor_wf p) →
  ∃ enc, match previous with
         | Some p => x ← encode_anchor p; put_blob x "compact previous anchor"
         | None => Ok []
         end = Ok enc
    ∧ (blen enc ≤ 2 ^ 21)%N
    ∧ reads_to (λ end_ l cursor,
         if neqb previous None then
           '(p, cursor) ← read_blob "compact previous anchor" end_ l cursor;
           p ← decode_anchor p; Ok (Some p, cursor)
         else Ok (None, cursor)) enc previous.
Proof.
  intros Hp. destruct previous as [p|].
  - destruct (anchor_reads p (Hp p eq_refl)) as (x & He & Hd & Hx). exists (blob_bytes x).
    assert (blen x ≤ u32_max)%N as Hx' by (unfold u32_max; lia).
    split_and!; [rewrite He; by apply put_blob_ok|unfold blob_bytes; rewrite blen_app, blen_put_u32; lia|].
    intros end_ l c rest Hat Hend Hl. rewrite (proj2 (neqb_true _ _)) by done.
    rewrite (reads_to_blob x _ Hx' end_ l c rest Hat Hend Hl). cbn [mbind result_bind]. by rewrite Hd.
  - exists []. split_and!; [done|done|]. intros end_ l c rest _ _ _. rewrite neqb_refl. by rewrite N.add_0_r.
Qed.

Lemma compact_intent_reads intent :
  compact_intent_wf intent → ∃ l, encode_compact_intent intent = Ok l ∧ decode_compact_intent l = Ok intent.
Proof.
  intros [Hval Hanc Hprev Hnames Hrep Hcount]. set (names := ci_old_segment_names intent) in *. set (n := N.of_nat (length names)) in *.
  set (flags := (flag_when (neqb (ci_previous_anchor intent) None) COMPACT_INTENT_PREVIOUS_ANCHOR
                 + flag_when (neqb (ci_replacement intent) None) COMPACT_INTENT_REPLACEMENT)%N).
  assert (flags < 2 ^ 16)%N as Hflags by (unfold flags; by destruct (neqb _ _), (neqb _ _)).
  assert (other_flags flags (COMPACT_INTENT_PREVIOUS_ANCHOR + COMPACT_INTENT_REPLACEMENT) = false) as Hof
    by (unfold flags; by destruct (neqb _ _), (neqb _ _)).
  assert (has_flag flags COMPACT_INTENT_PREVIOUS_ANCHOR = neqb (ci_previous_anchor intent) None
    ∧ has_flag flags COMPACT_INTENT_REPLACEMENT = neqb (ci_replacement intent) None) as [Hpf Hrf]
    by (unfold flags; by destruct (neqb _ _), (neqb _ _)).
  unfold u32_max in Hcount. destruct (anchor_reads _ Hanc) as (a & Hea & Hda & Hsa).
  assert (blen a ≤ u32_max)%N as Hau by (unfold u32_max; lia).
  destruct (previous_reads _ Hprev) as (enc & Henc & Hsenc & Hrenc).
  destruct (intent_prologue COMPACT_INTENT_MAGIC COMPACT_INTENT_VERSION flags n
    (blob_bytes a ++ enc ++ names_bytes names ++ replacement_bytes (ci_replacement intent)))
    as (H0 & Hlen & Hcrc & H4 & H6 & H8 & Hat); [done|done|done|lia|]. set (out := COMPACT_INTENT_MAGIC ++ _) in *.
  set (l := out ++ put_u32 (crc32c out)) in *. exists l. split.
  { unfold encode_compact_intent. rewrite Hval. cbn [mbind result_bind]. fold names n flags.
    destruct (N.ltb_spec u32_max n); [unfold u32_max in *; lia|]. cbn [reject_if mbind result_bind].
    rewrite Hea. cbn [mbind result_bind]. rewrite put_blob_ok by done. cbn [mbind result_bind]. rewrite Henc. cbn [mbind result_bind].
    rewrite collect_names, encode_replacement_ok by done. done. }
  pose proof (names_size names Hnames) as Hns. pose proof (replacement_size _ Hrep) as Hrs. fold n in Hns. rewrite !blen_app in Hlen.
  assert (blen (blob_bytes a) = 4 + blen a)%N as Hba by (unfold blob_bytes; by rewrite blen_app, blen_put_u32).
  assert (blen l ≤ u64_max)%N as Hl by (unfold u64_max; lia).
  unfold decode_compact_intent. rewrite H0, neqb_refl. destruct (N.ltb_spec (blen l) 20); [lia|]. cbn [orb reject_if mbind result_bind].
  rewrite Hcrc. cbn [mbind result_bind]. rewrite neqb_refl. cbn [reject_if mbind result_bind]. rewrite H4. cbn [mbind result_bind].
  rewrite neqb_refl. cbn [reject_if mbind result_bind]. rewrite H6. cbn [mbind result_bind]. rewrite Hof, Hpf, Hrf. cbn [reject_if mbind result_bind].
  rewrite H8. cbn [mbind result_bind]. unfold n. rewrite Nat2N.id. rewrite <-!app_assoc in Hat.
  pose proof (blen_put_u32 (crc32c out)) as Hc4. cbv zeta. read_to. rewrite Hda. cbn [mbind result_bind].
  assert (12 + blen (blob_bytes a) + blen enc ≤ blen l - 4 ≤ blen l)%N as Hend by lia.
  pose proof (Hrenc (blen l - 4)%N l _ _ Hat Hend Hl) as Hpv. cbn beta in Hpv. rewrite Hpv. cbn [mbind result_bind]. apply at_pos_step in Hat.
  read_names names. read_to. apply at_pos_blen in Hat. rewrite Hat, blen_put_u32. rewrite (proj2 (neqb_false _ _)) by lia.
  cbn [reject_if mbind result_bind]. unfold names. destruct intent. cbn in *. by rewrite Hval.
Qed.

(** The redo records of the log survive a crash as they were meant: an intent of
    truncation or of compaction that its validation accepts is written, and its file
    reads back to the same intent, with its anchors, segment names and replacement. *)
Theorem intents_roundtrip (t : TruncateIntent) (c : CompactIntent) :
  truncate_intent_wf t → compact_intent_wf c →
  (∃ l, encode_truncate_intent t = Ok l ∧ decode_truncate_intent l = Ok t)
  ∧ ∃ l, encode_compact_intent c = Ok l ∧ decode_compact_intent l = Ok c.
Proof. intros Ht Hc. split; [by apply truncate_intent_reads|by apply compact_intent_reads]. Qed.
End compact.
