(* ===== verification/LogRedo.v ===== *)
(** * LogRedo: applying an intent

    Truncation and compaction ([crates/rhiza-log/src/lib.rs]) write an intent and then
    apply it: remove the old segments, rename the replacement into its place, remove
    the intent.  The steps can be repeated from any directory that a crash left
    between them, with the same result, which is what recovery at opening does. *)

From S2P Require Import Prelude Bytes Text Core ConfigChange ConfigState LogSegment AnchorCodec LogStore LogNames LogScan LogInv.
From Stdlib Require Strings.Byte.

(** ** Removing files *)

(** The directories that a disk went through. *)
Definition disk_passed (d d' : Disk) (P : files → Prop) : Prop :=
  ∃ past, dk_past d' = dk_past d ++ past ∧ Forall P past.
Lemma disk_passed_refl (d : Disk) P : disk_passed d d P.
Proof. exists []. by rewrite app_nil_r. Qed.
Lemma disk_passed_trans d1 d2 d3 P : disk_passed d1 d2 P → disk_passed d2 d3 P → disk_passed d1 d3 P.
Proof. intros (p & Hp & Hf) (q & Hq & Hg). exists (p ++ q). rewrite Hq, Hp, app_assoc. split; [done|by apply Forall_app]. Qed.
Lemma disk_passed_impl (d d' : Disk) (P Q : files → Prop) : disk_passed d d' P → (∀ f, P f → Q f) → disk_passed d d' Q.
Proof. intros (p & Hp & HF) HPQ. exists p. split; [done|]. by eapply Forall_impl. Qed.
Lemma disk_passed_one (d : Disk) (f : files) (P : files → Prop) : P (dk_files d) → disk_passed d (changed d f) P.
Proof. intros Hp. exists [dk_files d]. split; [done|by constructor]. Qed.

Lemma remove_if_exists_ok (name : bytes) (d : Disk) (P : files → Prop) :
  P (dk_files d) →
  ∃ d', remove_if_exists name d = (Ok (), d') ∧ dk_files d' = delete name (dk_files d)
    ∧ dk_next_temp d' = dk_next_temp d ∧ disk_passed d d' P.
Proof.
  intros HP. unfold remove_if_exists. destruct (dk_files d !! name) as [c|] eqn:E.
  - rewrite (bind_Ok_run _ _ d d true (exists_true _ _ _ E)), (remove_run _ _ _ E).
    eexists. split_and!; [reflexivity|done|done|by apply disk_passed_one].
  - rewrite (bind_Ok_run _ _ d d false (exists_false _ _ E)). exists d.
    split_and!; [done|by rewrite delete_id|done|apply disk_passed_refl].
Qed.

Lemma temps_mono (f g : files) : (∀ n, is_temp n = true → is_Some (g !! n) → is_Some (f !! n)) → temps g ⊆ temps f.
Proof.
  intros Hfg n. unfold temps. rewrite !elem_of_filter, !elem_of_dom. intros [Ht Hg]. split; [done|]. by apply Hfg.
Qed.
Lemma room_mono d d' n : room d n → temps (dk_files d') ⊆ temps (dk_files d) → (dk_next_temp d' < 2 ^ 64)%N → room d' n.
Proof. intros [_ Hs] Hsub Hn. split; [done|]. apply subseteq_size in Hsub. lia. Qed.

(** ** The steps of an intent *)

Section redo.
Context (f0 : files) (names : list bytes) (rep : option TruncateReplacement) (c : bytes) (intent_name intent_bytes : bytes).

Record redo_names : Prop := {
  rn_intent : is_temp intent_name = false;
  rn_old : Forall (λ n, is_temp n = false ∧ n ≠ intent_name) names;
  rn_rep : ∀ r, rep = Some r → is_temp (tr_temp_name r) = true ∧ is_temp (tr_final_name r) = false
             ∧ tr_final_name r ≠ intent_name ∧ tr_final_name r ∉ names
}.

(** A file that the intent does not speak of. *)
Definition untouched (n : bytes) : Prop :=
  is_temp n = false ∧ n ≠ intent_name ∧ n ∉ names ∧ ∀ r, rep = Some r → n ≠ tr_final_name r.

(** The directory between the publication of the intent and its removal. *)
Record pending (f : files) : Prop := {
  pd_intent : f !! intent_name = Some intent_bytes;
  pd_others : ∀ n, untouched n → f !! n = f0 !! n;
  pd_rep : ∀ r, rep = Some r →
    (f !! tr_temp_name r = Some c ∧ f !! tr_final_name r = None)
    ∨ (f !! tr_temp_name r = None ∧ f !! tr_final_name r = Some c)
}.
(** The directory after it. *)
Record applied (f : files) : Prop := {
  ad_intent : f !! intent_name = None;
  ad_others : ∀ n, untouched n → f !! n = f0 !! n;
  ad_old : ∀ n, n ∈ names → f !! n = None;
  ad_rep : ∀ r, rep = Some r → f !! tr_temp_name r = None ∧ f !! tr_final_name r = Some c
}.

Definition redo (operation : string) : io () :=
  _ ← remove_all names;
  _ ← install_replacement rep operation;
  remove_if_exists intent_name.

Lemma pending_delete (f : files) (name : bytes) : redo_names → name ∈ names → pending f → pending (delete name f).
Proof.
  intros [Hi Ho Hr] Hn [H1 H2 H3]. rewrite Forall_forall in Ho. destruct (Ho name Hn) as [Hnt Hni]. split.
  - by rewrite lookup_delete_ne.
  - intros n Hu. pose proof Hu as (_ & _ & Hnn & _). rewrite lookup_delete_ne; [by apply H2|]. by intros ->.
  - intros r Hrep. destruct (Hr r Hrep) as (Ht & _ & _ & Hf).
    rewrite !lookup_delete_ne; [by apply H3|intros ->..]; [done|congruence].
Qed.

Lemma remove_all_ok (l : list bytes) (d : Disk) :
  redo_names → (∀ n, n ∈ l → n ∈ names) → pending (dk_files d) →
  ∃ d', remove_all l d = (Ok (), d') ∧ pending (dk_files d') ∧ (∀ n, dk_files d' !! n = if decide (n ∈ l) then None else dk_files d !! n)
    ∧ dk_next_temp d' = dk_next_temp d ∧ disk_passed d d' pending.
Proof.
  intros Hn. revert d. induction l as [|name l IH]; intros d Hl Hp; cbn [remove_all].
  { exists d. split_and!; [done|done| |done|apply disk_passed_refl]. intros n. by rewrite decide_False by set_solver. }
  destruct (remove_if_exists_ok name d pending Hp) as (d1 & H1 & Hf1 & Hx1 & Hp1). rewrite (bind_Ok_run _ _ d d1 () H1).
  destruct (IH d1) as (d2 & H2 & Hp2 & Hf2 & Hx2 & Hp2'); [set_solver|rewrite Hf1; apply pending_delete; set_solver|].
  exists d2. split_and!; [done|done| |by rewrite Hx2|by eapply disk_passed_trans].
  intros n. rewrite Hf2, Hf1. destruct (decide (n ∈ l)); [by rewrite decide_True by set_solver|].
  destruct (decide (n = name)) as [->|Hne]; [by rewrite lookup_delete_eq, decide_True by set_solver|].
  by rewrite lookup_delete_ne, decide_False by set_solver.
Qed.

(** The replacement is in its place. *)
Definition installed (f : files) : Prop :=
  ∀ r, rep = Some r → f !! tr_temp_name r = None ∧ f !! tr_final_name r = Some c.

Lemma install_replacement_ok (op : string) (d : Disk) :
  redo_names → pending (dk_files d) →
  ∃ d', install_replacement rep op d = (Ok (), d') ∧ pending (dk_files d') ∧ installed (dk_files d')
    ∧ (∀ n, n ∈ names → dk_files d' !! n = dk_files d !! n)
    ∧ (∀ n, is_temp n = true → is_Some (dk_files d' !! n) → is_Some (dk_files d !! n))
    ∧ dk_next_temp d' = dk_next_temp d ∧ disk_passed d d' pending.
Proof.
  intros [Hi Ho Hr] Hp. destruct rep as [r|] eqn:Erep; cbn [install_replacement].
  2:{ exists d. split_and!; try done; [intros r; congruence|apply disk_passed_refl]. }
  destruct (Hr r eq_refl) as (Ht & Hf & Hfi & Hfn). destruct (pd_rep _ Hp r Erep) as [[H1 H2]|[H1 H2]].
  - rewrite (bind_Ok_run _ _ d d true (exists_true _ _ _ H1)), (bind_Ok_run _ _ d d false (exists_false _ _ H2)), (rename_run _ _ _ _ H1).
    assert (tr_temp_name r ≠ tr_final_name r) as Hne by congruence.
    eexists. split; [reflexivity|]. cbn [changed dk_files dk_next_temp]. split_and!; [| | | |done|by apply disk_passed_one].
    + split.
      * rewrite lookup_insert_ne, lookup_delete_ne; [apply Hp|congruence|done].
      * intros n Hu. destruct Hu as (Hu1 & Hu2 & Hu3 & Hu4). specialize (Hu4 r Erep). rewrite lookup_insert_ne, lookup_delete_ne; [|congruence..].
        apply Hp. split_and!; [done|done|done|]. intros r' Hr'. congruence.
      * intros r' Hr'. assert (r' = r) as -> by congruence. right. rewrite lookup_insert_eq, lookup_insert_ne, lookup_delete_eq by done. done.
    + intros r' Hr'. assert (r' = r) as -> by congruence. rewrite lookup_insert_eq, lookup_insert_ne, lookup_delete_eq by done. done.
    + intros n Hn. rewrite Forall_forall in Ho. destruct (Ho n Hn) as [Hnt _]. rewrite lookup_insert_ne, lookup_delete_ne; [done|congruence|]. intros Heq. apply Hfn. by rewrite Heq.
    + intros n Hn. rewrite lookup_insert_ne by congruence. rewrite lookup_delete_is_Some. tauto.
  - rewrite (bind_Ok_run _ _ d d false (exists_false _ _ H1)), (bind_Ok_run _ _ d d true (exists_true _ _ _ H2)).
    exists d. split_and!; [done|done| |done|done|done|apply disk_passed_refl]. intros r' Hr'. assert (r' = r) as -> by congruence. done.
Qed.

Lemma redo_ok (op : string) (d : Disk) :
  redo_names → pending (dk_files d) →
  ∃ d', redo op d = (Ok (), d') ∧ applied (dk_files d') ∧ temps (dk_files d') ⊆ temps (dk_files d)
    ∧ dk_next_temp d' = dk_next_temp d ∧ disk_passed d d' pending.
Proof.
  intros Hn Hp. destruct (remove_all_ok names d Hn ltac:(done) Hp) as (d1 & H1 & Hp1 & Hf1 & Hx1 & Hpp1).
  destruct (install_replacement_ok op d1 Hn Hp1) as (d2 & H2 & Hp2 & Hi2 & Hn2 & Ht2 & Hx2 & Hpp2).
  destruct (remove_if_exists_ok intent_name d2 pending Hp2) as (d3 & H3 & Hf3 & Hx3 & Hpp3).
  exists d3. unfold redo. rewrite (bind_Ok_run _ _ d d1 () H1), (bind_Ok_run _ _ d1 d2 () H2), H3.
  destruct Hn as [Hin Hon Hrn]. split_and!; [done| | |by rewrite Hx3, Hx2, Hx1|eapply disk_passed_trans; [done|by eapply disk_passed_trans]].
  - rewrite Hf3. split.
    + apply lookup_delete_eq.
    + intros n Hu. rewrite lookup_delete_ne; [by apply Hp2|]. apply not_eq_sym, Hu.
    + intros n Hnn. rewrite lookup_delete_None. right. rewrite Hn2, Hf1 by done. by rewrite decide_True.
    + intros r Hr. destruct (Hrn r Hr) as (Ht & _ & Hfi & _). rewrite !lookup_delete_ne; [by apply Hi2|congruence..].
  - apply temps_mono. intros n Hn Hs. rewrite Hf3 in Hs. apply lookup_delete_is_Some in Hs as [_ Hs].
    apply Ht2 in Hs; [|done]. rewrite Hf1 in Hs. destruct (decide (n ∈ names)); [by destruct Hs|done].
Qed.
End redo.
