(* ===== verification/LogSwap.v ===== *)
(** * LogSwap: replacing segments

    What truncation and compaction of [crates/rhiza-log/src/lib.rs] have in common: a
    group of closed segments gives way to at most one new segment, which is prepared
    as a temporary file, recorded in an intent and put in place when the intent is
    applied. *)

From S2P Require Import Prelude Bytes Text Core ConfigChange ConfigState LogSegment AnchorCodec LogStore LogNames LogScan LogInv LogSpec LogCrash LogIntents LogRedo.
From Stdlib Require Strings.Byte.

Section swap.
Context `{Sha256}.

(** ** Directories without an open segment and without an intent *)

Record sealed_dir (f : files) (a : option RecoveryAnchor) (segs : list ClosedSegment) : Prop := {
  sd_anchor : anchor_on_disk f a;
  sd_closed : closed_on_disk f segs;
  sd_open : ∀ name, is_open_name name = true → f !! name = None;
  sd_truncate : f !! TRUNCATE_INTENT_FILE_NAME = None;
  sd_compact : f !! COMPACT_INTENT_FILE_NAME = None
}.
Lemma inv_sealed_dir s :
  store_inv s → fs_open_segment s = None → sealed_dir (dk_files (fs_disk s)) (fs_anchor s) (fs_segments s).
Proof.
  intros Hinv Ho. destruct (si_log s Hinv) as (i & h & [_ _ _ Hopen]). rewrite Ho in Hopen.
  split; [by apply si_anchor|by apply si_closed|done|by apply si_truncate|by apply si_compact].
Qed.
Lemma sealed_store d c epoch initial cfg a segs i h :
  c ≠ [] → is_u64 epoch = true → sealed_dir (dk_files d) a segs → validate_anchor_identity a c epoch = Ok () →
  after_anchor a = Ok (i, h) → Forall seg_wf segs → log_from c epoch i h (flat segs) = true →
  config_run (base_configuration initial a) (flat segs) = Ok cfg → room d 2 →
  store_inv (mkStore d c epoch initial cfg a segs None).
Proof.
  intros Hc He [Ha Hcl Ho Ht Hcp] Hid Hb Hwf Hl Hcfg Hroom. split; try done.
  - exists i, h. split; [done| |done|done]. by rewrite all_entries_eq, app_nil_r.
  - by rewrite all_entries_eq, app_nil_r.
Qed.

(** ** The new segment *)

(** [rep] is the replacement that puts the segments [new] (one or none) in place. *)
Definition replaces (pid : N) (new : list ClosedSegment) (rep : option TruncateReplacement) : Prop :=
  match rep with
  | None => new = []
  | Some r => ∃ seg id, new = [seg] ∧ tr_final_name r = segment_name seg ∧ tr_temp_name r = temp_name pid (segment_name seg) id
  end.
Definition new_bytes (new : list ClosedSegment) : bytes := encode_segment (flat new).
Definition new_segments (es : list LogEntry) : list ClosedSegment := match es with [] => [] | _ => [mkClosed es] end.

Definition intent_file (name : bytes) : Prop := name = TRUNCATE_INTENT_FILE_NAME ∨ name = COMPACT_INTENT_FILE_NAME.
Lemma intent_not_temp name : intent_file name → is_temp name = false.
Proof. by intros [-> | ->]. Qed.
Lemma intent_not_closed name : intent_file name → is_closed_name name = false ∧ is_open_name name = false.
Proof. intros [-> | ->]; [destruct other_truncate|destruct other_compact]; done. Qed.

Definition seg_names (segs : list ClosedSegment) : list bytes := segment_name <$> segs.
Definition ranges_ok (segs : list ClosedSegment) : Prop := Forall (λ seg, range_ok (seg_range seg)) segs.

Lemma names_closed segs name : ranges_ok segs → name ∈ seg_names segs → is_closed_name name = true.
Proof.
  intros Hr (seg & -> & Hseg)%list_elem_of_fmap. unfold ranges_ok in Hr. rewrite Forall_forall in Hr.
  apply (closed_name (seg_range seg)). by apply Hr.
Qed.
Lemma replaces_closed pid new rep r : ranges_ok new → replaces pid new rep → rep = Some r → is_closed_name (tr_final_name r) = true.
Proof.
  intros Hr Hrep ->. destruct Hrep as (seg & id & -> & -> & _). apply (names_closed [seg]); [done|]. by left.
Qed.

(** The names of an intent about segments. *)
Lemma swap_names pid old new rep intent :
  intent_file intent → ranges_ok old → ranges_ok new → replaces pid new rep →
  (∀ seg, seg ∈ new → segment_name seg ∉ seg_names old) →
  redo_names (seg_names old) rep intent.
Proof.
  intros Hi Ho Hn Hrep Hdis. destruct (intent_not_closed intent Hi) as [Hic _]. split.
  - by apply intent_not_temp.
  - apply Forall_forall. intros name Hname. pose proof (names_closed _ _ Ho Hname) as Hcl.
    split; [apply segment_not_temp; by right|]. intros ->. congruence.
  - intros r ->. pose proof (replaces_closed pid new (Some r) r Hn Hrep eq_refl) as Hcl. destruct Hrep as (seg & id & -> & Hf & Ht).
    split_and!; [rewrite Ht; apply temp_ends|apply segment_not_temp; by right|intros Heq; congruence|].
    rewrite Hf. apply Hdis. by left.
Qed.

(** Files that are not closed segments are not touched. *)
Lemma untouched_other pid old new rep intent name :
  ranges_ok old → ranges_ok new → replaces pid new rep →
  is_temp name = false → name ≠ intent → is_closed_name name = false → untouched (seg_names old) rep intent name.
Proof.
  intros Ho Hn Hrep Ht Hi Hc. split_and!; [done|done| |].
  - intros Hin. by rewrite (names_closed _ _ Ho Hin) in Hc.
  - intros r Hr ->. by rewrite (replaces_closed pid new rep r Hn Hrep Hr) in Hc.
Qed.

(** Applying the intent replaces the segments in the directory. *)
Lemma applied_dir pid f0 f a pre old post new rep intent :
  intent_file intent → sealed_dir f0 a (pre ++ old ++ post) → ranges_ok (pre ++ old ++ post) → ranges_ok (pre ++ new ++ post) →
  NoDup (seg_names (pre ++ old ++ post)) → NoDup (seg_names (pre ++ new ++ post)) → replaces pid new rep →
  applied f0 (seg_names old) rep (new_bytes new) intent f →
  sealed_dir f a (pre ++ new ++ post).
Proof.
  intros Hi [Ha [Hcl1 Hcl2] Ho Ht Hcp] Hr Hr' Hnd Hnd' Hrep [A1 A2 A3 A4].
  assert (ranges_ok old ∧ ranges_ok new) as [Hro Hrn].
  { unfold ranges_ok in *. rewrite !Forall_app in Hr, Hr'. naive_solver. }
  assert (∀ n, is_temp n = false → n ≠ intent → is_closed_name n = false → f !! n = f0 !! n) as Hkeep.
  { intros n H1 H2 H3. apply A2. by apply (untouched_other pid old new). }
  unfold seg_names in *. rewrite !fmap_app, !NoDup_app in Hnd, Hnd'.
  destruct Hnd as (Hn1 & Hn2 & Hn3 & Hn4 & Hn5), Hnd' as (Hm1 & Hm2 & Hm3 & Hm4 & Hm5).
  split.
  - eapply anchor_on_disk_eq; [|exact Ha]. apply Hkeep; [done|by destruct Hi as [-> | ->]|apply other_anchor].
  - split.
    + intros n Hn [v Hv]. rewrite !fmap_app, !elem_of_app.
      destruct (decide (n ∈ segment_name <$> old)) as [Hold|Hold]; [by rewrite (A3 n Hold) in Hv|].
      destruct (decide (n ∈ segment_name <$> new)) as [Hnew|Hnew]; [by right; left|].
      assert (f0 !! n = Some v) as Hv0.
      { rewrite <-(A2 n); [done|]. split_and!; [apply segment_not_temp; by right| |done|].
        - intros ->. destruct (intent_not_closed _ Hi). congruence.
        - intros r -> ->. destruct Hrep as (seg & id & -> & Hf & _). apply Hnew. rewrite Hf. by left. }
      specialize (Hcl1 n Hn ltac:(by eexists)). rewrite !fmap_app, !elem_of_app in Hcl1. tauto.
    + apply Forall_app in Hcl2 as [C1 C2]. apply Forall_app in C2 as [_ C3].
      assert (∀ seg, seg ∈ pre ++ post → f0 !! segment_name seg = Some (encode_segment (cs_entries seg)) →
        f !! segment_name seg = Some (encode_segment (cs_entries seg))) as Hsame.
      { intros seg Hseg Hf0. rewrite A2; [done|].
        assert (is_closed_name (segment_name seg) = true) as Hcs.
        { apply (names_closed (pre ++ old ++ post)); [done|]. apply list_elem_of_fmap. exists seg. split; [done|]. set_solver. }
        split_and!; [apply segment_not_temp; by right| | |].
        - intros Heq. destruct (intent_not_closed _ Hi). congruence.
        - apply elem_of_app in Hseg as [Hseg|Hseg]; apply (list_elem_of_fmap_2 segment_name) in Hseg; intros Hin; [apply (Hn2 _ Hseg)|apply (Hn4 _ Hin)]; set_solver.
        - intros r -> Heq. destruct Hrep as (seg' & id & -> & Hf & _). rewrite Hf in Heq.
          apply elem_of_app in Hseg as [Hseg|Hseg]; apply (list_elem_of_fmap_2 segment_name) in Hseg; [apply (Hm2 _ Hseg)|apply (Hm4 (segment_name seg'))]; set_solver. }
      rewrite !Forall_app. rewrite Forall_forall in C1, C3. split_and!.
      * apply Forall_forall. intros seg Hseg. apply Hsame; [set_solver|by apply C1].
      * destruct rep as [r|]; [|by rewrite Hrep; constructor]. destruct Hrep as (seg & id & -> & Hf & _).
        constructor; [|done]. rewrite <-Hf. destruct (A4 r eq_refl) as [_ ->]. unfold new_bytes. by rewrite flat_one.
      * apply Forall_forall. intros seg Hseg. apply Hsame; [set_solver|by apply C3].
  - intros n Hn. rewrite Hkeep; [by apply Ho|apply segment_not_temp; by left| |].
    + intros ->. destruct (intent_not_closed _ Hi). congruence.
    + unfold is_closed_name. by rewrite Hn.
  - destruct Hi as [-> | ->]; [done|]. rewrite Hkeep; [done|done|done|apply other_truncate].
  - destruct Hi as [-> | ->]; [|done]. rewrite Hkeep; [done|done|done|apply other_compact].
Qed.

(** ** Preparing and publishing *)

Lemma temps_insert_le (f : files) (name c : bytes) : size (temps (<[name := c]> f)) ≤ S (size (temps f)).
Proof.
  assert (temps (<[name := c]> f) ⊆ {[name]} ∪ temps f) as Hs.
  { intros n. unfold temps. rewrite elem_of_union, elem_of_singleton, !elem_of_filter, !elem_of_dom, lookup_insert_is_Some. naive_solver. }
  apply subseteq_size in Hs. pose proof (size_union_alt {[name]} (temps f)) as Hu. rewrite size_singleton in Hu.
  assert (size (temps f ∖ {[name]}) ≤ size (temps f)) by (apply subseteq_size; set_solver). lia.
Qed.

Lemma prepare_ok (pid : N) (es : list LogEntry) (d : Disk) (n : nat) :
  ranges_ok (new_segments es) → room d (S n) →
  ∃ rep d', prepare_replacement pid es d = (Ok rep, d') ∧ replaces pid (new_segments es) rep ∧ room d' n
    ∧ dk_files d' = match rep with
                    | Some r => <[tr_temp_name r := encode_segment es]> (dk_files d)
                    | None => dk_files d
                    end
    ∧ (∀ r, rep = Some r → dk_files d !! tr_temp_name r = None)
    ∧ visible_eq (dk_files d) (dk_files d') ∧ disk_passed d d' (visible_eq (dk_files d)).
Proof.
  intros Hr Hroom. unfold prepare_replacement. destruct es as [|e es].
  { exists None, d. split_and!; [done|done|apply (room_le _ (S n)); [done|lia]|done|done|done|apply disk_passed_refl]. }
  cbn [new_segments] in *. set (seg := mkClosed (e :: es)) in *. inversion Hr as [|? ? [Hle Hu] _]; subst.
  destruct (last (e :: es)) as [lst|] eqn:Hlast; [|by apply last_None in Hlast]. cbn [head].
  assert (cs_start seg = le_index e) as Hse by done.
  assert (cs_end seg = le_index lst) as Hee by (unfold cs_end; cbn [cs_entries seg]; by rewrite Hlast).
  change (cs_start seg ≤ cs_end seg)%N in Hle. rewrite Hse, Hee in Hle.
  assert (IndexRange_new (le_index e) (le_index lst) = Ok (seg_range seg)) as Hrange.
  { unfold IndexRange_new, seg_range. rewrite Hse, Hee. by destruct (N.ltb_spec (le_index lst) (le_index e)); [lia|]. }
  rewrite (bind_Ok_run _ _ d d (seg_range seg)) by (unfold of_result; by rewrite Hrange).
  change (segment_file_name (seg_range seg)) with (segment_name seg).
  destruct (create_unique_ok pid d (segment_name seg) (room_le _ _ _ Hroom (Nat.le_0_l _))) as (temp & next & Hc & Hfree & [id Hid] & Hn).
  set (d1 := mkDisk (<[temp := []]> (dk_files d)) (dk_past d ++ [dk_files d]) next) in *.
  rewrite (bind_Ok_run _ _ d d1 temp Hc).
  rewrite (bind_Ok_run _ _ d1 _ () (write_all_run temp (encode_segment (e :: es)) d1 [] ltac:(cbn; by rewrite lookup_insert_eq))).
  assert (is_temp temp = true) as Ht by (rewrite Hid; apply temp_ends).
  eexists (Some (mkTruncateReplacement temp (segment_name seg))), _. split; [reflexivity|]. cbn [app dk_files d1 dk_past tr_temp_name].
  assert (∀ x, visible_eq (dk_files d) (<[temp := x]> (dk_files d))) as Hv.
  { intros x name Hname. rewrite lookup_insert_ne; [done|]. intros ->. congruence. }
  rewrite insert_insert_eq. split_and!; [by exists seg, id| |done|intros r; by intros [= <-]|apply Hv|].
  - split; [done|]. cbn [dk_files]. pose proof (temps_insert_le (dk_files d) temp (encode_segment (e :: es))). destruct Hroom as [_ Hroom]. lia.
  - eexists. cbn [dk_past d1]. rewrite <-app_assoc. split; [reflexivity|]. constructor; [done|].
    apply Forall_fmap, Forall_forall. intros j _. cbn. rewrite insert_insert_eq. apply Hv.
Qed.

Lemma publish_ok (pid : N) (name : bytes) (message : string) (l : bytes) (d : Disk) (n : nat) :
  is_temp name = false → dk_files d !! name = None → room d n →
  ∃ d', publish_intent pid name message (Ok l) d = (Ok (), d') ∧ dk_files d' = <[name := l]> (dk_files d) ∧ room d' n
    ∧ disk_passed d d' (visible_eq (dk_files d)).
Proof.
  intros Hn Hf Hroom. destruct (install_file_ok pid name l d n Hroom Hn) as (d' & Hi & Hd & Hr & Hp). exists d'.
  split_and!; [|done|done|done]. unfold publish_intent. rewrite (bind_Ok_run _ _ d d false (exists_false _ _ Hf)). exact Hi.
Qed.

(** The directory after the publication. *)
Lemma published_pending (pid : N) (f0 : files) old es rep intent l :
  intent_file intent → ranges_ok old → ranges_ok (new_segments es) → replaces pid (new_segments es) rep →
  (∀ seg, seg ∈ new_segments es → f0 !! segment_name seg = None) → (∀ r, rep = Some r → f0 !! tr_temp_name r = None) →
  pending f0 (seg_names old) rep (new_bytes (new_segments es)) intent l
    (<[intent := l]> match rep with Some r => <[tr_temp_name r := encode_segment es]> f0 | None => f0 end).
Proof.
  intros Hi Ho Hn Hrep Hfree Htfree. assert (is_temp intent = false) as Hit by (by apply intent_not_temp). split.
  - apply lookup_insert_eq.
  - intros n (H1 & H2 & _). rewrite lookup_insert_ne by done. destruct rep as [r|]; [|done].
    destruct Hrep as (seg & id & _ & _ & Ht). rewrite lookup_insert_ne; [done|]. intros <-. rewrite Ht in H1. unfold is_temp in H1. by rewrite temp_ends in H1.
  - intros r ->. pose proof (replaces_closed pid _ _ r Hn Hrep eq_refl) as Hcl. destruct Hrep as (seg & id & Hnew & Hf & Ht).
    assert (is_temp (tr_temp_name r) = true) as Htt by (rewrite Ht; apply temp_ends). left.
    assert (is_temp (tr_final_name r) = false) as Htf by (apply segment_not_temp; by right).
    assert (intent ≠ tr_final_name r) as Hif.
    { intros ->. destruct (intent_not_closed _ Hi). congruence. }
    split.
    + rewrite lookup_insert_ne, lookup_insert_eq by congruence. unfold new_bytes. f_equal. f_equal. destruct es; [done|]. cbn [new_segments]. by rewrite flat_one.
    + rewrite !lookup_insert_ne by congruence. rewrite Hf. apply Hfree. rewrite Hnew. by left.
Qed.

(** The temporary file of the replacement is gone at the end. *)
Lemma swap_temps (g f0 f1 f2 f3 : files) names (rep : option TruncateReplacement) (c intent l x : bytes) :
  applied g names rep c intent f3 → temps f3 ⊆ temps f2 → f2 = <[intent := l]> f1 →
  f1 = match rep with Some r => <[tr_temp_name r := x]> f0 | None => f0 end → is_temp intent = false →
  temps f3 ⊆ temps f0.
Proof.
  intros Happ Hsub -> -> Hit n Hn. pose proof (Hsub n Hn) as Hn2. unfold temps in *. rewrite elem_of_filter, elem_of_dom in *.
  destruct Hn as [Ht Hn], Hn2 as [_ Hn2]. split; [done|]. rewrite lookup_insert_ne in Hn2 by (intros <-; unfold is_temp in Hit; congruence).
  destruct rep as [r|]; [|done]. rewrite lookup_insert_ne in Hn2; [done|]. intros <-.
  destruct (ad_rep _ _ _ _ _ _ Happ r eq_refl) as [Hnone _]. rewrite Hnone in Hn. by destruct Hn.
Qed.

(** ** Names in the intent *)

Lemma old_names_valid earlier old duplicate :
  ranges_ok old → NoDup (seg_names old) → (∀ n, n ∈ earlier → n ∉ seg_names old) →
  validate_old_names earlier (seg_names old) duplicate = Ok ().
Proof.
  intros Hr. revert earlier. induction Hr as [|seg old Hs _ IH]; intros earlier Hnd Hdis; [done|].
  cbn [seg_names fmap list_fmap validate_old_names] in *. apply NoDup_cons in Hnd as [Hn Hnd].
  destruct (segment_name_ok (seg_range seg) Hs) as (_ & _ & _ & Hv). change (segment_file_name (seg_range seg)) with (segment_name seg) in Hv. rewrite Hv. cbn [mbind result_bind].
  rewrite bool_decide_false.
  - cbn [reject_if mbind result_bind]. apply IH; [done|]. intros n [Hin|Hin]%elem_of_app; [specialize (Hdis n Hin); set_solver|]. apply list_elem_of_singleton in Hin as ->. done.
  - intros Hin. apply (Hdis _ Hin). by left.
Qed.
Lemma old_names_ok old : ranges_ok old → Forall (λ name, name_ok name = true) (seg_names old).
Proof.
  intros Hr. apply Forall_fmap. eapply Forall_impl; [exact Hr|]. intros seg Hs. by destruct (segment_name_ok (seg_range seg) Hs) as (? & _).
Qed.
Lemma replaces_names pid new rep :
  ranges_ok new → replaces pid new rep →
  replacement_ok rep ∧ ∀ r, rep = Some r → validate_temp_name (tr_temp_name r) = Ok () ∧ validate_closed_segment_name (tr_final_name r) = Ok ().
Proof.
  intros Hn Hrep. destruct rep as [r|]; [|done]. destruct Hrep as (seg & id & -> & Hf & Ht). inversion Hn as [|? ? Hs _]; subst.
  destruct (segment_name_ok (seg_range seg) Hs) as (H1 & _ & _ & H2). destruct (temp_name_ok pid (seg_range seg) id Hs) as [H3 H4].
  cbn [replacement_ok]. rewrite Hf, Ht. split; [done|]. intros r' [= <-]. by rewrite Hf, Ht.
Qed.

(** ** Opening after the recovery of an intent *)

Lemma open_recovered pid d d1 d2 s :
  recover_truncate_intent d = (Ok (), d1) → recover_compact_intent pid d1 = (Ok (), d2) →
  store_inv s → fs_disk s = d2 →
  open_with_configuration pid d (fs_cluster_id s) (fs_epoch s) (fs_initial_configuration s) = (Ok s, fs_disk s).
Proof.
  intros Ht Hc Hinv Hd. rewrite <-(reopen_inv pid s Hinv). unfold open_with_configuration.
  assert (∀ x : Disk, of_result (reject_if (blen (fs_cluster_id s) =? 0)%N (Decode "cluster_id must not be empty")) x = (Ok (), x)) as Hne.
  { intros x. unfold of_result. pose proof (si_cluster s Hinv) as Hcl. destruct (N.eqb_spec (blen (fs_cluster_id s)) 0) as [Hz|]; [|done].
    destruct (fs_cluster_id s); [done|rewrite blen_cons in Hz; lia]. }
  rewrite (bind_Ok_run _ _ d d () (Hne d)), (bind_Ok_run _ _ d d1 () Ht), (bind_Ok_run _ _ d1 d2 () Hc).
  rewrite (bind_Ok_run _ _ (fs_disk s) (fs_disk s) () (Hne _)), (bind_Ok_run _ _ (fs_disk s) (fs_disk s) () (no_truncate_intent _ (si_truncate s Hinv))).
  rewrite (bind_Ok_run _ _ (fs_disk s) (fs_disk s) () (no_compact_intent pid _ (si_compact s Hinv))). by rewrite Hd.
Qed.

(** ** Plans *)

(** [old] gives way to [new] in a log that starts at [i] after [h] and then starts at
    [i'] after [h']. *)
Record swap_plan (c : bytes) (epoch i : N) (h : LogHash) (i' : N) (h' : LogHash)
    (pre old post new : list ClosedSegment) : Prop := {
  sp_wf : Forall seg_wf (pre ++ old ++ post);
  sp_log : log_from c epoch i h (flat (pre ++ old ++ post)) = true;
  sp_old : old ≠ [];
  sp_wf' : Forall seg_wf (pre ++ new ++ post);
  sp_log' : log_from c epoch i' h' (flat (pre ++ new ++ post)) = true;
  sp_fresh : ∀ seg, seg ∈ new → segment_name seg ∉ seg_names old
}.

Section plan.
Context {c : bytes} {epoch i : N} {h : LogHash} {i' : N} {h' : LogHash} {pre old post new : list ClosedSegment}.
Context (Hplan : swap_plan c epoch i h i' h' pre old post new).

Lemma plan_ranges : ranges_ok (pre ++ old ++ post) ∧ ranges_ok (pre ++ new ++ post) ∧ ranges_ok old ∧ ranges_ok new.
Proof.
  destruct Hplan as [W L _ W' L' _]. pose proof (segs_ranges _ _ _ _ _ W L) as R. pose proof (segs_ranges _ _ _ _ _ W' L') as R'.
  split_and!; [exact R|exact R'| |]; rewrite !Forall_app in R, R'; unfold ranges_ok; naive_solver.
Qed.
Lemma plan_nodup : NoDup (seg_names (pre ++ old ++ post)) ∧ NoDup (seg_names (pre ++ new ++ post)) ∧ NoDup (seg_names old).
Proof.
  destruct Hplan as [W L _ W' L' _]. pose proof (segment_names_NoDup _ _ _ _ _ W L) as R. pose proof (segment_names_NoDup _ _ _ _ _ W' L') as R'.
  split_and!; [exact R|exact R'|]. unfold seg_names in *. rewrite !fmap_app, !NoDup_app in R. tauto.
Qed.
Lemma plan_names pid rep intent : intent_file intent → replaces pid new rep → redo_names (seg_names old) rep intent.
Proof. intros Hi Hr. destruct plan_ranges as (_ & _ & Ho & Hn). eapply swap_names; [done|done|done|done|]. apply Hplan. Qed.
Lemma plan_free (f : files) (a : option RecoveryAnchor) : sealed_dir f a (pre ++ old ++ post) → ∀ seg, seg ∈ new → f !! segment_name seg = None.
Proof.
  intros [_ [Hcl _] _ _ _] seg Hseg. destruct (f !! segment_name seg) eqn:E; [exfalso|done].
  destruct plan_ranges as (_ & _ & _ & Hn). destruct plan_nodup as (_ & Hnd & _).
  assert (segment_name seg ∈ seg_names new) as Hin by (by apply list_elem_of_fmap_2).
  specialize (Hcl (segment_name seg) (names_closed _ _ Hn Hin) ltac:(by eexists)). rewrite !fmap_app, !elem_of_app in Hcl.
  unfold seg_names in *. rewrite !fmap_app, !NoDup_app in Hnd. destruct Hnd as (_ & H2 & _ & H4 & _).
  destruct Hcl as [Hc|[Hc|Hc]].
  - apply (H2 _ Hc). set_solver.
  - by apply (sp_fresh _ _ _ _ _ _ _ _ _ _ Hplan seg Hseg).
  - by apply (H4 _ Hin).
Qed.
Lemma plan_applied (pid : N) (f0 f : files) (a : option RecoveryAnchor) (rep : option TruncateReplacement) (intent : bytes) :
  intent_file intent → sealed_dir f0 a (pre ++ old ++ post) → replaces pid new rep →
  applied f0 (seg_names old) rep (new_bytes new) intent f → sealed_dir f a (pre ++ new ++ post).
Proof.
  intros Hi Hd Hr Ha. destruct plan_ranges as (R & R' & _ & _). destruct plan_nodup as (N1 & N2 & _). by eapply applied_dir.
Qed.
Lemma plan_truncate_intent pid rep :
  replaces pid new rep → (N.of_nat (length old) ≤ u32_max)%N → truncate_intent_wf (mkTruncateIntent (seg_names old) rep).
Proof.
  intros Hr Hc. destruct plan_ranges as (_ & _ & Ho & Hn). destruct plan_nodup as (_ & _ & Hnd).
  destruct (replaces_names pid new rep Hn Hr) as [Hok Hval]. split; cbn [ti_old_segment_names ti_replacement]; [|by apply old_names_ok|done|].
  - unfold validate_truncate_intent. cbn [ti_old_segment_names ti_replacement].
    assert (eqb (length (seg_names old)) 0 = false) as ->.
    { apply eqb_false. unfold seg_names. rewrite length_fmap. pose proof (sp_old _ _ _ _ _ _ _ _ _ _ Hplan). by destruct old. }
    cbn [reject_if mbind result_bind]. rewrite old_names_valid; [|done|done|intros n Hx; by apply elem_of_nil in Hx]. cbn [mbind result_bind].
    destruct rep as [r|]; [|done]. destruct (Hval r eq_refl) as [-> ->]. cbn [mbind result_bind].
    destruct Hr as (seg & id & Hnew & Hf & _). rewrite bool_decide_false; [done|]. rewrite Hf. apply Hplan. rewrite Hnew. by left.
  - unfold seg_names. by rewrite length_fmap.
Qed.
End plan.
End swap.
