(* ===== verification/LogTruncate.v ===== *)
(** * LogTruncate: truncation of a suffix

    [truncate_suffix] of [FileLogStore] ([crates/rhiza-log/src/lib.rs]) removes the
    entries from an index on, refuses to go into the compacted prefix, and is atomic:
    a crash at any point leaves a directory that opens to the log before or after. *)

From S2P Require Import Prelude Bytes Text Core ConfigChange ConfigState LogSegment AnchorCodec LogStore LogNames LogScan LogInv LogSpec LogCrash LogIntents LogRedo LogSwap.
From Stdlib Require Strings.Byte.

Section truncate.
Context `{Sha256}.

(** ** Cutting a log at an index *)

Definition below (from : N) (es : list LogEntry) : list LogEntry := filter (λ e, (le_index e < from)%N) es.
Definition from_on (from : N) (es : list LogEntry) : list LogEntry := filter (λ e, (from ≤ le_index e)%N) es.

Lemma log_bounds c epoch i h es :
  log_from c epoch i h es = true → Forall (λ e, (i ≤ le_index e < next_index i es)%N) es.
Proof.
  intros Hl. apply Forall_lookup. intros k e Hk. destruct (log_from_lookup _ _ _ _ _ _ _ Hl Hk) as (-> & _).
  apply lookup_lt_Some in Hk. unfold next_index. lia.
Qed.
Lemma below_all from es : Forall (λ e, (le_index e < from)%N) es → below from es = es ∧ from_on from es = [].
Proof.
  unfold below, from_on. induction 1 as [|e es He _ [IH1 IH2]]; [done|]. rewrite !filter_cons, decide_True, decide_False by lia.
  by rewrite IH1, IH2.
Qed.
Lemma below_none from es : Forall (λ e, (from ≤ le_index e)%N) es → below from es = [] ∧ from_on from es = es.
Proof.
  unfold below, from_on. induction 1 as [|e es He _ [IH1 IH2]]; [done|]. rewrite !filter_cons, decide_False, decide_True by lia.
  by rewrite IH1, IH2.
Qed.
Lemma below_before c epoch i h from es :
  log_from c epoch i h es = true → (next_index i es ≤ from)%N → below from es = es ∧ from_on from es = [].
Proof. intros Hl Hn. apply below_all. eapply Forall_impl; [by eapply log_bounds|]. cbn. lia. Qed.
Lemma below_after c epoch i h from es :
  log_from c epoch i h es = true → (from ≤ i)%N → below from es = [] ∧ from_on from es = es.
Proof. intros Hl Hn. apply below_none. eapply Forall_impl; [by eapply log_bounds|]. cbn. lia. Qed.
Lemma below_app from es fs : below from (es ++ fs) = below from es ++ below from fs.
Proof. apply filter_app. Qed.
Lemma from_on_app from es fs : from_on from (es ++ fs) = from_on from es ++ from_on from fs.
Proof. apply filter_app. Qed.

(** A log is what is below an index and what is not. *)
Lemma cut_log c epoch i h from es :
  log_from c epoch i h es = true →
  es = below from es ++ from_on from es ∧ take_while (λ e, le_index e <? from)%N es = below from es.
Proof.
  revert i h. induction es as [|e es IH]; intros i h Hl; [done|]. pose proof Hl as (Hi & _ & _ & _ & _ & Hl')%log_from_cons.
  cbn [take_while]. destruct (N.ltb_spec (le_index e) from) as [Hlt|Hge].
  - destruct (IH _ _ Hl') as [IH1 IH2]. rewrite IH2. unfold below, from_on in *. rewrite !filter_cons, decide_True, decide_False by lia.
    cbn [app]. split; [by f_equal|done].
  - destruct (below_after _ _ _ _ from _ Hl) as [-> ->]; [lia|done].
Qed.

(** Parts of a segment. *)
Lemma part_wf es fs gs : seg_wf (mkClosed (es ++ fs ++ gs)) → Forall seg_wf (new_segments fs).
Proof.
  intros (Hne & [c Hc] & Hsz). destruct fs as [|x fs]; [constructor|]. constructor; [|done]. cbn [cs_entries] in *.
  split_and!; [done| |].
  - exists c. rewrite !Forall_app in Hc. naive_solver.
  - cbn [cs_entries]. destruct (es ++ (x :: fs) ++ gs) as [|y ys] eqn:E; [done|]. rewrite blen_encode_segment in Hsz |- *.
    rewrite <-E, !frames_app, !blen_app in Hsz. lia.
Qed.
Lemma flat_new fs : flat (new_segments fs) = fs.
Proof. destruct fs; [done|]. apply flat_one. Qed.

Lemma flat_before c epoch i h from segs :
  Forall seg_wf segs → log_from c epoch i h (flat segs) = true → Forall (λ x, (cs_end x < from)%N) segs →
  below from (flat segs) = flat segs.
Proof.
  intros Hwf. revert i h. induction Hwf as [|seg segs (Hne & _) _ IH]; intros i h Hl Hb; [done|].
  rewrite flat_cons, log_from_app, andb_true_iff in Hl. destruct Hl as [Hl1 Hl2]. apply Forall_cons in Hb as [Hs Hb].
  destruct (seg_bounds _ _ _ _ _ Hne Hl1) as (_ & He & _). rewrite flat_cons, below_app.
  destruct (below_before _ _ _ _ from _ Hl1) as [-> _]; [lia|]. by rewrite (IH _ _ Hl2).
Qed.
Lemma below_end from es : below from es ≠ [] → (cs_end (mkClosed (below from es)) < from)%N.
Proof.
  intros Hne. unfold cs_end. cbn [cs_entries]. destruct (last (below from es)) as [e|] eqn:El; [|by apply last_None in El].
  apply last_Some in El as [l' El]. assert (e ∈ below from es) as Hin by (rewrite El; set_solver).
  unfold below in Hin. apply list_elem_of_filter in Hin as [Hin _]. exact Hin.
Qed.

(** ** The segments after a truncation *)

(** The segment that the cut goes through, and what is before and after it. *)
Lemma truncate_position segs from position seg :
  list_find (λ seg, (from <=? cs_end seg)%N = true) segs = Some (position, seg) →
  ∃ pre post, take position segs = pre ∧ drop position segs = seg :: post ∧ segs = pre ++ seg :: post
    ∧ Forall (λ x, (cs_end x < from)%N) pre ∧ (from ≤ cs_end seg)%N.
Proof.
  intros (Hpos & Hend & Hbefore)%list_find_Some. apply N.leb_le in Hend.
  exists (take position segs), (drop (S position) segs).
  assert (drop position segs = seg :: drop (S position) segs) as Hdrop by (by apply drop_S).
  split_and!; [done|done|by rewrite <-Hdrop, take_drop| |done].
  apply Forall_lookup. intros j x Hj. apply lookup_take_Some in Hj as [Hj Hjp]. specialize (Hbefore j x Hj Hjp).
  by apply not_true_is_false, N.leb_gt in Hbefore.
Qed.

Lemma truncate_plan c epoch i h pre seg post from :
  Forall seg_wf (pre ++ seg :: post) → log_from c epoch i h (flat (pre ++ seg :: post)) = true →
  Forall (λ x, (cs_end x < from)%N) pre → (from ≤ cs_end seg)%N →
  let new := new_segments (below from (cs_entries seg)) in
  swap_plan c epoch i h i h pre (seg :: post) [] new
  ∧ flat (pre ++ new) = below from (flat (pre ++ seg :: post))
  ∧ (if (cs_start seg <? from)%N then take_while (λ e, le_index e <? from)%N (cs_entries seg) else [])
    = below from (cs_entries seg).
Proof.
  intros Hwf Hl Hpre Hend new. pose proof Hl as Hl'. rewrite flat_app, flat_cons, !log_from_app, !andb_true_iff in Hl. destruct Hl as (Hl1 & Hl2 & Hl3).
  pose proof Hwf as Hwf'. apply Forall_app in Hwf' as [Hw1 Hw2]. apply Forall_cons in Hw2 as [Hws Hw3].
  pose proof Hws as (Hne & _). destruct (seg_bounds _ _ _ _ _ Hne Hl2) as (Hs & He & Hse & _).
  destruct (cut_log _ _ _ _ from _ Hl2) as [Hcut Htw].
  assert (log_from c epoch (next_index i (flat pre)) (tip_hash h (flat pre)) (below from (cs_entries seg)) = true) as Hlb.
  { rewrite Hcut, log_from_app, andb_true_iff in Hl2. tauto. }
  assert (flat new = below from (cs_entries seg)) as Hfn by apply flat_new.
  split_and!.
  - split; rewrite ?app_nil_r; [done|done|done| | |].
    + apply Forall_app. split; [done|]. destruct seg as [ents]. apply (part_wf [] _ (from_on from ents)). cbn [app cs_entries] in *. by rewrite <-Hcut.
    + rewrite flat_app, Hfn, log_from_app, andb_true_iff. done.
    + intros x Hx (y & Heq & Hy)%list_elem_of_fmap. unfold new in Hx.
      destruct (decide (below from (cs_entries seg) = [])) as [Hnil|Hnil]; [rewrite Hnil in Hx; by apply elem_of_nil in Hx|].
      assert (x = mkClosed (below from (cs_entries seg))) as Hxe.
      { destruct (below from (cs_entries seg)); [done|]. by apply list_elem_of_singleton in Hx. }
      destruct (seg_bounds _ _ _ _ (mkClosed (below from (cs_entries seg))) Hnil Hlb) as (_ & _ & Hxr & _). rewrite <-Hxe in Hxr.
      assert (from ≤ cs_end y ∧ range_ok (seg_range y))%N as [Hye Hyr].
      { apply elem_of_cons in Hy as [->|Hy]; [done|]. pose proof (segs_from _ _ _ _ _ Hw3 Hl3) as Hf. rewrite Forall_forall in Hf.
        destruct (Hf y Hy) as [Hge [Hr1 Hr2]]. cbn in Hr1. split; [lia|done]. }
      apply (segment_file_name_inj (seg_range x) (seg_range y)) in Heq; [|done|done]. injection Heq as _ Hee.
      pose proof (below_end from _ Hnil) as Hlt. rewrite <-Hxe in Hlt. lia.
  - rewrite !flat_app, flat_cons, !below_app, Hfn. rewrite (flat_before _ _ _ _ _ _ Hw1 Hl1 Hpre).
    destruct (below_after _ _ _ _ from _ Hl3) as [-> _]; [lia|]. by rewrite app_nil_r.
  - destruct (N.ltb_spec (cs_start seg) from) as [|Hge]; [done|]. symmetry. apply (below_after _ _ _ _ from _ Hl2). lia.
Qed.

(** ** Running the intent *)

(** The store after the segments were replaced. *)
Definition swapped (s : FileLogStoreInner) (d : Disk) (cfg : ConfigurationState) (a : option RecoveryAnchor)
    (segs : list ClosedSegment) : FileLogStoreInner :=
  mkStore d (fs_cluster_id s) (fs_epoch s) (fs_initial_configuration s) cfg a segs None.

Lemma swapped_abs s d cfg a segs :
  abs (swapped s d cfg a segs) = mkLog (fs_cluster_id s) (fs_epoch s) (fs_initial_configuration s) a (flat segs) cfg.
Proof. unfold abs. by rewrite all_entries_eq, app_nil_r. Qed.

Lemma apply_truncate_ok (f0 : files) (t : TruncateIntent) (c l : bytes) (d : Disk) :
  validate_truncate_intent t = Ok () → redo_names (ti_old_segment_names t) (ti_replacement t) TRUNCATE_INTENT_FILE_NAME →
  pending f0 (ti_old_segment_names t) (ti_replacement t) c TRUNCATE_INTENT_FILE_NAME l (dk_files d) →
  ∃ d', apply_truncate_intent t d = (Ok (), d')
    ∧ applied f0 (ti_old_segment_names t) (ti_replacement t) c TRUNCATE_INTENT_FILE_NAME (dk_files d')
    ∧ temps (dk_files d') ⊆ temps (dk_files d) ∧ dk_next_temp d' = dk_next_temp d
    ∧ disk_passed d d' (pending f0 (ti_old_segment_names t) (ti_replacement t) c TRUNCATE_INTENT_FILE_NAME l).
Proof.
  intros Hv Hn Hp. destruct (redo_ok f0 _ _ c _ l "truncate" d Hn Hp) as (d' & Hr & Hrest). exists d'. split; [|done].
  unfold apply_truncate_intent. rewrite (bind_Ok_run _ _ d d ()) by (unfold of_result; by rewrite Hv). exact Hr.
Qed.

Section run.
Context (pid : N) (s : FileLogStoreInner) (from : N) (cfg : ConfigurationState).
Context (Hinv : store_inv s) (Hopen : fs_open_segment s = None).
Context (Hcfg : config_run (base_configuration (fs_initial_configuration s) (fs_anchor s)) (below from (all_entries s)) = Ok cfg).

Lemma sealed_entries : all_entries s = flat (fs_segments s).
Proof. rewrite all_entries_eq. unfold open_entries. by rewrite Hopen, app_nil_r. Qed.

Lemma truncate_swapped_inv i h pre old new (d : Disk) :
  after_anchor (fs_anchor s) = Ok (i, h) → swap_plan (fs_cluster_id s) (fs_epoch s) i h i h pre old [] new →
  flat (pre ++ new) = below from (all_entries s) → sealed_dir (dk_files d) (fs_anchor s) (pre ++ new) → room d 2 →
  store_inv (swapped s d cfg (fs_anchor s) (pre ++ new)).
Proof.
  intros Hb Hplan Hflat Hdir Hroom. destruct Hplan as [_ _ _ W' L' _]. rewrite app_nil_r in W', L'.
  eapply sealed_store; [by apply si_cluster|by apply si_epoch|done|by apply si_identity|exact Hb|done|done|by rewrite Hflat|done].
Qed.

(** A directory with the intent opens to the truncated log. *)
Lemma truncate_pending_recovers i h pre old new rep (l : bytes) (f : files) :
  after_anchor (fs_anchor s) = Ok (i, h) → swap_plan (fs_cluster_id s) (fs_epoch s) i h i h pre old [] new →
  fs_segments s = pre ++ old → flat (pre ++ new) = below from (all_entries s) → replaces pid new rep →
  (N.of_nat (length old) ≤ u32_max)%N → decode_truncate_intent l = Ok (mkTruncateIntent (seg_names old) rep) →
  pending (dk_files (fs_disk s)) (seg_names old) rep (new_bytes new) TRUNCATE_INTENT_FILE_NAME l f →
  recovers (mkLog (fs_cluster_id s) (fs_epoch s) (fs_initial_configuration s) (fs_anchor s) (below from (all_entries s)) cfg) f.
Proof.
  intros Hb Hplan Hsegs Hflat Hrep Hcount Hdec Hpend pid' past next Hroom. set (d := mkDisk f past next) in *.
  pose proof (plan_truncate_intent Hplan pid rep Hrep Hcount) as [Hval _ _ _].
  destruct (apply_truncate_ok (dk_files (fs_disk s)) (mkTruncateIntent (seg_names old) rep) (new_bytes new) l d Hval) as (d' & Hrun & Happ & Htmp & Hnext & _).
  { eapply (plan_names Hplan); [by left|exact Hrep]. }
  { exact Hpend. }
  assert (sealed_dir (dk_files d') (fs_anchor s) (pre ++ new)) as Hdir.
  { rewrite <-(app_nil_r new). eapply (plan_applied Hplan pid _ _ _ rep TRUNCATE_INTENT_FILE_NAME); [by left| |done|exact Happ].
    rewrite app_nil_r, <-Hsegs. by apply inv_sealed_dir. }
  assert (room d' 2) as Hroom' by (eapply room_mono; [exact Hroom|done|rewrite Hnext; apply Hroom]).
  pose proof (truncate_swapped_inv i h pre old new d' Hb Hplan Hflat Hdir Hroom') as Hi'.
  exists (swapped s d' cfg (fs_anchor s) (pre ++ new)). split_and!; [|done|].
  - eapply (open_recovered pid' d d' d' (swapped s d' cfg (fs_anchor s) (pre ++ new))); [| |done|done].
    + unfold recover_truncate_intent. pose proof (pd_intent _ _ _ _ _ _ _ Hpend) as Hfile.
      rewrite (bind_Ok_run _ _ d d true (exists_true _ d _ Hfile)), (bind_Ok_run _ _ d d _ (read_run _ d _ Hfile)).
      rewrite (bind_Ok_run _ _ d d (mkTruncateIntent (seg_names old) rep)) by (unfold of_result; by rewrite Hdec). exact Hrun.
    + apply no_compact_intent. exact (sd_compact _ _ _ Hdir).
  - by rewrite swapped_abs, Hflat.
Qed.

Lemma truncate_hook_ok :
  (N.of_nat (length (fs_segments s)) ≤ u32_max)%N →
  ∃ d' segs, truncate_suffix_with_hook pid (fs_segments s) from (fs_disk s) = (Ok (), d')
    ∧ flat segs = below from (all_entries s) ∧ store_inv (swapped s d' cfg (fs_anchor s) segs)
    ∧ disk_passed (fs_disk s) d' (λ f, visible_eq (dk_files (fs_disk s)) f
        ∨ recovers (abs (swapped s d' cfg (fs_anchor s) segs)) f).
Proof.
  intros Hcount. destruct (si_log s Hinv) as (i & h & Hlog). pose proof (inv_log_closed s i h Hlog) as Hl. destruct Hlog as [Hb _ _ _].
  pose proof (si_segs s Hinv) as Hwf. pose proof (inv_sealed_dir s Hinv Hopen) as Hdir0. unfold truncate_suffix_with_hook.
  destruct (list_find _ (fs_segments s)) as [[position seg]|] eqn:Hfind.
  2:{ apply list_find_None in Hfind. assert (below from (flat (fs_segments s)) = flat (fs_segments s)) as Hall.
      { eapply flat_before; [done|exact Hl|]. eapply Forall_impl; [exact Hfind|]. cbn. intros x Hx. by apply not_true_is_false, N.leb_gt in Hx. }
      rewrite sealed_entries in *. exists (fs_disk s), (fs_segments s). split_and!; [done|done| |apply disk_passed_refl].
      rewrite Hall in Hcfg. eapply sealed_store; [by apply si_cluster|by apply si_epoch|done|by apply si_identity|exact Hb|done|exact Hl|done|by apply si_room]. }
  destruct (truncate_position _ _ _ _ Hfind) as (pre & post & Hpre & Hpost & Hsegs & Hbefore & Hend). rewrite Hpost.
  rewrite Hsegs in Hwf, Hl, Hcount. destruct (truncate_plan _ _ _ _ _ _ _ from Hwf Hl Hbefore Hend) as (Hplan & Hflat & ->).
  rewrite <-Hsegs, <-sealed_entries in Hflat. set (es := below from (cs_entries seg)) in *. set (new := new_segments es) in *.
  destruct (plan_ranges Hplan) as (_ & _ & Hro & Hrn).
  assert (N.of_nat (length (seg :: post)) ≤ u32_max)%N as Hcount' by (rewrite length_app in Hcount; lia).
  destruct (prepare_ok pid es (fs_disk s) 1 Hrn (si_room s Hinv)) as (rep & d1 & H1 & Hrep & Hroom1 & Hf1 & Hfree1 & Hv1 & Hp1).
  rewrite (bind_Ok_run _ _ (fs_disk s) d1 rep H1). change (segment_name <$> seg :: post) with (seg_names (seg :: post)).
  pose proof (plan_truncate_intent Hplan pid rep Hrep Hcount') as Hwfi.
  destruct (truncate_intent_reads _ Hwfi) as (l & Henc & Hdec). set (t := mkTruncateIntent (seg_names (seg :: post)) rep) in *.
  destruct (publish_ok pid TRUNCATE_INTENT_FILE_NAME "truncate intent already exists" l d1 1) as (d2 & H2 & Hf2 & Hroom2 & Hp2);
    [done|rewrite Hv1 by done; exact (sd_truncate _ _ _ Hdir0)|done|].
  rewrite (bind_Ok_run _ _ d1 d2 ()) by (unfold publish_truncate_intent; rewrite Henc; exact H2).
  assert (pending (dk_files (fs_disk s)) (seg_names (seg :: post)) rep (new_bytes new) TRUNCATE_INTENT_FILE_NAME l (dk_files d2)) as Hpend.
  { rewrite Hf2, Hf1. eapply published_pending; [by left|done|done|done| |done]. eapply (plan_free Hplan). rewrite app_nil_r, <-Hsegs. exact Hdir0. }
  destruct (apply_truncate_ok (dk_files (fs_disk s)) t (new_bytes new) l d2 (tw_valid _ Hwfi)) as (d3 & H3 & Happ & Htmp & Hnext & Hp3).
  { eapply (plan_names Hplan); [by left|exact Hrep]. }
  { exact Hpend. }
  assert (sealed_dir (dk_files d3) (fs_anchor s) (pre ++ new)) as Hdir.
  { rewrite <-(app_nil_r new). eapply (plan_applied Hplan pid _ _ _ rep TRUNCATE_INTENT_FILE_NAME); [by left| |done|exact Happ].
    rewrite app_nil_r, <-Hsegs. exact Hdir0. }
  assert (room d3 2) as Hroom3.
  { apply (room_mono (fs_disk s)); [by apply si_room| |rewrite Hnext; apply Hroom2]. eapply swap_temps; [exact Happ| |exact Hf2|exact Hf1|done]. exact Htmp. }
  exists d3, (pre ++ new). split_and!; [exact H3|exact Hflat|by eapply truncate_swapped_inv|].
  eapply disk_passed_trans; [eapply disk_passed_impl; [exact Hp1|]; by left|].
  eapply disk_passed_trans; [eapply disk_passed_impl; [exact Hp2|]|eapply disk_passed_impl; [exact Hp3|]]; intros f Hf.
  - left. intros n Hn. rewrite (Hf n Hn). by apply Hv1.
  - right. rewrite swapped_abs, Hflat.
    eapply truncate_pending_recovers; [exact Hb|exact Hplan|exact Hsegs|exact Hflat|exact Hrep|done|exact Hdec|exact Hf].
Qed.
End run.

Lemma rescan_ok t cfg segs :
  fs_open_segment t = None → store_inv (swapped t (fs_disk t) cfg (fs_anchor t) segs) →
  rescan t = (Ok (), swapped t (fs_disk t) cfg (fs_anchor t) segs).
Proof.
  intros Ho Hinv. destruct (si_log _ Hinv) as (i & h & Hlog). pose proof (inv_log_closed _ i h Hlog) as Hl. destruct Hlog as [Hb _ _ _].
  pose proof (si_config _ Hinv) as Hc. rewrite all_entries_eq, app_nil_r in Hc.
  unfold rescan. rewrite get_run, (bind_Ok_run _ _ t t (segs, cfg)).
  2:{ unfold of_result. f_equal. eapply (scan_closed_ok (fs_cluster_id t) (fs_epoch t) _ (fs_anchor t) _ segs cfg i h);
        [exact (si_cluster _ Hinv)|exact Hb|exact (si_segs _ Hinv)|exact Hl|exact (si_closed _ Hinv)|exact Hc]. }
  cbn beta iota. rewrite modify_run. unfold modify, swapped, set_log, set_configuration. cbn. by rewrite Ho.
Qed.

(** The directories of a state that recover to one of two logs. *)
Lemma sealing_recovers s f : store_inv s → sealing s f → recovers (abs s) f.
Proof. intros Hinv [Hv|(o & Ho & Hes & ->)]; [by apply recovers_visible|by apply recovers_sealed]. Qed.

(** ** The contract of truncation *)

(** The entries below [from], with the configuration state after them. *)
Definition log_truncate (l : Log) (from : N) : option Log :=
  if match lg_anchor l with Some a => (from <=? la_index (ra_compacted a))%N | None => false end then None
  else match config_run (base_configuration (lg_initial l) (lg_anchor l)) (below from (lg_entries l)) with
       | Ok cfg => Some (mkLog (lg_cluster_id l) (lg_epoch l) (lg_initial l) (lg_anchor l) (below from (lg_entries l)) cfg)
       | Err _ => None
       end.

Lemma below_config s from :
  store_inv s → ∃ cfg, config_run (base_configuration (fs_initial_configuration s) (fs_anchor s)) (below from (all_entries s)) = Ok cfg.
Proof.
  intros Hinv. destruct (si_log s Hinv) as (i & h & [_ Hl _ _]). pose proof (si_config s Hinv) as Hc.
  destruct (cut_log _ _ _ _ from _ Hl) as [Hcut _]. rewrite Hcut, config_run_app, bind_Ok_inv in Hc. destruct Hc as (cfg & Hc & _). by exists cfg.
Qed.

Lemma truncate_suffix_spec pid s from :
  store_inv s → (N.of_nat (length (fs_segments s)) < u32_max)%N →
  match log_truncate (abs s) from with
  | Some l => ∃ s', truncate_suffix pid from s = (Ok (), s') ∧ store_inv s' ∧ abs s' = l
      ∧ passed s s' (λ f, recovers (abs s) f ∨ recovers l f)
  | None => ∃ a, fs_anchor s = Some a ∧ (from ≤ la_index (ra_compacted a))%N
      ∧ truncate_suffix pid from s = (Err (TruncateCompactedPrefix from (la_index (ra_compacted a))), s)
  end.
Proof.
  intros Hinv Hcount. destruct (below_config s from Hinv) as [cfg Hcfg]. unfold log_truncate. cbn [abs lg_anchor lg_initial lg_entries lg_cluster_id lg_epoch].
  rewrite Hcfg. destruct (match fs_anchor s with Some a => (from <=? la_index (ra_compacted a))%N | None => false end) eqn:Hg.
  { destruct (fs_anchor s) as [a|] eqn:Ha; [|done]. exists a. split_and!; [done|by apply N.leb_le|].
    unfold truncate_suffix. rewrite get_run, Ha, bind_run. unfold of_result. by rewrite Hg. }
  destruct (seal_ok pid s Hinv) as (s1 & Hs1 & Hi1 & Hsame & Hn1 & Hp1 & Hlen). pose proof Hsame as [Hc He Hini Hanc _ Hent].
  destruct (truncate_hook_ok pid s1 from cfg Hi1 Hn1) as (d & segs & Hhook & Hflat & Hi' & Hp'); [by rewrite Hini, Hanc, Hent|lia|].
  exists (swapped s1 d cfg (fs_anchor s1) segs). split_and!; [|done| |].
  - unfold truncate_suffix. rewrite get_run, (bind_Ok_run _ _ s s ()).
    2:{ unfold of_result. destruct (fs_anchor s); [|done]. by rewrite Hg. }
    rewrite (bind_Ok_run _ _ s s1 () Hs1), get_run, (bind_Ok_run _ _ s1 (set_disk d s1) ()) by (by apply on_disk_run).
    by rewrite (rescan_ok (set_disk d s1) cfg segs).
  - by rewrite swapped_abs, Hflat, Hc, He, Hini, Hanc, Hent.
  - eapply (passed_trans s s1).
    + eapply passed_impl; [exact Hp1|]. intros f Hf. left. by apply sealing_recovers.
    + eapply (passed_impl s1 (swapped s1 d cfg (fs_anchor s1) segs)); [exact Hp'|]. intros f [Hv|Hf]; [left|right].
      * rewrite <-(abs_same _ _ Hsame). by apply recovers_visible.
      * by rewrite swapped_abs, Hflat, Hc, He, Hini, Hanc, Hent in Hf.
Qed.

(** Truncation keeps exactly the entries below the index, with the configuration
    state after them, in memory and on disk; an index in the compacted prefix is
    refused and nothing changes. *)
Theorem truncate_suffix_refines (pid : N) (s : FileLogStoreInner) (from : N) :
  store_inv s → (N.of_nat (length (fs_segments s)) < u32_max)%N →
  match log_truncate (abs s) from with
  | Some l => ∃ s', truncate_suffix pid from s = (Ok (), s') ∧ store_inv s' ∧ abs s' = l
  | None => ∃ a, fs_anchor s = Some a ∧ (from ≤ la_index (ra_compacted a))%N
      ∧ truncate_suffix pid from s = (Err (TruncateCompactedPrefix from (la_index (ra_compacted a))), s)
  end.
Proof.
  intros Hinv Hc. pose proof (truncate_suffix_spec pid s from Hinv Hc) as Hs. destruct (log_truncate (abs s) from); [|done].
  destruct Hs as (s' & ? & ? & ? & _). by exists s'.
Qed.

(** C23. Truncation is atomic with respect to crashes: every directory that it passes
    through opens to the log before or to the truncated log, whatever part of the
    sealing, of the replacement, of the intent or of its application was done. *)
Theorem truncate_crash_atomic (pid : N) (s s' : FileLogStoreInner) (from : N) (f : files) :
  store_inv s → (N.of_nat (length (fs_segments s)) < u32_max)%N → truncate_suffix pid from s = (Ok (), s') →
  f ∈ drop (length (dk_past (fs_disk s))) (dk_past (fs_disk s')) →
  ∃ l, log_truncate (abs s) from = Some l ∧ recovers l (dk_files (fs_disk s'))
    ∧ (recovers (abs s) f ∨ recovers l f).
Proof.
  intros Hinv Hc Hrun Hf. pose proof (truncate_suffix_spec pid s from Hinv Hc) as Hs. destruct (log_truncate (abs s) from) as [l|].
  2:{ destruct Hs as (a & _ & _ & Hs). congruence. }
  destruct Hs as (s2 & Hs & Hi2 & Hl2 & past & Hpast & Hway). rewrite Hs in Hrun. apply pair_eq in Hrun as [_ <-].
  exists l. split_and!; [done|rewrite <-Hl2; by apply recovers_visible|].
  rewrite Hpast, drop_app_length in Hf. rewrite Forall_forall in Hway. by apply Hway.
Qed.
End truncate.
