(* ===== verification/LogCompact.v ===== *)
(** * LogCompact: compaction of a prefix

    [compact_prefix] of [FileLogStore] ([crates/rhiza-log/src/lib.rs]) replaces the
    entries up to a verified snapshot by a recovery anchor.  It checks the anchor
    against the log, keeps exactly the entries after it, and is atomic: a crash at any
    point leaves a directory that opens to the log before or after. *)

From S2P Require Import Prelude Bytes Text Core ConfigChange ConfigState LogSegment AnchorCodec LogStore LogNames LogScan LogInv LogSpec LogCrash LogIntents LogRedo LogSwap LogTruncate.
From Stdlib Require Strings.Byte.

Section compact.
Context `{Sha256}.

(** ** What the validation of an anchor establishes *)

Lemma config_loop_run c epoch i h st found target es st' found' :
  log_from c epoch i h es = true → configuration_at_loop st found target es = Ok (st', found') →
  config_run st (below (target + 1) es) = Ok st'.
Proof.
  revert i h st found. induction es as [|e es IH]; intros i h st found Hl Hrun; cbn [configuration_at_loop] in Hrun.
  { by apply Ok_inj, pair_eq in Hrun as [-> _]. }
  pose proof Hl as (Hi & _ & _ & _ & _ & Hl')%log_from_cons. destruct (N.ltb_spec target (le_index e)).
  - destruct (below_after _ _ _ _ (target + 1) _ Hl) as [-> _]; [lia|]. by apply Ok_inj, pair_eq in Hrun as [-> _].
  - apply bind_Ok_inv in Hrun as (st1 & H1 & Hrun). apply (IH _ _ st1 _ Hl') in Hrun.
    unfold below. rewrite filter_cons, decide_True by lia. change (e :: filter ?P es) with ([e] ++ below (target + 1) es).
    rewrite config_run_app. apply map_err_Ok in H1. by rewrite H1.
Qed.

(** The anchor fits the log: it stands for the entries up to its index. *)
Record compactable (s : FileLogStoreInner) (anchor : RecoveryAnchor) : Prop := {
  cp_valid : validate_anchor anchor = Ok ();
  cp_identity : validate_anchor_identity (Some anchor) (fs_cluster_id s) (fs_epoch s) = Ok ();
  cp_entry : ∃ e, find (λ e, eqb (le_index e) (la_index (ra_compacted anchor))) (all_entries s) = Some e
               ∧ le_hash e = la_hash (ra_compacted anchor);
  cp_config : config_run (base_configuration (fs_initial_configuration s) (fs_anchor s))
                (below (la_index (ra_compacted anchor) + 1) (all_entries s)) = Ok (ra_configuration_state anchor);
  cp_previous : ∀ current, fs_anchor s = Some current →
    (la_index (ra_compacted current) < la_index (ra_compacted anchor))%N
    ∧ ra_recovery_generation anchor = ra_recovery_generation current
}.

Lemma config_at_run s target st :
  store_inv s → configuration_state_at s target = Ok st →
  target ≠ match fs_anchor s with Some a => la_index (ra_compacted a) | None => 0%N end →
  config_run (base_configuration (fs_initial_configuration s) (fs_anchor s)) (below (target + 1) (all_entries s)) = Ok st.
Proof.
  intros Hinv Hat Hne. destruct (si_log s Hinv) as (i & h & [_ Hl _ _]). unfold configuration_state_at in Hat. unfold base_configuration.
  destruct (fs_anchor s) as [a|]; rewrite (proj2 (eqb_false _ _)) in Hat by done;
    apply bind_Ok_inv in Hat as ([st1 found] & Hrun & Hf); destruct found; try done; apply Ok_inj in Hf as <-; by eapply config_loop_run.
Qed.

Lemma validate_compactable s anchor : store_inv s → validate_compaction s anchor = Ok true → compactable s anchor.
Proof.
  intros Hinv Hv. unfold validate_compaction in Hv.
  apply bind_Ok_inv in Hv as ([] & H1 & Hv). apply bind_Ok_inv in Hv as ([] & H2 & Hv). apply bind_Ok_inv in Hv as ([] & _ & Hv).
  apply bind_Ok_inv in Hv as (st & H4 & Hv). apply bind_Ok_inv in Hv as ([] & H5 & Hv). apply reject_if_Ok in H5. apply (proj1 (neqb_false _ _)) in H5.
  assert (∀ (m : result Error bool), m = (entry ← ok_or (find (λ entry, eqb (le_index entry) (la_index (ra_compacted anchor))) (all_entries s))
      (CompactionAboveTip (la_index (ra_compacted anchor)) (last_index s));
    _ ← reject_if (neqb (le_hash entry) (la_hash (ra_compacted anchor))) (CompactionHashMismatch (la_index (ra_compacted anchor))); Ok true) →
    m = Ok true → ∃ e, find (λ e, eqb (le_index e) (la_index (ra_compacted anchor))) (all_entries s) = Some e ∧ le_hash e = la_hash (ra_compacted anchor)) as Hent.
  { intros m -> Hm. apply bind_Ok_inv in Hm as (e & He & Hm). apply bind_Ok_inv in Hm as ([] & Hh & _). apply ok_or_Ok in He.
    apply reject_if_Ok, (proj1 (neqb_false _ _)) in Hh. by exists e. }
  assert (la_index (ra_compacted anchor) ≠ 0%N) as Hnz.
  { unfold validate_anchor in H1. apply bind_Ok_inv in H1 as ([] & _ & H1). apply bind_Ok_inv in H1 as ([] & H1 & _). apply reject_if_Ok in H1. bool_prop. tauto. }
  destruct (fs_anchor s) as [current|] eqn:Ha.
  - apply bind_Ok_inv in Hv as ([] & H6 & Hv). apply reject_if_Ok, N.ltb_ge in H6.
    destruct (eqb (la_index (ra_compacted anchor)) (la_index (ra_compacted current))) eqn:Hi; [by destruct (eqb current anchor)|].
    apply (proj1 (eqb_false _ _)) in Hi. apply bind_Ok_inv in Hv as ([] & H7 & Hv). apply reject_if_Ok, (proj1 (neqb_false _ _)) in H7.
    split; [done|done|by eapply Hent| |].
    + rewrite <-H5. apply config_at_run; [done|done|]. by rewrite Ha.
    + intros c' Hc'. rewrite Ha in Hc'. injection Hc' as <-. split; [lia|done].
  - split; [done|done|by eapply Hent| |by rewrite Ha].
    rewrite <-H5. apply config_at_run; [done|done|]. by rewrite Ha.
Qed.

Lemma last_index_same s s' : store_inv s → store_inv s' → same_log s s' → last_index s' = last_index s.
Proof.
  intros Hi Hi' Hs. assert (∀ t, store_inv t → last_index t = la_index <$> log_tip (abs t)) as Ht.
  { intros t Hit. rewrite <-(tip_ok t Hit). unfold last_index. destruct (last (open_entries t)); [done|].
    destruct (last (fs_segments t)); [done|]. by destruct (fs_anchor t). }
  by rewrite !Ht, (abs_same _ _ Hs).
Qed.
Lemma validate_same s s' anchor :
  store_inv s → store_inv s' → same_log s s' → validate_compaction s' anchor = validate_compaction s anchor.
Proof.
  intros Hi Hi' Hs. pose proof (last_index_same s s' Hi Hi' Hs) as Hl. destruct Hs as [Hc He Hini Ha _ Hent].
  unfold validate_compaction, configuration_state_at. by rewrite Hc, He, Hl, Hini, Ha, Hent.
Qed.

(** The entry of the anchor is the last one it stands for. *)
Lemma below_last c epoch i h es e target :
  log_from c epoch i h es = true → find (λ e, eqb (le_index e) target) es = Some e →
  next_index i (below (target + 1) es) = (target + 1)%N ∧ tip_hash h (below (target + 1) es) = le_hash e.
Proof.
  intros Hl Hf. destruct (cut_log _ _ _ _ (target + 1) _ Hl) as [Hcut _].
  assert (find (λ e, eqb (le_index e) target) (below (target + 1) es) = Some e) as Hfb.
  { rewrite Hcut, find_app in Hf. destruct (find _ (below (target + 1) es)); [done|]. apply find_some in Hf as [Hin Hix].
    apply (proj1 (eqb_true _ _)) in Hix. apply list_elem_of_In in Hin. unfold from_on in Hin. apply list_elem_of_filter in Hin as [Hge _]. lia. }
  assert (log_from c epoch i h (below (target + 1) es) = true) as Hlb by (rewrite Hcut, log_from_app, andb_true_iff in Hl; tauto).
  pose proof (log_bounds _ _ _ _ _ Hlb) as Hbd. set (bs := below (target + 1) es) in *.
  assert (Forall (λ e, (le_index e < target + 1)%N) bs) as Hlt.
  { apply Forall_forall. intros x Hx. unfold bs, below in Hx. by apply list_elem_of_filter in Hx as [? _]. }
  rewrite (find_index _ _ _ _ _ target Hlb) in Hfb. destruct (N.leb_spec i target) as [Hle|]; [|done].
  destruct (last bs) as [lst|] eqn:Elast; [|apply last_None in Elast; by rewrite Elast in Hfb].
  destruct (log_from_last _ _ _ _ _ _ Hlb Elast) as (Hn & Hh & _).
  assert (le_index lst < target + 1)%N as Hll.
  { rewrite Forall_forall in Hlt. apply Hlt. apply last_Some in Elast as [? ->]. set_solver. }
  assert (N.to_nat (target - i) < length bs) as Hlen by (by eapply lookup_lt_Some).
  assert (next_index i bs = target + 1)%N as Hnx by (unfold next_index in *; lia). split; [done|]. rewrite <-Hh.
  rewrite last_lookup in Elast. replace (pred (length bs)) with (N.to_nat (target - i)) in Elast by (unfold next_index in Hnx; lia). congruence.
Qed.

(** ** The segments after a compaction *)

Lemma take_while_split {A} (f : A → bool) l :
  ∃ post, l = take_while f l ++ post ∧ Forall (λ x, f x = true) (take_while f l)
    ∧ match post with [] => True | x :: _ => f x = false end.
Proof.
  induction l as [|x l (post & Hl & Hf & Hp)]; [by exists []|]. cbn [take_while]. destruct (f x) eqn:E.
  - exists post. split_and!; [cbn; by f_equal|by constructor|done].
  - by exists (x :: l).
Qed.

Definition compact_entries (old : list ClosedSegment) (target : N) : list LogEntry :=
  match last old with
  | Some segment =>
      if (target <? cs_end segment)%N
      then filter (λ entry, (target <? le_index entry)%N = true) (cs_entries segment) else []
  | None => []
  end.

Lemma compact_entries_eq c epoch i h old seg target :
  seg_wf seg → log_from c epoch i h (cs_entries seg) = true →
  compact_entries (old ++ [seg]) target = from_on (target + 1) (cs_entries seg).
Proof.
  intros (Hne & _) Hl. unfold compact_entries. rewrite last_snoc. destruct (seg_bounds _ _ _ _ _ Hne Hl) as (_ & He & _).
  destruct (N.ltb_spec target (cs_end seg)).
  - unfold from_on. apply list_filter_iff. intros e. rewrite N.ltb_lt. lia.
  - symmetry. apply (below_before _ _ _ _ (target + 1) _ Hl). lia.
Qed.

Lemma compact_plan c epoch i h segs e target :
  Forall seg_wf segs → log_from c epoch i h (flat segs) = true → find (λ e, eqb (le_index e) target) (flat segs) = Some e →
  let old := take_while (λ seg, cs_start seg <=? target)%N segs in
  let new := new_segments (compact_entries old target) in
  ∃ post, segs = old ++ post ∧ swap_plan c epoch i h (target + 1) (le_hash e) [] old post new
    ∧ flat (new ++ post) = from_on (target + 1) (flat segs).
Proof.
  intros Hwf Hl Hfind old. destruct (take_while_split (λ seg, cs_start seg <=? target)%N segs) as (post & Hsegs & Hold & Hpost). fold old in Hsegs, Hold.
  destruct (below_last _ _ _ _ _ _ _ Hl Hfind) as [Hnx Htip]. destruct (cut_log _ _ _ _ (target + 1) _ Hl) as [Hcut _].
  assert (log_from c epoch (target + 1) (le_hash e) (from_on (target + 1) (flat segs)) = true) as Hl'.
  { rewrite Hcut, log_from_app, andb_true_iff, Hnx, Htip in Hl. tauto. }
  assert (i ≤ target)%N as Hit.
  { rewrite (find_index _ _ _ _ _ _ Hl) in Hfind. by destruct (N.leb_spec i target). }
  destruct (last old) as [seg|] eqn:Elast.
  2:{ apply last_None in Elast. rewrite Elast in *. cbn [app] in Hsegs. destruct post as [|x post].
      - rewrite Hsegs in Hfind. done.
      - rewrite Hsegs in Hwf, Hl. apply Forall_cons in Hwf as [(Hne & _) _]. rewrite flat_cons, log_from_app, andb_true_iff in Hl. destruct Hl as [Hl _].
        destruct (seg_bounds _ _ _ _ _ Hne Hl) as (Hs & _). apply N.leb_gt in Hpost. lia. }
  apply last_Some in Elast as [old' Eold]. rewrite Eold in Hold. apply Forall_app in Hold as [Hold' Hs]. rewrite Forall_singleton in Hs. apply N.leb_le in Hs.
  pose proof Hwf as Hw. rewrite Hsegs, Eold, <-app_assoc in Hw. apply Forall_app in Hw as [Hw1 Hw2]. apply Forall_app in Hw2 as [Hw2 Hw3]. rewrite Forall_singleton in Hw2.
  pose proof Hl as Hll. rewrite Hsegs, Eold, !flat_app, flat_one, !log_from_app, !andb_true_iff in Hll. destruct Hll as [[Hl1 Hl2] Hl3].
  pose proof Hw2 as (Hne & _). destruct (seg_bounds _ _ _ _ _ Hne Hl2) as (Hst & Hen & _).
  assert (compact_entries old target = from_on (target + 1) (cs_entries seg)) as Hce by (rewrite Eold; by eapply compact_entries_eq).
  rewrite Hce. intros new. assert (flat new = from_on (target + 1) (cs_entries seg)) as Hfn by apply flat_new.
  assert (flat (new ++ post) = from_on (target + 1) (flat segs)) as Hflat.
  { rewrite flat_app, Hfn, Hsegs, Eold, !flat_app, flat_one, !from_on_app.
    destruct (below_before _ _ _ _ (target + 1) _ Hl1) as [_ ->]; [lia|]. f_equal. destruct post as [|x post]; [done|].
    symmetry. apply (below_after _ _ _ _ (target + 1) _ Hl3). apply Forall_cons in Hw3 as [(Hnx' & _) _].
    rewrite flat_cons, log_from_app, andb_true_iff in Hl3. destruct Hl3 as [Hl3 _]. destruct (seg_bounds _ _ _ _ _ Hnx' Hl3) as (Hsx & _).
    apply N.leb_gt in Hpost. lia. }
  exists post. split_and!; [done| |done]. split; cbn [app].
  - by rewrite <-Hsegs.
  - by rewrite <-Hsegs.
  - rewrite Eold. by destruct old'.
  - apply Forall_app. split; [|done]. destruct seg as [ents]. apply (part_wf (below (target + 1) ents) _ []). cbn [cs_entries] in *.
    rewrite app_nil_r. destruct (cut_log _ _ _ _ (target + 1) _ Hl2) as [<- _]. done.
  - by rewrite Hflat.
  - intros x Hx (y & Heq & Hy)%list_elem_of_fmap.
    assert (Forall (λ seg, (cs_start seg ≤ target)%N ∧ range_ok (seg_range seg)) old) as Hys.
    { apply Forall_forall. intros z Hz. split.
      - rewrite Eold in Hz. apply elem_of_app in Hz as [Hz|Hz]; [|by apply list_elem_of_singleton in Hz as ->].
        rewrite Forall_forall in Hold'. by apply N.leb_le, Hold'.
      - pose proof (segs_ranges _ _ _ _ _ Hwf Hl) as Hr. rewrite Forall_forall in Hr. apply Hr. rewrite Hsegs. set_solver. }
    rewrite Forall_forall in Hys. destruct (Hys y Hy) as [Hys1 Hys2].
    assert (x = mkClosed (from_on (target + 1) (cs_entries seg)) ∧ from_on (target + 1) (cs_entries seg) ≠ []) as [Hxe Hxn].
    { unfold new in Hx. destruct (from_on (target + 1) (cs_entries seg)); [by apply elem_of_nil in Hx|]. by apply list_elem_of_singleton in Hx. }
    rewrite <-Hflat, flat_app, Hfn, log_from_app, andb_true_iff in Hl'. destruct Hl' as [Hl' _].
    destruct (seg_bounds _ _ _ _ (mkClosed (from_on (target + 1) (cs_entries seg))) Hxn Hl') as (Hxs & _ & Hxr & _). rewrite <-Hxe in Hxs, Hxr.
    apply (segment_file_name_inj (seg_range x) (seg_range y)) in Heq; [|done|done]. injection Heq as Hss _. lia.
Qed.

(** ** The anchor file *)

Lemma anchor_temp_ne p q n m r :
  range_ok r → temp_name p ANCHOR_FILE_NAME n ≠ temp_name q (segment_file_name r) m.
Proof.
  intros [Hse He] Heq. unfold temp_name in Heq. apply app_inv_head in Heq.
  pose proof (digits_padded (ir_start r)) as Hd. pose proof (length_padded (ir_start r) ltac:(lia)) as Hl.
  unfold segment_file_name in Heq. destruct (decimal_padded 20 (ir_start r)) as [|b l]; [done|].
  cbn [forallb] in Hd. apply andb_true_iff in Hd as [Hb _]. change ANCHOR_FILE_NAME with (Byte.x72 :: lit "ecovery.anchor") in Heq.
  apply (f_equal head) in Heq. cbn [app head] in Heq. apply (inj Some) in Heq. by rewrite <-Heq in Hb.
Qed.

(** A new temporary file changes nothing of a pending intent. *)
Lemma pending_temp (f0 : files) names (rep : option TruncateReplacement) (c intent l t x : bytes) (f : files) :
  pending f0 names rep c intent l f → is_temp t = true → is_temp intent = false →
  (∀ r, rep = Some r → t ≠ tr_temp_name r ∧ is_temp (tr_final_name r) = false) →
  pending f0 names rep c intent l (<[t := x]> f).
Proof.
  intros [P1 P2 P3] Ht Hi Hr. split.
  - rewrite lookup_insert_ne; [done|]. congruence.
  - intros n Hu. rewrite lookup_insert_ne; [by apply P2|]. destruct Hu as [Hn _]. congruence.
  - intros r Hrep. destruct (Hr r Hrep) as [H1 H2]. rewrite !lookup_insert_ne by congruence. by apply P3.
Qed.

(** The directory with the new anchor. *)
Definition anchored (f0 : files) (bytes_ : bytes) : files := <[ANCHOR_FILE_NAME := bytes_]> f0.

Lemma anchored_dir (f0 : files) a a' segs l :
  ranges_ok segs → sealed_dir f0 a segs → decode_anchor l = Ok a' → sealed_dir (anchored f0 l) (Some a') segs.
Proof.
  intros Hr [_ Hcl Ho Ht Hc] Hd. unfold anchored. destruct other_anchor as [Hao Hac]. split.
  - exists l. by rewrite lookup_insert_eq.
  - eapply closed_on_disk_eq; [|exact Hr|exact Hcl]. intros n Hn. rewrite lookup_insert_ne; [done|]. intros <-. congruence.
  - intros n Hn. rewrite lookup_insert_ne; [by apply Ho|]. intros <-. congruence.
  - by rewrite lookup_insert_ne.
  - by rewrite lookup_insert_ne.
Qed.

Section install.
Context (f0 : files) (intent : CompactIntent) (pid : N) (c l enc : bytes) (new : list ClosedSegment).
Let names := ci_old_segment_names intent.
Let rep := ci_replacement intent.
Context (Hnames : redo_names names rep COMPACT_INTENT_FILE_NAME) (Hrep : replaces pid new rep) (Hnew : ranges_ok new).
Context (Hold : ∀ n, n ∈ names → is_closed_name n = true).
Context (Hprev : anchor_on_disk f0 (ci_previous_anchor intent)) (Hne : ci_previous_anchor intent ≠ Some (ci_anchor intent)).
Context (Henc : encode_anchor (ci_anchor intent) = Ok enc) (Hdec : decode_anchor enc = Ok (ci_anchor intent)).

Lemma anchor_untouched : untouched names rep COMPACT_INTENT_FILE_NAME ANCHOR_FILE_NAME.
Proof.
  destruct other_anchor as [_ Hac]. split_and!; [done|done| |].
  - intros Hin. specialize (Hold _ Hin). congruence.
  - intros r Hr Heq. pose proof (replaces_closed pid new rep r Hnew Hrep Hr). congruence.
Qed.

(** Between the publication and the removal of the intent, before or after the anchor. *)
Definition compacting (f : files) : Prop :=
  pending f0 names rep c COMPACT_INTENT_FILE_NAME l f ∨ pending (anchored f0 enc) names rep c COMPACT_INTENT_FILE_NAME l f.

Lemma pending_anchored f :
  pending f0 names rep c COMPACT_INTENT_FILE_NAME l f →
  pending (anchored f0 enc) names rep c COMPACT_INTENT_FILE_NAME l (anchored f enc).
Proof.
  intros [P1 P2 P3]. destruct Hnames as [_ _ Hrn]. pose proof anchor_untouched as (_ & _ & _ & Hfin). unfold anchored. split.
  - by rewrite lookup_insert_ne.
  - intros n Hu. destruct (decide (n = ANCHOR_FILE_NAME)) as [->|Hn]; [by rewrite !lookup_insert_eq|]. rewrite !lookup_insert_ne by done. by apply P2.
  - intros r Hr. destruct (Hrn r Hr) as (Ht & _). specialize (Hfin r Hr). rewrite !lookup_insert_ne; [by apply P3|done|]. intros Heq. by rewrite <-Heq in Ht.
Qed.

Lemma install_anchor_ok (qid : N) (d : Disk) (n : nat) :
  compacting (dk_files d) → room d n →
  ∃ d', install_anchor qid intent d = (Ok (), d')
    ∧ pending (anchored f0 enc) names rep c COMPACT_INTENT_FILE_NAME l (dk_files d')
    ∧ room d' n ∧ temps (dk_files d') = temps (dk_files d) ∧ disk_passed d d' compacting.
Proof.
  intros [Hp|Hp] Hroom; unfold install_anchor.
  - assert (anchor_on_disk (dk_files d) (ci_previous_anchor intent)) as Ha.
    { eapply anchor_on_disk_eq; [|exact Hprev]. apply (pd_others _ _ _ _ _ _ _ Hp), anchor_untouched. }
    rewrite (bind_Ok_run _ _ d d _ (read_anchor_ok d _ Ha)). rewrite (proj2 (eqb_false _ _) Hne), neqb_refl.
    destruct (install_file_run qid ANCHOR_FILE_NAME enc d n Hroom eq_refl) as (d' & id & Hi & Hd & Hr' & _ & past & Hpast & Hall).
    exists d'. split_and!; [|rewrite Hd; by apply pending_anchored|done|rewrite Hd; by apply temps_insert|].
    + rewrite Henc. exact Hi.
    + exists past. split; [done|]. eapply Forall_impl; [exact Hall|]. intros f [->|[x ->]]; left; [done|].
      apply pending_temp; [done|apply temp_ends|apply Hnames|]. intros r Hr. destruct Hnames as [_ _ Hrn]. destruct (Hrn r Hr) as (_ & Hf & _). split; [|done].
      rewrite Hr in Hrep. destruct Hrep as (seg & id' & Hn & _ & ->). rewrite Hn in Hnew. apply (anchor_temp_ne _ _ _ _ (seg_range seg)).
      unfold ranges_ok in Hnew. by rewrite Forall_singleton in Hnew.
  - assert (anchor_on_disk (dk_files d) (Some (ci_anchor intent))) as Ha.
    { exists enc. split; [|done]. rewrite (pd_others _ _ _ _ _ _ _ Hp) by apply anchor_untouched. unfold anchored. by rewrite lookup_insert_eq. }
    rewrite (bind_Ok_run _ _ d d _ (read_anchor_ok d _ Ha)), eqb_refl. exists d. split_and!; [done|done|done|done|apply disk_passed_refl].
Qed.

Lemma apply_compact_ok (qid : N) (d : Disk) (n : nat) :
  validate_compact_intent intent = Ok () → compacting (dk_files d) → room d n →
  ∃ d', apply_compact_intent qid intent d = (Ok (), d')
    ∧ applied (anchored f0 enc) names rep c COMPACT_INTENT_FILE_NAME (dk_files d')
    ∧ temps (dk_files d') ⊆ temps (dk_files d) ∧ (dk_next_temp d' < 2 ^ 64)%N ∧ disk_passed d d' compacting.
Proof.
  intros Hv Hc Hroom. destruct (install_anchor_ok qid d n Hc Hroom) as (d1 & H1 & Hp1 & Hr1 & Ht1 & Hpass1).
  destruct (redo_ok (anchored f0 enc) names rep c _ l "compact" d1 Hnames Hp1) as (d2 & H2 & Happ & Ht2 & Hx2 & Hpass2).
  exists d2. split_and!; [|done|by rewrite <-Ht1|rewrite Hx2; apply Hr1|].
  - unfold apply_compact_intent. rewrite (bind_Ok_run _ _ d d ()) by (unfold of_result; by rewrite Hv).
    rewrite (bind_Ok_run _ _ d d1 () H1). exact H2.
  - eapply disk_passed_trans; [exact Hpass1|]. eapply disk_passed_impl; [exact Hpass2|]. by right.
Qed.
End install.

(** ** Running the intent *)

Lemma compact_intent_ok c epoch i h h' old post new pid rep previous anchor :
  let target := la_index (ra_compacted anchor) in
  swap_plan c epoch i h (target + 1) h' [] old post new → replaces pid new rep →
  (N.of_nat (length old) ≤ u32_max)%N → (target < u64_max)%N → anchor_wf anchor → (∀ p, previous = Some p → anchor_wf p) →
  validate_anchor_identity (Some anchor) c epoch = Ok () → validate_anchor_identity previous c epoch = Ok () →
  (∀ p, previous = Some p → (la_index (ra_compacted p) < target)%N ∧ ra_recovery_generation anchor = ra_recovery_generation p) →
  compact_intent_wf (mkCompactIntent previous anchor (seg_names old) rep).
Proof.
  intros target Hplan Hrep Hcount Htarget Hanc Hprev Hid Hpid Hreg. destruct (plan_ranges Hplan) as (_ & Hnp & Ho & Hn). destruct (plan_nodup Hplan) as (_ & _ & Hnd).
  destruct (replaces_names pid new rep Hn Hrep) as [Hok Hval]. split; cbn [ci_anchor ci_previous_anchor ci_old_segment_names ci_replacement]; [|done|done|by apply old_names_ok|done|].
  2:{ unfold seg_names. by rewrite length_fmap. }
  unfold validate_compact_intent. cbn [ci_anchor ci_previous_anchor ci_old_segment_names ci_replacement].
  assert (∀ a, validate_anchor_identity (Some a) c epoch = Ok () → validate_anchor a = Ok () ∧ ra_cluster_id a = c ∧ ra_epoch a = epoch) as Hida.
  { intros a Ha. apply bind_Ok_inv in Ha as ([] & H1 & H2). apply reject_if_Ok in H2. bool_prop. naive_solver. }
  destruct (Hida anchor Hid) as (Hv & Hc & He). rewrite Hv. cbn [mbind result_bind].
  assert (eqb (length (seg_names old)) 0 = false) as ->.
  { apply eqb_false. unfold seg_names. rewrite length_fmap. pose proof (sp_old _ _ _ _ _ _ _ _ _ _ Hplan). by destruct old. }
  cbn [reject_if mbind result_bind].
  match goal with |- (?m ≫= _) = _ => assert (m = Ok ()) as -> end.
  { destruct previous as [p|]; [|done]. destruct (Hida p Hpid) as (Hvp & Hcp & Hep). destruct (Hreg p eq_refl) as [Hlt Hgen].
    rewrite Hvp. cbn [mbind result_bind]. rewrite Hc, He, Hcp, Hep, Hgen, !neqb_refl. fold target. by destruct (N.leb_spec target (la_index (ra_compacted p))); [lia|]. }
  cbn [mbind result_bind]. rewrite old_names_valid; [|done|done|intros n Hx; by apply elem_of_nil in Hx]. cbn [mbind result_bind].
  destruct rep as [r|]; [|done]. destruct (Hval r eq_refl) as [-> ->]. cbn [mbind result_bind].
  destruct Hrep as (seg & id & Hnew & Hf & _). rewrite Hf. rewrite bool_decide_false by (apply Hplan; rewrite Hnew; by left). cbn [reject_if mbind result_bind].
  pose proof (sp_log' _ _ _ _ _ _ _ _ _ _ Hplan) as Hl. pose proof (sp_wf' _ _ _ _ _ _ _ _ _ _ Hplan) as Hw. rewrite Hnew in Hl, Hw, Hn. cbn [app] in Hl, Hw.
  apply Forall_cons in Hw as [(Hne & _) _]. rewrite flat_cons, log_from_app, andb_true_iff in Hl. destruct Hl as [Hl _].
  destruct (seg_bounds _ _ _ _ _ Hne Hl) as (Hs & _). unfold ranges_ok in Hn. rewrite Forall_singleton in Hn.
  assert (parse_closed_segment_name (segment_name seg) = Ok (seg_range seg)) as -> by (by apply parse_closed_name). cbn [mbind result_bind].
  fold target. assert (checked_add target 1 = Some (target + 1)%N) as -> by (apply checked_add_Some; lia). cbn [ok_or mbind result_bind seg_range ir_start].
  by rewrite Hs, neqb_refl.
Qed.

(** The abstract compaction: the anchor stands for the entries up to its index. *)
Definition log_compact (l : Log) (anchor : RecoveryAnchor) : Log :=
  mkLog (lg_cluster_id l) (lg_epoch l) (lg_initial l) (Some anchor)
    (from_on (la_index (ra_compacted anchor) + 1) (lg_entries l)) (lg_configuration l).

Section run.
Context (pid : N) (s : FileLogStoreInner) (anchor : RecoveryAnchor).
Context (Hinv : store_inv s) (Hopen : fs_open_segment s = None) (Hcomp : compactable s anchor).
Context (Hanc : anchor_wf anchor) (Hprev : ∀ a, fs_anchor s = Some a → anchor_wf a).
Let target := la_index (ra_compacted anchor).
Context (Htarget : (target < u64_max)%N) (Hcount : (N.of_nat (length (fs_segments s)) ≤ u32_max)%N).
Let old := take_while (λ seg, cs_start seg <=? target)%N (fs_segments s).
Let new := new_segments (compact_entries old target).

(** Everything the run needs, once. *)
Record compact_facts (post : list ClosedSegment) (i : N) (h : LogHash) (enc : bytes) : Prop := {
  cf_segs : fs_segments s = old ++ post;
  cf_plan : swap_plan (fs_cluster_id s) (fs_epoch s) i h (target + 1) (la_hash (ra_compacted anchor)) [] old post new;
  cf_flat : flat (new ++ post) = from_on (target + 1) (all_entries s);
  cf_config : config_run (ra_configuration_state anchor) (from_on (target + 1) (all_entries s)) = Ok (fs_configuration_state s);
  cf_encode : encode_anchor anchor = Ok enc;
  cf_decode : decode_anchor enc = Ok anchor;
  cf_ne : fs_anchor s ≠ Some anchor
}.
Lemma compact_facts_of : ∃ post i h enc, compact_facts post i h enc.
Proof.
  destruct (si_log s Hinv) as (i & h & Hlog). pose proof (inv_log_closed s i h Hlog) as Hl. destruct Hlog as [_ Hla _ _].
  destruct Hcomp as [_ _ (e & He & Hh) Hcfg Hpr]. fold target in He, Hcfg. pose proof (sealed_entries s Hopen) as Hse. rewrite Hse in He.
  destruct (compact_plan _ _ _ _ _ _ _ (si_segs s Hinv) Hl He) as (post & Hsegs & Hplan & Hflat). fold old new in Hsegs, Hplan, Hflat. rewrite Hh in Hplan.
  destruct (anchor_reads anchor Hanc) as (enc & He1 & He2 & _). exists post, i, h, enc.
  split; [done|done|by rewrite Hse| |done|done|].
  - pose proof (si_config s Hinv) as Hc. destruct (cut_log _ _ _ _ (target + 1) _ Hla) as [Hcut _].
    rewrite Hcut, config_run_app, Hcfg in Hc. exact Hc.
  - intros Ha. destruct (Hpr anchor Ha) as [Hlt _]. lia.
Qed.

Lemma compact_swapped_inv post i h enc (d : Disk) :
  compact_facts post i h enc → sealed_dir (dk_files d) (Some anchor) (new ++ post) → room d 2 →
  store_inv (swapped s d (fs_configuration_state s) (Some anchor) (new ++ post)).
Proof.
  intros Hf Hdir Hroom. destruct (cf_plan _ _ _ _ Hf) as [_ _ _ W' L' _].
  eapply (sealed_store _ _ _ _ _ _ _ (target + 1) (la_hash (ra_compacted anchor)));
    [by apply si_cluster|by apply si_epoch|done|apply Hcomp| |done|done| |done].
  - unfold after_anchor. fold target. assert (checked_add target 1 = Some (target + 1)%N) as -> by (apply checked_add_Some; lia). done.
  - rewrite (cf_flat _ _ _ _ Hf). apply Hf.
Qed.
Lemma compact_intent_of post i h enc rep :
  compact_facts post i h enc → replaces pid new rep →
  compact_intent_wf (mkCompactIntent (fs_anchor s) anchor (seg_names old) rep)
  ∧ redo_names (seg_names old) rep COMPACT_INTENT_FILE_NAME ∧ ranges_ok new
  ∧ (∀ n, n ∈ seg_names old → is_closed_name n = true)
  ∧ sealed_dir (anchored (dk_files (fs_disk s)) enc) (Some anchor) (old ++ post).
Proof.
  intros Hf Hrep. pose proof (cf_plan _ _ _ _ Hf) as Hplan. pose proof (cf_segs _ _ _ _ Hf) as Hsegs. destruct (plan_ranges Hplan) as (Hr & _ & Ho & Hn). split_and!.
  - eapply (compact_intent_ok (fs_cluster_id s) (fs_epoch s)); [exact Hplan|exact Hrep| |exact Htarget|done|done|apply Hcomp|by apply si_identity|apply Hcomp].
    rewrite Hsegs, length_app in Hcount. lia.
  - eapply (plan_names Hplan); [by right|exact Hrep].
  - done.
  - intros n. by apply names_closed.
  - eapply anchored_dir; [exact Hr| |apply Hf]. rewrite <-Hsegs. by apply inv_sealed_dir.
Qed.

(** A directory with the intent opens to the compacted log. *)
Lemma compacting_recovers post i h enc rep (l : bytes) (f : files) :
  compact_facts post i h enc → replaces pid new rep →
  decode_compact_intent l = Ok (mkCompactIntent (fs_anchor s) anchor (seg_names old) rep) →
  compacting (dk_files (fs_disk s)) (mkCompactIntent (fs_anchor s) anchor (seg_names old) rep) (new_bytes new) l enc f →
  recovers (log_compact (abs s) anchor) f.
Proof.
  intros Hf Hrep Hdec Hc qid past next Hroom. set (d := mkDisk f past next) in *. set (t := mkCompactIntent _ _ _ _) in *.
  pose proof (cf_plan _ _ _ _ Hf) as Hplan. destruct (compact_intent_of post i h enc rep Hf Hrep) as (Hwf & Hnames & Hrn & Hold & Hdir0).
  destruct (apply_compact_ok (dk_files (fs_disk s)) t pid (new_bytes new) l enc new Hnames Hrep Hrn Hold (si_anchor s Hinv) (cf_ne _ _ _ _ Hf)
    (cf_encode _ _ _ _ Hf) (cf_decode _ _ _ _ Hf) qid d 2 (cw_valid _ Hwf) Hc Hroom) as (d' & Hrun & Happ & Htmp & Hnext & _).
  assert (sealed_dir (dk_files d') (Some anchor) (new ++ post)) as Hdir by (eapply (plan_applied Hplan pid); [by right|exact Hdir0|exact Hrep|exact Happ]).
  assert (room d' 2) as Hroom' by (by eapply room_mono; [exact Hroom|..]).
  pose proof (compact_swapped_inv post i h enc d' Hf Hdir Hroom') as Hi'.
  exists (swapped s d' (fs_configuration_state s) (Some anchor) (new ++ post)). split_and!; [|done|].
  - assert (f !! COMPACT_INTENT_FILE_NAME = Some l) as Hfile by (destruct Hc as [Hc|Hc]; apply Hc).
    assert (f !! TRUNCATE_INTENT_FILE_NAME = None) as Hnot.
    { assert (untouched (seg_names old) rep COMPACT_INTENT_FILE_NAME TRUNCATE_INTENT_FILE_NAME) as Hu.
      { destruct (plan_ranges Hplan) as (_ & _ & Ho & _). by apply (untouched_other pid old new); [..|apply other_truncate]. }
      destruct Hc as [Hc|Hc]; rewrite (pd_others _ _ _ _ _ _ _ Hc _ Hu); [by apply si_truncate|]. unfold anchored. rewrite lookup_insert_ne by done. by apply si_truncate. }
    eapply (open_recovered qid d d d' (swapped s d' (fs_configuration_state s) (Some anchor) (new ++ post))); [by apply no_truncate_intent| |done|done].
    unfold recover_compact_intent. rewrite (bind_Ok_run _ _ d d true (exists_true _ d _ Hfile)), (bind_Ok_run _ _ d d _ (read_run _ d _ Hfile)).
    rewrite (bind_Ok_run _ _ d d t) by (unfold of_result; by rewrite Hdec). exact Hrun.
  - by rewrite swapped_abs, (cf_flat _ _ _ _ Hf).
Qed.

Lemma compact_hook_ok :
  validate_compaction s anchor = Ok true →
  ∃ d' segs, compact_prefix_with_hook pid s anchor (fs_disk s) = (Ok (), d')
    ∧ store_inv (swapped s d' (fs_configuration_state s) (Some anchor) segs)
    ∧ abs (swapped s d' (fs_configuration_state s) (Some anchor) segs) = log_compact (abs s) anchor
    ∧ disk_passed (fs_disk s) d' (λ f, visible_eq (dk_files (fs_disk s)) f ∨ recovers (log_compact (abs s) anchor) f).
Proof.
  intros Hval. destruct compact_facts_of as (post & i & h & enc & Hf). pose proof (cf_plan _ _ _ _ Hf) as Hplan.
  destruct (plan_ranges Hplan) as (_ & _ & Hro & Hrn). pose proof (inv_sealed_dir s Hinv Hopen) as Hdir0. rewrite (cf_segs _ _ _ _ Hf) in Hdir0.
  unfold compact_prefix_with_hook. rewrite (bind_Ok_run _ _ (fs_disk s) (fs_disk s) true) by (unfold of_result; by rewrite Hval). cbn [negb]. cbv zeta.
  fold target old. fold (compact_entries old target).
  destruct (prepare_ok pid (compact_entries old target) (fs_disk s) 1 Hrn (si_room s Hinv)) as (rep & d1 & H1 & Hrep & Hroom1 & Hf1 & Hfree1 & Hv1 & Hp1). fold new in Hrep.
  rewrite (bind_Ok_run _ _ (fs_disk s) d1 rep H1). change (segment_name <$> old) with (seg_names old).
  destruct (compact_intent_of post i h enc rep Hf Hrep) as (Hwf & Hnames & _ & Hold & Hdira).
  destruct (compact_intent_reads _ Hwf) as (l & Hl & Hdec). set (t := mkCompactIntent _ _ _ _) in *.
  destruct (publish_ok pid COMPACT_INTENT_FILE_NAME "compact intent already exists" l d1 1) as (d2 & H2 & Hf2 & Hroom2 & Hp2);
    [done|rewrite Hv1 by done; exact (sd_compact _ _ _ Hdir0)|done|].
  rewrite (bind_Ok_run _ _ d1 d2 ()) by (unfold publish_compact_intent; rewrite Hl; exact H2).
  assert (pending (dk_files (fs_disk s)) (seg_names old) rep (new_bytes new) COMPACT_INTENT_FILE_NAME l (dk_files d2)) as Hpend.
  { rewrite Hf2, Hf1. eapply published_pending; [by right|done|done|done| |done]. eapply (plan_free Hplan). exact Hdir0. }
  destruct (apply_compact_ok (dk_files (fs_disk s)) t pid (new_bytes new) l enc new Hnames Hrep Hrn Hold (si_anchor s Hinv) (cf_ne _ _ _ _ Hf)
    (cf_encode _ _ _ _ Hf) (cf_decode _ _ _ _ Hf) pid d2 1 (cw_valid _ Hwf) (or_introl Hpend) Hroom2) as (d3 & H3 & Happ & Htmp & Hnext & Hp3).
  assert (sealed_dir (dk_files d3) (Some anchor) (new ++ post)) as Hdir by (eapply (plan_applied Hplan pid); [by right|exact Hdira|exact Hrep|exact Happ]).
  assert (room d3 2) as Hroom3.
  { apply (room_mono (fs_disk s)); [by apply si_room| |done]. by eapply swap_temps; [exact Happ|exact Htmp|exact Hf2|exact Hf1|]. }
  exists d3, (new ++ post). split_and!; [exact H3|by eapply compact_swapped_inv|by rewrite swapped_abs, (cf_flat _ _ _ _ Hf)|].
  eapply disk_passed_trans; [eapply disk_passed_impl; [exact Hp1|]; by left|].
  eapply disk_passed_trans; [eapply disk_passed_impl; [exact Hp2|]|eapply disk_passed_impl; [exact Hp3|]]; intros f Hx.
  - left. intros n Hn. rewrite (Hx n Hn). by apply Hv1.
  - right. by eapply compacting_recovers.
Qed.
End run.

(** ** The contract of compaction *)

Lemma compact_prefix_spec pid s anchor :
  store_inv s → anchor_wf anchor → (∀ a, fs_anchor s = Some a → anchor_wf a) →
  (la_index (ra_compacted anchor) < u64_max)%N → (N.of_nat (length (fs_segments s)) < u32_max)%N →
  match validate_compaction s anchor with
  | Ok true => ∃ s', compact_prefix pid anchor s = (Ok (), s') ∧ store_inv s' ∧ abs s' = log_compact (abs s) anchor
      ∧ compactable s anchor ∧ passed s s' (λ f, recovers (abs s) f ∨ recovers (log_compact (abs s) anchor) f)
  | Ok false => compact_prefix pid anchor s = (Ok (), s)
  | Err err => compact_prefix pid anchor s = (Err err, s)
  end.
Proof.
  intros Hinv Hanc Hprev Htarget Hcount. unfold compact_prefix. rewrite get_run, bind_run. unfold of_result at 1.
  destruct (validate_compaction s anchor) as [[|]|err] eqn:Hval; [|done|done]. cbn [negb].
  pose proof (validate_compactable s anchor Hinv Hval) as Hcomp.
  destruct (seal_ok pid s Hinv) as (s1 & Hs1 & Hi1 & Hsame & Hn1 & Hp1 & Hlen). pose proof (validate_same s s1 anchor Hinv Hi1 Hsame) as Hval1. rewrite Hval in Hval1.
  pose proof (abs_same _ _ Hsame) as Habs. assert (fs_anchor s1 = fs_anchor s) as Ha1 by (by destruct Hsame).
  destruct (compact_hook_ok pid s1 anchor Hi1 Hn1 (validate_compactable s1 anchor Hi1 Hval1) Hanc) as (d & segs & Hhook & Hi' & Habs' & Hp');
    [by rewrite Ha1|done|lia|done|]. rewrite Habs in Habs', Hp'.
  exists (swapped s1 d (fs_configuration_state s1) (Some anchor) segs). split_and!; [|done|done|done|].
  - rewrite (bind_Ok_run _ _ s s1 () Hs1), get_run, (bind_Ok_run _ _ s1 (set_disk d s1) ()) by (by apply on_disk_run).
    rewrite (bind_Ok_run _ _ (set_disk d s1) (set_disk d s1) (Some anchor)).
    2:{ rewrite (on_disk_run _ (set_disk d s1) (Some anchor) d); [done|]. apply read_anchor_ok. exact (si_anchor _ Hi'). }
    rewrite modify_run. exact (rescan_ok (set_anchor (Some anchor) (set_disk d s1)) (fs_configuration_state s1) segs Hn1 Hi').
  - eapply (passed_trans s s1).
    + eapply passed_impl; [exact Hp1|]. intros f Hf. left. by apply sealing_recovers.
    + eapply (passed_impl s1 (swapped s1 d (fs_configuration_state s1) (Some anchor) segs)); [exact Hp'|]. intros f [Hv|Hf]; [left|by right].
      rewrite <-Habs. by apply recovers_visible.
Qed.

(** Compaction is exact and checked: an anchor that passes the checks is the one
    whose hash is the hash of the log's entry at its index and whose configuration
    state is the one after that entry; then the log keeps exactly the entries after
    it, with the anchor installed and the configuration state unchanged.  The anchor
    already in place changes nothing, and an anchor that fails a check is refused
    with the error of that check and nothing changes. *)
Theorem compact_prefix_refines (pid : N) (s : FileLogStoreInner) (anchor : RecoveryAnchor) :
  store_inv s → anchor_wf anchor → (∀ a, fs_anchor s = Some a → anchor_wf a) →
  (la_index (ra_compacted anchor) < u64_max)%N → (N.of_nat (length (fs_segments s)) < u32_max)%N →
  match validate_compaction s anchor with
  | Ok true => ∃ s' e, compact_prefix pid anchor s = (Ok (), s') ∧ store_inv s' ∧ abs s' = log_compact (abs s) anchor
      ∧ log_read (abs s) (la_index (ra_compacted anchor)) = Some e ∧ le_hash e = la_hash (ra_compacted anchor)
      ∧ config_run (base_configuration (fs_initial_configuration s) (fs_anchor s))
          (filter (λ e, (le_index e ≤ la_index (ra_compacted anchor))%N) (all_entries s)) = Ok (ra_configuration_state anchor)
  | Ok false => compact_prefix pid anchor s = (Ok (), s)
  | Err err => compact_prefix pid anchor s = (Err err, s)
  end.
Proof.
  intros Hinv Hanc Hprev Ht Hc. pose proof (compact_prefix_spec pid s anchor Hinv Hanc Hprev Ht Hc) as Hs.
  destruct (validate_compaction s anchor) as [[|]|]; [|done|done]. destruct Hs as (s' & Hs & Hi & Habs & [_ _ (e & He & Hh) Hcfg _] & _).
  exists s', e. split_and!; [done|done|done|done|done|]. rewrite <-Hcfg. f_equal. unfold below. apply list_filter_iff. intros x. lia.
Qed.

End compact.
