(* ===== verification/LogReach.v ===== *)
(** * LogReach: every history of the log store

    The installation of a recovery anchor in an empty store, the store of an empty
    directory, and the states that [FileLogStore] ([crates/rhiza-log/src/lib.rs]) can
    be in: after any sequence of appends, truncations, compactions and installations,
    with crashes in the middle of them and openings of what they left. *)

From S2P Require Import Prelude Bytes Text Core ConfigChange ConfigState LogSegment AnchorCodec LogStore LogNames LogScan LogInv LogSpec LogCrash LogIntents LogRedo LogSwap LogTruncate LogCompact.
From Stdlib Require Strings.Byte.

Section reach.
Context `{Sha256}.

(** ** Opening an empty directory *)

Lemma empty_dir next : (next < 2 ^ 64)%N → sealed_dir ∅ None [] ∧ room (mkDisk ∅ [] next) 2.
Proof.
  intros Hn. split.
  - split; [done| |done|done|done]. split; [|by constructor]. intros name _ [c Hc]. done.
  - split; [done|]. cbn [dk_files]. assert (temps ∅ = ∅) as ->; [|done]. unfold temps. apply set_eq. intros x.
    rewrite elem_of_filter, elem_of_dom. split; [intros [_ [v Hv]]; done|set_solver].
Qed.
Lemma open_empty pid next c epoch initial :
  c ≠ [] → is_u64 epoch = true → (next < 2 ^ 64)%N →
  let s := mkStore (mkDisk ∅ [] next) c epoch initial initial None [] None in
  open_with_configuration pid (mkDisk ∅ [] next) c epoch initial = (Ok s, fs_disk s) ∧ store_inv s.
Proof.
  intros Hc He Hn s. destruct (empty_dir next Hn) as [Hdir Hroom].
  assert (store_inv s) as Hinv by (by apply (sealed_store _ _ _ _ _ _ _ 1 LogHash_ZERO)).
  split; [|done]. exact (reopen_inv pid s Hinv).
Qed.

(** ** Installing a recovery anchor *)

(** The checks of the installation, in one condition. *)
Definition installable (s : FileLogStoreInner) (verified : RecoveryAnchor) (generation : N) (cfg : ConfigurationState) : bool :=
  eqb (validate_anchor_identity (Some verified) (fs_cluster_id s) (fs_epoch s)) (Ok ())
  && eqb (ra_recovery_generation verified) generation && eqb (ra_configuration_state verified) cfg
  && eqb (fs_anchor s) None && (length (fs_segments s) =? 0) && match fs_open_segment s with Some _ => false | None => true end.

(** The log that starts after the anchor. *)
Definition log_install (l : Log) (verified : RecoveryAnchor) : Log :=
  mkLog (lg_cluster_id l) (lg_epoch l) (lg_initial l) (Some verified) [] (ra_configuration_state verified).

Lemma install_recovery_spec pid s verified generation cfg :
  store_inv s → anchor_wf verified → (la_index (ra_compacted verified) < u64_max)%N →
  if installable s verified generation cfg
  then ∃ s', install_recovery_anchor pid verified generation cfg s = (Ok (), s') ∧ store_inv s'
         ∧ abs s' = log_install (abs s) verified ∧ passed s s' (visible_eq (dk_files (fs_disk s)))
  else ∃ err, install_recovery_anchor pid verified generation cfg s = (Err err, s).
Proof.
  intros Hinv Hanc Ht. unfold install_recovery_anchor. rewrite get_run. rewrite (bind_Ok_run _ _ s s ()) by (unfold of_result; by rewrite (aw_valid _ Hanc)).
  destruct (installable s verified generation cfg) eqn:Hok; unfold installable in Hok.
  - rewrite !andb_true_iff, !eqb_true, Nat.eqb_eq in Hok. destruct Hok as [[[[[Hid Hg] Hcfg] Ha] Hsegs] Hopen].
    apply length_zero_iff_nil in Hsegs. assert (fs_open_segment s = None) as Ho by (by destruct (fs_open_segment s)).
    rewrite (bind_Ok_run _ _ s s ()) by (unfold of_result; by rewrite Hid). rewrite Hg, Hcfg, Ha, Hsegs, Ho, !neqb_refl.
    do 3 rewrite (bind_Ok_run _ _ s s ()) by done. destruct (anchor_reads verified Hanc) as (enc & He & Hd & _).
    destruct (install_file_ok pid ANCHOR_FILE_NAME enc (fs_disk s) 2 (si_room s Hinv) eq_refl) as (d & Hi & Hf & Hr & Hp).
    assert (install_anchor pid (mkCompactIntent None verified [] None) (fs_disk s) = (Ok (), d)) as Hin.
    { unfold install_anchor. pose proof (si_anchor s Hinv) as Hd0. rewrite (bind_Ok_run _ _ _ _ _ (read_anchor_ok _ _ Hd0)), Ha. cbn [ci_anchor ci_previous_anchor].
      rewrite (proj2 (eqb_false _ _)), neqb_refl by done. rewrite He. exact Hi. }
    rewrite (bind_Ok_run _ _ s (set_disk d s) ()) by (by apply on_disk_run). rewrite modify_run.
    set (s' := swapped s d (ra_configuration_state verified) (Some verified) []).
    assert (store_inv s') as Hi'.
    { eapply (sealed_store _ _ _ _ _ _ _ (la_index (ra_compacted verified) + 1) (la_hash (ra_compacted verified)));
        [by apply si_cluster|by apply si_epoch| |done| |done|done|done|done].
      - rewrite Hf. eapply anchored_dir; [by constructor| |exact Hd]. pose proof (inv_sealed_dir s Hinv Ho) as Hdir. by rewrite Hsegs in Hdir.
      - unfold after_anchor. by rewrite (proj2 (checked_add_Some _ _ (la_index (ra_compacted verified) + 1)%N)) by lia. }
    exists s'. split_and!; [|done|done|exact Hp]. unfold modify, s', swapped, set_configuration, set_anchor. cbn. rewrite Hsegs, Ho. by rewrite Hcfg.
  - assert (∀ A (f : A → st FileLogStoreInner ()) (m : st FileLogStoreInner A) err, m s = (Err err, s) → ∃ err', (m ≫= f) s = (Err err', s)) as Herr.
    { intros A f m err Hm. exists err. by rewrite bind_run, Hm. }
    rewrite bind_run. unfold of_result at 1. destruct (validate_anchor_identity _ _ _) as [[]|err]; [|by exists err].
    destruct (decide (ra_recovery_generation verified = generation)) as [Hg|Hg].
    2:{ rewrite (proj2 (neqb_true _ _) Hg). by eapply Herr. }
    destruct (decide (ra_configuration_state verified = cfg)) as [Hc|Hc].
    2:{ rewrite Hg, neqb_refl, (proj2 (neqb_true _ _) Hc). rewrite (bind_Ok_run _ _ s s ()) by done. by eapply Herr. }
    rewrite Hg, Hc, !neqb_refl, !eqb_refl in *. do 2 rewrite (bind_Ok_run _ _ s s ()) by done. cbn [andb] in Hok.
    assert (neqb (fs_anchor s) None || negb (length (fs_segments s) =? 0) || match fs_open_segment s with Some _ => true | None => false end = true) as ->.
    { unfold neqb. destruct (eqb (fs_anchor s) None), (length (fs_segments s) =? 0), (fs_open_segment s); cbn in Hok |- *; congruence. }
    by eapply Herr.
Qed.

(** A recovery anchor is installed exactly when it is valid for the cluster and
    the epoch, has the expected generation and configuration state and the store is
    empty; then the log starts after the anchor and opens again as such, and
    otherwise nothing changes. *)
Theorem install_recovery_anchor_refines (pid : N) (s : FileLogStoreInner) (verified : RecoveryAnchor) (generation : N)
    (cfg : ConfigurationState) :
  store_inv s → anchor_wf verified → (la_index (ra_compacted verified) < u64_max)%N →
  if installable s verified generation cfg
  then ∃ s', install_recovery_anchor pid verified generation cfg s = (Ok (), s') ∧ store_inv s'
         ∧ abs s' = log_install (abs s) verified ∧ recovers (log_install (abs s) verified) (dk_files (fs_disk s'))
  else ∃ err, install_recovery_anchor pid verified generation cfg s = (Err err, s).
Proof.
  intros Hinv Hanc Ht. pose proof (install_recovery_spec pid s verified generation cfg Hinv Hanc Ht) as Hs.
  destruct (installable _ _ _ _); [|done]. destruct Hs as (s' & Hs & Hi & Habs & _). exists s'. split_and!; [done|done|done|].
  rewrite <-Habs. by apply recovers_visible.
Qed.

(** ** Histories *)

Inductive LogOp : Type :=
  | AppendOp (es : list LogEntry)
  | TruncateOp (from : N)
  | CompactOp (anchor : RecoveryAnchor)
  | InstallOp (verified : RecoveryAnchor) (generation : N) (cfg : ConfigurationState).

Definition run_op (pid : N) (op : LogOp) : st FileLogStoreInner () :=
  match op with
  | AppendOp es => append_batch pid es
  | TruncateOp from => truncate_suffix pid from
  | CompactOp anchor => compact_prefix pid anchor
  | InstallOp verified generation cfg => install_recovery_anchor pid verified generation cfg
  end.

(** Arguments in the ranges of their types, anchors of the current format below the last index. *)
Definition anchor_usable (a : RecoveryAnchor) : Prop := anchor_wf a ∧ (la_index (ra_compacted a) < u64_max)%N.
Definition op_wf (op : LogOp) : Prop :=
  match op with
  | AppendOp es => forallb entry_fits es = true
  | TruncateOp _ => True
  | CompactOp anchor => anchor_usable anchor
  | InstallOp verified _ _ => anchor_usable verified
  end.
Definition segments_fit (s : FileLogStoreInner) : Prop := (N.of_nat (length (fs_segments s)) < u32_max)%N.

(** An operation returns, or the process stops in the middle of it and the directory
    is opened again by another one. *)
Inductive reachable (c : bytes) (epoch : N) (initial : ConfigurationState) : FileLogStoreInner → Prop :=
  | reach_empty pid next s d :
      (next < 2 ^ 64)%N → open_with_configuration pid (mkDisk ∅ [] next) c epoch initial = (Ok s, d) →
      reachable c epoch initial s
  | reach_op pid op s r s' :
      reachable c epoch initial s → op_wf op → segments_fit s → run_op pid op s = (r, s') →
      reachable c epoch initial s'
  | reach_crash pid op s r s' (f : files) qid next s2 d :
      reachable c epoch initial s → op_wf op → segments_fit s → run_op pid op s = (r, s') →
      f ∈ drop (length (dk_past (fs_disk s))) (dk_past (fs_disk s')) ++ [dk_files (fs_disk s')] →
      room (mkDisk f [] next) 2 → open_with_configuration qid (mkDisk f [] next) c epoch initial = (Ok s2, d) →
      reachable c epoch initial s2.

(** The invariant of the histories. *)
Record reach_inv (c : bytes) (epoch : N) (initial : ConfigurationState) (s : FileLogStoreInner) : Prop := {
  ri_inv : store_inv s;
  ri_cluster : fs_cluster_id s = c;
  ri_epoch : fs_epoch s = epoch;
  ri_initial : fs_initial_configuration s = initial;
  ri_anchor : ∀ a, fs_anchor s = Some a → anchor_usable a
}.
(** The logs that an operation can leave behind. *)
Definition log_ok (c : bytes) (epoch : N) (initial : ConfigurationState) (l : Log) : Prop :=
  lg_cluster_id l = c ∧ lg_epoch l = epoch ∧ lg_initial l = initial ∧ ∀ a, lg_anchor l = Some a → anchor_usable a.
Lemma reach_inv_abs c epoch initial s : reach_inv c epoch initial s ↔ store_inv s ∧ log_ok c epoch initial (abs s).
Proof. split; [intros []; by split_and!|intros (Hi & Hc & He & Hini & Ha)]. by split. Qed.
Lemma log_append_ok c epoch initial l es l' : log_ok c epoch initial l → log_append l es = Some l' → log_ok c epoch initial l'.
Proof.
  intros Hl. unfold log_append. destruct (after_anchor _) as [[i h]|]; [|done]. destruct (log_from _ _ _ _ es); [|done].
  destruct (config_run _ es); [|done]. by intros [= <-].
Qed.
Lemma log_truncate_ok c epoch initial l from l' : log_ok c epoch initial l → log_truncate l from = Some l' → log_ok c epoch initial l'.
Proof. intros Hl. unfold log_truncate. destruct (match lg_anchor l with Some _ => _ | None => _ end); [done|]. destruct (config_run _ _); [|done]. by intros [= <-]. Qed.
Lemma log_anchor_ok c epoch initial l a es cfg :
  log_ok c epoch initial l → anchor_usable a → log_ok c epoch initial (mkLog (lg_cluster_id l) (lg_epoch l) (lg_initial l) (Some a) es cfg).
Proof. intros (Hc & He & Hi & _) Ha. split_and!; [done|done|done|]. by intros a' [= <-]. Qed.

(** What is true of every operation: it keeps the invariant, and every directory it
    passes through opens to a good log. *)
Definition good_dir (c : bytes) (epoch : N) (initial : ConfigurationState) (f : files) : Prop :=
  ∃ l, log_ok c epoch initial l ∧ recovers l f.

Lemma op_ok pid op c epoch initial s r s' :
  reach_inv c epoch initial s → op_wf op → segments_fit s → run_op pid op s = (r, s') →
  reach_inv c epoch initial s' ∧ passed s s' (good_dir c epoch initial).
Proof.
  intros Hri Hop Hfit Hrun. pose proof (proj1 (reach_inv_abs _ _ _ _) Hri) as [Hinv Hlog].
  assert (∀ err, (r, s') = (Err err, s) ∨ (r, s') = (Ok (), s) → reach_inv c epoch initial s' ∧ passed s s' (good_dir c epoch initial)) as Hsame.
  { intros err [Heq|Heq]; apply pair_eq in Heq as [_ ->]; (split; [done|apply passed_refl]). }
  destruct op as [es|from|anchor|verified generation cfg]; cbn [run_op op_wf] in *.
  - pose proof (append_batch_spec pid s es Hinv Hop) as Hs. destruct (log_append (abs s) es) as [l|] eqn:Hl.
    2:{ destruct Hs as [err Hs]. rewrite Hs in Hrun. apply (Hsame err). by left. }
    destruct Hs as (s2 & Hs & Hi & Habs & Hp). rewrite Hs in Hrun. apply pair_eq in Hrun as [_ <-]. split.
    + apply reach_inv_abs. split; [done|]. rewrite Habs. by eapply log_append_ok.
    + eapply passed_impl; [exact Hp|]. intros f Hf. destruct (log_append_Some s es l Hinv Hl) as [Ha [cfg Hc]].
      destruct (on_the_way_recovers s es cfg f Hinv Ha Hc Hf) as (n & l' & Hl' & Hr). exists l'. split; [by eapply log_append_ok|done].
  - pose proof (truncate_suffix_spec pid s from Hinv Hfit) as Hs. destruct (log_truncate (abs s) from) as [l|] eqn:Hl.
    2:{ destruct Hs as (a & _ & _ & Hs). rewrite Hs in Hrun. eapply Hsame. by left. }
    destruct Hs as (s2 & Hs & Hi & Habs & Hp). rewrite Hs in Hrun. apply pair_eq in Hrun as [_ <-].
    pose proof (log_truncate_ok _ _ _ _ _ _ Hlog Hl) as Hl'. split; [apply reach_inv_abs; by rewrite Habs|].
    eapply passed_impl; [exact Hp|]. intros f [Hf|Hf]; [by exists (abs s)|by exists l].
  - destruct Hop as [Hanc Ht]. pose proof (compact_prefix_spec pid s anchor Hinv Hanc (λ a Ha, proj1 (ri_anchor _ _ _ _ Hri a Ha)) Ht Hfit) as Hs.
    destruct (validate_compaction s anchor) as [[|]|err].
    2:{ rewrite Hs in Hrun. apply (Hsame out_of_fuel). by right. }
    2:{ rewrite Hs in Hrun. apply (Hsame err). by left. }
    destruct Hs as (s2 & Hs & Hi & Habs & _ & Hp). rewrite Hs in Hrun. apply pair_eq in Hrun as [_ <-].
    assert (log_ok c epoch initial (log_compact (abs s) anchor)) as Hl' by (by apply log_anchor_ok). split; [apply reach_inv_abs; by rewrite Habs|].
    eapply passed_impl; [exact Hp|]. intros f [Hf|Hf]; [by exists (abs s)|by exists (log_compact (abs s) anchor)].
  - destruct Hop as [Hanc Ht]. pose proof (install_recovery_spec pid s verified generation cfg Hinv Hanc Ht) as Hs. destruct (installable _ _ _ _).
    2:{ destruct Hs as [err Hs]. rewrite Hs in Hrun. apply (Hsame err). by left. }
    destruct Hs as (s2 & Hs & Hi & Habs & Hp). rewrite Hs in Hrun. apply pair_eq in Hrun as [_ <-].
    assert (log_ok c epoch initial (log_install (abs s) verified)) as Hl' by (by apply log_anchor_ok). split; [apply reach_inv_abs; by rewrite Habs|].
    eapply passed_impl; [exact Hp|]. intros f Hf. exists (abs s). split; [done|]. by apply recovers_visible.
Qed.

End reach.
