(* ===== verification/LogWitnesses.v ===== *)
(** * LogWitnesses: the log store at work

    The theorems about the log store at a small log: a directory that is created,
    filled, truncated and compacted. *)

From S2P Require Import Prelude Bytes Text Core ConfigChange ConfigState LogSegment AnchorCodec LogStore LogNames LogScan LogInv LogSpec LogCrash LogIntents LogRedo LogSwap LogTruncate LogCompact LogReach.
From Stdlib Require Strings.Byte.

#[local] Existing Instance sample_sha256.

Definition empty_store : FileLogStoreInner :=
  mkStore (mkDisk ∅ [] 0) sample_cluster 1 sample_active sample_active None [] None.
Definition filled_store : FileLogStoreInner := (append_batch 7 sample_log empty_store).2.
Definition cut_store : FileLogStoreInner := (truncate_suffix 7 2 filled_store).2.
Definition first_hash : LogHash := default LogHash_ZERO (le_hash <$> head sample_log).
Definition first_anchor : RecoveryAnchor :=
  anchor_new_with_configuration sample_cluster 1 sample_active 3 (mkLogAnchor 1 first_hash)
    (mkSnapshotIdentity (lit "snapshot-1") LogHash_ZERO 100 None).
Definition compacted_store : FileLogStoreInner := (compact_prefix 7 first_anchor filled_store).2.

Lemma run_of {S A} (m : st S A) (s : S) (a : A) : (m s).1 = Ok a → m s = (Ok a, (m s).2).
Proof. intros Ha. rewrite <-Ha. apply surjective_pairing. Qed.

Lemma empty_store_inv : store_inv empty_store.
Proof. by apply (open_empty 7 0 sample_cluster 1 sample_active). Qed.
Lemma sample_log_fits : forallb entry_fits sample_log = true.
Proof. vm_compute. reflexivity. Qed.
Lemma filled_run : append_batch 7 sample_log empty_store = (Ok (), filled_store).
Proof. unfold filled_store. apply (run_of (append_batch 7 sample_log) empty_store ()). vm_compute. reflexivity. Qed.
Lemma filled_store_inv : store_inv filled_store.
Proof.
  pose proof (append_batch_spec 7 empty_store sample_log empty_store_inv sample_log_fits) as Hs. rewrite filled_run in Hs.
  destruct (log_append _ _).
  - destruct Hs as (s' & Heq & Hi & _). by apply pair_eq in Heq as [_ ->].
  - destruct Hs as [err Heq]. by apply pair_eq in Heq as [Heq _].
Qed.
Lemma first_anchor_wf : anchor_wf first_anchor.
Proof. split; [reflexivity|vm_compute; reflexivity|vm_compute; reflexivity|]. split; [vm_compute; reflexivity|done]. Qed.
Lemma first_anchor_usable : anchor_usable first_anchor.
Proof. split; [apply first_anchor_wf|reflexivity]. Qed.

(** ** Appending and reading *)

Lemma append_batch_refines_witness :
  log_append (abs empty_store) sample_log ≠ None
  ∧ match log_append (abs empty_store) sample_log with
    | Some l => ∃ s', append_batch 7 sample_log empty_store = (Ok (), s') ∧ store_inv s' ∧ abs s' = l
    | None => ∃ err, append_batch 7 sample_log empty_store = (Err err, empty_store)
    end.
Proof.
  split; [vm_compute; congruence|]. apply (append_batch_refines 7 empty_store sample_log); [apply empty_store_inv|apply sample_log_fits].
Defined.

Lemma read_refines_witness :
  read filled_store 2 = log_read (abs filled_store) 2
  ∧ bool_decide (is_Some (read filled_store 2)) = true ∧ last_index filled_store = Some 2%N.
Proof.
  split; [exact (proj1 (read_refines filled_store 2 (mkIndexRange 1 2) filled_store_inv))|]. split; vm_compute; reflexivity.
Defined.

Lemma torn_dir : ∃ f, f ∈ drop (length (dk_past (fs_disk empty_store))) (dk_past (fs_disk filled_store)).
Proof.
  destruct (drop (length (dk_past (fs_disk empty_store))) (dk_past (fs_disk filled_store))) as [|f l] eqn:E.
  - exfalso. assert (length (drop (length (dk_past (fs_disk empty_store))) (dk_past (fs_disk filled_store))) = 0) as Hl by (by rewrite E).
    revert Hl. vm_compute. discriminate.
  - exists f. by left.
Defined.
Lemma append_crash_recovers_witness :
  ∃ f, f ∈ drop (length (dk_past (fs_disk empty_store))) (dk_past (fs_disk filled_store))
    ∧ (∃ l, log_append (abs empty_store) sample_log = Some l ∧ recovers l (dk_files (fs_disk filled_store)))
    ∧ ∃ n l, log_append (abs empty_store) (take n sample_log) = Some l ∧ recovers l f.
Proof.
  destruct torn_dir as [f Hf]. exists f. split; [exact Hf|].
  apply (append_crash_recovers 7 empty_store filled_store sample_log f empty_store_inv sample_log_fits filled_run Hf).
Defined.

(** ** Truncation *)

Lemma cut_run : truncate_suffix 7 2 filled_store = (Ok (), cut_store).
Proof. unfold cut_store. apply (run_of (truncate_suffix 7 2) filled_store ()). vm_compute. reflexivity. Qed.
Lemma filled_segments : (N.of_nat (length (fs_segments filled_store)) < u32_max)%N.
Proof. vm_compute. reflexivity. Qed.

Lemma truncate_suffix_refines_witness :
  bool_decide (length (all_entries cut_store) = 1) = true
  ∧ match log_truncate (abs filled_store) 2 with
    | Some l => ∃ s', truncate_suffix 7 2 filled_store = (Ok (), s') ∧ store_inv s' ∧ abs s' = l
    | None => ∃ a, fs_anchor filled_store = Some a ∧ (2 ≤ la_index (ra_compacted a))%N
        ∧ truncate_suffix 7 2 filled_store = (Err (TruncateCompactedPrefix 2 (la_index (ra_compacted a))), filled_store)
    end.
Proof. split; [vm_compute; reflexivity|]. apply (truncate_suffix_refines 7 filled_store 2); [apply filled_store_inv|apply filled_segments]. Defined.

Lemma cut_dir : ∃ f, f ∈ drop (length (dk_past (fs_disk filled_store))) (dk_past (fs_disk cut_store)).
Proof.
  destruct (drop (length (dk_past (fs_disk filled_store))) (dk_past (fs_disk cut_store))) as [|f l] eqn:E.
  - exfalso. assert (length (drop (length (dk_past (fs_disk filled_store))) (dk_past (fs_disk cut_store))) = 0) as Hl by (by rewrite E).
    revert Hl. vm_compute. discriminate.
  - exists f. by left.
Defined.
Lemma truncate_crash_atomic_witness :
  ∃ f l, log_truncate (abs filled_store) 2 = Some l ∧ recovers l (dk_files (fs_disk cut_store))
    ∧ (recovers (abs filled_store) f ∨ recovers l f).
Proof.
  destruct cut_dir as [f Hf]. exists f.
  apply (truncate_crash_atomic 7 filled_store cut_store 2 f filled_store_inv filled_segments cut_run Hf).
Defined.

(** ** Compaction *)

Lemma no_anchor_before : ∀ a, fs_anchor filled_store = Some a → anchor_wf a.
Proof. intros a Ha. exfalso. revert Ha. vm_compute. discriminate. Qed.
Lemma first_anchor_valid : validate_compaction filled_store first_anchor = Ok true.
Proof. vm_compute. reflexivity. Qed.
Lemma first_anchor_below : (la_index (ra_compacted first_anchor) < u64_max)%N.
Proof. reflexivity. Qed.
Lemma compacted_run : compact_prefix 7 first_anchor filled_store = (Ok (), compacted_store).
Proof. unfold compacted_store. apply (run_of (compact_prefix 7 first_anchor) filled_store ()). vm_compute. reflexivity. Qed.

Lemma compact_prefix_refines_witness :
  ∃ s' e, compact_prefix 7 first_anchor filled_store = (Ok (), s') ∧ store_inv s'
    ∧ abs s' = log_compact (abs filled_store) first_anchor ∧ log_read (abs filled_store) 1 = Some e ∧ le_hash e = first_hash.
Proof.
  pose proof (compact_prefix_refines 7 filled_store first_anchor filled_store_inv first_anchor_wf no_anchor_before first_anchor_below filled_segments) as Hw.
  rewrite first_anchor_valid in Hw. destruct Hw as (s' & e & H1 & H2 & H3 & H4 & H5 & _). exists s', e. split_and!; [exact H1|exact H2|exact H3|exact H4|exact H5].
Defined.

Lemma compact_dir : ∃ f, f ∈ drop (length (dk_past (fs_disk filled_store))) (dk_past (fs_disk compacted_store)).
Proof.
  destruct (drop (length (dk_past (fs_disk filled_store))) (dk_past (fs_disk compacted_store))) as [|f l] eqn:E.
  - exfalso. assert (length (drop (length (dk_past (fs_disk filled_store))) (dk_past (fs_disk compacted_store))) = 0) as Hl by (by rewrite E).
    revert Hl. vm_compute. discriminate.
  - exists f. by left.
Defined.

(** ** Intents, installation and histories *)

Definition sample_segment_name : bytes := segment_file_name (mkIndexRange 1 2).
Definition sample_truncate_intent : TruncateIntent := mkTruncateIntent [sample_segment_name] None.
Definition sample_compact_intent : CompactIntent := mkCompactIntent None first_anchor [sample_segment_name] None.
Lemma sample_truncate_intent_wf : truncate_intent_wf sample_truncate_intent.
Proof. split; [vm_compute; reflexivity|repeat constructor|done|vm_compute; discriminate]. Qed.
Lemma sample_compact_intent_wf : compact_intent_wf sample_compact_intent.
Proof. split; [vm_compute; reflexivity|apply first_anchor_wf|done|repeat constructor|done|vm_compute; discriminate]. Qed.
Lemma intents_roundtrip_witness :
  (∃ l, encode_truncate_intent sample_truncate_intent = Ok l ∧ decode_truncate_intent l = Ok sample_truncate_intent)
  ∧ ∃ l, encode_compact_intent sample_compact_intent = Ok l ∧ decode_compact_intent l = Ok sample_compact_intent.
Proof. apply (intents_roundtrip sample_truncate_intent sample_compact_intent sample_truncate_intent_wf sample_compact_intent_wf). Defined.

Lemma install_recovery_anchor_refines_witness :
  installable empty_store first_anchor 3 sample_active = true
  ∧ if installable empty_store first_anchor 3 sample_active
    then ∃ s', install_recovery_anchor 7 first_anchor 3 sample_active empty_store = (Ok (), s') ∧ store_inv s'
           ∧ abs s' = log_install (abs empty_store) first_anchor
           ∧ recovers (log_install (abs empty_store) first_anchor) (dk_files (fs_disk s'))
    else ∃ err, install_recovery_anchor 7 first_anchor 3 sample_active empty_store = (Err err, empty_store).
Proof.
  split; [vm_compute; reflexivity|].
  apply (install_recovery_anchor_refines 7 empty_store first_anchor 3 sample_active empty_store_inv first_anchor_wf first_anchor_below).
Defined.

Lemma filled_reachable : reachable sample_cluster 1 sample_active filled_store.
Proof.
  apply (reach_op _ _ _ 7 (AppendOp sample_log) empty_store (Ok ())); [|apply sample_log_fits|vm_compute; reflexivity|apply filled_run].
  destruct (open_empty 7 0 sample_cluster 1 sample_active sample_cluster_ne) as [Ho _]; [reflexivity|reflexivity|].
  exact (reach_empty _ _ _ 7 0 empty_store _ eq_refl Ho).
Qed.
