(* ===== verification/KvCodec.v ===== *)
(** * KvCodec: the commands, receipts and snapshots of the key/value profile

    Models the codecs of [crates/rhiza-kv/src/lib.rs]: the semantic command
    [RHKV v1] and its validation, the replicated batch [RHKB] (a bounded list of
    commands with distinct request ids inside the shared [QCMD] envelope), the
    receipt [RHKR v1] kept for each request id, and the snapshot envelope [RHKS].
    An error message is the format string of the source, in which [format!] puts
    values that the model leaves out.  An [expect] is the error [KvPanic], which the source does not
    have, so that a panic that can be reached would show in the theorems. *)

From S2P Require Import Prelude Bytes Core Envelope.
From Stdlib Require Strings.Byte.

Definition COMMAND_MAGIC : bytes := lit "RHKV" ++ [Byte.x00; Byte.x01].
Definition BATCH_COMMAND_MAGIC : bytes := lit "RHKB" ++ [Byte.x00; Byte.x01].
Definition RECEIPT_MAGIC : bytes := lit "RHKR" ++ [Byte.x00; Byte.x01].
Definition SNAPSHOT_DOMAIN : bytes := lit "rhiza-kv-snapshot-v1" ++ [Byte.x00].
Definition SNAPSHOT_WIRE_MAGIC : bytes := lit "RHKS".
Definition SNAPSHOT_WIRE_VERSION : N := 1.
Definition MATERIALIZER_DOMAIN : bytes := lit "rhiza-kv-materializer-v3" ++ [Byte.x00].
Definition COMMAND_VERSION : N := 1.
Definition BATCH_COMMAND_VERSION : N := 3.
Definition BATCH_REQUEST_ID : bytes := lit "__rhiza_kv_batch_v1".

Definition MAX_REQUEST_ID_BYTES : N := 256.
Definition MAX_KV_KEY_BYTES : N := 4 * 1024.
Definition MAX_KV_VALUE_BYTES : N := 256 * 1024.
Definition MAX_REPLICATED_KV_BATCH_MEMBERS : N := 1024.

Definition kv_materializer_fingerprint `{Sha256} : LogHash :=
  digest [MATERIALIZER_DOMAIN; lit "redb=4.1.0"; lit "schema=2;embedded_qlog=qlog_segment_v3";
    COMMAND_MAGIC; be_bytes 2 COMMAND_VERSION; BATCH_COMMAND_MAGIC; be_bytes 2 BATCH_COMMAND_VERSION].

Inductive KvError : Type :=
| Codec (message : string) | InvalidCommand (message : string) | InvalidQuery (message : string)
| InvalidEntry (message : string) | PartialInitialization
| RequestConflict (request_id : bytes) | ResourceExhausted (message : string)
| Database (message : string) | KvIo (message : string) | InvalidSnapshot (message : string)
| KvPanic (message : string).

(** ** The cursor of [Decoder] *)

Definition kv_take (length : N) : reader KvError bytes := λ encoded offset,
  end_ ← ok_or (checked_add offset length) (Codec "length overflow");
  value ← ok_or (slice encoded offset end_) (Codec "truncated encoding");
  Ok (value, end_).
Definition kv_u8 : reader KvError byte := λ encoded offset,
  '(value, offset) ← kv_take 1 encoded offset;
  b ← ok_or (head value) (KvPanic "index out of bounds"); Ok (b, offset).
Definition kv_u16 : reader KvError N := λ encoded offset,
  '(value, offset) ← kv_take 2 encoded offset; Ok (be_value value, offset).
Definition kv_u32 : reader KvError N := λ encoded offset,
  '(value, offset) ← kv_take 4 encoded offset; Ok (be_value value, offset).
Definition kv_u64 : reader KvError N := λ encoded offset,
  '(value, offset) ← kv_take 8 encoded offset; Ok (be_value value, offset).
Definition kv_array_32 : reader KvError LogHash := λ encoded offset,
  '(value, offset) ← kv_take 32 encoded offset;
  h ← ok_or (array32_of value) (KvPanic "hash slice length"); Ok (h, offset).
(** The conversion of a [u32] to [usize] cannot fail on a 64-bit target. *)
Definition length_prefixed_u32 (maximum : N) : reader KvError bytes := λ encoded offset,
  '(length, offset) ← kv_u32 encoded offset;
  _ ← reject_if (maximum <? length)%N (Codec "{name} exceeds {maximum} bytes");
  kv_take length encoded offset.
Definition kv_finish (encoded : bytes) (offset : N) : result KvError () :=
  reject_if (neqb offset (blen encoded)) (Codec "trailing bytes").

(** ** Commands *)

Inductive KvOperationV1 : Type := Put (key value : bytes) | Delete (key : bytes).
#[export] Instance KvOperationV1_eq_dec : EqDecision KvOperationV1.
Proof. solve_decision. Defined.

Record KvCommandV1 : Type := mkKvCommand { kc_request_id : bytes; kc_operation : KvOperationV1 }.
#[export] Instance KvCommandV1_eq_dec : EqDecision KvCommandV1.
Proof. solve_decision. Defined.

Definition op_key (operation : KvOperationV1) : bytes :=
  match operation with Put key _ => key | Delete key => key end.
Definition op_value (operation : KvOperationV1) : option bytes :=
  match operation with Put _ value => Some value | Delete _ => None end.

Definition validate_key (key : bytes) : result KvError () :=
  _ ← reject_if (blen key =? 0)%N (InvalidCommand "key must not be empty");
  reject_if (MAX_KV_KEY_BYTES <? blen key)%N (InvalidCommand "key exceeds {MAX_KV_KEY_BYTES} bytes").

Definition validate (command : KvCommandV1) : result KvError () :=
  _ ← reject_if (blen (kc_request_id command) =? 0)%N (InvalidCommand "request id must not be empty");
  _ ← reject_if (MAX_REQUEST_ID_BYTES <? blen (kc_request_id command))%N
        (InvalidCommand "request id exceeds {MAX_REQUEST_ID_BYTES} bytes");
  _ ← validate_key (op_key (kc_operation command));
  reject_if (match op_value (kc_operation command) with
             | Some value => (MAX_KV_VALUE_BYTES <? blen value)%N
             | None => false
             end) (InvalidCommand "value exceeds {MAX_KV_VALUE_BYTES} bytes").

Definition kv_put (request_id key value : bytes) : result KvError KvCommandV1 :=
  let command := mkKvCommand request_id (Put key value) in
  _ ← validate command; Ok command.
Definition kv_delete (request_id key : bytes) : result KvError KvCommandV1 :=
  let command := mkKvCommand request_id (Delete key) in
  _ ← validate command; Ok command.

Definition encode_operation (operation : KvOperationV1) : bytes :=
  match operation with
  | Put key value =>
      [Byte.x01] ++ be_bytes 4 (blen key) ++ key ++ be_bytes 4 (blen value) ++ value
  | Delete key => [Byte.x02] ++ be_bytes 4 (blen key) ++ key
  end.
(** [None] is the panic of [validate().expect(..)]. *)
Definition command_encode (command : KvCommandV1) : option bytes :=
  if is_ok (validate command) then
    Some (COMMAND_MAGIC ++ be_bytes 2 (blen (kc_request_id command)) ++ kc_request_id command
          ++ encode_operation (kc_operation command))
  else None.

Definition read_operation : reader KvError KvOperationV1 := λ encoded offset,
  '(tag, offset) ← kv_u8 encoded offset;
  match tag with
  | Byte.x01 =>
      '(key, offset) ← length_prefixed_u32 MAX_KV_KEY_BYTES encoded offset;
      '(value, offset) ← length_prefixed_u32 MAX_KV_VALUE_BYTES encoded offset;
      Ok (Put key value, offset)
  | Byte.x02 =>
      '(key, offset) ← length_prefixed_u32 MAX_KV_KEY_BYTES encoded offset;
      Ok (Delete key, offset)
  | _ => Err (Codec "unknown operation tag {tag}")
  end.

Definition command_decode (encoded : bytes) : result KvError KvCommandV1 :=
  '(magic, offset) ← kv_take (blen COMMAND_MAGIC) encoded 0%N;
  _ ← reject_if (neqb magic COMMAND_MAGIC) (Codec "invalid RHKV magic or version");
  '(request_len, offset) ← kv_u16 encoded offset;
  '(request_bytes, offset) ← kv_take request_len encoded offset;
  request_id ← from_utf8 request_bytes (Codec "request id is not UTF-8");
  '(operation, offset) ← read_operation encoded offset;
  _ ← kv_finish encoded offset;
  let command := mkKvCommand request_id operation in
  _ ← validate command; Ok command.

(** ** Replicated commands and batches *)

Definition envelope_error {A} (r : result CommandEnvelopeError A) : result KvError A :=
  map_err (λ _, Codec "{error}") r.
Definition encode_panic : KvError := KvPanic "KvCommandV1 constructors and decode preserve invariants".

Definition encode_in_envelope (version : N) (request_id body : bytes) : result KvError bytes :=
  envelope_error (envelope ← envelope_new Kv version request_id body; envelope_encode envelope).

Definition encode_replicated_kv_command (command : KvCommandV1) : result KvError bytes :=
  _ ← validate command;
  body ← ok_or (command_encode command) encode_panic;
  encode_in_envelope COMMAND_VERSION (kc_request_id command) body.

Definition batch_size_error : KvError :=
  InvalidCommand "replicated KV batch must contain 1..={MAX_REPLICATED_KV_BATCH_MEMBERS} commands".
Definition repeats_id : KvError := InvalidCommand "KV batch repeats request id {:?}".

(** The loop over the commands: the ids seen and the body so far. *)
Definition encode_member (acc : gset bytes * bytes) (command : KvCommandV1) :
    result KvError (gset bytes * bytes) :=
  let '(request_ids, body) := acc in
  _ ← validate command;
  _ ← reject_if (bool_decide (kc_request_id command ∈ request_ids)) repeats_id;
  encoded ← ok_or (command_encode command) encode_panic;
  _ ← reject_if (negb (is_u32 (blen encoded))) (Codec "KV batch member is too large");
  Ok ({[kc_request_id command]} ∪ request_ids, body ++ be_bytes 4 (blen encoded) ++ encoded).

Definition encode_replicated_kv_batch (commands : list KvCommandV1) : result KvError bytes :=
  let count := N.of_nat (length commands) in
  _ ← reject_if ((count =? 0)%N || (MAX_REPLICATED_KV_BATCH_MEMBERS <? count)%N) batch_size_error;
  '(_, body) ← try_fold encode_member (∅, BATCH_COMMAND_MAGIC ++ be_bytes 2 count) commands;
  encode_in_envelope BATCH_COMMAND_VERSION BATCH_REQUEST_ID body.

Definition wrong_profile : KvError := InvalidCommand "expected kv profile, got {}".
Definition unsupported_version : KvError := InvalidCommand "unsupported command version {}".

Definition decode_replicated_kv_command (payload : bytes) : result KvError KvCommandV1 :=
  envelope ← envelope_error (envelope_decode payload);
  _ ← reject_if (neqb (env_profile envelope) Kv) wrong_profile;
  _ ← reject_if (neqb (env_command_version envelope) COMMAND_VERSION) unsupported_version;
  command ← command_decode (env_body envelope);
  _ ← reject_if (neqb (kc_request_id command) (env_request_id envelope))
        (InvalidCommand "envelope and body request ids differ");
  Ok command.

Record DecodedKvCommand : Type := mkDecoded {
  dk_command : KvCommandV1; dk_individual_payload : bytes
}.

(** The loop [for _ in 0..count]. *)
Fixpoint decode_members (count : nat) (body : bytes) (offset : N) (request_ids : gset bytes)
    (commands : list DecodedKvCommand) : result KvError (list DecodedKvCommand * N) :=
  match count with
  | O => Ok (commands, offset)
  | S count =>
      '(length, offset) ← kv_u32 body offset;
      '(encoded, offset) ← kv_take length body offset;
      command ← command_decode encoded;
      canonical ← ok_or (command_encode command) encode_panic;
      _ ← reject_if (neqb canonical encoded) (Codec "noncanonical KV batch member");
      _ ← reject_if (bool_decide (kc_request_id command ∈ request_ids)) repeats_id;
      individual_payload ← encode_replicated_kv_command command;
      decode_members count body offset ({[kc_request_id command]} ∪ request_ids)
        (commands ++ [mkDecoded command individual_payload])
  end.

Definition decode_batch_body (payload body : bytes) : result KvError (list DecodedKvCommand) :=
  '(magic, offset) ← kv_take (blen BATCH_COMMAND_MAGIC) body 0%N;
  _ ← reject_if (neqb magic BATCH_COMMAND_MAGIC) (Codec "invalid KV batch magic or version");
  '(count, offset) ← kv_u16 body offset;
  _ ← reject_if ((count =? 0)%N || (MAX_REPLICATED_KV_BATCH_MEMBERS <? count)%N) batch_size_error;
  '(commands, offset) ← decode_members (N.to_nat count) body offset ∅ [];
  _ ← kv_finish body offset;
  canonical ← encode_replicated_kv_batch (dk_command <$> commands);
  _ ← reject_if (neqb canonical payload) (Codec "noncanonical KV batch command");
  Ok commands.

Definition decode_replicated_kv_commands (payload : bytes) : result KvError (list DecodedKvCommand) :=
  envelope ← envelope_error (envelope_decode payload);
  _ ← reject_if (neqb (env_profile envelope) Kv) wrong_profile;
  if eqb (env_command_version envelope) COMMAND_VERSION then
    command ← decode_replicated_kv_command payload;
    Ok [mkDecoded command payload]
  else if eqb (env_command_version envelope) BATCH_COMMAND_VERSION then
    _ ← reject_if (neqb (env_request_id envelope) BATCH_REQUEST_ID)
          (InvalidCommand "KV batch envelope request id is invalid");
    decode_batch_body payload (env_body envelope)
  else Err unsupported_version.

(** ** Receipts *)

Inductive KvCommandResultV1 : Type := PutResult (replaced : bool) | DeleteResult (existed : bool).
#[export] Instance KvCommandResultV1_eq_dec : EqDecision KvCommandResultV1.
Proof. solve_decision. Defined.

Record KvRequestRecord : Type := mkRecord {
  kr_payload_hash : LogHash; kr_original_log_index : N;
  kr_original_log_hash : LogHash; kr_result : KvCommandResultV1
}.
#[export] Instance KvRequestRecord_eq_dec : EqDecision KvRequestRecord.
Proof. solve_decision. Defined.

Definition u8_of_bool (b : bool) : byte := if b then Byte.x01 else Byte.x00.
Definition encode_result (r : KvCommandResultV1) : bytes :=
  match r with
  | PutResult replaced => [Byte.x01; u8_of_bool replaced]
  | DeleteResult existed => [Byte.x02; u8_of_bool existed]
  end.
Definition record_encode (record : KvRequestRecord) : bytes :=
  RECEIPT_MAGIC ++ as_bytes (kr_payload_hash record) ++ be_bytes 8 (kr_original_log_index record)
  ++ as_bytes (kr_original_log_hash record) ++ encode_result (kr_result record).

Definition read_result : reader KvError KvCommandResultV1 := λ encoded offset,
  '(tag, offset) ← kv_u8 encoded offset;
  '(value, offset) ← kv_u8 encoded offset;
  flag ← match value with
         | Byte.x00 => Ok false
         | Byte.x01 => Ok true
         | _ => Err (Codec "invalid receipt boolean {value}")
         end;
  match tag with
  | Byte.x01 => Ok (PutResult flag, offset)
  | Byte.x02 => Ok (DeleteResult flag, offset)
  | _ => Err (Codec "invalid receipt result tag {value}")
  end.

Definition record_decode (encoded : bytes) : result KvError KvRequestRecord :=
  '(magic, offset) ← kv_take (blen RECEIPT_MAGIC) encoded 0%N;
  _ ← reject_if (neqb magic RECEIPT_MAGIC) (Codec "invalid request receipt magic or version");
  '(payload_hash, offset) ← kv_array_32 encoded offset;
  '(original_log_index, offset) ← kv_u64 encoded offset;
  '(original_log_hash, offset) ← kv_array_32 encoded offset;
  '(result, offset) ← read_result encoded offset;
  _ ← kv_finish encoded offset;
  Ok (mkRecord payload_hash original_log_index original_log_hash result).

(** ** Snapshots *)

Record RedbSnapshot : Type := mkSnapshot {
  rs_cluster_id : bytes; rs_created_by : bytes; rs_epoch : N; rs_config_id : N;
  rs_applied_index : N; rs_applied_hash : LogHash; rs_materializer_fingerprint : LogHash;
  rs_digest : LogHash; rs_db_bytes : bytes
}.
#[export] Instance RedbSnapshot_eq_dec : EqDecision RedbSnapshot.
Proof. solve_decision. Defined.

(** [length_prefixed] and [encode_snapshot_bytes] write the same bytes. *)
Definition kv_length_prefixed (value : bytes) : bytes := be_bytes 8 (blen value) ++ value.
Definition encode_snapshot_bytes (encoded value : bytes) : bytes :=
  encoded ++ be_bytes 8 (blen value) ++ value.

Section snapshots.
Context `{Sha256}.

Definition recompute_digest (s : RedbSnapshot) : LogHash :=
  digest [SNAPSHOT_DOMAIN; kv_length_prefixed (rs_cluster_id s); kv_length_prefixed (rs_created_by s);
    be_bytes 8 (rs_epoch s); be_bytes 8 (rs_config_id s); be_bytes 8 (rs_applied_index s);
    as_bytes (rs_applied_hash s); as_bytes (rs_materializer_fingerprint s);
    be_bytes 8 (blen (rs_db_bytes s)); rs_db_bytes s].

Definition validate_snapshot_envelope (s : RedbSnapshot) : result KvError () :=
  _ ← reject_if ((blen (rs_cluster_id s) =? 0)%N || (blen (rs_created_by s) =? 0)%N)
        (InvalidSnapshot "snapshot identity contains an empty cluster or source node");
  _ ← reject_if (neqb (rs_materializer_fingerprint s) kv_materializer_fingerprint)
        (InvalidSnapshot "materializer fingerprint does not match this binary");
  reject_if (neqb (recompute_digest s) (rs_digest s))
    (InvalidSnapshot "snapshot digest does not match its contents").

Definition snapshot_bytes (s : RedbSnapshot) : bytes :=
  let encoded := SNAPSHOT_WIRE_MAGIC ++ be_bytes 2 SNAPSHOT_WIRE_VERSION in
  let encoded := encode_snapshot_bytes encoded (rs_cluster_id s) in
  let encoded := encode_snapshot_bytes encoded (rs_created_by s) in
  let encoded := encoded ++ be_bytes 8 (rs_epoch s) ++ be_bytes 8 (rs_config_id s)
    ++ be_bytes 8 (rs_applied_index s) ++ as_bytes (rs_applied_hash s)
    ++ as_bytes (rs_materializer_fingerprint s) ++ as_bytes (rs_digest s) in
  encode_snapshot_bytes encoded (rs_db_bytes s).
Definition encode_snapshot (s : RedbSnapshot) : result KvError bytes :=
  _ ← validate_snapshot_envelope s; Ok (snapshot_bytes s).

Definition snap_take (length : N) : reader KvError bytes := λ encoded offset,
  end_ ← ok_or (checked_add offset length) (InvalidSnapshot "snapshot envelope length overflow");
  value ← ok_or (slice encoded offset end_) (InvalidSnapshot "snapshot envelope is truncated");
  Ok (value, end_).
Definition snap_u16 : reader KvError N := λ encoded offset,
  '(value, offset) ← snap_take 2 encoded offset; Ok (be_value value, offset).
Definition snap_u64 : reader KvError N := λ encoded offset,
  '(value, offset) ← snap_take 8 encoded offset; Ok (be_value value, offset).
Definition snap_hash : reader KvError LogHash := λ encoded offset,
  '(value, offset) ← snap_take 32 encoded offset;
  h ← ok_or (array32_of value) (KvPanic "length checked"); Ok (h, offset).
Definition snap_bytes : reader KvError bytes := λ encoded offset,
  '(length, offset) ← snap_u64 encoded offset; snap_take length encoded offset.
Definition snap_string : reader KvError bytes := λ encoded offset,
  '(value, offset) ← snap_bytes encoded offset;
  value ← from_utf8 value (InvalidSnapshot "snapshot identity is not valid UTF-8"); Ok (value, offset).

Definition decode_snapshot (encoded : bytes) : result KvError RedbSnapshot :=
  '(magic, offset) ← snap_take (blen SNAPSHOT_WIRE_MAGIC) encoded 0%N;
  _ ← reject_if (neqb magic SNAPSHOT_WIRE_MAGIC)
        (InvalidSnapshot "snapshot envelope magic does not match RHKS");
  '(version, offset) ← snap_u16 encoded offset;
  _ ← reject_if (neqb version SNAPSHOT_WIRE_VERSION)
        (InvalidSnapshot "unsupported snapshot envelope version {version}");
  '(cluster_id, offset) ← snap_string encoded offset;
  '(created_by, offset) ← snap_string encoded offset;
  '(epoch, offset) ← snap_u64 encoded offset;
  '(config_id, offset) ← snap_u64 encoded offset;
  '(applied_index, offset) ← snap_u64 encoded offset;
  '(applied_hash, offset) ← snap_hash encoded offset;
  '(materializer_fingerprint, offset) ← snap_hash encoded offset;
  '(digest_, offset) ← snap_hash encoded offset;
  '(db_bytes, offset) ← snap_bytes encoded offset;
  let snapshot := mkSnapshot cluster_id created_by epoch config_id applied_index applied_hash
    materializer_fingerprint digest_ db_bytes in
  _ ← reject_if (neqb offset (blen encoded)) (InvalidSnapshot "snapshot envelope has trailing bytes");
  _ ← validate_snapshot_envelope snapshot;
  Ok snapshot.
End snapshots.

(** ** Reading what was written *)

(** Both decoders take a field the same way, up to the errors. *)
Definition take_field {E} (over short : E) (length : N) : reader E bytes := λ l c,
  c' ← ok_or (checked_add c length) over; m ← ok_or (slice l c c') short; Ok (m, c').

Lemma take_field_reads {E} (over short : E) m : reads (take_field over short (blen m)) m m.
Proof.
  intros p s Hl. unfold take_field.
  assert (checked_add (blen p) (blen m) = Some (blen p + blen m)%N) as ->.
  { apply checked_add_Some. rewrite !blen_app in Hl. lia. }
  cbn [ok_or mbind result_bind]. by rewrite slice_app.
Qed.

Lemma take_field_Ok {E} (over short : E) k l c m c' :
  take_field over short k l c = Ok (m, c') → slice l c c' = Some m ∧ blen m = k.
Proof.
  unfold take_field. intros Ht. res_inv. apply checked_add_Some in Hok as [-> _].
  split; [done|]. apply slice_length in Hok0 as [-> _]. lia.
Qed.

(** A reader that takes a field of fixed length and converts it. *)
Lemma reads_converted {E A} (rd : reader E bytes) (conv : bytes → result E A) enc m a :
  reads rd enc m → conv m = Ok a → reads (λ l c, '(v, c) ← rd l c; a ← conv v; Ok (a, c)) enc a.
Proof. intros Hr Hc p s Hl. rewrite Hr by done. cbn. by rewrite Hc. Qed.

Lemma kv_take_reads k m : blen m = k → reads (kv_take k) m m.
Proof. intros <-. apply take_field_reads. Qed.
Lemma kv_take_Ok k l c m c' : kv_take k l c = Ok (m, c') → slice l c c' = Some m ∧ blen m = k.
Proof. apply take_field_Ok. Qed.
Lemma snap_take_reads k m : blen m = k → reads (snap_take k) m m.
Proof. intros <-. apply take_field_reads. Qed.
Lemma snap_take_Ok k l c m c' : snap_take k l c = Ok (m, c') → slice l c c' = Some m ∧ blen m = k.
Proof. apply take_field_Ok. Qed.

Lemma kv_u8_reads b : reads kv_u8 [b] b.
Proof. apply (reads_converted (kv_take 1) (λ v, ok_or (head v) _) [b] [b]); [by apply kv_take_reads|done]. Qed.
Lemma uint_reads (rd : reader KvError bytes) k n :
  reads rd (be_bytes k n) (be_bytes k n) → (n < 256 ^ N.of_nat k)%N →
  reads (λ l c, '(v, c) ← rd l c; Ok (be_value v, c)) (be_bytes k n) n.
Proof. intros Hr Hn p s Hl. rewrite Hr by done. cbn. by rewrite be_value_bytes. Qed.
Lemma kv_u16_reads n : (n < 256 ^ 2)%N → reads kv_u16 (be_bytes 2 n) n.
Proof. intros Hn. apply uint_reads; [apply kv_take_reads, blen_be_bytes|exact Hn]. Qed.
Lemma kv_u32_reads n : (n < 256 ^ 4)%N → reads kv_u32 (be_bytes 4 n) n.
Proof. intros Hn. apply uint_reads; [apply kv_take_reads, blen_be_bytes|exact Hn]. Qed.
Lemma kv_u64_reads n : (n < 256 ^ 8)%N → reads kv_u64 (be_bytes 8 n) n.
Proof. intros Hn. apply uint_reads; [apply kv_take_reads, blen_be_bytes|exact Hn]. Qed.
Lemma kv_array_reads h : reads kv_array_32 (as_bytes h) h.
Proof.
  apply (reads_converted (kv_take 32) (λ v, ok_or (array32_of v) _) _ (as_bytes h)).
  - apply kv_take_reads, blen_as_bytes.
  - by rewrite array32_of_as_bytes.
Qed.
Lemma snap_u16_reads n : (n < 256 ^ 2)%N → reads snap_u16 (be_bytes 2 n) n.
Proof. intros Hn. apply uint_reads; [apply snap_take_reads, blen_be_bytes|exact Hn]. Qed.
Lemma snap_u64_reads n : (n < 256 ^ 8)%N → reads snap_u64 (be_bytes 8 n) n.
Proof. intros Hn. apply uint_reads; [apply snap_take_reads, blen_be_bytes|exact Hn]. Qed.
Lemma snap_hash_reads h : reads snap_hash (as_bytes h) h.
Proof.
  apply (reads_converted (snap_take 32) (λ v, ok_or (array32_of v) _) _ (as_bytes h)).
  - apply snap_take_reads, blen_as_bytes.
  - by rewrite array32_of_as_bytes.
Qed.

Lemma length_prefixed_reads maximum m :
  (blen m ≤ maximum)%N → (maximum < 256 ^ 4)%N →
  reads (length_prefixed_u32 maximum) (be_bytes 4 (blen m) ++ m) m.
Proof.
  intros Hm Hmax. eapply reads_bind; [apply kv_u32_reads; lia|].
  intros p s Hl. destruct (N.ltb_spec maximum (blen m)); [lia|].
  by apply kv_take_reads.
Qed.
Lemma snap_bytes_reads m : (blen m < 256 ^ 8)%N → reads snap_bytes (kv_length_prefixed m) m.
Proof. intros Hm. eapply reads_bind; [by apply snap_u64_reads|]. by apply snap_take_reads. Qed.
Lemma snap_string_reads m :
  (blen m < 256 ^ 8)%N → is_str m = true → reads snap_string (kv_length_prefixed m) m.
Proof.
  intros Hm Hs. apply (reads_converted snap_bytes (λ v, from_utf8 v _) _ m); [by apply snap_bytes_reads|].
  unfold from_utf8. by rewrite Hs.
Qed.

#[export] Hint Resolve kv_u8_reads kv_u16_reads kv_u32_reads kv_u64_reads kv_array_reads
  snap_u16_reads snap_u64_reads snap_hash_reads length_prefixed_reads snap_bytes_reads
  snap_string_reads : codec.

(** *** Commands *)

Lemma validate_key_Ok key u :
  validate_key key = Ok u ↔ (blen key ≠ 0 ∧ blen key ≤ MAX_KV_KEY_BYTES)%N.
Proof.
  destruct u. unfold validate_key, reject_if. destruct (N.eqb_spec (blen key) 0),
    (N.ltb_spec MAX_KV_KEY_BYTES (blen key)); cbn; split; naive_solver lia.
Qed.

(** What [validate] accepts. *)
Definition valid_operation (o : KvOperationV1) : Prop :=
  (blen (op_key o) ≠ 0 ∧ blen (op_key o) ≤ MAX_KV_KEY_BYTES)%N
  ∧ ∀ v, op_value o = Some v → (blen v ≤ MAX_KV_VALUE_BYTES)%N.
Lemma validate_Ok c u :
  validate c = Ok u ↔
  (blen (kc_request_id c) ≠ 0 ∧ blen (kc_request_id c) ≤ MAX_REQUEST_ID_BYTES)%N
  ∧ valid_operation (kc_operation c).
Proof.
  destruct u. unfold validate, valid_operation. split.
  - intros Hv. res_inv. apply validate_key_Ok in Hok1. bool_prop. split_and!; try (lia || done).
    + intros v Ho. rewrite Ho in Hv. by apply N.ltb_ge in Hv.
  - intros [[Hr0 Hr] [Hk Hv]].
    destruct (N.eqb_spec (blen (kc_request_id c)) 0); [done|].
    destruct (N.ltb_spec MAX_REQUEST_ID_BYTES (blen (kc_request_id c))); [lia|].
    cbn [reject_if mbind result_bind]. rewrite (proj2 (validate_key_Ok _ ()) Hk). cbn [mbind result_bind].
    destruct (op_value _) as [v|]; [|done].
    destruct (N.ltb_spec MAX_KV_VALUE_BYTES (blen v)) as [Hlt|]; [|done].
    specialize (Hv v eq_refl). lia.
Qed.

Lemma command_encode_Some c l :
  command_encode c = Some l ↔
  validate c = Ok () ∧ l = COMMAND_MAGIC ++ be_bytes 2 (blen (kc_request_id c)) ++ kc_request_id c
    ++ encode_operation (kc_operation c).
Proof. unfold command_encode. destruct (validate c) as [[]|e]; cbn; naive_solver. Qed.

Lemma operation_reads o : valid_operation o → reads read_operation (encode_operation o) o.
Proof.
  intros [[_ Hk] Hv]. assert (MAX_KV_KEY_BYTES < 256 ^ 4 ∧ MAX_KV_VALUE_BYTES < 256 ^ 4)%N as [Hkm Hvm] by done.
  unfold read_operation. destruct o as [key value|key]; cbn [encode_operation op_key op_value] in *.
  - eapply (reads_bind kv_u8); [apply kv_u8_reads|]. cbn beta iota. rewrite app_assoc.
    rewrite <-(app_nil_r (_ ++ be_bytes 4 (blen value) ++ value)), <-app_assoc.
    eapply reads_bind; [by apply length_prefixed_reads|]. cbn beta.
    eapply reads_bind; [by apply length_prefixed_reads; [apply Hv|]|]. apply reads_ret.
  - eapply (reads_bind kv_u8); [apply kv_u8_reads|]. cbn beta iota.
    rewrite <-(app_nil_r (_ ++ key)).
    eapply reads_bind; [by apply length_prefixed_reads|]. apply reads_ret.
Qed.
#[export] Hint Resolve operation_reads : codec.

(** The bytes of a command, and their length: at most 266,513. *)
Definition command_bytes (c : KvCommandV1) : bytes :=
  COMMAND_MAGIC ++ be_bytes 2 (blen (kc_request_id c)) ++ kc_request_id c
  ++ encode_operation (kc_operation c).
Definition MAX_COMMAND_BYTES : N := 6 + 2 + MAX_REQUEST_ID_BYTES + 1 + 4 + MAX_KV_KEY_BYTES + 4 + MAX_KV_VALUE_BYTES.

Lemma command_bytes_length c : validate c = Ok () → (blen (command_bytes c) ≤ MAX_COMMAND_BYTES)%N.
Proof.
  intros [[_ Hr] [[_ Hk] Hv]]%validate_Ok. unfold command_bytes, MAX_COMMAND_BYTES. autorewrite with blen.
  change (blen COMMAND_MAGIC) with 6%N.
  destruct (kc_operation c) as [key value|key]; cbn [encode_operation op_key op_value] in *;
    autorewrite with blen; [specialize (Hv value eq_refl)|]; lia.
Qed.

Lemma command_decode_bytes c :
  validate c = Ok () → is_str (kc_request_id c) = true → command_decode (command_bytes c) = Ok c.
Proof.
  intros Hv Hs. pose proof (command_bytes_length c Hv) as Hl. pose proof Hv as [[_ Hr] Ho]%validate_Ok.
  assert (blen (command_bytes c) ≤ u64_max)%N as Hu by (eapply N.le_trans; [exact Hl|done]). clear Hl.
  pose proof (at_pos_zero (command_bytes c)) as Hat. unfold command_bytes in Hat at 2.
  assert (reads (kv_take (blen COMMAND_MAGIC)) COMMAND_MAGIC COMMAND_MAGIC) by by apply kv_take_reads.
  unfold command_decode. read_next. rewrite neqb_refl. cbn [reject_if mbind result_bind].
  assert (reads kv_u16 (be_bytes 2 (blen (kc_request_id c))) (blen (kc_request_id c))).
  { apply kv_u16_reads. eapply N.le_lt_trans; [exact Hr|done]. }
  read_next. cbn [mbind result_bind].
  assert (reads (kv_take (blen (kc_request_id c))) (kc_request_id c) (kc_request_id c)) by by apply kv_take_reads.
  read_next. unfold from_utf8. rewrite Hs. cbn [mbind result_bind].
  rewrite <-(app_nil_r (encode_operation _)) in Hat. read_next.
  apply at_pos_end in Hat as ->. unfold kv_finish. rewrite neqb_refl. cbn [reject_if mbind result_bind].
  destruct c as [r o]; cbn [kc_request_id kc_operation] in *. by rewrite Hv.
Qed.

Lemma command_decode_encode c l :
  is_str (kc_request_id c) = true → command_encode c = Some l → command_decode l = Ok c.
Proof. intros Hs [Hv ->]%command_encode_Some. by apply command_decode_bytes. Qed.

(** *** What a decoder has accepted *)

Lemma kv_u8_Ok l c b c' : kv_u8 l c = Ok (b, c') → slice l c c' = Some [b].
Proof.
  unfold kv_u8. intros Hr. res_inv. apply kv_take_Ok in Hok as [Hs Hl].
  destruct l0 as [|x [|y l0]]; [done| |unfold blen in Hl; cbn in Hl; lia]. by injection Hok0 as ->.
Qed.
Lemma uint_Ok (rd : reader KvError bytes) k :
  (∀ l c m c', rd l c = Ok (m, c') → slice l c c' = Some m ∧ blen m = N.of_nat k) →
  ∀ l c n c', ('(v, c) ← rd l c; Ok (be_value v, c)) = Ok (n, c') →
    slice l c c' = Some (be_bytes k n) ∧ (n < 256 ^ N.of_nat k)%N.
Proof.
  intros Hrd l c n c' Hr. res_inv. apply Hrd in Hok as [Hs Hl].
  assert (length l0 = k) as <- by (unfold blen in Hl; lia). rewrite be_bytes_value. split; [done|].
  apply be_value_bound.
Qed.
Lemma kv_u16_Ok l c n c' : kv_u16 l c = Ok (n, c') → slice l c c' = Some (be_bytes 2 n) ∧ (n < 256 ^ 2)%N.
Proof. apply (uint_Ok (kv_take 2) 2). apply kv_take_Ok. Qed.
Lemma kv_u32_Ok l c n c' : kv_u32 l c = Ok (n, c') → slice l c c' = Some (be_bytes 4 n) ∧ (n < 256 ^ 4)%N.
Proof. apply (uint_Ok (kv_take 4) 4). apply kv_take_Ok. Qed.
Lemma kv_u64_Ok l c n c' : kv_u64 l c = Ok (n, c') → slice l c c' = Some (be_bytes 8 n) ∧ (n < 256 ^ 8)%N.
Proof. apply (uint_Ok (kv_take 8) 8). apply kv_take_Ok. Qed.
Lemma snap_u16_Ok l c n c' : snap_u16 l c = Ok (n, c') → slice l c c' = Some (be_bytes 2 n) ∧ (n < 256 ^ 2)%N.
Proof. apply (uint_Ok (snap_take 2) 2). apply snap_take_Ok. Qed.
Lemma snap_u64_Ok l c n c' : snap_u64 l c = Ok (n, c') → slice l c c' = Some (be_bytes 8 n) ∧ (n < 256 ^ 8)%N.
Proof. apply (uint_Ok (snap_take 8) 8). apply snap_take_Ok. Qed.
Lemma kv_array_Ok l c h c' : kv_array_32 l c = Ok (h, c') → slice l c c' = Some (as_bytes h).
Proof. unfold kv_array_32. intros Hr. res_inv. apply array32_of_Some in Hok0 as <-. by apply kv_take_Ok in Hok as [? _]. Qed.
Lemma snap_hash_Ok l c h c' : snap_hash l c = Ok (h, c') → slice l c c' = Some (as_bytes h).
Proof. unfold snap_hash. intros Hr. res_inv. apply array32_of_Some in Hok0 as <-. by apply snap_take_Ok in Hok as [? _]. Qed.
Lemma length_prefixed_Ok maximum l c m c' :
  length_prefixed_u32 maximum l c = Ok (m, c') → slice l c c' = Some (be_bytes 4 (blen m) ++ m).
Proof.
  unfold length_prefixed_u32. intros Hr. res_inv. apply kv_u32_Ok in Hok as [Hs _].
  apply kv_take_Ok in Hr as [Hm <-]. by eapply slice_snoc_parts.
Qed.
Lemma snap_bytes_Ok l c m c' : snap_bytes l c = Ok (m, c') → slice l c c' = Some (kv_length_prefixed m).
Proof.
  unfold snap_bytes. intros Hr. res_inv. apply snap_u64_Ok in Hok as [Hs _].
  apply snap_take_Ok in Hr as [Hm <-]. by eapply slice_snoc_parts.
Qed.
Lemma snap_string_Ok l c m c' :
  snap_string l c = Ok (m, c') → slice l c c' = Some (kv_length_prefixed m) ∧ is_str m = true.
Proof.
  unfold snap_string. intros Hr. res_inv. apply from_utf8_Ok in Hok0 as [-> Hs].
  by apply snap_bytes_Ok in Hok.
Qed.
Lemma read_operation_Ok l c o c' : read_operation l c = Ok (o, c') → slice l c c' = Some (encode_operation o).
Proof.
  unfold read_operation. intros Hr. res_inv. apply kv_u8_Ok in Hok.
  destruct b; try discriminate Hr; res_inv; repeat match goal with
    H : length_prefixed_u32 _ _ _ = _ |- _ => apply length_prefixed_Ok in H end; cbn [encode_operation].
  - rewrite (app_assoc (be_bytes 4 _) _ (be_bytes 4 _ ++ _)). eauto using slice_snoc_parts.
  - eauto using slice_snoc_parts.
Qed.

(** Decoding is canonical: the bytes that [decode] accepts are those that
    [encode] gives for the decoded command. *)
Lemma command_decode_canonical l c :
  command_decode l = Ok c → command_encode c = Some l ∧ is_str (kc_request_id c) = true.
Proof.
  unfold command_decode. intros Hd. res_inv. unfold kv_finish in *. res_inv. bool_prop. subst.
  apply from_utf8_Ok in Hok3 as [-> Hs]. split; [|done]. apply command_encode_Some. split; [done|].
  cbn [kc_request_id kc_operation]. apply slice_whole.
  apply kv_take_Ok in Hok as [Hm _]. apply kv_u16_Ok in Hok1 as [Hn _]. apply kv_take_Ok in Hok2 as [Hr <-].
  apply read_operation_Ok in Hok4. eauto using slice_snoc_parts.
Qed.

(** *** Replicated commands *)

Lemma encode_in_envelope_reads v id body :
  (v ≠ 0)%N → (v < 256 ^ 2)%N → (blen id ≠ 0)%N → (blen id ≤ u16_max)%N → (blen body ≤ u32_max)%N →
  is_str id = true →
  ∃ p, encode_in_envelope v id body = Ok p ∧ envelope_decode p = Ok (mkEnvelope Kv v id body).
Proof.
  intros Hv0 Hv Hi0 Hi Hb Hs.
  assert (validate_command_envelope_fields v id body = Ok ()) as Hf by by apply validate_fields_Ok.
  eexists. split.
  - unfold encode_in_envelope, envelope_new. rewrite Hf. cbn [mbind result_bind].
    by rewrite (encode_valid Kv v id body () Hf).
  - unfold u16_max, u32_max in *. rewrite decode_layout by (done || lia). unfold envelope_new. by rewrite Hf.
Qed.

Lemma encode_in_envelope_canonical p v id body :
  envelope_decode p = Ok (mkEnvelope Kv v id body) → encode_in_envelope v id body = Ok p.
Proof.
  intros [He _]%envelope_decode_canonical.
  assert (validate_command_envelope_fields v id body = Ok ()) as Hf.
  { pose proof He as Hv. unfold envelope_encode in Hv. res_inv. done. }
  unfold encode_in_envelope, envelope_new. rewrite Hf. cbn [mbind result_bind]. by rewrite He.
Qed.

Definition str_id (c : KvCommandV1) : Prop := is_str (kc_request_id c) = true.
Definition good_command (c : KvCommandV1) : Prop := validate c = Ok () ∧ str_id c.

Lemma good_encode c : good_command c → command_encode c = Some (command_bytes c).
Proof. intros [Hv _]. by apply command_encode_Some. Qed.
Lemma good_bytes_u32 c : good_command c → (blen (command_bytes c) < 256 ^ 4)%N.
Proof. intros [Hv _]. eapply N.le_lt_trans; [by apply command_bytes_length|done]. Qed.

(** A command that its constructors accept goes through the replicated form. *)
Lemma replicated_command_reads c :
  good_command c →
  ∃ p, encode_replicated_kv_command c = Ok p ∧ decode_replicated_kv_command p = Ok c
    ∧ decode_replicated_kv_commands p = Ok [mkDecoded c p].
Proof.
  intros Hc. pose proof Hc as [Hv Hs]. pose proof Hv as [[Hr0 Hr] _]%validate_Ok.
  pose proof (good_bytes_u32 c Hc) as Hb.
  destruct (encode_in_envelope_reads COMMAND_VERSION (kc_request_id c) (command_bytes c)) as (p & He & Hd);
    [done|done|done|by eapply N.le_trans; [exact Hr|]|unfold u32_max; lia|done|].
  exists p. assert (decode_replicated_kv_command p = Ok c) as Hdec.
  { unfold decode_replicated_kv_command. rewrite Hd. cbn [envelope_error map_err mbind result_bind].
    unfold neqb. rewrite !eqb_refl. cbn [negb reject_if mbind result_bind env_body env_request_id].
    rewrite command_decode_bytes by done. cbn [mbind result_bind]. by rewrite eqb_refl. }
  split_and!; [|done|].
  - unfold encode_replicated_kv_command. rewrite Hv, good_encode by done. done.
  - unfold decode_replicated_kv_commands. rewrite Hd. cbn [envelope_error map_err mbind result_bind].
    rewrite neqb_refl, eqb_refl. cbn [reject_if mbind result_bind]. by rewrite Hdec.
Qed.

Lemma decode_replicated_command_Ok p c :
  decode_replicated_kv_command p = Ok c → good_command c ∧ encode_replicated_kv_command c = Ok p.
Proof.
  unfold decode_replicated_kv_command, envelope_error. intros Hd. res_inv. bool_prop.
  destruct v as [prof ver id body]; cbn [env_profile env_command_version env_body env_request_id] in *. subst.
  apply command_decode_canonical in Hok2 as [He Hs]. pose proof He as [Hv _]%command_encode_Some.
  split; [by split|]. unfold encode_replicated_kv_command. rewrite Hv, He. cbn [ok_or mbind result_bind].
  by apply encode_in_envelope_canonical.
Qed.

(** *** Batches *)

Definition member_bytes (c : KvCommandV1) : bytes := be_bytes 4 (blen (command_bytes c)) ++ command_bytes c.

Lemma is_u32_ok n : (n < 256 ^ 4)%N → is_u32 n = true.
Proof. intros Hn. unfold is_u32. rewrite N.leb_le. unfold u32_max. lia. Qed.
Lemma encode_member_ok ids body c :
  good_command c → kc_request_id c ∉ ids →
  encode_member (ids, body) c = Ok ({[kc_request_id c]} ∪ ids, body ++ member_bytes c).
Proof.
  intros Hc Hni. pose proof (is_u32_ok _ (good_bytes_u32 c Hc)) as Hu.
  pose proof (proj1 Hc) as Hv. pose proof (good_encode c Hc) as He. clear Hc.
  unfold encode_member, member_bytes. revert Hu He. generalize (command_bytes c). intros l Hu He.
  rewrite Hv, He. cbn [ok_or mbind result_bind].
  rewrite bool_decide_false, Hu by done. cbn [negb reject_if mbind result_bind]. reflexivity.
Qed.

Lemma encode_members_ok cs ids body :
  Forall good_command cs → NoDup (kc_request_id <$> cs) →
  (∀ c, c ∈ cs → kc_request_id c ∉ ids) →
  ∃ ids', try_fold encode_member (ids, body) cs = Ok (ids', body ++ concat (member_bytes <$> cs)).
Proof.
  revert ids body; induction cs as [|c cs IH]; intros ids body Hg Hnd Hids; cbn [try_fold fmap list_fmap concat].
  - exists ids. by rewrite app_nil_r.
  - inversion Hg as [|? ? Hc Hcs]; subst. cbn in Hnd. apply NoDup_cons in Hnd as [Hni Hnd].
    rewrite encode_member_ok by (done || apply Hids; set_solver). cbn [mbind result_bind].
    destruct (IH ({[kc_request_id c]} ∪ ids) (body ++ member_bytes c)) as [ids' Hf]; [done|done| |].
    { intros d Hd [Heq%elem_of_singleton|Hin]%elem_of_union.
      - apply Hni. rewrite <-Heq. apply list_elem_of_fmap. eauto.
      - by apply (Hids d); [set_solver|]. }
    exists ids'. by rewrite <-app_assoc in Hf.
Qed.

Definition decoded_ok (d : DecodedKvCommand) : Prop :=
  good_command (dk_command d) ∧ encode_replicated_kv_command (dk_command d) = Ok (dk_individual_payload d).

Lemma decode_members_ok cs body c ids acc :
  Forall good_command cs → NoDup (kc_request_id <$> cs) →
  (∀ c, c ∈ cs → kc_request_id c ∉ ids) → (blen body ≤ u64_max)%N →
  at_pos body c (concat (member_bytes <$> cs)) →
  ∃ ds, decode_members (length cs) body c ids acc = Ok (acc ++ ds, blen body)
    ∧ dk_command <$> ds = cs ∧ Forall decoded_ok ds.
Proof.
  revert c ids acc; induction cs as [|x cs IH]; intros c ids acc Hg Hnd Hids Hb Hat;
    cbn [length fmap list_fmap concat decode_members] in *.
  - exists []. apply at_pos_end in Hat as ->. by rewrite app_nil_r.
  - inversion Hg as [|? ? Hx Hcs]; subst. apply NoDup_cons in Hnd as [Hni Hnd].
    unfold member_bytes at 1 in Hat. rewrite <-app_assoc in Hat. pose proof (good_bytes_u32 x Hx) as Hxb.
    destruct (replicated_command_reads x Hx) as (p & Hp & _).
    destruct (IH (c + 4 + blen (command_bytes x))%N ({[kc_request_id x]} ∪ ids) (acc ++ [mkDecoded x p]))
      as (ds & Hds & Hcmd & Hok); [done|done| |done| |].
    { intros d Hd [Heq%elem_of_singleton|Hin]%elem_of_union.
      - apply Hni. rewrite <-Heq. apply list_elem_of_fmap. eauto.
      - by apply (Hids d); [set_solver|]. }
    { do 2 apply at_pos_step in Hat. by rewrite blen_be_bytes in Hat. }
    exists (mkDecoded x p :: ds). rewrite <-app_assoc in Hds. split_and!; [|by cbn; rewrite Hcmd|by constructor].
    pose proof (kv_u32_reads _ Hxb). read_next.
    assert (reads (kv_take (blen (command_bytes x))) (command_bytes x) (command_bytes x)) by by apply kv_take_reads.
    read_next. rewrite command_decode_bytes by apply Hx. cbn [mbind result_bind].
    rewrite good_encode by done. cbn [ok_or mbind result_bind]. rewrite neqb_refl. cbn [reject_if mbind result_bind].
    rewrite bool_decide_false by (apply Hids; set_solver). cbn [reject_if mbind result_bind].
    rewrite Hp. cbn [mbind result_bind]. rewrite blen_be_bytes. exact Hds.
Qed.

Lemma members_length cs :
  Forall good_command cs →
  (blen (concat (member_bytes <$> cs)) ≤ N.of_nat (length cs) * (4 + MAX_COMMAND_BYTES))%N.
Proof.
  induction 1 as [|c cs [Hv _] _ IH]; cbn [fmap list_fmap concat length]; [done|].
  apply command_bytes_length in Hv. unfold member_bytes at 1. autorewrite with blen. lia.
Qed.

Definition batch_body (cs : list KvCommandV1) : bytes :=
  (BATCH_COMMAND_MAGIC ++ be_bytes 2 (N.of_nat (length cs))) ++ concat (member_bytes <$> cs).

(** What a batch may hold: between one and 1,024 commands that their constructors
    accept, with distinct request ids. *)
Definition good_batch (cs : list KvCommandV1) : Prop :=
  1 ≤ length cs ∧ (N.of_nat (length cs) ≤ MAX_REPLICATED_KV_BATCH_MEMBERS)%N
  ∧ Forall good_command cs ∧ NoDup (kc_request_id <$> cs).

Lemma batch_body_u32 cs : good_batch cs → (blen (batch_body cs) ≤ u32_max)%N.
Proof.
  intros (_ & Hl & Hg & _). apply members_length in Hg. unfold batch_body. rewrite !blen_app, blen_be_bytes.
  change (blen BATCH_COMMAND_MAGIC) with 6%N. unfold MAX_REPLICATED_KV_BATCH_MEMBERS in Hl.
  change (4 + MAX_COMMAND_BYTES)%N with 266517%N in Hg. unfold u32_max. lia.
Qed.

Lemma encode_batch_ok cs :
  good_batch cs →
  encode_replicated_kv_batch cs = encode_in_envelope BATCH_COMMAND_VERSION BATCH_REQUEST_ID (batch_body cs).
Proof.
  intros (H1 & Hl & Hg & Hnd). unfold encode_replicated_kv_batch.
  destruct (N.eqb_spec (N.of_nat (length cs)) 0); [lia|].
  destruct (N.ltb_spec MAX_REPLICATED_KV_BATCH_MEMBERS (N.of_nat (length cs))); [lia|].
  cbn [orb reject_if mbind result_bind].
  destruct (encode_members_ok cs ∅ (BATCH_COMMAND_MAGIC ++ be_bytes 2 (N.of_nat (length cs)))) as [ids ->];
    [done|done|set_solver|]. done.
Qed.

Lemma decode_batch_ok cs payload :
  good_batch cs → encode_replicated_kv_batch cs = Ok payload →
  ∃ ds, decode_batch_body payload (batch_body cs) = Ok ds ∧ dk_command <$> ds = cs ∧ Forall decoded_ok ds.
Proof.
  intros Hb He. pose proof (batch_body_u32 cs Hb) as Hu. destruct Hb as (H1 & Hl & Hg & Hnd).
  assert (blen (batch_body cs) ≤ u64_max)%N as Hu64 by (unfold u32_max, u64_max in *; lia).
  pose proof (at_pos_zero (batch_body cs)) as Hat. unfold batch_body in Hat at 2. rewrite <-app_assoc in Hat.
  assert (reads (kv_take (blen BATCH_COMMAND_MAGIC)) BATCH_COMMAND_MAGIC BATCH_COMMAND_MAGIC)
    by by apply kv_take_reads.
  assert (reads kv_u16 (be_bytes 2 (N.of_nat (length cs))) (N.of_nat (length cs))).
  { apply kv_u16_reads. unfold MAX_REPLICATED_KV_BATCH_MEMBERS in Hl. lia. }
  destruct (decode_members_ok cs (batch_body cs) (0 + blen BATCH_COMMAND_MAGIC + blen (be_bytes 2 (N.of_nat (length cs)))) ∅ [])
    as (ds & Hds & Hcmd & Hok); [done|done|set_solver|done|by do 2 apply at_pos_step in Hat|].
  exists ds. split_and!; [|done|done]. unfold decode_batch_body. read_next. rewrite neqb_refl.
  cbn [reject_if mbind result_bind]. read_next.
  destruct (N.eqb_spec (N.of_nat (length cs)) 0); [lia|].
  destruct (N.ltb_spec MAX_REPLICATED_KV_BATCH_MEMBERS (N.of_nat (length cs))); [lia|].
  cbn [orb reject_if mbind result_bind]. rewrite Nat2N.id, Hds. cbn [app mbind result_bind].
  unfold kv_finish. rewrite neqb_refl. cbn [reject_if mbind result_bind].
  rewrite Hcmd, He. cbn [mbind result_bind]. by rewrite neqb_refl.
Qed.

(** A batch survives replication: every list of one to 1,024 accepted commands
    with distinct request ids is encoded (the size limits of the envelope are
    never reached), and the decoder gives back the same commands in the same
    order, each with the payload it would have had on its own. *)
Theorem kv_batch_roundtrip (cs : list KvCommandV1) :
  good_batch cs →
  ∃ payload ds, encode_replicated_kv_batch cs = Ok payload
    ∧ decode_replicated_kv_commands payload = Ok ds
    ∧ dk_command <$> ds = cs ∧ Forall decoded_ok ds.
Proof.
  intros Hb. pose proof (batch_body_u32 cs Hb) as Hu.
  destruct (encode_in_envelope_reads BATCH_COMMAND_VERSION BATCH_REQUEST_ID (batch_body cs)) as (p & He & Hd);
    [done..|]. rewrite <-encode_batch_ok in He by done.
  destruct (decode_batch_ok cs p Hb He) as (ds & Hds & Hcmd & Hok).
  exists p, ds. split_and!; [done| |done|done].
  unfold decode_replicated_kv_commands. rewrite Hd. cbn [envelope_error map_err mbind result_bind].
  unfold neqb. rewrite !eqb_refl. exact Hds.
Qed.

Lemma decode_members_Ok count body c ids acc ds c' :
  decode_members count body c ids acc = Ok (ds, c') →
  ∃ new, ds = acc ++ new ∧ length new = count ∧ Forall decoded_ok new
    ∧ NoDup ((kc_request_id ∘ dk_command) <$> new)
    ∧ ∀ d, d ∈ new → kc_request_id (dk_command d) ∉ ids.
Proof.
  revert c ids acc; induction count as [|count IH]; intros c ids acc Hd; cbn [decode_members] in Hd.
  - injection Hd as <- <-. exists []. rewrite app_nil_r. split_and!; [done|done|constructor|constructor|].
    intros d Hd. inversion Hd.
  - apply bind_Ok_inv in Hd as ([len c1] & _ & Hd). apply bind_Ok_inv in Hd as ([enc c2] & _ & Hd).
    apply bind_Ok_inv in Hd as (cmd & Hcmd & Hd). apply bind_Ok_inv in Hd as (can & _ & Hd).
    apply bind_Ok_inv in Hd as ([] & _ & Hd). apply bind_Ok_inv in Hd as ([] & Hnew & Hd).
    apply bind_Ok_inv in Hd as (p & Hp & Hd).
    apply reject_if_Ok, bool_decide_eq_false in Hnew.
    apply IH in Hd as (new & -> & Hlen & Hok & Hnd & Hni).
    apply command_decode_canonical in Hcmd as [[Hv _]%command_encode_Some Hs].
    exists (mkDecoded cmd p :: new). rewrite <-app_assoc. split_and!; [done|cbn; lia| | |].
    + constructor; [|done]. by split; [split|].
    + cbn. apply NoDup_cons. split; [|done]. intros (d & Heq & Hin)%list_elem_of_fmap.
      apply (Hni d Hin). cbn in Heq. rewrite <-Heq. set_solver.
    + intros d [-> |Hin]%elem_of_cons; [done|]. specialize (Hni d Hin). set_solver.
Qed.

(** What every payload that [decode_replicated_kv_commands] accepts decodes to. *)
Lemma decode_commands_Ok payload ds :
  decode_replicated_kv_commands payload = Ok ds →
  ds ≠ [] ∧ Forall decoded_ok ds ∧ NoDup ((kc_request_id ∘ dk_command) <$> ds)
  ∧ ((∃ c, ds = [mkDecoded c payload]) ∨ encode_replicated_kv_batch (dk_command <$> ds) = Ok payload).
Proof.
  unfold decode_replicated_kv_commands. intros Hd.
  apply bind_Ok_inv in Hd as (env & _ & Hd). apply bind_Ok_inv in Hd as ([] & _ & Hd).
  destruct (eqb _ COMMAND_VERSION).
  - apply bind_Ok_inv in Hd as (c & [Hc He]%decode_replicated_command_Ok & Hd). injection Hd as <-.
    split_and!; [done|constructor; [done|constructor]|cbn; apply NoDup_singleton|left; by eexists].
  - destruct (eqb _ BATCH_COMMAND_VERSION); [|done]. apply bind_Ok_inv in Hd as ([] & _ & Hd).
    unfold decode_batch_body in Hd. apply bind_Ok_inv in Hd as ([m c1] & _ & Hd).
    apply bind_Ok_inv in Hd as ([] & _ & Hd). apply bind_Ok_inv in Hd as ([n c2] & _ & Hd).
    apply bind_Ok_inv in Hd as ([] & Hn & Hd). apply bind_Ok_inv in Hd as ([cs c3] & Hcs & Hd).
    apply bind_Ok_inv in Hd as ([] & _ & Hd). apply bind_Ok_inv in Hd as (can & He & Hd).
    apply bind_Ok_inv in Hd as ([] & Heq & Hd). injection Hd as <-.
    apply decode_members_Ok in Hcs as (new & -> & Hlen & Hok & Hnd & _). cbn [app] in *.
    apply reject_if_Ok in Hn, Heq. apply neqb_false in Heq as ->. apply orb_false_iff in Hn as [Hn _].
    apply N.eqb_neq in Hn. split_and!; [|done|done|by right]. intros ->. cbn in Hlen. lia.
Qed.

(** *** Receipts *)

Lemma read_result_reads r : reads read_result (encode_result r) r.
Proof.
  destruct r as [b|b]; (eapply (reads_bind kv_u8 _ [_] [_]); [apply kv_u8_reads|]);
    (eapply (reads_bind kv_u8 _ [_] []); [apply kv_u8_reads|]); destruct b; apply reads_ret.
Qed.

Lemma record_decode_encode r : is_u64 (kr_original_log_index r) = true → record_decode (record_encode r) = Ok r.
Proof.
  intros Hi. apply is_u64_bound in Hi.
  assert (blen (record_encode r) ≤ u64_max)%N as Hu.
  { unfold record_encode. autorewrite with blen. change (blen RECEIPT_MAGIC) with 6%N.
    assert (blen (encode_result (kr_result r)) = 2%N) as -> by (by destruct (kr_result r)). done. }
  pose proof (at_pos_zero (record_encode r)) as Hat. unfold record_encode in Hat at 2.
  assert (reads (kv_take (blen RECEIPT_MAGIC)) RECEIPT_MAGIC RECEIPT_MAGIC) by by apply kv_take_reads.
  pose proof (kv_u64_reads _ Hi). pose proof (read_result_reads (kr_result r)).
  unfold record_decode. read_next. rewrite neqb_refl. cbn [reject_if mbind result_bind].
  do 3 read_next. rewrite <-(app_nil_r (encode_result _)) in Hat. read_next.
  apply at_pos_end in Hat as ->. unfold kv_finish. rewrite neqb_refl. by destruct r.
Qed.

(** *** Snapshots *)

Section snapshot_codec.
Context `{Sha256}.

(** The fields of a snapshot as their Rust types hold them. *)
Definition snapshot_typed (s : RedbSnapshot) : bool :=
  is_str (rs_cluster_id s) && is_str (rs_created_by s) && is_u64 (blen (rs_cluster_id s))
  && is_u64 (blen (rs_created_by s)) && is_u64 (rs_epoch s) && is_u64 (rs_config_id s)
  && is_u64 (rs_applied_index s) && is_u64 (blen (rs_db_bytes s)).

Lemma snapshot_bytes_layout s :
  snapshot_bytes s = SNAPSHOT_WIRE_MAGIC ++ be_bytes 2 SNAPSHOT_WIRE_VERSION
    ++ kv_length_prefixed (rs_cluster_id s) ++ kv_length_prefixed (rs_created_by s)
    ++ be_bytes 8 (rs_epoch s) ++ be_bytes 8 (rs_config_id s) ++ be_bytes 8 (rs_applied_index s)
    ++ as_bytes (rs_applied_hash s) ++ as_bytes (rs_materializer_fingerprint s) ++ as_bytes (rs_digest s)
    ++ kv_length_prefixed (rs_db_bytes s).
Proof. unfold snapshot_bytes, encode_snapshot_bytes, kv_length_prefixed. by rewrite <-!app_assoc. Qed.

Lemma decode_snapshot_bytes s :
  snapshot_typed s = true → validate_snapshot_envelope s = Ok () →
  (blen (snapshot_bytes s) ≤ u64_max)%N → decode_snapshot (snapshot_bytes s) = Ok s.
Proof.
  intros Ht Hv Hu. unfold snapshot_typed in Ht. rewrite !andb_true_iff, !is_u64_bound in Ht.
  destruct Ht as [[[[[[[Hs1 Hs2] Hl1] Hl2] He] Hc] Hi] Hd].
  pose proof (at_pos_zero (snapshot_bytes s)) as Hat. rewrite snapshot_bytes_layout in Hat at 2.
  assert (reads (snap_take (blen SNAPSHOT_WIRE_MAGIC)) SNAPSHOT_WIRE_MAGIC SNAPSHOT_WIRE_MAGIC)
    by by apply snap_take_reads.
  assert (reads snap_u16 (be_bytes 2 SNAPSHOT_WIRE_VERSION) SNAPSHOT_WIRE_VERSION) by by apply snap_u16_reads.
  pose proof (snap_string_reads _ Hl1 Hs1). pose proof (snap_string_reads _ Hl2 Hs2).
  pose proof (snap_u64_reads _ He). pose proof (snap_u64_reads _ Hc). pose proof (snap_u64_reads _ Hi).
  pose proof (snap_bytes_reads _ Hd).
  unfold decode_snapshot. read_next. rewrite neqb_refl. cbn [reject_if mbind result_bind].
  read_next. rewrite neqb_refl. cbn [reject_if mbind result_bind]. do 8 read_next.
  rewrite <-(app_nil_r (kv_length_prefixed (rs_db_bytes s))) in Hat. read_next.
  apply at_pos_end in Hat as ->. rewrite neqb_refl. cbn [reject_if mbind result_bind].
  destruct s; cbn [rs_cluster_id rs_created_by rs_epoch rs_config_id rs_applied_index rs_applied_hash
    rs_materializer_fingerprint rs_digest rs_db_bytes] in *. by rewrite Hv.
Qed.

(** Snapshot objects are canonical: an archive object decodes to a snapshot if
    and only if it is the object that [encode_snapshot] writes for that snapshot,
    so a snapshot has exactly one accepted byte form. *)
Theorem snapshot_codec_canonical (s : RedbSnapshot) (l : bytes) :
  (blen l ≤ u64_max)%N →
  decode_snapshot l = Ok s ↔ snapshot_typed s = true ∧ encode_snapshot s = Ok l.
Proof.
  intros Hu. split.
  - unfold decode_snapshot. intros Hd. res_inv. bool_prop. subst.
    apply snap_take_Ok in Hok as [Hmag _]. apply snap_u16_Ok in Hok1 as [Hver _].
    apply snap_string_Ok in Hok3 as [Hc Hcs], Hok4 as [Hn Hns].
    apply snap_u64_Ok in Hok5 as [He He'], Hok6 as [Hg Hg'], Hok7 as [Hi Hi'].
    apply snap_hash_Ok in Hok8, Hok9, Hok10. apply snap_bytes_Ok in Hok11.
    split.
    + unfold snapshot_typed. cbn. rewrite Hcs, Hns, !andb_true_iff, !is_u64_bound.
      assert (∀ c c' m, slice l c c' = Some (kv_length_prefixed m) → (blen m < 256 ^ N.of_nat 8)%N) as Hb.
      { intros c c' m [Hlen Hle]%slice_length. unfold kv_length_prefixed in Hlen. rewrite blen_app, blen_be_bytes in Hlen.
        unfold u64_max in Hu. cbn. lia. }
      split_and!; eauto.
    + unfold encode_snapshot. rewrite Hok13. cbn [mbind result_bind]. f_equal. symmetry.
      apply slice_whole. rewrite snapshot_bytes_layout.
      cbn [rs_cluster_id rs_created_by rs_epoch rs_config_id rs_applied_index rs_applied_hash
        rs_materializer_fingerprint rs_digest rs_db_bytes]. eauto 20 using slice_snoc_parts.
  - intros [Ht He]. unfold encode_snapshot in He. apply bind_Ok_inv in He as ([] & Hv & [= <-]).
    by apply decode_snapshot_bytes.
Qed.
End snapshot_codec.
