(* ===== verification/KvStore.v ===== *)
(** * KvStore: the redb-backed key/value state machine

    Models [RedbStateMachine] of [crates/rhiza-kv/src/lib.rs]: opening a database
    (initialisation or validation of the stored identity), point reads, ordered
    scans, receipts, the embedded log, [apply_entry], and snapshots.

    redb itself is a third-party crate: the interface [RedbTable] lists the table
    operations the code calls, and [RedbLaws] what redb documents of them (a table
    is an ordered map, a range yields the entries within its bounds in key order).
    The claims are proved from the laws; [KvWitnesses] gives an instance on finite
    maps.  A write transaction works on copies of the tables: [commit] publishes
    them, an early return drops them.  Failures of redb's own I/O are not modelled;
    each returns [Database] and drops the transaction. *)

From S2P Require Import Prelude Bytes Core ConfigChange LogSegment KvCodec.
From Stdlib Require Strings.Byte.

(** ** Tables *)

Inductive Bound (K : Type) : Type := Included (k : K) | Excluded (k : K) | Unbounded.
Arguments Included {K} k.
Arguments Excluded {K} k.
Arguments Unbounded {K}.

Definition above `{Ord K} (lower : Bound K) (k : K) : bool :=
  match lower with Included x => leb x k | Excluded x => ltb x k | Unbounded => true end.
Definition below `{Ord K} (upper : Bound K) (k : K) : bool :=
  match upper with Included x => leb k x | Excluded x => ltb k x | Unbounded => true end.

(** A range whose bounds are not inverted, the only ranges the code asks for. *)
Definition range_ok `{Ord K} (lower upper : Bound K) : Prop :=
  match lower, upper with
  | Unbounded, _ | _, Unbounded => True
  | Included x, (Included y | Excluded y) | Excluded x, (Included y | Excluded y) => ole x y
  end.

Class RedbTable (K T : Type) : Type := {
  t_new : T;
  t_get : K → T → option bytes;
  t_insert : K → bytes → T → T;
  t_remove : K → T → T;
  t_range : Bound K → Bound K → T → list (K * bytes)
}.
#[export] Hint Mode RedbTable - ! : typeclass_instances.

Class RedbLaws (K T : Type) `{Ord K, RedbTable K T} : Prop := {
  get_new k : t_get k (t_new : T) = None;
  get_insert k v (t : T) : t_get k (t_insert k v t) = Some v;
  get_insert_ne k k' v (t : T) : k ≠ k' → t_get k' (t_insert k v t) = t_get k' t;
  get_remove k (t : T) : t_get k (t_remove k t) = None;
  get_remove_ne k k' (t : T) : k ≠ k' → t_get k' (t_remove k t) = t_get k' t;
  range_sorted lower upper (t : T) :
    range_ok lower upper → StronglySorted (key_lt fst) (t_range lower upper t);
  range_elem lower upper (t : T) k v :
    range_ok lower upper →
    (k, v) ∈ t_range lower upper t ↔
    t_get k t = Some v ∧ above lower k = true ∧ below upper k = true
}.
#[export] Hint Mode RedbLaws - ! - - : typeclass_instances.

Definition t_iter `{RedbTable K T} (t : T) : list (K * bytes) := t_range Unbounded Unbounded t.
Definition is_some {A} (o : option A) : bool := match o with Some _ => true | None => false end.

(** ** The database: its four tables *)

Record Redb (TB TU : Type) : Type := mkRedb {
  db_data : option TB; db_requests : option TB; db_progress : option TB; db_qlog : option TU
}.
Arguments mkRedb {TB TU} db_data db_requests db_progress db_qlog.
Arguments db_data {TB TU} _.
Arguments db_requests {TB TU} _.
Arguments db_progress {TB TU} _.
Arguments db_qlog {TB TU} _.

(** [open_table] of a read transaction fails on a table that is not there; that of
    a write transaction creates it. *)
Definition read_table {T} (t : option T) : result KvError T :=
  ok_or t (Database "table does not exist").
Definition write_table `{RedbTable K T} (t : option T) : T := default t_new t.

(** The database file: redb's own format, a parameter like the tables. *)
Class RedbFile (TB TU : Type) : Type := {
  redb_bytes : Redb TB TU → bytes;
  redb_load : bytes → option (Redb TB TU)
}.
#[export] Hint Mode RedbFile ! ! : typeclass_instances.
Class RedbFileLaws (TB TU : Type) `{RedbFile TB TU} : Prop :=
  redb_reopen (db : Redb TB TU) : redb_load (redb_bytes db) = Some db.

Definition META_CLUSTER_ID : bytes := lit "cluster_id".
Definition META_NODE_ID : bytes := lit "node_id".
Definition META_EPOCH : bytes := lit "epoch".
Definition META_CONFIG_ID : bytes := lit "config_id".
Definition META_APPLIED_INDEX : bytes := lit "applied_index".
Definition META_APPLIED_HASH : bytes := lit "applied_hash".
Definition META_MATERIALIZER_FINGERPRINT : bytes := lit "materializer_fingerprint".

Definition MAX_KV_SCAN_ROWS : N := 1024.
Definition MAX_KV_SCAN_RESULT_BYTES : N := 1024 * 1024.

Record ApplyOutcome : Type := mkOutcome {
  ao_applied_index : N; ao_applied_hash : LogHash; ao_result : option KvCommandResultV1
}.
Record KvReadTip : Type := mkTip { kt_applied_index : N; kt_applied_hash : LogHash }.
Record KvGetResult : Type := mkGet { kg_value : option bytes; kg_tip : KvReadTip }.
Record KvScanResult : Type := mkScan {
  ks_rows : list (bytes * bytes); ks_next_cursor : option bytes; ks_tip : KvReadTip
}.

Record RedbStateMachine (TB TU : Type) : Type := mkMachine {
  sm_database : Redb TB TU; sm_cluster_id : bytes; sm_node_id : bytes; sm_epoch : N; sm_config_id : N
}.
Arguments mkMachine {TB TU} sm_database sm_cluster_id sm_node_id sm_epoch sm_config_id.
Arguments sm_database {TB TU} _.
Arguments sm_cluster_id {TB TU} _.
Arguments sm_node_id {TB TU} _.
Arguments sm_epoch {TB TU} _.
Arguments sm_config_id {TB TU} _.

(** ** Keys and bounds *)

Definition validate_scan_bound (value : bytes) : result KvError () :=
  reject_if (MAX_KV_KEY_BYTES <? blen value)%N (InvalidQuery "{name} exceeds {MAX_KV_KEY_BYTES} bytes").
Definition validate_scan_cursor (cursor : option bytes) : result KvError () :=
  match cursor with
  | None => Ok ()
  | Some cursor =>
      _ ← reject_if (blen cursor =? 0)%N (InvalidQuery "scan cursor must not be empty");
      validate_scan_bound cursor
  end.

(** [iter().rposition(f)]: the position of the last element that satisfies [f]. *)
Fixpoint rposition {A} (f : A → bool) (l : list A) : option nat :=
  match l with
  | [] => None
  | x :: l => match rposition f l with
              | Some i => Some (S i)
              | None => if f x then Some 0 else None
              end
  end.
(** The addition cannot overflow: the byte is not [u8::MAX]. *)
Definition prefix_successor (prefix : bytes) : option bytes :=
  index ← rposition (λ b, neqb b Byte.xff) prefix;
  let successor := alter (λ b, byte_of_N (Byte.to_N b + 1)) index prefix in
  Some (take (index + 1) successor).
Definition starts_with (prefix l : bytes) : bool := eqb (take (length prefix) l) prefix.

Section store.
Context `{Sha256} {TB TU : Type} `{RedbTable bytes TB} `{RedbTable N TU} `{RedbFile TB TU}.
Implicit Types (table : TB) (db : Redb TB TU) (sm : RedbStateMachine TB TU).

Definition decode_embedded_log_entry (encoded cluster_id : bytes) : result KvError LogEntry :=
  entries ← map_err (λ _, InvalidEntry "{error}")
    (decode_segment_for_cluster encoded cluster_id);
  match entries with
  | [entry] => Ok entry
  | _ => Err (InvalidEntry "embedded qlog value must contain exactly one entry")
  end.

(** ** Progress metadata *)

Definition missing_meta : KvError := Database "missing progress metadata {key}".

Definition require_meta table (key expected : bytes) : result KvError () :=
  actual ← ok_or (t_get key table) missing_meta;
  reject_if (neqb actual expected) (InvalidEntry "database metadata {key} does not match open parameters").

Definition read_u64_meta table (key : bytes) : result KvError N :=
  value ← ok_or (t_get key table) missing_meta;
  _ ← reject_if (neqb (blen value) 8%N) (Database "invalid u64 progress metadata {key}");
  Ok (be_value value).

Definition read_hash_meta table (key : bytes) : result KvError LogHash :=
  value ← ok_or (t_get key table) missing_meta;
  ok_or (array32_of value) (Database "invalid hash progress metadata {key}").

Definition read_tip table : result KvError KvReadTip :=
  applied_index ← read_u64_meta table META_APPLIED_INDEX;
  applied_hash ← read_hash_meta table META_APPLIED_HASH;
  Ok (mkTip applied_index applied_hash).

Definition read_request table (request_id : bytes) : result KvError (option KvRequestRecord) :=
  match t_get request_id table with
  | None => Ok None
  | Some value => record ← record_decode value; Ok (Some record)
  end.

Definition check_request_in_table table (request_id replicated_payload : bytes) :
    result KvError (option KvRequestRecord) :=
  command ← decode_replicated_kv_command replicated_payload;
  _ ← reject_if (neqb (kc_request_id command) request_id)
        (InvalidCommand "provided and encoded request ids differ");
  let payload_hash := digest [replicated_payload] in
  record ← read_request table request_id;
  _ ← reject_if (match record with
                 | Some record => neqb (kr_payload_hash record) payload_hash
                 | None => false
                 end) (RequestConflict request_id);
  Ok record.

(** ** Opening *)

Definition initialize_or_validate db (cluster_id node_id : bytes) (epoch config_id : N) :
    result KvError (Redb TB TU) :=
  match db_data db, db_requests db, db_progress db, db_qlog db with
  | None, None, None, None =>
      let data := write_table (db_data db) in
      let requests := write_table (db_requests db) in
      let qlog := write_table (db_qlog db) in
      let progress := write_table (db_progress db) in
      let progress := t_insert META_CLUSTER_ID cluster_id progress in
      let progress := t_insert META_NODE_ID node_id progress in
      let progress := t_insert META_EPOCH (be_bytes 8 epoch) progress in
      let progress := t_insert META_CONFIG_ID (be_bytes 8 config_id) progress in
      let progress := t_insert META_APPLIED_INDEX (be_bytes 8 0) progress in
      let progress := t_insert META_APPLIED_HASH (as_bytes LogHash_ZERO) progress in
      let progress := t_insert META_MATERIALIZER_FINGERPRINT
        (as_bytes kv_materializer_fingerprint) progress in
      Ok (mkRedb (Some data) (Some requests) (Some progress) (Some qlog))
  | Some _, Some _, Some progress, Some _ =>
      _ ← reject_if (negb (is_some (t_get META_CLUSTER_ID progress))) PartialInitialization;
      _ ← require_meta progress META_CLUSTER_ID cluster_id;
      _ ← require_meta progress META_NODE_ID node_id;
      _ ← require_meta progress META_EPOCH (be_bytes 8 epoch);
      _ ← require_meta progress META_CONFIG_ID (be_bytes 8 config_id);
      _ ← require_meta progress META_MATERIALIZER_FINGERPRINT (as_bytes kv_materializer_fingerprint);
      _ ← read_u64_meta progress META_APPLIED_INDEX;
      _ ← read_hash_meta progress META_APPLIED_HASH;
      Ok db
  | _, _, _, _ => Err PartialInitialization
  end.

(** [Database::create] opens the file at the path, or makes an empty database. *)
Definition empty_redb : Redb TB TU := mkRedb None None None None.
Definition kv_open (file : option (Redb TB TU)) (cluster_id node_id : bytes) (epoch config_id : N) :
    result KvError (RedbStateMachine TB TU) :=
  _ ← reject_if ((blen cluster_id =? 0)%N || (blen node_id =? 0)%N)
        (InvalidEntry "cluster and node ids must not be empty");
  database ← initialize_or_validate (default empty_redb file) cluster_id node_id epoch config_id;
  Ok (mkMachine database cluster_id node_id epoch config_id).

(** ** Reads *)

Definition get_with_tip sm (key : bytes) : result KvError KvGetResult :=
  _ ← validate_key key;
  data ← read_table (db_data (sm_database sm));
  progress ← read_table (db_progress (sm_database sm));
  let value := t_get key data in
  tip ← read_tip progress;
  Ok (mkGet value tip).
Definition kv_get sm (key : bytes) : result KvError (option bytes) :=
  r ← get_with_tip sm key; Ok (kg_value r).

(** The loop of [scan_snapshot]: the rows, the bytes they take, and whether a row was left. *)
Fixpoint scan_rows (row_limit : N) (rows : list (bytes * bytes)) (result_bytes : N)
    (acc : list (bytes * bytes)) : result KvError (list (bytes * bytes) * bool) :=
  match rows with
  | [] => Ok (acc, false)
  | (key, value) :: rest =>
      row_bytes ← ok_or (checked_add (blen key) (blen value))
        (ResourceExhausted "KV scan row size overflow");
      next_result_bytes ← ok_or (checked_add result_bytes row_bytes)
        (ResourceExhausted "KV scan result size overflow");
      if (N.of_nat (length acc) =? row_limit)%N || (MAX_KV_SCAN_RESULT_BYTES <? next_result_bytes)%N
      then Ok (acc, true)
      else scan_rows row_limit rest next_result_bytes (acc ++ [(key, value)])
  end.

Definition scan_snapshot sm (start : bytes) (end_ : option bytes) (limit : N) (cursor : option bytes) :
    result KvError KvScanResult :=
  _ ← reject_if (negb ((1 <=? limit)%N && (limit <=? MAX_KV_SCAN_ROWS)%N))
        (InvalidQuery "scan limit must be within 1..={MAX_KV_SCAN_ROWS}");
  data ← read_table (db_data (sm_database sm));
  progress ← read_table (db_progress (sm_database sm));
  tip ← read_tip progress;
  if match end_ with Some end_ => leb end_ start | None => false end
  then Ok (mkScan [] None tip)
  else
    let lower := match cursor with Some c => Excluded c | None => Included start end in
    let upper := match end_ with Some e => Excluded e | None => Unbounded end in
    '(rows, has_more) ← scan_rows limit (t_range lower upper data) 0%N [];
    _ ← reject_if (has_more && match rows with [] => true | _ => false end)
          (ResourceExhausted "KV row exceeds the maximum scan result size");
    next_cursor ← (if has_more : bool
      then row ← ok_or (last rows) (KvPanic "non-empty page"); Ok (Some row.1)
      else Ok None);
    Ok (mkScan rows next_cursor tip).

Definition scan_range sm (start : bytes) (end_ : option bytes) (limit : N) (cursor : option bytes) :
    result KvError KvScanResult :=
  _ ← validate_scan_bound start;
  _ ← match end_ with Some end_ => validate_scan_bound end_ | None => Ok () end;
  _ ← validate_scan_cursor cursor;
  _ ← reject_if (match cursor with
                 | Some cursor =>
                     ltb cursor start || match end_ with Some end_ => leb end_ cursor | None => false end
                 | None => false
                 end) (InvalidQuery "cursor is outside the requested range");
  scan_snapshot sm start end_ limit cursor.

Definition scan_prefix sm (prefix : bytes) (limit : N) (cursor : option bytes) :
    result KvError KvScanResult :=
  _ ← validate_scan_bound prefix;
  _ ← validate_scan_cursor cursor;
  _ ← reject_if (match cursor with Some cursor => negb (starts_with prefix cursor) | None => false end)
        (InvalidQuery "cursor does not belong to the requested prefix");
  scan_snapshot sm prefix (prefix_successor prefix) limit cursor.

Definition kv_applied_index sm : result KvError N :=
  table ← read_table (db_progress (sm_database sm)); read_u64_meta table META_APPLIED_INDEX.
Definition kv_applied_hash sm : result KvError LogHash :=
  table ← read_table (db_progress (sm_database sm)); read_hash_meta table META_APPLIED_HASH.
Definition applied_tip sm : result KvError LogAnchor :=
  table ← read_table (db_progress (sm_database sm));
  tip ← read_tip table;
  Ok (mkLogAnchor (kt_applied_index tip) (kt_applied_hash tip)).

Definition check_request sm (request_id replicated_payload : bytes) :
    result KvError (option KvRequestRecord) :=
  table ← read_table (db_requests (sm_database sm));
  check_request_in_table table request_id replicated_payload.
Definition check_requests sm (requests : list (bytes * bytes)) :
    result KvError (list (result KvError (option KvRequestRecord))) :=
  table ← read_table (db_requests (sm_database sm));
  Ok ((λ '(request_id, payload), check_request_in_table table request_id payload) <$> requests).

(** ** The embedded log *)

Definition missing_index : KvError := InvalidEntry "embedded qlog is missing index {expected}".

Definition embedded_row (cluster_id : bytes) (acc : N * list LogEntry) (row : N * bytes) :
    result KvError (N * list LogEntry) :=
  let '(expected, entries) := acc in
  let '(index, encoded) := row in
  _ ← reject_if (neqb index expected) missing_index;
  entry ← decode_embedded_log_entry encoded cluster_id;
  _ ← reject_if (neqb (le_index entry) expected)
        (InvalidEntry "embedded qlog key does not match its entry index");
  expected ← ok_or (checked_add expected 1) (InvalidEntry "embedded qlog index overflow");
  Ok (expected, entries ++ [entry]).

Definition embedded_log_entries sm (from_index through_index : N) : result KvError (list LogEntry) :=
  if (through_index <? from_index)%N then Ok []
  else
    table ← read_table (db_qlog (sm_database sm));
    '(expected, entries) ← try_fold (embedded_row (sm_cluster_id sm)) (from_index, [])
      (t_range (Included from_index) (Included through_index) table);
    _ ← reject_if (expected <=? through_index)%N missing_index;
    Ok entries.

Definition with_database sm db : RedbStateMachine TB TU :=
  mkMachine db (sm_cluster_id sm) (sm_node_id sm) (sm_epoch sm) (sm_config_id sm).

(** A write transaction: its result is committed, an error drops it. *)
Definition with_write {A} sm (txn : result KvError (Redb TB TU * A)) :
    RedbStateMachine TB TU * result KvError A :=
  match txn with
  | Ok (db, a) => (with_database sm db, Ok a)
  | Err e => (sm, Err e)
  end.

Definition compact_embedded_log_before sm (anchor_index : N) :
    RedbStateMachine TB TU * result KvError () :=
  let db := sm_database sm in
  with_write sm (
    let progress := write_table (db_progress db) in
    applied_index ← read_u64_meta progress META_APPLIED_INDEX;
    _ ← reject_if (applied_index <? anchor_index)%N
          (InvalidEntry "cannot compact embedded qlog before anchor {anchor_index} beyond applied index {applied_index}");
    let table := write_table (db_qlog db) in
    let keys := fst <$> t_range Unbounded (Excluded anchor_index) table in
    let table := fold_left (λ t index, t_remove index t) keys table in
    Ok (mkRedb (db_data db) (db_requests db) (Some progress) (Some table), ())).

(** ** Applying an entry *)

Definition validate_entry_identity sm (entry : LogEntry) : result KvError () :=
  _ ← reject_if (neqb (le_cluster_id entry) (sm_cluster_id sm))
        (InvalidEntry "entry belongs to another cluster");
  _ ← reject_if (neqb (le_epoch entry) (sm_epoch sm)) (InvalidEntry "entry epoch does not match");
  reject_if (neqb (le_config_id entry) (sm_config_id sm))
    (InvalidEntry "entry configuration id does not match").

(** One round of the replay check. *)
Definition replay_member (requests : TB) (single : bool) (result : option KvCommandResultV1)
    (member : DecodedKvCommand) : Prelude.result KvError (option KvCommandResultV1) :=
  found ← read_request requests (kc_request_id (dk_command member));
  record ← ok_or found (InvalidEntry "replayed command has no durable receipt");
  _ ← reject_if (neqb (kr_payload_hash record) (digest [dk_individual_payload member]))
        (RequestConflict (kc_request_id (dk_command member)));
  Ok (if single then Some (kr_result record) else result).

(** The operation of a command on the data table. *)
Definition run_operation (operation : KvOperationV1) (data : TB) : TB * KvCommandResultV1 :=
  match operation with
  | Put key value => (t_insert key value data, PutResult (is_some (t_get key data)))
  | Delete key => (t_remove key data, DeleteResult (is_some (t_get key data)))
  end.

(** One round of the loop over the commands of an entry. *)
Definition apply_member (entry : LogEntry) (single : bool)
    (acc : TB * TB * option KvCommandResultV1) (member : DecodedKvCommand) :
    result KvError (TB * TB * option KvCommandResultV1) :=
  let '(requests, data, single_result) := acc in
  let request_id := kc_request_id (dk_command member) in
  let payload_hash := digest [dk_individual_payload member] in
  found ← read_request requests request_id;
  '(requests, data, command_result) ←
    match found with
    | Some record =>
        _ ← reject_if (neqb (kr_payload_hash record) payload_hash) (RequestConflict request_id);
        Ok (requests, data, kr_result record)
    | None =>
        let '(data, command_result) := run_operation (kc_operation (dk_command member)) data in
        let record := mkRecord payload_hash (le_index entry) (le_hash entry) command_result in
        Ok (t_insert request_id (record_encode record) requests, data, command_result)
    end;
  Ok (requests, data, if single then Some command_result else single_result).

Definition is_single {A} (l : list A) : bool := Nat.eqb (length l) 1.

(** The branch [entry.index == current_index]: the transaction is dropped. *)
Definition replay_entry db (cluster_id : bytes) (entry : LogEntry) (current_hash : LogHash)
    (decoded_commands : option (list DecodedKvCommand)) :
    result KvError (option KvCommandResultV1) :=
  _ ← reject_if (neqb (le_hash entry) current_hash) (InvalidEntry "replayed index has a different hash");
  let embedded_log := write_table (db_qlog db) in
  stored ← ok_or (t_get (le_index entry) embedded_log)
    (InvalidEntry "replayed entry is missing from embedded qlog");
  decoded ← decode_embedded_log_entry stored cluster_id;
  _ ← reject_if (neqb decoded entry) (InvalidEntry "replayed entry differs from embedded qlog");
  match decoded_commands with
  | Some commands =>
      try_fold (replay_member (write_table (db_requests db)) (is_single commands)) None commands
  | None => Ok None
  end.

(** What the entry does to the requests and data tables. *)
Definition apply_contents db (entry : LogEntry) (decoded_commands : option (list DecodedKvCommand)) :
    result KvError (option TB * option TB * option KvCommandResultV1) :=
  match le_entry_type entry with
  | Command =>
      commands ← ok_or decoded_commands
        (KvPanic "command entries were decoded before opening the transaction");
      '(requests, data, single_result) ← try_fold (apply_member entry (is_single commands))
        (write_table (db_requests db), write_table (db_data db), None) commands;
      Ok (Some requests, Some data, single_result)
  | Noop =>
      _ ← reject_if (negb (blen (le_payload entry) =? 0)%N) (InvalidEntry "noop entry payload must be empty");
      Ok (db_requests db, db_data db, None)
  | ConfigChangeEntry =>
      _ ← map_err (λ _, InvalidEntry "invalid configuration change")
            (recognize_parts (le_entry_type entry) (le_payload entry));
      Ok (db_requests db, db_data db, None)
  | SnapshotBarrier | SnapshotPublished => Ok (db_requests db, db_data db, None)
  end.

Definition apply_next db (entry : LogEntry) (current_index : N) (current_hash : LogHash)
    (decoded_commands : option (list DecodedKvCommand)) : result KvError (Redb TB TU * ApplyOutcome) :=
  expected_index ← ok_or (checked_add current_index 1) (InvalidEntry "applied index overflow");
  _ ← reject_if (neqb (le_index entry) expected_index) (InvalidEntry "expected log index {expected_index}, got {}");
  _ ← reject_if (neqb (le_prev_hash entry) current_hash)
        (InvalidEntry "entry previous hash does not match applied hash");
  '(requests, data, result) ← apply_contents db entry decoded_commands;
  let embedded_log := write_table (db_qlog db) in
  _ ← reject_if (is_some (t_get (le_index entry) embedded_log))
        (InvalidEntry "next entry already exists in embedded qlog");
  let embedded_log := t_insert (le_index entry) (encode_segment [entry]) embedded_log in
  let progress := write_table (db_progress db) in
  let progress := t_insert META_APPLIED_INDEX (be_bytes 8 (le_index entry)) progress in
  let progress := t_insert META_APPLIED_HASH (as_bytes (le_hash entry)) progress in
  Ok (mkRedb data requests (Some progress) (Some embedded_log),
      mkOutcome (le_index entry) (le_hash entry) result).

Definition apply_entry sm (entry : LogEntry) : RedbStateMachine TB TU * result KvError ApplyOutcome :=
  with_write sm (
    _ ← validate_entry_identity sm entry;
    _ ← reject_if (neqb (recompute_hash entry) (le_hash entry))
          (InvalidEntry "entry hash does not match content");
    decoded_commands ←
      (if eqb (le_entry_type entry) Command
       then cs ← decode_replicated_kv_commands (le_payload entry); Ok (Some cs)
       else Ok None);
    let db := sm_database sm in
    let progress := write_table (db_progress db) in
    current_index ← read_u64_meta progress META_APPLIED_INDEX;
    current_hash ← read_hash_meta progress META_APPLIED_HASH;
    if eqb (le_index entry) current_index then
      result ← replay_entry db (sm_cluster_id sm) entry current_hash decoded_commands;
      Ok (db, mkOutcome current_index current_hash result)
    else apply_next db entry current_index current_hash decoded_commands).

(** ** Snapshots *)

Definition missing_snapshot_meta : KvError := InvalidSnapshot "missing progress metadata {key}".
Definition snapshot_meta table (key expected : bytes) : result KvError () :=
  actual ← ok_or (t_get key table) missing_snapshot_meta;
  reject_if (neqb actual expected)
    (InvalidSnapshot "progress metadata {key} does not match the snapshot identity").
Definition snapshot_u64_meta table (key : bytes) : result KvError N :=
  value ← ok_or (t_get key table) missing_snapshot_meta;
  _ ← reject_if (neqb (blen value) 8%N) (InvalidSnapshot "invalid u64 progress metadata {key}");
  Ok (be_value value).
Definition snapshot_hash_meta table (key : bytes) : result KvError LogHash :=
  value ← ok_or (t_get key table) missing_snapshot_meta;
  ok_or (array32_of value) (InvalidSnapshot "invalid hash progress metadata {key}").

Definition validate_snapshot_identity table (cluster_id node_id : bytes) (epoch config_id : N) :
    result KvError () :=
  _ ← snapshot_meta table META_CLUSTER_ID cluster_id;
  _ ← snapshot_meta table META_NODE_ID node_id;
  _ ← snapshot_meta table META_EPOCH (be_bytes 8 epoch);
  _ ← snapshot_meta table META_CONFIG_ID (be_bytes 8 config_id);
  snapshot_meta table META_MATERIALIZER_FINGERPRINT (as_bytes kv_materializer_fingerprint).

(** [for row in source.iter() { destination.insert(key, value) }] *)
Definition copy_table `{RedbTable K T} (source : T) : T :=
  fold_left (λ t '(key, value), t_insert key value t) (t_iter source) t_new.

Definition create_snapshot sm (target_index : N) : result KvError RedbSnapshot :=
  let db := sm_database sm in
  data ← read_table (db_data db);
  requests ← read_table (db_requests db);
  progress ← read_table (db_progress db);
  _ ← validate_snapshot_identity progress (sm_cluster_id sm) (sm_node_id sm) (sm_epoch sm) (sm_config_id sm);
  applied_index ← snapshot_u64_meta progress META_APPLIED_INDEX;
  _ ← reject_if (neqb applied_index target_index)
        (InvalidSnapshot "snapshot target {target_index} does not match applied index {applied_index}");
  applied_hash ← snapshot_hash_meta progress META_APPLIED_HASH;
  let snapshot_database : Redb TB TU := mkRedb (Some (copy_table data)) (Some (copy_table requests))
    (Some (copy_table progress)) (Some t_new) in
  let snapshot := mkSnapshot (sm_cluster_id sm) (sm_node_id sm) (sm_epoch sm) (sm_config_id sm)
    applied_index applied_hash kv_materializer_fingerprint LogHash_ZERO (redb_bytes snapshot_database) in
  Ok (mkSnapshot (sm_cluster_id sm) (sm_node_id sm) (sm_epoch sm) (sm_config_id sm)
    applied_index applied_hash kv_materializer_fingerprint (recompute_digest snapshot)
    (redb_bytes snapshot_database)).

Definition snapshot_table {T} (t : option T) : result KvError T :=
  ok_or t (InvalidSnapshot "snapshot is missing a required KV table").

Definition validate_restored_database db (snapshot : RedbSnapshot) (expected_node_id : bytes) :
    result KvError () :=
  _ ← reject_if (neqb (rs_materializer_fingerprint snapshot) kv_materializer_fingerprint)
        (InvalidSnapshot "materializer fingerprint does not match this binary");
  _ ← snapshot_table (db_data db);
  _ ← snapshot_table (db_requests db);
  _ ← snapshot_table (db_qlog db);
  progress ← snapshot_table (db_progress db);
  _ ← validate_snapshot_identity progress (rs_cluster_id snapshot) expected_node_id
        (rs_epoch snapshot) (rs_config_id snapshot);
  applied_index ← snapshot_u64_meta progress META_APPLIED_INDEX;
  _ ← reject_if (neqb applied_index (rs_applied_index snapshot))
        (InvalidSnapshot "inner applied index does not match snapshot metadata");
  applied_hash ← snapshot_hash_meta progress META_APPLIED_HASH;
  reject_if (neqb applied_hash (rs_applied_hash snapshot))
    (InvalidSnapshot "inner applied hash does not match snapshot metadata").

Definition rebind_snapshot_node db (target_node_id : bytes) : Redb TB TU :=
  mkRedb (db_data db) (db_requests db)
    (Some (t_insert META_NODE_ID target_node_id (write_table (db_progress db)))) (db_qlog db).

(** What stands at the path: [file] before, the result afterwards.  The staging
    file and the [sync_all] calls are not part of the model. *)
Definition restore_snapshot_file (file : option (Redb TB TU)) (snapshot : RedbSnapshot)
    (target_node_id : bytes) : result KvError (Redb TB TU) :=
  _ ← reject_if (blen target_node_id =? 0)%N (InvalidSnapshot "target node id is empty");
  _ ← reject_if (neqb (recompute_digest snapshot) (rs_digest snapshot))
        (InvalidSnapshot "snapshot digest does not match its contents");
  _ ← reject_if (is_some file) (InvalidSnapshot "restore target already exists");
  database ← ok_or (redb_load (rs_db_bytes snapshot)) (InvalidSnapshot "redb database validation failed: {error}");
  _ ← validate_restored_database database snapshot (rs_created_by snapshot);
  let database := rebind_snapshot_node database target_node_id in
  _ ← validate_restored_database database snapshot target_node_id;
  Ok database.
End store.
