(* ===== verification/KvTables.v ===== *)
(** * KvTables: ordered tables up to what they answer

    Two tables are equivalent when they answer every [get] alike; by the laws of
    redb they then also have the same ranges, whatever their representation.  A
    finite map with ranges computed by sorting is a table, the one against which
    the others are compared.  [prefix_successor] is the least bound above a
    prefix: the range it closes holds exactly the keys with the prefix. *)

From S2P Require Import Prelude Bytes Core KvCodec KvStore.
From Stdlib Require Strings.Byte.

Ltac ord_solve :=
  unfold leb, ltb, ole in *;
  repeat match goal with
  | H : context [match cmp ?x ?y with _ => _ end] |- _ => destruct (cmp x y) eqn:?
  | |- context [match cmp ?x ?y with _ => _ end] => destruct (cmp x y) eqn:?
  end; try done.

(** ** Sorted association lists are determined by their elements *)

Section sorted.
Context `{LawfulOrd K} {V : Type}.
Implicit Types l k : list (K * V).

Lemma key_lt_irrefl (x : K * V) : ¬ key_lt fst x x.
Proof. unfold key_lt. by rewrite cmp_refl. Qed.

Lemma sorted_ext l k :
  StronglySorted (key_lt fst) l → StronglySorted (key_lt fst) k → (∀ x, x ∈ l ↔ x ∈ k) → l = k.
Proof.
  revert k; induction l as [|x l IH]; intros [|y k] Hl Hk Hx.
  - done.
  - assert (y ∈ []) as Hy by (apply Hx; left). inversion Hy.
  - assert (x ∈ []) as Hy by (apply Hx; left). inversion Hy.
  - apply StronglySorted_inv in Hl as [Hl Hxl], Hk as [Hk Hyk].
    rewrite Forall_forall in Hxl, Hyk.
    assert (x = y) as ->.
    { assert (x ∈ y :: k) as [->|Hxk]%elem_of_cons by (apply Hx; left); [done|].
      assert (y ∈ x :: l) as [->|Hyl]%elem_of_cons by (apply Hx; left); [done|].
      destruct (key_lt_irrefl x). apply (key_lt_trans fst x y x); auto. }
    f_equal. apply IH; [done|done|]. intros z. specialize (Hx z). rewrite !elem_of_cons in Hx.
    split; intros Hz.
    + destruct (proj1 Hx (or_intror Hz)) as [->|]; [|done]. by destruct (key_lt_irrefl y (Hxl y Hz)).
    + destruct (proj2 Hx (or_intror Hz)) as [->|]; [|done]. by destruct (key_lt_irrefl y (Hyk y Hz)).
Qed.
End sorted.

(** ** Equivalence of tables *)

Definition t_equiv `{RedbTable K T1} `{RedbTable K T2} (t1 : T1) (t2 : T2) : Prop :=
  ∀ k, t_get k t1 = t_get k t2.

Section equivalence.
Context `{LawfulOrd K} `{RedbTable K T1, !RedbLaws K T1} `{RedbTable K T2, !RedbLaws K T2}.

(** Equivalent tables have the same ranges. *)
Lemma range_equiv lower upper (t1 : T1) (t2 : T2) :
  t_equiv t1 t2 → range_ok lower upper → t_range lower upper t1 = t_range lower upper t2.
Proof.
  intros Heq Hr. apply sorted_ext; [by apply range_sorted..|].
  intros [k v]. by rewrite !range_elem, Heq.
Qed.

Lemma insert_equiv k v (t1 : T1) (t2 : T2) :
  t_equiv t1 t2 → t_equiv (t_insert k v t1) (t_insert k v t2).
Proof.
  intros Heq k'. destruct (decide (cmp k k' = Eq)) as [->%cmp_eq|Hne].
  - by rewrite !get_insert.
  - rewrite cmp_eq in Hne. rewrite !get_insert_ne by done. apply Heq.
Qed.
Lemma remove_equiv k (t1 : T1) (t2 : T2) : t_equiv t1 t2 → t_equiv (t_remove k t1) (t_remove k t2).
Proof.
  intros Heq k'. destruct (decide (cmp k k' = Eq)) as [->%cmp_eq|Hne].
  - by rewrite !get_remove.
  - rewrite cmp_eq in Hne. rewrite !get_remove_ne by done. apply Heq.
Qed.
Lemma new_equiv : t_equiv (t_new : T1) (t_new : T2).
Proof. intros k. by rewrite !get_new. Qed.
End equivalence.

#[export] Instance t_equiv_equivalence `{RedbTable K T} : Equivalence (t_equiv (T1 := T) (T2 := T)).
Proof.
  split; [by intros t k|by intros t1 t2 Heq k|]. intros t1 t2 t3 H1 H2 k. by rewrite H1.
Qed.
#[export] Instance t_get_proper `{RedbTable K T} k : Proper (t_equiv ==> eq) (t_get (T := T) k).
Proof. intros t1 t2 Heq. apply Heq. Qed.
#[export] Instance t_insert_proper `{LawfulOrd K, RedbTable K T, !RedbLaws K T} k v :
  Proper (t_equiv ==> t_equiv) (t_insert (T := T) k v).
Proof. intros t1 t2. apply insert_equiv. Qed.
#[export] Instance t_remove_proper `{LawfulOrd K, RedbTable K T, !RedbLaws K T} k :
  Proper (t_equiv ==> t_equiv) (t_remove (T := T) k).
Proof. intros t1 t2. apply remove_equiv. Qed.

(** ** Copying a table *)

Section copying.
Context `{LawfulOrd K} `{RedbTable K T, !RedbLaws K T}.
Implicit Types t : T.

Lemma get_fold_insert rows t k :
  StronglySorted (key_lt fst) rows →
  t_get k (fold_left (λ t '(key, value), t_insert key value t) rows t)
  = match find (λ row, match cmp row.1 k with Eq => true | _ => false end) rows with
    | Some row => Some row.2
    | None => t_get k t
    end.
Proof.
  revert t; induction rows as [|[k0 v0] rows IH]; intros t Hs; cbn [fold_left find fst snd]; [done|].
  apply StronglySorted_inv in Hs as [Hs Hlt]. rewrite IH by done.
  destruct (cmp k0 k) eqn:Hc.
  - apply cmp_eq in Hc as ->. destruct (find _ rows) as [[k1 v1]|] eqn:Hf; [|by rewrite get_insert].
    apply find_some in Hf as [Hin Hk]. cbn in Hk. rewrite Forall_forall in Hlt.
    apply list_elem_of_In, Hlt in Hin. unfold key_lt in Hin. cbn in Hin.
    destruct (cmp k1 k) eqn:Hc; try done. apply cmp_eq in Hc as ->. by rewrite cmp_refl in Hin.
  - destruct (find _ rows); [done|]. apply get_insert_ne. intros ->. by rewrite cmp_refl in Hc.
  - destruct (find _ rows); [done|]. apply get_insert_ne. intros ->. by rewrite cmp_refl in Hc.
Qed.

Lemma copy_table_equiv t : t_equiv (copy_table t) t.
Proof.
  intros k. unfold copy_table, t_iter. rewrite get_fold_insert by by apply range_sorted.
  destruct (find _ _) as [[k1 v1]|] eqn:Hf.
  - apply find_some in Hf as [Hin Hk]. cbn in Hk. destruct (cmp k1 k) eqn:Hc; try done.
    apply cmp_eq in Hc as ->. apply list_elem_of_In, range_elem in Hin as [Hg _]; done.
  - rewrite get_new. destruct (t_get k t) as [v|] eqn:Hg; [|done].
    assert ((k, v) ∈ t_range Unbounded Unbounded t) as Hin by by apply range_elem.
    apply list_elem_of_In in Hin. apply (find_none _ _ Hf) in Hin. cbn in Hin. by rewrite cmp_refl in Hin.
Qed.
End copying.

(** ** Finite maps are tables *)

Section finite.
Context `{LawfulOrd K, Countable K}.

#[export] Instance gmap_table : RedbTable K (gmap K bytes) := {
  t_new := ∅;
  t_get k m := m !! k;
  t_insert k v m := <[k := v]> m;
  t_remove k m := delete k m;
  t_range lower upper m :=
    sort_by fst (filter (λ kv : K * bytes, above lower kv.1 && below upper kv.1 = true) (map_to_list m))
}.

Lemma sort_by_strict (l : list (K * bytes)) :
  NoDup l.*1 → StronglySorted (key_lt fst) (sort_by fst l).
Proof.
  intros Hnd. assert (NoDup (sort_by fst l).*1) as Hnd' by by rewrite sort_by_perm.
  pose proof (sort_by_sorted fst l) as Hs. clear Hnd. induction Hs as [|x k Hs IH Hx]; [constructor|].
  cbn in Hnd'. apply NoDup_cons in Hnd' as [Hni Hnd]. constructor; [by apply IH|].
  rewrite Forall_forall in Hx |- *. intros y Hy. specialize (Hx y Hy). unfold key_le, key_lt, ole in *.
  destruct (cmp x.1 y.1) eqn:Hc; [|done|done]. apply cmp_eq in Hc.
  destruct Hni. rewrite Hc. apply list_elem_of_fmap. eauto.
Qed.

#[export] Instance gmap_laws : RedbLaws K (gmap K bytes).
Proof.
  split; cbn.
  - intros k. apply lookup_empty.
  - intros k v t. apply lookup_insert_eq.
  - intros k k' v t Hne. by apply lookup_insert_ne.
  - intros k t. apply lookup_delete_eq.
  - intros k k' t Hne. by apply lookup_delete_ne.
  - intros lower upper t _. apply sort_by_strict. eapply sublist_NoDup; [apply (NoDup_fst_map_to_list t)|].
    apply fmap_sublist, sublist_filter.
  - intros lower upper t k v _. rewrite sort_by_perm, list_elem_of_filter, elem_of_map_to_list, andb_true_iff.
    cbn. naive_solver.
Qed.
End finite.

(** ** The successor of a prefix *)

Lemma prefix_successor_cons b rest :
  prefix_successor (b :: rest) =
  match prefix_successor rest with
  | Some successor => Some (b :: successor)
  | None => if eqb b Byte.xff then None else Some [byte_of_N (Byte.to_N b + 1)]
  end.
Proof.
  unfold prefix_successor. cbn [rposition]. destruct (rposition _ rest) as [i|]; [done|].
  unfold neqb. by destruct (eqb b Byte.xff).
Qed.

Lemma byte_cmp_lt (a b : byte) : cmp a b = Lt ↔ (Byte.to_N a < Byte.to_N b)%N.
Proof. unfold cmp, byte_ord, inj_ord, cmp, N_ord. apply N.compare_lt_iff. Qed.
Lemma byte_ff (b : byte) : b ≠ Byte.xff → (Byte.to_N b < 255)%N.
Proof.
  intros Hb. pose proof (to_N_bound b). destruct (decide (Byte.to_N b = 255)%N) as [He|]; [|lia].
  destruct Hb. by apply to_N_inj.
Qed.
Lemma byte_le_ff (b : byte) : cmp b Byte.xff ≠ Gt.
Proof. destruct b; vm_compute; discriminate. Qed.
Lemma byte_lt_succ (a b : byte) :
  b ≠ Byte.xff → cmp a (byte_of_N (Byte.to_N b + 1)) = Lt ↔ cmp a b ≠ Gt.
Proof.
  intros Hb%byte_ff. rewrite byte_cmp_lt, to_N_of_N, N.mod_small by lia.
  unfold cmp, byte_ord, inj_ord, cmp, N_ord. rewrite N.compare_le_iff. lia.
Qed.

Lemma starts_with_cons b prefix c k : starts_with (b :: prefix) (c :: k) = eqb c b && starts_with prefix k.
Proof.
  apply eq_true_iff_eq. unfold starts_with. cbn [length take]. rewrite andb_true_iff, !eqb_true.
  split; [intros [= -> Heq]; by rewrite Heq|by intros [-> ->]].
Qed.

Lemma list_cmp_nil_l (l : bytes) : ole [] l.
Proof. unfold ole. by destruct l. Qed.

Lemma not_below_succ b c (k : bytes) :
  b ≠ Byte.xff → cmp c b = Gt → cmp (c :: k) [byte_of_N (Byte.to_N b + 1)] ≠ Lt.
Proof.
  intros Hb Hc. rewrite list_cmp_cons. destruct (cmp c (byte_of_N _)) eqn:Hs; [by destruct k| |discriminate].
  by apply (byte_lt_succ c b Hb) in Hs.
Qed.

(** The keys with a prefix are those from the prefix up to its successor; without
    a successor (the prefix holds only 0xff) every key from the prefix on. *)
Lemma starts_with_range prefix k :
  starts_with prefix k = true ↔
  leb prefix k = true ∧ match prefix_successor prefix with Some e => ltb k e = true | None => True end.
Proof.
  revert k; induction prefix as [|b prefix IH]; intros k.
  - split; [|by intros; unfold starts_with]. intros _. split; [|done]. unfold leb. by destruct k.
  - destruct k as [|c k].
    { split; [|intros [Hl _]]; done. }
    rewrite starts_with_cons, andb_true_iff, eqb_true, IH, prefix_successor_cons. unfold leb, ltb.
    rewrite list_cmp_cons, (cmp_opp c b). destruct (cmp c b) eqn:Hc.
    + apply cmp_eq in Hc as ->. cbn [CompOpp]. destruct (prefix_successor prefix) as [e|].
      * rewrite list_cmp_cons, cmp_refl. naive_solver.
      * destruct (eqb b Byte.xff) eqn:Hb; [naive_solver|]. apply eqb_false in Hb.
        rewrite list_cmp_cons. rewrite (proj2 (byte_lt_succ b b Hb)) by by rewrite cmp_refl. naive_solver.
    + cbn [CompOpp]. split; [|by intros [? _]]. intros [-> _]. by rewrite cmp_refl in Hc.
    + cbn [CompOpp]. split; [intros [-> _]; by rewrite cmp_refl in Hc|]. intros [_ Hs]. exfalso.
      destruct (prefix_successor prefix) as [e|]; [by rewrite list_cmp_cons, Hc in Hs|].
      destruct (eqb b Byte.xff) eqn:Hb; [apply eqb_true in Hb as ->; by destruct (byte_le_ff c)|].
      apply eqb_false in Hb. pose proof (not_below_succ b c k Hb Hc). by destruct (cmp (c :: k) _).
Qed.

Lemma prefix_lt_successor prefix e : prefix_successor prefix = Some e → ltb prefix e = true.
Proof.
  intros He. assert (starts_with prefix prefix = true) as Hs.
  { unfold starts_with. apply eqb_true. apply firstn_all. }
  apply starts_with_range in Hs as [_ Hs]. by rewrite He in Hs.
Qed.
