(* ===== verification/KvSpec.v ===== *)
(** * KvSpec: what the key/value state machine promises

    The abstract machine: a finite map of keys, a receipt for each request id, and
    the log it has applied since its base.  An entry is applied when it is the next
    of the chain and its commands are accepted; each command runs at most once,
    its receipt answers every repetition.  [represents] relates a [RedbStateMachine]
    to it through the laws of redb's tables. *)

From S2P Require Import Prelude Bytes Core ConfigChange LogSegment KvCodec KvStore KvTables.
From Stdlib Require Strings.Byte.

Abbreviation receipts := (gmap bytes KvRequestRecord).
Abbreviation rows := (gmap bytes bytes).

Record KvState : Type := mkKvState {
  kv_data : rows; kv_receipts : receipts; kv_base : LogAnchor; kv_log : list LogEntry
}.
Definition kv_tip_index (s : KvState) : N := la_index (kv_base s) + N.of_nat (length (kv_log s)).
Definition kv_tip_hash (s : KvState) : LogHash := tip_hash (la_hash (kv_base s)) (kv_log s).
(** The embedded entry of an index. *)
Definition log_at (base : N) (log : list LogEntry) (i : N) : option LogEntry :=
  if (base <? i)%N then log !! N.to_nat (i - base - 1) else None.

(** ** Commands *)

Definition exec (o : KvOperationV1) (D : rows) : rows * KvCommandResultV1 :=
  match o with
  | Put k v => (<[k := v]> D, PutResult (is_some (D !! k)))
  | Delete k => (delete k D, DeleteResult (is_some (D !! k)))
  end.

Definition dk_id (d : DecodedKvCommand) : bytes := kc_request_id (dk_command d).

Section machine.
Context `{Sha256}.

Definition dk_hash (d : DecodedKvCommand) : LogHash := digest [dk_individual_payload d].

(** One command: a known request id answers from its receipt, and refuses another
    payload; a new one runs and leaves a receipt. *)
Definition spec_member (e : LogEntry) (d : DecodedKvCommand) (R : receipts) (D : rows) :
    option (receipts * rows * KvCommandResultV1) :=
  match R !! dk_id d with
  | Some r => if eqb (kr_payload_hash r) (dk_hash d) then Some (R, D, kr_result r) else None
  | None =>
      let '(D', res) := exec (kc_operation (dk_command d)) D in
      Some (<[dk_id d := mkRecord (dk_hash d) (le_index e) (le_hash e) res]> R, D', res)
  end.
Fixpoint spec_members (e : LogEntry) (ds : list DecodedKvCommand) (R : receipts) (D : rows) :
    option (receipts * rows * list KvCommandResultV1) :=
  match ds with
  | [] => Some (R, D, [])
  | d :: ds =>
      '(R, D, r) ← spec_member e d R D;
      '(R, D, rs) ← spec_members e ds R D;
      Some (R, D, r :: rs)
  end.

(** Only a single command reports its result. *)
Definition only {A} (l : list A) : option A := match l with [x] => Some x | _ => None end.

Definition option_of {E A} (r : result E A) : option A := match r with Ok a => Some a | Err _ => None end.

Definition spec_contents (e : LogEntry) (R : receipts) (D : rows) :
    option (receipts * rows * option KvCommandResultV1) :=
  match le_entry_type e with
  | Command =>
      ds ← option_of (decode_replicated_kv_commands (le_payload e));
      '(R, D, rs) ← spec_members e ds R D;
      Some (R, D, only rs)
  | Noop => if (blen (le_payload e) =? 0)%N then Some (R, D, None) else None
  | ConfigChangeEntry =>
      if is_ok (recognize_parts ConfigChangeEntry (le_payload e)) then Some (R, D, None) else None
  | SnapshotBarrier | SnapshotPublished => Some (R, D, None)
  end.

(** The entries of one cluster, epoch and configuration, sealed with their hash. *)
Definition entry_of (c : bytes) (epoch config : N) (e : LogEntry) : bool :=
  eqb (le_cluster_id e) c && eqb (le_epoch e) epoch && eqb (le_config_id e) config
  && eqb (recompute_hash e) (le_hash e).

(** Applying the next entry of the log. *)
Definition spec_next (c : bytes) (epoch config : N) (s : KvState) (e : LogEntry) :
    option (KvState * ApplyOutcome) :=
  if entry_of c epoch config e && follows (kv_tip_index s) (kv_tip_hash s) e
     && (kv_tip_index s + 1 <=? u64_max)%N
  then
    '(R, D, res) ← spec_contents e (kv_receipts s) (kv_data s);
    Some (mkKvState D R (kv_base s) (kv_log s ++ [e]), mkOutcome (le_index e) (le_hash e) res)
  else None.

(** The answer to a repetition of the last entry. *)
Definition replay_result (e : LogEntry) (R : receipts) : option KvCommandResultV1 :=
  if eqb (le_entry_type e) Command then
    ds ← option_of (decode_replicated_kv_commands (le_payload e));
    d ← only ds; kr_result <$> R !! dk_id d
  else None.

Definition spec_apply (c : bytes) (epoch config : N) (s : KvState) (e : LogEntry) :
    option (KvState * ApplyOutcome) :=
  if eqb (le_index e) (kv_tip_index s) then
    if eqb (last (kv_log s)) (Some e)
    then Some (s, mkOutcome (le_index e) (le_hash e) (replay_result e (kv_receipts s))) else None
  else spec_next c epoch config s e.

(** ** Facts of the abstract machine *)

(** Every command of an entry has a receipt for its payload. *)
Definition covered (R : receipts) (ds : list DecodedKvCommand) : Prop :=
  Forall (λ d, ∃ r, R !! dk_id d = Some r ∧ kr_payload_hash r = dk_hash d) ds.
Definition covered_entry (R : receipts) (e : LogEntry) : Prop :=
  le_entry_type e = Command →
  ∃ ds, decode_replicated_kv_commands (le_payload e) = Ok ds ∧ covered R ds.

Lemma spec_member_grows e d R D R' D' r :
  spec_member e d R D = Some (R', D', r) →
  R ⊆ R' ∧ ∃ rec, R' !! dk_id d = Some rec ∧ kr_payload_hash rec = dk_hash d ∧ kr_result rec = r.
Proof.
  unfold spec_member. destruct (R !! dk_id d) as [rec|] eqn:Hr.
  - destruct (eqb _ _) eqn:Hh; [|done]. intros [= <- <- <-]. rewrite eqb_true in Hh. split; [done|]. by exists rec.
  - destruct (exec _ D) as [D1 r1]. intros [= <- <- <-]. split; [by apply insert_subseteq|].
    eexists. split; [apply lookup_insert_eq|done].
Qed.

Lemma spec_members_grow e ds R D R' D' rs :
  spec_members e ds R D = Some (R', D', rs) →
  R ⊆ R' ∧ Forall2 (λ d r, ∃ rec, R' !! dk_id d = Some rec ∧ kr_payload_hash rec = dk_hash d
    ∧ kr_result rec = r) ds rs.
Proof.
  revert R D rs; induction ds as [|d ds IH]; intros R D rs Hm; cbn [spec_members] in Hm.
  - injection Hm as <- <- <-. split; [done|constructor].
  - destruct (spec_member e d R D) as [[[R1 D1] r]|] eqn:H1; [|done]. cbn in Hm.
    destruct (spec_members e ds R1 D1) as [[[R2 D2] rs2]|] eqn:H2; [|done]. injection Hm as <- <- <-.
    apply spec_member_grows in H1 as (Hsub1 & rec & Hrec & Hh & Hres). apply IH in H2 as [Hsub2 Hall].
    split; [by etrans|]. constructor; [|done]. exists rec. split; [|done]. by eapply lookup_weaken.
Qed.

Lemma covered_weaken R R' ds : R ⊆ R' → covered R ds → covered R' ds.
Proof.
  intros Hsub Hc. apply (Forall_impl _ _ _ Hc). intros d (r & Hr & Hh). exists r.
  split; [by eapply lookup_weaken|done].
Qed.

(** Commands that are all covered change nothing, and are answered from the receipts. *)
Lemma spec_members_covered e ds R D :
  covered R ds → ∃ rs, spec_members e ds R D = Some (R, D, rs)
    ∧ Forall2 (λ d r, kr_result <$> R !! dk_id d = Some r) ds rs.
Proof.
  induction 1 as [|d ds (r & Hr & Hh) Hc (rs & Hrs & Hall)]; cbn [spec_members]; [by exists []|].
  exists (kr_result r :: rs). unfold spec_member. rewrite Hr, Hh, eqb_refl. cbn. rewrite Hrs. split; [done|].
  constructor; [by rewrite Hr|done].
Qed.

Lemma spec_contents_grow e R D R' D' res :
  spec_contents e R D = Some (R', D', res) →
  R ⊆ R' ∧ covered_entry R' e ∧ replay_result e R' = res.
Proof.
  unfold spec_contents, covered_entry, replay_result. destruct (le_entry_type e) eqn:Ht; cbn.
  - destruct (decode_replicated_kv_commands (le_payload e)) as [ds|] eqn:Hd; [|done]. cbn.
    destruct (spec_members e ds R D) as [[[R1 D1] rs]|] eqn:Hm; [|done]. intros [= <- <- <-].
    apply spec_members_grow in Hm as [Hsub Hall]. split_and!; [done| |].
    + intros _. exists ds. split; [done|]. unfold covered. clear Hd Hsub.
      induction Hall as [|d r ds rs (rec & Hr & Hh & _) _ IH]; constructor; eauto.
    + inversion Hall as [|d r ds' rs' (rec & Hr & _ & Hres) Hrest]; subst; [done|].
      inversion Hrest; subst; [|done]. cbn. by rewrite Hr.
  - destruct (is_ok _); [|done]. by intros [= <- <- <-].
  - by intros [= <- <- <-].
  - by intros [= <- <- <-].
  - destruct (_ =? 0)%N; [|done]. by intros [= <- <- <-].
Qed.
End machine.

(** ** Chains *)

Fixpoint kv_chain `{Sha256} (c : bytes) (epoch config : N) (i : N) (h : LogHash) (log : list LogEntry) : bool :=
  match log with
  | [] => true
  | e :: log => follows i h e && entry_of c epoch config e && entry_fits e
                && kv_chain c epoch config (i + 1) (le_hash e) log
  end.

Section chains.
Context `{Sha256}.

Lemma tip_hash_cons h x log : tip_hash h (x :: log) = tip_hash (le_hash x) log.
Proof. unfold tip_hash. rewrite last_cons. by destruct (last log). Qed.

Lemma kv_chain_snoc c ep g i h log e :
  kv_chain c ep g i h (log ++ [e]) = true ↔
  kv_chain c ep g i h log = true ∧ follows (i + N.of_nat (length log)) (tip_hash h log) e = true
  ∧ entry_of c ep g e = true ∧ entry_fits e = true.
Proof.
  revert i h; induction log as [|x log IH]; intros i h; cbn [app kv_chain length].
  - unfold tip_hash. cbn [last]. rewrite N.add_0_r, andb_true_r, !andb_true_iff. naive_solver.
  - rewrite !andb_true_iff, IH, tip_hash_cons.
    replace (i + N.of_nat (S (length log)))%N with (i + 1 + N.of_nat (length log))%N by lia. tauto.
Qed.

Lemma kv_chain_lookup c ep g i h log k e :
  kv_chain c ep g i h log = true → log !! k = Some e →
  le_index e = (i + N.of_nat k + 1)%N ∧ entry_of c ep g e = true ∧ entry_fits e = true.
Proof.
  revert i h k; induction log as [|x log IH]; intros i h k Hc Hk; [done|].
  cbn [kv_chain] in Hc. rewrite !andb_true_iff in Hc. destruct Hc as [[[Hf Ho] Hfit] Hc].
  destruct k as [|k].
  - injection Hk as <-. unfold follows in Hf. rewrite andb_true_iff, eqb_true in Hf. split; [lia|done].
  - apply (IH _ _ k) in Hc as [-> ?]; [|done]. split; [lia|done].
Qed.

Lemma log_at_tip s e :
  last (kv_log s) = Some e → log_at (la_index (kv_base s)) (kv_log s) (kv_tip_index s) = Some e.
Proof.
  intros Hl. rewrite last_lookup in Hl. unfold log_at, kv_tip_index.
  assert (length (kv_log s) ≠ 0) as Hne by (destruct (kv_log s); [done|cbn; lia]).
  destruct (N.ltb_spec (la_index (kv_base s)) (la_index (kv_base s) + N.of_nat (length (kv_log s)))); [|lia].
  rewrite <-Hl. f_equal. lia.
Qed.

Lemma log_at_snoc i log e j :
  log_at i (log ++ [e]) j =
  if (j =? i + N.of_nat (length log) + 1)%N then Some e else log_at i log j.
Proof.
  unfold log_at. destruct (N.eqb_spec j (i + N.of_nat (length log) + 1)) as [->|Hne].
  - destruct (N.ltb_spec i (i + N.of_nat (length log) + 1)); [|lia].
    rewrite lookup_app_r by lia. by replace (_ - _) with 0 by lia.
  - destruct (N.ltb_spec i j); [|done]. destruct (decide (N.to_nat (j - i - 1) < length log)) as [Hlt|Hge].
    + by rewrite lookup_app_l.
    + rewrite !lookup_ge_None_2; [done|lia|]. rewrite length_app. cbn. lia.
Qed.
End chains.
