(* ===== verification/KvRefine.v ===== *)
(** * KvRefine: the redb state machine implements the abstract one

    [represents] relates the four tables of a [RedbStateMachine] to an abstract
    state; every operation that changes the database is shown to keep the relation
    and to answer as the abstract machine does, on every branch. *)

From S2P Require Import Prelude Bytes Core ConfigChange LogSegment KvCodec KvStore KvTables KvSpec.
From Stdlib Require Strings.Byte.

Section refine.
Context `{Sha256} {TB TU : Type} `{RedbTable bytes TB, !RedbLaws bytes TB}
  `{RedbTable N TU, !RedbLaws N TU}.
Implicit Types (sm : RedbStateMachine TB TU) (s : KvState) (e : LogEntry).

(** ** The relation *)

Record progress_rep (t : TB) (c n : bytes) (epoch config index : N) (h : LogHash) : Prop := {
  pr_cluster : t_get META_CLUSTER_ID t = Some c;
  pr_node : t_get META_NODE_ID t = Some n;
  pr_epoch : t_get META_EPOCH t = Some (be_bytes 8 epoch);
  pr_config : t_get META_CONFIG_ID t = Some (be_bytes 8 config);
  pr_index : t_get META_APPLIED_INDEX t = Some (be_bytes 8 index);
  pr_hash : t_get META_APPLIED_HASH t = Some (as_bytes h);
  pr_fingerprint : t_get META_MATERIALIZER_FINGERPRINT t = Some (as_bytes kv_materializer_fingerprint)
}.

Definition requests_rep (t : TB) (R : receipts) : Prop :=
  (∀ k, t_get k t = record_encode <$> R !! k)
  ∧ map_Forall (λ _ r, is_u64 (kr_original_log_index r) = true) R.
Definition qlog_rep (t : TU) (base : N) (log : list LogEntry) : Prop :=
  ∀ i, t_get i t = (λ e, encode_segment [e]) <$> log_at base log i.
(** Keys and values as the commands bound them. *)
Definition bounded_rows (D : rows) : Prop :=
  map_Forall (λ k v, blen k ≠ 0 ∧ blen k ≤ MAX_KV_KEY_BYTES ∧ blen v ≤ MAX_KV_VALUE_BYTES)%N D.

Record represents sm s : Prop := {
  rep_cluster : sm_cluster_id sm ≠ [];
  rep_node : sm_node_id sm ≠ [];
  rep_data : ∃ t, db_data (sm_database sm) = Some t ∧ t_equiv t (kv_data s);
  rep_requests : ∃ t, db_requests (sm_database sm) = Some t ∧ requests_rep t (kv_receipts s);
  rep_progress : ∃ t, db_progress (sm_database sm) = Some t ∧
    progress_rep t (sm_cluster_id sm) (sm_node_id sm) (sm_epoch sm) (sm_config_id sm)
      (kv_tip_index s) (kv_tip_hash s);
  rep_qlog : ∃ t, db_qlog (sm_database sm) = Some t ∧ qlog_rep t (la_index (kv_base s)) (kv_log s);
  rep_chain : kv_chain (sm_cluster_id sm) (sm_epoch sm) (sm_config_id sm)
    (la_index (kv_base s)) (la_hash (kv_base s)) (kv_log s) = true;
  rep_tip : is_u64 (kv_tip_index s) = true;
  rep_rows : bounded_rows (kv_data s);
  rep_covered : Forall (covered_entry (kv_receipts s)) (kv_log s)
}.

Lemma write_table_Some `{RedbTable K T} (t : T) : write_table (Some t) = t.
Proof. done. Qed.

(** ** Metadata *)

Lemma read_u64_ok (t : TB) key n :
  t_get key t = Some (be_bytes 8 n) → is_u64 n = true → read_u64_meta t key = Ok n.
Proof.
  intros Hg Hn. unfold read_u64_meta. rewrite Hg. cbn [ok_or mbind result_bind].
  rewrite blen_be_bytes. change (N.of_nat 8) with 8%N. rewrite neqb_refl. cbn [reject_if mbind result_bind].
  rewrite be_value_bytes; [done|by apply is_u64_bound].
Qed.
Lemma read_hash_ok (t : TB) key h : t_get key t = Some (as_bytes h) → read_hash_meta t key = Ok h.
Proof. intros Hg. unfold read_hash_meta. rewrite Hg. cbn [ok_or mbind result_bind]. by rewrite array32_of_as_bytes. Qed.

Lemma read_tip_ok (t : TB) c n ep g i h :
  progress_rep t c n ep g i h → is_u64 i = true → read_tip t = Ok (mkTip i h).
Proof.
  intros Hp Hi. unfold read_tip. by rewrite (read_u64_ok _ _ _ (pr_index _ _ _ _ _ _ _ Hp) Hi),
    (read_hash_ok _ _ _ (pr_hash _ _ _ _ _ _ _ Hp)).
Qed.

Lemma progress_step (t : TB) c n ep g i h i' h' :
  progress_rep t c n ep g i h →
  progress_rep (t_insert META_APPLIED_HASH (as_bytes h') (t_insert META_APPLIED_INDEX (be_bytes 8 i') t))
    c n ep g i' h'.
Proof.
  intros []. split; rewrite ?get_insert; try done;
    rewrite get_insert_ne by done; rewrite ?get_insert; try done; by rewrite get_insert_ne.
Qed.

(** ** The embedded log *)

Lemma encode_one_length e : (blen (encode_segment [e]) = 308 + blen (le_payload e))%N.
Proof.
  destruct (encode_segment_cons e []) as (lst & _ & _ & ->). rewrite !blen_app, blen_header, blen_footer.
  rewrite frames_cons, blen_app, blen_frame. change (blen (frames [])) with 0%N.
  unfold FRAME_MIN_LEN, QLOG_HEADER_LEN, FOOTER_LEN. lia.
Qed.

Lemma embedded_reads c ep g e :
  c ≠ [] → entry_of c ep g e = true → entry_fits e = true →
  decode_embedded_log_entry (encode_segment [e]) c = Ok e.
Proof.
  intros Hc Ho Hf. unfold decode_embedded_log_entry. rewrite segment_reads; [done|done|done| |].
  - unfold entry_of in Ho. rewrite !andb_true_iff in Ho. unfold segment_run, sealed_in. cbn [is_run forallb linked].
    rewrite Hf, !andb_true_iff. naive_solver.
  - rewrite encode_one_length. unfold entry_fits in Hf. rewrite !andb_true_iff, N.leb_le in Hf.
    unfold FRAME_MIN_LEN, u32_max, u64_max in *. lia.
Qed.

(** ** Commands *)

Lemma read_request_ok (t : TB) R k : requests_rep t R → read_request t k = Ok (R !! k).
Proof.
  intros [Hg Hu]. unfold read_request. rewrite Hg. destruct (R !! k) as [r|] eqn:Hr; cbn [fmap option_fmap option_map]; [|done].
  rewrite record_decode_encode; [done|]. by apply (Hu k).
Qed.

Lemma requests_insert (t : TB) R k r :
  requests_rep t R → is_u64 (kr_original_log_index r) = true →
  requests_rep (t_insert k (record_encode r) t) (<[k := r]> R).
Proof.
  intros [Hg Hu] Hr. split; [|by apply map_Forall_insert_2].
  intros k'. destruct (decide (k = k')) as [->|Hne].
  - by rewrite get_insert, lookup_insert_eq.
  - by rewrite get_insert_ne, lookup_insert_ne.
Qed.

Lemma run_operation_ok o (t : TB) D :
  t_equiv t D → t_equiv (run_operation o t).1 (exec o D).1 ∧ (run_operation o t).2 = (exec o D).2.
Proof.
  intros Heq. destruct o as [k v|k]; cbn [run_operation exec fst snd]; rewrite (Heq k); split; [|done| |done].
  - exact (insert_equiv k v t D Heq).
  - exact (remove_equiv k t D Heq).
Qed.

Lemma exec_bounded o D : valid_operation o → bounded_rows D → bounded_rows (exec o D).1.
Proof.
  intros [[Hk0 Hk] Hv] Hb. destruct o as [k v|k]; cbn [exec fst op_key op_value] in *.
  - apply map_Forall_insert_2; [|done]. eauto.
  - by apply map_Forall_delete.
Qed.

(** The tables of one round against the abstract maps. *)
Lemma apply_member_ok e single req data acc d R D :
  requests_rep req R → t_equiv data D → is_u64 (le_index e) = true →
  match spec_member e d R D with
  | Some (R', D', r) => ∃ req' data', apply_member (TB := TB) e single (req, data, acc) d
      = Ok (req', data', if single then Some r else acc) ∧ requests_rep req' R' ∧ t_equiv data' D'
  | None => apply_member e single (req, data, acc) d = Err (RequestConflict (dk_id d))
  end.
Proof.
  intros Hreq Hdata Hu. unfold spec_member, apply_member.
  rewrite (read_request_ok _ _ _ Hreq). cbn [mbind result_bind]. fold (dk_id d) (dk_hash d).
  destruct (R !! dk_id d) as [r|].
  - unfold neqb. destruct (eqb _ _); cbn [negb reject_if mbind result_bind]; [|done]. by exists req, data.
  - destruct (run_operation_ok (kc_operation (dk_command d)) data D Hdata) as [Hd Hr].
    destruct (run_operation _ data) as [data' r], (exec _ D) as [D' r']. cbn [fst snd] in *. subst r'.
    cbn [mbind result_bind]. do 2 eexists. split; [reflexivity|]. split; [|done]. by apply requests_insert.
Qed.

Lemma try_fold_bind {E A B} (f : B → A → result E B) b x l b' :
  f b x = Ok b' → try_fold f b (x :: l) = try_fold f b' l.
Proof. intros Hf. cbn. by rewrite Hf. Qed.

Lemma apply_members_ok e single ds req data acc R D :
  requests_rep req R → t_equiv data D → is_u64 (le_index e) = true →
  match spec_members e ds R D with
  | Some (R', D', rs) => ∃ req' data', try_fold (apply_member (TB := TB) e single) (req, data, acc) ds
      = Ok (req', data', if single then match last rs with Some r => Some r | None => acc end else acc)
      ∧ requests_rep req' R' ∧ t_equiv data' D'
  | None => ∃ d, d ∈ ds ∧ try_fold (apply_member (TB := TB) e single) (req, data, acc) ds
      = Err (RequestConflict (dk_id d))
  end.
Proof.
  revert req data acc R D; induction ds as [|d ds IH]; intros req data acc R D Hreq Hdata Hu; cbn [spec_members].
  - exists req, data. by destruct single.
  - pose proof (apply_member_ok e single req data acc d R D Hreq Hdata Hu) as Hm1.
    destruct (spec_member e d R D) as [[[R1 D1] r]|]; cbn [mbind option_bind].
    + destruct Hm1 as (req1 & data1 & Hm1 & Hreq1 & Hdata1). rewrite (try_fold_bind _ _ _ _ _ Hm1).
      specialize (IH req1 data1 (if single then Some r else acc) R1 D1 Hreq1 Hdata1 Hu).
      destruct (spec_members e ds R1 D1) as [[[R2 D2] rs]|]; cbn [mbind option_bind].
      * destruct IH as (req2 & data2 & -> & ?). exists req2, data2. split; [|done].
        rewrite last_cons. by destruct single, (last rs).
      * destruct IH as (d' & Hin & ->). exists d'. split; [by right|done].
    + exists d. split; [left|]. cbn [try_fold]. by rewrite Hm1.
Qed.

Lemma spec_members_bounded e ds R D R' D' rs :
  Forall decoded_ok ds → spec_members e ds R D = Some (R', D', rs) →
  bounded_rows D → bounded_rows D' ∧ length rs = length ds.
Proof.
  intros Hok. revert R D rs; induction Hok as [|d ds [[Hv _] _] _ IH]; intros R D rs Hm Hb; cbn [spec_members] in Hm.
  - by injection Hm as <- <- <-.
  - destruct (spec_member e d R D) as [[[R1 D1] r]|] eqn:Hm1; [|done]. cbn in Hm.
    destruct (spec_members e ds R1 D1) as [[[R2 D2] rs2]|] eqn:Hm2; [|done]. injection Hm as <- <- <-.
    apply IH in Hm2 as [Hb2 Hl]; [split; [done|cbn; lia]|]. unfold spec_member in Hm1.
    destruct (R !! dk_id d) as [rec|]; [destruct (eqb _ _); [|done]; by injection Hm1 as <- <- <-|].
    destruct (exec _ D) as [D3 r3] eqn:He. injection Hm1 as <- <- <-.
    change D3 with (D3, r3).1. rewrite <-He. apply exec_bounded; [|done]. by apply validate_Ok in Hv as [_ Hv].
Qed.
(** ** Replays *)

Lemma replay_members_ok req R ds single acc :
  requests_rep req R → covered R ds →
  try_fold (replay_member (TB := TB) req single) acc ds
  = Ok (if single then match last ds with Some d => kr_result <$> R !! dk_id d | None => acc end else acc).
Proof.
  intros Hreq Hc. revert acc; induction Hc as [|d ds (r & Hr & Hh) _ IH]; intros acc; [by destruct single|].
  rewrite (try_fold_bind _ _ _ _ (if single then Some (kr_result r) else acc)).
  - rewrite IH, last_cons. destruct single; [|done]. destruct (last ds); [done|]. by rewrite Hr.
  - unfold replay_member. fold (dk_id d) (dk_hash d). rewrite (read_request_ok _ _ _ Hreq), Hr.
    cbn [ok_or mbind result_bind]. rewrite Hh, neqb_refl. by destruct single.
Qed.

Lemma replay_single req R ds :
  requests_rep req R → covered R ds →
  try_fold (replay_member (TB := TB) req (is_single ds)) None ds
  = Ok (d ← only ds; kr_result <$> R !! dk_id d).
Proof.
  intros Hreq Hc. rewrite (replay_members_ok _ _ _ _ _ Hreq Hc). unfold is_single.
  by destruct ds as [|d [|d' ds]].
Qed.

Definition decode_opt e : result KvError (option (list DecodedKvCommand)) :=
  if eqb (le_entry_type e) Command
  then cs ← decode_replicated_kv_commands (le_payload e); Ok (Some cs) else Ok None.

Lemma tip_last s e : last (kv_log s) = Some e → kv_tip_hash s = le_hash e.
Proof. unfold kv_tip_hash, tip_hash. by intros ->. Qed.

Lemma covered_decode R e : covered_entry R e → ∃ o, decode_opt e = Ok o.
Proof.
  unfold covered_entry, decode_opt. destruct (eqb _ _) eqn:Ht; [|eauto].
  rewrite eqb_true in Ht. intros (ds & -> & _); [done|]. cbn. eauto.
Qed.

Lemma replay_last sm s e o :
  represents sm s → last (kv_log s) = Some e → decode_opt e = Ok o →
  replay_entry (sm_database sm) (sm_cluster_id sm) e (kv_tip_hash s) o
  = Ok (replay_result e (kv_receipts s)) ∧ le_index e = kv_tip_index s
  ∧ entry_of (sm_cluster_id sm) (sm_epoch sm) (sm_config_id sm) e = true.
Proof.
  intros Hrep Hl Ho. destruct (rep_qlog _ _ Hrep) as (tq & Htq & Hq). destruct (rep_requests _ _ Hrep) as (tr & Htr & Hr).
  pose proof Hl as Hk. rewrite last_lookup in Hk. apply (kv_chain_lookup _ _ _ _ _ _ _ _ (rep_chain _ _ Hrep)) in Hk as (Hi & Hof & Hfit).
  assert (length (kv_log s) ≠ 0) as Hne by (destruct (kv_log s); [done|cbn; lia]).
  assert (le_index e = kv_tip_index s) as Hidx by (unfold kv_tip_index; lia).
  split_and!; [|done|done]. unfold replay_entry. rewrite (tip_last s e Hl), neqb_refl, Htq. cbn [reject_if mbind result_bind].
  rewrite write_table_Some, (Hq (le_index e)), Hidx, (log_at_tip s e Hl). cbn [fmap option_fmap option_map ok_or mbind result_bind].
  rewrite (embedded_reads _ _ _ _ (rep_cluster _ _ Hrep) Hof Hfit). cbn [mbind result_bind]. rewrite neqb_refl. cbn [reject_if mbind result_bind].
  unfold decode_opt, replay_result in *. destruct (eqb _ _) eqn:Ht; [|by injection Ho as <-].
  rewrite eqb_true in Ht. pose proof (rep_covered _ _ Hrep) as Hcov. rewrite Forall_forall in Hcov.
  destruct (Hcov e) as (ds & Hds & Hc); [by apply last_Some_elem_of|done|]. rewrite Hds in Ho |- *. injection Ho as <-.
  rewrite Htr. by apply replay_single.
Qed.

Lemma replay_other sm s e o :
  represents sm s → le_index e = kv_tip_index s → last (kv_log s) ≠ Some e →
  ∃ err, replay_entry (sm_database sm) (sm_cluster_id sm) e (kv_tip_hash s) o = Err err.
Proof.
  intros Hrep Hi Hl. destruct (rep_qlog _ _ Hrep) as (tq & Htq & Hq). unfold replay_entry.
  destruct (neqb (le_hash e) _); [by eexists|]. cbn [reject_if mbind result_bind]. rewrite Htq.
  rewrite write_table_Some, (Hq (le_index e)), Hi.
  destruct (last (kv_log s)) as [e0|] eqn:Hlast.
  - rewrite (log_at_tip s e0 Hlast). cbn [fmap option_fmap option_map ok_or mbind result_bind].
    rewrite last_lookup in Hlast. apply (kv_chain_lookup _ _ _ _ _ _ _ _ (rep_chain _ _ Hrep)) in Hlast as (_ & Hof & Hfit).
    rewrite (embedded_reads _ _ _ _ (rep_cluster _ _ Hrep) Hof Hfit). cbn [mbind result_bind].
    rewrite (proj2 (neqb_true e0 e)) by congruence. by eexists.
  - apply last_None in Hlast. unfold kv_tip_index. rewrite Hlast. unfold log_at. cbn [length]. rewrite N.add_0_r, N.ltb_irrefl.
    by eexists.
Qed.
(** ** The next entry *)

Lemma only_last {A B} (ds : list A) (rs : list B) :
  length rs = length ds →
  (if is_single ds then match last rs with Some r => Some r | None => None end else None) = only rs.
Proof. unfold is_single. destruct ds as [|d [|d' ds]], rs as [|r [|r' rs]]; cbn; (done || lia). Qed.

Lemma apply_contents_ok sm s e o :
  represents sm s → decode_opt e = Ok o → is_u64 (le_index e) = true →
  match spec_contents e (kv_receipts s) (kv_data s) with
  | Some (R, D, res) => ∃ req data, apply_contents (sm_database sm) e o = Ok (Some req, Some data, res)
      ∧ requests_rep req R ∧ t_equiv data D ∧ bounded_rows D
  | None => ∃ err, apply_contents (sm_database sm) e o = Err err
  end.
Proof.
  intros Hrep Ho Hu. destruct (rep_data _ _ Hrep) as (td & Htd & Hd). destruct (rep_requests _ _ Hrep) as (tr & Htr & Hr).
  pose proof (rep_rows _ _ Hrep) as Hb. unfold apply_contents, spec_contents, decode_opt in *.
  destruct (le_entry_type e); rewrite ?Htd, ?Htr; cbn [eqb] in Ho.
  - rewrite eqb_refl in Ho. destruct (decode_replicated_kv_commands (le_payload e)) as [ds|] eqn:Hds; [|done].
    injection Ho as <-. cbn [option_of mbind option_bind ok_or result_bind]. rewrite !write_table_Some.
    pose proof (apply_members_ok e (is_single ds) ds tr td None _ _ Hr Hd Hu) as Hm.
    destruct (spec_members e ds (kv_receipts s) (kv_data s)) as [[[R D] rs]|] eqn:Hsm; cbn [mbind option_bind].
    + destruct Hm as (req & data & -> & Hreq & Hdata). cbn [mbind result_bind].
      apply decode_commands_Ok in Hds as (_ & Hok & _). apply spec_members_bounded in Hsm as [HbD Hlen]; [|done..].
      exists req, data. split; [by rewrite only_last|done].
    + destruct Hm as (d & _ & ->). by eexists.
  - destruct (recognize_parts ConfigChangeEntry (le_payload e)); cbn [is_ok map_err mbind result_bind]; eauto 7.
  - eauto 7.
  - eauto 7.
  - destruct (_ =? 0)%N; cbn [negb reject_if mbind result_bind]; eauto 7.
Qed.

Lemma follows_cases i h e :
  follows i h e = true ↔ le_index e = (i + 1)%N ∧ le_prev_hash e = h.
Proof. unfold follows. by rewrite andb_true_iff, !eqb_true. Qed.

(** The database after an entry, against the abstract successor. *)
Definition next_state s e (R : receipts) (D : rows) : KvState := mkKvState D R (kv_base s) (kv_log s ++ [e]).

Lemma next_tip s e R D :
  kv_tip_index (next_state s e R D) = (kv_tip_index s + 1)%N ∧ kv_tip_hash (next_state s e R D) = le_hash e.
Proof.
  unfold kv_tip_index, kv_tip_hash, next_state. cbn [kv_base kv_log]. rewrite length_app, tip_hash_snoc. cbn [length].
  split; [lia|done].
Qed.

Lemma represents_next sm s e R D res (req data tp : TB) (tq : TU) :
  represents sm s → entry_fits e = true →
  entry_of (sm_cluster_id sm) (sm_epoch sm) (sm_config_id sm) e = true →
  follows (kv_tip_index s) (kv_tip_hash s) e = true → (kv_tip_index s + 1 ≤ u64_max)%N →
  spec_contents e (kv_receipts s) (kv_data s) = Some (R, D, res) →
  requests_rep req R → t_equiv data D → bounded_rows D →
  db_qlog (sm_database sm) = Some tq → db_progress (sm_database sm) = Some tp →
  represents (with_database sm (mkRedb (Some data) (Some req)
    (Some (t_insert META_APPLIED_HASH (as_bytes (le_hash e)) (t_insert META_APPLIED_INDEX (be_bytes 8 (le_index e)) tp)))
    (Some (t_insert (le_index e) (encode_segment [e]) tq)))) (next_state s e R D).
Proof.
  intros Hrep Hfit Hof Hfo Hmax Hsc Hreq Hdata HbD Htq Htp. destruct (next_tip s e R D) as [Hti Hth].
  pose proof Hfo as [Hi _]%follows_cases. apply spec_contents_grow in Hsc as (Hsub & Hcov & _).
  destruct (rep_qlog _ _ Hrep) as (tq' & Htq' & Hq). rewrite Htq in Htq'. injection Htq' as <-.
  destruct (rep_progress _ _ Hrep) as (tp' & Htp' & Hp). rewrite Htp in Htp'. injection Htp' as <-.
  split; cbn [sm_cluster_id sm_node_id sm_epoch sm_config_id sm_database with_database db_data db_requests db_progress db_qlog next_state kv_data kv_receipts kv_base kv_log]; try by apply Hrep.
  - by exists data.
  - by exists req.
  - eexists. split; [reflexivity|]. fold (next_state s e R D). rewrite Hti, Hth, <-Hi. by eapply progress_step.
  - eexists. split; [reflexivity|]. intros i. rewrite log_at_snoc. fold (kv_tip_index s).
    destruct (N.eqb_spec i (kv_tip_index s + 1)) as [->|Hne]; [by rewrite <-Hi, get_insert|].
    rewrite get_insert_ne by (rewrite Hi; congruence). apply Hq.
  - apply kv_chain_snoc. split_and!; try done. apply Hrep.
  - fold (next_state s e R D). rewrite Hti. by apply N.leb_le.
  - done.
  - apply Forall_app. split; [|by constructor].
    pose proof (rep_covered _ _ Hrep) as Hall. apply (Forall_impl _ _ _ Hall). intros x Hx Ht.
    destruct (Hx Ht) as (ds & Hds & Hc). exists ds. split; [done|]. by eapply covered_weaken.
Qed.

Lemma apply_next_ok sm s e o :
  represents sm s → decode_opt e = Ok o → entry_fits e = true →
  entry_of (sm_cluster_id sm) (sm_epoch sm) (sm_config_id sm) e = true →
  match spec_next (sm_cluster_id sm) (sm_epoch sm) (sm_config_id sm) s e with
  | Some (s', out) => ∃ db, apply_next (sm_database sm) e (kv_tip_index s) (kv_tip_hash s) o = Ok (db, out)
      ∧ represents (with_database sm db) s'
  | None => ∃ err, apply_next (sm_database sm) e (kv_tip_index s) (kv_tip_hash s) o = Err err
  end.
Proof.
  intros Hrep Ho Hfit Hof. unfold spec_next, apply_next. rewrite Hof. cbn [andb]. unfold checked_add.
  destruct (N.leb_spec (kv_tip_index s + 1) u64_max) as [Hmax|]; [|rewrite andb_false_r; by eexists].
  rewrite andb_true_r. cbn [ok_or mbind result_bind].
  destruct (follows (kv_tip_index s) (kv_tip_hash s) e) eqn:Hfo.
  2:{ unfold follows in Hfo. unfold neqb. destruct (eqb (le_index e) _); [|by eexists]. cbn [andb] in Hfo. rewrite Hfo.
      by eexists. }
  pose proof Hfo as [Hi Hp]%follows_cases. assert (is_u64 (le_index e) = true) as Hu by (rewrite Hi; by apply N.leb_le).
  rewrite <-Hi, Hp, !neqb_refl. cbn [reject_if mbind result_bind].
  pose proof (apply_contents_ok sm s e o Hrep Ho Hu) as Hc.
  destruct (spec_contents e (kv_receipts s) (kv_data s)) as [[[R D] res]|] eqn:Hsc; cbn [mbind option_bind].
  2:{ destruct Hc as [err ->]. by eexists. }
  destruct Hc as (req & data & -> & Hreq & Hdata & HbD). cbn [mbind result_bind].
  destruct (rep_qlog _ _ Hrep) as (tq & Htq & Hq). destruct (rep_progress _ _ Hrep) as (tp & Htp & _).
  rewrite Htq, Htp, !write_table_Some, Hq.
  assert (log_at (la_index (kv_base s)) (kv_log s) (le_index e) = None) as ->.
  { rewrite Hi. unfold log_at, kv_tip_index. destruct (_ <? _)%N; [|done]. apply lookup_ge_None_2. lia. }
  cbn [fmap option_fmap option_map is_some reject_if mbind result_bind].
  eexists. split; [reflexivity|]. by eapply represents_next.
Qed.

Lemma gate_cases {A} sm e (k : result KvError A) :
  let gated := (_ ← validate_entry_identity sm e;
    _ ← reject_if (neqb (recompute_hash e) (le_hash e)) (InvalidEntry "entry hash does not match content"); k) in
  if entry_of (sm_cluster_id sm) (sm_epoch sm) (sm_config_id sm) e then gated = k else ∃ err, gated = Err err.
Proof.
  cbn zeta. unfold validate_entry_identity, entry_of, neqb.
  repeat (destruct (eqb _ _); cbn [negb andb reject_if mbind result_bind]; [|by eexists]). done.
Qed.

Lemma spec_contents_undecoded e R D err : decode_opt e = Err err → spec_contents e R D = None.
Proof.
  unfold decode_opt, spec_contents. destruct (le_entry_type e); cbn [eqb]; try done.
  rewrite eqb_refl. by destruct (decode_replicated_kv_commands (le_payload e)).
Qed.

Lemma current_tip sm s :
  represents sm s →
  read_u64_meta (write_table (db_progress (sm_database sm))) META_APPLIED_INDEX = Ok (kv_tip_index s)
  ∧ read_hash_meta (write_table (db_progress (sm_database sm))) META_APPLIED_HASH = Ok (kv_tip_hash s).
Proof.
  intros Hrep. destruct (rep_progress _ _ Hrep) as (tp & -> & Hp). rewrite write_table_Some. split.
  - apply read_u64_ok; [apply Hp|apply Hrep].
  - apply read_hash_ok, Hp.
Qed.

(** The transaction of [apply_entry]. *)
Definition apply_txn sm e : result KvError (Redb TB TU * ApplyOutcome) :=
  _ ← validate_entry_identity sm e;
  _ ← reject_if (neqb (recompute_hash e) (le_hash e)) (InvalidEntry "entry hash does not match content");
  o ← decode_opt e;
  current_index ← read_u64_meta (write_table (db_progress (sm_database sm))) META_APPLIED_INDEX;
  current_hash ← read_hash_meta (write_table (db_progress (sm_database sm))) META_APPLIED_HASH;
  if eqb (le_index e) current_index then
    result ← replay_entry (sm_database sm) (sm_cluster_id sm) e current_hash o;
    Ok (sm_database sm, mkOutcome current_index current_hash result)
  else apply_next (sm_database sm) e current_index current_hash o.

(** The transaction once the entry is of this machine and the tip is known. *)
Lemma apply_txn_gated sm s e :
  represents sm s → entry_of (sm_cluster_id sm) (sm_epoch sm) (sm_config_id sm) e = true →
  apply_txn sm e =
  (o ← decode_opt e;
   if eqb (le_index e) (kv_tip_index s) then
     result ← replay_entry (sm_database sm) (sm_cluster_id sm) e (kv_tip_hash s) o;
     Ok (sm_database sm, mkOutcome (kv_tip_index s) (kv_tip_hash s) result)
   else apply_next (sm_database sm) e (kv_tip_index s) (kv_tip_hash s) o).
Proof.
  intros Hrep Hof. unfold apply_txn. destruct (current_tip sm s Hrep) as [-> ->].
  match goal with |- context [validate_entry_identity sm e ≫= λ _, reject_if _ _ ≫= λ _, ?k] =>
    pose proof (gate_cases sm e k) as Hgate end.
  rewrite Hof in Hgate. exact Hgate.
Qed.

Lemma with_same_database sm : with_database sm (sm_database sm) = sm.
Proof. by destruct sm. Qed.

Lemma apply_txn_ok sm s e :
  represents sm s → entry_fits e = true →
  match spec_apply (sm_cluster_id sm) (sm_epoch sm) (sm_config_id sm) s e with
  | Some (s', out) => ∃ db, apply_txn sm e = Ok (db, out) ∧ represents (with_database sm db) s'
  | None => ∃ err, apply_txn sm e = Err err
  end.
Proof.
  intros Hrep Hfit. unfold spec_apply. destruct (entry_of (sm_cluster_id sm) (sm_epoch sm) (sm_config_id sm) e) eqn:Hof.
  - rewrite (apply_txn_gated sm s e Hrep Hof). destruct (decode_opt e) as [o|err] eqn:Ho; cbn [mbind result_bind].
    + destruct (eqb (le_index e) (kv_tip_index s)) eqn:Hi; [|by apply apply_next_ok].
      rewrite eqb_true in Hi. destruct (eqb (last (kv_log s)) (Some e)) eqn:Hl.
      * rewrite eqb_true in Hl. destruct (replay_last sm s e o Hrep Hl Ho) as [-> _].
        exists (sm_database sm). cbn [mbind result_bind]. rewrite Hi, (tip_last s e Hl), with_same_database. done.
      * rewrite eqb_false in Hl. destruct (replay_other sm s e o Hrep Hi Hl) as [err ->]. by eexists.
    + destruct (eqb (le_index e) _); [destruct (eqb (last _) _) eqn:Hl|]; [exfalso|by eexists|].
      * rewrite eqb_true in Hl. pose proof (rep_covered _ _ Hrep) as Hall. rewrite Forall_forall in Hall.
        destruct (covered_decode _ e (Hall e (last_Some_elem_of _ _ Hl))) as [o Ho']. congruence.
      * unfold spec_next. rewrite Hof, (spec_contents_undecoded _ _ _ _ Ho). destruct (_ && _); by eexists.
  - assert (∃ err, apply_txn sm e = Err err) as [err ->].
    { unfold apply_txn. match goal with |- context [validate_entry_identity sm e ≫= λ _, reject_if _ _ ≫= λ _, ?k] =>
        pose proof (gate_cases sm e k) as Hgate end. rewrite Hof in Hgate. exact Hgate. }
    destruct (eqb (le_index e) _); [destruct (eqb (last _) _) eqn:Hl|]; [exfalso|by eexists|].
    + rewrite eqb_true in Hl. rewrite last_lookup in Hl.
      apply (kv_chain_lookup _ _ _ _ _ _ _ _ (rep_chain _ _ Hrep)) in Hl as (_ & Hof' & _). congruence.
    + unfold spec_next. rewrite Hof. by eexists.
Qed.

Lemma apply_entry_ok sm s e :
  represents sm s → entry_fits e = true →
  match spec_apply (sm_cluster_id sm) (sm_epoch sm) (sm_config_id sm) s e with
  | Some (s', out) => ∃ db, apply_entry sm e = (with_database sm db, Ok out)
      ∧ represents (with_database sm db) s'
  | None => ∃ err, apply_entry sm e = (sm, Err err)
  end.
Proof.
  intros Hrep Hfit. pose proof (apply_txn_ok sm s e Hrep Hfit) as Htxn.
  change (apply_entry sm e) with (with_write sm (apply_txn sm e)).
  destruct (spec_apply _ _ _ s e) as [[s' out]|].
  - destruct Htxn as (db & -> & Hr). by eexists.
  - destruct Htxn as [err ->]. by eexists.
Qed.

(** C21. [apply_entry] implements the abstract machine: in every state that
    represents an abstract one, applying an entry gives exactly the abstract
    outcome and a database that represents the abstract successor, or, when the
    abstract machine refuses the entry, an error that leaves the database as it was. *)
Theorem kv_apply_refines sm s e :
  represents sm s → entry_fits e = true →
  match spec_apply (sm_cluster_id sm) (sm_epoch sm) (sm_config_id sm) s e with
  | Some (s', out) => ∃ db, apply_entry sm e = (with_database sm db, Ok out)
      ∧ represents (with_database sm db) s'
  | None => ∃ err, apply_entry sm e = (sm, Err err)
  end.
Proof. apply apply_entry_ok. Qed.
End refine.
