(* ===== verification/KvOps.v ===== *)
(** * KvOps: opening, compaction, the embedded log and snapshots

    The operations of [RedbStateMachine] beside [apply_entry], against the abstract
    machine: a new database is the empty state, an existing one opens exactly for
    its own identity; compaction forgets a prefix of the embedded log and nothing
    else; the embedded log is read back as it was applied; a snapshot that is
    restored and opened on another node is the same state. *)

From S2P Require Import Prelude Bytes Core ConfigChange LogSegment KvCodec KvStore KvTables KvSpec KvRefine.
From Stdlib Require Strings.Byte.

Section ops.
Context `{Sha256} {TB TU : Type} `{RedbTable bytes TB, !RedbLaws bytes TB}
  `{RedbTable N TU, !RedbLaws N TU} `{RedbFile TB TU, !RedbFileLaws TB TU}.
Implicit Types (sm : RedbStateMachine TB TU) (s : KvState) (e : LogEntry) (t : TB).

(** ** Opening *)

Definition kv_empty : KvState := mkKvState ∅ ∅ (mkLogAnchor 0 LogHash_ZERO) [].

Lemma not_empty_id (l : bytes) : l ≠ [] → (blen l =? 0)%N = false.
Proof. intros Hl. apply N.eqb_neq. destruct l; [done|]. rewrite blen_cons. lia. Qed.

Lemma open_new c n ep g :
  c ≠ [] → n ≠ [] →
  ∃ sm : RedbStateMachine TB TU, kv_open None c n ep g = Ok sm ∧ represents sm kv_empty
    ∧ sm = mkMachine (sm_database sm) c n ep g.
Proof.
  intros Hc Hn. unfold kv_open. rewrite !not_empty_id by done. cbn [orb reject_if mbind result_bind].
  eexists. split; [reflexivity|]. split; [|done]. split; cbn [sm_cluster_id sm_node_id sm_database db_data db_requests db_progress db_qlog]; try done.
  - eexists. split; [reflexivity|]. exact (new_equiv (T1 := TB) (T2 := rows)).
  - eexists. split; [reflexivity|]. split; [exact (get_new (T := TB))|apply map_Forall_empty].
  - eexists. split; [reflexivity|].
    split; repeat first [rewrite get_insert; reflexivity | rewrite get_insert_ne by done].
  - eexists. split; [reflexivity|]. intros i. unfold log_at. etrans; [exact (get_new (T := TU) i)|].
    by destruct (_ <? _)%N.
Qed.

(** The identity check of an existing database. *)
Lemma require_meta_ok t key m expected :
  t_get key t = Some m →
  require_meta t key expected = if eqb m expected then Ok ()
    else Err (InvalidEntry "database metadata {key} does not match open parameters").
Proof. intros Hg. unfold require_meta. rewrite Hg. cbn [ok_or mbind result_bind]. unfold neqb. by destruct (eqb m expected). Qed.

Definition same_identity sm (c n : bytes) (ep g : N) : bool :=
  eqb (sm_cluster_id sm) c && eqb (sm_node_id sm) n && eqb (be_bytes 8 (sm_epoch sm)) (be_bytes 8 ep)
  && eqb (be_bytes 8 (sm_config_id sm)) (be_bytes 8 g).

Lemma open_existing sm s c n ep g :
  represents sm s →
  kv_open (Some (sm_database sm)) c n ep g
  = if (blen c =? 0)%N || (blen n =? 0)%N then Err (InvalidEntry "cluster and node ids must not be empty")
    else if same_identity sm c n ep g then Ok (mkMachine (sm_database sm) c n ep g)
    else Err (InvalidEntry "database metadata {key} does not match open parameters").
Proof.
  intros Hrep. unfold kv_open. destruct (_ || _); [done|]. cbn [reject_if mbind result_bind from_option id].
  unfold initialize_or_validate. destruct (rep_data _ _ Hrep) as (td & -> & _).
  destruct (rep_requests _ _ Hrep) as (tr & -> & _). destruct (rep_qlog _ _ Hrep) as (tq & -> & _).
  destruct (rep_progress _ _ Hrep) as (tp & -> & Hp). pose proof (pr_cluster _ _ _ _ _ _ _ Hp) as Hcl.
  rewrite Hcl. cbn [is_some negb reject_if mbind result_bind].
  rewrite (require_meta_ok _ _ _ _ Hcl), (require_meta_ok _ _ _ _ (pr_node _ _ _ _ _ _ _ Hp)),
    (require_meta_ok _ _ _ _ (pr_epoch _ _ _ _ _ _ _ Hp)), (require_meta_ok _ _ _ _ (pr_config _ _ _ _ _ _ _ Hp)),
    (require_meta_ok _ _ _ _ (pr_fingerprint _ _ _ _ _ _ _ Hp)), eqb_refl.
  rewrite (read_u64_ok _ _ _ (pr_index _ _ _ _ _ _ _ Hp) (rep_tip _ _ Hrep)), (read_hash_ok _ _ _ (pr_hash _ _ _ _ _ _ _ Hp)).
  unfold same_identity. by destruct (eqb (sm_cluster_id sm) c), (eqb (sm_node_id sm) n),
    (eqb (be_bytes 8 (sm_epoch sm)) _), (eqb (be_bytes 8 (sm_config_id sm)) _).
Qed.

(** ** Compaction of the embedded log *)

Definition spec_compact (s : KvState) (anchor : N) : KvState :=
  let k := N.to_nat (anchor - 1 - la_index (kv_base s)) in
  mkKvState (kv_data s) (kv_receipts s)
    (mkLogAnchor (la_index (kv_base s) + N.of_nat k) (tip_hash (la_hash (kv_base s)) (take k (kv_log s))))
    (drop k (kv_log s)).

Lemma get_fold_remove (keys : list N) (t : TU) (i : N) :
  t_get i (fold_left (λ (t : TU) (index : N), t_remove index t) keys t)
  = if bool_decide (i ∈ keys) then None else t_get i t.
Proof.
  revert t; induction keys as [|k keys IH]; intros t; cbn [fold_left]; [done|]. rewrite IH.
  destruct (decide (i = k)) as [->|Hne].
  - rewrite get_remove, (bool_decide_true (k ∈ k :: keys)) by left. by destruct (bool_decide _).
  - rewrite get_remove_ne by done. by rewrite (bool_decide_ext (i ∈ k :: keys) (i ∈ keys)) by set_solver.
Qed.

Lemma kv_chain_drop c ep g i h log k :
  kv_chain c ep g i h log = true → k ≤ length log →
  kv_chain c ep g (i + N.of_nat k) (tip_hash h (take k log)) (drop k log) = true.
Proof.
  revert i h k; induction log as [|x log IH]; intros i h [|k] Hc Hk; cbn [length] in Hk; try lia.
  - done.
  - by rewrite N.add_0_r.
  - cbn [kv_chain] in Hc. rewrite !andb_true_iff in Hc. destruct Hc as [_ Hc]. cbn [take drop]. rewrite tip_hash_cons.
    replace (i + N.of_nat (S k))%N with (i + 1 + N.of_nat k)%N by lia. apply IH; [done|lia].
Qed.

Lemma tip_hash_join h l k : tip_hash (tip_hash h l) k = tip_hash h (l ++ k).
Proof. unfold tip_hash. rewrite last_app. by destruct (last k), (last l). Qed.

Lemma spec_compact_tip s anchor :
  (anchor ≤ kv_tip_index s)%N →
  kv_tip_index (spec_compact s anchor) = kv_tip_index s ∧ kv_tip_hash (spec_compact s anchor) = kv_tip_hash s.
Proof.
  intros Ha. unfold spec_compact, kv_tip_index, kv_tip_hash in *. cbn [kv_base kv_log la_index la_hash]. split.
  - rewrite length_drop. lia.
  - by rewrite tip_hash_join, take_drop.
Qed.

Lemma compact_ok sm s anchor :
  represents sm s →
  if (kv_tip_index s <? anchor)%N then ∃ err, compact_embedded_log_before sm anchor = (sm, Err err)
  else ∃ db, compact_embedded_log_before sm anchor = (with_database sm db, Ok ())
    ∧ represents (with_database sm db) (spec_compact s anchor).
Proof.
  intros Hrep. unfold compact_embedded_log_before. destruct (current_tip sm s Hrep) as [-> _]. cbn [mbind result_bind].
  destruct (N.ltb_spec (kv_tip_index s) anchor) as [|Ha]; cbn [reject_if mbind result_bind with_write]; [by eexists|].
  eexists. split; [reflexivity|]. destruct (spec_compact_tip s anchor Ha) as [Hi Hh].
  destruct (rep_qlog _ _ Hrep) as (tq & Htq & Hq). destruct (rep_progress _ _ Hrep) as (tp & Htp & Hp).
  split; rewrite ?Hi, ?Hh; cbn [sm_cluster_id sm_node_id sm_epoch sm_config_id sm_database with_database db_data db_requests db_progress db_qlog];
    try by apply Hrep.
  - rewrite Htp. by exists tp.
  - rewrite Htq, write_table_Some. eexists. split; [reflexivity|]. intros i. rewrite get_fold_remove, Hq.
    cbn [spec_compact kv_base kv_log la_index]. unfold kv_tip_index in Ha.
    assert (i ∈ (t_range Unbounded (Excluded anchor) tq).*1 ↔ is_Some (log_at (la_index (kv_base s)) (kv_log s) i) ∧ (i < anchor)%N) as Hin.
    { rewrite list_elem_of_fmap. split.
      - intros ([k v] & -> & Hkv). apply range_elem in Hkv as (Hg & _ & Hb); [|done]. rewrite Hq in Hg. cbn in Hb |- *.
        apply ltb_lt, N.compare_lt_iff in Hb. split; [|done]. by destruct (log_at _ _ k); eauto.
      - intros [[e0 He0] Hlt]. exists (i, encode_segment [e0]). split; [done|]. apply range_elem; [done|].
        rewrite Hq, He0. split_and!; [done|done|]. cbn. by apply ltb_lt, N.compare_lt_iff. }
    unfold log_at in *. set (b := la_index (kv_base s)) in *.
    destruct (N.ltb_spec b i) as [Hbi|Hbi].
    + rewrite lookup_drop. destruct (decide (i < anchor)%N) as [Hlt|Hge].
      * destruct (N.ltb_spec (b + N.of_nat (N.to_nat (anchor - 1 - b))) i); [lia|].
        destruct (kv_log s !! _) eqn:Hl; [|by destruct (bool_decide _)]. by rewrite bool_decide_true by (apply Hin; eauto).
      * destruct (N.ltb_spec (b + N.of_nat (N.to_nat (anchor - 1 - b))) i); [|lia].
        rewrite bool_decide_false by (rewrite Hin; lia). do 2 f_equal. lia.
    + destruct (N.ltb_spec (b + N.of_nat (N.to_nat (anchor - 1 - b))) i); [lia|]. by destruct (bool_decide _).
  - apply kv_chain_drop; [apply Hrep|]. unfold kv_tip_index in Ha. lia.
  - cbn [spec_compact kv_receipts kv_log]. apply Forall_drop, Hrep.
Qed.
(** ** Reading the embedded log *)

Definition log_row e : N * bytes := (le_index e, encode_segment [e]).

Lemma log_rows_sorted c ep g i h log :
  kv_chain c ep g i h log = true →
  StronglySorted (key_lt fst) (log_row <$> log) ∧ Forall (λ row : N * bytes, i < row.1)%N (log_row <$> log).
Proof.
  revert i h; induction log as [|e log IH]; intros i h Hc; [split; constructor|].
  cbn [kv_chain] in Hc. rewrite !andb_true_iff in Hc. destruct Hc as [[[Hf _] _] Hc].
  apply follows_cases in Hf as [Hi _]. apply IH in Hc as [Hs Hlt]. cbn [fmap list_fmap]. split; constructor.
  - done.
  - apply (Forall_impl _ _ _ Hlt). intros [k v] Hk. unfold key_lt, log_row. cbn in *. apply N.compare_lt_iff. lia.
  - cbn. lia.
  - apply (Forall_impl _ _ _ Hlt). intros [k v] Hk. cbn in *. lia.
Qed.

(** The entries with an index of an interval inside the embedded log. *)
Definition log_slice (base : N) (log : list LogEntry) (from through : N) : list LogEntry :=
  take (N.to_nat (through - from + 1)) (drop (N.to_nat (from - base - 1)) log).

Lemma kv_chain_take c ep g i h log n :
  kv_chain c ep g i h log = true → kv_chain c ep g i h (take n log) = true.
Proof.
  revert i h n. induction log as [|e log IH]; intros i h [|n]; cbn [take kv_chain]; try done.
  rewrite !andb_true_iff. intros [? Hl]. split; [done|]. by apply IH.
Qed.

Lemma log_slice_elem c ep g b h log from through e :
  kv_chain c ep g b h log = true → (b < from)%N → (from ≤ through)%N →
  e ∈ log_slice b log from through ↔ log_at b log (le_index e) = Some e ∧ (from ≤ le_index e ≤ through)%N.
Proof.
  intros Hc Hb Hft. unfold log_slice. rewrite list_elem_of_lookup. split.
  - intros (j & Hj). apply lookup_take_Some in Hj as [Hj Hn]. rewrite lookup_drop in Hj.
    destruct (kv_chain_lookup _ _ _ _ _ _ _ _ Hc Hj) as (Hi & _). unfold log_at.
    destruct (N.ltb_spec b (le_index e)); [|lia]. split; [|lia]. rewrite <-Hj. f_equal. lia.
  - intros [Hat Hr]. exists (N.to_nat (le_index e - from)). rewrite lookup_take_Some, lookup_drop. unfold log_at in Hat.
    destruct (N.ltb_spec b (le_index e)); [|done]. rewrite <-Hat. split; [f_equal; lia|lia].
Qed.

Lemma range_log c ep g b h log (tq : TU) from through :
  kv_chain c ep g b h log = true → qlog_rep tq b log → (b < from)%N → (from ≤ through)%N →
  t_range (Included from) (Included through) tq = log_row <$> log_slice b log from through.
Proof.
  intros Hc Hq Hb Hft. assert (range_ok (Included from) (Included through)) as Hok by by apply N.compare_le_iff.
  apply sorted_ext; [by apply range_sorted| |].
  - destruct (decide (N.to_nat (from - b - 1) ≤ length log)) as [Hle|Hgt].
    + by eapply log_rows_sorted, kv_chain_take, kv_chain_drop.
    + unfold log_slice. rewrite drop_ge, take_nil by lia. constructor.
  - intros [k v]. rewrite range_elem, Hq, list_elem_of_fmap by done. cbn [above below]. unfold leb, cmp, N_ord. split.
    + intros (Hg & Hlo & Hhi). destruct (log_at b log k) as [e|] eqn:Hat; [|done]. injection Hg as <-.
      assert (le_index e = k) as <-.
      { unfold log_at in Hat. destruct (N.ltb_spec b k); [|done]. apply (kv_chain_lookup _ _ _ _ _ _ _ _ Hc) in Hat. lia. }
      exists e. split; [done|]. apply (log_slice_elem _ _ _ _ _ _ _ _ _ Hc Hb Hft). split; [done|].
      destruct (N.compare_spec from (le_index e)), (N.compare_spec (le_index e) through); (done || lia).
    + intros (e & [= -> ->] & He). apply (log_slice_elem _ _ _ _ _ _ _ _ _ Hc Hb Hft) in He as [-> Hr]. split; [done|].
      split; [destruct (N.compare_spec from (le_index e))|destruct (N.compare_spec (le_index e) through)]; (done || lia).
Qed.

Lemma embedded_fold c ep g i h log acc x :
  c ≠ [] → kv_chain c ep g i h log = true → (i + N.of_nat (length log) < u64_max)%N → x = (i + 1)%N →
  try_fold (embedded_row c) (x, acc) (log_row <$> log) = Ok (x + N.of_nat (length log), acc ++ log)%N.
Proof.
  intros Hne Hc Hu ->. revert i h acc Hc Hu; induction log as [|e log IH]; intros i h acc Hc Hu; cbn [fmap list_fmap length] in *.
  - by rewrite app_nil_r, N.add_0_r.
  - cbn [kv_chain] in Hc. rewrite !andb_true_iff in Hc. destruct Hc as [[[Hf Ho] Hfit] Hc]. apply follows_cases in Hf as [Hi _].
    rewrite (try_fold_bind _ _ _ _ (i + 1 + 1, acc ++ [e])%N).
    + rewrite (IH (i + 1)%N (le_hash e)) by (done || lia). rewrite <-app_assoc. do 2 f_equal. lia.
    + cbn [embedded_row log_row]. rewrite Hi, neqb_refl. cbn [reject_if mbind result_bind].
      rewrite (embedded_reads _ _ _ _ Hne Ho Hfit). cbn [mbind result_bind]. rewrite Hi, neqb_refl. cbn [reject_if mbind result_bind].
      unfold checked_add. by destruct (N.leb_spec (i + 1 + 1) u64_max); [|lia].
Qed.

Lemma embedded_fold_Ok c rows x acc y es :
  try_fold (embedded_row c) (x, acc) rows = Ok (y, es) →
  ∀ i, (x ≤ i < y)%N → i ∈ rows.*1.
Proof.
  revert x acc; induction rows as [|[k v] rows IH]; intros x acc Hf i Hi; cbn [try_fold] in Hf.
  - injection Hf as <- <-. lia.
  - apply bind_Ok_inv in Hf as ([x1 acc1] & Hrow & Hf). cbn [embedded_row] in Hrow. res_inv. bool_prop.
    apply checked_add_Some in Hok2 as [-> _]. cbn [fmap list_fmap fst].
    destruct (decide (i = x)) as [->|Hne]; [subst; left|]. right. eapply IH; [exact Hf|lia].
Qed.

(** An index that the interval asks for and the log does not have. *)
Lemma embedded_outside sm s (tq : TU) from through i :
  represents sm s → qlog_rep tq (la_index (kv_base s)) (kv_log s) → (from ≤ through)%N →
  (from ≤ i ≤ through)%N → (i ≤ la_index (kv_base s) ∨ kv_tip_index s < i)%N →
  ∃ err, ('(expected, entries) ← try_fold (embedded_row (sm_cluster_id sm)) (from, [])
      (t_range (Included from) (Included through) tq);
    _ ← reject_if (expected <=? through)%N missing_index; Ok entries) = Err err.
Proof.
  intros Hrep Hq Hft Hi Hout. destruct (try_fold _ _ _) as [[y es]|err] eqn:Hf; [|by eexists].
  cbn [mbind result_bind]. destruct (N.leb_spec y through); [by eexists|]. exfalso.
  pose proof (embedded_fold_Ok _ _ _ _ _ _ Hf i ltac:(lia)) as ([k v] & -> & Hin)%list_elem_of_fmap.
  apply range_elem in Hin as (Hg & _); [|by apply N.compare_le_iff]. cbn [fst] in Hout. rewrite Hq in Hg.
  unfold log_at, kv_tip_index in *. destruct (N.ltb_spec (la_index (kv_base s)) k); [|done].
  rewrite lookup_ge_None_2 in Hg; [done|lia].
Qed.

(** The embedded log is read back as it was applied: an interval of indices is
    returned exactly when it lies inside the embedded log (after its base and up to
    the tip), and then it is that piece of the applied log, decoded; any other
    interval is an error. *)
Theorem embedded_log_reads sm s from through :
  represents sm s → (kv_tip_index s < u64_max)%N → (from ≤ through)%N →
  if (la_index (kv_base s) <? from)%N && (through <=? kv_tip_index s)%N
  then embedded_log_entries sm from through = Ok (log_slice (la_index (kv_base s)) (kv_log s) from through)
  else ∃ err, embedded_log_entries sm from through = Err err.
Proof.
  intros Hrep Hu Hft. unfold embedded_log_entries. destruct (rep_qlog _ _ Hrep) as (tq & -> & Hq).
  pose proof (rep_chain _ _ Hrep) as Hc. destruct (N.ltb_spec through from); [lia|]. cbn [read_table ok_or mbind result_bind].
  destruct (N.ltb_spec (la_index (kv_base s)) from) as [Hb|Hb]; [destruct (N.leb_spec through (kv_tip_index s)) as [Ht|Ht]|]; cbn [andb].
  - rewrite (range_log _ _ _ _ _ _ tq from through Hc Hq) by lia. set (b := la_index (kv_base s)) in *. unfold kv_tip_index in *. fold b in Ht, Hu.
    pose proof (kv_chain_drop _ _ _ _ _ _ (N.to_nat (from - b - 1)) Hc ltac:(lia)) as Hd.
    apply (kv_chain_take _ _ _ _ _ _ (N.to_nat (through - from + 1))) in Hd.
    assert (length (log_slice b (kv_log s) from through) = N.to_nat (through - from + 1)) as Hlen.
    { unfold log_slice. rewrite length_take, length_drop. lia. }
    unfold log_slice in *. rewrite (embedded_fold _ _ _ _ _ _ _ from (rep_cluster _ _ Hrep) Hd) by lia.
    cbn [mbind result_bind app]. rewrite Hlen. by destruct (N.leb_spec (from + N.of_nat (N.to_nat (through - from + 1))) through); [lia|].
  - apply (embedded_outside sm s tq from through through Hrep Hq Hft); lia.
  - apply (embedded_outside sm s tq from through from Hrep Hq Hft); lia.
Qed.
(** ** Snapshots *)

Lemma progress_equiv t t' c n ep g i h :
  t_equiv t t' → progress_rep t' c n ep g i h → progress_rep t c n ep g i h.
Proof. intros Heq []. split; by rewrite Heq. Qed.

Lemma progress_rebind t c n ep g i h n' :
  progress_rep t c n ep g i h → progress_rep (t_insert META_NODE_ID n' t) c n' ep g i h.
Proof. intros []. split; first [by rewrite get_insert | by rewrite get_insert_ne]. Qed.

Lemma snapshot_meta_ok t key m : t_get key t = Some m → snapshot_meta t key m = Ok ().
Proof. intros Hg. unfold snapshot_meta. rewrite Hg. cbn [ok_or mbind result_bind]. by rewrite neqb_refl. Qed.

Lemma snapshot_identity_ok t c n ep g i h :
  progress_rep t c n ep g i h → validate_snapshot_identity t c n ep g = Ok ().
Proof. intros []. unfold validate_snapshot_identity. by rewrite !snapshot_meta_ok. Qed.

Lemma snapshot_tip_ok t c n ep g i h :
  progress_rep t c n ep g i h → is_u64 i = true →
  snapshot_u64_meta t META_APPLIED_INDEX = Ok i ∧ snapshot_hash_meta t META_APPLIED_HASH = Ok h.
Proof.
  intros Hp Hi. unfold snapshot_u64_meta, snapshot_hash_meta.
  rewrite (pr_index _ _ _ _ _ _ _ Hp), (pr_hash _ _ _ _ _ _ _ Hp). cbn [ok_or mbind result_bind].
  rewrite blen_be_bytes, array32_of_as_bytes. change (N.of_nat 8) with 8%N. rewrite neqb_refl.
  cbn [reject_if mbind result_bind]. rewrite be_value_bytes by by apply is_u64_bound. done.
Qed.

(** The snapshot of a state: its database with fresh copies of the tables and an
    empty embedded log. *)
Definition snapshot_redb (td tr tp : TB) : Redb TB TU :=
  mkRedb (Some (copy_table td)) (Some (copy_table tr)) (Some (copy_table tp)) (Some t_new).
Definition snapshot_of sm s (td tr tp : TB) : RedbSnapshot :=
  let snapshot d := mkSnapshot (sm_cluster_id sm) (sm_node_id sm) (sm_epoch sm) (sm_config_id sm)
    (kv_tip_index s) (kv_tip_hash s) kv_materializer_fingerprint d (redb_bytes (snapshot_redb td tr tp)) in
  snapshot (recompute_digest (snapshot LogHash_ZERO)).

Lemma create_snapshot_ok sm s target td tr tp :
  represents sm s → db_data (sm_database sm) = Some td → db_requests (sm_database sm) = Some tr →
  db_progress (sm_database sm) = Some tp →
  create_snapshot sm target = if eqb (kv_tip_index s) target then Ok (snapshot_of sm s td tr tp)
    else Err (InvalidSnapshot "snapshot target {target_index} does not match applied index {applied_index}").
Proof.
  intros Hrep Htd Htr Htp. unfold create_snapshot. rewrite Htd, Htr, Htp. cbn [read_table ok_or mbind result_bind].
  destruct (rep_progress _ _ Hrep) as (tp' & Htp' & Hp). rewrite Htp in Htp'. injection Htp' as <-.
  rewrite (snapshot_identity_ok _ _ _ _ _ _ _ Hp). destruct (snapshot_tip_ok _ _ _ _ _ _ _ Hp (rep_tip _ _ Hrep)) as [-> ->].
  cbn [mbind result_bind]. unfold neqb. by destruct (eqb _ _).
Qed.

Lemma restored_ok (td tr tp : TB) (tq : TU) snap n :
  progress_rep tp (rs_cluster_id snap) n (rs_epoch snap) (rs_config_id snap) (rs_applied_index snap) (rs_applied_hash snap) →
  is_u64 (rs_applied_index snap) = true → rs_materializer_fingerprint snap = kv_materializer_fingerprint →
  validate_restored_database (mkRedb (Some td) (Some tr) (Some tp) (Some tq)) snap n = Ok ().
Proof.
  intros Hp Hi Hf. unfold validate_restored_database. rewrite Hf, neqb_refl.
  cbn [db_data db_requests db_progress db_qlog reject_if snapshot_table ok_or mbind result_bind].
  rewrite (snapshot_identity_ok _ _ _ _ _ _ _ Hp). destruct (snapshot_tip_ok _ _ _ _ _ _ _ Hp Hi) as [-> ->].
  cbn [mbind result_bind]. by rewrite !neqb_refl.
Qed.

(** The state that a snapshot carries. *)
Definition snapshot_state (s : KvState) : KvState :=
  mkKvState (kv_data s) (kv_receipts s) (mkLogAnchor (kv_tip_index s) (kv_tip_hash s)) [].

Lemma restore_ok sm s node td tr tp :
  represents sm s → db_data (sm_database sm) = Some td → db_requests (sm_database sm) = Some tr →
  db_progress (sm_database sm) = Some tp → node ≠ [] →
  let db := rebind_snapshot_node (snapshot_redb td tr tp) node in
  restore_snapshot_file None (snapshot_of sm s td tr tp) node = Ok db
  ∧ represents (mkMachine db (sm_cluster_id sm) node (sm_epoch sm) (sm_config_id sm)) (snapshot_state s).
Proof.
  intros Hrep Htd Htr Htp Hn. cbn zeta.
  destruct (rep_progress _ _ Hrep) as (tp' & Htp' & Hp). rewrite Htp in Htp'. injection Htp' as <-.
  destruct (rep_data _ _ Hrep) as (td' & Htd' & Hd). rewrite Htd in Htd'. injection Htd' as <-.
  destruct (rep_requests _ _ Hrep) as (tr' & Htr' & Hr). rewrite Htr in Htr'. injection Htr' as <-.
  apply (progress_equiv _ _ _ _ _ _ _ _ (copy_table_equiv tp)) in Hp. pose proof (progress_rebind _ _ _ _ _ _ _ node Hp) as Hp'.
  split.
  - unfold restore_snapshot_file. rewrite not_empty_id, neqb_refl by done. cbn [reject_if is_some mbind result_bind].
    set (snap := snapshot_of sm s td tr tp).
    change (rs_db_bytes snap) with (redb_bytes (snapshot_redb td tr tp)). rewrite redb_reopen. cbn [ok_or mbind result_bind].
    pose proof (restored_ok (copy_table td) (copy_table tr) _ t_new snap _ Hp (rep_tip _ _ Hrep) eq_refl) as Hv1.
    pose proof (restored_ok (copy_table td) (copy_table tr) _ t_new snap _ Hp' (rep_tip _ _ Hrep) eq_refl) as Hv2.
    rewrite (Hv1 : validate_restored_database (snapshot_redb td tr tp) snap (rs_created_by snap) = Ok ()). cbn [mbind result_bind].
    by rewrite (Hv2 : validate_restored_database (rebind_snapshot_node (snapshot_redb td tr tp) node) snap node = Ok ()).
  - assert (kv_tip_index (snapshot_state s) = kv_tip_index s) as Hti by (unfold kv_tip_index at 1; cbn; lia).
    split; rewrite ?Hti; cbn [rebind_snapshot_node snapshot_redb snapshot_state sm_cluster_id sm_node_id sm_epoch sm_config_id sm_database db_data db_requests db_progress db_qlog kv_data kv_receipts kv_base kv_log];
      try by apply Hrep.
    + done.
    + eexists. split; [reflexivity|]. intros k. by rewrite copy_table_equiv.
    + eexists. split; [reflexivity|]. destruct Hr as [Hr Hu]. split; [|done]. intros k. by rewrite copy_table_equiv.
    + eexists. split; [reflexivity|]. exact Hp'.
    + eexists. split; [reflexivity|]. intros i. unfold log_at. cbn [la_index]. etrans; [exact (get_new (T := TU) i)|].
      by destruct (_ <? _)%N.
    + done.
    + constructor.
Qed.

(** C31. A snapshot carries the whole state to another node: a snapshot can be taken
    exactly at the applied index; restored under another node id it gives a
    database that opens for that node with the same data, the same receipts and
    the same applied tip, and an empty embedded log. *)
Theorem kv_snapshot_transfer sm s (node : bytes) (target : N) :
  represents sm s → node ≠ [] →
  if eqb (kv_tip_index s) target then
    ∃ snap (db : Redb TB TU), create_snapshot sm target = Ok snap ∧ restore_snapshot_file None snap node = Ok db
      ∧ let sm' := mkMachine db (sm_cluster_id sm) node (sm_epoch sm) (sm_config_id sm) in
        kv_open (Some db) (sm_cluster_id sm) node (sm_epoch sm) (sm_config_id sm) = Ok sm'
        ∧ represents sm' (snapshot_state s)
  else ∃ err, create_snapshot sm target = Err err.
Proof.
  intros Hrep Hn. destruct (rep_data _ _ Hrep) as (td & Htd & _). destruct (rep_requests _ _ Hrep) as (tr & Htr & _).
  destruct (rep_progress _ _ Hrep) as (tp & Htp & _).
  pose proof (create_snapshot_ok sm s target td tr tp Hrep Htd Htr Htp) as Hc.
  destruct (restore_ok sm s node td tr tp Hrep Htd Htr Htp Hn) as [Hres Hrep'].
  destruct (eqb (kv_tip_index s) target); [|by eexists].
  eexists _, _. split; [exact Hc|]. split; [exact Hres|]. cbn zeta. split; [|exact Hrep'].
  pose proof (open_existing _ _ (sm_cluster_id sm) node (sm_epoch sm) (sm_config_id sm) Hrep') as Ho.
  cbn [sm_database] in Ho. rewrite Ho, !not_empty_id by (done || apply Hrep). cbn [orb].
  unfold same_identity. cbn [sm_cluster_id sm_node_id sm_epoch sm_config_id]. by rewrite !eqb_refl.
Qed.
End ops.
