(* ===== verification/KvScan.v ===== *)
(** * KvScan: point reads and ordered scans

    Reads against the abstract state: [get_with_tip] is a lookup, a page of a scan
    is the longest prefix of the ordered rows of the range that fits the limits,
    and its cursor is the last key of the page.  Following the cursors returns
    every row of the range exactly once, in order, and ends: no row is too large
    for a page, which is what the constant assertion of the source is for. *)

From S2P Require Import Prelude Bytes Core LogSegment KvCodec KvStore KvTables KvSpec KvRefine.
From Stdlib Require Strings.Byte.

(** ** Pages *)

Definition row_size (row : bytes * bytes) : N := blen row.1 + blen row.2.
Definition rows_size (l : list (bytes * bytes)) : N := foldr (λ row acc, row_size row + acc)%N 0%N l.
Definition small_row (row : bytes * bytes) : Prop := (row_size row ≤ MAX_KV_KEY_BYTES + MAX_KV_VALUE_BYTES)%N.

Lemma rows_size_app l k : rows_size (l ++ k) = (rows_size l + rows_size k)%N.
Proof. induction l as [|x l IH]; cbn; [done|]. unfold rows_size in *. rewrite IH. lia. Qed.

(** A page: the longest prefix of the rows within the limits. *)
Record is_page (limit : N) (rows page rest : list (bytes * bytes)) : Prop := {
  pg_split : rows = page ++ rest;
  pg_rows : (N.of_nat (length page) ≤ limit)%N;
  pg_bytes : (rows_size page ≤ MAX_KV_SCAN_RESULT_BYTES)%N;
  pg_max : match rest with
           | [] => True
           | row :: _ => N.of_nat (length page) = limit
                         ∨ (MAX_KV_SCAN_RESULT_BYTES < rows_size page + row_size row)%N
           end
}.

Definition nonempty {A} (l : list A) : bool := match l with [] => false | _ => true end.

Lemma scan_rows_page limit rows acc :
  Forall small_row rows → (N.of_nat (length acc) ≤ limit)%N → (rows_size acc ≤ MAX_KV_SCAN_RESULT_BYTES)%N →
  ∃ page rest, scan_rows limit rows (rows_size acc) acc = Ok (acc ++ page, nonempty rest)
    ∧ is_page limit (acc ++ rows) (acc ++ page) rest.
Proof.
  intros Hs. revert acc; induction Hs as [|[k v] rows Hrow _ IH]; intros acc Hl Hb; cbn [scan_rows].
  - exists [], []. rewrite app_nil_r. split; [done|]. split; [by rewrite app_nil_r|done..].
  - unfold small_row, row_size in Hrow. cbn [fst snd] in Hrow. change (MAX_KV_KEY_BYTES + MAX_KV_VALUE_BYTES)%N with 266240%N in Hrow.
    change MAX_KV_SCAN_RESULT_BYTES with 1048576%N in *.
    assert (checked_add (blen k) (blen v) = Some (blen k + blen v)%N) as ->.
    { apply checked_add_Some. unfold u64_max. lia. }
    cbn [ok_or mbind result_bind].
    assert (checked_add (rows_size acc) (blen k + blen v) = Some (rows_size acc + (blen k + blen v))%N) as ->.
    { apply checked_add_Some. unfold u64_max. lia. }
    cbn [ok_or mbind result_bind].
    destruct (N.eqb_spec (N.of_nat (length acc)) limit) as [Heq|Hne]; [|destruct (N.ltb_spec 1048576 (rows_size acc + (blen k + blen v)))]; cbn [orb].
    + exists [], ((k, v) :: rows). rewrite app_nil_r. split; [done|]. split; [done|lia|done|]. by left.
    + exists [], ((k, v) :: rows). rewrite app_nil_r. split; [done|]. split; [done|lia|done|]. right. exact H.
    + assert (rows_size (acc ++ [(k, v)]) = rows_size acc + (blen k + blen v))%N as Hsz.
      { rewrite rows_size_app. cbn. unfold row_size. cbn. lia. }
      destruct (IH (acc ++ [(k, v)])) as (page & rest & Hscan & Hp).
      { rewrite length_app. cbn. lia. }
      { lia. }
      rewrite Hsz in Hscan. exists ((k, v) :: page), rest. rewrite Hscan, <-app_assoc.
      split; [done|]. by rewrite <-!app_assoc in Hp.
Qed.

Lemma page_nonempty limit rows page rest :
  is_page limit rows page rest → Forall small_row rows → (1 ≤ limit)%N → rows ≠ [] → page ≠ [].
Proof.
  intros [Hsp _ _ Hmax] Hs Hl Hne ->. cbn [app] in Hsp. subst rest. destruct rows as [|row rows]; [done|].
  inversion Hs as [|? ? Hrow _]; subst. unfold small_row in Hrow.
  change (MAX_KV_KEY_BYTES + MAX_KV_VALUE_BYTES)%N with 266240%N in Hrow.
  change MAX_KV_SCAN_RESULT_BYTES with 1048576%N in Hmax. cbn in Hmax. destruct Hmax; lia.
Qed.

(** ** Ranges of the abstract data *)

Definition upper_of (end_ : option bytes) : Bound bytes :=
  match end_ with Some e => Excluded e | None => Unbounded end.
Definition lower_of (start : bytes) (cursor : option bytes) : Bound bytes :=
  match cursor with Some c => Excluded c | None => Included start end.

Lemma gmap_range_elem (D : rows) lower upper k v :
  (k, v) ∈ t_range lower upper D ↔ D !! k = Some v ∧ above lower k = true ∧ below upper k = true.
Proof.
  cbn [t_range gmap_table]. rewrite sort_by_perm, list_elem_of_filter, elem_of_map_to_list, andb_true_iff.
  cbn. naive_solver.
Qed.
Lemma gmap_range_sorted (D : rows) lower upper : StronglySorted (key_lt fst) (t_range lower upper D).
Proof.
  cbn [t_range gmap_table]. apply sort_by_strict. eapply sublist_NoDup; [apply (NoDup_fst_map_to_list D)|].
  apply fmap_sublist, sublist_filter.
Qed.

Lemma range_small D lower upper : bounded_rows D → Forall small_row (t_range lower upper D).
Proof.
  intros Hb. apply Forall_forall. intros [k v] [Hk _]%gmap_range_elem. apply Hb in Hk as (_ & Hk & Hv).
  unfold small_row, row_size. cbn. lia.
Qed.

Lemma range_empty (D : rows) start e :
  leb e start = true → t_range (Included start) (Excluded e) D = [].
Proof.
  intros Hle. destruct (t_range _ _ D) as [|[k v] l] eqn:Hr; [done|]. exfalso.
  assert ((k, v) ∈ t_range (Included start) (Excluded e) D) as (_ & Ha & Hb)%gmap_range_elem by (rewrite Hr; left).
  cbn in Ha, Hb. unfold leb, ltb in *. destruct (cmp k e) eqn:Hke; try done.
  destruct (cmp e start) eqn:Hes; [apply cmp_eq in Hes as ->| |done].
  - rewrite (cmp_opp k start), Hke in Ha. done.
  - pose proof (cmp_lt_trans k e start Hke Hes) as Hks. by rewrite (cmp_opp k start), Hks in Ha.
Qed.

Lemma sorted_middle {A} (R : relation A) (l k : list A) (x : A) :
  StronglySorted R (l ++ x :: k) → Forall (λ y, R y x) l ∧ Forall (R x) k ∧ StronglySorted R k.
Proof.
  induction l as [|y l IH]; cbn [app]; intros [Hs Hx]%StronglySorted_inv; [done|].
  apply IH in Hs as (Hl & Hk & Hs). split_and!; [|done|done]. constructor; [|done].
  rewrite Forall_forall in Hx. apply Hx. set_solver.
Qed.

Lemma above_trans (lower : Bound bytes) (c k : bytes) : above lower c = true → cmp c k = Lt → above lower k = true.
Proof.
  destruct lower as [x|x|]; cbn; intros Hc Hk; [|apply ltb_lt in Hc; apply ltb_lt; by eapply cmp_lt_trans|done].
  unfold leb in *. destruct (cmp x c) eqn:Hxc; [apply cmp_eq in Hxc as ->; by rewrite Hk| |done].
  by rewrite (cmp_lt_trans x c k).
Qed.

(** After a page, the rest of the range is the range above the last key of the page. *)
Lemma range_after (D : rows) lower upper page row rest :
  t_range lower upper D = page ++ row :: rest → t_range (Excluded row.1) upper D = rest.
Proof.
  intros Hr. pose proof (gmap_range_sorted D lower upper) as Hs. rewrite Hr in Hs.
  apply sorted_middle in Hs as (Hbefore & Hafter & Hs). rewrite Forall_forall in Hbefore, Hafter.
  apply sorted_ext; [apply gmap_range_sorted|done|].
  destruct row as [c w]. assert ((c, w) ∈ t_range lower upper D) as (_ & Hca & _)%gmap_range_elem by (rewrite Hr; set_solver).
  intros [k v]. rewrite gmap_range_elem. split.
  - intros (Hk & Ha & Hb). cbn in Ha. apply ltb_lt in Ha.
    assert ((k, v) ∈ page ++ (c, w) :: rest) as Hin.
    { rewrite <-Hr, gmap_range_elem. split_and!; [done|by eapply above_trans|done]. }
    rewrite elem_of_app, elem_of_cons in Hin. destruct Hin as [Hin|[[= -> ->]|Hin]]; [|by rewrite cmp_refl in Ha|done].
    apply Hbefore in Hin. unfold key_lt in Hin. cbn in Hin. by rewrite (cmp_opp c k), Ha in Hin.
  - intros Hin. assert ((k, v) ∈ t_range lower upper D) as (Hk & _ & Hb)%gmap_range_elem by (rewrite Hr; set_solver).
    split_and!; [done| |done]. cbn. apply ltb_lt. by apply (Hafter (k, v)).
Qed.

Section scans.
Context `{Sha256} {TB TU : Type} `{RedbTable bytes TB, !RedbLaws bytes TB}
  `{RedbTable N TU, !RedbLaws N TU}.
Implicit Types (sm : RedbStateMachine TB TU) (s : KvState).

Definition kv_tip s : KvReadTip := mkTip (kv_tip_index s) (kv_tip_hash s).

Lemma stored_tip_ok sm s :
  represents sm s → ∃ tp, db_progress (sm_database sm) = Some tp ∧ read_tip tp = Ok (kv_tip s).
Proof.
  intros Hrep. destruct (rep_progress _ _ Hrep) as (tp & Htp & Hp). exists tp. split; [done|].
  by apply (read_tip_ok _ _ _ _ _ _ _ Hp), Hrep.
Qed.

(** A point read is a lookup in the abstract data, with the tip of the same state. *)
Lemma get_ok sm s key :
  represents sm s →
  get_with_tip sm key = (_ ← validate_key key; Ok (mkGet (kv_data s !! key) (kv_tip s))).
Proof.
  intros Hrep. unfold get_with_tip. destruct (validate_key key) as [[]|]; [|done]. cbn [mbind result_bind].
  destruct (rep_data _ _ Hrep) as (td & -> & Hd), (stored_tip_ok sm s Hrep) as (tp & -> & Htip).
  cbn [read_table ok_or mbind result_bind]. rewrite Htip, (Hd key). done.
Qed.

(** A scan from a cursor: one page of the range above it. *)
Definition valid_cursor (start : bytes) (end_ : option bytes) (cursor : option bytes) : Prop :=
  match cursor with
  | None => True
  | Some c => leb start c = true ∧ below (upper_of end_) c = true
  end.

Lemma scan_range_ok start end_ cursor :
  match end_ with Some e => leb e start | None => false end = false →
  valid_cursor start end_ cursor → range_ok (lower_of start cursor) (upper_of end_).
Proof.
  intros He Hc. destruct end_ as [e|]; cbn in *; [|by destruct cursor].
  destruct cursor as [c|]; cbn in *.
  - destruct Hc as [_ Hc]. apply ltb_lt in Hc. by apply Lt_ole.
  - unfold leb in He. destruct (cmp e start) eqn:Hes; try done. by apply Gt_ole.
Qed.

Lemma last_snoc_inv {A} (l : list A) : l ≠ [] → ∃ k x, l = k ++ [x].
Proof. intros Hl. destruct l as [|x l] using rev_ind; [done|]. eauto. Qed.

Lemma scan_snapshot_ok sm s start end_ limit cursor :
  represents sm s → (1 ≤ limit ≤ MAX_KV_SCAN_ROWS)%N → valid_cursor start end_ cursor →
  match end_ with Some e => leb e start | None => false end = false →
  ∃ page rest, is_page limit (t_range (lower_of start cursor) (upper_of end_) (kv_data s)) page rest
    ∧ scan_snapshot sm start end_ limit cursor = Ok (mkScan page
        (if nonempty rest then fst <$> last page else None) (kv_tip s))
    ∧ (rest ≠ [] → page ≠ []).
Proof.
  intros Hrep Hl Hc He. unfold scan_snapshot.
  destruct (N.leb_spec 1 limit); [|lia]. destruct (N.leb_spec limit MAX_KV_SCAN_ROWS); [|lia].
  destruct (rep_data _ _ Hrep) as (td & -> & Hd), (stored_tip_ok sm s Hrep) as (tp & -> & Htip).
  cbn [andb negb reject_if read_table ok_or mbind result_bind]. rewrite Htip, He. cbn [mbind result_bind].
  fold (lower_of start cursor) (upper_of end_). rewrite (range_equiv _ _ td (kv_data s) Hd (scan_range_ok _ _ _ He Hc)).
  pose proof (range_small (kv_data s) (lower_of start cursor) (upper_of end_) (rep_rows _ _ Hrep)) as Hs.
  destruct (scan_rows_page limit _ [] Hs) as (page & rest & Hscan & Hp); [cbn; lia|cbn; lia|]. cbn [app] in *.
  change (rows_size []) with 0%N in Hscan. rewrite Hscan. cbn [mbind result_bind]. exists page, rest.
  assert (rest ≠ [] → page ≠ []) as Hne.
  { intros Hr. eapply page_nonempty; [exact Hp|done|lia|]. rewrite (pg_split _ _ _ _ Hp). by destruct page, rest. }
  split_and!; [done| |done]. destruct rest as [|row rest]; cbn [nonempty andb reject_if mbind result_bind]; [done|].
  destruct (last_snoc_inv page) as (k & x & ->); [by apply Hne|]. rewrite last_snoc.
  by destruct (k ++ [x]) eqn:Hk; [by destruct k|].
Qed.
(** ** Following the cursors *)

(** A client that asks for page after page. *)
Fixpoint scan_all (fuel : nat) (scan : option bytes → result KvError KvScanResult) (cursor : option bytes) :
    result KvError (list (bytes * bytes)) :=
  match fuel with
  | O => Err (KvPanic "out of fuel")
  | S fuel =>
      page ← scan cursor;
      match ks_next_cursor page with
      | None => Ok (ks_rows page)
      | Some next => rest ← scan_all fuel scan (Some next); Ok (ks_rows page ++ rest)
      end
  end.

(** [scan] asks for a page of the range wherever a page can end. *)
Definition scans sm start end_ limit (scan : option bytes → result KvError KvScanResult) s : Prop :=
  ∀ cursor, match cursor with
            | None => True
            | Some c => is_Some (kv_data s !! c) ∧ valid_cursor start end_ cursor
            end → scan cursor = scan_snapshot sm start end_ limit cursor.

Lemma scan_all_from sm s start end_ limit scan cursor fuel :
  represents sm s → (1 ≤ limit ≤ MAX_KV_SCAN_ROWS)%N → scans sm start end_ limit scan s →
  match end_ with Some e => leb e start | None => false end = false →
  match cursor with None => True | Some c => is_Some (kv_data s !! c) ∧ valid_cursor start end_ cursor end →
  length (t_range (lower_of start cursor) (upper_of end_) (kv_data s)) < fuel →
  scan_all fuel scan cursor = Ok (t_range (lower_of start cursor) (upper_of end_) (kv_data s)).
Proof.
  intros Hrep Hl Hscan He. revert cursor. induction fuel as [|fuel IH]; intros cursor Hc Hf; [lia|]. cbn [scan_all].
  rewrite (Hscan cursor Hc). assert (valid_cursor start end_ cursor) as Hv by (destruct cursor; [apply Hc|done]).
  destruct (scan_snapshot_ok sm s start end_ limit cursor Hrep Hl Hv He) as (page & rest & Hp & -> & Hne).
  pose proof (pg_split _ _ _ _ Hp) as Hsp. cbn [mbind result_bind ks_next_cursor ks_rows]. rewrite Hsp.
  destruct rest as [|row rest]; cbn [nonempty]; [by rewrite app_nil_r|].
  destruct (last_snoc_inv page) as (k & [c w] & ->); [by apply Hne|]. rewrite last_snoc. cbn [fmap option_fmap option_map fst].
  assert ((c, w) ∈ t_range (lower_of start cursor) (upper_of end_) (kv_data s)) as (Hk & Ha & Hb)%gmap_range_elem
    by (rewrite Hsp; set_solver).
  rewrite <-app_assoc in Hsp. cbn [app] in Hsp. pose proof (range_after _ _ _ _ _ _ Hsp) as Hrest. cbn [fst] in Hrest.
  rewrite (IH (Some c)).
  - cbn [lower_of mbind result_bind]. by rewrite Hrest.
  - split; [by eexists|]. split; [|done]. destruct cursor as [c0|]; cbn in Ha; [|done]. destruct Hc as [_ [Hc _]].
    eapply (above_trans (Included start)); [exact Hc|]. by apply ltb_lt.
  - cbn [lower_of]. rewrite Hrest. rewrite Hsp, length_app in Hf. cbn [length] in *. lia.
Qed.

Lemma range_le_size (D : rows) lower upper : length (t_range lower upper D) ≤ size D.
Proof.
  cbn [t_range gmap_table]. rewrite sort_by_perm, length_filter. rewrite length_map_to_list. done.
Qed.

Lemma scan_all_ok sm s start end_ limit scan :
  represents sm s → (1 ≤ limit ≤ MAX_KV_SCAN_ROWS)%N → scans sm start end_ limit scan s →
  scan_all (S (size (kv_data s))) scan None = Ok (t_range (Included start) (upper_of end_) (kv_data s)).
Proof.
  intros Hrep Hl Hscan. destruct (match end_ with Some e => leb e start | None => false end) eqn:He.
  - destruct end_ as [e|]; [|done]. cbn [scan_all upper_of]. rewrite range_empty, (Hscan None I) by done. unfold scan_snapshot.
    destruct (N.leb_spec 1 limit); [|lia]. destruct (N.leb_spec limit MAX_KV_SCAN_ROWS); [|lia].
    destruct (rep_data _ _ Hrep) as (td & -> & Hd), (stored_tip_ok sm s Hrep) as (tp & -> & Htip).
    cbn [andb negb reject_if read_table ok_or mbind result_bind]. by rewrite Htip, He.
  - apply (scan_all_from sm s start end_ limit scan None); try done.
    pose proof (range_le_size (kv_data s) (Included start) (upper_of end_)). cbn [lower_of]. lia.
Qed.

Lemma cursor_bound sm s c :
  represents sm s → is_Some (kv_data s !! c) → validate_scan_cursor (Some c) = Ok ().
Proof.
  intros Hrep [v Hv]. apply (rep_rows _ _ Hrep) in Hv as (Hk0 & Hk & _). unfold validate_scan_cursor, validate_scan_bound.
  destruct (N.eqb_spec (blen c) 0); [done|]. cbn [reject_if mbind result_bind]. by destruct (N.ltb_spec MAX_KV_KEY_BYTES (blen c)); [lia|].
Qed.

(** The rows of a range and of a prefix, in byte order. *)
Definition range_rows (D : rows) (start : bytes) (end_ : option bytes) : list (bytes * bytes) :=
  sort_by fst (filter (λ row : bytes * bytes,
    leb start row.1 && match end_ with Some e => ltb row.1 e | None => true end = true) (map_to_list D)).
Definition prefix_rows (D : rows) (prefix : bytes) : list (bytes * bytes) :=
  sort_by fst (filter (λ row : bytes * bytes, starts_with prefix row.1 = true) (map_to_list D)).
Definition end_bounded (end_ : option bytes) : Prop :=
  match end_ with Some e => (blen e ≤ MAX_KV_KEY_BYTES)%N | None => True end.

Lemma scan_range_complete sm s start end_ limit :
  represents sm s → (1 ≤ limit ≤ MAX_KV_SCAN_ROWS)%N → (blen start ≤ MAX_KV_KEY_BYTES)%N →
  end_bounded end_ →
  scan_all (S (size (kv_data s))) (scan_range sm start end_ limit) None = Ok (range_rows (kv_data s) start end_).
Proof.
  intros Hrep Hl Hs He. rewrite (scan_all_ok sm s start end_ limit); [|done|done|].
  - unfold range_rows, prefix_rows. cbn [t_range gmap_table]. f_equal. f_equal. apply list_filter_iff. intros [k v]. by destruct end_.
  - intros cursor Hc. unfold scan_range, validate_scan_bound.
    destruct (N.ltb_spec MAX_KV_KEY_BYTES (blen start)); [lia|]. cbn [reject_if mbind result_bind].
    assert (match end_ with Some e => reject_if (MAX_KV_KEY_BYTES <? blen e)%N (InvalidQuery "{name} exceeds {MAX_KV_KEY_BYTES} bytes")
      | None => Ok () end = Ok ()) as ->.
    { destruct end_ as [e|]; [|done]. cbn in He. by destruct (N.ltb_spec MAX_KV_KEY_BYTES (blen e)); [lia|]. }
    cbn [mbind result_bind]. destruct cursor as [c|]; [|done]. destruct Hc as [Hk [Hle Hb]].
    rewrite (cursor_bound sm s c Hrep Hk). cbn [mbind result_bind].
    assert (ltb c start = false) as ->.
    { unfold leb, ltb in *. rewrite (cmp_opp start c). by destruct (cmp start c). }
    destruct end_ as [e|]; [|done]. cbn in Hb |- *. apply ltb_lt in Hb. unfold leb. by rewrite (cmp_opp c e), Hb.
Qed.

Lemma scan_prefix_complete sm s prefix limit :
  represents sm s → (1 ≤ limit ≤ MAX_KV_SCAN_ROWS)%N → (blen prefix ≤ MAX_KV_KEY_BYTES)%N →
  scan_all (S (size (kv_data s))) (scan_prefix sm prefix limit) None
  = Ok (prefix_rows (kv_data s) prefix).
Proof.
  intros Hrep Hl Hs. rewrite (scan_all_ok sm s prefix (prefix_successor prefix) limit); [|done|done|].
  - unfold range_rows, prefix_rows. cbn [t_range gmap_table]. f_equal. f_equal. apply list_filter_iff. intros [k v]. cbn [fst above].
    rewrite starts_with_range, andb_true_iff. destruct (prefix_successor prefix); cbn; tauto.
  - intros cursor Hc. unfold scan_prefix, validate_scan_bound.
    destruct (N.ltb_spec MAX_KV_KEY_BYTES (blen prefix)); [lia|]. cbn [reject_if mbind result_bind].
    destruct cursor as [c|]; [|done]. destruct Hc as [Hk [Hle Hb]].
    rewrite (cursor_bound sm s c Hrep Hk). cbn [mbind result_bind].
    assert (starts_with prefix c = true) as ->; [|done].
    apply starts_with_range. split; [done|]. by destruct (prefix_successor prefix).
Qed.
(** C30. Paging is complete and ends: asking for pages of any allowed size and
    following the cursors terminates within one page per stored row, and returns
    exactly the rows with [start <= key < end], or exactly the rows whose key starts
    with the prefix (whatever bytes it holds), each once, in byte order. *)
Theorem kv_scans_complete sm s (start prefix : bytes) (end_ : option bytes) (limit : N) :
  represents sm s → (1 ≤ limit ≤ MAX_KV_SCAN_ROWS)%N → (blen start ≤ MAX_KV_KEY_BYTES)%N →
  end_bounded end_ → (blen prefix ≤ MAX_KV_KEY_BYTES)%N →
  scan_all (S (size (kv_data s))) (scan_range sm start end_ limit) None = Ok (range_rows (kv_data s) start end_)
  ∧ scan_all (S (size (kv_data s))) (scan_prefix sm prefix limit) None = Ok (prefix_rows (kv_data s) prefix).
Proof. intros. split; [by apply scan_range_complete|by apply scan_prefix_complete]. Qed.
End scans.
