(* ===== verification/KvHistory.v ===== *)
(** * KvHistory: the state is a function of the log

    Every database that opening, applying, replaying, compacting, reopening and
    restoring from snapshots can produce holds exactly what running the applied log
    from the empty state gives.  Replicas that applied the same log therefore answer
    alike, and a command takes effect once however often it is replicated. *)

From S2P Require Import Prelude Bytes Core ConfigChange LogSegment KvCodec KvStore KvTables KvSpec KvRefine KvOps KvScan.
From Stdlib Require Strings.Byte.

(** ** Running a log *)

Fixpoint run_log `{Sha256} (log : list LogEntry) (R : receipts) (D : rows) : option (receipts * rows) :=
  match log with
  | [] => Some (R, D)
  | e :: log => '(R, D, _) ← spec_contents e R D; run_log log R D
  end.

Section running.
Context `{Sha256}.

Lemma run_log_app log more R D R' D' :
  run_log (log ++ more) R D = Some (R', D') ↔
  ∃ R1 D1, run_log log R D = Some (R1, D1) ∧ run_log more R1 D1 = Some (R', D').
Proof.
  revert R D; induction log as [|e log IH]; intros R D; cbn [app run_log].
  - naive_solver.
  - destruct (spec_contents e R D) as [[[R1 D1] res]|]; cbn [mbind option_bind]; [apply IH|naive_solver].
Qed.

Lemma run_log_grows log R D R' D' : run_log log R D = Some (R', D') → R ⊆ R'.
Proof.
  revert R D; induction log as [|e log IH]; intros R D; cbn [run_log]; [by intros [= <- <-]|].
  destruct (spec_contents e R D) as [[[R1 D1] res]|] eqn:Hc; [|done]. cbn [mbind option_bind].
  intros Hr%IH. apply spec_contents_grow in Hc as [Hsub _]. by etrans.
Qed.
End running.

Section history.
Context `{Sha256} {TB TU : Type} `{RedbTable bytes TB, !RedbLaws bytes TB}
  `{RedbTable N TU, !RedbLaws N TU} `{RedbFile TB TU, !RedbFileLaws TB TU}.
Implicit Types (sm : RedbStateMachine TB TU) (s : KvState) (e : LogEntry).

(** [history c epoch config sm log]: [sm] is a state of a node of the cluster that
    has applied [log]. *)
Inductive history (c : bytes) (epoch config : N) : RedbStateMachine TB TU → list LogEntry → Prop :=
| history_open n sm : kv_open None c n epoch config = Ok sm → history c epoch config sm []
| history_apply sm log e sm' out :
    history c epoch config sm log → entry_fits e = true → apply_entry sm e = (sm', Ok out) →
    history c epoch config sm' (if eqb (le_index e) (N.of_nat (length log)) then log else log ++ [e])
| history_refused sm log e sm' err :
    history c epoch config sm log → entry_fits e = true → apply_entry sm e = (sm', Err err) →
    history c epoch config sm' log
| history_compact sm log anchor sm' r :
    history c epoch config sm log → compact_embedded_log_before sm anchor = (sm', r) →
    history c epoch config sm' log
| history_reopen sm log n sm' :
    history c epoch config sm log → kv_open (Some (sm_database sm)) c n epoch config = Ok sm' →
    history c epoch config sm' log
| history_restore sm log target snap n db sm' :
    history c epoch config sm log → create_snapshot sm target = Ok snap →
    restore_snapshot_file None snap n = Ok db → kv_open (Some db) c n epoch config = Ok sm' →
    history c epoch config sm' log.

(** What a history establishes. *)
Record applied (c : bytes) (epoch config : N) sm (log : list LogEntry) s : Prop := {
  ap_rep : represents sm s;
  ap_cluster : sm_cluster_id sm = c;
  ap_epoch : sm_epoch sm = epoch;
  ap_config : sm_config_id sm = config;
  ap_state : run_log log ∅ ∅ = Some (kv_receipts s, kv_data s);
  ap_index : kv_tip_index s = N.of_nat (length log);
  ap_hash : kv_tip_hash s = tip_hash LogHash_ZERO log;
  ap_last : kv_log s ≠ [] → last (kv_log s) = last log
}.

Lemma open_Ok file c n ep g sm :
  kv_open file c n ep g = Ok sm → c ≠ [] ∧ n ≠ [] ∧ sm = mkMachine (sm_database sm) c n ep g.
Proof.
  unfold kv_open. intros Ho. res_inv. bool_prop. destruct Hok as [Hc Hn]. split_and!; [by intros ->|by intros ->|done].
Qed.

Lemma tip_hash_last h log e : last log = Some e → tip_hash h log = le_hash e.
Proof. unfold tip_hash. by intros ->. Qed.

Lemma applied_next c ep g sm log s e db out s' :
  applied c ep g sm log s → spec_next c ep g s e = Some (s', out) →
  represents (with_database sm db) s' → applied c ep g (with_database sm db) (log ++ [e]) s'.
Proof.
  intros [Hrep Hc He Hg Hst Hi Hh Hl] Hn Hrep'. unfold spec_next in Hn.
  destruct (_ && _); [|done]. destruct (spec_contents _ _ _) as [[[R D] res]|] eqn:Hcon; [|done].
  cbn [mbind option_bind] in Hn. injection Hn as <- <-. split; try done.
  - apply run_log_app. do 2 eexists. split; [exact Hst|]. cbn [run_log]. rewrite Hcon. done.
  - unfold kv_tip_index in *. cbn [kv_base kv_log]. rewrite !length_app. cbn [length]. lia.
  - unfold kv_tip_hash. cbn [kv_base kv_log]. by rewrite !tip_hash_snoc.
  - intros _. cbn [kv_log]. by rewrite !last_snoc.
Qed.

Lemma applied_apply c ep g sm log s e :
  applied c ep g sm log s → entry_fits e = true →
  (∃ err, apply_entry sm e = (sm, Err err)) ∨
  ∃ sm' out s', apply_entry sm e = (sm', Ok out) ∧ spec_apply c ep g s e = Some (s', out)
    ∧ applied c ep g sm' (if eqb (le_index e) (N.of_nat (length log)) then log else log ++ [e]) s'.
Proof.
  intros Ha Hf. pose proof (apply_entry_ok sm s e (ap_rep _ _ _ _ _ _ Ha) Hf) as Hok.
  rewrite (ap_cluster _ _ _ _ _ _ Ha), (ap_epoch _ _ _ _ _ _ Ha), (ap_config _ _ _ _ _ _ Ha) in Hok.
  destruct (spec_apply c ep g s e) as [[s' out]|] eqn:Hsp; [right|left; exact Hok].
  destruct Hok as (db & Happ & Hrep'). exists (with_database sm db), out, s'. split_and!; [done|done|].
  unfold spec_apply in Hsp. rewrite <-(ap_index _ _ _ _ _ _ Ha).
  destruct (eqb (le_index e) (kv_tip_index s)); [|by eapply applied_next].
  destruct (eqb (last (kv_log s)) (Some e)); [|done]. injection Hsp as <- <-. by destruct Ha.
Qed.

Lemma applied_compact c ep g sm log s anchor sm' r :
  applied c ep g sm log s → compact_embedded_log_before sm anchor = (sm', r) →
  ∃ s', applied c ep g sm' log s'.
Proof.
  intros Ha Hcp. pose proof (compact_ok sm s anchor (ap_rep _ _ _ _ _ _ Ha)) as Hok.
  destruct (N.ltb_spec (kv_tip_index s) anchor) as [|Hle].
  - destruct Hok as [err Hok]. rewrite Hcp in Hok. injection Hok as -> _. by exists s.
  - destruct Hok as (db & Hok & Hrep'). rewrite Hcp in Hok. injection Hok as -> _.
    exists (spec_compact s anchor). destruct Ha as [Hrep Hc He Hg Hst Hi Hh Hl].
    destruct (spec_compact_tip s anchor Hle) as [Hi' Hh']. split; try done; [congruence..|].
    cbn [spec_compact kv_log]. intros Hne. rewrite <-Hl.
    + rewrite <-(take_drop (N.to_nat (anchor - 1 - la_index (kv_base s))) (kv_log s)) at 2.
      rewrite last_app. by destruct (last (drop _ _)) eqn:Hd; [|apply last_None in Hd].
    + intros Heq. rewrite Heq, drop_nil in Hne. done.
Qed.

Lemma applied_reopen c ep g sm log s n sm' :
  applied c ep g sm log s → kv_open (Some (sm_database sm)) c n ep g = Ok sm' → applied c ep g sm' log s.
Proof.
  intros Ha Ho. pose proof Ho as (Hc & Hn & _)%open_Ok. rewrite (open_existing sm s) in Ho by apply Ha.
  rewrite !not_empty_id in Ho by done. cbn [orb] in Ho. destruct (same_identity _ _ _ _ _) eqn:Hid; [|done].
  injection Ho as <-. unfold same_identity in Hid. rewrite !andb_true_iff, !eqb_true in Hid. destruct Hid as [[[_ Hid] _] _].
  destruct Ha as [Hrep Hcl He Hg Hst Hi Hh Hl]. subst. split; try done. by destruct sm.
Qed.

Lemma applied_restore c ep g sm log s target snap n db sm' :
  applied c ep g sm log s → create_snapshot sm target = Ok snap → restore_snapshot_file None snap n = Ok db →
  kv_open (Some db) c n ep g = Ok sm' → applied c ep g sm' log (snapshot_state s).
Proof.
  intros Ha Hs Hr Ho. pose proof Ho as (Hc & Hn & _)%open_Ok. destruct Ha as [Hrep Hcl He Hg Hst Hi Hh Hl].
  destruct (rep_data _ _ Hrep) as (td & Htd & _), (rep_requests _ _ Hrep) as (tr & Htr & _), (rep_progress _ _ Hrep) as (tp & Htp & _).
  rewrite (create_snapshot_ok sm s target td tr tp Hrep Htd Htr Htp) in Hs. destruct (eqb _ _); [|done]. injection Hs as <-.
  destruct (restore_ok sm s n td tr tp Hrep Htd Htr Htp Hn) as [Hres Hrep']. rewrite Hres in Hr. injection Hr as <-.
  pose proof (open_existing _ _ c n ep g Hrep') as Hop. cbn [sm_database] in Hop. rewrite Hop in Ho.
  rewrite !not_empty_id in Ho by done. cbn [orb] in Ho. destruct (same_identity _ _ _ _ _); [|done]. injection Ho as <-.
  subst. split; try done. unfold kv_tip_index at 1. cbn [snapshot_state kv_base kv_log la_index length]. lia.
Qed.

Lemma history_applied c ep g sm log : history c ep g sm log → ∃ s, applied c ep g sm log s.
Proof.
  induction 1 as [n sm Ho|sm log e sm' out _ [s Ha] Hf Happ|sm log e sm' err _ [s Ha] Hf Happ
    |sm log anchor sm' r _ [s Ha] Hcp|sm log n sm' _ [s Ha] Ho|sm log target snap n db sm' _ [s Ha] Hs Hr Ho].
  - pose proof Ho as (Hc & Hn & _)%open_Ok. destruct (open_new (TB := TB) (TU := TU) c n ep g Hc Hn) as (sm' & Ho' & Hrep & Heq).
    rewrite Ho in Ho'. injection Ho' as <-. exists kv_empty. rewrite Heq in *. by split.
  - destruct (applied_apply c ep g sm log s e Ha Hf) as [[err Herr]|(sm1 & out1 & s' & Happ' & _ & Ha')]; [congruence|].
    rewrite Happ in Happ'. injection Happ' as -> ->. by exists s'.
  - destruct (applied_apply c ep g sm log s e Ha Hf) as [[err' Herr]|(sm1 & out1 & s' & Happ' & _)]; [|congruence].
    rewrite Happ in Herr. injection Herr as -> _. by exists s.
  - by eapply applied_compact.
  - exists s. by eapply applied_reopen.
  - eexists. by eapply applied_restore.
Qed.

(** C7. The database is a function of the log: whatever sequence of applications,
    replays, refused entries, compactions, reopenings and snapshot restores led to
    a state, its tables represent what running the applied log from the empty state
    gives, and its stored tip is the last entry of that log. *)
Theorem kv_state_is_log (c : bytes) (epoch config : N) (sm : RedbStateMachine TB TU) (log : list LogEntry) :
  history c epoch config sm log →
  ∃ s, represents sm s ∧ run_log log ∅ ∅ = Some (kv_receipts s, kv_data s)
    ∧ kv_tip_index s = N.of_nat (length log) ∧ kv_tip_hash s = tip_hash LogHash_ZERO log.
Proof. intros [s Ha]%history_applied. exists s. by destruct Ha. Qed.
(** ** Replicas *)

Lemma same_contents c ep g sm1 sm2 log s1 s2 :
  applied c ep g sm1 log s1 → applied c ep g sm2 log s2 →
  kv_data s1 = kv_data s2 ∧ kv_receipts s1 = kv_receipts s2 ∧ kv_tip s1 = kv_tip s2.
Proof.
  intros Ha1 Ha2. pose proof (ap_state _ _ _ _ _ _ Ha1) as Hs. rewrite (ap_state _ _ _ _ _ _ Ha2) in Hs. injection Hs as Hr Hd.
  unfold kv_tip. rewrite (ap_index _ _ _ _ _ _ Ha1), (ap_index _ _ _ _ _ _ Ha2), (ap_hash _ _ _ _ _ _ Ha1), (ap_hash _ _ _ _ _ _ Ha2).
  done.
Qed.

Lemma scan_snapshot_same sm1 sm2 s1 s2 start end_ limit cursor :
  represents sm1 s1 → represents sm2 s2 → kv_data s1 = kv_data s2 → kv_tip s1 = kv_tip s2 →
  valid_cursor start end_ cursor →
  scan_snapshot sm1 start end_ limit cursor = scan_snapshot sm2 start end_ limit cursor.
Proof.
  intros Ha1 Ha2 Hd Ht Hc. unfold scan_snapshot. destruct (reject_if _ _); [|done]. cbn [mbind result_bind].
  destruct (rep_data _ _ Ha1) as (t1 & -> & Hd1), (rep_data _ _ Ha2) as (t2 & -> & Hd2).
  destruct (stored_tip_ok sm1 s1 Ha1) as (p1 & -> & Ht1), (stored_tip_ok sm2 s2 Ha2) as (p2 & -> & Ht2).
  cbn [read_table ok_or mbind result_bind]. rewrite Ht1, Ht2, Ht. cbn [mbind result_bind].
  destruct (match end_ with Some e => leb e start | None => false end) eqn:He; [done|].
  fold (lower_of start cursor) (upper_of end_). pose proof (scan_range_ok _ _ _ He Hc) as Hr.
  by rewrite (range_equiv _ _ t1 (kv_data s1) Hd1 Hr), (range_equiv _ _ t2 (kv_data s2) Hd2 Hr), Hd.
Qed.

Lemma scan_range_cursor start end_ cursor :
  match cursor with
  | Some c => ltb c start || match end_ with Some e => leb e c | None => false end
  | None => false
  end = false → valid_cursor start end_ cursor.
Proof.
  destruct cursor as [c|]; [|done]. intros [Hl He]%orb_false_iff. split.
  - unfold leb, ltb in *. rewrite (cmp_opp start c) in Hl. by destruct (cmp start c).
  - destruct end_ as [e|]; [|done]. cbn. unfold leb, ltb in *. rewrite (cmp_opp e c). by destruct (cmp e c).
Qed.

Lemma scan_prefix_cursor prefix cursor :
  match cursor with Some c => negb (starts_with prefix c) | None => false end = false →
  valid_cursor prefix (prefix_successor prefix) cursor.
Proof.
  destruct cursor as [c|]; [|done]. rewrite negb_false_iff, starts_with_range. intros [Hl He]. split; [done|].
  by destruct (prefix_successor prefix).
Qed.

Lemma bind_cong {E A B} (m : result E A) (f k : A → result E B) :
  (∀ a, m = Ok a → f a = k a) → (m ≫= f) = (m ≫= k).
Proof. intros Hf. destruct m; cbn; [by apply Hf|done]. Qed.

(** A receipt check is a lookup of the request id. *)
Lemma check_request_ok sm s request_id payload :
  represents sm s →
  check_request sm request_id payload =
  (command ← decode_replicated_kv_command payload;
   _ ← reject_if (neqb (kc_request_id command) request_id) (InvalidCommand "provided and encoded request ids differ");
   _ ← reject_if (match kv_receipts s !! request_id with
                  | Some record => neqb (kr_payload_hash record) (digest [payload])
                  | None => false
                  end) (RequestConflict request_id);
   Ok (kv_receipts s !! request_id)).
Proof.
  intros Hrep. unfold check_request, check_request_in_table. destruct (rep_requests _ _ Hrep) as (tr & -> & Hr).
  cbn [read_table ok_or mbind result_bind]. apply bind_cong. intros command _. apply bind_cong. intros [] _.
  by rewrite (read_request_ok _ _ _ Hr).
Qed.

(** Replicas agree: two nodes of a cluster that have applied the same log, by
    whatever sequences of applications, compactions, reopenings and snapshots,
    answer every point read, every page of a scan and every receipt check with the
    same result. *)
Theorem kv_replicas_agree (c : bytes) (epoch config : N) (sm1 sm2 : RedbStateMachine TB TU) (log : list LogEntry) :
  history c epoch config sm1 log → history c epoch config sm2 log →
  (∀ key, get_with_tip sm1 key = get_with_tip sm2 key)
  ∧ (∀ start end_ limit cursor, scan_range sm1 start end_ limit cursor = scan_range sm2 start end_ limit cursor)
  ∧ (∀ prefix limit cursor, scan_prefix sm1 prefix limit cursor = scan_prefix sm2 prefix limit cursor)
  ∧ (∀ request_id payload, check_request sm1 request_id payload = check_request sm2 request_id payload).
Proof.
  intros [s1 Ha1]%history_applied [s2 Ha2]%history_applied. destruct (same_contents _ _ _ _ _ _ _ _ Ha1 Ha2) as (Hd & Hr & Ht).
  pose proof (ap_rep _ _ _ _ _ _ Ha1) as R1. pose proof (ap_rep _ _ _ _ _ _ Ha2) as R2. split_and!.
  - intros key. by rewrite (get_ok sm1 s1 key R1), (get_ok sm2 s2 key R2), Hd, Ht.
  - intros start end_ limit cursor. unfold scan_range. do 3 (apply bind_cong; intros [] _).
    apply bind_cong. intros [] Hc%reject_if_Ok%scan_range_cursor. by apply (scan_snapshot_same sm1 sm2 s1 s2).
  - intros prefix limit cursor. unfold scan_prefix. do 2 (apply bind_cong; intros [] _).
    apply bind_cong. intros [] Hc%reject_if_Ok%scan_prefix_cursor. by apply (scan_snapshot_same sm1 sm2 s1 s2).
  - intros request_id payload. rewrite (check_request_ok sm1 s1 _ _ R1), (check_request_ok sm2 s2 _ _ R2), Hr. done.
Qed.
(** ** Exactly once *)

Lemma apply_entry_txn sm e : apply_entry sm e = with_write sm (apply_txn sm e).
Proof. done. Qed.

(** The last entry, applied again. *)
Lemma apply_last sm s e :
  represents sm s → last (kv_log s) = Some e →
  apply_entry sm e = (sm, Ok (mkOutcome (le_index e) (le_hash e) (replay_result e (kv_receipts s)))).
Proof.
  intros Hrep Hl. pose proof (rep_covered _ _ Hrep) as Hall. rewrite Forall_forall in Hall.
  destruct (covered_decode _ e (Hall e (last_Some_elem_of _ _ Hl))) as [o Ho].
  destruct (replay_last sm s e o Hrep Hl Ho) as (Hre & Hi & Hof). rewrite apply_entry_txn, (apply_txn_gated sm s e Hrep Hof), Ho.
  cbn [mbind result_bind]. rewrite Hi, eqb_refl, Hre. cbn [mbind result_bind with_write].
  by rewrite with_same_database, (tip_last s e Hl).
Qed.

Lemma spec_apply_last c ep g s e s' out :
  spec_apply c ep g s e = Some (s', out) →
  last (kv_log s') = Some e ∧ out = mkOutcome (le_index e) (le_hash e) (replay_result e (kv_receipts s')).
Proof.
  unfold spec_apply. destruct (eqb (le_index e) _).
  - destruct (eqb (last _) _) eqn:Hl; [|done]. rewrite eqb_true in Hl. by intros [= <- <-].
  - unfold spec_next. destruct (_ && _); [|done]. destruct (spec_contents _ _ _) as [[[R D] res]|] eqn:Hc; [|done].
    cbn [mbind option_bind]. intros [= <- <-]. apply spec_contents_grow in Hc as (_ & _ & <-). cbn [kv_log kv_receipts].
    by rewrite last_snoc.
Qed.

(** Applying is idempotent: an entry that was applied (also one whose commands
    had all been seen before) can be applied again at once; the second application
    returns the same outcome, results of the commands included, and changes nothing. *)
Theorem kv_apply_idempotent (c : bytes) (epoch config : N) sm (log : list LogEntry) e sm' (out : ApplyOutcome) :
  history c epoch config sm log → entry_fits e = true → apply_entry sm e = (sm', Ok out) →
  apply_entry sm' e = (sm', Ok out).
Proof.
  intros [s Ha]%history_applied Hf Happ.
  destruct (applied_apply c epoch config sm log s e Ha Hf) as [[err Herr]|(sm1 & out1 & s' & Happ' & Hsp & Ha')]; [congruence|].
  rewrite Happ in Happ'. injection Happ' as -> ->. apply spec_apply_last in Hsp as [Hl ->].
  apply apply_last; [apply Ha'|done].
Qed.

(** The next entry of a log. *)
Definition next_entry (c : bytes) (epoch config : N) (log : list LogEntry) e : Prop :=
  entry_of c epoch config e = true ∧ entry_fits e = true
  ∧ follows (N.of_nat (length log)) (tip_hash LogHash_ZERO log) e = true
  ∧ (N.of_nat (length log) + 1 ≤ u64_max)%N.

Lemma spec_apply_next c ep g sm log s e :
  applied c ep g sm log s → next_entry c ep g log e →
  spec_apply c ep g s e = '(R, D, res) ← spec_contents e (kv_receipts s) (kv_data s);
    Some (mkKvState D R (kv_base s) (kv_log s ++ [e]), mkOutcome (le_index e) (le_hash e) res).
Proof.
  intros Ha (Hof & Hfit & Hfo & Hu). unfold spec_apply, spec_next.
  rewrite (ap_index _ _ _ _ _ _ Ha), (ap_hash _ _ _ _ _ _ Ha), Hof, Hfo. apply N.leb_le in Hu. rewrite Hu. cbn [andb].
  apply follows_cases in Hfo as [Hi _]. destruct (eqb (le_index e) _) eqn:He; [|done]. rewrite eqb_true in He. lia.
Qed.

Lemma apply_next_entry c ep g sm log s e R D res :
  applied c ep g sm log s → next_entry c ep g log e →
  spec_contents e (kv_receipts s) (kv_data s) = Some (R, D, res) →
  ∃ sm', apply_entry sm e = (sm', Ok (mkOutcome (le_index e) (le_hash e) res))
    ∧ ∃ s', applied c ep g sm' (log ++ [e]) s' ∧ kv_data s' = D.
Proof.
  intros Ha Hn Hc. pose proof (spec_apply_next _ _ _ _ _ _ _ Ha Hn) as Hsp. rewrite Hc in Hsp. cbn [mbind option_bind] in Hsp.
  pose proof Hn as (_ & Hfit & Hfo & _). pose proof (apply_entry_ok sm s e (ap_rep _ _ _ _ _ _ Ha) Hfit) as Hok.
  rewrite (ap_cluster _ _ _ _ _ _ Ha), (ap_epoch _ _ _ _ _ _ Ha), (ap_config _ _ _ _ _ _ Ha), Hsp in Hok. destruct Hok as (db & Hok & _).
  destruct (applied_apply c ep g sm log s e Ha Hfit) as [[err Herr]|(sm' & out & s' & Happ & Hsp' & Ha')]; [congruence|].
  rewrite Hsp in Hsp'. injection Hsp' as <- <-. exists sm'. split; [done|]. exists (mkKvState D R (kv_base s) (kv_log s ++ [e])).
  split; [|done].
  apply follows_cases in Hfo as [Hi _]. destruct (eqb (le_index e) _) eqn:He in Ha'; [rewrite eqb_true in He; lia|exact Ha'].
Qed.

Lemma decode_single p cmd :
  decode_replicated_kv_command p = Ok cmd → decode_replicated_kv_commands p = Ok [mkDecoded cmd p].
Proof.
  intros [Hg He]%decode_replicated_command_Ok. destruct (replicated_command_reads cmd Hg) as (p' & He' & _ & Hd).
  rewrite He in He'. by injection He' as <-.
Qed.

(** The error of an entry whose only command conflicts with its receipt. *)
Lemma apply_conflict c ep g sm log s e d :
  applied c ep g sm log s → next_entry c ep g log e → le_entry_type e = Command →
  decode_replicated_kv_commands (le_payload e) = Ok [d] → spec_member e d (kv_receipts s) (kv_data s) = None →
  apply_entry sm e = (sm, Err (RequestConflict (dk_id d))).
Proof.
  intros Ha (Hof & Hfit & Hfo & Hu) Ht Hd Hm. pose proof (ap_rep _ _ _ _ _ _ Ha) as Hrep. 
  rewrite <-(ap_cluster _ _ _ _ _ _ Ha), <-(ap_epoch _ _ _ _ _ _ Ha), <-(ap_config _ _ _ _ _ _ Ha) in Hof.
  rewrite apply_entry_txn, (apply_txn_gated sm s e Hrep Hof). unfold decode_opt. rewrite Ht, eqb_refl, Hd. cbn [mbind result_bind]. pose proof Hfo as [Hi Hp]%follows_cases.
  rewrite (ap_index _ _ _ _ _ _ Ha), (ap_hash _ _ _ _ _ _ Ha).
  destruct (eqb (le_index e) _) eqn:He; [rewrite eqb_true in He; lia|]. unfold apply_next, checked_add.
  apply N.leb_le in Hu as Hle. rewrite Hle. cbn [ok_or mbind result_bind]. rewrite Hi, Hp, !neqb_refl. cbn [reject_if mbind result_bind].
  unfold apply_contents. rewrite Ht. cbn [ok_or mbind result_bind].
  destruct (rep_data _ _ Hrep) as (td & -> & Htd), (rep_requests _ _ Hrep) as (tr & -> & Htr). rewrite !write_table_Some.
  assert (is_u64 (le_index e) = true) as Hue by (by rewrite Hi).
  pose proof (apply_member_ok e (is_single [d]) tr td None d _ _ Htr Htd Hue) as Hok. rewrite Hm in Hok.
  cbn [try_fold]. by rewrite Hok.
Qed.

(** [check_request] tells what applying will do: for the next entry, carrying one
    command, a conflict reported by the check is the error of the application, which
    then changes nothing; a receipt found is the result of the application, which
    changes no key; and without a receipt the command is executed on the data. *)
Theorem kv_check_predicts_apply (c : bytes) (epoch config : N) sm log e (cmd : KvCommandV1) :
  history c epoch config sm log → next_entry c epoch config log e → le_entry_type e = Command →
  decode_replicated_kv_command (le_payload e) = Ok cmd →
  match check_request sm (kc_request_id cmd) (le_payload e) with
  | Err err => apply_entry sm e = (sm, Err err)
  | Ok (Some record) => ∃ sm', apply_entry sm e
      = (sm', Ok (mkOutcome (le_index e) (le_hash e) (Some (kr_result record))))
      ∧ ∀ key, kv_get sm' key = kv_get sm key
  | Ok None => ∃ s sm', represents sm s ∧ apply_entry sm e
      = (sm', Ok (mkOutcome (le_index e) (le_hash e) (Some (exec (kc_operation cmd) (kv_data s)).2)))
      ∧ ∃ s', represents sm' s' ∧ kv_data s' = (exec (kc_operation cmd) (kv_data s)).1
  end.
Proof.
  intros [s Ha]%history_applied Hn Ht Hc. pose proof (ap_rep _ _ _ _ _ _ Ha) as Hrep.
  rewrite (check_request_ok sm s _ _ Hrep), Hc. cbn [mbind result_bind]. rewrite neqb_refl. cbn [reject_if mbind result_bind].
  pose proof (decode_single _ _ Hc) as Hd. set (d := mkDecoded cmd (le_payload e)) in *.
  assert (spec_contents e (kv_receipts s) (kv_data s)
    = '(R, D, r) ← spec_member e d (kv_receipts s) (kv_data s); Some (R, D, Some r)) as Hcon.
  { unfold spec_contents. rewrite Ht, Hd. cbn [option_of mbind option_bind spec_members].
    by destruct (spec_member e d _ _) as [[[R D] r]|]. }
  unfold spec_member in Hcon. change (dk_id d) with (kc_request_id cmd) in Hcon. change (dk_hash d) with (digest [le_payload e]) in Hcon.
  change (dk_command d) with cmd in Hcon.
  destruct (kv_receipts s !! kc_request_id cmd) as [rec|] eqn:Hr.
  - unfold neqb. destruct (eqb (kr_payload_hash rec) (digest [le_payload e])) eqn:Hh; cbn [negb reject_if mbind result_bind].
    + cbn [mbind option_bind] in Hcon. destruct (apply_next_entry _ _ _ _ _ _ _ _ _ _ Ha Hn Hcon) as (sm' & Happ & s' & Ha' & Hd').
      exists sm'. split; [done|]. intros key. unfold kv_get.
      by rewrite (get_ok _ _ key (ap_rep _ _ _ _ _ _ Ha')), (get_ok _ _ key Hrep), Hd'; destruct (validate_key key).
    + apply (apply_conflict c epoch config sm log s e d Ha Hn Ht Hd). unfold spec_member.
      change (dk_id d) with (kc_request_id cmd). change (dk_hash d) with (digest [le_payload e]). by rewrite Hr, Hh.
  - destruct (exec (kc_operation cmd) (kv_data s)) as [D r] eqn:He. cbn [mbind option_bind reject_if result_bind] in *.
    destruct (apply_next_entry _ _ _ _ _ _ _ _ _ _ Ha Hn Hcon) as (sm' & Happ & s' & Ha' & Hd').
    exists s, sm'. rewrite He. cbn [fst snd]. split_and!; [done|done|]. exists s'. split; [apply Ha'|done].
Qed.
End history.
