(* ===== verification/KvWitnesses.v ===== *)
(** * KvWitnesses: the key/value theorems at concrete databases

    Tables as finite maps, and a database file that spells out the binary form of
    the encoded tables: an instance of the interface of redb on which the theorems
    are applied to a small cluster with two commands. *)

From S2P Require Import Prelude Bytes Core ConfigChange Envelope LogSegment KvCodec KvStore KvTables KvSpec KvRefine KvOps KvScan KvHistory.
From Stdlib Require Strings.Byte.

(** ** A database file *)

Fixpoint bits_of (p : positive) : bytes :=
  match p with
  | xH => []
  | xO p => Byte.x00 :: bits_of p
  | xI p => Byte.x01 :: bits_of p
  end.
Fixpoint of_bits (l : bytes) : positive :=
  match l with
  | [] => xH
  | b :: l => if eqb b Byte.x00 then xO (of_bits l) else xI (of_bits l)
  end.
Lemma of_bits_of p : of_bits (bits_of p) = p.
Proof. induction p as [p IH|p IH|]; cbn; by rewrite ?IH. Qed.

Abbreviation sample_tb := (gmap bytes bytes).
Abbreviation sample_tu := (gmap N bytes).
Abbreviation sample_redb := (Redb sample_tb sample_tu).
Abbreviation sample_machine := (RedbStateMachine sample_tb sample_tu).

Definition redb_tables (db : sample_redb) := (db_data db, db_requests db, db_progress db, db_qlog db).
#[export] Instance sample_file : RedbFile sample_tb sample_tu := {
  redb_bytes db := bits_of (encode (redb_tables db));
  redb_load l := '(d, r, p, q) ← decode (of_bits l); Some (mkRedb d r p q)
}.
#[export] Instance sample_file_laws : RedbFileLaws sample_tb sample_tu.
Proof. intros [d r p q]. cbn. by rewrite of_bits_of, decode_encode. Qed.

(** ** A cluster with two commands *)

Definition kv_cluster : bytes := lit "cluster-a".
Definition kv_node : bytes := lit "node-1".
#[local] Instance kv_sha : Sha256 := sample_sha256.

Definition put_1 : KvCommandV1 := mkKvCommand (lit "request-1") (Put (lit "key") (lit "value")).
Definition del_2 : KvCommandV1 := mkKvCommand (lit "request-2") (Delete (lit "key")).
Definition the_payload (r : result KvError bytes) : bytes := match r with Ok l => l | Err _ => [] end.
Definition payload_1 : bytes := Eval vm_compute in the_payload (encode_replicated_kv_command put_1).
Definition entry_1 : LogEntry := Eval vm_compute in seal_entry kv_cluster 1 1 1 Command payload_1 LogHash_ZERO.
Definition entry_2 : LogEntry := Eval vm_compute in seal_entry kv_cluster 1 1 2 Command payload_1 (le_hash entry_1).

Definition machine_of (r : result KvError sample_machine) : sample_machine :=
  match r with Ok sm => sm | Err _ => mkMachine empty_redb [] [] 0 0 end.
Definition machine_0 : sample_machine := machine_of (kv_open None kv_cluster kv_node 1 1).
Definition machine_0b : sample_machine := machine_of (kv_open None kv_cluster (lit "node-2") 1 1).
Definition machine_1 : sample_machine := (apply_entry machine_0 entry_1).1.
Definition machine_1b : sample_machine := (apply_entry machine_0b entry_1).1.
Definition outcome_1 : ApplyOutcome := mkOutcome 1 (le_hash entry_1) (Some (PutResult false)).

Lemma machine_1_applied : apply_entry machine_0 entry_1 = (machine_1, Ok outcome_1).
Proof. rewrite (surjective_pairing (apply_entry machine_0 entry_1)). apply (f_equal2 pair); [reflexivity|vm_compute; reflexivity]. Qed.
Lemma machine_1b_applied : apply_entry machine_0b entry_1 = (machine_1b, Ok outcome_1).
Proof. rewrite (surjective_pairing (apply_entry machine_0b entry_1)). apply (f_equal2 pair); [reflexivity|vm_compute; reflexivity]. Qed.

Lemma history_0 : history kv_cluster 1 1 machine_0 [].
Proof. eapply (history_open _ _ _ kv_node). reflexivity. Qed.
Lemma history_0b : history kv_cluster 1 1 machine_0b [].
Proof. eapply (history_open _ _ _ (lit "node-2")). reflexivity. Qed.
Lemma history_1 : history kv_cluster 1 1 machine_1 [entry_1].
Proof.
  apply (history_apply _ _ _ machine_0 [] entry_1 machine_1 outcome_1 history_0); [reflexivity|apply machine_1_applied].
Qed.
Lemma history_1b : history kv_cluster 1 1 machine_1b [entry_1].
Proof.
  apply (history_apply _ _ _ machine_0b [] entry_1 machine_1b outcome_1 history_0b); [reflexivity|apply machine_1b_applied].
Qed.

Lemma kv_state_is_log_witness :
  ∃ s, represents machine_1 s ∧ run_log [entry_1] ∅ ∅ = Some (kv_receipts s, kv_data s)
    ∧ kv_tip_index s = 1%N ∧ kv_tip_hash s = le_hash entry_1.
Proof. exact (kv_state_is_log kv_cluster 1 1 machine_1 [entry_1] history_1). Defined.

Lemma kv_replicas_agree_witness :
  get_with_tip machine_1 (lit "key") = get_with_tip machine_1b (lit "key").
Proof. exact (proj1 (kv_replicas_agree kv_cluster 1 1 machine_1 machine_1b [entry_1] history_1 history_1b) (lit "key")). Defined.

Lemma kv_apply_idempotent_witness : apply_entry machine_1 entry_1 = (machine_1, Ok outcome_1).
Proof.
  exact (kv_apply_idempotent kv_cluster 1 1 machine_0 [] entry_1 machine_1 outcome_1 history_0 eq_refl machine_1_applied).
Defined.

(** The empty database. *)
Lemma machine_0_represents : represents machine_0 kv_empty.
Proof.
  destruct (open_new (TB := sample_tb) (TU := sample_tu) kv_cluster kv_node 1 1) as (sm & Ho & Hr & _); [done|done|].
  unfold machine_0. by rewrite Ho.
Qed.

Lemma kv_apply_refines_witness :
  match spec_apply kv_cluster 1 1 kv_empty entry_1 with
  | Some (s', out) => ∃ db, apply_entry machine_0 entry_1 = (with_database machine_0 db, Ok out)
      ∧ represents (with_database machine_0 db) s'
  | None => ∃ err, apply_entry machine_0 entry_1 = (machine_0, Err err)
  end.
Proof. exact (kv_apply_refines machine_0 kv_empty entry_1 machine_0_represents eq_refl). Defined.

(** The database after the first command. *)
Definition state_1 : KvState :=
  match spec_apply kv_cluster 1 1 kv_empty entry_1 with Some (s, _) => s | None => kv_empty end.
Lemma machine_1_represents : represents machine_1 state_1.
Proof.
  pose proof (apply_entry_ok machine_0 kv_empty entry_1 machine_0_represents eq_refl) as Hok.
  change (sm_cluster_id machine_0) with kv_cluster in Hok. change (sm_epoch machine_0) with 1%N in Hok.
  change (sm_config_id machine_0) with 1%N in Hok. unfold state_1.
  destruct (spec_apply kv_cluster 1 1 kv_empty entry_1) as [[s out]|].
  - destruct Hok as (db & Happ & Hrep). rewrite machine_1_applied in Happ. apply (f_equal fst) in Happ. cbn [fst] in Happ.
    by rewrite <-Happ in Hrep.
  - destruct Hok as [err Herr]. rewrite machine_1_applied in Herr. apply (f_equal snd) in Herr.
    discriminate Herr.
Qed.

Lemma kv_snapshot_transfer_witness :
  ∃ snap (db : sample_redb), create_snapshot machine_1 1 = Ok snap
    ∧ restore_snapshot_file None snap (lit "node-2") = Ok db
    ∧ let sm' := mkMachine db kv_cluster (lit "node-2") 1 1 in
      kv_open (Some db) kv_cluster (lit "node-2") 1 1 = Ok sm' ∧ represents sm' (snapshot_state state_1).
Proof.
  pose proof (kv_snapshot_transfer machine_1 state_1 (lit "node-2") 1 machine_1_represents ltac:(done)) as Ht.
  replace (eqb (kv_tip_index state_1) 1%N) with true in Ht by (vm_compute; reflexivity). exact Ht.
Defined.

Lemma kv_scans_complete_witness :
  scan_all 2 (scan_range machine_1 (lit "a") (Some (lit "z")) 10) None = Ok [(lit "key", lit "value")]
  ∧ scan_all 2 (scan_prefix machine_1 (lit "ke") 10) None = Ok [(lit "key", lit "value")].
Proof.
  apply (kv_scans_complete machine_1 state_1 (lit "a") (lit "ke") (Some (lit "z")) 10 machine_1_represents);
    (split || idtac); vm_compute; discriminate.
Defined.

Lemma kv_batch_roundtrip_witness :
  ∃ payload ds, encode_replicated_kv_batch [put_1; del_2] = Ok payload
    ∧ decode_replicated_kv_commands payload = Ok ds
    ∧ dk_command <$> ds = [put_1; del_2] ∧ Forall decoded_ok ds.
Proof.
  apply (kv_batch_roundtrip [put_1; del_2]). split_and!.
  - cbn. lia.
  - vm_compute. discriminate.
  - repeat constructor.
  - vm_compute. apply (bool_decide_unpack _). vm_compute. reflexivity.
Defined.

Lemma next_1 : next_entry kv_cluster 1 1 [] entry_1.
Proof. split_and!; [vm_compute; reflexivity..|vm_compute; discriminate]. Qed.
Lemma next_2 : next_entry kv_cluster 1 1 [entry_1] entry_2.
Proof. split_and!; [vm_compute; reflexivity..|vm_compute; discriminate]. Qed.


Lemma kv_check_predicts_apply_witness :
  match check_request machine_1 (lit "request-1") payload_1 with
  | Err err => apply_entry machine_1 entry_2 = (machine_1, Err err)
  | Ok (Some record) => ∃ sm', apply_entry machine_1 entry_2
      = (sm', Ok (mkOutcome 2 (le_hash entry_2) (Some (kr_result record))))
      ∧ ∀ key, kv_get sm' key = kv_get machine_1 key
  | Ok None => ∃ s sm', represents machine_1 s ∧ apply_entry machine_1 entry_2
      = (sm', Ok (mkOutcome 2 (le_hash entry_2) (Some (exec (kc_operation put_1) (kv_data s)).2)))
      ∧ ∃ s', represents sm' s' ∧ kv_data s' = (exec (kc_operation put_1) (kv_data s)).1
  end.
Proof.
  apply (kv_check_predicts_apply kv_cluster 1 1 machine_1 [entry_1] entry_2 put_1 history_1 next_2 eq_refl).
  vm_compute. reflexivity.
Defined.
