(* ===== verification/Proposal.v ===== *)
(** * Proposal: membership, proposals and their order

    Models the data of [crates/rhiza-quepaxa/src/lib.rs] that the consensus
    rules compare: [Membership] (a canonical set of three to seven recorders
    with its digest), [AcceptedValue], [ProposalPriority] and [Proposal] with
    the order in which the interval summary registers aggregate proposals. *)

From S2P Require Import Prelude Bytes Core ConfigChange.
From Stdlib Require Strings.Byte.

(** Node, recorder and cluster identities are Rust strings. *)
Abbreviation NodeId := bytes.

Record Ballot : Type := mkBallot { b_round : N; b_priority : N; b_proposer_id : NodeId }.
#[export] Instance Ballot_eq_dec : EqDecision Ballot.
Proof. solve_decision. Defined.

(** ** Errors *)

Inductive RejectReason : Type :=
| StaleEpoch | FutureEpoch | WrongCluster | WrongConfig | WrongSlot | AlreadyDecided
| MalformedDecision | BallotPromised (promised : Ballot) | ConflictingValue | InvalidValue
| InvalidCertificate | ConfigurationSealed (stop_slot : N) | ConfigurationNotInstalled
| ActivationRequired | TransitionInProgress | InvalidTransition | LocalVoterRequired
| StepRegression | InvalidRequest.
#[export] Instance RejectReason_eq_dec : EqDecision RejectReason.
Proof. solve_decision. Defined.

(** [MigrationRequired] carries a static format name; [RecorderRootLocked] a path. *)
Inductive Error : Type :=
| ChainConflict (slot : N) (expected_prev_hash actual_prev_hash : LogHash)
| CommandHashMismatch | CommandUnavailable | Cancelled | ConflictingCertificates
| Decode (message : string) | DuplicateRecorderIdentity | EmptyRecorderIdentity
| EmptyFixedMembership | InvalidFixedMembershipSize | InvalidRecoveredTip
| Io (message : string) | MigrationRequired (format : string) (version : N)
| NoQuorum | ProposeFailed | RandomnessUnavailable (message : string)
| RecorderRootLocked (root : string) | Rejected (reason : RejectReason)
| ReadFenceUnsupported | TypedProofInstallRequired | TypedRecordRequired.
#[export] Instance Error_eq_dec : EqDecision Error.
Proof. solve_decision. Defined.

(** ** Membership *)

Record Membership : Type := mkMembership { m_members : list NodeId; m_digest : LogHash }.
#[export] Instance Membership_eq_dec : EqDecision Membership.
Proof. solve_decision. Defined.

Definition quorum_size (n : nat) : nat := n / 2 + 1.
Definition m_quorum_size (m : Membership) : nat := quorum_size (length (m_members m)).

(** [binary_search_by] over the member list, which [from_members] keeps sorted. *)
Definition m_contains (m : Membership) (recorder_id : NodeId) : bool :=
  existsb (eqb recorder_id) (m_members m).

Section membership.
Context `{Sha256}.

(** [collect::<BTreeSet<_>>] and iterating over it sorts and drops duplicates. *)
Definition from_members (members : list NodeId) : result Error Membership :=
  _ ← reject_if (length members =? 0) EmptyFixedMembership;
  _ ← reject_if (negb (member_count_ok members)) InvalidFixedMembershipSize;
  _ ← reject_if (existsb (λ m, (blen m =? 0)%N) members) EmptyRecorderIdentity;
  let member_count := length members in
  let members := dedup_by id (sort_by id members) in
  _ ← reject_if (negb (length members =? member_count)) DuplicateRecorderIdentity;
  digest ← map_err (λ _, InvalidFixedMembershipSize) (canonical_membership_digest members);
  Ok (mkMembership members digest).

Definition from_voters (voters : list NodeId) : result Error Membership := from_members voters.

(** What every constructed membership satisfies. *)
Definition membership_wf (m : Membership) : Prop :=
  canonical_membership_digest (m_members m) = Ok (m_digest m).

Lemma from_members_wf (ms : list NodeId) (m : Membership) :
  from_members ms = Ok m → membership_wf m ∧ m_members m ≡ₚ ms.
Proof.
  unfold from_members, membership_wf. intros Hf. res_inv. bool_prop. cbn.
  split; [done|]. by apply canonical_perm.
Qed.

Lemma membership_wf_inv (m : Membership) :
  membership_wf m → 3 ≤ length (m_members m) ≤ 7 ∧ NoDup (m_members m).
Proof.
  unfold membership_wf. intros (Hc & _ & Ha & _)%canonical_digest_Ok.
  unfold member_count_ok in Hc. bool_prop. split; [lia|].
  apply strictly_ascending_spec, ascending_NoDup in Ha. by rewrite list_fmap_id in Ha.
Qed.
End membership.

Lemma m_contains_true m r : m_contains m r = true ↔ r ∈ m_members m.
Proof.
  unfold m_contains. rewrite existsb_exists. split.
  - intros (x & Hx & ->%eqb_true). by apply list_elem_of_In.
  - intros Hr. exists r. split; [by apply list_elem_of_In|apply eqb_refl].
Qed.

(** Two sets of recorders that reach the quorum size share a recorder. *)
Lemma quorums_meet (m : Membership) (q1 q2 : list NodeId) :
  NoDup q1 → NoDup q2 → q1 ⊆ m_members m → q2 ⊆ m_members m →
  m_quorum_size m ≤ length q1 → m_quorum_size m ≤ length q2 → ∃ r, r ∈ q1 ∧ r ∈ q2.
Proof.
  intros H1 H2 S1 S2 L1 L2. apply (quorum_overlap (m_members m)); try done.
  unfold m_quorum_size, quorum_size in *.
  pose proof (Nat.div_mod_eq (length (m_members m)) 2).
  pose proof (Nat.mod_upper_bound (length (m_members m)) 2). lia.
Qed.

(** ** Accepted values *)

Record AcceptedValue : Type := mkAcceptedValue {
  av_command_hash : LogHash; av_prev_hash : LogHash; av_entry_hash : LogHash
}.
#[export] Instance AcceptedValue_eq_dec : EqDecision AcceptedValue.
Proof. solve_decision. Defined.

Definition AcceptedValue_key (v : AcceptedValue) : bytes * bytes * bytes :=
  (as_bytes (av_entry_hash v), as_bytes (av_command_hash v), as_bytes (av_prev_hash v)).
#[export] Instance AcceptedValue_ord : Ord AcceptedValue := inj_ord AcceptedValue_key.
#[export] Instance AcceptedValue_key_inj : Inj (=) (=) AcceptedValue_key.
Proof.
  intros [c p e] [c' p' e']. unfold AcceptedValue_key; cbn.
  intros [= H1%array32_eq H2%array32_eq H3%array32_eq]. by subst.
Qed.
#[export] Instance AcceptedValue_lawful : LawfulOrd AcceptedValue.
Proof. apply (inj_lawful AcceptedValue_key). Qed.

Definition from_command `{Sha256} (cluster_id : bytes) (slot epoch config_id : N)
    (prev_hash : LogHash) (command : StoredCommand) : AcceptedValue :=
  {| av_command_hash := command_hash command;
     av_prev_hash := prev_hash;
     av_entry_hash := calculate_hash cluster_id slot epoch config_id
       (sc_entry_type command) prev_hash (sc_payload command) |}.

(** ** Proposals *)

Abbreviation ProposalPriority := array32.
Definition PRIORITY_ZERO : ProposalPriority := array32_fill Byte.x00.
Definition PRIORITY_MAX : ProposalPriority := array32_fill Byte.xff.

Lemma priority_from_u64_len v : Nat.eqb (length (replicate 24 Byte.x00 ++ be_bytes 8 v)) 32 = true.
Proof. apply Nat.eqb_eq. by rewrite length_app, length_be_bytes. Qed.
Definition priority_from_u64 (value : N) : ProposalPriority :=
  Array32 (replicate 24 Byte.x00 ++ be_bytes 8 value) (priority_from_u64_len value).
Definition legacy_u128 (p : ProposalPriority) : N := be_value (drop 16 (as_bytes p)).

Record Proposal : Type := mkProposal {
  p_priority : ProposalPriority; p_proposer_id : NodeId; p_proposal_id : N;
  p_value : option AcceptedValue
}.

Definition proposal_new (priority : ProposalPriority) (proposer_id : NodeId) (proposal_id : N)
    (value : AcceptedValue) : Proposal := mkProposal priority proposer_id proposal_id (Some value).
Definition proposal_nil : Proposal := mkProposal PRIORITY_ZERO [] 0 None.

Definition identity (p : Proposal) :
    ProposalPriority * (NodeId * (N * option AcceptedValue)) :=
  (p_priority p, (p_proposer_id p, (p_proposal_id p, p_value p))).
Definition is_nil (p : Proposal) : bool := match p_value p with None => true | Some _ => false end.

#[export] Instance identity_inj : Inj (=) (=) identity.
Proof. intros [? ? ? ?] [? ? ? ?]. unfold identity; cbn. by intros [= -> -> -> ->]. Qed.

(** [PartialEq] compares identities, which is equality of all the fields. *)
#[export] Instance Proposal_eq_dec : EqDecision Proposal.
Proof. solve_decision. Defined.

(** [Ord]: any two nil proposals are [Equal], nil is below every other proposal. *)
#[export] Instance Proposal_ord : Ord Proposal := λ x y,
  match is_nil x, is_nil y with
  | true, true => Eq
  | true, false => Lt
  | false, true => Gt
  | false, false => cmp (identity x) (identity y)
  end.

Definition proposal_exact (left right : Proposal) : bool :=
  eqb left right && eqb (p_value left) (p_value right).

Lemma proposal_exact_true p q : proposal_exact p q = true ↔ p = q.
Proof. unfold proposal_exact. rewrite andb_true_iff, !eqb_true. naive_solver. Qed.

Lemma proposal_cmp_nonnil p q :
  is_nil p = false → is_nil q = false → cmp p q = cmp (identity p) (identity q).
Proof. unfold cmp at 1, Proposal_ord. by intros -> ->. Qed.

(** The order is a total preorder: it answers [Eq] on different nil proposals. *)
#[export] Instance Proposal_preord : TotalPreOrd Proposal.
Proof.
  split.
  - intros x y. unfold cmp, Proposal_ord. destruct (is_nil x), (is_nil y); try done. apply cmp_opp.
  - intros x y z. unfold ole, cmp at 1 2 3, Proposal_ord.
    destruct (is_nil x), (is_nil y), (is_nil z); try done. apply pre_trans.
Qed.

Lemma proposal_ole_antisym p q : is_nil p = false → ole p q → ole q p → p = q.
Proof.
  intros Hp Hpq Hqp. destruct (is_nil q) eqn:Hq.
  - unfold ole, cmp, Proposal_ord in Hpq. by rewrite Hp, Hq in Hpq.
  - unfold ole in *. rewrite proposal_cmp_nonnil in Hpq by done.
    rewrite proposal_cmp_nonnil in Hqp by done.
    by apply (inj identity), ole_antisym.
Qed.

Lemma proposal_ole_nonnil p q : is_nil p = false → ole p q → is_nil q = false.
Proof. unfold ole, cmp, Proposal_ord. intros ->. by destruct (is_nil q). Qed.

Lemma ole_priority p q :
  is_nil p = false → ole p q → ole (p_priority p) (p_priority q).
Proof.
  intros Hp Hle. pose proof (proposal_ole_nonnil _ _ Hp Hle) as Hq.
  unfold ole in Hle. rewrite proposal_cmp_nonnil in Hle by done.
  unfold identity in Hle. rewrite prod_cmp in Hle.
  unfold ole. intros Hgt. apply Hle. by rewrite Hgt.
Qed.

(** No priority is above [MAX]. *)
Lemma list_le_max (l : bytes) : cmp l (replicate (length l) Byte.xff) ≠ Gt.
Proof.
  induction l as [|b l IH]; [done|]. cbn [length replicate]. rewrite list_cmp_cons.
  destruct (cmp b Byte.xff) eqn:E; [exact IH|done|].
  exfalso. unfold cmp, byte_ord, inj_ord, cmp, N_ord in E.
  apply N.compare_gt_iff in E. pose proof (to_N_bound b). by change (Byte.to_N Byte.xff) with 255%N in E; lia.
Qed.
Lemma priority_le_max (p : ProposalPriority) : ole p PRIORITY_MAX.
Proof.
  unfold ole, cmp, array32_ord, inj_ord. pose proof (list_le_max (as_bytes p)) as Hle.
  by rewrite length_as_bytes in Hle.
Qed.
