(* ===== verification/Isr.v ===== *)
(** * Isr: the interval summary register

    Models [IsrState] and [IsrState::record] of [crates/rhiza-quepaxa/src/lib.rs]
    (the recorder's pure transition), and its abstract specification: a register
    that keeps the whole history of the inputs it did not find stale.  The
    refinement theorem says that the four fields of the code's state are
    functions of that history: its last step, the first proposal at that step,
    the greatest proposal at that step, and the greatest at the step before. *)

From S2P Require Import Prelude Bytes Core Proposal.

Record IsrState : Type := mkIsr {
  isr_step : N; isr_first_current : option Proposal;
  isr_aggregate_current : option Proposal; isr_aggregate_prior : option Proposal
}.
#[export] Instance IsrState_eq_dec : EqDecision IsrState.
Proof. solve_decision. Defined.

Record IsrReply : Type := mkIsrReply {
  ir_step : N; ir_first_current : option Proposal; ir_aggregate_prior : option Proposal
}.
#[export] Instance IsrReply_eq_dec : EqDecision IsrReply.
Proof. solve_decision. Defined.

Definition isr_default : IsrState := mkIsr 0 None None None.

Definition isr_next (self : IsrState) (step : N) (proposal : Proposal) : IsrState :=
  if (step =? isr_step self)%N then
    mkIsr (isr_step self)
      (match isr_first_current self with None => Some proposal | f => f end)
      (if ltb (isr_aggregate_current self) (Some proposal) then Some proposal
       else isr_aggregate_current self)
      (isr_aggregate_prior self)
  else if (isr_step self <? step)%N then
    mkIsr step (Some proposal) (Some proposal)
      (if (step =? saturating_add (isr_step self) 1)%N then isr_aggregate_current self else None)
  else self.

Definition isr_reply (next : IsrState) : IsrReply :=
  mkIsrReply (isr_step next) (isr_first_current next) (isr_aggregate_prior next).

Definition isr_record (self : IsrState) (step : N) (proposal : Proposal) : IsrState * IsrReply :=
  let next := isr_next self step proposal in (next, isr_reply next).

(** ** The register that remembers everything *)

Definition input : Type := N * Proposal.

(** The proposals recorded at a step. *)
Definition at_step (s : N) (h : list input) : list Proposal :=
  snd <$> filter (λ x, x.1 = s) h.

Definition current_step (h : list input) : N := from_option fst 0%N (last h).

(** A stale input leaves no trace; any other is appended. *)
Definition observe (h : list input) (s : N) (p : Proposal) : list input :=
  if (s <? current_step h)%N then h else h ++ [(s, p)].

Definition prior_step_inputs (h : list input) : list Proposal :=
  if (current_step h =? 0)%N then [] else at_step (current_step h - 1) h.

(** A greatest element, or none of an empty list. *)
Definition greatest (o : option Proposal) (l : list Proposal) : Prop :=
  match o with
  | None => l = []
  | Some m => m ∈ l ∧ ∀ x, x ∈ l → ole x m
  end.

Record isr_refines (st : IsrState) (h : list input) : Prop := {
  ref_step : isr_step st = current_step h;
  ref_first : isr_first_current st = head (at_step (current_step h) h);
  ref_current : greatest (isr_aggregate_current st) (at_step (current_step h) h);
  ref_prior : greatest (isr_aggregate_prior st) (prior_step_inputs h)
}.

(** Steps never go back along a history. *)
Definition history_wf (h : list input) : Prop :=
  ∀ x, x ∈ h → (x.1 ≤ current_step h)%N ∧ (x.1 ≤ u64_max)%N.

(** ** Refinement *)

Lemma at_step_nil s : at_step s [] = [].
Proof. done. Qed.
Lemma at_step_snoc s h t p :
  at_step s (h ++ [(t, p)]) = at_step s h ++ (if (t =? s)%N then [p] else []).
Proof.
  unfold at_step. rewrite filter_app, fmap_app. f_equal.
  rewrite filter_cons, filter_nil; cbn. destruct (N.eqb_spec t s); case_decide; done.
Qed.
Lemma elem_at_step s h p : p ∈ at_step s h ↔ (s, p) ∈ h.
Proof.
  unfold at_step. rewrite list_elem_of_fmap. split.
  - intros ([t q] & -> & [Ht Hin]%list_elem_of_filter). cbn in *. by subst.
  - intros Hin. exists (s, p). split; [done|]. by apply list_elem_of_filter.
Qed.
Lemma current_step_snoc h s p : current_step (h ++ [(s, p)]) = s.
Proof. unfold current_step. by rewrite last_snoc. Qed.

Lemma at_step_above h s : history_wf h → (current_step h < s)%N → at_step s h = [].
Proof.
  intros Hwf Hlt. destruct (at_step s h) as [|p l] eqn:E; [done|].
  assert ((s, p) ∈ h) as [Hle _]%Hwf by (apply elem_at_step; rewrite E; by left).
  cbn in Hle. lia.
Qed.

Lemma history_wf_observe h s p :
  history_wf h → (s ≤ u64_max)%N → history_wf (observe h s p).
Proof.
  intros Hwf Hs. unfold observe. destruct (N.ltb_spec s (current_step h)); [done|].
  intros x. rewrite current_step_snoc. intros [Hx|Hx]%elem_of_app.
  - apply Hwf in Hx. lia.
  - apply list_elem_of_singleton in Hx as ->. cbn. lia.
Qed.

Lemma ltb_Some (o : option Proposal) p :
  ltb o (Some p) = match o with None => true | Some q => ltb q p end.
Proof. by destruct o. Qed.

Lemma greatest_snoc o l p :
  greatest o l → greatest (if ltb o (Some p) then Some p else o) (l ++ [p]).
Proof.
  rewrite ltb_Some. destruct o as [q|]; cbn.
  - intros [Hin Hle]. unfold ltb. destruct (cmp q p) eqn:E.
    + split; [set_solver|]. intros x [Hx|Hx]%elem_of_app; [by apply Hle|].
      apply list_elem_of_singleton in Hx as ->. unfold ole. by rewrite (pre_opp q p), E.
    + split; [set_solver|]. intros x [Hx|Hx]%elem_of_app.
      * eapply pre_trans; [by apply Hle|]. by apply Lt_ole.
      * apply list_elem_of_singleton in Hx as ->. apply ole_refl.
    + split; [set_solver|]. intros x [Hx|Hx]%elem_of_app; [by apply Hle|].
      apply list_elem_of_singleton in Hx as ->. by apply Gt_ole.
  - intros ->. cbn. split; [by left|]. intros x Hx%list_elem_of_singleton. subst. apply ole_refl.
Qed.

Lemma head_app_first {A} (l : list A) (x : A) :
  head (l ++ [x]) = match head l with None => Some x | f => f end.
Proof. by destruct l. Qed.

Lemma isr_refines_default : isr_refines isr_default [].
Proof. by split. Qed.

Lemma isr_next_refines st h s p :
  history_wf h → (s ≤ u64_max)%N → isr_refines st h →
  isr_refines (isr_next st s p) (observe h s p).
Proof.
  intros Hwf Hs [Hst Hf Hc Hp]. unfold isr_next, observe. rewrite Hst.
  destruct (N.eqb_spec s (current_step h)) as [->|Hne].
  - rewrite N.ltb_irrefl. split; cbn; unfold prior_step_inputs;
      rewrite !current_step_snoc, ?at_step_snoc, ?N.eqb_refl; try done.
    + by rewrite head_app_first, Hf.
    + by apply greatest_snoc.
    + unfold prior_step_inputs in Hp. destruct (N.eqb_spec (current_step h) 0); [done|].
      destruct (N.eqb_spec (current_step h) (current_step h - 1)); [lia|].
      by rewrite app_nil_r.
  - destruct (N.ltb_spec (current_step h) s) as [Hlt|Hge].
    + destruct (N.ltb_spec s (current_step h)); [lia|].
      split; cbn; unfold prior_step_inputs;
        rewrite !current_step_snoc, ?at_step_snoc, ?N.eqb_refl; try done.
      * by rewrite at_step_above.
      * rewrite at_step_above by done. cbn. split; [by left|].
        intros x Hx%list_elem_of_singleton. subst. apply ole_refl.
      * destruct (N.eqb_spec s 0); [lia|].
        destruct (N.eqb_spec s (s - 1)); [lia|]. rewrite app_nil_r.
        unfold saturating_add. rewrite N.min_l by lia.
        destruct (N.eqb_spec s (current_step h + 1)) as [->|].
        -- by replace (current_step h + 1 - 1)%N with (current_step h) by lia.
        -- cbn. apply at_step_above; [done|lia].
    + destruct (N.ltb_spec s (current_step h)); [|lia]. by split.
Qed.

(** The register after a sequence of record calls, and the history it saw. *)
Definition isr_run (inputs : list input) : IsrState :=
  fold_left (λ st x, isr_next st x.1 x.2) inputs isr_default.
Definition isr_history (inputs : list input) : list input :=
  fold_left (λ h x, observe h x.1 x.2) inputs [].

Lemma isr_run_refines_from st h inputs :
  history_wf h → isr_refines st h → Forall (λ x, x.1 ≤ u64_max)%N inputs →
  isr_refines (fold_left (λ st x, isr_next st x.1 x.2) inputs st)
              (fold_left (λ h x, observe h x.1 x.2) inputs h)
  ∧ history_wf (fold_left (λ h x, observe h x.1 x.2) inputs h).
Proof.
  intros Hwf Hr Hin. revert st h Hwf Hr.
  induction Hin as [|x inputs Hx _ IH]; intros st h Hwf Hr; cbn; [done|].
  apply IH; [by apply history_wf_observe|by apply isr_next_refines].
Qed.

(** C14. The interval summary register refines the register that remembers every
    input: after any sequence of record calls its step is the last step of the
    non-stale history, [first_current] the first proposal recorded at that step,
    [aggregate_current] a greatest one at that step, and [aggregate_prior] a
    greatest one of those recorded at exactly the step before. *)
Theorem isr_refines_history (inputs : list input) :
  Forall (λ x, x.1 ≤ u64_max)%N inputs →
  isr_refines (isr_run inputs) (isr_history inputs).
Proof.
  intros Hin. apply isr_run_refines_from; [by intros x Hx%elem_of_nil| |done].
  apply isr_refines_default.
Qed.

(** ** What callers rely on *)

Lemma isr_record_step_mono st s p : (isr_step st ≤ isr_step (isr_next st s p))%N.
Proof.
  unfold isr_next. destruct (N.eqb_spec s (isr_step st)); [done|].
  destruct (N.ltb_spec (isr_step st) s); cbn; lia.
Qed.

(** A record call leaves the register at the requested step or above it. *)
Lemma isr_record_reaches st s p : (s ≤ isr_step (isr_next st s p))%N.
Proof.
  unfold isr_next. destruct (N.eqb_spec s (isr_step st)); cbn; [lia|].
  destruct (N.ltb_spec (isr_step st) s); cbn; lia.
Qed.

(** Recording the same input again changes nothing (retries are harmless). *)
Lemma isr_next_idempotent st s p :
  isr_next (isr_next st s p) s p = isr_next st s p.
Proof.
  unfold isr_next at 2 3. destruct (N.eqb_spec s (isr_step st)) as [->|Hne].
  - unfold isr_next. cbn. rewrite N.eqb_refl. f_equal.
    + by destruct (isr_first_current st).
    + assert (ltb p p = false) as Hpp.
      { unfold ltb. pose proof (ole_refl p) as Ho. unfold ole in Ho.
        pose proof (pre_opp p p) as Hop. by destruct (cmp p p). }
      destruct (ltb (isr_aggregate_current st) (Some p)) eqn:E; [|by rewrite E].
      by rewrite ltb_Some, Hpp.
  - destruct (N.ltb_spec (isr_step st) s) as [Hlt|Hge].
    + unfold isr_next. cbn. rewrite N.eqb_refl. f_equal.
      assert (ltb p p = false) as Hpp.
      { unfold ltb. pose proof (pre_opp p p) as Hop. by destruct (cmp p p). }
      by rewrite ltb_Some, Hpp.
    + unfold isr_next. destruct (N.eqb_spec s (isr_step st)); [done|].
      destruct (N.ltb_spec (isr_step st) s); [lia|done].
Qed.
