(* ===== verification/DecisionProof.v ===== *)
(** * DecisionProof: requests, summaries, decision proofs and certificates

    Models the message and evidence types of [crates/rhiza-quepaxa/src/lib.rs]
    and the checks on them: [DecisionProof::validate_for] and its cluster form,
    the legacy [DecisionCertificate] and the text form of its proposer, the
    read-fence observation check, and [RecorderSlotState], the durable state of
    one slot at one recorder. *)

From S2P Require Import Prelude Bytes Text Core ConfigChange Proposal Isr.
From Stdlib Require Strings.Byte.

(** ** Evidence *)

Record AcceptedSummary : Type := mkAcceptedSummary { as_ballot : Ballot; as_value : AcceptedValue }.
#[export] Instance AcceptedSummary_eq_dec : EqDecision AcceptedSummary.
Proof. solve_decision. Defined.

Record DecisionCertificate : Type := mkCertificate {
  dc_slot : N; dc_epoch : N; dc_config_id : N; dc_config_digest : LogHash;
  dc_ballot : Ballot; dc_value : AcceptedValue; dc_recorder_ids : list NodeId
}.
#[export] Instance DecisionCertificate_eq_dec : EqDecision DecisionCertificate.
Proof. solve_decision. Defined.

Record RecorderSummary : Type := mkRecorderSummary {
  rs_recorder_id : NodeId; rs_slot : N; rs_step : N;
  rs_first_current : option Proposal; rs_aggregate_prior : option Proposal
}.
#[export] Instance RecorderSummary_eq_dec : EqDecision RecorderSummary.
Proof. solve_decision. Defined.

Inductive DecisionProof : Type :=
| FastPath (cluster_id : bytes) (slot epoch config_id : N) (config_digest : LogHash)
    (proposal : Proposal) (summaries : list RecorderSummary)
| Phase2 (cluster_id : bytes) (slot epoch config_id : N) (config_digest : LogHash)
    (step : N) (proposal : Proposal) (summaries : list RecorderSummary).
#[export] Instance DecisionProof_eq_dec : EqDecision DecisionProof.
Proof. solve_decision. Defined.

Definition proof_proposal (d : DecisionProof) : Proposal :=
  match d with FastPath _ _ _ _ _ p _ | Phase2 _ _ _ _ _ _ p _ => p end.
Definition proof_summaries (d : DecisionProof) : list RecorderSummary :=
  match d with FastPath _ _ _ _ _ _ s | Phase2 _ _ _ _ _ _ _ s => s end.
Definition proof_context (d : DecisionProof) : N * N * N * LogHash :=
  match d with
  | FastPath _ slot epoch config_id config_digest _ _
  | Phase2 _ slot epoch config_id config_digest _ _ _ => (slot, epoch, config_id, config_digest)
  end.
Definition proof_cluster_id (d : DecisionProof) : bytes :=
  match d with FastPath c _ _ _ _ _ _ | Phase2 c _ _ _ _ _ _ _ => c end.

(** The step a proof speaks about, and whether it is a fast-path proof. *)
Definition proof_step (d : DecisionProof) : N :=
  match d with FastPath _ _ _ _ _ _ _ => 4%N | Phase2 _ _ _ _ _ step _ _ => step end.
Definition proof_fast (d : DecisionProof) : bool :=
  match d with FastPath _ _ _ _ _ _ _ => true | Phase2 _ _ _ _ _ _ _ _ => false end.

Definition option_holds {A} (o : option A) (f : A → bool) : bool :=
  match o with Some a => f a | None => false end.

Definition validate_for (self : DecisionProof) (slot epoch config_id : N)
    (membership : Membership) : result RejectReason () :=
  let '(proof_slot, proof_epoch, proof_config, digest) := proof_context self in
  let step := proof_step self in
  let proposal := proof_proposal self in
  let summaries := proof_summaries self in
  _ ← reject_if (neqb proof_slot slot || neqb proof_epoch epoch) MalformedDecision;
  _ ← reject_if (neqb proof_config config_id || neqb digest (m_digest membership)) WrongConfig;
  _ ← reject_if (is_nil proposal || eqb (p_value proposal) None) InvalidCertificate;
  _ ← reject_if
        (negb (length summaries =? m_quorum_size membership)
         || negb (strictly_ascending rs_recorder_id summaries)
         || existsb (λ s, negb (m_contains membership (rs_recorder_id s))
                          || neqb (rs_slot s) slot || neqb (rs_step s) step) summaries)
        InvalidCertificate;
  if proof_fast self then
    reject_if
      (neqb step 4%N || neqb (p_priority proposal) PRIORITY_MAX
       || existsb (λ s, negb (option_holds (rs_first_current s)
                                (λ candidate, proposal_exact candidate proposal))) summaries)
      InvalidCertificate
  else
    _ ← reject_if (neqb (step mod 4)%N 2%N) InvalidCertificate;
    let maximum := iter_max (omap rs_aggregate_prior summaries) in
    reject_if
      (neqb maximum (Some proposal)
       || negb (option_holds maximum (λ candidate, proposal_exact candidate proposal)))
      InvalidCertificate.

Definition validate_for_cluster (self : DecisionProof) (cluster_id : bytes)
    (slot epoch config_id : N) (membership : Membership) : result RejectReason () :=
  _ ← reject_if (neqb (proof_cluster_id self) cluster_id) WrongCluster;
  validate_for self slot epoch config_id membership.

(** *** Certificates *)

Definition CERTIFICATE_PROPOSER_PREFIX : bytes := lit "QDC1:".

Definition encode_certificate_proposer (cluster_id proposer_id : bytes) : bytes :=
  CERTIFICATE_PROPOSER_PREFIX ++ decimal (blen cluster_id) ++ [Byte.x3a] ++ cluster_id ++ proposer_id.

Definition decode_certificate_proposer (encoded : bytes) : option (bytes * bytes) :=
  rest ← strip_prefix CERTIFICATE_PROPOSER_PREFIX encoded;
  '(len, joined) ← split_once Byte.x3a rest;
  n ← parse_usize len;
  x ← str_prefix joined n;
  y ← str_suffix joined n;
  Some (x, y).

Definition certificate_cluster_id (c : DecisionCertificate) : option bytes :=
  fst <$> decode_certificate_proposer (b_proposer_id (dc_ballot c)).

Definition certificate_validate (c : DecisionCertificate) (membership : Membership) :
    result RejectReason () :=
  _ ← reject_if (neqb (dc_config_digest c) (m_digest membership)) WrongConfig;
  reject_if
    (negb (length (dc_recorder_ids c) =? m_quorum_size membership)
     || negb (strictly_ascending id (dc_recorder_ids c))
     || existsb (λ r, negb (m_contains membership r)) (dc_recorder_ids c))
    InvalidCertificate.

Definition certificate_validate_for (c : DecisionCertificate) (config_id : N)
    (membership : Membership) : result RejectReason () :=
  _ ← reject_if (neqb (dc_config_id c) config_id) WrongConfig;
  certificate_validate c membership.

Definition certificate_validate_for_cluster (c : DecisionCertificate) (cluster_id : bytes)
    (config_id : N) (membership : Membership) : result RejectReason () :=
  _ ← reject_if (neqb (certificate_cluster_id c) (Some cluster_id)) WrongCluster;
  certificate_validate_for c config_id membership.

Definition certificate_validate_context (c : DecisionCertificate) (slot epoch config_id : N)
    (config_digest : LogHash) : result RejectReason () :=
  _ ← reject_if (neqb (dc_slot c) slot || neqb (dc_epoch c) epoch) MalformedDecision;
  reject_if (neqb (dc_config_id c) config_id || neqb (dc_config_digest c) config_digest) WrongConfig.

Definition certificate_from_proof (d : DecisionProof) : result Error DecisionCertificate :=
  let '(slot, epoch, config_id, config_digest) := proof_context d in
  let proposal := proof_proposal d in
  value ← ok_or (p_value proposal) (Rejected InvalidCertificate);
  Ok (mkCertificate slot epoch config_id config_digest
    (mkBallot (p_proposal_id proposal) (legacy_u128 (p_priority proposal))
       (encode_certificate_proposer (proof_cluster_id d) (p_proposer_id proposal)))
    value (rs_recorder_id <$> proof_summaries d)).

Definition proposal_ballot (p : Proposal) : option Ballot :=
  match p_value p with
  | None => None
  | Some _ => Some (mkBallot (p_proposal_id p) (legacy_u128 (p_priority p)) (p_proposer_id p))
  end.

(** ** Messages *)

Record RecordRequest : Type := mkRecordRequest {
  rq_cluster_id : bytes; rq_epoch : N; rq_config_id : N; rq_config_digest : LogHash;
  rq_slot : N; rq_step : N; rq_proposal : Proposal; rq_command : option StoredCommand
}.
#[export] Instance RecordRequest_eq_dec : EqDecision RecordRequest.
Proof. solve_decision. Defined.

Record RecordSummary : Type := mkRecordSummary {
  sm_recorder_id : NodeId; sm_slot : N; sm_config_id : N; sm_config_digest : LogHash;
  sm_step : N; sm_first_current : option Proposal; sm_aggregate_prior : option Proposal;
  sm_decided : option DecisionProof
}.
#[export] Instance RecordSummary_eq_dec : EqDecision RecordSummary.
Proof. solve_decision. Defined.

Record ReadFenceRequest : Type := mkReadFenceRequest {
  rf_cluster_id : bytes; rf_epoch : N; rf_config_id : N; rf_config_digest : LogHash; rf_slot : N
}.
Inductive ReadFenceSlotState : Type :=
| FenceEmpty
| FenceOccupied (summary : option RecordSummary).
Record ReadFenceObservation : Type := mkReadFenceObservation {
  ro_recorder_id : NodeId; ro_cluster_id : bytes; ro_epoch : N; ro_config_id : N;
  ro_config_digest : LogHash; ro_slot : N; ro_max_head : option N;
  ro_slot_state : ReadFenceSlotState
}.

Definition valid_read_fence_observation (o : ReadFenceObservation) (expected_recorder_id : NodeId)
    (request : ReadFenceRequest) : bool :=
  if neqb (ro_recorder_id o) expected_recorder_id
     || neqb (ro_cluster_id o) (rf_cluster_id request)
     || neqb (ro_epoch o) (rf_epoch request)
     || neqb (ro_config_id o) (rf_config_id request)
     || neqb (ro_config_digest o) (rf_config_digest request)
     || neqb (ro_slot o) (rf_slot request)
  then false
  else
    match ro_slot_state o with
    | FenceEmpty =>
        match ro_max_head o with None => true | Some h => (h <? rf_slot request)%N end
    | FenceOccupied summary =>
        option_holds (ro_max_head o) (λ h, rf_slot request <=? h)%N
        && match summary with
           | None => true
           | Some s => eqb (sm_recorder_id s) (ro_recorder_id o)
                       && eqb (sm_slot s) (rf_slot request)
                       && eqb (sm_config_id s) (rf_config_id request)
                       && eqb (sm_config_digest s) (rf_config_digest request)
           end
    end.

Inductive RecorderRequest : Type :=
| ReqIdentity
| ReqStoreCommand (cluster_id : bytes) (epoch config_id : N) (config_digest command_hash : LogHash)
    (command : StoredCommand)
| ReqFetchCommand (cluster_id : bytes) (epoch config_id : N) (config_digest command_hash : LogHash)
| ReqInspect (cluster_id : bytes) (epoch config_id : N) (config_digest : LogHash) (slot : N)
| ReqObserve (cluster_id : bytes) (epoch config_id : N) (config_digest : LogHash) (slot : N)
    (ballot : Ballot)
| ReqConverge (cluster_id : bytes) (epoch config_id : N) (config_digest : LogHash) (slot : N)
    (ballot : Ballot) (value : AcceptedValue)
| ReqDecide (cluster_id : bytes) (epoch config_id : N) (config_digest : LogHash) (slot : N)
    (decision : DecisionCertificate).

Definition request_slot (r : RecorderRequest) : option N :=
  match r with
  | ReqInspect _ _ _ _ slot | ReqObserve _ _ _ _ slot _ | ReqConverge _ _ _ _ slot _ _
  | ReqDecide _ _ _ _ slot _ => Some slot
  | ReqIdentity | ReqStoreCommand _ _ _ _ _ _ | ReqFetchCommand _ _ _ _ _ => None
  end.
Definition request_context (r : RecorderRequest) : option (bytes * N * N * LogHash) :=
  match r with
  | ReqStoreCommand c e i d _ _ | ReqFetchCommand c e i d _ | ReqInspect c e i d _
  | ReqObserve c e i d _ _ | ReqConverge c e i d _ _ _ | ReqDecide c e i d _ _ => Some (c, e, i, d)
  | ReqIdentity => None
  end.

Record RecorderReply : Type := mkRecorderReply {
  rr_recorder_id : NodeId; rr_slot : N; rr_config_id : N; rr_config_digest : LogHash;
  rr_step : N; rr_highest_promised : option Ballot; rr_accepted : option AcceptedSummary;
  rr_decided : option DecisionCertificate; rr_command : option StoredCommand
}.

(** ** The state of a slot at a recorder *)

Record RecorderSlotState : Type := mkSlotState {
  ss_slot : N; ss_cluster_id : bytes; ss_epoch : N; ss_config_id : N; ss_config_digest : LogHash;
  ss_highest_promised : option Ballot; ss_accepted : option AcceptedSummary;
  ss_decided : option DecisionCertificate; ss_isr : IsrState; ss_decided_proof : option DecisionProof
}.
#[export] Instance RecorderSlotState_eq_dec : EqDecision RecorderSlotState.
Proof. solve_decision. Defined.

Definition slot_new_with_digest (slot : N) (cluster_id : bytes) (epoch config_id : N)
    (config_digest : LogHash) : RecorderSlotState :=
  mkSlotState slot cluster_id epoch config_id config_digest None None None isr_default None.
Definition slot_new (slot : N) (cluster_id : bytes) (epoch config_id : N) : RecorderSlotState :=
  slot_new_with_digest slot cluster_id epoch config_id LogHash_ZERO.

Definition slot_validate (self : RecorderSlotState) (cluster_id : bytes) (epoch config_id : N)
    (config_digest : LogHash) (slot : N) : result RejectReason () :=
  _ ← reject_if (neqb cluster_id (ss_cluster_id self)) WrongCluster;
  _ ← reject_if (neqb slot (ss_slot self)) WrongSlot;
  _ ← reject_if (epoch <? ss_epoch self)%N StaleEpoch;
  _ ← reject_if (ss_epoch self <? epoch)%N FutureEpoch;
  _ ← reject_if (neqb config_id (ss_config_id self)) WrongConfig;
  reject_if (neqb config_digest (ss_config_digest self)) WrongConfig.

Definition set_isr (self : RecorderSlotState) (isr : IsrState) : RecorderSlotState :=
  mkSlotState (ss_slot self) (ss_cluster_id self) (ss_epoch self) (ss_config_id self)
    (ss_config_digest self) (ss_highest_promised self) (ss_accepted self) (ss_decided self)
    isr (ss_decided_proof self).
Definition set_decided_proof (self : RecorderSlotState) (proof : option DecisionProof) :
    RecorderSlotState :=
  mkSlotState (ss_slot self) (ss_cluster_id self) (ss_epoch self) (ss_config_id self)
    (ss_config_digest self) (ss_highest_promised self) (ss_accepted self) (ss_decided self)
    (ss_isr self) proof.

Definition slot_record (self : RecorderSlotState) (request : RecordRequest) :
    result RejectReason (RecorderSlotState * IsrReply) :=
  _ ← slot_validate self (rq_cluster_id request) (rq_epoch request) (rq_config_id request)
        (rq_config_digest request) (rq_slot request);
  let '(isr, reply) := isr_record (ss_isr self) (rq_step request) (rq_proposal request) in
  Ok (set_isr self isr, reply).

Definition slot_install_proof (self : RecorderSlotState) (proof : DecisionProof) :
    result RejectReason RecorderSlotState :=
  match ss_decided_proof self with
  | Some existing =>
      if neqb (p_value (proof_proposal existing)) (p_value (proof_proposal proof))
      then Err AlreadyDecided else Ok self
  | None => Ok (set_decided_proof self (Some proof))
  end.

Definition max_step_seen (self : RecorderSlotState) : N :=
  match ss_highest_promised self with Some b => b_round b | None => 0%N end.

Definition slot_reply (self : RecorderSlotState) : RecorderReply :=
  mkRecorderReply [] (ss_slot self) (ss_config_id self) (ss_config_digest self)
    (max_step_seen self) (ss_highest_promised self) (ss_accepted self) (ss_decided self) None.

Definition slot_inspect (self : RecorderSlotState) (cluster_id : bytes) (epoch config_id : N)
    (config_digest : LogHash) (slot : N) : result RejectReason RecorderReply :=
  _ ← slot_validate self cluster_id epoch config_id config_digest slot;
  Ok (slot_reply self).

Definition slot_apply (self : RecorderSlotState) (request : RecorderRequest) :
    result RejectReason RecorderReply :=
  match request with
  | ReqInspect c e i d slot => slot_inspect self c e i d slot
  | _ => Err InvalidRequest
  end.

Definition record_summary (recorder_id : NodeId) (state : RecorderSlotState)
    (decided : option DecisionProof) : RecordSummary :=
  mkRecordSummary recorder_id (ss_slot state) (ss_config_id state) (ss_config_digest state)
    (isr_step (ss_isr state)) (isr_first_current (ss_isr state))
    (isr_aggregate_prior (ss_isr state)) decided.

(** The part of [RecorderFileStore::record_proposal] that concerns the slot: a
    decided slot answers with its proof, any other records the proposal.  The
    legacy ballot fields follow the register. *)
Definition set_legacy (self : RecorderSlotState) : RecorderSlotState :=
  mkSlotState (ss_slot self) (ss_cluster_id self) (ss_epoch self) (ss_config_id self)
    (ss_config_digest self) (isr_first_current (ss_isr self) ≫= proposal_ballot) None
    (ss_decided self) (ss_isr self) (ss_decided_proof self).

Definition slot_record_proposal (recorder_id : NodeId) (state : RecorderSlotState)
    (request : RecordRequest) : result RejectReason (RecorderSlotState * RecordSummary) :=
  match ss_decided_proof state with
  | Some proof => Ok (state, record_summary recorder_id state (Some proof))
  | None =>
      '(next, _) ← slot_record state request;
      let next := set_legacy next in
      Ok (next, record_summary recorder_id next None)
  end.

(** ** What a valid proof says *)

(** A quorum of distinct members of [m], each with a summary of the slot at the step. *)
Record summaries_quorum (m : Membership) (slot step : N) (l : list RecorderSummary) : Prop := {
  sq_length : length l = m_quorum_size m;
  sq_distinct : NoDup (rs_recorder_id <$> l);
  sq_members : (rs_recorder_id <$> l) ⊆ m_members m;
  sq_context : ∀ s, s ∈ l → rs_slot s = slot ∧ rs_step s = step
}.

Lemma existsb_false {A} (f : A → bool) (l : list A) :
  existsb f l = false ↔ ∀ x, x ∈ l → f x = false.
Proof.
  induction l as [|y l IH]; cbn.
  - split; [intros _ x Hx; by apply elem_of_nil in Hx|done].
  - rewrite orb_false_iff, IH. setoid_rewrite elem_of_cons. naive_solver.
Qed.

Lemma validate_for_quorum d slot epoch config_id m u :
  validate_for d slot epoch config_id m = Ok u →
  summaries_quorum m slot (proof_step d) (proof_summaries d)
  ∧ is_nil (proof_proposal d) = false
  ∧ proof_context d = (slot, epoch, config_id, m_digest m).
Proof.
  unfold validate_for. destruct (proof_context d) as [[[ps pe] pc] pd] eqn:Hctx.
  intros Hv. res_inv. bool_prop. destruct Hok as [-> ->], Hok0 as [-> ->], Hok1 as [Hn _].
  destruct Hok2 as [[Hl Hs] Hx]. split_and!; [|done|done].
  apply strictly_ascending_spec, ascending_NoDup in Hs.
  rewrite existsb_false in Hx. split; try done.
  - intros r (s & -> & Hin)%list_elem_of_fmap. apply Hx in Hin. bool_prop.
    destruct Hin as [[Hm _] _]. by apply m_contains_true.
  - intros s Hin. apply Hx in Hin. bool_prop. naive_solver.
Qed.

(** C26. What an accepted decision proof shows: exactly a quorum of distinct
    members reported the slot at the proof's step, and either the proof is on the
    fast path, where each of them has the maximal-priority proposal as the first
    one it recorded at step 4, or it is a phase-2 proof at a step congruent to 2
    modulo 4, where the proposal is a greatest one among the aggregates they
    carry over from the step before. *)
Theorem validate_for_evidence d slot epoch config_id m :
  validate_for d slot epoch config_id m = Ok () →
  summaries_quorum m slot (proof_step d) (proof_summaries d)
  ∧ is_nil (proof_proposal d) = false
  ∧ proof_context d = (slot, epoch, config_id, m_digest m)
  ∧ (if proof_fast d then
       p_priority (proof_proposal d) = PRIORITY_MAX
       ∧ ∀ s, s ∈ proof_summaries d → rs_first_current s = Some (proof_proposal d)
     else
       (proof_step d mod 4 = 2)%N
       ∧ proof_proposal d ∈ omap rs_aggregate_prior (proof_summaries d)
       ∧ ∀ s p, s ∈ proof_summaries d → rs_aggregate_prior s = Some p → ole p (proof_proposal d)).
Proof.
  intros Hv. pose proof (validate_for_quorum _ _ _ _ _ _ Hv) as (Hq & Hn & Hc).
  split_and!; try done. unfold validate_for in Hv. rewrite Hc in Hv. res_inv.
  destruct (proof_fast d) eqn:Hf; res_inv; bool_prop.
  - destruct Hv as [[_ Hp] Hx]. split; [done|]. intros s Hs. rewrite existsb_false in Hx.
    apply Hx in Hs. apply negb_false_iff in Hs. unfold option_holds in Hs.
    destruct (rs_first_current s); [|done]. by apply proposal_exact_true in Hs as ->.
  - destruct Hv as [Hm _]. split; [done|]. apply iter_max_Some in Hm as [Hin Hle].
    split; [done|]. intros s p Hs Hp. apply Hle, list_elem_of_omap. eauto.
Qed.

(** The legacy certificate keeps the cluster and the proposer of its proof
    apart: the text form of the proposer decodes to exactly the pair it was made
    of, whatever characters the two identities contain. *)
Theorem certificate_proposer_roundtrip (cluster_id proposer_id : bytes) :
  is_str proposer_id = true → (blen cluster_id ≤ u64_max)%N →
  decode_certificate_proposer (encode_certificate_proposer cluster_id proposer_id)
  = Some (cluster_id, proposer_id).
Proof.
  intros Hp Hl. unfold decode_certificate_proposer, encode_certificate_proposer.
  rewrite strip_prefix_app. cbn [mbind option_bind].
  change ([Byte.x3a] ++ cluster_id ++ proposer_id) with (Byte.x3a :: cluster_id ++ proposer_id).
  rewrite split_once_digits by apply low_digits_digits. cbn [mbind option_bind].
  rewrite parse_usize_decimal by done. cbn [mbind option_bind].
  destruct (str_split_app cluster_id proposer_id Hp) as [-> ->]. done.
Qed.
