(* ===== verification/Consensus.v ===== *)
(** * Consensus: the proposer

    Models [ThreeNodeConsensus] of [crates/rhiza-quepaxa/src/lib.rs] as far as a
    proposal goes: [ProposerProgress], the broadcast of record requests and the
    collection of replies, the four-phase step [drive] with its decision rules,
    and the proposal loop [propose_stored_at_until].

    The worker threads and their channels are modelled by what the code reads
    from them: which workers were saturated and the sequence of results in the
    order of their arrival.  The proposer's calls to the outside (broadcast,
    command fetch, proof installation, priority sampling) are the fields of
    [Env]; [record_broadcast], [fetch_verified_value] and
    [install_decision_proof_quorum] compute those answers from arrivals. *)

From S2P Require Import Prelude Bytes Core ConfigChange Proposal Isr DecisionProof.
From Stdlib Require Strings.Byte.

(** The fields of [ThreeNodeConsensus] that the protocol reads. *)
Record ThreeNodeConsensus : Type := mkConsensus {
  c_cluster_id : bytes; c_proposer_id : NodeId; c_epoch : N; c_config_id : N;
  c_config_digest : LogHash; c_membership : Membership
}.

Record ProposerProgress : Type := mkProgress {
  pp_slot : N; pp_step : N; pp_proposal : Proposal;
  pp_phase_zero_priorities : gmap (N * NodeId) ProposalPriority;
  pp_command : option StoredCommand; pp_command_holders : gset NodeId;
  pp_transition_involved : bool
}.

Inductive DriveOutcome : Type :=
| Progress (next : ProposerProgress)
| Pending (next : ProposerProgress)
| Decision (proof : DecisionProof).

Definition progress_new (slot : N) (proposal : Proposal) : ProposerProgress :=
  mkProgress slot 4 proposal ∅ None ∅ false.
Definition with_command (p : ProposerProgress) (command : StoredCommand) : ProposerProgress :=
  mkProgress (pp_slot p) (pp_step p) (pp_proposal p) (pp_phase_zero_priorities p)
    (Some command) (pp_command_holders p) (eqb (sc_entry_type command) ConfigChangeEntry).

Definition set_priorities (p : ProposerProgress) (m : gmap (N * NodeId) ProposalPriority) :
    ProposerProgress :=
  mkProgress (pp_slot p) (pp_step p) (pp_proposal p) m (pp_command p) (pp_command_holders p)
    (pp_transition_involved p).
Definition set_holders (p : ProposerProgress) (h : gset NodeId) : ProposerProgress :=
  mkProgress (pp_slot p) (pp_step p) (pp_proposal p) (pp_phase_zero_priorities p) (pp_command p) h
    (pp_transition_involved p).
Definition set_step (p : ProposerProgress) (step : N) : ProposerProgress :=
  mkProgress (pp_slot p) step (pp_proposal p) (pp_phase_zero_priorities p) (pp_command p)
    (pp_command_holders p) (pp_transition_involved p).
Definition set_proposal (p : ProposerProgress) (proposal : Proposal) : ProposerProgress :=
  mkProgress (pp_slot p) (pp_step p) proposal (pp_phase_zero_priorities p) (pp_command p)
    (pp_command_holders p) (pp_transition_involved p).

(** The answers of the outside during one call of [drive]. *)
Record Env : Type := mkEnv {
  env_fetch : N → AcceptedValue → result Error (option StoredCommand);
  env_sample : N → N → NodeId → NodeId → result Error ProposalPriority;
  env_broadcast : list RecordRequest → result Error (list RecordSummary);
  env_install : DecisionProof → result Error ()
}.

(** ** Quorum collection *)

(** What [RecordWorker::spawn] does with the reply of its recorder. *)
Definition record_worker_reply (self : ThreeNodeConsensus) (expected_id : NodeId)
    (expected_slot : N) (reply : result Error RecordSummary) : result Error RecordSummary :=
  reply ← reply;
  if eqb (sm_recorder_id reply) expected_id && eqb (sm_slot reply) expected_slot
     && eqb (sm_config_id reply) (c_config_id self)
     && eqb (sm_config_digest reply) (c_config_digest self)
  then Ok reply else Err (Rejected InvalidRequest).

Fixpoint first_error (errors : list (option Error)) : option Error :=
  match errors with
  | [] => None
  | Some e :: _ => Some e
  | None :: errors => first_error errors
  end.

(** The verdict when no quorum can be reached any more. *)
Definition broadcast_verdict (typed_errors : list (option Error)) (worker_failed : bool)
    (replies : list RecordSummary) : result Error (list RecordSummary) :=
  match first_error typed_errors with
  | Some error => Err error
  | None => if worker_failed then Err ProposeFailed else Ok replies
  end.

Fixpoint broadcast_loop (quorum : nat) (saturated_workers : list bool)
    (saturated accepted accepted_completed : nat) (typed_errors : list (option Error))
    (worker_failed : bool) (replies : list RecordSummary)
    (arrivals : list (nat * result Error RecordSummary)) : result Error (list RecordSummary) :=
  match arrivals with
  | [] =>
      if quorum <=? length replies + saturated then Ok replies
      else broadcast_verdict typed_errors worker_failed replies
  | (index, res) :: arrivals =>
      let accepted_completed :=
        if default false (saturated_workers !! index) then accepted_completed
        else S accepted_completed in
      let continue_with typed_errors worker_failed replies :=
        let accepted_remaining := accepted - accepted_completed in
        if length replies + saturated + accepted_remaining <? quorum
        then broadcast_verdict typed_errors worker_failed replies
        else broadcast_loop quorum saturated_workers saturated accepted accepted_completed
               typed_errors worker_failed replies arrivals in
      match res with
      | Ok reply =>
          let replies :=
            if existsb (λ seen, eqb (sm_recorder_id seen) (sm_recorder_id reply)) replies
            then replies else replies ++ [reply] in
          if quorum <=? length replies then Ok replies
          else continue_with typed_errors worker_failed replies
      | Err (Rejected _ as error) | Err (TypedRecordRequired as error) =>
          continue_with (<[index := Some error]> typed_errors) worker_failed replies
      | Err ProposeFailed => continue_with typed_errors true replies
      | Err _ => continue_with typed_errors worker_failed replies
      end
  end.

Definition record_broadcast (self : ThreeNodeConsensus) (saturated_workers : list bool)
    (arrivals : list (nat * result Error RecordSummary)) : result Error (list RecordSummary) :=
  let quorum := m_quorum_size (c_membership self) in
  let total := length saturated_workers in
  let saturated := length (filter (λ s, s = true) saturated_workers) in
  let accepted := total - saturated in
  broadcast_loop quorum saturated_workers saturated accepted 0 (replicate total None) false []
    arrivals.

Definition control_quorum_reachable (successful saturated quorum : nat) : bool :=
  quorum <=? successful + saturated.

(** Counting acknowledgements ([install_decision_proof_quorum] and
    [store_command_on_quorum]): the results that were read before the quorum. *)
Fixpoint count_acks (quorum acks : nat) (worker_failed : bool) (arrivals : list (result Error ())) :
    nat * bool :=
  match arrivals with
  | [] => (acks, worker_failed)
  | res :: arrivals =>
      let acks := match res with Ok _ => S acks | Err _ => acks end in
      let worker_failed :=
        match res with Err ProposeFailed => true | _ => worker_failed end in
      if quorum <=? acks then (acks, worker_failed)
      else count_acks quorum acks worker_failed arrivals
  end.

Definition ack_quorum (quorum saturated : nat) (arrivals : list (result Error ())) :
    result Error () :=
  let '(acks, worker_failed) := count_acks quorum 0 false arrivals in
  if acks <? quorum
  then Err (if worker_failed && negb (control_quorum_reachable acks saturated quorum)
            then ProposeFailed else NoQuorum)
  else Ok ().

Definition install_decision_proof_quorum (self : ThreeNodeConsensus) (saturated : nat)
    (arrivals : list (result Error ())) : result Error () :=
  ack_quorum (m_quorum_size (c_membership self)) saturated arrivals.
Definition store_command_on_quorum (self : ThreeNodeConsensus) (saturated : nat)
    (arrivals : list (result Error ())) : result Error () :=
  ack_quorum (quorum_size (length (m_members (c_membership self)))) saturated arrivals.

Section proposer.
Context `{Sha256}.
Implicit Types self : ThreeNodeConsensus.

Definition command_matches_value self (slot : N) (value : AcceptedValue) (command : StoredCommand) :
    bool :=
  eqb (from_command (c_cluster_id self) slot (c_epoch self) (c_config_id self)
         (av_prev_hash value) command) value.

(** *** Fetching the command of a value *)

Fixpoint fetch_loop self (slot : N) (value : AcceptedValue) (mismatch : bool) (successful : nat)
    (worker_failed : bool) (arrivals : list (result Error (option StoredCommand))) :
    option StoredCommand * bool * nat * bool :=
  match arrivals with
  | [] => (None, mismatch, successful, worker_failed)
  | Ok None :: arrivals => fetch_loop self slot value mismatch (S successful) worker_failed arrivals
  | Ok (Some command) :: arrivals =>
      if neqb (command_hash command) (av_command_hash value)
      then fetch_loop self slot value mismatch (S successful) worker_failed arrivals
      else if command_matches_value self slot value command
      then (Some command, mismatch, S successful, worker_failed)
      else fetch_loop self slot value true (S successful) worker_failed arrivals
  | Err ProposeFailed :: arrivals => fetch_loop self slot value mismatch successful true arrivals
  | Err _ :: arrivals => fetch_loop self slot value mismatch successful worker_failed arrivals
  end.

Definition fetch_verified_value self (saturated : nat)
    (arrivals : list (result Error (option StoredCommand))) (slot : N) (value : AcceptedValue) :
    result Error (option StoredCommand) :=
  let quorum := quorum_size (length (m_members (c_membership self))) in
  let '(found, mismatch, successful, worker_failed) :=
    fetch_loop self slot value false 0 false arrivals in
  match found with
  | Some command => Ok (Some command)
  | None =>
      if mismatch then Err (Rejected InvalidValue)
      else if (successful <? quorum) && (0 <? saturated) then Err NoQuorum
      else if worker_failed && negb (control_quorum_reachable successful saturated quorum)
      then Err ProposeFailed
      else Ok None
  end.

Definition ensure_progress_command self (env : Env) (progress : ProposerProgress) :
    result Error ProposerProgress :=
  value ← ok_or (p_value (pp_proposal progress)) (Rejected InvalidRequest);
  if option_holds (pp_command progress) (command_matches_value self (pp_slot progress) value)
  then Ok progress
  else
    command ← env_fetch env (pp_slot progress) value;
    match command with
    | Some command =>
        Ok (mkProgress (pp_slot progress) (pp_step progress) (pp_proposal progress)
              (pp_phase_zero_priorities progress) (Some command) ∅
              (pp_transition_involved progress || eqb (sc_entry_type command) ConfigChangeEntry))
    | None => Err CommandUnavailable
    end.

(** *** One step: requests *)

Definition is_leader self : bool := eqb (head (m_members (c_membership self))) (Some (c_proposer_id self)).

Definition set_priority (p : Proposal) (priority : ProposalPriority) : Proposal :=
  mkProposal priority (p_proposer_id p) (p_proposal_id p) (p_value p).

(** The priority of the request to one recorder in phase 0, with the cache. *)
Definition phase_zero_priority self (env : Env) (progress : ProposerProgress)
    (cache : gmap (N * NodeId) ProposalPriority) (recorder_id : NodeId) :
    result Error (ProposalPriority * gmap (N * NodeId) ProposalPriority) :=
  let round := (pp_step progress / 4)%N in
  if (pp_step progress =? 4)%N && is_leader self then Ok (PRIORITY_MAX, cache)
  else
    match cache !! (round, recorder_id) with
    | Some priority => Ok (priority, cache)
    | None =>
        priority ← env_sample env (pp_slot progress) round (c_proposer_id self) recorder_id;
        Ok (priority, <[(round, recorder_id) := priority]> cache)
    end.

Fixpoint build_requests self (env : Env) (progress : ProposerProgress) (targets : gset NodeId)
    (cache : gmap (N * NodeId) ProposalPriority) (recorders : list NodeId) :
    result Error (list RecordRequest * gmap (N * NodeId) ProposalPriority) :=
  match recorders with
  | [] => Ok ([], cache)
  | recorder_id :: recorders =>
      '(proposal, cache) ←
        (if (pp_step progress mod 4 =? 0)%N then
           '(priority, cache) ← phase_zero_priority self env progress cache recorder_id;
           Ok (set_priority (pp_proposal progress) priority, cache)
         else Ok (pp_proposal progress, cache));
      let request :=
        mkRecordRequest (c_cluster_id self) (c_epoch self) (c_config_id self) (c_config_digest self)
          (pp_slot progress) (pp_step progress) proposal
          (if bool_decide (recorder_id ∈ targets) then pp_command progress else None) in
      '(requests, cache) ← build_requests self env progress targets cache recorders;
      Ok (request :: requests, cache)
  end.

Definition command_targets self (progress : ProposerProgress) : gset NodeId :=
  list_to_set (m_members (c_membership self)) ∖ pp_command_holders progress.

(** [drive] up to the broadcast. *)
Definition drive_prepare self (env : Env) (progress : ProposerProgress) :
    result Error (ProposerProgress * list RecordRequest) :=
  progress ← ensure_progress_command self env progress;
  let round := (pp_step progress / 4)%N in
  let progress :=
    set_priorities progress
      (if (pp_step progress mod 4 =? 0)%N
       then filter (λ kv, kv.1.1 = round) (pp_phase_zero_priorities progress) else ∅) in
  '(requests, cache) ← build_requests self env progress (command_targets self progress)
    (pp_phase_zero_priorities progress) (m_members (c_membership self));
  Ok (set_priorities progress cache, requests).

(** *** One step: decision rules on the replies *)

Definition finish_decision self (env : Env) (proof : DecisionProof)
    (known_command : option StoredCommand) (transition_involved : bool) : result Error DriveOutcome :=
  let slot := (proof_context proof).1.1.1 in
  _ ← map_err Rejected (validate_for_cluster proof (c_cluster_id self) slot
        (c_epoch self) (c_config_id self) (c_membership self));
  value ← ok_or (p_value (proof_proposal proof)) (Rejected InvalidCertificate);
  command ←
    match known_command with
    | Some command =>
        if command_matches_value self slot value command then Ok command
        else found ← env_fetch env slot value; ok_or found CommandUnavailable
    | None => found ← env_fetch env slot value; ok_or found CommandUnavailable
    end;
  if neqb (sc_entry_type command) ConfigChangeEntry && negb transition_involved
  then Ok (Decision proof)
  else _ ← env_install env proof; Ok (Decision proof).

Definition recorder_summary (reply : RecordSummary) : RecorderSummary :=
  mkRecorderSummary (sm_recorder_id reply) (sm_slot reply) (sm_step reply)
    (sm_first_current reply) (sm_aggregate_prior reply).

(** The first reply that carries a decision proof. *)
Fixpoint first_decided (replies : list RecordSummary) : option DecisionProof :=
  match replies with
  | [] => None
  | r :: replies => match sm_decided r with Some d => Some d | None => first_decided replies end
  end.

(** The fast-path candidate of a quorum of summaries at step 4. *)
Definition fast_candidate (step : N) (summaries : list RecorderSummary) : option Proposal :=
  s ← head summaries;
  p ← rs_first_current s;
  if eqb (p_priority p) PRIORITY_MAX && (step =? 4)%N
     && forallb (λ s, option_holds (rs_first_current s) (λ c, proposal_exact c p)) summaries
  then Some p else None.

(** The quorum that a step is decided on: the replies at the proposer's step,
    one per recorder, the first [quorum] in the order of the recorder ids. *)
Definition step_replies (progress : ProposerProgress) (replies : list RecordSummary) :
    list RecordSummary :=
  dedup_by sm_recorder_id
    (sort_by sm_recorder_id (filter (λ r, sm_step r = pp_step progress) replies)).

Definition catch_up self (env : Env) (progress : ProposerProgress) (highest : N)
    (replies : list RecordSummary) : result Error DriveOutcome :=
  match iter_min_by sm_recorder_id (filter (λ r, sm_step r = highest) replies) with
  | None => Err ProposeFailed (* [expect]: a reply at the highest step exists *)
  | Some caught_up =>
      let progress := set_step progress highest in
      let progress :=
        match sm_first_current caught_up with
        | Some proposal => set_proposal progress proposal
        | None => progress
        end in
      progress ← ensure_progress_command self env progress;
      Ok (Progress (set_priorities progress ∅))
  end.

Definition advance self (env : Env) (progress : ProposerProgress) : result Error DriveOutcome :=
  progress ← ensure_progress_command self env progress;
  step ← ok_or (checked_add (pp_step progress) 1) ProposeFailed;
  Ok (Progress (set_priorities (set_step progress step) ∅)).

Definition decide_phase self (env : Env) (progress : ProposerProgress)
    (quorum_replies : list RecordSummary) : result Error DriveOutcome :=
  let summaries := recorder_summary <$> quorum_replies in
  match (pp_step progress mod 4)%N with
  | 0%N =>
      match fast_candidate (pp_step progress) summaries with
      | Some proposal =>
          finish_decision self env
            (FastPath (c_cluster_id self) (pp_slot progress) (c_epoch self) (c_config_id self)
               (c_config_digest self) proposal summaries)
            (pp_command progress) (pp_transition_involved progress)
      | None =>
          proposal ← ok_or (iter_max (omap sm_first_current quorum_replies)) (Rejected InvalidRequest);
          advance self env (set_proposal progress proposal)
      end
  | 1%N => advance self env progress
  | 2%N =>
      if eqb (iter_max (omap sm_aggregate_prior quorum_replies)) (Some (pp_proposal progress)) then
        finish_decision self env
          (Phase2 (c_cluster_id self) (pp_slot progress) (c_epoch self) (c_config_id self)
             (c_config_digest self) (pp_step progress) (pp_proposal progress) summaries)
          (pp_command progress) (pp_transition_involved progress)
      else advance self env progress
  | _ =>
      proposal ← ok_or (iter_max (omap sm_aggregate_prior quorum_replies)) (Rejected InvalidRequest);
      advance self env (set_proposal progress proposal)
  end.

(** [drive] after the broadcast; [targets] is the set of recorders that were
    sent the command. *)
Definition drive_replies self (env : Env) (progress : ProposerProgress) (targets : gset NodeId)
    (replies : list RecordSummary) : result Error DriveOutcome :=
  let progress :=
    set_holders progress
      (pp_command_holders progress
       ∪ list_to_set (sm_recorder_id <$> filter (λ r, sm_recorder_id r ∈ targets) replies)) in
  match first_decided replies with
  | Some proof =>
      _ ← reject_if (neqb (proof_cluster_id proof) (c_cluster_id self)) (Rejected WrongCluster);
      _ ← map_err Rejected (validate_for_cluster proof (c_cluster_id self) (pp_slot progress)
            (c_epoch self) (c_config_id self) (c_membership self));
      finish_decision self env proof (pp_command progress) (pp_transition_involved progress)
  | None =>
      let continue :=
        let at_step := step_replies progress replies in
        if length at_step <? m_quorum_size (c_membership self) then Ok (Pending progress)
        else decide_phase self env progress (take (m_quorum_size (c_membership self)) at_step) in
      match iter_max (sm_step <$> replies) with
      | Some highest =>
          if (pp_step progress <? highest)%N then catch_up self env progress highest replies
          else continue
      | None => continue
      end
  end.

Definition drive self (env : Env) (progress : ProposerProgress) : result Error DriveOutcome :=
  '(progress, requests) ← drive_prepare self env progress;
  replies ← env_broadcast env requests;
  drive_replies self env progress (command_targets self progress) replies.

(** *** The proposal loop *)

Definition ensure_predecessor (slot : N) (actual_prev_hash expected_prev_hash : LogHash) :
    result Error () :=
  reject_if (neqb actual_prev_hash expected_prev_hash)
    (ChainConflict slot expected_prev_hash actual_prev_hash).

Definition log_entry_from_value self (slot : N) (command : StoredCommand) (value : AcceptedValue) :
    result Error LogEntry :=
  let entry :=
    mkLogEntry (c_cluster_id self) (c_epoch self) (c_config_id self) slot (sc_entry_type command)
      (sc_payload command) (av_prev_hash value) (av_entry_hash value) in
  _ ← reject_if (neqb (recompute_hash entry) (le_hash entry)) (Rejected InvalidValue);
  Ok entry.

Definition offered_value self (slot : N) (prev_hash : LogHash) (command : StoredCommand) :
    AcceptedValue :=
  from_command (c_cluster_id self) slot (c_epoch self) (c_config_id self) prev_hash command.

Definition initial_progress self (slot : N) (prev_hash : LogHash) (proposal_id : N)
    (command : StoredCommand) : ProposerProgress :=
  with_command
    (progress_new slot (proposal_new PRIORITY_MAX (c_proposer_id self) proposal_id
       (offered_value self slot prev_hash command)))
    command.

(** What the loop returns once a proof is at hand. *)
Definition finish_proposal self (env : Env) (slot : N) (prev_hash : LogHash)
    (offered_command : StoredCommand) (proof : DecisionProof) : result Error LogEntry :=
  value ← ok_or (p_value (proof_proposal proof)) (Rejected InvalidCertificate);
  _ ← ensure_predecessor slot prev_hash (av_prev_hash value);
  command ←
    (if command_matches_value self slot value offered_command then Ok offered_command
     else found ← env_fetch env slot value; ok_or found CommandUnavailable);
  log_entry_from_value self slot command value.

(** The loop, over the iterations of a run: at each one the cancellation flag as
    it is read and the environment of that iteration.  [None] is a run that is
    still going. *)
Fixpoint propose_loop self (slot : N) (prev_hash : LogHash) (offered_command : StoredCommand)
    (progress : ProposerProgress) (iterations : list (bool * Env)) : option (result Error LogEntry) :=
  match iterations with
  | [] => None
  | (cancelled, env) :: iterations =>
      if cancelled then Some (Err Cancelled)
      else
        match drive self env progress with
        | Err e => Some (Err e)
        | Ok (Progress next) | Ok (Pending next) =>
            propose_loop self slot prev_hash offered_command next iterations
        | Ok (Decision proof) =>
            Some (finish_proposal self env slot prev_hash offered_command proof)
        end
  end.

Definition propose_stored_at_until self (slot : N) (prev_hash : LogHash) (proposal_id : N)
    (offered_command : StoredCommand) (cancelled : bool) (iterations : list (bool * Env)) :
    option (result Error LogEntry) :=
  if cancelled then Some (Err Cancelled)
  else propose_loop self slot prev_hash offered_command
         (initial_progress self slot prev_hash proposal_id offered_command) iterations.

Definition stored_command (command : ClientCommand) : StoredCommand :=
  mkStoredCommand (match cc_kind command with Deterministic => Command | ReadBarrier => Noop end)
    (cc_payload command).
End proposer.

(** ** What the steps of a proposer do *)

Section steps.
Context `{Sha256}.
Implicit Types (self : ThreeNodeConsensus) (env : Env) (pr next : ProposerProgress).

(** Two progresses that differ only in the command bookkeeping. *)
Record same_progress pr next : Prop := {
  sp_slot : pp_slot next = pp_slot pr;
  sp_step : pp_step next = pp_step pr;
  sp_proposal : pp_proposal next = pp_proposal pr;
  sp_priorities : pp_phase_zero_priorities next = pp_phase_zero_priorities pr
}.

Lemma ensure_progress_command_inv self env pr next :
  ensure_progress_command self env pr = Ok next →
  same_progress pr next ∧ is_nil (pp_proposal pr) = false
  ∧ ∃ c v, pp_command next = Some c ∧ p_value (pp_proposal pr) = Some v.
Proof.
  unfold ensure_progress_command. intros He. res_inv.
  assert (is_nil (pp_proposal pr) = false) by (unfold is_nil; by rewrite Hok).
  destruct (option_holds _ _) eqn:Em.
  - injection He as <-. split_and!; [done|done|]. unfold option_holds in Em.
    destruct (pp_command pr); [eauto|done].
  - res_inv. destruct v0; [|done]. injection He as <-. split_and!; [done|done|eauto].
Qed.

Lemma advance_inv self env pr o :
  advance self env pr = Ok o →
  ∃ next, o = Progress next ∧ pp_slot next = pp_slot pr ∧ pp_step next = (pp_step pr + 1)%N
    ∧ (pp_step next ≤ u64_max)%N ∧ pp_proposal next = pp_proposal pr
    ∧ pp_phase_zero_priorities next = ∅ ∧ is_nil (pp_proposal pr) = false.
Proof.
  unfold advance. intros Ha. res_inv.
  apply ensure_progress_command_inv in Hok as ([Hs Ht Hp _] & Hn & _).
  apply checked_add_Some in Hok0 as [-> Hb]. rewrite Ht in Hb.
  eexists. split; [reflexivity|]. split_and!; cbn; rewrite ?Hs, ?Ht, ?Hp; done.
Qed.

Lemma finish_decision_inv self env d c t o :
  finish_decision self env d c t = Ok o →
  o = Decision d
  ∧ validate_for_cluster d (c_cluster_id self) (proof_context d).1.1.1 (c_epoch self)
      (c_config_id self) (c_membership self) = Ok ().
Proof.
  unfold finish_decision. intros Hf. res_inv.
  destruct (neqb _ _ && _); [by injection Hf as <-|]. res_inv. done.
Qed.

Lemma first_decided_Some replies d :
  first_decided replies = Some d → ∃ sm, sm ∈ replies ∧ sm_decided sm = Some d.
Proof.
  induction replies as [|r replies IH]; cbn; [done|].
  destruct (sm_decided r) as [d'|] eqn:E.
  - intros [= ->]. exists r. split; [by left|done].
  - intros (sm & ? & ?)%IH. exists sm. split; [by right|done].
Qed.
Lemma first_decided_None replies :
  first_decided replies = None → ∀ sm, sm ∈ replies → sm_decided sm = None.
Proof.
  induction replies as [|r replies IH]; cbn; [by intros _ sm Hsm%elem_of_nil|].
  destruct (sm_decided r) eqn:E; [done|]. intros Hf sm [->|Hsm]%elem_of_cons; [done|by apply IH].
Qed.

Lemma iter_min_by_elem {A K} `{Ord K} (key : A → K) (l : list A) (a : A) :
  iter_min_by key l = Some a → a ∈ l.
Proof.
  destruct l as [|y l]; [done|]. cbn. intros [= <-]. revert y.
  induction l as [|z l IH]; intros y; cbn; [by left|].
  destruct (cmp (key y) (key z)); specialize (IH y) as IHy; specialize (IH z) as IHz; set_solver.
Qed.

Lemma catch_up_inv self env pr highest replies o :
  catch_up self env pr highest replies = Ok o →
  ∃ next sm, o = Progress next ∧ sm ∈ replies ∧ sm_step sm = highest
    ∧ pp_slot next = pp_slot pr ∧ pp_step next = highest ∧ pp_phase_zero_priorities next = ∅
    ∧ pp_proposal next = default (pp_proposal pr) (sm_first_current sm).
Proof.
  unfold catch_up. destruct (iter_min_by _ _) as [sm|] eqn:Em; [|done]. intros Hc. res_inv.
  apply iter_min_by_elem, list_elem_of_filter in Em as [Hst Hin].
  apply ensure_progress_command_inv in Hok as ([Hs Ht Hp _] & _ & _).
  eexists _, sm. split_and!; try done; cbn;
    destruct (sm_first_current sm); cbn in *; by rewrite ?Hs, ?Ht, ?Hp.
Qed.

(** A quorum of replies at the proposer's step, one per recorder. *)
Record reply_quorum self pr (replies qr : list RecordSummary) : Prop := {
  rq_subset : ∀ sm, sm ∈ qr → sm ∈ replies ∧ sm_step sm = pp_step pr;
  rq_nodup : NoDup (sm_recorder_id <$> qr);
  rq_size : length qr = m_quorum_size (c_membership self)
}.

Lemma step_replies_quorum self pr replies :
  m_quorum_size (c_membership self) ≤ length (step_replies pr replies) →
  reply_quorum self pr replies (take (m_quorum_size (c_membership self)) (step_replies pr replies)).
Proof.
  intros Hl. split.
  - intros sm Hsm. assert (sm ∈ step_replies pr replies) as Hin.
    { eapply elem_of_sublist; [done|]. apply sublist_take. }
    unfold step_replies in Hin. eapply elem_of_sublist in Hin; [|apply dedup_by_sublist].
    rewrite sort_by_perm in Hin. apply list_elem_of_filter in Hin. naive_solver.
  - rewrite fmap_take. eapply sublist_NoDup; [|apply sublist_take].
    apply ascending_NoDup, dedup_by_ascending, sort_by_sorted.
  - rewrite length_take. lia.
Qed.

(** The outcomes of [drive] on a list of replies. *)
Inductive drive_outcome self env pr (replies : list RecordSummary) : DriveOutcome → Prop :=
| out_decided d sm : sm ∈ replies → sm_decided sm = Some d →
    drive_outcome self env pr replies (Decision d)
| out_catch_up next sm : (∀ sm, sm ∈ replies → sm_decided sm = None) →
    sm ∈ replies → (pp_step pr < sm_step sm)%N →
    pp_slot next = pp_slot pr → pp_step next = sm_step sm → pp_phase_zero_priorities next = ∅ →
    pp_proposal next = default (pp_proposal pr) (sm_first_current sm) →
    drive_outcome self env pr replies (Progress next)
| out_pending next : same_progress pr next → drive_outcome self env pr replies (Pending next)
| out_phase qr pr' o : (∀ sm, sm ∈ replies → sm_decided sm = None) →
    same_progress pr pr' → reply_quorum self pr replies qr →
    decide_phase self env pr' qr = Ok o → drive_outcome self env pr replies o.

Lemma drive_replies_outcome self env pr targets replies o :
  drive_replies self env pr targets replies = Ok o → drive_outcome self env pr replies o.
Proof.
  unfold drive_replies.
  set (pr' := set_holders pr _). assert (same_progress pr pr') as Hsame by done.
  destruct (first_decided replies) as [d|] eqn:Ed.
  - intros Hf. res_inv. apply finish_decision_inv in Hf as [-> _].
    apply first_decided_Some in Ed as (sm & ? & ?). by eapply out_decided.
  - pose proof (first_decided_None _ Ed) as Hnone.
    assert ((if length (step_replies pr' replies) <? m_quorum_size (c_membership self)
       then Ok (Pending pr')
       else decide_phase self env pr'
              (take (m_quorum_size (c_membership self)) (step_replies pr' replies))) = Ok o →
       drive_outcome self env pr replies o) as Hcont.
    { destruct (Nat.ltb_spec (length (step_replies pr' replies)) (m_quorum_size (c_membership self))).
      - intros [= <-]. by apply out_pending.
      - intros Hd. eapply out_phase; [done|exact Hsame| |exact Hd].
        destruct (step_replies_quorum self pr' replies) as [Hsub Hnd Hsz]; [lia|]. by split. }
    destruct (iter_max (sm_step <$> replies)) as [highest|]; [|exact Hcont].
    destruct (N.ltb_spec (pp_step pr') highest); [|exact Hcont].
    intros (next & sm & -> & Hin & <- & ? & ? & ? & ?)%catch_up_inv. by eapply out_catch_up.
Qed.

(** *** Requests *)

(** What a proposer sends: its proposal, with a priority of its own in phase 0
    that is the reserved one only in the leader's first step. *)
Definition request_of self pr (rq : RecordRequest) : Prop :=
  rq_step rq = pp_step pr ∧ rq_slot rq = pp_slot pr
  ∧ (if (pp_step pr mod 4 =? 0)%N
     then ∃ priority, rq_proposal rq = set_priority (pp_proposal pr) priority
       ∧ (priority = PRIORITY_MAX → pp_step pr = 4%N ∧ is_leader self = true)
     else rq_proposal rq = pp_proposal pr).

Lemma build_requests_inv self env pr targets cache recorders rqs cache' :
  (∀ slot round proposer recorder p,
     env_sample env slot round proposer recorder = Ok p → p ≠ PRIORITY_MAX) →
  map_Forall (λ _ prio, prio ≠ PRIORITY_MAX) cache →
  build_requests self env pr targets cache recorders = Ok (rqs, cache') →
  length rqs = length recorders ∧ Forall (request_of self pr) rqs
  ∧ map_Forall (λ _ prio, prio ≠ PRIORITY_MAX) cache'.
Proof.
  intros Hs. revert cache rqs cache'.
  induction recorders as [|r recorders IH]; intros cache rqs cache' Hc Hb; cbn in Hb.
  - injection Hb as <- <-. split_and!; [done|constructor|done].
  - apply bind_Ok_inv in Hb as ([p c] & Hp & Hb). apply bind_Ok_inv in Hb as ([rqs0 c0] & Hb0 & Hb).
    injection Hb as <- <-.
    assert ((if (pp_step pr mod 4 =? 0)%N
       then ∃ priority, p = set_priority (pp_proposal pr) priority
         ∧ (priority = PRIORITY_MAX → pp_step pr = 4%N ∧ is_leader self = true)
       else p = pp_proposal pr) ∧ map_Forall (λ _ prio, prio ≠ PRIORITY_MAX) c) as [Hp' Hc'].
    { destruct (pp_step pr mod 4 =? 0)%N; [|by injection Hp as <- <-].
      apply bind_Ok_inv in Hp as ([prio c1] & Hp & Hp2). injection Hp2 as <- <-.
      unfold phase_zero_priority in Hp.
      destruct ((pp_step pr =? 4)%N && is_leader self) eqn:El.
      - injection Hp as <- <-. split; [|done]. eexists. split; [done|]. bool_prop. naive_solver.
      - destruct (cache !! _) as [prio'|] eqn:Ec.
        + injection Hp as <- <-. split; [|done]. eexists. split; [done|]. intros ->. by apply Hc in Ec.
        + res_inv. apply Hs in Hok. split; [by eexists|]. by apply map_Forall_insert_2. }
    apply IH in Hb0 as (Hl & Hall & Hc0); [|done]. split_and!; [cbn; lia| |done].
    constructor; [done|done].
Qed.

Lemma drive_prepare_inv self env pr pr' rqs :
  (∀ slot round proposer recorder p,
     env_sample env slot round proposer recorder = Ok p → p ≠ PRIORITY_MAX) →
  map_Forall (λ _ prio, prio ≠ PRIORITY_MAX) (pp_phase_zero_priorities pr) →
  drive_prepare self env pr = Ok (pr', rqs) →
  pp_slot pr' = pp_slot pr ∧ pp_step pr' = pp_step pr ∧ pp_proposal pr' = pp_proposal pr
  ∧ map_Forall (λ _ prio, prio ≠ PRIORITY_MAX) (pp_phase_zero_priorities pr')
  ∧ length rqs = length (m_members (c_membership self)) ∧ Forall (request_of self pr') rqs.
Proof.
  intros Hs Hc. unfold drive_prepare. intros Hd. apply bind_Ok_inv in Hd as (pr1 & He & Hd).
  apply ensure_progress_command_inv in He as ([E1 E2 E3 E4] & _ & _).
  apply bind_Ok_inv in Hd as ([rqs0 c] & Hb & Hd). injection Hd as <- <-.
  apply build_requests_inv in Hb as (Hl & Hall & Hc'); [|done|].
  - cbn. rewrite E1, E2, E3. split_and!; [done..|].
    eapply Forall_impl; [exact Hall|]. intros rq. unfold request_of; cbn. done.
  - cbn. destruct (pp_step pr1 mod 4 =? 0)%N; [|apply map_Forall_empty].
    rewrite E4. intros k prio [Hk _]%map_lookup_filter_Some. by apply Hc in Hk.
Qed.
End steps.

(** ** What a proposal returns *)

Section results.
Context `{Sha256}.
Implicit Types (self : ThreeNodeConsensus) (env : Env) (pr next : ProposerProgress).

(** A proof that is valid for a slot of the proposer's configuration. *)
Definition valid_proof self (slot : N) (d : DecisionProof) : Prop :=
  validate_for_cluster d (c_cluster_id self) slot (c_epoch self) (c_config_id self)
    (c_membership self) = Ok ().

Lemma finish_decision_valid self env d c t o slot :
  finish_decision self env d c t = Ok o → (proof_context d).1.1.1 = slot →
  o = Decision d ∧ valid_proof self slot d.
Proof. intros [-> Hv]%finish_decision_inv <-. done. Qed.

Lemma decide_phase_slot self env pr qr o :
  decide_phase self env pr qr = Ok o →
  match o with
  | Progress next | Pending next => pp_slot next = pp_slot pr
  | Decision d => valid_proof self (pp_slot pr) d
  end.
Proof.
  unfold decide_phase. destruct (pp_step pr mod 4)%N as [|[[]|[]|]];
    [destruct (fast_candidate _ _)|..|destruct (eqb _ _)|]; intros Hd; res_inv;
    first [apply advance_inv in Hd as (next & -> & ? & _); done
          |eapply finish_decision_valid in Hd as [-> ?]; [|reflexivity]; done].
Qed.

(** Every outcome of [drive] stays at the slot; a decision comes with a valid proof. *)
Lemma drive_slot self env pr o :
  drive self env pr = Ok o →
  match o with
  | Progress next | Pending next => pp_slot next = pp_slot pr
  | Decision d => valid_proof self (pp_slot pr) d
  end.
Proof.
  unfold drive. intros Hd. apply bind_Ok_inv in Hd as ([pr' rqs] & Hp & Hd).
  apply bind_Ok_inv in Hd as (replies & _ & Hd).
  assert (pp_slot pr' = pp_slot pr) as Hslot.
  { unfold drive_prepare in Hp. apply bind_Ok_inv in Hp as (pr1 & He & Hp).
    apply ensure_progress_command_inv in He as ([E1 _ _ _] & _).
    apply bind_Ok_inv in Hp as ([rqs0 c] & _ & Hp). by injection Hp as <- _. }
  unfold drive_replies in Hd. set (pr'' := set_holders pr' _) in Hd.
  assert (pp_slot pr'' = pp_slot pr) as Hslot' by done.
  destruct (first_decided replies) as [d|].
  - apply bind_Ok_inv in Hd as ([] & _ & Hd). apply bind_Ok_inv in Hd as ([] & Hv & Hd).
    apply map_err_Ok in Hv. apply finish_decision_inv in Hd as [-> _]. by rewrite Hslot' in Hv.
  - assert (∀ o, (if length (step_replies pr'' replies) <? m_quorum_size (c_membership self)
       then Ok (Pending pr'')
       else decide_phase self env pr''
              (take (m_quorum_size (c_membership self)) (step_replies pr'' replies))) = Ok o →
       match o with
       | Progress next | Pending next => pp_slot next = pp_slot pr
       | Decision d => valid_proof self (pp_slot pr) d
       end) as Hcont.
    { intros o'. destruct (_ <? _); [by intros [= <-]|].
      intros Hp'%decide_phase_slot. by rewrite Hslot' in Hp'. }
    destruct (iter_max _) as [highest|]; [|by apply Hcont].
    destruct (_ <? highest)%N; [|by apply Hcont].
    apply catch_up_inv in Hd as (next & sm & -> & _ & _ & E & _). by rewrite E.
Qed.

Lemma finish_proposal_entry self env slot prev_hash command d e :
  finish_proposal self env slot prev_hash command d = Ok e →
  ∃ v, p_value (proof_proposal d) = Some v ∧ recompute_hash e = le_hash e
    ∧ le_cluster_id e = c_cluster_id self ∧ le_epoch e = c_epoch self
    ∧ le_config_id e = c_config_id self ∧ le_index e = slot ∧ le_prev_hash e = prev_hash
    ∧ le_prev_hash e = av_prev_hash v ∧ le_hash e = av_entry_hash v.
Proof.
  unfold finish_proposal, ensure_predecessor, log_entry_from_value. intros Hf. res_inv. bool_prop.
  exists v. split_and!; done.
Qed.

(** What a successful proposal returns: an entry of the proposed slot in the
    proposer's cluster, epoch and configuration, that extends the given
    predecessor, whose hash is the hash of its contents, and whose hash is the
    one decided by a proof valid for that slot and configuration.  It need not be
    the offered command. *)
Theorem propose_returns_decided_entry self slot prev_hash proposal_id command cancelled iterations e :
  propose_stored_at_until self slot prev_hash proposal_id command cancelled iterations = Some (Ok e) →
  ∃ d v, valid_proof self slot d ∧ p_value (proof_proposal d) = Some v
    ∧ le_hash e = av_entry_hash v ∧ recompute_hash e = le_hash e
    ∧ le_cluster_id e = c_cluster_id self ∧ le_epoch e = c_epoch self
    ∧ le_config_id e = c_config_id self ∧ le_index e = slot ∧ le_prev_hash e = prev_hash.
Proof.
  unfold propose_stored_at_until. destruct cancelled; [done|].
  assert (pp_slot (initial_progress self slot prev_hash proposal_id command) = slot) as Hslot by done.
  revert Hslot. generalize (initial_progress self slot prev_hash proposal_id command) as pr.
  induction iterations as [|[c env] iterations IH]; intros pr Hslot; cbn; [done|].
  destruct c; [done|]. destruct (drive self env pr) as [[next|next|d]|err] eqn:Hd; [| | |done].
  - apply drive_slot in Hd. apply IH. congruence.
  - apply drive_slot in Hd. apply IH. congruence.
  - apply drive_slot in Hd. rewrite Hslot in Hd. intros [= He].
    apply finish_proposal_entry in He as (v & Hv & ?). exists d, v. naive_solver.
Qed.

(** A command that a proposer accepts from the recorders is the command of
    the decided value: its hash is the value's command hash and the entry made of
    it at the slot is exactly the value, so a recorder cannot substitute
    another command. *)
Theorem fetch_verified_value_sound self saturated arrivals slot value c :
  fetch_verified_value self saturated arrivals slot value = Ok (Some c) →
  command_hash c = av_command_hash value ∧ Ok (Some c) ∈ arrivals
  ∧ from_command (c_cluster_id self) slot (c_epoch self) (c_config_id self)
      (av_prev_hash value) c = value.
Proof.
  unfold fetch_verified_value.
  assert (∀ mm n w c0 mm' n' w', fetch_loop self slot value mm n w arrivals = (Some c0, mm', n', w') →
    command_hash c0 = av_command_hash value ∧ Ok (Some c0) ∈ arrivals
    ∧ from_command (c_cluster_id self) slot (c_epoch self) (c_config_id self)
        (av_prev_hash value) c0 = value) as Hloop.
  { induction arrivals as [|a arrivals IH]; intros mm n w c0 mm' n' w'; cbn; [done|].
    destruct a as [[c1|]|err].
    - destruct (neqb _ _) eqn:Eh.
      + intros (? & ? & ?)%IH. split_and!; [done|by right|done].
      + destruct (command_matches_value self slot value c1) eqn:Em.
        * intros [= <- _ _ _]. unfold command_matches_value in Em. bool_prop.
          split_and!; [done|by left|done].
        * intros (? & ? & ?)%IH. split_and!; [done|by right|done].
    - intros (? & ? & ?)%IH. split_and!; [done|by right|done].
    - destruct err; intros (? & ? & ?)%IH; (split_and!; [done|by right|done]). }
  destruct (fetch_loop _ _ _ _ _ _ _) as [[[[c0|] mm] n] w] eqn:El.
  - intros [= <-]. by apply Hloop in El.
  - destruct mm; [done|]. destruct (_ && _); [done|]. by destruct (_ && _).
Qed.
End results.
