(* ===== verification/Inspect.v ===== *)
(** * Inspect: learning decisions from recorder summaries

    Models the read side of [ThreeNodeConsensus]: [select_decision_proof],
    [proof_from_record_summaries], the certified inspections built on them
    ([inspect_typed_record_summaries], [inspect_context_read_fence_at] and their
    wrappers), recovery ([recover_decision_at], [recover_decided_at]) and the
    commands of the reconfiguration proposals ([propose_stop_at], ...). *)

From S2P Require Import Prelude Bytes Core ConfigChange Proposal Isr DecisionProof Consensus.

Inductive DecisionInspection : Type :=
| InspCommitted (entry : LogEntry) | InspEmpty | InspPending | InspUnavailable.

Record CertifiedDecision : Type := mkCertifiedDecision {
  cd_entry : LogEntry; cd_certificate : DecisionCertificate; cd_proof : DecisionProof
}.
Inductive CertifiedDecisionInspection : Type :=
| CertEmpty | CertPending | CertCommitted (certified : CertifiedDecision) | CertUnavailable.

Section inspect.
Context `{Sha256}.
Implicit Types self : ThreeNodeConsensus.

Definition select_decision_proof self (slot : N) (proofs : list DecisionProof) :
    result Error (option DecisionProof) :=
  _ ← collect (λ proof,
        _ ← reject_if (neqb (proof_cluster_id proof) (c_cluster_id self)) (Rejected WrongCluster);
        map_err Rejected (validate_for_cluster proof (c_cluster_id self) slot (c_epoch self)
          (c_config_id self) (c_membership self))) proofs;
  match proofs with
  | [] => Ok None
  | first :: rest =>
      if existsb (λ proof, neqb (p_value (proof_proposal proof)) (p_value (proof_proposal first))) rest
      then Err ConflictingCertificates
      else Ok (last (sort_by proof_step proofs))
  end.

(** The candidate proof that a quorum of summaries at one step supports. *)
Definition proof_at_step self (slot step : N) (step_summaries : list RecordSummary) :
    option DecisionProof :=
  let summaries := recorder_summary <$> step_summaries in
  if (step =? 4)%N then
    s ← head step_summaries;
    p ← sm_first_current s;
    if eqb (p_priority p) PRIORITY_MAX
       && forallb (λ s, option_holds (sm_first_current s) (λ c, proposal_exact c p)) step_summaries
    then Some (FastPath (c_cluster_id self) slot (c_epoch self) (c_config_id self)
                 (c_config_digest self) p summaries)
    else None
  else if (step mod 4 =? 2)%N then
    p ← iter_max (omap sm_aggregate_prior step_summaries);
    Some (Phase2 (c_cluster_id self) slot (c_epoch self) (c_config_id self) (c_config_digest self)
            step p summaries)
  else None.

Fixpoint search_steps self (slot : N) (summaries : list RecordSummary) (steps : list N) :
    option DecisionProof :=
  match steps with
  | [] => None
  | step :: steps =>
      let step_summaries := filter (λ s, sm_step s = step) summaries in
      if length step_summaries <? m_quorum_size (c_membership self)
      then search_steps self slot summaries steps
      else
        match proof_at_step self slot step (take (m_quorum_size (c_membership self)) step_summaries) with
        | None => search_steps self slot summaries steps
        | Some proof =>
            match select_decision_proof self slot [proof] with
            | Ok (Some proof) => Some proof
            | _ => search_steps self slot summaries steps
            end
        end
  end.

Definition proof_from_record_summaries self (slot : N) (summaries : list RecordSummary) :
    result Error (option DecisionProof) :=
  let summaries := dedup_by sm_recorder_id (sort_by sm_recorder_id summaries) in
  installed ← select_decision_proof self slot (omap sm_decided summaries);
  match installed with
  | Some proof => Ok (Some proof)
  | None =>
      Ok (search_steps self slot summaries
            (rev (dedup_by id (sort_by id (sm_step <$> summaries)))))
  end.

Definition certified_inspection_from_proof self (env : Env) (slot : N) (prev_hash : LogHash)
    (proof : DecisionProof) : result Error CertifiedDecisionInspection :=
  decision ← certificate_from_proof proof;
  _ ← ensure_predecessor slot prev_hash (av_prev_hash (dc_value decision));
  command ← env_fetch env slot (dc_value decision);
  match command with
  | None => Ok CertUnavailable
  | Some command =>
      _ ← (if eqb (sc_entry_type command) ConfigChangeEntry then env_install env proof else Ok ());
      entry ← log_entry_from_value self slot command (dc_value decision);
      Ok (CertCommitted (mkCertifiedDecision entry decision proof))
  end.

(** *** Collecting summaries *)

Definition summary_matches self (slot : N) (index : nat) (summary : option RecordSummary) : bool :=
  match summary with
  | None => true
  | Some s => eqb (Some (sm_recorder_id s)) (m_members (c_membership self) !! index)
              && eqb (sm_slot s) slot && eqb (sm_config_id s) (c_config_id self)
              && eqb (sm_config_digest s) (c_config_digest self)
  end.

Fixpoint inspect_loop self (env : Env) (slot : N) (prev_hash : LogHash) (saturated : nat)
    (successful : nat) (summaries : list RecordSummary) (worker_failed : bool)
    (arrivals : list (nat * result Error (option RecordSummary))) :
    result Error CertifiedDecisionInspection :=
  let quorum := m_quorum_size (c_membership self) in
  match arrivals with
  | [] =>
      if successful <? quorum then
        if worker_failed && negb (control_quorum_reachable successful saturated quorum)
        then Err ProposeFailed else Ok CertUnavailable
      else if length summaries =? 0 then Ok CertEmpty
      else if length summaries <? quorum then Ok CertUnavailable
      else
        proof ← proof_from_record_summaries self slot summaries;
        match proof with
        | Some proof => certified_inspection_from_proof self env slot prev_hash proof
        | None => Ok CertPending
        end
  | (index, res) :: arrivals =>
      let '(successful, summaries, worker_failed) :=
        match res with
        | Ok summary =>
            if summary_matches self slot index summary
            then (S successful, summaries ++ option_list summary, worker_failed)
            else (successful, summaries, worker_failed)
        | Err ProposeFailed => (successful, summaries, true)
        | Err _ => (successful, summaries, worker_failed)
        end in
      if quorum <=? successful then
        proof ← proof_from_record_summaries self slot summaries;
        match proof with
        | Some proof => certified_inspection_from_proof self env slot prev_hash proof
        | None => inspect_loop self env slot prev_hash saturated successful summaries worker_failed arrivals
        end
      else inspect_loop self env slot prev_hash saturated successful summaries worker_failed arrivals
  end.

Definition inspect_typed_record_summaries self (env : Env) (slot : N) (prev_hash : LogHash)
    (saturated : nat) (arrivals : list (nat * result Error (option RecordSummary))) :
    result Error CertifiedDecisionInspection :=
  inspect_loop self env slot prev_hash saturated 0 [] false arrivals.

Definition inspect_decision_at self (env : Env) (slot : N) (prev_hash : LogHash) (saturated : nat)
    (arrivals : list (nat * result Error (option RecordSummary))) : result Error DecisionInspection :=
  inspection ← inspect_typed_record_summaries self env slot prev_hash saturated arrivals;
  Ok match inspection with
     | CertCommitted certified => InspCommitted (cd_entry certified)
     | CertEmpty => InspEmpty
     | CertPending => InspPending
     | CertUnavailable => InspUnavailable
     end.

(** [recover_decision_at]: a pending slot is proposed an empty command; the
    second argument is what the proposal loop returns then. *)
Definition recover_decision_at (inspection : result Error DecisionInspection)
    (propose_noop : result Error LogEntry) : result Error DecisionInspection :=
  inspection ← inspection;
  match inspection with
  | InspPending => entry ← propose_noop; Ok (InspCommitted entry)
  | _ => Ok inspection
  end.

Definition recover_decided_at (inspection : result Error DecisionInspection) :
    result Error (option LogEntry) :=
  inspection ← inspection;
  match inspection with
  | InspCommitted entry => Ok (Some entry)
  | InspEmpty | InspPending => Ok None
  | InspUnavailable => Err CommandUnavailable
  end.

(** *** Read fences *)

Definition fence_request self (slot : N) : ReadFenceRequest :=
  mkReadFenceRequest (c_cluster_id self) (c_epoch self) (c_config_id self) (c_config_digest self) slot.

Definition fence_empty (o : ReadFenceObservation) : bool :=
  match ro_slot_state o with FenceEmpty => true | FenceOccupied _ => false end.

(** [Some] is an early return; [None] means that a quorum answered and the
    certified inspection decides. *)
Fixpoint fence_loop self (slot : N) (saturated total : nat) (successful empty received : nat)
    (worker_failed : bool) (arrivals : list (nat * result Error ReadFenceObservation)) :
    option (result Error CertifiedDecisionInspection) :=
  let quorum := m_quorum_size (c_membership self) in
  match arrivals with
  | [] =>
      if successful <? quorum then
        Some (if worker_failed && negb (control_quorum_reachable successful saturated quorum)
              then Err ProposeFailed else Ok CertUnavailable)
      else None
  | (index, res) :: arrivals =>
      let received := S received in
      let '(successful, empty, worker_failed) :=
        match res with
        | Ok o =>
            if option_holds (m_members (c_membership self) !! index)
                 (λ id, valid_read_fence_observation o id (fence_request self slot))
            then (S successful, if fence_empty o then S empty else empty, worker_failed)
            else (successful, empty, worker_failed)
        | Err ProposeFailed => (successful, empty, true)
        | Err _ => (successful, empty, worker_failed)
        end in
      if quorum <=? empty then Some (Ok CertEmpty)
      else if successful + (total - received) <? quorum then Some (Ok CertUnavailable)
      else fence_loop self slot saturated total successful empty received worker_failed arrivals
  end.

Definition inspect_context_read_fence_at self (supported : bool) (slot : N) (saturated total : nat)
    (arrivals : list (nat * result Error ReadFenceObservation))
    (inspection : result Error CertifiedDecisionInspection) :
    result Error CertifiedDecisionInspection :=
  if negb supported then Err ReadFenceUnsupported
  else
    match fence_loop self slot saturated total 0 0 0 false arrivals with
    | Some r => r
    | None =>
        inspection ← inspection;
        Ok match inspection with CertEmpty => CertPending | i => i end
    end.

(** *** Installed proofs *)

Fixpoint proof_loop self (quorum : nat) (successful : gset NodeId) (proofs : list DecisionProof)
    (worker_failed : bool) (arrivals : list (nat * result Error (option DecisionProof))) :
    gset NodeId * list DecisionProof * bool :=
  match arrivals with
  | [] => (successful, proofs, worker_failed)
  | (index, res) :: arrivals =>
      let '(successful, proofs, worker_failed) :=
        match res with
        | Ok proof =>
            ({[ default [] (m_members (c_membership self) !! index) ]} ∪ successful,
             proofs ++ option_list proof, worker_failed)
        | Err ProposeFailed => (successful, proofs, true)
        | Err _ => (successful, proofs, worker_failed)
        end in
      if quorum <=? size successful then (successful, proofs, worker_failed)
      else proof_loop self quorum successful proofs worker_failed arrivals
  end.

Definition inspect_decision_proof_at self (slot : N) (saturated : nat)
    (arrivals : list (nat * result Error (option DecisionProof))) :
    result Error (option DecisionProof) :=
  let quorum := m_quorum_size (c_membership self) in
  let '(successful, proofs, worker_failed) := proof_loop self quorum ∅ [] false arrivals in
  if size successful <? quorum then
    Err (if worker_failed && negb (control_quorum_reachable (size successful) saturated quorum)
         then ProposeFailed else NoQuorum)
  else select_decision_proof self slot proofs.

(** *** Reconfiguration proposals: the slot, predecessor and command they propose *)

Definition propose_stop_command self : StoredCommand :=
  to_stored_command (Stop (c_config_id self) (c_config_digest self)).

Definition propose_stop_for_successor_command self (successor : Membership) :
    result Error StoredCommand :=
  next_config_id ← ok_or (checked_add (c_config_id self) 1) (Rejected InvalidTransition);
  stop ← map_err (λ _, Rejected InvalidTransition)
    (bound_stop (c_cluster_id self) (c_config_id self) (c_config_digest self) next_config_id
       (m_members successor));
  Ok (to_stored_command stop).

Definition propose_activation_barrier_args self (stop_slot : N) (prefix_hash : LogHash) :
    result Error (N * LogHash * StoredCommand) :=
  slot ← ok_or (checked_add stop_slot 1) InvalidRecoveredTip;
  Ok (slot, prefix_hash,
      to_stored_command (ActivationBarrier (c_config_id self) (c_config_digest self) stop_slot prefix_hash)).

Definition propose_activation_for_stop_entry_args self (stop : LogEntry) :
    result Error (N * LogHash * StoredCommand) :=
  let command := mkStoredCommand (le_entry_type stop) (le_payload stop) in
  change ← map_err (λ _, Rejected InvalidTransition) (recognize command);
  successor ← ok_or
    (s ← change_successor change;
     if eqb (sd_cluster_id s) (c_cluster_id self) && eqb (sd_config_id s) (c_config_id self)
        && eqb (sd_config_digest s) (c_config_digest self)
        && eqb (sd_members s) (m_members (c_membership self))
     then Some s else None) (Rejected InvalidTransition);
  slot ← ok_or (checked_add (le_index stop) 1) InvalidRecoveredTip;
  Ok (slot, le_hash stop,
      to_stored_command (BoundActivationBarrier successor (le_index stop) (le_hash stop)
        (command_hash command))).

Definition propose_activation_for_stop_args self (stop_proof : DecisionProof) :
    result Error (N * LogHash * StoredCommand) :=
  _ ← reject_if (neqb (proof_cluster_id stop_proof) (c_cluster_id self)) (Rejected WrongCluster);
  let '(stop_slot, epoch, predecessor_config_id, digest) := proof_context stop_proof in
  _ ← reject_if (neqb epoch (c_epoch self)
                 || neqb (checked_add predecessor_config_id 1) (Some (c_config_id self)))
        (Rejected InvalidTransition);
  value ← ok_or (p_value (proof_proposal stop_proof)) (Rejected InvalidCertificate);
  successor ← map_err (λ _, Rejected InvalidTransition)
    (successor_new (c_cluster_id self) predecessor_config_id digest (c_config_id self)
       (m_members (c_membership self)));
  let stop_command := to_stored_command (BoundStop successor) in
  let expected := from_command (c_cluster_id self) stop_slot (c_epoch self) predecessor_config_id
    (av_prev_hash value) stop_command in
  _ ← reject_if (neqb expected value) (Rejected InvalidTransition);
  slot ← ok_or (checked_add stop_slot 1) InvalidRecoveredTip;
  Ok (slot, av_entry_hash value,
      to_stored_command (BoundActivationBarrier successor stop_slot (av_entry_hash value)
        (av_command_hash value))).
End inspect.

(** Case analysis on the first condition of the goal. *)
Ltac case_if := match goal with |- context [if ?b then _ else _] => destruct b end.

(** ** What inspections return *)

Section results.
Context `{Sha256}.
Implicit Types self : ThreeNodeConsensus.

Lemma last_sorted_elem {A K} `{LawfulOrd K} (key : A → K) (l : list A) (a : A) :
  last (sort_by key l) = Some a → a ∈ l.
Proof. intros Hl%last_Some_elem_of. by rewrite sort_by_perm in Hl. Qed.

(** Choosing among installed proofs: the chosen proof is one of the given
    ones, every given proof is valid for the slot and the configuration, and they
    all carry the same value, otherwise the conflict is reported. *)
Theorem select_decision_proof_sound self slot proofs d :
  select_decision_proof self slot proofs = Ok (Some d) →
  d ∈ proofs ∧ (∀ d', d' ∈ proofs → valid_proof self slot d'
                  ∧ p_value (proof_proposal d') = p_value (proof_proposal d)).
Proof.
  unfold select_decision_proof. intros Hs.
  apply bind_Ok_inv in Hs as (us & Hall & Hs).
  assert (∀ d', d' ∈ proofs → valid_proof self slot d') as Hvalid.
  { apply collect_Ok in Hall. intros d' Hd'. apply list_elem_of_lookup in Hd' as [i Hi].
    eapply Forall2_lookup_l in Hall as (u & _ & Hu); [|done].
    apply bind_Ok_inv in Hu as (u1 & _ & Hu). apply map_err_Ok in Hu. by destruct u. }
  destruct proofs as [|d0 rest]; [done|].
  destruct (existsb _ rest) eqn:Ex; [done|]. injection Hs as Hd.
  change (last (sort_by proof_step (d0 :: rest)) = Some d) in Hd.
  assert (∀ d', d' ∈ d0 :: rest → p_value (proof_proposal d') = p_value (proof_proposal d0)) as Hsame.
  { rewrite existsb_false in Ex. intros d' [->|Hin]%elem_of_cons; [done|].
    apply Ex in Hin. by bool_prop. }
  apply last_sorted_elem in Hd. split; [done|]. intros d' Hd'. split; [by apply Hvalid|].
  by rewrite (Hsame d'), (Hsame d).
Qed.

Lemma select_valid self slot proofs d :
  select_decision_proof self slot proofs = Ok (Some d) → valid_proof self slot d.
Proof.
  unfold select_decision_proof. intros Hs. apply bind_Ok_inv in Hs as (us & Hall & Hs).
  destruct proofs as [|d0 rest]; [done|]. destruct (existsb _ rest); [done|]. injection Hs as Hd.
  change (last (sort_by proof_step (d0 :: rest)) = Some d) in Hd.
  apply last_sorted_elem, list_elem_of_lookup in Hd as [i Hi]. apply collect_Ok in Hall.
  eapply Forall2_lookup_l in Hall as (u & _ & Hu); [|done].
  apply bind_Ok_inv in Hu as (u1 & _ & Hu). apply map_err_Ok in Hu. by destruct u.
Qed.

Lemma search_steps_valid self slot summaries steps d :
  search_steps self slot summaries steps = Some d → valid_proof self slot d.
Proof.
  induction steps as [|step steps IH]; cbn [search_steps]; [done|].
  case_if; [done|]. destruct (proof_at_step _ _ _ _) as [d0|]; [|done].
  destruct (select_decision_proof self slot [d0]) as [[d1|]|] eqn:Es; [|done|done].
  intros [= <-]. by eapply select_valid.
Qed.

Lemma proof_from_record_summaries_valid self slot summaries d :
  proof_from_record_summaries self slot summaries = Ok (Some d) → valid_proof self slot d.
Proof.
  unfold proof_from_record_summaries. intros Hp. apply bind_Ok_inv in Hp as ([d0|] & Hs & Hp).
  - injection Hp as <-. by eapply select_valid.
  - injection Hp as Hp. by eapply search_steps_valid.
Qed.

(** What a certified decision guarantees its reader. *)
Definition certified self (slot : N) (prev_hash : LogHash) (c : CertifiedDecision) : Prop :=
  valid_proof self slot (cd_proof c) ∧ certificate_from_proof (cd_proof c) = Ok (cd_certificate c)
  ∧ p_value (proof_proposal (cd_proof c)) = Some (dc_value (cd_certificate c))
  ∧ le_hash (cd_entry c) = av_entry_hash (dc_value (cd_certificate c))
  ∧ recompute_hash (cd_entry c) = le_hash (cd_entry c)
  ∧ le_index (cd_entry c) = slot ∧ le_prev_hash (cd_entry c) = prev_hash.

Lemma certified_from_proof self env slot prev_hash d c :
  valid_proof self slot d →
  certified_inspection_from_proof self env slot prev_hash d = Ok (CertCommitted c) →
  certified self slot prev_hash c.
Proof.
  intros Hd. unfold certified_inspection_from_proof, ensure_predecessor, log_entry_from_value.
  intros Hc. apply bind_Ok_inv in Hc as (dec & Hdec & Hc). res_inv.
  destruct v0 as [command|]; [|done]. res_inv. bool_prop.
  unfold certified; cbn. split_and!; try done.
  unfold certificate_from_proof in Hdec. destruct (proof_context d) as [[[? ?] ?] ?]. res_inv. done.
Qed.

(** A committed answer of [inspect_certified_decision_at], whatever the order
    in which the recorders answer: the proof is valid for the slot and the
    configuration, the certificate is the proof's, and the entry is the decided
    one, hashes to itself and extends the caller's predecessor. *)
Theorem inspection_committed_certified self env slot prev_hash saturated arrivals c :
  inspect_typed_record_summaries self env slot prev_hash saturated arrivals = Ok (CertCommitted c) →
  certified self slot prev_hash c.
Proof.
  unfold inspect_typed_record_summaries.
  generalize 0 at 1 as n. generalize (@nil RecordSummary) as sms. generalize false as w.
  induction arrivals as [|[i res] arrivals IH]; intros w sms n; cbn.
  - case_if; [by case_if|]. case_if; [done|].
    case_if; [done|]. intros Hp. apply bind_Ok_inv in Hp as ([d|] & Hd & Hp); [|done].
    apply proof_from_record_summaries_valid in Hd. by eapply certified_from_proof.
  - destruct (match res with Ok _ => _ | Err _ => _ end) as [[n' sms'] w'].
    case_if; [|apply IH]. intros Hp.
    apply bind_Ok_inv in Hp as ([d|] & Hd & Hp); [|by eapply IH].
    apply proof_from_record_summaries_valid in Hd. by eapply certified_from_proof.
Qed.

(** *** Read fences *)

(** The recorders whose valid observation says that nothing is recorded at the
    slot or above. *)
Definition empty_observers self (slot : N) (arrivals : list (nat * result Error ReadFenceObservation)) :
    list nat :=
  omap (λ a, match a.2 with
             | Ok o => if option_holds (m_members (c_membership self) !! a.1)
                            (λ id, valid_read_fence_observation o id (fence_request self slot))
                          && fence_empty o
                       then Some a.1 else None
             | Err _ => None
             end) arrivals.

Lemma fence_loop_empty self slot saturated total n e k w arrivals :
  e < m_quorum_size (c_membership self) →
  fence_loop self slot saturated total n e k w arrivals = Some (Ok CertEmpty) →
  m_quorum_size (c_membership self) ≤ e + length (empty_observers self slot arrivals).
Proof.
  revert n e k w. induction arrivals as [|[i res] arrivals IH]; intros n e k w He; cbn -[m_quorum_size].
  - case_if; [by case_if|done].
  - destruct res as [o|err]; cbn [snd fst].
    + destruct (option_holds _ _) eqn:Ev; cbn [andb].
      * destruct (fence_empty o) eqn:Ee; cbn [length].
        -- destruct (Nat.leb_spec (m_quorum_size (c_membership self)) (S e)); [intros _; lia|].
           case_if; [done|]. intros Hl. apply IH in Hl; [|lia]. unfold empty_observers in Hl. lia.
        -- destruct (Nat.leb_spec (m_quorum_size (c_membership self)) e); [lia|].
           case_if; [done|]. intros Hl. by apply IH in Hl.
      * destruct (Nat.leb_spec (m_quorum_size (c_membership self)) e); [lia|].
        case_if; [done|]. intros Hl. by apply IH in Hl.
    + destruct err; (destruct (Nat.leb_spec (m_quorum_size (c_membership self)) e); [lia|]);
        (case_if; [done|]); intros Hl; by apply IH in Hl.
Qed.

(** A read fence answers [Empty] only after a quorum of empty observations: an
    occupied or ambiguous quorum never becomes [Empty], even when the certified
    inspection says so. *)
Lemma read_fence_empty_observers self supported slot saturated total arrivals inspection :
  inspect_context_read_fence_at self supported slot saturated total arrivals inspection
    = Ok CertEmpty →
  supported = true ∧ m_quorum_size (c_membership self) ≤ length (empty_observers self slot arrivals).
Proof.
  unfold inspect_context_read_fence_at. destruct supported; [|done]. cbn [negb].
  destruct (fence_loop _ _ _ _ _ _ _ _ _) as [r|] eqn:Ef.
  - intros ->. split; [done|]. apply fence_loop_empty in Ef; [done|].
    unfold m_quorum_size, quorum_size. lia.
  - destruct inspection as [[| |c|]|]; done.
Qed.

Lemma empty_observers_sublist self slot arrivals :
  empty_observers self slot arrivals `sublist_of` arrivals.*1.
Proof.
  induction arrivals as [|[i res] arrivals IH]; cbn; [done|].
  destruct res as [o|e]; [|by apply sublist_cons].
  destruct (_ && _); [by apply sublist_skip|by apply sublist_cons].
Qed.

Lemma elem_of_empty_observers self slot arrivals i :
  i ∈ empty_observers self slot arrivals → ∃ o id, (i, Ok o) ∈ arrivals
    ∧ m_members (c_membership self) !! i = Some id ∧ ro_recorder_id o = id ∧ ro_slot_state o = FenceEmpty.
Proof.
  intros ([j res] & Hin & Hi)%list_elem_of_omap. cbn in Hi. destruct res as [o|e]; [|done].
  destruct (m_members (c_membership self) !! j) as [id|] eqn:Hj; cbn in Hi; [|done].
  destruct (valid_read_fence_observation o id _) eqn:Hv; cbn in Hi; [|done].
  destruct (fence_empty o) eqn:He; [|done]. injection Hi as <-. exists o, id. split_and!; try done.
  - unfold valid_read_fence_observation in Hv.
    match type of Hv with (if ?b then _ else _) = _ => destruct b eqn:Eb; [done|] end.
    bool_prop. naive_solver.
  - unfold fence_empty in He. by destruct (ro_slot_state o).
Qed.
End results.
