(* ===== verification/RecorderCodec.v ===== *)
(** * RecorderCodec: the on-disk formats of a recorder

    Models the data a recorder keeps besides its slots (configuration, seal,
    recorded head, log frame) and the codecs of [crates/rhiza-quepaxa/src/lib.rs]
    for its files: slot state [QREC], configuration [QCON], commands [QCMD], the
    write-ahead log frame [QWAL], the recorded head [QRHD] and the two intents
    [QINT] and [QCHI].  The theorems are the round trips: whatever is written is
    read back as it was.

    An encoder that can fail returns what it appends to the output.  The texts of
    UTF-8 and formatted errors are abbreviated. *)

From S2P Require Import Prelude Bytes Core ConfigChange Proposal Isr DecisionProof.
From Stdlib Require Strings.Byte.

(** ** Data *)

Record ConfigurationSeal : Type := mkSeal {
  cs_stop_slot : N; cs_command_hash : LogHash; cs_prefix_hash : LogHash
}.
#[export] Instance ConfigurationSeal_eq_dec : EqDecision ConfigurationSeal.
Proof. solve_decision. Defined.

(** [ConfigurationState] of this crate: the configuration a recorder serves. *)
Record RecorderConfiguration : Type := mkRecorderConfiguration {
  rc_config_id : N; rc_config_digest : LogHash; rc_membership : option Membership;
  rc_predecessor : option ConfigurationSeal; rc_seal : option ConfigurationSeal;
  rc_max_slot : option N; rc_activated : bool
}.
#[export] Instance RecorderConfiguration_eq_dec : EqDecision RecorderConfiguration.
Proof. solve_decision. Defined.

Definition configuration_initial (config_id : N) (config_digest : LogHash)
    (membership : option Membership) : RecorderConfiguration :=
  mkRecorderConfiguration config_id config_digest membership None None None true.

Inductive RecordedHeadProvenance : Type :=
| HeadEmpty
| SlotBacked (slot : N)
| CheckpointBacked (stop_slot : N) (prefix_hash : LogHash) (recovered_tip : N) (recovered_hash : LogHash).
#[export] Instance RecordedHeadProvenance_eq_dec : EqDecision RecordedHeadProvenance.
Proof. solve_decision. Defined.

Record WalCheckpoint : Type := mkWalCheckpoint { wc_generation : N; wc_through_sequence : N }.
#[export] Instance WalCheckpoint_eq_dec : EqDecision WalCheckpoint.
Proof. solve_decision. Defined.

Record DurableSlotSnapshot : Type := mkSnapshot { dss_slot : N; dss_bytes : bytes }.

Record WalFrame : Type := mkWalFrame {
  wf_generation : N; wf_sequence : N; wf_prev_digest : LogHash; wf_digest : LogHash;
  wf_slot : N; wf_slot_bytes : bytes; wf_configuration_bytes : bytes;
  wf_head : RecordedHeadProvenance; wf_command : option (LogHash * StoredCommand)
}.

#[export] Instance Ballot_ord : Ord Ballot :=
  inj_ord (λ b, (b_round b, b_priority b, b_proposer_id b)).

(** ** Writers and readers *)

Definition put_u16 (value : N) : bytes := be_bytes 2 value.
Definition put_u64 (value : N) : bytes := be_bytes 8 value.
Definition put_u128 (value : N) : bytes := be_bytes 16 value.
Arguments put_u16 : simpl never.
Arguments put_u64 : simpl never.
Arguments put_u128 : simpl never.
Definition put_bytes (value : bytes) : result Error bytes :=
  _ ← reject_if (negb (is_u16 (blen value))) (Decode "recorder string is too long");
  Ok (put_u16 (blen value) ++ value).
Definition put_blob (value : bytes) : result Error bytes :=
  _ ← reject_if (negb (is_u64 (blen value))) (Decode "recorder blob is too long");
  Ok (put_u64 (blen value) ++ value).

(** The bytes between the cursor and an end computed by [checked_add]. *)
Definition read_slice (len : N) (overflow short : string) : reader Error bytes := λ l cursor,
  end_ ← ok_or (checked_add cursor len) (Decode overflow);
  m ← ok_or (slice l cursor end_) (Decode short);
  Ok (m, end_).

Definition read_u8 : reader Error byte := λ l cursor,
  value ← ok_or (byte_at l cursor) (Decode "short recorder u8");
  Ok (value, cursor + 1)%N.
Definition read_u16 : reader Error N := λ l cursor,
  '(m, cursor) ← read_slice 2 "recorder cursor overflow" "short recorder u16" l cursor;
  Ok (be_value m, cursor).
Definition read_u64 : reader Error N := λ l cursor,
  '(m, cursor) ← read_slice 8 "recorder cursor overflow" "short recorder u64" l cursor;
  Ok (be_value m, cursor).
Definition read_u128 : reader Error N := λ l cursor,
  '(m, cursor) ← read_slice 16 "recorder cursor overflow" "short recorder u128" l cursor;
  Ok (be_value m, cursor).
Definition read_hash : reader Error LogHash := λ l cursor,
  '(m, cursor) ← read_slice 32 "recorder cursor overflow" "short recorder hash" l cursor;
  h ← ok_or (array32_of m) (Decode "short recorder hash");
  Ok (h, cursor).
Definition read_bytes : reader Error bytes := λ l cursor,
  '(len, cursor) ← read_u16 l cursor;
  read_slice len "recorder cursor overflow" "short recorder bytes" l cursor.
Definition read_blob : reader Error bytes := λ l cursor,
  '(len, cursor) ← read_u64 l cursor;
  read_slice len "recorder blob length overflow" "short recorder blob" l cursor.
(** [String::from_utf8(read_bytes(bytes, cursor)?)] *)
Definition read_string : reader Error bytes := λ l cursor,
  '(raw, cursor) ← read_bytes l cursor;
  text ← from_utf8 raw (Decode "invalid utf-8");
  Ok (text, cursor).

(** [(0..n).map(|_| ...).collect()] of encoders that append. *)
Fixpoint put_all {A} (put : A → result Error bytes) (l : list A) : result Error bytes :=
  match l with
  | [] => Ok []
  | a :: l => x ← put a; y ← put_all put l; Ok (x ++ y)
  end.

(** ** Parts of a slot state *)

Definition encode_ballot (b : Ballot) : result Error bytes :=
  proposer_id ← put_bytes (b_proposer_id b);
  Ok (put_u64 (b_round b) ++ put_u128 (b_priority b) ++ proposer_id).
Definition decode_ballot : reader Error Ballot := λ l cursor,
  '(round, cursor) ← read_u64 l cursor;
  '(priority, cursor) ← read_u128 l cursor;
  '(proposer_id, cursor) ← read_string l cursor;
  Ok (mkBallot round priority proposer_id, cursor).

Definition encode_optional_ballot (b : option Ballot) : result Error bytes :=
  match b with
  | Some b => x ← encode_ballot b; Ok ([Byte.x01] ++ x)
  | None => Ok [Byte.x00]
  end.
Definition decode_optional_ballot : reader Error (option Ballot) := λ l cursor,
  '(flag, cursor) ← read_u8 l cursor;
  match flag with
  | Byte.x00 => Ok (None, cursor)
  | Byte.x01 => '(b, cursor) ← decode_ballot l cursor; Ok (Some b, cursor)
  | _ => Err (Decode "invalid ballot flag")
  end.

Definition encode_value (v : AcceptedValue) : bytes :=
  as_bytes (av_command_hash v) ++ as_bytes (av_prev_hash v) ++ as_bytes (av_entry_hash v).
Definition decode_value : reader Error AcceptedValue := λ l cursor,
  '(command_hash, cursor) ← read_hash l cursor;
  '(prev_hash, cursor) ← read_hash l cursor;
  '(entry_hash, cursor) ← read_hash l cursor;
  Ok (mkAcceptedValue command_hash prev_hash entry_hash, cursor).

Definition encode_proposal_value (v : option AcceptedValue) : bytes :=
  match v with None => [Byte.x00] | Some v => [Byte.x01] ++ encode_value v end.
Definition encode_optional_proposal (p : option Proposal) : result Error bytes :=
  match p with
  | None => Ok [Byte.x00]
  | Some p =>
      proposer_id ← put_bytes (p_proposer_id p);
      Ok ([Byte.x01] ++ as_bytes (p_priority p) ++ proposer_id ++ put_u64 (p_proposal_id p)
          ++ encode_proposal_value (p_value p))
  end.
Definition decode_proposal_value : reader Error (option AcceptedValue) := λ l cursor,
  '(flag, cursor) ← read_u8 l cursor;
  match flag with
  | Byte.x00 => Ok (None, cursor)
  | Byte.x01 => '(v, cursor) ← decode_value l cursor; Ok (Some v, cursor)
  | _ => Err (Decode "invalid proposal value flag")
  end.
Definition read_priority : reader Error ProposalPriority := λ l cursor,
  '(m, cursor) ← read_slice 32 "priority overflow" "truncated priority" l cursor;
  h ← ok_or (array32_of m) (Decode "truncated priority");
  Ok (h, cursor).
Definition decode_optional_proposal : reader Error (option Proposal) := λ l cursor,
  '(flag, cursor) ← read_u8 l cursor;
  match flag with
  | Byte.x00 => Ok (None, cursor)
  | Byte.x01 =>
      '(priority, cursor) ← read_priority l cursor;
      '(proposer_id, cursor) ← read_string l cursor;
      '(proposal_id, cursor) ← read_u64 l cursor;
      '(value, cursor) ← decode_proposal_value l cursor;
      Ok (Some (mkProposal priority proposer_id proposal_id value), cursor)
  | _ => Err (Decode "invalid proposal flag")
  end.

Definition encode_summary (s : RecorderSummary) : result Error bytes :=
  recorder_id ← put_bytes (rs_recorder_id s);
  first_current ← encode_optional_proposal (rs_first_current s);
  aggregate_prior ← encode_optional_proposal (rs_aggregate_prior s);
  Ok (recorder_id ++ put_u64 (rs_slot s) ++ put_u64 (rs_step s) ++ first_current ++ aggregate_prior).
Definition decode_summary : reader Error RecorderSummary := λ l cursor,
  '(recorder_id, cursor) ← read_string l cursor;
  '(slot, cursor) ← read_u64 l cursor;
  '(step, cursor) ← read_u64 l cursor;
  '(first_current, cursor) ← decode_optional_proposal l cursor;
  '(aggregate_prior, cursor) ← decode_optional_proposal l cursor;
  Ok (mkRecorderSummary recorder_id slot step first_current aggregate_prior, cursor).

Definition proof_tag (d : DecisionProof) : byte := if proof_fast d then Byte.x01 else Byte.x02.
Definition encode_optional_proof (d : option DecisionProof) : result Error bytes :=
  match d with
  | None => Ok [Byte.x00]
  | Some d =>
      let '(slot, epoch, config_id, digest) := proof_context d in
      cluster_id ← put_bytes (proof_cluster_id d);
      proposal ← encode_optional_proposal (Some (proof_proposal d));
      _ ← reject_if (negb (is_u16 (N.of_nat (length (proof_summaries d)))))
            (Decode "too many proof summaries");
      summaries ← put_all encode_summary (proof_summaries d);
      Ok ([proof_tag d] ++ cluster_id ++ put_u64 slot ++ put_u64 epoch ++ put_u64 config_id
          ++ as_bytes digest ++ put_u64 (proof_step d) ++ proposal
          ++ put_u16 (N.of_nat (length (proof_summaries d))) ++ summaries)
  end.
Definition decode_optional_proof : reader Error (option DecisionProof) := λ l cursor,
  '(tag, cursor) ← read_u8 l cursor;
  if eqb tag Byte.x00 then Ok (None, cursor)
  else
    '(cluster_id, cursor) ← read_string l cursor;
    '(slot, cursor) ← read_u64 l cursor;
    '(epoch, cursor) ← read_u64 l cursor;
    '(config_id, cursor) ← read_u64 l cursor;
    '(config_digest, cursor) ← read_hash l cursor;
    '(step, cursor) ← read_u64 l cursor;
    '(proposal, cursor) ← decode_optional_proposal l cursor;
    proposal ← ok_or proposal (Decode "nil decision proposal");
    '(count, cursor) ← read_u16 l cursor;
    '(summaries, cursor) ← read_many decode_summary (N.to_nat count) l cursor;
    match tag with
    | Byte.x01 =>
        if (step =? 4)%N
        then Ok (Some (FastPath cluster_id slot epoch config_id config_digest proposal summaries), cursor)
        else Err (Decode "invalid decision proof tag")
    | Byte.x02 =>
        Ok (Some (Phase2 cluster_id slot epoch config_id config_digest step proposal summaries), cursor)
    | _ => Err (Decode "invalid decision proof tag")
    end.

Definition encode_certificate (d : DecisionCertificate) : result Error bytes :=
  ballot ← encode_ballot (dc_ballot d);
  _ ← reject_if (negb (is_u16 (N.of_nat (length (dc_recorder_ids d)))))
        (Decode "too many certificate recorders");
  recorder_ids ← put_all put_bytes (dc_recorder_ids d);
  Ok (put_u64 (dc_slot d) ++ put_u64 (dc_epoch d) ++ put_u64 (dc_config_id d)
      ++ as_bytes (dc_config_digest d) ++ ballot ++ encode_value (dc_value d)
      ++ put_u16 (N.of_nat (length (dc_recorder_ids d))) ++ recorder_ids).
Definition decode_certificate : reader Error DecisionCertificate := λ l cursor,
  '(slot, cursor) ← read_u64 l cursor;
  '(epoch, cursor) ← read_u64 l cursor;
  '(config_id, cursor) ← read_u64 l cursor;
  '(config_digest, cursor) ← read_hash l cursor;
  '(ballot, cursor) ← decode_ballot l cursor;
  '(value, cursor) ← decode_value l cursor;
  '(recorder_count, cursor) ← read_u16 l cursor;
  '(recorder_ids, cursor) ← read_many read_string (N.to_nat recorder_count) l cursor;
  Ok (mkCertificate slot epoch config_id config_digest ballot value recorder_ids, cursor).

(** ** Files *)

Definition RECORDER_STATE_VERSION : N := 4.
Definition CONFIGURATION_STATE_VERSION : N := 3.
Definition RECORDED_HEAD_MAGIC : bytes := lit "QRHD".
Definition RECORDED_HEAD_VERSION : N := 3.
Definition RECORDER_WAL_MAGIC : bytes := lit "QWAL".
Definition RECORDER_WAL_VERSION : N := 1.
Definition CONFIGURATION_HEAD_INTENT_MAGIC : bytes := lit "QCHI".

Definition encode_optional_seal (seal : option ConfigurationSeal) : bytes :=
  match seal with
  | Some seal => [Byte.x01] ++ put_u64 (cs_stop_slot seal) ++ as_bytes (cs_command_hash seal)
                 ++ as_bytes (cs_prefix_hash seal)
  | None => [Byte.x00]
  end.
Definition decode_optional_seal : reader Error (option ConfigurationSeal) := λ l cursor,
  '(flag, cursor) ← read_u8 l cursor;
  match flag with
  | Byte.x00 => Ok (None, cursor)
  | Byte.x01 =>
      '(stop_slot, cursor) ← read_u64 l cursor;
      '(command_hash, cursor) ← read_hash l cursor;
      '(prefix_hash, cursor) ← read_hash l cursor;
      Ok (Some (mkSeal stop_slot command_hash prefix_hash), cursor)
  | _ => Err (Decode "invalid configuration seal flag")
  end.

Definition encode_head_provenance (head : RecordedHeadProvenance) : bytes :=
  match head with
  | HeadEmpty => [Byte.x00]
  | SlotBacked slot => [Byte.x01] ++ put_u64 slot
  | CheckpointBacked stop_slot prefix_hash recovered_tip recovered_hash =>
      [Byte.x02] ++ put_u64 stop_slot ++ as_bytes prefix_hash ++ put_u64 recovered_tip
      ++ as_bytes recovered_hash
  end.
(** The two decoders of a provenance differ in the message of their error. *)
Definition decode_provenance (message : string) : reader Error RecordedHeadProvenance := λ l cursor,
  '(flag, cursor) ← read_u8 l cursor;
  match flag with
  | Byte.x00 => Ok (HeadEmpty, cursor)
  | Byte.x01 => '(slot, cursor) ← read_u64 l cursor; Ok (SlotBacked slot, cursor)
  | Byte.x02 =>
      '(stop_slot, cursor) ← read_u64 l cursor;
      '(prefix_hash, cursor) ← read_hash l cursor;
      '(recovered_tip, cursor) ← read_u64 l cursor;
      '(recovered_hash, cursor) ← read_hash l cursor;
      Ok (CheckpointBacked stop_slot prefix_hash recovered_tip recovered_hash, cursor)
  | _ => Err (Decode message)
  end.
Definition decode_head_provenance : reader Error RecordedHeadProvenance :=
  decode_provenance "recorder WAL head provenance is invalid".

Definition read_flag (message : string) : reader Error bool := λ l cursor,
  '(flag, cursor) ← read_u8 l cursor;
  match flag with
  | Byte.x00 => Ok (false, cursor)
  | Byte.x01 => Ok (true, cursor)
  | _ => Err (Decode message)
  end.

Section files.
Context `{Sha256}.

(** The digest that closes a file. *)
Definition with_digest (out : bytes) : bytes := out ++ as_bytes (digest [out]).
Definition split_digest (l : bytes) (mismatch : string) : result Error bytes :=
  let body := take (length l - 32) l in
  let stored := drop (length l - 32) l in
  _ ← reject_if (neqb (as_bytes (digest [body])) stored) (Decode mismatch);
  Ok body.

(** The checks on length and magic that start a decoder. *)
Definition expect_magic (l magic : bytes) (minimum : N) (message : string) : result Error () :=
  reject_if ((blen l <? minimum)%N || neqb (slice l 0 4) (Some magic)) (Decode message).

Definition encode_max_slot (slot : option N) : bytes :=
  match slot with Some slot => [Byte.x01] ++ put_u64 slot | None => [Byte.x00] end.
Definition decode_max_slot : reader Error (option N) := λ l cursor,
  '(flag, cursor) ← read_flag "invalid accepted-slot flag" l cursor;
  if flag : bool then '(slot, cursor) ← read_u64 l cursor; Ok (Some slot, cursor) else Ok (None, cursor).

Definition encode_membership (m : option Membership) : result Error bytes :=
  match m with
  | Some m =>
      members ← put_all put_bytes (m_members m);
      Ok ([byte_of_N (N.of_nat (length (m_members m)))] ++ members)
  | None => Ok [Byte.x00]
  end.
Definition decode_membership (config_digest : LogHash) : reader Error (option Membership) := λ l cursor,
  '(member_count, cursor) ← read_u8 l cursor;
  if (Byte.to_N member_count =? 0)%N then Ok (None, cursor)
  else
    '(members, cursor) ← read_many read_string (N.to_nat (Byte.to_N member_count)) l cursor;
    m ← from_voters members;
    _ ← reject_if (neqb (m_digest m) config_digest) (Decode "membership digest mismatch");
    Ok (Some m, cursor).

Definition encode_configuration_state (c : RecorderConfiguration) : result Error bytes :=
  membership ← encode_membership (rc_membership c);
  Ok (with_digest (lit "QCON" ++ put_u16 CONFIGURATION_STATE_VERSION ++ put_u64 (rc_config_id c)
    ++ as_bytes (rc_config_digest c) ++ [if rc_activated c then Byte.x01 else Byte.x00]
    ++ encode_max_slot (rc_max_slot c) ++ membership
    ++ encode_optional_seal (rc_predecessor c) ++ encode_optional_seal (rc_seal c))).

Definition decode_configuration_state (l : bytes) : result Error RecorderConfiguration :=
  _ ← expect_magic l (lit "QCON") 38 "invalid configuration state";
  body ← split_digest l "configuration digest mismatch";
  '(version, cursor) ← read_u16 body 4%N;
  _ ← reject_if (neqb version CONFIGURATION_STATE_VERSION) (MigrationRequired "QCON" version);
  '(config_id, cursor) ← read_u64 body cursor;
  '(config_digest, cursor) ← read_hash body cursor;
  '(activated, cursor) ← read_flag "invalid activation flag" body cursor;
  '(max_slot, cursor) ← decode_max_slot body cursor;
  '(membership, cursor) ← decode_membership config_digest body cursor;
  '(predecessor, cursor) ← decode_optional_seal body cursor;
  '(seal, cursor) ← decode_optional_seal body cursor;
  _ ← reject_if (neqb cursor (blen body)) (Decode "trailing configuration bytes");
  Ok (mkRecorderConfiguration config_id config_digest membership predecessor seal max_slot activated).

Definition encode_optional_accepted (a : option AcceptedSummary) : result Error bytes :=
  match a with
  | Some a => ballot ← encode_ballot (as_ballot a); Ok ([Byte.x01] ++ ballot ++ encode_value (as_value a))
  | None => Ok [Byte.x00]
  end.
Definition decode_optional_accepted : reader Error (option AcceptedSummary) := λ l cursor,
  '(flag, cursor) ← read_flag "invalid accepted flag" l cursor;
  if flag : bool then
    '(ballot, cursor) ← decode_ballot l cursor;
    '(value, cursor) ← decode_value l cursor;
    Ok (Some (mkAcceptedSummary ballot value), cursor)
  else Ok (None, cursor).

Definition encode_optional_certificate (d : option DecisionCertificate) : result Error bytes :=
  match d with
  | Some d => x ← encode_certificate d; Ok ([Byte.x01] ++ x)
  | None => Ok [Byte.x00]
  end.
Definition decode_optional_certificate : reader Error (option DecisionCertificate) := λ l cursor,
  '(flag, cursor) ← read_flag "invalid decided flag" l cursor;
  if flag : bool then '(d, cursor) ← decode_certificate l cursor; Ok (Some d, cursor) else Ok (None, cursor).

Definition encode_recorder_state (s : RecorderSlotState) : result Error bytes :=
  cluster_id ← put_bytes (ss_cluster_id s);
  promised ← encode_optional_ballot (ss_highest_promised s);
  accepted ← encode_optional_accepted (ss_accepted s);
  decided ← encode_optional_certificate (ss_decided s);
  first_current ← encode_optional_proposal (isr_first_current (ss_isr s));
  aggregate_current ← encode_optional_proposal (isr_aggregate_current (ss_isr s));
  aggregate_prior ← encode_optional_proposal (isr_aggregate_prior (ss_isr s));
  decided_proof ← encode_optional_proof (ss_decided_proof s);
  Ok (with_digest (lit "QREC" ++ put_u16 RECORDER_STATE_VERSION ++ put_u64 (ss_slot s)
    ++ put_u64 (ss_epoch s) ++ put_u64 (ss_config_id s) ++ as_bytes (ss_config_digest s)
    ++ cluster_id ++ promised ++ accepted ++ decided ++ put_u64 (isr_step (ss_isr s))
    ++ first_current ++ aggregate_current ++ aggregate_prior ++ decided_proof)).

(** The checks of [decode_recorder_state] on the decoded fields. *)
Definition accepted_exceeds_promise (s : RecorderSlotState) : bool :=
  option_holds (ss_accepted s) (λ a, ltb (ss_highest_promised s) (Some (as_ballot a))).
Definition certificate_out_of_context (s : RecorderSlotState) : bool :=
  option_holds (ss_decided s) (λ d,
    negb (is_ok (certificate_validate_context d (ss_slot s) (ss_epoch s) (ss_config_id s)
                   (ss_config_digest s)))).
Definition proof_disagrees (s : RecorderSlotState) : bool :=
  option_holds (ss_decided_proof s) (λ proof,
    neqb (proof_context proof) (ss_slot s, ss_epoch s, ss_config_id s, ss_config_digest s)
    || neqb (proof_cluster_id proof) (ss_cluster_id s)
    || negb match ss_decided s, p_value (proof_proposal proof) with
            | Some certificate, Some value => eqb (dc_value certificate) value
            | _, _ => false
            end).

Definition decode_recorder_state (l : bytes) : result Error RecorderSlotState :=
  _ ← expect_magic l (lit "QREC") 38 "invalid recorder magic";
  body ← split_digest l "recorder digest mismatch";
  '(version, cursor) ← read_u16 body 4%N;
  _ ← reject_if (neqb version RECORDER_STATE_VERSION) (MigrationRequired "QREC" version);
  '(slot, cursor) ← read_u64 body cursor;
  '(epoch, cursor) ← read_u64 body cursor;
  '(config_id, cursor) ← read_u64 body cursor;
  '(config_digest, cursor) ← read_hash body cursor;
  '(cluster_id, cursor) ← read_string body cursor;
  '(highest_promised, cursor) ← decode_optional_ballot body cursor;
  '(accepted, cursor) ← decode_optional_accepted body cursor;
  '(decided, cursor) ← decode_optional_certificate body cursor;
  '(step, cursor) ← read_u64 body cursor;
  '(first_current, cursor) ← decode_optional_proposal body cursor;
  '(aggregate_current, cursor) ← decode_optional_proposal body cursor;
  '(aggregate_prior, cursor) ← decode_optional_proposal body cursor;
  '(decided_proof, cursor) ← decode_optional_proof body cursor;
  _ ← reject_if (neqb cursor (blen body)) (Decode "trailing recorder bytes");
  let s := mkSlotState slot cluster_id epoch config_id config_digest highest_promised accepted decided
             (mkIsr step first_current aggregate_current aggregate_prior) decided_proof in
  _ ← reject_if (accepted_exceeds_promise s) (Decode "accepted ballot exceeds promise");
  _ ← reject_if (certificate_out_of_context s) (Decode "invalid decision certificate");
  _ ← reject_if (proof_disagrees s) (Decode "invalid persisted decision proof");
  Ok s.

Definition encode_stored_command (c : StoredCommand) : bytes :=
  with_digest (lit "QCMD" ++ put_u16 1 ++ [EntryType_as_u8 (sc_entry_type c)]
    ++ put_u64 (blen (sc_payload c)) ++ sc_payload c).
Definition decode_stored_command (l : bytes) : result Error StoredCommand :=
  _ ← expect_magic l (lit "QCMD") 47 "invalid command magic";
  body ← split_digest l "command digest mismatch";
  '(version, cursor) ← read_u16 body 4%N;
  _ ← reject_if (neqb version 1%N) (Decode "unsupported command version");
  '(tag, cursor) ← read_u8 body cursor;
  entry_type ← ok_or (EntryType_from_u8 tag) (Decode "invalid command entry type");
  '(payload_len, cursor) ← read_u64 body cursor;
  '(payload, cursor) ← read_slice payload_len "command payload length overflow"
                         "short command payload" body cursor;
  _ ← reject_if (neqb cursor (blen body)) (Decode "trailing command bytes");
  Ok (mkStoredCommand entry_type payload).

(** *** Intents *)

Definition encode_transition_intent (slot : N) (slot_bytes configuration_bytes : bytes) :
    result Error bytes :=
  x ← put_bytes slot_bytes;
  y ← put_bytes configuration_bytes;
  Ok (with_digest (lit "QINT" ++ put_u16 1 ++ put_u64 slot ++ x ++ y)).
Definition decode_transition_intent (l : bytes) : result Error (N * bytes * bytes) :=
  _ ← expect_magic l (lit "QINT") 38 "invalid transition intent";
  body ← split_digest l "transition intent digest mismatch";
  '(version, cursor) ← read_u16 body 4%N;
  _ ← reject_if (neqb version 1%N) (Decode "unsupported transition intent version");
  '(slot, cursor) ← read_u64 body cursor;
  '(slot_bytes, cursor) ← read_bytes body cursor;
  '(configuration_bytes, cursor) ← read_bytes body cursor;
  _ ← reject_if (neqb cursor (blen body)) (Decode "trailing transition intent bytes");
  Ok (slot, slot_bytes, configuration_bytes).

Definition encode_configuration_head_intent (configuration head : bytes) : bytes :=
  CONFIGURATION_HEAD_INTENT_MAGIC ++ put_u16 1 ++ put_u64 (blen configuration) ++ configuration
  ++ put_u64 (blen head) ++ head.
Definition decode_configuration_head_intent (l : bytes) : result Error (bytes * bytes) :=
  _ ← reject_if (neqb (slice l 0 4) (Some CONFIGURATION_HEAD_INTENT_MAGIC))
        (Decode "invalid configuration-head intent magic");
  '(version, cursor) ← read_u16 l 4%N;
  _ ← reject_if (neqb version 1%N) (Decode "unsupported configuration-head intent version");
  let overflow := "configuration-head intent length overflow"%string in
  '(configuration_len, cursor) ← read_u64 l cursor;
  '(configuration, cursor) ← read_slice configuration_len overflow
                               "truncated configuration-head intent" l cursor;
  '(head_len, cursor) ← read_u64 l cursor;
  '(head, cursor) ← read_slice head_len overflow "truncated configuration-head intent" l cursor;
  _ ← reject_if (neqb cursor (blen l)) (Decode "trailing configuration-head intent bytes");
  Ok (configuration, head).

(** *** The write-ahead log *)

Definition encode_frame_command (command : option (LogHash * StoredCommand)) : result Error bytes :=
  match command with
  | Some (hash, command) =>
      x ← put_blob (encode_stored_command command); Ok ([Byte.x01] ++ as_bytes hash ++ x)
  | None => Ok [Byte.x00]
  end.

(** The frame, its digest and the slot's bytes; [checked_add] of the parts of
    the length cannot fail on a vector that exists. *)
Definition encode_wal_frame (generation sequence : N) (prev_digest : LogHash)
    (slot_state : RecorderSlotState) (configuration : RecorderConfiguration)
    (head : RecordedHeadProvenance) (command : option (LogHash * StoredCommand)) :
    result Error (bytes * LogHash * bytes) :=
  slot_bytes ← encode_recorder_state slot_state;
  configuration_bytes ← encode_configuration_state configuration;
  slot_blob ← put_blob slot_bytes;
  configuration_blob ← put_blob configuration_bytes;
  command_bytes ← encode_frame_command command;
  let payload := put_u64 generation ++ put_u64 sequence ++ as_bytes prev_digest
    ++ put_u64 (ss_slot slot_state) ++ slot_blob ++ configuration_blob
    ++ encode_head_provenance head ++ command_bytes in
  total_len ← ok_or (checked_add 14 (blen payload) ≫= λ len, checked_add len 32)
                (Io "recorder WAL frame length overflow");
  let frame := RECORDER_WAL_MAGIC ++ put_u16 RECORDER_WAL_VERSION ++ put_u64 total_len ++ payload in
  Ok (with_digest frame, digest [frame], slot_bytes).

Definition decode_frame_command : reader Error (option (LogHash * StoredCommand)) := λ l cursor,
  '(flag, cursor) ← read_flag "recorder WAL command flag is invalid" l cursor;
  if flag : bool then
    '(hash, cursor) ← read_hash l cursor;
    '(blob, cursor) ← read_blob l cursor;
    command ← decode_stored_command blob;
    Ok (Some (hash, command), cursor)
  else Ok (None, cursor).

(** [None]: the file ends inside the frame. *)
Definition decode_wal_frame (l : bytes) (offset : N) : result Error (option (WalFrame * N)) :=
  remaining ← ok_or (slice l offset (blen l)) (Decode "recorder WAL offset overflow");
  if (blen remaining <? 14)%N then Ok None
  else
    _ ← reject_if (neqb (slice remaining 0 4) (Some RECORDER_WAL_MAGIC))
          (Decode "recorder WAL frame magic mismatch");
    '(version, cursor) ← read_u16 l (offset + 4)%N;
    _ ← reject_if (neqb version RECORDER_WAL_VERSION) (Decode "recorder WAL frame version mismatch");
    '(frame_len, cursor) ← read_u64 l cursor;
    _ ← reject_if (frame_len <? 46)%N (Decode "recorder WAL frame length is invalid");
    end_ ← ok_or (checked_add offset frame_len) (Decode "recorder WAL frame length overflow");
    if (blen l <? end_)%N then Ok None
    else
      let digest_offset := (end_ - 32)%N in
      '(stored, _) ← read_hash l digest_offset;
      _ ← reject_if (neqb stored (digest [index_range l offset digest_offset]))
            (Decode "recorder WAL frame checksum mismatch");
      '(generation, cursor) ← read_u64 l cursor;
      '(sequence, cursor) ← read_u64 l cursor;
      '(prev_digest, cursor) ← read_hash l cursor;
      '(slot, cursor) ← read_u64 l cursor;
      '(slot_bytes, cursor) ← read_blob l cursor;
      '(configuration_bytes, cursor) ← read_blob l cursor;
      '(head, cursor) ← decode_head_provenance l cursor;
      '(command, cursor) ← decode_frame_command l cursor;
      _ ← reject_if (neqb cursor digest_offset) (Decode "recorder WAL frame has trailing bytes");
      Ok (Some (mkWalFrame generation sequence prev_digest stored slot slot_bytes configuration_bytes
                  head command, end_)).

(** *** The recorded head *)

Definition encode_snapshot (s : DurableSlotSnapshot) : result Error bytes :=
  x ← put_bytes (dss_bytes s); Ok (put_u64 (dss_slot s) ++ x).
Definition encode_recorded_head (cluster_id : bytes) (epoch : N) (c : RecorderConfiguration)
    (head : RecordedHeadProvenance) (recent_slots : list DurableSlotSnapshot)
    (checkpoint : WalCheckpoint) : result Error bytes :=
  _ ← reject_if (2 <? length recent_slots)
        (Io "recorder manifest can retain at most two slot snapshots");
  cluster ← put_bytes cluster_id;
  snapshots ← put_all encode_snapshot recent_slots;
  Ok (with_digest (RECORDED_HEAD_MAGIC ++ put_u16 RECORDED_HEAD_VERSION ++ cluster ++ put_u64 epoch
    ++ put_u64 (rc_config_id c) ++ as_bytes (rc_config_digest c) ++ encode_head_provenance head
    ++ put_u64 (wc_generation checkpoint) ++ put_u64 (wc_through_sequence checkpoint)
    ++ put_u16 (N.of_nat (length recent_slots)) ++ snapshots)).

Fixpoint decode_snapshots (n : nat) (seen : list DurableSlotSnapshot) :
    reader Error (list DurableSlotSnapshot) := λ l cursor,
  match n with
  | O => Ok (seen, cursor)
  | S n =>
      '(slot, cursor) ← read_u64 l cursor;
      _ ← reject_if (existsb (λ s, eqb (dss_slot s) slot) seen)
            (Decode "recorder manifest contains duplicate slot snapshots");
      '(slot_bytes, cursor) ← read_bytes l cursor;
      decode_snapshots n (seen ++ [mkSnapshot slot slot_bytes]) l cursor
  end.
Definition decode_recorded_head (l expected_cluster_id : bytes) (expected_epoch : N)
    (c : RecorderConfiguration) :
    result Error (RecordedHeadProvenance * list DurableSlotSnapshot * WalCheckpoint) :=
  _ ← reject_if (neqb (slice l 0 4) (Some RECORDED_HEAD_MAGIC))
        (Decode "invalid recorder durable head magic");
  '(version, _) ← read_u16 l 4%N;
  _ ← reject_if (neqb version RECORDED_HEAD_VERSION)
        (MigrationRequired "recorder durable head" RECORDED_HEAD_VERSION);
  _ ← reject_if (blen l <? 32)%N (Decode "truncated recorder durable head");
  body ← split_digest l "recorder durable head digest mismatch";
  '(_, cursor) ← read_u16 body 4%N;
  '(cluster_id, cursor) ← read_string body cursor;
  '(epoch, cursor) ← read_u64 body cursor;
  '(config_id, cursor) ← read_u64 body cursor;
  '(config_digest, cursor) ← read_hash body cursor;
  _ ← reject_if (neqb cluster_id expected_cluster_id || neqb epoch expected_epoch
        || neqb config_id (rc_config_id c) || neqb config_digest (rc_config_digest c))
        (Decode "recorder durable head identity mismatch");
  '(provenance, cursor) ← decode_provenance "invalid recorder durable head provenance" body cursor;
  '(generation, cursor) ← read_u64 body cursor;
  '(through_sequence, cursor) ← read_u64 body cursor;
  _ ← reject_if (generation =? 0)%N (Decode "recorder durable head has zero WAL generation");
  '(recent_count, cursor) ← read_u16 body cursor;
  _ ← reject_if (2 <? recent_count)%N (Decode "recorder manifest contains too many slot snapshots");
  '(recent_slots, cursor) ← decode_snapshots (N.to_nat recent_count) [] body cursor;
  _ ← reject_if (neqb cursor (blen body)) (Decode "trailing recorder durable head bytes");
  Ok (provenance, recent_slots, mkWalCheckpoint generation through_sequence).
End files.

Arguments encode_configuration_state : simpl never.
Arguments decode_configuration_state : simpl never.
Arguments encode_recorder_state : simpl never.
Arguments decode_recorder_state : simpl never.
Arguments encode_stored_command : simpl never.
Arguments decode_stored_command : simpl never.
Arguments encode_transition_intent : simpl never.
Arguments encode_wal_frame : simpl never.
Arguments encode_recorded_head : simpl never.

(** ** Round trips *)

(** *** Values of the Rust types *)

Definition is_u128 (n : N) : bool := (n <=? 2 ^ 128 - 1)%N.
Definition opt_all {A} (f : A → bool) (o : option A) : bool :=
  match o with Some a => f a | None => true end.

Definition ballot_typed (b : Ballot) : bool :=
  is_u64 (b_round b) && is_u128 (b_priority b) && is_str (b_proposer_id b).
Definition proposal_typed (p : Proposal) : bool :=
  is_str (p_proposer_id p) && is_u64 (p_proposal_id p).
Definition summary_typed (s : RecorderSummary) : bool :=
  is_str (rs_recorder_id s) && is_u64 (rs_slot s) && is_u64 (rs_step s)
  && opt_all proposal_typed (rs_first_current s) && opt_all proposal_typed (rs_aggregate_prior s).
Definition proof_typed (d : DecisionProof) : bool :=
  let '(slot, epoch, config_id, _) := proof_context d in
  is_str (proof_cluster_id d) && is_u64 slot && is_u64 epoch && is_u64 config_id
  && is_u64 (proof_step d) && proposal_typed (proof_proposal d)
  && forallb summary_typed (proof_summaries d).
Definition certificate_typed (d : DecisionCertificate) : bool :=
  is_u64 (dc_slot d) && is_u64 (dc_epoch d) && is_u64 (dc_config_id d)
  && ballot_typed (dc_ballot d) && forallb is_str (dc_recorder_ids d).
Definition isr_typed (i : IsrState) : bool :=
  is_u64 (isr_step i) && opt_all proposal_typed (isr_first_current i)
  && opt_all proposal_typed (isr_aggregate_current i) && opt_all proposal_typed (isr_aggregate_prior i).
Definition slot_typed (s : RecorderSlotState) : bool :=
  is_u64 (ss_slot s) && is_str (ss_cluster_id s) && is_u64 (ss_epoch s) && is_u64 (ss_config_id s)
  && opt_all ballot_typed (ss_highest_promised s) && opt_all (ballot_typed ∘ as_ballot) (ss_accepted s)
  && opt_all certificate_typed (ss_decided s) && isr_typed (ss_isr s)
  && opt_all proof_typed (ss_decided_proof s).
Definition seal_typed (s : ConfigurationSeal) : bool := is_u64 (cs_stop_slot s).
Definition head_typed (h : RecordedHeadProvenance) : bool :=
  match h with
  | HeadEmpty => true
  | SlotBacked slot => is_u64 slot
  | CheckpointBacked stop_slot _ tip _ => is_u64 stop_slot && is_u64 tip
  end.

(** *** Fields *)

Lemma reads_slice m overflow short : reads (read_slice (blen m) overflow short) m m.
Proof.
  intros p s Hl. unfold read_slice. rewrite !blen_app in Hl.
  assert (checked_add (blen p) (blen m) = Some (blen p + blen m)%N) as ->.
  { apply checked_add_Some. lia. }
  cbn. by rewrite slice_app.
Qed.
Lemma reads_u8 b : reads read_u8 [b] b.
Proof. intros p s _. unfold read_u8. cbn [app]. by rewrite byte_at_app. Qed.
Lemma reads_conv {A} (rd : reader Error A) (k : nat) overflow short n :
  (n < 256 ^ N.of_nat k)%N →
  reads (λ l c, '(m, c) ← read_slice (N.of_nat k) overflow short l c; Ok (be_value m, c)) (be_bytes k n) n.
Proof.
  intros Hn p s Hl. rewrite <-(blen_be_bytes k n) at 1. rewrite reads_slice by done. cbn.
  by rewrite be_value_bytes.
Qed.
Lemma reads_u16 n : is_u16 n = true → reads read_u16 (put_u16 n) n.
Proof. intros Hn%N.leb_le. apply (reads_conv read_u16 2). unfold u16_max in Hn. cbn. lia. Qed.
Lemma reads_u64 n : is_u64 n = true → reads read_u64 (put_u64 n) n.
Proof. intros Hn%N.leb_le. apply (reads_conv read_u64 8). unfold u64_max in Hn. cbn. lia. Qed.
Lemma reads_u128 n : is_u128 n = true → reads read_u128 (put_u128 n) n.
Proof. intros Hn%N.leb_le. apply (reads_conv read_u128 16). cbn in *. lia. Qed.
Lemma reads_hash h : reads read_hash (as_bytes h) h.
Proof.
  intros p s Hl. unfold read_hash. rewrite <-(blen_as_bytes h) at 1. rewrite reads_slice by done.
  cbn. by rewrite array32_of_as_bytes.
Qed.
Lemma reads_priority h : reads read_priority (as_bytes h) h.
Proof.
  intros p s Hl. unfold read_priority. rewrite <-(blen_as_bytes h) at 1. rewrite reads_slice by done.
  cbn. by rewrite array32_of_as_bytes.
Qed.
#[export] Hint Resolve reads_u8 reads_u16 reads_u64 reads_u128 reads_hash reads_priority reads_slice : codec.

(** [reading] turns a goal [reads rd enc a] into a run of [rd] on a buffer whose
    layout is known, [read_done] compares the final cursor. *)
Ltac reading :=
  match goal with
  | |- reads _ ?enc _ =>
      let p := fresh "p" in let s := fresh "s" in let Hl := fresh "Hl" in
      intros p s Hl; pose proof (at_pos_start p enc s) as Hat;
      let l := fresh "l" in set (l := p ++ enc ++ s) in *; rewrite <-?app_assoc in Hat
  end.
Ltac read_done := f_equal; f_equal; unfold put_u16, put_u64, put_u128; blen_lia.

Lemma reads_bytes v e : put_bytes v = Ok e → reads read_bytes e v.
Proof.
  unfold put_bytes. intros He. res_inv. bool_prop. reading. unfold read_bytes. read_next.
  destruct Hat as (q & Hq & Hc). rewrite Hc, Hq, reads_slice by (by rewrite <-Hq). rewrite <-Hc. read_done.
Qed.
Lemma reads_blob v e : put_blob v = Ok e → reads read_blob e v.
Proof.
  unfold put_blob. intros He. res_inv. bool_prop. reading. unfold read_blob. read_next.
  destruct Hat as (q & Hq & Hc). rewrite Hc, Hq, reads_slice by (by rewrite <-Hq). rewrite <-Hc. read_done.
Qed.
#[export] Hint Resolve reads_bytes reads_blob : codec.

Lemma reads_string v e : put_bytes v = Ok e → is_str v = true → reads read_string e v.
Proof.
  intros He Hv p s Hl. unfold read_string. rewrite (reads_bytes _ _ He) by done. cbn.
  unfold from_utf8. by rewrite Hv.
Qed.
#[export] Hint Resolve reads_string : codec.

Lemma reads_put_all {A} (put : A → result Error bytes) (rd : reader Error A) (f : A → bool) l e :
  (∀ a x, put a = Ok x → f a = true → reads rd x a) →
  put_all put l = Ok e → forallb f l = true → reads (read_many rd (length l)) e l.
Proof.
  intros Hrd. revert e. induction l as [|a l IH]; intros e He Hf; cbn in He, Hf |- *; res_inv.
  - apply reads_ret.
  - apply andb_true_iff in Hf as [Ha Hl]. pose proof (Hrd _ _ Hok Ha). pose proof (IH _ Hok0 Hl).
    reading. do 2 read_next. read_done.
Qed.

Lemma decode_ballot_reads b e :
  encode_ballot b = Ok e → ballot_typed b = true → reads decode_ballot e b.
Proof.
  unfold encode_ballot, ballot_typed. intros He Ht. res_inv. bool_prop. destruct Ht as [[? ?] ?].
  reading. unfold decode_ballot. do 3 read_next. destruct b; read_done.
Qed.
#[export] Hint Resolve decode_ballot_reads : codec.

Lemma decode_optional_ballot_reads b e :
  encode_optional_ballot b = Ok e → opt_all ballot_typed b = true → reads decode_optional_ballot e b.
Proof.
  unfold encode_optional_ballot. destruct b as [b|]; cbn [opt_all]; intros He Ht; res_inv.
  - reading. unfold decode_optional_ballot. do 2 read_next. read_done.
  - reading. unfold decode_optional_ballot. read_next. read_done.
Qed.

Lemma decode_value_reads v : reads decode_value (encode_value v) v.
Proof.
  unfold encode_value. reading. unfold decode_value. do 3 read_next. destruct v; read_done.
Qed.
#[export] Hint Resolve decode_optional_ballot_reads decode_value_reads : codec.

Lemma decode_proposal_value_reads v : reads decode_proposal_value (encode_proposal_value v) v.
Proof.
  destruct v as [v|]; unfold encode_proposal_value.
  - reading. unfold decode_proposal_value. do 2 read_next. read_done.
  - reading. unfold decode_proposal_value. read_next. read_done.
Qed.
#[export] Hint Resolve decode_proposal_value_reads : codec.

Lemma decode_optional_proposal_reads o e :
  encode_optional_proposal o = Ok e → opt_all proposal_typed o = true →
  reads decode_optional_proposal e o.
Proof.
  unfold encode_optional_proposal, proposal_typed.
  destruct o as [q|]; cbn [opt_all]; intros He Ht; res_inv.
  - bool_prop. destruct Ht. reading. unfold decode_optional_proposal. do 5 read_next.
    destruct q; read_done.
  - reading. unfold decode_optional_proposal. read_next. read_done.
Qed.
#[export] Hint Resolve decode_optional_proposal_reads : codec.

Lemma decode_summary_reads q e :
  encode_summary q = Ok e → summary_typed q = true → reads decode_summary e q.
Proof.
  unfold encode_summary, summary_typed. intros He Ht. res_inv.
  bool_prop. destruct Ht as [[[[? ?] ?] ?] ?].
  reading. unfold decode_summary. do 5 read_next. destruct q; read_done.
Qed.

Lemma decode_optional_proof_reads d e :
  encode_optional_proof d = Ok e → opt_all proof_typed d = true → reads decode_optional_proof e d.
Proof.
  unfold encode_optional_proof, proof_typed. destruct d as [d|]; cbn [opt_all]; intros He Ht; res_inv.
  2:{ reading. unfold decode_optional_proof. read_next. rewrite eqb_refl. read_done. }
  destruct (proof_context d) as [[[slot epoch] config_id] digest_] eqn:Hctx. res_inv. bool_prop.
  destruct Ht as [[[[[[? ?] ?] ?] ?] ?] Hs].
  pose proof (reads_put_all _ _ _ _ _ decode_summary_reads Hok2 Hs) as Hmany.
  assert (opt_all proposal_typed (Some (proof_proposal d)) = true) by done.
  reading. unfold decode_optional_proof. read_next.
  assert (eqb (proof_tag d) Byte.x00 = false) as -> by (by destruct d).
  do 7 read_next. cbn [ok_or mbind result_bind]. read_next. rewrite Nat2N.id. read_next.
  destruct d; cbn in Hctx; injection Hctx as <- <- <- <-; unfold proof_tag; cbn [proof_fast];
    [change (proof_step _ =? 4)%N with true|]; read_done.
Qed.

Lemma decode_certificate_reads d e :
  encode_certificate d = Ok e → certificate_typed d = true → reads decode_certificate e d.
Proof.
  unfold encode_certificate, certificate_typed. intros He Ht. res_inv.
  bool_prop. destruct Ht as [[[[? ?] ?] ?] Hs].
  pose proof (reads_put_all _ _ _ _ _ reads_string Hok1 Hs) as Hmany.
  reading. unfold decode_certificate. do 7 read_next. rewrite Nat2N.id. read_next.
  destruct d; read_done.
Qed.
#[export] Hint Resolve decode_optional_proof_reads decode_certificate_reads : codec.

Lemma read_flag_reads message (b : bool) : reads (read_flag message) [if b then Byte.x01 else Byte.x00] b.
Proof. reading. unfold read_flag. read_next. destruct b; read_done. Qed.
Lemma read_flag_true message : reads (read_flag message) [Byte.x01] true.
Proof. apply (read_flag_reads message true). Qed.
Lemma read_flag_false message : reads (read_flag message) [Byte.x00] false.
Proof. apply (read_flag_reads message false). Qed.
#[export] Hint Resolve read_flag_reads read_flag_true read_flag_false : codec.

Lemma decode_optional_accepted_reads a e :
  encode_optional_accepted a = Ok e → opt_all (ballot_typed ∘ as_ballot) a = true →
  reads decode_optional_accepted e a.
Proof.
  unfold encode_optional_accepted. destruct a as [a|]; cbn [opt_all]; intros He Ht; res_inv.
  - change (ballot_typed (as_ballot a) = true) in Ht. reading. unfold decode_optional_accepted.
    do 3 read_next. destruct a; read_done.
  - reading. unfold decode_optional_accepted. read_next. read_done.
Qed.
Lemma decode_optional_certificate_reads d e :
  encode_optional_certificate d = Ok e → opt_all certificate_typed d = true →
  reads decode_optional_certificate e d.
Proof.
  unfold encode_optional_certificate. destruct d as [d|]; cbn [opt_all]; intros He Ht; res_inv.
  - reading. unfold decode_optional_certificate. do 2 read_next. read_done.
  - reading. unfold decode_optional_certificate. read_next. read_done.
Qed.
Lemma decode_max_slot_reads o : opt_all is_u64 o = true → reads decode_max_slot (encode_max_slot o) o.
Proof.
  destruct o as [n|]; cbn [opt_all]; intros Ht; unfold encode_max_slot.
  - reading. unfold decode_max_slot. do 2 read_next. read_done.
  - reading. unfold decode_max_slot. read_next. read_done.
Qed.
Lemma decode_optional_seal_reads o :
  opt_all seal_typed o = true → reads decode_optional_seal (encode_optional_seal o) o.
Proof.
  destruct o as [q|]; cbn [opt_all]; unfold seal_typed; intros Ht; unfold encode_optional_seal.
  - reading. unfold decode_optional_seal. do 4 read_next. destruct q; read_done.
  - reading. unfold decode_optional_seal. read_next. read_done.
Qed.
Lemma decode_provenance_reads message h :
  head_typed h = true → reads (decode_provenance message) (encode_head_provenance h) h.
Proof.
  destruct h as [|slot|a b c d]; cbn [head_typed]; intros Ht; unfold encode_head_provenance.
  - reading. unfold decode_provenance. read_next. read_done.
  - reading. unfold decode_provenance. do 2 read_next. read_done.
  - bool_prop. destruct Ht. reading. unfold decode_provenance. do 5 read_next. read_done.
Qed.
#[export] Hint Resolve decode_optional_accepted_reads decode_optional_certificate_reads
  decode_max_slot_reads decode_optional_seal_reads decode_provenance_reads : codec.

Section roundtrips.
Context `{Sha256}.

(** *** Closing digest and magic *)

Lemma split_digest_with_digest out mismatch : split_digest (with_digest out) mismatch = Ok out.
Proof.
  unfold split_digest, with_digest. rewrite length_app, length_as_bytes.
  replace (length out + 32 - 32) with (length out) by lia.
  rewrite take_app_length, drop_app_length, neqb_refl. done.
Qed.

Lemma blen_with_digest out : blen (with_digest out) = (blen out + 32)%N.
Proof. unfold with_digest. by rewrite blen_app, blen_as_bytes. Qed.

Lemma expect_magic_Ok (magic rest : bytes) minimum message :
  blen magic = 4%N → (minimum ≤ 36 + blen rest)%N →
  expect_magic (with_digest (magic ++ rest)) magic minimum message = Ok ().
Proof.
  intros Hm Hmin. unfold expect_magic. rewrite blen_with_digest, blen_app, Hm.
  destruct (N.ltb_spec (4 + blen rest + 32) minimum); [lia|]. cbn [orb].
  unfold with_digest. rewrite <-app_assoc, <-Hm, slice_prefix, neqb_refl. done.
Qed.

(** [decoding] runs the checks that start the decoder of a file and exposes the
    layout of its body after the magic. *)
Ltac decoding magic :=
  match goal with
  | Hl : (blen (with_digest (_ ++ ?rest)) ≤ u64_max)%N |- _ =>
      rewrite (expect_magic_Ok (lit magic) rest) by (first [done | unfold put_u16, put_u64; blen_lia]);
      rewrite split_digest_with_digest; cbn [mbind result_bind];
      rewrite blen_with_digest in Hl;
      let Hbody := fresh "Hl" in
      assert (blen (lit magic ++ rest) ≤ u64_max)%N as Hbody by lia;
      assert (at_pos (lit magic ++ rest) 4 (rest ++ [])) as Hat
        by (rewrite app_nil_r; by exists (lit magic));
      let body := fresh "body" in set (body := lit magic ++ rest) in *;
      rewrite <-?app_assoc in Hat
  end.
(** [read_end] closes the check for trailing bytes. *)
Ltac read_end :=
  match goal with
  | Hat : at_pos ?l ?c [] |- _ =>
      rewrite (at_pos_end l c Hat), neqb_refl;
      cbn [reject_if mbind result_bind]
  end.

Definition membership_typed (c : RecorderConfiguration) : Prop :=
  match rc_membership c with
  | Some m => membership_wf m ∧ forallb is_str (m_members m) = true ∧ m_digest m = rc_config_digest c
  | None => True
  end.
(** A configuration as the recorder holds it. *)
Definition configuration_typed (c : RecorderConfiguration) : Prop :=
  is_u64 (rc_config_id c) && opt_all is_u64 (rc_max_slot c) && opt_all seal_typed (rc_predecessor c)
    && opt_all seal_typed (rc_seal c) = true
  ∧ membership_typed c.

Lemma from_voters_members (m : Membership) :
  membership_wf m → from_voters (m_members m) = Ok m.
Proof.
  intros Hwf. pose proof (membership_wf_inv m Hwf) as [Hlen _].
  pose proof Hwf as (Hc & Hn & Ha & _)%canonical_digest_Ok.
  unfold from_voters, from_members. rewrite Hc.
  destruct (Nat.eqb_spec (length (m_members m)) 0); [lia|].
  assert (existsb (λ m, (blen m =? 0)%N) (m_members m) = false) as ->.
  { apply existsb_false. intros x Hx. rewrite Forall_forall in Hn. apply Hn in Hx. apply N.eqb_neq. lia. }
  cbn [negb reject_if mbind result_bind]. rewrite (canonical_sorted _ Ha), Nat.eqb_refl.
  cbn [negb reject_if mbind result_bind]. unfold membership_wf in Hwf. rewrite Hwf. by destruct m.
Qed.

Lemma decode_membership_reads c e :
  encode_membership (rc_membership c) = Ok e → membership_typed c →
  reads (decode_membership (rc_config_digest c)) e (rc_membership c).
Proof.
  unfold encode_membership, membership_typed. destruct (rc_membership c) as [m|]; intros He Ht; res_inv.
  2:{ reading. unfold decode_membership. read_next.
      change (Byte.to_N Byte.x00 =? 0)%N with true. read_done. }
  destruct Ht as (Hwf & Hs & <-). pose proof (membership_wf_inv m Hwf) as [Hlen _].
  pose proof (reads_put_all _ _ _ _ _ reads_string Hok Hs) as Hmany.
  reading. unfold decode_membership. read_next.
  assert (Byte.to_N (byte_of_N (N.of_nat (length (m_members m)))) = N.of_nat (length (m_members m))) as ->.
  { rewrite to_N_of_N. apply N.mod_small. lia. }
  destruct (N.eqb_spec (N.of_nat (length (m_members m))) 0); [lia|].
  rewrite Nat2N.id. read_next. rewrite from_voters_members by done. cbn [mbind result_bind].
  rewrite neqb_refl. cbn [reject_if mbind result_bind]. read_done.
Qed.
#[local] Hint Resolve decode_membership_reads : codec.

Lemma configuration_reads c e :
  configuration_typed c → encode_configuration_state c = Ok e → (blen e ≤ u64_max)%N →
  decode_configuration_state e = Ok c.
Proof.
  intros [Ht Hm] He Hl. unfold encode_configuration_state in He. res_inv. bool_prop.
  destruct Ht as [[[? ?] ?] ?]. unfold decode_configuration_state. decoding "QCON".
  read_next. rewrite neqb_refl. cbn [reject_if mbind result_bind]. do 6 read_next.
  read_next. read_end. by destruct c.
Qed.

(** What a recorder writes to its configuration file it reads back: every
    configuration with a canonical membership that encodes decodes to itself. *)
Theorem configuration_state_roundtrip (c : RecorderConfiguration) (e : bytes) :
  configuration_typed c → encode_configuration_state c = Ok e → (blen e ≤ u64_max)%N →
  decode_configuration_state e = Ok c.
Proof. apply configuration_reads. Qed.

(** A slot state that the checks of the decoder let through. *)
Definition slot_consistent (s : RecorderSlotState) : Prop :=
  accepted_exceeds_promise s = false ∧ certificate_out_of_context s = false ∧ proof_disagrees s = false.

Lemma recorder_state_reads s e :
  slot_typed s = true → slot_consistent s → encode_recorder_state s = Ok e → (blen e ≤ u64_max)%N →
  decode_recorder_state e = Ok s.
Proof.
  intros Ht (Ha & Hc & Hp) He Hl. unfold encode_recorder_state in He. res_inv.
  unfold slot_typed, isr_typed in Ht. bool_prop.
  destruct Ht as [[[[[[[[? ?] ?] ?] ?] ?] ?] [[[? ?] ?] ?]] ?].
  unfold decode_recorder_state. decoding "QREC".
  read_next. rewrite neqb_refl. cbn [reject_if mbind result_bind]. do 13 read_next. read_end.
  destruct s as [sl cl ep ci cd hp ac de [st fc agc agp] dp].
  cbn [ss_slot ss_cluster_id ss_epoch ss_config_id ss_config_digest ss_highest_promised ss_accepted
       ss_decided ss_isr ss_decided_proof isr_step isr_first_current isr_aggregate_current
       isr_aggregate_prior].
  by rewrite Ha, Hc, Hp.
Qed.

Lemma stored_command_reads c :
  (blen (encode_stored_command c) ≤ u64_max)%N → decode_stored_command (encode_stored_command c) = Ok c.
Proof.
  intros Hl. unfold decode_stored_command, encode_stored_command in *.
  assert (is_u64 (blen (sc_payload c)) = true) as Hp.
  { apply N.leb_le. rewrite blen_with_digest in Hl. unfold put_u16, put_u64 in Hl. blen_lia. }
  decoding "QCMD".
  read_next. rewrite neqb_refl. cbn [reject_if mbind result_bind]. read_next.
  rewrite EntryType_from_as_u8. cbn [ok_or mbind result_bind]. do 2 read_next. read_end. by destruct c.
Qed.

Lemma transition_intent_reads slot x y e :
  is_u64 slot = true → encode_transition_intent slot x y = Ok e → (blen e ≤ u64_max)%N →
  decode_transition_intent e = Ok (slot, x, y).
Proof.
  intros Ht He Hl. unfold encode_transition_intent in He. res_inv.
  unfold decode_transition_intent. decoding "QINT".
  read_next. rewrite neqb_refl. cbn [reject_if mbind result_bind]. do 3 read_next. by read_end.
Qed.

Lemma configuration_head_intent_reads x y :
  (blen (encode_configuration_head_intent x y) ≤ u64_max)%N →
  decode_configuration_head_intent (encode_configuration_head_intent x y) = Ok (x, y).
Proof.
  intros Hl. unfold decode_configuration_head_intent.
  assert (is_u64 (blen x) = true ∧ is_u64 (blen y) = true) as [? ?].
  { unfold is_u64. rewrite !N.leb_le. unfold encode_configuration_head_intent, put_u64 in Hl. blen_lia. }
  assert (at_pos (encode_configuration_head_intent x y) 4
    ((put_u16 1 ++ put_u64 (blen x) ++ x ++ put_u64 (blen y) ++ y) ++ [])) as Hat.
  { rewrite app_nil_r. by exists CONFIGURATION_HEAD_INTENT_MAGIC. }
  assert (slice (encode_configuration_head_intent x y) 0 4 = Some CONFIGURATION_HEAD_INTENT_MAGIC) as ->.
  { apply (slice_prefix CONFIGURATION_HEAD_INTENT_MAGIC). }
  rewrite neqb_refl. cbn [reject_if mbind result_bind].
  set (l := encode_configuration_head_intent x y) in *. rewrite <-?app_assoc in Hat.
  read_next. rewrite neqb_refl. cbn [reject_if mbind result_bind]. do 4 read_next. by read_end.
Qed.

Lemma put_blob_length v e : put_blob v = Ok e → (blen v ≤ u64_max)%N.
Proof. unfold put_blob. intros He. res_inv. bool_prop. by apply N.leb_le. Qed.

Lemma frame_command_length o e :
  encode_frame_command o = Ok e → ∀ h c, o = Some (h, c) → (blen (encode_stored_command c) ≤ u64_max)%N.
Proof.
  unfold encode_frame_command. destruct o as [[h c]|]; intros He; [|done]. intros ? ? [= <- <-].
  apply bind_Ok_inv in He as (x & Hx & _). by eapply put_blob_length.
Qed.

Lemma decode_frame_command_reads o e :
  encode_frame_command o = Ok e → reads decode_frame_command e o.
Proof.
  unfold encode_frame_command. destruct o as [[h c]|]; intros He; res_inv.
  - pose proof (put_blob_length _ _ Hok) as Hb%stored_command_reads.
    generalize dependent (encode_stored_command c). intros blob Hblob Hb.
    reading. unfold decode_frame_command. do 3 read_next. rewrite Hb. cbn [mbind result_bind]. read_done.
  - reading. unfold decode_frame_command. read_next. read_done.
Qed.
#[local] Hint Resolve decode_frame_command_reads : codec.

Lemma wal_frame_length v total payload :
  blen (RECORDER_WAL_MAGIC ++ put_u16 v ++ put_u64 total ++ payload) = (14 + blen payload)%N.
Proof.
  unfold put_u16, put_u64. rewrite !blen_app, !blen_be_bytes.
  change (blen RECORDER_WAL_MAGIC) with 4%N. lia.
Qed.

(** The header of a frame in a file: [decode_wal_frame] up to the checksum. *)
Lemma decode_wal_frame_header (p s payload : bytes) (total : N) :
  total = (14 + blen payload + 32)%N →
  let frame := RECORDER_WAL_MAGIC ++ put_u16 RECORDER_WAL_VERSION ++ put_u64 total ++ payload in
  let l := p ++ with_digest frame ++ s in
  (blen l ≤ u64_max)%N →
  decode_wal_frame l (blen p) =
    '(generation, cursor) ← read_u64 l (blen p + 14)%N;
    '(sequence, cursor) ← read_u64 l cursor;
    '(prev_digest, cursor) ← read_hash l cursor;
    '(slot, cursor) ← read_u64 l cursor;
    '(slot_bytes, cursor) ← read_blob l cursor;
    '(configuration_bytes, cursor) ← read_blob l cursor;
    '(head, cursor) ← decode_head_provenance l cursor;
    '(command, cursor) ← decode_frame_command l cursor;
    _ ← reject_if (neqb cursor (blen p + 14 + blen payload)%N)
          (Decode "recorder WAL frame has trailing bytes");
    Ok (Some (mkWalFrame generation sequence prev_digest (digest [frame]) slot slot_bytes
                configuration_bytes head command, blen p + total)%N).
Proof.
  intros Ht frame l Hl.
  assert (blen frame = 14 + blen payload)%N as Hf.
  { apply wal_frame_length. }
  assert (blen l = blen p + total + blen s)%N as Hlen.
  { unfold l. rewrite !blen_app, blen_with_digest. lia. }
  assert (is_u64 total = true) by (apply N.leb_le; lia).
  unfold decode_wal_frame.
  rewrite (slice_at l p (with_digest frame ++ s) []); [|by rewrite app_nil_r|done|].
  2:{ rewrite Hlen, blen_app, blen_with_digest. lia. }
  cbn [ok_or mbind result_bind]. rewrite blen_app, blen_with_digest, Hf.
  destruct (N.ltb_spec (14 + blen payload + 32 + blen s) 14); [lia|].
  assert (slice (with_digest frame ++ s) 0 4 = Some RECORDER_WAL_MAGIC) as ->.
  { unfold with_digest, frame. rewrite <-!app_assoc. apply (slice_prefix RECORDER_WAL_MAGIC). }
  rewrite neqb_refl. cbn [reject_if mbind result_bind].
  assert (at_pos l (blen p + 4) (put_u16 RECORDER_WAL_VERSION ++ put_u64 total
    ++ payload ++ as_bytes (digest [frame]) ++ s)) as Hat.
  { exists (p ++ RECORDER_WAL_MAGIC). split; [|by rewrite blen_app].
    unfold l, with_digest. unfold frame at 1. by rewrite <-!app_assoc. }
  assert (at_pos l (blen p + total - 32) (as_bytes (digest [frame]) ++ s)) as Hd.
  { exists (p ++ frame). split; [unfold l, with_digest; by rewrite <-!app_assoc|].
    rewrite blen_app. lia. }
  read_next. rewrite neqb_refl. cbn [reject_if mbind result_bind]. read_next.
  destruct (N.ltb_spec total 46); [lia|]. cbn [reject_if mbind result_bind].
  assert (checked_add (blen p) total = Some (blen p + total)%N) as -> by (apply checked_add_Some; lia).
  cbn [ok_or mbind result_bind]. destruct (N.ltb_spec (blen l) (blen p + total)); [lia|].
  destruct Hd as (q & Hq & Hqc). rewrite Hqc.
  rewrite Hq at 1. rewrite reads_hash by (rewrite <-Hq; done). cbn [mbind result_bind].
  rewrite <-Hqc. rewrite (index_range_Some l (blen p) _ frame).
  2:{ apply (slice_at l p frame (as_bytes (digest [frame]) ++ s));
      [unfold l, with_digest; by rewrite <-!app_assoc|done|lia]. }
  rewrite neqb_refl. cbn [reject_if mbind result_bind].
  replace (blen p + 4 + blen (put_u16 RECORDER_WAL_VERSION) + blen (put_u64 total))%N with (blen p + 14)%N
    by (unfold put_u16, put_u64; rewrite !blen_be_bytes; lia).
  by replace (blen p + total - 32)%N with (blen p + 14 + blen payload)%N by lia.
Qed.

(** The parts of an encoded frame. *)
Lemma encode_wal_frame_Ok generation sequence prev st c head command frame d slot_bytes :
  encode_wal_frame generation sequence prev st c head command = Ok (frame, d, slot_bytes) →
  ∃ config_bytes slot_blob config_blob command_bytes,
    encode_recorder_state st = Ok slot_bytes ∧ encode_configuration_state c = Ok config_bytes ∧
    put_blob slot_bytes = Ok slot_blob ∧ put_blob config_bytes = Ok config_blob ∧
    encode_frame_command command = Ok command_bytes ∧
    let payload := put_u64 generation ++ put_u64 sequence ++ as_bytes prev ++ put_u64 (ss_slot st)
      ++ slot_blob ++ config_blob ++ encode_head_provenance head ++ command_bytes in
    let body := RECORDER_WAL_MAGIC ++ put_u16 RECORDER_WAL_VERSION
      ++ put_u64 (14 + blen payload + 32) ++ payload in
    frame = with_digest body ∧ d = digest [body].
Proof.
  unfold encode_wal_frame. intros He.
  apply bind_Ok_inv in He as (sb & Hsb & He). apply bind_Ok_inv in He as (cb & Hcb & He).
  apply bind_Ok_inv in He as (sbl & Hsbl & He). apply bind_Ok_inv in He as (cbl & Hcbl & He).
  apply bind_Ok_inv in He as (cmd & Hcmd & He).
  apply bind_Ok_inv in He as (total & Htotal%ok_or_Ok & He).
  apply bind_Some in Htotal as (len & [-> _]%checked_add_Some & [-> _]%checked_add_Some).
  apply Ok_inj, pair_eq in He as [He <-]. apply pair_eq in He as [<- <-]. by exists cb, sbl, cbl, cmd.
Qed.

Lemma wal_frame_reads generation sequence prev st c head command frame slot_bytes config_bytes p s d :
  is_u64 generation && is_u64 sequence && is_u64 (ss_slot st) && head_typed head = true →
  encode_wal_frame generation sequence prev st c head command = Ok (frame, d, slot_bytes) →
  encode_configuration_state c = Ok config_bytes →
  (blen (p ++ frame ++ s) ≤ u64_max)%N →
  decode_wal_frame (p ++ frame ++ s) (blen p) =
  Ok (Some (mkWalFrame generation sequence prev d (ss_slot st) slot_bytes config_bytes head command,
            blen p + blen frame)%N).
Proof.
  intros Ht He Hc Hl.
  apply encode_wal_frame_Ok in He as (cb & sbl & cbl & cmd & Hsb & Hcb & ? & ? & ? & -> & ->).
  rewrite Hc in Hcb. apply Ok_inj in Hcb as <-. bool_prop. destruct Ht as [[[? ?] ?] ?].
  erewrite decode_wal_frame_header; [|done|exact Hl].
  match type of Hl with (blen ?l0 ≤ _)%N => set (l := l0) in * end.
  match goal with |- context [(_ + 14 + blen ?pl)%N] => set (payload := pl) in * end.
  set (frame := RECORDER_WAL_MAGIC ++ _) in *.
  assert (at_pos l (blen p + 14) (payload ++ as_bytes (digest [frame]) ++ s)) as Hat.
  { exists (p ++ RECORDER_WAL_MAGIC ++ put_u16 RECORDER_WAL_VERSION ++ put_u64 (14 + blen payload + 32)).
    split; [|pose proof (wal_frame_length RECORDER_WAL_VERSION (14 + blen payload + 32) []) as Hw;
             rewrite app_nil_r, blen_nil in Hw; rewrite blen_app; lia].
    unfold l, with_digest. unfold frame at 1. by rewrite <-!app_assoc. }
  assert (blen p + 14 + blen payload = blen p + 14 + blen payload)%N as Hend by done.
  unfold payload at 2 in Hend. unfold payload in Hat. rewrite <-?app_assoc in Hat.
  do 5 read_next. read_next. unfold decode_head_provenance. read_next. read_next.
  match goal with |- context [neqb ?a ?b] => assert (a = b) as -> end.
  { rewrite Hend. clear. blen_lia. }
  rewrite neqb_refl. cbn [reject_if mbind result_bind].
  do 3 f_equal. rewrite blen_with_digest. unfold frame. rewrite wal_frame_length. lia.
Qed.

(** A frame of the write-ahead log is read back as it was appended, wherever
    it stands in the log: [decode_wal_frame] returns its generation, sequence,
    link to the previous frame, slot and configuration bytes, head and command,
    its digest, and the offset behind it. *)
Theorem wal_frame_roundtrip (generation sequence : N) (prev : LogHash) (st : RecorderSlotState)
    (c : RecorderConfiguration) (head : RecordedHeadProvenance)
    (command : option (LogHash * StoredCommand)) (frame slot_bytes config_bytes p s : bytes) (d : LogHash) :
  is_u64 generation && is_u64 sequence && is_u64 (ss_slot st) && head_typed head = true →
  encode_wal_frame generation sequence prev st c head command = Ok (frame, d, slot_bytes) →
  encode_configuration_state c = Ok config_bytes →
  (blen (p ++ frame ++ s) ≤ u64_max)%N →
  decode_wal_frame (p ++ frame ++ s) (blen p) =
  Ok (Some (mkWalFrame generation sequence prev d (ss_slot st) slot_bytes config_bytes head command,
            blen p + blen frame)%N).
Proof. apply wal_frame_reads. Qed.

Lemma decode_snapshots_reads l seen e :
  put_all encode_snapshot l = Ok e → forallb (is_u64 ∘ dss_slot) l = true →
  NoDup (dss_slot <$> seen ++ l) → reads (decode_snapshots (length l) seen) e (seen ++ l).
Proof.
  revert seen e. induction l as [|a l IH]; intros seen e He Ht Hnd; cbn [put_all] in He.
  - apply Ok_inj in He as <-. rewrite app_nil_r. apply reads_ret.
  - apply bind_Ok_inv in He as (x & Hx & He). apply bind_Ok_inv in He as (y & Hy & He).
    apply Ok_inj in He as <-. unfold encode_snapshot in Hx. apply bind_Ok_inv in Hx as (z & Hz & Hx).
    apply Ok_inj in Hx as <-. cbn [forallb] in Ht. apply andb_true_iff in Ht as [Ha Ht].
    change (is_u64 (dss_slot a) = true) in Ha.
    assert (seen ++ a :: l = (seen ++ [a]) ++ l) as Heq by by rewrite <-app_assoc.
    rewrite Heq in Hnd |- *. pose proof (IH (seen ++ [a]) y Hy Ht Hnd) as Hrest.
    reading. cbn [length decode_snapshots]. read_next.
    assert (existsb (λ s, eqb (dss_slot s) (dss_slot a)) seen = false) as ->.
    { apply existsb_false. intros b Hb. apply eqb_false. intros Hab. rewrite !fmap_app in Hnd.
      apply NoDup_app in Hnd as [(_ & Hd & _)%NoDup_app _]. apply (Hd (dss_slot b)).
      - by apply list_elem_of_fmap_2.
      - rewrite Hab. cbn. by left. }
    cbn [reject_if mbind result_bind]. read_next.
    replace (mkSnapshot (dss_slot a) (dss_bytes a)) with a by (by destruct a).
    destruct Hat as (q & Hq & Hc). rewrite Hc, Hq, Hrest by (by rewrite <-Hq). rewrite <-Hc. read_done.
Qed.

Lemma recorded_head_reads cluster_id epoch c head recent checkpoint e :
  is_str cluster_id && is_u64 epoch && is_u64 (rc_config_id c) && head_typed head
    && is_u64 (wc_generation checkpoint) && is_u64 (wc_through_sequence checkpoint)
    && forallb (is_u64 ∘ dss_slot) recent = true →
  wc_generation checkpoint ≠ 0%N → NoDup (dss_slot <$> recent) →
  encode_recorded_head cluster_id epoch c head recent checkpoint = Ok e → (blen e ≤ u64_max)%N →
  decode_recorded_head e cluster_id epoch c = Ok (head, recent, checkpoint).
Proof.
  intros Ht Hg Hnd He Hl. unfold encode_recorded_head in He. res_inv. bool_prop.
  destruct Ht as [[[[[[? ?] ?] ?] ?] ?] Hs].
  pose proof (decode_snapshots_reads recent [] _ Hok1 Hs Hnd) as Hsnap. cbn [app] in Hsnap.
  assert (is_u16 (N.of_nat (length recent)) = true) as Hn16.
  { apply N.leb_le. unfold u16_max. lia. }
  unfold decode_recorded_head.
  match type of Hl with (blen (with_digest (_ ++ ?rest)) ≤ _)%N => set (tail_ := rest) in * end.
  assert (slice (with_digest (RECORDED_HEAD_MAGIC ++ tail_)) 0 4 = Some RECORDED_HEAD_MAGIC) as ->.
  { unfold with_digest. rewrite <-app_assoc. apply (slice_prefix RECORDED_HEAD_MAGIC). }
  rewrite neqb_refl. cbn [reject_if mbind result_bind].
  erewrite (reads_at read_u16 (put_u16 RECORDED_HEAD_VERSION) _ RECORDED_HEAD_MAGIC);
    [|by apply reads_u16|by unfold with_digest, tail_; rewrite <-!app_assoc|done|done].
  cbn [mbind result_bind]. rewrite neqb_refl. cbn [reject_if mbind result_bind].
  rewrite blen_with_digest. destruct (N.ltb_spec (blen (RECORDED_HEAD_MAGIC ++ tail_) + 32) 32); [lia|].
  rewrite split_digest_with_digest. cbn [reject_if mbind result_bind]. rewrite blen_with_digest in Hl.
  assert (blen (RECORDED_HEAD_MAGIC ++ tail_) ≤ u64_max)%N as Hb by lia. clear Hl.
  assert (at_pos (RECORDED_HEAD_MAGIC ++ tail_) 4 (tail_ ++ [])) as Hat
    by (rewrite app_nil_r; by exists RECORDED_HEAD_MAGIC).
  set (body := RECORDED_HEAD_MAGIC ++ tail_) in *. unfold tail_ in Hat. rewrite <-?app_assoc in Hat.
  do 5 read_next. rewrite !neqb_refl. cbn [orb reject_if mbind result_bind]. do 3 read_next.
  destruct (N.eqb_spec (wc_generation checkpoint) 0); [done|]. cbn [reject_if mbind result_bind].
  read_next. destruct (N.ltb_spec 2 (N.of_nat (length recent))); [lia|].
  cbn [reject_if mbind result_bind]. rewrite Nat2N.id. read_next. read_end. by destruct checkpoint.
Qed.
End roundtrips.
