(* ===== verification/Recorder.v ===== *)
(** * Recorder: the durable recorder

    Models [RecorderFileStore] of [crates/rhiza-quepaxa/src/lib.rs]: the recorder's
    configuration with its seal, the slot gate that keeps slots inside the
    configuration, the transition of the configuration when a value is applied,
    and the operations [record_proposal], [install_decision_proof_record],
    [install_successor_from_proof], [recover_successor_activation_from_checkpoint],
    [apply], [save], [inspect_record_summary] and [observe_read_fence].

    The files of the recorder root are modelled by their bytes: slot files, command
    files, the configuration, the recorded head and the write-ahead log; what the
    running recorder keeps in memory (configuration, head, and the slots and
    commands of the log) stands beside them.  File operations succeed; the size
    bounds that reads enforce are kept.  The intent files, which are written
    before and removed after a group of writes, matter only across a crash.  A
    call runs in a state monad whose state survives an error, as the files do. *)

From S2P Require Import Prelude Bytes Core ConfigChange Proposal Isr DecisionProof RecorderCodec.
From Stdlib Require Strings.Byte.

(** The write-ahead log: what it holds that the files do not, its counters, and
    the contents of its file. *)
Record RecorderWal : Type := mkWal {
  wal_checkpoint : WalCheckpoint; wal_next_sequence : N; wal_last_digest : LogHash;
  wal_frame_count : N; wal_byte_count : N;
  wal_slots : gmap N bytes; wal_commands : gmap LogHash StoredCommand;
  wal_file : bytes; wal_failed : bool
}.
Definition wal_default : RecorderWal :=
  mkWal (mkWalCheckpoint 1 0) 1 LogHash_ZERO 0 0 ∅ ∅ [] false.

Record RecorderFileStore : Type := mkRecorder {
  r_recorder_id : NodeId; r_cluster_id : bytes; r_epoch : N;
  r_configuration : RecorderConfiguration; r_recorded_head : RecordedHeadProvenance;
  r_wal : RecorderWal;
  r_slot_files : gmap N bytes; r_command_files : gmap LogHash bytes;
  r_configuration_file : bytes; r_head_file : bytes
}.

(** The writes: the configuration and the head in memory, the log, and the files. *)
Definition set_memory (c : RecorderConfiguration) (h : RecordedHeadProvenance) (s : RecorderFileStore) :
    RecorderFileStore :=
  mkRecorder (r_recorder_id s) (r_cluster_id s) (r_epoch s) c h (r_wal s)
    (r_slot_files s) (r_command_files s) (r_configuration_file s) (r_head_file s).
Definition set_wal (w : RecorderWal) (s : RecorderFileStore) : RecorderFileStore :=
  mkRecorder (r_recorder_id s) (r_cluster_id s) (r_epoch s) (r_configuration s) (r_recorded_head s) w
    (r_slot_files s) (r_command_files s) (r_configuration_file s) (r_head_file s).
Definition set_slot_files (f : gmap N bytes) (s : RecorderFileStore) : RecorderFileStore :=
  mkRecorder (r_recorder_id s) (r_cluster_id s) (r_epoch s) (r_configuration s) (r_recorded_head s)
    (r_wal s) f (r_command_files s) (r_configuration_file s) (r_head_file s).
Definition set_command_files (f : gmap LogHash bytes) (s : RecorderFileStore) : RecorderFileStore :=
  mkRecorder (r_recorder_id s) (r_cluster_id s) (r_epoch s) (r_configuration s) (r_recorded_head s)
    (r_wal s) (r_slot_files s) f (r_configuration_file s) (r_head_file s).
Definition set_head_files (configuration head : bytes) (s : RecorderFileStore) : RecorderFileStore :=
  mkRecorder (r_recorder_id s) (r_cluster_id s) (r_epoch s) (r_configuration s) (r_recorded_head s)
    (r_wal s) (r_slot_files s) (r_command_files s) configuration head.

(** ** Calls on a recorder *)

Definition call (A : Type) : Type := RecorderFileStore → result Error A * RecorderFileStore.

#[export] Instance call_ret : MRet call := λ A a s, (Ok a, s).
#[export] Instance call_bind : MBind call := λ A B f c s,
  match c s with
  | (Ok a, s') => f a s'
  | (Err e, s') => (Err e, s')
  end.
Definition store : call RecorderFileStore := λ s, (Ok s, s).
Definition update (f : RecorderFileStore → RecorderFileStore) : call () := λ s, (Ok (), f s).
Definition lift {A} (r : result Error A) : call A := λ s, (r, s).
Definition reject {A} (reason : RejectReason) : call A := λ s, (Err (Rejected reason), s).
Definition reject_when (c : bool) (reason : RejectReason) : call () :=
  lift (reject_if c (Rejected reason)).

Lemma call_bind_Ok {A B} (c : call A) (f : A → call B) s b s' :
  (c ≫= f) s = (Ok b, s') ↔ ∃ a s1, c s = (Ok a, s1) ∧ f a s1 = (Ok b, s').
Proof.
  unfold mbind, call_bind. destruct (c s) as [[a|e] s1]; split.
  - eauto.
  - by intros (a' & s1' & [= <- <-] & ?).
  - done.
  - by intros (a' & s1' & ? & _).
Qed.

(** [call_inv] takes apart a call that returned [Ok]. *)
Ltac call_inv_step :=
  match goal with
  | H : (_ ≫= _) _ = (Ok _, _) |- _ =>
      let a := fresh "a" in let s := fresh "s" in let Hc := fresh "Hc" in
      apply call_bind_Ok in H as (a & s & Hc & H)
  | H : store _ = (Ok _, _) |- _ => unfold store in H; simplify_eq
  | H : update _ _ = (Ok _, _) |- _ => unfold update in H; simplify_eq
  | H : mret _ _ = (Ok _, _) |- _ => unfold mret, call_ret in H; simplify_eq
  | H : reject _ _ = (Ok _, _) |- _ => unfold reject in H; discriminate H
  | H : reject_when ?c _ _ = (Ok _, _) |- _ =>
      unfold reject_when in H
  | H : lift ?r _ = (Ok _, _) |- _ => unfold lift in H; first [injection H as H ?; subst | injection H as H]
  | H : reject_if _ _ = Ok _ |- _ => apply reject_if_Ok in H
  | H : map_err _ _ = Ok _ |- _ => apply map_err_Ok in H
  | H : ok_or _ _ = Ok _ |- _ => apply ok_or_Ok in H
  | u : unit |- _ => destruct u
  end.
Ltac call_inv := repeat (call_inv_step; cbn beta iota in * ).

Definition MAX_REPLICATED_COMMAND_BYTES : N := 512 * 1024.
Definition MAX_COMMAND_CACHE_BYTES : N := 4 + 2 + 1 + 8 + MAX_REPLICATED_COMMAND_BYTES + 32.
Definition RECORDER_WAL_SOFT_BYTE_LIMIT : N := 64 * 1024 * 1024.
Definition RECORDER_WAL_HARD_FRAME_LIMIT : N := 1024.

Definition MAX_RECORDER_STATE_BYTES : N := 1024 * 1024.

Section recorder.
Context `{Sha256}.

(** *** Commands *)

Definition read_existing_command_cache (files : gmap LogHash bytes) (command_hash_ : LogHash) :
    result Error StoredCommand :=
  match files !! command_hash_ with
  | None => Err CommandUnavailable
  | Some encoded =>
      _ ← reject_if (MAX_COMMAND_CACHE_BYTES <? blen encoded)%N
            (Decode "recorder command cache entry must be a bounded regular file");
      command ← decode_stored_command encoded;
      _ ← reject_if (neqb (command_hash command) command_hash_) CommandHashMismatch;
      Ok command
  end.

Definition fetch_command_cache_unlocked (command_hash_ : LogHash) : call (option StoredCommand) :=
  s ← store;
  lift match read_existing_command_cache (r_command_files s) command_hash_ with
       | Err CommandUnavailable => Ok None
       | r => Some <$> r
       end.

Definition fetch_command_unlocked (command_hash_ : LogHash) : call (option StoredCommand) :=
  s ← store;
  match wal_commands (r_wal s) !! command_hash_ with
  | Some command => mret (Some command)
  | None => fetch_command_cache_unlocked command_hash_
  end.

Definition stage_command_unlocked (command_hash_ : LogHash) (command : StoredCommand) : call () :=
  s ← store;
  match r_command_files s !! command_hash_ with
  | Some _ =>
      existing ← fetch_command_cache_unlocked command_hash_;
      match existing with
      | Some existing => if eqb existing command then mret () else lift (Err CommandHashMismatch)
      | None => lift (Err CommandHashMismatch)
      end
  | None =>
      update (set_command_files (<[command_hash_ := encode_stored_command command]> (r_command_files s)))
  end.

Definition store_command_unlocked (command_hash_ : LogHash) (command : StoredCommand) : call () :=
  _ ← lift (reject_if (neqb (command_hash command) command_hash_) CommandHashMismatch);
  s ← store;
  match wal_commands (r_wal s) !! command_hash_ with
  | Some existing => if eqb existing command then mret () else lift (Err CommandHashMismatch)
  | None => stage_command_unlocked command_hash_ command
  end.

Definition command_for_value_unlocked (value : AcceptedValue) : call StoredCommand :=
  command ← fetch_command_unlocked (av_command_hash value);
  lift (ok_or command CommandUnavailable).

Definition change_for_command (command : StoredCommand) : result Error (option ConfigChange) :=
  if neqb (sc_entry_type command) ConfigChangeEntry then Ok None
  else Some <$> map_err (λ _, Rejected InvalidRequest) (recognize command).

Definition change_for_value_unlocked (value : AcceptedValue) : call (option ConfigChange) :=
  command ← command_for_value_unlocked value;
  lift (change_for_command command).

Definition validate_resolved_command_for_value (s : RecorderFileStore) (slot config_id : N)
    (value : AcceptedValue) (command : StoredCommand) : result Error () :=
  reject_if
    (neqb (from_command (r_cluster_id s) slot (r_epoch s) config_id (av_prev_hash value) command) value)
    (Rejected InvalidValue).

Definition validate_value_unlocked (slot : N) (value : AcceptedValue) : call () :=
  command ← command_for_value_unlocked value;
  s ← store;
  lift (validate_resolved_command_for_value s slot (rc_config_id (r_configuration s)) value command).

(** *** The configuration *)

Definition is_stop (change : option ConfigChange) : bool :=
  match change with Some (Stop _ _) | Some (BoundStop _) => true | _ => false end.
Definition is_activation (change : option ConfigChange) : bool :=
  match change with
  | Some (ActivationBarrier _ _ _ _) | Some (BoundActivationBarrier _ _ _ _) => true
  | _ => false
  end.

(** The activation test of a configuration that is not yet active. *)
Definition activation_allowed (s : RecorderFileStore) (c : RecorderConfiguration)
    (predecessor : ConfigurationSeal) (slot : N) (change : option ConfigChange) : bool :=
  match change with
  | Some (BoundActivationBarrier successor stop_slot prefix_hash stop_command_hash) =>
      eqb (sd_cluster_id successor) (r_cluster_id s)
      && eqb (sd_config_id successor) (rc_config_id c)
      && eqb (sd_config_digest successor) (rc_config_digest c)
      && eqb (checked_add (sd_predecessor_config_id successor) 1) (Some (rc_config_id c))
      && eqb stop_slot (cs_stop_slot predecessor)
      && eqb prefix_hash (cs_prefix_hash predecessor)
      && eqb stop_command_hash (cs_command_hash predecessor)
      && eqb slot (cs_stop_slot predecessor + 1)%N
  | None => eqb slot (cs_stop_slot predecessor + 1)%N
  | _ => false
  end.

Definition validate_slot_gate (s : RecorderFileStore) (c : RecorderConfiguration) (slot : N)
    (change : option ConfigChange) : result Error () :=
  _ ← match rc_predecessor c with
      | Some predecessor =>
          reject_if (slot <=? cs_stop_slot predecessor)%N (Rejected ConfigurationNotInstalled)
      | None => Ok ()
      end;
  _ ← match rc_seal c with
      | Some seal =>
          _ ← reject_if (cs_stop_slot seal <? slot)%N
                (Rejected (ConfigurationSealed (cs_stop_slot seal)));
          reject_if (is_stop change
                     && (neqb slot (cs_stop_slot seal) || eqb (cs_command_hash seal) LogHash_ZERO))
            (Rejected TransitionInProgress)
      | None => Ok ()
      end;
  _ ← reject_if (is_stop change && option_holds (rc_max_slot c) (λ accepted, slot <? accepted)%N)
        (Rejected InvalidTransition);
  _ ← (if negb (rc_activated c) then
         match rc_predecessor c with
         | None => Err (Rejected InvalidTransition)
         | Some predecessor =>
             reject_if (negb (activation_allowed s c predecessor slot change))
               (Rejected ActivationRequired)
         end
       else reject_if (is_activation change) (Rejected InvalidTransition));
  match change with
  | Some change =>
      let '(config_id, config_digest) := binding change in
      reject_if (neqb config_id (rc_config_id c) || neqb config_digest (rc_config_digest c))
        (Rejected WrongConfig)
  | None => Ok ()
  end.

Definition set_max_slot (c : RecorderConfiguration) (slot : option N) : RecorderConfiguration :=
  mkRecorderConfiguration (rc_config_id c) (rc_config_digest c) (rc_membership c) (rc_predecessor c)
    (rc_seal c) slot (rc_activated c).
Definition set_seal (c : RecorderConfiguration) (seal : option ConfigurationSeal) :
    RecorderConfiguration :=
  mkRecorderConfiguration (rc_config_id c) (rc_config_digest c) (rc_membership c) (rc_predecessor c)
    seal (rc_max_slot c) (rc_activated c).
Definition set_activated (c : RecorderConfiguration) : RecorderConfiguration :=
  mkRecorderConfiguration (rc_config_id c) (rc_config_digest c) (rc_membership c) (rc_predecessor c)
    (rc_seal c) (rc_max_slot c) true.

Definition transition_after_apply (c : RecorderConfiguration) (state : RecorderSlotState)
    (change : option ConfigChange) (applied_value : option AcceptedValue) :
    result Error RecorderConfiguration :=
  let next :=
    match applied_value with
    | Some _ => set_max_slot c (Some (match rc_max_slot c with
                                      | None => ss_slot state
                                      | Some current => N.max current (ss_slot state)
                                      end))
    | None => c
    end in
  let next :=
    if eqb (ss_decided_proof state) None then next
    else if option_holds (rc_seal next) (λ seal,
              eqb (cs_stop_slot seal) (ss_slot state)
              && option_holds applied_value (λ v, neqb (av_command_hash v) (cs_command_hash seal)))
    then set_seal next None else next in
  match applied_value with
  | Some value =>
      if is_stop change then
        let proposed := mkSeal (ss_slot state) (av_command_hash value) (av_entry_hash value) in
        match rc_seal next with
        | Some existing => if neqb existing proposed then Err (Rejected TransitionInProgress) else Ok next
        | None => Ok (set_seal next (Some proposed))
        end
      else if is_activation change && neqb (ss_decided_proof state) None
      then Ok (set_activated next) else Ok next
  | None =>
      if is_activation change && neqb (ss_decided_proof state) None
      then Ok (set_activated next) else Ok next
  end.

Definition configuration_structure_changed (previous next : RecorderConfiguration) : bool :=
  neqb (rc_config_id previous) (rc_config_id next)
  || neqb (rc_config_digest previous) (rc_config_digest next)
  || neqb (rc_membership previous) (rc_membership next)
  || neqb (rc_predecessor previous) (rc_predecessor next)
  || neqb (rc_seal previous) (rc_seal next)
  || neqb (rc_activated previous) (rc_activated next).

Definition recorder_state_values (state : RecorderSlotState) : list AcceptedValue :=
  omap id [as_value <$> ss_accepted state; dc_value <$> ss_decided state;
    isr_first_current (ss_isr state) ≫= p_value; isr_aggregate_current (ss_isr state) ≫= p_value;
    isr_aggregate_prior (ss_isr state) ≫= p_value;
    ss_decided_proof state ≫= (p_value ∘ proof_proposal)].

Definition head_after_slot_state (s : RecorderFileStore) (c : RecorderConfiguration)
    (state : RecorderSlotState) : RecordedHeadProvenance :=
  if eqb (rc_max_slot c) (Some (ss_slot state)) && negb (length (recorder_state_values state) =? 0)
  then SlotBacked (ss_slot state) else r_recorded_head s.

(** *** Persistence *)

(** [load_unlocked]: the write-ahead log first, then the slot file; a slot that
    is in neither is new. *)
Definition load_unlocked (slot : N) (config_digest : LogHash) : call RecorderSlotState :=
  s ← store;
  let foreign state :=
    neqb (ss_cluster_id state) (r_cluster_id s) || neqb (ss_epoch state) (r_epoch s)
    || neqb (ss_config_id state) (rc_config_id (r_configuration s))
    || (neqb config_digest LogHash_ZERO && neqb (ss_config_digest state) config_digest) in
  match wal_slots (r_wal s) !! slot with
  | Some encoded =>
      state ← lift (decode_recorder_state encoded);
      if foreign state then lift (Err (Decode "recorder WAL state identity mismatch")) else mret state
  | None =>
      match r_slot_files s !! slot with
      | None =>
          mret (slot_new_with_digest slot (r_cluster_id s) (r_epoch s)
                  (rc_config_id (r_configuration s)) config_digest)
      | Some encoded =>
          _ ← lift (reject_if (MAX_RECORDER_STATE_BYTES <? blen encoded)%N
                (Decode "recorder slot cache must be a bounded regular file"));
          state ← lift (decode_recorder_state encoded);
          if neqb (ss_slot state) slot || foreign state
          then lift (Err (Decode "recorder state identity mismatch")) else mret state
      end
  end.

Definition wal_unavailable : Error := Io "recorder WAL is unavailable after an I/O failure".

(** The contents of the log move to the files. *)
Definition checkpoint_wal_unlocked : call () :=
  s ← store;
  let w := r_wal s in
  _ ← lift (reject_if (wal_failed w) wal_unavailable);
  if (wal_frame_count w =? 0)%N then mret ()
  else
    generation ← lift (ok_or (checked_add (wc_generation (wal_checkpoint w)) 1)
                         (Io "recorder WAL generation exhausted"));
    let next_checkpoint := mkWalCheckpoint generation (wal_next_sequence w - 1) in
    _ ← update (set_command_files ((encode_stored_command <$> wal_commands w) ∪ r_command_files s));
    _ ← update (set_slot_files (wal_slots w ∪ r_slot_files s));
    configuration_bytes ← lift (encode_configuration_state (r_configuration s));
    _ ← update (λ s, set_head_files configuration_bytes (r_head_file s) s);
    head_bytes ← lift (encode_recorded_head (r_cluster_id s) (r_epoch s) (r_configuration s)
                         (r_recorded_head s) [] next_checkpoint);
    _ ← update (set_head_files configuration_bytes head_bytes);
    update (set_wal
      (mkWal next_checkpoint (wal_next_sequence w) LogHash_ZERO 0 0 ∅ ∅ [] (wal_failed w))).

(** A failing counter is found after the frame is written and in memory. *)
Definition append_wal_unlocked (state : RecorderSlotState) (c : RecorderConfiguration)
    (head : RecordedHeadProvenance) (command : option (LogHash * StoredCommand)) : call () :=
  s ← store;
  _ ← lift (reject_if (wal_failed (r_wal s)) wal_unavailable);
  _ ← (if (RECORDER_WAL_HARD_FRAME_LIMIT <=? wal_frame_count (r_wal s))%N
          || (RECORDER_WAL_SOFT_BYTE_LIMIT <=? wal_byte_count (r_wal s))%N
       then checkpoint_wal_unlocked else mret ());
  s ← store;
  let w := r_wal s in
  '(frame, digest, slot_bytes) ← lift (encode_wal_frame (wc_generation (wal_checkpoint w))
      (wal_next_sequence w) (wal_last_digest w) state c head command);
  let slots := <[ss_slot state := slot_bytes]> (wal_slots w) in
  let commands :=
    match command with
    | Some (hash, command) =>
        match wal_commands w !! hash with
        | Some _ => wal_commands w
        | None => <[hash := command]> (wal_commands w)
        end
    | None => wal_commands w
    end in
  let file := wal_file w ++ frame in
  _ ← update (set_wal (mkWal (wal_checkpoint w) (wal_next_sequence w) (wal_last_digest w)
        (wal_frame_count w) (wal_byte_count w) slots commands file (wal_failed w)));
  next ← lift (ok_or (checked_add (wal_next_sequence w) 1) (Io "recorder WAL sequence exhausted"));
  _ ← update (set_wal (mkWal (wal_checkpoint w) next digest
        (wal_frame_count w + 1) (wal_byte_count w) slots commands file (wal_failed w)));
  bytes ← lift (ok_or (checked_add (wal_byte_count w) (blen frame))
                  (Io "recorder WAL byte count overflow"));
  update (set_wal (mkWal (wal_checkpoint w) next digest
    (wal_frame_count w + 1) bytes slots commands file (wal_failed w))).

(** The slot, the configuration and the head are written under an intent, then
    the recorder's memory follows. *)
Definition commit_transition_unlocked (state : RecorderSlotState) (c : RecorderConfiguration) :
    call () :=
  s ← store;
  slot_bytes ← lift (encode_recorder_state state);
  configuration_bytes ← lift (encode_configuration_state c);
  let head := head_after_slot_state s c state in
  head_bytes ← lift (encode_recorded_head (r_cluster_id s) (r_epoch s) c head []
                       (wal_checkpoint (r_wal s)));
  _ ← lift (encode_transition_intent (ss_slot state) slot_bytes configuration_bytes);
  _ ← update (set_slot_files (<[ss_slot state := slot_bytes]> (r_slot_files s)));
  _ ← update (set_head_files configuration_bytes head_bytes);
  update (set_memory c head).

(** [commit_configuration_head_unlocked] and the update of the memory that both
    of its callers make. *)
Definition commit_configuration_head_unlocked (c : RecorderConfiguration)
    (head : RecordedHeadProvenance) : call () :=
  s ← store;
  configuration_bytes ← lift (encode_configuration_state c);
  head_bytes ← lift (encode_recorded_head (r_cluster_id s) (r_epoch s) c head []
                       (wal_checkpoint (r_wal s)));
  _ ← update (set_head_files configuration_bytes head_bytes);
  update (set_memory c head).

Definition persist_state_transition_with_command_unlocked (state : RecorderSlotState)
    (previous next : RecorderConfiguration) (command : option (LogHash * StoredCommand)) : call () :=
  if configuration_structure_changed previous next then
    _ ← checkpoint_wal_unlocked;
    _ ← match command with
        | Some (hash, command) => store_command_unlocked hash command
        | None => mret ()
        end;
    commit_transition_unlocked state next
  else
    s ← store;
    let head := head_after_slot_state s next state in
    _ ← append_wal_unlocked state next head command;
    update (set_memory next head).

Definition persist_state_transition_unlocked (state : RecorderSlotState)
    (previous next : RecorderConfiguration) : call () :=
  persist_state_transition_with_command_unlocked state previous next None.

(** ** Operations *)

Definition validate_record_context (request : RecordRequest) : call () :=
  s ← store;
  let c := r_configuration s in
  _ ← reject_when (neqb (rq_cluster_id request) (r_cluster_id s)) WrongCluster;
  _ ← reject_when (neqb (rq_epoch request) (r_epoch s))
        (if (rq_epoch request <? r_epoch s)%N then StaleEpoch else FutureEpoch);
  reject_when (neqb (rq_config_id request) (rc_config_id c)
    || (neqb (rc_config_digest c) LogHash_ZERO
        && neqb (rq_config_digest request) (rc_config_digest c))) WrongConfig.

Definition record_proposal (request : RecordRequest) : call RecordSummary :=
  _ ← validate_record_context request;
  value ← lift (ok_or (p_value (rq_proposal request)) (Rejected InvalidRequest));
  s ← store;
  let c := r_configuration s in
  command ←
    match rq_command request with
    | Some command =>
        _ ← lift (validate_resolved_command_for_value s (rq_slot request) (rc_config_id c) value command);
        mret command
    | None => command_for_value_unlocked value
    end;
  change ← lift (change_for_command command);
  _ ← reject_when (negb (rc_activated c) && eqb change None) ActivationRequired;
  _ ← lift (validate_slot_gate s c (rq_slot request) change);
  _ ← match rq_command request with
      | None =>
          lift (validate_resolved_command_for_value s (rq_slot request) (rc_config_id c) value command)
      | Some _ => mret ()
      end;
  state ← load_unlocked (rq_slot request) (rq_config_digest request);
  '(next, summary) ← lift (map_err Rejected (slot_record_proposal (r_recorder_id s) state request));
  match ss_decided_proof state with
  | Some _ => mret summary
  | None =>
      next_configuration ← lift (transition_after_apply c next change (Some value));
      _ ← persist_state_transition_with_command_unlocked next c next_configuration
            ((λ command, (av_command_hash value, command)) <$> rq_command request);
      mret summary
  end.

Definition set_decided (state : RecorderSlotState) (certificate : option DecisionCertificate) :
    RecorderSlotState :=
  mkSlotState (ss_slot state) (ss_cluster_id state) (ss_epoch state) (ss_config_id state)
    (ss_config_digest state) (ss_highest_promised state) (ss_accepted state) certificate
    (ss_isr state) (ss_decided_proof state).

Definition install_decision_proof_record (proof : DecisionProof) (membership : Membership) : call () :=
  let '(slot, epoch, config_id, digest) := proof_context proof in
  s ← store;
  let c := r_configuration s in
  _ ← reject_when (neqb (proof_cluster_id proof) (r_cluster_id s)) WrongCluster;
  _ ← reject_when (neqb epoch (r_epoch s) || neqb config_id (rc_config_id c)
        || neqb digest (rc_config_digest c) || neqb (rc_membership c) (Some membership)) WrongConfig;
  _ ← lift (map_err Rejected (validate_for_cluster proof (r_cluster_id s) slot epoch config_id membership));
  value ← lift (ok_or (p_value (proof_proposal proof)) (Rejected InvalidCertificate));
  _ ← validate_value_unlocked slot value;
  state ← load_unlocked slot digest;
  match ss_decided_proof state with
  | Some _ => _ ← lift (map_err Rejected (slot_install_proof state proof)); mret ()
  | None =>
      change ← change_for_value_unlocked value;
      _ ← lift (validate_slot_gate s c slot change);
      state ← lift (map_err Rejected (slot_install_proof state proof));
      certificate ← lift (certificate_from_proof proof);
      state ←
        match ss_decided state with
        | Some existing =>
            if neqb (dc_value existing) (dc_value certificate) then reject AlreadyDecided
            else mret state
        | None => mret (set_decided state (Some certificate))
        end;
      next ← lift (transition_after_apply c state change (Some value));
      persist_state_transition_unlocked state c next
  end.

Definition install_successor_from_proof (membership : Membership) (stop_proof : DecisionProof) :
    call RecorderConfiguration :=
  s ← store;
  let current := r_configuration s in
  old_membership ← lift (ok_or (rc_membership current) (Rejected ConfigurationNotInstalled));
  next_config_id ← lift (ok_or (checked_add (rc_config_id current) 1) (Rejected InvalidTransition));
  _ ← reject_when (neqb (rc_predecessor current) None && negb (rc_activated current)) TransitionInProgress;
  _ ← reject_when (negb (m_contains membership (r_recorder_id s))) LocalVoterRequired;
  _ ← reject_when (neqb (proof_cluster_id stop_proof) (r_cluster_id s)) WrongCluster;
  let '(stop_slot, epoch, config_id, config_digest) := proof_context stop_proof in
  _ ← reject_when (neqb epoch (r_epoch s) || neqb config_id (rc_config_id current)
        || neqb config_digest (rc_config_digest current)) InvalidTransition;
  _ ← lift (map_err Rejected (validate_for_cluster stop_proof (r_cluster_id s) stop_slot (r_epoch s)
        (rc_config_id current) old_membership));
  stop ← lift (map_err (λ _, Rejected InvalidTransition)
    (bound_stop (r_cluster_id s) (rc_config_id current) (rc_config_digest current) next_config_id
       (m_members membership)));
  let stop_command := to_stored_command stop in
  stop_value ← lift (ok_or (p_value (proof_proposal stop_proof)) (Rejected InvalidCertificate));
  let expected_stop := from_command (r_cluster_id s) stop_slot (r_epoch s) (rc_config_id current)
    (av_prev_hash stop_value) stop_command in
  _ ← reject_when (neqb stop_value expected_stop) InvalidTransition;
  let expected_seal := mkSeal stop_slot (av_command_hash expected_stop) (av_entry_hash expected_stop) in
  _ ← reject_when (option_holds (rc_seal current) (λ seal, neqb seal expected_seal)) InvalidTransition;
  _ ← checkpoint_wal_unlocked;
  _ ← store_command_unlocked (av_command_hash expected_stop) stop_command;
  let installed := mkRecorderConfiguration next_config_id (m_digest membership) (Some membership)
    (Some expected_seal) None None false in
  _ ← commit_configuration_head_unlocked installed HeadEmpty;
  mret installed.

Definition recover_successor_activation_from_checkpoint (stop_slot : N) (prefix_hash : LogHash)
    (recovered_tip : N) (recovered_hash : LogHash) : call RecorderConfiguration :=
  s ← store;
  let current := r_configuration s in
  predecessor ← lift (ok_or (rc_predecessor current) (Rejected InvalidTransition));
  _ ← reject_when (neqb (cs_stop_slot predecessor) stop_slot
        || neqb (cs_prefix_hash predecessor) prefix_hash || (recovered_tip <=? stop_slot)%N)
        InvalidTransition;
  if rc_activated current then
    _ ← reject_when (option_holds (rc_max_slot current) (λ slot, recovered_tip <? slot)%N)
          InvalidTransition;
    mret current
  else
    let recovered := set_activated (set_max_slot current (Some recovered_tip)) in
    let head := CheckpointBacked stop_slot prefix_hash recovered_tip recovered_hash in
    _ ← checkpoint_wal_unlocked;
    _ ← commit_configuration_head_unlocked recovered head;
    mret recovered.

Definition save (state : RecorderSlotState) : call () :=
  s ← store;
  let c := r_configuration s in
  _ ← reject_when (neqb (ss_cluster_id state) (r_cluster_id s) || neqb (ss_epoch state) (r_epoch s)
        || neqb (ss_config_id state) (rc_config_id c)
        || (neqb (rc_config_digest c) LogHash_ZERO
            && neqb (ss_config_digest state) (rc_config_digest c))) WrongConfig;
  let applied_value :=
    match ss_decided state with
    | Some decision => Some (dc_value decision)
    | None => as_value <$> ss_accepted state
    end in
  change ← match applied_value with
           | Some value => change_for_value_unlocked value
           | None => mret None
           end;
  _ ← lift (validate_slot_gate s c (ss_slot state) change);
  next ← lift (transition_after_apply c state change applied_value);
  persist_state_transition_unlocked state c next.

(** *** Reads *)

Definition inspect_record_summary (slot : N) : call (option RecordSummary) :=
  s ← store;
  if negb (bool_decide (is_Some (wal_slots (r_wal s) !! slot)))
     && negb (bool_decide (is_Some (r_slot_files s !! slot)))
  then mret None
  else
    state ← load_unlocked slot (rc_config_digest (r_configuration s));
    mret (Some (record_summary (r_recorder_id s) state (ss_decided_proof state))).

Definition observe_read_fence (request : ReadFenceRequest) : call ReadFenceObservation :=
  s ← store;
  let c := r_configuration s in
  _ ← reject_when (neqb (rf_cluster_id request) (r_cluster_id s)) WrongCluster;
  _ ← reject_when (neqb (rf_epoch request) (r_epoch s))
        (if (rf_epoch request <? r_epoch s)%N then StaleEpoch else FutureEpoch);
  _ ← reject_when (neqb (rf_config_id request) (rc_config_id c)
        || neqb (rf_config_digest request) (rc_config_digest c)) WrongConfig;
  let max_head := rc_max_slot c in
  let exact_exists :=
    bool_decide (is_Some (wal_slots (r_wal s) !! rf_slot request))
    || bool_decide (is_Some (r_slot_files s !! rf_slot request)) in
  summary ←
    (if exact_exists then
       state ← load_unlocked (rf_slot request) (rc_config_digest c);
       mret (Some (record_summary (r_recorder_id s) state (ss_decided_proof state)))
     else mret None);
  let slot_state :=
    match summary with
    | None =>
        if match max_head with None => true | Some h => (h <? rf_slot request)%N end
        then FenceEmpty else FenceOccupied summary
    | Some _ => FenceOccupied summary
    end in
  mret (mkReadFenceObservation (r_recorder_id s) (rf_cluster_id request) (rf_epoch request)
    (rf_config_id request) (rf_config_digest request) (rf_slot request) max_head slot_state).

(** *** The request envelope *)

Definition validate_request_context (request : RecorderRequest) : call () :=
  s ← store;
  let c := r_configuration s in
  '(cluster_id, epoch, config_id, config_digest) ←
    lift (ok_or (request_context request) (Rejected InvalidRequest));
  _ ← reject_when (neqb cluster_id (r_cluster_id s)) WrongCluster;
  _ ← reject_when (epoch <? r_epoch s)%N StaleEpoch;
  _ ← reject_when (r_epoch s <? epoch)%N FutureEpoch;
  _ ← reject_when (neqb config_id (rc_config_id c)) WrongConfig;
  reject_when (neqb (rc_config_digest c) LogHash_ZERO && neqb config_digest (rc_config_digest c))
    WrongConfig.

Definition recorder_reply (s : RecorderFileStore) (config_id : N) (config_digest : LogHash)
    (command : option StoredCommand) : RecorderReply :=
  mkRecorderReply (r_recorder_id s) 0 config_id config_digest 0 None None None command.

(** [apply]; [Observe], [Converge] and [Decide] are rejected before anything is
    read, so the inspection is the only request that reaches the slot. *)
Definition apply (request : RecorderRequest) : call RecorderReply :=
  match request with
  | ReqObserve _ _ _ _ _ _ | ReqConverge _ _ _ _ _ _ _ | ReqDecide _ _ _ _ _ _ => reject InvalidRequest
  | ReqIdentity =>
      s ← store;
      mret (recorder_reply s (rc_config_id (r_configuration s)) (rc_config_digest (r_configuration s)) None)
  | ReqStoreCommand _ _ config_id config_digest hash command =>
      _ ← validate_request_context request;
      _ ← store_command_unlocked hash command;
      s ← store; mret (recorder_reply s config_id config_digest None)
  | ReqFetchCommand _ _ config_id config_digest hash =>
      _ ← validate_request_context request;
      command ← fetch_command_unlocked hash;
      s ← store; mret (recorder_reply s config_id config_digest command)
  | ReqInspect _ _ _ digest slot =>
      _ ← validate_request_context request;
      s ← store;
      let c := r_configuration s in
      _ ← lift (validate_slot_gate s c slot None);
      state ← load_unlocked slot digest;
      reply ← lift (map_err Rejected (slot_apply state request));
      next ← lift (transition_after_apply c state None None);
      _ ← (if neqb next c then persist_state_transition_unlocked state c next else mret ());
      mret (mkRecorderReply (r_recorder_id s) (rr_slot reply) (rr_config_id reply)
        (rr_config_digest reply) (rr_step reply) (rr_highest_promised reply) (rr_accepted reply)
        (rr_decided reply) (rr_command reply))
  end.

(** *** Creation *)

(** [new_with_membership] on a root that holds nothing: the configuration and an
    empty head are committed, the log is empty. *)
Definition new_with_membership (recorder_id : NodeId) (cluster_id : bytes) (epoch config_id : N)
    (membership : Membership) : result Error RecorderFileStore :=
  _ ← reject_if (blen recorder_id =? 0)%N EmptyRecorderIdentity;
  let blank := mkRecorder recorder_id cluster_id epoch (configuration_initial config_id LogHash_ZERO None)
    HeadEmpty wal_default ∅ ∅ [] [] in
  let configured := configuration_initial config_id (m_digest membership) (Some membership) in
  match commit_configuration_head_unlocked configured HeadEmpty blank with
  | (Ok _, s) => Ok s
  | (Err e, _) => Err e
  end.
End recorder.
