(* ===== verification/Reopen.v ===== *)
(** * Reopen: opening a recorder on its files

    Models how [RecorderFileStore] comes back from the files of its root
    ([crates/rhiza-quepaxa/src/lib.rs]): the preflight
    ([preflight_existing_with_membership_outcome] and the [validate_*] functions it
    calls), the recovery of the two intents, [open_or_initialize_recorded_head],
    [install_recorded_head], the replay of the write-ahead log and
    [open_with_membership]; and, for every group of writes the recorder makes, the
    list of its file operations in their order, of which a crash leaves a prefix.

    The lock file is held by the caller and every directory entry is a regular
    file; a file is absent or has contents.  Opening may write files before it
    fails, so it runs in a monad whose state is the root. *)

From S2P Require Import Prelude Bytes Core ConfigChange Proposal Isr DecisionProof RecorderCodec Recorder.

(** ** The root directory *)

Record RecorderRoot : Type := mkRoot {
  root_configuration : option bytes; root_head : option bytes; root_wal : option bytes;
  root_intent : option bytes; root_head_intent : option bytes;
  root_slots : gmap N bytes; root_commands : gmap LogHash bytes
}.
Definition empty_root : RecorderRoot := mkRoot None None None None None ∅ ∅.

(** One file operation: [atomic_replace] and [atomic_write] replace a file in one
    step, the log is appended to and truncated. *)
Inductive FileWrite : Type :=
| WriteConfiguration (contents : bytes) | WriteHead (contents : bytes)
| WriteIntent (contents : bytes) | RemoveIntent
| WriteHeadIntent (contents : bytes) | RemoveHeadIntent
| WriteSlot (slot : N) (contents : bytes) | WriteCommand (hash : LogHash) (contents : bytes)
| AppendWal (frame : bytes) | SetWalLength (length : N).

Definition write (w : FileWrite) (r : RecorderRoot) : RecorderRoot :=
  let 'mkRoot configuration head wal intent head_intent slots commands := r in
  match w with
  | WriteConfiguration b => mkRoot (Some b) head wal intent head_intent slots commands
  | WriteHead b => mkRoot configuration (Some b) wal intent head_intent slots commands
  | WriteIntent b => mkRoot configuration head wal (Some b) head_intent slots commands
  | RemoveIntent => mkRoot configuration head wal None head_intent slots commands
  | WriteHeadIntent b => mkRoot configuration head wal intent (Some b) slots commands
  | RemoveHeadIntent => mkRoot configuration head wal intent None slots commands
  | WriteSlot k b => mkRoot configuration head wal intent head_intent (<[k := b]> slots) commands
  | WriteCommand h b => mkRoot configuration head wal intent head_intent slots (<[h := b]> commands)
  | AppendWal frame =>
      mkRoot configuration head (Some (default [] wal ++ frame)) intent head_intent slots commands
  | SetWalLength n =>
      mkRoot configuration head (take (N.to_nat n) <$> wal) intent head_intent slots commands
  end.
Definition writes (l : list FileWrite) (r : RecorderRoot) : RecorderRoot := foldl (flip write) r l.

(** ** Calls on a root *)

Definition opening (A : Type) : Type := RecorderRoot → result Error A * RecorderRoot.
#[export] Instance opening_ret : MRet opening := λ A a r, (Ok a, r).
#[export] Instance opening_bind : MBind opening := λ A B f c r,
  match c r with
  | (Ok a, r') => f a r'
  | (Err e, r') => (Err e, r')
  end.
Definition root : opening RecorderRoot := λ r, (Ok r, r).
Definition put (w : FileWrite) : opening () := λ r, (Ok (), write w r).
Definition put_writes (l : list FileWrite) : opening () := λ r, (Ok (), writes l r).
Definition check {A} (x : result Error A) : opening A := λ r, (x, r).

Definition MAX_CONFIGURATION_BYTES : N := 512 * 1024.
Definition MAX_RECORDED_HEAD_BYTES : N := 2 * MAX_RECORDER_STATE_BYTES + MAX_CONFIGURATION_BYTES.
Definition MAX_TRANSITION_INTENT_BYTES : N :=
  MAX_RECORDER_STATE_BYTES + MAX_CONFIGURATION_BYTES + 4 + 2 + 8 + 2 + 2.
Definition MAX_CONFIGURATION_HEAD_INTENT_BYTES : N :=
  MAX_CONFIGURATION_BYTES + MAX_RECORDED_HEAD_BYTES + 4 + 2 + 8 + 8.
Definition MAX_RECORDER_WAL_BYTES : N := 64 * 1024 * 1024 + 2 * 1024 * 1024.

Definition missing (name : string) : Error := Decode ("recorder is missing " +:+ name).

Definition read_regular_file_bounded (file : option bytes) (maximum : N) (name : string) :
    result Error bytes :=
  match file with
  | None => Err (missing name)
  | Some contents =>
      _ ← reject_if (maximum <? blen contents)%N
            (Decode ("recorder " +:+ name +:+ " must be a bounded regular file"));
      Ok contents
  end.

Definition read_preflight_intent (file : option bytes) (maximum : N) (name : string) :
    result Error (option bytes) :=
  match file with
  | None => Ok None
  | Some _ => Some <$> read_regular_file_bounded file maximum name
  end.

Section reopen.
Context `{Sha256}.

(** ** Preflight *)

Inductive RecorderPreflight : Type := Missing | Valid | Recoverable.

Definition validate_preflight_configuration (c : RecorderConfiguration) (config_id : N)
    (membership : Membership) : result Error () :=
  reject_if (neqb (rc_config_id c) config_id || neqb (rc_config_digest c) (m_digest membership)
             || neqb (rc_membership c) (Some membership))
    (Decode "recorder configuration does not exactly match expected membership").

(** The value was made from the command that is stored under its hash: in the
    log's own commands, or else where [cached] looks. *)
Definition validate_existing_value (cached : LogHash → result Error StoredCommand)
    (cluster_id : bytes) (slot epoch config_id : N) (inline_commands : gmap LogHash StoredCommand)
    (value : AcceptedValue) : result Error () :=
  command ← match inline_commands !! av_command_hash value with
            | Some command => Ok command
            | None => cached (av_command_hash value)
            end;
  reject_if (neqb (from_command cluster_id slot epoch config_id (av_prev_hash value) command) value)
    (Decode "recorder WAL value mismatch").

Definition state_identity_differs (state : RecorderSlotState) (slot : N) (cluster_id : bytes)
    (epoch : N) (c : RecorderConfiguration) : bool :=
  neqb (ss_slot state) slot || neqb (ss_cluster_id state) cluster_id || neqb (ss_epoch state) epoch
  || neqb (ss_config_id state) (rc_config_id c) || neqb (ss_config_digest state) (rc_config_digest c).

Definition validate_existing_snapshot (commands : gmap LogHash bytes) (cluster_id : bytes) (epoch : N)
    (c : RecorderConfiguration) (snapshot : DurableSlotSnapshot) : result Error () :=
  state ← decode_recorder_state (dss_bytes snapshot);
  _ ← reject_if (state_identity_differs state (dss_slot snapshot) cluster_id epoch c)
        (Decode "durable recorder snapshot identity mismatch");
  _ ← collect (validate_existing_value (read_existing_command_cache commands) cluster_id
                 (dss_slot snapshot) epoch (rc_config_id c) ∅) (recorder_state_values state);
  Ok ().
Definition validate_existing_snapshots (commands : gmap LogHash bytes)
    (snapshots : list DurableSlotSnapshot) (cluster_id : bytes) (epoch : N)
    (c : RecorderConfiguration) : result Error () :=
  _ ← collect (validate_existing_snapshot commands cluster_id epoch c) snapshots; Ok ().

Definition validate_recoverable_transition_intent (commands : gmap LogHash bytes) (contents : bytes)
    (cluster_id : bytes) (epoch config_id : N) (membership : Membership) : result Error () :=
  '(slot, slot_bytes, configuration_bytes) ← decode_transition_intent contents;
  c ← decode_configuration_state configuration_bytes;
  _ ← validate_preflight_configuration c config_id membership;
  state ← decode_recorder_state slot_bytes;
  _ ← reject_if (state_identity_differs state slot cluster_id epoch c)
        (Decode "recorder transition intent state identity mismatch");
  _ ← collect (validate_existing_value (read_existing_command_cache commands) cluster_id slot epoch
                 (rc_config_id c) ∅) (recorder_state_values state);
  Ok ().

Definition validate_recoverable_configuration_head_intent (commands : gmap LogHash bytes)
    (contents : bytes) (cluster_id : bytes) (epoch config_id : N) (membership : Membership) :
    result Error () :=
  '(configuration_bytes, head_bytes) ← decode_configuration_head_intent contents;
  c ← decode_configuration_state configuration_bytes;
  _ ← validate_preflight_configuration c config_id membership;
  '(_, snapshots, _) ← decode_recorded_head head_bytes cluster_id epoch c;
  validate_existing_snapshots commands snapshots cluster_id epoch c.

Definition validate_empty_recovery_wal (wal : option bytes) : result Error () :=
  match wal with
  | None => Ok ()
  | Some contents =>
      reject_if (neqb (blen contents) 0%N) (Decode "recorder recovery intent requires an empty WAL")
  end.

(** *** The frames of the log *)

(** What reading the log accumulates: the log as the recorder keeps it in memory,
    the configuration and the head after the last frame. *)
Record Replay : Type := mkReplay {
  rp_next_sequence : N; rp_last_digest : LogHash; rp_frame_count : N;
  rp_slots : gmap N bytes; rp_commands : gmap LogHash StoredCommand;
  rp_configuration : RecorderConfiguration; rp_head : RecordedHeadProvenance
}.

Definition upsert_wal_command (commands : gmap LogHash StoredCommand) (hash : LogHash)
    (command : StoredCommand) : result Error (gmap LogHash StoredCommand) :=
  match commands !! hash with
  | Some existing => if neqb existing command then Err CommandHashMismatch else Ok commands
  | None => Ok (<[hash := command]> commands)
  end.

(** One frame of the current generation, in both loops over the log. *)
Definition replay_frame (cached : LogHash → result Error StoredCommand) (cluster_id : bytes)
    (epoch : N) (checkpoint : WalCheckpoint) (acc : Replay) (frame : WalFrame) : result Error Replay :=
  _ ← reject_if (neqb (wf_generation frame) (wc_generation checkpoint)
        || neqb (wf_sequence frame) (rp_next_sequence acc)
        || neqb (wf_prev_digest frame) (rp_last_digest acc))
        (Decode "recorder WAL sequence or digest chain mismatch");
  state ← decode_recorder_state (wf_slot_bytes frame);
  next ← decode_configuration_state (wf_configuration_bytes frame);
  _ ← reject_if (state_identity_differs state (wf_slot frame) cluster_id epoch next
        || configuration_structure_changed (rp_configuration acc) next)
        (Decode "recorder WAL state identity mismatch");
  commands ←
    match wf_command frame with
    | Some (hash, command) =>
        _ ← reject_if (neqb (command_hash command) hash)
              (Decode "recorder WAL inline command hash mismatch");
        upsert_wal_command (rp_commands acc) hash command
    | None => Ok (rp_commands acc)
    end;
  _ ← collect (validate_existing_value cached cluster_id (wf_slot frame) epoch (rc_config_id next) commands)
        (recorder_state_values state);
  let expected_head :=
    if eqb (rc_max_slot next) (Some (wf_slot frame)) && negb (length (recorder_state_values state) =? 0)
    then SlotBacked (wf_slot frame) else rp_head acc in
  _ ← reject_if (neqb (wf_head frame) expected_head) (Decode "recorder WAL head mismatch");
  next_sequence ← ok_or (checked_add (rp_next_sequence acc) 1) (Decode "recorder WAL sequence exhausted");
  Ok (mkReplay next_sequence (wf_digest frame) (rp_frame_count acc + 1)
        (<[wf_slot frame := wf_slot_bytes frame]> (rp_slots acc)) commands next (wf_head frame)).

(** The loop over the log: the accumulator and the offset it stopped at.  Every
    frame has at least 46 bytes, so the length of the log is enough fuel. *)
Fixpoint replay_loop (fuel : nat) (cached : LogHash → result Error StoredCommand) (cluster_id : bytes)
    (epoch : N) (checkpoint : WalCheckpoint) (contents : bytes) (acc : Replay) (offset : N) :
    result Error (Replay * N) :=
  if (blen contents <=? offset)%N then Ok (acc, offset)
  else
    match fuel with
    | O => Err (Decode "out of fuel")
    | S fuel =>
        decoded ← decode_wal_frame contents offset;
        match decoded with
        | None => Ok (acc, offset)
        | Some (frame, end_) =>
            if (wf_generation frame <? wc_generation checkpoint)%N
            then replay_loop fuel cached cluster_id epoch checkpoint contents acc end_
            else
              acc ← replay_frame cached cluster_id epoch checkpoint acc frame;
              replay_loop fuel cached cluster_id epoch checkpoint contents acc end_
        end
    end.

Definition replay_start (checkpoint : WalCheckpoint) (c : RecorderConfiguration)
    (head : RecordedHeadProvenance) : result Error Replay :=
  next_sequence ← ok_or (checked_add (wc_through_sequence checkpoint) 1)
                    (Decode "recorder WAL sequence exhausted");
  Ok (mkReplay next_sequence LogHash_ZERO 0 ∅ ∅ c head).

(** The loop from the start of the log. *)
Definition replay_log (cached : LogHash → result Error StoredCommand) (cluster_id : bytes) (epoch : N)
    (checkpoint : WalCheckpoint) (contents : bytes) (c : RecorderConfiguration)
    (head : RecordedHeadProvenance) : result Error (Replay * N) :=
  acc ← replay_start checkpoint c head;
  replay_loop (length contents) cached cluster_id epoch checkpoint contents acc 0%N.

(** [true]: the log ends inside a frame. *)
Definition validate_existing_wal (commands : gmap LogHash bytes) (contents : bytes)
    (cluster_id : bytes) (epoch : N) (c : RecorderConfiguration) (head : RecordedHeadProvenance)
    (checkpoint : WalCheckpoint) : result Error bool :=
  '(_, offset) ← replay_log (read_existing_command_cache commands) cluster_id epoch checkpoint
                   contents c head;
  Ok (offset <? blen contents)%N.

Definition root_is_empty (r : RecorderRoot) : bool :=
  eqb (root_configuration r) None && eqb (root_head r) None && eqb (root_wal r) None
  && eqb (root_intent r) None && eqb (root_head_intent r) None
  && bool_decide (root_slots r = ∅) && bool_decide (root_commands r = ∅).

Definition preflight_existing_with_membership_outcome (r : RecorderRoot) (cluster_id : bytes)
    (epoch config_id : N) (membership : Membership) : result Error RecorderPreflight :=
  if root_is_empty r then Ok Missing
  else
    transition_intent ← read_preflight_intent (root_intent r) MAX_TRANSITION_INTENT_BYTES
                          "configuration.intent";
    head_intent ← read_preflight_intent (root_head_intent r) MAX_CONFIGURATION_HEAD_INTENT_BYTES
                    "configuration-head.intent";
    match transition_intent, head_intent with
    | Some _, Some _ => Err (Decode "recorder has conflicting recovery intents")
    | Some contents, None =>
        _ ← validate_recoverable_transition_intent (root_commands r) contents cluster_id epoch config_id
              membership;
        _ ← validate_empty_recovery_wal (root_wal r);
        Ok Recoverable
    | None, Some contents =>
        _ ← validate_recoverable_configuration_head_intent (root_commands r) contents cluster_id epoch
              config_id membership;
        _ ← validate_empty_recovery_wal (root_wal r);
        Ok Recoverable
    | None, None =>
        contents ← read_regular_file_bounded (root_configuration r) MAX_CONFIGURATION_BYTES
                     "configuration.rec";
        c ← decode_configuration_state contents;
        _ ← validate_preflight_configuration c config_id membership;
        contents ← read_regular_file_bounded (root_head r) MAX_RECORDED_HEAD_BYTES "recorded-head.rec";
        '(head, recent_slots, checkpoint) ← decode_recorded_head contents cluster_id epoch c;
        _ ← validate_existing_snapshots (root_commands r) recent_slots cluster_id epoch c;
        contents ← read_regular_file_bounded (root_wal r) MAX_RECORDER_WAL_BYTES "recorder.wal";
        torn ← validate_existing_wal (root_commands r) contents cluster_id epoch c head checkpoint;
        Ok (if torn : bool then Recoverable else Valid)
    end.

(** ** The writes of a running recorder *)

(** The order in which [checkpoint_wal_unlocked] writes: the commands of the log (a
    hash map, in any order), its slots, the configuration, the head; then the log
    is truncated. *)
Definition checkpoint_writes (commands : list (LogHash * StoredCommand)) (slots : list (N * bytes))
    (configuration head : bytes) : list FileWrite :=
  ((λ hc, WriteCommand hc.1 (encode_stored_command hc.2)) <$> commands)
  ++ ((λ kb, WriteSlot kb.1 kb.2) <$> slots)
  ++ [WriteConfiguration configuration; WriteHead head; SetWalLength 0].

(** [commit_transition_unlocked]. *)
Definition transition_writes (slot : N) (slot_bytes configuration head intent : bytes) : list FileWrite :=
  [WriteIntent intent; WriteSlot slot slot_bytes; WriteConfiguration configuration; WriteHead head;
   RemoveIntent].

(** [commit_configuration_head_unlocked]. *)
Definition configuration_head_writes (configuration head : bytes) : list FileWrite :=
  [WriteHeadIntent (encode_configuration_head_intent configuration head);
   WriteConfiguration configuration; WriteHead head; RemoveHeadIntent].

(** ** Opening *)

(** A recorder over the files of a root. *)
Definition recorder_of (recorder_id : NodeId) (cluster_id : bytes) (epoch : N)
    (c : RecorderConfiguration) (head : RecordedHeadProvenance) (w : RecorderWal) (r : RecorderRoot) :
    RecorderFileStore :=
  mkRecorder recorder_id cluster_id epoch c head w (root_slots r) (root_commands r)
    (default [] (root_configuration r)) (default [] (root_head r)).

Definition recover_configuration_head_intent : opening () :=
  r ← root;
  intent ← check (read_preflight_intent (root_head_intent r) MAX_CONFIGURATION_HEAD_INTENT_BYTES
                    "configuration-head.intent");
  match intent with
  | None => mret ()
  | Some contents =>
      '(configuration_bytes, head_bytes) ← check (decode_configuration_head_intent contents);
      _ ← put (WriteConfiguration configuration_bytes);
      _ ← put (WriteHead head_bytes);
      put RemoveHeadIntent
  end.

(** The configuration in memory after [recover_intent]; the store has no head and
    the default checkpoint at this point of the opening. *)
Definition recover_intent (cluster_id : bytes) (epoch : N) (c : RecorderConfiguration) :
    opening RecorderConfiguration :=
  _ ← recover_configuration_head_intent;
  r ← root;
  intent ← check (read_preflight_intent (root_intent r) MAX_TRANSITION_INTENT_BYTES
                    "configuration.intent");
  match intent with
  | None => mret c
  | Some contents =>
      '(slot, slot_bytes, configuration_bytes) ← check (decode_transition_intent contents);
      next ← check (decode_configuration_state configuration_bytes);
      state ← check (decode_recorder_state slot_bytes);
      let head :=
        if eqb (rc_max_slot next) (Some (ss_slot state)) && negb (length (recorder_state_values state) =? 0)
        then SlotBacked (ss_slot state) else HeadEmpty in
      _ ← put (WriteSlot slot slot_bytes);
      _ ← put (WriteConfiguration configuration_bytes);
      head_bytes ← check (encode_recorded_head cluster_id epoch next head []
                            (wal_checkpoint wal_default));
      _ ← put (WriteHead head_bytes);
      _ ← put RemoveIntent;
      mret next
  end.

(** Puts back the slot files that the head carries. *)
Definition restore_snapshot (recorder_id : NodeId) (cluster_id : bytes) (epoch : N)
    (c : RecorderConfiguration) (snapshot : DurableSlotSnapshot) : opening () :=
  state ← check (decode_recorder_state (dss_bytes snapshot));
  _ ← check (reject_if (state_identity_differs state (dss_slot snapshot) cluster_id epoch c)
        (Decode "durable recorder snapshot identity mismatch"));
  r ← root;
  let store := recorder_of recorder_id cluster_id epoch c HeadEmpty wal_default r in
  _ ← check (collect (λ value, (validate_value_unlocked (dss_slot snapshot) value store).1)
               (recorder_state_values state));
  match read_regular_file_bounded (root_slots r !! dss_slot snapshot) MAX_RECORDER_STATE_BYTES "slot cache" with
  | Ok contents =>
      if eqb contents (dss_bytes snapshot) then mret ()
      else put (WriteSlot (dss_slot snapshot) (dss_bytes snapshot))
  | Err _ => put (WriteSlot (dss_slot snapshot) (dss_bytes snapshot))
  end.
Fixpoint restore_snapshots (recorder_id : NodeId) (cluster_id : bytes) (epoch : N)
    (c : RecorderConfiguration) (l : list DurableSlotSnapshot) : opening () :=
  match l with
  | [] => mret ()
  | snapshot :: l =>
      _ ← restore_snapshot recorder_id cluster_id epoch c snapshot;
      restore_snapshots recorder_id cluster_id epoch c l
  end.

(** The greatest slot that the head stands for. *)
Definition recovered_max (store : RecorderFileStore) (c : RecorderConfiguration)
    (head : RecordedHeadProvenance) : result Error (option N) :=
  match head with
  | HeadEmpty => Ok None
  | SlotBacked slot =>
      state ← (load_unlocked slot (rc_config_digest c) store).1;
      _ ← reject_if (length (recorder_state_values state) =? 0)
            (Decode "slot-backed recorder head references a state without a value");
      _ ← collect (λ value, (validate_value_unlocked slot value store).1) (recorder_state_values state);
      Ok (Some slot)
  | CheckpointBacked stop_slot prefix_hash recovered_tip recovered_hash =>
      predecessor ← ok_or (rc_predecessor c)
                      (Decode "checkpoint-backed head has no predecessor binding");
      _ ← reject_if (negb (rc_activated c) || neqb (cs_stop_slot predecessor) stop_slot
            || neqb (cs_prefix_hash predecessor) prefix_hash || (recovered_tip <=? stop_slot)%N
            || eqb recovered_hash LogHash_ZERO || neqb (rc_max_slot c) (Some recovered_tip))
            (Decode "checkpoint-backed recorder head evidence is invalid");
      Ok (Some recovered_tip)
  end.

(** The configuration, with the greatest slot of the head. *)
Definition install_recorded_head (recorder_id : NodeId) (cluster_id : bytes) (epoch : N)
    (c : RecorderConfiguration) (head : RecordedHeadProvenance)
    (recent_slots : list DurableSlotSnapshot) (checkpoint : WalCheckpoint) :
    opening RecorderConfiguration :=
  _ ← restore_snapshots recorder_id cluster_id epoch c recent_slots;
  r ← root;
  max_slot ← check (recovered_max (recorder_of recorder_id cluster_id epoch c HeadEmpty wal_default r) c head);
  _ ← check (ok_or (checked_add (wc_through_sequence checkpoint) 1)
               (Decode "recorder WAL sequence exhausted"));
  mret (set_max_slot c max_slot).

Definition open_or_initialize_recorded_head (recorder_id : NodeId) (cluster_id : bytes) (epoch : N)
    (c : RecorderConfiguration) (existing_format : bool) :
    opening (RecorderConfiguration * RecordedHeadProvenance * WalCheckpoint) :=
  r ← root;
  '(head, recent_slots, checkpoint) ←
    match root_head r with
    | Some _ =>
        contents ← check (read_regular_file_bounded (root_head r) MAX_RECORDED_HEAD_BYTES "recorded-head.rec");
        check (decode_recorded_head contents cluster_id epoch c)
    | None =>
        _ ← check (reject_if existing_format (MigrationRequired "recorder durable head" 2));
        let checkpoint := wal_checkpoint wal_default in
        head_bytes ← check (encode_recorded_head cluster_id epoch c HeadEmpty [] checkpoint);
        _ ← put (WriteHead head_bytes);
        mret (HeadEmpty, [], checkpoint)
    end;
  c ← install_recorded_head recorder_id cluster_id epoch c head recent_slots checkpoint;
  mret (c, head, checkpoint).

Definition open_or_replay_wal (recorder_id : NodeId) (cluster_id : bytes) (epoch : N)
    (c : RecorderConfiguration) (head : RecordedHeadProvenance) (checkpoint : WalCheckpoint) :
    opening RecorderFileStore :=
  r ← root;
  _ ← match root_wal r with None => put (AppendWal []) | Some _ => mret () end;
  r ← root;
  contents ← check (read_regular_file_bounded (root_wal r) MAX_RECORDER_WAL_BYTES "recorder.wal");
  let cached hash :=
    match read_existing_command_cache (root_commands r) hash with
    | Ok command => Ok command
    | Err _ => Err CommandUnavailable
    end in
  '(acc, offset) ← check (replay_log cached cluster_id epoch checkpoint contents c head);
  _ ← (if neqb offset (blen contents) then put (SetWalLength offset) else mret ());
  r ← root;
  mret (recorder_of recorder_id cluster_id epoch (rp_configuration acc) (rp_head acc)
    (mkWal checkpoint (rp_next_sequence acc) (rp_last_digest acc) (rp_frame_count acc) offset
       (rp_slots acc) (rp_commands acc) (default [] (root_wal r)) false) r).

(** The root holds files of a recorder, of this or of an older format. *)
Definition existing_format (r : RecorderRoot) : bool :=
  neqb (root_head r) None || neqb (root_configuration r) None
  || negb (bool_decide (root_slots r = ∅)) || negb (bool_decide (root_commands r = ∅)).

(** [commit_configuration_head_unlocked] on a root, for the first configuration. *)
Definition commit_initial_configuration (cluster_id : bytes) (epoch : N) (c : RecorderConfiguration) :
    opening () :=
  configuration_bytes ← check (encode_configuration_state c);
  head_bytes ← check (encode_recorded_head cluster_id epoch c HeadEmpty [] (wal_checkpoint wal_default));
  put_writes (configuration_head_writes configuration_bytes head_bytes).

Definition is_missing (e : Error) : bool :=
  match e with Decode message => String.prefix "recorder is missing " message | _ => false end.

Definition open_with_membership (recorder_id : NodeId) (cluster_id : bytes) (epoch config_id : N)
    (membership : Membership) (existing_only : bool) : opening RecorderFileStore :=
  _ ← check (reject_if (blen recorder_id =? 0)%N EmptyRecorderIdentity);
  r ← root;
  let existing_format := existing_format r in
  _ ← match preflight_existing_with_membership_outcome r cluster_id epoch config_id membership with
      | Ok Missing =>
          check (reject_if existing_only (Decode "recorder root is missing durable state"))
      | Ok _ => mret ()
      | Err e => if existing_format && is_missing e then mret () else check (Err e)
      end;
  _ ← recover_configuration_head_intent;
  r ← root;
  configured ←
    match root_configuration r with
    | Some _ =>
        contents ← check (read_regular_file_bounded (root_configuration r) MAX_CONFIGURATION_BYTES
                            "configuration.rec");
        check (decode_configuration_state contents)
    | None =>
        _ ← check (reject_if existing_format (MigrationRequired "recorder durable head" 2));
        let configured := configuration_initial config_id (m_digest membership) (Some membership) in
        _ ← commit_initial_configuration cluster_id epoch configured;
        mret configured
    end;
  _ ← check (reject_if (option_holds (rc_membership configured)
                          (λ current, neqb (m_digest current) (rc_config_digest configured)))
               (Decode "installed membership digest mismatch"));
  configured ← recover_intent cluster_id epoch configured;
  '(c, head, checkpoint) ←
    open_or_initialize_recorded_head recorder_id cluster_id epoch configured existing_format;
  open_or_replay_wal recorder_id cluster_id epoch c head checkpoint.
End reopen.
