(* ===== verification/RecorderSpec.v ===== *)
(** * RecorderSpec: what the durable recorder promises

    The theorems about the operations of [Recorder].  The files and the log are
    seen through their contents ([slots_of], [commands_of]); every operation
    leaves the contents as they were or commits one slot state together with
    the configuration that follows from it. *)

From S2P Require Import Prelude Bytes Text Core ConfigChange Proposal Isr DecisionProof RecorderCodec Recorder.
From Stdlib Require Strings.Byte.

(** ** Calls that only read *)

Definition read_only {A} (c : call A) : Prop := ∀ s r s', c s = (r, s') → s' = s.

Lemma call_bind_cases {A B} (c : call A) (f : A → call B) s r s' :
  (c ≫= f) s = (r, s') →
  (∃ e, r = Err e ∧ c s = (Err e, s')) ∨ (∃ a s1, c s = (Ok a, s1) ∧ f a s1 = (r, s')).
Proof.
  unfold mbind, call_bind. destruct (c s) as [[a|e] s1]; intros Hr; [eauto|].
  injection Hr as <- <-. eauto.
Qed.

Lemma read_only_bind {A B} (c : call A) (f : A → call B) :
  read_only c → (∀ a, read_only (f a)) → read_only (c ≫= f).
Proof.
  intros Hc Hf s r s' [(e & -> & H)|(a & s1 & H1 & H2)]%call_bind_cases; [by eapply Hc|].
  apply Hc in H1 as ->. by eapply Hf.
Qed.
Lemma read_only_store : read_only store.
Proof. by intros s r s' [= <- <-]. Qed.
Lemma read_only_lift {A} (x : result Error A) : read_only (lift x).
Proof. by intros s r s' [= <- <-]. Qed.
Lemma read_only_mret {A} (x : A) : read_only (mret x).
Proof. by intros s r s' [= <- <-]. Qed.
Lemma read_only_reject {A} reason : read_only (reject (A := A) reason).
Proof. by intros s r s' [= <- <-]. Qed.
Lemma read_only_reject_when b reason : read_only (reject_when b reason).
Proof. apply read_only_lift. Qed.

Lemma store_bind {A} (f : RecorderFileStore → call A) s : (store ≫= f) s = f s s.
Proof. done. Qed.

Create HintDb read_only.
#[export] Hint Resolve read_only_store read_only_lift read_only_mret read_only_reject
  read_only_reject_when : read_only.
(** [read_only_tac] follows the structure of a call. *)
Ltac read_only_tac :=
  repeat first
    [ progress (intros; cbn beta iota zeta)
    | solve [eauto with read_only]
    | match goal with
      | |- read_only (match ?x with _ => _ end) => destruct x
      | |- read_only (if ?x then _ else _) => destruct x
      end
    | apply read_only_bind ].

Section spec.
Context `{Sha256}.

Lemma read_only_fetch_cache h : read_only (fetch_command_cache_unlocked h).
Proof. unfold fetch_command_cache_unlocked. read_only_tac. Qed.
Hint Resolve read_only_fetch_cache : read_only.
Lemma read_only_fetch h : read_only (fetch_command_unlocked h).
Proof. unfold fetch_command_unlocked. read_only_tac. Qed.
Hint Resolve read_only_fetch : read_only.
Lemma read_only_command_for_value v : read_only (command_for_value_unlocked v).
Proof. unfold command_for_value_unlocked. read_only_tac. Qed.
Hint Resolve read_only_command_for_value : read_only.
Lemma read_only_change_for_value v : read_only (change_for_value_unlocked v).
Proof. unfold change_for_value_unlocked. read_only_tac. Qed.
Lemma read_only_validate_value slot v : read_only (validate_value_unlocked slot v).
Proof. unfold validate_value_unlocked. read_only_tac. Qed.
Lemma read_only_load slot d : read_only (load_unlocked slot d).
Proof. unfold load_unlocked. read_only_tac. Qed.
Lemma read_only_record_context q : read_only (validate_record_context q).
Proof. unfold validate_record_context. read_only_tac. Qed.
Lemma read_only_request_context q : read_only (validate_request_context q).
Proof. unfold validate_request_context. read_only_tac. Qed.
Hint Resolve read_only_change_for_value read_only_validate_value read_only_load
  read_only_record_context read_only_request_context : read_only.

(** ** Contents *)

Definition slots_of (s : RecorderFileStore) : gmap N bytes := wal_slots (r_wal s) ∪ r_slot_files s.
Definition commands_of (s : RecorderFileStore) : gmap LogHash bytes :=
  (encode_stored_command <$> wal_commands (r_wal s)) ∪ r_command_files s.

(** A log without frames holds nothing. *)
Definition wal_inv (s : RecorderFileStore) : Prop :=
  wal_frame_count (r_wal s) = 0%N → wal_slots (r_wal s) = ∅ ∧ wal_commands (r_wal s) = ∅.

(** The identity of a recorder never changes. *)
Definition same_identity (s s' : RecorderFileStore) : Prop :=
  r_recorder_id s' = r_recorder_id s ∧ r_cluster_id s' = r_cluster_id s ∧ r_epoch s' = r_epoch s.

(** Every stored command is filed under its hash. *)
Definition commands_ok (s : RecorderFileStore) : Prop :=
  ∀ h b, commands_of s !! h = Some b → ∃ c, b = encode_stored_command c ∧ command_hash c = h.

(** What every call keeps. *)
Record carries (s s' : RecorderFileStore) : Prop := {
  c_identity : same_identity s s';
  c_wal : wal_inv s → wal_inv s';
  c_commands : commands_ok s → commands_ok s';
  c_dom : dom (commands_of s) ⊆ dom (commands_of s')
}.

(** Nothing but the set of commands has changed. *)
Record quiet (s s' : RecorderFileStore) : Prop := {
  q_carries : carries s s';
  q_configuration : r_configuration s' = r_configuration s;
  q_head : r_recorded_head s' = r_recorded_head s;
  q_slots : slots_of s' = slots_of s
}.

(** One slot state and the configuration that goes with it were written. *)
Record committed (st : RecorderSlotState) (c : RecorderConfiguration) (s s' : RecorderFileStore) : Prop := {
  k_carries : carries s s';
  k_configuration : r_configuration s' = c;
  k_slots : ∃ b, encode_recorder_state st = Ok b ∧ (blen b ≤ u64_max)%N
                 ∧ slots_of s' = <[ss_slot st := b]> (slots_of s)
}.

#[export] Instance carries_preorder : PreOrder carries.
Proof.
  split.
  - intros s. by split; [repeat split|..].
  - intros s1 s2 s3 [(?&?&?) ? ? ?] [(?&?&?) ? ? ?].
    split; [repeat split; congruence|auto|auto|set_solver].
Qed.
#[export] Instance quiet_preorder : PreOrder quiet.
Proof.
  split.
  - intros s. by split.
  - intros s1 s2 s3 [? ? ? ?] [? ? ? ?]. split; [by etransitivity|congruence..].
Qed.
Lemma committed_after_quiet st c s1 s2 s3 :
  quiet s1 s2 → committed st c s2 s3 → committed st c s1 s3.
Proof.
  intros [? ? ? Hs] [? ? (b & ? & ? & Hb)]. split; [by etransitivity|done|].
  exists b. by rewrite <-Hs.
Qed.

(** Moving the contents of the log to the files, and clearing it, keeps them. *)
Lemma union_absorb `{Countable K} {A} (m n : gmap K A) : m ∪ (m ∪ n) = m ∪ n.
Proof. by rewrite (assoc_L (∪)), (idemp_L (∪)). Qed.

Lemma carries_contents s s' :
  same_identity s s' → wal_inv s' → commands_of s' = commands_of s → carries s s'.
Proof. intros ? ? Hc. split; unfold commands_ok; rewrite ?Hc; auto. Qed.

Lemma checkpoint_quiet s r s' :
  wal_inv s → checkpoint_wal_unlocked s = (r, s') →
  quiet s s' ∧ (r = Ok () → wal_slots (r_wal s') = ∅ ∧ wal_commands (r_wal s') = ∅).
Proof.
  intros Hw. unfold checkpoint_wal_unlocked, store, lift, update, mret, call_ret, mbind, call_bind.
  cbn. intros Hr.
  destruct (wal_failed (r_wal s)) eqn:Hf; cbn in Hr; [simplify_eq; by split|].
  destruct (N.eqb_spec (wal_frame_count (r_wal s)) 0) as [H0|H0]; [simplify_eq; split; [done|auto]|].
  destruct (checked_add _ _); cbn in Hr; [|simplify_eq; by split].
  destruct (encode_configuration_state _); cbn in Hr;
    [destruct (encode_recorded_head _ _ _ _ _ _); cbn in Hr|];
    injection Hr as <- <-;
    (split; [split; [apply carries_contents; [by repeat split|by intros|unfold commands_of]
                    |done|done|unfold slots_of]|by intros]);
    cbn; rewrite ?fmap_empty, ?(left_id_L ∅ (∪)), ?union_absorb; done.
Qed.

Lemma store_command_quiet h c s r s' :
  store_command_unlocked h c s = (r, s') → quiet s s'.
Proof.
  unfold store_command_unlocked. intros [(e & _ & Hr)|(u & s1 & Hr & Hk)]%call_bind_cases.
  { apply read_only_lift in Hr as ->. done. }
  unfold lift in Hr. injection Hr as Hr <-. apply reject_if_Ok in Hr. rewrite neqb_false in Hr.
  unfold store, mbind, call_bind, mret, call_ret, lift in Hk. cbn in Hk.
  destruct (wal_commands (r_wal s) !! h) as [x|] eqn:Hx.
  { destruct (eqb x c); by simplify_eq. }
  unfold stage_command_unlocked, store, mbind, call_bind, mret, call_ret, lift in Hk. cbn in Hk.
  destruct (r_command_files s !! h) as [b|] eqn:Hb.
  { destruct (fetch_command_cache_unlocked h s) as [[o|e] s2] eqn:Hf;
      apply read_only_fetch_cache in Hf as ->; [|by simplify_eq].
    destruct o as [x|]; [destruct (eqb x c)|]; by simplify_eq. }
  unfold update in Hk. injection Hk as <- <-.
  assert (commands_of (set_command_files (<[h:=encode_stored_command c]> (r_command_files s)) s)
    = <[h:=encode_stored_command c]> (commands_of s)) as Hc.
  { unfold commands_of. cbn. rewrite <-insert_union_r; [done|]. by rewrite lookup_fmap, Hx. }
  split; [|done..]. split; [by repeat split|done| |rewrite Hc; set_solver].
  intros Hok h' b'. rewrite Hc. intros [[<- <-]|[? ?]]%lookup_insert_Some; [by exists c|by apply Hok].
Qed.

Lemma store_command_wal h c s r s' : store_command_unlocked h c s = (r, s') → r_wal s' = r_wal s.
Proof.
  unfold store_command_unlocked, stage_command_unlocked, mbind, call_bind, lift, store, mret, call_ret.
  intros Hr. destruct (reject_if _ _); cbn in Hr; [|by simplify_eq].
  destruct (wal_commands (r_wal s) !! h) as [x|]; [destruct (eqb x c); by simplify_eq|].
  destruct (r_command_files s !! h) as [b|]; [|by injection Hr as <- <-].
  destruct (fetch_command_cache_unlocked h s) as [[[x|]|e] s1] eqn:Hf;
    apply read_only_fetch_cache in Hf as ->; [destruct (eqb x c)|..]; by simplify_eq.
Qed.

Lemma intent_slot_length slot x y e : encode_transition_intent slot x y = Ok e → (blen x ≤ u64_max)%N.
Proof.
  unfold encode_transition_intent, put_bytes. intros He.
  apply bind_Ok_inv in He as (z & Hz & _). apply bind_Ok_inv in Hz as (u & Hu & _).
  apply reject_if_Ok in Hu. rewrite negb_false_iff in Hu. apply N.leb_le in Hu.
  etransitivity; [exact Hu|]. by apply N.leb_le.
Qed.

(** A command that goes to the log is filed under its hash. *)
Definition command_filed (command : option (LogHash * StoredCommand)) : Prop :=
  match command with Some (h, c) => command_hash c = h | None => True end.

(** The outcome of writing a slot state: it is committed, or nothing changed, or
    the storage gave up (an I/O error, a counter that is exhausted). *)
Definition write_outcome (st : RecorderSlotState) (c : RecorderConfiguration)
    (r : result Error ()) (s s' : RecorderFileStore) : Prop :=
  (r = Ok () ∧ committed st c s s') ∨ (∃ e, r = Err e ∧ quiet s s') ∨ (∃ m, r = Err (Io m)).

(** The log after a frame, seen through its contents. *)
Lemma commands_of_append s w files (command : option (LogHash * StoredCommand)) commands :
  commands = match command with
             | Some (h, c) => match wal_commands w !! h with Some _ => wal_commands w
                              | None => <[h := c]> (wal_commands w) end
             | None => wal_commands w
             end →
  commands_of s = (encode_stored_command <$> wal_commands w) ∪ files →
  command_filed command →
  (commands_ok s → ∀ h b, ((encode_stored_command <$> commands) ∪ files) !! h = Some b →
     ∃ c, b = encode_stored_command c ∧ command_hash c = h)
  ∧ dom (commands_of s) ⊆ dom ((encode_stored_command <$> commands) ∪ files).
Proof.
  intros -> Hs Hf. unfold commands_ok. rewrite Hs.
  destruct command as [[h c]|]; [|by split]. destruct (wal_commands w !! h) eqn:Hh; [by split|].
  rewrite fmap_insert, <-insert_union_l. split; [|set_solver].
  intros Hok h' b' [[<- <-]|[? ?]]%lookup_insert_Some; [by exists c|by apply Hok].
Qed.

Lemma set_wal_twice w w' s : set_wal w (set_wal w' s) = set_wal w s.
Proof. done. Qed.

(** A frame with the slot state was appended. *)
Record appended (st : RecorderSlotState) (s s' : RecorderFileStore) : Prop := {
  a_carries : carries s s';
  a_configuration : r_configuration s' = r_configuration s;
  a_slots : ∃ b, encode_recorder_state st = Ok b ∧ (blen b ≤ u64_max)%N
                 ∧ slots_of s' = <[ss_slot st := b]> (slots_of s)
}.

(** The second part of [append_wal_unlocked], after a possible checkpoint. *)
Lemma append_frame st c head command s frame d b next size :
  wal_inv s → command_filed command →
  encode_wal_frame (wc_generation (wal_checkpoint (r_wal s))) (wal_next_sequence (r_wal s))
    (wal_last_digest (r_wal s)) st c head command = Ok (frame, d, b) →
  appended st s (set_wal (mkWal (wal_checkpoint (r_wal s)) next d (wal_frame_count (r_wal s) + 1) size
    (<[ss_slot st := b]> (wal_slots (r_wal s)))
    match command with
    | Some (hash, command) =>
        match wal_commands (r_wal s) !! hash with
        | Some _ => wal_commands (r_wal s)
        | None => <[hash := command]> (wal_commands (r_wal s))
        end
    | None => wal_commands (r_wal s)
    end (wal_file (r_wal s) ++ frame) (wal_failed (r_wal s))) s).
Proof.
  intros Hw Hf He. apply encode_wal_frame_Ok in He as (cb & sbl & cbl & cmd & Hb & _ & Hsbl & _).
  set (commands := match command with Some _ => _ | None => _ end).
  pose proof (commands_of_append s (r_wal s) (r_command_files s) command commands eq_refl eq_refl Hf) as Hc.
  split; [|done|].
  - split; [by repeat split|unfold wal_inv; cbn; lia|exact (proj1 Hc)|exact (proj2 Hc)].
  - exists b. split; [done|]. split; [by eapply put_blob_length|].
    unfold slots_of; cbn. by rewrite insert_union_l.
Qed.

Lemma append_wal_outcome st c head command s r s' :
  wal_inv s → command_filed command → append_wal_unlocked st c head command s = (r, s') →
  (r = Ok () ∧ ∃ s1, quiet s s1 ∧ appended st s1 s') ∨ (∃ e, r = Err e ∧ quiet s s')
  ∨ (∃ m, r = Err (Io m)).
Proof.
  intros Hw Hf. unfold append_wal_unlocked.
  rewrite store_bind. intros Hk.
  apply call_bind_cases in Hk as [(e & -> & Hr)|(u & s0 & Hr & Hk)].
  { apply read_only_lift in Hr as ->. right; left; by eexists. }
  apply read_only_lift in Hr as ->.
  apply call_bind_cases in Hk as [(e & -> & Hr)|([] & s0 & Hr & Hk)].
  { right; left; exists e. split; [done|]. destruct (_ || _); [|by apply read_only_mret in Hr as ->].
    by apply checkpoint_quiet in Hr as [? _]. }
  assert (quiet s s0) as Hq.
  { destruct (_ || _); [|by apply read_only_mret in Hr as ->]. by apply checkpoint_quiet in Hr as [? _]. }
  clear Hr. assert (wal_inv s0) as Hw0 by (by apply Hq).
  rewrite store_bind in Hk. cbn zeta in Hk.
  apply call_bind_cases in Hk as [(e & -> & Hr)|([[frame d] b] & s2 & Hr & Hk)].
  { apply read_only_lift in Hr as ->. right; left; by eexists. }
  unfold lift in Hr. injection Hr as He <-.
  unfold update, lift, mbind, call_bind in Hk. cbn beta iota in Hk.
  destruct (checked_add (wal_next_sequence _) 1) as [next|]; cbn [ok_or] in Hk; [|by simplify_eq; eauto].
  destruct (checked_add (wal_byte_count _) _) as [size|]; cbn [ok_or] in Hk; [|by simplify_eq; eauto].
  left. injection Hk as <- <-. split; [done|]. exists s0. split; [done|].
  rewrite !set_wal_twice. by eapply append_frame.
Qed.

Lemma commit_transition_outcome st c s r s' :
  wal_inv s → wal_slots (r_wal s) = ∅ → commit_transition_unlocked st c s = (r, s') →
  write_outcome st c r s s'.
Proof.
  intros Hw Hempty. unfold commit_transition_unlocked. rewrite store_bind. intros Hr.
  apply call_bind_cases in Hr as [(e & -> & Hr)|(b & s1 & Hb & Hr)].
  { apply read_only_lift in Hr as ->. right; left. by eexists. }
  injection Hb as Hb <-.
  apply call_bind_cases in Hr as [(e & -> & Hr)|(cb & s1 & Hcb & Hr)].
  { apply read_only_lift in Hr as ->. right; left. by eexists. }
  injection Hcb as Hcb <-. cbn zeta in Hr.
  apply call_bind_cases in Hr as [(e & -> & Hr)|(hb & s1 & Hhb & Hr)].
  { apply read_only_lift in Hr as ->. right; left. by eexists. }
  injection Hhb as Hhb <-.
  apply call_bind_cases in Hr as [(e & -> & Hr)|(ib & s1 & Hib & Hr)].
  { apply read_only_lift in Hr as ->. right; left. by eexists. }
  injection Hib as Hib <-. unfold update, mbind, call_bind in Hr. injection Hr as <- <-.
  left. split; [done|]. split; [|done|].
  - apply carries_contents; [by repeat split|done|done].
  - exists b. split; [done|]. split; [by eapply intent_slot_length|].
    unfold slots_of; cbn. by rewrite Hempty, !(left_id_L ∅ (∪)).
Qed.

Lemma persist_outcome st previous next command s r s' :
  wal_inv s → command_filed command →
  persist_state_transition_with_command_unlocked st previous next command s = (r, s') →
  write_outcome st next r s s'.
Proof.
  intros Hw Hf. unfold persist_state_transition_with_command_unlocked.
  destruct (configuration_structure_changed previous next).
  - intros [(e & -> & Hr)|([] & s1 & Hc & Hr)]%call_bind_cases.
    { apply checkpoint_quiet in Hr as [? _]; [|done]. right; left. by eexists. }
    apply checkpoint_quiet in Hc as [Hq Hempty]; [|done]. specialize (Hempty eq_refl) as [Hs Hc].
    assert (wal_inv s1) as Hw1 by (by apply Hq).
    apply call_bind_cases in Hr as [(e & -> & Hr)|([] & s2 & Hk & Hr)].
    { right; left. exists e. split; [done|]. etransitivity; [done|].
      destruct command as [[h x]|]; [by eapply store_command_quiet|by apply read_only_mret in Hr as ->]. }
    assert (quiet s1 s2 ∧ wal_slots (r_wal s2) = ∅) as [Hq2 Hs2].
    { destruct command as [[h x]|]; [|by apply read_only_mret in Hk as ->].
      split; [by eapply store_command_quiet|]. by rewrite (store_command_wal _ _ _ _ _ Hk). }
    apply commit_transition_outcome in Hr as [[-> Hr]|[(e & -> & Hr)|Hr]]; [| | |by apply Hq2|done].
    + left. split; [done|]. eapply committed_after_quiet; [|done]. by etransitivity.
    + right; left. exists e. split; [done|]. by do 2 (etransitivity; [done|]).
    + by right; right.
  - rewrite store_bind. cbn zeta. intros [(e & -> & Hr)|([] & s1 & Hr & Hk)]%call_bind_cases.
    + apply append_wal_outcome in Hr as [[? _]|[?|(m & [= ->])]]; try done; [by right; left|].
      right; right. by eexists.
    + apply append_wal_outcome in Hr as [[_ (s2 & Hq & [Ha Hcfg Hsl])]|[(? & ? & _)|(? & ?)]]; try done.
      unfold update in Hk. injection Hk as <- <-. left. split; [done|].
      eapply committed_after_quiet; [done|]. split; [|done|].
      * etransitivity; [exact Ha|]. by split; [repeat split|..].
      * exact Hsl.
Qed.

(** [read_step H] runs the next reading call of [H]: its error leaves everything
    as it was (the goal's first case), its result is named. *)
Tactic Notation "read_step" hyp(H) ident(a) ident(Hc) :=
  let e := fresh "e" in let s1 := fresh "s" in
  apply call_bind_cases in H as [(e & -> & H)|(a & s1 & Hc & H)];
  [ left; exists e; split; [done|];
    match type of H with
    | ?c ?s = (_, ?s') =>
        let Hro := fresh in assert (read_only c) as Hro by read_only_tac;
        apply Hro in H; subst s'; reflexivity
    end
  | match type of Hc with
    | ?c ?s = (_, s1) =>
        let Hro := fresh in let Heq := fresh in
        assert (read_only c) as Hro by read_only_tac; pose proof (Hro _ _ _ Hc) as Heq;
        subst s1; clear Hro
    end ].

(** The checks that a recorded proposal passed, and the state it was recorded in. *)
Record record_checks (q : RecordRequest) (s : RecorderFileStore) (value : AcceptedValue)
    (command : StoredCommand) (change : option ConfigChange) (state next : RecorderSlotState)
    (sm : RecordSummary) : Prop := {
  rk_context : rq_cluster_id q = r_cluster_id s ∧ rq_epoch q = r_epoch s
               ∧ rq_config_id q = rc_config_id (r_configuration s)
               ∧ (rc_config_digest (r_configuration s) ≠ LogHash_ZERO →
                  rq_config_digest q = rc_config_digest (r_configuration s));
  rk_value : p_value (rq_proposal q) = Some value;
  rk_command : from_command (r_cluster_id s) (rq_slot q) (r_epoch s)
                 (rc_config_id (r_configuration s)) (av_prev_hash value) command = value;
  rk_inline : ∀ c, rq_command q = Some c → c = command;
  rk_stored : rq_command q = None → command_for_value_unlocked value s = (Ok command, s);
  rk_change : change_for_command command = Ok change;
  rk_active : rc_activated (r_configuration s) = true ∨ change ≠ None;
  rk_gate : validate_slot_gate s (r_configuration s) (rq_slot q) change = Ok ();
  rk_load : load_unlocked (rq_slot q) (rq_config_digest q) s = (Ok state, s);
  rk_record : slot_record_proposal (r_recorder_id s) state q = Ok (next, sm)
}.

Lemma record_context_Ok q s :
  validate_record_context q s = (Ok (), s) →
  rq_cluster_id q = r_cluster_id s ∧ rq_epoch q = r_epoch s
  ∧ rq_config_id q = rc_config_id (r_configuration s)
  ∧ (rc_config_digest (r_configuration s) ≠ LogHash_ZERO →
     rq_config_digest q = rc_config_digest (r_configuration s)).
Proof.
  unfold validate_record_context. intros Hc. rewrite store_bind in Hc. cbn zeta in Hc. call_inv.
  bool_prop. naive_solver.
Qed.

(** The outcomes of [record_proposal]: a rejection that leaves everything as it
    was, a decided slot that answers with its proof, or the write of the next state. *)
Lemma record_proposal_runs q s r s' :
  record_proposal q s = (r, s') →
  (∃ e, r = Err e ∧ s' = s) ∨
  (∃ sm value command change state next,
     record_checks q s value command change state next sm ∧
     ((is_Some (ss_decided_proof state) ∧ r = Ok sm ∧ s' = s)
      ∨ (ss_decided_proof state = None
         ∧ ∃ c r1, transition_after_apply (r_configuration s) next change (Some value) = Ok c
           ∧ persist_state_transition_with_command_unlocked next (r_configuration s) c
               ((λ command, (av_command_hash value, command)) <$> rq_command q) s = (r1, s')
           ∧ r = (_ ← r1; Ok sm)))).
Proof.
  intros Hr. unfold record_proposal in Hr.
  read_step Hr u Hctx. destruct u. read_step Hr value Hv. rewrite store_bind in Hr. cbn zeta in Hr.
  read_step Hr command Hcmd. read_step Hr change Hch. read_step Hr u Hact. read_step Hr u' Hgate.
  read_step Hr u'' Hval. read_step Hr state Hload. read_step Hr p Hrec. destruct p as [next sm].
  injection Hv as Hv. apply ok_or_Ok in Hv. injection Hch as Hch. injection Hgate as Hgate.
  injection Hrec as Hrec. apply map_err_Ok in Hrec. destruct u, u', u''.
  unfold reject_when in Hact. injection Hact as Hact. apply reject_if_Ok in Hact.
  assert (record_checks q s value command change state next sm) as Hk.
  { split; try done.
    - by apply record_context_Ok.
    - unfold validate_resolved_command_for_value in *.
      destruct (rq_command q); call_inv; bool_prop; done.
    - destruct (rq_command q); [|done]. call_inv. by intros ? [= ->].
    - destruct (rq_command q); done.
    - bool_prop. destruct Hact; [by left|right; done]. }
  destruct (ss_decided_proof state) as [proof|] eqn:Hdec.
  { injection Hr as <- <-. right. exists sm, value, command, change, state, next. rewrite Hdec. eauto 10. }
  apply call_bind_cases in Hr as [(e & -> & Hr)|(c & s1 & Hc & Hr)].
  { apply read_only_lift in Hr as ->. left. by exists e. }
  unfold lift in Hc. injection Hc as Hc <-.
  right. exists sm, value, command, change, state, next. split; [done|]. right. split; [done|].
  apply call_bind_cases in Hr as [(e & -> & Hr)|([] & s1 & Hp & Hr)].
  - exists c, (Err e). done.
  - injection Hr as <- <-. exists c, (Ok ()). done.
Qed.

(** The same, seen through the contents. *)
Lemma record_proposal_cases q s r s' :
  wal_inv s → record_proposal q s = (r, s') →
  (∃ e, r = Err e ∧ quiet s s') ∨ (∃ m, r = Err (Io m)) ∨
  (∃ sm value command change state next,
     r = Ok sm ∧ record_checks q s value command change state next sm ∧
     ((is_Some (ss_decided_proof state) ∧ s' = s)
      ∨ (ss_decided_proof state = None
         ∧ ∃ c, transition_after_apply (r_configuration s) next change (Some value) = Ok c
                ∧ committed next c s s'))).
Proof.
  intros Hw [(e & -> & ->)|(sm & value & command & change & state & next & Hk & Hr)]%record_proposal_runs.
  { left. by exists e. }
  destruct Hr as [(Hdec & -> & ->)|(Hdec & c & r1 & Ht & Hp & ->)].
  { right; right. exists sm, value, command, change, state, next. eauto 10. }
  assert (command_filed ((λ command, (av_command_hash value, command)) <$> rq_command q)) as Hf.
  { destruct (rq_command q) as [x|] eqn:Hx; [|done]. cbn. rewrite (rk_inline _ _ _ _ _ _ _ _ Hk x Hx).
    rewrite <-(rk_command _ _ _ _ _ _ _ _ Hk). done. }
  apply persist_outcome in Hp as [[-> Hcom]|[(e & -> & Hq)|(m & ->)]]; [| | |done|done].
  - right; right. exists sm, value, command, change, state, next. eauto 10.
  - left. by exists e.
  - right; left. by exists m.
Qed.

(** ** Slot states stay readable *)

Definition request_typed (q : RecordRequest) : bool :=
  is_str (rq_cluster_id q) && is_u64 (rq_epoch q) && is_u64 (rq_config_id q) && is_u64 (rq_slot q)
  && is_u64 (rq_step q) && proposal_typed (rq_proposal q).

(** A slot state that [encode_recorder_state] writes and [decode_recorder_state] reads back. *)
Definition readable (st : RecorderSlotState) : Prop := slot_typed st = true ∧ slot_consistent st.

Lemma legacy_u128_typed p : is_u128 (legacy_u128 p) = true.
Proof.
  unfold is_u128, legacy_u128. apply N.leb_le. pose proof (be_value_bound (drop 16 (as_bytes p))) as Hb.
  rewrite length_drop, length_as_bytes in Hb. cbn in Hb. lia.
Qed.

Lemma isr_next_typed i step p :
  isr_typed i = true → is_u64 step = true → proposal_typed p = true → isr_typed (isr_next i step p) = true.
Proof.
  unfold isr_typed, isr_next. intros Hi Hs Hp. bool_prop. destruct Hi as [[[? ?] ?] ?].
  destruct (step =? isr_step i)%N; [|destruct (isr_step i <? step)%N]; cbn [isr_step isr_first_current
    isr_aggregate_current isr_aggregate_prior]; split_and!; try done.
  - by destruct (isr_first_current i).
  - by destruct (ltb _ _).
  - by destruct (step =? _)%N.
Qed.

Lemma slot_record_readable st q next sm r :
  readable st → request_typed q = true → slot_record_proposal r st q = Ok (next, sm) →
  readable next ∧ ss_slot next = ss_slot st ∧ ss_cluster_id next = ss_cluster_id st
  ∧ ss_epoch next = ss_epoch st ∧ ss_config_id next = ss_config_id st
  ∧ ss_config_digest next = ss_config_digest st.
Proof.
  intros [Ht (Ha & Hc & Hp)] Hq. unfold slot_record_proposal. destruct (ss_decided_proof st) eqn:Hd.
  { intros [= <- <-]. done. }
  intros Hr. res_inv. unfold slot_record, isr_record in Hok. res_inv. unfold request_typed in Hq. bool_prop.
  destruct Hq as [[[[[? ?] ?] ?] ?] ?]. unfold slot_typed in Ht. bool_prop.
  destruct Ht as [[[[[[[[? ?] ?] ?] ?] ?] ?] Hi] ?].
  pose proof (isr_next_typed (ss_isr st) (rq_step q) (rq_proposal q) Hi) as Hn.
  split; [|done]. split.
  - unfold slot_typed, set_legacy, set_isr. cbn -[isr_next]. bool_prop. split_and!; auto.
    unfold isr_typed in Hn. bool_prop. destruct Hn as [[[_ Hf] _] _]; [done..|].
    destruct (isr_first_current _) as [p|]; [|done]. cbn in Hf |- *.
    unfold proposal_ballot. destruct (p_value p); [|done]. cbn.
    unfold ballot_typed, proposal_typed in *; cbn. bool_prop. destruct Hf.
    split_and!; [done|apply legacy_u128_typed|done].
  - split_and!; [done| |].
    + unfold certificate_out_of_context, set_legacy, set_isr in *. done.
    + unfold proof_disagrees, set_legacy, set_isr in *. cbn. by rewrite Hd.
Qed.

Lemma certificate_from_proof_typed d cert :
  proof_typed d = true → certificate_from_proof d = Ok cert →
  certificate_typed cert = true ∧ p_value (proof_proposal d) = Some (dc_value cert)
  ∧ (dc_slot cert, dc_epoch cert, dc_config_id cert, dc_config_digest cert) = proof_context d.
Proof.
  unfold certificate_from_proof, proof_typed, certificate_typed, proposal_typed.
  destruct (proof_context d) as [[[slot epoch] config_id] dg]. intros Ht He. res_inv. cbn. bool_prop.
  destruct Ht as [[[[[[Hc ?] ?] ?] ?] [Hp ?]] Hs]. split_and!; try done.
  - unfold ballot_typed; cbn. bool_prop. split_and!; [done|apply legacy_u128_typed|].
    unfold encode_certificate_proposer. repeat apply is_str_app; try done. apply decimal_str.
  - clear -Hs. induction (proof_summaries d) as [|x l IH]; cbn in *; [done|].
    bool_prop. destruct Hs as [Hx Hl]. unfold summary_typed in Hx. bool_prop. naive_solver.
Qed.

(** The slot state that [install_decision_proof_record] writes. *)
Definition with_certificate (st : RecorderSlotState) (cert : DecisionCertificate) : RecorderSlotState :=
  match ss_decided st with Some _ => st | None => set_decided st (Some cert) end.

Lemma install_readable st proof cert st1 :
  readable st → ss_decided_proof st = None → proof_typed proof = true →
  proof_context proof = (ss_slot st, ss_epoch st, ss_config_id st, ss_config_digest st) →
  proof_cluster_id proof = ss_cluster_id st →
  slot_install_proof st proof = Ok st1 → certificate_from_proof proof = Ok cert →
  (∀ d, ss_decided st1 = Some d → dc_value d = dc_value cert) →
  readable (with_certificate st1 cert)
  ∧ ss_decided_proof (with_certificate st1 cert) = Some proof.
Proof.
  intros [Ht (Ha & Hc & _)] Hd Hpt Hctx Hcl Hi Hcert Hval.
  unfold slot_install_proof in Hi. rewrite Hd in Hi. injection Hi as <-.
  apply certificate_from_proof_typed in Hcert as (Hct & Hv & Hcc); [|done]. rewrite Hctx in Hcc.
  unfold slot_typed in Ht. bool_prop. destruct Ht as [[[[[[[[? ?] ?] ?] ?] ?] ?] ?] ?].
  unfold with_certificate. cbn in Hval |- *. destruct (ss_decided st) as [d|] eqn:Hdec.
  - split; [|done]. split; [unfold slot_typed, set_decided_proof; cbn; rewrite Hdec; by bool_prop|].
    split_and!; [done| |].
    + unfold certificate_out_of_context in *. cbn. by rewrite Hdec in *.
    + unfold proof_disagrees; cbn. rewrite Hctx, Hcl, !neqb_refl, Hdec, Hv. cbn.
      by rewrite (Hval d eq_refl), eqb_refl.
  - split; [|done]. split; [unfold slot_typed; cbn; by bool_prop|]. split_and!; [done| |].
    + injection Hcc as Hs He Hci Hcd. unfold certificate_out_of_context, certificate_validate_context; cbn.
      by rewrite Hs, He, Hci, Hcd, !neqb_refl.
    + unfold proof_disagrees; cbn. by rewrite Hctx, Hcl, !neqb_refl, Hv, eqb_refl.
Qed.

(** The checks that an installed proof passed. *)
Record install_checks (proof : DecisionProof) (m : Membership) (s : RecorderFileStore)
    (value : AcceptedValue) (state : RecorderSlotState) : Prop := {
  ik_context : proof_cluster_id proof = r_cluster_id s
    ∧ (proof_context proof).1.1.2 = r_epoch s
    ∧ (proof_context proof).1.2 = rc_config_id (r_configuration s)
    ∧ (proof_context proof).2 = rc_config_digest (r_configuration s)
    ∧ rc_membership (r_configuration s) = Some m;
  ik_valid : validate_for_cluster proof (r_cluster_id s) (proof_context proof).1.1.1 (r_epoch s)
    (rc_config_id (r_configuration s)) m = Ok ();
  ik_value : p_value (proof_proposal proof) = Some value;
  ik_stored : validate_value_unlocked (proof_context proof).1.1.1 value s = (Ok (), s);
  ik_load : load_unlocked (proof_context proof).1.1.1 (proof_context proof).2 s = (Ok state, s)
}.

Lemma install_decision_proof_runs proof m s r s' :
  install_decision_proof_record proof m s = (r, s') →
  (∃ e, r = Err e ∧ s' = s) ∨
  (∃ value state, install_checks proof m s value state ∧
     ((r = Ok () ∧ s' = s ∧ ∃ old, ss_decided_proof state = Some old
                       ∧ p_value (proof_proposal old) = p_value (proof_proposal proof))
      ∨ (ss_decided_proof state = None ∧ ∃ change st1 cert c,
           validate_slot_gate s (r_configuration s) (proof_context proof).1.1.1 change = Ok ()
           ∧ slot_install_proof state proof = Ok st1 ∧ certificate_from_proof proof = Ok cert
           ∧ (∀ d, ss_decided st1 = Some d → dc_value d = dc_value cert)
           ∧ transition_after_apply (r_configuration s) (with_certificate st1 cert) change (Some value) = Ok c
           ∧ persist_state_transition_unlocked (with_certificate st1 cert) (r_configuration s) c s = (r, s')))).
Proof.
  intros Hr. unfold install_decision_proof_record in Hr.
  destruct (proof_context proof) as [[[slot epoch] config_id] dg] eqn:Hctx.
  rewrite store_bind in Hr. cbn zeta in Hr.
  read_step Hr u1 H1. read_step Hr u2 H2. read_step Hr u3 H3. read_step Hr value Hv.
  read_step Hr u4 H4. read_step Hr state Hload.
  unfold reject_when in *. injection H1 as H1. injection H2 as H2. injection H3 as H3. injection Hv as Hv.
  destruct u1, u2, u3, u4. apply reject_if_Ok in H1, H2. apply map_err_Ok in H3. apply ok_or_Ok in Hv.
  bool_prop. destruct H2 as [[[-> ->] ->] Hm].
  assert (install_checks proof m s value state) as Hk.
  { split; rewrite ?Hctx; cbn; done. }
  destruct (ss_decided_proof state) as [old|] eqn:Hdec.
  { read_step Hr st1 H5. injection Hr as <- <-. injection H5 as H5. apply map_err_Ok in H5.
    unfold slot_install_proof in H5. rewrite Hdec in H5. right. exists value, state.
    split; [done|]. left. split_and!; [done|done|]. exists old. split; [done|].
    destruct (neqb _ _) eqn:Hn; [done|]. by rewrite neqb_false in Hn. }
  read_step Hr change Hch. read_step Hr u5 Hgate. read_step Hr st1 H5. read_step Hr cert Hcert.
  read_step Hr st2 H6. read_step Hr c Htr.
  injection Hgate as Hgate. destruct u5. injection H5 as H5. apply map_err_Ok in H5.
  injection Hcert as Hcert. injection Htr as Htr.
  assert (st2 = with_certificate st1 cert ∧ ∀ d, ss_decided st1 = Some d → dc_value d = dc_value cert)
    as [-> Hval].
  { unfold with_certificate. destruct (ss_decided st1) as [d|]; [|by injection H6 as <-].
    destruct (neqb (dc_value d) (dc_value cert)) eqn:Hn; [done|]. rewrite neqb_false in Hn.
    injection H6 as <-. split; [done|]. by intros ? [= <-]. }
  right. exists value, state. split; [done|]. right. split; [done|].
  exists change, st1, cert, c. done.
Qed.

Lemma install_decision_proof_cases proof m s r s' :
  wal_inv s → install_decision_proof_record proof m s = (r, s') →
  (∃ e, r = Err e ∧ quiet s s') ∨ (∃ msg, r = Err (Io msg)) ∨
  (∃ value state, r = Ok () ∧ install_checks proof m s value state ∧
     ((s' = s ∧ ∃ old, ss_decided_proof state = Some old
                       ∧ p_value (proof_proposal old) = p_value (proof_proposal proof))
      ∨ (ss_decided_proof state = None ∧ ∃ change st1 cert c,
           validate_slot_gate s (r_configuration s) (proof_context proof).1.1.1 change = Ok ()
           ∧ slot_install_proof state proof = Ok st1 ∧ certificate_from_proof proof = Ok cert
           ∧ (∀ d, ss_decided st1 = Some d → dc_value d = dc_value cert)
           ∧ transition_after_apply (r_configuration s) (with_certificate st1 cert) change (Some value) = Ok c
           ∧ committed (with_certificate st1 cert) c s s'))).
Proof.
  intros Hw [(e & -> & ->)|(value & state & Hk & Hr)]%install_decision_proof_runs.
  { left. by exists e. }
  destruct Hr as [(-> & -> & Hr)|(Hdec & change & st1 & cert & c & ? & ? & ? & ? & ? & Hp)].
  { right; right. exists value, state. eauto. }
  apply persist_outcome in Hp as [[-> Hcom]|[?|?]]; [|by left|by right; left|done|done].
  right; right. exists value, state. split_and!; [done|done|]. right. split; [done|].
  by exists change, st1, cert, c.
Qed.

(** ** The configuration invariant *)

(** The greatest slot of a sealed configuration is its stop slot, slots lie above
    the predecessor's stop slot, and a configuration that waits for its
    activation has at most the slot of the activation. *)
Record gate_inv (c : RecorderConfiguration) : Prop := {
  g_seal : ∀ seal, rc_seal c = Some seal → rc_max_slot c = Some (cs_stop_slot seal);
  g_predecessor : ∀ p m, rc_predecessor c = Some p → rc_max_slot c = Some m → (cs_stop_slot p < m)%N;
  g_inactive : rc_activated c = false → ∃ p, rc_predecessor c = Some p ∧ rc_seal c = None
    ∧ (rc_max_slot c = None ∨ rc_max_slot c = Some (cs_stop_slot p + 1)%N)
}.

(** What the slot gate lets through. *)
Record gate_open (c : RecorderConfiguration) (slot : N) (change : option ConfigChange) : Prop := {
  o_predecessor : ∀ p, rc_predecessor c = Some p → (cs_stop_slot p < slot)%N;
  o_seal : ∀ seal, rc_seal c = Some seal → (slot ≤ cs_stop_slot seal)%N;
  o_stop : is_stop change = true → ∀ m, rc_max_slot c = Some m → (m ≤ slot)%N;
  o_inactive : rc_activated c = false →
    ∃ p, rc_predecessor c = Some p ∧ slot = (cs_stop_slot p + 1)%N ∧ is_stop change = false;
  o_binding : ∀ ch, change = Some ch → binding ch = (rc_config_id c, rc_config_digest c)
}.

Lemma validate_slot_gate_open s c slot change :
  validate_slot_gate s c slot change = Ok () → gate_open c slot change.
Proof.
  unfold validate_slot_gate. intros Hg. res_inv. split.
  - intros p Hp. rewrite Hp in Hok. by apply reject_if_Ok, N.leb_gt in Hok.
  - intros seal Hs. rewrite Hs in Hok0. res_inv. by apply N.ltb_ge.
  - intros Hst m Hm. rewrite Hst, Hm in Hok1. cbn in Hok1. by apply N.ltb_ge.
  - intros Ha. rewrite Ha in Hok2. cbn in Hok2. destruct (rc_predecessor c) as [p|]; [|done].
    apply reject_if_Ok in Hok2. rewrite negb_false_iff in Hok2. exists p. split; [done|].
    unfold activation_allowed in Hok2.
    destruct change as [[| | |]|]; try done; cbn; bool_prop; naive_solver.
  - intros ch ->. destruct (binding ch) as [i d]. apply reject_if_Ok in Hg. bool_prop. naive_solver.
Qed.

Lemma transition_keeps c st change v c' :
  transition_after_apply c st change v = Ok c' →
  rc_config_id c' = rc_config_id c ∧ rc_config_digest c' = rc_config_digest c
  ∧ rc_membership c' = rc_membership c ∧ rc_predecessor c' = rc_predecessor c
  ∧ rc_max_slot c' = match v with
                     | Some _ => Some (match rc_max_slot c with None => ss_slot st
                                       | Some m => N.max m (ss_slot st) end)
                     | None => rc_max_slot c
                     end
  ∧ (rc_activated c = true → rc_activated c' = true).
Proof.
  unfold transition_after_apply. cbn zeta.
  repeat (case_match; cbn zeta); intros Hr; simplify_eq; done.
Qed.

Lemma transition_seal c st change v c' seal :
  transition_after_apply c st change v = Ok c' → rc_seal c' = Some seal →
  rc_seal c = Some seal ∨ (cs_stop_slot seal = ss_slot st ∧ is_stop change = true).
Proof.
  unfold transition_after_apply. cbn zeta. intros Hr Hs.
  repeat (case_match; cbn zeta in *; cbn [rc_seal set_max_slot set_seal set_activated] in *);
    simplify_eq; try done; try (by left); cbn in Hs; simplify_eq; right; by split.
Qed.

Lemma transition_gate_inv c st change v c' :
  gate_inv c → gate_open c (ss_slot st) change → transition_after_apply c st change (Some v) = Ok c' →
  gate_inv c'.
Proof.
  intros [Gs Gp Gi] Ho Ht. pose proof (transition_keeps _ _ _ _ _ Ht) as (Hi & Hd & Hm & Hp & Hx & Ha).
  split.
  - intros seal [Hs|[Hs Hst]]%(transition_seal _ _ _ _ _ _ Ht); rewrite Hx.
    + rewrite (Gs seal Hs). apply (o_seal _ _ _ Ho) in Hs. f_equal. lia.
    + rewrite Hs. destruct (rc_max_slot c) as [m|] eqn:Hmx; [|done].
      pose proof (o_stop _ _ _ Ho Hst m Hmx). f_equal. lia.
  - intros p m Hpp. rewrite Hx. intros [= <-]. rewrite Hp in Hpp.
    pose proof (o_predecessor _ _ _ Ho p Hpp). destruct (rc_max_slot c); lia.
  - intros Hna. assert (rc_activated c = false) as Hca.
    { destruct (rc_activated c) eqn:E; [|done]. by rewrite Ha in Hna. }
    apply Gi in Hca as Hg. destruct Hg as (p & Hpp & Hsn & Hmax).
    apply (o_inactive _ _ _ Ho) in Hca as (p' & Hp' & Hslot & Hns). rewrite Hpp in Hp'.
    injection Hp' as <-. exists p. split; [by rewrite Hp|]. split.
    + destruct (rc_seal c') as [seal|] eqn:Hs; [|done].
      apply (transition_seal _ _ _ _ _ _ Ht) in Hs as [Hs|[_ Hs]]; congruence.
    + right. rewrite Hx, Hslot. destruct Hmax as [->| ->]; [done|]. f_equal. lia.
Qed.

Lemma transition_inspect c st : transition_after_apply c st None None = Ok c.
Proof.
  unfold transition_after_apply. cbn. destruct (eqb (ss_decided_proof st) None); [done|].
  destruct (rc_seal c) as [seal|]; cbn; by rewrite ?andb_false_r.
Qed.

(** ** The recorder invariant *)

(** The slots as decoded states. *)
Definition slot_state (s : RecorderFileStore) (k : N) : option RecorderSlotState :=
  b ← slots_of s !! k; match decode_recorder_state b with Ok st => Some st | Err _ => None end.

(** A slot state that belongs to this recorder under the key [k]. *)
Record slot_ok (s : RecorderFileStore) (k : N) (st : RecorderSlotState) : Prop := {
  so_readable : readable st;
  so_slot : ss_slot st = k;
  so_cluster : ss_cluster_id st = r_cluster_id s;
  so_epoch : ss_epoch st = r_epoch s;
  so_config : (ss_config_id st ≤ rc_config_id (r_configuration s))%N;
  so_range : ss_config_id st = rc_config_id (r_configuration s) →
    (∃ m, rc_max_slot (r_configuration s) = Some m ∧ k ≤ m)%N
    ∧ ∀ p, rc_predecessor (r_configuration s) = Some p → (cs_stop_slot p < k)%N
}.

Record recorder_inv (s : RecorderFileStore) : Prop := {
  i_wal : wal_inv s;
  i_commands : commands_ok s;
  i_typed : is_str (r_cluster_id s) = true ∧ is_u64 (r_epoch s) = true
            ∧ is_u64 (rc_config_id (r_configuration s)) = true;
  i_digest : rc_config_digest (r_configuration s) ≠ LogHash_ZERO;
  i_gate : gate_inv (r_configuration s);
  i_slots : ∀ k b, slots_of s !! k = Some b →
    ∃ st, decode_recorder_state b = Ok st ∧ slot_ok s k st
}.

Lemma inv_slot_state s k st : recorder_inv s → slot_state s k = Some st → slot_ok s k st.
Proof.
  intros Hi (b & Hb & Hst)%bind_Some. apply (i_slots s Hi) in Hb as (st' & Hd & Hok).
  rewrite Hd in Hst. by injection Hst as <-.
Qed.

Lemma slot_state_None s k : recorder_inv s → slot_state s k = None → slots_of s !! k = None.
Proof.
  intros Hi Hn. destruct (slots_of s !! k) as [b|] eqn:Hb; [|done].
  pose proof (i_slots s Hi k b Hb) as (st & Hd & _). unfold slot_state in Hn. rewrite Hb in Hn.
  cbn in Hn. by rewrite Hd in Hn.
Qed.

Lemma slot_ok_mono s s' k st :
  same_identity s s' → r_configuration s' = r_configuration s → slot_ok s k st → slot_ok s' k st.
Proof. intros (_ & Hc & He) Hcfg []. split; rewrite ?Hc, ?He, ?Hcfg; done. Qed.

Lemma quiet_inv s s' : quiet s s' → recorder_inv s → recorder_inv s'.
Proof.
  intros [[Hid Hw Hc _] Hcfg _ Hs] []. split; auto.
  - destruct Hid as (_ & -> & ->). by rewrite Hcfg.
  - by rewrite Hcfg.
  - by rewrite Hcfg.
  - intros k b. rewrite Hs. intros (st & Hd & Hok)%i_slots0. exists st. split; [done|].
    by eapply slot_ok_mono.
Qed.
Lemma quiet_slot_state s s' k : quiet s s' → slot_state s' k = slot_state s k.
Proof. intros [_ _ _ Hs]. unfold slot_state. by rewrite Hs. Qed.

Lemma committed_slot_state st c s s' k :
  readable st → committed st c s s' →
  slot_state s' k = if decide (k = ss_slot st) then Some st else slot_state s k.
Proof.
  intros [Ht Hcons] [_ _ (b & Hb & Hlen & Hs)]. unfold slot_state. rewrite Hs. case_decide as Hk.
  - subst. rewrite lookup_insert_eq. cbn. by erewrite recorder_state_reads.
  - by rewrite lookup_insert_ne.
Qed.

Lemma committed_inv st c change v s s' :
  recorder_inv s → readable st → ss_cluster_id st = r_cluster_id s → ss_epoch st = r_epoch s →
  ss_config_id st = rc_config_id (r_configuration s) →
  gate_open (r_configuration s) (ss_slot st) change →
  transition_after_apply (r_configuration s) st change (Some v) = Ok c →
  committed st c s s' → recorder_inv s'.
Proof.
  intros Hi Hr Hcl Hep Hcid Hgo Ht [[Hid Hw Hc _] Hcfg (b & Hb & Hlen & Hs)]. destruct Hi.
  pose proof (transition_keeps _ _ _ _ _ Ht) as (Ei & Ed & Em & Ep & Ex & Ea).
  destruct Hid as (_ & Hcl' & Hep').
  split; auto.
  - rewrite Hcl', Hep', Hcfg, Ei. done.
  - by rewrite Hcfg, Ed.
  - rewrite Hcfg. by eapply transition_gate_inv.
  - intros k b'. rewrite Hs. intros [[<- <-]|[Hne Hk]]%lookup_insert_Some.
    + exists st. split; [by destruct Hr; apply recorder_state_reads|].
      split; rewrite ?Hcl', ?Hep', ?Hcfg, ?Ei, ?Ex, ?Ep; try done; [lia|]. intros _. split.
      * eexists. split; [done|]. destruct (rc_max_slot (r_configuration s)); lia.
      * apply (o_predecessor _ _ _ Hgo).
    + apply i_slots0 in Hk as (st' & Hd & [? ? ? ? ? Hrange]). exists st'. split; [done|].
      split; rewrite ?Hcl', ?Hep', ?Hcfg, ?Ei, ?Ex, ?Ep; try done.
      intros [(m & Hm & Hle) Hp]%Hrange. split; [|done]. eexists. split; [done|].
      rewrite Hm. lia.
Qed.

(** ** The operations on slots *)

(** The state a slot has for the current configuration: the stored one, or a new one. *)
Definition current_slot (s : RecorderFileStore) (k : N) (config_digest : LogHash) : RecorderSlotState :=
  default (slot_new_with_digest k (r_cluster_id s) (r_epoch s) (rc_config_id (r_configuration s)) config_digest)
    (slot_state s k).

Lemma load_current k d s st :
  recorder_inv s → is_u64 k = true → load_unlocked k d s = (Ok st, s) →
  st = current_slot s k d ∧ readable st ∧ ss_slot st = k ∧ ss_cluster_id st = r_cluster_id s
  ∧ ss_epoch st = r_epoch s ∧ ss_config_id st = rc_config_id (r_configuration s)
  ∧ (d ≠ LogHash_ZERO → ss_config_digest st = d).
Proof.
  intros Hi Hk Hl. unfold load_unlocked in Hl. rewrite store_bind in Hl. cbn zeta in Hl.
  unfold current_slot, slot_state, slots_of. pose proof (i_slots s Hi k) as Hs. unfold slots_of in Hs.
  rewrite lookup_union in *. destruct (wal_slots (r_wal s) !! k) as [b|].
  { rewrite union_Some_l in *. apply call_bind_Ok in Hl as (st' & s1 & Hd & Hl). injection Hd as Hd <-.
    destruct (Hs b eq_refl) as (st2 & Hd2 & Hok). rewrite Hd in Hd2. injection Hd2 as <-.
    destruct (_ || _) eqn:Hf; [done|]. injection Hl as <-. cbn. rewrite Hd. cbn.
    destruct Hok. bool_prop. naive_solver. }
  rewrite (left_id None (∪)) in *. destruct (r_slot_files s !! k) as [b|].
  { apply call_bind_Ok in Hl as (u & s1 & Hd & Hl). injection Hd as _ <-.
    apply call_bind_Ok in Hl as (st' & s1 & Hd & Hl). injection Hd as Hd <-.
    destruct (Hs b eq_refl) as (st2 & Hd2 & Hok). rewrite Hd in Hd2. injection Hd2 as <-.
    destruct (neqb _ _ || _) eqn:Hf; [done|]. injection Hl as <-. cbn. rewrite Hd. cbn.
    destruct Hok. bool_prop. naive_solver. }
  injection Hl as <-. cbn. destruct (i_typed s Hi) as (? & ? & ?). split; [done|]. split; [|done].
  split; [|done]. unfold slot_typed; cbn. by bool_prop.
Qed.

(** What [load_unlocked] returned is a legitimate predecessor of what is written. *)
Lemma record_checks_inv q s value command change state next sm :
  recorder_inv s → request_typed q = true →
  record_checks q s value command change state next sm →
  state = current_slot s (rq_slot q) (rq_config_digest q) ∧ readable next ∧ ss_slot next = rq_slot q
  ∧ ss_cluster_id next = r_cluster_id s ∧ ss_epoch next = r_epoch s
  ∧ ss_config_id next = rc_config_id (r_configuration s)
  ∧ gate_open (r_configuration s) (ss_slot next) change.
Proof.
  intros Hi Hq []. assert (is_u64 (rq_slot q) = true) as Hk.
  { unfold request_typed in Hq. bool_prop. naive_solver. }
  apply load_current in rk_load0 as (Hst & Hr & Hs & Hc & He & Hid & _); [|done|done].
  apply validate_slot_gate_open in rk_gate0.
  pose proof (slot_record_readable _ _ _ _ _ Hr Hq rk_record0) as (? & E1 & E2 & E3 & E4 & E5).
  rewrite E1, E2, E3, E4, Hs. done.
Qed.

(** C13. The durable recorder implements the slot protocol.  When [record_proposal]
    answers, the answer and the new state of the slot are those of
    [slot_record_proposal] on the slot's stored state (a new one if there is
    none); what was written reads back as that state from the log or the files,
    no other slot changes, and the invariant of the recorder is kept. *)
Theorem record_proposal_refines (q : RecordRequest) (s s' : RecorderFileStore) (sm : RecordSummary) :
  request_typed q = true → recorder_inv s → record_proposal q s = (Ok sm, s') →
  slot_record_proposal (r_recorder_id s) (current_slot s (rq_slot q) (rq_config_digest q)) q
    = Ok (current_slot s' (rq_slot q) (rq_config_digest q), sm)
  ∧ (∀ k, k ≠ rq_slot q → slot_state s' k = slot_state s k)
  ∧ recorder_inv s'.
Proof.
  intros Hq Hi Hr. apply record_proposal_cases in Hr; [|by apply Hi].
  destruct Hr as [(? & ? & _)|[(? & ?)|(sm' & value & command & change & state & next & [= <-] & Hk & Hr)]];
    [done|done|].
  pose proof (record_checks_inv _ _ _ _ _ _ _ _ Hi Hq Hk) as (Hst & Hrd & Hs & Hc & He & Hid & Hgo).
  pose proof (rk_record _ _ _ _ _ _ _ _ Hk) as Hrec. rewrite <-Hst.
  destruct Hr as [[(proof & Hdec) ->]|(Hnone & c & Ht & Hcom)].
  - split; [|done]. rewrite <-Hst. unfold slot_record_proposal in Hrec |- *. rewrite Hdec in *.
    by injection Hrec as _ <-.
  - pose proof (λ k, committed_slot_state _ _ _ _ k Hrd Hcom) as Hview. split; [|split].
    + rewrite Hrec. unfold current_slot at 1. by rewrite Hview, Hs, decide_True by done.
    + intros k Hne. rewrite Hview, Hs. by rewrite decide_False.
    + by eapply committed_inv.
Qed.

Lemma install_checks_inv proof m s value state :
  recorder_inv s → proof_typed proof = true → install_checks proof m s value state →
  let slot := (proof_context proof).1.1.1 in
  state = current_slot s slot (rc_config_digest (r_configuration s)) ∧ readable state
  ∧ ss_cluster_id state = r_cluster_id s ∧ ss_epoch state = r_epoch s
  ∧ ss_config_id state = rc_config_id (r_configuration s) ∧ ss_slot state = slot
  ∧ (rc_config_digest (r_configuration s) ≠ LogHash_ZERO →
     proof_context proof = (ss_slot state, ss_epoch state, ss_config_id state, ss_config_digest state)).
Proof.
  intros Hi Hp [(Hcl & He & Hci & Hd & Hm) _ _ _ Hload]. unfold proof_typed in Hp.
  destruct (proof_context proof) as [[[slot epoch] config_id] dg]. cbn in *. subst. bool_prop.
  apply load_current in Hload as (Hst & Hr & Hs & Hc & Hep & Hid & Hdg); [|done|naive_solver].
  split_and!; try done. intros Hz. by rewrite Hs, Hep, Hid, (Hdg Hz).
Qed.

Lemma install_committed proof m s s' value state change st1 cert c :
  recorder_inv s → proof_typed proof = true →
  install_checks proof m s value state → ss_decided_proof state = None →
  validate_slot_gate s (r_configuration s) (proof_context proof).1.1.1 change = Ok () →
  slot_install_proof state proof = Ok st1 → certificate_from_proof proof = Ok cert →
  (∀ d, ss_decided st1 = Some d → dc_value d = dc_value cert) →
  transition_after_apply (r_configuration s) (with_certificate st1 cert) change (Some value) = Ok c →
  committed (with_certificate st1 cert) c s s' →
  recorder_inv s' ∧ readable (with_certificate st1 cert)
  ∧ ss_slot (with_certificate st1 cert) = (proof_context proof).1.1.1
  ∧ ss_decided_proof (with_certificate st1 cert) = Some proof.
Proof.
  intros Hi Hp Hk Hnone Hgate Hst1 Hcert Hval Ht Hcom.
  pose proof (install_checks_inv _ _ _ _ _ Hi Hp Hk) as (_ & Hr & Hcl & He & Hci & Hs & Hctx).
  specialize (Hctx (i_digest s Hi)). pose proof (ik_context _ _ _ _ _ Hk) as (Hpc & _).
  pose proof (install_readable state proof cert st1 Hr Hnone Hp Hctx) as Hread.
  destruct Hread as [Hread Hdp]; [congruence|done|done|done|].
  assert (ss_slot (with_certificate st1 cert) = ss_slot state
    ∧ ss_cluster_id (with_certificate st1 cert) = ss_cluster_id state
    ∧ ss_epoch (with_certificate st1 cert) = ss_epoch state
    ∧ ss_config_id (with_certificate st1 cert) = ss_config_id state) as (E1 & E2 & E3 & E4).
  { unfold slot_install_proof in Hst1. rewrite Hnone in Hst1. injection Hst1 as <-.
    unfold with_certificate. cbn. by destruct (ss_decided state). }
  split_and!; [|done|congruence|done].
  eapply committed_inv; [done|done|congruence|congruence|congruence| |done|done].
  rewrite E1, Hs. by apply validate_slot_gate_open in Hgate.
Qed.

(** Installing a decision proof decides the slot: after [install_decision_proof_record]
    answers, the slot holds a proof of the same value, the proof that was there
    before if there was one; no other slot changes and the invariant is kept. *)
Theorem install_decision_proof_decides (proof : DecisionProof) (m : Membership) (s s' : RecorderFileStore) :
  proof_typed proof = true → recorder_inv s →
  install_decision_proof_record proof m s = (Ok (), s') →
  let slot := (proof_context proof).1.1.1 in
  (∃ st held, slot_state s' slot = Some st ∧ ss_decided_proof st = Some held
     ∧ p_value (proof_proposal held) = p_value (proof_proposal proof)
     ∧ (ss_decided_proof (current_slot s slot (rc_config_digest (r_configuration s))) = None → held = proof)
     ∧ (∀ old, ss_decided_proof (current_slot s slot (rc_config_digest (r_configuration s))) = Some old → held = old))
  ∧ (∀ k, k ≠ slot → slot_state s' k = slot_state s k)
  ∧ recorder_inv s'.
Proof.
  intros Hp Hi Hr slot. apply install_decision_proof_cases in Hr; [|by apply Hi].
  destruct Hr as [(? & ? & _)|[(? & ?)|(value & state & _ & Hk & Hr)]]; [done|done|].
  pose proof (install_checks_inv _ _ _ _ _ Hi Hp Hk) as (Hst & _). fold slot in Hst. rewrite <-Hst.
  destruct Hr as [(-> & old & Hold & Hv)|(Hnone & change & st1 & cert & c & Hg & H1 & H2 & H3 & H4 & Hcom)].
  - split; [|done]. assert (slot_state s slot = Some state) as Hss.
    { rewrite Hst in Hold |- *. unfold current_slot in *. by destruct (slot_state s slot). }
    exists state, old. rewrite Hold. split_and!; try done. by intros ? [= <-].
  - eapply install_committed in Hcom as Hc; [|done..]. destruct Hc as (Hi' & Hrd & Hs & Hdp).
    pose proof (λ k, committed_slot_state _ _ _ _ k Hrd Hcom) as Hview. rewrite Hs in Hview. fold slot in Hview.
    split; [|split; [|done]].
    + eexists _, proof. rewrite Hview, decide_True by done. split_and!; try done. by rewrite Hnone.
    + intros k Hne. by rewrite Hview, decide_False.
Qed.

(** ** Reconfiguration *)

(** The recorder serves another configuration; its slots are as they were. *)
Record reconfigured (c : RecorderConfiguration) (s s' : RecorderFileStore) : Prop := {
  f_carries : carries s s';
  f_configuration : r_configuration s' = c;
  f_slots : slots_of s' = slots_of s
}.

Lemma commit_configuration_head_outcome c head s r s' :
  commit_configuration_head_unlocked c head s = (r, s') →
  (∃ e, r = Err e ∧ s' = s) ∨ (r = Ok () ∧ reconfigured c s s').
Proof.
  unfold commit_configuration_head_unlocked. rewrite store_bind. intros Hr.
  read_step Hr cb H1. read_step Hr hb H2. unfold update, mbind, call_bind in Hr. injection Hr as <- <-.
  right. split; [done|]. split; [|done|done]. by split; [repeat split|..].
Qed.

Lemma reconfigured_after_quiet c s1 s2 s3 : quiet s1 s2 → reconfigured c s2 s3 → reconfigured c s1 s3.
Proof. intros [? ? ? ?] [? ? ?]. split; [by etransitivity|done|congruence]. Qed.

(** What [install_successor_from_proof] checked. *)
Record successor_checks (m : Membership) (stop_proof : DecisionProof) (s : RecorderFileStore)
    (installed : RecorderConfiguration) : Prop := {
  uk_predecessor : ∃ old stop value,
    rc_membership (r_configuration s) = Some old
    ∧ validate_for_cluster stop_proof (r_cluster_id s) (proof_context stop_proof).1.1.1 (r_epoch s)
        (rc_config_id (r_configuration s)) old = Ok ()
    ∧ bound_stop (r_cluster_id s) (rc_config_id (r_configuration s)) (rc_config_digest (r_configuration s))
        (rc_config_id (r_configuration s) + 1) (m_members m) = Ok stop
    ∧ p_value (proof_proposal stop_proof) = Some value
    ∧ value = from_command (r_cluster_id s) (proof_context stop_proof).1.1.1 (r_epoch s)
                (rc_config_id (r_configuration s)) (av_prev_hash value) (to_stored_command stop)
    ∧ rc_predecessor installed = Some (mkSeal (proof_context stop_proof).1.1.1 (av_command_hash value)
                                         (av_entry_hash value));
  uk_config : (rc_config_id installed = rc_config_id (r_configuration s) + 1
               ∧ rc_config_id (r_configuration s) + 1 ≤ u64_max)%N;
  uk_installed : rc_config_digest installed = m_digest m ∧ rc_membership installed = Some m
    ∧ rc_seal installed = None ∧ rc_max_slot installed = None ∧ rc_activated installed = false;
  uk_voter : r_recorder_id s ∈ m_members m;
  uk_active : rc_predecessor (r_configuration s) = None ∨ rc_activated (r_configuration s) = true;
  uk_seal : ∀ seal, rc_seal (r_configuration s) = Some seal → rc_predecessor installed = Some seal
}.

(** A change of the configuration: the log is checkpointed, a command may be
    stored, then the configuration and the head are committed. *)
Inductive reconfigure_run (command : option (LogHash * StoredCommand)) (c : RecorderConfiguration)
    (head : RecordedHeadProvenance) (s : RecorderFileStore) : result Error () → RecorderFileStore → Prop :=
| run_checkpoint e s' : checkpoint_wal_unlocked s = (Err e, s') → reconfigure_run command c head s (Err e) s'
| run_store e s1 s' h x :
    checkpoint_wal_unlocked s = (Ok (), s1) → command = Some (h, x) →
    store_command_unlocked h x s1 = (Err e, s') → reconfigure_run command c head s (Err e) s'
| run_commit r s1 s2 s' :
    checkpoint_wal_unlocked s = (Ok (), s1) →
    match command with Some (h, x) => store_command_unlocked h x s1 = (Ok (), s2) | None => s2 = s1 end →
    commit_configuration_head_unlocked c head s2 = (r, s') → reconfigure_run command c head s r s'.

Lemma reconfigure_run_outcome command c head s r s' :
  wal_inv s → reconfigure_run command c head s r s' →
  (∃ e, r = Err e ∧ quiet s s') ∨ (r = Ok () ∧ reconfigured c s s').
Proof.
  intros Hw [e s1 Hc|e s1 s2 h x Hc Hx Hst|r1 s1 s2 s3 Hc Hst Hcom]; apply checkpoint_quiet in Hc as [Hq1 _]; try done.
  - left. by exists e.
  - left. exists e. split; [done|]. etransitivity; [done|]. by eapply store_command_quiet.
  - assert (quiet s s2) as Hq.
    { destruct command as [[h x]|]; [|by subst]. etransitivity; [done|]. by eapply store_command_quiet. }
    apply commit_configuration_head_outcome in Hcom as [(e & -> & ->)|[-> Hcom]].
    + left. by exists e.
    + right. split; [done|]. by eapply reconfigured_after_quiet.
Qed.

Lemma install_successor_runs m stop_proof s r s' :
  install_successor_from_proof m stop_proof s = (r, s') →
  (∃ e, r = Err e ∧ s' = s)
  ∨ (∃ installed command r1, successor_checks m stop_proof s installed
       ∧ reconfigure_run (Some command) installed HeadEmpty s r1 s' ∧ r = (_ ← r1; Ok installed)).
Proof.
  intros Hr. unfold install_successor_from_proof in Hr. rewrite store_bind in Hr. cbn zeta in Hr.
  read_step Hr old Hold. read_step Hr next Hnext. read_step Hr u1 H1. read_step Hr u2 H2. read_step Hr u3 H3.
  destruct (proof_context stop_proof) as [[[slot epoch] config_id] dg] eqn:Hctx.
  read_step Hr u4 H4. read_step Hr u5 H5. read_step Hr stop Hstop. read_step Hr value Hv.
  read_step Hr u6 H6. read_step Hr u7 H7. right.
  match type of Hr with (_ ≫= (λ _, store_command_unlocked ?h ?x ≫= (λ _, commit_configuration_head_unlocked ?c _ ≫= _))) _ = _ =>
    exists c, (h, x) end.
  assert (∀ installed, installed = mkRecorderConfiguration next (m_digest m) (Some m)
    (Some (mkSeal slot (av_command_hash value) (av_entry_hash value))) None None false →
    successor_checks m stop_proof s installed) as Hk.
  { intros installed ->. unfold reject_when in *. injection Hold as Hold%ok_or_Ok. injection Hnext as Hnext%ok_or_Ok.
    injection H1 as H1%reject_if_Ok. injection H2 as H2%reject_if_Ok. injection H3 as H3%reject_if_Ok.
    injection H4 as H4%reject_if_Ok. injection H5 as H5%map_err_Ok. injection Hstop as Hstop%map_err_Ok.
    injection Hv as Hv%ok_or_Ok. injection H6 as H6%reject_if_Ok. injection H7 as H7%reject_if_Ok.
    apply checked_add_Some in Hnext as [-> Hle]. destruct u5. bool_prop.
    split; rewrite ?Hctx; cbn; try done.
    - exists old, stop, value. split_and!; done.
    - by apply m_contains_true.
    - intros seal Hs. rewrite Hs in H7. cbn in H7. rewrite neqb_false in H7. rewrite H7. do 2 f_equal; by rewrite H6. }
  assert (value = from_command (r_cluster_id s) slot (r_epoch s) (rc_config_id (r_configuration s))
    (av_prev_hash value) (to_stored_command stop)) as Hvalue.
  { unfold reject_when in H6. injection H6 as H6%reject_if_Ok. by rewrite neqb_false in H6. }
  match goal with |- ∃ r1, successor_checks _ _ _ ?c ∧ _ =>
    assert (successor_checks m stop_proof s c) as Hk' by (apply Hk; by rewrite <-Hvalue) end.
  apply call_bind_cases in Hr as [(e & -> & Hr)|([] & s1 & Hcp & Hr)].
  { exists (Err e). split_and!; [done|by apply run_checkpoint|done]. }
  apply call_bind_cases in Hr as [(e & -> & Hr)|([] & s2 & Hst & Hr)].
  { exists (Err e). split_and!; [done|by eapply run_store|done]. }
  apply call_bind_cases in Hr as [(e & -> & Hr)|([] & s3 & Hc & Hr)].
  { exists (Err e). split_and!; [done|by eapply run_commit|done]. }
  injection Hr as <- <-. exists (Ok ()). split_and!; [done|by eapply run_commit|done].
Qed.

Lemma install_successor_cases m stop_proof s r s' :
  wal_inv s → install_successor_from_proof m stop_proof s = (r, s') →
  (∃ e, r = Err e ∧ quiet s s')
  ∨ (∃ installed, r = Ok installed ∧ successor_checks m stop_proof s installed ∧ reconfigured installed s s').
Proof.
  intros Hw [(e & -> & ->)|(installed & command & r1 & Hk & Hr & ->)]%install_successor_runs.
  { left. by exists e. }
  apply reconfigure_run_outcome in Hr as [(e & -> & ?)|[-> ?]]; [| |done].
  - left. by exists e.
  - right. by exists installed.
Qed.

Lemma recover_successor_runs stop_slot prefix tip hash s r s' :
  recover_successor_activation_from_checkpoint stop_slot prefix tip hash s = (r, s') →
  (∃ e, r = Err e ∧ s' = s) ∨ (r = Ok (r_configuration s) ∧ s' = s)
  ∨ (∃ p r1, rc_predecessor (r_configuration s) = Some p ∧ cs_stop_slot p = stop_slot
       ∧ cs_prefix_hash p = prefix ∧ (stop_slot < tip)%N ∧ rc_activated (r_configuration s) = false
       ∧ let c := set_activated (set_max_slot (r_configuration s) (Some tip)) in
         reconfigure_run None c (CheckpointBacked stop_slot prefix tip hash) s r1 s' ∧ r = (_ ← r1; Ok c)).
Proof.
  intros Hr. unfold recover_successor_activation_from_checkpoint in Hr.
  rewrite store_bind in Hr. cbn zeta in Hr. read_step Hr p Hp. read_step Hr u H1.
  injection Hp as Hp%ok_or_Ok. unfold reject_when in H1. injection H1 as H1%reject_if_Ok. bool_prop.
  destruct (rc_activated (r_configuration s)) eqn:Ha.
  { read_step Hr u' H2. injection Hr as <- <-. right; by left. }
  right; right. exists p. destruct H1 as [[? ?] ?].
  apply call_bind_cases in Hr as [(e & -> & Hr)|([] & s1 & Hcp & Hr)].
  { exists (Err e). split_and!; try done. split; [by apply run_checkpoint|done]. }
  apply call_bind_cases in Hr as [(e & -> & Hr)|([] & s3 & Hc & Hr)].
  { exists (Err e). split_and!; try done. split; [by eapply run_commit|done]. }
  injection Hr as <- <-. exists (Ok ()). split_and!; try done. split; [by eapply run_commit|done].
Qed.

Lemma recover_successor_cases stop_slot prefix tip hash s r s' :
  wal_inv s → recover_successor_activation_from_checkpoint stop_slot prefix tip hash s = (r, s') →
  (∃ e, r = Err e ∧ quiet s s') ∨ (r = Ok (r_configuration s) ∧ s' = s)
  ∨ (∃ p, rc_predecessor (r_configuration s) = Some p ∧ cs_stop_slot p = stop_slot ∧ (stop_slot < tip)%N
       ∧ rc_activated (r_configuration s) = false
       ∧ let c := set_activated (set_max_slot (r_configuration s) (Some tip)) in
         r = Ok c ∧ reconfigured c s s').
Proof.
  intros Hw [(e & -> & ->)|[[-> ->]|(p & r1 & Hp & Hs & _ & Ht & Ha & Hr & ->)]]%recover_successor_runs.
  - left. by exists e.
  - right; by left.
  - apply reconfigure_run_outcome in Hr as [(e & -> & ?)|[-> ?]]; [| |done].
    + left. by exists e.
    + right; right. by exists p.
Qed.

Lemma successor_inv m stop_proof s s' installed :
  recorder_inv s → m_digest m ≠ LogHash_ZERO → successor_checks m stop_proof s installed → reconfigured installed s s' →
  recorder_inv s'.
Proof.
  intros [Hw Hcmd (? & ? & ?) _ _ Hs] Hz Hk [[(_ & Hcl & He) Hw' Hc' _] Hcfg Hsl].
  destruct (uk_config _ _ _ _ Hk) as [Hid Hle]. destruct (uk_installed _ _ _ _ Hk) as (Hdg & _ & Hse & Hmx & Hac).
  destruct (uk_predecessor _ _ _ _ Hk) as (_ & _ & value & _ & _ & _ & _ & _ & Hpre).
  split; auto.
  - rewrite Hcl, He, Hcfg, Hid. split_and!; [done|done|]. by apply N.leb_le.
  - by rewrite Hcfg, Hdg.
  - rewrite Hcfg. split.
    + by rewrite Hse.
    + by rewrite Hmx.
    + intros _. eexists. split; [done|]. by split; [|left].
  - intros k b. rewrite Hsl. intros (st & Hd & [? ? ? ? Hcid _])%Hs. exists st. split; [done|].
    split; rewrite ?Hcl, ?He, ?Hcfg, ?Hid; try done; lia.
Qed.

Lemma recover_inv s s' p tip :
  recorder_inv s → rc_predecessor (r_configuration s) = Some p → (cs_stop_slot p < tip)%N →
  rc_activated (r_configuration s) = false →
  reconfigured (set_activated (set_max_slot (r_configuration s) (Some tip))) s s' → recorder_inv s'.
Proof.
  intros [Hw Hcmd (? & ? & ?) Hdg [_ _ Gi] Hs] Hp Htip Ha [[(_ & Hcl & He) Hw' Hc' _] Hcfg Hsl].
  apply Gi in Ha as (p' & Hp' & Hseal & Hmax). rewrite Hp in Hp'. injection Hp' as <-.
  split; auto.
  - by rewrite Hcl, He, Hcfg.
  - by rewrite Hcfg.
  - rewrite Hcfg. split; cbn.
    + by rewrite Hseal.
    + intros q n Hq [= <-]. rewrite Hp in Hq. by injection Hq as <-.
    + done.
  - intros k b. rewrite Hsl. intros (st & Hd & [? ? ? ? ? Hrange])%Hs. exists st. split; [done|].
    split; rewrite ?Hcl, ?He, ?Hcfg; try done. intros [(n & Hn & Hle) Hlow]%Hrange. split; [|done].
    exists tip. split; [done|]. destruct Hmax as [Hm|Hm]; rewrite Hm in Hn; [done|]. injection Hn as <-. lia.
Qed.

(** The only request that changes anything is the one that stores a command. *)
Lemma apply_runs request s r s' :
  apply request s = (r, s') → s' = s ∨ ∃ h c r1, store_command_unlocked h c s = (r1, s').
Proof.
  intros Hr. destruct request as [|? ? ? ? h c|? ? ? ? h|? ? ? d slot| | |]; unfold apply in Hr;
    try (injection Hr as <- <-; by left).
  - apply call_bind_cases in Hr as [(e & -> & Hr)|(u & s1 & H1 & Hr)].
    { left. by apply read_only_request_context in Hr. }
    apply read_only_request_context in H1 as ->.
    apply call_bind_cases in Hr as [(e & -> & Hr)|([] & s1 & Hst & Hr)]; [right; eauto|].
    injection Hr as <- <-. right; eauto.
  - left. revert Hr. assert (∀ (c : call RecorderReply), read_only c → c s = (r, s') → s' = s) as Hro.
    { intros c Hc. apply Hc. }
    apply Hro. read_only_tac.
  - left. apply call_bind_cases in Hr as [(e & -> & Hr)|(u & s1 & H1 & Hr)].
    { by apply read_only_request_context in Hr. }
    apply read_only_request_context in H1 as ->. rewrite store_bind in Hr. cbn zeta in Hr.
    apply call_bind_cases in Hr as [(e & -> & Hr)|(u' & s1 & H2 & Hr)]; [by apply read_only_lift in Hr|].
    apply read_only_lift in H2 as ->.
    apply call_bind_cases in Hr as [(e & -> & Hr)|(st & s1 & H3 & Hr)]; [by apply read_only_load in Hr|].
    apply read_only_load in H3 as ->.
    apply call_bind_cases in Hr as [(e & -> & Hr)|(reply & s1 & H4 & Hr)]; [by apply read_only_lift in Hr|].
    apply read_only_lift in H4 as ->. rewrite transition_inspect in Hr. unfold lift at 1, mbind at 1, call_bind at 1 in Hr.
    rewrite neqb_refl in Hr. by injection Hr as <- <-.
Qed.

(** ** Runs of a recorder *)

(** The operations the recorder offers; [save] writes a slot state its caller
    made and is left out. *)
Inductive RecorderOp : Type :=
| OpRecord (request : RecordRequest)
| OpInstallProof (proof : DecisionProof) (membership : Membership)
| OpInstallSuccessor (membership : Membership) (stop_proof : DecisionProof)
| OpRecoverSuccessor (stop_slot : N) (prefix_hash : LogHash) (recovered_tip : N) (recovered_hash : LogHash)
| OpApply (request : RecorderRequest)
| OpStoreCommand (hash : LogHash) (command : StoredCommand)
| OpInspectSummary (slot : N)
| OpReadFence (request : ReadFenceRequest).

Definition discard {A} (c : call A) : call () := _ ← c; mret ().
Definition run_op (op : RecorderOp) : call () :=
  match op with
  | OpRecord q => discard (record_proposal q)
  | OpInstallProof proof m => install_decision_proof_record proof m
  | OpInstallSuccessor m proof => discard (install_successor_from_proof m proof)
  | OpRecoverSuccessor stop_slot prefix tip hash =>
      discard (recover_successor_activation_from_checkpoint stop_slot prefix tip hash)
  | OpApply q => discard (apply q)
  | OpStoreCommand hash command => store_command_unlocked hash command
  | OpInspectSummary slot => discard (inspect_record_summary slot)
  | OpReadFence q => discard (observe_read_fence q)
  end.

(** The arguments are values of their Rust types, and no membership has the
    digest that stands for a recorder without one. *)
Definition op_typed (op : RecorderOp) : bool :=
  match op with
  | OpRecord q => request_typed q
  | OpInstallProof proof _ => proof_typed proof
  | OpInstallSuccessor m _ => neqb (m_digest m) LogHash_ZERO
  | _ => true
  end.

Definition io_error (r : result Error ()) : bool := match r with Err (Io _) => true | _ => false end.

(** One operation, successful or rejected; an I/O error ends the run of a recorder. *)
Inductive recorder_step (s s' : RecorderFileStore) : Prop :=
| recorder_step_op op r :
    op_typed op = true → run_op op s = (r, s') → io_error r = false → recorder_step s s'.

Lemma discard_cases {A} (c : call A) s r s' :
  discard c s = (r, s') → ∃ x, c s = (x, s') ∧ (r = Ok () ∧ is_ok x = true ∨ ∃ e, r = Err e ∧ x = Err e).
Proof.
  intros [(e & -> & Hr)|(a & s1 & H1 & Hr)]%call_bind_cases; [eauto 10|].
  injection Hr as <- <-. exists (Ok a). eauto.
Qed.

(** What an operation does to the contents of a recorder. *)
Inductive effect (s s' : RecorderFileStore) : Prop :=
| effect_none : quiet s s' → effect s s'
| effect_slot st c change v :
    readable st → ss_cluster_id st = r_cluster_id s → ss_epoch st = r_epoch s →
    ss_config_id st = rc_config_id (r_configuration s) →
    gate_open (r_configuration s) (ss_slot st) change →
    (∀ old, slot_state s (ss_slot st) = Some old → ss_decided_proof old = None) →
    transition_after_apply (r_configuration s) st change (Some v) = Ok c →
    committed st c s s' → effect s s'
| effect_successor m proof installed :
    m_digest m ≠ LogHash_ZERO → successor_checks m proof s installed → reconfigured installed s s' → effect s s'
| effect_recovered p tip :
    rc_predecessor (r_configuration s) = Some p → (cs_stop_slot p < tip)%N →
    rc_activated (r_configuration s) = false →
    reconfigured (set_activated (set_max_slot (r_configuration s) (Some tip))) s s' → effect s s'.

Lemma current_slot_undecided s k d old :
  ss_decided_proof (current_slot s k d) = None → slot_state s k = Some old → ss_decided_proof old = None.
Proof. unfold current_slot. intros Hn Hs. by rewrite Hs in Hn. Qed.

Lemma record_effect q s r s' :
  recorder_inv s → request_typed q = true → record_proposal q s = (r, s') →
  (∀ m, r ≠ Err (Io m)) → effect s s'.
Proof.
  intros Hi Hq Hr Hio. apply record_proposal_cases in Hr; [|by apply Hi].
  destruct Hr as [(e & -> & Hr)|[(m & ->)|(sm & value & command & change & state & next & -> & Hk & Hr)]];
    [by apply effect_none|by destruct (Hio m)|].
  destruct Hr as [[_ ->]|(Hnone & c & Ht & Hcom)]; [by apply effect_none|].
  pose proof (record_checks_inv _ _ _ _ _ _ _ _ Hi Hq Hk) as (Hst & Hrd & Hs & Hc & He & Hid & Hgo).
  eapply effect_slot; try done. rewrite Hs. intros old. rewrite Hst in Hnone. by eapply current_slot_undecided.
Qed.

Lemma install_effect proof m s r s' :
  recorder_inv s → proof_typed proof = true → install_decision_proof_record proof m s = (r, s') →
  (∀ msg, r ≠ Err (Io msg)) → effect s s'.
Proof.
  intros Hi Hp Hr Hio. apply install_decision_proof_cases in Hr; [|by apply Hi].
  destruct Hr as [(? & ? & ?)|[(msg & ->)|(value & state & _ & Hk & Hr)]];
    [by apply effect_none|by destruct (Hio msg)|].
  destruct Hr as [(-> & _)|(Hnone & change & st1 & cert & c & Hg & H1 & H2 & H3 & H4 & Hcom)];
    [by apply effect_none|].
  pose proof (install_checks_inv _ _ _ _ _ Hi Hp Hk) as (Hst & Hr & Hcl & He & Hci & Hs & Hctx).
  eapply install_committed in Hcom as Hc; [|done..]. destruct Hc as (_ & Hrd & Hs' & _).
  assert (ss_cluster_id (with_certificate st1 cert) = ss_cluster_id state
    ∧ ss_epoch (with_certificate st1 cert) = ss_epoch state
    ∧ ss_config_id (with_certificate st1 cert) = ss_config_id state) as (E2 & E3 & E4).
  { unfold slot_install_proof in H1. rewrite Hnone in H1. injection H1 as <-.
    unfold with_certificate. cbn. by destruct (ss_decided state). }
  eapply (effect_slot _ _ (with_certificate st1 cert)); try done; try congruence.
  - rewrite Hs'. by eapply validate_slot_gate_open.
  - intros old. rewrite Hs'. rewrite Hst in Hnone. by eapply current_slot_undecided.
Qed.

Lemma inspect_summary_read_only slot : read_only (inspect_record_summary slot).
Proof. unfold inspect_record_summary. read_only_tac. Qed.
Lemma read_fence_read_only q : read_only (observe_read_fence q).
Proof. unfold observe_read_fence. read_only_tac. Qed.

Lemma step_effect s s' : recorder_inv s → recorder_step s s' → effect s s'.
Proof.
  intros Hi [op r Ht Hr Hio]. pose proof (i_wal s Hi) as Hw.
  assert (∀ m, r ≠ Err (Io m)) as Hio' by (by intros m ->).
  destruct op; cbn [run_op op_typed] in Hr, Ht;
    try (apply discard_cases in Hr as (x & Hr & Hx);
         assert (∀ m, x ≠ Err (Io m)) as Hxio
           by (intros m ->; destruct Hx as [[_ ?]|(e & -> & [= <-])]; [done|by destruct (Hio' m)])).
  - by eapply record_effect.
  - by eapply install_effect.
  - apply install_successor_cases in Hr as [(e & _ & Hq)|(c & _ & Hk & Hc)]; [by apply effect_none| |done].
    rewrite neqb_true in Ht. by eapply effect_successor.
  - apply recover_successor_cases in Hr as [(e & _ & Hq)|[(_ & ->)|(p & Hp & <- & Htip & Ha & _ & Hc)]];
      [by apply effect_none|by apply effect_none| |done]. by eapply effect_recovered.
  - apply apply_runs in Hr as [->|(h & c & r1 & Hst)]; [by apply effect_none|]. by eapply effect_none, store_command_quiet.
  - by eapply effect_none, store_command_quiet.
  - apply inspect_summary_read_only in Hr as ->. by apply effect_none.
  - apply read_fence_read_only in Hr as ->. by apply effect_none.
Qed.

Lemma effect_inv s s' : recorder_inv s → effect s s' → recorder_inv s'.
Proof.
  intros Hi [Hq|st c change v ? ? ? ? ? ? ? ?|m proof c ? ? ?|p tip ? ? ? ?].
  - by eapply quiet_inv.
  - by eapply committed_inv.
  - by eapply successor_inv.
  - by eapply recover_inv.
Qed.

Lemma steps_inv s s' : recorder_inv s → rtc recorder_step s s' → recorder_inv s'.
Proof. intros Hi Hs. induction Hs as [|s s1 s' H1 _ IH]; [done|]. apply IH, (effect_inv s); [done|]. by apply step_effect. Qed.

Lemma new_with_membership_inv id cluster epoch config_id m s :
  new_with_membership id cluster epoch config_id m = Ok s →
  is_str cluster = true → is_u64 epoch = true → is_u64 config_id = true → m_digest m ≠ LogHash_ZERO →
  recorder_inv s.
Proof.
  intros Hn Hc He Hid Hz. unfold new_with_membership in Hn. res_inv. cbn zeta in Hn.
  destruct (commit_configuration_head_unlocked _ _ _) as [[u|e] s1] eqn:Hcom; [|done]. injection Hn as <-.
  apply commit_configuration_head_outcome in Hcom as [(? & ? & _)|[_ [[(_ & E1 & E2) E3 E4 _] E5 E6]]]; [done|].
  split.
  - by apply E3.
  - apply E4. intros h b. unfold commands_of. cbn. by rewrite fmap_empty, (left_id_L ∅ (∪)), lookup_empty.
  - by rewrite E1, E2, E5.
  - by rewrite E5.
  - rewrite E5. by split.
  - intros k b. rewrite E6. unfold slots_of. cbn. by rewrite (left_id_L ∅ (∪)), lookup_empty.
Qed.

(** ** What holds along every run *)


Lemma effect_decided s s' k st :
  recorder_inv s → effect s s' → slot_state s k = Some st → ss_decided_proof st ≠ None →
  slot_state s' k = Some st.
Proof.
  intros Hi [Hq|st' c change v Hr ? ? ? ? Hun ? Hcom|m proof c ? ? Hc|p tip ? ? ? Hc] Hst Hd.
  - by rewrite (quiet_slot_state _ _ _ Hq).
  - rewrite (committed_slot_state _ _ _ _ _ Hr Hcom). case_decide as Hk; [|done].
    subst k. by apply Hun in Hst.
  - unfold slot_state. by rewrite (f_slots _ _ _ Hc).
  - unfold slot_state. by rewrite (f_slots _ _ _ Hc).
Qed.


(** The read fence of a recorder: its answer passes the check that the reader
    makes on it, and when it says that the slot is empty, the recorder holds no
    state of the current configuration at that slot or any above it. *)
Lemma observe_fence_valid (q : ReadFenceRequest) (s s' : RecorderFileStore) (o : ReadFenceObservation) :
  is_u64 (rf_slot q) = true → recorder_inv s → observe_read_fence q s = (Ok o, s') →
  s' = s ∧ valid_read_fence_observation o (r_recorder_id s) q = true
  ∧ (ro_slot_state o = FenceEmpty → ∀ k st, (rf_slot q ≤ k)%N → slot_state s k = Some st →
       (ss_config_id st < rc_config_id (r_configuration s))%N).
Proof.
  intros Hu Hi Hr. pose proof (read_fence_read_only _ _ _ _ Hr) as ->. split; [done|].
  unfold observe_read_fence in Hr. rewrite store_bind in Hr. cbn zeta in Hr.
  apply call_bind_Ok in Hr as (u1 & s1 & H1 & Hr). apply read_only_reject_when in H1 as Hs. subst s1.
  apply call_bind_Ok in Hr as (u2 & s1 & H2 & Hr). apply read_only_reject_when in H2 as Hs. subst s1.
  apply call_bind_Ok in Hr as (u3 & s1 & H3 & Hr). apply read_only_reject_when in H3 as Hs. subst s1.
  unfold reject_when in *. injection H3 as H3%reject_if_Ok. bool_prop. destruct H3 as [Hci Hcd].
  apply call_bind_Ok in Hr as (summary & s1 & Hsum & Hr). injection Hr as <- ->.
  assert (∀ k st, (∀ mx, rc_max_slot (r_configuration s) = Some mx → (mx < k)%N) → slot_state s k = Some st →
    (ss_config_id st < rc_config_id (r_configuration s))%N) as Habove.
  { intros k st Hk Hst. apply inv_slot_state in Hst as [_ _ _ _ Hle Hrange]; [|done].
    destruct (decide (ss_config_id st = rc_config_id (r_configuration s))) as [Heq|]; [|lia].
    apply Hrange in Heq as [(mx & Hmx & Hkm) _]. apply Hk in Hmx. lia. }
  rewrite <-!bool_decide_or in Hsum.
  case_bool_decide as Hex.
  - apply call_bind_Ok in Hsum as (st & s1 & Hl & Hsum). apply read_only_load in Hl as Hs. subst s1.
    injection Hsum as <-. apply load_current in Hl as (Hst & Hrd & Hsl & _ & _ & Hid & Hdg); [|done|done].
    split; [|done]. assert (slot_state s (rf_slot q) = Some st) as Hss.
    { unfold current_slot in Hst. destruct (slot_state s (rf_slot q)) as [x|] eqn:Hx; [by rewrite Hst|].
      apply slot_state_None in Hx; [|done]. unfold slots_of in Hx. apply lookup_union_None in Hx as [Hx1 Hx2].
      rewrite Hx1, Hx2 in Hex. by destruct Hex as [[? ?]|[? ?]]. }
    pose proof (inv_slot_state _ _ _ Hi Hss) as [_ _ _ _ _ Hrange].
    destruct (Hrange Hid) as [(mx & Hmx & Hle) _]. specialize (Hdg (i_digest s Hi)).
    unfold valid_read_fence_observation; cbn. rewrite !neqb_refl, Hmx; cbn.
    apply N.leb_le in Hle. by rewrite Hle, Hsl, Hid, Hdg, Hci, Hcd, !eqb_refl.
  - injection Hsum as <-. unfold valid_read_fence_observation; cbn. rewrite !neqb_refl; cbn.
    destruct (rc_max_slot (r_configuration s)) as [h|] eqn:Hmx; cbn.
    + destruct (N.ltb_spec h (rf_slot q)); cbn.
      * split; [done|]. intros _ k st Hk. apply Habove. intros mx [= <-]. lia.
      * split; [|done]. apply N.leb_le in H0 as ->. done.
    + split; [done|]. intros _ k st _. by apply Habove.
Qed.

Lemma observe_fence_above q s s' o :
  is_u64 (rf_slot q) = true → recorder_inv s → observe_read_fence q s = (Ok o, s') →
  ro_slot_state o = FenceEmpty → ∀ k st, (rf_slot q ≤ k)%N → slot_state s k = Some st →
  (ss_config_id st < rc_config_id (r_configuration s))%N.
Proof. intros Hu Hi Ho. by apply (observe_fence_valid q s s' o). Qed.

Lemma store_command_fresh h c s :
  command_hash c = h → wal_commands (r_wal s) !! h = None → r_command_files s !! h = None →
  store_command_unlocked h c s
  = (Ok (), set_command_files (<[h := encode_stored_command c]> (r_command_files s)) s).
Proof.
  intros Hh Hw Hf. unfold store_command_unlocked, lift. rewrite Hh, neqb_refl.
  unfold mbind, call_bind, store. cbn [reject_if]. rewrite Hw.
  unfold stage_command_unlocked, mbind, call_bind, store. by rewrite Hf.
Qed.

(** C40. A command larger than the bound on command files cannot be read back once
    it is in a file: [store_command] accepts it, and every later fetch fails. *)
Theorem oversized_command_unreadable (h : LogHash) (c : StoredCommand) (s : RecorderFileStore) :
  (MAX_REPLICATED_COMMAND_BYTES < blen (sc_payload c))%N → command_hash c = h →
  wal_commands (r_wal s) !! h = None → r_command_files s !! h = None →
  ∃ s', store_command_unlocked h c s = (Ok (), s')
    ∧ fetch_command_unlocked h s' =
      (Err (Decode "recorder command cache entry must be a bounded regular file"), s').
Proof.
  intros Hbig Hh Hw Hf. eexists. split; [by apply store_command_fresh|].
  unfold fetch_command_unlocked. rewrite store_bind. cbn [r_wal set_command_files]. rewrite Hw.
  unfold fetch_command_cache_unlocked, read_existing_command_cache. rewrite store_bind.
  cbn [r_command_files set_command_files]. rewrite lookup_insert_eq. unfold lift.
  assert (MAX_COMMAND_CACHE_BYTES <? blen (encode_stored_command c) = true)%N as ->; [|done].
  apply N.ltb_lt. unfold encode_stored_command, MAX_COMMAND_CACHE_BYTES.
  rewrite blen_with_digest, !blen_app. unfold put_u16, put_u64. rewrite !blen_be_bytes.
  change (blen (lit "QCMD")) with 4%N. change (blen [_]) with 1%N. lia.
Qed.

(** C34. A recorder changes its configuration only on evidence: when
    [install_successor_from_proof] answers, a quorum of the current membership
    certified the stop command that names exactly the new member set and the
    next configuration id, this recorder is one of the new voters, an earlier
    local seal is the certified one, and the installed configuration starts
    without slots, not activated, behind that stop. *)
Theorem install_successor_certified (m : Membership) (stop_proof : DecisionProof)
    (s s' : RecorderFileStore) (installed : RecorderConfiguration) :
  recorder_inv s → install_successor_from_proof m stop_proof s = (Ok installed, s') →
  successor_checks m stop_proof s installed
  ∧ (∃ old, rc_membership (r_configuration s) = Some old
       ∧ summaries_quorum old (proof_context stop_proof).1.1.1 (proof_step stop_proof)
           (proof_summaries stop_proof))
  ∧ r_configuration s' = installed ∧ slots_of s' = slots_of s.
Proof.
  intros Hi Hr. apply install_successor_cases in Hr as [(? & ? & _)|(c & [= <-] & Hk & Hc)]; [done| |by apply Hi].
  split; [done|]. split; [|by destruct Hc].
  destruct (uk_predecessor _ _ _ _ Hk) as (old & stop & value & Hold & Hv & _). exists old. split; [done|].
  unfold validate_for_cluster in Hv. res_inv. by apply validate_for_quorum in Hv as [Hq _].
Qed.
End spec.
