(* ===== verification/Durable.v ===== *)
(** * Durable: what the files of a recorder hold, and that reopening reads it back

    The invariant [durable] relates the files of a running recorder to its memory:
    the configuration and head files are those of the last checkpoint, and the
    write-ahead log is the sequence of frames that lead from there to the present.
    Replaying the log walks through exactly these frames. *)

From S2P Require Import Prelude Bytes Text Core ConfigChange Proposal Isr DecisionProof RecorderCodec Recorder Reopen RecorderSpec.

(** ** Frames *)

(** What one append to the log writes. *)
Record Entry : Type := mkEntry {
  e_state : RecorderSlotState; e_configuration : RecorderConfiguration;
  e_head : RecordedHeadProvenance; e_command : option (LogHash * StoredCommand)
}.

Section durable.
Context `{Sha256}.

Definition encode_entry (generation : N) (acc : Replay) (e : Entry) :
    result Error (bytes * LogHash * bytes) :=
  encode_wal_frame generation (rp_next_sequence acc) (rp_last_digest acc) (e_state e)
    (e_configuration e) (e_head e) (e_command e).

Definition add_command (commands : gmap LogHash StoredCommand) (command : option (LogHash * StoredCommand)) :
    gmap LogHash StoredCommand :=
  match command with
  | Some (h, c) => match commands !! h with Some _ => commands | None => <[h := c]> commands end
  | None => commands
  end.

(** The replay after the frame of an entry. *)
Definition after_entry (acc : Replay) (e : Entry) (frame_digest : LogHash) (slot_bytes : bytes) : Replay :=
  mkReplay (rp_next_sequence acc + 1) frame_digest (rp_frame_count acc + 1)
    (<[ss_slot (e_state e) := slot_bytes]> (rp_slots acc)) (add_command (rp_commands acc) (e_command e))
    (e_configuration e) (e_head e).

(** The value was made from the command stored under its hash. *)
Definition value_backed (commands : gmap LogHash bytes) (cluster : bytes) (slot epoch config_id : N)
    (v : AcceptedValue) : Prop :=
  ∃ c, commands !! av_command_hash v = Some (encode_stored_command c)
       ∧ from_command cluster slot epoch config_id (av_prev_hash v) c = v.

Definition expected_head (c : RecorderConfiguration) (st : RecorderSlotState)
    (head : RecordedHeadProvenance) : RecordedHeadProvenance :=
  if eqb (rc_max_slot c) (Some (ss_slot st)) && negb (length (recorder_state_values st) =? 0)
  then SlotBacked (ss_slot st) else head.

(** An entry that the replay accepts after [acc]. *)
Record entry_ok (files : gmap LogHash bytes) (cluster : bytes) (epoch : N) (acc : Replay) (e : Entry) :
    Prop := {
  eo_readable : readable (e_state e);
  eo_identity : ss_cluster_id (e_state e) = cluster ∧ ss_epoch (e_state e) = epoch
    ∧ ss_config_id (e_state e) = rc_config_id (e_configuration e)
    ∧ ss_config_digest (e_state e) = rc_config_digest (e_configuration e);
  eo_configuration : configuration_typed (e_configuration e);
  eo_structure : configuration_structure_changed (rp_configuration acc) (e_configuration e) = false;
  eo_head : e_head e = expected_head (e_configuration e) (e_state e) (rp_head acc)
    ∧ head_typed (e_head e) = true;
  eo_command : ∀ h c, e_command e = Some (h, c) →
    command_hash c = h ∧ ∀ c', rp_commands acc !! h = Some c' → c' = c;
  eo_values : ∀ v, v ∈ recorder_state_values (e_state e) →
    value_backed ((encode_stored_command <$> add_command (rp_commands acc) (e_command e)) ∪ files)
      cluster (ss_slot (e_state e)) epoch (rc_config_id (e_configuration e)) v;
  eo_sequence : (rp_next_sequence acc + 1 ≤ u64_max)%N
}.

(** [logged acc l acc']: the frames of [l] lead from [acc] to [acc']. *)
Inductive logged (files : gmap LogHash bytes) (cluster : bytes) (epoch generation : N) (acc : Replay) :
    bytes → Replay → Prop :=
| logged_nil : logged files cluster epoch generation acc [] acc
| logged_snoc l acc1 e frame d slot_bytes :
    logged files cluster epoch generation acc l acc1 →
    entry_ok files cluster epoch acc1 e →
    encode_entry generation acc1 e = Ok (frame, d, slot_bytes) →
    logged files cluster epoch generation acc (l ++ frame) (after_entry acc1 e d slot_bytes).

(** Frames of generations before the current one, which a crash may leave. *)
Inductive stale_frames (generation : N) : bytes → Prop :=
| stale_nil : stale_frames generation []
| stale_snoc l g sequence prev st c head command frame d slot_bytes :
    stale_frames generation l → (g < generation)%N →
    is_u64 g && is_u64 sequence && is_u64 (ss_slot st) && head_typed head = true →
    encode_wal_frame g sequence prev st c head command = Ok (frame, d, slot_bytes) →
    stale_frames generation (l ++ frame).

(** Where commands are looked up while the log is replayed. *)
Definition cached_command (files : gmap LogHash bytes) (h : LogHash) : result Error StoredCommand :=
  match read_existing_command_cache files h with Ok c => Ok c | Err _ => Err CommandUnavailable end.

(** The command files as the recorder wrote them, each within the bound of a read. *)
Definition files_readable (files : gmap LogHash bytes) : Prop :=
  ∀ h b, files !! h = Some b →
    (blen b ≤ MAX_COMMAND_CACHE_BYTES)%N ∧ ∃ c, b = encode_stored_command c ∧ command_hash c = h.

Lemma encode_stored_command_inj c c' :
  (blen (encode_stored_command c) ≤ u64_max)%N → encode_stored_command c = encode_stored_command c' → c = c'.
Proof.
  intros Hl He. pose proof (stored_command_reads c Hl) as H1. rewrite He in Hl, H1.
  rewrite stored_command_reads in H1 by done. by injection H1.
Qed.

Lemma read_cache_ok files h c :
  files_readable files → files !! h = Some (encode_stored_command c) →
  read_existing_command_cache files h = Ok c.
Proof.
  intros Hf Hb. pose proof (Hf _ _ Hb) as (Hl & c' & Hc & Hh).
  assert (blen (encode_stored_command c) ≤ u64_max)%N as Hu.
  { etransitivity; [exact Hl|]. by apply N.leb_le. }
  unfold read_existing_command_cache. rewrite Hb.
  destruct (N.ltb_spec MAX_COMMAND_CACHE_BYTES (blen (encode_stored_command c))); [lia|].
  cbn [reject_if mbind result_bind]. rewrite stored_command_reads by done. cbn [mbind result_bind].
  apply encode_stored_command_inj in Hc as <-; [|done]. by rewrite Hh, neqb_refl.
Qed.

(** A backed value passes the check of the replay, with either way to look up
    commands that the log does not hold. *)
Lemma validate_backed cached files inline cluster slot epoch config_id v :
  (∀ h c, files !! h = Some (encode_stored_command c) → cached h = Ok c) →
  (∀ h c, inline !! h = Some c → (blen (encode_stored_command c) ≤ u64_max)%N) →
  value_backed ((encode_stored_command <$> inline) ∪ files) cluster slot epoch config_id v →
  validate_existing_value cached cluster slot epoch config_id inline v = Ok ().
Proof.
  intros Hcached Hsize (c & Hc & Hv). unfold validate_existing_value.
  rewrite lookup_union, lookup_fmap in Hc.
  destruct (inline !! av_command_hash v) as [c'|] eqn:Hi.
  - change (encode_stored_command <$> Some c') with (Some (encode_stored_command c')) in Hc.
    rewrite union_Some_l in Hc. apply (inj Some) in Hc.
    apply encode_stored_command_inj in Hc as ->; [|by eapply Hsize].
    cbn [mbind result_bind]. by rewrite Hv, neqb_refl.
  - cbn in Hc. rewrite (left_id None (∪)) in Hc. rewrite (Hcached _ _ Hc). cbn [mbind result_bind].
    by rewrite Hv, neqb_refl.
Qed.

Lemma collect_units {A} (f : A → result Error ()) (l : list A) :
  (∀ x, x ∈ l → f x = Ok ()) → ∃ us, collect f l = Ok us.
Proof.
  induction l as [|x l IH]; intros Hf; cbn; [by eexists|].
  rewrite Hf by left. destruct IH as (us & Hus); [intros; apply Hf; by right|].
  cbn. rewrite Hus. by eexists.
Qed.

(** ** Replay *)

Definition commands_sized (commands : gmap LogHash StoredCommand) : Prop :=
  ∀ h c, commands !! h = Some c → (blen (encode_stored_command c) ≤ u64_max)%N.

(** The frame that [decode_wal_frame] returns for an entry. *)
Definition frame_of (generation : N) (acc : Replay) (e : Entry) (d : LogHash)
    (slot_bytes configuration_bytes : bytes) : WalFrame :=
  mkWalFrame generation (rp_next_sequence acc) (rp_last_digest acc) d (ss_slot (e_state e)) slot_bytes
    configuration_bytes (e_head e) (e_command e).

Lemma encode_entry_parts generation acc e frame d slot_bytes :
  encode_entry generation acc e = Ok (frame, d, slot_bytes) →
  ∃ configuration_bytes,
    encode_recorder_state (e_state e) = Ok slot_bytes ∧ (blen slot_bytes ≤ u64_max)%N
    ∧ encode_configuration_state (e_configuration e) = Ok configuration_bytes
    ∧ (blen configuration_bytes ≤ u64_max)%N
    ∧ ∀ h c, e_command e = Some (h, c) → (blen (encode_stored_command c) ≤ u64_max)%N.
Proof.
  unfold encode_entry. intros He.
  destruct (encode_wal_frame_Ok _ _ _ _ _ _ _ _ _ _ He) as (cb & sbl & cbl & cmd & Hsb & Hcb & Hsbl & Hcbl & Hcmd & _).
  exists cb. pose proof (put_blob_length _ _ Hsbl). pose proof (put_blob_length _ _ Hcbl).
  pose proof (frame_command_length _ _ Hcmd). auto.
Qed.

Lemma add_command_sized commands o :
  commands_sized commands → (∀ h c, o = Some (h, c) → (blen (encode_stored_command c) ≤ u64_max)%N) →
  commands_sized (add_command commands o).
Proof.
  intros Hs Ho. destruct o as [[h c]|]; [|done]. cbn. destruct (commands !! h) eqn:Hh; [done|].
  intros h' c' [[<- <-]|[_ ?]]%lookup_insert_Some; eauto.
Qed.

Lemma replay_entry cached files cluster epoch checkpoint acc e frame d slot_bytes configuration_bytes :
  (∀ h c, files !! h = Some (encode_stored_command c) → cached h = Ok c) →
  commands_sized (rp_commands acc) → entry_ok files cluster epoch acc e →
  encode_entry (wc_generation checkpoint) acc e = Ok (frame, d, slot_bytes) →
  encode_configuration_state (e_configuration e) = Ok configuration_bytes →
  replay_frame cached cluster epoch checkpoint acc
    (frame_of (wc_generation checkpoint) acc e d slot_bytes configuration_bytes)
  = Ok (after_entry acc e d slot_bytes).
Proof.
  intros Hcached Hsized Ho He Hcb.
  apply encode_entry_parts in He as (cb & Hsb & Hsl & Hcb' & Hcl & Hcmd).
  rewrite Hcb in Hcb'. apply Ok_inj in Hcb' as <-. destruct Ho.
  destruct eo_identity0 as (Hcluster & Hepoch & Hid & Hdigest). destruct eo_head0 as [Hhead _].
  unfold replay_frame, frame_of. cbn [wf_generation wf_sequence wf_prev_digest wf_digest wf_slot
    wf_slot_bytes wf_configuration_bytes wf_head wf_command].
  rewrite !neqb_refl. cbn [orb reject_if mbind result_bind].
  rewrite (recorder_state_reads (e_state e)) by (by destruct eo_readable0 || done). cbn [mbind result_bind].
  rewrite (configuration_reads (e_configuration e)) by done. cbn [mbind result_bind].
  unfold state_identity_differs. rewrite Hcluster, Hepoch, Hid, Hdigest, !neqb_refl, eo_structure0.
  cbn [orb reject_if mbind result_bind].
  assert (match e_command e with
    | Some (hash, command) =>
        _ ← reject_if (neqb (command_hash command) hash) (Decode "recorder WAL inline command hash mismatch");
        upsert_wal_command (rp_commands acc) hash command
    | None => Ok (rp_commands acc)
    end = Ok (add_command (rp_commands acc) (e_command e))) as ->.
  { destruct (e_command e) as [[h c]|]; [|done]. destruct (eo_command0 h c eq_refl) as [Hh Heq].
    rewrite Hh, neqb_refl. cbn [reject_if mbind result_bind]. unfold upsert_wal_command, add_command.
    destruct (rp_commands acc !! h) as [c'|]; [|done]. by rewrite (Heq c' eq_refl), neqb_refl. }
  cbn [mbind result_bind].
  destruct (collect_units (validate_existing_value cached cluster (ss_slot (e_state e)) epoch
    (rc_config_id (e_configuration e)) (add_command (rp_commands acc) (e_command e)))
    (recorder_state_values (e_state e))) as (us & ->).
  { intros v Hv. eapply validate_backed; [done|by apply add_command_sized|]. by apply eo_values0. }
  cbn [mbind result_bind]. fold (expected_head (e_configuration e) (e_state e) (rp_head acc)).
  rewrite <-Hhead, neqb_refl. cbn [reject_if mbind result_bind].
  assert (checked_add (rp_next_sequence acc) 1 = Some (rp_next_sequence acc + 1)%N) as ->
    by (by apply checked_add_Some). done.
Qed.

(** *** The loop *)

Lemma encode_frame_nonempty generation sequence prev st c head command frame d slot_bytes :
  encode_wal_frame generation sequence prev st c head command = Ok (frame, d, slot_bytes) →
  (46 ≤ blen frame)%N.
Proof.
  intros (? & ? & ? & ? & _ & _ & _ & _ & _ & -> & _)%encode_wal_frame_Ok.
  rewrite blen_with_digest, wal_frame_length. lia.
Qed.

Lemma slot_typed_slot st : slot_typed st = true → is_u64 (ss_slot st) = true.
Proof. unfold slot_typed. intros Ht. by do 8 apply andb_true_iff in Ht as [Ht _]. Qed.

Lemma blen_length (l : bytes) : blen l = N.of_nat (length l).
Proof. done. Qed.

(** One frame of the log, at its place. *)
Lemma replay_loop_frame fuel cached cluster epoch checkpoint acc p s
    g sequence prev st c head command frame d slot_bytes configuration_bytes :
  is_u64 g && is_u64 sequence && is_u64 (ss_slot st) && head_typed head = true →
  encode_wal_frame g sequence prev st c head command = Ok (frame, d, slot_bytes) →
  encode_configuration_state c = Ok configuration_bytes →
  (blen (p ++ frame ++ s) ≤ u64_max)%N →
  replay_loop (S fuel) cached cluster epoch checkpoint (p ++ frame ++ s) acc (blen p) =
  if (g <? wc_generation checkpoint)%N
  then replay_loop fuel cached cluster epoch checkpoint (p ++ frame ++ s) acc (blen p + blen frame)
  else acc' ← replay_frame cached cluster epoch checkpoint acc
                (mkWalFrame g sequence prev d (ss_slot st) slot_bytes configuration_bytes head command);
       replay_loop fuel cached cluster epoch checkpoint (p ++ frame ++ s) acc' (blen p + blen frame).
Proof.
  intros Ht He Hc Hl. pose proof (encode_frame_nonempty _ _ _ _ _ _ _ _ _ _ He) as Hne.
  cbn [replay_loop]. destruct (N.leb_spec (blen (p ++ frame ++ s)) (blen p)) as [Hle|_].
  { rewrite !blen_app in Hle. lia. }
  rewrite (wal_frame_reads g sequence prev st c head command frame slot_bytes configuration_bytes p s d) by done.
  done.
Qed.

Lemma replay_logged cached files cluster epoch checkpoint acc l acc' p s :
  (∀ h c, files !! h = Some (encode_stored_command c) → cached h = Ok c) →
  is_u64 (wc_generation checkpoint) = true →
  logged files cluster epoch (wc_generation checkpoint) acc l acc' →
  commands_sized (rp_commands acc) → (blen (p ++ l ++ s) ≤ u64_max)%N →
  commands_sized (rp_commands acc')
  ∧ ∃ n, n ≤ length l ∧ ∀ fuel,
    replay_loop (n + fuel) cached cluster epoch checkpoint (p ++ l ++ s) acc (blen p)
    = replay_loop fuel cached cluster epoch checkpoint (p ++ l ++ s) acc' (blen p + blen l).
Proof.
  intros Hcached Hg Hlog Hsized. revert s.
  induction Hlog as [|l acc1 e frame d sb Hlog IH Hok He]; intros s Hl.
  { split; [done|]. exists 0. split; [done|]. intros fuel. by rewrite blen_nil, N.add_0_r. }
  rewrite <-app_assoc in Hl |- *. destruct (IH (frame ++ s) Hl) as (Hs1 & n & Hn & IHn).
  pose proof (encode_entry_parts _ _ _ _ _ _ He) as (cb & _ & _ & Hcb & _ & Hcmd).
  unfold encode_entry in He. pose proof (encode_frame_nonempty _ _ _ _ _ _ _ _ _ _ He) as Hne.
  split; [by apply add_command_sized|]. exists (S n). split.
  { rewrite length_app. rewrite blen_length in Hne. lia. }
  intros fuel. replace (S n + fuel) with (n + S fuel) by lia. rewrite IHn.
  assert (p ++ l ++ frame ++ s = (p ++ l) ++ frame ++ s) as E by by rewrite <-app_assoc.
  rewrite E in *. rewrite <-blen_app.
  assert (is_u64 (wc_generation checkpoint) && is_u64 (rp_next_sequence acc1)
    && is_u64 (ss_slot (e_state e)) && head_typed (e_head e) = true) as Ht.
  { destruct Hok. destruct eo_readable0 as [Hst%slot_typed_slot _]. destruct eo_head0 as [_ Hh].
    rewrite Hg, Hst, Hh, !andb_true_r. apply N.leb_le. lia. }
  rewrite (replay_loop_frame _ _ _ _ _ _ _ _ _ _ _ _ _ _ _ _ _ _ cb Ht He Hcb Hl).
  rewrite N.ltb_irrefl. pose proof (replay_entry cached files cluster epoch checkpoint acc1 e frame d sb cb
    Hcached Hs1 Hok He Hcb) as Hr. unfold frame_of in Hr. rewrite Hr. cbn [mbind result_bind].
  by rewrite !blen_app, !N.add_assoc.
Qed.

(** Frames of earlier generations are skipped. *)
Lemma replay_stale cached cluster epoch checkpoint acc l s :
  stale_frames (wc_generation checkpoint) l → (blen (l ++ s) ≤ u64_max)%N →
  ∃ n, n ≤ length l ∧ ∀ fuel,
    replay_loop (n + fuel) cached cluster epoch checkpoint (l ++ s) acc 0%N
    = replay_loop fuel cached cluster epoch checkpoint (l ++ s) acc (blen l).
Proof.
  intros Hst. revert s. induction Hst as [|l g sq prev st c head command frame d sb Hst IH Hlt Ht He]; intros s Hl.
  { exists 0. by split. }
  rewrite <-app_assoc in Hl |- *. destruct (IH (frame ++ s) Hl) as (n & Hn & IHn).
  pose proof (encode_frame_nonempty _ _ _ _ _ _ _ _ _ _ He) as Hne.
  destruct (encode_wal_frame_Ok _ _ _ _ _ _ _ _ _ _ He) as (cb & _ & _ & _ & _ & Hcb & _).
  exists (S n). split.
  { rewrite length_app. rewrite blen_length in Hne. lia. }
  intros fuel. replace (S n + fuel) with (n + S fuel) by lia. rewrite IHn.
  rewrite (replay_loop_frame _ _ _ _ _ _ _ _ _ _ _ _ _ _ _ _ _ _ cb Ht He Hcb Hl).
  destruct (N.ltb_spec g (wc_generation checkpoint)); [|lia]. by rewrite blen_app.
Qed.

(** What a crash during an append leaves of the frame is not a frame. *)
Lemma decode_torn g sequence prev st c head command frame d slot_bytes p s rest :
  encode_wal_frame g sequence prev st c head command = Ok (frame, d, slot_bytes) →
  frame = s ++ rest → rest ≠ [] → (blen (p ++ frame) ≤ u64_max)%N →
  decode_wal_frame (p ++ s) (blen p) = Ok None.
Proof.
  intros (cb & sbl & cbl & cmd & _ & _ & _ & _ & _ & Hf & _)%encode_wal_frame_Ok Hs Hr Hl.
  match type of Hf with frame = with_digest (_ ++ _ ++ _ ++ ?pl) => set (payload := pl) in * end.
  set (total := (14 + blen payload + 32)%N) in *.
  assert (blen frame = total) as Htotal.
  { rewrite Hf, blen_with_digest, wal_frame_length. done. }
  assert (blen s < total)%N as Hlt.
  { rewrite <-Htotal, Hs, blen_app. destruct rest; [done|]. rewrite blen_cons. lia. }
  rewrite blen_app in Hl. unfold decode_wal_frame.
  rewrite (slice_at (p ++ s) p s []); [|by rewrite app_nil_r|done|by rewrite blen_app].
  cbn [ok_or mbind result_bind]. destruct (N.ltb_spec (blen s) 14) as [|H14]; [done|].
  set (header := RECORDER_WAL_MAGIC ++ put_u16 RECORDER_WAL_VERSION ++ put_u64 total).
  assert (∃ more, s = header ++ more) as (more & ->).
  { assert (blen header = 14)%N as Hh.
    { pose proof (wal_frame_length RECORDER_WAL_VERSION total []) as Hw. by rewrite app_nil_r, blen_nil in Hw. }
    exists (drop 14 s). assert (take 14 s = header) as <-; [|by rewrite take_drop].
    assert (length header = 14) as Hhl by (rewrite blen_length in Hh; lia).
    assert (take 14 frame = header) as <-.
    { rewrite Hf. unfold with_digest, header. rewrite !app_assoc, <-(app_assoc _ payload). fold header.
      rewrite <-Hhl. apply take_app_length'. done. }
    rewrite Hs. rewrite take_app_le; [done|]. rewrite blen_length in H14. lia. }
  assert (slice (header ++ more) 0 4 = Some RECORDER_WAL_MAGIC) as ->.
  { unfold header. rewrite <-!app_assoc. apply (slice_prefix RECORDER_WAL_MAGIC). }
  rewrite neqb_refl. cbn [reject_if mbind result_bind].
  assert (at_pos (p ++ header ++ more) (blen p + 4)
    (put_u16 RECORDER_WAL_VERSION ++ put_u64 total ++ more)) as Hat.
  { exists (p ++ RECORDER_WAL_MAGIC). split; [|by rewrite blen_app].
    unfold header. by rewrite <-!app_assoc. }
  assert (is_u64 total = true) by (apply N.leb_le; lia).
  assert (blen (p ++ header ++ more) ≤ u64_max)%N by (rewrite blen_app; lia).
  set (l := p ++ header ++ more) in *.
  read_next. rewrite neqb_refl. cbn [reject_if mbind result_bind]. read_next.
  destruct (N.ltb_spec total 46); [lia|]. cbn [reject_if mbind result_bind].
  assert (checked_add (blen p) total = Some (blen p + total)%N) as -> by (apply checked_add_Some; lia).
  cbn [ok_or mbind result_bind]. destruct (N.ltb_spec (blen l) (blen p + total)); [done|].
  pose proof (blen_app p (header ++ more)) as Hb. fold l in Hb. lia.
Qed.

(** ** The invariant *)

(** The root of a running recorder. *)
Definition root_of (s : RecorderFileStore) : RecorderRoot :=
  mkRoot (Some (r_configuration_file s)) (Some (r_head_file s)) (Some (wal_file (r_wal s))) None None
    (r_slot_files s) (r_command_files s).

(** The log as the replay sees it. *)
Definition replay_of (s : RecorderFileStore) : Replay :=
  mkReplay (wal_next_sequence (r_wal s)) (wal_last_digest (r_wal s)) (wal_frame_count (r_wal s))
    (wal_slots (r_wal s)) (wal_commands (r_wal s)) (r_configuration s) (r_recorded_head s).

(** A slot that holds a value. *)
Definition slot_valued (st : RecorderSlotState) : Prop :=
  is_Some (isr_first_current (ss_isr st) ≫= p_value)
  ∨ is_Some (ss_decided_proof st ≫= (p_value ∘ proof_proposal)).

(** A slot state of the configuration [c]: it holds values, all of them backed. *)
Record slot_backed (commands : gmap LogHash bytes) (c : RecorderConfiguration) (st : RecorderSlotState) :
    Prop := {
  sb_digest : ss_config_digest st = rc_config_digest c;
  sb_valued : slot_valued st;
  sb_values : ∀ v, v ∈ recorder_state_values st →
    value_backed commands (ss_cluster_id st) (ss_slot st) (ss_epoch st) (rc_config_id c) v
}.

(** Every stored slot belongs to the recorder under its key, and those of the
    current configuration are backed. *)
Definition slots_backed (cluster : bytes) (epoch : N) (commands : gmap LogHash bytes)
    (c : RecorderConfiguration) (slots : gmap N bytes) : Prop :=
  ∀ k b, slots !! k = Some b → ∃ st, decode_recorder_state b = Ok st
    ∧ ss_slot st = k ∧ ss_cluster_id st = cluster ∧ ss_epoch st = epoch
    ∧ (ss_config_id st ≤ rc_config_id c)%N
    ∧ (ss_config_id st = rc_config_id c → slot_backed commands c st).

(** The greatest slot that a head stands for, and the evidence for it. *)
Definition head_max (h : RecordedHeadProvenance) : option N :=
  match h with HeadEmpty => None | SlotBacked k => Some k | CheckpointBacked _ _ tip _ => Some tip end.
Definition head_evidence (slots : gmap N bytes) (c : RecorderConfiguration) (h : RecordedHeadProvenance) :
    Prop :=
  match h with
  | HeadEmpty => True
  | SlotBacked k => ∃ b st, slots !! k = Some b ∧ decode_recorder_state b = Ok st
      ∧ ss_config_id st = rc_config_id c
  | CheckpointBacked stop prefix tip hash =>
      ∃ p, rc_predecessor c = Some p ∧ cs_stop_slot p = stop ∧ cs_prefix_hash p = prefix
           ∧ rc_activated c = true ∧ (stop < tip)%N ∧ hash ≠ LogHash_ZERO
  end.

Definition checkpoint_backed (h : RecordedHeadProvenance) : bool :=
  match h with CheckpointBacked _ _ _ _ => true | _ => false end.

(** The files that the last checkpoint wrote: [c] and [h] are the configuration
    and the head it stands for.  A checkpoint under way may have replaced the
    configuration file with that of the present, [f], which differs in the
    greatest slot only. *)
Record checkpointed (s : RecorderFileStore) (c : RecorderConfiguration) (h : RecordedHeadProvenance) :
    Prop := {
  cp_configuration : ∃ f, encode_configuration_state f = Ok (r_configuration_file s)
    ∧ configuration_typed f ∧ c = set_max_slot f (head_max h)
    ∧ (checkpoint_backed h = true → rc_max_slot f = head_max h);
  cp_head : encode_recorded_head (r_cluster_id s) (r_epoch s) c h [] (wal_checkpoint (r_wal s))
            = Ok (r_head_file s);
  cp_typed : configuration_typed c ∧ head_typed h = true;
  cp_evidence : head_evidence (r_slot_files s) c h;
  cp_structure : configuration_structure_changed c (r_configuration s) = false
}.

(** The frames of the log, stale ones first, lead from the checkpoint to the
    present. *)
Definition log_of (s : RecorderFileStore) (c : RecorderConfiguration) (h : RecordedHeadProvenance) : Prop :=
  let w := r_wal s in
  ∃ stale l, wal_file w = stale ++ l ∧ wal_byte_count w = blen (wal_file w)
    ∧ stale_frames (wc_generation (wal_checkpoint w)) stale
    ∧ (wc_through_sequence (wal_checkpoint w) + 1 ≤ u64_max)%N
    ∧ logged (r_command_files s) (r_cluster_id s) (r_epoch s) (wc_generation (wal_checkpoint w))
        (mkReplay (wc_through_sequence (wal_checkpoint w) + 1) LogHash_ZERO 0 ∅ ∅ c h) l (replay_of s).

Record durable (s : RecorderFileStore) : Prop := {
  d_inv : recorder_inv s;
  d_id : blen (r_recorder_id s) ≠ 0%N;
  d_live : wal_failed (r_wal s) = false;
  d_generation : is_u64 (wc_generation (wal_checkpoint (r_wal s))) = true
                 ∧ wc_generation (wal_checkpoint (r_wal s)) ≠ 0%N;
  d_configuration : configuration_typed (r_configuration s);
  d_head : head_typed (r_recorded_head s) = true ∧ rc_max_slot (r_configuration s) = head_max (r_recorded_head s)
           ∧ head_evidence (slots_of s) (r_configuration s) (r_recorded_head s);
  d_agree : ∀ h c b, wal_commands (r_wal s) !! h = Some c → r_command_files s !! h = Some b →
              b = encode_stored_command c;
  d_files : slots_backed (r_cluster_id s) (r_epoch s) (r_command_files s) (r_configuration s) (r_slot_files s);
  d_slots : slots_backed (r_cluster_id s) (r_epoch s) (commands_of s) (r_configuration s) (slots_of s);
  d_checkpoint : ∃ c h, checkpointed s c h ∧ log_of s c h
}.

(** Every file is within the bound of the read that opens it. *)
Record within_bounds (s : RecorderFileStore) : Prop := {
  wb_configuration : (blen (r_configuration_file s) ≤ MAX_CONFIGURATION_BYTES)%N;
  wb_head : (blen (r_head_file s) ≤ MAX_RECORDED_HEAD_BYTES)%N;
  wb_wal : (blen (wal_file (r_wal s)) ≤ MAX_RECORDER_WAL_BYTES)%N;
  wb_commands : ∀ h b, r_command_files s !! h = Some b → (blen b ≤ MAX_COMMAND_CACHE_BYTES)%N;
  wb_slots : ∀ k b, r_slot_files s !! k = Some b → (blen b ≤ MAX_RECORDER_STATE_BYTES)%N
}.

(** ** Reopening *)

Lemma files_readable_durable s : recorder_inv s → within_bounds s →
  (∀ h c b, wal_commands (r_wal s) !! h = Some c → r_command_files s !! h = Some b →
     b = encode_stored_command c) →
  files_readable (r_command_files s).
Proof.
  intros Hi Hb Ha h b Hh. split; [by eapply wb_commands|].
  destruct (wal_commands (r_wal s) !! h) as [c|] eqn:Hw.
  - pose proof (Ha _ _ _ Hw Hh) as ->. apply (i_commands s Hi). unfold commands_of.
    by rewrite lookup_union, lookup_fmap, Hw, Hh.
  - apply (i_commands s Hi). unfold commands_of. by rewrite lookup_union, lookup_fmap, Hw, Hh.
Qed.

(** The replay of the log, with the beginning of another frame behind it or not. *)
Lemma replay_log_ok cached files cluster epoch cp stale l tail_ c h acc :
  (∀ x y, files !! x = Some (encode_stored_command y) → cached x = Ok y) →
  is_u64 (wc_generation cp) = true → (wc_through_sequence cp + 1 ≤ u64_max)%N →
  stale_frames (wc_generation cp) stale →
  logged files cluster epoch (wc_generation cp)
    (mkReplay (wc_through_sequence cp + 1) LogHash_ZERO 0 ∅ ∅ c h) l acc →
  (blen ((stale ++ l) ++ tail_) ≤ u64_max)%N →
  tail_ = [] ∨ decode_wal_frame ((stale ++ l) ++ tail_) (blen (stale ++ l)) = Ok None →
  replay_log cached cluster epoch cp ((stale ++ l) ++ tail_) c h = Ok (acc, blen (stale ++ l)).
Proof.
  intros Hc Hg Hsq Hst Hlog Hl Ht. unfold replay_log, replay_start.
  assert (checked_add (wc_through_sequence cp) 1 = Some (wc_through_sequence cp + 1)%N) as ->
    by (by apply checked_add_Some).
  cbn [ok_or mbind result_bind]. rewrite <-app_assoc in *.
  destruct (replay_stale cached cluster epoch cp
    (mkReplay (wc_through_sequence cp + 1) LogHash_ZERO 0 ∅ ∅ c h)
    stale (l ++ tail_) Hst Hl) as (n1 & Hn1 & H1).
  destruct (replay_logged cached _ _ _ _ _ l _ stale tail_ Hc Hg Hlog ltac:(by intros ? ?) Hl)
    as (_ & n2 & Hn2 & H2).
  rewrite !length_app. replace (length stale + (length l + length tail_))
    with (n1 + (n2 + ((length stale - n1) + (length l - n2) + length tail_))) by lia.
  rewrite H1, H2, <-blen_app. remember (_ + length tail_) as fuel eqn:Hfuel. clear H1 H2.
  destruct Ht as [->|Hd].
  - rewrite app_nil_r. unfold replay_loop. destruct fuel; by rewrite N.leb_refl.
  - rewrite app_assoc in Hd |- *. destruct fuel as [|fuel].
    { assert (tail_ = []) as -> by (apply length_zero_iff_nil; lia). rewrite app_nil_r.
      cbn [replay_loop]. by rewrite N.leb_refl. }
    cbn [replay_loop]. destruct (_ <=? _)%N; [done|]. by rewrite Hd.
Qed.

(** The replay accepts the same frames from any configuration of the same structure. *)
Lemma logged_restart files cluster epoch generation n d k slots commands c f h l acc :
  logged files cluster epoch generation (mkReplay n d k slots commands c h) l acc →
  configuration_structure_changed f c = false →
  ∃ acc', logged files cluster epoch generation (mkReplay n d k slots commands f h) l acc'
    ∧ rp_next_sequence acc' = rp_next_sequence acc ∧ rp_last_digest acc' = rp_last_digest acc
    ∧ rp_frame_count acc' = rp_frame_count acc ∧ rp_slots acc' = rp_slots acc
    ∧ rp_commands acc' = rp_commands acc ∧ rp_head acc' = rp_head acc
    ∧ configuration_structure_changed (rp_configuration acc') (rp_configuration acc) = false.
Proof.
  intros Hlog Hstr. remember (mkReplay n d k slots commands c h) as start eqn:Hs.
  induction Hlog as [|l acc1 e frame fd sb Hlog IH Ho He].
  { subst start. eexists. split; [constructor|done]. }
  destruct IH as ([n1 d1 k1 s1 m1 f1 h1] & Hl & E1 & E2 & E3 & E4 & E5 & E6 & Hst). cbn in *. subst.
  exists (after_entry (mkReplay (rp_next_sequence acc1) (rp_last_digest acc1) (rp_frame_count acc1)
    (rp_slots acc1) (rp_commands acc1) f1 (rp_head acc1)) e fd sb). split.
  - econstructor; [exact Hl| |exact He]. destruct Ho as [? ? ? Hsame ? ? ? ?]. split; cbn; try done.
    clear -Hst Hsame. unfold configuration_structure_changed in *. bool_prop. naive_solver congruence.
  - unfold after_entry, configuration_structure_changed. cbn. by rewrite !neqb_refl.
Qed.

Lemma valued_values st : slot_valued st → recorder_state_values st ≠ [].
Proof.
  unfold slot_valued, recorder_state_values. intros [[v Hv]|[v Hv]] Hn; rewrite Hv in Hn; cbn in Hn;
    repeat case_match; try done; destruct (as_value <$> _), (dc_value <$> _); cbn in Hn; done.
Qed.

(** *** The steps of an opening *)

Lemma root_bind {A} (f : RecorderRoot → opening A) r : (root ≫= f) r = f r r.
Proof. done. Qed.
Lemma check_bind {A B} (x : result Error A) (f : A → opening B) r :
  (check x ≫= f) r = match x with Ok a => f a r | Err e => (Err e, r) end.
Proof. by destruct x. Qed.
Lemma put_bind {A} w (f : () → opening A) r : (put w ≫= f) r = f () (write w r).
Proof. done. Qed.
Lemma mret_bind {A B} (x : A) (f : A → opening B) r : (mret x ≫= f) r = f x r.
Proof. done. Qed.
Lemma opening_bind_Ok {A B} (c : opening A) (f : A → opening B) r a r' :
  c r = (Ok a, r') → (c ≫= f) r = f a r'.
Proof. unfold mbind, opening_bind. by intros ->. Qed.

Lemma read_bounded_ok contents maximum name :
  (blen contents ≤ maximum)%N → read_regular_file_bounded (Some contents) maximum name = Ok contents.
Proof.
  intros Hl. unfold read_regular_file_bounded. destruct (N.ltb_spec maximum (blen contents)); [lia|done].
Qed.

(** The log of a root, cut at [offset]. *)
Definition cut_wal (offset : N) (contents : bytes) (r : RecorderRoot) : RecorderRoot :=
  if neqb offset (blen contents) then write (SetWalLength offset) r else r.

Lemma open_wal id cluster epoch c h cp r wb acc offset :
  root_wal r = Some wb → (blen wb ≤ MAX_RECORDER_WAL_BYTES)%N →
  replay_log (cached_command (root_commands r)) cluster epoch cp wb c h = Ok (acc, offset) →
  open_or_replay_wal id cluster epoch c h cp r =
  (Ok (recorder_of id cluster epoch (rp_configuration acc) (rp_head acc)
     (mkWal cp (rp_next_sequence acc) (rp_last_digest acc) (rp_frame_count acc) offset
        (rp_slots acc) (rp_commands acc) (default [] (root_wal (cut_wal offset wb r))) false)
     (cut_wal offset wb r)), cut_wal offset wb r).
Proof.
  intros Hw Hb Hr. unfold open_or_replay_wal. rewrite root_bind, Hw, mret_bind, root_bind, Hw.
  rewrite check_bind, read_bounded_ok by done.
  fold (cached_command (root_commands r)). cbn zeta. rewrite check_bind.
  change (λ hash, match read_existing_command_cache (root_commands r) hash with
    | Ok command => Ok command | Err _ => Err CommandUnavailable end) with (cached_command (root_commands r)).
  rewrite Hr. cbn beta iota. unfold cut_wal. destruct (neqb offset (blen wb)); done.
Qed.

(** The preflight of a root without intents whose files decode. *)
Lemma preflight_files cluster epoch m r cb hb wb c h cp preflight :
  root_intent r = None → root_head_intent r = None →
  root_configuration r = Some cb → root_head r = Some hb → root_wal r = Some wb →
  (blen cb ≤ MAX_CONFIGURATION_BYTES)%N → (blen hb ≤ MAX_RECORDED_HEAD_BYTES)%N →
  (blen wb ≤ MAX_RECORDER_WAL_BYTES)%N →
  decode_configuration_state cb = Ok c → rc_membership c = Some m → m_digest m = rc_config_digest c →
  decode_recorded_head hb cluster epoch c = Ok (h, [], cp) →
  replay_log (read_existing_command_cache (root_commands r)) cluster epoch cp wb c h = Ok preflight →
  ∃ o, preflight_existing_with_membership_outcome r cluster epoch (rc_config_id c) m = Ok o ∧ o ≠ Missing.
Proof.
  intros Hi Hhi Hc Hh Hw Hcb Hhb Hwb Hdc Hm Hmd Hdh Hp. destruct preflight as [acc0 off0].
  unfold preflight_existing_with_membership_outcome, read_preflight_intent.
  assert (root_is_empty r = false) as ->.
  { unfold root_is_empty. rewrite Hc. assert (eqb (Some cb) None = false) as -> by (by apply eqb_false). done. }
  rewrite Hi, Hhi, Hc, Hh, Hw. cbn [mbind result_bind].
  rewrite (read_bounded_ok cb) by done. cbn [mbind result_bind]. rewrite Hdc. cbn [mbind result_bind].
  unfold validate_preflight_configuration. rewrite Hm, Hmd, !neqb_refl. cbn [orb reject_if mbind result_bind].
  rewrite (read_bounded_ok hb) by done. cbn [mbind result_bind]. rewrite Hdh. cbn [mbind result_bind].
  unfold validate_existing_snapshots. cbn [collect mbind result_bind]. rewrite (read_bounded_ok wb) by done.
  cbn [mbind result_bind]. unfold validate_existing_wal. rewrite Hp. cbn [mbind result_bind].
  eexists. split; [done|]. by destruct (_ <? _)%N.
Qed.

(** Opening a root without intents whose files decode. *)
Lemma open_files id cluster epoch m existing_only r cb hb wb c h cp preflight mx acc offset :
  blen id ≠ 0%N → root_intent r = None → root_head_intent r = None →
  root_configuration r = Some cb → root_head r = Some hb → root_wal r = Some wb →
  (blen cb ≤ MAX_CONFIGURATION_BYTES)%N → (blen hb ≤ MAX_RECORDED_HEAD_BYTES)%N →
  (blen wb ≤ MAX_RECORDER_WAL_BYTES)%N →
  decode_configuration_state cb = Ok c → rc_membership c = Some m → m_digest m = rc_config_digest c →
  decode_recorded_head hb cluster epoch c = Ok (h, [], cp) →
  replay_log (read_existing_command_cache (root_commands r)) cluster epoch cp wb c h = Ok preflight →
  recovered_max (recorder_of id cluster epoch c HeadEmpty wal_default r) c h = Ok mx →
  (wc_through_sequence cp + 1 ≤ u64_max)%N →
  replay_log (cached_command (root_commands r)) cluster epoch cp wb (set_max_slot c mx) h = Ok (acc, offset) →
  open_with_membership id cluster epoch (rc_config_id c) m existing_only r =
  (Ok (recorder_of id cluster epoch (rp_configuration acc) (rp_head acc)
     (mkWal cp (rp_next_sequence acc) (rp_last_digest acc) (rp_frame_count acc) offset
        (rp_slots acc) (rp_commands acc) (default [] (root_wal (cut_wal offset wb r))) false)
     (cut_wal offset wb r)), cut_wal offset wb r).
Proof.
  intros Hid Hi Hhi Hc Hh Hw Hcb Hhb Hwb Hdc Hm Hmd Hdh Hp Hmx Hsq Hr.
  destruct preflight as [acc0 off0]. unfold open_with_membership.
  rewrite check_bind. destruct (N.eqb_spec (blen id) 0); [done|]. cbn [reject_if].
  rewrite root_bind. cbn zeta.
  destruct (preflight_files cluster epoch m r cb hb wb c h cp (acc0, off0)) as (o & -> & Ho); try done.
  assert (recover_configuration_head_intent r = (Ok (), r)) as Hrec.
  { unfold recover_configuration_head_intent. rewrite root_bind, Hhi. done. }
  assert (∀ B (f : () → opening B), ((match o with
    | Missing => check (reject_if existing_only (Decode "recorder root is missing durable state"))
    | _ => mret () end) ≫= f) r = f () r) as -> by (by destruct o).
  rewrite (opening_bind_Ok _ _ _ _ _ Hrec), root_bind, Hc.
  rewrite (opening_bind_Ok _ _ r c r).
  2:{ rewrite check_bind, read_bounded_ok by done. unfold check. by rewrite Hdc. }
  rewrite check_bind, Hm. cbn [option_holds]. rewrite Hmd, neqb_refl. cbn [reject_if].
  rewrite (opening_bind_Ok _ _ r c r).
  2:{ unfold recover_intent. rewrite (opening_bind_Ok _ _ _ _ _ Hrec), root_bind, Hi. done. }
  rewrite (opening_bind_Ok _ _ r (set_max_slot c mx, h, cp) r).
  2:{ unfold open_or_initialize_recorded_head. rewrite root_bind, Hh.
      rewrite (opening_bind_Ok _ _ r (h, [], cp) r).
      2:{ rewrite check_bind, read_bounded_ok by done. unfold check. by rewrite Hdh. }
      rewrite (opening_bind_Ok _ _ r (set_max_slot c mx) r); [done|].
      unfold install_recorded_head. cbn [restore_snapshots]. rewrite mret_bind, root_bind, check_bind, Hmx.
      rewrite check_bind. assert (checked_add (wc_through_sequence cp) 1 = Some (wc_through_sequence cp + 1)%N)
        as -> by (by apply checked_add_Some). done. }
  by apply open_wal.
Qed.

Lemma validate_value_backed id cluster epoch c r k v :
  files_readable (root_commands r) →
  value_backed (root_commands r) cluster k epoch (rc_config_id c) v →
  (validate_value_unlocked k v (recorder_of id cluster epoch c HeadEmpty wal_default r)).1 = Ok ().
Proof.
  intros Hf (cmd & Hc & Hv). pose proof (read_cache_ok _ _ _ Hf Hc) as Hr.
  unfold validate_value_unlocked, command_for_value_unlocked, fetch_command_unlocked,
    fetch_command_cache_unlocked, mbind, call_bind, store, lift.
  cbn -[read_existing_command_cache from_command]. rewrite lookup_empty.
  cbn -[read_existing_command_cache from_command]. rewrite Hr.
  cbn -[from_command]. unfold validate_resolved_command_for_value. cbn -[from_command].
  by rewrite Hv, neqb_refl.
Qed.

Lemma recovered_max_ok id cluster epoch c h r :
  files_readable (root_commands r) →
  slots_backed cluster epoch (root_commands r) c (root_slots r) → head_evidence (root_slots r) c h →
  (checkpoint_backed h = true → rc_max_slot c = head_max h) →
  (∀ k b, root_slots r !! k = Some b → (blen b ≤ MAX_RECORDER_STATE_BYTES)%N) →
  recovered_max (recorder_of id cluster epoch c HeadEmpty wal_default r) c h = Ok (head_max h).
Proof.
  intros Hf Hs He Hm Hb. destruct h as [|k|stop prefix tip hash]; [done| |].
  - destruct He as (b & st & Hk & Hd & Hid). destruct (Hs k b Hk) as (st' & Hd' & Hks & Hcl & Hep & _ & Hbk).
    rewrite Hd in Hd'. apply Ok_inj in Hd' as <-. destruct (Hbk Hid) as [Hdg Hval Hvs].
    cbn [recovered_max]. unfold load_unlocked. rewrite store_bind. cbn zeta.
    cbn [r_wal recorder_of wal_default wal_slots r_slot_files r_cluster_id r_epoch r_configuration].
    rewrite lookup_empty, Hk. unfold lift, mbind, call_bind.
    destruct (N.ltb_spec MAX_RECORDER_STATE_BYTES (blen b)) as [Hlt|_]; [pose proof (Hb k b Hk); lia|].
    cbn [reject_if]. rewrite Hd, Hks, Hcl, Hep, Hid, Hdg, !neqb_refl, andb_false_r. cbn [orb].
    unfold mret, call_ret. cbn [fst result_bind].
    destruct (Nat.eqb_spec (length (recorder_state_values st)) 0) as [H0|_].
    { apply length_zero_iff_nil in H0. by apply valued_values in Hval. }
    cbn [reject_if mbind result_bind].
    destruct (collect_units (λ value, (validate_value_unlocked k value
      (recorder_of id cluster epoch c HeadEmpty wal_default r)).1) (recorder_state_values st)) as (us & Hus).
    { intros v Hv. apply validate_value_backed; [done|]. rewrite <-Hks, <-Hcl, <-Hep. by apply Hvs. }
    fold (recorder_of id cluster epoch c HeadEmpty wal_default r). rewrite Hus. done.
  - destruct He as (p & Hp & <- & <- & Ha & Hlt & Hz). cbn [recovered_max]. rewrite Hp, Ha, Hm by done.
    cbn [ok_or mbind result_bind head_max negb]. rewrite !neqb_refl.
    destruct (N.leb_spec tip (cs_stop_slot p)); [lia|]. assert (eqb hash LogHash_ZERO = false) as ->
      by (by apply eqb_false). done.
Qed.

Lemma set_max_same c mx : rc_max_slot c = mx → set_max_slot c mx = c.
Proof. intros <-. by destruct c. Qed.
Lemma recorder_of_root s :
  recorder_of (r_recorder_id s) (r_cluster_id s) (r_epoch s) (r_configuration s) (r_recorded_head s)
    (r_wal s) (root_of s) = s.
Proof. by destruct s. Qed.

Lemma structure_same c c' :
  configuration_structure_changed c c' = false →
  rc_config_id c = rc_config_id c' ∧ rc_config_digest c = rc_config_digest c'
  ∧ rc_membership c = rc_membership c' ∧ rc_predecessor c = rc_predecessor c'
  ∧ rc_seal c = rc_seal c' ∧ rc_activated c = rc_activated c'.
Proof. unfold configuration_structure_changed. intros Hs. bool_prop. naive_solver. Qed.

(** The files of a checkpoint decode. *)
Lemma decode_checkpointed s c h :
  durable s → within_bounds s → checkpointed s c h →
  ∃ f, decode_configuration_state (r_configuration_file s) = Ok f ∧ c = set_max_slot f (head_max h)
  ∧ (checkpoint_backed h = true → rc_max_slot f = head_max h)
  ∧ decode_recorded_head (r_head_file s) (r_cluster_id s) (r_epoch s) f
    = Ok (h, [], wal_checkpoint (r_wal s)).
Proof.
  intros Hd Hb [(f & Hfe & Htf & -> & Hcb) Hhe [_ Hth] _ _]. exists f.
  destruct (i_typed s (d_inv s Hd)) as (Hcl & Hep & _).
  destruct (d_checkpoint s Hd) as (c1 & h1 & _ & (_ & _ & _ & _ & _ & Hsq & _)).
  destruct (d_generation s Hd) as [Hg Hg0]. split_and!; try done.
  - apply configuration_reads; [done|done|]. etransitivity; [apply (wb_configuration s Hb)|]. by apply N.leb_le.
  - eapply recorded_head_reads; [|done|by constructor|exact Hhe|].
    + destruct Htf as [Htf _]. cbn [forallb]. rewrite Hcl, Hep, Hth, Hg. bool_prop.
      destruct Htf as [[[? _] _] _]. split_and!; try done. apply N.leb_le. lia.
    + etransitivity; [apply (wb_head s Hb)|]. by apply N.leb_le.
Qed.

(** Opening gives the recorder back, whether or not the log ends with the
    beginning of a frame; such an end is cut off. *)
Lemma reopen_tail s m existing_only tail_ :
  durable s → within_bounds s → rc_membership (r_configuration s) = Some m →
  (blen (wal_file (r_wal s) ++ tail_) ≤ MAX_RECORDER_WAL_BYTES)%N →
  tail_ = [] ∨ decode_wal_frame (wal_file (r_wal s) ++ tail_) (blen (wal_file (r_wal s))) = Ok None →
  open_with_membership (r_recorder_id s) (r_cluster_id s) (r_epoch s) (rc_config_id (r_configuration s)) m
    existing_only (write (AppendWal tail_) (root_of s)) = (Ok s, root_of s).
Proof.
  intros Hd Hb Hm Hl Ht. pose proof Hd as [Hi Hid Hlive [Hg _] Htc _ Ha Hf _ (c & h & Hcp & Hlog)].
  pose proof (decode_checkpointed s c h Hd Hb Hcp) as (f & Hdc & Hcf & Hmx & Hdh).
  pose proof (structure_same _ _ (cp_structure _ _ _ Hcp)) as (Eid & Edg & Em & Ep & Es & Eac).
  rewrite Hcf in Eid, Edg, Em, Ep, Es, Eac. cbn in Eid, Edg, Em, Ep, Es, Eac.
  pose proof (files_readable_durable s Hi Hb Ha) as Hfr.
  destruct Hlog as (stale & l & Hfile & Hbytes & Hst & Hsq & Hlog).
  assert (blen (wal_file (r_wal s) ++ tail_) ≤ u64_max)%N as Hlu by (etransitivity; [exact Hl|by apply N.leb_le]).
  assert (∀ cached, (∀ x y, r_command_files s !! x = Some (encode_stored_command y) → cached x = Ok y) →
    replay_log cached (r_cluster_id s) (r_epoch s) (wal_checkpoint (r_wal s))
      (wal_file (r_wal s) ++ tail_) c h = Ok (replay_of s, blen (wal_file (r_wal s)))) as Hreplay.
  { intros cached Hcached. rewrite Hfile in *. by eapply replay_log_ok. }
  destruct (logged_restart _ _ _ _ _ _ _ _ _ _ f _ _ _ Hlog) as (acc' & Hlog' & _).
  { rewrite Hcf. unfold configuration_structure_changed. cbn. by rewrite !neqb_refl. }
  assert (replay_log (read_existing_command_cache (r_command_files s)) (r_cluster_id s) (r_epoch s)
    (wal_checkpoint (r_wal s)) (wal_file (r_wal s) ++ tail_) f h
    = Ok (acc', blen (wal_file (r_wal s)))) as Hpre.
  { rewrite Hfile in *. eapply replay_log_ok; try done. intros x y Hxy. by apply read_cache_ok. }
  rewrite <-Eid. erewrite (open_files _ _ _ m existing_only _ (r_configuration_file s) (r_head_file s)
    (wal_file (r_wal s) ++ tail_) f h (wal_checkpoint (r_wal s)) _ (head_max h) (replay_of s)
    (blen (wal_file (r_wal s)))); try done; try apply Hb.
  - unfold cut_wal, neqb. destruct (eqb _ _) eqn:He.
    + assert (tail_ = []) as ->.
      { rewrite eqb_true, blen_app in He. destruct tail_; [done|]. rewrite blen_cons in He. lia. }
      cbn [negb]. cbn [write root_of]. cbn [root_wal default from_option]. unfold id.
      rewrite app_nil_r. f_equal. f_equal. rewrite <-Hbytes. clear -Hlive.
      destruct s as [? ? ? ? ? [? ? ? ? ? ? ? ? failed] ? ? ? ?]. cbn in Hlive. by subst failed.
    + cbn [negb]. cbn [write root_of]. cbn [root_wal default from_option fmap option_fmap option_map]. unfold id.
      assert (take (N.to_nat (blen (wal_file (r_wal s)))) (wal_file (r_wal s) ++ tail_) = wal_file (r_wal s)) as ->.
      { apply take_app_length'. rewrite blen_length. lia. }
      f_equal. f_equal. rewrite <-Hbytes. clear -Hlive.
      destruct s as [? ? ? ? ? [? ? ? ? ? ? ? ? failed] ? ? ? ?]. cbn in Hlive. by subst failed.
  - by rewrite Em.
  - destruct Htc as [_ Htm]. unfold membership_typed in Htm. rewrite Hm in Htm. rewrite Edg. naive_solver.
  - apply recovered_max_ok; try done; cbn [root_commands root_slots write root_of].
    + intros k b Hk. destruct (Hf k b Hk) as (st & ? & ? & ? & ? & ? & Hbk). exists st. rewrite Eid.
      split_and!; try done. intros Hs. destruct (Hbk Hs) as [? ? ?]. split; [by rewrite Edg|done|by rewrite Eid].
    + pose proof (cp_evidence _ _ _ Hcp) as Hev. rewrite Hcf in Hev. by destruct h.
    + apply (wb_slots s Hb).
  - rewrite <-Hcf. cbn [root_commands write root_of]. apply Hreplay.
    intros x y Hxy. unfold cached_command. by rewrite (read_cache_ok _ _ _ Hfr Hxy).
Qed.
End durable.
