(* ===== verification/DurableOps.v ===== *)
(** * DurableOps: the operations of a recorder keep its files durable

    Every write of a recorder (checkpoint, append, the two commits, storing a
    command) keeps the invariant [durable], and with it every operation. *)

From S2P Require Import Prelude Bytes Text Core ConfigChange Proposal Isr DecisionProof RecorderCodec Recorder Reopen RecorderSpec Durable.

Section ops.
Context `{Sha256}.

(** ** Monotonicity in the command files *)

Lemma value_backed_mono commands commands' cluster slot epoch config_id v :
  commands ⊆ commands' → value_backed commands cluster slot epoch config_id v →
  value_backed commands' cluster slot epoch config_id v.
Proof. intros Hs (c & Hc & Hv). exists c. split; [by eapply lookup_weaken|done]. Qed.

Lemma slots_backed_mono cluster epoch commands commands' c slots :
  commands ⊆ commands' → slots_backed cluster epoch commands c slots →
  slots_backed cluster epoch commands' c slots.
Proof.
  intros Hs Hb k b Hk. destruct (Hb k b Hk) as (st & ? & ? & ? & ? & ? & Hst). exists st.
  split_and!; try done. intros Hc. destruct (Hst Hc) as [? ? ?]. split; [done|done|].
  eauto using value_backed_mono.
Qed.

Lemma union_mono_r `{Countable K} {A} (m n n' : gmap K A) : n ⊆ n' → m ∪ n ⊆ m ∪ n'.
Proof.
  intros Hs. apply map_subseteq_spec. intros k a. rewrite !lookup_union.
  destruct (m !! k); [by rewrite !union_Some_l|]. rewrite !(left_id None (∪)).
  intros Hk. by eapply lookup_weaken.
Qed.

Lemma logged_mono files files' cluster epoch generation acc l acc' :
  files ⊆ files' → logged files cluster epoch generation acc l acc' →
  logged files' cluster epoch generation acc l acc'.
Proof.
  intros Hs. induction 1 as [|l acc1 e frame d sb _ IH Ho He]; [constructor|].
  econstructor; [done| |done]. destruct Ho as [? ? ? ? ? ? Hvs ?].
  split; try done. intros v Hv. eapply value_backed_mono; [by apply union_mono_r|by apply Hvs].
Qed.

(** The log read so far: sequence numbers count its frames. *)
Lemma logged_counts files cluster epoch generation acc l acc' :
  logged files cluster epoch generation acc l acc' →
  (rp_next_sequence acc' + rp_frame_count acc = rp_next_sequence acc + rp_frame_count acc'
   ∧ rp_frame_count acc ≤ rp_frame_count acc'
   ∧ (rp_next_sequence acc ≤ u64_max → rp_next_sequence acc' ≤ u64_max))%N
  ∧ (rp_frame_count acc' = rp_frame_count acc → l = [] ∧ acc' = acc).
Proof.
  induction 1 as [|l acc1 e frame d sb _ [IH _] Ho _]; [split; [lia|done]|].
  destruct Ho. unfold after_entry. cbn. split; [lia|]. lia.
Qed.

Lemma logged_structure files cluster epoch generation acc l acc' :
  logged files cluster epoch generation acc l acc' →
  configuration_structure_changed (rp_configuration acc) (rp_configuration acc') = false.
Proof.
  assert (∀ c, configuration_structure_changed c c = false) as Hrefl.
  { intros c. unfold configuration_structure_changed. by rewrite !neqb_refl. }
  induction 1 as [|l acc1 e frame d sb _ IH Ho _]; [done|].
  apply structure_same in IH as (E1 & E2 & E3 & E4 & E5 & E6). destruct Ho.
  unfold configuration_structure_changed in *. by rewrite E1, E2, E3, E4, E5, E6.
Qed.

(** ** Encoders that succeed again *)

Lemma configuration_encodes c c' b :
  rc_membership c = rc_membership c' → encode_configuration_state c = Ok b →
  ∃ b', encode_configuration_state c' = Ok b'.
Proof.
  unfold encode_configuration_state. intros Hm He. apply bind_Ok_inv in He as (mb & Hmb & _).
  rewrite <-Hm, Hmb. by eexists.
Qed.
Lemma head_encodes cluster epoch c h cp b c' h' cp' :
  encode_recorded_head cluster epoch c h [] cp = Ok b →
  ∃ b', encode_recorded_head cluster epoch c' h' [] cp' = Ok b'.
Proof.
  unfold encode_recorded_head. intros He. apply bind_Ok_inv in He as (u & _ & He).
  apply bind_Ok_inv in He as (cb & Hcb & _). cbn [length]. cbn [Nat.ltb Nat.leb reject_if mbind result_bind].
  rewrite Hcb. cbn. by eexists.
Qed.

(** ** Storing a command *)

Lemma store_command_shape h c s r s' :
  store_command_unlocked h c s = (r, s') →
  s' = s ∨ (wal_commands (r_wal s) !! h = None ∧ r_command_files s !! h = None ∧ r = Ok ()
            ∧ s' = set_command_files (<[h := encode_stored_command c]> (r_command_files s)) s).
Proof.
  unfold store_command_unlocked, stage_command_unlocked, mbind, call_bind, lift, store, mret, call_ret, update.
  intros Hr. destruct (reject_if _ _); cbn in Hr; [|simplify_eq; by left].
  destruct (wal_commands (r_wal s) !! h) as [x|]; [destruct (eqb x c); simplify_eq; by left|].
  destruct (r_command_files s !! h) as [b|].
  2:{ apply pair_eq in Hr as [<- <-]. by right. }
  left. destruct (fetch_command_cache_unlocked h s) as [[[x|]|e] s1] eqn:Hf;
    apply read_only_fetch_cache in Hf as ->; [destruct (eqb x c)|..]; by simplify_eq.
Qed.

Lemma store_command_durable h c s r s' :
  durable s → store_command_unlocked h c s = (r, s') → durable s'.
Proof.
  intros Hd Hr. pose proof (store_command_quiet _ _ _ _ _ Hr) as Hq.
  pose proof (quiet_inv _ _ Hq (d_inv s Hd)) as Hi.
  apply store_command_shape in Hr as [->|(Hw & Hf & _ & ->)]; [done|].
  set (files := <[h := encode_stored_command c]> (r_command_files s)) in *.
  assert (r_command_files s ⊆ files) as Hsub by (by apply insert_subseteq).
  destruct Hd as [_ Hid Hl Hg Hc Hh Ha Hfs Hss (c0 & h0 & Hcp & Hlog)].
  split; try done.
  - intros h' c' b Hw' Hf'. cbn in Hf'. unfold files in Hf'. rewrite lookup_insert_ne in Hf'; [by eapply Ha|].
    intros <-. cbn in Hw'. congruence.
  - by eapply slots_backed_mono.
  - eapply slots_backed_mono; [|exact Hss]. by apply union_mono_r.
  - exists c0, h0. split; [by destruct Hcp|]. destruct Hlog as (stale & l & ? & ? & ? & ? & Hlog).
    exists stale, l. split_and!; try done. by eapply logged_mono.
Qed.

(** ** The checkpoint *)

(** Files that were written together. *)
Lemma checkpointed_fresh s h :
  encode_configuration_state (r_configuration s) = Ok (r_configuration_file s) →
  encode_recorded_head (r_cluster_id s) (r_epoch s) (r_configuration s) h [] (wal_checkpoint (r_wal s))
    = Ok (r_head_file s) →
  configuration_typed (r_configuration s) → head_typed h = true →
  rc_max_slot (r_configuration s) = head_max h → head_evidence (r_slot_files s) (r_configuration s) h →
  checkpointed s (r_configuration s) h.
Proof.
  intros Hc Hh Htc Hth Hm He. split; try done.
  - exists (r_configuration s). by rewrite set_max_same.
  - unfold configuration_structure_changed. by rewrite !neqb_refl.
Qed.

(** The recorder after a checkpoint; [file] is what the log's file still holds. *)
Definition checkpointed_state (s : RecorderFileStore) (generation : N) (cb hb file : bytes) :
    RecorderFileStore :=
  mkRecorder (r_recorder_id s) (r_cluster_id s) (r_epoch s) (r_configuration s) (r_recorded_head s)
    (mkWal (mkWalCheckpoint generation (wal_next_sequence (r_wal s) - 1)) (wal_next_sequence (r_wal s))
       LogHash_ZERO 0 (blen file) ∅ ∅ file false)
    (slots_of s) (commands_of s) cb hb.

Lemma checkpoint_cases s r s' :
  durable s → checkpoint_wal_unlocked s = (r, s') →
  (wal_frame_count (r_wal s) = 0%N ∧ r = Ok () ∧ s' = s)
  ∨ (∃ m, r = Err (Io m) ∧ s' = s)
  ∨ (wal_frame_count (r_wal s) ≠ 0%N ∧ r = Ok () ∧ ∃ generation cb hb,
       checked_add (wc_generation (wal_checkpoint (r_wal s))) 1 = Some generation
       ∧ encode_configuration_state (r_configuration s) = Ok cb
       ∧ encode_recorded_head (r_cluster_id s) (r_epoch s) (r_configuration s) (r_recorded_head s) []
           (mkWalCheckpoint generation (wal_next_sequence (r_wal s) - 1)) = Ok hb
       ∧ s' = checkpointed_state s generation cb hb []).
Proof.
  intros Hd Hr. destruct (d_checkpoint s Hd) as (c0 & h0 & Hcp & _).
  unfold checkpoint_wal_unlocked, store, lift, update, mret, call_ret, mbind, call_bind in Hr.
  rewrite (d_live s Hd) in Hr. cbn [reject_if] in Hr.
  destruct (N.eqb_spec (wal_frame_count (r_wal s)) 0) as [H0|H0].
  { left. apply pair_eq in Hr as [<- <-]. done. }
  destruct (checked_add _ _) as [g|] eqn:Hg; cbn [ok_or] in Hr.
  2:{ right; left. apply pair_eq in Hr as [<- <-]. by eexists. }
  right; right. split; [done|].
  destruct (cp_configuration _ _ _ Hcp) as (f & Hf & _ & Hcf & _).
  pose proof (structure_same _ _ (cp_structure _ _ _ Hcp)) as (_ & _ & Em & _). rewrite Hcf in Em.
  destruct (configuration_encodes f (r_configuration s) _ Em Hf) as (cb & Hcb).
  destruct (head_encodes _ _ _ _ _ _ (r_configuration s) (r_recorded_head s)
    (mkWalCheckpoint g (wal_next_sequence (r_wal s) - 1)) (cp_head _ _ _ Hcp)) as (hb & Hhb).
  cbn [r_configuration r_recorded_head r_cluster_id r_epoch set_command_files set_slot_files set_head_files] in Hr.
  rewrite Hcb in Hr. cbn beta iota in Hr. rewrite Hhb in Hr. apply pair_eq in Hr as [<- <-].
  split; [done|]. exists g, cb, hb. split_and!; try done.
Qed.

Lemma checkpointed_state_contents s generation cb hb file :
  slots_of (checkpointed_state s generation cb hb file) = slots_of s
  ∧ commands_of (checkpointed_state s generation cb hb file) = commands_of s.
Proof.
  unfold slots_of at 1, commands_of at 1. cbn. by rewrite fmap_empty, !(left_id_L ∅ (∪)).
Qed.

Lemma checkpointed_state_quiet s generation cb hb file :
  quiet s (checkpointed_state s generation cb hb file).
Proof.
  destruct (checkpointed_state_contents s generation cb hb file) as [Es Ec].
  split; [|done|done|done]. by apply carries_contents.
Qed.

Lemma checkpointed_state_durable s generation cb hb file :
  durable s →
  checked_add (wc_generation (wal_checkpoint (r_wal s))) 1 = Some generation →
  encode_configuration_state (r_configuration s) = Ok cb →
  encode_recorded_head (r_cluster_id s) (r_epoch s) (r_configuration s) (r_recorded_head s) []
    (mkWalCheckpoint generation (wal_next_sequence (r_wal s) - 1)) = Ok hb →
  stale_frames generation file → durable (checkpointed_state s generation cb hb file).
Proof.
  intros Hd [-> Hg]%checked_add_Some Hcb Hhb Hst.
  pose proof (quiet_inv _ _ (checkpointed_state_quiet s (wc_generation (wal_checkpoint (r_wal s)) + 1) cb hb file)
    (d_inv s Hd)) as Hi.
  destruct (checkpointed_state_contents s (wc_generation (wal_checkpoint (r_wal s)) + 1) cb hb file) as [Es Ec].
  destruct Hd as [_ Hid _ _ Hc (Hht & Hhm & Hhe) _ _ Hss (c0 & h0 & Hcp & Hlog)].
  destruct Hlog as (stale & l & _ & _ & _ & Hsq & Hlog).
  apply logged_counts in Hlog as [(Hn & _ & Hle) _]. cbn in Hn, Hle.
  split; rewrite ?Es, ?Ec; try done.
  - cbn. split; [by apply N.leb_le|lia].
  - exists (r_configuration s), (r_recorded_head s). split.
    + by apply (checkpointed_fresh (checkpointed_state s (wc_generation (wal_checkpoint (r_wal s)) + 1) cb hb file)).
    + exists file, []. cbn. rewrite app_nil_r. split_and!; try done; [lia|].
      unfold replay_of. cbn. replace (wal_next_sequence (r_wal s) - 1 + 1)%N with (wal_next_sequence (r_wal s)) by lia.
      constructor.
Qed.

Lemma checkpoint_durable s r s' :
  durable s → checkpoint_wal_unlocked s = (r, s') →
  durable s' ∧ (r = Ok () → wal_frame_count (r_wal s') = 0%N).
Proof.
  intros Hd [(H0 & -> & ->)|[(m & -> & ->)|(_ & -> & g & cb & hb & Hg & Hcb & Hhb & ->)]]%checkpoint_cases;
    [done|done| |done].
  split; [|done]. apply checkpointed_state_durable; [done..|constructor].
Qed.

(** ** Writing a slot *)

Definition commands_with (s : RecorderFileStore) (command : option (LogHash * StoredCommand)) :
    gmap LogHash bytes :=
  match command with
  | Some (h, x) => <[h := encode_stored_command x]> (commands_of s)
  | None => commands_of s
  end.

Lemma commands_with_mono s command :
  (∀ h x, command = Some (h, x) → ∀ b, commands_of s !! h = Some b → b = encode_stored_command x) →
  commands_of s ⊆ commands_with s command.
Proof.
  intros Hc. unfold commands_with. destruct command as [[h x]|]; [|reflexivity].
  destruct (commands_of s !! h) as [f|] eqn:Hf; [|by apply insert_subseteq].
  rewrite insert_id; [reflexivity|]. rewrite Hf. f_equal. by eapply Hc.
Qed.

(** A slot state that may be written, with the configuration that follows from it
    and the command that comes with it.  A command whose hash is known is the
    known command. *)
Record slot_write (s : RecorderFileStore) (st : RecorderSlotState) (c : RecorderConfiguration)
    (command : option (LogHash * StoredCommand)) (change : option ConfigChange) (v : AcceptedValue) :
    Prop := {
  sw_readable : readable st;
  sw_identity : ss_cluster_id st = r_cluster_id s ∧ ss_epoch st = r_epoch s
    ∧ ss_config_id st = rc_config_id (r_configuration s)
    ∧ ss_config_digest st = rc_config_digest (r_configuration s);
  sw_valued : slot_valued st;
  sw_gate : gate_open (r_configuration s) (ss_slot st) change;
  sw_transition : transition_after_apply (r_configuration s) st change (Some v) = Ok c;
  sw_command : ∀ h x, command = Some (h, x) →
    command_hash x = h ∧ ∀ b, commands_of s !! h = Some b → b = encode_stored_command x;
  sw_values : ∀ w, w ∈ recorder_state_values st →
    value_backed (commands_with s command) (ss_cluster_id st) (ss_slot st) (ss_epoch st) (ss_config_id st) w
}.

Lemma transition_typed c st change v c' :
  configuration_typed c → is_u64 (ss_slot st) = true → transition_after_apply c st change v = Ok c' →
  configuration_typed c'.
Proof.
  intros [Ht Hm] Hs Htr. pose proof (transition_keeps _ _ _ _ _ Htr) as (Ei & Ed & Em & Ep & Ex & _).
  unfold configuration_typed, membership_typed in *. rewrite Ei, Ed, Em, Ep. split; [|done].
  bool_prop. destruct Ht as [[[? Hx] ?] Hse]. split_and!; try done.
  - rewrite Ex. destruct v; [|done]. cbn. destruct (rc_max_slot c) as [m|]; cbn in *; [|done].
    destruct (N.max_spec m (ss_slot st)) as [[_ ->]|[_ ->]]; done.
  - destruct (rc_seal c') as [seal|] eqn:Hsl; [|done].
    apply (transition_seal _ _ _ _ _ _ Htr) in Hsl as [Hsl|[Hsl _]]; [by rewrite Hsl in Hse|].
    cbn. unfold seal_typed. by rewrite Hsl.
Qed.

(** The head after the write stands for the greatest slot. *)
Lemma expected_head_max c st change v c' head :
  slot_valued st → transition_after_apply c st change (Some v) = Ok c' → rc_max_slot c = head_max head →
  rc_max_slot c' = head_max (expected_head c' st head).
Proof.
  intros Hv Ht Hm. pose proof (transition_keeps _ _ _ _ _ Ht) as (_ & _ & _ & _ & Ex & _).
  unfold expected_head. destruct (Nat.eqb_spec (length (recorder_state_values st)) 0) as [H0|_].
  { apply length_zero_iff_nil in H0. by apply valued_values in Hv. }
  rewrite andb_true_r. destruct (eqb _ _) eqn:He; [by rewrite eqb_true in He|].
  rewrite eqb_false, Ex in He. rewrite Ex, <-Hm. destruct (rc_max_slot c) as [m|]; [|done].
  f_equal. destruct (N.max_spec m (ss_slot st)) as [[_ E]|[_ E]]; [by rewrite E in He|done].
Qed.

Lemma expected_head_evidence c st change v c' head slots b :
  transition_after_apply c st change (Some v) = Ok c' → ss_config_id st = rc_config_id c →
  decode_recorder_state b = Ok st → head_evidence slots c head →
  head_evidence (<[ss_slot st := b]> slots) c' (expected_head c' st head).
Proof.
  intros Ht Hid Hb He. pose proof (transition_keeps _ _ _ _ _ Ht) as (Ei & _ & _ & Ep & _ & Ea).
  assert (head_evidence (<[ss_slot st := b]> slots) c' head) as Hh.
  { destruct head as [|k|stop prefix tip hash]; [done| |].
    - destruct He as (b0 & st0 & Hk & Hd & Hc). destruct (decide (k = ss_slot st)) as [->|Hne].
      + exists b, st. rewrite lookup_insert_eq. by rewrite Ei.
      + exists b0, st0. rewrite lookup_insert_ne by done. by rewrite Ei.
    - destruct He as (p & Hp & ? & ? & ? & ?). exists p. rewrite Ep. auto 10. }
  unfold expected_head. destruct (_ && _); [|done]. exists b, st. rewrite lookup_insert_eq. by rewrite Ei.
Qed.

Lemma write_typed s st c command change v :
  durable s → slot_write s st c command change v →
  configuration_typed c ∧ head_typed (expected_head c st (r_recorded_head s)) = true.
Proof.
  intros Hd [[Hst%slot_typed_slot _] _ _ _ Ht _ _]. split.
  - eapply transition_typed; [by apply d_configuration|done|done].
  - unfold expected_head. destruct (_ && _); [done|]. apply (d_head s Hd).
Qed.

(** The stored slots after the write. *)
Lemma write_backed s st c command change v b slots commands :
  durable s → slot_write s st c command change v →
  decode_recorder_state b = Ok st →
  slots_backed (r_cluster_id s) (r_epoch s) commands (r_configuration s) slots →
  (∀ w, w ∈ recorder_state_values st →
     value_backed commands (ss_cluster_id st) (ss_slot st) (ss_epoch st) (ss_config_id st) w) →
  slots_backed (r_cluster_id s) (r_epoch s) commands c (<[ss_slot st := b]> slots).
Proof.
  intros Hd [_ (Hcl & Hep & Hid & Hdg) Hv _ Ht _ _] Hb Hs Hval.
  pose proof (transition_keeps _ _ _ _ _ Ht) as (Ei & Ed & _).
  intros k b' [[<- <-]|[Hne Hk]]%lookup_insert_Some.
  - exists st. split_and!; try done; [by rewrite Ei, Hid|].
    intros _. split; [by rewrite Ed|done|]. by rewrite Ei, <-Hid.
  - destruct (Hs k b' Hk) as (st' & ? & ? & ? & ? & ? & Hst). exists st'. rewrite Ei. split_and!; try done.
    intros Hc. destruct (Hst Hc) as [? ? ?]. split; [by rewrite Ed|done|by rewrite Ei].
Qed.

Lemma slot_write_same s s1 st c command change v :
  r_cluster_id s1 = r_cluster_id s → r_epoch s1 = r_epoch s → r_configuration s1 = r_configuration s →
  commands_of s1 = commands_of s → slot_write s st c command change v → slot_write s1 st c command change v.
Proof.
  intros E1 E2 E3 E4 []. split; rewrite ?E1, ?E2, ?E3; try done.
  - by rewrite E4.
  - intros w Hw. unfold commands_with. rewrite E4. by apply sw_values0.
Qed.

Lemma commands_of_wal s h c :
  wal_commands (r_wal s) !! h = Some c → commands_of s !! h = Some (encode_stored_command c).
Proof. intros Hw. unfold commands_of. apply lookup_union_Some_l. by rewrite lookup_fmap, Hw. Qed.
Lemma commands_of_file s h :
  wal_commands (r_wal s) !! h = None → commands_of s !! h = r_command_files s !! h.
Proof. intros Hw. unfold commands_of. apply lookup_union_r. by rewrite lookup_fmap, Hw. Qed.

Lemma commands_of_add s command :
  (∀ h x, command = Some (h, x) → ∀ b, commands_of s !! h = Some b → b = encode_stored_command x) →
  (encode_stored_command <$> add_command (wal_commands (r_wal s)) command) ∪ r_command_files s
  = commands_with s command.
Proof.
  intros Hc. destruct command as [[h x]|]; [|done]. specialize (Hc h x eq_refl). cbn.
  destruct (wal_commands (r_wal s) !! h) as [y|] eqn:Hy.
  - symmetry. apply insert_id. fold (commands_of s).
    pose proof (commands_of_wal _ _ _ Hy) as Hk. rewrite Hk. f_equal. by apply Hc.
  - by rewrite fmap_insert, <-insert_union_l.
Qed.

Lemma slots_backed_configuration cluster epoch commands c c' slots :
  rc_config_id c' = rc_config_id c → rc_config_digest c' = rc_config_digest c →
  slots_backed cluster epoch commands c slots → slots_backed cluster epoch commands c' slots.
Proof.
  intros Ei Ed Hs k b Hk. destruct (Hs k b Hk) as (st & ? & ? & ? & ? & ? & Hst). exists st. rewrite Ei.
  split_and!; try done. intros Hc. destruct (Hst Hc) as [? ? ?]. split; [by rewrite Ed|done|by rewrite Ei].
Qed.

Lemma structure_trans c1 c2 c3 :
  configuration_structure_changed c1 c2 = false → configuration_structure_changed c2 c3 = false →
  configuration_structure_changed c1 c3 = false.
Proof.
  intros (E1 & E2 & E3 & E4 & E5 & E6)%structure_same. unfold configuration_structure_changed.
  by rewrite E1, E2, E3, E4, E5, E6.
Qed.

(** The recorder after a frame was appended. *)
Definition appended_state (s : RecorderFileStore) (st : RecorderSlotState) (c : RecorderConfiguration)
    (command : option (LogHash * StoredCommand)) (frame : bytes) (d : LogHash) (b : bytes) :
    RecorderFileStore :=
  let w := r_wal s in
  set_memory c (expected_head c st (r_recorded_head s))
    (set_wal (mkWal (wal_checkpoint w) (wal_next_sequence w + 1) d (wal_frame_count w + 1)
       (wal_byte_count w + blen frame) (<[ss_slot st := b]> (wal_slots w))
       (add_command (wal_commands w) command) (wal_file w ++ frame) (wal_failed w)) s).

Lemma appended_entry s st c command change v frame d b :
  durable s → slot_write s st c command change v →
  configuration_structure_changed (r_configuration s) c = false →
  encode_wal_frame (wc_generation (wal_checkpoint (r_wal s))) (wal_next_sequence (r_wal s))
    (wal_last_digest (r_wal s)) st c (expected_head c st (r_recorded_head s)) command = Ok (frame, d, b) →
  (wal_next_sequence (r_wal s) + 1 ≤ u64_max)%N →
  entry_ok (r_command_files s) (r_cluster_id s) (r_epoch s) (replay_of s)
    (mkEntry st c (expected_head c st (r_recorded_head s)) command).
Proof.
  intros Hd Hw Hstr He Hsq. pose proof (write_typed _ _ _ _ _ _ Hd Hw) as [Htc Hth].
  apply encode_wal_frame_Ok in He as (cb & sbl & cbl & cmd & _ & _ & _ & _ & Hcmd & _).
  destruct Hw as [Hr (Hcl & Hep & Hid & Hdg) Hval _ Ht Hc Hvs].
  pose proof (transition_keeps _ _ _ _ _ Ht) as (Ei & Ed & _).
  split; cbn [e_state e_configuration e_head e_command]; try done.
  - by rewrite Ei, Ed.
  - intros h x Hx. destruct (Hc h x Hx) as [Hh Hk]. split; [done|]. intros x' Hx'. cbn in Hx'.
    apply encode_stored_command_inj; [|apply Hk].
    + rewrite (Hk _ (commands_of_wal _ _ _ Hx')). by eapply frame_command_length.
    + by apply commands_of_wal.
  - intros w Hwv. cbn [rp_commands replay_of]. rewrite commands_of_add by (intros h x Hx; apply (Hc h x Hx)).
    rewrite Ei, <-Hid, <-Hcl, <-Hep. by apply Hvs.
Qed.

Lemma appended_durable s st c command change v frame d b :
  durable s → slot_write s st c command change v →
  configuration_structure_changed (r_configuration s) c = false →
  encode_wal_frame (wc_generation (wal_checkpoint (r_wal s))) (wal_next_sequence (r_wal s))
    (wal_last_digest (r_wal s)) st c (expected_head c st (r_recorded_head s)) command = Ok (frame, d, b) →
  (wal_next_sequence (r_wal s) + 1 ≤ u64_max)%N →
  recorder_inv (appended_state s st c command frame d b) → durable (appended_state s st c command frame d b).
Proof.
  intros Hd Hw Hstr He Hsq Hi.
  pose proof (appended_entry _ _ _ _ _ _ _ _ _ Hd Hw Hstr He Hsq) as Hentry.
  pose proof (write_typed _ _ _ _ _ _ Hd Hw) as [Htc Hth].
  assert (decode_recorder_state b = Ok st) as Hb.
  { apply encode_wal_frame_Ok in He as (cb & sbl & cbl & cmd & Hb & _ & Hsbl & _).
    destruct (sw_readable _ _ _ _ _ _ Hw). eapply recorder_state_reads; try done. by eapply put_blob_length. }
  pose proof (transition_keeps _ _ _ _ _ (sw_transition _ _ _ _ _ _ Hw)) as (Ei & Ed & _).
  assert (slots_of (appended_state s st c command frame d b) = <[ss_slot st := b]> (slots_of s)) as Es.
  { unfold slots_of, appended_state; cbn. by rewrite insert_union_l. }
  assert (commands_of (appended_state s st c command frame d b) = commands_with s command) as Ec.
  { unfold commands_of, appended_state; cbn. apply commands_of_add. apply (sw_command _ _ _ _ _ _ Hw). }
  pose proof Hd as [_ Hid Hlive Hg _ (_ & Hhm & Hhe) Ha Hfs Hss (c0 & h0 & Hcp & Hlog)].
  split; rewrite ?Es, ?Ec; try done.
  - split; [done|]. split.
    + eapply expected_head_max; [apply Hw|apply Hw|done].
    + eapply expected_head_evidence; [apply Hw|apply (sw_identity _ _ _ _ _ _ Hw)|done|done].
  - cbn. intros h x f. destruct command as [[h' x']|]; [|apply Ha]. cbn.
    destruct (wal_commands (r_wal s) !! h') as [y|] eqn:Hy; [apply Ha|].
    intros [[<- <-]|[_ ?]]%lookup_insert_Some; [|by apply Ha]. intros Hf.
    apply (proj2 (sw_command _ _ _ _ _ _ Hw h' x' eq_refl)). by rewrite commands_of_file.
  - by eapply slots_backed_configuration.
  - apply (write_backed s st c command change v); [done|done|done| |apply Hw]. eapply slots_backed_mono; [|exact Hss].
    apply commands_with_mono. apply (sw_command _ _ _ _ _ _ Hw).
  - exists c0, h0. split.
    + destruct Hcp. split; try done. by eapply structure_trans.
    + destruct Hlog as (stale & l & Hfile & Hbytes & Hst & Hthr & Hlog). exists stale, (l ++ frame).
      cbn. split; [by rewrite Hfile, <-app_assoc|]. split; [by rewrite Hbytes, blen_app|].
      split_and!; [done|done|].
      exact (logged_snoc _ _ _ _ _ l (replay_of s) _ frame d b Hlog Hentry He).
Qed.

(** The log is checkpointed before the append. *)
Definition log_full (s : RecorderFileStore) : bool :=
  (RECORDER_WAL_HARD_FRAME_LIMIT <=? wal_frame_count (r_wal s))%N
  || (RECORDER_WAL_SOFT_BYTE_LIMIT <=? wal_byte_count (r_wal s))%N.

Lemma append_shape st c head command s r s' :
  append_wal_unlocked st c head command s = (r, s') →
  (∃ m, r = Err (Io m))
  ∨ (∃ e, r = Err e ∧ (s' = s ∨ ∃ r1, checkpoint_wal_unlocked s = (r1, s')))
  ∨ (r = Ok () ∧ ∃ s1 frame d b,
     (if log_full s then checkpoint_wal_unlocked s = (Ok (), s1) else s1 = s)
     ∧ encode_wal_frame (wc_generation (wal_checkpoint (r_wal s1))) (wal_next_sequence (r_wal s1))
         (wal_last_digest (r_wal s1)) st c head command = Ok (frame, d, b)
     ∧ (wal_next_sequence (r_wal s1) + 1 ≤ u64_max)%N
     ∧ let w := r_wal s1 in
       s' = set_wal (mkWal (wal_checkpoint w) (wal_next_sequence w + 1) d (wal_frame_count w + 1)
         (wal_byte_count w + blen frame) (<[ss_slot st := b]> (wal_slots w))
         (add_command (wal_commands w) command) (wal_file w ++ frame) (wal_failed w)) s1).
Proof.
  unfold append_wal_unlocked. rewrite store_bind. intros Hk.
  apply call_bind_cases in Hk as [(e & -> & Hr)|(u & s0 & Hr & Hk)].
  { apply read_only_lift in Hr as ->. right; left. eauto. }
  apply read_only_lift in Hr as ->.
  apply call_bind_cases in Hk as [(e & -> & Hr)|([] & s1 & Hr & Hk)].
  { right; left. exists e. split; [done|]. destruct (_ || _); [eauto|].
    apply read_only_mret in Hr as ->. by left. }
  fold (log_full s) in Hr.
  assert (if log_full s then checkpoint_wal_unlocked s = (Ok (), s1) else s1 = s) as Hs1.
  { destruct (log_full s); [done|]. by apply read_only_mret in Hr as ->. }
  clear Hr. rewrite store_bind in Hk. cbn zeta in Hk.
  apply call_bind_cases in Hk as [(e & -> & Hr)|([[frame d] b] & s2 & Hr & Hk)].
  { apply read_only_lift in Hr as ->. right; left. destruct (log_full s); subst; eauto. }
  unfold lift in Hr. apply pair_eq in Hr as [He <-].
  unfold update, lift, mbind, call_bind in Hk. cbn beta iota in Hk.
  destruct (checked_add (wal_next_sequence _) 1) as [next|] eqn:Hn; cbn [ok_or] in Hk;
    [|left; apply pair_eq in Hk as [<- _]; eauto].
  destruct (checked_add (wal_byte_count _) _) as [size|] eqn:Hsz; cbn [ok_or] in Hk;
    [|left; apply pair_eq in Hk as [<- _]; eauto].
  apply checked_add_Some in Hn as [-> Hn]. apply checked_add_Some in Hsz as [-> _].
  right; right. apply pair_eq in Hk as [<- <-]. split; [done|]. exists s1, frame, d, b. done.
Qed.

(** The write to a log that still holds frames of the same structure. *)
Lemma append_durable st c command change v s r s' :
  durable s → slot_write s st c command change v →
  configuration_structure_changed (r_configuration s) c = false →
  append_wal_unlocked st c (expected_head c st (r_recorded_head s)) command s = (r, s') →
  (∀ m, r ≠ Err (Io m)) →
  (r = Ok () → recorder_inv (set_memory c (expected_head c st (r_recorded_head s)) s') →
     durable (set_memory c (expected_head c st (r_recorded_head s)) s'))
  ∧ (∀ e, r = Err e → durable s').
Proof.
  intros Hd Hw Hstr Ha Hio. apply append_shape in Ha as [(m & ->)|[(e & -> & Hs')|Ha]]; [by destruct (Hio m)| |].
  { split; [done|]. intros _ _. destruct Hs' as [->|(r1 & Hc)]; [done|]. by eapply checkpoint_durable. }
  destruct Ha as (-> & s1 & frame & d & b & Hs1 & He & Hsq & ->). split; [|done]. intros _ Hi.
  assert (durable s1 ∧ r_recorded_head s1 = r_recorded_head s ∧ r_configuration s1 = r_configuration s
    ∧ slot_write s1 st c command change v) as (Hd1 & Eh & Ecf & Hw1).
  { destruct (log_full s); [|by subst s1]. rename Hs1 into Hc. split; [by eapply checkpoint_durable|].
    apply checkpoint_cases in Hc as [(_ & _ & ->)|[(? & ? & _)|(_ & _ & g & cb & hb & _ & _ & _ & ->)]]; [done|done| |done].
    split; [done|]. split; [done|]. eapply slot_write_same; [..|exact Hw]; try done.
    apply checkpointed_state_contents. }
  rewrite <-Eh in *. rewrite <-Ecf in Hstr. by eapply appended_durable.
Qed.

(** ** Commits over an empty log *)

Lemma empty_log s :
  durable s → wal_frame_count (r_wal s) = 0%N →
  wal_slots (r_wal s) = ∅ ∧ wal_commands (r_wal s) = ∅
  ∧ stale_frames (wc_generation (wal_checkpoint (r_wal s))) (wal_file (r_wal s))
  ∧ wal_byte_count (r_wal s) = blen (wal_file (r_wal s))
  ∧ (wc_through_sequence (wal_checkpoint (r_wal s)) + 1 ≤ u64_max)%N
  ∧ wal_next_sequence (r_wal s) = (wc_through_sequence (wal_checkpoint (r_wal s)) + 1)%N
  ∧ wal_last_digest (r_wal s) = LogHash_ZERO.
Proof.
  intros Hd H0. destruct (i_wal s (d_inv s Hd) H0) as [Hs Hc].
  destruct (d_checkpoint s Hd) as (c0 & h0 & _ & (stale & l & Hf & Hb & Hst & Hsq & Hlog)).
  apply logged_counts in Hlog as [_ Hlog]. cbn in Hlog. destruct (Hlog H0) as [-> Hr].
  rewrite app_nil_r in Hf. unfold replay_of in Hr. injection Hr as Hn Hl _ _ _ _ _.
  rewrite <-Hf in Hst. by split_and!.
Qed.

(** The configuration, the head and possibly a slot were replaced. *)
Definition committed_state (s : RecorderFileStore) (c : RecorderConfiguration)
    (head : RecordedHeadProvenance) (slots : gmap N bytes) (cb hb : bytes) : RecorderFileStore :=
  mkRecorder (r_recorder_id s) (r_cluster_id s) (r_epoch s) c head (r_wal s) slots (r_command_files s) cb hb.

Lemma committed_durable s c head slots cb hb :
  durable s → wal_frame_count (r_wal s) = 0%N →
  encode_configuration_state c = Ok cb →
  encode_recorded_head (r_cluster_id s) (r_epoch s) c head [] (wal_checkpoint (r_wal s)) = Ok hb →
  configuration_typed c → head_typed head = true → rc_max_slot c = head_max head →
  head_evidence slots c head →
  slots_backed (r_cluster_id s) (r_epoch s) (r_command_files s) c slots →
  recorder_inv (committed_state s c head slots cb hb) → durable (committed_state s c head slots cb hb).
Proof.
  intros Hd H0 Hcb Hhb Htc Hth Hmx Hev Hsb Hi.
  pose proof (empty_log s Hd H0) as (Hs & Hc & Hst & Hb & Hsq & Hn & Hl).
  assert (slots_of (committed_state s c head slots cb hb) = slots) as Es.
  { unfold slots_of; cbn. by rewrite Hs, (left_id_L ∅ (∪)). }
  assert (commands_of (committed_state s c head slots cb hb) = r_command_files s) as Ec.
  { unfold commands_of; cbn. by rewrite Hc, fmap_empty, (left_id_L ∅ (∪)). }
  split; rewrite ?Es, ?Ec; try done; try apply Hd.
  exists c, head. split.
  - by apply (checkpointed_fresh (committed_state s c head slots cb hb)).
  - exists (wal_file (r_wal s)), []. cbn. rewrite app_nil_r. split_and!; try done.
    unfold replay_of. cbn. rewrite Hn, Hl, H0, Hs, Hc. constructor.
Qed.

Lemma commit_transition_shape st c s r s' :
  commit_transition_unlocked st c s = (r, s') →
  (∃ e, r = Err e ∧ s' = s)
  ∨ (r = Ok () ∧ ∃ b cb hb ib, encode_recorder_state st = Ok b ∧ (blen b ≤ u64_max)%N
     ∧ encode_transition_intent (ss_slot st) b cb = Ok ib
     ∧ encode_configuration_state c = Ok cb
     ∧ encode_recorded_head (r_cluster_id s) (r_epoch s) c (expected_head c st (r_recorded_head s)) []
         (wal_checkpoint (r_wal s)) = Ok hb
     ∧ s' = committed_state s c (expected_head c st (r_recorded_head s))
              (<[ss_slot st := b]> (r_slot_files s)) cb hb).
Proof.
  unfold commit_transition_unlocked. rewrite store_bind. intros Hr.
  apply call_bind_cases in Hr as [(e & -> & Hr)|(b & s1 & Hb & Hr)].
  { apply read_only_lift in Hr as ->. left. by eexists. }
  unfold lift in Hb. apply pair_eq in Hb as [Hb <-].
  apply call_bind_cases in Hr as [(e & -> & Hr)|(cb & s1 & Hcb & Hr)].
  { apply read_only_lift in Hr as ->. left. by eexists. }
  unfold lift in Hcb. apply pair_eq in Hcb as [Hcb <-]. cbn zeta in Hr.
  apply call_bind_cases in Hr as [(e & -> & Hr)|(hb & s1 & Hhb & Hr)].
  { apply read_only_lift in Hr as ->. left. by eexists. }
  unfold lift in Hhb. apply pair_eq in Hhb as [Hhb <-].
  apply call_bind_cases in Hr as [(e & -> & Hr)|(ib & s1 & Hib & Hr)].
  { apply read_only_lift in Hr as ->. left. by eexists. }
  unfold lift in Hib. apply pair_eq in Hib as [Hib <-].
  right. unfold update, mbind, call_bind in Hr. apply pair_eq in Hr as [<- <-].
  split; [done|]. exists b, cb, hb, ib. pose proof (intent_slot_length _ _ _ _ Hib). done.
Qed.

Lemma commit_head_shape c head s r s' :
  commit_configuration_head_unlocked c head s = (r, s') →
  (∃ e, r = Err e ∧ s' = s)
  ∨ (r = Ok () ∧ ∃ cb hb, encode_configuration_state c = Ok cb
     ∧ encode_recorded_head (r_cluster_id s) (r_epoch s) c head [] (wal_checkpoint (r_wal s)) = Ok hb
     ∧ s' = committed_state s c head (r_slot_files s) cb hb).
Proof.
  unfold commit_configuration_head_unlocked. rewrite store_bind. intros Hr.
  apply call_bind_cases in Hr as [(e & -> & Hr)|(cb & s1 & Hcb & Hr)].
  { apply read_only_lift in Hr as ->. left. by eexists. }
  unfold lift in Hcb. apply pair_eq in Hcb as [Hcb <-].
  apply call_bind_cases in Hr as [(e & -> & Hr)|(hb & s1 & Hhb & Hr)].
  { apply read_only_lift in Hr as ->. left. by eexists. }
  unfold lift in Hhb. apply pair_eq in Hhb as [Hhb <-].
  right. unfold update, mbind, call_bind in Hr. apply pair_eq in Hr as [<- <-].
  split; [done|]. by exists cb, hb.
Qed.

Lemma commit_transition_durable st c change v s r s' :
  durable s → wal_frame_count (r_wal s) = 0%N → slot_write s st c None change v →
  commit_transition_unlocked st c s = (r, s') → (r = Ok () → recorder_inv s') → durable s'.
Proof.
  intros Hd H0 Hw Hr Hi. apply commit_transition_shape in Hr
    as [(e & -> & ->)|(-> & b & cb & hb & ib & Hb & Hlen & _ & Hcb & Hhb & ->)]; [done|].
  specialize (Hi eq_refl). pose proof (write_typed _ _ _ _ _ _ Hd Hw) as [Htc Hth].
  destruct (empty_log s Hd H0) as (Hs & Hc & _).
  assert (decode_recorder_state b = Ok st) as Hdec.
  { destruct (sw_readable _ _ _ _ _ _ Hw). by eapply recorder_state_reads. }
  assert (commands_of s = r_command_files s) as Ec.
  { unfold commands_of. by rewrite Hc, fmap_empty, (left_id_L ∅ (∪)). }
  assert (slots_of s = r_slot_files s) as Es.
  { unfold slots_of. by rewrite Hs, (left_id_L ∅ (∪)). }
  destruct (d_head s Hd) as (_ & Hmx & Hev). rewrite Es in Hev.
  apply committed_durable; try done.
  - eapply expected_head_max; [apply Hw|apply Hw|done].
  - eapply expected_head_evidence; [apply Hw|apply (sw_identity _ _ _ _ _ _ Hw)|done|done].
  - apply (write_backed s st c None change v); [done|done|done|by apply d_files|].
    intros w Hwv. rewrite <-Ec. by apply (sw_values _ _ _ _ _ _ Hw).
Qed.

(** *** Commands that are found *)

Lemma cache_backed s h c :
  commands_ok s → wal_commands (r_wal s) !! h = None →
  read_existing_command_cache (r_command_files s) h = Ok c →
  commands_of s !! h = Some (encode_stored_command c).
Proof.
  intros Hok Hw Hr. rewrite commands_of_file by done. unfold read_existing_command_cache in Hr.
  destruct (r_command_files s !! h) as [b|] eqn:Hb; [|done].
  apply bind_Ok_inv in Hr as (u & Hu%reject_if_Ok & Hr). apply bind_Ok_inv in Hr as (c' & Hd & Hr).
  apply bind_Ok_inv in Hr as (u' & _ & Hr). apply Ok_inj in Hr as ->.
  destruct (Hok h b) as (c' & -> & _); [by rewrite commands_of_file|]. apply N.ltb_ge in Hu.
  rewrite stored_command_reads in Hd; [by apply Ok_inj in Hd as ->|].
  etransitivity; [exact Hu|]. by apply N.leb_le.
Qed.

Lemma fetch_cache_inv s h c s' :
  fetch_command_cache_unlocked h s = (Ok (Some c), s') →
  read_existing_command_cache (r_command_files s) h = Ok c.
Proof.
  unfold fetch_command_cache_unlocked. rewrite store_bind. unfold lift. intros Hr.
  apply pair_eq in Hr as [Hr _]. destruct (read_existing_command_cache _ _) as [c'|e].
  - cbn in Hr. apply Ok_inj, (inj Some) in Hr as ->. done.
  - destruct e; done.
Qed.

Lemma fetch_backed s v c :
  commands_ok s → command_for_value_unlocked v s = (Ok c, s) →
  commands_of s !! av_command_hash v = Some (encode_stored_command c).
Proof.
  intros Hok Hr. unfold command_for_value_unlocked in Hr.
  apply call_bind_Ok in Hr as (o & s1 & Hf & Hr). unfold lift in Hr.
  apply pair_eq in Hr as [->%ok_or_Ok ->]. unfold fetch_command_unlocked in Hf. rewrite store_bind in Hf.
  destruct (wal_commands (r_wal s) !! av_command_hash v) as [x|] eqn:Hx.
  - unfold mret, call_ret in Hf. apply pair_eq in Hf as [Hf _]. apply Ok_inj, (inj Some) in Hf as ->.
    by apply commands_of_wal.
  - apply cache_backed; [done|done|]. by eapply fetch_cache_inv.
Qed.

Lemma store_command_holds h c s s' :
  commands_ok s → store_command_unlocked h c s = (Ok (), s') →
  commands_of s ⊆ commands_of s' ∧ commands_of s' !! h = Some (encode_stored_command c).
Proof.
  intros Hok Hr. pose proof (store_command_shape _ _ _ _ _ Hr) as [->|(Hw & Hf & _ & ->)].
  - split; [reflexivity|]. unfold store_command_unlocked in Hr.
    apply call_bind_Ok in Hr as (u & s1 & Hl & Hr). apply read_only_lift in Hl as ->.
    rewrite store_bind in Hr. destruct (wal_commands (r_wal s) !! h) as [x|] eqn:Hx.
    { destruct (eqb x c) eqn:He; [|done]. apply eqb_true in He as ->. by apply commands_of_wal. }
    unfold stage_command_unlocked in Hr. rewrite store_bind in Hr.
    destruct (r_command_files s !! h) as [b|] eqn:Hb.
    + apply call_bind_Ok in Hr as ([x|] & s1 & Hf & Hr); [|done].
      destruct (eqb x c) eqn:He; [|done]. apply eqb_true in He as ->.
      apply cache_backed; [done|done|]. by eapply fetch_cache_inv.
    + unfold update in Hr. apply pair_eq in Hr as [_ Hr].
      assert (r_command_files s !! h = Some (encode_stored_command c)); [|congruence].
      rewrite <-Hr at 1. cbn. by rewrite lookup_insert_eq.
  - assert (commands_of (set_command_files (<[h := encode_stored_command c]> (r_command_files s)) s)
      = <[h := encode_stored_command c]> (commands_of s)) as ->.
    { unfold commands_of. cbn. rewrite <-insert_union_r; [done|]. by rewrite lookup_fmap, Hw. }
    split; [|by rewrite lookup_insert_eq]. apply insert_subseteq. by rewrite commands_of_file.
Qed.

(** *** Writing a slot state, with either kind of configuration change *)

Lemma slot_write_stored s s1 s2 st c command change v :
  slot_write s st c command change v → same_identity s s2 → r_configuration s2 = r_configuration s →
  commands_of s1 = commands_of s → commands_ok s1 →
  match command with Some (h, x) => store_command_unlocked h x s1 = (Ok (), s2) | None => s2 = s1 end →
  slot_write s2 st c None change v.
Proof.
  intros Hw (_ & E1 & E2) E3 E4 Hok Hst.
  assert (commands_with s command ⊆ commands_of s2) as Hsub.
  { destruct command as [[h x]|]; cbn [commands_with]; [|subst; by rewrite E4].
    apply store_command_holds in Hst as [Hsub Hh]; [|done]. rewrite E4 in Hsub. by apply insert_subseteq_l. }
  destruct Hw. split; rewrite ?E1, ?E2, ?E3; try done.
  intros w Hwv. eapply value_backed_mono; [exact Hsub|]. by apply sw_values0.
Qed.

Lemma slot_write_filed s st c command change v : slot_write s st c command change v → command_filed command.
Proof. intros Hw. destruct command as [[h x]|]; [|done]. by apply (sw_command _ _ _ _ _ _ Hw). Qed.

Lemma persist_durable st c command change v s r s' :
  durable s → slot_write s st c command change v →
  persist_state_transition_with_command_unlocked st (r_configuration s) c command s = (r, s') →
  (∀ m, r ≠ Err (Io m)) → durable s'.
Proof.
  intros Hd Hw Hp Hio.
  assert (r = Ok () → recorder_inv s') as Hi.
  { intros ->. pose proof (persist_outcome _ _ _ _ _ _ _ (i_wal s (d_inv s Hd)) (slot_write_filed _ _ _ _ _ _ Hw) Hp)
      as [[_ Hcom]|[(? & ? & _)|(? & ?)]]; [|done|done].
    destruct Hw as [? (? & ? & ? & ?) ? ? ? ? ?]. eapply committed_inv; try done. by apply d_inv. }
  unfold persist_state_transition_with_command_unlocked in Hp.
  destruct (configuration_structure_changed (r_configuration s) c) eqn:Hstr.
  - apply call_bind_cases in Hp as [(e & -> & Hc)|([] & s1 & Hc & Hp)]; [by eapply checkpoint_durable|].
    pose proof (checkpoint_durable _ _ _ Hd Hc) as [Hd1 H0]. specialize (H0 eq_refl).
    assert (commands_of s1 = commands_of s ∧ same_identity s s1 ∧ r_configuration s1 = r_configuration s)
      as (Ec & Eid1 & Ecf1).
    { apply checkpoint_cases in Hc as [(_ & _ & ->)|[(? & ? & _)|(_ & _ & g & cb & hb & _ & _ & _ & ->)]]; [done|done| |done].
      split; [|done]. apply checkpointed_state_contents. }
    apply call_bind_cases in Hp as [(e & -> & Hst)|([] & s2 & Hst & Hp)].
    { destruct command as [[h x]|]; [by eapply store_command_durable|]. by apply read_only_mret in Hst as ->. }
    assert (durable s2 ∧ r_wal s2 = r_wal s1 ∧ same_identity s1 s2 ∧ r_configuration s2 = r_configuration s1
      ∧ match command with Some (h, x) => store_command_unlocked h x s1 = (Ok (), s2) | None => s2 = s1 end)
      as (Hd2 & Ew2 & Eid2 & Ecf2 & Hst').
    { destruct command as [[h x]|]; [|by apply read_only_mret in Hst as ->].
      split; [by eapply store_command_durable|]. split; [by eapply store_command_wal|].
      apply store_command_quiet in Hst as Hq. split; [apply Hq|]. split; [by apply Hq|done]. }
    rewrite <-Ew2 in H0. eapply commit_transition_durable; [done|done| |done|done].
    eapply slot_write_stored; [done| | |done| |exact Hst'].
    + destruct Eid1 as (? & ? & ?), Eid2 as (? & ? & ?). repeat split; congruence.
    + congruence.
    + by apply (i_commands s1 (d_inv s1 Hd1)).
  - rewrite store_bind in Hp. cbn zeta in Hp.
    apply call_bind_cases in Hp as [(e & -> & Ha)|([] & s1 & Ha & Hp)].
    + eapply append_durable in Ha as [_ Ha]; [|done..]. by eapply Ha.
    + unfold update in Hp. apply pair_eq in Hp as [<- <-].
      eapply append_durable in Ha as [Ha _]; [|done..]. apply Ha; [done|]. by apply Hi.
Qed.

(** ** The values of a slot *)

Lemma elem_of_values st v :
  v ∈ recorder_state_values st ↔
  as_value <$> ss_accepted st = Some v ∨ dc_value <$> ss_decided st = Some v
  ∨ isr_first_current (ss_isr st) ≫= p_value = Some v ∨ isr_aggregate_current (ss_isr st) ≫= p_value = Some v
  ∨ isr_aggregate_prior (ss_isr st) ≫= p_value = Some v
  ∨ ss_decided_proof st ≫= (p_value ∘ proof_proposal) = Some v.
Proof.
  unfold recorder_state_values. rewrite list_elem_of_omap. unfold id. split.
  - intros (o & Ho & ->). rewrite !elem_of_cons, elem_of_nil in Ho. naive_solver.
  - intros Hv. exists (Some v). rewrite !elem_of_cons. naive_solver.
Qed.

Lemma isr_next_values i step p v :
  isr_first_current (isr_next i step p) ≫= p_value = Some v
  ∨ isr_aggregate_current (isr_next i step p) ≫= p_value = Some v
  ∨ isr_aggregate_prior (isr_next i step p) ≫= p_value = Some v →
  isr_first_current i ≫= p_value = Some v ∨ isr_aggregate_current i ≫= p_value = Some v
  ∨ isr_aggregate_prior i ≫= p_value = Some v ∨ p_value p = Some v.
Proof.
  unfold isr_next. destruct (step =? isr_step i)%N; [|destruct (isr_step i <? step)%N; [|naive_solver]]; cbn.
  - destruct (isr_first_current i), (ltb _ _); cbn; naive_solver.
  - destruct (step =? _)%N; cbn; naive_solver.
Qed.

Lemma isr_next_valued i step p v :
  p_value p = Some v → is_Some (isr_first_current i ≫= p_value) ∨ i = isr_default →
  is_Some (isr_first_current (isr_next i step p) ≫= p_value).
Proof.
  intros Hp Hi. unfold isr_next.
  destruct (N.eqb_spec step (isr_step i)); [|destruct (N.ltb_spec (isr_step i) step)]; cbn.
  - destruct (isr_first_current i) eqn:E; cbn; [|by rewrite Hp]. destruct Hi as [?|Hi]; [done|by rewrite Hi in E].
  - by rewrite Hp.
  - destruct Hi as [?| ->]; [done|]. cbn in *. lia.
Qed.

Lemma record_values id st q next sm value :
  ss_decided_proof st = None → p_value (rq_proposal q) = Some value →
  slot_record_proposal id st q = Ok (next, sm) →
  (∀ v, v ∈ recorder_state_values next → v ∈ recorder_state_values st ∨ v = value)
  ∧ (slot_valued st ∨ ss_isr st = isr_default → slot_valued next).
Proof.
  intros Hd Hp Hr. unfold slot_record_proposal in Hr. rewrite Hd in Hr.
  apply bind_Ok_inv in Hr as ([st1 rep] & Hr & Hok). apply Ok_inj, pair_eq in Hok as [<- _].
  unfold slot_record in Hr. apply bind_Ok_inv in Hr as (u & _ & Hr). unfold isr_record in Hr.
  cbn iota in Hr. apply Ok_inj, pair_eq in Hr as [<- _]. split.
  - intros v. rewrite !elem_of_values. unfold set_legacy, set_isr. cbn -[isr_next]. rewrite Hd. cbn -[isr_next].
    intros [?|[?|Hv]]; [done|auto|].
    pose proof (isr_next_values (ss_isr st) (rq_step q) (rq_proposal q) v) as Hn. rewrite Hp in Hn. naive_solver.
  - intros Hv. left. unfold set_legacy, set_isr. cbn -[isr_next]. eapply isr_next_valued; [done|].
    unfold slot_valued in Hv. rewrite Hd in Hv. destruct Hv as [[?|[? ?]]|?]; [by left|done|by right].
Qed.

(** The state a slot has, with its values backed. *)
Lemma current_backed s k :
  durable s →
  let st := current_slot s k (rc_config_digest (r_configuration s)) in
  ss_config_id st = rc_config_id (r_configuration s) →
  (∀ v, v ∈ recorder_state_values st →
     value_backed (commands_of s) (ss_cluster_id st) (ss_slot st) (ss_epoch st) (ss_config_id st) v)
  ∧ (slot_valued st ∨ ss_isr st = isr_default) ∧ ss_config_digest st = rc_config_digest (r_configuration s).
Proof.
  intros Hd st Hid. unfold st, current_slot in *. destruct (slot_state s k) as [st'|] eqn:Hs;
    cbn [default from_option] in *; unfold id in *.
  - unfold slot_state in Hs. apply bind_Some in Hs as (b & Hb & Hdec).
    destruct (d_slots s Hd k b Hb) as (st1 & Hd1 & _ & _ & _ & _ & Hbk). rewrite Hd1 in Hdec.
    apply (inj Some) in Hdec as ->. destruct (Hbk Hid) as [? ? ?]. split_and!; [by rewrite Hid|by left|done].
  - split_and!; [|by right|done]. intros v Hv. apply elem_of_values in Hv. cbn in Hv. naive_solver.
Qed.

(** ** The operations *)

(** An inline command whose hash is known to the recorder is the known command. *)
Definition record_unambiguous (q : RecordRequest) (s : RecorderFileStore) : Prop :=
  ∀ c b, rq_command q = Some c → commands_of s !! command_hash c = Some b → b = encode_stored_command c.

Lemma record_slot_write q s value command change state next sm c :
  durable s → request_typed q = true → record_unambiguous q s →
  record_checks q s value command change state next sm → ss_decided_proof state = None →
  transition_after_apply (r_configuration s) next change (Some value) = Ok c →
  slot_write s next c ((λ command, (av_command_hash value, command)) <$> rq_command q) change value.
Proof.
  intros Hd Hq Hun Hk Hdec Ht. pose proof (d_inv s Hd) as Hi.
  pose proof (record_checks_inv _ _ _ _ _ _ _ _ Hi Hq Hk) as (Hst & Hrd & Hs & Hc & He & Hid & Hgo).
  destruct (rk_context _ _ _ _ _ _ _ _ Hk) as (_ & _ & _ & Hdg). rewrite (Hdg (i_digest s Hi)) in Hst.
  pose proof (rk_record _ _ _ _ _ _ _ _ Hk) as Hrec. pose proof (rk_load _ _ _ _ _ _ _ _ Hk) as Hload.
  apply load_current in Hload as (_ & Hrst & Es & Ecl & Eep & Eid & _);
    [|done|unfold request_typed in Hq; bool_prop; naive_solver].
  pose proof (slot_record_readable _ _ _ _ _ Hrst Hq Hrec) as (_ & E1 & E2 & E3 & E4 & E5).
  destruct (current_backed s (rq_slot q) Hd) as (Hold & Hval & Hdig); [by rewrite <-Hst|].
  rewrite <-Hst in Hold, Hval, Hdig.
  destruct (record_values _ _ _ _ _ _ Hdec (rk_value _ _ _ _ _ _ _ _ Hk) Hrec) as [Hvs Hvd].
  assert (∀ x, rq_command q = Some x → x = command ∧ command_hash x = av_command_hash value) as Hinl.
  { intros x Hx. rewrite (rk_inline _ _ _ _ _ _ _ _ Hk x Hx). split; [done|].
    by rewrite <-(rk_command _ _ _ _ _ _ _ _ Hk). }
  assert (∀ h x, (λ command, (av_command_hash value, command)) <$> rq_command q = Some (h, x) →
    command_hash x = h ∧ ∀ b, commands_of s !! h = Some b → b = encode_stored_command x) as Hcmd.
  { intros h x (y & Hy & [= -> ->])%fmap_Some. destruct (Hinl y Hy) as [_ Hh]. split; [done|].
    rewrite <-Hh. intros b. by apply Hun. }
  split; try done; [by rewrite E5|by apply Hvd|]. rewrite E1, E2, E3, E4. intros v [Hv| ->]%Hvs.
  - eapply value_backed_mono; [|by apply Hold]. apply commands_with_mono. intros h x Hx. apply (Hcmd h x Hx).
  - exists command. rewrite Es, Ecl, Eep, Eid. split; [|apply (rk_command _ _ _ _ _ _ _ _ Hk)].
    destruct (rq_command q) as [x|] eqn:Hx; cbn.
    + destruct (Hinl x eq_refl) as [-> _]. by rewrite lookup_insert_eq.
    + apply fetch_backed; [apply (i_commands s Hi)|]. by apply (rk_stored _ _ _ _ _ _ _ _ Hk).
Qed.

Lemma record_durable q s r s' :
  durable s → request_typed q = true → record_unambiguous q s → record_proposal q s = (r, s') →
  (∀ m, r ≠ Err (Io m)) → durable s'.
Proof.
  intros Hd Hq Hun Hr Hio.
  apply record_proposal_runs in Hr as [(e & _ & ->)|(sm & value & command & change & state & next & Hk & Hr)]; [done|].
  destruct Hr as [(_ & _ & ->)|(Hdec & c & r1 & Ht & Hp & ->)]; [done|].
  eapply persist_durable; [done|by eapply record_slot_write|exact Hp|].
  intros m ->. by destruct (Hio m).
Qed.

Lemma install_slot_write proof m s value state change st1 cert c :
  durable s → proof_typed proof = true → install_checks proof m s value state →
  ss_decided_proof state = None →
  validate_slot_gate s (r_configuration s) (proof_context proof).1.1.1 change = Ok () →
  slot_install_proof state proof = Ok st1 → certificate_from_proof proof = Ok cert →
  (∀ d, ss_decided st1 = Some d → dc_value d = dc_value cert) →
  transition_after_apply (r_configuration s) (with_certificate st1 cert) change (Some value) = Ok c →
  slot_write s (with_certificate st1 cert) c None change value.
Proof.
  intros Hd Hp Hk Hdec Hg H1 Hcert Hval Ht. pose proof (d_inv s Hd) as Hi.
  pose proof (install_checks_inv _ _ _ _ _ Hi Hp Hk) as (Hst & Hrd & Hcl & Hep & Hci & Hs & Hctx).
  specialize (Hctx (i_digest s Hi)). pose proof (ik_context _ _ _ _ _ Hk) as (Hpc & _).
  destruct (current_backed s (proof_context proof).1.1.1 Hd) as (Hold & _ & Hdig); [by rewrite <-Hst|].
  rewrite <-Hst in Hold, Hdig.
  destruct (install_readable state proof cert st1 Hrd Hdec Hp Hctx ltac:(congruence) H1 Hcert Hval) as [Hrd' Hpf].
  destruct (certificate_from_proof_typed _ _ Hp Hcert) as (_ & Hcv & _).
  pose proof (ik_value _ _ _ _ _ Hk) as Hv. rewrite Hv in Hcv. apply (inj Some) in Hcv.
  unfold slot_install_proof in H1. rewrite Hdec in H1. apply Ok_inj in H1 as <-.
  assert (ss_slot (with_certificate (set_decided_proof state (Some proof)) cert) = ss_slot state
    ∧ ss_cluster_id (with_certificate (set_decided_proof state (Some proof)) cert) = ss_cluster_id state
    ∧ ss_epoch (with_certificate (set_decided_proof state (Some proof)) cert) = ss_epoch state
    ∧ ss_config_id (with_certificate (set_decided_proof state (Some proof)) cert) = ss_config_id state
    ∧ ss_config_digest (with_certificate (set_decided_proof state (Some proof)) cert) = ss_config_digest state)
    as (E1 & E2 & E3 & E4 & E5).
  { unfold with_certificate. cbn. by destruct (ss_decided state). }
  split; try done.
  - by rewrite E2, E3, E4, E5.
  - right. rewrite Hpf. cbn. by rewrite Hv.
  - rewrite E1, Hs. by eapply validate_slot_gate_open.
  - rewrite E1, E2, E3, E4. cbn [commands_with]. intros v Hvin.
    assert (v ∈ recorder_state_values state ∨ v = value) as [Hv'| ->].
    { rewrite elem_of_values in Hvin |- *. rewrite Hpf in Hvin. cbn in Hvin. rewrite Hv in Hvin.
      unfold with_certificate in Hvin. cbn in Hvin.
      destruct (ss_decided state) as [dd|] eqn:Hdd; cbn in Hvin; rewrite ?Hdd in Hvin; cbn in Hvin; naive_solver. }
    + by apply Hold.
    + pose proof (ik_stored _ _ _ _ _ Hk) as Hstored. unfold validate_value_unlocked in Hstored.
      apply call_bind_Ok in Hstored as (x & s1 & Hx & Hstored). apply read_only_command_for_value in Hx as E.
      subst s1. rewrite store_bind in Hstored. unfold lift in Hstored. apply pair_eq in Hstored as [Hstored _].
      unfold validate_resolved_command_for_value in Hstored. apply reject_if_Ok in Hstored.
      rewrite neqb_false in Hstored. exists x. rewrite Hs, Hcl, Hep, Hci. split; [|done].
      by apply fetch_backed; [apply (i_commands s Hi)|].
Qed.

Lemma install_durable proof m s r s' :
  durable s → proof_typed proof = true → install_decision_proof_record proof m s = (r, s') →
  (∀ msg, r ≠ Err (Io msg)) → durable s'.
Proof.
  intros Hd Hp Hr Hio.
  apply install_decision_proof_runs in Hr as [(e & _ & ->)|(value & state & Hk & Hr)]; [done|].
  destruct Hr as [(_ & -> & _)|(Hdec & change & st1 & cert & c & ? & ? & ? & ? & ? & Hpersist)]; [done|].
  eapply persist_durable; [done|by eapply install_slot_write|exact Hpersist|done].
Qed.

Lemma reconfigure_durable command c head s r s' :
  durable s → reconfigure_run command c head s r s' →
  configuration_typed c → head_typed head = true → rc_max_slot c = head_max head →
  (∀ slots, head_evidence slots c head) →
  (∀ commands slots, slots_backed (r_cluster_id s) (r_epoch s) commands (r_configuration s) slots →
     slots_backed (r_cluster_id s) (r_epoch s) commands c slots) →
  (r = Ok () → recorder_inv s') → durable s'.
Proof.
  intros Hd [e s1 Hc|e s1 s2 h x Hc Hx Hst|r1 s1 s2 s3 Hc Hst Hcom] Htc Hth Hmx Hev Hsb Hi;
    pose proof (checkpoint_durable _ _ _ Hd Hc) as [Hd1 H0].
  - done.
  - by eapply store_command_durable.
  - specialize (H0 eq_refl). apply checkpoint_quiet in Hc as [Hq1 _]; [|by apply (i_wal s (d_inv s Hd))].
    assert (durable s2 ∧ r_wal s2 = r_wal s1 ∧ quiet s s2) as (Hd2 & Ew & Hq2).
    { destruct command as [[h x]|]; [|by subst]. split; [by eapply store_command_durable|].
      split; [by eapply store_command_wal|]. etransitivity; [done|]. by eapply store_command_quiet. }
    apply commit_head_shape in Hcom as [(e & -> & ->)|(-> & cb & hb & Hcb & Hhb & ->)]; [done|].
    apply committed_durable; try done; [by rewrite Ew| |by apply Hi].
    destruct (c_identity _ _ (q_carries _ _ Hq2)) as (_ & E1 & E2).
    pose proof (d_files s2 Hd2) as Hf. rewrite E1, E2, (q_configuration _ _ Hq2) in Hf. rewrite E1, E2. by apply Hsb.
Qed.
End ops.
