(* ===== verification/Recovery.v ===== *)
(** * Recovery: operations keep a recorder recoverable

    Every operation keeps the invariant [durable], so that opening the root of a
    recorder gives the recorder back; and whatever a crash leaves of an append or of
    a checkpoint is again the root of a recorder with the same contents. *)

From S2P Require Import Prelude Bytes Text Core ConfigChange Proposal Isr DecisionProof RecorderCodec Recorder Reopen RecorderSpec Durable DurableOps.

Section recovery.
Context `{Sha256}.

(** ** Runs *)

(** The arguments of an operation are values of their types, memberships are
    canonical, and hashes stand for one command each. *)
Definition op_safe (op : RecorderOp) (s : RecorderFileStore) : Prop :=
  op_typed op = true ∧
  match op with
  | OpRecord q => record_unambiguous q s
  | OpInstallSuccessor m proof =>
      proof_typed proof = true ∧ membership_wf m ∧ forallb is_str (m_members m) = true
  | OpRecoverSuccessor stop prefix tip hash => is_u64 tip = true ∧ hash ≠ LogHash_ZERO
  | _ => True
  end.

(** One operation, successful or rejected; an I/O error ends the run of a recorder. *)
Inductive safe_step (s s' : RecorderFileStore) : Prop :=
| safe_step_op op r : op_safe op s → run_op op s = (r, s') → io_error r = false → safe_step s s'.

Lemma successor_durable m proof s r s' :
  durable s → m_digest m ≠ LogHash_ZERO → proof_typed proof = true → membership_wf m →
  forallb is_str (m_members m) = true →
  install_successor_from_proof m proof s = (r, s') → (∀ msg, r ≠ Err (Io msg)) → durable s'.
Proof.
  intros Hd Hz Hp Hwf Hstr Hr Hio. pose proof (d_inv s Hd) as Hi.
  apply install_successor_runs in Hr as [(e & _ & ->)|(installed & command & r1 & Hk & Hr & ->)]; [done|].
  destruct (uk_config _ _ _ _ Hk) as [Hid Hle].
  destruct (uk_installed _ _ _ _ Hk) as (Edg & Emem & Eseal & Emax & Eact).
  destruct (uk_predecessor _ _ _ _ Hk) as (old & stop & value & _ & _ & _ & _ & _ & Epre).
  eapply reconfigure_durable; [done|done| | | | | |].
  - unfold configuration_typed, membership_typed. rewrite Emem, Epre, Eseal, Emax, Edg, Hid. split; [|done].
    bool_prop. split_and!; try done; [by apply N.leb_le|]. cbn. unfold seal_typed. cbn.
    unfold proof_typed in Hp. destruct (proof_context proof) as [[[slot epoch] ci] dg]. cbn. bool_prop. naive_solver.
  - done.
  - by rewrite Emax.
  - done.
  - intros commands slots Hs k b Hb. destruct (Hs k b Hb) as (st & ? & ? & ? & ? & ? & _). exists st.
    rewrite Hid. split_and!; try done; lia.
  - intros ->. apply reconfigure_run_outcome in Hr as [(? & ? & _)|[_ Hr]]; [done| |by apply (i_wal s Hi)].
    by eapply successor_inv.
Qed.

Lemma recover_durable stop prefix tip hash s r s' :
  durable s → is_u64 tip = true → hash ≠ LogHash_ZERO →
  recover_successor_activation_from_checkpoint stop prefix tip hash s = (r, s') →
  (∀ msg, r ≠ Err (Io msg)) → durable s'.
Proof.
  intros Hd Htip Hz Hr Hio. pose proof (d_inv s Hd) as Hi.
  apply recover_successor_runs in Hr as [(e & _ & ->)|[[_ ->]|(p & r1 & Hp & Hs & Hpr & Hlt & Ha & Hr & _)]]; [done|done|].
  pose proof (d_configuration s Hd) as Hc. set (c := set_activated _) in *.
  assert (seal_typed p = true) as Hpt.
  { destruct Hc as [Hc _]. rewrite Hp in Hc. bool_prop. naive_solver. }
  eapply reconfigure_durable; [done|done| | | | | |].
  - destruct Hc as [Hc Hm]. split; [|done]. bool_prop. cbn. naive_solver.
  - cbn. bool_prop. unfold seal_typed in Hpt. by rewrite <-Hs.
  - done.
  - intros slots. exists p. split_and!; try done.
  - intros commands slots. by apply slots_backed_configuration.
  - intros ->. apply reconfigure_run_outcome in Hr as [(? & ? & _)|[_ Hr]]; [done| |by apply (i_wal s Hi)].
    eapply recover_inv; [done|exact Hp| |done|exact Hr]. by rewrite Hs.
Qed.

Lemma step_durable s s' : durable s → safe_step s s' → durable s'.
Proof.
  intros Hd [op r [Ht Hs] Hr Hio].
  assert (∀ m, r ≠ Err (Io m)) as Hio' by (by intros m ->).
  destruct op; cbn [run_op op_typed] in Hr, Ht;
    try (apply discard_cases in Hr as (x & Hr & Hx);
         assert (∀ m, x ≠ Err (Io m)) as Hxio
           by (intros m ->; destruct Hx as [[_ ?]|(e & -> & [= <-])]; [done|by destruct (Hio' m)])).
  - by eapply record_durable.
  - by eapply install_durable.
  - destruct Hs as (? & ? & ?). rewrite neqb_true in Ht. by eapply successor_durable.
  - destruct Hs as (? & ?). by eapply recover_durable.
  - apply apply_runs in Hr as [->|(h & c & r1 & Hst)]; [done|]. by eapply store_command_durable.
  - by eapply store_command_durable.
  - by apply inspect_summary_read_only in Hr as ->.
  - by apply read_fence_read_only in Hr as ->.
Qed.

Lemma steps_durable s s' : durable s → rtc safe_step s s' → durable s'.
Proof. intros Hd Hs. induction Hs; [done|]. eauto using step_durable. Qed.

Lemma new_durable id cluster epoch config_id m s :
  new_with_membership id cluster epoch config_id m = Ok s →
  is_str cluster = true → is_u64 epoch = true → is_u64 config_id = true →
  membership_wf m → forallb is_str (m_members m) = true → m_digest m ≠ LogHash_ZERO → durable s.
Proof.
  intros Hn Hcl Hep Hid Hwf Hstr Hz. pose proof (new_with_membership_inv _ _ _ _ _ _ Hn Hcl Hep Hid Hz) as Hi.
  unfold new_with_membership in Hn. apply bind_Ok_inv in Hn as (u & Hne%reject_if_Ok & Hn). cbn zeta in Hn.
  destruct (commit_configuration_head_unlocked _ _ _) as [[[]|e] s1] eqn:Hcom; [|done]. apply Ok_inj in Hn as ->.
  apply commit_head_shape in Hcom as [(? & ? & _)|(_ & cb & hb & Hcb & Hhb & ->)]; [done|].
  set (c := configuration_initial config_id (m_digest m) (Some m)) in *. cbn in Hhb.
  assert (configuration_typed c) as Htc.
  { split; [cbn; by rewrite Hid|]. unfold membership_typed. cbn. done. }
  apply N.eqb_neq in Hne.
  split; cbn; try done.
  exists c, HeadEmpty. split.
  - match goal with |- checkpointed ?s0 _ _ => by apply (checkpointed_fresh s0) end.
  - exists [], []. cbn. split_and!; try done; constructor.
Qed.

(** ** Restarts *)

(** Opening with the identity of [s] and the membership [m] of its configuration. *)
Definition reopen (s : RecorderFileStore) (m : Membership) (existing_only : bool) (r : RecorderRoot) :
    result Error RecorderFileStore * RecorderRoot :=
  open_with_membership (r_recorder_id s) (r_cluster_id s) (r_epoch s) (rc_config_id (r_configuration s)) m
    existing_only r.

Lemma reopen_durable s m existing_only :
  durable s → within_bounds s → rc_membership (r_configuration s) = Some m →
  reopen s m existing_only (root_of s) = (Ok s, root_of s).
Proof.
  intros Hd Hb Hm. pose proof (reopen_tail s m existing_only [] Hd Hb Hm) as Hr. rewrite app_nil_r in Hr.
  assert (write (AppendWal []) (root_of s) = root_of s) as Ew.
  { unfold root_of. cbn. by rewrite app_nil_r. }
  rewrite Ew in Hr. apply Hr; [apply Hb|by left].
Qed.

(** ** Crashes *)

(** What a crash leaves of a list of writes: a prefix of it, the last write of
    which may be the beginning of a frame that was being appended. *)
Inductive crashed : list FileWrite → list FileWrite → Prop :=
| crashed_now l : crashed l []
| crashed_torn frame part rest l : frame = part ++ rest → crashed (AppendWal frame :: l) [AppendWal part]
| crashed_later w l p : crashed l p → crashed (w :: l) (w :: p).

Lemma crashed_cons w l p :
  crashed (w :: l) p →
  p = [] ∨ (∃ frame part rest, w = AppendWal frame ∧ frame = part ++ rest ∧ p = [AppendWal part])
  ∨ ∃ p', p = w :: p' ∧ crashed l p'.
Proof. inversion 1; eauto 10. Qed.
Lemma crashed_nil p : crashed [] p → p = [].
Proof. by inversion 1. Qed.

Lemma crashed_app l1 l2 p :
  crashed (l1 ++ l2) p → crashed l1 p ∨ ∃ p2, crashed l2 p2 ∧ p = l1 ++ p2.
Proof.
  revert p. induction l1 as [|w l1 IH]; intros p Hc; [right; by exists p|].
  apply crashed_cons in Hc as [->|[(frame & part & rest & -> & Hf & ->)|(p' & -> & Hc)]].
  - left. constructor.
  - left. by econstructor.
  - apply IH in Hc as [Hc|(p2 & Hc & ->)]; [left; by constructor|]. right. by exists p2.
Qed.

(** *** An interrupted append *)

Lemma append_crash s st c command change v frame d b part rest m existing_only :
  durable s → within_bounds s → slot_write s st c command change v →
  configuration_structure_changed (r_configuration s) c = false →
  encode_wal_frame (wc_generation (wal_checkpoint (r_wal s))) (wal_next_sequence (r_wal s))
    (wal_last_digest (r_wal s)) st c (expected_head c st (r_recorded_head s)) command = Ok (frame, d, b) →
  (wal_next_sequence (r_wal s) + 1 ≤ u64_max)%N →
  recorder_inv (appended_state s st c command frame d b) →
  (blen (wal_file (r_wal s) ++ frame) ≤ MAX_RECORDER_WAL_BYTES)%N → frame = part ++ rest →
  rc_membership (r_configuration s) = Some m →
  ∃ s'', reopen s m existing_only (write (AppendWal part) (root_of s)) = (Ok s'', root_of s'')
    ∧ durable s'' ∧ (s'' = s ∨ s'' = appended_state s st c command frame d b).
Proof.
  intros Hd Hb Hw Hstr He Hsq Hi Hl Hf Hm.
  pose proof (appended_durable _ _ _ _ _ _ _ _ _ Hd Hw Hstr He Hsq Hi) as Hd'.
  destruct (decide (rest = [])) as [->|Hr].
  - rewrite app_nil_r in Hf. subst part. exists (appended_state s st c command frame d b).
    split; [|auto]. pose proof (structure_same _ _ Hstr) as (Eid & _ & Em & _).
    assert (write (AppendWal frame) (root_of s) = root_of (appended_state s st c command frame d b)) as -> by done.
    unfold reopen. rewrite Eid.
    apply (reopen_durable (appended_state s st c command frame d b)); [done| |change (rc_membership c = Some m); by rewrite <-Em].
    destruct Hb. by split.
  - exists s. split; [|auto]. apply reopen_tail; try done.
    + etransitivity; [|exact Hl]. rewrite Hf, !blen_app. lia.
    + right. eapply decode_torn; [exact He|done|done|]. etransitivity; [exact Hl|]. by apply N.leb_le.
Qed.

(** *** An interrupted checkpoint *)

Lemma logged_slots files cluster epoch generation acc l acc' k b :
  logged files cluster epoch generation acc l acc' → rp_slots acc' !! k = Some b →
  rp_slots acc !! k = Some b
  ∨ ∃ st, decode_recorder_state b = Ok st ∧ ss_config_id st = rc_config_id (rp_configuration acc).
Proof.
  induction 1 as [|l acc1 e frame d sb Hlog IH Ho He]; [by left|]. cbn.
  intros [[<- <-]|[_ Hk]]%lookup_insert_Some; [|by apply IH]. right. exists (e_state e).
  pose proof (encode_entry_parts _ _ _ _ _ _ He) as (cb & Hsb & Hl & _). split.
  - destruct Ho as [[? ?] ? ? ? ? ? ? ?]. by eapply recorder_state_reads.
  - pose proof (logged_structure _ _ _ _ _ _ _ Hlog) as (E1 & _)%structure_same.
    destruct Ho as [? (_ & _ & -> & _) ? Hs ? ? ? ?]. apply structure_same in Hs as (E2 & _). congruence.
Qed.

Lemma logged_stale files cluster epoch generation generation' acc l acc' stale :
  logged files cluster epoch generation acc l acc' → is_u64 generation = true → (generation < generation')%N →
  stale_frames generation' stale → stale_frames generation' (stale ++ l).
Proof.
  intros Hlog Hg Hlt Hst. induction Hlog as [|l acc1 e frame d sb Hlog IH Ho He]; [by rewrite app_nil_r|].
  rewrite app_assoc. eapply stale_snoc; [done|exact Hlt| |exact He].
  destruct Ho as [[Hs%slot_typed_slot _] ? ? ? [_ Hh] ? ? ?]. rewrite Hg, Hs, Hh, !andb_true_r. apply N.leb_le. lia.
Qed.

Lemma stale_frames_mono generation generation' l :
  (generation ≤ generation')%N → stale_frames generation l → stale_frames generation' l.
Proof. intros Hle. induction 1; [constructor|]. eapply stale_snoc; [done| |done|done]. lia. Qed.

(** The recorder over files in the middle of a checkpoint. *)
Definition midway (s : RecorderFileStore) (commands : gmap LogHash bytes) (slots : gmap N bytes)
    (cb : bytes) : RecorderFileStore :=
  mkRecorder (r_recorder_id s) (r_cluster_id s) (r_epoch s) (r_configuration s) (r_recorded_head s)
    (r_wal s) slots commands cb (r_head_file s).

(** Commands are copied to the files before slots. *)
Record copied (s : RecorderFileStore) (commands : gmap LogHash bytes) (slots : gmap N bytes) : Prop := {
  co_commands : r_command_files s ⊆ commands ∧ commands ⊆ commands_of s;
  co_slots : ∀ k b, slots !! k = Some b →
    r_slot_files s !! k = Some b ∨ (wal_slots (r_wal s) !! k = Some b ∧ commands = commands_of s);
  co_dom : dom (r_slot_files s) ⊆ dom slots ∧ wal_slots (r_wal s) ∪ slots = slots_of s
}.

Lemma midway_contents s commands slots cb :
  copied s commands slots →
  slots_of (midway s commands slots cb) = slots_of s
  ∧ commands_of (midway s commands slots cb) = commands_of s.
Proof.
  intros [[Hsub Hsup] _ [_ Hs]]. split; [done|]. unfold commands_of at 1. cbn.
  apply map_eq. intros h. destruct (wal_commands (r_wal s) !! h) as [c|] eqn:Hw.
  - rewrite (commands_of_wal _ _ _ Hw). apply lookup_union_Some_l. by rewrite lookup_fmap, Hw.
  - rewrite lookup_union_r by (by rewrite lookup_fmap, Hw). rewrite commands_of_file by done.
    destruct (commands !! h) as [b|] eqn:Hb.
    + symmetry. rewrite <-commands_of_file by done. by eapply lookup_weaken.
    + symmetry. by eapply lookup_weaken_None.
Qed.

Lemma midway_durable s commands slots cb :
  durable s → copied s commands slots →
  cb = r_configuration_file s
  ∨ (encode_configuration_state (r_configuration s) = Ok cb
     ∧ ∀ c h, checkpointed s c h → checkpoint_backed h = true → rc_max_slot (r_configuration s) = head_max h) →
  durable (midway s commands slots cb) ∧ quiet s (midway s commands slots cb).
Proof.
  intros Hd Hco Hcb. pose proof (midway_contents s commands slots cb Hco) as [Es Ec].
  assert (quiet s (midway s commands slots cb)) as Hq.
  { split; [|done|done|done]. apply carries_contents; [done|apply (i_wal s (d_inv s Hd))|done]. }
  split; [|done]. pose proof (quiet_inv _ _ Hq (d_inv s Hd)) as Hi.
  destruct Hd as [_ Hid Hl Hg Hc Hh Ha Hfs Hss (c0 & h0 & Hcp & Hlog)].
  destruct Hco as [[Hsub Hsup] Hsl [Hdom _]].
  pose proof (structure_same _ _ (cp_structure _ _ _ Hcp)) as (E1 & E2 & E3 & E4 & E5 & E6).
  split; rewrite ?Es, ?Ec; try done.
  - cbn. intros h c b Hw Hb. pose proof (lookup_weaken _ _ _ _ Hb Hsup) as Hb'.
    rewrite (commands_of_wal _ _ _ Hw) in Hb'. by apply (inj Some) in Hb'.
  - cbn. intros k b [Hb|[Hb ->]]%Hsl; [by eapply slots_backed_mono|]. apply Hss. by apply lookup_union_Some_l.
  - exists c0, h0. split.
    + destruct Hcp as [(f & Hf & Htf & Hcf & Hbk) Hhe Ht Hev Hstr]. split; try done.
      * destruct Hcb as [->|[Hcb Hmx]]; [by exists f|]. exists (r_configuration s). cbn. split_and!; try done.
        -- subst c0. destruct f, (r_configuration s). cbn in *. by subst.
        -- apply (Hmx c0 h0). split; try done. by exists f.
      * destruct h0 as [|k|]; try done. destruct Hev as (b0 & st0 & Hb0 & Hd0 & Hi0). cbn.
        assert (k ∈ dom slots) as [b Hb]%elem_of_dom by (apply Hdom; by apply elem_of_dom_2 in Hb0).
        exists b. destruct (Hsl k b Hb) as [Hb'|[Hb' _]].
        -- exists st0. rewrite Hb0 in Hb'. by apply (inj Some) in Hb' as ->.
        -- destruct Hlog as (stale & l & _ & _ & _ & _ & Hlog).
           apply (logged_slots _ _ _ _ _ _ _ k b) in Hlog as [Hk|(st & ? & ?)];
             [cbn in Hk; by rewrite lookup_empty in Hk| |done].
           by exists st.
    + destruct Hlog as (stale & l & ? & ? & ? & ? & Hlog). exists stale, l. split_and!; try done.
      by eapply logged_mono.
Qed.

Lemma union_part `{Countable K} {A} (m n : gmap K A) : n ⊆ m → m ∪ n = m.
Proof.
  intros Hs. apply map_eq. intros k. rewrite lookup_union. destruct (m !! k) eqn:Hk; [by rewrite union_Some_l|].
  rewrite (lookup_weaken_None _ _ _ Hk Hs). done.
Qed.

Lemma copied_part s part_commands part_slots :
  durable s → part_commands ⊆ wal_commands (r_wal s) → part_slots ⊆ wal_slots (r_wal s) →
  part_slots = ∅ ∨ part_commands = wal_commands (r_wal s) →
  copied s ((encode_stored_command <$> part_commands) ∪ r_command_files s) (part_slots ∪ r_slot_files s).
Proof.
  intros Hd Hc Hs Hcs. split.
  - split; apply map_subseteq_spec; intros h b.
    + intros Hb. destruct (part_commands !! h) as [c|] eqn:Hp.
      * apply lookup_union_Some_l. rewrite lookup_fmap, Hp. cbn.
        f_equal. symmetry. eapply (d_agree s Hd); [by eapply lookup_weaken|done].
      * rewrite lookup_union_r; [done|]. by rewrite lookup_fmap, Hp.
    + intros [Hb|[Hn Hb]]%lookup_union_Some_raw.
      * apply lookup_fmap_Some in Hb as (c & <- & Hp). apply commands_of_wal. by eapply lookup_weaken.
      * destruct (wal_commands (r_wal s) !! h) as [c|] eqn:Hw; [|by rewrite commands_of_file].
        rewrite (commands_of_wal _ _ _ Hw). f_equal. symmetry. by eapply (d_agree s Hd).
  - intros k b [Hb|[_ Hb]]%lookup_union_Some_raw; [|by left]. right. split; [by eapply lookup_weaken|].
    destruct Hcs as [->| ->]; [by rewrite lookup_empty in Hb|done].
  - split; [set_solver|]. unfold slots_of. rewrite (assoc_L (∪)). f_equal. by apply union_part.
Qed.

Lemma foldl_insert `{Countable K} {A} (l : list (K * A)) (m : gmap K A) :
  NoDup l.*1 → foldl (λ m ka, <[ka.1 := ka.2]> m) m l = list_to_map l ∪ m.
Proof.
  revert m. induction l as [|[k a] l IH]; intros m Hn; cbn; [by rewrite (left_id_L ∅ (∪))|].
  apply NoDup_cons in Hn as [Hk Hn]. rewrite IH by done.
  rewrite <-insert_union_r by (by apply not_elem_of_list_to_map_1). by rewrite insert_union_l.
Qed.

Lemma list_to_map_all `{Countable K} {A} (m : gmap K A) (l : list (K * A)) :
  l ≡ₚ map_to_list m → list_to_map l = m.
Proof.
  intros Hp. rewrite <-(list_to_map_to_list m). apply list_to_map_proper; [|done].
  rewrite Hp. apply NoDup_fst_map_to_list.
Qed.

(** A part of the writes of the maps. *)
Lemma list_to_map_part `{Countable K} {A} (m : gmap K A) (l l1 l2 : list (K * A)) :
  l ≡ₚ map_to_list m → l = l1 ++ l2 →
  NoDup l1.*1 ∧ (list_to_map l1 : gmap K A) ⊆ m.
Proof.
  intros Hp ->. assert (NoDup (l1 ++ l2).*1) as Hn.
  { rewrite Hp. apply NoDup_fst_map_to_list. }
  pose proof (list_to_map_all _ _ Hp) as Hm.
  rewrite fmap_app in Hn. apply NoDup_app in Hn as (Hn1 & _ & _). split; [done|].
  rewrite list_to_map_app in Hm. rewrite <-Hm. apply map_union_subseteq_l.
Qed.

Lemma crashed_fmap {A} (f : A → FileWrite) l p :
  (∀ x frame, f x ≠ AppendWal frame) → crashed (f <$> l) p → ∃ l1 l2, l = l1 ++ l2 ∧ p = f <$> l1.
Proof.
  intros Hf. revert p. induction l as [|x l IH]; intros p Hc; cbn in Hc.
  { inversion Hc. by exists [], []. }
  apply crashed_cons in Hc as [->|[(frame & ? & ? & Hx & _)|(p' & -> & Hc)]].
  - by exists [], (x :: l).
  - by destruct (Hf x frame).
  - apply IH in Hc as (l1 & l2 & -> & ->). by exists (x :: l1), l2.
Qed.

Lemma writes_app l1 l2 r : writes (l1 ++ l2) r = writes l2 (writes l1 r).
Proof. apply foldl_app. Qed.

Lemma writes_commands l s commands slots cb :
  writes ((λ hc, WriteCommand hc.1 (encode_stored_command hc.2)) <$> l) (root_of (midway s commands slots cb))
  = root_of (midway s (foldl (λ m ka, <[ka.1 := ka.2]> m) commands (prod_map id encode_stored_command <$> l)) slots cb).
Proof. revert commands. induction l as [|hc l IH]; intros commands; [done|]. cbn. apply IH. Qed.

Lemma writes_slots l s commands slots cb :
  writes ((λ kb, WriteSlot kb.1 kb.2) <$> l) (root_of (midway s commands slots cb))
  = root_of (midway s commands (foldl (λ m ka, <[ka.1 := ka.2]> m) slots l) cb).
Proof. revert slots. induction l as [|kb l IH]; intros slots; [done|]. cbn. apply IH. Qed.

Lemma list_to_map_encoded (l : list (LogHash * StoredCommand)) :
  (list_to_map (prod_map id encode_stored_command <$> l) : gmap LogHash bytes)
  = encode_stored_command <$> (list_to_map l : gmap LogHash StoredCommand).
Proof. apply list_to_map_fmap. Qed.

Lemma midway_self s : midway s (r_command_files s) (r_slot_files s) (r_configuration_file s) = s.
Proof. by destruct s. Qed.

Lemma midway_bounds s generation commands slots cb hb cb' :
  copied s commands slots → within_bounds s → within_bounds (checkpointed_state s generation cb hb []) →
  cb' = r_configuration_file s ∨ cb' = cb → within_bounds (midway s commands slots cb').
Proof.
  intros [[_ Hc] Hs _] [B1 B2 B3 B4 B5] [B1' _ _ B4' B5'] Hcb. cbn in *. split; cbn; try done.
  - by destruct Hcb as [->| ->].
  - intros h b Hb. eapply (B4' h b). by eapply lookup_weaken.
  - intros k b [Hb|[Hb _]]%Hs; [by eapply (B5 k)|]. apply (B5' k b). by apply lookup_union_Some_l.
Qed.

(** Whatever a crash leaves of a checkpoint is the root of a recorder with the
    same contents. *)
Lemma checkpoint_crash s commands slots generation cb hb p :
  durable s →
  commands ≡ₚ map_to_list (wal_commands (r_wal s)) → slots ≡ₚ map_to_list (wal_slots (r_wal s)) →
  checked_add (wc_generation (wal_checkpoint (r_wal s))) 1 = Some generation →
  encode_configuration_state (r_configuration s) = Ok cb →
  encode_recorded_head (r_cluster_id s) (r_epoch s) (r_configuration s) (r_recorded_head s) []
    (mkWalCheckpoint generation (wal_next_sequence (r_wal s) - 1)) = Ok hb →
  (∀ c h, checkpointed s c h → checkpoint_backed h = false) →
  crashed (checkpoint_writes commands slots cb hb) p →
  ∃ s'', writes p (root_of s) = root_of s'' ∧ durable s'' ∧ quiet s s''
    ∧ (within_bounds s → within_bounds (checkpointed_state s generation cb hb []) → within_bounds s'').
Proof.
  intros Hd Hcs Hss Hg Hcb Hhb Hbk Hc.
  assert (∀ pc ps cb', copied s pc ps → cb' = r_configuration_file s ∨ cb' = cb →
    durable (midway s pc ps cb') ∧ quiet s (midway s pc ps cb')
    ∧ (within_bounds s → within_bounds (checkpointed_state s generation cb hb []) →
       within_bounds (midway s pc ps cb'))) as Hmid.
  { intros pc ps cb' Hco Hcb'. rewrite (assoc and). split; [|by intros ? ?; eapply midway_bounds].
    apply midway_durable; [done|done|]. destruct Hcb' as [->| ->]; [by left|right].
    split; [done|]. intros c h Hch Ht. by rewrite (Hbk c h Hch) in Ht. }
  replace (root_of s) with (root_of (midway s (r_command_files s) (r_slot_files s) (r_configuration_file s)))
    by (by rewrite midway_self).
  unfold checkpoint_writes in Hc.
  assert (NoDup (commands.*1)) as Hnc by (rewrite Hcs; apply NoDup_fst_map_to_list).
  assert (NoDup (slots.*1)) as Hns by (rewrite Hss; apply NoDup_fst_map_to_list).
  assert ((prod_map id encode_stored_command <$> commands).*1 = commands.*1) as Ek.
  { rewrite <-list_fmap_compose. by apply list_fmap_ext. }
  apply crashed_app in Hc as [Hc|(p2 & Hc & ->)].
  { apply crashed_fmap in Hc as (l1 & l2 & Hl & ->); [|done].
    destruct (list_to_map_part _ _ _ _ Hcs Hl) as [Hn Hsub].
    rewrite writes_commands, foldl_insert, list_to_map_encoded.
    2:{ rewrite <-list_fmap_compose. exact Hn. }
    eexists. split; [done|]. apply Hmid; [|by left].
    rewrite <-(left_id_L ∅ (∪) (r_slot_files s)). apply copied_part; [done|done|apply map_empty_subseteq|by left]. }
  rewrite writes_app, writes_commands, foldl_insert, list_to_map_encoded by (by rewrite Ek).
  rewrite (list_to_map_all _ _ Hcs).
  fold (commands_of s).
  apply crashed_app in Hc as [Hc|(p3 & Hc & ->)].
  { apply crashed_fmap in Hc as (l1 & l2 & Hl & ->); [|done].
    destruct (list_to_map_part _ _ _ _ Hss Hl) as [Hn Hsub].
    rewrite writes_slots, foldl_insert by done. eexists. split; [done|]. apply Hmid; [|by left].
    apply copied_part; [done|reflexivity|done|by right]. }
  rewrite writes_app, writes_slots, foldl_insert by done.
  rewrite (list_to_map_all _ _ Hss).
  fold (slots_of s).
  assert (copied s (commands_of s) (slots_of s)) as Hfull by (apply copied_part; [done|reflexivity|reflexivity|by right]).
  destruct (d_generation s Hd) as [Hgt _]. pose proof Hg as [Eg _]%checked_add_Some.
  apply crashed_cons in Hc as [->|[(? & ? & ? & ? & _)|(p4 & -> & Hc)]]; [|done|].
  { eexists. split; [done|]. apply Hmid; [done|by left]. }
  apply crashed_cons in Hc as [->|[(? & ? & ? & ? & _)|(p5 & -> & Hc)]]; [|done|].
  { exists (midway s (commands_of s) (slots_of s) cb). split; [done|]. by apply Hmid; [|right]. }
  assert (stale_frames (wc_generation (wal_checkpoint (r_wal s)) + 1) (wal_file (r_wal s))) as Hst.
  { destruct (d_checkpoint s Hd) as (c0 & h0 & _ & (stale & l & -> & _ & Hst & _ & Hlog)).
    eapply logged_stale; [exact Hlog|done|lia|]. eapply stale_frames_mono; [|done]. lia. }
  rewrite Eg in *. apply crashed_cons in Hc as [->|[(? & ? & ? & ? & _)|(p6 & -> & ->%crashed_nil)]]; [|done|].
  { exists (checkpointed_state s (wc_generation (wal_checkpoint (r_wal s)) + 1) cb hb (wal_file (r_wal s))).
    split; [done|]. split; [by apply checkpointed_state_durable|].
    split; [apply checkpointed_state_quiet|]. intros [? ? ? ? ?] [? ? ? ? ?]. by split. }
  exists (checkpointed_state s (wc_generation (wal_checkpoint (r_wal s)) + 1) cb hb []).
  split; [done|]. split; [apply checkpointed_state_durable; [done..|constructor]|].
  split; [apply checkpointed_state_quiet|done].
Qed.

(** The writes of a checkpoint make the files of its result. *)
Lemma checkpoint_writes_files s commands slots generation cb hb :
  commands ≡ₚ map_to_list (wal_commands (r_wal s)) → slots ≡ₚ map_to_list (wal_slots (r_wal s)) →
  writes (checkpoint_writes commands slots cb hb) (root_of s)
  = root_of (checkpointed_state s generation cb hb []).
Proof.
  intros Hcs Hss.
  replace (root_of s) with (root_of (midway s (r_command_files s) (r_slot_files s) (r_configuration_file s)))
    by (by rewrite midway_self).
  assert (NoDup (prod_map id encode_stored_command <$> commands).*1).
  { rewrite <-list_fmap_compose. change (NoDup commands.*1). rewrite Hcs. apply NoDup_fst_map_to_list. }
  assert (NoDup slots.*1) by (rewrite Hss; apply NoDup_fst_map_to_list).
  unfold checkpoint_writes. rewrite writes_app, writes_commands, foldl_insert, list_to_map_encoded by done.
  rewrite writes_app, writes_slots, foldl_insert by done.
  by rewrite (list_to_map_all _ _ Hcs), (list_to_map_all _ _ Hss).
Qed.
End recovery.
