(* ===== verification/Crash.v ===== *)
(** * Crash: operations that a crash interrupts

    Every operation of [Recorder] that changes files makes its writes in one order:
    a checkpoint, a command, then a frame of the log or the files of a transition
    under an intent.  This file proves what opening makes of any part of them: the
    recorder before the operation or the recorder after it. *)

From S2P Require Import Prelude Bytes Text Core ConfigChange Proposal Isr DecisionProof RecorderCodec Recorder Reopen RecorderSpec Durable DurableOps Recovery.

Section crash.
Context `{Sha256}.

(** ** Opening a root with an intent *)

(** What is left of an opening once the intents are recovered. *)
Definition open_rest (recorder_id : NodeId) (cluster_id : bytes) (epoch : N) (existing_format : bool)
    (configured : RecorderConfiguration) : opening RecorderFileStore :=
  '(c, head, checkpoint) ←
    open_or_initialize_recorded_head recorder_id cluster_id epoch configured existing_format;
  open_or_replay_wal recorder_id cluster_id epoch c head checkpoint.

(** A root on which the first steps of an opening lead to the configuration [c]
    and the root [r']. *)
Record recovers (cluster_id : bytes) (epoch : N) (r : RecorderRoot) (c : RecorderConfiguration)
    (r' : RecorderRoot) : Prop := {
  rv_exists : is_Some (root_configuration r);
  rv_intents : ∃ r1 cb c1, recover_configuration_head_intent r = (Ok (), r1)
    ∧ root_configuration r1 = Some cb ∧ (blen cb ≤ MAX_CONFIGURATION_BYTES)%N
    ∧ decode_configuration_state cb = Ok c1
    ∧ option_holds (rc_membership c1) (λ m, neqb (m_digest m) (rc_config_digest c1)) = false
    ∧ recover_intent cluster_id epoch c1 r1 = (Ok c, r')
}.

Lemma recovers_existing cluster_id epoch r c r' : recovers cluster_id epoch r c r' → existing_format r = true.
Proof.
  intros [[cb Hc] _]. unfold existing_format. rewrite Hc.
  assert (neqb (Some cb) None = true) as -> by (by apply neqb_true). by rewrite orb_true_r.
Qed.

Lemma open_recovers_from cluster_id epoch r c r' id config_id m existing_only o :
  recovers cluster_id epoch r c r' → blen id ≠ 0%N →
  preflight_existing_with_membership_outcome r cluster_id epoch config_id m = Ok o → o ≠ Missing →
  open_with_membership id cluster_id epoch config_id m existing_only r = open_rest id cluster_id epoch true c r'.
Proof.
  intros Hrv Hid Hp Ho. unfold open_with_membership.
  rewrite check_bind. destruct (N.eqb_spec (blen id) 0); [done|]. cbn [reject_if]. rewrite root_bind. cbn zeta.
  rewrite Hp, (recovers_existing _ _ _ _ _ Hrv). destruct Hrv as [_ (r1 & cb & c1 & Hh & Hc & Hb & Hd & Hm & Hi)].
  assert (∀ B (f : () → opening B), ((match o with
    | Missing => check (reject_if existing_only (Decode "recorder root is missing durable state"))
    | _ => mret () end) ≫= f) r = f () r) as -> by (by destruct o).
  rewrite (opening_bind_Ok _ _ _ _ _ Hh), root_bind, Hc. rewrite (opening_bind_Ok _ _ r1 c1 r1).
  2:{ rewrite check_bind, read_bounded_ok by done. unfold check. by rewrite Hd. }
  rewrite check_bind, Hm. cbn [reject_if]. by rewrite (opening_bind_Ok _ _ _ _ _ Hi).
Qed.

(** The other way round: the rest of an opening that succeeded. *)
Lemma open_rest_of cluster_id epoch r c r' id config_id m existing_only s r'' :
  recovers cluster_id epoch r c r' →
  open_with_membership id cluster_id epoch config_id m existing_only r = (Ok s, r'') →
  open_rest id cluster_id epoch true c r' = (Ok s, r'').
Proof.
  intros Hrv Ho. unfold open_with_membership in Ho.
  rewrite check_bind in Ho. destruct (N.eqb_spec (blen id) 0); [done|]. cbn [reject_if] in Ho.
  rewrite root_bind in Ho. cbn zeta in Ho. rewrite (recovers_existing _ _ _ _ _ Hrv) in Ho.
  destruct Hrv as [_ (r1 & cb & c1 & Hh & Hc & Hb & Hd & Hm & Hi)].
  set (rest := λ _ : (), _ ← recover_configuration_head_intent; _) in Ho.
  assert (rest () r = (Ok s, r'')) as Hr.
  { destruct (preflight_existing_with_membership_outcome _ _ _ _ _) as [[| |]|e]; [|done|done|].
    - rewrite check_bind in Ho. by destruct existing_only.
    - by destruct (true && is_missing e). }
  unfold rest in Hr. rewrite (opening_bind_Ok _ _ _ _ _ Hh), root_bind, Hc in Hr.
  rewrite (opening_bind_Ok _ _ r1 c1 r1) in Hr.
  2:{ rewrite check_bind, read_bounded_ok by done. unfold check. by rewrite Hd. }
  rewrite check_bind, Hm in Hr. cbn [reject_if] in Hr. by rewrite (opening_bind_Ok _ _ _ _ _ Hi) in Hr.
Qed.

(** Without intents nothing is recovered. *)
Lemma recovers_root s c :
  decode_configuration_state (r_configuration_file s) = Ok c → configuration_typed c →
  (blen (r_configuration_file s) ≤ MAX_CONFIGURATION_BYTES)%N →
  recovers (r_cluster_id s) (r_epoch s) (root_of s) c (root_of s).
Proof.
  intros Hd [_ Hm] Hb. split; [done|]. exists (root_of s), (r_configuration_file s), c. split_and!; try done.
  unfold membership_typed in Hm. destruct (rc_membership c) as [m|]; [|done]. cbn.
  rewrite neqb_false. naive_solver.
Qed.

(** A root from which an opening leads to that of [s] opens as [s]. *)
Lemma reopen_recovered s r m existing_only o :
  durable s → within_bounds s → rc_membership (r_configuration s) = Some m →
  decode_configuration_state (r_configuration_file s) = Ok (r_configuration s) →
  recovers (r_cluster_id s) (r_epoch s) r (r_configuration s) (root_of s) →
  preflight_existing_with_membership_outcome r (r_cluster_id s) (r_epoch s)
    (rc_config_id (r_configuration s)) m = Ok o → o ≠ Missing →
  reopen s m existing_only r = (Ok s, root_of s).
Proof.
  intros Hd Hb Hm Hc Hrv Hp Ho. unfold reopen.
  rewrite (open_recovers_from _ _ _ _ _ _ _ _ _ _ Hrv (d_id s Hd) Hp Ho).
  eapply open_rest_of; [|by apply (reopen_durable s m existing_only)].
  apply recovers_root; [done|by apply d_configuration|by apply wb_configuration].
Qed.

(** ** An interrupted transition *)

(** The recorder after a transition that opening completed: its log starts over. *)
Definition reset_state (s : RecorderFileStore) (hb : bytes) : RecorderFileStore :=
  mkRecorder (r_recorder_id s) (r_cluster_id s) (r_epoch s) (r_configuration s) (r_recorded_head s)
    wal_default (r_slot_files s) (r_command_files s) (r_configuration_file s) hb.

Lemma empty_contents s :
  durable s → wal_frame_count (r_wal s) = 0%N →
  slots_of s = r_slot_files s ∧ commands_of s = r_command_files s.
Proof.
  intros Hd H0. destruct (empty_log s Hd H0) as (Hs & Hc & _). unfold slots_of, commands_of.
  by rewrite Hs, Hc, fmap_empty, !(left_id_L ∅ (∪)).
Qed.

Lemma reset_contents s hb :
  slots_of (reset_state s hb) = r_slot_files s ∧ commands_of (reset_state s hb) = r_command_files s.
Proof. unfold slots_of, commands_of. cbn. by rewrite fmap_empty, !(left_id_L ∅ (∪)). Qed.

Lemma reset_quiet s hb : durable s → wal_frame_count (r_wal s) = 0%N → quiet s (reset_state s hb).
Proof.
  intros Hd H0. destruct (empty_contents s Hd H0) as [Es Ec], (reset_contents s hb) as [Es' Ec'].
  split; [|done|done|congruence]. apply carries_contents; [done|done|congruence].
Qed.

Lemma reset_durable s hb :
  durable s → wal_frame_count (r_wal s) = 0%N →
  encode_configuration_state (r_configuration s) = Ok (r_configuration_file s) →
  encode_recorded_head (r_cluster_id s) (r_epoch s) (r_configuration s) (r_recorded_head s) []
    (wal_checkpoint wal_default) = Ok hb →
  durable (reset_state s hb).
Proof.
  intros Hd H0 Hc Hh. pose proof (quiet_inv _ _ (reset_quiet s hb Hd H0) (d_inv s Hd)) as Hi.
  destruct (empty_contents s Hd H0) as [Es _], (reset_contents s hb) as [Es' Ec'].
  destruct Hd as [_ Hid Hl Hg Htc (Hth & Hmx & Hev) Ha Hf Hs _]. rewrite Es in Hev.
  split; rewrite ?Es', ?Ec'; try done.
  exists (r_configuration s), (r_recorded_head s). split.
  - by apply (checkpointed_fresh (reset_state s hb)).
  - exists [], []. split_and!; try done; constructor.
Qed.

(** Only the greatest slot changes the structure of a configuration. *)
Lemma structural_max c st change v c' :
  gate_inv c → gate_open c (ss_slot st) change → transition_after_apply c st change (Some v) = Ok c' →
  configuration_structure_changed c c' = true → rc_max_slot c' = Some (ss_slot st).
Proof.
  intros [Gs Gp Gi] Ho Ht Hch. pose proof (transition_keeps _ _ _ _ _ Ht) as (Ei & Ed & Em & Ep & Ex & _).
  rewrite Ex. destruct (rc_max_slot c) as [mx|] eqn:Hmx; [|done]. f_equal.
  enough (mx ≤ ss_slot st)%N by lia.
  destruct (is_stop change) eqn:Hst; [by eapply (o_stop _ _ _ Ho)|].
  destruct (rc_activated c) eqn:Ha.
  2:{ destruct (o_inactive _ _ _ Ho Ha) as (p & Hp & -> & _), (Gi eq_refl) as (p' & Hp' & _ & Hm).
      rewrite Hp in Hp'. apply (inj Some) in Hp' as <-. destruct Hm as [?|Hm]; [done|].
      apply (inj Some) in Hm. lia. }
  unfold configuration_structure_changed in Hch.
  rewrite Ei, Ed, Em, Ep, Ha, !neqb_refl in Hch. cbn [orb] in Hch.
  unfold transition_after_apply in Ht. rewrite Hst in Ht. cbn [rc_seal set_max_slot] in Ht.
  assert (rc_seal c ≠ rc_seal c' ∨ rc_activated c' = false) as Hdiff.
  { rewrite orb_true_iff, !neqb_true in Hch. destruct Hch; [by left|right]. by destruct (rc_activated c'). }
  destruct (rc_seal c) as [seal|] eqn:Hs; cbn [option_holds] in Ht.
  2:{ destruct (eqb _ _), (_ && _); apply Ok_inj in Ht as <-; cbn in Hdiff; rewrite ?Hs, ?Ha in Hdiff; destruct Hdiff; congruence. }
  destruct (eqb (cs_stop_slot seal) (ss_slot st)) eqn:He; cbn [andb] in Ht.
  - rewrite eqb_true in He. rewrite <-He. specialize (Gs seal eq_refl). apply (inj Some) in Gs. lia.
  - destruct (eqb (ss_decided_proof st) None), (_ && _); apply Ok_inj in Ht as <-; cbn in Hdiff; rewrite ?Hs, ?Ha in Hdiff; destruct Hdiff; congruence.
Qed.

Lemma recover_intent_root cluster epoch c0 c st slots commands configuration head wal b cb ib hb :
  decode_transition_intent ib = Ok (ss_slot st, b, cb) → (blen ib ≤ MAX_TRANSITION_INTENT_BYTES)%N →
  decode_configuration_state cb = Ok c → decode_recorder_state b = Ok st →
  encode_recorded_head cluster epoch c (expected_head c st HeadEmpty) [] (wal_checkpoint wal_default) = Ok hb →
  recover_intent cluster epoch c0 (mkRoot configuration head wal (Some ib) None slots commands)
  = (Ok c, mkRoot (Some cb) (Some hb) wal None None (<[ss_slot st := b]> slots) commands).
Proof.
  intros Hi Hb Hc Hs Hh. unfold recover_intent.
  set (r := mkRoot _ _ _ _ _ _ _).
  assert (recover_configuration_head_intent r = (Ok (), r)) as Hr by done.
  rewrite (opening_bind_Ok _ _ _ _ _ Hr), root_bind, check_bind. unfold read_preflight_intent.
  subst r. cbn [root_intent]. rewrite read_bounded_ok by done. cbn [fmap result_fmap].
  rewrite check_bind, Hi. cbn beta iota. rewrite check_bind, Hc, check_bind, Hs. cbn beta iota zeta.
  rewrite !put_bind. fold (expected_head c st HeadEmpty). rewrite check_bind, Hh, !put_bind. done.
Qed.

Lemma preflight_intent commands ib cluster epoch c st b cb m :
  files_readable commands → decode_transition_intent ib = Ok (ss_slot st, b, cb) →
  decode_configuration_state cb = Ok c → decode_recorder_state b = Ok st →
  rc_membership c = Some m → m_digest m = rc_config_digest c →
  ss_cluster_id st = cluster → ss_epoch st = epoch → ss_config_id st = rc_config_id c →
  ss_config_digest st = rc_config_digest c →
  (∀ w, w ∈ recorder_state_values st →
     value_backed commands cluster (ss_slot st) epoch (rc_config_id c) w) →
  validate_recoverable_transition_intent commands ib cluster epoch (rc_config_id c) m = Ok ().
Proof.
  intros Hf Hi Hc Hs Hm Hd E1 E2 E3 E4 Hv. unfold validate_recoverable_transition_intent.
  rewrite Hi. cbn [mbind result_bind]. rewrite Hc. cbn [mbind result_bind].
  unfold validate_preflight_configuration. rewrite Hm, Hd, !neqb_refl. cbn [orb reject_if mbind result_bind].
  rewrite Hs. cbn [mbind result_bind]. unfold state_identity_differs. rewrite E1, E2, E3, E4, !neqb_refl.
  cbn [orb reject_if mbind result_bind].
  destruct (collect_units (validate_existing_value (read_existing_command_cache commands) cluster
    (ss_slot st) epoch (rc_config_id c) ∅) (recorder_state_values st)) as (us & ->); [|done].
  intros w Hw. eapply validate_backed; [by intros ? ? ?; apply read_cache_ok| |].
  - intros ? ?. by rewrite lookup_empty.
  - rewrite fmap_empty, (left_id_L ∅ (∪)). by apply Hv.
Qed.

(** The length of a head does not depend on the checkpoint. *)
Lemma head_length cluster epoch c h cp cp' b b' :
  encode_recorded_head cluster epoch c h [] cp = Ok b → encode_recorded_head cluster epoch c h [] cp' = Ok b' →
  blen b' = blen b.
Proof.
  unfold encode_recorded_head. intros Hb Hb'.
  apply bind_Ok_inv in Hb as (? & _ & Hb). apply bind_Ok_inv in Hb' as (? & _ & Hb').
  apply bind_Ok_inv in Hb as (cl & Hcl & Hb). rewrite Hcl in Hb'. cbn [mbind result_bind] in Hb'.
  cbn [put_all mbind result_bind] in Hb, Hb'. apply Ok_inj in Hb as <-. apply Ok_inj in Hb' as <-.
  unfold with_digest, put_u64. rewrite !blen_app, !blen_as_bytes. blen_lia.
Qed.

Lemma intent_length slot x y e :
  encode_transition_intent slot x y = Ok e → (blen e ≤ MAX_TRANSITION_INTENT_BYTES)%N.
Proof.
  intros He. unfold encode_transition_intent, put_bytes in He.
  apply bind_Ok_inv in He as (px & Hx & He). apply bind_Ok_inv in Hx as (? & Hux%reject_if_Ok & Hx).
  apply bind_Ok_inv in He as (py & Hy & He). apply bind_Ok_inv in Hy as (? & Huy%reject_if_Ok & Hy).
  apply Ok_inj in Hx as <-. apply Ok_inj in Hy as <-. apply Ok_inj in He as <-.
  rewrite negb_false_iff in Hux, Huy. apply N.leb_le in Hux, Huy.
  unfold with_digest. rewrite !blen_app, blen_as_bytes.
  unfold MAX_TRANSITION_INTENT_BYTES, MAX_RECORDER_STATE_BYTES, MAX_CONFIGURATION_BYTES, u16_max, put_u16, put_u64 in *.
  change (blen (lit "QINT")) with 4%N. blen_lia.
Qed.

Lemma reopen_same s s' m existing_only r :
  same_identity s s' → rc_config_id (r_configuration s') = rc_config_id (r_configuration s) →
  reopen s m existing_only r = reopen s' m existing_only r.
Proof. intros (E1 & E2 & E3) E4. unfold reopen. by rewrite E1, E2, E3, E4. Qed.

(** A root with an intent opens as the recorder that the intent leads to. *)
Lemma intent_reopens s m existing_only configuration head ib st b c slots :
  durable s → within_bounds s → r_wal s = wal_default → rc_membership (r_configuration s) = Some m →
  encode_configuration_state (r_configuration s) = Ok (r_configuration_file s) →
  encode_recorded_head (r_cluster_id s) (r_epoch s) (r_configuration s) (r_recorded_head s) []
    (wal_checkpoint wal_default) = Ok (r_head_file s) →
  expected_head (r_configuration s) st HeadEmpty = r_recorded_head s →
  encode_transition_intent (ss_slot st) b (r_configuration_file s) = Ok ib → is_u64 (ss_slot st) = true →
  decode_recorder_state b = Ok st → ss_config_id st = rc_config_id (r_configuration s) →
  decode_configuration_state configuration = Ok c → configuration_typed c →
  (blen configuration ≤ MAX_CONFIGURATION_BYTES)%N →
  <[ss_slot st := b]> slots = r_slot_files s →
  reopen s m existing_only
    (mkRoot (Some configuration) head (Some []) (Some ib) None slots (r_command_files s))
  = (Ok s, root_of s).
Proof.
  intros Hd Hb Hw Hm Hce Hhe Hh Hib Hk Hs Hid Hc Htc Hbc Hsl.
  assert (decode_configuration_state (r_configuration_file s) = Ok (r_configuration s)) as Hdc.
  { apply configuration_reads; [apply (d_configuration s Hd)|done|].
    etransitivity; [apply (wb_configuration s Hb)|]. by apply N.leb_le. }
  pose proof (intent_length _ _ _ _ Hib) as Hbi.
  assert (decode_transition_intent ib = Ok (ss_slot st, b, r_configuration_file s)) as Hdi.
  { eapply transition_intent_reads; [done|done|]. etransitivity; [exact Hbi|]. by apply N.leb_le. }
  destruct (d_files s Hd (ss_slot st) b) as (st' & Hst' & _ & E1 & E2 & _ & Hbk);
    [rewrite <-Hsl; apply lookup_insert_eq|].
  rewrite Hs in Hst'. apply Ok_inj in Hst' as <-. destruct (Hbk Hid) as [Edg _ Hv]. rewrite E1, E2 in Hv.
  assert (m_digest m = rc_config_digest (r_configuration s)) as Hmd.
  { destruct (d_configuration s Hd) as [_ Ht]. unfold membership_typed in Ht. rewrite Hm in Ht. naive_solver. }
  eapply (reopen_recovered s _ m existing_only Recoverable); [done|done|done|done| | |done].
  - split; [done|]. eexists _, configuration, c. split_and!; [done|done|done|done| |].
    { destruct Htc as [_ Ht]. unfold membership_typed in Ht. destruct (rc_membership c); [|done]. cbn.
      rewrite neqb_false. naive_solver. }
    erewrite recover_intent_root; [|done..|rewrite Hh; done]. rewrite Hsl. unfold root_of. by rewrite Hw.
  - unfold preflight_existing_with_membership_outcome, read_preflight_intent.
    assert (root_is_empty (mkRoot (Some configuration) head (Some []) (Some ib) None slots (r_command_files s))
            = false) as ->.
    { unfold root_is_empty. cbn [root_configuration].
      assert (eqb (Some configuration) None = false) as -> by (by apply eqb_false). done. }
    cbn [root_intent root_head_intent root_commands root_wal]. rewrite (read_bounded_ok ib) by done.
    cbn [fmap result_fmap mbind result_bind].
    rewrite (preflight_intent _ _ _ _ (r_configuration s) st b (r_configuration_file s) m); try done.
    by eapply files_readable_durable; [apply Hd|done|apply Hd].
Qed.

(** The next write of a list happened or not. *)
Ltac next_write Hc :=
  apply crashed_cons in Hc as [->|[(? & ? & ? & ? & _)|(? & -> & Hc)]]; [|done|].

Lemma transition_crash s st c change v b cb hb ib p m existing_only :
  durable s → wal_frame_count (r_wal s) = 0%N → wal_file (r_wal s) = [] →
  slot_write s st c None change v → configuration_structure_changed (r_configuration s) c = true →
  encode_recorder_state st = Ok b → (blen b ≤ u64_max)%N →
  encode_transition_intent (ss_slot st) b cb = Ok ib → encode_configuration_state c = Ok cb →
  encode_recorded_head (r_cluster_id s) (r_epoch s) c (expected_head c st (r_recorded_head s)) []
    (wal_checkpoint (r_wal s)) = Ok hb →
  let s' := committed_state s c (expected_head c st (r_recorded_head s))
              (<[ss_slot st := b]> (r_slot_files s)) cb hb in
  durable s' → within_bounds s → within_bounds s' → rc_membership (r_configuration s) = Some m →
  crashed (transition_writes (ss_slot st) b cb hb ib) p →
  ∃ s'', reopen s m existing_only (writes p (root_of s)) = (Ok s'', root_of s'')
    ∧ durable s'' ∧ (s'' = s ∨ quiet s' s'').
Proof.
  intros Hd H0 Hf Hw Hstr Hb Hlen Hib Hcb Hhb s' Hd' Hbd Hbd' Hm Hc.
  pose proof (transition_keeps _ _ _ _ _ (sw_transition _ _ _ _ _ _ Hw)) as (Ei & Edg & Em & _).
  destruct (sw_identity _ _ _ _ _ _ Hw) as (E1 & E2 & E3 & E4).
  assert (expected_head c st HeadEmpty = expected_head c st (r_recorded_head s)) as Eh.
  { unfold expected_head. rewrite (structural_max _ _ _ _ _ (i_gate s (d_inv s Hd)) (sw_gate _ _ _ _ _ _ Hw)
      (sw_transition _ _ _ _ _ _ Hw) Hstr), eqb_refl.
    destruct (Nat.eqb_spec (length (recorder_state_values st)) 0) as [Hz|]; [|done].
    apply length_zero_iff_nil, valued_values in Hz; [done|apply Hw]. }
  destruct (head_encodes _ _ _ _ _ _ c (expected_head c st (r_recorded_head s)) (wal_checkpoint wal_default) Hhb)
    as (hb1 & Hhb1).
  set (s2 := reset_state s' hb1).
  assert (durable s2) as Hd2 by (by apply reset_durable).
  assert (within_bounds s2) as Hb2.
  { destruct Hbd'. split; try done. cbn. rewrite (head_length _ _ _ _ _ _ _ _ Hhb Hhb1). done. }
  assert (∀ configuration head slots,
    configuration = r_configuration_file s ∨ configuration = cb →
    slots = r_slot_files s ∨ slots = <[ss_slot st := b]> (r_slot_files s) →
    ∃ s'', reopen s m existing_only (mkRoot (Some configuration) head (Some []) (Some ib) None slots
      (r_command_files s)) = (Ok s'', root_of s'') ∧ durable s'' ∧ (s'' = s ∨ quiet s' s'')) as Hmid.
  { intros configuration head slots Hconf Hsl. exists s2.
    split; [|split; [done|right; by apply reset_quiet]].
    assert (∃ c1, decode_configuration_state configuration = Ok c1 ∧ configuration_typed c1
      ∧ (blen configuration ≤ MAX_CONFIGURATION_BYTES)%N) as (c1 & Hc1 & Ht1 & Hb1).
    { destruct Hconf as [->| ->]; [|exists c; split_and!; [|apply Hd'|apply Hbd']].
      - destruct (d_checkpoint s Hd) as (c0 & h0 & Hcp & _). destruct (cp_configuration _ _ _ Hcp) as (f & Hfe & Htf & _).
        exists f. split_and!; [|done|apply Hbd]. apply configuration_reads; [done|done|].
        etransitivity; [apply (wb_configuration s Hbd)|]. by apply N.leb_le.
      - apply configuration_reads; [apply (d_configuration s' Hd')|done|].
        etransitivity; [apply (wb_configuration s' Hbd')|]. by apply N.leb_le. }
    rewrite (reopen_same s s2) by done. change (r_command_files s) with (r_command_files s2).
    eapply intent_reopens; try done.
    - change (rc_membership c = Some m). by rewrite Em.
    - apply slot_typed_slot. apply (sw_readable _ _ _ _ _ _ Hw).
    - destruct (sw_readable _ _ _ _ _ _ Hw). by eapply recorder_state_reads.
    - change (ss_config_id st = rc_config_id c). by rewrite E3.
    - destruct Hsl as [->| ->]; [done|]. apply insert_insert_eq. }
  unfold transition_writes in Hc.
  assert (Hroot : root_of s = mkRoot (Some (r_configuration_file s)) (Some (r_head_file s)) (Some []) None None
    (r_slot_files s) (r_command_files s)) by (unfold root_of; by rewrite Hf).
  next_write Hc; [exists s; split; [by apply reopen_durable|auto]|rewrite Hroot].
  next_write Hc; [by apply Hmid; left|].
  next_write Hc; [by apply Hmid; [left|right]|].
  next_write Hc; [by apply Hmid; right|].
  next_write Hc; [by apply Hmid; right|].
  apply crashed_nil in Hc as ->. exists s'. split; [|split; [done|right; reflexivity]].
  rewrite (reopen_same s s') by done.
  replace (writes _ _) with (root_of s') by (unfold root_of; cbn; by rewrite Hf).
  apply reopen_durable; [done|done|]. change (rc_membership c = Some m). by rewrite Em.
Qed.

(** ** An interrupted change of the configuration *)

Lemma head_intent_length cb hb :
  (blen cb ≤ MAX_CONFIGURATION_BYTES)%N → (blen hb ≤ MAX_RECORDED_HEAD_BYTES)%N →
  (blen (encode_configuration_head_intent cb hb) ≤ MAX_CONFIGURATION_HEAD_INTENT_BYTES)%N.
Proof.
  intros Hc Hh. unfold encode_configuration_head_intent, MAX_CONFIGURATION_HEAD_INTENT_BYTES, put_u16, put_u64.
  change CONFIGURATION_HEAD_INTENT_MAGIC with (lit "QCHI"). change (blen (lit "QCHI")) with 4%N.
  rewrite !blen_app. change (blen (lit "QCHI")) with 4%N. autorewrite with blen. lia.
Qed.

(** A root with a configuration-head intent opens as the recorder it leads to. *)
Lemma head_intent_reopens s m existing_only configuration head :
  durable s → within_bounds s → wal_frame_count (r_wal s) = 0%N → wal_file (r_wal s) = [] →
  rc_membership (r_configuration s) = Some m →
  encode_configuration_state (r_configuration s) = Ok (r_configuration_file s) →
  encode_recorded_head (r_cluster_id s) (r_epoch s) (r_configuration s) (r_recorded_head s) []
    (wal_checkpoint (r_wal s)) = Ok (r_head_file s) →
  reopen s m existing_only
    (mkRoot (Some configuration) head (Some []) None
       (Some (encode_configuration_head_intent (r_configuration_file s) (r_head_file s)))
       (r_slot_files s) (r_command_files s))
  = (Ok s, root_of s).
Proof.
  intros Hd Hb H0 Hf Hm Hce Hhe.
  assert (checkpointed s (r_configuration s) (r_recorded_head s)) as Hcp.
  { destruct (d_head s Hd) as (? & ? & Hev). destruct (empty_contents s Hd H0) as [Es _]. rewrite Es in Hev.
    apply checkpointed_fresh; try done. apply Hd. }
  assert (decode_configuration_state (r_configuration_file s) = Ok (r_configuration s)) as Hdc.
  { apply configuration_reads; [apply (d_configuration s Hd)|done|].
    etransitivity; [apply (wb_configuration s Hb)|]. by apply N.leb_le. }
  pose proof (decode_checkpointed s _ _ Hd Hb Hcp) as (f & Hdf & _ & _ & Hdh).
  rewrite Hdc in Hdf. apply Ok_inj in Hdf as <-.
  pose proof (head_intent_length _ _ (wb_configuration s Hb) (wb_head s Hb)) as Hbi.
  set (ib := encode_configuration_head_intent _ _) in *.
  assert (decode_configuration_head_intent ib = Ok (r_configuration_file s, r_head_file s)) as Hdi.
  { apply configuration_head_intent_reads. etransitivity; [exact Hbi|]. by apply N.leb_le. }
  assert (m_digest m = rc_config_digest (r_configuration s)) as Hmd.
  { destruct (d_configuration s Hd) as [_ Ht]. unfold membership_typed in Ht. rewrite Hm in Ht. naive_solver. }
  set (r := mkRoot _ _ _ _ _ _ _).
  assert (recover_configuration_head_intent r = (Ok (), root_of s)) as Hrec.
  { unfold recover_configuration_head_intent. rewrite root_bind, check_bind. unfold read_preflight_intent.
    cbn [r root_head_intent]. rewrite (read_bounded_ok ib) by done. cbn [fmap result_fmap].
    rewrite check_bind, Hdi. cbn beta iota. rewrite !put_bind. unfold root_of. rewrite Hf. done. }
  eapply (reopen_recovered s _ m existing_only Recoverable); [done|done|done|done| | |done].
  - split; [done|]. exists (root_of s), (r_configuration_file s), (r_configuration s).
    split_and!; [done|done|apply Hb|done| |done].
    rewrite Hm. cbn. by apply neqb_false.
  - unfold preflight_existing_with_membership_outcome, read_preflight_intent.
    assert (root_is_empty r = false) as ->.
    { unfold root_is_empty. cbn [root_configuration r].
      assert (eqb (Some configuration) None = false) as -> by (by apply eqb_false). done. }
    cbn [root_intent root_head_intent root_commands root_wal r]. cbn [mbind result_bind].
    rewrite (read_bounded_ok ib) by done. cbn [fmap result_fmap mbind result_bind].
    unfold validate_recoverable_configuration_head_intent. rewrite Hdi. cbn [mbind result_bind].
    rewrite Hdc. cbn [mbind result_bind]. unfold validate_preflight_configuration.
    rewrite Hm, Hmd, !neqb_refl. cbn [orb reject_if mbind result_bind]. rewrite Hdh. done.
Qed.

Lemma head_crash s c head cb hb p existing_only :
  durable s → wal_frame_count (r_wal s) = 0%N → wal_file (r_wal s) = [] →
  encode_configuration_state c = Ok cb →
  encode_recorded_head (r_cluster_id s) (r_epoch s) c head [] (wal_checkpoint (r_wal s)) = Ok hb →
  let s' := committed_state s c head (r_slot_files s) cb hb in
  durable s' → within_bounds s → within_bounds s' → crashed (configuration_head_writes cb hb) p →
  ∃ s'', (∀ m, rc_membership (r_configuration s'') = Some m →
            reopen s'' m existing_only (writes p (root_of s)) = (Ok s'', root_of s''))
    ∧ durable s'' ∧ (s'' = s ∨ s'' = s').
Proof.
  intros Hd H0 Hf Hcb Hhb s' Hd' Hb Hb' Hc. unfold configuration_head_writes in Hc.
  assert (Hroot : root_of s = mkRoot (Some (r_configuration_file s)) (Some (r_head_file s)) (Some []) None None
    (r_slot_files s) (r_command_files s)) by (unfold root_of; by rewrite Hf).
  next_write Hc; [exists s; split; [intros; by apply reopen_durable|auto]|rewrite Hroot].
  next_write Hc; [exists s'; split; [intros; by apply (head_intent_reopens s')|auto]|].
  next_write Hc; [exists s'; split; [intros; by apply (head_intent_reopens s')|auto]|].
  next_write Hc; [exists s'; split; [intros; by apply (head_intent_reopens s')|auto]|].
  apply crashed_nil in Hc as ->. exists s'. split; [|auto].
  replace (writes _ _) with (root_of s') by (unfold root_of; cbn; by rewrite Hf).
  intros m Hm. by apply reopen_durable.
Qed.

(** ** The writes of an operation *)

(** The head on disk stands for a slot that was recovered from a checkpoint. *)
Definition disk_checkpoint_backed (s : RecorderFileStore) : bool :=
  match decode_recorded_head (r_head_file s) (r_cluster_id s) (r_epoch s) (r_configuration s) with
  | Ok (h, _, _) => checkpoint_backed h
  | Err _ => false
  end.

Inductive checkpoint_files (s s' : RecorderFileStore) : list FileWrite → Prop :=
| files_nothing : wal_frame_count (r_wal s) = 0%N → checkpoint_files s s' []
| files_checkpoint commands slots :
    wal_frame_count (r_wal s) ≠ 0%N →
    commands ≡ₚ map_to_list (wal_commands (r_wal s)) → slots ≡ₚ map_to_list (wal_slots (r_wal s)) →
    checkpoint_files s s' (checkpoint_writes commands slots (r_configuration_file s') (r_head_file s')).

Definition command_writes (s : RecorderFileStore) (command : option (LogHash * StoredCommand)) :
    list FileWrite :=
  match command with
  | Some (hash, command) =>
      match wal_commands (r_wal s) !! hash, r_command_files s !! hash with
      | None, None => [WriteCommand hash (encode_stored_command command)]
      | _, _ => []
      end
  | None => []
  end.

(** The command that is new in the files of [s']. *)
Inductive command_files (s s' : RecorderFileStore) : list FileWrite → Prop :=
| files_no_command : r_command_files s' = r_command_files s → command_files s s' []
| files_command hash b :
    r_command_files s !! hash = None → r_command_files s' = <[hash := b]> (r_command_files s) →
    command_files s s' [WriteCommand hash b].

(** [persist_state_transition_with_command_unlocked], from [s] to [s'], in its two cases. *)
Inductive persist_files (slot : N) (s s' : RecorderFileStore) : list FileWrite → Prop :=
| files_append s1 l1 frame :
    configuration_structure_changed (r_configuration s) (r_configuration s') = false →
    (if log_full s then checkpoint_wal_unlocked s = (Ok (), s1) ∧ checkpoint_files s s1 l1
     else s1 = s ∧ l1 = []) →
    wal_file (r_wal s') = wal_file (r_wal s1) ++ frame →
    persist_files slot s s' (l1 ++ [AppendWal frame])
| files_commit s1 l1 l2 b ib :
    configuration_structure_changed (r_configuration s) (r_configuration s') = true →
    checkpoint_wal_unlocked s = (Ok (), s1) → checkpoint_files s s1 l1 → command_files s1 s' l2 →
    r_slot_files s' !! slot = Some b →
    encode_transition_intent slot b (r_configuration_file s') = Ok ib →
    persist_files slot s s'
      (l1 ++ l2 ++ transition_writes slot b (r_configuration_file s') (r_head_file s') ib).

(** [install_successor_from_proof] and [recover_successor_activation_from_checkpoint]. *)
Inductive reconfigure_files (s s' : RecorderFileStore) : list FileWrite → Prop :=
| files_reconfigure s1 l1 l2 :
    checkpoint_wal_unlocked s = (Ok (), s1) → checkpoint_files s s1 l1 → command_files s1 s' l2 →
    reconfigure_files s s'
      (l1 ++ l2 ++ configuration_head_writes (r_configuration_file s') (r_head_file s')).

Lemma disk_backed_head s c h :
  durable s → within_bounds s → checkpointed s c h → disk_checkpoint_backed s = checkpoint_backed h.
Proof.
  intros Hd Hb Hcp. destruct (decode_checkpointed s c h Hd Hb Hcp) as (f & _ & Hcf & _ & Hdh).
  pose proof (structure_same _ _ (cp_structure _ _ _ Hcp)) as (Ei & Ed & _). subst c. cbn in Ei, Ed.
  unfold disk_checkpoint_backed.
  assert (decode_recorded_head (r_head_file s) (r_cluster_id s) (r_epoch s) (r_configuration s)
    = decode_recorded_head (r_head_file s) (r_cluster_id s) (r_epoch s) f) as ->.
  { unfold decode_recorded_head. by rewrite Ei, Ed. }
  by rewrite Hdh.
Qed.

Lemma checkpoint_step_crash s s1 l p :
  durable s → checkpoint_wal_unlocked s = (Ok (), s1) → checkpoint_files s s1 l →
  disk_checkpoint_backed s = false → within_bounds s → within_bounds s1 → crashed l p →
  (∃ s'', writes p (root_of s) = root_of s'' ∧ durable s'' ∧ quiet s s'' ∧ within_bounds s'').
Proof.
  intros Hd Hc Hl Hbk Hb Hb1 Hp.
  destruct Hl as [H0|commands slots H0 Hcs Hss].
  { apply crashed_nil in Hp as ->. by exists s. }
  apply checkpoint_cases in Hc as [(? & _)|[(? & ? & _)|(_ & _ & g & cb & hb & Hg & Hcb & Hhb & ->)]]; [done|done| |done].
  destruct (checkpoint_crash s commands slots g cb hb p) as (s'' & ? & ? & ? & ?); try done; [|by eauto 10].
  intros c h Hcp. by rewrite <-(disk_backed_head s c h).
Qed.

Lemma checkpoint_step_files s s1 l :
  durable s → checkpoint_wal_unlocked s = (Ok (), s1) → checkpoint_files s s1 l →
  writes l (root_of s) = root_of s1.
Proof.
  intros Hd Hc Hl.
  apply checkpoint_cases in Hc as [(H0 & _ & ->)|[(? & ? & _)|(Hn & _ & g & cb & hb & _ & _ & _ & ->)]]; [|done| |done];
    destruct Hl as [?|commands slots ? Hcs Hss]; try done.
  by apply (checkpoint_writes_files s commands slots g cb hb).
Qed.

Lemma command_step_files s s' h x :
  store_command_unlocked h x s = (Ok (), s') →
  writes (command_writes s (Some (h, x))) (root_of s) = root_of s'.
Proof.
  intros Hr. cbn. destruct (wal_commands (r_wal s) !! h) as [y|] eqn:Hw.
  - by apply store_command_shape in Hr as [->|(Hw' & _)]; [|rewrite Hw in Hw'].
  - destruct (r_command_files s !! h) as [b|] eqn:Hf.
    + by apply store_command_shape in Hr as [->|(_ & Hf' & _)]; [|rewrite Hf in Hf'].
    + unfold store_command_unlocked in Hr. apply call_bind_Ok in Hr as (u & s1 & Hl & Hr).
      apply read_only_lift in Hl as ->. rewrite store_bind, Hw in Hr.
      unfold stage_command_unlocked in Hr. rewrite store_bind, Hf in Hr. unfold update in Hr.
      by apply pair_eq in Hr as [_ <-].
Qed.

Lemma command_writes_crash s command p :
  crashed (command_writes s command) p → p = [] ∨ p = command_writes s command.
Proof.
  destruct command as [[h x]|]; cbn; [|by intros ->%crashed_nil; left].
  destruct (wal_commands (r_wal s) !! h), (r_command_files s !! h); intros Hc;
    try (by apply crashed_nil in Hc as ->; left).
  next_write Hc; [by left|]. apply crashed_nil in Hc as ->. by right.
Qed.

(** ** Interrupted operations *)

Lemma append_step_crash s1 st c command change v frame d b p m existing_only s' :
  durable s1 → slot_write s1 st c command change v →
  configuration_structure_changed (r_configuration s1) c = false →
  encode_wal_frame (wc_generation (wal_checkpoint (r_wal s1))) (wal_next_sequence (r_wal s1))
    (wal_last_digest (r_wal s1)) st c (expected_head c st (r_recorded_head s1)) command = Ok (frame, d, b) →
  (wal_next_sequence (r_wal s1) + 1 ≤ u64_max)%N →
  s' = appended_state s1 st c command frame d b → recorder_inv s' → within_bounds s' →
  rc_membership (r_configuration s1) = Some m → crashed [AppendWal frame] p →
  ∃ s'', reopen s1 m existing_only (writes p (root_of s1)) = (Ok s'', root_of s'')
    ∧ durable s'' ∧ (s'' = s1 ∨ s'' = s').
Proof.
  intros Hd Hw Hstr He Hsq -> Hi [B1 B2 B3 B4 B5] Hm Hc. cbn in B1, B2, B3, B4, B5.
  assert (within_bounds s1) as Hb.
  { split; try done. rewrite blen_app in B3. lia. }
  assert (∃ part rest, frame = part ++ rest ∧ writes p (root_of s1) = write (AppendWal part) (root_of s1))
    as (part & rest & Hf & ->).
  { apply crashed_cons in Hc as [->|[(f & part & rest & [= <-] & Hf & ->)|(p' & -> & ->%crashed_nil)]].
    - exists [], frame. split; [done|]. unfold root_of. cbn. by rewrite app_nil_r.
    - by exists part, rest.
    - exists frame, []. by rewrite app_nil_r. }
  by eapply append_crash.
Qed.

Lemma quiet_reopen s s1 m existing_only r :
  quiet s s1 → reopen s m existing_only r = reopen s1 m existing_only r.
Proof. intros Hq. apply reopen_same; [apply Hq|]. by rewrite (q_configuration _ _ Hq). Qed.

Lemma slot_write_quiet s s1 st c command change v :
  quiet s s1 → commands_of s1 = commands_of s →
  slot_write s st c command change v → slot_write s1 st c command change v.
Proof. intros [[(_ & E1 & E2) _ _ _] Ec _ _] Ek. by apply slot_write_same. Qed.

Lemma checkpoint_commands s s1 :
  durable s → checkpoint_wal_unlocked s = (Ok (), s1) → commands_of s1 = commands_of s.
Proof.
  intros Hd [(_ & _ & ->)|[(? & ? & _)|(_ & _ & g & cb & hb & _ & _ & _ & ->)]]%checkpoint_cases; [done|done| |done].
  apply checkpointed_state_contents.
Qed.

(** What an interrupted operation comes to: nothing of it or all of it. *)
Definition lost_or_done (s s' s'' : RecorderFileStore) : Prop := quiet s s'' ∨ quiet s' s''.

(** A checkpoint that precedes other writes. *)
Lemma after_checkpoint_crash s s1 l1 l2 p (P : RecorderRoot → RecorderFileStore → Prop) :
  durable s → checkpoint_wal_unlocked s = (Ok (), s1) → checkpoint_files s s1 l1 →
  disk_checkpoint_backed s = false → within_bounds s → within_bounds s1 → crashed (l1 ++ l2) p →
  (∀ s'', durable s'' → within_bounds s'' → quiet s s'' → ∃ t, P (root_of s'') t) →
  (∀ p2, crashed l2 p2 → ∃ t, P (writes p2 (root_of s1)) t) →
  ∃ t, P (writes p (root_of s)) t.
Proof.
  intros Hd Hc Hl Hbk Hb Hb1 Hp H1 H2.
  apply crashed_app in Hp as [Hp|(p2 & Hp & ->)].
  - destruct (checkpoint_step_crash s s1 l1 p) as (s'' & -> & ? & ? & ?); try done. by apply H1.
  - rewrite writes_app, (checkpoint_step_files s s1 l1) by done. by apply H2.
Qed.

Lemma persist_append_crash st c command change v s s' l1 l2 s1 frame p m existing_only :
  durable s → slot_write s st c command change v →
  persist_state_transition_with_command_unlocked st (r_configuration s) c command s = (Ok (), s') →
  configuration_structure_changed (r_configuration s) c = false →
  (if log_full s then checkpoint_wal_unlocked s = (Ok (), s1) ∧ checkpoint_files s s1 l1
   else s1 = s ∧ l1 = []) →
  wal_file (r_wal s') = wal_file (r_wal s1) ++ frame → l2 = [AppendWal frame] →
  disk_checkpoint_backed s = false → within_bounds s → within_bounds s' →
  rc_membership (r_configuration s) = Some m → crashed (l1 ++ l2) p → recorder_inv s' →
  ∃ s'', reopen s m existing_only (writes p (root_of s)) = (Ok s'', root_of s'')
    ∧ durable s'' ∧ lost_or_done s s' s''.
Proof.
  intros Hd Hw Hp Hstr Hs1 Hfile -> Hbk Hb Hb' Hm Hc Hi.
  unfold persist_state_transition_with_command_unlocked in Hp. rewrite Hstr, store_bind in Hp. cbn zeta in Hp.
  apply call_bind_Ok in Hp as ([] & s0 & Ha & Hp). unfold update in Hp. apply pair_eq in Hp as [_ Hs'].
  apply append_shape in Ha as [(e & ?)|[(e & ? & _)|(_ & s1' & frame' & d & b & Hs1' & He & Hsq & ->)]]; [done|done|].
  change (head_after_slot_state s c st) with (expected_head c st (r_recorded_head s)) in *.
  assert (s1' = s1 ∧ quiet s s1 ∧ durable s1 ∧ commands_of s1 = commands_of s
    ∧ (s1 = s ∧ l1 = [] ∨ checkpoint_wal_unlocked s = (Ok (), s1) ∧ checkpoint_files s s1 l1))
    as (-> & Hq1 & Hd1 & Ek & Hcase).
  { destruct (log_full s); [|destruct Hs1; subst; split_and!; auto; reflexivity]. destruct Hs1 as [Hs1 ?].
    rewrite Hs1 in Hs1'. apply pair_eq in Hs1' as [_ <-].
    split; [done|]. split; [by eapply checkpoint_quiet; [apply (i_wal s (d_inv s Hd))|]|].
    split; [by eapply checkpoint_durable|]. split; [by apply checkpoint_commands|by right]. }
  rewrite <-(q_head _ _ Hq1) in *. rewrite <-(q_configuration _ _ Hq1) in Hstr.
  assert (frame' = frame) as ->.
  { rewrite <-Hs' in Hfile. cbn in Hfile. by apply (inj (app (wal_file (r_wal s1)))) in Hfile. }
  assert (∀ p2, crashed [AppendWal frame] p2 →
    ∃ s'', reopen s m existing_only (writes p2 (root_of s1)) = (Ok s'', root_of s'')
      ∧ durable s'' ∧ lost_or_done s s' s'') as Hframe.
  { intros p2 Hc2. rewrite (quiet_reopen s s1 _ _ _ Hq1).
    eapply (append_step_crash s1) in Hc2 as (s'' & Hr & Hd'' & Hs''); try done.
    - exists s''. split; [exact Hr|]. split; [done|]. destruct Hs'' as [->| ->]; [by left|right; reflexivity].
    - by eapply slot_write_quiet.
    - by rewrite (q_configuration _ _ Hq1). }
  destruct Hcase as [[-> ->]|[Hck Hl]]; [by apply Hframe|].
  assert (within_bounds s1) as Hb1.
  { rewrite <-Hs' in Hb'. destruct Hb' as [? ? B3 ? ?]. split; try done. cbn in B3. rewrite blen_app in B3. lia. }
  apply (after_checkpoint_crash s s1 l1 [AppendWal frame] p (λ r s'', reopen s m existing_only r
    = (Ok s'', root_of s'') ∧ durable s'' ∧ lost_or_done s s' s'')); try done.
  intros s'' Hd'' Hb'' Hq. exists s''. split_and!; [|done|by left].
  rewrite (quiet_reopen s s'' _ _ _ Hq). apply reopen_durable; [done|done|]. by rewrite (q_configuration _ _ Hq).
Qed.

(** A command that is stored between a checkpoint and a commit. *)
Definition stored (command : option (LogHash * StoredCommand)) (s s' : RecorderFileStore) : Prop :=
  match command with Some (h, x) => store_command_unlocked h x s = (Ok (), s') | None => s' = s end.

Lemma stored_step command s s' :
  durable s → stored command s s' →
  durable s' ∧ quiet s s' ∧ r_wal s' = r_wal s
  ∧ writes (command_writes s command) (root_of s) = root_of s'
  ∧ r_configuration_file s' = r_configuration_file s ∧ r_head_file s' = r_head_file s
  ∧ r_slot_files s' = r_slot_files s.
Proof.
  intros Hd Hst. destruct command as [[h x]|]; cbn in Hst; [|by subst].
  split; [by eapply store_command_durable|]. split; [by eapply store_command_quiet|].
  split; [by eapply store_command_wal|]. split; [by apply command_step_files|].
  by apply store_command_shape in Hst as [->|(_ & _ & _ & ->)].
Qed.

(** The writes up to a commit, then those of the commit. *)
Lemma commit_crash command s s1 s2 l1 l2 p (P : RecorderRoot → RecorderFileStore → Prop) :
  durable s → checkpoint_wal_unlocked s = (Ok (), s1) → checkpoint_files s s1 l1 → stored command s1 s2 →
  disk_checkpoint_backed s = false → within_bounds s → within_bounds s1 → within_bounds s2 →
  crashed (l1 ++ command_writes s1 command ++ l2) p →
  (∀ s'', durable s'' → within_bounds s'' → quiet s s'' → ∃ t, P (root_of s'') t) →
  (∀ p2, crashed l2 p2 → ∃ t, P (writes p2 (root_of s2)) t) →
  ∃ t, P (writes p (root_of s)) t.
Proof.
  intros Hd Hck Hl Hst Hbk Hb Hb1 Hb2 Hp H1 H2.
  pose proof (checkpoint_durable _ _ _ Hd Hck) as [Hd1 _].
  pose proof (checkpoint_quiet _ _ _ (i_wal s (d_inv s Hd)) Hck) as [Hq1 _].
  destruct (stored_step _ _ _ Hd1 Hst) as (Hd2 & Hq2 & _ & Hw & _).
  apply (after_checkpoint_crash s s1 l1 (command_writes s1 command ++ l2) p P); try done.
  clear Hp. intros p2 [Hp|(p3 & Hp & ->)]%crashed_app.
  - apply command_writes_crash in Hp as [->| ->]; [by apply H1|].
    rewrite Hw. apply H1; [done|done|]. by etransitivity.
  - rewrite writes_app, Hw. by apply H2.
Qed.

(** The steps of a transition that is committed to the files. *)
Record transition_steps (st : RecorderSlotState) (c : RecorderConfiguration)
    (command : option (LogHash * StoredCommand)) (change : option ConfigChange) (v : AcceptedValue)
    (s s1 s2 s' : RecorderFileStore) (b cb hb ib : bytes) : Prop := {
  tr_stored : stored command s1 s2;
  tr_durable : durable s2 ∧ durable s';
  tr_quiet : quiet s s2;
  tr_log : r_wal s2 = r_wal s1 ∧ wal_frame_count (r_wal s2) = 0%N;
  tr_files : r_configuration_file s2 = r_configuration_file s1 ∧ r_head_file s2 = r_head_file s1
    ∧ r_slot_files s2 = r_slot_files s1;
  tr_write : slot_write s2 st c None change v;
  tr_encoded : encode_recorder_state st = Ok b ∧ (blen b ≤ u64_max)%N
    ∧ encode_transition_intent (ss_slot st) b cb = Ok ib ∧ encode_configuration_state c = Ok cb
    ∧ encode_recorded_head (r_cluster_id s2) (r_epoch s2) c (expected_head c st (r_recorded_head s2)) []
        (wal_checkpoint (r_wal s2)) = Ok hb;
  tr_result : s' = committed_state s2 c (expected_head c st (r_recorded_head s2))
    (<[ss_slot st := b]> (r_slot_files s2)) cb hb
}.

Lemma persist_transition_steps st c command change v s s1 s' :
  durable s → slot_write s st c command change v →
  persist_state_transition_with_command_unlocked st (r_configuration s) c command s = (Ok (), s') →
  configuration_structure_changed (r_configuration s) c = true →
  checkpoint_wal_unlocked s = (Ok (), s1) → recorder_inv s' →
  ∃ s2 b cb hb ib, transition_steps st c command change v s s1 s2 s' b cb hb ib.
Proof.
  intros Hd Hw Hp Hstr Hck Hi.
  unfold persist_state_transition_with_command_unlocked in Hp. rewrite Hstr in Hp.
  apply call_bind_Ok in Hp as ([] & s1' & Hck' & Hp). rewrite Hck in Hck'. apply pair_eq in Hck' as [_ <-].
  apply call_bind_Ok in Hp as ([] & s2 & Hst & Hp).
  assert (stored command s1 s2) as Hst'.
  { destruct command as [[h x]|]; [done|]. by apply read_only_mret in Hst as ->. }
  pose proof (checkpoint_durable _ _ _ Hd Hck) as [Hd1 H0]. specialize (H0 eq_refl).
  pose proof (checkpoint_quiet _ _ _ (i_wal s (d_inv s Hd)) Hck) as [Hq1 _].
  destruct (stored_step _ _ _ Hd1 Hst') as (Hd2 & Hq2 & Ew & _ & Ecf & Ehf & Esf).
  assert (quiet s s2) as Hq by (by etransitivity). rewrite <-Ew in H0.
  assert (slot_write s2 st c None change v) as Hw2.
  { eapply slot_write_stored; [done|apply Hq|apply Hq|by apply checkpoint_commands|apply (i_commands s1 (d_inv s1 Hd1))|done]. }
  assert (durable s') as Hd' by (by eapply commit_transition_durable).
  apply commit_transition_shape in Hp as [(? & ? & _)|(_ & b & cb & hb & ib & Hb & Hlen & Hib & Hcb & Hhb & Hs')]; [done|].
  exists s2, b, cb, hb, ib. by split.
Qed.

Lemma persist_commit_crash st c command change v s s' l1 s1 s2 b cb hb ib p m existing_only :
  durable s → transition_steps st c command change v s s1 s2 s' b cb hb ib →
  configuration_structure_changed (r_configuration s) c = true →
  checkpoint_wal_unlocked s = (Ok (), s1) → checkpoint_files s s1 l1 →
  disk_checkpoint_backed s = false → wal_file (r_wal s') = [] →
  within_bounds s → within_bounds s1 → within_bounds s' → rc_membership (r_configuration s) = Some m →
  crashed (l1 ++ command_writes s1 command ++ transition_writes (ss_slot st) b cb hb ib) p →
  ∃ s'', reopen s m existing_only (writes p (root_of s)) = (Ok s'', root_of s'')
    ∧ durable s'' ∧ lost_or_done s s' s''.
Proof.
  intros Hd [Hst [Hd2 Hd'] Hq [Ew H0] (Ecf & Ehf & Esf) Hw (Hb0 & Hlen & Hib & Hcb & Hhb) Hs'] Hstr Hck Hl
    Hbk Hf Hb Hb1 Hb' Hm Hc.
  assert (within_bounds s2) as Hb2.
  { destruct Hb1 as [? ? ? ? ?]. rewrite Hs' in Hb'. destruct Hb' as [_ _ ? ? _].
    split; rewrite ?Ecf, ?Ehf, ?Esf; done. }
  rewrite <-(q_configuration _ _ Hq) in Hstr, Hm.
  apply (commit_crash command s s1 s2 l1
    (transition_writes (ss_slot st) b cb hb ib) p (λ r s'', reopen s m existing_only r
    = (Ok s'', root_of s'') ∧ durable s'' ∧ lost_or_done s s' s'')); try done.
  - intros s'' Hd'' Hb3 Hq''. exists s''. split_and!; [|done|by left].
    rewrite (quiet_reopen s s'' _ _ _ Hq''). apply reopen_durable; [done|done|].
    by rewrite (q_configuration _ _ Hq''), <-(q_configuration _ _ Hq).
  - clear Hc. intros p2 Hc. rewrite (quiet_reopen s s2 _ _ _ Hq).
    rewrite Hs' in Hf, Hb', Hd'. cbn in Hf.
    destruct (transition_crash s2 st c change v b cb hb ib p2 m existing_only) as (s'' & Hr & Hd'' & Hs''); try done.
    exists s''. split; [done|]. split; [done|].
    destruct Hs'' as [->|Hq'']; [by left|]. right. by rewrite Hs'.
Qed.

Lemma command_files_writes command s1 s2 s' l :
  stored command s1 s2 → r_command_files s' = r_command_files s2 → command_files s1 s' l →
  l = command_writes s1 command.
Proof.
  intros Hst E Hl.
  assert ((command_writes s1 command = [] ∧ s2 = s1) ∨ ∃ h x, r_command_files s1 !! h = None
    ∧ command_writes s1 command = [WriteCommand h (encode_stored_command x)]
    ∧ r_command_files s2 = <[h := encode_stored_command x]> (r_command_files s1)) as Hcase.
  { destruct command as [[h x]|]; cbn in Hst |- *; [|by left].
    pose proof (command_step_files _ _ _ _ Hst) as Hw. cbn in Hw.
    pose proof (store_command_shape _ _ _ _ _ Hst) as Hs.
    destruct (wal_commands (r_wal s1) !! h) eqn:Hwc; [left; destruct Hs as [->|(? & _)]; done|].
    destruct (r_command_files s1 !! h) eqn:Hf; [left; destruct Hs as [->|(_ & ? & _)]; done|].
    right. exists h, x. split_and!; try done. by injection Hw as _ _ _ _ <-. }
  destruct Hcase as [[-> ->]|(h & x & Hn & -> & Hs2)], Hl as [He|h' b' Hn' He]; try done.
  - exfalso. rewrite E in He. apply (f_equal (lookup h')) in He. rewrite lookup_insert_eq in He. congruence.
  - exfalso. rewrite E, Hs2 in He. apply (f_equal (lookup h)) in He. rewrite lookup_insert_eq in He. congruence.
  - rewrite E, Hs2 in He. assert (h' = h) as ->.
    { destruct (decide (h' = h)) as [|Hne]; [done|]. apply (f_equal (lookup h')) in He.
      rewrite lookup_insert_ne, lookup_insert_eq in He by done. congruence. }
    apply (f_equal (lookup h)) in He. rewrite !lookup_insert_eq in He. by apply (inj Some) in He as ->.
Qed.

Lemma persist_crash st c command change v s s' l p m existing_only :
  durable s → slot_write s st c command change v →
  persist_state_transition_with_command_unlocked st (r_configuration s) c command s = (Ok (), s') →
  persist_files (ss_slot st) s s' l → crashed l p → disk_checkpoint_backed s = false →
  (configuration_structure_changed (r_configuration s) (r_configuration s') = true → wal_file (r_wal s') = []) →
  within_bounds s → (∀ s1, checkpoint_wal_unlocked s = (Ok (), s1) → within_bounds s1) → within_bounds s' →
  rc_membership (r_configuration s) = Some m →
  ∃ s'', reopen s m existing_only (writes p (root_of s)) = (Ok s'', root_of s'')
    ∧ durable s'' ∧ lost_or_done s s' s''.
Proof.
  intros Hd Hw Hp Hl Hc Hbk Hf Hb Hb1 Hb' Hm.
  pose proof (persist_outcome _ _ _ _ _ _ _ (i_wal s (d_inv s Hd)) (slot_write_filed _ _ _ _ _ _ Hw) Hp)
    as [[_ Hcom]|[(? & ? & _)|(? & ?)]]; [|done|done].
  assert (recorder_inv s') as Hi.
  { destruct Hw as [? (? & ? & ? & ?) ? ? ? ? ?]. eapply committed_inv; try done. by apply d_inv. }
  rewrite (k_configuration _ _ _ _ Hcom) in Hf.
  destruct Hl as [s1 l1 frame Hstr Hs1 Hfile|s1 l1 l2 b ib Hstr Hck Hl1 Hl2 Hslot Hib];
    rewrite (k_configuration _ _ _ _ Hcom) in Hstr.
  - by eapply persist_append_crash.
  - destruct (persist_transition_steps _ _ _ _ _ _ _ _ Hd Hw Hp Hstr Hck Hi) as (s2 & b' & cb & hb & ib' & Htr).
    assert (l2 = command_writes s1 command) as ->.
    { apply (command_files_writes command s1 s2 s'); [by destruct Htr| |done]. by destruct Htr as [_ _ _ _ _ _ _ ->]. }
    pose proof Htr as [_ _ _ _ _ _ (_ & _ & Hib' & _) Hs']. rewrite Hs' in Hslot, Hib, Hc. cbn in Hslot, Hib, Hc.
    rewrite lookup_insert_eq in Hslot. apply (inj Some) in Hslot as ->. rewrite Hib' in Hib. apply Ok_inj in Hib as ->.
    eapply persist_commit_crash; [done|exact Htr|done|exact Hck|done|done|by apply Hf|done|by apply Hb1|done|done|done].
Qed.

(** The slot that an operation writes. *)
Definition written_slot (op : RecorderOp) : option N :=
  match op with
  | OpRecord q => Some (rq_slot q)
  | OpInstallProof proof _ => Some (proof_context proof).1.1.1
  | _ => None
  end.

Lemma op_slot_write op s s' slot :
  durable s → op_safe op s → run_op op s = (Ok (), s') → s' ≠ s → written_slot op = Some slot →
  ∃ st c command change v, ss_slot st = slot ∧ slot_write s st c command change v
    ∧ persist_state_transition_with_command_unlocked st (r_configuration s) c command s = (Ok (), s').
Proof.
  intros Hd [Ht Hs] Hr Hne Hslot. pose proof (d_inv s Hd) as Hi.
  destruct op as [q|proof mem| | | | | |]; try done; cbn in Hslot, Hr, Ht, Hs; apply (inj Some) in Hslot as <-.
  - apply discard_cases in Hr as ([sm|e] & Hr & [[_ ?]|(? & ? & ?)]); try done.
    apply record_proposal_runs in Hr as [(e & ? & _)|(sm' & value & command & change & state & next & Hk & Hr)]; [done|].
    destruct Hr as [(_ & _ & ->)|(Hdec & c & r1 & Htr & Hp & Hr1)]; [done|]. destruct r1 as [[]|]; [|done].
    eexists next, c, _, change, value. split; [|split; [by eapply record_slot_write|exact Hp]].
    by destruct (record_checks_inv _ _ _ _ _ _ _ _ Hi Ht Hk) as (_ & _ & Es & _).
  - apply install_decision_proof_runs in Hr as [(e & ? & _)|(value & state & Hk & Hr)]; [done|].
    destruct Hr as [(_ & ? & _)|(Hdec & change & st1 & cert & c & ? & Hst1 & ? & ? & ? & Hp)]; [done|].
    eexists (with_certificate st1 cert), c, _, change, value.
    split; [|split; [by eapply install_slot_write|exact Hp]].
    destruct (install_checks_inv _ _ _ _ _ Hi Ht Hk) as (_ & _ & _ & _ & _ & Es & _).
    unfold slot_install_proof in Hst1. rewrite Hdec in Hst1. apply Ok_inj in Hst1 as <-.
    unfold with_certificate. cbn. by destruct (ss_decided state).
Qed.

(** The files before and after an operation, and after its checkpoint, are within
    the bounds of an opening. *)
Record bounded (s s' : RecorderFileStore) : Prop := {
  bo_before : within_bounds s;
  bo_checkpoint : ∀ s1, checkpoint_wal_unlocked s = (Ok (), s1) → within_bounds s1;
  bo_after : within_bounds s'
}.

(** An operation from [s] to [s'] that writes a slot is interrupted and leaves the
    root [r].  Left out are a head on disk that was recovered from a checkpoint
    and, for a transition, a log that still holds frames of an earlier generation. *)
Inductive interrupted (s s' : RecorderFileStore) (r : RecorderRoot) : Prop :=
| interrupted_write op slot l p :
    op_safe op s → run_op op s = (Ok (), s') → s' ≠ s → written_slot op = Some slot →
    persist_files slot s s' l → crashed l p → r = writes p (root_of s) →
    disk_checkpoint_backed s = false →
    (configuration_structure_changed (r_configuration s) (r_configuration s') = true →
       wal_file (r_wal s') = []) →
    bounded s s' → interrupted s s' r.

(** A recorder that was created for a cluster, has run operations since and was
    opened again after crashes in the middle of them. *)
Inductive running : RecorderFileStore → Prop :=
| running_new id cluster epoch config_id m s :
    new_with_membership id cluster epoch config_id m = Ok s →
    is_str cluster = true → is_u64 epoch = true → is_u64 config_id = true →
    membership_wf m → forallb is_str (m_members m) = true → m_digest m ≠ LogHash_ZERO → running s
| running_step s s' : running s → safe_step s s' → running s'
| running_crash s s' r m existing_only s'' :
    running s → interrupted s s' r → rc_membership (r_configuration s) = Some m →
    reopen s m existing_only r = (Ok s'', root_of s'') → running s''.

Lemma interrupted_durable s s' r m existing_only :
  durable s → interrupted s s' r → rc_membership (r_configuration s) = Some m →
  ∃ s'', reopen s m existing_only r = (Ok s'', root_of s'') ∧ durable s'' ∧ lost_or_done s s' s''.
Proof.
  intros Hd [op slot l p Hs Hr Hne Hslot Hl Hc -> Hbk Hf [Hb Hb1 Hb']] Hm.
  destruct (op_slot_write op s s' slot) as (st & c & command & change & v & <- & Hw & Hp); try done.
  exact (persist_crash _ _ _ _ _ _ _ _ _ _ existing_only Hd Hw Hp Hl Hc Hbk Hf Hb Hb1 Hb' Hm).
Qed.

Lemma running_durable s : running s → durable s.
Proof.
  induction 1 as [| |s s' r m existing_only s'' _ Hd Hi Hm Hr]; [by eapply new_durable|by eapply step_durable|].
  destruct (interrupted_durable s s' r m existing_only Hd Hi Hm) as (t & Ht & Hdt & _).
  rewrite Hr in Ht. apply pair_eq in Ht as [Ht _]. by apply Ok_inj in Ht as ->.
Qed.



Lemma reconfigure_crash command c head s s' l p existing_only :
  durable s → reconfigure_run command c head s (Ok ()) s' → durable s' →
  reconfigure_files s s' l → crashed l p → disk_checkpoint_backed s = false → wal_file (r_wal s') = [] →
  within_bounds s → (∀ s1, checkpoint_wal_unlocked s = (Ok (), s1) → within_bounds s1) → within_bounds s' →
  ∃ s'', (∀ m, rc_membership (r_configuration s'') = Some m →
            reopen s'' m existing_only (writes p (root_of s)) = (Ok s'', root_of s''))
    ∧ lost_or_done s s' s''.
Proof.
  intros Hd Hrun Hd' Hl Hc Hbk Hf Hb Hb1 Hb'.
  inversion Hrun as [|? ? ? ? ? ? ? ?|r1 s1 s2 s3 Hck Hst Hcom]; subst. fold (stored command s1 s2) in Hst.
  destruct Hl as [s1' l1 l2 Hck' Hl1 Hl2]. rewrite Hck in Hck'. apply pair_eq in Hck' as [_ <-].
  pose proof (checkpoint_durable _ _ _ Hd Hck) as [Hd1 H0]. specialize (H0 eq_refl). specialize (Hb1 s1 Hck).
  pose proof (checkpoint_quiet _ _ _ (i_wal s (d_inv s Hd)) Hck) as [Hq1 _].
  destruct (stored_step _ _ _ Hd1 Hst) as (Hd2 & Hq2 & Ew & _ & Ecf & Ehf & Esf).
  assert (quiet s s2) as Hq by (by etransitivity). rewrite <-Ew in H0.
  apply commit_head_shape in Hcom as [(? & ? & _)|(_ & cb & hb & Hcb & Hhb & Hs')]; [done|].
  assert (l2 = command_writes s1 command) as -> by (by apply (command_files_writes command s1 s2 s'); subst).
  assert (within_bounds s2) as Hb2.
  { destruct Hb1 as [? ? ? ? ?]. rewrite Hs' in Hb'. destruct Hb' as [_ _ ? ? _].
    split; rewrite ?Ecf, ?Ehf, ?Esf; done. }
  apply (commit_crash command s s1 s2 l1
    (configuration_head_writes (r_configuration_file s') (r_head_file s')) p (λ r s'',
    (∀ m, rc_membership (r_configuration s'') = Some m → reopen s'' m existing_only r = (Ok s'', root_of s''))
    ∧ lost_or_done s s' s'')); try done.
  - intros s'' Hd'' Hb3 Hq''. exists s''. split; [|by left]. intros m Hm. by apply reopen_durable.
  - clear Hc. intros p2 Hc. rewrite Hs' in Hc. cbn in Hc. rewrite Hs' in Hf, Hb', Hd'. cbn in Hf.
    destruct (head_crash s2 c head cb hb p2 existing_only) as (s'' & Hr & _ & Hs''); try done.
    exists s''. split; [done|]. destruct Hs'' as [->| ->]; [by left|right; by rewrite Hs'].
Qed.

Definition reconfigures (op : RecorderOp) : bool :=
  match op with OpInstallSuccessor _ _ | OpRecoverSuccessor _ _ _ _ => true | _ => false end.

Lemma op_reconfigure op s s' :
  run_op op s = (Ok (), s') → s' ≠ s → reconfigures op = true →
  ∃ command c head, reconfigure_run command c head s (Ok ()) s'
    ∧ (is_Some (rc_membership (r_configuration s)) → is_Some (rc_membership c)).
Proof.
  intros Hr Hne Hop. destruct op as [| |mem proof|stop prefix tip hash| | | |]; try done; cbn in Hr;
    apply discard_cases in Hr as ([x|e] & Hr & [[_ ?]|(? & ? & ?)]); try done.
  - apply install_successor_runs in Hr as [(? & ? & _)|(installed & command & r1 & Hk & Hr & Hx)]; [done|].
    destruct r1 as [[]|]; [|done]. eexists _, _, _. split; [exact Hr|]. intros _.
    destruct (uk_installed _ _ _ _ Hk) as (_ & -> & _). by eexists.
  - apply recover_successor_runs in Hr as [(? & ? & _)|[[_ ?]|(pre & r1 & _ & _ & _ & _ & _ & Hr & Hx)]]; [done|done|].
    destruct r1 as [[]|]; [|done]. eexists _, _, _. by split; [exact Hr|].
Qed.

End crash.
