(* ===== verification/CrashGaps.v ===== *)
(** * CrashGaps: two crashes from which a recorder does not come back

    The two situations that [Crash] leaves out, each with the error that opening
    then returns: a transition that crashes while the log still holds frames of an
    earlier generation, and a checkpoint that crashes between the configuration
    and the head when the head on disk was recovered from a checkpoint. *)

From S2P Require Import Prelude Bytes Text Core ConfigChange Proposal Isr DecisionProof RecorderCodec Recorder Reopen RecorderSpec Durable DurableOps Recovery Crash.

Section gaps.
Context `{Sha256}.

(** ** A transition over a log with stale frames *)

(** An opening that the preflight refuses. *)
Lemma open_refused id cluster epoch config_id m existing_only r e :
  blen id ≠ 0%N → existing_format r = true → is_missing e = false →
  preflight_existing_with_membership_outcome r cluster epoch config_id m = Err e →
  open_with_membership id cluster epoch config_id m existing_only r = (Err e, r).
Proof.
  intros Hid Hf He Hp. unfold open_with_membership.
  rewrite check_bind. destruct (N.eqb_spec (blen id) 0); [done|]. cbn [reject_if].
  rewrite root_bind, Hp, Hf, He. done.
Qed.

Lemma root_existing s w : is_Some (root_configuration (write w (root_of s))) →
  existing_format (write w (root_of s)) = true.
Proof.
  intros [cb Hc]. unfold existing_format. rewrite Hc.
  assert (neqb (Some cb) None = true) as -> by (by apply neqb_true). by rewrite orb_true_r.
Qed.

(** The preflight accepts the intent of a transition. *)
Lemma transition_intent_valid st c command change v s s1 s2 s' b cb hb ib m :
  durable s → within_bounds s → within_bounds s' → rc_membership (r_configuration s) = Some m →
  r_command_files s2 = r_command_files s →
  transition_steps st c command change v s s1 s2 s' b cb hb ib →
  validate_recoverable_transition_intent (r_command_files s) ib (r_cluster_id s) (r_epoch s)
    (rc_config_id (r_configuration s)) m = Ok ().
Proof.
  intros Hd Hb Hb' Hm Hcf [_ [Hd2 Hd'] Hq [_ H0] _ Hw (Hb0 & Hlen & Hib & Hcb & _) Hs'].
  pose proof (transition_keeps _ _ _ _ _ (sw_transition _ _ _ _ _ _ Hw)) as (Ei & Edg & Em & _).
  rewrite (q_configuration _ _ Hq) in Ei, Edg, Em. rewrite <-Ei.
  destruct (sw_identity _ _ _ _ _ _ Hw) as (E1 & E2 & E3 & E4).
  destruct (c_identity _ _ (q_carries _ _ Hq)) as (_ & I1 & I2). rewrite (q_configuration _ _ Hq) in E3, E4.
  rewrite Hs' in Hd', Hb'.
  apply (preflight_intent _ _ _ _ c st b cb m); try congruence.
  - eapply files_readable_durable; [apply Hd|done|apply Hd].
  - eapply transition_intent_reads; [apply slot_typed_slot; apply (sw_readable _ _ _ _ _ _ Hw)|done|].
    etransitivity; [by eapply intent_length|]. by apply N.leb_le.
  - apply configuration_reads; [apply (d_configuration _ Hd')|done|].
    etransitivity; [apply (wb_configuration _ Hb')|]. by apply N.leb_le.
  - destruct (sw_readable _ _ _ _ _ _ Hw). by eapply recorder_state_reads.
  - destruct (d_configuration s Hd) as [_ Ht]. unfold membership_typed in Ht. rewrite Hm in Ht.
    rewrite Edg. naive_solver.
  - intros w Hwv. pose proof (sw_values _ _ _ _ _ _ Hw w Hwv) as Hv. cbn [commands_with] in Hv.
    destruct (empty_contents s2 Hd2 H0) as [_ Ec]. by rewrite Ec, Hcf, E1, E2, I1, I2, E3, <-Ei in Hv.
Qed.

(** C32. A recorder can be left unable to open: when a checkpoint was interrupted
    before it truncated the log, the frames of the earlier generation stay in the
    file, and later checkpoints do nothing because no frame is counted; if a
    transition (a stop, or an activation) then crashes right after its intent is
    written, opening fails with "recorder recovery intent requires an empty WAL",
    although those writes are a part of what the operation writes. *)
Theorem stale_log_blocks_recovery (op : RecorderOp) (s s' : RecorderFileStore) (slot : N) (b ib : bytes)
    (m : Membership) (existing_only : bool) :
  running s → wal_frame_count (r_wal s) = 0%N → wal_file (r_wal s) ≠ [] →
  op_safe op s → run_op op s = (Ok (), s') → s' ≠ s → written_slot op = Some slot →
  configuration_structure_changed (r_configuration s) (r_configuration s') = true →
  r_command_files s' = r_command_files s → r_slot_files s' !! slot = Some b →
  encode_transition_intent slot b (r_configuration_file s') = Ok ib →
  bounded s s' → rc_membership (r_configuration s) = Some m →
  (∃ l, persist_files slot s s' l ∧ crashed l [WriteIntent ib])
  ∧ reopen s m existing_only (writes [WriteIntent ib] (root_of s))
    = (Err (Decode "recorder recovery intent requires an empty WAL"), writes [WriteIntent ib] (root_of s)).
Proof.
  intros Hd%running_durable H0 Hf Hs Hr Hne Hslot Hstr Hcf Hsl Hib [Hb _ Hb'] Hm.
  destruct (op_slot_write op s s' slot) as (st & c & command & change & v & <- & Hw & Hp); try done.
  assert (checkpoint_wal_unlocked s = (Ok (), s)) as Hck.
  { unfold checkpoint_wal_unlocked. rewrite store_bind. cbn zeta. rewrite (d_live s Hd), H0. done. }
  split.
  { eexists. split; [eapply files_commit; [done|exact Hck|by constructor|by constructor|exact Hsl|exact Hib]|].
    cbn [app]. constructor. constructor. }
  pose proof (persist_outcome _ _ _ _ _ _ _ (i_wal s (d_inv s Hd)) (slot_write_filed _ _ _ _ _ _ Hw) Hp)
    as [[_ Hcom]|[(? & ? & _)|(? & ?)]]; [|done|done].
  rewrite (k_configuration _ _ _ _ Hcom) in Hstr.
  assert (durable s') as Hd' by (eapply step_durable; [exact Hd|by econstructor]).
  destruct (persist_transition_steps _ _ _ _ _ _ _ _ Hd Hw Hp Hstr Hck (d_inv s' Hd')) as (s2 & b' & cb & hb & ib' & Htr).
  pose proof Htr as [_ _ _ _ _ _ (_ & _ & Hib' & _) Hs'].
  rewrite Hs' in Hsl, Hib, Hcf. cbn in Hsl, Hib, Hcf.
  rewrite lookup_insert_eq in Hsl. apply (inj Some) in Hsl as ->. rewrite Hib' in Hib. apply Ok_inj in Hib as ->.
  pose proof (transition_intent_valid _ _ _ _ _ _ _ _ _ _ _ _ _ m Hd Hb Hb' Hm Hcf Htr) as Hval.
  unfold reopen. apply open_refused; [apply Hd|by apply root_existing; eexists|done|].
  unfold preflight_existing_with_membership_outcome, read_preflight_intent. cbn [writes foldl flip].
  assert (root_is_empty (write (WriteIntent ib) (root_of s)) = false) as ->.
  { unfold root_is_empty. cbn [root_configuration write root_of].
    assert (eqb (Some (r_configuration_file s)) None = false) as -> by (by apply eqb_false). done. }
  cbn [write root_of root_intent root_head_intent root_commands root_wal].
  rewrite (read_bounded_ok ib) by (by eapply intent_length). cbn [fmap result_fmap mbind result_bind].
  rewrite Hval. cbn [mbind result_bind validate_empty_recovery_wal].
  assert (neqb (blen (wal_file (r_wal s))) 0%N = true) as ->; [|done].
  rewrite neqb_true. destruct (wal_file (r_wal s)); [done|]. rewrite blen_cons. lia.
Qed.

(** ** A checkpoint over a head that was recovered from a checkpoint *)

Lemma crashed_prefix l1 l2 : crashed (l1 ++ l2) l1.
Proof. induction l1; cbn; by constructor. Qed.

(** The head on disk decodes with the present configuration. *)
Lemma disk_head s c h :
  durable s → within_bounds s → checkpointed s c h →
  decode_recorded_head (r_head_file s) (r_cluster_id s) (r_epoch s) (r_configuration s)
  = Ok (h, [], wal_checkpoint (r_wal s)).
Proof.
  intros Hd Hb Hcp. destruct (decode_checkpointed s c h Hd Hb Hcp) as (f & _ & Hcf & _ & <-).
  pose proof (structure_same _ _ (cp_structure _ _ _ Hcp)) as (Ei & Ed & _). subst c. cbn in Ei, Ed.
  unfold decode_recorded_head. by rewrite Ei, Ed.
Qed.

(** The log replays from the present configuration over the copied commands. *)
Lemma replay_midway s cb :
  durable s → within_bounds s → files_readable (commands_of s) →
  (blen (wal_file (r_wal s)) ≤ MAX_RECORDER_WAL_BYTES)%N →
  ∃ c h acc, checkpointed s c h ∧
    replay_log (read_existing_command_cache (root_commands (root_of (midway s (commands_of s) (slots_of s) cb))))
      (r_cluster_id s) (r_epoch s) (wal_checkpoint (r_wal s)) (wal_file (r_wal s)) (r_configuration s) h = Ok acc.
Proof.
  intros Hd Hb Hf Hl. destruct (d_checkpoint s Hd) as (c & h & Hcp & (stale & l & Hfile & _ & Hst & Hsq & Hlog)).
  exists c, h.
  destruct (logged_restart _ _ _ _ _ _ _ _ _ _ (r_configuration s) _ _ _ Hlog) as (acc & Hlog' & _).
  { pose proof (structure_same _ _ (cp_structure _ _ _ Hcp)) as (E1 & E2 & E3 & E4 & E5 & E6).
    unfold configuration_structure_changed. by rewrite E1, E2, E3, E4, E5, E6, !neqb_refl. }
  exists (acc, blen (stale ++ l)). split; [done|]. rewrite Hfile, <-(app_nil_r (stale ++ l)) at 1.
  eapply (replay_log_ok _ (commands_of s)); try done; [by intros ? ? ?; apply read_cache_ok|by apply Hd| | |by left].
  - eapply logged_mono; [|exact Hlog'].
    apply (co_commands s (commands_of s) (slots_of s)). apply copied_part; [done|reflexivity|reflexivity|by right].
  - rewrite app_nil_r, <-Hfile. etransitivity; [exact Hl|]. by apply N.leb_le.
Qed.

(** The writes of a checkpoint up to the configuration. *)
Lemma checkpoint_until_head s commands slots cb hb :
  commands ≡ₚ map_to_list (wal_commands (r_wal s)) → slots ≡ₚ map_to_list (wal_slots (r_wal s)) →
  ∃ p, checkpoint_writes commands slots cb hb = p ++ [WriteHead hb; SetWalLength 0]
    ∧ writes p (root_of s) = root_of (midway s (commands_of s) (slots_of s) cb).
Proof.
  intros Hcs Hss.
  exists (((λ hc, WriteCommand hc.1 (encode_stored_command hc.2)) <$> commands)
    ++ ((λ kb, WriteSlot kb.1 kb.2) <$> slots) ++ [WriteConfiguration cb]).
  split; [unfold checkpoint_writes; by rewrite <-!app_assoc|].
  replace (root_of s) with (root_of (midway s (r_command_files s) (r_slot_files s) (r_configuration_file s)))
    by (by rewrite midway_self).
  assert (NoDup (prod_map id encode_stored_command <$> commands).*1).
  { rewrite <-list_fmap_compose. change (NoDup commands.*1). rewrite Hcs. apply NoDup_fst_map_to_list. }
  assert (NoDup slots.*1) by (rewrite Hss; apply NoDup_fst_map_to_list).
  rewrite writes_app, writes_commands, foldl_insert, list_to_map_encoded by done.
  rewrite writes_app, writes_slots, foldl_insert by done.
  by rewrite (list_to_map_all _ _ Hcs), (list_to_map_all _ _ Hss).
Qed.

(** A head that was recovered from a checkpoint stands for the greatest slot of its
    configuration. *)
Lemma recovered_max_refused store c stop prefix tip hash :
  rc_max_slot c ≠ Some tip → is_Some (rc_predecessor c) →
  recovered_max store c (CheckpointBacked stop prefix tip hash)
  = Err (Decode "checkpoint-backed recorder head evidence is invalid").
Proof.
  intros Hm [p Hp]. cbn [recovered_max]. rewrite Hp. cbn [ok_or mbind result_bind].
  assert (neqb (rc_max_slot c) (Some tip) = true) as -> by (by apply neqb_true). by rewrite orb_true_r.
Qed.

Lemma open_rest_refused id cluster epoch c h cp r hb e :
  root_head r = Some hb → (blen hb ≤ MAX_RECORDED_HEAD_BYTES)%N →
  decode_recorded_head hb cluster epoch c = Ok (h, [], cp) →
  recovered_max (recorder_of id cluster epoch c HeadEmpty wal_default r) c h = Err e →
  open_rest id cluster epoch true c r = (Err e, r).
Proof.
  intros Hh Hb Hd He. unfold open_rest.
  assert (open_or_initialize_recorded_head id cluster epoch c true r = (Err e, r)) as Ho.
  { unfold open_or_initialize_recorded_head. rewrite root_bind, Hh.
    rewrite (opening_bind_Ok _ _ r (h, [], cp) r).
    2:{ rewrite check_bind, read_bounded_ok by done. unfold check. by rewrite Hd. }
    unfold install_recorded_head. cbn [restore_snapshots]. unfold mbind, opening_bind, mret, opening_ret, root.
    unfold check. by rewrite He. }
  unfold mbind, opening_bind. by rewrite Ho.
Qed.

(** C33. A recorder can be left unable to open: when the head on disk was recovered
    from a checkpoint and a slot above the recovered tip was recorded since, a
    checkpoint that crashes between its configuration and its head leaves a
    configuration whose greatest slot is no longer the tip, and opening fails with
    "checkpoint-backed recorder head evidence is invalid". *)
Theorem recovered_head_blocks_recovery (s s' : RecorderFileStore) (stop tip : N) (prefix hash : LogHash)
    (cp : WalCheckpoint) (l : list FileWrite) (m : Membership) (existing_only : bool) :
  running s →
  decode_recorded_head (r_head_file s) (r_cluster_id s) (r_epoch s) (r_configuration s)
    = Ok (CheckpointBacked stop prefix tip hash, [], cp) →
  rc_max_slot (r_configuration s) ≠ Some tip → wal_frame_count (r_wal s) ≠ 0%N →
  checkpoint_wal_unlocked s = (Ok (), s') → checkpoint_files s s' l →
  within_bounds s → within_bounds s' → rc_membership (r_configuration s) = Some m →
  ∃ p, crashed l p ∧ reopen s m existing_only (writes p (root_of s))
    = (Err (Decode "checkpoint-backed recorder head evidence is invalid"), writes p (root_of s)).
Proof.
  intros Hd%running_durable Hh Hmx H0 Hck Hl Hb Hb' Hm.
  pose proof (checkpoint_durable _ _ _ Hd Hck) as [Hd' _].
  destruct Hl as [?|commands slots _ Hcs Hss]; [done|].
  apply checkpoint_cases in Hck as [(? & _)|[(? & ? & _)|(_ & _ & g & cb & hb & _ & Hcb & _ & ->)]]; [done|done| |done].
  destruct (checkpoint_until_head s commands slots cb hb Hcs Hss) as (p & Hp & Hr).
  exists p. split; [cbn; rewrite Hp; apply crashed_prefix|]. rewrite Hr.
  assert (files_readable (commands_of s)) as Hf.
  { change (commands_of s) with (r_command_files (checkpointed_state s g cb hb [])).
    eapply files_readable_durable; [apply Hd'|done|apply Hd']. }
  assert (decode_configuration_state cb = Ok (r_configuration s)) as Hdc.
  { apply configuration_reads; [apply Hd|done|]. etransitivity; [apply (wb_configuration _ Hb')|]. by apply N.leb_le. }
  destruct (replay_midway s cb Hd Hb Hf (wb_wal s Hb)) as (c0 & h0 & acc & Hcp & Hrep).
  rewrite (disk_head s c0 h0 Hd Hb Hcp) in Hh. apply Ok_inj in Hh. injection Hh as -> <-.
  assert (m_digest m = rc_config_digest (r_configuration s)) as Hmd.
  { destruct (d_configuration s Hd) as [_ Ht]. unfold membership_typed in Ht. rewrite Hm in Ht. naive_solver. }
  set (t := midway s (commands_of s) (slots_of s) cb) in *.
  destruct (preflight_files (r_cluster_id s) (r_epoch s) m (root_of t) cb (r_head_file s) (wal_file (r_wal s))
    (r_configuration s) (CheckpointBacked stop prefix tip hash) (wal_checkpoint (r_wal s)) acc)
    as (o & Ho & Hne); try done; [apply Hb'|apply Hb|apply Hb|by eapply disk_head|].
  unfold reopen. rewrite (open_recovers_from _ _ (root_of t) (r_configuration s) (root_of t) _ _ _ _ o);
    [|by apply (recovers_root t); [|apply Hd|apply Hb']|by apply Hd|done|done].
  eapply open_rest_refused; [done|apply (wb_head s Hb)|exact (disk_head s _ _ Hd Hb Hcp)|]. apply recovered_max_refused; [done|].
  destruct (cp_evidence _ _ _ Hcp) as (pre & Hpre & _).
  pose proof (structure_same _ _ (cp_structure _ _ _ Hcp)) as (_ & _ & _ & E & _). rewrite <-E. by eexists.
Qed.
End gaps.
