(* ===== verification/ReadFence.v ===== *)
(** * ReadFence: reading behind the recorders

    Composes the two ends of the read fence of [crates/rhiza-quepaxa/src/lib.rs]:
    the recorders' [observe_read_fence] ([RecorderSpec]) and the reader's
    [inspect_context_read_fence_at] ([Inspect]).  A reader that is told that a
    slot is empty may serve a read of the prefix below it: the theorem says what
    it then knows about a quorum of recorders. *)

From S2P Require Import Prelude Bytes Core ConfigChange Proposal Isr DecisionProof Consensus Inspect RecorderCodec Recorder RecorderSpec.

Section fence.
Context `{Sha256}.

(** What the context checks of [observe_read_fence] say on success. *)
Lemma observe_read_fence_context q s s' o :
  observe_read_fence q s = (Ok o, s') →
  rf_cluster_id q = r_cluster_id s ∧ rf_epoch q = r_epoch s
  ∧ rf_config_id q = rc_config_id (r_configuration s) ∧ ro_recorder_id o = r_recorder_id s.
Proof.
  unfold observe_read_fence. rewrite store_bind. cbn zeta. intros Hr.
  apply call_bind_Ok in Hr as (u1 & s1 & H1 & Hr). injection H1 as H1%reject_if_Ok <-.
  apply call_bind_Ok in Hr as (u2 & s1 & H2 & Hr). injection H2 as H2%reject_if_Ok <-.
  apply call_bind_Ok in Hr as (u3 & s1 & H3 & Hr). injection H3 as H3%reject_if_Ok <-.
  apply call_bind_Ok in Hr as (sm & s1 & _ & Hr). injection Hr as <- _. bool_prop. naive_solver.
Qed.

(** When the recorders sit at the indices of their workers, hold the recorder
    invariant and answered with [observe_read_fence], a fence that comes back
    [Empty] names a quorum of distinct recorders of the membership, none of
    which holds any state of the reader's configuration at the slot or above. *)
Definition unrecorded (self : ThreeNodeConsensus) (slot : N) (s : RecorderFileStore) : Prop :=
  rc_config_id (r_configuration s) = c_config_id self
  ∧ ∀ k st, (slot ≤ k)%N → slot_state s k = Some st → ss_config_id st ≠ c_config_id self.

Lemma empty_observation_unrecorded self slot s s' o :
  is_u64 slot = true → recorder_inv s →
  observe_read_fence (fence_request self slot) s = (Ok o, s') → ro_slot_state o = FenceEmpty →
  unrecorded self slot s.
Proof.
  intros Hu Hi Ho He. pose proof (observe_read_fence_context _ _ _ _ Ho) as (_ & _ & Hc & _).
  cbn in Hc. split; [done|]. intros k st Hk Hst Hid.
  apply (observe_fence_above (fence_request self slot) s s' o Hu Hi Ho) in Hst; [|done|done]. lia.
Qed.

(** A read fence that answers [Empty] reaches a quorum: from distinct workers
    whose recorders keep the recorder invariant, it names at least a quorum of
    distinct members of the configuration, each of which holds no state of this
    configuration at the fenced slot or any later one. *)
Theorem read_fence_quorum_unrecorded (self : ThreeNodeConsensus) (slot : N) (supported : bool)
    (saturated total : nat) (arrivals : list (nat * result Error ReadFenceObservation))
    (inspection : result Error CertifiedDecisionInspection) (recorders : nat → RecorderFileStore) :
  is_u64 slot = true → NoDup arrivals.*1 → NoDup (m_members (c_membership self)) →
  (∀ i o, (i, Ok o) ∈ arrivals → recorder_inv (recorders i)
     ∧ ∃ s', observe_read_fence (fence_request self slot) (recorders i) = (Ok o, s')) →
  inspect_context_read_fence_at self supported slot saturated total arrivals inspection = Ok CertEmpty →
  ∃ Q : list nat, m_quorum_size (c_membership self) ≤ length Q
    ∧ NoDup (r_recorder_id ∘ recorders <$> Q)
    ∧ (r_recorder_id ∘ recorders <$> Q) ⊆ m_members (c_membership self)
    ∧ ∀ i, i ∈ Q → unrecorded self slot (recorders i).
Proof.
  intros Hu Hnd Hm Hrec [_ Hq]%read_fence_empty_observers.
  exists (empty_observers self slot arrivals). split; [done|].
  assert (∀ i, i ∈ empty_observers self slot arrivals →
    m_members (c_membership self) !! i = Some (r_recorder_id (recorders i))
    ∧ unrecorded self slot (recorders i)) as Hobs.
  { intros i (o & id & Hin & Hid & Hro & He)%elem_of_empty_observers.
    apply Hrec in Hin as (Hi & s' & Ho). pose proof (observe_read_fence_context _ _ _ _ Ho) as (_ & _ & _ & Hr).
    split; [congruence|]. by eapply empty_observation_unrecorded. }
  assert (NoDup (empty_observers self slot arrivals)) as HndQ
    by (eapply sublist_NoDup; [done|apply empty_observers_sublist]).
  split_and!.
  - apply NoDup_fmap_2_strong; [|done]. intros i j Hi Hj Heq. apply Hobs in Hi as [Hi _], Hj as [Hj _].
    cbn in Heq. rewrite <-Heq in Hj. by eapply (NoDup_lookup (m_members (c_membership self))).
  - intros r (i & -> & Hi)%list_elem_of_fmap. apply Hobs in Hi as [Hi _]. by eapply list_elem_of_lookup_2.
  - intros i Hi. by apply Hobs.
Qed.
End fence.
