(* ===== verification/System.v ===== *)
(** * System: the protocol of one slot as a transition system

    Models the interplay of the parts of [crates/rhiza-quepaxa/src/lib.rs]: recorders, proposers and the messages
    between them for one slot of one configuration.  Its steps are calls of the
    definitions of [Consensus] and [DecisionProof]: a proposer starts with the
    initial progress of [propose_stored_at_until], sends what [drive_prepare]
    returns, a recorder answers a request with [slot_record_proposal], and a
    proposer continues with [drive_replies] on any of the answers to the requests
    it last sent.  Messages may be lost, duplicated, delayed and reordered;
    proposers may stop at any point; recorders keep their state. *)

From S2P Require Import Prelude Bytes Core ConfigChange Proposal Isr DecisionProof Consensus.

(** What all participants of the slot share. *)
Record SlotContext : Type := mkSlotContext {
  x_cluster_id : bytes; x_epoch : N; x_config_id : N; x_membership : Membership; x_slot : N
}.

(** A proposer of this configuration. *)
Definition in_context (x : SlotContext) (self : ThreeNodeConsensus) : bool :=
  eqb (c_cluster_id self) (x_cluster_id x) && eqb (c_epoch self) (x_epoch x)
  && eqb (c_config_id self) (x_config_id x) && eqb (c_config_digest self) (m_digest (x_membership x))
  && eqb (c_membership self) (x_membership x).

Inductive ProposerState : Type :=
| Idle (self : ThreeNodeConsensus) (progress : ProposerProgress)
| Waiting (self : ThreeNodeConsensus) (progress : ProposerProgress) (requests : list RecordRequest).

Record Sys : Type := mkSys {
  sys_slots : gmap NodeId RecorderSlotState;
  sys_requests : list (NodeId * RecordRequest);
  sys_replies : list (NodeId * RecordRequest * RecordSummary);
  sys_proposers : gmap nat ProposerState;
  sys_starts : list (ThreeNodeConsensus * AcceptedValue);
  sys_decisions : list DecisionProof
}.

Definition sys_init : Sys := mkSys ∅ [] [] ∅ [] [].

Definition fresh_slot (x : SlotContext) : RecorderSlotState :=
  slot_new_with_digest (x_slot x) (x_cluster_id x) (x_epoch x) (x_config_id x)
    (m_digest (x_membership x)).
Definition slot_at (x : SlotContext) (sys : Sys) (r : NodeId) : RecorderSlotState :=
  default (fresh_slot x) (sys_slots sys !! r).

(** The priority source never samples the priority reserved for the leader;
    [OsPrioritySource] rewrites it. *)
Definition sampler_ok (env : Env) : Prop :=
  ∀ slot round proposer recorder p, env_sample env slot round proposer recorder = Ok p → p ≠ PRIORITY_MAX.

Section system.
Context `{Sha256} (x : SlotContext).

Inductive sys_step : Sys → Sys → Prop :=
| sys_start slots reqs reps props starts decs i self prev_hash proposal_id command :
    in_context x self = true → props !! i = None →
    sys_step (mkSys slots reqs reps props starts decs)
      (mkSys slots reqs reps
         (<[i := Idle self (initial_progress self (x_slot x) prev_hash proposal_id command)]> props)
         (starts ++ [(self, offered_value self (x_slot x) prev_hash command)]) decs)
| sys_send slots reqs reps props starts decs i self env progress progress' requests :
    props !! i = Some (Idle self progress) → sampler_ok env →
    drive_prepare self env progress = Ok (progress', requests) →
    sys_step (mkSys slots reqs reps props starts decs)
      (mkSys slots (reqs ++ zip (m_members (x_membership x)) requests) reps
         (<[i := Waiting self progress' requests]> props) starts decs)
| sys_deliver slots reqs reps props starts decs r request state summary :
    (r, request) ∈ reqs →
    slot_record_proposal r (default (fresh_slot x) (slots !! r)) request = Ok (state, summary) →
    sys_step (mkSys slots reqs reps props starts decs)
      (mkSys (<[r := state]> slots) reqs (reps ++ [(r, request, summary)]) props starts decs)
| sys_continue slots reqs reps props starts decs i self env progress requests replies outcome next :
    props !! i = Some (Waiting self progress requests) →
    (∀ sm, sm ∈ replies → ∃ r request,
       (r, request) ∈ zip (m_members (x_membership x)) requests ∧ (r, request, sm) ∈ reps) →
    drive_replies self env progress (command_targets self progress) replies = Ok outcome →
    outcome = Progress next ∨ outcome = Pending next →
    sys_step (mkSys slots reqs reps props starts decs)
      (mkSys slots reqs reps (<[i := Idle self next]> props) starts decs)
| sys_decide slots reqs reps props starts decs i self env progress requests replies proof :
    props !! i = Some (Waiting self progress requests) →
    (∀ sm, sm ∈ replies → ∃ r request,
       (r, request) ∈ zip (m_members (x_membership x)) requests ∧ (r, request, sm) ∈ reps) →
    drive_replies self env progress (command_targets self progress) replies = Ok (Decision proof) →
    sys_step (mkSys slots reqs reps props starts decs)
      (mkSys slots reqs reps (delete i props) starts (decs ++ [proof]))
| sys_install slots reqs reps props starts decs r proof state :
    proof ∈ decs →
    slot_install_proof (default (fresh_slot x) (slots !! r)) proof = Ok state →
    sys_step (mkSys slots reqs reps props starts decs)
      (mkSys (<[r := state]> slots) reqs reps props starts decs)
| sys_stop slots reqs reps props starts decs i :
    sys_step (mkSys slots reqs reps props starts decs)
      (mkSys slots reqs reps (delete i props) starts decs).

Definition reachable (sys : Sys) : Prop := rtc sys_step sys_init sys.

(** The values that the leader of the configuration offers at this slot. *)
Definition leader_values (sys : Sys) : list AcceptedValue :=
  snd <$> filter (λ s, is_leader s.1 = true) (sys_starts sys).

(** The leader's fast path is safe when it offers one value per slot. *)
Definition leader_consistent (sys : Sys) : Prop :=
  ∀ v w, v ∈ leader_values sys → w ∈ leader_values sys → v = w.
End system.
