(* ===== verification/Agreement.v ===== *)
(** * Agreement: no two proposers decide differently

    The safety theorem of the consensus protocol ([System]): in every reachable
    state all decisions that proposers reached by [drive] carry the same value,
    provided the leader offers a single value at the slot.  The proof follows the
    histories of the interval summary registers ([Isr]): every proposal in flight
    is justified by what a quorum of recorders has recorded, and quorums meet. *)

From S2P Require Import Prelude Bytes Core ConfigChange Proposal Isr DecisionProof Consensus System.

(** ** Growing histories *)

Definition grows (h h' : list input) : Prop :=
  h' = h ∨ ∃ s p, (current_step h ≤ s)%N ∧ h' = h ++ [(s, p)].

Lemma observe_grows h s p : grows h (observe h s p).
Proof.
  unfold observe. destruct (N.ltb_spec s (current_step h)); [by left|right; eauto].
Qed.

Section grows.
Context (h h' : list input) (Hg : grows h h').

Lemma grows_in s p : p ∈ at_step s h → p ∈ at_step s h'.
Proof.
  destruct Hg as [->|(t & q & _ & ->)]; [done|]. rewrite !elem_at_step. set_solver.
Qed.

Lemma grows_head s p : head (at_step s h) = Some p → head (at_step s h') = Some p.
Proof.
  destruct Hg as [->|(t & q & _ & ->)]; [done|].
  rewrite at_step_snoc. by destruct (at_step s h).
Qed.

Lemma grows_step : (current_step h ≤ current_step h')%N.
Proof. destruct Hg as [->|(t & q & Ht & ->)]; [done|]. by rewrite current_step_snoc. Qed.

(** What was recorded below the current step is final. *)
Lemma grows_frozen s : (s < current_step h)%N → at_step s h' = at_step s h.
Proof.
  intros Hs. destruct Hg as [->|(t & q & Ht & ->)]; [done|]. rewrite at_step_snoc.
  destruct (N.eqb_spec t s); [lia|]. by rewrite app_nil_r.
Qed.
End grows.

(** ** Evidence *)

Section agreement.
Context `{Sha256} (x : SlotContext).
Context (Hmem : membership_wf (x_membership x)).
Abbreviation m := (x_membership x).

Definition hist : Type := NodeId → list input.
Implicit Types (hs : hist) (sys : Sys) (p q : Proposal).

Record quorum (Q : list NodeId) : Prop := {
  q_nodup : NoDup Q; q_members : Q ⊆ m_members m; q_size : m_quorum_size m ≤ length Q
}.

Lemma quorum_meet Q1 Q2 : quorum Q1 → quorum Q2 → ∃ k, k ∈ Q1 ∧ k ∈ Q2.
Proof. intros [] []. by apply (quorums_meet m). Qed.
Lemma quorum_inhabited Q : quorum Q → ∃ k, k ∈ Q.
Proof. intros HQ. destruct (quorum_meet Q Q HQ HQ) as (k & ? & _). eauto. Qed.

(** A proposal that some request carries at a step. *)
Definition sent sys (s : N) p : Prop :=
  ∃ r rq, (r, rq) ∈ sys_requests sys ∧ rq_step rq = s ∧ rq_proposal rq = p.

(** Why a proposal may be sent at a step, by phase.  Phase 0 after the first
    round: its value is that of a greatest proposal that a quorum carries over
    from phase 2.  Phase 1: a greatest of the first proposals a quorum recorded
    in phase 0.  Phase 2: a quorum recorded it in phase 1. *)
Definition gathered hs (s : N) p : Prop :=
  ∃ Q g, quorum Q ∧ p_value p = p_value g
    ∧ (∃ k, k ∈ Q ∧ g ∈ at_step (s - 2) (hs k))
    ∧ ∀ k, k ∈ Q → (s - 1 ≤ current_step (hs k))%N
        ∧ ∀ q, q ∈ at_step (s - 2) (hs k) → ole q g.
Definition preferred hs (s : N) p : Prop :=
  ∃ Q, quorum Q ∧ (∃ k, k ∈ Q ∧ head (at_step (s - 1) (hs k)) = Some p)
    ∧ ∀ k, k ∈ Q → ∃ f, head (at_step (s - 1) (hs k)) = Some f ∧ ole f p.
Definition spread hs (s : N) p : Prop :=
  ∃ Q, quorum Q ∧ ∀ k, k ∈ Q → p ∈ at_step (s - 1) (hs k).
Definition started sys p : Prop :=
  ∃ self v, (self, v) ∈ sys_starts sys ∧ p_value p = Some v
    ∧ (p_priority p = PRIORITY_MAX → is_leader self = true).

Definition justified sys hs (s : N) p : Prop :=
  is_nil p = false ∧ (4 ≤ s ≤ u64_max)%N ∧
  match (s mod 4)%N with
  | 0%N => if (s =? 4)%N then started sys p else gathered hs s p
  | 1%N => preferred hs s p
  | 2%N => spread hs s p
  | _ => sent sys (s - 1) p
  end.

(** Why a decision proof is sound. *)
Definition decided sys hs (d : DecisionProof) : Prop :=
  match d with
  | FastPath _ _ _ _ _ p _ =>
      p_priority p = PRIORITY_MAX ∧ is_nil p = false
      ∧ ∃ Q, quorum Q ∧ ∀ k, k ∈ Q → head (at_step 4 (hs k)) = Some p
  | Phase2 _ _ _ _ _ s p _ =>
      (s mod 4 = 2)%N ∧ sent sys s p
      ∧ ∃ Q, quorum Q ∧ ∀ k, k ∈ Q → p ∈ at_step s (hs k)
          ∧ ∀ q, q ∈ at_step (s - 1) (hs k) → ole q p
  end.

(** What an answer of a recorder tells, now and later. *)
Record answered sys hs (r : NodeId) (rq : RecordRequest) (sm : RecordSummary) : Prop := {
  an_id : sm_recorder_id sm = r;
  an_decided : ∀ d, sm_decided sm = Some d → d ∈ sys_decisions sys;
  an_record : sm_decided sm = None →
    (rq_step rq ≤ sm_step sm ≤ current_step (hs r))%N
    ∧ (sm_step sm = rq_step rq → rq_proposal rq ∈ at_step (rq_step rq) (hs r))
    ∧ (∃ f, sm_first_current sm = Some f ∧ head (at_step (sm_step sm) (hs r)) = Some f)
    ∧ greatest (sm_aggregate_prior sm) (at_step (sm_step sm - 1) (hs r))
}.

(** *** The invariant *)

Definition progress_ok sys hs (self : ThreeNodeConsensus) (pr : ProposerProgress) : Prop :=
  in_context x self = true ∧ pp_slot pr = x_slot x
  ∧ is_nil (pp_proposal pr) = false ∧ (4 ≤ pp_step pr ≤ u64_max)%N
  ∧ map_Forall (λ _ prio, prio ≠ PRIORITY_MAX) (pp_phase_zero_priorities pr)
  ∧ (if (pp_step pr =? 4)%N
     then ∃ v, (self, v) ∈ sys_starts sys ∧ p_value (pp_proposal pr) = Some v
     else justified sys hs (pp_step pr) (pp_proposal pr)).

Definition proposer_ok sys hs (ps : ProposerState) : Prop :=
  match ps with
  | Idle self pr => progress_ok sys hs self pr
  | Waiting self pr rqs =>
      progress_ok sys hs self pr ∧ length rqs = length (m_members m)
      ∧ ∀ r rq, (r, rq) ∈ zip (m_members m) rqs →
          (r, rq) ∈ sys_requests sys ∧ rq_step rq = pp_step pr
          ∧ ((pp_step pr mod 4 ≠ 0)%N → rq_proposal rq = pp_proposal pr)
  end.

Record inv sys hs : Prop := {
  inv_slot : ∀ r, let st := slot_at x sys r in
    isr_refines (ss_isr st) (hs r) ∧ history_wf (hs r)
    ∧ ∀ d, ss_decided_proof st = Some d → d ∈ sys_decisions sys;
  inv_hist : ∀ r s p, (s, p) ∈ hs r → sent sys s p;
  inv_sent : ∀ s p, sent sys s p → justified sys hs s p;
  inv_reply : ∀ r rq sm, (r, rq, sm) ∈ sys_replies sys →
    (r, rq) ∈ sys_requests sys ∧ answered sys hs r rq sm;
  inv_proposer : ∀ i ps, sys_proposers sys !! i = Some ps → proposer_ok sys hs ps;
  inv_decision : ∀ d, d ∈ sys_decisions sys → decided sys hs d
}.

(** ** Evidence is stable *)

Record extends sys hs sys' hs' : Prop := {
  ext_requests : sys_requests sys ⊆ sys_requests sys';
  ext_starts : sys_starts sys ⊆ sys_starts sys';
  ext_decisions : sys_decisions sys ⊆ sys_decisions sys';
  ext_grows : ∀ k, grows (hs k) (hs' k);
  ext_wf : ∀ k, history_wf (hs k)
}.

Section stable.
Context (sys sys' : Sys) (hs hs' : hist) (Hx : extends sys hs sys' hs').

Lemma sent_stable s p : sent sys s p → sent sys' s p.
Proof. destruct Hx. intros (r & rq & Hin & ?). exists r, rq. split; [set_solver|done]. Qed.

Lemma gathered_stable s p : (4 ≤ s)%N → gathered hs s p → gathered hs' s p.
Proof.
  destruct Hx as [_ _ _ Hg _]. intros Hs (Q & g & HQ & Hv & (k & Hk & Hin) & Hall).
  exists Q, g. split_and!; try done.
  - exists k. split; [done|]. by eapply grows_in.
  - intros k' Hk'. destruct (Hall k' Hk') as [Hc Hle]. pose proof (grows_step _ _ (Hg k')).
    split; [lia|]. intros q. rewrite (grows_frozen _ _ (Hg k')) by lia. apply Hle.
Qed.

Lemma preferred_stable s p : preferred hs s p → preferred hs' s p.
Proof.
  destruct Hx as [_ _ _ Hg _]. intros (Q & HQ & (k & Hk & Hin) & Hall). exists Q. split_and!; try done.
  - exists k. split; [done|]. by eapply grows_head.
  - intros k' Hk'. destruct (Hall k' Hk') as (f & Hf & ?). exists f. split; [|done]. by eapply grows_head.
Qed.

Lemma spread_stable s p : spread hs s p → spread hs' s p.
Proof.
  destruct Hx as [_ _ _ Hg _]. intros (Q & HQ & Hall). exists Q. split; [done|].
  intros k Hk. eapply grows_in; [done|by apply Hall].
Qed.

Lemma justified_stable s p : justified sys hs s p → justified sys' hs' s p.
Proof.
  intros (Hn & Hs & Hj). split_and!; [done|lia|lia|].
  destruct (s mod 4)%N as [|[[]|[]|]]; [destruct (s =? 4)%N|..].
  all: eauto using gathered_stable, preferred_stable, spread_stable, sent_stable.
  - destruct Hj as (self & v & Hin & ?). exists self, v. split; [|done]. destruct Hx. set_solver.
  - apply gathered_stable; [lia|done].
Qed.

Lemma decided_stable d : decided sys hs d → decided sys' hs' d.
Proof.
  destruct d as [? ? ? ? ? p ?|? ? ? ? ? s p ?]; cbn.
  - intros (Hp & Hn & Q & HQ & Hall). split_and!; try done. exists Q. split; [done|].
    intros k Hk. eapply grows_head; [apply Hx|by apply Hall].
  - intros (Hs & Hsent & Q & HQ & Hall). split_and!; [done|by apply sent_stable|].
    exists Q. split; [done|]. intros k Hk. destruct (Hall k Hk) as [Hin Hle].
    destruct Hx as [_ _ _ Hg Hwf]. split; [by eapply grows_in|].
    intros q. rewrite (grows_frozen _ _ (Hg k)); [apply Hle|].
    apply elem_at_step, Hwf in Hin as [Hc _]. cbn in Hc.
    assert (s ≠ 0%N) by (intros ->; done). lia.
Qed.

Lemma answered_stable r rq sm :
  (1 ≤ rq_step rq)%N → answered sys hs r rq sm → answered sys' hs' r rq sm.
Proof.
  destruct Hx as [_ _ Hd Hg _]. intros Hr [Hid Hdec Hrec]. split; [done|set_solver|].
  intros Hn. destruct (Hrec Hn) as (Hst & Hp & (f & Hf & Hh) & Hpr).
  pose proof (grows_step _ _ (Hg r)). split_and!; [lia|lia| | |].
  - intros Heq. eapply grows_in; [done|by apply Hp].
  - exists f. split; [done|]. by eapply grows_head.
  - rewrite (grows_frozen _ _ (Hg r)); [done|lia].
Qed.

Lemma progress_ok_stable self pr : progress_ok sys hs self pr → progress_ok sys' hs' self pr.
Proof.
  intros (? & ? & ? & ? & ? & Hj). unfold progress_ok. split_and!; try done; try lia.
  destruct (pp_step pr =? 4)%N; [|by apply justified_stable].
  destruct Hj as (v & Hin & ?). exists v. split; [|done]. destruct Hx. set_solver.
Qed.

Lemma proposer_ok_stable ps : proposer_ok sys hs ps → proposer_ok sys' hs' ps.
Proof.
  destruct ps as [self pr|self pr rqs]; cbn; [apply progress_ok_stable|].
  intros (Hp & Hl & Hr). split_and!; [by apply progress_ok_stable|done|].
  intros r rq Hin. destruct (Hr r rq Hin) as (? & ? & ?). split_and!; [|done|done].
  destruct Hx. set_solver.
Qed.
End stable.

(** ** Agreement from the invariant *)

Section locked.
Context (sys : Sys) (hs : hist) (Hinv : inv sys hs).

(** Everything sent at a step carries the value. *)
Definition locked (s : N) (v : option AcceptedValue) : Prop := ∀ p, sent sys s p → p_value p = v.

Lemma recorded_sent k s p : p ∈ at_step s (hs k) → sent sys s p.
Proof. intros Hin%elem_at_step. by eapply inv_hist. Qed.

Lemma head_elem {A} (l : list A) a : head l = Some a → a ∈ l.
Proof. destruct l; [done|]. intros [= ->]. by left. Qed.

(** A phase-2 decision bounds everything sent at its step. *)
Lemma decision_bounds s p Q :
  (s mod 4 = 2)%N → quorum Q →
  (∀ k, k ∈ Q → ∀ q, q ∈ at_step (s - 1) (hs k) → ole q p) →
  ∀ q, sent sys s q → ole q p.
Proof.
  intros Hs HQ Hle q Hq. apply (inv_sent _ _ Hinv) in Hq as (_ & _ & Hj). rewrite Hs in Hj.
  destruct Hj as (Q' & HQ' & Hall). destruct (quorum_meet Q Q' HQ HQ') as (k & Hk & Hk').
  by eapply Hle, Hall.
Qed.

(** ... and locks its value at the start of the next round. *)
Lemma decision_locks s p Q :
  (s mod 4 = 2)%N → sent sys s p → quorum Q →
  (∀ k, k ∈ Q → p ∈ at_step s (hs k) ∧ ∀ q, q ∈ at_step (s - 1) (hs k) → ole q p) →
  locked (s + 2) (p_value p).
Proof.
  intros Hs Hp HQ Hall q Hq. apply (inv_sent _ _ Hinv) in Hq as (_ & Hr & Hj).
  assert ((s + 2) mod 4 = 0)%N as Hs2.
  { rewrite <-N.Div0.add_mod_idemp_l, Hs. done. }
  pose proof (inv_sent _ _ Hinv _ _ Hp) as (Hn & Hr' & _).
  rewrite Hs2 in Hj. destruct (N.eqb_spec (s + 2) 4); [lia|].
  destruct Hj as (Q' & g & HQ' & -> & (k' & Hk' & Hg) & Hbound).
  replace (s + 2 - 2)%N with s in * by lia.
  destruct (quorum_meet Q Q' HQ HQ') as (k & Hk & Hk2). destruct (Hall k Hk) as [Hpk _].
  destruct (Hbound k Hk2) as [_ Hle]. specialize (Hle p Hpk).
  assert (ole g p) as Hgp.
  { eapply (decision_bounds s p Q); [done|done| |by eapply recorded_sent].
    intros k0 Hk0. by apply Hall. }
  by rewrite (proposal_ole_antisym p g Hn Hle Hgp).
Qed.

(** A locked value stays locked. *)
Definition locked_from (s : N) (v : option AcceptedValue) : Prop :=
  locked s v ∧ ((s mod 4 = 3)%N → locked (s - 1) v).

Lemma locked_step s v : (4 ≤ s)%N → locked_from s v → locked_from (s + 1) v.
Proof.
  intros Hs4 [Hl Hl3]. pose proof (N.mod_lt s 4 ltac:(done)) as Hm.
  assert ((s + 1) mod 4 = (s mod 4 + 1) mod 4)%N as Hmod by by rewrite N.Div0.add_mod_idemp_l.
  assert (locked (s + 1) v) as Hl1.
  { intros p Hp. apply (inv_sent _ _ Hinv) in Hp as (_ & Hr & Hj). rewrite Hmod in Hj.
    assert (s mod 4 = 0 ∨ s mod 4 = 1 ∨ s mod 4 = 2 ∨ s mod 4 = 3)%N as [E|[E|[E|E]]]
      by (clear -Hm; generalize dependent (s mod 4)%N; intros; lia);
      rewrite E in Hj; replace (s + 1 - 1)%N with s in * by lia;
      [change ((0 + 1) mod 4)%N with 1%N in Hj|change ((1 + 1) mod 4)%N with 2%N in Hj
      |change ((2 + 1) mod 4)%N with 3%N in Hj|change ((3 + 1) mod 4)%N with 0%N in Hj];
      cbn iota beta in Hj; unfold preferred, spread, gathered in Hj;
      replace (s + 1 - 1)%N with s in * by lia.
    - destruct Hj as (Q & HQ & (k & _ & Hh) & _). by eapply Hl, recorded_sent, head_elem.
    - destruct Hj as (Q & HQ & Hall). destruct (quorum_inhabited Q HQ) as (k & Hk).
      by eapply Hl, recorded_sent, Hall.
    - by apply Hl.
    - destruct (N.eqb_spec (s + 1) 4); [lia|].
      destruct Hj as (Q & g & HQ & -> & (k & _ & Hg) & _).
      replace (s + 1 - 2)%N with (s - 1)%N in Hg by lia.
      by eapply (Hl3 E), recorded_sent. }
  split; [done|]. intros E. by replace (s + 1 - 1)%N with s by lia.
Qed.

Lemma locked_later s t v : (4 ≤ s)%N → locked_from s v → (s ≤ t)%N → locked t v.
Proof.
  intros Hs Hl Ht. replace t with (s + N.of_nat (N.to_nat (t - s)))%N by lia.
  assert (∀ n, locked_from (s + N.of_nat n) v) as Hn; [|apply Hn].
  induction n as [|n IH]; [by rewrite N.add_0_r|].
  replace (s + N.of_nat (S n))%N with (s + N.of_nat n + 1)%N by lia.
  apply locked_step; [lia|done].
Qed.

Lemma decision_locks_later s p Q t :
  (s mod 4 = 2)%N → sent sys s p → quorum Q →
  (∀ k, k ∈ Q → p ∈ at_step s (hs k) ∧ ∀ q, q ∈ at_step (s - 1) (hs k) → ole q p) →
  (s + 2 ≤ t)%N → locked t (p_value p).
Proof.
  intros Hs Hp HQ Hall Ht. pose proof (inv_sent _ _ Hinv _ _ Hp) as (_ & Hr & _).
  apply (locked_later (s + 2)); [lia| |done]. split; [by eapply decision_locks|].
  intros E. rewrite <-N.Div0.add_mod_idemp_l, Hs in E. done.
Qed.

(** The fast path locks its value when the leader offers only one. *)
Context (Hleader : leader_consistent sys).

Lemma max_priority_value p q :
  sent sys 4 p → sent sys 4 q → p_priority p = PRIORITY_MAX → p_priority q = PRIORITY_MAX →
  p_value p = p_value q.
Proof.
  intros Hp Hq Pp Pq. apply (inv_sent _ _ Hinv) in Hp as (_ & _ & Hp), Hq as (_ & _ & Hq).
  change (started sys p) in Hp. change (started sys q) in Hq. destruct Hp as (self & v & Hin & -> & Hl), Hq as (self' & v' & Hin' & -> & Hl').
  f_equal. apply Hleader; unfold leader_values; apply list_elem_of_fmap.
  - exists (self, v). split; [done|]. apply list_elem_of_filter. split; [by apply Hl|done].
  - exists (self', v'). split; [done|]. apply list_elem_of_filter. split; [by apply Hl'|done].
Qed.

Lemma fast_locks p Q t :
  p_priority p = PRIORITY_MAX → is_nil p = false → quorum Q →
  (∀ k, k ∈ Q → head (at_step 4 (hs k)) = Some p) → (5 ≤ t)%N → locked t (p_value p).
Proof.
  intros Pp Hn HQ Hall Ht. apply (locked_later 5); [done| |done]. split; [|done].
  intros q Hq. apply (inv_sent _ _ Hinv) in Hq as (_ & _ & Hj). change (preferred hs 5 q) in Hj.
  destruct Hj as (Q' & HQ' & (k' & _ & Hh') & Hall').
  destruct (quorum_meet Q Q' HQ HQ') as (k & Hk & Hk'). change (5 - 1)%N with 4%N in *.
  destruct (Hall' k Hk') as (f & Hf & Hle). rewrite (Hall k Hk) in Hf. injection Hf as <-.
  symmetry. apply max_priority_value; [| |done|].
  - by eapply recorded_sent, head_elem, Hall.
  - by eapply recorded_sent, head_elem.
  - pose proof (ole_priority p q Hn Hle) as Hpq. rewrite Pp in Hpq.
    apply ole_antisym; [apply priority_le_max|done].
Qed.

Lemma inv_agreement d1 d2 :
  d1 ∈ sys_decisions sys → d2 ∈ sys_decisions sys →
  p_value (proof_proposal d1) = p_value (proof_proposal d2).
Proof.
  intros H1%(inv_decision _ _ Hinv) H2%(inv_decision _ _ Hinv).
  destruct d1 as [? ? ? ? ? p1 ?|? ? ? ? ? s1 p1 ?], d2 as [? ? ? ? ? p2 ?|? ? ? ? ? s2 p2 ?]; cbn in *.
  - destruct H1 as (_ & _ & Q1 & HQ1 & A1), H2 as (_ & _ & Q2 & HQ2 & A2).
    destruct (quorum_meet Q1 Q2 HQ1 HQ2) as (k & K1 & K2).
    specialize (A1 k K1). specialize (A2 k K2). by simplify_eq.
  - destruct H1 as (P1 & N1 & Q1 & HQ1 & A1), H2 as (S2 & Sent2 & _).
    pose proof (inv_sent _ _ Hinv _ _ Sent2) as (_ & Hr & _).
    symmetry. eapply (fast_locks p1 Q1 s2); try done.
    destruct (decide (s2 = 4%N)) as [->|]; [done|lia].
  - destruct H1 as (S1 & Sent1 & _), H2 as (P2 & N2 & Q2 & HQ2 & A2).
    pose proof (inv_sent _ _ Hinv _ _ Sent1) as (_ & Hr & _).
    eapply (fast_locks p2 Q2 s1); try done.
    destruct (decide (s1 = 4%N)) as [->|]; [done|lia].
  - destruct H1 as (S1 & Sent1 & Q1 & HQ1 & A1), H2 as (S2 & Sent2 & Q2 & HQ2 & A2).
    pose proof (N.div_mod s1 4 ltac:(done)). pose proof (N.div_mod s2 4 ltac:(done)).
    destruct (N.lt_trichotomy (s1 / 4) (s2 / 4)) as [Hlt|[Heq|Hgt]].
    + symmetry. eapply (decision_locks_later s1 p1 Q1 s2); try done. lia.
    + assert (s1 = s2) as -> by lia. f_equal.
      pose proof (inv_sent _ _ Hinv _ _ Sent1) as (N1 & _ & _).
      apply proposal_ole_antisym; [done| |].
      * eapply (decision_bounds s2 p2 Q2); try done. intros k Hk. by apply A2.
      * eapply (decision_bounds s2 p1 Q1); try done. intros k Hk. by apply A1.
    + eapply (decision_locks_later s2 p2 Q2 s1); try done. lia.
Qed.
End locked.

(** ** The invariant is preserved *)

Definition slots_ok sys hs : Prop := ∀ r, let st := slot_at x sys r in
  isr_refines (ss_isr st) (hs r) ∧ history_wf (hs r)
  ∧ ∀ d, ss_decided_proof st = Some d → d ∈ sys_decisions sys.

(** What remains to show of a step: only what is new. *)
Lemma inv_extend sys hs sys' hs' :
  inv sys hs → extends sys hs sys' hs' →
  slots_ok sys' hs' →
  (∀ r s p, (s, p) ∈ hs' r → (s, p) ∈ hs r ∨ sent sys' s p) →
  (∀ s p, sent sys' s p → sent sys s p ∨ justified sys' hs' s p) →
  (∀ r rq sm, (r, rq, sm) ∈ sys_replies sys' →
     (r, rq, sm) ∈ sys_replies sys ∨ (r, rq) ∈ sys_requests sys' ∧ answered sys' hs' r rq sm) →
  (∀ i ps, sys_proposers sys' !! i = Some ps →
     sys_proposers sys !! i = Some ps ∨ proposer_ok sys' hs' ps) →
  (∀ d, d ∈ sys_decisions sys' → d ∈ sys_decisions sys ∨ decided sys' hs' d) →
  inv sys' hs'.
Proof.
  intros Hi Hx Hs Hh Hsent Hr Hp Hd. split.
  - done.
  - intros r s p [Hin|Hnew]%Hh; [|done]. eapply sent_stable; [done|]. by eapply inv_hist.
  - intros s p [Hold|Hnew]%Hsent; [|done]. eapply justified_stable; [done|]. by eapply inv_sent.
  - intros r rq sm [Hold|Hnew]%Hr; [|done]. apply (inv_reply _ _ Hi) in Hold as [Hrq Ha].
    split; [by apply (ext_requests _ _ _ _ Hx)|]. eapply answered_stable; [done| |done].
    assert (justified sys hs (rq_step rq) (rq_proposal rq)) as (_ & ? & _); [|lia].
    eapply inv_sent; [done|]. by exists r, rq.
  - intros i ps [Hold|Hnew]%Hp; [|done]. eapply proposer_ok_stable; [done|]. by eapply inv_proposer.
  - intros d [Hold|Hnew]%Hd; [|done]. eapply decided_stable; [done|]. by eapply inv_decision.
Qed.

Lemma extends_same sys sys' hs :
  inv sys hs → sys_requests sys ⊆ sys_requests sys' → sys_starts sys ⊆ sys_starts sys' →
  sys_decisions sys ⊆ sys_decisions sys' → extends sys hs sys' hs.
Proof. intros Hi ? ? ?. split; try done; [by left|]. intros k. by apply (inv_slot _ _ Hi k). Qed.

Lemma slots_ok_same sys sys' hs :
  inv sys hs → sys_slots sys' = sys_slots sys → sys_decisions sys ⊆ sys_decisions sys' →
  slots_ok sys' hs.
Proof.
  intros Hi Hs Hd r. unfold slot_at. rewrite Hs. destruct (inv_slot _ _ Hi r) as (? & ? & Hdec).
  split_and!; [done|done|]. intros d Hd'. apply Hd. by apply Hdec.
Qed.

Lemma inv_init : inv sys_init (λ _, []).
Proof.
  split; cbn.
  - intros r. unfold slot_at; cbn. split_and!; [apply isr_refines_default| |done].
    by intros y Hy%elem_of_nil.
  - by intros r s p Hin%elem_of_nil.
  - by intros s p (r & rq & Hin%elem_of_nil & _).
  - by intros r rq sm Hin%elem_of_nil.
  - done.
  - by intros d Hin%elem_of_nil.
Qed.

Lemma is_nil_set_priority p prio : is_nil (set_priority p prio) = is_nil p.
Proof. done. Qed.

(** Requests of a justified progress are justified. *)
Lemma request_justified sys hs self pr rq :
  progress_ok sys hs self pr → request_of self pr rq →
  justified sys hs (rq_step rq) (rq_proposal rq).
Proof.
  intros (Hctx & Hslot & Hn & Hs & _ & Hj) (-> & _ & Hp).
  destruct (N.eqb_spec (pp_step pr) 4) as [E4|Hne].
  - rewrite E4 in Hp |- *. cbn in Hp. destruct Hp as (prio & -> & Hmax), Hj as (v & Hin & Hv).
    split_and!; [done|done|done|]. cbn. exists self, v. split_and!; [done|done|].
    intros Hpr. by apply Hmax.
  - destruct Hj as (_ & _ & Hj). destruct (N.eqb_spec (pp_step pr mod 4) 0) as [E0|Hne0].
    + destruct Hp as (prio & -> & _). split_and!; [done|lia|lia|].
      rewrite E0 in Hj |- *. destruct (N.eqb_spec (pp_step pr) 4); [done|].
      destruct Hj as (Q & g & ?). by exists Q, g.
    + rewrite Hp. split_and!; [done|lia|lia|].
      destruct (pp_step pr mod 4)%N as [|[[]|[]|]]; done.
Qed.

Lemma in_context_fields self :
  in_context x self = true →
  c_cluster_id self = x_cluster_id x ∧ c_epoch self = x_epoch x ∧ c_config_id self = x_config_id x
  ∧ c_config_digest self = m_digest m ∧ c_membership self = m.
Proof. unfold in_context. intros Hc. bool_prop. naive_solver. Qed.

Lemma inv_start slots reqs reps props starts decs hs i self prev_hash proposal_id command :
  in_context x self = true →
  inv (mkSys slots reqs reps props starts decs) hs →
  inv (mkSys slots reqs reps
         (<[i := Idle self (initial_progress self (x_slot x) prev_hash proposal_id command)]> props)
         (starts ++ [(self, offered_value self (x_slot x) prev_hash command)]) decs) hs.
Proof.
  intros Hc Hi. eapply inv_extend; [exact Hi|apply extends_same; cbn; [done|done|set_solver|done]|..].
  - by eapply slots_ok_same.
  - auto.
  - auto.
  - auto.
  - intros j ps. cbn. rewrite lookup_insert_Some. intros [[<- <-]|[_ Hps]]; [right|by left].
    unfold proposer_ok, progress_ok; cbn. split_and!; try done.
    exists (offered_value self (x_slot x) prev_hash command). set_solver.
  - auto.
Qed.

Lemma elem_of_zip_l {A B} (l : list A) (k : list B) a b : (a, b) ∈ zip l k → a ∈ l ∧ b ∈ k.
Proof.
  revert k; induction l as [|y l IH]; intros [|z k] Hin; try by apply elem_of_nil in Hin.
  apply elem_of_cons in Hin as [[= -> ->]|Hin]; [set_solver|]. apply IH in Hin. set_solver.
Qed.

Lemma inv_send slots reqs reps props starts decs hs i self env pr pr' rqs :
  props !! i = Some (Idle self pr) → sampler_ok env →
  drive_prepare self env pr = Ok (pr', rqs) →
  inv (mkSys slots reqs reps props starts decs) hs →
  inv (mkSys slots (reqs ++ zip (m_members m) rqs) reps
         (<[i := Waiting self pr' rqs]> props) starts decs) hs.
Proof.
  intros Hps Hs Hd Hi. pose proof (inv_proposer _ _ Hi i _ Hps) as Hok. cbn in Hok.
  pose proof Hok as (Hc & Hslot & Hn & Hst & Hcache & _).
  pose proof (in_context_fields self Hc) as (_ & _ & _ & _ & Hm).
  apply drive_prepare_inv in Hd as (E1 & E2 & E3 & Hcache' & Hlen & Hall); [|done|done].
  rewrite Hm in Hlen. set (sys' := mkSys slots _ reps _ starts decs).
  assert (extends (mkSys slots reqs reps props starts decs) hs sys' hs) as Hx.
  { apply extends_same; cbn; [done|set_solver|done|done]. }
  assert (progress_ok sys' hs self pr') as Hok'.
  { apply (progress_ok_stable _ _ _ _ Hx) in Hok as (? & ? & ? & ? & _ & Hj).
    unfold progress_ok. rewrite E1, E2, E3. done. }
  eapply inv_extend; [exact Hi|exact Hx|..].
  - by eapply slots_ok_same.
  - auto.
  - intros s p (r & rq & Hin & Hstep & Hp). cbn in Hin.
    apply elem_of_app in Hin as [Hin|Hin]; [left; by exists r, rq|right].
    apply elem_of_zip_l in Hin as [_ Hin]. rewrite Forall_forall in Hall.
    rewrite <-Hstep, <-Hp. by eapply request_justified, Hall.
  - auto.
  - intros j ps. cbn. rewrite lookup_insert_Some. intros [[<- <-]|[_ ?]]; [right|by left].
    cbn. split_and!; [done|done|]. intros r rq Hin. rewrite Forall_forall in Hall.
    pose proof (elem_of_zip_l _ _ _ _ Hin) as [_ Hrq]. destruct (Hall rq Hrq) as (Hstep & _ & Hp).
    split_and!; [set_solver|done|]. intros Hne. by destruct (N.eqb_spec (pp_step pr' mod 4) 0).
  - auto.
Qed.

(** *** Recorders *)

Definition upd hs (r : NodeId) (h : list input) : hist := λ k, if decide (k = r) then h else hs k.

Lemma upd_same hs r h : upd hs r h r = h.
Proof. unfold upd. by case_decide. Qed.
Lemma upd_other hs r h k : k ≠ r → upd hs r h k = hs k.
Proof. intros. unfold upd. by case_decide. Qed.

Lemma observe_nonempty h s p : observe h s p ≠ [].
Proof.
  unfold observe. destruct (N.ltb_spec s (current_step h)) as [Hlt|_].
  - intros ->. cbn in Hlt. lia.
  - by destruct h.
Qed.

Lemma current_recorded h : h ≠ [] → ∃ p, head (at_step (current_step h) h) = Some p.
Proof.
  intros Hne. destruct (last h) as [[s q]|] eqn:El; [|by apply last_None in El].
  assert (q ∈ at_step (current_step h) h) as Hq.
  { unfold current_step. rewrite El. cbn. apply elem_at_step. by apply last_Some_elem_of. }
  destruct (at_step (current_step h) h); [by apply elem_of_nil in Hq|by eexists].
Qed.

Lemma observe_elem h s p t q : (t, q) ∈ observe h s p → (t, q) ∈ h ∨ (t, q) = (s, p).
Proof. unfold observe. destruct (s <? current_step h)%N; set_solver. Qed.

(** The answer to a recorded request. *)
Lemma answered_record sys hs r rq st :
  history_wf (hs r) → (4 ≤ rq_step rq ≤ u64_max)%N → isr_refines st (hs r) →
  let h' := observe (hs r) (rq_step rq) (rq_proposal rq) in
  let st' := isr_next st (rq_step rq) (rq_proposal rq) in
  ∀ sm, sm_recorder_id sm = r → sm_decided sm = None → sm_step sm = isr_step st' →
    sm_first_current sm = isr_first_current st' → sm_aggregate_prior sm = isr_aggregate_prior st' →
    answered sys (upd hs r h') r rq sm.
Proof.
  intros Hwf Hs Hr h' st' sm Hid Hnone Hst Hf Hp.
  pose proof (isr_next_refines st (hs r) (rq_step rq) (rq_proposal rq) Hwf ltac:(lia) Hr) as [R1 R2 _ R4].
  fold h' st' in R1, R2, R4.
  pose proof (isr_record_reaches st (rq_step rq) (rq_proposal rq)) as Hreach. fold st' in Hreach.
  split; [done|congruence|]. intros _. rewrite upd_same, Hst, R1. split_and!.
  - rewrite <-R1. done.
  - done.
  - intros Heq. apply elem_at_step. unfold h', observe in *.
    destruct (N.ltb_spec (rq_step rq) (current_step (hs r))); [lia|]. set_solver.
  - destruct (current_recorded h') as [f Hf']; [apply observe_nonempty|].
    exists f. split; [|done]. by rewrite Hf, R2.
  - rewrite Hp. unfold prior_step_inputs in R4.
    destruct (N.eqb_spec (current_step h') 0); [|done]. lia.
Qed.

Lemma slot_at_insert slots reqs reps props starts decs r st k :
  slot_at x (mkSys (<[r := st]> slots) reqs reps props starts decs) k
  = if decide (k = r) then st else slot_at x (mkSys slots reqs reps props starts decs) k.
Proof.
  unfold slot_at; cbn. case_decide as E; [subst; by rewrite lookup_insert_eq|].
  by rewrite lookup_insert_ne by congruence.
Qed.

(** Replacing the state of one recorder by one with the same register, or with
    the register after a record call. *)
Lemma slots_ok_insert slots reqs reps reps' props starts decs hs r st h' :
  inv (mkSys slots reqs reps props starts decs) hs →
  isr_refines (ss_isr st) h' → history_wf h' →
  (∀ d, ss_decided_proof st = Some d → d ∈ decs) →
  slots_ok (mkSys (<[r := st]> slots) reqs reps' props starts decs) (upd hs r h').
Proof.
  intros Hi Hr Hwf Hd k. rewrite slot_at_insert. unfold upd. case_decide; [done|].
  by destruct (inv_slot _ _ Hi k) as (? & ? & ?).
Qed.

Lemma upd_id_grows hs r k : grows (hs k) (upd hs r (hs r) k).
Proof. unfold upd. case_decide; [subst|]; by left. Qed.

Lemma extends_upd sys sys' hs r h' :
  inv sys hs → grows (hs r) h' → sys_requests sys ⊆ sys_requests sys' →
  sys_starts sys ⊆ sys_starts sys' → sys_decisions sys ⊆ sys_decisions sys' →
  extends sys hs sys' (upd hs r h').
Proof.
  intros Hi Hg ? ? ?. split; try done.
  - intros k. unfold upd. case_decide; [by subst|by left].
  - intros k. by apply (inv_slot _ _ Hi k).
Qed.

(** A recorder answers a request. *)
Lemma inv_deliver slots reqs reps props starts decs hs r rq st sm :
  (r, rq) ∈ reqs →
  slot_record_proposal r (default (fresh_slot x) (slots !! r)) rq = Ok (st, sm) →
  inv (mkSys slots reqs reps props starts decs) hs →
  ∃ hs', inv (mkSys (<[r := st]> slots) reqs (reps ++ [(r, rq, sm)]) props starts decs) hs'.
Proof.
  intros Hin Hrec Hi. pose proof (inv_slot _ _ Hi r) as (Hr & Hwf & Hdec).
  set (st0 := slot_at x _ r) in *. change (default (fresh_slot x) (slots !! r)) with st0 in Hrec.
  assert (sent (mkSys slots reqs reps props starts decs) (rq_step rq) (rq_proposal rq)) as Hsent
    by by exists r, rq.
  pose proof (inv_sent _ _ Hi _ _ Hsent) as (_ & Hbound & _).
  unfold slot_record_proposal in Hrec. destruct (ss_decided_proof st0) as [d|] eqn:Ed.
  - injection Hrec as <- <-. exists (upd hs r (hs r)).
    eapply inv_extend; [exact Hi|apply extends_upd; try done; by left|..].
    + eapply slots_ok_insert; try done. intros d' Hd'. rewrite Ed in Hd'. by apply Hdec.
    + intros k s p Hk. left. unfold upd in Hk. case_decide; by subst.
    + auto.
    + cbn. intros r' rq' sm' [?|Hnew]%elem_of_app; [by left|right].
      apply list_elem_of_singleton in Hnew. injection Hnew as -> -> ->. split; [done|].
      split; cbn; [done| |done]. intros d' [= <-]. by apply Hdec.
    + auto.
    + auto.
  - apply bind_Ok_inv in Hrec as ([next reply] & Hrec & Hres). injection Hres as <- <-.
    unfold slot_record in Hrec. apply bind_Ok_inv in Hrec as ([] & _ & Hrec). cbn in Hrec.
    injection Hrec as <- <-.
    exists (upd hs r (observe (hs r) (rq_step rq) (rq_proposal rq))).
    eapply inv_extend; [exact Hi|apply extends_upd; try done; apply observe_grows|..].
    + eapply slots_ok_insert; [done| | |].
      * cbn. apply isr_next_refines; [done|lia|done].
      * apply history_wf_observe; [done|lia].
      * cbn. congruence.
    + intros k s p. unfold upd. case_decide; [subst|by left].
      intros [?|[= -> ->]]%observe_elem; [by left|right]. by exists r, rq.
    + auto.
    + cbn. intros r' rq' sm' [?|Hnew]%elem_of_app; [by left|right].
      apply list_elem_of_singleton in Hnew. injection Hnew as -> -> ->. split; [done|].
      eapply answered_record; [done|lia| | | | | | ]; try exact Hr; done.
    + auto.
    + auto.
Qed.

Lemma inv_install slots reqs reps props starts decs hs r d st :
  d ∈ decs → slot_install_proof (default (fresh_slot x) (slots !! r)) d = Ok st →
  inv (mkSys slots reqs reps props starts decs) hs →
  inv (mkSys (<[r := st]> slots) reqs reps props starts decs) (upd hs r (hs r)).
Proof.
  intros Hd Hins Hi. pose proof (inv_slot _ _ Hi r) as (Hr & Hwf & Hdec).
  set (st0 := slot_at x _ r) in *. change (default (fresh_slot x) (slots !! r)) with st0 in Hins.
  assert (ss_isr st = ss_isr st0 ∧ ∀ d', ss_decided_proof st = Some d' → d' ∈ decs) as [Hisr Hdec'].
  { unfold slot_install_proof in Hins. destruct (ss_decided_proof st0) as [d0|] eqn:E0.
    - destruct (neqb _ _); [done|]. injection Hins as <-. split; [done|].
      intros d' ?. apply Hdec. congruence.
    - injection Hins as <-. split; [done|]. cbn. by intros d' [= <-]. }
  eapply inv_extend; [exact Hi|apply extends_upd; try done; by left|..]; auto.
  - eapply slots_ok_insert; [done|by rewrite Hisr|done|done].
  - intros k s p Hk. left. unfold upd in Hk. case_decide; by subst.
Qed.

(** *** Proposers *)

(** A reply that a waiting proposer may use. *)
Definition usable sys hs (pr : ProposerProgress) (sm : RecordSummary) : Prop :=
  ∃ r rq, r ∈ m_members m ∧ rq_step rq = pp_step pr
    ∧ ((pp_step pr mod 4 ≠ 0)%N → rq_proposal rq = pp_proposal pr)
    ∧ answered sys hs r rq sm.

(** What a quorum of usable replies at the proposer's own step establishes. *)
Record step_quorum hs (pr : ProposerProgress) (qr : list RecordSummary) : Prop := {
  sq_quorum : quorum (sm_recorder_id <$> qr);
  sq_reply : ∀ sm, sm ∈ qr →
    (pp_step pr ≤ current_step (hs (sm_recorder_id sm)))%N
    ∧ ((pp_step pr mod 4 ≠ 0)%N → pp_proposal pr ∈ at_step (pp_step pr) (hs (sm_recorder_id sm)))
    ∧ (∃ f, sm_first_current sm = Some f
         ∧ head (at_step (pp_step pr) (hs (sm_recorder_id sm))) = Some f)
    ∧ greatest (sm_aggregate_prior sm) (at_step (pp_step pr - 1) (hs (sm_recorder_id sm)))
}.

Lemma reply_quorum_step sys hs self pr replies qr :
  c_membership self = m → (∀ sm, sm ∈ replies → usable sys hs pr sm) →
  (∀ sm, sm ∈ replies → sm_decided sm = None) →
  reply_quorum self pr replies qr → step_quorum hs pr qr.
Proof.
  intros Hm Hu Hn [Hsub Hnd Hsz]. rewrite Hm in Hsz. split.
  - split; [done| |by rewrite length_fmap, Hsz].
    intros k (sm & -> & Hsm)%list_elem_of_fmap. apply Hsub in Hsm as [Hsm _].
    destruct (Hu sm Hsm) as (r & rq & Hr & _ & _ & [-> _ _]). done.
  - intros sm Hsm. apply Hsub in Hsm as [Hsm Hst].
    destruct (Hu sm Hsm) as (r & rq & Hr & Hrq & Hpr & [Hid _ Hrec]).
    destruct (Hrec (Hn sm Hsm)) as (Hstep & Hin & Hf & Hp). rewrite Hid, <-Hst.
    split_and!; [lia| |done|done]. intros Hne. rewrite Hst in Hne |- *. rewrite <-Hpr, <-Hrq by done.
    apply Hin. congruence.
Qed.

Lemma step_quorum_ex hs pr qr k :
  step_quorum hs pr qr → k ∈ sm_recorder_id <$> qr → ∃ sm, sm ∈ qr ∧ sm_recorder_id sm = k.
Proof. intros _ (sm & -> & Hsm)%list_elem_of_fmap. eauto. Qed.

(** Phase 0: the greatest first proposal becomes the preferred one. *)
Lemma preferred_of_quorum hs pr qr p :
  step_quorum hs pr qr → iter_max (omap sm_first_current qr) = Some p →
  preferred hs (pp_step pr + 1) p.
Proof.
  intros [HQ Hr] [Hin Hle]%iter_max_Some. exists (sm_recorder_id <$> qr).
  replace (pp_step pr + 1 - 1)%N with (pp_step pr) by lia. split_and!; [done| |].
  - apply list_elem_of_omap in Hin as (sm & Hsm & Hf). exists (sm_recorder_id sm).
    split; [by apply list_elem_of_fmap_2|]. destruct (Hr sm Hsm) as (_ & _ & (f & Hf' & Hh) & _).
    congruence.
  - intros k (sm & -> & Hsm)%list_elem_of_fmap. destruct (Hr sm Hsm) as (_ & _ & (f & Hf & Hh) & _).
    exists f. split; [done|]. apply Hle, list_elem_of_omap. eauto.
Qed.

(** Phase 1: the proposal has been spread. *)
Lemma spread_of_quorum hs pr qr :
  (pp_step pr mod 4 ≠ 0)%N → step_quorum hs pr qr → spread hs (pp_step pr + 1) (pp_proposal pr).
Proof.
  intros Hne [HQ Hr]. exists (sm_recorder_id <$> qr). split; [done|].
  replace (pp_step pr + 1 - 1)%N with (pp_step pr) by lia.
  intros k (sm & -> & Hsm)%list_elem_of_fmap. by apply Hr.
Qed.

(** Phase 3: the greatest carried-over proposal is gathered. *)
Lemma gathered_of_quorum hs pr qr p :
  (4 ≤ pp_step pr)%N → step_quorum hs pr qr → iter_max (omap sm_aggregate_prior qr) = Some p →
  gathered hs (pp_step pr + 1) p.
Proof.
  intros Hs [HQ Hr] [Hin Hle]%iter_max_Some. exists (sm_recorder_id <$> qr), p.
  replace (pp_step pr + 1 - 2)%N with (pp_step pr - 1)%N by lia.
  replace (pp_step pr + 1 - 1)%N with (pp_step pr) by lia. split_and!; [done|done| |].
  - apply list_elem_of_omap in Hin as (sm & Hsm & Hp). exists (sm_recorder_id sm).
    split; [by apply list_elem_of_fmap_2|]. destruct (Hr sm Hsm) as (_ & _ & _ & Hg).
    rewrite Hp in Hg. apply Hg.
  - intros k (sm & -> & Hsm)%list_elem_of_fmap. destruct (Hr sm Hsm) as (? & _ & _ & Hg).
    split; [done|]. intros q Hq. destruct (sm_aggregate_prior sm) as [a|] eqn:Ea.
    + eapply pre_trans; [by apply Hg|]. apply Hle, list_elem_of_omap. eauto.
    + cbn in Hg. rewrite Hg in Hq. by apply elem_of_nil in Hq.
Qed.

(** Phase 2: a maximum that equals the proposal decides it. *)
Lemma decided_of_quorum hs pr qr :
  (pp_step pr mod 4 ≠ 0)%N → step_quorum hs pr qr →
  iter_max (omap sm_aggregate_prior qr) = Some (pp_proposal pr) →
  ∀ k, k ∈ sm_recorder_id <$> qr →
    pp_proposal pr ∈ at_step (pp_step pr) (hs k)
    ∧ ∀ q, q ∈ at_step (pp_step pr - 1) (hs k) → ole q (pp_proposal pr).
Proof.
  intros Hne [HQ Hr] [Hin Hle]%iter_max_Some k (sm & -> & Hsm)%list_elem_of_fmap.
  destruct (Hr sm Hsm) as (_ & Hp & _ & Hg). split; [by apply Hp|].
  intros q Hq. destruct (sm_aggregate_prior sm) as [a|] eqn:Ea.
  - eapply pre_trans; [by apply Hg|]. apply Hle, list_elem_of_omap. eauto.
  - cbn in Hg. rewrite Hg in Hq. by apply elem_of_nil in Hq.
Qed.

Lemma fast_candidate_inv step summaries p :
  fast_candidate step summaries = Some p →
  step = 4%N ∧ p_priority p = PRIORITY_MAX
  ∧ ∀ s, s ∈ summaries → rs_first_current s = Some p.
Proof.
  unfold fast_candidate. destruct (head summaries) as [s|]; [|done]. cbn.
  destruct (rs_first_current s) as [q|]; [|done]. cbn.
  destruct (_ && _ && _) eqn:E; [|done]. intros [= ->]. bool_prop.
  destruct E as [[? ?] Hall]. split_and!; [done|done|]. rewrite forallb_forall in Hall.
  intros s' Hs'%list_elem_of_In%Hall. unfold option_holds in Hs'.
  destruct (rs_first_current s'); [|done]. by apply proposal_exact_true in Hs' as ->.
Qed.

Lemma mod4_cases (s : N) : (s mod 4 = 0 ∨ s mod 4 = 1 ∨ s mod 4 = 2 ∨ s mod 4 = 3)%N.
Proof.
  pose proof (N.mod_lt s 4 ltac:(done)) as Hm. generalize dependent (s mod 4)%N. intros; lia.
Qed.

Lemma advanced_ok sys hs self env pr pr1 o :
  progress_ok sys hs self pr → pp_slot pr1 = pp_slot pr → pp_step pr1 = pp_step pr →
  (match ((pp_step pr + 1) mod 4)%N with
   | 0%N => gathered hs (pp_step pr + 1) (pp_proposal pr1)
   | 1%N => preferred hs (pp_step pr + 1) (pp_proposal pr1)
   | 2%N => spread hs (pp_step pr + 1) (pp_proposal pr1)
   | _ => sent sys (pp_step pr) (pp_proposal pr1)
   end) →
  advance self env pr1 = Ok o →
  ∃ next, o = Progress next ∧ progress_ok sys hs self next.
Proof.
  intros (Hc & Hslot & _ & Hs & _ & _) E1 E2 Hj Ha.
  apply advance_inv in Ha as (next & -> & N1 & N2 & N3 & N4 & N5 & N6).
  rewrite E2 in N2. exists next. split; [done|]. unfold progress_ok.
  rewrite N4, N5, N1, E1. split_and!; try done; [lia|].
  destruct (N.eqb_spec (pp_step next) 4); [lia|]. split_and!; [done|lia|lia|].
  rewrite N2 in *. destruct (N.eqb_spec (pp_step pr + 1) 4); [lia|].
  replace (pp_step pr + 1 - 1)%N with (pp_step pr) by lia.
  destruct ((pp_step pr + 1) mod 4)%N as [|[[]|[]|]]; done.
Qed.

(** The outcome of a phase on a quorum: the next progress is justified, a
    decision is sound. *)
Lemma phase_outcome sys hs self env pr pr' qr o :
  inv sys hs → progress_ok sys hs self pr → same_progress pr pr' → step_quorum hs pr qr →
  ((pp_step pr mod 4 ≠ 0)%N → sent sys (pp_step pr) (pp_proposal pr)) →
  decide_phase self env pr' qr = Ok o →
  (∃ next, o = Progress next ∧ progress_ok sys hs self next)
  ∨ (∃ d, o = Decision d ∧ decided sys hs d).
Proof.
  intros Hi Hok [E1 E2 E3 _] Hq Hown. pose proof Hok as (_ & _ & _ & Hs & _ & _).
  assert ((pp_step pr + 1) mod 4 = (pp_step pr mod 4 + 1) mod 4)%N as Hmod
    by by rewrite N.Div0.add_mod_idemp_l.
  unfold decide_phase. rewrite E2, E3.
  destruct (mod4_cases (pp_step pr)) as [E|[E|[E|E]]]; rewrite E; intros Hd.
  - destruct (fast_candidate _ _) as [p|] eqn:Ef.
    + right. apply finish_decision_inv in Hd as [-> _]. eexists. split; [done|].
      apply fast_candidate_inv in Ef as (E4 & Hmax & Hall).
      assert (∀ k, k ∈ sm_recorder_id <$> qr → head (at_step 4 (hs k)) = Some p) as Hh.
      { intros k (sm & -> & Hsm)%list_elem_of_fmap.
        destruct (sq_reply _ _ _ Hq sm Hsm) as (_ & _ & (f & Hf & Hh) & _). rewrite E4 in Hh.
        assert (rs_first_current (recorder_summary sm) = Some p) as Hp
          by by apply Hall, list_elem_of_fmap_2.
        cbn in Hp. congruence. }
      destruct (quorum_inhabited _ (sq_quorum _ _ _ Hq)) as (k & Hk).
      assert (sent sys 4 p) as Hsp by (by eapply recorded_sent, head_elem, Hh).
      apply (inv_sent _ _ Hi) in Hsp as (Hn & _). split_and!; [done|done|].
      exists (sm_recorder_id <$> qr). split; [apply Hq|done].
    + left. res_inv. eapply (advanced_ok sys hs self env pr (set_proposal pr' v)); [done|done|done| |exact Hd].
      rewrite Hmod, E. by eapply preferred_of_quorum.
  - left. eapply (advanced_ok sys hs self env pr pr'); [done|done|done| |exact Hd].
    rewrite Hmod, E, E3. apply (spread_of_quorum hs pr qr); [by rewrite E|done].
  - destruct (eqb _ _) eqn:Em.
    + right. apply finish_decision_inv in Hd as [-> _]. eexists. split; [done|]. bool_prop.
      assert (pp_step pr mod 4 ≠ 0)%N as Hne by by rewrite E.
      split_and!; [done|by apply Hown|]. exists (sm_recorder_id <$> qr). split; [apply Hq|].
      by apply decided_of_quorum.
    + left. eapply (advanced_ok sys hs self env pr pr'); [done|done|done| |exact Hd].
      rewrite Hmod, E, E3. apply Hown. by rewrite E.
  - left. res_inv. eapply (advanced_ok sys hs self env pr (set_proposal pr' v)); [done|done|done| |exact Hd].
    rewrite Hmod, E. eapply gathered_of_quorum; [lia|done|done].
Qed.

Lemma drive_outcome_ok sys hs self env pr rqs targets replies o :
  inv sys hs → proposer_ok sys hs (Waiting self pr rqs) →
  (∀ sm, sm ∈ replies → ∃ r rq,
     (r, rq) ∈ zip (m_members m) rqs ∧ (r, rq, sm) ∈ sys_replies sys) →
  drive_replies self env pr targets replies = Ok o →
  (∃ next, (o = Progress next ∨ o = Pending next) ∧ progress_ok sys hs self next)
  ∨ (∃ d, o = Decision d ∧ decided sys hs d).
Proof.
  intros Hi (Hok & Hlen & Hrq) Hrep Hd%drive_replies_outcome. pose proof Hok as (Hc & Hslot & Hn & Hs & Hcache & Hj).
  pose proof (in_context_fields self Hc) as (_ & _ & _ & _ & Hm).
  assert (∀ sm, sm ∈ replies → usable sys hs pr sm) as Hu.
  { intros sm Hsm. destruct (Hrep sm Hsm) as (r & rq & Hz & Hin).
    destruct (Hrq r rq Hz) as (_ & ? & ?). apply (inv_reply _ _ Hi) in Hin as [_ ?].
    apply elem_of_zip_l in Hz as [? _]. by exists r, rq. }
  destruct Hd as [d sm Hsm Hdec|next sm Hnone Hsm Hlt N1 N2 N3 N4|next [N1 N2 N3 N4]|qr pr' o Hnone Hsame Hq Hd].
  - right. exists d. split; [done|]. apply (inv_decision _ _ Hi).
    destruct (Hu sm Hsm) as (r & rq & _ & _ & _ & [_ Hdd _]). by apply Hdd.
  - left. exists next. split; [by left|].
    destruct (Hu sm Hsm) as (r & rq & _ & Hst & _ & [_ _ Hrec]).
    destruct (Hrec (Hnone sm Hsm)) as (Hstep & _ & (f & Hf & Hh) & _).
    rewrite Hf in N4. cbn in N4.
    assert (sent sys (sm_step sm) f) as Hsent by by eapply recorded_sent, head_elem.
    apply (inv_sent _ _ Hi) in Hsent as Hjust. pose proof Hjust as (Hnf & Hb & _).
    unfold progress_ok. rewrite N1, N2, N3, N4. split_and!; try done; [lia|lia|].
    by destruct (N.eqb_spec (sm_step sm) 4); [lia|].
  - left. exists next. split; [by right|]. unfold progress_ok. rewrite N1, N2, N3, N4. done.
  - apply reply_quorum_step with (sys := sys) (hs := hs) in Hq; [|done..].
    destruct (phase_outcome sys hs self env pr pr' qr o) as [(next & -> & ?)|?]; try done.
    + intros Hne. destruct (membership_wf_inv m Hmem) as [Hml _].
      destruct (m_members m) as [|r0 ms] eqn:Em; [cbn in Hml; lia|].
      destruct rqs as [|rq0 rqs]; [cbn in Hlen; lia|].
      destruct (Hrq r0 rq0) as (Hin & Hst & Hp); [by left|]. exists r0, rq0. by rewrite Hp.
    + left. eauto.
    + by right.
Qed.

Lemma inv_step sys sys' hs : sys_step x sys sys' → inv sys hs → ∃ hs', inv sys' hs'.
Proof.
  intros Hstep Hi. destruct Hstep as
    [slots reqs reps props starts decs i self prev_hash proposal_id command Hc Hf
    |slots reqs reps props starts decs i self env pr pr' rqs Hps Hsam Hd
    |slots reqs reps props starts decs r rq st sm Hin Hrec
    |slots reqs reps props starts decs i self env pr rqs replies o next Hps Hrep Hd Hnext
    |slots reqs reps props starts decs i self env pr rqs replies d Hps Hrep Hd
    |slots reqs reps props starts decs r d st Hin Hins
    |slots reqs reps props starts decs i].
  - exists hs. by apply inv_start.
  - exists hs. by eapply inv_send.
  - by eapply inv_deliver.
  - exists hs. pose proof (inv_proposer _ _ Hi i _ Hps) as Hok.
    destruct (drive_outcome_ok _ hs self env pr rqs _ replies o Hi Hok Hrep Hd)
      as [(next' & Ho & Hok')|(d & -> & _)]; [|by destruct Hnext].
    assert (next' = next) as -> by (destruct Ho, Hnext; congruence).
    eapply inv_extend; [exact Hi|by apply extends_same|by eapply slots_ok_same|..]; auto.
    intros j ps. cbn. rewrite lookup_insert_Some. intros [[<- <-]|[_ ?]]; [by right|by left].
  - exists hs. pose proof (inv_proposer _ _ Hi i _ Hps) as Hok.
    destruct (drive_outcome_ok _ hs self env pr rqs _ replies _ Hi Hok Hrep Hd)
      as [(next' & [Ho|Ho] & _)|(d' & [= <-] & Hdec)]; [done|done|].
    assert (decs ⊆ decs ++ [d]) by set_solver.
    set (sys' := mkSys _ _ _ _ _ (decs ++ [d])).
    assert (extends (mkSys slots reqs reps props starts decs) hs sys' hs) as Hx by by apply extends_same.
    eapply inv_extend; [exact Hi|exact Hx|by eapply slots_ok_same|..]; auto.
    + intros j ps. cbn. rewrite lookup_delete_Some. intros [_ ?]. by left.
    + cbn. intros d' [?|Hd']%elem_of_app; [by left|right]. apply list_elem_of_singleton in Hd' as ->.
      by eapply decided_stable.
  - eexists. by eapply inv_install.
  - exists hs. eapply inv_extend; [exact Hi|by apply extends_same|by eapply slots_ok_same|..]; auto.
    intros j ps. cbn. rewrite lookup_delete_Some. intros [_ ?]. by left.
Qed.

Lemma reachable_inv sys : reachable x sys → ∃ hs, inv sys hs.
Proof.
  unfold reachable. intros Hr. assert (∃ hs, inv sys_init hs) as H0 by (eexists; apply inv_init).
  revert H0. induction Hr as [|sys0 sys1 sys2 Hstep _ IH]; [done|].
  intros [hs Hi]. apply IH. by eapply inv_step.
Qed.

(** C1. Agreement: in every reachable state of the protocol at a slot, with any
    number of proposers and with messages lost, duplicated, delayed and
    reordered at will, any two decisions that [drive] returned carry the same
    value, provided the leader of the configuration does not offer two different
    values at the slot. *)
Theorem drive_agreement sys d1 d2 :
  reachable x sys → leader_consistent sys →
  d1 ∈ sys_decisions sys → d2 ∈ sys_decisions sys →
  p_value (proof_proposal d1) = p_value (proof_proposal d2).
Proof.
  intros [hs Hi]%reachable_inv Hl H1 H2. by eapply inv_agreement.
Qed.
End agreement.
