(* ===== verification/Trace.v ===== *)
(** * Trace: executable runs of the protocol

    An interpreter of scripted schedules for [System]: each action names the
    proposer, the message or the replies it uses, and [exec_sound] says that a
    script that runs is a run of the protocol.  The scripts below show that the
    agreement theorem is not vacuous and that its hypothesis on the leader is
    needed. *)

From S2P Require Import Prelude Bytes Core ConfigChange Proposal Isr DecisionProof Consensus System Agreement Inspect.
From Stdlib Require Strings.Byte.

Inductive action : Type :=
| AStart (i : nat) (self : ThreeNodeConsensus) (prev_hash : LogHash) (proposal_id : N)
    (command : StoredCommand)
| ASend (i : nat)
| ADeliver (n : nat)
| AReplies (i : nat) (replies : list nat)
| AInstall (r : NodeId) (n : nat).

Section exec.
Context `{Sha256} (x : SlotContext) (env : Env).

Definition reply_usable (requests : list RecordRequest) (e : NodeId * RecordRequest * RecordSummary) :
    bool :=
  bool_decide ((e.1.1, e.1.2) ∈ zip (m_members (x_membership x)) requests).

Definition exec (sys : Sys) (a : action) : option Sys :=
  let '(mkSys slots reqs reps props starts decs) := sys in
  match a with
  | AStart i self prev_hash proposal_id command =>
      if in_context x self && bool_decide (props !! i = None) then
        Some (mkSys slots reqs reps
          (<[i := Idle self (initial_progress self (x_slot x) prev_hash proposal_id command)]> props)
          (starts ++ [(self, offered_value self (x_slot x) prev_hash command)]) decs)
      else None
  | ASend i =>
      match props !! i with
      | Some (Idle self progress) =>
          match drive_prepare self env progress with
          | Ok (progress', requests) =>
              Some (mkSys slots (reqs ++ zip (m_members (x_membership x)) requests) reps
                (<[i := Waiting self progress' requests]> props) starts decs)
          | Err _ => None
          end
      | _ => None
      end
  | ADeliver n =>
      '(r, request) ← reqs !! n;
      match slot_record_proposal r (default (fresh_slot x) (slots !! r)) request with
      | Ok (state, summary) =>
          Some (mkSys (<[r := state]> slots) reqs (reps ++ [(r, request, summary)]) props starts decs)
      | Err _ => None
      end
  | AReplies i ns =>
      match props !! i with
      | Some (Waiting self progress requests) =>
          entries ← mapM (λ n, reps !! n) ns;
          if forallb (reply_usable requests) entries then
            match drive_replies self env progress (command_targets self progress) (snd <$> entries) with
            | Ok (Progress next) | Ok (Pending next) =>
                Some (mkSys slots reqs reps (<[i := Idle self next]> props) starts decs)
            | Ok (Decision d) => Some (mkSys slots reqs reps (delete i props) starts (decs ++ [d]))
            | Err _ => None
            end
          else None
      | _ => None
      end
  | AInstall r n =>
      d ← decs !! n;
      match slot_install_proof (default (fresh_slot x) (slots !! r)) d with
      | Ok state => Some (mkSys (<[r := state]> slots) reqs reps props starts decs)
      | Err _ => None
      end
  end.

Fixpoint exec_all (sys : Sys) (l : list action) : option Sys :=
  match l with [] => Some sys | a :: l => sys' ← exec sys a; exec_all sys' l end.

Lemma usable_replies (reps : list (NodeId * RecordRequest * RecordSummary)) (ns : list nat)
    entries requests :
  mapM (λ n, reps !! n) ns = Some entries → forallb (reply_usable requests) entries = true →
  ∀ sm, sm ∈ snd <$> entries → ∃ r request,
    (r, request) ∈ zip (m_members (x_membership x)) requests ∧ (r, request, sm) ∈ reps.
Proof.
  intros Hm Hall sm (e & -> & He)%list_elem_of_fmap. destruct e as [[r request] sm]. exists r, request.
  assert (reply_usable requests (r, request, sm) = true) as Hu.
  { rewrite forallb_forall in Hall. by apply Hall, list_elem_of_In. }
  split; [by apply bool_decide_eq_true in Hu|].
  apply mapM_Some in Hm. apply list_elem_of_lookup in He as (k & Hk).
  eapply Forall2_lookup_r in Hk as (n & _ & Hn); [|done]. cbn in Hn. by eapply list_elem_of_lookup_2.
Qed.

Lemma exec_sound sys a sys' : sampler_ok env → exec sys a = Some sys' → sys_step x sys sys'.
Proof.
  intros Hs. destruct sys as [slots reqs reps props starts decs].
  destruct a as [i self prev_hash proposal_id command|i|n|i ns|r n]; cbn.
  - destruct (in_context x self) eqn:Hc; [|done]. case_bool_decide; [|done].
    intros [= <-]. by apply sys_start.
  - destruct (props !! i) as [[self progress|]|] eqn:Hp; try done.
    destruct (drive_prepare self env progress) as [[progress' requests]|] eqn:Hd; [|done].
    intros [= <-]. by eapply sys_send.
  - destruct (reqs !! n) as [[r request]|] eqn:Hn; [|done]. cbn.
    destruct (slot_record_proposal _ _ _) as [[state summary]|] eqn:Hr; [|done].
    intros [= <-]. eapply sys_deliver; [by eapply list_elem_of_lookup_2|done].
  - destruct (props !! i) as [[|self progress requests]|] eqn:Hp; try done.
    destruct (mapM _ ns) as [entries|] eqn:Hm; [|done]. cbn.
    destruct (forallb _ entries) eqn:Hall; [|done].
    pose proof (usable_replies _ _ _ _ Hm Hall) as Hu.
    destruct (drive_replies _ _ _ _ _) as [[next|next|d]|] eqn:Hd; [| | |done]; intros [= <-].
    + eapply sys_continue; [done|done|exact Hd|by left].
    + eapply sys_continue; [done|done|exact Hd|by right].
    + by eapply sys_decide.
  - destruct (decs !! n) as [d|] eqn:Hn; [|done]. cbn.
    destruct (slot_install_proof _ _) as [state|] eqn:Hi; [|done].
    intros [= <-]. eapply sys_install; [by eapply list_elem_of_lookup_2|done].
Qed.

Lemma exec_all_sound l sys sys' :
  sampler_ok env → exec_all sys l = Some sys' → rtc (sys_step x) sys sys'.
Proof.
  intros Hs. revert sys; induction l as [|a l IH]; intros sys; cbn; [by intros [= <-]|].
  destruct (exec sys a) as [sys1|] eqn:Ha; [|done]. cbn. intros Hl.
  eapply rtc_l; [by eapply exec_sound|by apply IH].
Qed.
End exec.

(** ** Three recorders *)

#[local] Existing Instance sample_sha256.

Definition demo_membership : Membership :=
  mkMembership sample_members (digest [membership_preimage sample_members]).
Definition demo_context : SlotContext :=
  mkSlotContext (lit "cluster-a") 1 1 demo_membership 1.
Definition demo_node (id : string) : ThreeNodeConsensus :=
  mkConsensus (lit "cluster-a") (lit id) 1 1 (m_digest demo_membership) demo_membership.

Definition command_a : StoredCommand := mkStoredCommand Command (lit "a").
Definition command_b : StoredCommand := mkStoredCommand Command (lit "b").

(** Commands are found; priorities are small and depend on the proposer. *)
Definition demo_env : Env := {|
  env_fetch := λ slot value,
    Ok (find (command_matches_value (demo_node "n1") slot value) [command_a; command_b]);
  env_sample := λ _ _ proposer _, Ok (priority_from_u64 (be_value proposer mod 100));
  env_broadcast := λ _, Ok [];
  env_install := λ _, Ok ()
|}.

Lemma demo_sampler : sampler_ok demo_env.
Proof. intros slot round proposer recorder p [= <-] Heq. discriminate (f_equal (head ∘ as_bytes) Heq). Qed.

Lemma demo_membership_wf : membership_wf demo_membership.
Proof. vm_compute. reflexivity. Qed.

Definition demo_run (l : list action) : option Sys :=
  exec_all demo_context demo_env sys_init l.
Definition decided_values (sys : Sys) : list (option AcceptedValue) :=
  (p_value ∘ proof_proposal) <$> sys_decisions sys.

(** The leader decides on the fast path with two of three recorders; another
    proposer then learns the same value: requests 0-2 are the leader's, 3-5 the
    other proposer's. *)
Definition fast_script : list action :=
  [AStart 0 (demo_node "n1") LogHash_ZERO 1 command_a; ASend 0; ADeliver 0; ADeliver 1;
   AReplies 0 [0; 1];
   AStart 1 (demo_node "n2") LogHash_ZERO 1 command_b; ASend 1; ADeliver 4; ADeliver 5;
   AReplies 1 [2; 3]; ASend 1; ADeliver 7; ADeliver 8; AReplies 1 [4; 5];
   ASend 1; ADeliver 10; ADeliver 11; AReplies 1 [6; 7]].

Definition value_a : AcceptedValue := offered_value (demo_node "n1") 1 LogHash_ZERO command_a.
Definition value_b : AcceptedValue := offered_value (demo_node "n1") 1 LogHash_ZERO command_b.

Lemma fast_script_decides :
  decided_values <$> demo_run fast_script = Some [Some value_a; Some value_a].
Proof. vm_compute. reflexivity. Qed.

Definition state_of (l : list action) : Sys := default sys_init (demo_run l).
Definition no_decision : DecisionProof := FastPath [] 0 0 0 LogHash_ZERO proposal_nil [].
Definition nth_decision (sys : Sys) (n : nat) : DecisionProof := nth n (sys_decisions sys) no_decision.

Definition script_runs (l : list action) : bool :=
  match demo_run l with Some _ => true | None => false end.

Lemma state_of_reachable l : script_runs l = true → reachable demo_context (state_of l).
Proof.
  unfold script_runs, reachable, state_of. destruct (demo_run l) as [sys|] eqn:Hs; [|done].
  intros _. cbn.
  eapply exec_all_sound; [apply demo_sampler|exact Hs].
Qed.

Lemma drive_agreement_witness :
  decided_values (state_of fast_script) = [Some value_a; Some value_a]
  ∧ p_value (proof_proposal (nth_decision (state_of fast_script) 0))
    = p_value (proof_proposal (nth_decision (state_of fast_script) 1)).
Proof.
  split; [vm_compute; reflexivity|].
  apply (drive_agreement demo_context demo_membership_wf (state_of fast_script)).
  - apply state_of_reachable. vm_compute. reflexivity.
  - assert (leader_values (state_of fast_script) = [value_a]) as Hv by (vm_compute; reflexivity).
    intros v w. rewrite Hv. intros Hv1 Hw1. apply list_elem_of_singleton in Hv1, Hw1. by subst.
  - apply list_elem_of_In, nth_In. vm_compute. lia.
  - apply list_elem_of_In, nth_In. vm_compute. lia.
Defined.

(** *** The hypothesis on the leader

    The leader offers [a], is answered by [n1] and [n2] and decides on the fast
    path; its second proposal [b] for the same slot (as after a restart, or when
    [recover_decision_at] proposes an empty command for a slot it found pending)
    also gets the reserved priority.  It reaches [n3] first and then [n2], whose
    answers make [b] the preferred proposal, which phases 1 and 2 decide. *)
Definition leader_twice_script : list action :=
  [AStart 0 (demo_node "n1") LogHash_ZERO 1 command_a; ASend 0; ADeliver 0; ADeliver 1;
   AReplies 0 [0; 1];
   AStart 1 (demo_node "n1") LogHash_ZERO 2 command_b; ASend 1; ADeliver 5; ADeliver 4;
   AReplies 1 [2; 3]; ASend 1; ADeliver 7; ADeliver 8; AReplies 1 [4; 5];
   ASend 1; ADeliver 10; ADeliver 11; AReplies 1 [6; 7]].

(** C27. The hypothesis of agreement is needed and the code does not establish
    it: with two proposals of the leader for one slot, the protocol reaches a
    state with two decision proofs, both valid for the configuration, for two
    different values. *)
Theorem leader_two_proposals_disagree :
  ∃ sys d1 d2, reachable demo_context sys ∧ d1 ∈ sys_decisions sys ∧ d2 ∈ sys_decisions sys
    ∧ validate_for_cluster d1 (lit "cluster-a") 1 1 1 demo_membership = Ok ()
    ∧ validate_for_cluster d2 (lit "cluster-a") 1 1 1 demo_membership = Ok ()
    ∧ p_value (proof_proposal d1) = Some value_a ∧ p_value (proof_proposal d2) = Some value_b
    ∧ value_a ≠ value_b.
Proof.
  exists (state_of leader_twice_script), (nth_decision (state_of leader_twice_script) 0),
    (nth_decision (state_of leader_twice_script) 1). split_and!.
  - apply state_of_reachable. vm_compute. reflexivity.
  - apply list_elem_of_In, nth_In. vm_compute. lia.
  - apply list_elem_of_In, nth_In. vm_compute. lia.
  - vm_compute. reflexivity.
  - vm_compute. reflexivity.
  - vm_compute. reflexivity.
  - vm_compute. reflexivity.
  - vm_compute. discriminate.
Qed.

(** *** Inspection of summaries

    Two proposers that are not the leader.  At step 5 [n1] records the proposals
    of both, [n2] and [n3] only that of the first proposer, which then decides at
    step 6 on the answers of [n2] and [n3]. *)
Definition inspection_script : list action :=
  [AStart 0 (demo_node "n2") LogHash_ZERO 1 command_a; ASend 0;
   AStart 1 (demo_node "n3") LogHash_ZERO 1 command_b; ASend 1;
   ADeliver 3; ADeliver 1; ADeliver 2; ADeliver 4; AReplies 0 [1; 2]; AReplies 1 [0; 3];
   ASend 0; ASend 1; ADeliver 9; ADeliver 6; ADeliver 7; ADeliver 8; AReplies 0 [6; 7];
   ASend 0; ADeliver 13; ADeliver 14; ADeliver 12; AReplies 0 [8; 9]].

(** What the recorders answer to an inspection of the slot. *)
Definition inspected (sys : Sys) (ids : list string) : list RecordSummary :=
  (λ id, let st := slot_at demo_context sys (lit id) in
         record_summary (lit id) st (ss_decided_proof st)) <$> ids.

Definition inspected_proof (sys : Sys) (ids : list string) : DecisionProof :=
  match proof_from_record_summaries (demo_node "n1") 1 (inspected sys ids) with
  | Ok (Some d) => d
  | _ => no_decision
  end.

(** C28. A proof that [proof_from_record_summaries] makes of a quorum of summaries
    need not agree with a decision that [drive] reached: in a reachable state
    where the leader offered nothing, one proposer has decided a value, and
    inspecting two of the three recorders certifies the other value.  The
    phase-2 rule of [drive] also requires that the maximum is the proposal it
    recorded at that step, which the inspection cannot know. *)
Theorem inspection_certifies_undecided_value :
  ∃ sys d1 d2, reachable demo_context sys ∧ leader_values sys = []
    ∧ d1 ∈ sys_decisions sys
    ∧ proof_from_record_summaries (demo_node "n1") 1 (inspected sys ["n1"; "n3"]) = Ok (Some d2)
    ∧ validate_for_cluster d1 (lit "cluster-a") 1 1 1 demo_membership = Ok ()
    ∧ validate_for_cluster d2 (lit "cluster-a") 1 1 1 demo_membership = Ok ()
    ∧ p_value (proof_proposal d1) = Some value_a ∧ p_value (proof_proposal d2) = Some value_b
    ∧ value_a ≠ value_b.
Proof.
  exists (state_of inspection_script), (nth_decision (state_of inspection_script) 0),
    (inspected_proof (state_of inspection_script) ["n1"; "n3"]). split_and!.
  - apply state_of_reachable. vm_compute. reflexivity.
  - vm_compute. reflexivity.
  - apply list_elem_of_In, nth_In. vm_compute. lia.
  - vm_compute. reflexivity.
  - vm_compute. reflexivity.
  - vm_compute. reflexivity.
  - vm_compute. reflexivity.
  - vm_compute. reflexivity.
  - vm_compute. discriminate.
Qed.
