(* ===== verification/Witnesses.v ===== *)
(** * Witnesses: the theorems at concrete inputs

    For the theorems whose hypotheses are about runs of the protocol or of a
    recorder, a concrete run on which they hold.  The parameter for SHA-256 is
    instantiated by the sample function of [Core]; the node and the scripts are
    those of [Trace]. *)

From S2P Require Import Prelude Bytes Text Core ConfigChange ConfigState Proposal Isr DecisionProof Consensus Inspect RecorderCodec Recorder RecorderSpec ReadFence System Trace.
From Stdlib Require Strings.Byte.

#[local] Existing Instance sample_sha256.

Definition ok_default {E A} (d : A) (r : result E A) : A := match r with Ok a => a | Err _ => d end.

(** ** Registers, proofs and certificates *)

Definition demo_proposal (priority : N) (id : string) (proposal_id : N) (v : AcceptedValue) : Proposal :=
  proposal_new (priority_from_u64 priority) (lit id) proposal_id v.

(** Two proposals at step 4, one at step 5, a stale one at step 4. *)
Definition demo_inputs : list input :=
  [(4%N, demo_proposal 7 "n2" 1 value_a); (4%N, demo_proposal 9 "n3" 1 value_b);
   (5%N, demo_proposal 3 "n2" 1 value_a); (4%N, demo_proposal 99 "n1" 1 value_b)].

Lemma isr_refines_history_witness :
  isr_run demo_inputs = mkIsr 5 (Some (demo_proposal 3 "n2" 1 value_a)) (Some (demo_proposal 3 "n2" 1 value_a))
    (Some (demo_proposal 9 "n3" 1 value_b))
  ∧ isr_refines (isr_run demo_inputs) (isr_history demo_inputs).
Proof.
  split; [vm_compute; reflexivity|]. apply isr_refines_history.
  repeat constructor; vm_compute; discriminate.
Defined.

Definition demo_decision : DecisionProof := nth_decision (state_of fast_script) 0.
Definition demo_decision2 : DecisionProof := nth_decision (state_of fast_script) 1.

Lemma validate_for_evidence_witness :
  summaries_quorum demo_membership 1 (proof_step demo_decision) (proof_summaries demo_decision)
  ∧ length (proof_summaries demo_decision) = 2.
Proof.
  split; [|vm_compute; reflexivity].
  destruct (validate_for_evidence demo_decision 1 1 1 demo_membership) as [Hq _];
    [vm_compute; reflexivity|exact Hq].
Defined.

Lemma certificate_proposer_roundtrip_witness :
  decode_certificate_proposer (encode_certificate_proposer (lit "cluster:a") (lit "n1"))
  = Some (lit "cluster:a", lit "n1").
Proof. apply certificate_proposer_roundtrip; [reflexivity|vm_compute; discriminate]. Defined.

(** ** Proposing and inspecting *)

(** The leader's requests answered by [n1] and [n2]. *)
Definition fast_replies : list RecordSummary :=
  snd <$> take 2 (sys_replies (state_of fast_script)).
Definition fast_env : Env := {|
  env_fetch := env_fetch demo_env; env_sample := env_sample demo_env;
  env_broadcast := λ _, Ok fast_replies; env_install := env_install demo_env
|}.
Definition decided_entry : LogEntry :=
  match propose_stored_at_until (demo_node "n1") 1 LogHash_ZERO 1 command_a false [(false, fast_env)] with
  | Some (Ok e) => e
  | _ => mkLogEntry [] 0 0 0 Noop [] LogHash_ZERO LogHash_ZERO
  end.

Lemma propose_returns_decided_entry_witness :
  le_payload decided_entry = lit "a"
  ∧ ∃ d v, valid_proof (demo_node "n1") 1 d ∧ p_value (proof_proposal d) = Some v
      ∧ le_hash decided_entry = av_entry_hash v.
Proof.
  split; [vm_compute; reflexivity|].
  destruct (propose_returns_decided_entry (demo_node "n1") 1 LogHash_ZERO 1 command_a false
    [(false, fast_env)] decided_entry) as (d & v & Hd & Hv & Hh & _); [vm_compute; reflexivity|].
  exists d, v. split; [exact Hd|]. split; [exact Hv|exact Hh].
Defined.

Lemma fetch_verified_value_sound_witness :
  command_hash command_b = av_command_hash value_b
  ∧ from_command (lit "cluster-a") 1 1 1 (av_prev_hash value_b) command_b = value_b.
Proof.
  destruct (fetch_verified_value_sound (demo_node "n1") 0 [Err NoQuorum; Ok (Some command_b)] 1 value_b command_b)
    as (Hh & _ & Hc); [vm_compute; reflexivity|]. split; [exact Hh|exact Hc].
Defined.

Lemma select_decision_proof_sound_witness :
  select_decision_proof (demo_node "n1") 1 [demo_decision; demo_decision2] = Ok (Some demo_decision2)
  ∧ p_value (proof_proposal demo_decision) = p_value (proof_proposal demo_decision2).
Proof.
  split; [vm_compute; reflexivity|].
  destruct (select_decision_proof_sound (demo_node "n1") 1 [demo_decision; demo_decision2] demo_decision2)
    as [_ Hall]; [vm_compute; reflexivity|].
  apply (Hall demo_decision). apply list_elem_of_In. left. reflexivity.
Defined.

(** The three recorders after the fast path, inspected by a later reader. *)
Definition fast_prefix : list action := take 5 fast_script.
Definition fast_inspection : list (nat * result Error (option RecordSummary)) :=
  zip [0; 1] (Ok ∘ Some <$> inspected (state_of fast_prefix) ["n1"; "n2"]).
Definition committed_of (i : result Error CertifiedDecisionInspection) : CertifiedDecision :=
  match i with
  | Ok (CertCommitted c) => c
  | _ => mkCertifiedDecision decided_entry (mkCertificate 0 0 0 LogHash_ZERO (mkBallot 0 0 []) value_a [])
           no_decision
  end.
Definition demo_certified : CertifiedDecision :=
  committed_of (inspect_typed_record_summaries (demo_node "n3") demo_env 1 LogHash_ZERO 0 fast_inspection).

Lemma inspection_committed_certified_witness :
  le_payload (cd_entry demo_certified) = lit "a"
  ∧ certified (demo_node "n3") 1 LogHash_ZERO demo_certified.
Proof.
  split; [vm_compute; reflexivity|].
  apply (inspection_committed_certified (demo_node "n3") demo_env 1 LogHash_ZERO 0 fast_inspection).
  vm_compute. reflexivity.
Defined.

(** ** A recorder *)

Definition blank_recorder : RecorderFileStore :=
  mkRecorder [] [] 0 (configuration_initial 0 LogHash_ZERO None) HeadEmpty wal_default ∅ ∅ [] [].
Definition demo_recorder (id : string) : RecorderFileStore :=
  ok_default blank_recorder (new_with_membership (lit id) (lit "cluster-a") 1 1 demo_membership).

Lemma demo_digest_nonzero : m_digest demo_membership ≠ LogHash_ZERO.
Proof. intros Heq%(f_equal as_bytes). vm_compute in Heq. discriminate Heq. Qed.

Lemma demo_recorder_inv id : (blen (lit id) =? 0)%N = false → recorder_inv (demo_recorder id).
Proof.
  intros Hid. eapply (new_with_membership_inv (lit id) (lit "cluster-a") 1 1 demo_membership).
  - unfold demo_recorder, new_with_membership. rewrite Hid. vm_compute. reflexivity.
  - reflexivity.
  - reflexivity.
  - reflexivity.
  - exact demo_digest_nonzero.
Qed.

Definition blank_request : RecordRequest :=
  mkRecordRequest [] 0 0 LogHash_ZERO 0 0 proposal_nil None.
(** The leader's request to [n1] in the first run of [Trace]. *)
Definition demo_request : RecordRequest :=
  (nth 0 (sys_requests (state_of fast_script)) ([], blank_request)).2.
Definition blank_summary : RecordSummary := mkRecordSummary [] 0 0 LogHash_ZERO 0 None None None.
Definition recorded : result Error RecordSummary * RecorderFileStore :=
  record_proposal demo_request (demo_recorder "n1").
Definition demo_summary : RecordSummary := ok_default blank_summary recorded.1.

Lemma demo_recorded : record_proposal demo_request (demo_recorder "n1") = (Ok demo_summary, recorded.2).
Proof. vm_compute. reflexivity. Qed.

Lemma record_proposal_refines_witness :
  sm_step demo_summary = 4%N
  ∧ slot_record_proposal (lit "n1") (current_slot (demo_recorder "n1") 1 (m_digest demo_membership)) demo_request
    = Ok (current_slot recorded.2 1 (m_digest demo_membership), demo_summary)
  ∧ recorder_inv recorded.2.
Proof.
  split; [vm_compute; reflexivity|].
  destruct (record_proposal_refines demo_request (demo_recorder "n1") recorded.2 demo_summary)
    as (Hr & _ & Hi); [vm_compute; reflexivity|apply demo_recorder_inv; reflexivity|exact demo_recorded|].
  split; [exact Hr|exact Hi].
Defined.

(** The recorder after the leader's decision is installed as well. *)
Definition installed : result Error () * RecorderFileStore :=
  install_decision_proof_record demo_decision demo_membership recorded.2.

Lemma recorded_inv : recorder_inv recorded.2.
Proof.
  eapply steps_inv; [apply (demo_recorder_inv "n1"); reflexivity|]. apply rtc_once.
  apply (recorder_step_op _ _ (OpRecord demo_request) (Ok ())); vm_compute; reflexivity.
Qed.

Lemma install_decision_proof_decides_witness :
  (∃ st held, slot_state installed.2 1 = Some st ∧ ss_decided_proof st = Some held
     ∧ p_value (proof_proposal held) = Some value_a)
  ∧ recorder_inv installed.2.
Proof.
  destruct (install_decision_proof_decides demo_decision demo_membership recorded.2 installed.2)
    as ((st & held & Hst & Hh & Hv & _) & _ & Hi);
    [vm_compute; reflexivity|exact recorded_inv|vm_compute; reflexivity|].
  split; [|exact Hi]. exists st, held. split; [exact Hst|]. split; [exact Hh|].
  rewrite Hv. vm_compute. reflexivity.
Defined.


(** A proposal of another node for the decided slot. *)
Definition late_request : RecordRequest :=
  (nth 3 (sys_requests (state_of fast_script)) ([], blank_request)).2.
Definition late : result Error RecordSummary * RecorderFileStore := record_proposal late_request installed.2.
Definition decided_state : RecorderSlotState := current_slot installed.2 1 (m_digest demo_membership).


Definition large_command : StoredCommand :=
  mkStoredCommand Command (replicate (N.to_nat 600000) Byte.x00).

Lemma oversized_command_unreadable_witness :
  ∃ s', store_command_unlocked (command_hash large_command) large_command blank_recorder = (Ok (), s')
    ∧ fetch_command_unlocked (command_hash large_command) s' =
      (Err (Decode "recorder command cache entry must be a bounded regular file"), s').
Proof.
  apply (oversized_command_unreadable (command_hash large_command) large_command blank_recorder).
  - unfold blen, large_command, sc_payload. rewrite length_replicate, N2Nat.id. reflexivity.
  - reflexivity.
  - apply lookup_empty.
  - apply lookup_empty.
Defined.

(** ** A change of the configuration *)

Definition successor_membership : Membership :=
  mkMembership [lit "n1"; lit "n2"; lit "n4"] (digest [membership_preimage [lit "n1"; lit "n2"; lit "n4"]]).
Definition stop_command : StoredCommand :=
  ok_default command_a (to_stored_command <$>
    bound_stop (lit "cluster-a") 1 (m_digest demo_membership) 2 (m_members successor_membership)).
Definition stop_env : Env := {|
  env_fetch := λ _ _, Ok (Some stop_command); env_sample := env_sample demo_env;
  env_broadcast := λ _, Ok []; env_install := λ _, Ok ()
|}.
Definition stop_run : option Sys :=
  exec_all demo_context stop_env sys_init
    [AStart 0 (demo_node "n1") LogHash_ZERO 1 stop_command; ASend 0; ADeliver 0; ADeliver 1; AReplies 0 [0; 1]].
Definition stop_proof : DecisionProof := nth_decision (default sys_init stop_run) 0.
Definition succeeded : result Error RecorderConfiguration * RecorderFileStore :=
  install_successor_from_proof successor_membership stop_proof (demo_recorder "n1").
Definition successor_configuration : RecorderConfiguration :=
  ok_default (configuration_initial 0 LogHash_ZERO None) succeeded.1.

Lemma install_successor_certified_witness :
  rc_config_id successor_configuration = 2%N
  ∧ successor_checks successor_membership stop_proof (demo_recorder "n1") successor_configuration.
Proof.
  split; [vm_compute; reflexivity|].
  destruct (install_successor_certified successor_membership stop_proof (demo_recorder "n1") succeeded.2
    successor_configuration) as [Hk _];
    [apply demo_recorder_inv; reflexivity|vm_compute; reflexivity|exact Hk].
Defined.

(** ** The read fence *)

Definition fence_recorder (i : nat) : RecorderFileStore :=
  demo_recorder (nth i ["n1"; "n2"; "n3"]%string "n1"%string).
Definition blank_observation : ReadFenceObservation :=
  mkReadFenceObservation [] [] 0 0 LogHash_ZERO 0 None (FenceOccupied None).
Definition fence_answer (i : nat) : ReadFenceObservation :=
  ok_default blank_observation (observe_read_fence (fence_request (demo_node "n1") 1) (fence_recorder i)).1.

Lemma fence_recorder_inv i : recorder_inv (fence_recorder i).
Proof.
  unfold fence_recorder. apply demo_recorder_inv.
  destruct i as [|[|[|i]]]; [reflexivity..|]. destruct i; reflexivity.
Qed.

Lemma read_fence_quorum_unrecorded_witness :
  ∃ Q : list nat, 2 ≤ length Q ∧ ∀ i, i ∈ Q → unrecorded (demo_node "n1") 1 (fence_recorder i).
Proof.
  destruct (read_fence_quorum_unrecorded (demo_node "n1") 1 true 0 3
    [(0, Ok (fence_answer 0)); (2, Ok (fence_answer 2))] (Ok CertPending) fence_recorder)
    as (Q & Hq & _ & _ & Hu).
  - reflexivity.
  - cbn. repeat constructor; set_solver.
  - vm_compute. repeat constructor; rewrite ?elem_of_cons, ?elem_of_nil; naive_solver.
  - intros i o Hin. split; [apply fence_recorder_inv|].
    apply list_elem_of_In in Hin as [Hin|[Hin|[]]]; apply pair_eq in Hin as [<- Ho];
      apply Ok_inj in Ho as <-; eexists; vm_compute; reflexivity.
  - vm_compute. reflexivity.
  - exists Q. split; [exact Hq|exact Hu].
Defined.

(** ** Files *)

Definition demo_configuration : RecorderConfiguration :=
  mkRecorderConfiguration 1 (m_digest demo_membership) (Some demo_membership) None None (Some 1%N) true.

Lemma configuration_state_roundtrip_witness :
  decode_configuration_state (ok_default [] (encode_configuration_state demo_configuration))
  = Ok demo_configuration.
Proof.
  apply (configuration_state_roundtrip demo_configuration).
  - split; [vm_compute; reflexivity|]. split; [exact demo_membership_wf|].
    split; vm_compute; reflexivity.
  - vm_compute. reflexivity.
  - vm_compute. discriminate.
Defined.

Definition demo_frame : bytes * LogHash * bytes :=
  ok_default ([], LogHash_ZERO, [])
    (encode_wal_frame 1 1 LogHash_ZERO (current_slot recorded.2 1 (m_digest demo_membership))
       demo_configuration (SlotBacked 1) (Some (command_hash command_a, command_a))).

Lemma wal_frame_roundtrip_witness :
  wal_file (r_wal recorded.2) = demo_frame.1.1
  ∧ decode_wal_frame (lit "tail" ++ demo_frame.1.1 ++ lit "QWAL") (blen (lit "tail"))
    = Ok (Some (mkWalFrame 1 1 LogHash_ZERO demo_frame.1.2
                  (ss_slot (current_slot recorded.2 1 (m_digest demo_membership))) demo_frame.2
                  (ok_default [] (encode_configuration_state demo_configuration)) (SlotBacked 1)
                  (Some (command_hash command_a, command_a)),
                (blen (lit "tail") + blen demo_frame.1.1)%N)).
Proof.
  split; [vm_compute; reflexivity|]. apply (wal_frame_roundtrip _ _ _ _ demo_configuration).
  - vm_compute. reflexivity.
  - vm_compute. reflexivity.
  - vm_compute. reflexivity.
  - vm_compute. discriminate.
Defined.
