(* ===== verification/CrashWitnesses.v ===== *)
(** * CrashWitnesses: the theorems about crashes at concrete inputs

    One recorder of a cluster of three: it records a proposal, a stop command is
    interrupted and repeated, its successor configuration is installed and
    recovered from a checkpoint.  The parameter for SHA-256 is the sample function
    of [Core]. *)

From S2P Require Import Prelude Bytes Text Core ConfigChange ConfigState Proposal Isr DecisionProof Consensus RecorderCodec Recorder Reopen RecorderSpec Durable DurableOps Recovery Crash CrashGaps System Trace Witnesses.

#[local] Existing Instance sample_sha256.

(** ** Bounds *)

Definition within_boundsb (s : RecorderFileStore) : bool :=
  (blen (r_configuration_file s) <=? MAX_CONFIGURATION_BYTES)%N
  && (blen (r_head_file s) <=? MAX_RECORDED_HEAD_BYTES)%N
  && (blen (wal_file (r_wal s)) <=? MAX_RECORDER_WAL_BYTES)%N
  && forallb (λ hb, blen hb.2 <=? MAX_COMMAND_CACHE_BYTES)%N (map_to_list (r_command_files s))
  && forallb (λ kb, blen kb.2 <=? MAX_RECORDER_STATE_BYTES)%N (map_to_list (r_slot_files s)).

Lemma within_boundsb_true s : within_boundsb s = true → within_bounds s.
Proof.
  unfold within_boundsb. rewrite !andb_true_iff, !N.leb_le, !forallb_forall.
  intros ((((? & ?) & ?) & Hc) & Hs). split; try done.
  - intros h b Hb%elem_of_map_to_list. apply list_elem_of_In, Hc, N.leb_le in Hb. done.
  - intros k b Hb%elem_of_map_to_list. apply list_elem_of_In, Hs, N.leb_le in Hb. done.
Qed.

Lemma bounded_by s s' s1 :
  checkpoint_wal_unlocked s = (Ok (), s1) →
  within_boundsb s && within_boundsb s1 && within_boundsb s' = true → bounded s s'.
Proof.
  rewrite !andb_true_iff. intros Hc ((H1 & H2) & H3). split; [by apply within_boundsb_true| |by apply within_boundsb_true].
  intros s2 Hs2. rewrite Hc in Hs2. injection Hs2 as <-. by apply within_boundsb_true.
Qed.

(** A call that succeeds, without its result written out. *)
Lemma call_ok (x : result Error () * RecorderFileStore) : is_ok x.1 = true → x = (Ok (), x.2).
Proof. by destruct x as [[[]|] ?]. Qed.
Lemma record_ok q s :
  is_ok (record_proposal q s).1 = true → run_op (OpRecord q) s = (Ok (), (record_proposal q s).2).
Proof.
  unfold run_op, discard, mbind, call_bind. by destruct (record_proposal q s) as [[?|] ?].
Qed.
Lemma same_map `{Countable K} `{EqDecision A} (m n : gmap K A) : bool_decide (m = n) = true → m = n.
Proof. apply bool_decide_eq_true. Qed.
Lemma reopened (x : result Error RecorderFileStore * RecorderRoot) :
  (∃ s, x = (Ok s, root_of s)) →
  x = (Ok (ok_default blank_recorder x.1), root_of (ok_default blank_recorder x.1)).
Proof. by intros [s ->]. Qed.

Definition frames (s : RecorderFileStore) : N := wal_frame_count (r_wal s).

(** ** A recorder that records one proposal *)

Lemma demo_running : running (demo_recorder "n1").
Proof.
  apply (running_new (lit "n1") (lit "cluster-a") 1 1 demo_membership).
  - vm_compute. reflexivity.
  - reflexivity.
  - reflexivity.
  - reflexivity.
  - exact demo_membership_wf.
  - vm_compute. reflexivity.
  - exact demo_digest_nonzero.
Qed.

Lemma demo_op_safe : op_safe (OpRecord demo_request) (demo_recorder "n1").
Proof.
  split; [vm_compute; reflexivity|]. intros c b _ Hb.
  assert (commands_of (demo_recorder "n1") = ∅) as He by (apply same_map; vm_compute; reflexivity).
  rewrite He, lookup_empty in Hb. discriminate Hb.
Qed.

Lemma recorded_running : running recorded.2.
Proof.
  eapply running_step; [exact demo_running|].
  apply (safe_step_op _ _ (OpRecord demo_request) (Ok ())); [exact demo_op_safe| |reflexivity].
  apply record_ok. vm_compute. reflexivity.
Qed.


(** The first twenty bytes of the frame reached the disk. *)
Definition torn_frame : bytes := take 20 (wal_file (r_wal recorded.2)).


(** ** A stop command that is interrupted and repeated *)

Definition stop_value : AcceptedValue :=
  from_command (lit "cluster-a") 2 1 1 (av_entry_hash value_a) stop_command.
Definition stop_request : RecordRequest :=
  mkRecordRequest (lit "cluster-a") 1 1 (m_digest demo_membership) 2 4
    (proposal_new (priority_from_u64 7) (lit "n2") 1 stop_value) (Some stop_command).

(** The stop command is already stored. *)
Definition prepared : RecorderFileStore :=
  (store_command_unlocked (command_hash stop_command) stop_command recorded.2).2.
Definition stopped : RecorderFileStore := (record_proposal stop_request prepared).2.
Definition checkpointed_prepared : RecorderFileStore := (checkpoint_wal_unlocked prepared).2.

Lemma prepared_running : running prepared.
Proof.
  eapply running_step; [exact recorded_running|].
  apply (safe_step_op _ _ (OpStoreCommand (command_hash stop_command) stop_command) (Ok ()));
    [split; [reflexivity|exact I]|apply call_ok; vm_compute; reflexivity|reflexivity].
Qed.

(** A recorder that holds one command under its hash. *)
Lemma stored_unambiguous q c s :
  rq_command q = Some c → commands_of s !! command_hash c = Some (encode_stored_command c) → record_unambiguous q s.
Proof. intros Hq Hc c' b Hc' Hb. rewrite Hq in Hc'. injection Hc' as <-. congruence. Qed.

Definition stop_intent (s' : RecorderFileStore) : bytes :=
  ok_default [] (encode_transition_intent 2 (default [] (r_slot_files s' !! 2%N)) (r_configuration_file s')).
Definition stop_checkpoint : list FileWrite :=
  checkpoint_writes (map_to_list (wal_commands (r_wal prepared))) (map_to_list (wal_slots (r_wal prepared)))
    (r_configuration_file checkpointed_prepared) (r_head_file checkpointed_prepared).
Definition stop_writes : list FileWrite :=
  stop_checkpoint ++ [] ++ transition_writes 2 (default [] (r_slot_files stopped !! 2%N))
    (r_configuration_file stopped) (r_head_file stopped) (stop_intent stopped).

(** The crash: everything but the truncation of the log. *)
Definition stale_root : RecorderRoot := writes (take 4 stop_checkpoint) (root_of prepared).
Definition stale_recorder : RecorderFileStore :=
  ok_default blank_recorder (reopen prepared demo_membership true stale_root).1.

Lemma stop_safe s :
  commands_of s !! command_hash stop_command = Some (encode_stored_command stop_command) →
  op_safe (OpRecord stop_request) s.
Proof. intros Hs. split; [vm_compute; reflexivity|]. by apply (stored_unambiguous _ stop_command). Qed.

Lemma checkpoint_prepared : checkpoint_wal_unlocked prepared = (Ok (), checkpointed_prepared).
Proof. apply call_ok. vm_compute. reflexivity. Qed.

Lemma stale_interrupted : interrupted prepared stopped stale_root.
Proof.
  apply (interrupted_write _ _ _ (OpRecord stop_request) 2 stop_writes (take 4 stop_checkpoint)).
  - apply stop_safe. vm_compute. reflexivity.
  - apply record_ok. vm_compute. reflexivity.
  - intros He. apply (f_equal frames) in He. vm_compute in He. discriminate He.
  - reflexivity.
  - apply (files_commit _ _ _ checkpointed_prepared).
    + vm_compute. reflexivity.
    + exact checkpoint_prepared.
    + apply files_checkpoint; [vm_compute; discriminate|reflexivity|reflexivity].
    + apply files_no_command. apply same_map. vm_compute. reflexivity.
    + vm_compute. reflexivity.
    + vm_compute. reflexivity.
  - unfold stop_writes. rewrite <-(take_drop 4 stop_checkpoint) at 1. rewrite <-app_assoc. apply crashed_prefix.
  - reflexivity.
  - vm_compute. reflexivity.
  - intros _. vm_compute. reflexivity.
  - apply (bounded_by _ _ checkpointed_prepared); [exact checkpoint_prepared|vm_compute; reflexivity].
Qed.

Lemma prepared_membership : rc_membership (r_configuration prepared) = Some demo_membership.
Proof. vm_compute. reflexivity. Qed.

Lemma stale_running : running stale_recorder.
Proof.
  apply (running_crash prepared stopped stale_root demo_membership true stale_recorder);
    [exact prepared_running|exact stale_interrupted|exact prepared_membership|].
  apply reopened. destruct (interrupted_durable prepared stopped stale_root demo_membership true) as (s & Hs & _);
    [apply running_durable; exact prepared_running|exact stale_interrupted|exact prepared_membership|].
  exists s. exact Hs.
Qed.

Definition stopped_again : RecorderFileStore := (record_proposal stop_request stale_recorder).2.

Lemma stale_log_blocks_recovery_witness :
  running stale_recorder
  ∧ reopen stale_recorder demo_membership true
      (writes [WriteIntent (stop_intent stopped_again)] (root_of stale_recorder))
    = (Err (Decode "recorder recovery intent requires an empty WAL"),
       writes [WriteIntent (stop_intent stopped_again)] (root_of stale_recorder)).
Proof.
  split; [exact stale_running|].
  refine (proj2 (stale_log_blocks_recovery (OpRecord stop_request) stale_recorder stopped_again 2
    (default [] (r_slot_files stopped_again !! 2%N)) (stop_intent stopped_again) demo_membership true
    _ _ _ _ _ _ _ _ _ _ _ _ _)).
  - exact stale_running.
  - vm_compute. reflexivity.
  - vm_compute. discriminate.
  - apply stop_safe. vm_compute. reflexivity.
  - apply record_ok. vm_compute. reflexivity.
  - intros He. apply (f_equal (rc_seal ∘ r_configuration)) in He. vm_compute in He. discriminate He.
  - reflexivity.
  - vm_compute. reflexivity.
  - apply same_map. vm_compute. reflexivity.
  - vm_compute. reflexivity.
  - vm_compute. reflexivity.
  - apply (bounded_by _ _ (checkpoint_wal_unlocked stale_recorder).2);
      [apply call_ok; vm_compute; reflexivity|vm_compute; reflexivity].
  - vm_compute. reflexivity.
Defined.

(** ** A successor configuration *)

Lemma successor_membership_wf : membership_wf successor_membership.
Proof. vm_compute. reflexivity. Qed.
Lemma successor_safe s : op_safe (OpInstallSuccessor successor_membership stop_proof) s.
Proof.
  split; [vm_compute; reflexivity|]. split; [vm_compute; reflexivity|].
  split; [exact successor_membership_wf|vm_compute; reflexivity].
Qed.
Lemma install_ok m proof s :
  is_ok (install_successor_from_proof m proof s).1 = true →
  run_op (OpInstallSuccessor m proof) s = (Ok (), (install_successor_from_proof m proof s).2).
Proof.
  unfold run_op, discard, mbind, call_bind. by destruct (install_successor_from_proof m proof s) as [[?|] ?].
Qed.

Lemma demo_checkpoint : checkpoint_wal_unlocked (demo_recorder "n1") = (Ok (), demo_recorder "n1").
Proof.
  unfold checkpoint_wal_unlocked. rewrite store_bind. cbn zeta.
  assert (wal_failed (r_wal (demo_recorder "n1")) = false) as -> by (vm_compute; reflexivity).
  assert ((wal_frame_count (r_wal (demo_recorder "n1")) =? 0)%N = true) as -> by (vm_compute; reflexivity).
  reflexivity.
Qed.

(** The crash comes right after the intent. *)
Definition stop_write : FileWrite :=
  WriteCommand (command_hash stop_command) (encode_stored_command stop_command).
Definition install_writes : list FileWrite :=
  configuration_head_writes (r_configuration_file succeeded.2) (r_head_file succeeded.2).
Definition install_crash : list FileWrite := stop_write :: take 1 install_writes.


(** The successor's activation is recovered from a checkpoint with tip 5; then slot
    6 is recorded. *)
Definition recover_op : RecorderOp :=
  OpRecoverSuccessor 1 (cs_prefix_hash (default (mkSeal 0 LogHash_ZERO LogHash_ZERO)
    (rc_predecessor successor_configuration))) 5 (command_hash command_a).
Definition recovered : RecorderFileStore := (run_op recover_op succeeded.2).2.
Definition next_request : RecordRequest :=
  mkRecordRequest (lit "cluster-a") 1 2 (m_digest successor_membership) 6 4
    (proposal_new (priority_from_u64 7) (lit "n2") 1
       (from_command (lit "cluster-a") 6 1 2 LogHash_ZERO command_a)) (Some command_a).
Definition advanced : RecorderFileStore := (record_proposal next_request recovered).2.

Lemma recovered_running : running recovered.
Proof.
  apply (running_step succeeded.2).
  - apply (running_step (demo_recorder "n1")); [exact demo_running|].
    apply (safe_step_op _ _ (OpInstallSuccessor successor_membership stop_proof) (Ok ()));
      [apply successor_safe|apply install_ok; vm_compute; reflexivity|reflexivity].
  - apply (safe_step_op _ _ recover_op (Ok ())); [|apply call_ok; vm_compute; reflexivity|reflexivity].
    split; [reflexivity|]. split; [reflexivity|].
    intros He. apply (f_equal as_bytes) in He. vm_compute in He. discriminate He.
Qed.

Lemma advanced_running : running advanced.
Proof.
  apply (running_step recovered); [exact recovered_running|].
  apply (safe_step_op _ _ (OpRecord next_request) (Ok ())); [|apply record_ok; vm_compute; reflexivity|reflexivity].
  split; [vm_compute; reflexivity|]. intros c b [= <-] Hb.
  assert (commands_of recovered !! command_hash command_a = None) as Hn by (vm_compute; reflexivity).
  rewrite Hn in Hb. discriminate Hb.
Qed.

Definition advanced_checkpoint : RecorderFileStore := (checkpoint_wal_unlocked advanced).2.
Definition advanced_writes : list FileWrite :=
  checkpoint_writes (map_to_list (wal_commands (r_wal advanced))) (map_to_list (wal_slots (r_wal advanced)))
    (r_configuration_file advanced_checkpoint) (r_head_file advanced_checkpoint).

(** The hashes of the head on disk. *)
Definition head_hashes (s : RecorderFileStore) : LogHash * LogHash :=
  match decode_recorded_head (r_head_file s) (r_cluster_id s) (r_epoch s) (r_configuration s) with
  | Ok (CheckpointBacked _ prefix _ hash, _, _) => (prefix, hash)
  | _ => (LogHash_ZERO, LogHash_ZERO)
  end.

Lemma recovered_head_blocks_recovery_witness :
  running advanced
  ∧ ∃ p, crashed advanced_writes p ∧ reopen advanced successor_membership true (writes p (root_of advanced))
      = (Err (Decode "checkpoint-backed recorder head evidence is invalid"), writes p (root_of advanced)).
Proof.
  split; [exact advanced_running|].
  refine (recovered_head_blocks_recovery advanced advanced_checkpoint 1 5
    (head_hashes advanced).1 (head_hashes advanced).2 (mkWalCheckpoint 1 0) advanced_writes successor_membership true _ _ _ _ _ _ _ _ _).
  - exact advanced_running.
  - vm_compute. reflexivity.
  - vm_compute. discriminate.
  - vm_compute. discriminate.
  - apply call_ok. vm_compute. reflexivity.
  - apply files_checkpoint; [vm_compute; discriminate|reflexivity|reflexivity].
  - apply within_boundsb_true. vm_compute. reflexivity.
  - apply within_boundsb_true. vm_compute. reflexivity.
  - vm_compute. reflexivity.
Defined.
