(* ===== verification/SqlPages.v ===== *)
(** * SqlPages: the page state of a closed SQLite database

    Models [crates/rhiza-sql/src/page_state.rs]: the hashes of pages, of inner nodes
    and of empty subtrees, the identity of a database ([StateIdentityV3]), and the
    dense Merkle cache [PageStateCacheV3] with its three operations: rebuilding it
    from all pages, computing the identity after a patch without changing the
    cache, and installing a patch.  An index that is out of range is a panic of the
    code and a [SqlPanic] here. *)

From S2P Require Import Prelude Bytes Text Core.
From Stdlib Require Strings.Byte.

(** The errors of the crate; the text of a message is its format string. *)
Inductive SqlError : Type :=
| ApplyFailed | RestoreFailed
| SqlIo (message : string) | SqliteError (message : string) | ResourceExhausted (message : string)
| InvalidCommand (message : string) | IdentityMismatch (field : string) | InvalidEntry (message : string)
| RequestConflict (request_id : bytes) (original_log_index : N) (original_log_hash : LogHash)
| InvalidSnapshot (message : string)
| SqlPanic (message : string).
#[export] Instance SqlError_eq_dec : EqDecision SqlError.
Proof. solve_decision. Defined.

Definition MIN_SQLITE_PAGE_SIZE : N := 512.
Definition MAX_SQLITE_PAGE_SIZE : N := 65536.
Definition LEAF_DOMAIN : bytes := lit "rhiza:qwal-v3:page-state:leaf" ++ [Byte.x00].
Definition EMPTY_DOMAIN : bytes := lit "rhiza:qwal-v3:page-state:empty" ++ [Byte.x00].
Definition INTERNAL_DOMAIN : bytes := lit "rhiza:qwal-v3:page-state:internal" ++ [Byte.x00].
Definition STATE_DOMAIN : bytes := lit "rhiza:qwal-v3:page-state:root" ++ [Byte.x00].

Record StateIdentityV3 : Type := mkStateIdentity {
  si_page_size : N; si_page_count : N; si_state_root : LogHash
}.
#[export] Instance StateIdentityV3_eq_dec : EqDecision StateIdentityV3.
Proof. solve_decision. Defined.

Record PageStatePatchV3 : Type := mkPatch { pp_page_no : N; pp_after_image : bytes }.

(** [levels[0]] holds the leaves, [levels[h]] the nodes above [2^h] leaves each. *)
Record PageStateCacheV3 : Type := mkCache {
  pc_page_size : N; pc_page_count : N; pc_levels : list (list LogHash)
}.

Record HashedPatch : Type := mkHashed { hp_page_index : N; hp_hash : LogHash }.

(** [slice[i]] *)
Definition index_at {A} (l : list A) (i : nat) : result SqlError A :=
  ok_or (l !! i) (SqlPanic "index out of bounds").
(** [slice[i] = x] *)
Definition store_at {A} (l : list A) (i : nat) (x : A) : result SqlError (list A) :=
  if (i <? length l)%nat then Ok (<[i := x]> l) else Err (SqlPanic "index out of bounds").
(** [slice.partition_point(f)]: where the initial run of elements with [f] ends (the
    slices are ordered, so that the binary search finds this point). *)
Fixpoint partition_point {A} (f : A → bool) (l : list A) : nat :=
  match l with [] => 0 | x :: l => if f x then S (partition_point f l) else 0 end.
(** [u32::is_power_of_two] *)
Definition is_power_of_two (n : N) : bool := (0 <? n)%N && (N.land n (n - 1) =? 0)%N.
(** [usize::div_ceil] *)
Definition div_ceil (a b : nat) : nat := (a + b - 1) / b.

(** [u64::checked_mul] (also on [usize]) *)
Definition checked_mul (a b : N) : option N := if (a * b <=? u64_max)%N then Some (a * b)%N else None.

Definition validate_page_size (page_size : N) : result SqlError () :=
  reject_if (negb ((MIN_SQLITE_PAGE_SIZE <=? page_size)%N && (page_size <=? MAX_SQLITE_PAGE_SIZE)%N)
             || negb (is_power_of_two page_size))
    (InvalidEntry "invalid QWAL v3 page state: page size must be a power of two from 512 through 65536").
Definition validate_page_count (page_count : N) : result SqlError () :=
  reject_if (page_count =? 0)%N (InvalidEntry "invalid QWAL v3 page state: page count must be positive").

(** [u32::leading_zeros]; [N.size] is the number of significant bits. *)
Definition leading_zeros_u32 (n : N) : N := (32 - N.size n)%N.
(** Called with a positive count only: the subtraction does not underflow. *)
Definition tree_height (page_count : N) : nat := N.to_nat (32 - leading_zeros_u32 (page_count - 1)).

Section pages.
Context `{Sha256}.
Implicit Types cache : PageStateCacheV3.

Definition hash_leaf (page_no : N) (page : bytes) : LogHash :=
  digest [LEAF_DOMAIN; be_bytes 4 page_no; page].
Definition hash_internal (height : nat) (left right : LogHash) : LogHash :=
  digest [INTERNAL_DOMAIN; be_bytes 4 (N.of_nat height); as_bytes left; as_bytes right].

Definition empty_subtrees (height : nat) : result SqlError (list LogHash) :=
  try_fold (λ empty current_height,
      child ← index_at empty (current_height - 1);
      Ok (empty ++ [hash_internal current_height child child]))
    [digest [EMPTY_DOMAIN]] (seq 1 height).

Definition identity (page_size page_count : N) (tree_root : LogHash) : StateIdentityV3 :=
  mkStateIdentity page_size page_count
    (digest [STATE_DOMAIN; be_bytes 4 page_size; be_bytes 4 page_count; as_bytes tree_root]).

(** ** Rebuilding *)

(** The loop over the pages: each must have the page size, and its number must fit. *)
Definition push_leaf (page_size : N) (leaves : list LogHash) (page : bytes) : result SqlError (list LogHash) :=
  _ ← reject_if (neqb (blen page) page_size)
        (InvalidEntry "invalid QWAL v3 page state: page image length does not match page size");
  let page_no := (N.of_nat (length leaves) + 1)%N in
  _ ← reject_if (negb (is_u32 page_no)) (ResourceExhausted "page count exceeds u32");
  Ok (leaves ++ [hash_leaf page_no page]).

(** The parents of [children.chunks(2)]. *)
Fixpoint parents_of (height : nat) (empty : LogHash) (children : list LogHash) : list LogHash :=
  match children with
  | [] => []
  | [left_] => [hash_internal height left_ empty]
  | left_ :: right_ :: rest => hash_internal height left_ right_ :: parents_of height empty rest
  end.
Definition push_level (empty : list LogHash) (levels : list (list LogHash)) (height : nat) :
    result SqlError (list (list LogHash)) :=
  children ← index_at levels (height - 1);
  right ← index_at empty (height - 1);
  Ok (levels ++ [parents_of height right children]).

Definition from_pages (page_size : N) (pages : list bytes) : result SqlError PageStateCacheV3 :=
  _ ← validate_page_size page_size;
  leaves ← try_fold (push_leaf page_size) [] pages;
  let page_count := N.of_nat (length leaves) in
  _ ← reject_if (negb (is_u32 page_count)) (ResourceExhausted "page count exceeds u32");
  _ ← validate_page_count page_count;
  empty ← empty_subtrees (tree_height page_count);
  levels ← try_fold (push_level empty) [leaves] (seq 1 (tree_height page_count));
  Ok (mkCache page_size page_count levels).

Definition tree_root cache : result SqlError LogHash :=
  ok_or (level ← last (pc_levels cache); head level)
    (SqlPanic "validated page-state caches are non-empty").
Definition cache_identity cache : result SqlError StateIdentityV3 :=
  root ← tree_root cache; Ok (identity (pc_page_size cache) (pc_page_count cache) root).

(** ** Validation of a patch *)

Definition check_patch (page_size target_page_count : N) (acc : N * list HashedPatch) (patch : PageStatePatchV3) :
    result SqlError (N * list HashedPatch) :=
  let '(previous, hashed) := acc in
  _ ← reject_if (pp_page_no patch =? 0)%N
        (InvalidEntry "invalid QWAL v3 page state: page numbers must be one-based");
  _ ← reject_if (pp_page_no patch <=? previous)%N
        (InvalidEntry "invalid QWAL v3 page state: page patches must be strictly ordered without duplicates");
  _ ← reject_if (target_page_count <? pp_page_no patch)%N
        (InvalidEntry "invalid QWAL v3 page state: page patch lies outside the target state");
  _ ← reject_if (neqb (blen (pp_after_image patch)) page_size)
        (InvalidEntry "invalid QWAL v3 page state: page image length does not match page size");
  Ok (pp_page_no patch,
      hashed ++ [mkHashed (pp_page_no patch - 1) (hash_leaf (pp_page_no patch) (pp_after_image patch))]).

(** [for (offset, patch) in patches[first_new..].iter().enumerate()] *)
Fixpoint check_suffix (first : N) (offset : N) (patches : list PageStatePatchV3) : result SqlError () :=
  match patches with
  | [] => Ok ()
  | patch :: patches =>
      _ ← reject_if (negb (is_u32 offset)) (ResourceExhausted "page patch count exceeds u32");
      _ ← reject_if (neqb (pp_page_no patch) (first + offset)%N)
            (InvalidEntry "invalid QWAL v3 page state: growth must include a complete new page suffix");
      check_suffix first (offset + 1) patches
  end.

Definition validate_and_hash cache (target_page_count : N) (patches : list PageStatePatchV3) :
    result SqlError (list HashedPatch) :=
  _ ← validate_page_count target_page_count;
  '(_, hashed) ← try_fold (check_patch (pc_page_size cache) target_page_count) (0%N, []) patches;
  _ ← (if (pc_page_count cache <? target_page_count)%N then
         let first_new := partition_point (λ patch, (pp_page_no patch <=? pc_page_count cache)%N) patches in
         let required := (target_page_count - pc_page_count cache)%N in
         let supplied := N.of_nat (length patches - first_new) in
         _ ← reject_if (neqb supplied required)
               (InvalidEntry "invalid QWAL v3 page state: growth must include every newly allocated page");
         check_suffix (pc_page_count cache + 1) 0 (drop first_new patches)
       else Ok ());
  Ok hashed.

(** ** The identity after a patch, without changing the cache *)

Fixpoint overlay_node cache (start : N) (height : nat) (target_page_count : N) (patches : list HashedPatch)
    (empty : list LogHash) : result SqlError LogHash :=
  if (target_page_count <=? start)%N then index_at empty height else
  let width := N.shiftl 1 (N.of_nat height) in
  let end_ := (start + width)%N in
  if match patches with [] => true | _ => false end
     && (end_ <=? pc_page_count cache)%N && (end_ <=? target_page_count)%N
  then
    level ← index_at (pc_levels cache) height;
    index_at level (N.to_nat (N.shiftr start (N.of_nat height)))
  else
  match height with
  | O => match patches with
         | patch :: _ => Ok (hp_hash patch)
         | [] => level ← index_at (pc_levels cache) 0; index_at level (N.to_nat start)
         end
  | S below =>
      let midpoint := (start + N.shiftr width 1)%N in
      let split := partition_point (λ patch, (hp_page_index patch <? midpoint)%N) patches in
      left ← overlay_node cache start below target_page_count (take split patches) empty;
      right ← overlay_node cache midpoint below target_page_count (drop split patches) empty;
      Ok (hash_internal height left right)
  end.

Definition overlay_hashed cache (target_page_count : N) (patches : list HashedPatch) :
    result SqlError StateIdentityV3 :=
  let height := tree_height target_page_count in
  empty ← empty_subtrees height;
  tree_root ← overlay_node cache 0 height target_page_count patches empty;
  Ok (identity (pc_page_size cache) target_page_count tree_root).

Definition overlay cache (target_page_count : N) (patches : list PageStatePatchV3) :
    result SqlError StateIdentityV3 :=
  hashed ← validate_and_hash cache target_page_count patches;
  overlay_hashed cache target_page_count hashed.

(** ** Installing a patch *)

(** [Vec::resize]: truncates or pads at the end. *)
Definition vec_resize {A} (n : nat) (x : A) (l : list A) : list A := take n l ++ replicate (n - length l) x.

Definition store_leaf (leaves : list LogHash) (patch : HashedPatch) : result SqlError (list LogHash) :=
  store_at leaves (N.to_nat (hp_page_index patch)) (hp_hash patch).

(** [dirty.sort_unstable(); dirty.dedup()] after a shrink; on the parents only [dedup]. *)
Definition dirty_leaves (target_len : nat) (shrinks : bool) (patches : list HashedPatch) : list N :=
  let dirty := hp_page_index <$> patches in
  if shrinks then dedup_by id (sort_by id (dirty ++ [N.of_nat target_len - 1]%N)) else dirty.

(** The loop over the dirty parents of one level. *)
Definition refresh_parent (current_height : nat) (children : list LogHash) (empty : LogHash)
    (level : list LogHash) (parent : N) : result SqlError (list LogHash) :=
  let left_index := N.to_nat (parent * 2) in
  left ← index_at children left_index;
  let right := default empty (children !! (left_index + 1)%nat) in
  store_at level (N.to_nat parent) (hash_internal current_height left right).

(** One round of [for current_height in 1..=height]. *)
Definition refresh_level (target_len : nat) (empty : list LogHash)
    (acc : list (list LogHash) * list N) (current_height : nat) :
    result SqlError (list (list LogHash) * list N) :=
  let '(levels, dirty) := acc in
  let desired_len := div_ceil target_len (2 ^ current_height) in
  filler ← index_at empty current_height;
  level ← index_at levels current_height;
  let level := vec_resize desired_len filler level in
  let parents := dedup_by id ((λ index, (index / 2)%N) <$> dirty) in
  children ← index_at levels (current_height - 1);
  right ← index_at empty (current_height - 1);
  level ← try_fold (refresh_parent current_height children right) level parents;
  levels ← store_at levels current_height level;
  Ok (levels, parents).

Definition apply_hashed cache (target_page_count : N) (patches : list HashedPatch) :
    result SqlError PageStateCacheV3 :=
  let target_len := N.to_nat target_page_count in
  let height := tree_height target_page_count in
  empty ← empty_subtrees height;
  filler ← index_at empty 0;
  leaves ← index_at (pc_levels cache) 0;
  leaves ← try_fold store_leaf (vec_resize target_len filler leaves) patches;
  levels ← store_at (pc_levels cache) 0 leaves;
  let dirty := dirty_leaves target_len (target_page_count <? pc_page_count cache)%N patches in
  let levels := vec_resize (height + 1) [] levels in
  '(levels, _) ← try_fold (refresh_level target_len empty) (levels, dirty) (seq 1 height);
  Ok (mkCache (pc_page_size cache) target_page_count (take (height + 1) levels)).

(** The target identity, and the cache after the call. *)
Definition apply_patch cache (target_page_count : N) (patches : list PageStatePatchV3) :
    result SqlError (StateIdentityV3 * PageStateCacheV3) :=
  hashed ← validate_and_hash cache target_page_count patches;
  target ← overlay_hashed cache target_page_count hashed;
  cache ← apply_hashed cache target_page_count hashed;
  Ok (target, cache).
End pages.
