(* ===== verification/SqlPatch.v ===== *)
(** * SqlPatch: patching the page state of a database

    What a patch means ([patch_pages]), when the cache accepts it, and that the two
    incremental algorithms of [PageStateCacheV3] (the overlay, which descends only
    into changed subtrees, and the refresh of the dirty nodes level by level)
    compute the tree of the patched pages. *)

From S2P Require Import Prelude Bytes Text Core SqlPages SqlMerkle.

(** ** The patched pages *)

Definition page_index (patch : PageStatePatchV3) : nat := N.to_nat (pp_page_no patch - 1).

(** The file gets its new length, then every page of the patch is written. *)
Definition patch_pages (target : nat) (patches : list PageStatePatchV3) (pages : list bytes) : list bytes :=
  foldl (λ pages patch, <[page_index patch := pp_after_image patch]> pages)
    (vec_resize target [] pages) patches.

(** What a patch of a database with [count] pages must satisfy: ascending page numbers
    inside the target, full pages, and every page beyond the old end. *)
Definition patch_ok (page_size count target : N) (patches : list PageStatePatchV3) : Prop :=
  (0 < target)%N ∧ StronglySorted (key_lt pp_page_no) patches
  ∧ Forall (λ patch, (0 < pp_page_no patch ≤ target)%N ∧ blen (pp_after_image patch) = page_size) patches
  ∧ ∀ k, (count < k ≤ target)%N → k ∈ pp_page_no <$> patches.

(** ** Ordered slices *)

Section partition.
Context {A : Type} (key : A → N).

Lemma key_lt_N (x y : A) : key_lt key x y ↔ (key x < key y)%N.
Proof. unfold key_lt, cmp, N_ord. by rewrite N.compare_lt_iff. Qed.

Lemma partition_point_spec (c : N) (f : A → bool) (l : list A) :
  (∀ x, f x = (key x <? c)%N) → StronglySorted (key_lt key) l →
  ∀ x, (x ∈ take (partition_point f l) l ↔ x ∈ l ∧ (key x < c)%N)
       ∧ (x ∈ drop (partition_point f l) l ↔ x ∈ l ∧ (c ≤ key x)%N).
Proof.
  intros Hf. induction 1 as [|y l Hs IH Hy]; intros x; cbn.
  { split; (split; [intros Hx; by apply elem_of_nil in Hx|intros [Hx _]; by apply elem_of_nil in Hx]). }
  rewrite Hf. destruct (N.ltb_spec (key y) c) as [Hlt|Hge]; cbn.
  - destruct (IH x) as [IH1 IH2]. rewrite !elem_of_cons, IH1, IH2. split; [naive_solver|].
    split; [naive_solver|]. intros [[Heq|Hx] Hc]; [subst x; lia|done].
  - rewrite Forall_forall in Hy. split.
    + split; [intros Hx; by apply elem_of_nil in Hx|]. intros [Hxy Hc]. apply elem_of_cons in Hxy as [Heq|Hx]; [subst x; lia|].
      specialize (Hy x Hx). rewrite key_lt_N in Hy. lia.
    + split; [|naive_solver]. intros Hx. split; [done|].
      apply elem_of_cons in Hx as [->|Hx]; [done|]. specialize (Hy x Hx).
      rewrite key_lt_N in Hy. lia.
Qed.

Lemma sorted_take_drop (n : nat) (l : list A) : StronglySorted (key_lt key) l →
  StronglySorted (key_lt key) (take n l) ∧ StronglySorted (key_lt key) (drop n l).
Proof.
  intros Hs. revert n. induction Hs as [|y l Hs IH Hy]; intros [|n]; cbn; try by repeat constructor.
  destruct (IH n) as [IH1 IH2]. split; [|done]. constructor; [done|]. by apply Forall_take.
Qed.

(** An ascending run inside [(a, t]] that misses nothing is [a + 1, ..., t]. *)
Lemma ascending_full (a t : N) (l : list A) :
  StronglySorted (key_lt key) l → Forall (λ x, a < key x ≤ t)%N l →
  (∀ k, (a < k ≤ t)%N → k ∈ key <$> l) →
  N.of_nat (length l) = (t - a)%N ∧ ∀ i x, l !! i = Some x → key x = (a + 1 + N.of_nat i)%N.
Proof.
  intros Hs. revert a. induction Hs as [|y l Hs IH Hy]; intros a Hr Hk.
  { split; [|done]. destruct (decide (a < t)%N) as [Hat|]; [|cbn; lia].
    specialize (Hk t ltac:(lia)). by apply elem_of_nil in Hk. }
  inversion Hr as [|? ? Hya Hr']; subst. rewrite Forall_forall in Hy, Hr'.
  assert (key y = a + 1)%N as Hya1.
  { specialize (Hk (a + 1)%N ltac:(lia)). cbn in Hk. apply elem_of_cons in Hk as [?|Hin]; [done|].
    apply list_elem_of_fmap in Hin as (x & Hx & Hin). specialize (Hy x Hin). specialize (Hr' x Hin).
    rewrite key_lt_N in Hy. lia. }
  destruct (IH (a + 1)%N) as [Hl Hi].
  - apply Forall_forall. intros x Hx. specialize (Hy x Hx). specialize (Hr' x Hx).
    rewrite key_lt_N in Hy. lia.
  - intros k Hka. specialize (Hk k ltac:(lia)). cbn in Hk. apply elem_of_cons in Hk as [?|?]; [lia|done].
  - split; [cbn [length]; lia|]. intros [|i] x; cbn; [intros [= <-]; lia|].
    intros Hx. rewrite (Hi i x Hx). lia.
Qed.
End partition.

Section patch.
Context `{Sha256}.
Implicit Types (cache : PageStateCacheV3) (pages : list bytes) (patches : list PageStatePatchV3).

Definition hash_patch (patch : PageStatePatchV3) : HashedPatch :=
  mkHashed (pp_page_no patch - 1) (hash_leaf (pp_page_no patch) (pp_after_image patch)).

(** ** Which patches are accepted *)

Lemma check_patches page_size target previous acc patches r :
  try_fold (check_patch page_size target) (previous, acc) patches = Ok r ↔
  snd r = acc ++ (hash_patch <$> patches)
  ∧ fst r = default previous (pp_page_no <$> last patches)
  ∧ StronglySorted (key_lt pp_page_no) patches
  ∧ Forall (λ patch, (previous < pp_page_no patch ≤ target)%N ∧ blen (pp_after_image patch) = page_size) patches.
Proof.
  revert previous acc. induction patches as [|patch patches IH]; intros previous acc; cbn [try_fold].
  { cbn. rewrite app_nil_r. destruct r as [r1 r2]; cbn.
    split; [intros [= <- <-]; repeat constructor|intros (-> & -> & _); done]. }
  rewrite bind_Ok_inv. unfold check_patch at 1. split.
  - intros (b & Hb & Hf). res_inv. apply IH in Hf as (Hr2 & Hr1 & Hs & Hp). bool_prop.
    assert (Forall (key_lt pp_page_no patch) patches) as Hlt.
    { eapply Forall_impl; [exact Hp|]. cbn. intros q Hq. apply key_lt_N. lia. }
    split_and!.
    + rewrite Hr2, <- app_assoc. done.
    + rewrite Hr1. rewrite last_cons. by destruct (last patches).
    + by constructor.
    + constructor; [split; [lia|done]|]. eapply Forall_impl; [exact Hp|]. cbn. intros q [? ?]. split; [lia|done].
  - intros (Hr2 & Hr1 & Hs & Hp). inversion Hs as [|? ? Hs' Hlt]; subst.
    inversion Hp as [|? ? [Hn Hl] Hp']; subst.
    rewrite (proj2 (N.eqb_neq _ _)) by lia. rewrite (proj2 (N.leb_gt _ _)) by lia.
    rewrite (proj2 (N.ltb_ge _ _)) by lia. rewrite neqb_refl. cbn.
    eexists. split; [reflexivity|]. apply IH. split_and!; [by rewrite Hr2, <- app_assoc| |done|].
    + rewrite Hr1, last_cons. by destruct (last patches).
    + rewrite Forall_forall in *. intros q Hq. specialize (Hlt q Hq). specialize (Hp' q Hq).
      rewrite key_lt_N in Hlt. split; [lia|apply Hp'].
Qed.

Lemma check_suffix_Ok first offset patches u :
  check_suffix first offset patches = Ok u ↔
  (∀ i patch, patches !! i = Some patch →
     is_u32 (offset + N.of_nat i) = true ∧ pp_page_no patch = (first + offset + N.of_nat i)%N).
Proof.
  destruct u. revert offset. induction patches as [|patch patches IH]; intros offset; cbn [check_suffix].
  { split; [|done]. intros _ i patch Hi. by rewrite lookup_nil in Hi. }
  rewrite bind_Ok_inv. setoid_rewrite bind_Ok_inv. setoid_rewrite reject_if_Ok. setoid_rewrite IH. split.
  - intros ([] & Hu & [] & Hn & Hf) [|i] q; cbn.
    + intros [= <-]. bool_prop. rewrite !N.add_0_r. done.
    + intros Hq. destruct (Hf i q Hq) as [Hu' ->]. split; [rewrite <- Hu'; f_equal; lia|lia].
  - intros Hf. destruct (Hf 0 patch eq_refl) as [Hu Hn]. rewrite N.add_0_r in Hu, Hn.
    exists (). split; [by rewrite Hu|]. exists (). split; [by apply neqb_false|].
    intros i q Hq. destruct (Hf (S i) q Hq) as [Hu' ->]. split; [rewrite <- Hu'; f_equal; lia|lia].
Qed.

Lemma growth_check count target patches :
  is_u32 target = true → (count < target)%N → StronglySorted (key_lt pp_page_no) patches →
  Forall (λ patch, (pp_page_no patch ≤ target)%N) patches →
  let first_new := partition_point (λ patch, (pp_page_no patch <=? count)%N) patches in
  (N.of_nat (length patches - first_new) = (target - count)%N
   ∧ check_suffix (count + 1) 0 (drop first_new patches) = Ok ())
  ↔ ∀ k, (count < k ≤ target)%N → k ∈ pp_page_no <$> patches.
Proof.
  intros Hu Hlt Hs Hr first_new.
  assert (∀ q, q ∈ drop first_new patches ↔ q ∈ patches ∧ (count < pp_page_no q)%N) as Hin.
  { intros q. destruct (partition_point_spec pp_page_no (count + 1)
      (λ patch, (pp_page_no patch <=? count)%N) patches) with (x := q) as [_ Hd]; [|done|].
    - intros x. destruct (N.leb_spec (pp_page_no x) count), (N.ltb_spec (pp_page_no x) (count + 1)); lia || done.
    - subst first_new. rewrite Hd. intuition lia. }
  destruct (sorted_take_drop pp_page_no first_new patches Hs) as [_ Hsd].
  rewrite <- length_drop, check_suffix_Ok. split.
  - intros [Hlen Hsuf] k Hk.
    destruct (lookup_lt_is_Some_2 (drop first_new patches) (N.to_nat (k - count - 1))) as [q Hq]; [lia|].
    destruct (Hsuf _ _ Hq) as [_ Hno]. apply list_elem_of_fmap. exists q.
    split; [lia|]. apply Hin. by eapply list_elem_of_lookup_2.
  - intros Hk. destruct (ascending_full pp_page_no count target (drop first_new patches)) as [Hlen Hi]; [done| | |].
    + rewrite Forall_forall in *. intros q Hq. apply Hin in Hq as [Hq Hc]. split; [done|by apply Hr].
    + intros k Hkr. specialize (Hk k Hkr). apply list_elem_of_fmap in Hk as (q & -> & Hq).
      apply list_elem_of_fmap. exists q. split; [done|]. apply Hin. split; [done|lia].
    + split; [done|]. intros i q Hq. rewrite (Hi i q Hq). split; [|lia].
      apply lookup_lt_Some in Hq. unfold is_u32 in *. bool_prop. lia.
Qed.

(** A patch is accepted exactly when it is well formed. *)
Lemma validate_and_hash_Ok cache target patches hashed : is_u32 target = true →
  validate_and_hash cache target patches = Ok hashed ↔
  patch_ok (pc_page_size cache) (pc_page_count cache) target patches ∧ hashed = hash_patch <$> patches.
Proof.
  intros Hu. unfold validate_and_hash, validate_page_count, patch_ok. rewrite bind_Ok_inv.
  setoid_rewrite bind_Ok_inv. setoid_rewrite reject_if_Ok. setoid_rewrite N.eqb_neq.
  setoid_rewrite check_patches. split.
  - intros ([] & Ht & [prev h] & (Hh & _ & Hs & Hp) & Hg). cbn in Hh. subst h. res_inv.
    assert (Forall (λ patch, (pp_page_no patch ≤ target)%N) patches) as Hle.
    { eapply Forall_impl; [exact Hp|]. cbn. intros q Hq. lia. }
    split; [|done]. split_and!; [lia|done|done|].
    destruct (N.ltb_spec (pc_page_count cache) target) as [Hlt|Hge]; [|lia]. res_inv.
    apply (growth_check (pc_page_count cache) target patches Hu Hlt Hs Hle).
    bool_prop. done.
  - intros [(Ht & Hs & Hp & Hk) ->]. exists (). split; [lia|].
    exists (default 0%N (pp_page_no <$> last patches), hash_patch <$> patches). split; [done|].
    destruct (N.ltb_spec (pc_page_count cache) target) as [Hlt|Hge]; [|done].
    assert (Forall (λ patch, (pp_page_no patch ≤ target)%N) patches) as Hle.
    { eapply Forall_impl; [exact Hp|]. cbn. intros q Hq. lia. }
    destruct (proj2 (growth_check (pc_page_count cache) target patches Hu Hlt Hs Hle) Hk) as [Hlen Hsuf].
    rewrite Hlen, neqb_refl, Hsuf. done.
Qed.
End patch.

(** ** Changing the leaves of a tree *)

(** [D] holds the leaves that differ; after a shrink the last leaf counts as one. *)
Record leaves_change (D : list N) (OL NL : list LogHash) : Prop := {
  lc_old : 0 < length OL ∧ is_u32 (N.of_nat (length OL)) = true;
  lc_new : 0 < length NL ∧ is_u32 (N.of_nat (length NL)) = true;
  lc_inside x : x ∈ D → N.to_nat x < length NL;
  lc_outside j : j < length NL → N.of_nat j ∉ D → j < length OL ∧ NL !! j = OL !! j;
  lc_shrink : length NL < length OL → (N.of_nat (length NL) - 1)%N ∈ D
}.

(** The dirty nodes of level [h]. *)
Definition dirty_at (D : list N) (h : nat) : list N :=
  Nat.iter h (λ dirty, dedup_by id ((λ index, (index / 2)%N) <$> dirty)) D.

Lemma dedup_by_id_elem (x : N) (l : list N) : x ∈ dedup_by id l ↔ x ∈ l.
Proof.
  enough (∀ y k, x ∈ dedup_by_from id y k ∨ x = y ↔ x ∈ k ∨ x = y) as Hgo.
  { destruct l as [|y l]; [done|]. cbn. rewrite !elem_of_cons. specialize (Hgo y l). tauto. }
  intros y k. revert y. induction k as [|z k IH]; intros y; cbn; [done|].
  destruct (eqb z y) eqn:He.
  - apply eqb_true in He as ->. specialize (IH y). rewrite elem_of_cons. tauto.
  - specialize (IH z). rewrite !elem_of_cons. tauto.
Qed.

Lemma dirty_at_elem D h x : x ∈ dirty_at D h ↔ ∃ y, y ∈ D ∧ x = (y / 2 ^ N.of_nat h)%N.
Proof.
  revert x. induction h as [|h IH]; intros x.
  { change (N.of_nat 0) with 0%N. setoid_rewrite N.div_1_r. cbn. naive_solver. }
  change (dirty_at D (S h)) with (dedup_by id ((λ index, (index / 2)%N) <$> dirty_at D h)).
  rewrite dedup_by_id_elem, list_elem_of_fmap. setoid_rewrite IH.
  assert (∀ y, y / 2 ^ N.of_nat (S h) = y / 2 ^ N.of_nat h / 2)%N as He.
  { intros y. rewrite Nat2N.inj_succ, N.pow_succ_r', N.mul_comm. by rewrite N.Div0.div_div. }
  setoid_rewrite He. naive_solver.
Qed.

(** Index [x] lies under node [i] of level [h]. *)
Lemma under_node (x i h : nat) :
  (N.of_nat x / 2 ^ N.of_nat h)%N = N.of_nat i ↔ i * 2 ^ h ≤ x < (i + 1) * 2 ^ h.
Proof.
  assert (2 ^ N.of_nat h = N.of_nat (2 ^ h))%N as -> by by rewrite Nat2N.inj_pow.
  rewrite <- Nat2N.inj_div, Nat2N.inj_iff. pose proof (pow2_pos h). split.
  - intros <-. pose proof (Nat.div_mod x (2 ^ h) ltac:(lia)).
    pose proof (Nat.mod_upper_bound x (2 ^ h) ltac:(lia)). lia.
  - intros Hx. symmetry. apply (Nat.div_unique _ _ _ (x - i * 2 ^ h)); lia.
Qed.

Section update.
Context `{Sha256} (D : list N) (OL NL : list LogHash) (Hchange : leaves_change D OL NL).

(** The parts of the tree that no dirty leaf reaches stay as they are. *)
Lemma clean_node h i :
  i * 2 ^ h < length NL → (∀ j, i * 2 ^ h ≤ j < (i + 1) * 2 ^ h → N.of_nat j ∉ D) →
  h ≤ tree_height (N.of_nat (length NL)) →
  i * 2 ^ h < length OL ∧ h ≤ tree_height (N.of_nat (length OL)) ∧ node NL h i = node OL h i.
Proof.
  intros Hi Hclean Hh. pose proof (pow2_pos h) as Hpow.
  destruct (lc_old _ _ _ Hchange) as [Ho Huo], (lc_new _ _ _ Hchange) as [Hn Hun].
  assert (∀ j, i * 2 ^ h ≤ j < (i + 1) * 2 ^ h → j < length NL → j < length OL ∧ NL !! j = OL !! j) as Hout.
  { intros j Hj Hl. apply (lc_outside _ _ _ Hchange); [done|]. by apply Hclean. }
  destruct (lt_eq_lt_dec (length NL) (length OL)) as [[Hlt|Heq]|Hgt].
  - assert ((i + 1) * 2 ^ h ≤ length NL - 1) as Hle.
    { destruct (decide ((i + 1) * 2 ^ h ≤ length NL - 1)) as [|Hno]; [done|]. exfalso.
      apply (Hclean (length NL - 1)); [lia|]. pose proof (lc_shrink _ _ _ Hchange Hlt) as Hs.
      by replace (N.of_nat (length NL - 1)) with (N.of_nat (length NL) - 1)%N by lia. }
    split_and!; [lia| |apply node_ext; intros j Hj; apply Hout; lia].
    etransitivity; [exact Hh|]. apply tree_height_least; [done|done|].
    pose proof (tree_height_enough _ Ho Huo). lia.
  - split_and!; [lia|by rewrite <- Heq|]. apply node_ext. intros j Hj.
    destruct (decide (j < length NL)) as [Hl|Hl]; [by apply Hout|].
    rewrite !(proj2 (lookup_ge_None _ _)) by lia. done.
  - destruct (Hout (i * 2 ^ h)) as [Hio _]; [lia|lia|].
    assert ((i + 1) * 2 ^ h ≤ length OL) as Hle.
    { destruct (decide ((i + 1) * 2 ^ h ≤ length OL)) as [|Hno]; [done|].
      destruct (Hout (length OL)) as [? _]; lia. }
    split_and!; [done| |apply node_ext; intros j Hj; apply Hout; lia].
    pose proof (tree_height_enough _ Ho Huo). assert (2 ^ h ≤ 2 ^ tree_height (N.of_nat (length OL))) as Hp by lia.
    apply Nat.pow_le_mono_r_iff in Hp; [done|lia].
Qed.

(** *** Refreshing the dirty nodes *)

Lemma dirty_inside h x : x ∈ dirty_at D h → N.to_nat x * 2 ^ h < length NL.
Proof.
  intros (y & Hy & ->)%dirty_at_elem. apply (lc_inside _ _ _ Hchange) in Hy.
  pose proof (proj1 (under_node (N.to_nat y) (N.to_nat (y / 2 ^ N.of_nat h)) h)) as Hu.
  rewrite !N2Nat.id in Hu. specialize (Hu eq_refl). lia.
Qed.

Lemma not_dirty h i : N.of_nat i ∉ dirty_at D h → ∀ j, i * 2 ^ h ≤ j < (i + 1) * 2 ^ h → N.of_nat j ∉ D.
Proof.
  intros Hno j Hj Hin. apply Hno, dirty_at_elem. exists (N.of_nat j). split; [done|].
  symmetry. by apply under_node.
Qed.

Lemma refresh_parents_Ok h (L : list LogHash) (parents : list N) :
  length L = div_ceil (length NL) (2 ^ S h) →
  (∀ x, x ∈ parents → N.to_nat x * 2 ^ S h < length NL) →
  try_fold (refresh_parent (S h) (level NL h) (empty_root h)) L parents =
  Ok (foldl (λ l p, <[N.to_nat p := node NL (S h) (N.to_nat p)]> l) L parents).
Proof.
  intros HL Hp. apply try_fold_store. intros k p Hin Hk. unfold refresh_parent.
  specialize (Hp p Hin). replace (N.to_nat (p * 2)) with (2 * N.to_nat p) by lia.
  rewrite node_right. rewrite (proj2 (index_at_Ok _ _ (node NL h (2 * N.to_nat p)))).
  2: { rewrite lookup_level, decide_True; [done|]. cbn in Hp. lia. }
  cbn [mbind result_bind]. unfold store_at. rewrite (proj2 (Nat.ltb_lt _ _)); [done|].
  rewrite Hk, HL. apply lt_div_ceil; [apply pow2_pos|done].
Qed.

(** Old levels, cut or padded to the height of the new tree. *)
Definition kept_levels (height : nat) : list (list LogHash) :=
  vec_resize (height + 1) [] (level OL <$> seq 0 (S (tree_height (N.of_nat (length OL))))).

Lemma refreshed_level h : S h ≤ tree_height (N.of_nat (length NL)) →
  foldl (λ l p, <[N.to_nat p := node NL (S h) (N.to_nat p)]> l)
    (vec_resize (div_ceil (length NL) (2 ^ S h)) (empty_root (S h))
       (default [] (kept_levels (tree_height (N.of_nat (length NL))) !! S h)))
    (dirty_at D (S h))
  = level NL (S h).
Proof.
  intros Hh. apply list_eq. intros i. rewrite lookup_level.
  rewrite (lookup_foldl_insert N.to_nat (node NL (S h))) by done. rewrite length_vec_resize.
  destruct (decide (i * 2 ^ S h < length NL)) as [Hi|Hi].
  all: pose proof (lt_div_ceil (length NL) (2 ^ S h) i (pow2_pos _)) as Hdc.
  2: { rewrite decide_False by tauto. apply lookup_ge_None. rewrite length_vec_resize. lia. }
  destruct (decide (i ∈ N.to_nat <$> dirty_at D (S h))) as [Hd|Hd].
  { by rewrite decide_True by tauto. }
  rewrite decide_False by tauto.
  destruct (clean_node (S h) i) as (Hio & Hho & Hn); [done| |done|].
  { apply not_dirty. intros Hin. apply Hd, list_elem_of_fmap. exists (N.of_nat i). by rewrite Nat2N.id. }
  rewrite lookup_vec_resize by tauto.
  unfold kept_levels. rewrite lookup_vec_resize by lia. rewrite lookup_fmap_seq, decide_True by lia.
  cbn [from_option id]. rewrite lookup_level, decide_True by done. by rewrite Hn.
Qed.

(** The levels while they are refreshed: the first [S h] are new. *)
Definition refreshed (height h : nat) : list (list LogHash) * list N :=
  ((level NL <$> seq 0 (S h)) ++ drop (S h) (kept_levels height), dirty_at D h).

Lemma refresh_level_Ok h : let height := tree_height (N.of_nat (length NL)) in h < height →
  refresh_level (length NL) (empty_root <$> seq 0 (S height)) (refreshed height h) (S h) = Ok (refreshed height (S h)).
Proof.
  intros height Hh. unfold refresh_level, refreshed.
  assert (length (kept_levels height) = height + 1) as Hlen by apply length_vec_resize.
  destruct (lookup_lt_is_Some_2 (kept_levels height) (S h)) as [L HL]; [lia|].
  rewrite (drop_S _ _ _ HL), empty_at by lia. cbn [mbind result_bind].
  assert (length (level NL <$> seq 0 (S h)) = S h) as Hfst by by rewrite length_fmap, length_seq.
  rewrite (proj2 (index_at_Ok _ (S h) L)) by (rewrite lookup_app_r, Hfst, Nat.sub_diag by (rewrite Hfst; lia); done).
  cbn [mbind result_bind]. replace (S h - 1) with h by lia.
  rewrite (proj2 (index_at_Ok _ h (level NL h))).
  2: { apply lookup_app_l_Some. rewrite lookup_fmap_seq, decide_True by lia. done. }
  cbn [mbind result_bind]. rewrite empty_at by lia. cbn [mbind result_bind].
  change (dedup_by id ((λ index, (index / 2)%N) <$> dirty_at D h)) with (dirty_at D (S h)).
  rewrite refresh_parents_Ok; [|apply length_vec_resize|apply dirty_inside].
  cbn [mbind result_bind]. pose proof (refreshed_level h ltac:(lia)) as Hr. fold height in Hr.
  rewrite HL in Hr. cbn [from_option id] in Hr. rewrite Hr. unfold store_at.
  rewrite (proj2 (Nat.ltb_lt _ _)) by (rewrite length_app, Hfst; cbn; lia). cbn [mbind result_bind].
  rewrite insert_app_r_alt, Hfst, Nat.sub_diag by (rewrite Hfst; lia). cbn [list_insert insert].
  rewrite (seq_S (S h)), fmap_app, <- app_assoc. done.
Qed.

Lemma apply_hashed_Ok page_size patches :
  dirty_leaves (length NL) (N.of_nat (length NL) <? N.of_nat (length OL))%N patches = D →
  try_fold store_leaf (vec_resize (length NL) (empty_root 0) OL) patches = Ok NL →
  let tree leaves := mkCache page_size (N.of_nat (length leaves))
    (level leaves <$> seq 0 (S (tree_height (N.of_nat (length leaves))))) in
  apply_hashed (tree OL) (N.of_nat (length NL)) patches = Ok (tree NL).
Proof.
  intros HD Hst tree. unfold apply_hashed, tree. cbn [pc_levels pc_page_count pc_page_size].
  set (height := tree_height (N.of_nat (length NL))). rewrite empty_subtrees_Ok. cbn [mbind result_bind].
  rewrite empty_at by lia. cbn [mbind result_bind]. rewrite Nat2N.id.
  rewrite (proj2 (index_at_Ok _ 0 OL)) by (cbn [seq fmap list_fmap]; by rewrite level_zero).
  cbn [mbind result_bind]. rewrite Hst. cbn [mbind result_bind]. rewrite HD.
  unfold store_at. rewrite (proj2 (Nat.ltb_lt _ _)) by (rewrite length_fmap, length_seq; lia).
  cbn [mbind result_bind].
  assert (vec_resize (height + 1) [] (<[0 := NL]> (level OL <$> seq 0 (S (tree_height (N.of_nat (length OL))))))
          = fst (refreshed height 0)) as Hstart.
  { unfold refreshed, kept_levels, vec_resize. replace (height + 1) with (S height) by lia.
    cbn [fst seq]. rewrite !fmap_cons, !level_zero. reflexivity. }
  rewrite Hstart. change (fst (refreshed height 0), D) with (refreshed height 0).
  rewrite (try_fold_seq _ (refreshed height)) by apply refresh_level_Ok. cbn [mbind result_bind refreshed].
  rewrite take_app_length' by (rewrite length_fmap, length_seq; lia). done.
Qed.

(** *** The overlay *)

Section overlay.
Context (page_size : N) (hashed : list HashedPatch).
Context (Hin : ∀ patch, patch ∈ hashed → NL !! N.to_nat (hp_page_index patch) = Some (hp_hash patch)).
Context (HD : ∀ j, N.of_nat j ∉ hp_page_index <$> hashed → j < length NL → j < length OL ∧ NL !! j = OL !! j).

Let old_tree := mkCache page_size (N.of_nat (length OL))
    (level OL <$> seq 0 (S (tree_height (N.of_nat (length OL))))).

Lemma old_node h i : (i + 1) * 2 ^ h ≤ length OL →
  (level ← index_at (pc_levels old_tree) h; index_at level i) = Ok (node OL h i).
Proof.
  intros Hi. destruct (lc_old _ _ _ Hchange) as [Ho Huo]. pose proof (pow2_pos h).
  assert (h ≤ tree_height (N.of_nat (length OL))) as Hh.
  { pose proof (tree_height_enough _ Ho Huo).
    assert (2 ^ h ≤ 2 ^ tree_height (N.of_nat (length OL))) as Hp by lia.
    apply Nat.pow_le_mono_r_iff in Hp; [done|lia]. }
  rewrite (proj2 (index_at_Ok _ h (level OL h))).
  - cbn [mbind result_bind]. apply index_at_Ok. rewrite lookup_level, decide_True by lia. done.
  - cbn [pc_levels old_tree]. rewrite lookup_fmap_seq, decide_True by lia. done.
Qed.

Lemma overlay_node_Ok top h i patches : h ≤ top →
  StronglySorted (key_lt hp_page_index) patches →
  (∀ p, p ∈ patches ↔ p ∈ hashed ∧ i * 2 ^ h ≤ N.to_nat (hp_page_index p) < (i + 1) * 2 ^ h) →
  overlay_node old_tree (N.of_nat (i * 2 ^ h)) h (N.of_nat (length NL)) patches (empty_root <$> seq 0 (S top))
  = Ok (node NL h i).
Proof.
  revert i patches. induction h as [|h IH]; intros i patches Htop Hs Hp; cbn [overlay_node];
    change (pc_page_count old_tree) with (N.of_nat (length OL)).
  all: match goal with |- context [(?a <=? ?b)%N] => destruct (N.leb_spec a b) as [Hge|Hlt] end;
    [rewrite node_empty by lia; by apply empty_at|].
  - rewrite Nat.pow_0_r, Nat.mul_1_r in *. change (N.shiftl 1 (N.of_nat 0)) with 1%N.
    rewrite N.shiftr_0_r, Nat2N.id.
    destruct patches as [|p patches]; cbn [andb].
    + destruct (HD i) as [Ho He].
      { intros (p & Hpi & Hph)%list_elem_of_fmap. assert (p ∈ @nil HashedPatch) as Hno.
        { apply Hp. split; [done|lia]. } by apply elem_of_nil in Hno. }
      { lia. }
      rewrite (proj2 (N.leb_le _ _)) by lia. rewrite (proj2 (N.leb_le _ _)) by lia. cbn [andb].
      rewrite old_node by (cbn; lia). cbn. by rewrite He.
    + destruct (proj1 (Hp p)) as [Hph Hr]; [by left|]. apply Hin in Hph.
      cbn. by replace i with (N.to_nat (hp_page_index p)) by lia; rewrite Hph.
  - set (width := N.shiftl 1 (N.of_nat (S h))).
    assert (width = N.of_nat (2 ^ S h)) as Hw.
    { subst width. rewrite N.shiftl_1_l, Nat2N.inj_pow. done. }
    assert (N.shiftr width 1 = N.of_nat (2 ^ h)) as Hw2.
    { rewrite Hw, N.shiftr_div_pow2. change (2 ^ 1)%N with 2%N.
      replace (N.of_nat (2 ^ S h)) with (N.of_nat (2 ^ h) * 2)%N by (rewrite Nat.pow_succ_r'; lia).
      by apply N.div_mul. }
    rewrite Hw2. destruct (_ && _ && _) eqn:Hfast.
    + bool_prop. destruct Hfast as [[Hnil Ho] Hn]. destruct patches; [|done].
      rewrite N.shiftr_div_pow2. replace (N.to_nat (N.of_nat (i * 2 ^ S h) / 2 ^ N.of_nat (S h))) with i.
      2: { rewrite (proj2 (under_node (i * 2 ^ S h) i (S h))); [by rewrite Nat2N.id|]. pose proof (pow2_pos (S h)). lia. }
      rewrite old_node by lia. f_equal. symmetry. apply node_ext. intros j Hj.
      apply HD; [|lia]. intros (p & Hpi & Hph)%list_elem_of_fmap.
      assert (p ∈ @nil HashedPatch) as Hno by (apply Hp; split; [done|lia]). by apply elem_of_nil in Hno.
    + set (mid := (N.of_nat (i * 2 ^ S h) + N.of_nat (2 ^ h))%N).
      pose proof (partition_point_spec hp_page_index mid (λ patch, (hp_page_index patch <? mid)%N) patches
        (λ _, eq_refl) Hs) as Hpart.
      destruct (sorted_take_drop hp_page_index (partition_point (λ patch, (hp_page_index patch <? mid)%N) patches)
        patches Hs) as [Hst Hsd].
      assert (mid = N.of_nat ((2 * i + 1) * 2 ^ h)) as Hmid by (subst mid; cbn [Nat.pow]; lia).
      replace (N.of_nat (i * 2 ^ S h)) with (N.of_nat (2 * i * 2 ^ h)) by (cbn [Nat.pow]; lia).
      rewrite IH; [|lia|done|].
      2: { intros p. rewrite (proj1 (Hpart p)), Hp, Hmid. cbn [Nat.pow]. intuition lia. }
      cbn [mbind result_bind]. rewrite Hmid at 1. rewrite IH; [done|lia|done|].
      intros p. rewrite (proj2 (Hpart p)), Hp, Hmid. cbn [Nat.pow]. intuition lia.
Qed.

Lemma overlay_hashed_Ok : StronglySorted (key_lt hp_page_index) hashed →
  overlay_hashed old_tree (N.of_nat (length NL)) hashed =
  Ok (identity page_size (N.of_nat (length NL)) (node NL (tree_height (N.of_nat (length NL))) 0)).
Proof.
  intros Hs. unfold overlay_hashed. rewrite empty_subtrees_Ok. cbn [mbind result_bind].
  pose proof (overlay_node_Ok (tree_height (N.of_nat (length NL))) (tree_height (N.of_nat (length NL))) 0 hashed) as Ho.
  change (N.of_nat (0 * _)) with 0%N in Ho. rewrite Ho; [done|done|done|].
  intros p. destruct (lc_new _ _ _ Hchange) as [Hn Hu]. pose proof (tree_height_enough _ Hn Hu).
  split; [|tauto]. intros Hph. split; [done|]. apply Hin, lookup_lt_Some in Hph. lia.
Qed.
End overlay.
End update.

(** ** Patched databases *)

Section stores.
Context {A B : Type} (g : B → nat) (w : B → A).

Lemma foldl_insert_same (ps : list B) (l : list A) (i : nat) :
  i ∉ g <$> ps → foldl (λ l p, <[g p := w p]> l) l ps !! i = l !! i.
Proof.
  revert l; induction ps as [|p ps IH]; intros l Hi; cbn; [done|].
  cbn in Hi. apply not_elem_of_cons in Hi as [Hne Hi]. rewrite IH by done.
  by apply list_lookup_insert_ne.
Qed.

Lemma foldl_insert_hit (ps : list B) (l : list A) (p : B) :
  NoDup (g <$> ps) → p ∈ ps → g p < length l →
  foldl (λ l p, <[g p := w p]> l) l ps !! g p = Some (w p).
Proof.
  revert l; induction ps as [|q ps IH]; intros l Hnd Hp Hl; [by apply elem_of_nil in Hp|]. cbn in *.
  apply NoDup_cons in Hnd as [Hq Hnd]. apply elem_of_cons in Hp as [->|Hp].
  - rewrite foldl_insert_same by done. by apply list_lookup_insert_eq.
  - apply IH; [done|done|]. by rewrite length_insert.
Qed.
End stores.

Section patched.
Context `{Sha256}.
Context (page_size : N) (pages : list bytes) (target : nat) (patches : list PageStatePatchV3).
Context (Hpages : pages_ok page_size pages) (Hu : is_u32 (N.of_nat target) = true).
Context (Hok : patch_ok page_size (N.of_nat (length pages)) (N.of_nat target) patches).

Let new_pages := patch_pages target patches pages.
Let hashed := hash_patch <$> patches.

Lemma patch_index patch : patch ∈ patches →
  page_index patch < target ∧ N.of_nat (page_index patch) = (pp_page_no patch - 1)%N
  ∧ (N.of_nat (page_index patch) + 1 = pp_page_no patch)%N ∧ blen (pp_after_image patch) = page_size.
Proof.
  destruct Hok as (_ & _ & Hr & _). rewrite Forall_forall in Hr. intros Hp. specialize (Hr patch Hp).
  unfold page_index. split_and!; try apply Hr; lia.
Qed.

Lemma patch_indices_NoDup : NoDup (page_index <$> patches).
Proof.
  destruct Hok as (_ & Hs & Hr & _). revert Hr. clear Hok. induction Hs as [|p l Hs IH Hp]; intros Hr; cbn.
  { constructor. }
  inversion Hr as [|? ? Hpr Hr']; subst. constructor; [|by apply IH].
  intros (q & He & Hq)%list_elem_of_fmap. rewrite Forall_forall in Hp, Hr'.
  specialize (Hp q Hq). specialize (Hr' q Hq). rewrite key_lt_N in Hp. unfold page_index in He. lia.
Qed.

Lemma length_patch_pages : length new_pages = target.
Proof. unfold new_pages, patch_pages. by rewrite length_foldl_insert, length_vec_resize. Qed.

Lemma patch_pages_hit patch : patch ∈ patches → new_pages !! page_index patch = Some (pp_after_image patch).
Proof.
  intros Hp. apply foldl_insert_hit; [apply patch_indices_NoDup|done|].
  rewrite length_vec_resize. by apply patch_index.
Qed.

Lemma patch_pages_same j : j < target → j ∉ page_index <$> patches →
  j < length pages ∧ new_pages !! j = pages !! j.
Proof.
  intros Hj Hno. assert (j < length pages) as Hl.
  { destruct (decide (j < length pages)) as [|Hge]; [done|]. exfalso. apply Hno.
    destruct Hok as (_ & _ & _ & Hk). specialize (Hk (N.of_nat j + 1)%N ltac:(lia)).
    apply list_elem_of_fmap in Hk as (p & He & Hp). apply list_elem_of_fmap. exists p.
    split; [unfold page_index; lia|done]. }
  split; [done|]. unfold new_pages, patch_pages. rewrite foldl_insert_same by done.
  rewrite lookup_vec_resize by done. by apply lookup_lt_is_Some in Hl as [x ->].
Qed.

Lemma patch_pages_ok : pages_ok page_size new_pages.
Proof.
  destruct Hpages as (Hps & _ & _ & Hsz). split_and!; [done| | |].
  - intros Hnil. pose proof length_patch_pages as Hl. rewrite Hnil in Hl. destruct Hok as [Ht _]. cbn in Hl. lia.
  - by rewrite length_patch_pages.
  - apply Forall_lookup. intros j page Hj. pose proof (lookup_lt_Some _ _ _ Hj) as Hlt.
    rewrite length_patch_pages in Hlt.
    destruct (decide (j ∈ page_index <$> patches)) as [Hin|Hno].
    + apply list_elem_of_fmap in Hin as (p & -> & Hp). rewrite patch_pages_hit in Hj by done.
      injection Hj as <-. by apply patch_index.
    + destruct (patch_pages_same j Hlt Hno) as [_ He]. rewrite He in Hj.
      by apply (proj1 (Forall_lookup _ _) Hsz j).
Qed.

Lemma hashed_indices j : N.of_nat j ∈ hp_page_index <$> hashed ↔ j ∈ page_index <$> patches.
Proof.
  unfold hashed. rewrite <- list_fmap_compose, !list_elem_of_fmap. cbn.
  split; intros (p & He & Hp); exists p; (split; [|done]); unfold page_index; pose proof (patch_index p Hp) as Hi;
    unfold page_index in *; lia.
Qed.

Lemma leaf_hit p : p ∈ hashed → leaf_hashes new_pages !! N.to_nat (hp_page_index p) = Some (hp_hash p).
Proof.
  intros (q & -> & Hq)%list_elem_of_fmap. cbn [hash_patch hp_page_index hp_hash].
  change (N.to_nat (pp_page_no q - 1)) with (page_index q).
  unfold leaf_hashes. rewrite list_lookup_imap, patch_pages_hit by done. cbn.
  destruct (patch_index q Hq) as (_ & _ & -> & _). done.
Qed.

Lemma leaf_same j : N.of_nat j ∉ hp_page_index <$> hashed → j < length (leaf_hashes new_pages) →
  j < length (leaf_hashes pages) ∧ leaf_hashes new_pages !! j = leaf_hashes pages !! j.
Proof.
  rewrite hashed_indices, !length_leaf_hashes, length_patch_pages. intros Hno Hj.
  destruct (patch_pages_same j Hj Hno) as [Hl He]. split; [done|].
  unfold leaf_hashes. by rewrite !list_lookup_imap, He.
Qed.

Lemma hashed_sorted : StronglySorted (key_lt hp_page_index) hashed.
Proof.
  destruct Hok as (_ & Hs & Hr & _). unfold hashed. clear Hok. revert Hr.
  induction Hs as [|p l Hs IH Hp]; intros Hr; cbn; [constructor|].
  inversion Hr as [|? ? Hpr Hr']; subst. constructor; [by apply IH|].
  rewrite Forall_forall in Hp, Hr'. apply Forall_forall. intros q (q' & -> & Hq)%list_elem_of_fmap.
  specialize (Hp q' Hq). specialize (Hr' q' Hq). rewrite key_lt_N in Hp. rewrite key_lt_N. cbn. lia.
Qed.

Lemma dirty_leaves_elem shrinks x :
  x ∈ dirty_leaves target shrinks hashed ↔
  x ∈ hp_page_index <$> hashed ∨ shrinks = true ∧ x = (N.of_nat target - 1)%N.
Proof.
  unfold dirty_leaves. destruct shrinks; [|naive_solver].
  rewrite dedup_by_id_elem, (sort_by_perm id), elem_of_app, list_elem_of_singleton. naive_solver.
Qed.

Lemma patch_leaves_change :
  leaves_change (dirty_leaves target (N.of_nat target <? N.of_nat (length pages))%N hashed)
    (leaf_hashes pages) (leaf_hashes new_pages).
Proof.
  pose proof (pages_ok_count _ _ Hpages). pose proof (pages_ok_count _ _ patch_pages_ok) as Hn.
  rewrite length_patch_pages in Hn.
  split; rewrite ?length_leaf_hashes, ?length_patch_pages; try done.
  - intros x [Hx|[_ ->]]%dirty_leaves_elem; [|lia].
    apply list_elem_of_fmap in Hx as (p & -> & Hp). apply leaf_hit, lookup_lt_Some in Hp.
    by rewrite length_leaf_hashes, length_patch_pages in Hp.
  - intros j Hj Hno. rewrite dirty_leaves_elem in Hno. rewrite <- (length_leaf_hashes pages).
    apply leaf_same; [tauto|]. by rewrite length_leaf_hashes, length_patch_pages.
  - intros Hlt. apply dirty_leaves_elem. right. split; [|done]. apply N.ltb_lt. lia.
Qed.

Lemma store_leaves :
  try_fold store_leaf (vec_resize target (empty_root 0) (leaf_hashes pages)) hashed = Ok (leaf_hashes new_pages).
Proof.
  rewrite (try_fold_store _ (λ p, N.to_nat (hp_page_index p)) hp_hash).
  2: { intros k p Hp Hk. unfold store_leaf, store_at. rewrite (proj2 (Nat.ltb_lt _ _)); [done|].
       rewrite Hk, length_vec_resize. apply leaf_hit, lookup_lt_Some in Hp.
       by rewrite length_leaf_hashes, length_patch_pages in Hp. }
  f_equal. apply list_eq_same_length with (n := target).
  { rewrite length_leaf_hashes. apply length_patch_pages. }
  { rewrite length_foldl_insert. apply length_vec_resize. }
  intros i x y Hi Hx Hy.
  destruct (decide (N.of_nat i ∈ hp_page_index <$> hashed)) as [Hin|Hno].
  - apply list_elem_of_fmap in Hin as (p & Hpi & Hp).
    assert (i = N.to_nat (hp_page_index p)) as -> by lia. rewrite leaf_hit in Hy by done.
    rewrite (foldl_insert_hit (λ p, N.to_nat (hp_page_index p))) in Hx; [congruence| |done|by rewrite length_vec_resize].
    unfold hashed. rewrite <- list_fmap_compose. apply patch_indices_NoDup.
  - rewrite foldl_insert_same in Hx.
    2: { intros (p & -> & Hp)%list_elem_of_fmap. apply Hno. rewrite N2Nat.id. by apply list_elem_of_fmap_2. }
    destruct (leaf_same i Hno) as [Hl He]; [by rewrite length_leaf_hashes, length_patch_pages|].
    rewrite lookup_vec_resize in Hx by done. rewrite He in Hy.
    rewrite Hy in Hx. cbn in Hx. congruence.
Qed.

(** Both incremental algorithms give the tree of the patched pages. *)
Lemma overlay_patched :
  overlay_hashed (merkle_cache page_size pages) (N.of_nat target) hashed = Ok (merkle_identity page_size new_pages).
Proof.
  pose proof (overlay_hashed_Ok _ _ _ patch_leaves_change page_size hashed leaf_hit leaf_same hashed_sorted) as Ho.
  rewrite !length_leaf_hashes, length_patch_pages in Ho. unfold merkle_cache, merkle_identity.
  by rewrite length_patch_pages.
Qed.

Lemma apply_patched :
  apply_hashed (merkle_cache page_size pages) (N.of_nat target) hashed = Ok (merkle_cache page_size new_pages).
Proof.
  pose proof (apply_hashed_Ok _ _ _ patch_leaves_change page_size hashed) as Ho.
  cbn zeta beta in Ho. rewrite !length_leaf_hashes, length_patch_pages in Ho.
  unfold merkle_cache. rewrite length_patch_pages. apply Ho; [done|apply store_leaves].
Qed.
End patched.

(** ** The page-state cache *)

Section cache.
Context `{Sha256}.

Lemma try_fold_Err {E A B} (f : B → A → result E B) (l : list A) (b : B) (e : E) (P : E → Prop) :
  (∀ b x e, f b x = Err e → P e) → try_fold f b l = Err e → P e.
Proof.
  intros Hf. revert b. induction l as [|x l IH]; intros b; cbn; [done|].
  destruct (f b x) as [b'|e'] eqn:Hb; cbn; [apply IH|]. intros [= <-]. by eapply Hf.
Qed.

Definition is_panic (e : SqlError) : bool := match e with SqlPanic _ => true | _ => false end.

Lemma reject_no_panic c e e' : is_panic e = false → reject_if c e = Err e' → is_panic e' = false.
Proof. destruct c; cbn; [by intros ? [= <-]|done]. Qed.

Lemma bind_no_panic {A B} (m : result SqlError A) (k : A → result SqlError B) e :
  (∀ e, m = Err e → is_panic e = false) → (∀ a e, m = Ok a → k a = Err e → is_panic e = false) →
  (m ≫= k) = Err e → is_panic e = false.
Proof. intros Hm Hk. destruct m as [a|e']; cbn; [by apply Hk|]. intros [= <-]. by apply Hm. Qed.

Lemma check_suffix_no_panic first offset patches e :
  check_suffix first offset patches = Err e → is_panic e = false.
Proof.
  revert offset e. induction patches as [|p l IH]; intros offset e; cbn [check_suffix]; [done|].
  apply bind_no_panic; [intros ?; by apply reject_no_panic|]. intros ? ? _.
  apply bind_no_panic; [intros ?; by apply reject_no_panic|]. intros ? ? _. apply IH.
Qed.

Lemma check_patch_no_panic page_size target acc patch e :
  check_patch page_size target acc patch = Err e → is_panic e = false.
Proof.
  destruct acc. unfold check_patch.
  do 4 (apply bind_no_panic; [intros ?; by apply reject_no_panic|]; intros ? ? _). done.
Qed.

Lemma validate_no_panic cache target patches e :
  validate_and_hash cache target patches = Err e → is_panic e = false.
Proof.
  unfold validate_and_hash. apply bind_no_panic; [intros ?; by apply reject_no_panic|]. intros ? ? _.
  apply bind_no_panic; [intros e1; apply (try_fold_Err _ _ _ _ (λ e, is_panic e = false)), check_patch_no_panic|].
  intros [prev hashed] ? _. apply bind_no_panic; [|done]. intros e2. case_match; [|done].
  apply bind_no_panic; [intros ?; by apply reject_no_panic|]. intros ? ? _. apply check_suffix_no_panic.
Qed.

Lemma overlay_Ok page_size pages target patches :
  pages_ok page_size pages → is_u32 target = true →
  patch_ok page_size (N.of_nat (length pages)) target patches →
  overlay (merkle_cache page_size pages) target patches =
    Ok (merkle_identity page_size (patch_pages (N.to_nat target) patches pages)).
Proof.
  intros Hp Hu Hok. unfold overlay.
  rewrite (proj2 (validate_and_hash_Ok (merkle_cache page_size pages) target patches _ Hu) (conj Hok eq_refl)).
  cbn [mbind result_bind]. rewrite <- (N2Nat.id target) in Hu, Hok |- * at 1. by apply overlay_patched.
Qed.

Lemma apply_patch_Ok page_size pages target patches :
  pages_ok page_size pages → is_u32 target = true →
  patch_ok page_size (N.of_nat (length pages)) target patches →
  let new_pages := patch_pages (N.to_nat target) patches pages in
  apply_patch (merkle_cache page_size pages) target patches =
    Ok (merkle_identity page_size new_pages, merkle_cache page_size new_pages).
Proof.
  intros Hp Hu Hok. unfold apply_patch.
  rewrite (proj2 (validate_and_hash_Ok (merkle_cache page_size pages) target patches _ Hu) (conj Hok eq_refl)).
  cbn [mbind result_bind]. rewrite <- (N2Nat.id target) in Hu, Hok.
  pose proof (overlay_patched page_size pages _ _ Hp Hu Hok) as Ho.
  pose proof (apply_patched page_size pages _ _ Hp Hu Hok) as Ha.
  rewrite N2Nat.id in Ho, Ha. by rewrite Ho; cbn [mbind result_bind]; rewrite Ha.
Qed.

(** C12. Incremental page state: on the cache of a database, installing a patch and
    computing its identity beforehand agree; they succeed exactly on the well-formed
    patches (ascending, inside the target, full pages, every page beyond the old
    end), give the cache and the identity that a rebuild of the patched pages gives,
    refuse every other patch with an error, and never index out of range. *)
Theorem page_state_incremental (page_size target : N) (pages : list bytes) (patches : list PageStatePatchV3)
    (cache : PageStateCacheV3) :
  from_pages page_size pages = Ok cache → is_u32 target = true →
  match apply_patch cache target patches with
  | Ok (target_state, cache') =>
      patch_ok page_size (N.of_nat (length pages)) target patches
      ∧ overlay cache target patches = Ok target_state
      ∧ from_pages page_size (patch_pages (N.to_nat target) patches pages) = Ok cache'
      ∧ cache_identity cache' = Ok target_state
  | Err e =>
      ¬ patch_ok page_size (N.of_nat (length pages)) target patches
      ∧ overlay cache target patches = Err e ∧ is_panic e = false
  end.
Proof.
  intros [Hp ->]%from_pages_Ok Hu.
  pose proof (validate_and_hash_Ok (merkle_cache page_size pages) target patches) as Hv.
  cbn [pc_page_size pc_page_count merkle_cache] in Hv.
  destruct (validate_and_hash (merkle_cache page_size pages) target patches) as [hashed|e] eqn:He.
  - destruct (proj1 (Hv hashed Hu) eq_refl) as [Hok _]. rewrite apply_patch_Ok by done.
    assert (pages_ok page_size (patch_pages (N.to_nat target) patches pages)) as Hn.
    { rewrite <- (N2Nat.id target) in Hu, Hok. by apply patch_pages_ok. }
    split_and!; [done|by apply overlay_Ok|by apply from_pages_Ok|by apply cache_identity_merkle].
  - unfold apply_patch, overlay. rewrite He. cbn [mbind result_bind].
    split_and!; [|done|by eapply validate_no_panic]. intros Hok.
    discriminate (proj2 (Hv _ Hu) (conj Hok eq_refl)).
Qed.

(** ** What an identity binds *)

Lemma app_inj_be4 (d a a' b b' : bytes) :
  length a = length a' → d ++ a ++ b = d ++ a' ++ b' → a = a' ∧ b = b'.
Proof. intros Hl He. apply app_inv_head in He. by apply app_inj_1 in He. Qed.

Lemma hash_internal_inj h l r l' r' :
  hash_internal h l r = hash_internal h l' r' → (l = l' ∧ r = r') ∨ collision.
Proof.
  unfold hash_internal, digest. intros [He|Hc]%sha256_inj_or_collision; [|by right]. left.
  cbn [concat] in He. rewrite !app_nil_r in He.
  apply app_inj_be4 in He as [_ He]; [|done].
  apply app_inj_1 in He as [Hl Hr]; [|by rewrite !length_as_bytes].
  split; by apply array32_eq.
Qed.

Lemma hash_leaf_inj n p p' : hash_leaf n p = hash_leaf n p' → p = p' ∨ collision.
Proof.
  unfold hash_leaf, digest. intros [He|Hc]%sha256_inj_or_collision; [|by right]. left.
  cbn [concat] in He. rewrite !app_nil_r in He. by apply app_inj_be4 in He as [_ He].
Qed.

Lemma identity_inj s n r s' n' r' :
  identity s n r = identity s' n' r' → (s = s' ∧ n = n' ∧ r = r') ∨ collision.
Proof.
  intros He. pose proof (f_equal si_page_size He) as Hs. pose proof (f_equal si_page_count He) as Hn.
  apply (f_equal si_state_root) in He. cbn [identity si_page_size si_page_count si_state_root] in *. subst s' n'.
  unfold digest in He. apply sha256_inj_or_collision in He as [He|]; [left|by right].
  cbn [concat] in He. do 3 apply app_inv_head in He. rewrite !app_nil_r in He.
  split_and!; [done|done|by apply array32_eq].
Qed.

Lemma node_binds leaves leaves' h i : node leaves h i = node leaves' h i → length leaves = length leaves' →
  collision ∨ ∀ j, i * 2 ^ h ≤ j < (i + 1) * 2 ^ h → leaves !! j = leaves' !! j.
Proof.
  intros Hn Hl. revert i Hn. induction h as [|h IH]; intros i Hn.
  - right. intros j Hj. cbn in Hj. assert (j = i) as -> by lia. cbn in Hn.
    destruct (decide (i < length leaves)) as [Hi|Hi].
    + destruct (lookup_lt_is_Some_2 leaves i Hi) as [x Hx], (lookup_lt_is_Some_2 leaves' i ltac:(lia)) as [y Hy].
      rewrite Hx, Hy in *. by cbn in Hn; subst.
    + rewrite !(proj2 (lookup_ge_None _ _)) by lia. done.
  - cbn [node] in Hn. apply hash_internal_inj in Hn as [[H1 H2]|Hc]; [|by left].
    destruct (IH _ H1) as [Hc|IH1]; [by left|]. destruct (IH _ H2) as [Hc|IH2]; [by left|].
    right. intros j Hj. rewrite Nat.pow_succ_r' in Hj.
    destruct (decide (j < (2 * i + 1) * 2 ^ h)); [apply IH1|apply IH2]; lia.
Qed.

Lemma leaf_hashes_bind pages pages' :
  leaf_hashes pages = leaf_hashes pages' → pages = pages' ∨ collision.
Proof.
  revert pages'. induction pages as [|p pages IH] using rev_ind; intros pages' He.
  { destruct pages' as [|q pages'] using rev_ind; [by left|].
    rewrite leaf_hashes_snoc in He. by destruct (leaf_hashes pages'). }
  destruct pages' as [|q pages' _] using rev_ind.
  { rewrite leaf_hashes_snoc in He. by destruct (leaf_hashes pages). }
  rewrite !leaf_hashes_snoc in He. apply app_inj_tail in He as [He Hl].
  apply IH in He as [->|Hc]; [|by right]. apply hash_leaf_inj in Hl as [->|Hc]; [by left|by right].
Qed.

Lemma merkle_identity_binds (page_size page_size' : N) (pages pages' : list bytes) :
  pages_ok page_size pages → pages_ok page_size' pages' →
  merkle_identity page_size pages = merkle_identity page_size' pages' →
  (page_size = page_size' ∧ pages = pages') ∨ collision.
Proof.
  intros Hp Hp' He. apply identity_inj in He as [(-> & Hc & He)|]; [|by right].
  rewrite Hc in He. apply Nat2N.inj in Hc.
  destruct (pages_ok_count _ _ Hp') as [Hl' Hu'].
  apply node_binds in He as [|He]; [by right| |by rewrite !length_leaf_hashes].
  destruct (leaf_hashes_bind pages pages') as [->|]; [|by left|by right].
  apply list_eq. intros j. destruct (decide (j < length pages')) as [Hj|Hj].
  - apply He. pose proof (tree_height_enough _ Hl' Hu'). lia.
  - rewrite !(proj2 (lookup_ge_None _ _)) by (rewrite length_leaf_hashes; lia). done.
Qed.

(** A state identity binds the database: two databases with the same identity
    have the same page size and the same pages, or SHA-256 has a collision. *)
Theorem state_identity_binds (page_size page_size' : N) (pages pages' : list bytes)
    (cache cache' : PageStateCacheV3) :
  from_pages page_size pages = Ok cache → from_pages page_size' pages' = Ok cache' →
  cache_identity cache = cache_identity cache' →
  (page_size = page_size' ∧ pages = pages') ∨ collision.
Proof.
  intros [Hp ->]%from_pages_Ok [Hp' ->]%from_pages_Ok. rewrite !cache_identity_merkle by done.
  intros He%Ok_inj. by apply merkle_identity_binds.
Qed.
End cache.
