(* ===== verification/WalCapture.v ===== *)
(** * WalCapture: reading the pages a transaction wrote from SQLite's write-ahead log

    Models [crates/rhiza-sql/src/wal_capture.rs]: [capture_wal] parses a fresh WAL
    file (header, salts, rolling checksums, frames, one commit marker at the end) into
    the final image of every page that the transaction changed.  The metadata of the
    file is read before its contents, so both are arguments.

    The theorems: the WAL files it accepts are exactly those with the layout
    [wal_file], and what it returns is the last image of each page ([wal_capture_exact]);
    its result is a patch that the page-state cache accepts ([wal_capture_patch]). *)

From S2P Require Import Prelude Bytes Text Core SqlPages SqlMerkle SqlPatch.
From Stdlib Require Strings.Byte.

Definition WAL_HEADER_BYTES : N := 32.
Definition WAL_FRAME_HEADER_BYTES : N := 24.
Definition WAL_VERSION : N := 3007000.
Definition WAL_MAGIC_LITTLE_CHECKSUM : N := 0x377f0682.
Definition WAL_MAGIC_BIG_CHECKSUM : N := 0x377f0683.
Definition MIN_PAGE_SIZE : N := 512.
Definition MAX_PAGE_SIZE : N := 65536.
Definition MAX_PAGE_NO : N := u32_max - 1.

Record WalPage : Type := mkWalPage { wp_page_no : N; wp_after_image : bytes }.
Record WalCommit : Type := mkWalCommit {
  wc_page_size : N; wc_target_db_pages : N; wc_target_file_bytes : N; wc_pages : list WalPage
}.
Inductive WalCapture : Type := NoChange | Committed (commit : WalCommit).

(** ** Checksums *)

Inductive ChecksumOrder : Type := BigOrder | LittleOrder.

Definition wrapping_add_u32 (a b : N) : N := ((a + b) mod 2 ^ 32)%N.
(** [u32::from_be_bytes], [u32::from_le_bytes] *)
Definition word (order : ChecksumOrder) (l : bytes) : N :=
  match order with BigOrder => be_value l | LittleOrder => be_value (rev l) end.

(** [for chunk in bytes.chunks_exact(8)]: a shorter rest is left out. *)
Fixpoint checksum (order : ChecksumOrder) (l : bytes) (state : N * N) : N * N :=
  match l with
  | b0 :: b1 :: b2 :: b3 :: b4 :: b5 :: b6 :: b7 :: rest =>
      let first := word order [b0; b1; b2; b3] in
      let second := word order [b4; b5; b6; b7] in
      let s0 := wrapping_add_u32 (wrapping_add_u32 state.1 first) state.2 in
      let s1 := wrapping_add_u32 (wrapping_add_u32 state.2 second) s0 in
      checksum order rest (s0, s1)
  | _ => state
  end.

Definition be_u32 (l : bytes) : N := be_value l.
(** The slices [buffer[a..b]] below lie inside fixed arrays. *)
Definition field (l : bytes) (a b : N) : N := be_u32 (index_range l a b).

(** ** [BTreeMap<u32, Vec<u8>>] as its entries in key order *)

Fixpoint btree_insert (k : N) (v : bytes) (m : list (N * bytes)) : list (N * bytes) :=
  match m with
  | [] => [(k, v)]
  | (k', v') :: m =>
      match (k ?= k')%N with
      | Lt => (k, v) :: (k', v') :: m
      | Eq => (k, v) :: m
      | Gt => (k', v') :: btree_insert k v m
      end
  end.
Definition btree_contains (k : N) (m : list (N * bytes)) : bool := existsb (λ row, (row.1 =? k)%N) m.

(** ** Parsing *)

(** [read_exact] at the position of the reader. *)
Definition wal_read_exact (wal : bytes) (offset len : N) (truncated : string) : result SqlError bytes :=
  ok_or (slice wal offset (offset + len)) (InvalidEntry truncated).

(** What the loop over the frames carries. *)
Record WalScan : Type := mkWalScan {
  ws_offset : N; ws_checksum : N * N; ws_pages : list (N * bytes); ws_final_db_pages : N; ws_committed : bool
}.

Definition read_frame (order : ChecksumOrder) (page_size : N) (salts : N * N) (max_changed_bytes : N)
    (wal : bytes) (scan : WalScan) : result SqlError WalScan :=
  _ ← reject_if (ws_committed scan)
        (InvalidEntry "SQLite WAL contains a frame after its single commit marker");
  frame_header ← wal_read_exact wal (ws_offset scan) WAL_FRAME_HEADER_BYTES "SQLite WAL frame header is truncated";
  let page_no := field frame_header 0 4 in
  _ ← reject_if (negb ((1 <=? page_no)%N && (page_no <=? MAX_PAGE_NO)%N))
        (InvalidEntry "SQLite WAL frame page number is out of range");
  let commit_pages := field frame_header 4 8 in
  _ ← reject_if (MAX_PAGE_NO <? commit_pages)%N (InvalidEntry "SQLite WAL commit database size is out of range");
  _ ← reject_if (neqb (field frame_header 8 12, field frame_header 12 16) salts)
        (InvalidEntry "SQLite WAL frame salt mismatch");
  let image_offset := (ws_offset scan + WAL_FRAME_HEADER_BYTES)%N in
  after_image ← wal_read_exact wal image_offset page_size "SQLite WAL frame page is truncated";
  let rolling := checksum order (index_range frame_header 0 8) (ws_checksum scan) in
  let rolling := checksum order after_image rolling in
  _ ← reject_if (neqb rolling (field frame_header 16 20, field frame_header 20 24))
        (InvalidEntry "SQLite WAL frame checksum mismatch");
  _ ← (if btree_contains page_no (ws_pages scan) then Ok () else
         retained_bytes ← ok_or (count ← checked_add (N.of_nat (length (ws_pages scan))) 1; checked_mul count page_size)
           (ResourceExhausted "SQLite WAL changed bytes overflow");
         reject_if (max_changed_bytes <? retained_bytes)%N
           (ResourceExhausted "SQLite WAL changed page images exceed {max_changed_bytes} bytes"));
  let committed := negb (commit_pages =? 0)%N in
  Ok (mkWalScan (image_offset + page_size) rolling (btree_insert page_no after_image (ws_pages scan))
        (if committed then commit_pages else ws_final_db_pages scan) committed).

Definition checksum_order (magic : N) : option ChecksumOrder :=
  if (magic =? WAL_MAGIC_LITTLE_CHECKSUM)%N then Some LittleOrder
  else if (magic =? WAL_MAGIC_BIG_CHECKSUM)%N then Some BigOrder else None.

(** The limit on the number of frames; [max_raw_bytes] only appears in the message. *)
Definition check_frame_limit (frame_count frame_bytes max_frames : N) : result SqlError () :=
  if (max_frames <? frame_count)%N then
    _ ← ok_or (raw ← checked_mul max_frames frame_bytes; checked_add WAL_HEADER_BYTES raw)
          (ResourceExhausted "SQLite WAL raw byte limit overflows");
    Err (ResourceExhausted "SQLite WAL raw bytes exceed {max_raw_bytes} bytes")
  else Ok ().

(** After the last frame: the single commit, and every page beyond the old end. *)
Definition finish_capture (page_size base_db_pages : N) (wal : bytes) (scan : WalScan) : result SqlError WalCapture :=
  _ ← reject_if (ws_offset scan <? blen wal)%N (InvalidEntry "SQLite WAL changed while it was being captured");
  let final_db_pages := ws_final_db_pages scan in
  _ ← reject_if (negb (ws_committed scan) || (final_db_pages =? 0)%N)
        (InvalidEntry "SQLite WAL ends without a commit marker");
  let pages := List.filter (λ row, (row.1 <=? final_db_pages)%N) (ws_pages scan) in
  _ ← (if (base_db_pages <? final_db_pages)%N then
         let required_growth_pages := (final_db_pages - base_db_pages)%N in
         let supplied_growth_pages := N.of_nat (length (List.filter (λ row, (base_db_pages + 1 <=? row.1)%N) pages)) in
         reject_if (neqb supplied_growth_pages required_growth_pages)
           (InvalidEntry "SQLite WAL growth is missing a newly allocated page")
       else Ok ());
  target_file_bytes ← ok_or (checked_mul final_db_pages page_size)
    (InvalidEntry "SQLite WAL target database size overflows");
  Ok (Committed (mkWalCommit page_size final_db_pages target_file_bytes
        ((λ row, mkWalPage row.1 row.2) <$> pages))).

(** [is_file] and [file_bytes] come from the metadata of the file. *)
Definition capture_wal (is_file : bool) (file_bytes : N) (wal : bytes) (base_db_pages max_changed_bytes : N) :
    result SqlError WalCapture :=
  _ ← reject_if (negb ((1 <=? base_db_pages)%N && (base_db_pages <=? MAX_PAGE_NO)%N))
        (InvalidEntry "SQLite base database page count is out of range");
  _ ← reject_if (negb is_file) (InvalidEntry "SQLite WAL path is not a regular file");
  if (file_bytes =? 0)%N then Ok NoChange else
  _ ← reject_if (file_bytes <? WAL_HEADER_BYTES)%N (InvalidEntry "SQLite WAL header is truncated");
  header ← wal_read_exact wal 0 WAL_HEADER_BYTES "SQLite WAL header is truncated";
  order ← ok_or (checksum_order (field header 0 4)) (InvalidEntry "SQLite WAL magic is invalid");
  _ ← reject_if (neqb (field header 4 8) WAL_VERSION) (InvalidEntry "SQLite WAL format version is unsupported");
  let page_size := field header 8 12 in
  _ ← reject_if (negb ((MIN_PAGE_SIZE <=? page_size)%N && (page_size <=? MAX_PAGE_SIZE)%N)
                 || negb (is_power_of_two page_size)) (InvalidEntry "SQLite WAL page size is invalid");
  let expected := checksum order (index_range header 0 24) (0%N, 0%N) in
  _ ← reject_if (neqb expected (field header 24 28, field header 28 32))
        (InvalidEntry "SQLite WAL header checksum mismatch");
  frame_bytes ← ok_or (checked_add WAL_FRAME_HEADER_BYTES page_size) (InvalidEntry "SQLite WAL frame size overflows");
  let payload_bytes := (file_bytes - WAL_HEADER_BYTES)%N in
  _ ← reject_if ((payload_bytes =? 0)%N || negb (payload_bytes mod frame_bytes =? 0)%N)
        (InvalidEntry "SQLite WAL does not contain exact complete frames");
  let frame_count := (payload_bytes / frame_bytes)%N in
  _ ← check_frame_limit frame_count frame_bytes (max_changed_bytes / page_size);
  let salts := (field header 16 20, field header 20 24) in
  scan ← try_fold (λ scan _, read_frame order page_size salts max_changed_bytes wal scan)
           (mkWalScan WAL_HEADER_BYTES expected [] 0 false) (seq 0 (N.to_nat frame_count));
  finish_capture page_size base_db_pages wal scan.

(** ** The layout of a WAL file *)

Record WalFrame : Type := mkWalFrame { wf_page_no : N; wf_commit_pages : N; wf_image : bytes }.

Definition wal_magic (order : ChecksumOrder) : N :=
  match order with LittleOrder => WAL_MAGIC_LITTLE_CHECKSUM | BigOrder => WAL_MAGIC_BIG_CHECKSUM end.

Definition pair_bytes (c : N * N) : bytes := be_bytes 4 c.1 ++ be_bytes 4 c.2.

(** The six checked or skipped words of the header: magic, version, page size,
    checkpoint sequence number, salts. *)
Definition wal_header_words (order : ChecksumOrder) (page_size seq : N) (salts : N * N) : bytes :=
  be_bytes 4 (wal_magic order) ++ be_bytes 4 WAL_VERSION ++ be_bytes 4 page_size ++ be_bytes 4 seq ++ pair_bytes salts.
Definition wal_start (order : ChecksumOrder) (page_size seq : N) (salts : N * N) : N * N :=
  checksum order (wal_header_words order page_size seq salts) (0%N, 0%N).

Definition frame_checksum (order : ChecksumOrder) (c : N * N) (frame : WalFrame) : N * N :=
  checksum order (wf_image frame)
    (checksum order (be_bytes 4 (wf_page_no frame) ++ be_bytes 4 (wf_commit_pages frame)) c).
Definition frame_header (salts c : N * N) (frame : WalFrame) : bytes :=
  be_bytes 4 (wf_page_no frame) ++ be_bytes 4 (wf_commit_pages frame) ++ pair_bytes salts ++ pair_bytes c.
Fixpoint wal_frames (order : ChecksumOrder) (salts c : N * N) (frames : list WalFrame) : bytes :=
  match frames with
  | [] => []
  | frame :: frames =>
      let c := frame_checksum order c frame in
      frame_header salts c frame ++ wf_image frame ++ wal_frames order salts c frames
  end.
Definition wal_file (order : ChecksumOrder) (page_size seq : N) (salts : N * N) (frames : list WalFrame) : bytes :=
  let c := wal_start order page_size seq salts in
  wal_header_words order page_size seq salts ++ pair_bytes c ++ wal_frames order salts c frames.

(** The map of final images. *)
Definition wal_pages (frames : list WalFrame) : list (N * bytes) :=
  foldl (λ m frame, btree_insert (wf_page_no frame) (wf_image frame) m) [] frames.
Definition wal_target (frames : list WalFrame) : N := default 0%N (wf_commit_pages <$> last frames).
Definition wal_commit (page_size : N) (frames : list WalFrame) : WalCommit :=
  mkWalCommit page_size (wal_target frames) (wal_target frames * page_size)
    ((λ row, mkWalPage row.1 row.2) <$> List.filter (λ row, (row.1 <=? wal_target frames)%N) (wal_pages frames)).

(** The last image written for a page. *)
Definition final_image (frames : list WalFrame) (page_no : N) : option bytes :=
  foldl (λ o frame, if (wf_page_no frame =? page_no)%N then Some (wf_image frame) else o) None frames.

(** A frame of the file; one transaction: the last frame, and only it, commits. *)
Definition frame_ok (page_size : N) (frame : WalFrame) : Prop :=
  (1 ≤ wf_page_no frame ≤ MAX_PAGE_NO)%N ∧ (wf_commit_pages frame ≤ MAX_PAGE_NO)%N ∧ blen (wf_image frame) = page_size.
Definition one_commit (frames : list WalFrame) : Prop :=
  ∃ body commit, frames = body ++ [commit] ∧ Forall (λ frame, wf_commit_pages frame = 0%N) body
    ∧ wf_commit_pages commit ≠ 0%N.

(** ** The map *)

Definition row_sorted (m : list (N * bytes)) : Prop := StronglySorted (key_lt fst) m.

Lemma btree_insert_spec k v m : row_sorted m →
  row_sorted (btree_insert k v m)
  ∧ ∀ x, x ∈ btree_insert k v m ↔ x = (k, v) ∨ x ∈ m ∧ x.1 ≠ k.
Proof.
  induction 1 as [|[k' v'] m Hs IH Hk]; cbn.
  { split; [repeat constructor|]. intros x. rewrite list_elem_of_singleton. set_solver. }
  assert (∀ x, x ∈ m → (k' < x.1)%N) as Hlt.
  { intros x Hx. rewrite Forall_forall in Hk. specialize (Hk x Hx). by rewrite key_lt_N in Hk. }
  destruct IH as [IHs IHx]. destruct (N.compare_spec k k') as [->|Hkk|Hkk].
  - split; [constructor; [done|]|].
    + eapply Forall_impl; [exact Hk|]. intros x. by rewrite !key_lt_N.
    + intros x. rewrite !elem_of_cons. split; [|naive_solver].
      intros [->|Hx]; [by left|]. right. specialize (Hlt x Hx). split; [by right|lia].
  - split.
    + constructor; [by constructor|]. constructor; [by rewrite key_lt_N|].
      eapply Forall_impl; [exact Hk|]. intros x. rewrite !key_lt_N. cbn. lia.
    + intros x. rewrite !elem_of_cons. split; [|naive_solver].
      intros [->|[->|Hx]]; [by left|right; cbn; split; [by left|lia]|].
      right. specialize (Hlt x Hx). split; [by right|lia].
  - split.
    + constructor; [done|]. apply Forall_forall. intros x [->|[Hx _]]%IHx; rewrite key_lt_N; cbn; [lia|by apply Hlt].
    + intros x. rewrite !elem_of_cons, IHx. split; [|naive_solver].
      intros [->|[->|[Hx Hne]]]; [right; cbn; split; [by left|lia]|by left|by right; split; [right|]].
Qed.

Lemma wal_pages_snoc frames frame :
  wal_pages (frames ++ [frame]) = btree_insert (wf_page_no frame) (wf_image frame) (wal_pages frames).
Proof. unfold wal_pages. by rewrite foldl_app. Qed.

Lemma wal_pages_spec frames :
  row_sorted (wal_pages frames) ∧ ∀ k v, (k, v) ∈ wal_pages frames ↔ final_image frames k = Some v.
Proof.
  induction frames as [|frame frames [IHs IHx]] using rev_ind.
  { split; [constructor|]. intros k v. cbn. split; [intros Hx; by apply elem_of_nil in Hx|done]. }
  rewrite wal_pages_snoc. destruct (btree_insert_spec (wf_page_no frame) (wf_image frame) _ IHs) as [Hs Hx].
  split; [done|]. intros k v. rewrite Hx, IHx. unfold final_image. rewrite foldl_app. cbn.
  destruct (N.eqb_spec (wf_page_no frame) k) as [->|Hne]; naive_solver.
Qed.

Lemma wal_pages_keys frames k : k ∈ fst <$> wal_pages frames ↔ k ∈ wf_page_no <$> frames.
Proof.
  induction frames as [|frame frames IH] using rev_ind; [done|].
  rewrite wal_pages_snoc, fmap_app, elem_of_app, <- IH. cbn. rewrite list_elem_of_singleton.
  destruct (wal_pages_spec frames) as [Hs _].
  destruct (btree_insert_spec (wf_page_no frame) (wf_image frame) _ Hs) as [_ Hx].
  rewrite !list_elem_of_fmap. setoid_rewrite Hx. split.
  - intros ([k' v'] & -> & [[= -> ->]|[Hin _]]); [by right|left; by eexists].
  - intros [([k' v'] & -> & Hin)| ->]; [|by eexists; split; [|left; reflexivity]].
    destruct (decide (k' = wf_page_no frame)) as [->|Hne]; [by eexists; split; [|left; reflexivity]|].
    exists (k', v'). split; [done|by right].
Qed.

Lemma length_btree_insert k v m : length (btree_insert k v m) ≤ S (length m).
Proof. induction m as [|[k' v'] m IH]; cbn; [done|]. destruct (k ?= k')%N; cbn; lia. Qed.

Lemma length_wal_pages frames : length (wal_pages frames) ≤ length frames.
Proof.
  induction frames as [|frame frames IH] using rev_ind; [done|].
  rewrite wal_pages_snoc, length_app. cbn. etransitivity; [apply length_btree_insert|]. lia.
Qed.

(** ** Words *)

Definition word_ok (n : N) : Prop := (n < 2 ^ 32)%N.
Definition pair_ok (c : N * N) : Prop := word_ok c.1 ∧ word_ok c.2.

Lemma wrapping_ok a b : word_ok (wrapping_add_u32 a b).
Proof. apply N.mod_upper_bound. done. Qed.

Lemma checksum_ok order l c : pair_ok c → pair_ok (checksum order l c).
Proof.
  remember (length l) as n eqn:Hn. revert l c Hn. induction (lt_wf n) as [n _ IH]; intros l c Hn Hc.
  do 8 (destruct l as [|? l]; [done|]). cbn [checksum]. apply (IH (length l)); [cbn in Hn; lia|done|].
  split; apply wrapping_ok.
Qed.

Lemma be4_value n : word_ok n → be_value (be_bytes 4 n) = n.
Proof. intros Hn. apply be_value_bytes. exact Hn. Qed.

Lemma be_value_ok l : length l = 4 → word_ok (be_value l).
Proof. intros Hl. pose proof (be_value_bound l) as Hb. rewrite Hl in Hb. exact Hb. Qed.

(** A buffer of whole words is the concatenation of its fields. *)
Lemma field_slice l a : (a + 4 ≤ blen l)%N →
  slice l a (a + 4) = Some (be_bytes 4 (field l a (a + 4))) ∧ word_ok (field l a (a + 4)).
Proof.
  intros Hl. unfold field, be_u32. pose proof (index_range_slice l a (a + 4) ltac:(lia) Hl) as Hs.
  destruct (slice_length _ _ _ _ Hs) as [Hb _]. unfold blen in Hb.
  rewrite (be_bytes_of_slice 4 _ _ _ _ Hs) by lia. split; [done|]. apply be_value_ok. lia.
Qed.

Lemma words6 l : blen l = 24%N →
  l = be_bytes 4 (field l 0 4) ++ be_bytes 4 (field l 4 8) ++ be_bytes 4 (field l 8 12)
      ++ be_bytes 4 (field l 12 16) ++ be_bytes 4 (field l 16 20) ++ be_bytes 4 (field l 20 24)
  ∧ index_range l 0 8 = be_bytes 4 (field l 0 4) ++ be_bytes 4 (field l 4 8).
Proof.
  intros Hl.
  destruct (field_slice l 0 ltac:(lia)) as [S0 _], (field_slice l 4 ltac:(lia)) as [S1 _],
    (field_slice l 8 ltac:(lia)) as [S2 _], (field_slice l 12 ltac:(lia)) as [S3 _],
    (field_slice l 16 ltac:(lia)) as [S4 _], (field_slice l 20 ltac:(lia)) as [S5 _].
  change (0 + 4)%N with 4%N in S0. change (4 + 4)%N with 8%N in S1. change (8 + 4)%N with 12%N in S2.
  change (12 + 4)%N with 16%N in S3. change (16 + 4)%N with 20%N in S4. change (20 + 4)%N with 24%N in S5.
  pose proof (slice_snoc_parts _ _ _ _ _ _ S0 S1) as S01. split; [|by apply index_range_Some].
  pose proof (slice_snoc_parts _ _ _ _ _ _ S4 S5) as S45.
  pose proof (slice_snoc_parts _ _ _ _ _ _ S3 S45) as S35.
  pose proof (slice_snoc_parts _ _ _ _ _ _ S2 S35) as S25.
  pose proof (slice_snoc_parts _ _ _ _ _ _ S1 S25) as S15.
  pose proof (slice_snoc_parts _ _ _ _ _ _ S0 S15) as S05.
  apply slice_whole. by rewrite Hl.
Qed.

Lemma field_part (parts : list bytes) (i : nat) n a b :
  parts !! i = Some (be_bytes 4 n) → word_ok n →
  a = blen (concat (take i parts)) → b = (a + 4)%N → field (concat parts) a b = n.
Proof.
  intros Hi Hn -> ->. unfold field, be_u32. rewrite (index_range_Some _ _ _ (be_bytes 4 n)).
  - by apply be4_value.
  - by eapply slice_part.
Qed.

Lemma frame_header_parts salts c frame :
  frame_header salts c frame = concat [be_bytes 4 (wf_page_no frame); be_bytes 4 (wf_commit_pages frame);
    be_bytes 4 salts.1; be_bytes 4 salts.2; be_bytes 4 c.1; be_bytes 4 c.2].
Proof. unfold frame_header, pair_bytes. cbn [concat]. by rewrite app_nil_r, <- !app_assoc. Qed.

Lemma blen_frame_header salts c frame : blen (frame_header salts c frame) = 24%N.
Proof. unfold frame_header, pair_bytes. by rewrite !blen_app, !blen_be_bytes. Qed.

Lemma frame_header_fields salts c frame : word_ok (wf_page_no frame) → word_ok (wf_commit_pages frame) →
  pair_ok salts → pair_ok c → let l := frame_header salts c frame in
  field l 0 4 = wf_page_no frame ∧ field l 4 8 = wf_commit_pages frame
  ∧ (field l 8 12, field l 12 16) = salts ∧ (field l 16 20, field l 20 24) = c.
Proof.
  intros H1 H2 [H3 H4] [H5 H6] l. unfold l. rewrite frame_header_parts. destruct salts, c. cbn [fst snd] in *.
  split_and!; [by apply (field_part _ 0)|by apply (field_part _ 1)|f_equal|f_equal].
  - by apply (field_part _ 2).
  - by apply (field_part _ 3).
  - by apply (field_part _ 4).
  - by apply (field_part _ 5).
Qed.

(** ** Reading frames *)

Section frames.
Context (order : ChecksumOrder) (page_size : N) (salts : N * N) (max_changed_bytes : N) (wal : bytes).

Definition scan_step (scan : WalScan) (frame : WalFrame) : WalScan :=
  let committed := negb (wf_commit_pages frame =? 0)%N in
  mkWalScan (ws_offset scan + WAL_FRAME_HEADER_BYTES + page_size) (frame_checksum order (ws_checksum scan) frame)
    (btree_insert (wf_page_no frame) (wf_image frame) (ws_pages scan))
    (if committed then wf_commit_pages frame else ws_final_db_pages scan) committed.

Definition retained_ok (scan : WalScan) (frame : WalFrame) : Prop :=
  btree_contains (wf_page_no frame) (ws_pages scan) = true
  ∨ ((N.of_nat (length (ws_pages scan)) + 1) * page_size ≤ N.min max_changed_bytes u64_max
     ∧ N.of_nat (length (ws_pages scan)) + 1 ≤ u64_max)%N.

Definition frame_bytes_of (c : N * N) (frame : WalFrame) : bytes :=
  frame_header salts (frame_checksum order c frame) frame ++ wf_image frame.

Definition readable (scan : WalScan) (frame : WalFrame) : Prop :=
  ws_committed scan = false ∧ frame_ok page_size frame
  ∧ slice wal (ws_offset scan) (ws_offset scan + WAL_FRAME_HEADER_BYTES + page_size)
    = Some (frame_bytes_of (ws_checksum scan) frame)
  ∧ retained_ok scan frame.

Lemma retained_check scan no u :
  (if btree_contains no (ws_pages scan) then Ok () else
     retained_bytes ← ok_or (count ← checked_add (N.of_nat (length (ws_pages scan))) 1; checked_mul count page_size)
       (ResourceExhausted "SQLite WAL changed bytes overflow");
     reject_if (max_changed_bytes <? retained_bytes)%N
       (ResourceExhausted "SQLite WAL changed page images exceed {max_changed_bytes} bytes")) = Ok u ↔
  btree_contains no (ws_pages scan) = true
  ∨ ((N.of_nat (length (ws_pages scan)) + 1) * page_size ≤ N.min max_changed_bytes u64_max
     ∧ N.of_nat (length (ws_pages scan)) + 1 ≤ u64_max)%N.
Proof.
  destruct u, (btree_contains _ _); [naive_solver|]. rewrite bind_Ok_inv. setoid_rewrite ok_or_Ok.
  setoid_rewrite reject_if_Ok. split.
  - intros (b & Hb & Hm). right. destruct (checked_add _ _) as [n|] eqn:Ha; [|done]. cbn in Hb.
    apply checked_add_Some in Ha as [-> Ha]. apply checked_mul_Some in Hb as [-> Hb].
    apply N.ltb_ge in Hm. lia.
  - intros [?|[Hm Ha]]; [done|]. exists ((N.of_nat (length (ws_pages scan)) + 1) * page_size)%N.
    rewrite (proj2 (checked_add_Some _ _ _) (conj eq_refl Ha)). cbn.
    rewrite checked_mul_Some, N.ltb_ge. lia.
Qed.

End frames.

Lemma read_frame_Ok order page_size salts max_changed_bytes wal scan scan' :
  pair_ok salts → pair_ok (ws_checksum scan) →
  read_frame order page_size salts max_changed_bytes wal scan = Ok scan' ↔
  ∃ frame, readable order page_size salts max_changed_bytes wal scan frame ∧ scan' = scan_step order page_size scan frame.
Proof.
  intros Hsalts Hc. split.
  - unfold read_frame. intros Hr. res_inv. apply retained_check in Hok6. unfold wal_read_exact in *. res_inv.
    destruct (slice_length _ _ _ _ Hok0) as [Hl0 _], (slice_length _ _ _ _ Hok4) as [Hl4 _].
    rename v0 into fh, v4 into image.
    destruct (words6 fh) as [Hv Hv8]; [unfold WAL_FRAME_HEADER_BYTES in *; lia|].
    exists (mkWalFrame (field fh 0 4) (field fh 4 8) image). bool_prop. destruct Hok1 as [Hlo Hhi].
    rewrite Hv8 in *. injection Hok3 as Hs1 Hs2.
    unfold readable, frame_ok, scan_step, frame_checksum, retained_ok, frame_bytes_of. 
    cbn [wf_page_no wf_commit_pages wf_image]. rewrite Hok5. split_and!; try done; try lia.
    rewrite (slice_snoc_parts _ _ _ _ _ _ Hok0 Hok4). do 2 f_equal.
    rewrite Hv at 1. rewrite frame_header_parts, <- Hs1, <- Hs2. unfold frame_checksum.
    cbn [concat fst snd wf_page_no wf_commit_pages wf_image]. rewrite Hok5. by rewrite app_nil_r.
  - intros (frame & (Hcm & (Hno & Hco & Him) & Hs & Hret) & ->). unfold read_frame. rewrite Hcm.
    assert (word_ok (wf_page_no frame)) as Hw1 by (unfold word_ok, MAX_PAGE_NO, u32_max in *; lia).
    assert (word_ok (wf_commit_pages frame)) as Hw2 by (unfold word_ok, MAX_PAGE_NO, u32_max in *; lia).
    set (c' := frame_checksum order (ws_checksum scan) frame).
    assert (pair_ok c') as Hc' by (apply checksum_ok, checksum_ok, Hc).
    destruct (frame_header_fields salts c' frame Hw1 Hw2 Hsalts Hc') as (F1 & F2 & F3 & F4).
    apply slice_Some in Hs as (p & s & Hw & Hp & _). unfold frame_bytes_of in Hw. rewrite <- app_assoc in Hw.
    fold c' in Hw. set (fh := frame_header salts c' frame) in *.
    assert (blen fh = 24%N) as Hfh by apply blen_frame_header.
    unfold wal_read_exact. cbn [reject_if mbind result_bind].
    rewrite (slice_at wal p fh (wf_image frame ++ s) (ws_offset scan) (ws_offset scan + WAL_FRAME_HEADER_BYTES));
      [|exact Hw|by symmetry|by rewrite Hfh].
    cbn [ok_or mbind result_bind]. rewrite F1, F2, F3, F4.
    rewrite (proj2 (N.leb_le 1 _)), (proj2 (N.leb_le _ MAX_PAGE_NO)) by lia. cbn [andb negb reject_if mbind result_bind].
    rewrite (proj2 (N.ltb_ge MAX_PAGE_NO _)) by lia. rewrite neqb_refl. cbn [reject_if mbind result_bind].
    rewrite (slice_at wal (p ++ fh) (wf_image frame) s);
      [|by rewrite Hw, <- !app_assoc|rewrite blen_app; unfold WAL_FRAME_HEADER_BYTES; lia|by rewrite Him].
    cbn [ok_or mbind result_bind].
    destruct (words6 fh Hfh) as [_ ->]. rewrite F1, F2.
    change (checksum order (wf_image frame) _) with c'. rewrite neqb_refl. cbn [reject_if mbind result_bind].
    rewrite (proj2 (retained_check page_size max_changed_bytes scan (wf_page_no frame) ())) by done. done.
Qed.

(** ** Rows of the map *)

Lemma elem_of_List_filter {A} (f : A → bool) (l : list A) x : x ∈ List.filter f l ↔ x ∈ l ∧ f x = true.
Proof. rewrite !list_elem_of_In. apply filter_In. Qed.

Lemma sorted_List_filter {A} (R : A → A → Prop) (f : A → bool) (l : list A) :
  StronglySorted R l → StronglySorted R (List.filter f l).
Proof.
  induction 1 as [|x l Hs IH Hx]; cbn; [constructor|]. destruct (f x); [|done]. constructor; [done|].
  rewrite Forall_forall in *. intros y [Hy _]%elem_of_List_filter. by apply Hx.
Qed.

(** [t - a] ascending numbers inside [(a, t]] are all of them. *)
Lemma ascending_count (a t : N) (l : list N) : NoDup l → Forall (λ k, a < k ≤ t)%N l →
  N.of_nat (length l) = (t - a)%N → ∀ k, (a < k ≤ t)%N → k ∈ l.
Proof.
  intros Hnd Hr Hlen k Hk. set (range := (λ i, a + 1 + N.of_nat i)%N <$> seq 0 (N.to_nat (t - a))).
  assert (l ⊆+ range) as Hsub.
  { apply NoDup_submseteq; [done|]. intros x Hx. rewrite Forall_forall in Hr. specialize (Hr x Hx).
    apply list_elem_of_fmap. exists (N.to_nat (x - a - 1)). split; [lia|]. apply elem_of_seq. lia. }
  apply submseteq_length_Permutation in Hsub; [|unfold range; rewrite length_fmap, length_seq; lia].
  rewrite Hsub. apply list_elem_of_fmap. exists (N.to_nat (k - a - 1)). split; [lia|]. apply elem_of_seq. lia.
Qed.

Lemma growth_rows (base t : N) (m : list (N * bytes)) : row_sorted m → (base < t)%N →
  N.of_nat (length (List.filter (λ row, (base + 1 <=? row.1)%N) (List.filter (λ row, (row.1 <=? t)%N) m))) = (t - base)%N
  ↔ ∀ k, (base < k ≤ t)%N → k ∈ fst <$> m.
Proof.
  intros Hs Hlt. set (rows := List.filter _ (List.filter _ m)).
  assert (∀ x, x ∈ rows ↔ x ∈ m ∧ (base < x.1 ≤ t)%N) as Hx.
  { intros x. unfold rows. rewrite !elem_of_List_filter, !N.leb_le. intuition lia. }
  assert (StronglySorted (key_lt fst) rows) as Hsr by by apply sorted_List_filter, sorted_List_filter.
  split.
  - intros Hlen k Hk. assert (k ∈ fst <$> rows) as Hin.
    { apply (ascending_count base t); [by apply ascending_NoDup| |by rewrite length_fmap|done].
      apply Forall_forall. intros y (x & -> & [_ Hy]%Hx)%list_elem_of_fmap. done. }
    apply list_elem_of_fmap in Hin as (x & -> & [Hm _]%Hx). by apply list_elem_of_fmap_2.
  - intros Hk. apply (ascending_full fst base t rows Hsr).
    + apply Forall_forall. intros x [_ Hy]%Hx. done.
    + intros k Hkr. destruct (proj1 (list_elem_of_fmap _ _ _) (Hk k Hkr)) as (x & -> & Hm).
      apply list_elem_of_fmap_2, Hx. done.
Qed.

(** ** All frames *)

Section scan.
Context (order : ChecksumOrder) (page_size s1 s2 max_changed_bytes : N) (wal : bytes).
Context (Hsalts : pair_ok (s1, s2)).

Abbreviation step := (scan_step order page_size).
Abbreviation can_read := (readable order page_size (s1, s2) max_changed_bytes wal).

Fixpoint readable_all (scan : WalScan) (frames : list WalFrame) : Prop :=
  match frames with
  | [] => True
  | frame :: frames => can_read scan frame ∧ readable_all (step scan frame) frames
  end.

Lemma step_checksum_ok scan frame : pair_ok (ws_checksum scan) → pair_ok (ws_checksum (step scan frame)).
Proof. intros Hc. apply checksum_ok, checksum_ok, Hc. Qed.

Lemma read_frames_Ok {A} (l : list A) scan scan' : pair_ok (ws_checksum scan) →
  try_fold (λ scan _, read_frame order page_size (s1, s2) max_changed_bytes wal scan) scan l = Ok scan' ↔
  ∃ frames, length frames = length l ∧ readable_all scan frames ∧ scan' = foldl step scan frames.
Proof.
  revert scan. induction l as [|x l IH]; intros scan Hc; cbn [try_fold].
  { split; [intros [= <-]; by exists []|]. intros ([|] & Hl & _ & ->); done. }
  rewrite bind_Ok_inv. split.
  - intros (mid & Hr & Hf). apply read_frame_Ok in Hr as (frame & Hread & ->); [|done|done].
    apply IH in Hf as (frames & Hl & Ha & ->); [|by apply step_checksum_ok].
    exists (frame :: frames). cbn. by rewrite Hl.
  - intros ([|frame frames] & Hl & Ha & ->); [done|]. destruct Ha as [Hread Ha].
    exists (step scan frame). split; [apply read_frame_Ok; [done|done|by exists frame]|].
    apply IH; [by apply step_checksum_ok|]. exists frames. cbn in Hl. split_and!; [lia|done|done].
Qed.

Lemma fold_offset frames scan :
  ws_offset (foldl step scan frames) = (ws_offset scan + N.of_nat (length frames) * (24 + page_size))%N.
Proof.
  revert scan; induction frames as [|frame frames IH]; intros scan; cbn [foldl length]; [lia|].
  rewrite IH. cbn [scan_step ws_offset]. unfold WAL_FRAME_HEADER_BYTES. lia.
Qed.

Lemma fold_pages frames scan :
  ws_pages (foldl step scan frames) = foldl (λ m frame, btree_insert (wf_page_no frame) (wf_image frame) m) (ws_pages scan) frames.
Proof. revert scan; induction frames as [|frame frames IH]; intros scan; cbn; [done|]. by rewrite IH. Qed.

Lemma fold_commit frames frame scan :
  ws_committed (foldl step scan (frames ++ [frame])) = negb (wf_commit_pages frame =? 0)%N
  ∧ (wf_commit_pages frame ≠ 0%N → ws_final_db_pages (foldl step scan (frames ++ [frame])) = wf_commit_pages frame).
Proof.
  rewrite foldl_app. cbn. split; [done|]. intros Hc. by rewrite (proj2 (N.eqb_neq _ _) Hc).
Qed.

(** The frames as they lie in the file. *)
Lemma frames_layout frames scan : (ws_offset scan ≤ blen wal)%N → readable_all scan frames →
  Forall (frame_ok page_size) frames
  ∧ slice wal (ws_offset scan) (ws_offset (foldl step scan frames)) = Some (wal_frames order (s1, s2) (ws_checksum scan) frames)
  ∧ ∀ body last, frames = body ++ [last] → Forall (λ frame, wf_commit_pages frame = 0%N) body.
Proof.
  revert scan. induction frames as [|frame frames IH]; intros scan Ho Ha; cbn [foldl].
  { split_and!; [constructor|by apply slice_empty|by intros [|] ?]. }
  destruct Ha as [(Hcm & Hok & Hs & _) Ha].
  destruct (slice_length _ _ _ _ Hs) as [_ Hle]. destruct (IH (step scan frame)) as (Hf & Hsf & Hb); [cbn; lia|done|].
  split_and!; [by constructor| |].
  - cbn [wal_frames]. rewrite app_assoc. eapply slice_snoc_parts; [exact Hs|exact Hsf].
  - intros [|b body] last He; [constructor|]. injection He as -> ->.
    constructor; [|by eapply Hb]. destruct body as [|b' body]; cbn in Ha; destruct Ha as [[Hc _] _]; cbn in Hc;
      by apply negb_false_iff, N.eqb_eq in Hc.
Qed.

Lemma frames_readable frames scan prefix suffix :
  wal = prefix ++ wal_frames order (s1, s2) (ws_checksum scan) frames ++ suffix → ws_offset scan = blen prefix →
  Forall (frame_ok page_size) frames → ws_committed scan = false →
  (∀ body last, frames = body ++ [last] → Forall (λ frame, wf_commit_pages frame = 0%N) body) →
  ((N.of_nat (length (ws_pages scan)) + N.of_nat (length frames)) * page_size ≤ N.min max_changed_bytes u64_max)%N →
  (N.of_nat (length (ws_pages scan)) + N.of_nat (length frames) ≤ u64_max)%N →
  readable_all scan frames.
Proof.
  revert scan prefix. induction frames as [|frame frames IH]; intros scan prefix Hw Ho Hf Hcm Hb Hret Hu; [done|].
  inversion Hf as [|? ? Hok Hf']; subst. cbn [wal_frames] in Hw. cbn [length] in *.
  set (c' := frame_checksum order (ws_checksum scan) frame) in *. split.
  - split_and!; [done|done| |].
    + eapply (slice_at _ prefix _ (wal_frames order (s1, s2) c' frames ++ suffix)); [|done|].
      * rewrite Hw. unfold frame_bytes_of. fold c'. by rewrite <- !app_assoc.
      * unfold frame_bytes_of. destruct Hok as (_ & _ & Him). rewrite blen_app, blen_frame_header, Him.
        unfold WAL_FRAME_HEADER_BYTES. lia.
    + right. nia.
  - pose proof (length_btree_insert (wf_page_no frame) (wf_image frame) (ws_pages scan)) as Hlb.
    destruct frames as [|frame' frames]; [done|].
    apply (IH _ (prefix ++ frame_header (s1, s2) c' frame ++ wf_image frame)); try done.
    + rewrite Hw. cbn [scan_step ws_checksum]. fold c'. by rewrite <- !app_assoc.
    + destruct Hok as (_ & _ & Him). cbn [scan_step ws_offset]. unfold WAL_FRAME_HEADER_BYTES.
      rewrite !blen_app, blen_frame_header, Him. lia.
    + cbn [scan_step ws_committed]. destruct (exists_last (l := frame' :: frames)) as (body & last & He); [done|].
      specialize (Hb (frame :: body) last). rewrite He in Hb. specialize (Hb eq_refl).
      inversion Hb as [|? ? Hz _]; subst. by rewrite Hz.
    + intros body last He. specialize (Hb (frame :: body) last). rewrite He in Hb. specialize (Hb eq_refl).
      by inversion Hb.
    + cbn [scan_step ws_pages length] in *. nia.
    + cbn [scan_step ws_pages length] in *. lia.
Qed.
End scan.

(** ** The header *)

Definition header_bytes (order : ChecksumOrder) (page_size seq : N) (salts : N * N) : bytes :=
  wal_header_words order page_size seq salts ++ pair_bytes (wal_start order page_size seq salts).

Lemma blen_header_words order page_size seq salts : blen (wal_header_words order page_size seq salts) = 24%N.
Proof. unfold wal_header_words, pair_bytes. by rewrite !blen_app, !blen_be_bytes. Qed.
Lemma blen_wal_header order page_size seq salts : blen (header_bytes order page_size seq salts) = 32%N.
Proof. unfold header_bytes, pair_bytes. by rewrite !blen_app, blen_header_words, !blen_be_bytes. Qed.

Lemma wal_magic_ok order : word_ok (wal_magic order) ∧ checksum_order (wal_magic order) = Some order.
Proof. by destruct order. Qed.
Lemma checksum_order_Some magic order : checksum_order magic = Some order → magic = wal_magic order.
Proof.
  unfold checksum_order. destruct (N.eqb_spec magic WAL_MAGIC_LITTLE_CHECKSUM) as [->|]; [by intros [= <-]|].
  destruct (N.eqb_spec magic WAL_MAGIC_BIG_CHECKSUM) as [->|]; by intros [= <-].
Qed.

Lemma header_fields order page_size seq s1 s2 : word_ok page_size → word_ok seq → pair_ok (s1, s2) →
  let l := header_bytes order page_size seq (s1, s2) in
  let c := wal_start order page_size seq (s1, s2) in
  field l 0 4 = wal_magic order ∧ field l 4 8 = WAL_VERSION ∧ field l 8 12 = page_size
  ∧ field l 16 20 = s1 ∧ field l 20 24 = s2 ∧ (field l 24 28, field l 28 32) = c
  ∧ index_range l 0 24 = wal_header_words order page_size seq (s1, s2).
Proof.
  intros Hp Hq [H1 H2] l c. assert (pair_ok c) as [Hc1 Hc2] by by apply checksum_ok. cbn [fst snd] in *.
  assert (l = concat [be_bytes 4 (wal_magic order); be_bytes 4 WAL_VERSION; be_bytes 4 page_size; be_bytes 4 seq;
    be_bytes 4 s1; be_bytes 4 s2; be_bytes 4 c.1; be_bytes 4 c.2]) as Hl.
  { unfold l, header_bytes, wal_header_words, pair_bytes. cbn [concat fst snd]. by rewrite app_nil_r, <- !app_assoc. }
  split_and!.
  7: { unfold l, header_bytes. apply index_range_Some.
       rewrite <- (blen_header_words order page_size seq (s1, s2)). apply slice_prefix. }
  all: rewrite Hl; clearbody c; destruct c; cbn [fst snd] in *.
  - apply (field_part _ 0); [done|apply wal_magic_ok|done|done].
  - by apply (field_part _ 1).
  - by apply (field_part _ 2).
  - by apply (field_part _ 4).
  - by apply (field_part _ 5).
  - f_equal; [by apply (field_part _ 6)|by apply (field_part _ 7)].
Qed.

(** A header that passes the checks is the header of its fields. *)
Lemma header_parsed l order : blen l = 32%N → checksum_order (field l 0 4) = Some order → field l 4 8 = WAL_VERSION →
  checksum order (index_range l 0 24) (0%N, 0%N) = (field l 24 28, field l 28 32) →
  word_ok (field l 12 16) ∧ pair_ok (field l 16 20, field l 20 24)
  ∧ l = header_bytes order (field l 8 12) (field l 12 16) (field l 16 20, field l 20 24)
  ∧ index_range l 0 24 = wal_header_words order (field l 8 12) (field l 12 16) (field l 16 20, field l 20 24).
Proof.
  intros Hl Hm Hv Hc. apply checksum_order_Some in Hm.
  destruct (field_slice l 0 ltac:(lia)) as [S0 _], (field_slice l 4 ltac:(lia)) as [S1 _],
    (field_slice l 8 ltac:(lia)) as [S2 W2], (field_slice l 12 ltac:(lia)) as [S3 W3],
    (field_slice l 16 ltac:(lia)) as [S4 W4], (field_slice l 20 ltac:(lia)) as [S5 W5],
    (field_slice l 24 ltac:(lia)) as [S6 W6], (field_slice l 28 ltac:(lia)) as [S7 W7].
  change (0 + 4)%N with 4%N in *. change (4 + 4)%N with 8%N in *. change (8 + 4)%N with 12%N in *.
  change (12 + 4)%N with 16%N in *. change (16 + 4)%N with 20%N in *. change (20 + 4)%N with 24%N in *.
  change (24 + 4)%N with 28%N in *. change (28 + 4)%N with 32%N in *.
  rewrite Hm in S0. rewrite Hv in S1.
  pose proof (slice_snoc_parts _ _ _ _ _ _ S4 S5) as S45. pose proof (slice_snoc_parts _ _ _ _ _ _ S3 S45) as S35.
  pose proof (slice_snoc_parts _ _ _ _ _ _ S2 S35) as S25. pose proof (slice_snoc_parts _ _ _ _ _ _ S1 S25) as S15.
  pose proof (slice_snoc_parts _ _ _ _ _ _ S0 S15) as S05. pose proof (slice_snoc_parts _ _ _ _ _ _ S6 S7) as S67.
  pose proof (slice_snoc_parts _ _ _ _ _ _ S05 S67) as S07.
  pose proof (index_range_Some _ _ _ _ S05) as H24. rewrite H24 in Hc.
  split; [done|]. split; [by split|]. split; [|exact H24].
  apply slice_whole. rewrite Hl. rewrite S07. unfold header_bytes, wal_start, wal_header_words, pair_bytes.
  cbn [fst snd]. f_equal. f_equal. change (checksum order _ (0, 0)%N) with
    (checksum order (be_bytes 4 (wal_magic order) ++ be_bytes 4 WAL_VERSION ++ be_bytes 4 (field l 8 12)
      ++ be_bytes 4 (field l 12 16) ++ be_bytes 4 (field l 16 20) ++ be_bytes 4 (field l 20 24)) (0, 0)%N).
  by rewrite Hc.
Qed.

(** ** What is accepted *)

(** A WAL of one committed transaction on a database of [base] pages: the limit on the
    changed bytes, and an image for every page beyond the old end. *)
Definition wal_acceptable (base max_changed_bytes page_size : N) (frames : list WalFrame) : Prop :=
  Forall (frame_ok page_size) frames ∧ one_commit frames
  ∧ (N.of_nat (length frames) * page_size ≤ max_changed_bytes)%N
  ∧ ∀ k, (base < k ≤ wal_target frames)%N → k ∈ wf_page_no <$> frames.

Lemma finish_capture_Ok page_size base wal frames c0 c : page_size_ok page_size = true →
  Forall (frame_ok page_size) frames →
  (∀ body last, frames = body ++ [last] → Forall (λ frame, wf_commit_pages frame = 0%N) body) → frames ≠ [] →
  ∀ order, let scan := foldl (scan_step order page_size) (mkWalScan WAL_HEADER_BYTES c0 [] 0 false) frames in
  finish_capture page_size base wal scan = Ok (Committed c) ↔
  (blen wal ≤ ws_offset scan)%N ∧ one_commit frames
  ∧ (∀ k, (base < k ≤ wal_target frames)%N → k ∈ wf_page_no <$> frames) ∧ c = wal_commit page_size frames.
Proof.
  intros Hps Hf Hb Hne order scan. destruct (exists_last Hne) as (body & final & He).
  assert (ws_pages scan = wal_pages frames) as Hpages by apply fold_pages.
  pose proof (fold_commit order page_size body final (mkWalScan WAL_HEADER_BYTES c0 [] 0 false)) as [Hcm Hfin].
  rewrite <- He in Hcm, Hfin. fold scan in Hcm, Hfin.
  assert (wal_target frames = wf_commit_pages final) as Ht.
  { unfold wal_target. by rewrite He, last_snoc. }
  assert (one_commit frames ↔ wf_commit_pages final ≠ 0%N) as Hone.
  { split; [|intros Hz; exists body, final; split_and!; [done|by eapply Hb|done]].
    intros (body' & final' & He' & _ & Hz). rewrite He in He'. by apply app_inj_tail in He' as [_ ->]. }
  assert ((wf_commit_pages final ≤ MAX_PAGE_NO)%N) as Hmax.
  { rewrite He, Forall_app in Hf. destruct Hf as [_ Hf]. by inversion Hf as [|? ? (_ & ? & _)]. }
  assert (checked_mul (wf_commit_pages final) page_size = Some (wf_commit_pages final * page_size)%N) as Hmul.
  { apply checked_mul_Some. split; [done|]. unfold page_size_ok, MAX_SQLITE_PAGE_SIZE in Hps. bool_prop.
    unfold MAX_PAGE_NO, u32_max, u64_max in *. nia. }
  unfold finish_capture. rewrite Hcm, Hpages, Hone.
  destruct (N.ltb_spec (ws_offset scan) (blen wal)) as [Hw|Hw]; cbn [reject_if mbind result_bind];
    [split; [done|intros (? & _); lia]|].
  destruct (N.eqb_spec (wf_commit_pages final) 0) as [Hz|Hz]; cbn [negb orb reject_if mbind result_bind];
    [split; [done|naive_solver]|].
  rewrite (Hfin Hz), (proj2 (N.eqb_neq _ _) Hz). cbn [reject_if mbind result_bind]. unfold wal_commit. rewrite Ht.
  assert (∀ u : (), (if (base <? wf_commit_pages final)%N then
      reject_if (neqb (N.of_nat (length (List.filter (λ row, (base + 1 <=? row.1)%N)
        (List.filter (λ row, (row.1 <=? wf_commit_pages final)%N) (wal_pages frames)))))
        (wf_commit_pages final - base)%N) (InvalidEntry "SQLite WAL growth is missing a newly allocated page")
      else Ok ()) = Ok u ↔ ∀ k, (base < k ≤ wf_commit_pages final)%N → k ∈ wf_page_no <$> frames) as Hgrow.
  { intros []. destruct (N.ltb_spec base (wf_commit_pages final)) as [Hlt|Hge].
    - rewrite reject_if_Ok, neqb_false, growth_rows; [|apply wal_pages_spec|done]. by setoid_rewrite wal_pages_keys.
    - split; [intros _ k Hk; lia|done]. }
  rewrite bind_Ok_inv. setoid_rewrite Hgrow. rewrite Hmul. cbn [ok_or mbind result_bind]. split.
  - intros ([] & Hk & [= <-]). done.
  - intros (_ & _ & Hk & ->). by exists ().
Qed.

Lemma blen_wal_frames order salts c page_size frames : Forall (frame_ok page_size) frames →
  blen (wal_frames order salts c frames) = (N.of_nat (length frames) * (24 + page_size))%N.
Proof.
  intros Hf. revert c. induction Hf as [|frame frames (_ & _ & Him) Hf IH]; intros c; [done|].
  cbn [wal_frames length]. rewrite !blen_app, blen_frame_header, IH, Him. lia.
Qed.

Lemma wal_file_header order page_size seq salts frames :
  wal_file order page_size seq salts frames =
  header_bytes order page_size seq salts ++ wal_frames order salts (wal_start order page_size seq salts) frames.
Proof. unfold wal_file, header_bytes. by rewrite <- app_assoc. Qed.

Lemma page_size_word page_size : page_size_ok page_size = true → word_ok page_size ∧ (512 ≤ page_size ≤ 65536)%N.
Proof.
  unfold page_size_ok, MIN_SQLITE_PAGE_SIZE, MAX_SQLITE_PAGE_SIZE, word_ok. bool_prop. intros [[? ?] _]. lia.
Qed.

Lemma frame_limit_Ok n frame_bytes limit u : check_frame_limit n frame_bytes limit = Ok u ↔ (n ≤ limit)%N.
Proof.
  unfold check_frame_limit. destruct u, (N.ltb_spec limit n) as [Hlt|Hge]; [|done].
  split; [|lia]. rewrite bind_Ok_inv. intros (? & _ & ?). done.
Qed.

Section exact.
Context (base max_changed_bytes : N).
Context (Hbase : (1 ≤ base ≤ MAX_PAGE_NO)%N) (Hu : is_u64 max_changed_bytes = true).

Lemma capture_sound file_bytes wal c :
  capture_wal true file_bytes wal base max_changed_bytes = Ok (Committed c) →
  file_bytes = blen wal ∧ ∃ order page_size checkpoint_seq salts frames,
    wal = wal_file order page_size checkpoint_seq salts frames
    ∧ page_size_ok page_size = true ∧ word_ok checkpoint_seq ∧ pair_ok salts
    ∧ wal_acceptable base max_changed_bytes page_size frames ∧ c = wal_commit page_size frames.
Proof.
  unfold capture_wal. intros Hr. res_inv. destruct (N.eqb_spec file_bytes 0) as [|Hz]; [done|]. res_inv.
  unfold wal_read_exact in Hok2. res_inv. rename v0 into header, v1 into order.
  destruct (slice_length _ _ _ _ Hok2) as [Hh32 _]. apply slice_Some in Hok2 as (p & rest & Hw & Hp & _).
  assert (p = []) as -> by (destruct p; [done|unfold blen in Hp; cbn in Hp; lia]). cbn [app] in Hw.
  rewrite neqb_false in Hok4. rewrite neqb_false in Hok6.
  destruct (header_parsed header order) as (Hseq & Hsalt & Hhd & H24); [by rewrite Hh32|done|done|done|].
  set (ps := field header 8 12) in *.
  assert (page_size_ok ps = true) as Hps.
  { apply orb_false_iff in Hok5 as [H1 H2]. apply negb_false_iff in H1, H2.
    unfold page_size_ok. apply andb_true_iff. by split. }
  destruct (page_size_word ps Hps) as [_ Hpr].
  apply frame_limit_Ok in Hok9. apply checked_add_Some in Hok7 as [-> _].
  apply read_frames_Ok in Hok10 as (frames & Hlen & Ha & ->); [|done|by apply checksum_ok].
  rewrite length_seq in Hlen. apply orb_false_iff in Hok8 as [Hp0 Hpm]. apply N.eqb_neq in Hp0.
  apply negb_false_iff, N.eqb_eq in Hpm. unfold WAL_FRAME_HEADER_BYTES, WAL_HEADER_BYTES in *.
  assert (N.of_nat (length frames) * (24 + ps) = file_bytes - 32)%N as Hcount.
  { rewrite Hlen, N2Nat.id. pose proof (N.div_mod (file_bytes - 32) (24 + ps) ltac:(lia)). lia. }
  apply frames_layout in Ha as (Hf & Hs & Hb); [|cbn; rewrite Hw, blen_app; lia].
  assert (frames ≠ []) as Hne by (intros ->; cbn in Hcount; lia).
  apply (finish_capture_Ok ps base wal frames _ c Hps Hf Hb Hne) in Hr as (Hend & Hone & Hk & ->).
  rewrite fold_offset in Hend, Hs. cbn [ws_offset ws_checksum] in *. change WAL_HEADER_BYTES with 32%N in Hend.
  destruct (slice_length _ _ _ _ Hs) as [_ Hsl].
  split; [rewrite N.ltb_ge in Hok1; lia|].
  exists order, ps, (field header 12 16), (field header 16 20, field header 20 24), frames.
  split_and!; try done.
  + rewrite wal_file_header, <- Hhd. unfold wal_start. rewrite <- H24.
    assert (slice wal 0 32 = Some header) as Hhs by (rewrite Hw; replace 32%N with (blen header) by (by rewrite Hh32); apply slice_prefix).
    pose proof (slice_snoc_parts _ _ _ _ _ _ Hhs Hs) as Hall. apply slice_whole. rewrite <- Hall. f_equal. lia.
  + split; [done|]. split; [done|]. split; [|done]. rewrite <- (N2Nat.id (_ / (24 + ps))), <- Hlen in Hok9.
    etransitivity; [apply N.mul_le_mono_r, Hok9|]. rewrite N.mul_comm. apply N.Div0.mul_div_le.
Qed.

Lemma capture_complete order ps sq salts frames :
  page_size_ok ps = true → word_ok sq → pair_ok salts → wal_acceptable base max_changed_bytes ps frames →
  let wal := wal_file order ps sq salts frames in
  capture_wal true (blen wal) wal base max_changed_bytes = Ok (Committed (wal_commit ps frames)).
Proof.
  destruct salts as [s1 s2]. intros Hps Hseq Hsalts (Hf & Hone & Hmax & Hk). cbn zeta.
  pose proof Hu as Hu'. unfold is_u64 in Hu'. apply N.leb_le in Hu'.
  destruct (page_size_word ps Hps) as [Hpw Hpr].
  destruct (header_fields order ps sq s1 s2 Hpw Hseq Hsalts) as (F0 & F1 & F2 & F4 & F5 & F6 & F24).
  set (hd := header_bytes order ps sq (s1, s2)) in *. set (c0 := wal_start order ps sq (s1, s2)) in *.
  assert (frames ≠ []) as Hne by (destruct Hone as (? & ? & -> & _); by destruct x).
  assert (∀ body last, frames = body ++ [last] → Forall (λ frame, wf_commit_pages frame = 0%N) body) as Hb.
  { destruct Hone as (body & final & He & Hz & _). intros body' final' He'. rewrite He in He'.
    by apply app_inj_tail in He' as [<- _]. }
  rewrite wal_file_header. fold hd c0. set (wal := hd ++ wal_frames order (s1, s2) c0 frames).
  assert (blen wal = 32 + N.of_nat (length frames) * (24 + ps))%N as Hlen.
  { unfold wal, hd. by rewrite blen_app, blen_wal_header, (blen_wal_frames _ _ _ ps). }
  assert (0 < length frames) as Hpos by (destruct frames; [done|cbn; lia]).
  unfold capture_wal. rewrite (proj2 (N.leb_le 1 base)), (proj2 (N.leb_le base _)) by lia.
  cbn [andb negb reject_if mbind result_bind]. rewrite (proj2 (N.eqb_neq (blen wal) 0)) by lia.
  rewrite (proj2 (N.ltb_ge (blen wal) _)) by (unfold WAL_HEADER_BYTES; lia). cbn [reject_if mbind result_bind].
  unfold wal_read_exact. assert (slice wal 0 (0 + WAL_HEADER_BYTES) = Some hd) as ->.
  { unfold wal. change (0 + WAL_HEADER_BYTES)%N with 32%N. rewrite <- (blen_wal_header order ps sq (s1, s2)).
    apply slice_prefix. }
  cbn [ok_or mbind result_bind]. rewrite F0, (proj2 (wal_magic_ok order)). cbn [ok_or mbind result_bind].
  rewrite F1, neqb_refl, F2. cbn [reject_if mbind result_bind].
  pose proof Hps as Hps'. unfold page_size_ok in Hps'. apply andb_true_iff in Hps' as [Hr1 Hr2].
  change MIN_PAGE_SIZE with MIN_SQLITE_PAGE_SIZE. change MAX_PAGE_SIZE with MAX_SQLITE_PAGE_SIZE.
  rewrite Hr1, Hr2. cbn [negb orb reject_if mbind result_bind]. rewrite F24, F4, F5, F6.
  change (checksum order (wal_header_words order ps sq (s1, s2)) (0, 0)%N) with c0.
  rewrite neqb_refl. cbn [reject_if mbind result_bind].
  rewrite (proj2 (checked_add_Some WAL_FRAME_HEADER_BYTES ps (24 + ps))).
  2: { unfold WAL_FRAME_HEADER_BYTES, u64_max. lia. }
  cbn [ok_or mbind result_bind].
  assert (blen wal - WAL_HEADER_BYTES = N.of_nat (length frames) * (24 + ps))%N as -> by (unfold WAL_HEADER_BYTES; lia).
  rewrite (proj2 (N.eqb_neq _ 0)) by lia. rewrite N.Div0.mod_mul, N.div_mul by lia.
  cbn [N.eqb negb orb reject_if mbind result_bind].
  rewrite (proj2 (frame_limit_Ok _ _ _ ())).
  2: { apply N.div_le_lower_bound; [lia|]. lia. }
  cbn [mbind result_bind]. rewrite Nat2N.id.
  rewrite (proj2 (read_frames_Ok order ps s1 s2 max_changed_bytes wal Hsalts (seq 0 (length frames))
    (mkWalScan WAL_HEADER_BYTES c0 [] 0 false)
    (foldl (scan_step order ps) (mkWalScan WAL_HEADER_BYTES c0 [] 0 false) frames) ltac:(by apply checksum_ok))).
  2: { exists frames. rewrite length_seq. split; [done|]. split; [|done].
       apply (frames_readable _ _ _ _ _ _ _ _ hd []); try done.
       - by rewrite app_nil_r.
       - cbn. unfold u64_max in *. lia.
       - cbn. unfold u64_max in *. nia. }
  cbn [mbind result_bind]. apply finish_capture_Ok; try done. split_and!; try done.
  rewrite fold_offset. cbn [ws_offset]. unfold WAL_HEADER_BYTES. lia.
Qed.
End exact.

(** C17. SQLite's log, read back: for a database of a legal size, [capture_wal] accepts a file
    exactly when it has the layout of a WAL (header and frame checksums, salts, one
    commit marker on the last frame), stays inside the byte limit, holds every page
    beyond the old end of the database, and did not change since its length was
    taken; it then returns the page size and the page count of the commit and the last
    image of each page inside the new database, in page order. *)
Theorem wal_capture_exact (file_bytes : N) (wal : bytes) (base max_changed_bytes : N) (c : WalCommit) :
  (1 ≤ base ≤ MAX_PAGE_NO)%N → is_u64 max_changed_bytes = true →
  capture_wal true file_bytes wal base max_changed_bytes = Ok (Committed c) ↔
  file_bytes = blen wal ∧ ∃ order page_size checkpoint_seq salts frames,
    wal = wal_file order page_size checkpoint_seq salts frames
    ∧ page_size_ok page_size = true ∧ word_ok checkpoint_seq ∧ pair_ok salts
    ∧ wal_acceptable base max_changed_bytes page_size frames ∧ c = wal_commit page_size frames.
Proof.
  intros Hbase Hu. split; [by apply capture_sound|].
  intros (-> & order & ps & sq & salts & frames & -> & Hps & Hseq & Hsalts & Hacc & ->). by apply capture_complete.
Qed.

(** ** A captured transaction as a patch *)

Definition wal_patches (c : WalCommit) : list PageStatePatchV3 :=
  (λ page, mkPatch (wp_page_no page) (wp_after_image page)) <$> wc_pages c.

Lemma final_image_frame frames k image :
  final_image frames k = Some image → ∃ frame, frame ∈ frames ∧ wf_page_no frame = k ∧ wf_image frame = image.
Proof.
  induction frames as [|frame frames IH] using rev_ind; [done|].
  unfold final_image. rewrite foldl_app. cbn. destruct (N.eqb_spec (wf_page_no frame) k) as [Hk|_].
  - intros [= <-]. exists frame. split; [set_solver|done].
  - intros Hf. destruct (IH Hf) as (f & Hin & ?). exists f. split; [set_solver|done].
Qed.

Lemma row_patches_sorted (rows : list (N * bytes)) : row_sorted rows →
  StronglySorted (key_lt pp_page_no) ((λ row, mkPatch row.1 row.2) <$> rows).
Proof.
  induction 1 as [|x l Hs IH Hx]; cbn; constructor; [done|]. rewrite Forall_fmap.
  eapply Forall_impl; [exact Hx|]. intros y. by rewrite !key_lt_N.
Qed.

Lemma wal_commit_patch base max_changed_bytes page_size frames :
  wal_acceptable base max_changed_bytes page_size frames →
  let c := wal_commit page_size frames in
  is_u32 (wc_target_db_pages c) = true
  ∧ patch_ok page_size base (wc_target_db_pages c) (wal_patches c)
  ∧ (N.of_nat (length (wc_pages c)) * page_size ≤ max_changed_bytes)%N.
Proof.
  intros (Hf & Hone & Hmax & Hk) c. destruct Hone as (body & final & He & _ & Hz).
  assert (wc_target_db_pages c = wf_commit_pages final) as Ht by (cbn; unfold wal_target; by rewrite He, last_snoc).
  assert (frame_ok page_size final) as (_ & Hco & _) by (rewrite He, Forall_app, Forall_singleton in Hf; apply Hf).
  destruct (wal_pages_spec frames) as [Hs Hrow]. set (t := wal_target frames) in *.
  assert (wal_patches c = (λ row, mkPatch row.1 row.2) <$> List.filter (λ row, (row.1 <=? t)%N) (wal_pages frames)) as Hp.
  { unfold wal_patches, c, wal_commit. cbn [wc_pages]. by rewrite <- list_fmap_compose. }
  split_and!.
  - rewrite Ht. unfold is_u32, MAX_PAGE_NO in *. apply N.leb_le. lia.
  - rewrite Hp. change (wc_target_db_pages c) with t. change (wc_target_db_pages c) with t in Ht. split_and!; [lia| | |].
    + by apply row_patches_sorted, sorted_List_filter.
    + rewrite Forall_fmap. apply Forall_forall. intros [k image] [Hin Hle]%elem_of_List_filter. cbn in *.
      apply Hrow, final_image_frame in Hin as (frame & Hin & <- & <-). rewrite Forall_forall in Hf.
      destruct (Hf frame Hin) as (? & _ & ?). apply N.leb_le in Hle. split; [lia|done].
    + intros k Hkr. destruct (proj1 (list_elem_of_fmap _ _ _) (proj2 (wal_pages_keys frames k) (Hk k Hkr))) as (row & -> & Hin).
      rewrite <- list_fmap_compose. apply list_elem_of_fmap. exists row. split; [done|].
      apply elem_of_List_filter. split; [done|]. apply N.leb_le. lia.
  - unfold c, wal_commit. cbn [wc_pages]. rewrite length_fmap. fold t. etransitivity; [|exact Hmax]. apply N.mul_le_mono_r.
    pose proof (length_wal_pages frames). pose proof (List.filter_length_le (λ row, (row.1 <=? t)%N) (wal_pages frames)).
    lia.
Qed.
