(* ===== verification/Qwal.v ===== *)
(** * Qwal: the page effects that the SQL log carries

    Models [crates/rhiza-sql/src/qwal.rs] and the codec of command results in
    [crates/rhiza-sql/src/lib.rs]: the envelope [QwalEnvelopeV3] (base and target state
    of the database, receipts, final page images), its validation and its canonical
    encoding, the checks of a SQLite header, and installing an effect in the database
    file in place.

    postcard and serde_json are parameters (the class [Serde]): the code calls them to
    write and to read one value.  A file is its bytes; [apply_preverified_qwal_in_place]
    returns the file that is left behind, also when it fails, and [after_page_write] is
    the hook the code calls after each page. *)

From S2P Require Import Prelude Bytes Text Core SqlPages.
From Stdlib Require Strings.Byte.

(** [postcard::to_allocvec] and [from_bytes], [serde_json::to_vec] and [from_slice]. *)
Class Serde (A : Type) : Type := { to_serialized : A → option bytes; from_serialized : bytes → option A }.

Definition QWAL_V3_MAGIC : bytes := lit "QWAL" ++ [Byte.x00; Byte.x04].
Definition MAX_QWAL_V3_BYTES : N := 512 * 1024.
Definition MAX_QWAL_V3_RECEIPTS : N := 1024.
Definition SQLITE_HEADER_BYTES : N := 100.
Definition SQLITE_MAGIC : bytes := lit "SQLite format 3" ++ [Byte.x00].
Definition MAX_ID_BYTES : N := 256.
Definition MAX_FINGERPRINT_BYTES : N := 4 * 1024.

Record QwalPageV3 : Type := mkQwalPage { qp_page_no : N; qp_after_image : bytes }.
Record QwalReceiptV3 : Type := mkQwalReceipt {
  qr_request_id : bytes; qr_request_digest : LogHash; qr_result_blob : bytes
}.
Record QwalEnvelopeV3 : Type := mkQwal {
  qe_cluster_id : bytes; qe_epoch : N; qe_configuration_id : N; qe_recovery_generation : N;
  qe_base_index : N; qe_base_hash : LogHash; qe_base_state : StateIdentityV3; qe_target_state : StateIdentityV3;
  qe_materializer_fingerprint : bytes; qe_receipts : list QwalReceiptV3; qe_pages : list QwalPageV3
}.
#[export] Instance QwalPageV3_eq_dec : EqDecision QwalPageV3.
Proof. solve_decision. Defined.
#[export] Instance QwalReceiptV3_eq_dec : EqDecision QwalReceiptV3.
Proof. solve_decision. Defined.
#[export] Instance QwalEnvelopeV3_eq_dec : EqDecision QwalEnvelopeV3.
Proof. solve_decision. Defined.

(** ** Results of SQL commands *)

(** An [f64] is its bits. *)
Inductive SqlValue : Type :=
| SqlNull | SqlInteger (value : Z) | SqlReal (bits : N) | SqlText (value : bytes) | SqlBlob (value : bytes).
Record SqlQueryResult : Type := mkSqlQuery { sq_columns : list bytes; sq_rows : list (list SqlValue) }.
Record SqlStatementResult : Type := mkSqlStatement { ss_rows_affected : N; ss_returning : option SqlQueryResult }.
Record SqlCommandResult : Type := mkSqlResult { sr_statement_results : list SqlStatementResult }.
#[export] Instance SqlValue_eq_dec : EqDecision SqlValue.
Proof. solve_decision. Defined.
#[export] Instance SqlQueryResult_eq_dec : EqDecision SqlQueryResult.
Proof. solve_decision. Defined.
#[export] Instance SqlStatementResult_eq_dec : EqDecision SqlStatementResult.
Proof. solve_decision. Defined.
#[export] Instance SqlCommandResult_eq_dec : EqDecision SqlCommandResult.
Proof. solve_decision. Defined.

Definition SQL_RESULT_V1_MAGIC : bytes := lit "QRES" ++ [Byte.x00; Byte.x01].
Definition MAX_RETURNING_ROWS : N := 1024.
Definition MAX_RETURNING_BYTES : N := 1024 * 1024.

Definition sql_value_size (value : SqlValue) : N :=
  match value with
  | SqlNull => 0
  | SqlInteger _ | SqlReal _ => 8
  | SqlText value | SqlBlob value => blen value
  end.

Definition add_returning_bytes (total bytes : N) : result SqlError N :=
  total ← ok_or (checked_add total bytes) (InvalidCommand "SQL RETURNING result size overflow");
  _ ← reject_if (MAX_RETURNING_BYTES <? total)%N (InvalidCommand "SQL RETURNING exceeds {MAX_RETURNING_BYTES} result bytes");
  Ok total.

Definition check_returning_row (width : nat) (total : N) (row : list SqlValue) : result SqlError N :=
  _ ← reject_if (neqb (length row) width) (InvalidCommand "SQL RETURNING row width does not match its columns");
  try_fold (λ total value, add_returning_bytes total (sql_value_size value)) total row.

Definition check_returning (acc : N * N) (statement : SqlStatementResult) : result SqlError (N * N) :=
  let '(row_count, total) := acc in
  match ss_returning statement with
  | None => Ok (row_count, total)
  | Some returning =>
      row_count ← ok_or (checked_add row_count (N.of_nat (length (sq_rows returning))))
        (InvalidCommand "SQL RETURNING row count overflow");
      _ ← reject_if (MAX_RETURNING_ROWS <? row_count)%N (InvalidCommand "SQL RETURNING exceeds {MAX_RETURNING_ROWS} rows");
      total ← try_fold (λ total column, add_returning_bytes total (blen column)) total (sq_columns returning);
      total ← try_fold (check_returning_row (length (sq_columns returning))) total (sq_rows returning);
      Ok (row_count, total)
  end.
Definition validate_sql_result_bounds (r : SqlCommandResult) : result SqlError () :=
  _ ← try_fold check_returning (0%N, 0%N) (sr_statement_results r); Ok ().

Section qwal.
Context `{Serde SqlCommandResult} `{Serde QwalEnvelopeV3}.
Implicit Types (effect : QwalEnvelopeV3) (file : bytes).

Definition encode_sql_result (r : SqlCommandResult) : result SqlError bytes :=
  _ ← validate_sql_result_bounds r;
  encoded ← ok_or (to_serialized r) (InvalidCommand "cannot encode SQL result: {error}");
  Ok (SQL_RESULT_V1_MAGIC ++ encoded).
Definition decode_sql_result (blob : bytes) : result SqlError SqlCommandResult :=
  encoded ← ok_or (strip_prefix SQL_RESULT_V1_MAGIC blob) (SqliteError "unsupported SQL result encoding");
  r ← ok_or (from_serialized encoded) (SqliteError "invalid SQL result: {error}");
  _ ← validate_sql_result_bounds r;
  canonical ← encode_sql_result r;
  _ ← reject_if (neqb canonical blob) (SqliteError "SQL result blob is not canonical");
  Ok r.
Definition validate_sql_result_blob_bounds (blob : bytes) : result SqlError () :=
  _ ← decode_sql_result blob; Ok ().

(** ** SQLite headers *)

Definition qwal_validate_page_size (page_size : N) : result SqlError () :=
  reject_if (negb ((MIN_SQLITE_PAGE_SIZE <=? page_size)%N && (page_size <=? MAX_SQLITE_PAGE_SIZE)%N)
             || negb (is_power_of_two page_size)) (InvalidEntry "invalid SQLite page size").

(** The slices below lie inside the [SQLITE_HEADER_BYTES] that the guard requires. *)
Definition page_size_from_header (header : bytes) : result SqlError N :=
  _ ← reject_if ((blen header <? SQLITE_HEADER_BYTES)%N || neqb (index_range header 0 (blen SQLITE_MAGIC)) SQLITE_MAGIC)
        (InvalidEntry "invalid SQLite database header");
  let encoded := be_value (index_range header 16 18) in
  let page_size := if (encoded =? 1)%N then MAX_SQLITE_PAGE_SIZE else encoded in
  _ ← qwal_validate_page_size page_size;
  Ok page_size.

Definition validate_header_page_count (header : bytes) (file_bytes page_size : N) : result SqlError () :=
  let declared := be_value (index_range header 28 32) in
  reject_if (neqb declared 0%N && neqb declared (file_bytes / page_size)%N)
    (InvalidEntry "SQLite header page count does not match file size").

Definition sqlite_page_size_from_header (header : bytes) (file_bytes : N) : result SqlError N :=
  page_size ← page_size_from_header header;
  _ ← reject_if ((file_bytes =? 0)%N || negb (file_bytes mod page_size =? 0)%N)
        (InvalidEntry "SQLite file size is not a non-zero page-size multiple");
  _ ← validate_header_page_count header file_bytes page_size;
  Ok page_size.

(** [sqlite_page_size] on a path and [sqlite_page_size_from_file] on an open file read alike. *)
Definition sqlite_page_size_from_file file : result SqlError N :=
  header ← ok_or (slice file 0 SQLITE_HEADER_BYTES) (SqlIo "failed to fill whole buffer");
  sqlite_page_size_from_header header (blen file).

Definition validate_sqlite_header (page : bytes) (expected_page_size : N) : result SqlError () :=
  actual ← page_size_from_header page;
  reject_if (neqb actual expected_page_size) (InvalidEntry "QWAL page 1 changes the declared SQLite page size").

Definition state_file_bytes (state : StateIdentityV3) : result SqlError N :=
  _ ← qwal_validate_page_size (si_page_size state);
  _ ← reject_if (si_page_count state =? 0)%N (InvalidEntry "QWAL {label} page count must be positive");
  _ ← reject_if (eqb (si_state_root state) LogHash_ZERO) (InvalidEntry "QWAL {label} state root must be non-zero");
  ok_or (checked_mul (si_page_size state) (si_page_count state)) (ResourceExhausted "QWAL {label} file size overflows").

Definition validate_nonempty_bounded (value : bytes) (max : N) : result SqlError () :=
  reject_if ((blen value =? 0)%N || (max <? blen value)%N) (InvalidEntry "QWAL {field} must contain 1..={max} bytes").

(** ** Validation of an envelope *)

(** [request_ids] is the [HashSet] of the loop. *)
Definition check_receipt (acc : N * gset bytes) (receipt : QwalReceiptV3) : result SqlError (N * gset bytes) :=
  let '(result_bytes, request_ids) := acc in
  _ ← validate_nonempty_bounded (qr_request_id receipt) MAX_ID_BYTES;
  _ ← reject_if (bool_decide (qr_request_id receipt ∈ request_ids))
        (InvalidEntry "QWAL receipt request ids must be unique");
  _ ← map_err (λ _, InvalidEntry "QWAL receipt result is not canonical")
        (validate_sql_result_blob_bounds (qr_result_blob receipt));
  result_bytes ← ok_or (checked_add result_bytes (blen (qr_result_blob receipt)))
    (ResourceExhausted "QWAL result bytes overflow");
  _ ← reject_if (MAX_QWAL_V3_BYTES <? result_bytes)%N (ResourceExhausted "QWAL results exceed {MAX_QWAL_V3_BYTES} bytes");
  Ok (result_bytes, {[qr_request_id receipt]} ∪ request_ids).

Definition check_page (target_page_size target_file_bytes : N) (acc : N * N) (page : QwalPageV3) : result SqlError (N * N) :=
  let '(previous, page_bytes) := acc in
  _ ← reject_if (qp_page_no page =? 0)%N (InvalidEntry "QWAL page number must be one-based");
  _ ← reject_if (qp_page_no page <=? previous)%N (InvalidEntry "QWAL pages must be strictly ordered without duplicates");
  _ ← reject_if (neqb (blen (qp_after_image page)) target_page_size)
        (InvalidEntry "QWAL after-image length does not match page size");
  page_end ← ok_or (checked_mul (qp_page_no page) target_page_size) (InvalidEntry "QWAL page offset overflows");
  _ ← reject_if (target_file_bytes <? page_end)%N (InvalidEntry "QWAL page lies outside the target file");
  _ ← (if (qp_page_no page =? 1)%N then
         _ ← validate_sqlite_header (qp_after_image page) target_page_size;
         validate_header_page_count (qp_after_image page) target_file_bytes target_page_size
       else Ok ());
  page_bytes ← ok_or (checked_add page_bytes (blen (qp_after_image page))) (ResourceExhausted "QWAL page bytes overflow");
  _ ← reject_if (MAX_QWAL_V3_BYTES <? page_bytes)%N (ResourceExhausted "QWAL page images exceed {MAX_QWAL_V3_BYTES} bytes");
  Ok (qp_page_no page, page_bytes).

Definition check_growth (base_pages target_pages : N) (pages : list QwalPageV3) : result SqlError () :=
  if (base_pages <? target_pages)%N then
    let first_new := partition_point (λ page, (qp_page_no page <=? base_pages)%N) pages in
    let supplied_new_pages := N.of_nat (length pages - first_new) in
    _ ← reject_if (negb (is_u32 supplied_new_pages)) (ResourceExhausted "QWAL page count overflows");
    reject_if (neqb supplied_new_pages (target_pages - base_pages)%N)
      (InvalidEntry "QWAL growth must include every newly allocated page")
  else Ok ().

Definition qwal_validate effect : result SqlError () :=
  _ ← validate_nonempty_bounded (qe_cluster_id effect) MAX_ID_BYTES;
  _ ← validate_nonempty_bounded (qe_materializer_fingerprint effect) MAX_FINGERPRINT_BYTES;
  _ ← state_file_bytes (qe_base_state effect);
  target_file_bytes ← state_file_bytes (qe_target_state effect);
  let target_page_size := si_page_size (qe_target_state effect) in
  _ ← reject_if (neqb (si_page_size (qe_base_state effect)) target_page_size)
        (InvalidEntry "QWAL base and target page sizes differ");
  _ ← reject_if ((N.of_nat (length (qe_receipts effect)) =? 0)%N
                 || (MAX_QWAL_V3_RECEIPTS <? N.of_nat (length (qe_receipts effect)))%N)
        (InvalidEntry "QWAL receipts must contain 1..={MAX_QWAL_V3_RECEIPTS} members");
  _ ← try_fold check_receipt (0%N, ∅) (qe_receipts effect);
  _ ← try_fold (check_page target_page_size target_file_bytes) (0%N, 0%N) (qe_pages effect);
  check_growth (si_page_count (qe_base_state effect)) (si_page_count (qe_target_state effect)) (qe_pages effect).

(** ** The canonical encoding *)

Definition encode_qwal_v3 effect : result SqlError bytes :=
  _ ← qwal_validate effect;
  body ← ok_or (to_serialized effect) (InvalidEntry "QWAL encode failed: {error}");
  encoded_len ← ok_or (checked_add (blen QWAL_V3_MAGIC) (blen body)) (ResourceExhausted "QWAL encoded length overflows");
  _ ← reject_if (MAX_QWAL_V3_BYTES <? encoded_len)%N (ResourceExhausted "QWAL envelope exceeds {MAX_QWAL_V3_BYTES} bytes");
  Ok (QWAL_V3_MAGIC ++ body).

Definition decode_qwal_v3 (bytes : bytes) : result SqlError QwalEnvelopeV3 :=
  _ ← reject_if (MAX_QWAL_V3_BYTES <? blen bytes)%N (ResourceExhausted "QWAL envelope exceeds {MAX_QWAL_V3_BYTES} bytes");
  body ← ok_or (strip_prefix QWAL_V3_MAGIC bytes) (InvalidEntry "invalid QWAL v3 magic");
  _ ← reject_if (blen body =? 0)%N (InvalidEntry "empty QWAL v3 body");
  effect ← ok_or (from_serialized body) (InvalidEntry "QWAL decode failed: {error}");
  _ ← qwal_validate effect;
  canonical ← ok_or (to_serialized effect) (InvalidEntry "QWAL re-encode failed: {error}");
  _ ← reject_if (neqb canonical body) (InvalidEntry "QWAL body is not canonically encoded");
  Ok effect.

(** ** Installing an effect in the database file *)

(** [File::set_len] pads with zeros; a write at an offset overwrites or extends. *)
Definition set_len (len : N) file : bytes := vec_resize (N.to_nat len) Byte.x00 file.
Definition write_at (offset : N) (data : bytes) file : bytes :=
  let file := if (blen file <? offset)%N then set_len offset file else file in
  take (N.to_nat offset) file ++ data ++ drop (N.to_nat offset + length data) file.

Definition page_offset (page_size : N) (page : QwalPageV3) : result SqlError N :=
  ok_or (checked_mul (qp_page_no page - 1) page_size) (InvalidEntry "QWAL page offset overflows").

Fixpoint write_pages (after_page_write : N → result SqlError ()) (page_size : N) (pages : list QwalPageV3) file :
    result SqlError () * bytes :=
  match pages with
  | [] => (Ok (), file)
  | page :: pages =>
      match page_offset page_size page with
      | Err e => (Err e, file)
      | Ok offset =>
          let file := write_at offset (qp_after_image page) file in
          match after_page_write (qp_page_no page) with
          | Err e => (Err e, file)
          | Ok _ => write_pages after_page_write page_size pages file
          end
      end
  end.

Definition check_installed_page (page_size : N) file (page : QwalPageV3) : result SqlError () :=
  offset ← page_offset page_size page;
  installed ← ok_or (slice file offset (offset + page_size)) (SqlIo "failed to fill whole buffer");
  reject_if (neqb installed (qp_after_image page)) (InvalidEntry "QWAL installed page does not match its after-image").

Definition verify_installed_pages file effect : result SqlError () :=
  target_file_bytes ← state_file_bytes (qe_target_state effect);
  _ ← reject_if (neqb (blen file) target_file_bytes) (InvalidEntry "QWAL target file size mismatch");
  page_size ← sqlite_page_size_from_file file;
  _ ← reject_if (neqb page_size (si_page_size (qe_target_state effect))) (InvalidEntry "QWAL target page size mismatch");
  try_fold (λ _ page, check_installed_page (si_page_size (qe_target_state effect)) file page) () (qe_pages effect).

(** Everything that is checked before the file is touched. *)
Definition check_base file effect : result SqlError N :=
  _ ← qwal_validate effect;
  base_bytes ← state_file_bytes (qe_base_state effect);
  _ ← reject_if (neqb (blen file) base_bytes) (InvalidEntry "QWAL base file size mismatch");
  page_size ← sqlite_page_size_from_file file;
  _ ← reject_if (neqb page_size (si_page_size (qe_base_state effect))) (InvalidEntry "QWAL base page size mismatch");
  state_file_bytes (qe_target_state effect).

Definition apply_preverified_qwal_in_place (after_page_write : N → result SqlError ()) file effect :
    result SqlError () * bytes :=
  match check_base file effect with
  | Err e => (Err e, file)
  | Ok target_bytes =>
      let file := set_len target_bytes file in
      let '(written, file) := write_pages after_page_write (si_page_size (qe_target_state effect)) (qe_pages effect) file in
      match written with
      | Err e => (Err e, file)
      | Ok _ => (verify_installed_pages file effect, file)
      end
  end.
End qwal.
