(* ===== verification/QwalFile.v ===== *)
(** * QwalFile: database files as pages

    Models the functions of [crates/rhiza-sql/src/lib.rs] that read a closed database
    file into page state and that turn a captured WAL into an effect, and proves what
    installing an effect does to the file: it is the patch of its pages
    ([install_file]), an accepted effect is a patch the page state accepts
    ([qwal_validate_patch]), the file after an installation rebuilds to the target state
    ([qwal_installs_target]), and the encoding of an effect is canonical
    ([qwal_codec_exact]). *)

From S2P Require Import Prelude Bytes Text Core SqlPages SqlMerkle SqlPatch WalCapture Qwal.
From Stdlib Require Strings.Byte.

(** ** Reading a database *)

(** [bytes.chunks_exact(page_size)] *)
Definition chunks_exact (page_size : N) (file : bytes) : list bytes :=
  (λ i, take (N.to_nat page_size) (drop (i * N.to_nat page_size) file)) <$> seq 0 (N.to_nat (blen file / page_size)).

Definition effect_patches (effect : QwalEnvelopeV3) : list PageStatePatchV3 :=
  (λ page, mkPatch (qp_page_no page) (qp_after_image page)) <$> qe_pages effect.

Section read.
Context `{Sha256}.

Definition page_state_from_database_bytes (file : bytes) : result SqlError PageStateCacheV3 :=
  header ← ok_or (slice file 0 100) (InvalidEntry "SQLite database header is truncated");
  page_size ← sqlite_page_size_from_header header (blen file);
  from_pages page_size (chunks_exact page_size file).

(** The stream ends early when a read fails; the error is then returned after the rebuild. *)
Definition rebuild_page_state_from_file (file : bytes) (expected_bytes : N) : result SqlError PageStateCacheV3 :=
  header ← ok_or (slice file 0 100) (SqlIo "failed to fill whole buffer");
  page_size ← sqlite_page_size_from_header header expected_bytes;
  let remaining := N.to_nat (expected_bytes / page_size) in
  let readable := chunks_exact page_size file in
  cache ← from_pages page_size (take remaining readable);
  _ ← reject_if (length readable <? remaining)%nat (SqlIo "failed to fill whole buffer");
  Ok cache.
End read.

(** ** Materializing a captured WAL *)

Definition page_differs (base_file : bytes) (page_size base_pages offset : N) (page : WalPage) : result SqlError bool :=
  if (wp_page_no page <=? base_pages)%N then
    base_page ← ok_or (slice base_file offset (offset + page_size)) (SqlIo "failed to fill whole buffer");
    Ok (neqb base_page (wp_after_image page))
  else Ok true.

(** [len != expected_bytes || sqlite_page_size(path)? != expected_page_size] is an error. *)
Definition check_materialized (file : bytes) (expected_bytes expected_page_size : N) (message : string) :
    result SqlError () :=
  if neqb (blen file) expected_bytes then Err (InvalidEntry message) else
  page_size ← sqlite_page_size_from_file file;
  reject_if (neqb page_size expected_page_size) (InvalidEntry message).

(** The loop over the captured pages: the target file, and the pages that differ from the base. *)
Definition materialize_page (base_file : bytes) (page_size base_pages : N) (acc : bytes * list QwalPageV3)
    (page : WalPage) : result SqlError (bytes * list QwalPageV3) :=
  let '(target, changed) := acc in
  let page_no := wp_page_no page in
  offset ← ok_or (if (page_no =? 0)%N then None else checked_mul (page_no - 1) page_size)
    (InvalidEntry "SQLite WAL page offset overflows");
  page_differs base_file page_size base_pages offset page ≫= λ differs_from_base : bool,
  let target := write_at offset (wp_after_image page) target in
  Ok (target, if differs_from_base then changed ++ [mkQwalPage page_no (wp_after_image page)] else changed).

(** The staging file [target] (a copy of the base) after the call, and the changed pages. *)
Definition materialize_wal_capture (base_file target : bytes) (expected_page_size base_file_bytes : N)
    (capture : WalCapture) : result SqlError (bytes * list QwalPageV3) :=
  match capture with
  | NoChange =>
      _ ← check_materialized target base_file_bytes expected_page_size
            "no-change SQLite WAL capture does not reproduce its closed base";
      Ok (target, [])
  | Committed commit =>
      let page_size := wc_page_size commit in
      _ ← reject_if (neqb page_size expected_page_size) (InvalidEntry "SQLite WAL page size differs from its closed base");
      expected_target_bytes ← ok_or (checked_mul (wc_target_db_pages commit) page_size)
        (InvalidEntry "SQLite WAL target size overflows");
      _ ← reject_if (neqb (wc_target_file_bytes commit) expected_target_bytes)
            (InvalidEntry "SQLite WAL target size does not match its commit page count");
      let target := set_len (wc_target_file_bytes commit) target in
      '(target, changed) ← try_fold (materialize_page base_file page_size (base_file_bytes / page_size))
                             (target, []) (wc_pages commit);
      _ ← check_materialized target (wc_target_file_bytes commit) page_size
            "materialized SQLite WAL does not match its committed header and target size";
      Ok (target, changed)
  end.

(** ** Files as concatenations of pages *)

Section concat.
Context (ps : nat).

Lemma length_concat_pages (pages : list bytes) : Forall (λ page, length page = ps) pages →
  length (concat pages) = length pages * ps.
Proof. induction 1 as [|page pages Hp Hf IH]; cbn; [done|]. rewrite length_app, IH, Hp. lia. Qed.

Lemma concat_take_drop (pages : list bytes) (i : nat) : Forall (λ page, length page = ps) pages →
  take (i * ps) (concat pages) = concat (take i pages) ∧ drop (i * ps) (concat pages) = concat (drop i pages).
Proof.
  intros Hf. revert i. induction Hf as [|page pages Hp Hf IH]; intros i; cbn.
  { by rewrite !take_nil, !drop_nil. }
  destruct i as [|i]; cbn; [done|]. destruct (IH i) as [IH1 IH2].
  rewrite take_app, drop_app, Hp, !take_ge, drop_ge by lia.
  replace (ps + i * ps - ps) with (i * ps) by lia. by rewrite IH1, IH2.
Qed.

Lemma concat_page (pages : list bytes) (i : nat) page : Forall (λ page, length page = ps) pages →
  pages !! i = Some page → take ps (drop (i * ps) (concat pages)) = page.
Proof.
  intros Hf Hi. destruct (concat_take_drop pages i Hf) as [_ ->].
  rewrite (drop_S _ _ _ Hi). cbn. rewrite take_app_length'; [done|]. symmetry. exact (Forall_lookup_1 _ _ _ _ Hf Hi).
Qed.

Lemma concat_store (pages : list bytes) (i : nat) page : Forall (λ page, length page = ps) pages →
  length page = ps → i < length pages →
  take (i * ps) (concat pages) ++ page ++ drop (i * ps + ps) (concat pages) = concat (<[i := page]> pages).
Proof.
  intros Hf Hp Hi. replace (i * ps + ps) with (S i * ps) by lia.
  destruct (concat_take_drop pages i Hf) as [-> _], (concat_take_drop pages (S i) Hf) as [_ ->].
  rewrite insert_take_drop by done. by rewrite concat_app.
Qed.

Lemma concat_resize (pages : list bytes) (t : nat) : Forall (λ page, length page = ps) pages →
  vec_resize (t * ps) Byte.x00 (concat pages) = concat (vec_resize t (replicate ps Byte.x00) pages).
Proof.
  intros Hf. unfold vec_resize. rewrite length_concat_pages by done.
  destruct (concat_take_drop pages t Hf) as [-> _]. rewrite concat_app. f_equal.
  rewrite <- Nat.mul_sub_distr_r.
  generalize (t - length pages). intros n. induction n as [|n IH]; [done|]. cbn. by rewrite replicate_add, IH.
Qed.
End concat.

Definition full_pages (page_size : N) (pages : list bytes) : Prop := Forall (λ page, blen page = page_size) pages.

Lemma full_pages_nat page_size pages :
  full_pages page_size pages ↔ Forall (λ page, length page = N.to_nat page_size) pages.
Proof. unfold full_pages, blen. split; intros Hf; (eapply Forall_impl; [exact Hf|]); cbn; intros page; lia. Qed.

Lemma blen_concat page_size pages : full_pages page_size pages →
  blen (concat pages) = (N.of_nat (length pages) * page_size)%N.
Proof. intros Hf%full_pages_nat. unfold blen. rewrite (length_concat_pages _ _ Hf). lia. Qed.

(** Files of whole pages and lists of pages are the same thing. *)
Lemma chunks_concat page_size pages : (0 < page_size)%N → full_pages page_size pages →
  chunks_exact page_size (concat pages) = pages.
Proof.
  intros Hps Hf. pose proof Hf as Hn%full_pages_nat. unfold chunks_exact.
  rewrite (blen_concat page_size) by done. rewrite N.div_mul by lia. rewrite Nat2N.id.
  apply list_eq. intros i. rewrite lookup_fmap_seq. case_decide as Hi.
  - destruct (lookup_lt_is_Some_2 pages i Hi) as [page Hp]. rewrite Hp. f_equal.
    by apply concat_page.
  - symmetry. apply lookup_ge_None. lia.
Qed.

Lemma concat_chunks_nat (ps n : nat) (l : bytes) : 0 < ps → length l = n * ps →
  concat ((λ i, take ps (drop (i * ps) l)) <$> seq 0 n) = l
  ∧ Forall (λ page, length page = ps) ((λ i, take ps (drop (i * ps) l)) <$> seq 0 n).
Proof.
  intros Hps. revert l. induction n as [|n IH]; intros l Hl; cbn.
  { destruct l; [by split; [|constructor]|done]. }
  destruct (IH (drop ps l)) as [IH1 IH2]; [rewrite length_drop; lia|].
  assert ((λ i, take ps (drop (i * ps) l)) <$> seq 1 n = (λ i, take ps (drop (i * ps) (drop ps l))) <$> seq 0 n) as He.
  { rewrite <- fmap_S_seq, <- list_fmap_compose. apply list_fmap_ext. intros i x _. cbn.
    rewrite drop_drop. do 2 f_equal. }
  rewrite drop_0. cbn in He. rewrite He, IH1. split; [apply take_drop|].
  constructor; [rewrite length_take; lia|done].
Qed.

Lemma concat_chunks page_size (file : bytes) : (0 < page_size)%N → (blen file mod page_size = 0)%N →
  concat (chunks_exact page_size file) = file ∧ full_pages page_size (chunks_exact page_size file).
Proof.
  intros Hps Hm. rewrite full_pages_nat. unfold chunks_exact. apply concat_chunks_nat; [lia|].
  pose proof (N.div_mod (blen file) page_size ltac:(lia)). unfold blen in *. lia.
Qed.

(** ** Accepted effects are patches *)

Section accepted.
Context `{Serde SqlCommandResult}.
Implicit Types effect : QwalEnvelopeV3.

Lemma qwal_page_size_Ok page_size u : qwal_validate_page_size page_size = Ok u ↔ page_size_ok page_size = true.
Proof.
  unfold qwal_validate_page_size, page_size_ok. rewrite reject_if_Ok, orb_false_iff, !negb_false_iff.
  rewrite <- !andb_true_iff. done.
Qed.

Lemma state_file_bytes_Ok state n : state_file_bytes state = Ok n ↔
  page_size_ok (si_page_size state) = true ∧ (0 < si_page_count state)%N ∧ si_state_root state ≠ LogHash_ZERO
  ∧ n = (si_page_size state * si_page_count state)%N ∧ (n ≤ u64_max)%N.
Proof.
  unfold state_file_bytes. split.
  - intros Hs. res_inv. apply qwal_page_size_Ok in Hok. bool_prop. apply checked_mul_Some in Hs as [-> ?].
    split_and!; try done; lia.
  - intros (Hp & Hc & Hr & -> & Hn). rewrite (proj2 (qwal_page_size_Ok _ ())) by done. cbn [mbind result_bind].
    rewrite (proj2 (N.eqb_neq _ _)), (proj2 (eqb_false _ _)) by (done || lia). cbn [reject_if mbind result_bind].
    apply ok_or_Ok, checked_mul_Some. done.
Qed.

Definition page_fits (page_size target_bytes previous : N) (page : QwalPageV3) : Prop :=
  (previous < qp_page_no page)%N ∧ (qp_page_no page * page_size ≤ target_bytes)%N
  ∧ blen (qp_after_image page) = page_size
  ∧ (qp_page_no page = 1%N → page_size_from_header (qp_after_image page) = Ok page_size
       ∧ validate_header_page_count (qp_after_image page) target_bytes page_size = Ok ()).

Lemma check_pages_Ok page_size target_bytes previous total pages r :
  try_fold (check_page page_size target_bytes) (previous, total) pages = Ok r →
  StronglySorted (key_lt qp_page_no) pages ∧ Forall (page_fits page_size target_bytes previous) pages.
Proof.
  revert previous total. induction pages as [|page pages IH]; intros previous total Hf; [by repeat constructor|].
  cbn [try_fold] in Hf. apply bind_Ok_inv in Hf as ([p t] & Hc & Hf). apply IH in Hf as [Hs Hp].
  unfold check_page in Hc. res_inv. bool_prop. apply checked_mul_Some in Hok2 as [-> Hm].
  assert (page_fits page_size target_bytes previous page) as Hfit.
  { split_and!; [lia|lia|done|]. intros H1. rewrite H1 in Hok4. cbn [N.eqb] in Hok4. 
    change (1 =? 1)%N with true in Hok4. cbn beta iota in Hok4. apply bind_Ok_inv in Hok4 as ([] & Hh & Hc).
    unfold validate_sqlite_header in Hh. res_inv. bool_prop. subst. done. }
  split.
  - constructor; [done|]. eapply Forall_impl; [exact Hp|]. cbn. intros q (Hq & _). by rewrite key_lt_N.
  - constructor; [done|]. eapply Forall_impl; [exact Hp|]. cbn. intros q (Hq & Hq'). split; [lia|done].
Qed.

Lemma sorted_patches (pages : list QwalPageV3) : StronglySorted (key_lt qp_page_no) pages →
  StronglySorted (key_lt pp_page_no) ((λ page, mkPatch (qp_page_no page) (qp_after_image page)) <$> pages).
Proof.
  induction 1 as [|x l Hs IH Hx]; cbn; constructor; [done|]. rewrite Forall_fmap.
  eapply Forall_impl; [exact Hx|]. intros y. by rewrite !key_lt_N.
Qed.

Lemma qwal_growth base target pages : StronglySorted (key_lt qp_page_no) pages →
  Forall (λ page, (qp_page_no page ≤ target)%N) pages → check_growth base target pages = Ok () →
  ∀ k, (base < k ≤ target)%N → k ∈ qp_page_no <$> pages.
Proof.
  intros Hs Hle Hg k Hk. unfold check_growth in Hg.
  destruct (N.ltb_spec base target) as [Hlt|]; [|lia]. res_inv. bool_prop.
  set (first_new := partition_point (λ page, (qp_page_no page <=? base)%N) pages) in *.
  assert (∀ q, q ∈ drop first_new pages ↔ q ∈ pages ∧ (base < qp_page_no q)%N) as Hin.
  { intros q. destruct (partition_point_spec qp_page_no (base + 1)
      (λ page, (qp_page_no page <=? base)%N) pages) with (x := q) as [_ Hd]; [|done|].
    - intros x. destruct (N.leb_spec (qp_page_no x) base), (N.ltb_spec (qp_page_no x) (base + 1)); lia || done.
    - subst first_new. rewrite Hd. intuition lia. }
  destruct (sorted_take_drop qp_page_no first_new pages Hs) as [_ Hsd].
  assert (k ∈ qp_page_no <$> drop first_new pages) as Hkd.
  { apply (ascending_count base target); [by apply ascending_NoDup| | |done].
    - rewrite Forall_forall in Hle. apply Forall_forall. intros y (q & -> & [Hq ?]%Hin)%list_elem_of_fmap.
      split; [done|by apply Hle].
    - by rewrite length_fmap, length_drop. }
  apply list_elem_of_fmap in Hkd as (q & -> & [Hq _]%Hin). by apply list_elem_of_fmap_2.
Qed.

Lemma qwal_validate_patch effect : qwal_validate effect = Ok () →
  let base := qe_base_state effect in let target := qe_target_state effect in
  page_size_ok (si_page_size target) = true ∧ si_page_size base = si_page_size target
  ∧ (0 < si_page_count base)%N ∧ (si_page_size base * si_page_count base ≤ u64_max)%N
  ∧ (si_page_size target * si_page_count target ≤ u64_max)%N
  ∧ patch_ok (si_page_size target) (si_page_count base) (si_page_count target) (effect_patches effect).
Proof.
  intros Hv. cbn zeta. unfold qwal_validate in Hv. res_inv.
  apply state_file_bytes_Ok in Hok1 as (Hpb & Hcb & _ & -> & Hub), Hok2 as (Hpt & Hct & _ & -> & Hut). bool_prop.
  apply check_pages_Ok in Hok6 as [Hs Hf]. pose proof (page_size_word _ Hpt) as [_ Hsz].
  assert (Forall (λ page, (qp_page_no page ≤ si_page_count (qe_target_state effect))%N) (qe_pages effect)) as Hle.
  { eapply Forall_impl; [exact Hf|]. cbn. intros page (_ & Hp & _). nia. }
  split_and!; try done. split_and!; [done|by apply sorted_patches| |].
  - unfold effect_patches. rewrite Forall_fmap, Forall_forall in *. intros page Hp. cbn.
    destruct (Hf page Hp) as (? & ? & ? & _). specialize (Hle page Hp). split; [lia|done].
  - intros k Hk. unfold effect_patches. rewrite <- list_fmap_compose. by apply (qwal_growth (si_page_count (qe_base_state effect)) (si_page_count (qe_target_state effect))).
Qed.

(** ** Installing in place *)

Definition qwal_index (page : QwalPageV3) : nat := N.to_nat (qp_page_no page - 1).

(** Whatever stops the installation, the file is left with whole pages: the first ones of
    the effect are written, the others are those of the base. *)
Lemma write_pages_prefix after page_size (P : list bytes) pages :
  (0 < page_size)%N → full_pages page_size P →
  Forall (λ page, (0 < qp_page_no page)%N ∧ qwal_index page < length P ∧ (qp_page_no page * page_size ≤ u64_max)%N
                  ∧ blen (qp_after_image page) = page_size) pages →
  ∃ k r, write_pages after page_size pages (concat P)
    = (r, concat (foldl (λ l page, <[qwal_index page := qp_after_image page]> l) P (take k pages)))
    ∧ (r = Ok () → take k pages = pages) ∧ ((∀ n, after n = Ok ()) → r = Ok ()).
Proof.
  intros Hps Hfull Hf. revert P Hfull Hf. induction pages as [|page pages IH]; intros P Hfull Hf.
  { by exists 0, (Ok ()). }
  inversion Hf as [|? ? (Hno & Hi & Hm & Him) Hf']; subst. cbn [write_pages]. unfold page_offset.
  rewrite (proj2 (checked_mul_Some _ _ ((qp_page_no page - 1) * blen (qp_after_image page))%N)) by (split; [done|nia]).
  cbn [ok_or]. set (ps := blen (qp_after_image page)) in *.
  assert (write_at ((qp_page_no page - 1) * ps) (qp_after_image page) (concat P)
          = concat (<[qwal_index page := qp_after_image page]> P)) as ->.
  { unfold write_at. rewrite (proj2 (N.ltb_ge _ _)) by (rewrite (blen_concat ps) by done; unfold qwal_index in Hi; nia).
    replace (N.to_nat ((qp_page_no page - 1) * ps)) with (qwal_index page * N.to_nat ps) by (unfold qwal_index; lia).
    rewrite <- (concat_store (N.to_nat ps)); [|by apply full_pages_nat|unfold ps, blen; lia|done].
    do 3 f_equal. unfold ps, blen. lia. }
  assert (full_pages ps (<[qwal_index page := qp_after_image page]> P)) as Hfull'.
  { apply Forall_insert; done. }
  destruct (after (qp_page_no page)) as [[]|e] eqn:He.
  - destruct (IH _ Hfull') as (k & r & Hw & Hr & Ha).
    { eapply Forall_impl; [exact Hf'|]. cbn. intros q. by rewrite length_insert. }
    exists (S k), r. cbn [take foldl]. split_and!; [done|intros Hok; by rewrite (Hr Hok)|done].
  - exists 1, (Err e). cbn. rewrite take_0. split_and!; [done|done|]. intros Hok. by rewrite Hok in He.
Qed.
End accepted.

Section install.
Context `{Sha256} `{Serde SqlCommandResult}.
Implicit Types effect : QwalEnvelopeV3.

(** The fill of the pages that a growing file gets does not matter: all are written. *)
Lemma patch_pages_fill (page_size : N) pages target patches fill :
  patch_ok page_size (N.of_nat (length pages)) (N.of_nat target) patches →
  foldl (λ pages patch, <[page_index patch := pp_after_image patch]> pages) (vec_resize target fill pages) patches
  = patch_pages target patches pages.
Proof.
  intros Hok. apply list_eq_same_length with (n := target).
  { apply length_patch_pages. }
  { by rewrite length_foldl_insert, length_vec_resize. }
  intros i x y Hi Hx Hy. destruct (decide (i ∈ page_index <$> patches)) as [Hin|Hno].
  - apply list_elem_of_fmap in Hin as (p & -> & Hp).
    rewrite (patch_pages_hit page_size) in Hy by done.
    rewrite foldl_insert_hit in Hx; [congruence| |done|by rewrite length_vec_resize].
    by eapply patch_indices_NoDup.
  - destruct (patch_pages_same page_size pages target patches Hok i Hi Hno) as [Hl He]. rewrite He in Hy.
    rewrite foldl_insert_same, lookup_vec_resize, Hy in Hx by done. cbn in Hx. congruence.
Qed.

(** The database after the effect. *)
Definition target_pages effect (pages : list bytes) : list bytes :=
  patch_pages (N.to_nat (si_page_count (qe_target_state effect))) (effect_patches effect) pages.

Lemma check_base_Ok file effect n : check_base file effect = Ok n →
  qwal_validate effect = Ok ()
  ∧ blen file = (si_page_size (qe_base_state effect) * si_page_count (qe_base_state effect))%N
  ∧ sqlite_page_size_from_file file = Ok (si_page_size (qe_base_state effect))
  ∧ n = (si_page_size (qe_target_state effect) * si_page_count (qe_target_state effect))%N.
Proof.
  unfold check_base. intros Hc. res_inv. bool_prop. subst.
  apply state_file_bytes_Ok in Hok0 as (_ & _ & _ & -> & _), Hc as (_ & _ & _ & -> & _). done.
Qed.

(** The only check that can fail once the file is written: the header of the new file. *)
Definition check_new_header file (page_size : N) : result SqlError () :=
  actual ← sqlite_page_size_from_file file;
  reject_if (neqb actual page_size) (InvalidEntry "QWAL target page size mismatch").

Lemma validated_target effect : qwal_validate effect = Ok () →
  state_file_bytes (qe_target_state effect)
  = Ok (si_page_size (qe_target_state effect) * si_page_count (qe_target_state effect))%N.
Proof.
  unfold qwal_validate. intros Hv. res_inv. pose proof Hok2 as Hcopy.
  apply state_file_bytes_Ok in Hcopy as (_ & _ & _ & -> & _). done.
Qed.

Lemma verify_written effect pages : qwal_validate effect = Ok () →
  full_pages (si_page_size (qe_target_state effect)) pages →
  N.of_nat (length pages) = si_page_count (qe_base_state effect) →
  let file := concat (target_pages effect pages) in
  is_u32 (si_page_count (qe_target_state effect)) = true →
  verify_installed_pages file effect = check_new_header file (si_page_size (qe_target_state effect)).
Proof.
  intros Hv Hfull Hlen file Hu32.
  destruct (qwal_validate_patch effect Hv) as (Hps & Hpe & Hb & _ & Hut & Hok).
  set (ps := si_page_size (qe_target_state effect)) in *. set (t := si_page_count (qe_target_state effect)) in *.
  destruct (page_size_word ps Hps) as [_ Hsz]. rewrite <- Hlen in Hok.
  assert (full_pages ps (target_pages effect pages)) as Hft.
  { apply Forall_lookup. intros j page Hj. pose proof (lookup_lt_Some _ _ _ Hj) as Hlt.
    unfold target_pages in *. rewrite length_patch_pages in Hlt. fold t in Hj, Hlt.
    rewrite <- (N2Nat.id t) in Hok. destruct (decide (j ∈ page_index <$> effect_patches effect)) as [Hin|Hno].
    - apply list_elem_of_fmap in Hin as (p & -> & Hp). rewrite (patch_pages_hit ps) in Hj by done.
      injection Hj as <-. by eapply patch_index.
    - destruct (patch_pages_same ps pages _ _ Hok j Hlt Hno) as [_ He]. rewrite He in Hj.
      exact (Forall_lookup_1 _ _ _ _ Hfull Hj). }
  assert (state_file_bytes (qe_target_state effect) = Ok (ps * t)%N) as Hst.
  { by apply validated_target. }
  unfold verify_installed_pages. rewrite Hst. cbn [mbind result_bind].
  assert (blen file = (ps * t)%N) as Hbl.
  { unfold file. rewrite (blen_concat ps) by done. unfold target_pages. rewrite length_patch_pages. fold t. lia. }
  rewrite Hbl, neqb_refl. cbn [reject_if mbind result_bind]. unfold check_new_header.
  destruct (sqlite_page_size_from_file file) as [actual|e]; [|done]. cbn [mbind result_bind].
  fold ps. destruct (neqb actual ps); [done|]. cbn [reject_if mbind result_bind].
  assert (∀ page, page ∈ qe_pages effect → check_installed_page ps file page = Ok ()) as Hall.
  { intros page Hp. rewrite <- (N2Nat.id t) in Hok.
    assert (mkPatch (qp_page_no page) (qp_after_image page) ∈ effect_patches effect) as Hpp.
    { unfold effect_patches. apply list_elem_of_fmap. by exists page. }
    pose proof (patch_pages_hit ps pages _ _ Hok _ Hpp) as Hhit.
    destruct (patch_index ps pages _ _ Hok _ Hpp) as (Hlt & _ & Hno & _). unfold page_index in *. cbn in Hhit, Hlt, Hno.
    unfold check_installed_page, page_offset.
    rewrite (proj2 (checked_mul_Some _ _ ((qp_page_no page - 1) * ps)%N)) by (split; [done|nia]). cbn [ok_or mbind result_bind].
    rewrite (index_range_slice file) by (rewrite ?Hbl; nia). cbn [ok_or mbind result_bind].
    assert (index_range file ((qp_page_no page - 1) * ps) ((qp_page_no page - 1) * ps + ps) = qp_after_image page) as ->;
      [|by rewrite neqb_refl].
    unfold index_range, slice. rewrite (proj2 (N.leb_le _ _)), (proj2 (N.leb_le _ _)) by (rewrite ?Hbl; nia). cbn [andb from_option].
    replace (N.to_nat ((qp_page_no page - 1) * ps + ps - (qp_page_no page - 1) * ps)) with (N.to_nat ps) by lia.
    replace (N.to_nat ((qp_page_no page - 1) * ps)) with (N.to_nat (qp_page_no page - 1) * N.to_nat ps) by lia.
    apply concat_page; [by apply full_pages_nat|exact Hhit]. }
  clear - Hall. induction (qe_pages effect) as [|page l IH]; [done|]. cbn [try_fold].
  rewrite Hall by by left. cbn [mbind result_bind]. apply IH. intros p Hp. apply Hall. by right.
Qed.

(** Installing an effect whose base checks pass, when every page was written: the pages of
    the file are patched, and the result is that of the header check. *)
Lemma install_outcome after effect pages n :
  check_base (concat pages) effect = Ok n → full_pages (si_page_size (qe_base_state effect)) pages →
  is_u32 (si_page_count (qe_target_state effect)) = true →
  let file := concat (target_pages effect pages) in
  ∃ r file', apply_preverified_qwal_in_place after (concat pages) effect = (r, file')
  ∧ (r = Ok () ∨ (∀ n, after n = Ok ()) →
     r = check_new_header file (si_page_size (qe_target_state effect)) ∧ file' = file).
Proof.
  intros Hc Hfull Hu32 file. unfold apply_preverified_qwal_in_place. rewrite Hc.
  apply check_base_Ok in Hc as (Hv & Hlen & _ & ->).
  destruct (qwal_validate_patch effect Hv) as (Hps & Hpe & Hb & _ & Hut & Hok).
  rewrite Hpe in *. rewrite (blen_concat _ _ Hfull) in Hlen.
  destruct (page_size_word _ Hps) as [_ Hsz].
  assert (N.of_nat (length pages) = si_page_count (qe_base_state effect)) as Hcount by nia.
  set (ps := si_page_size (qe_target_state effect)) in *. set (t := si_page_count (qe_target_state effect)) in *.
  unfold set_len. replace (N.to_nat (ps * t)) with (N.to_nat t * N.to_nat ps) by lia.
  rewrite concat_resize by by apply full_pages_nat.
  set (P := vec_resize (N.to_nat t) (replicate (N.to_nat ps) Byte.x00) pages).
  assert (full_pages ps P) as HfP.
  { unfold P, vec_resize. apply Forall_app. split; [by apply Forall_take|].
    apply Forall_replicate. unfold blen. rewrite length_replicate. lia. }
  rewrite <- Hcount in Hok. pose proof Hok as (_ & _ & Hr & _). unfold effect_patches in Hr. rewrite Forall_fmap in Hr.
  destruct (write_pages_prefix after ps P (qe_pages effect)) as (k & r & Hw & Hk & Hr0); [lia|done| |].
  { eapply Forall_impl; [exact Hr|]. cbn. intros page [Hno Him]. unfold qwal_index, P. rewrite length_vec_resize.
    split_and!; [lia|lia|nia|done]. }
  rewrite Hw. destruct r as [[]|e]; [|eexists _, _; split; [done|]; intros [|Ha]; [done|by apply Hr0 in Ha]].
  rewrite (Hk eq_refl).
  assert (foldl (λ l page, <[qwal_index page := qp_after_image page]> l) P (qe_pages effect) = target_pages effect pages) as ->.
  { unfold target_pages. fold t. rewrite <- (N2Nat.id t) in Hok. rewrite <- (patch_pages_fill ps _ _ _ (replicate (N.to_nat ps) Byte.x00) Hok).
    unfold effect_patches. by rewrite foldl_fmap. }
  eexists _, _. split; [done|]. intros _. split; [|done]. by apply verify_written.
Qed.

Lemma install_file effect pages n :
  check_base (concat pages) effect = Ok n → full_pages (si_page_size (qe_base_state effect)) pages →
  is_u32 (si_page_count (qe_target_state effect)) = true →
  let file := concat (target_pages effect pages) in
  apply_preverified_qwal_in_place (λ _, Ok ()) (concat pages) effect
  = (check_new_header file (si_page_size (qe_target_state effect)), file).
Proof.
  intros Hc Hfull Hu32 file. destruct (install_outcome (λ _, Ok ()) effect pages n Hc Hfull Hu32) as (r & file' & -> & Hr).
  destruct Hr as [-> ->]; [by right|done].
Qed.

Lemma header_multiple header n page_size : sqlite_page_size_from_header header n = Ok page_size → (n mod page_size = 0)%N.
Proof. unfold sqlite_page_size_from_header. intros Hh. res_inv. bool_prop. tauto. Qed.

(** The page state of a file is the tree of its pages. *)
Lemma page_state_Ok file cache : page_state_from_database_bytes file = Ok cache →
  ∃ page_size pages, file = concat pages ∧ pages_ok page_size pages ∧ cache = merkle_cache page_size pages
    ∧ sqlite_page_size_from_file file = Ok page_size.
Proof.
  unfold page_state_from_database_bytes, sqlite_page_size_from_file. intros Hp. res_inv.
  change SQLITE_HEADER_BYTES with 100%N. rewrite Hok. cbn [ok_or mbind result_bind]. rename v0 into ps.
  apply from_pages_Ok in Hp as [Hp ->]. exists ps, (chunks_exact ps file).
  pose proof Hp as (Hps & _). destruct (page_size_word ps Hps) as [_ Hsz].
  destruct (concat_chunks ps file) as [He _]; [lia|by eapply header_multiple|]. by rewrite He.
Qed.

Lemma page_state_concat page_size pages : pages_ok page_size pages →
  sqlite_page_size_from_file (concat pages) = Ok page_size →
  page_state_from_database_bytes (concat pages) = Ok (merkle_cache page_size pages).
Proof.
  unfold page_state_from_database_bytes, sqlite_page_size_from_file. change SQLITE_HEADER_BYTES with 100%N.
  intros Hp Hs. apply bind_Ok_inv in Hs as (header & Hh & Hs). rewrite ok_or_Ok in Hh. rewrite Hh. cbn [ok_or mbind result_bind].
  rewrite Hs. cbn [mbind result_bind]. pose proof Hp as (Hps & _ & _ & Hf). destruct (page_size_word _ Hps) as [_ Hsz].
  rewrite chunks_concat by (done || lia). by apply from_pages_Ok.
Qed.

(** The page state after an accepted patch, once the header of the new file was checked: the
    cache that the patch updates is the one a rebuild of the new file gives. *)
Lemma patched_state effect pages : qwal_validate effect = Ok () →
  pages_ok (si_page_size (qe_base_state effect)) pages → N.of_nat (length pages) = si_page_count (qe_base_state effect) →
  is_u32 (si_page_count (qe_target_state effect)) = true →
  let ps := si_page_size (qe_base_state effect) in let new := target_pages effect pages in
  let count := si_page_count (qe_target_state effect) in
  pages_ok ps new
  ∧ overlay (merkle_cache ps pages) count (effect_patches effect) = Ok (merkle_identity ps new)
  ∧ apply_patch (merkle_cache ps pages) count (effect_patches effect) = Ok (merkle_identity ps new, merkle_cache ps new)
  ∧ (check_new_header (concat new) (si_page_size (qe_target_state effect)) = Ok () →
     page_state_from_database_bytes (concat new) = Ok (merkle_cache ps new)).
Proof.
  intros Hv Hp Hcount Hu32. cbn zeta. destruct (qwal_validate_patch effect Hv) as (_ & Hpe & _ & _ & _ & Hok).
  rewrite <- Hpe, <- Hcount in Hok.
  assert (pages_ok (si_page_size (qe_base_state effect)) (target_pages effect pages)) as Hn.
  { unfold target_pages. pose proof Hu32 as Hu'. rewrite <- (N2Nat.id (si_page_count (qe_target_state effect))) in Hu', Hok.
    by apply patch_pages_ok. }
  split_and!; [done|by apply overlay_Ok|by apply apply_patch_Ok|].
  intros Hh. unfold check_new_header in Hh. apply bind_Ok_inv in Hh as (actual & Hact & Hh).
  rewrite reject_if_Ok, neqb_false in Hh. apply page_state_concat; [done|rewrite Hact; congruence].
Qed.

(** C16. Installing an effect: when the page state of the database file is the base of a
    valid effect, the overlay of its pages gives its target, and the installation in
    place succeeds, then the file it leaves has exactly the target state, and the cache
    that the effect updates is the one a rebuild of that file gives. *)
Theorem qwal_installs_target (file file' : bytes) effect (cache : PageStateCacheV3) :
  is_u32 (si_page_count (qe_target_state effect)) = true →
  page_state_from_database_bytes file = Ok cache → cache_identity cache = Ok (qe_base_state effect) →
  overlay cache (si_page_count (qe_target_state effect)) (effect_patches effect) = Ok (qe_target_state effect) →
  apply_preverified_qwal_in_place (λ _, Ok ()) file effect = (Ok (), file') →
  ∃ cache', apply_patch cache (si_page_count (qe_target_state effect)) (effect_patches effect)
              = Ok (qe_target_state effect, cache')
    ∧ page_state_from_database_bytes file' = Ok cache'.
Proof.
  intros Hu32 Hst Hid Hov Ha. apply page_state_Ok in Hst as (ps & pages & -> & Hp & -> & Hhd).
  destruct (check_base (concat pages) effect) as [n|e] eqn:Hc.
  2: { unfold apply_preverified_qwal_in_place in Ha. by rewrite Hc in Ha. }
  pose proof (check_base_Ok _ _ _ Hc) as (Hv & _ & Hps & _). rewrite Hhd in Hps. apply Ok_inj in Hps as ->.
  rewrite cache_identity_merkle in Hid by done. apply Ok_inj in Hid.
  assert (N.of_nat (length pages) = si_page_count (qe_base_state effect)) as Hcount by (by rewrite <- Hid).
  rewrite (install_file effect pages n Hc) in Ha; [|apply Hp|done].
  destruct (patched_state effect pages Hv Hp Hcount Hu32) as (_ & Ho & Hap & Hst). rewrite Hov in Ho. apply Ok_inj in Ho.
  eexists. split; [by rewrite Hap, Ho|]. injection Ha as Hh <-. by apply Hst.
Qed.

(** An interrupted installation leaves, of every page of the effect, the old or the new
    image, and never a page that is neither. *)
Lemma interrupted_install effect pages n after :
  check_base (concat pages) effect = Ok n → full_pages (si_page_size (qe_base_state effect)) pages →
  ∃ k, snd (apply_preverified_qwal_in_place after (concat pages) effect)
    = concat (foldl (λ l page, <[qwal_index page := qp_after_image page]> l)
        (vec_resize (N.to_nat (si_page_count (qe_target_state effect)))
          (replicate (N.to_nat (si_page_size (qe_target_state effect))) Byte.x00) pages) (take k (qe_pages effect))).
Proof.
  intros Hc Hfull. unfold apply_preverified_qwal_in_place. rewrite Hc.
  apply check_base_Ok in Hc as (Hv & Hlen & _ & ->).
  destruct (qwal_validate_patch effect Hv) as (Hps & Hpe & Hb & _ & Hut & Hok). rewrite Hpe in *.
  destruct (page_size_word _ Hps) as [_ Hsz].
  set (ps := si_page_size (qe_target_state effect)) in *. set (t := si_page_count (qe_target_state effect)) in *.
  unfold set_len. replace (N.to_nat (ps * t)) with (N.to_nat t * N.to_nat ps) by lia.
  rewrite concat_resize by by apply full_pages_nat.
  set (P := vec_resize (N.to_nat t) (replicate (N.to_nat ps) Byte.x00) pages).
  pose proof Hok as (_ & _ & Hr & _). unfold effect_patches in Hr. rewrite Forall_fmap in Hr.
  destruct (write_pages_prefix after ps P (qe_pages effect)) as (k & r & Hw & Hk & _).
  { lia. }
  { unfold P, vec_resize. apply Forall_app. split; [by apply Forall_take|].
    apply Forall_replicate. unfold blen. rewrite length_replicate. lia. }
  { eapply Forall_impl; [exact Hr|]. cbn. intros page [Hno Him]. unfold qwal_index, P. rewrite length_vec_resize.
    split_and!; [lia|lia|nia|done]. }
  rewrite Hw. exists k. destruct r as [[]|e]; [|done]. cbn. by rewrite (Hk eq_refl).
Qed.
End install.

(** ** From a captured transaction to an effect *)

Definition wal_patch (page : WalPage) : PageStatePatchV3 := mkPatch (wp_page_no page) (wp_after_image page).
Definition changed_page (pages : list bytes) (page : WalPage) : bool :=
  bool_decide (pages !! N.to_nat (wp_page_no page - 1) ≠ Some (wp_after_image page)).
Definition qwal_page (page : WalPage) : QwalPageV3 := mkQwalPage (wp_page_no page) (wp_after_image page).
Definition page_patch (page : QwalPageV3) : PageStatePatchV3 := mkPatch (qp_page_no page) (qp_after_image page).

Section materialize.
Context `{Sha256}.
Context (ps : N) (pages : list bytes) (Hps : (0 < ps)%N) (Hfull : full_pages ps pages).

Lemma slice_concat_page (i : nat) page : pages !! i = Some page →
  slice (concat pages) (N.of_nat i * ps) (N.of_nat i * ps + ps) = Some page.
Proof.
  intros Hi. pose proof (lookup_lt_Some _ _ _ Hi) as Hlt. unfold slice.
  rewrite (blen_concat ps) by done. rewrite (proj2 (N.leb_le _ _)), (proj2 (N.leb_le _ _)) by nia. cbn [andb].
  f_equal. replace (N.to_nat (N.of_nat i * ps + ps - N.of_nat i * ps)) with (N.to_nat ps) by lia.
  replace (N.to_nat (N.of_nat i * ps)) with (i * N.to_nat ps) by lia.
  apply concat_page; [by apply full_pages_nat|done].
Qed.

Lemma page_differs_Ok (page : WalPage) : (0 < wp_page_no page)%N → blen (wp_after_image page) = ps →
  page_differs (concat pages) ps (N.of_nat (length pages)) ((wp_page_no page - 1) * ps) page = Ok (changed_page pages page).
Proof.
  intros Hno Him. unfold page_differs, changed_page.
  destruct (N.leb_spec (wp_page_no page) (N.of_nat (length pages))) as [Hle|Hgt].
  - destruct (lookup_lt_is_Some_2 pages (N.to_nat (wp_page_no page - 1))) as [old Hold]; [lia|].
    rewrite <- (N2Nat.id (wp_page_no page - 1)) at 1 2. rewrite (slice_concat_page _ old) by done.
    cbn [ok_or mbind result_bind]. rewrite Hold. f_equal. unfold neqb, eqb. 
    rewrite <- bool_decide_not. apply bool_decide_ext. naive_solver.
  - rewrite (proj2 (lookup_ge_None pages _)) by lia. by rewrite bool_decide_eq_true_2.
Qed.

Lemma materialize_pages (P : list bytes) changed captured : full_pages ps P →
  Forall (λ page, (0 < wp_page_no page)%N ∧ N.to_nat (wp_page_no page - 1) < length P
     ∧ (wp_page_no page * ps ≤ u64_max)%N ∧ blen (wp_after_image page) = ps) captured →
  try_fold (materialize_page (concat pages) ps (N.of_nat (length pages))) (concat P, changed) captured
  = Ok (concat (foldl (λ l page, <[N.to_nat (wp_page_no page - 1) := wp_after_image page]> l) P captured),
        changed ++ (qwal_page <$> List.filter (changed_page pages) captured)).
Proof.
  revert P changed. induction captured as [|page captured IH]; intros P changed HfP Hc; cbn [try_fold foldl].
  { by rewrite app_nil_r. }
  apply Forall_cons in Hc as [(Hno & Hi & Hm & Him) Hc']. unfold materialize_page at 2.
  rewrite (proj2 (N.eqb_neq _ _)) by lia.
  rewrite (proj2 (checked_mul_Some _ _ ((wp_page_no page - 1) * ps)%N)) by (split; [done|nia]).
  cbn [ok_or mbind result_bind]. rewrite page_differs_Ok by done. cbn [mbind result_bind].
  assert (write_at ((wp_page_no page - 1) * ps) (wp_after_image page) (concat P)
          = concat (<[N.to_nat (wp_page_no page - 1) := wp_after_image page]> P)) as ->.
  { unfold write_at. rewrite (proj2 (N.ltb_ge _ _)) by (rewrite (blen_concat ps) by done; nia).
    replace (N.to_nat ((wp_page_no page - 1) * ps)) with (N.to_nat (wp_page_no page - 1) * N.to_nat ps) by lia.
    rewrite <- (concat_store (N.to_nat ps)); [|by apply full_pages_nat|unfold blen in Him; lia|done].
    do 3 f_equal. unfold blen in Him. lia. }
  rewrite IH.
  - cbn [List.filter]. destruct (changed_page pages page); [by rewrite <- app_assoc|done].
  - by apply Forall_insert.
  - eapply Forall_impl; [exact Hc'|]. cbn. intros q. by rewrite length_insert.
Qed.

(** Leaving out the captured pages that equal the base changes nothing. *)
Lemma changed_pages_enough (t : nat) captured :
  patch_ok ps (N.of_nat (length pages)) (N.of_nat t) (wal_patch <$> captured) →
  let changed := page_patch <$> (qwal_page <$> List.filter (changed_page pages) captured) in
  patch_ok ps (N.of_nat (length pages)) (N.of_nat t) changed
  ∧ patch_pages t changed pages = patch_pages t (wal_patch <$> captured) pages.
Proof.
  intros Hok changed.
  assert (changed = wal_patch <$> List.filter (changed_page pages) captured) as Hch.
  { unfold changed. by rewrite <- list_fmap_compose. }
  assert (∀ p, p ∈ changed ↔ p ∈ wal_patch <$> captured ∧ pages !! page_index p ≠ Some (pp_after_image p)) as Hin.
  { intros p. rewrite Hch, !list_elem_of_fmap. setoid_rewrite elem_of_List_filter. unfold changed_page.
    setoid_rewrite bool_decide_eq_true. split.
    - intros (q & -> & Hq & Hne). split; [by exists q|exact Hne].
    - intros [(q & -> & Hq) Hne]. exists q. done. }
  assert (patch_ok ps (N.of_nat (length pages)) (N.of_nat t) changed) as Hokc.
  { destruct Hok as (Ht & Hs & Hr & Hk). split_and!; [done| | |].
    - rewrite Hch. clear -Hs. induction captured as [|x l IH]; [constructor|]. cbn in *. inversion Hs as [|? ? Hs' Hx]; subst.
      destruct (changed_page pages x); [|by apply IH]. cbn. constructor; [by apply IH|].
      rewrite Forall_forall in *. intros y (q & -> & [Hq _]%elem_of_List_filter)%list_elem_of_fmap.
      by apply Hx, list_elem_of_fmap_2.
    - rewrite Forall_forall in *. intros p [Hp _]%Hin. by apply Hr.
    - intros k Hkr. destruct (proj1 (list_elem_of_fmap _ _ _) (Hk k Hkr)) as (p & -> & Hp).
      apply list_elem_of_fmap_2, Hin. split; [done|]. rewrite (proj2 (lookup_ge_None pages _)); [done|].
      unfold page_index. lia. }
  split; [done|]. apply list_eq_same_length with (n := t); [apply length_patch_pages..|].
  intros i x y Hi Hx Hy. destruct (decide (i ∈ page_index <$> changed)) as [Hc|Hc].
  - apply list_elem_of_fmap in Hc as (p & -> & Hp). rewrite (patch_pages_hit ps pages t changed Hokc p Hp) in Hx.
    apply Hin in Hp as [Hp _]. rewrite (patch_pages_hit ps pages t _ Hok p Hp) in Hy. congruence.
  - destruct (patch_pages_same ps pages t changed Hokc i Hi Hc) as [Hl He]. rewrite He in Hx.
    destruct (decide (i ∈ page_index <$> (wal_patch <$> captured))) as [Ha|Ha].
    + apply list_elem_of_fmap in Ha as (p & -> & Hp). rewrite (patch_pages_hit ps pages t _ Hok p Hp) in Hy.
      destruct (decide (pages !! page_index p = Some (pp_after_image p))) as [Heq|Hne]; [congruence|].
      exfalso. apply Hc, list_elem_of_fmap_2, Hin. done.
    + destruct (patch_pages_same ps pages t _ Hok i Hi Ha) as [_ He']. rewrite He' in Hy. congruence.
Qed.
End materialize.

Section staged.
Context `{Sha256} `{Serde SqlCommandResult}.

(** The staging file after the captured pages are written, and the pages of the effect. *)
Lemma materialize_commit page_size pages c staged changed : let t := wc_target_db_pages c in
  pages_ok page_size pages → wc_page_size c = page_size → wc_target_file_bytes c = (t * page_size)%N → is_u32 t = true →
  patch_ok page_size (N.of_nat (length pages)) t (wal_patches c) →
  materialize_wal_capture (concat pages) (concat pages) page_size (blen (concat pages)) (Committed c) = Ok (staged, changed) →
  sqlite_page_size_from_file staged = Ok page_size
  ∧ patch_ok page_size (N.of_nat (length pages)) t (page_patch <$> changed)
  ∧ staged = concat (patch_pages (N.to_nat t) (page_patch <$> changed) pages).
Proof.
  intros t Hp Hcp Hcb Hu32 Hok Hm. pose proof Hp as (Hps & _ & _ & Hf). destruct (page_size_word _ Hps) as [_ Hsz].
  assert (t * page_size ≤ u64_max)%N as Hmul.
  { unfold is_u32 in Hu32. rewrite N.leb_le in Hu32. transitivity (u32_max * 65536)%N; [nia|]. vm_compute. discriminate. }
  unfold materialize_wal_capture in Hm. fold t in Hm. rewrite Hcp, Hcb, neqb_refl in Hm. cbn [reject_if mbind result_bind] in Hm.
  rewrite (proj2 (checked_mul_Some t page_size _) (conj eq_refl Hmul)) in Hm.
  cbn [ok_or mbind result_bind] in Hm. rewrite neqb_refl in Hm. cbn [reject_if mbind result_bind] in Hm.
  rewrite (blen_concat page_size pages Hf), N.div_mul in Hm by lia. unfold set_len in Hm.
  replace (N.to_nat (t * page_size)) with (N.to_nat t * N.to_nat page_size) in Hm by lia.
  rewrite concat_resize in Hm by by apply full_pages_nat.
  rewrite <- (N2Nat.id t) in Hok. unfold wal_patches in Hok.
  change (λ page, mkPatch (wp_page_no page) (wp_after_image page)) with wal_patch in Hok.
  pose proof Hok as (_ & _ & Hr & _). rewrite Forall_fmap in Hr.
  rewrite (materialize_pages page_size pages) in Hm; [|lia|done| |].
  2: { apply Forall_app. split; [by apply Forall_take|].
       apply Forall_replicate. unfold blen. rewrite length_replicate. lia. }
  2: { rewrite Forall_forall in *. intros page Hin. destruct (Hr page Hin) as [Hno Him].
       cbn [wal_patch pp_page_no pp_after_image] in Hno, Him. rewrite N2Nat.id in Hno. rewrite length_vec_resize.
       split_and!; [lia|lia|nia|done]. }
  cbn [app mbind result_bind] in Hm. apply bind_Ok_inv in Hm as ([] & Hch & Hm). apply Ok_inj in Hm.
  pose proof (f_equal fst Hm) as Hst. pose proof (f_equal snd Hm) as Hcg. cbn [fst snd] in Hst, Hcg. subst changed.
  destruct (changed_pages_enough page_size pages ltac:(lia) (N.to_nat t) (wc_pages c) Hok) as [Hokc Heq].
  rewrite N2Nat.id in Hokc. split; [|split; [done|]].
  - unfold check_materialized in Hch. rewrite Hst in Hch. destruct (neqb (blen staged) _); [done|].
    apply bind_Ok_inv in Hch as (actual & Hact & Hr'). rewrite reject_if_Ok, neqb_false in Hr'. congruence.
  - rewrite Heq, <- Hst. f_equal. rewrite <- (patch_pages_fill page_size _ _ _ (replicate (N.to_nat page_size) Byte.x00) Hok).
    by rewrite foldl_fmap.
Qed.

(** The pages that a captured transaction stages. *)
Lemma staged_pages ps pages file_bytes wal c staged changed : pages_ok ps pages →
  capture_wal true file_bytes wal (N.of_nat (length pages)) MAX_QWAL_V3_BYTES = Ok (Committed c) →
  materialize_wal_capture (concat pages) (concat pages) ps (blen (concat pages)) (Committed c) = Ok (staged, changed) →
  let t := wc_target_db_pages c in
  is_u32 t = true ∧ sqlite_page_size_from_file staged = Ok ps
  ∧ patch_ok ps (N.of_nat (length pages)) t (page_patch <$> changed)
  ∧ staged = concat (patch_pages (N.to_nat t) (page_patch <$> changed) pages).
Proof.
  intros Hp Hcap Hmat. assert (1 ≤ N.of_nat (length pages) ≤ MAX_PAGE_NO)%N as Hbase.
  { unfold capture_wal in Hcap. apply bind_Ok_inv in Hcap as (? & Hr & _). rewrite reject_if_Ok in Hr. bool_prop. lia. }
  apply (capture_sound _ _ Hbase) in Hcap as (_ & order & ps' & sq & salts & frames & _ & Hps' & _ & _ & Hacc & ->).
  assert (ps' = ps) as ->.
  { unfold materialize_wal_capture in Hmat. apply bind_Ok_inv in Hmat as (? & Hr & _).
    rewrite reject_if_Ok, neqb_false in Hr. done. }
  destruct (wal_commit_patch _ _ _ _ Hacc) as (Hu32 & Hok0 & _). split; [done|].
  by apply (materialize_commit ps pages (wal_commit ps frames) staged changed Hp eq_refl eq_refl Hu32 Hok0).
Qed.

(** C10. Replication of a transaction: let [wal] be the write-ahead log of a transaction
    on the database file [base], captured and materialized into the staging file [staged] and
    the changed pages.  An effect with these pages, the identity of [base] as its base
    and the overlay of the pages as its target installs on every copy of [base], and leaves
    exactly the bytes of [staged], whose page state is the target. *)
Theorem staged_effect_replicates (base wal staged : bytes) (file_bytes : N) (cache : PageStateCacheV3) (c : WalCommit)
    (changed : list QwalPageV3) (effect : QwalEnvelopeV3) :
  page_state_from_database_bytes base = Ok cache →
  capture_wal true file_bytes wal (pc_page_count cache) MAX_QWAL_V3_BYTES = Ok (Committed c) →
  materialize_wal_capture base base (pc_page_size cache) (blen base) (Committed c) = Ok (staged, changed) →
  cache_identity cache = Ok (qe_base_state effect) → qe_pages effect = changed →
  overlay cache (wc_target_db_pages c) (effect_patches effect) = Ok (qe_target_state effect) →
  qwal_validate effect = Ok () →
  apply_preverified_qwal_in_place (λ _, Ok ()) base effect = (Ok (), staged)
  ∧ ∃ cache', page_state_from_database_bytes staged = Ok cache' ∧ cache_identity cache' = Ok (qe_target_state effect).
Proof.
  intros Hst Hcap Hmat Hid Hpg Hov Hv. apply page_state_Ok in Hst as (ps & pages & -> & Hp & -> & Hhd).
  cbn [merkle_cache pc_page_count pc_page_size] in *.
  destruct (staged_pages _ _ _ _ _ _ _ Hp Hcap Hmat) as (Hu32 & Hhs & Hok & ->).
  assert (0 < N.of_nat (length pages))%N as Hbase by (destruct pages; [by destruct Hp as (_ & ? & _)|cbn; lia]).
  clear Hcap Hmat. set (t := wc_target_db_pages c) in *. clearbody t.
  assert (effect_patches effect = page_patch <$> changed) as Hep by (unfold effect_patches; by rewrite Hpg).
  rewrite Hep in Hov. rewrite overlay_Ok in Hov by done. apply Ok_inj in Hov.
  rewrite cache_identity_merkle in Hid by done. apply Ok_inj in Hid.
  assert (si_page_count (qe_target_state effect) = t) as Ht.
  { rewrite <- Hov. cbn. rewrite length_patch_pages. lia. }
  assert (si_page_size (qe_target_state effect) = ps) as Hpt by (by rewrite <- Hov).
  assert (si_page_size (qe_base_state effect) = ps) as Hpb by (by rewrite <- Hid).
  assert (check_base (concat pages) effect = Ok (ps * t)%N) as Hc.
  { unfold check_base. rewrite Hv. cbn [mbind result_bind].
    destruct (qwal_validate_patch effect Hv) as (_ & _ & Hbc & Hbu & _).
    rewrite (proj2 (state_file_bytes_Ok (qe_base_state effect) (blen (concat pages)))).
    - cbn [mbind result_bind]. rewrite neqb_refl, Hhd. cbn [reject_if mbind result_bind].
      rewrite Hpb, neqb_refl. cbn [reject_if mbind result_bind]. rewrite validated_target by done. by rewrite Hpt, Ht.
    - rewrite (blen_concat ps) by apply Hp. unfold qwal_validate in Hv. res_inv.
      apply state_file_bytes_Ok in Hok2 as (? & ? & ? & _ & _). rewrite Hpb in *.
      assert (si_page_count (qe_base_state effect) = N.of_nat (length pages)) as -> by (by rewrite <- Hid).
      rewrite <- Hid in Hbu. cbn in Hbu. split_and!; try done; lia. }
  split.
  - rewrite (install_file effect pages _ Hc); [|rewrite Hpb; apply Hp|by rewrite Ht].
    unfold target_pages. rewrite Ht, Hep, Hpt. unfold check_new_header. rewrite Hhs. cbn [mbind result_bind].
    by rewrite neqb_refl.
  - rewrite <- (N2Nat.id t) in Hu32, Hok. pose proof (patch_pages_ok ps pages _ _ Hp Hu32 Hok) as Hn.
    exists (merkle_cache ps (patch_pages (N.to_nat t) (page_patch <$> changed) pages)).
    split; [by apply page_state_concat|]. rewrite cache_identity_merkle by done. by rewrite Hov.
Qed.
End staged.

(** ** The encoding of effects *)

Section codec.
Context `{Serde SqlCommandResult} `{Serde QwalEnvelopeV3}.

(** postcard reads back what it wrote, and an envelope takes at least one byte (it starts
    with the length of a string). *)
Class PostcardLaws : Prop := {
  postcard_reads (effect : QwalEnvelopeV3) body : to_serialized effect = Some body → from_serialized body = Some effect;
  postcard_nonempty (effect : QwalEnvelopeV3) : to_serialized effect ≠ Some []
}.

Lemma encode_decodes `{!PostcardLaws} (payload : bytes) (effect : QwalEnvelopeV3) :
  encode_qwal_v3 effect = Ok payload → decode_qwal_v3 payload = Ok effect.
Proof.
  unfold decode_qwal_v3, encode_qwal_v3. intros He. res_inv. bool_prop. apply checked_add_Some in Hok1 as [-> _]. rewrite blen_app.
  rewrite (proj2 (N.ltb_ge _ _)) by lia. cbn [reject_if mbind result_bind].
  rewrite strip_prefix_app. cbn [ok_or mbind result_bind]. rename v0 into body.
  assert (blen body ≠ 0%N) as Hne.
  { intros Hz. apply (postcard_nonempty effect). rewrite Hok0. f_equal. destruct body; [done|]. unfold blen in Hz. cbn in Hz. lia. }
  rewrite (proj2 (N.eqb_neq _ _) Hne). cbn [reject_if mbind result_bind].
  rewrite (postcard_reads _ _ Hok0). cbn [ok_or mbind result_bind]. rewrite Hok. cbn [mbind result_bind].
  rewrite Hok0. cbn [ok_or mbind result_bind]. by rewrite neqb_refl.
Qed.

(** C37. Payloads and effects are in bijection: a payload decodes to an effect exactly when it
    is the encoding of that effect, so that no effect has two payloads, and everything
    that decodes was validated. *)
Theorem qwal_codec_exact `{!PostcardLaws} (payload : bytes) (effect : QwalEnvelopeV3) :
  decode_qwal_v3 payload = Ok effect ↔ encode_qwal_v3 effect = Ok payload.
Proof.
  split.
  - unfold decode_qwal_v3, encode_qwal_v3. intros Hd. res_inv. unfold strip_prefix in Hok0.
    destruct (eqb (take (length QWAL_V3_MAGIC) payload) QWAL_V3_MAGIC) eqn:Hpre; [|done]. res_inv. bool_prop.
    rewrite Hok3. cbn [mbind result_bind]. rewrite Hok4. cbn [ok_or mbind result_bind].
    subst.
    assert (payload = QWAL_V3_MAGIC ++ drop (length QWAL_V3_MAGIC) payload) as Hpay.
    { rewrite <- (take_drop (length QWAL_V3_MAGIC) payload) at 1. by rewrite Hpre. }
    rewrite Hpay in Hok at 1. rewrite blen_app in Hok.
    assert (MAX_QWAL_V3_BYTES ≤ u64_max)%N by (vm_compute; discriminate).
    change (length QWAL_V3_MAGIC) with 6 in *. set (body := drop 6 payload) in *.
    assert (blen QWAL_V3_MAGIC + blen body ≤ u64_max)%N as Hadd by lia.
    rewrite (proj2 (checked_add_Some _ _ _) (conj eq_refl Hadd)). cbn [ok_or mbind result_bind].
    rewrite (proj2 (N.ltb_ge _ _)) by lia. cbn [reject_if mbind result_bind]. by rewrite <- Hpay.
  - apply encode_decodes.
Qed.
End codec.
