(* ===== verification/SqlCommand.v ===== *)
(** * SqlCommand: the commands of the SQL profile

    Models the QSQL v2 command of [crates/rhiza-sql/src/lib.rs]: its validation and its
    canonical encoding, bound to the fingerprint of the local SQL executor.  The
    fingerprint depends on the linked SQLite library and is a parameter, as [serde_json] is. *)

From S2P Require Import Prelude Bytes Text Core SqlPages Qwal.
From Stdlib Require Strings.Byte.

Definition SQL_COMMAND_V2_MAGIC : bytes := lit "QSQL" ++ [Byte.x00; Byte.x02].
Definition MAX_SQL_STATEMENTS : N := 64.
Definition MAX_SQL_PARAMETERS : N := 999.
Definition MAX_SQL_TEXT_BYTES : N := 64 * 1024.

Record SqlStatement : Type := mkStatement { st_sql : bytes; st_parameters : list SqlValue }.
Record SqlCommand : Type := mkSqlCommand { sc_request_id : bytes; sc_statements : list SqlStatement }.
Record SqlCommandV2Envelope : Type := mkSqlEnvelope { se_executor_fingerprint : LogHash; se_command : SqlCommand }.
#[export] Instance SqlStatement_eq_dec : EqDecision SqlStatement.
Proof. solve_decision. Defined.
#[export] Instance SqlCommand_eq_dec : EqDecision SqlCommand.
Proof. solve_decision. Defined.

(** [str::trim().is_empty()]: every character is white space of Unicode. *)
Fixpoint is_blank (l : bytes) : bool :=
  let among (b : Byte.byte) (codes : list N) := existsb (N.eqb (Byte.to_N b)) codes in
  match l with
  | [] => true
  | a :: l =>
      (among a [0x09; 0x0a; 0x0b; 0x0c; 0x0d; 0x20]%N && is_blank l)
      || match l with
         | b :: l' =>
             (among a [0xc2]%N && among b [0x85; 0xa0]%N && is_blank l')
             || match l' with
                | c :: l'' =>
                    ((among a [0xe1]%N && among b [0x9a]%N && among c [0x80]%N)
                     || (among a [0xe2]%N && among b [0x80]%N
                         && ((Byte.to_N c <=? 0x8a)%N && (0x80 <=? Byte.to_N c)%N || among c [0xa8; 0xa9; 0xaf]%N))
                     || (among a [0xe2]%N && among b [0x81]%N && among c [0x9f]%N)
                     || (among a [0xe3]%N && among b [0x80]%N && among c [0x80]%N)) && is_blank l''
                | [] => false
                end
         | [] => false
         end
  end.

(** [f64::is_finite] on the bits: not all bits of the exponent are set. *)
Definition is_finite (bits : N) : bool := negb (N.land (N.shiftr bits 52) 0x7ff =? 0x7ff)%N.

Definition validate_sql_statement (statement : SqlStatement) : result SqlError () :=
  _ ← reject_if (is_blank (st_sql statement) || (MAX_SQL_TEXT_BYTES <? blen (st_sql statement))%N)
        (InvalidCommand "SQL text must contain 1..={MAX_SQL_TEXT_BYTES} bytes");
  _ ← reject_if (existsb (λ b, (Byte.to_N b =? 0)%N) (st_sql statement)) (InvalidCommand "SQL text must not contain NUL");
  _ ← reject_if (MAX_SQL_PARAMETERS <? N.of_nat (length (st_parameters statement)))%N
        (InvalidCommand "SQL statement exceeds {MAX_SQL_PARAMETERS} parameters");
  reject_if (existsb (λ value, match value with SqlReal bits => negb (is_finite bits) | _ => false end)
               (st_parameters statement)) (InvalidCommand "SQL real parameters must be finite").

Definition validate_sql_command (command : SqlCommand) : result SqlError () :=
  _ ← reject_if ((blen (sc_request_id command) =? 0)%N || (256 <? blen (sc_request_id command))%N)
        (InvalidCommand "SQL request_id must contain 1..=256 bytes");
  let statements := N.of_nat (length (sc_statements command)) in
  _ ← reject_if ((statements =? 0)%N || (MAX_SQL_STATEMENTS <? statements)%N)
        (InvalidCommand "SQL command must contain 1..={MAX_SQL_STATEMENTS} statements");
  try_fold (λ _ statement, validate_sql_statement statement) () (sc_statements command).

(** [sql_executor_fingerprint()], computed from the linked SQLite library. *)
Class SqlExecutor : Type := sql_executor_fingerprint : result SqlError LogHash.

Section command.
Context `{SqlExecutor} `{Serde SqlCommandV2Envelope}.

Definition encode_sql_command (command : SqlCommand) : result SqlError bytes :=
  _ ← validate_sql_command command;
  fingerprint ← sql_executor_fingerprint;
  encoded ← ok_or (to_serialized (mkSqlEnvelope fingerprint command)) (InvalidCommand "cannot encode SQL command: {error}");
  Ok (SQL_COMMAND_V2_MAGIC ++ encoded).

Definition decode_sql_command (payload : bytes) : result SqlError SqlCommand :=
  encoded ← ok_or (strip_prefix SQL_COMMAND_V2_MAGIC payload) (InvalidCommand "canonical QSQL v2 magic is missing");
  envelope ← ok_or (from_serialized encoded) (InvalidCommand "invalid SQL command: {error}");
  expected ← sql_executor_fingerprint;
  _ ← reject_if (neqb (se_executor_fingerprint envelope) expected)
        (InvalidCommand "SQL executor fingerprint {} does not match local {}");
  let command := se_command envelope in
  _ ← validate_sql_command command;
  canonical ← encode_sql_command command;
  _ ← reject_if (neqb canonical payload) (InvalidCommand "QSQL v2 command is not canonically encoded");
  Ok command.
End command.

(** [encode_put_request] *)
Definition encode_put_request (request_id key value : bytes) : result SqlError bytes :=
  _ ← reject_if ((blen request_id =? 0)%N || (256 <? blen request_id)%N || (blen key =? 0)%N)
        (InvalidCommand "put request_id and key must be non-empty and request_id at most 256 bytes");
  _ ← reject_if (existsb (existsb (λ b, (Byte.to_N b =? 9)%N)) [request_id; key; value])
        (InvalidCommand "put request fields must not contain a tab");
  let tab := [Byte.x09] in
  Ok (lit "put" ++ tab ++ request_id ++ tab ++ key ++ tab ++ value).
