(* ===== verification/SqlPolicy.v ===== *)
(** * SqlPolicy: what SQL of a client may touch

    Models the authorization of [crates/rhiza-sql/src/lib.rs]: the callback that SQLite asks
    about every action of a statement, the reserved names, the pragmas that are allowed, and the
    check of the schema after a command, with its scanner of virtual table definitions.  The type [AuthAction] is
    rusqlite's, with the fields the callback reads. *)

From S2P Require Import Prelude Bytes Text Core SqlPages.
From Stdlib Require Strings.Byte.

Implicit Types (name value sql argument token l : bytes).

(** ** Names *)

(** [u8::to_ascii_lowercase] *)
Definition ascii_lower (b : Byte.byte) : Byte.byte :=
  if in_range b 65 90 then byte_of_N (Byte.to_N b + 32) else b.
Definition eq_ignore_ascii_case l l' : bool := eqb (ascii_lower <$> l) (ascii_lower <$> l').
Definition matches_ignore_ascii_case value (choices : list bytes) : bool := existsb (eq_ignore_ascii_case value) choices.

Definition reserved_tables : list bytes := [lit "__rhiza_kv"; lit "__rhiza_meta"; lit "__rhiza_requests"].
Definition reserved_table_name name : bool := matches_ignore_ascii_case name reserved_tables.

Definition strip_ascii_prefix_ignore_case value (prefix : bytes) : option bytes :=
  match str_prefix value (blen prefix) with
  | Some candidate => if eq_ignore_ascii_case candidate prefix then Some (drop (length prefix) value) else None
  | None => None
  end.

Definition reserved_name name : bool :=
  reserved_table_name name
  || match strip_ascii_prefix_ignore_case name (lit "sqlite_autoindex_") with
     | Some suffix =>
         existsb (λ table,
             match str_prefix suffix (blen table) with
             | Some candidate => eq_ignore_ascii_case candidate table
             | None => false
             end && eqb (byte_at suffix (blen table)) (Some Byte.x5f)) reserved_tables
     | None => false
     end.

Definition bundled_vtable (module_name : bytes) : bool :=
  matches_ignore_ascii_case module_name
    [lit "fts3"; lit "fts3tokenize"; lit "fts4"; lit "fts4aux"; lit "fts5"; lit "fts5vocab"; lit "dbstat"; lit "rtree"; lit "rtree_i32"].
Definition unsafe_sql_function name : bool := eq_ignore_ascii_case name (lit "load_extension").

(** ** Pragmas *)

(** The value of a digit in the given base. *)
Definition radix_digit (radix : N) (b : Byte.byte) : option N :=
  let d := if in_range b 48 57 then Some (Byte.to_N b - 48)%N
           else if in_range b 97 122 then Some (Byte.to_N b - 87)%N
           else if in_range b 65 90 then Some (Byte.to_N b - 55)%N else None in
  match d with Some d => if (d <? radix)%N then Some d else None | None => None end.
(** [u32::from_str_radix]; [parse::<u32>] is base 10. *)
Definition u32_from_str_radix (radix : N) l : option N :=
  let digits := match l with b :: r => if eqb b Byte.x2b then r else l | [] => l end in
  match digits with
  | [] => None
  | _ =>
      n ← foldl (λ acc b, n ← acc; d ← radix_digit radix b; let n := (n * radix + d)%N in if is_u32 n then Some n else None)
            (Some 0%N) digits;
      Some n
  end.

Definition ARGUMENT_SAFE : list bytes :=
  [lit "foreign_key_check"; lit "foreign_key_list"; lit "index_info"; lit "index_list"; lit "index_xinfo"; lit "integrity_check";
   lit "quick_check"; lit "table_info"; lit "table_list"; lit "table_xinfo"].
Definition NO_ARGUMENT_ONLY : list bytes :=
  [lit "analysis_limit"; lit "application_id"; lit "auto_vacuum"; lit "automatic_index"; lit "busy_timeout"; lit "cache_size";
   lit "cache_spill"; lit "case_sensitive_like"; lit "cell_size_check"; lit "checkpoint_fullfsync"; lit "collation_list";
   lit "compile_options"; lit "count_changes"; lit "data_version"; lit "default_cache_size"; lit "defer_foreign_keys";
   lit "empty_result_callbacks"; lit "encoding"; lit "freelist_count"; lit "foreign_keys"; lit "full_column_names"; lit "fullfsync";
   lit "function_list"; lit "hard_heap_limit"; lit "ignore_check_constraints"; lit "journal_size_limit"; lit "legacy_alter_table";
   lit "locking_mode"; lit "max_page_count"; lit "mmap_size"; lit "module_list"; lit "page_count"; lit "page_size"; lit "pragma_list";
   lit "query_only"; lit "read_uncommitted"; lit "recursive_triggers"; lit "reverse_unordered_selects"; lit "schema_version";
   lit "secure_delete"; lit "short_column_names"; lit "soft_heap_limit"; lit "synchronous"; lit "temp_store"; lit "threads";
   lit "trusted_schema"; lit "user_version"].

Definition observational_pragma name (value : option bytes) : bool :=
  if match value with Some value => reserved_name value | None => false end then false
  else existsb (eq_ignore_ascii_case name) ARGUMENT_SAFE
       || (match value with None => true | Some _ => false end && existsb (eq_ignore_ascii_case name) NO_ARGUMENT_ONLY).

Inductive SqlAuthorizationMode : Type := ReadOnly | PhysicalWrite.
#[export] Instance SqlAuthorizationMode_eq_dec : EqDecision SqlAuthorizationMode.
Proof. solve_decision. Defined.

Definition optimize_mask value : bool :=
  match u32_from_str_radix 10 value with
  | Some _ => true
  | None =>
      match strip_prefix (lit "0x") value with
      | Some hex => match u32_from_str_radix 16 hex with Some _ => true | None => false end
      | None =>
          match strip_prefix (lit "0X") value with
          | Some hex => match u32_from_str_radix 16 hex with Some _ => true | None => false end
          | None => false
          end
      end
  end.
Definition authorized_pragma (mode : SqlAuthorizationMode) name (value : option bytes) : bool :=
  if observational_pragma name value then true
  else eqb mode PhysicalWrite
       && ((matches_ignore_ascii_case name [lit "application_id"; lit "user_version"]
            && match value with Some _ => true | None => false end)
           || (eq_ignore_ascii_case name (lit "optimize")
               && match value with None => true | Some value => optimize_mask value end)).

(** ** The callback *)

Inductive AuthAction : Type :=
| AuthUnknown | AuthTransaction | AuthAttach | AuthDetach | AuthSavepoint | AuthSelect | AuthRecursive
| CreateTempIndex | CreateTempTable | CreateTempTrigger | CreateTempView
| DropTempIndex | DropTempTable | DropTempTrigger | DropTempView
| AuthPragma (pragma_name : bytes) (pragma_value : option bytes)
| CreateVtable (table_name module_name : bytes) | DropVtable (table_name module_name : bytes)
| AuthFunction (function_name : bytes)
| CreateIndex (index_name table_name : bytes) | DropIndex (index_name table_name : bytes)
| CreateTrigger (trigger_name table_name : bytes) | DropTrigger (trigger_name table_name : bytes)
| CreateTable (table_name : bytes) | DropTable (table_name : bytes)
| AuthDelete (table_name : bytes) | AuthInsert (table_name : bytes)
| AuthRead (table_name column_name : bytes) | AuthUpdate (table_name column_name : bytes)
| AlterTable (database_name table_name : bytes) | AuthAnalyze (table_name : bytes)
| CreateView (view_name : bytes) | DropView (view_name : bytes)
| AuthReindex (index_name : bytes).
Record AuthContext : Type := mkAuthContext { ac_action : AuthAction; ac_database_name : option bytes }.
Inductive Authorization : Type := Allow | Deny.
#[export] Instance Authorization_eq_dec : EqDecision Authorization.
Proof. solve_decision. Defined.

Definition deny_if (c : bool) : Authorization := if c then Deny else Allow.

Definition authorize_sql (context : AuthContext) (mode : SqlAuthorizationMode) : Authorization :=
  if match ac_database_name context with
     | Some name => neqb name (lit "main") && negb (eqb mode PhysicalWrite && eqb name (lit "temp"))
     | None => false
     end then Deny else
  match ac_action context with
  | AuthUnknown | AuthTransaction | AuthAttach | AuthDetach | AuthSavepoint => Deny
  | AuthPragma pragma_name pragma_value => deny_if (negb (authorized_pragma mode pragma_name pragma_value))
  | CreateVtable _ module_name | DropVtable _ module_name => deny_if (negb (eqb mode PhysicalWrite && bundled_vtable module_name))
  | AuthFunction function_name => deny_if (unsafe_sql_function function_name)
  | CreateIndex name table_name | DropIndex name table_name
  | CreateTrigger name table_name | DropTrigger name table_name => deny_if (reserved_name name || reserved_name table_name)
  | CreateTable table_name | AuthDelete table_name | DropTable table_name | AuthInsert table_name | AuthRead table_name _
  | AuthUpdate table_name _ | AlterTable _ table_name | AuthAnalyze table_name => deny_if (reserved_name table_name)
  | CreateView view_name | DropView view_name => deny_if (reserved_name view_name)
  | AuthReindex index_name => deny_if (reserved_name index_name)
  | CreateTempIndex | CreateTempTable | CreateTempTrigger | CreateTempView
  | DropTempIndex | DropTempTable | DropTempTrigger | DropTempView | AuthSelect | AuthRecursive => Allow
  end.

(** ** Definitions of virtual tables *)

(** The scanners keep a position in the text; here they keep the text from that position on. *)

Definition closing (b : Byte.byte) : option Byte.byte :=
  if eqb b Byte.x27 || eqb b Byte.x22 || eqb b Byte.x60 then Some b else if eqb b Byte.x5b then Some Byte.x5d else None.

(** The rest of a line comment: it ends before the newline. *)
Fixpoint skip_line l : bytes :=
  match l with
  | b :: l' => if eqb b Byte.x0a then l else skip_line l'
  | [] => []
  end.
(** The rest of a block comment. *)
Fixpoint skip_block l : bytes :=
  match l with
  | b :: ((c :: l'') as l') => if eqb b Byte.x2a && eqb c Byte.x2f then l'' else skip_block l'
  | _ => []
  end.
(** The rest of a quoted token, and what follows it; a doubled closing quote stands for itself. *)
Fixpoint quoted (close : Byte.byte) l : bytes * bytes :=
  match l with
  | [] => ([], [])
  | b :: l' =>
      if eqb b close then
        match l' with
        | c :: l'' => if eqb c close then let '(t, r) := quoted close l'' in (b :: c :: t, r) else ([b], l')
        | [] => ([b], [])
        end
      else let '(t, r) := quoted close l' in (b :: t, r)
  end.
(** A comment that starts here: the text after it. *)
Definition comment l : option bytes :=
  match l with
  | b :: c :: l' =>
      if eqb b Byte.x2d && eqb c Byte.x2d then Some (skip_line l')
      else if eqb b Byte.x2f && eqb c Byte.x2a then Some (skip_block l') else None
  | _ => None
  end.

(** The text after the first parenthesis outside quotes and comments. *)
Fixpoint unquoted_open_paren (fuel : nat) l : option bytes :=
  match fuel, l with
  | S fuel, b :: l' =>
      match comment l with
      | Some rest => unquoted_open_paren fuel rest
      | None =>
          match closing b with
          | Some close => unquoted_open_paren fuel (quoted close l').2
          | None => if eqb b Byte.x28 then Some l' else unquoted_open_paren fuel l'
          end
      end
  | _, _ => None
  end.

Definition is_ascii_whitespace (b : Byte.byte) : bool := existsb (eqb b) [Byte.x09; Byte.x0a; Byte.x0c; Byte.x0d; Byte.x20].
Fixpoint trim_ascii_start l : bytes :=
  match l with b :: l' => if is_ascii_whitespace b then trim_ascii_start l' else l | [] => [] end.
Definition trim_ascii l : bytes := rev (trim_ascii_start (rev (trim_ascii_start l))).

(** The text before and after the first equals sign outside quotes and parentheses. *)
Fixpoint unquoted_equal (fuel depth : nat) (before : bytes) l : option (bytes * bytes) :=
  match fuel, l with
  | S fuel, b :: l' =>
      match closing b with
      | Some close => let '(t, rest) := quoted close l' in unquoted_equal fuel depth (before ++ b :: t) rest
      | None =>
          if eqb b Byte.x28 then unquoted_equal fuel (S depth) (before ++ [b]) l'
          else if eqb b Byte.x29 then unquoted_equal fuel (pred depth) (before ++ [b]) l'
          else if eqb b Byte.x3d && (depth =? 0)%nat then Some (before, l')
          else unquoted_equal fuel depth (before ++ [b]) l'
      end
  | _, _ => None
  end.

(** The loop up to the last byte, the closing quote. *)
Fixpoint undouble (close : Byte.byte) l : bytes :=
  match l with
  | b :: ((c :: l'') as l') => b :: (if eqb b close && eqb c close then undouble close l'' else undouble close l')
  | _ => []
  end.
Definition dequote_whole_sql_token token : bytes :=
  match token with
  | [] => []
  | open :: inner =>
      match closing open with
      | None => token
      | Some close =>
          if neqb (last token) (Some close) || (length token <? 2)%nat then token else undouble close inner
      end
  end.

Definition content_argument_uses_reserved_table argument : bool :=
  let argument := trim_ascii argument in
  match unquoted_equal (length argument) 0 [] argument with
  | None => false
  | Some (key, value) =>
      if negb (eq_ignore_ascii_case (dequote_whole_sql_token (trim_ascii key)) (lit "content")) then false else
      let value := dequote_whole_sql_token (trim_ascii value) in
      is_str value && reserved_table_name value
  end.

(** The loop over the arguments, at nesting [depth]. *)
Fixpoint scan_arguments (fuel depth : nat) argument l : bool :=
  match fuel, l with
  | S fuel, b :: l' =>
      match comment l with
      | Some rest => scan_arguments fuel depth (argument ++ [Byte.x20]) rest
      | None =>
          match closing b with
          | Some close => let '(t, rest) := quoted close l' in scan_arguments fuel depth (argument ++ b :: t) rest
          | None =>
              if eqb b Byte.x28 then scan_arguments fuel (S depth) (argument ++ [b]) l'
              else if eqb b Byte.x29 then
                if (depth =? 1)%nat then content_argument_uses_reserved_table argument
                else scan_arguments fuel (pred depth) (argument ++ [b]) l'
              else if eqb b Byte.x2c && (depth =? 1)%nat then
                if content_argument_uses_reserved_table argument then true else scan_arguments fuel depth [] l'
              else scan_arguments fuel depth (argument ++ [b]) l'
          end
      end
  | _, _ => content_argument_uses_reserved_table argument
  end.

Definition virtual_table_uses_reserved_content sql : bool :=
  match unquoted_open_paren (length sql) sql with
  | None => false
  | Some rest => scan_arguments (length rest) 1 [] rest
  end.

(** ** The schema after a command *)

(** A row of [sqlite_schema]. *)
Record SchemaRow : Type := mkSchemaRow { sc_type : bytes; sc_name : bytes; sc_tbl_name : bytes; sc_sql : option bytes }.

Definition sql_lower l : bytes := ascii_lower <$> l.

(** The condition of the first query. *)
Definition unexpected_row (row : SchemaRow) : bool :=
  let among l := existsb (eqb (sql_lower l)) [lit "__rhiza_meta"; lit "__rhiza_requests"] in
  let kv := lit "__rhiza_kv" in
  among (sc_name row) || among (sc_tbl_name row)
  || ((eqb (sql_lower (sc_name row)) kv || eqb (sql_lower (sc_tbl_name row)) kv)
      && negb ((eqb (sc_type row) (lit "table") && eqb (sc_name row) kv && eqb (sc_tbl_name row) kv)
               || (eqb (sc_type row) (lit "index")
                   && match strip_prefix (lit "sqlite_autoindex___rhiza_kv_") (sc_name row) with Some _ => true | None => false end
                   && eqb (sc_tbl_name row) kv))).
(** The rows of the second query. *)
Definition virtual_table_row (row : SchemaRow) : option bytes :=
  match sc_sql row with
  | Some sql =>
      if eqb (sc_type row) (lit "table")
         && match strip_prefix (lit "create virtual table") (sql_lower sql) with Some _ => true | None => false end
      then Some sql else None
  | None => None
  end.

Definition validate_reserved_schema (schema : list SchemaRow) : result SqlError () :=
  _ ← reject_if (existsb unexpected_row schema) (InvalidCommand "SQL object uses reserved rhiza namespace: {name}");
  reject_if (existsb virtual_table_uses_reserved_content (omap virtual_table_row schema))
    (InvalidCommand "SQL virtual table uses reserved rhiza content: {name}").
Definition validate_temp_schema_empty (temp_object : option bytes) : result SqlError () :=
  reject_if (match temp_object with Some _ => true | None => false end)
    (InvalidCommand "replicated SQL member left TEMP object {name} behind").
