(* ===== verification/SqlVtable.v ===== *)
(** * SqlVtable: the scanner of virtual table definitions

    A definition of a virtual table as tokens (bytes, quoted tokens, comments) and
    arguments, and the theorem that the scanner of [SqlPolicy] checks exactly the arguments of the
    definition, whatever quotes, comments and nesting its text uses. *)

From S2P Require Import Prelude Bytes Text Core SqlPages SqlPolicy.
From Stdlib Require Strings.Byte.

Implicit Types (l rest tail body argument : bytes) (b c : Byte.byte).

(** ** Fuel *)

Lemma skip_line_length l : length (skip_line l) ≤ length l.
Proof. induction l as [|b l IH]; cbn; [lia|]. destruct (eqb b _); cbn; lia. Qed.
Lemma skip_block_length l : length (skip_block l) ≤ length l.
Proof.
  induction l as [|b l IH]; [done|]. destruct l as [|c l]; [cbn; lia|].
  change (skip_block (b :: c :: l)) with (if eqb b Byte.x2a && eqb c Byte.x2f then l else skip_block (c :: l)).
  destruct (_ && _); cbn [length] in *; lia.
Qed.
Lemma comment_length l rest : comment l = Some rest → length rest < length l.
Proof.
  destruct l as [|b [|c l]]; cbn; [done..|]. pose proof (skip_line_length l). pose proof (skip_block_length l).
  destruct (_ && _); [intros [= <-]; lia|]. destruct (_ && _); [intros [= <-]; lia|done].
Qed.
(** A scan that can consume two bytes at a time. *)
Lemma two_ind (P : bytes → Prop) : P [] → (∀ b l, P l → (∀ c l', l = c :: l' → P l') → P (b :: l)) → ∀ l, P l.
Proof.
  intros H0 Hs l. assert (P l ∧ ∀ c l', l = c :: l' → P l') as [? _]; [|done].
  induction l as [|b l [IH1 IH2]]; [done|]. split; [by apply Hs|]. by intros c l' [= -> ->].
Qed.
Lemma quoted_length close l : length (quoted close l).2 ≤ length l.
Proof.
  induction l as [|b l IH IH2] using two_ind; cbn; [lia|]. destruct (eqb b close).
  - destruct l as [|c l]; [cbn; lia|]. destruct (eqb c close); [|cbn; lia].
    specialize (IH2 c l eq_refl). destruct (quoted close l). cbn in *. lia.
  - destruct (quoted close l). cbn in *. lia.
Qed.

(** The scanners end with the fuel they are given: more fuel gives the same answer. *)
Lemma scan_fuel f1 f2 depth argument l : length l ≤ f1 → length l ≤ f2 →
  scan_arguments f1 depth argument l = scan_arguments f2 depth argument l.
Proof.
  revert f2 depth argument l. induction f1 as [|f1 IH]; intros f2 depth argument l H1 H2.
  { destruct l; [by destruct f2|cbn in H1; lia]. }
  destruct l as [|b l]; [by destruct f2|]. destruct f2 as [|f2]; [cbn in H2; lia|]. cbn [length] in H1, H2. cbn [scan_arguments].
  destruct (comment (b :: l)) as [rest|] eqn:Hc.
  { apply comment_length in Hc. cbn in Hc. apply IH; lia. }
  destruct (closing b) as [close|].
  { pose proof (quoted_length close l) as Hq. destruct (quoted close l) as [t rest]. cbn in Hq. apply IH; lia. }
  destruct (eqb b _); [apply IH; lia|]. destruct (eqb b _); [destruct (depth =? 1); [done|apply IH; lia]|].
  destruct (_ && _); [destruct (content_argument_uses_reserved_table _); [done|]|]; apply IH; lia.
Qed.
Lemma paren_fuel f1 f2 l : length l ≤ f1 → length l ≤ f2 → unquoted_open_paren f1 l = unquoted_open_paren f2 l.
Proof.
  revert f2 l. induction f1 as [|f1 IH]; intros f2 l H1 H2.
  { destruct l; [by destruct f2|cbn in H1; lia]. }
  destruct l as [|b l]; [by destruct f2|]. destruct f2 as [|f2]; [cbn in H2; lia|]. cbn [length] in H1, H2. cbn [unquoted_open_paren].
  destruct (comment (b :: l)) as [rest|] eqn:Hc.
  { apply comment_length in Hc. cbn in Hc. apply IH; lia. }
  destruct (closing b) as [close|].
  { pose proof (quoted_length close l) as Hq. apply IH; lia. }
  destruct (eqb b _); [done|]. apply IH; lia.
Qed.

Definition scan (depth : nat) argument l : bool := scan_arguments (length l) depth argument l.
Definition open_paren l : option bytes := unquoted_open_paren (length l) l.

(** ** Tokens *)

Inductive token : Type :=
| TByte (b : Byte.byte) | TQuote (open : Byte.byte) (body : bytes) | TLine (body : bytes) | TBlock (body : bytes).
Implicit Types (t : token) (ts : list token) (args : list (list token)).

Definition close_of (open : Byte.byte) : Byte.byte := match closing open with Some close => close | None => open end.
(** Closing quotes inside are doubled. *)
Definition doubled (close : Byte.byte) body : bytes := body ≫= λ b, if eqb b close then [b; b] else [b].

Definition render_token t : bytes :=
  match t with
  | TByte b => [b]
  | TQuote open body => open :: doubled (close_of open) body ++ [close_of open]
  | TLine body => Byte.x2d :: Byte.x2d :: body ++ [Byte.x0a]
  | TBlock body => Byte.x2f :: Byte.x2a :: body ++ [Byte.x2a; Byte.x2f]
  end.
Definition render ts : bytes := ts ≫= render_token.
(** The bytes of an argument: a comment is a space. *)
Definition meaning_token t : bytes :=
  match t with TLine _ => [Byte.x20; Byte.x0a] | TBlock _ => [Byte.x20] | _ => render_token t end.
Definition meaning ts : bytes := ts ≫= meaning_token.

Fixpoint ends_block l : bool :=
  match l with b :: ((c :: _) as l') => (eqb b Byte.x2a && eqb c Byte.x2f) || ends_block l' | _ => false end.

(** A token is read as itself before the text [rest]. *)
Definition token_ok t rest : Prop :=
  match t with
  | TByte b => closing b = None ∧ comment (b :: rest) = None
  | TQuote open _ => is_Some (closing open) ∧ head rest ≠ Some (close_of open)
  | TLine body => forallb (neqb Byte.x0a) body = true
  | TBlock body => ends_block body = false
  end.
Fixpoint tokens_ok ts tail : Prop :=
  match ts with [] => True | t :: ts => token_ok t (render ts ++ tail) ∧ tokens_ok ts tail end.

(** The nesting after the tokens; an argument ends at a comma or a closing parenthesis of its own level. *)
Fixpoint nested (depth : nat) ts : option nat :=
  match ts with
  | [] => Some depth
  | TByte b :: ts =>
      if eqb b Byte.x28 then nested (S depth) ts
      else if eqb b Byte.x29 then match depth with 0 => None | S depth => nested depth ts end
      else if eqb b Byte.x2c && (depth =? 0)%nat then None
      else nested depth ts
  | _ :: ts => nested depth ts
  end.

Lemma quoted_doubled close body rest : head rest ≠ Some close →
  quoted close (doubled close body ++ close :: rest) = (doubled close body ++ [close], rest).
Proof.
  intros Hh. induction body as [|b body IH].
  - cbn. rewrite eqb_refl. destruct rest as [|c rest]; [done|]. cbn in Hh. rewrite (proj2 (eqb_false c close)); [done|congruence].
  - change (doubled close (b :: body)) with ((if eqb b close then [b; b] else [b]) ++ doubled close body).
    destruct (eqb b close) eqn:Hb; cbn [app quoted]; rewrite Hb, IH; done.
Qed.
Lemma skip_line_body body rest : forallb (neqb Byte.x0a) body = true → skip_line (body ++ Byte.x0a :: rest) = Byte.x0a :: rest.
Proof.
  induction body as [|b body IH]; cbn [app skip_line forallb]; [done|]. intros [Hb Hn]%andb_true_iff.
  rewrite (proj2 (eqb_false _ _)); [by apply IH|]. intros ->. by vm_compute in Hb.
Qed.
Lemma skip_block_body body rest : ends_block body = false → skip_block (body ++ Byte.x2a :: Byte.x2f :: rest) = rest.
Proof.
  induction body as [|b body IH]; [done|]. destruct body as [|c body]; intros He.
  - cbn [app skip_block]. by rewrite andb_false_r.
  - cbn [ends_block] in He. rewrite orb_false_iff in He. destruct He as [Hb He].
    change ((if eqb b Byte.x2a && eqb c Byte.x2f then body ++ Byte.x2a :: Byte.x2f :: rest
      else skip_block ((c :: body) ++ Byte.x2a :: Byte.x2f :: rest)) = rest). rewrite Hb. by apply IH.
Qed.
Lemma comment_line body rest : forallb (neqb Byte.x0a) body = true →
  comment (Byte.x2d :: Byte.x2d :: body ++ Byte.x0a :: rest) = Some (Byte.x0a :: rest).
Proof.
  intros Hb. cbn [comment]. change (eqb Byte.x2d Byte.x2d && eqb Byte.x2d Byte.x2d) with true. by rewrite skip_line_body.
Qed.
Lemma comment_block body rest : ends_block body = false →
  comment (Byte.x2f :: Byte.x2a :: body ++ Byte.x2a :: Byte.x2f :: rest) = Some rest.
Proof.
  intros Hb. cbn [comment]. change (eqb Byte.x2f Byte.x2d && eqb Byte.x2a Byte.x2d) with false.
  change (eqb Byte.x2f Byte.x2f && eqb Byte.x2a Byte.x2a) with true. by rewrite skip_block_body.
Qed.
Lemma comment_plain b rest : eqb b Byte.x2d = false → eqb b Byte.x2f = false → comment (b :: rest) = None.
Proof. intros Hd Hs. destruct rest as [|c rest]; cbn [comment]; [done|]. by rewrite Hd, Hs. Qed.
Lemma closing_comment b rest : is_Some (closing b) → comment (b :: rest) = None.
Proof.
  unfold closing. intros Hc. apply comment_plain; rewrite eqb_false; intros ->; by destruct Hc.
Qed.

(** ** The scan of an argument list *)

Lemma scan_comment depth argument l rest : comment l = Some rest → scan depth argument l = scan depth (argument ++ [Byte.x20]) rest.
Proof.
  intros Hc. unfold scan at 1. destruct l as [|b l]; [done|]. cbn [length scan_arguments]. rewrite Hc.
  apply comment_length in Hc. cbn in Hc. apply scan_fuel; lia.
Qed.
Lemma scan_quote depth argument b close l text rest : closing b = Some close → quoted close l = (text, rest) →
  scan depth argument (b :: l) = scan depth (argument ++ b :: text) rest.
Proof.
  intros Hc Hq. unfold scan at 1. cbn [length scan_arguments]. rewrite closing_comment, Hc, Hq by eauto.
  pose proof (quoted_length close l) as Hl. rewrite Hq in Hl. apply scan_fuel; cbn in Hl; lia.
Qed.
Lemma scan_byte depth argument b l : closing b = None → comment (b :: l) = None →
  scan depth argument (b :: l) =
    if eqb b Byte.x28 then scan (S depth) (argument ++ [b]) l
    else if eqb b Byte.x29 then
      if (depth =? 1)%nat then content_argument_uses_reserved_table argument else scan (pred depth) (argument ++ [b]) l
    else if eqb b Byte.x2c && (depth =? 1)%nat then
      if content_argument_uses_reserved_table argument then true else scan depth [] l
    else scan depth (argument ++ [b]) l.
Proof. intros Hc Hm. unfold scan at 1. cbn [length scan_arguments]. by rewrite Hm, Hc. Qed.

Lemma scan_tokens ts depth depth' argument tail :
  tokens_ok ts tail → nested depth ts = Some depth' →
  scan (S depth) argument (render ts ++ tail) = scan (S depth') (argument ++ meaning ts) tail.
Proof.
  revert depth argument. induction ts as [|t ts IH]; intros depth argument Hok Hn.
  { injection Hn as ->. by rewrite app_nil_r. }
  destruct Hok as [Ht Hok].
  change (render (t :: ts)) with (render_token t ++ render ts). change (meaning (t :: ts)) with (meaning_token t ++ meaning ts).
  rewrite <- app_assoc, (app_assoc argument). destruct t as [b|open body|body|body]; cbn [token_ok nested] in Ht, Hn.
  - destruct Ht as [Hc Hm]. cbn [render_token meaning_token app]. rewrite scan_byte by done.
    destruct (eqb b Byte.x28); [by apply IH|]. destruct (eqb b Byte.x29).
    + destruct depth as [|depth]; [done|]. by apply IH.
    + change (S depth =? 1)%nat with (depth =? 0)%nat. destruct (_ && _); [done|]. by apply IH.
  - destruct Ht as [[close Hc] Hh]. unfold close_of in Hh. rewrite Hc in Hh. cbn in Hh.
    cbn [render_token meaning_token]. unfold close_of. rewrite Hc. cbn [app]. rewrite <- app_assoc.
    rewrite (scan_quote _ _ _ close _ _ _ Hc (quoted_doubled _ _ _ Hh)). by apply IH.
  - cbn [render_token meaning_token app]. rewrite <- app_assoc. cbn [app].
    rewrite (scan_comment _ _ _ (Byte.x0a :: render ts ++ tail)).
    + rewrite scan_byte by (done || apply comment_plain; done). change (eqb Byte.x0a Byte.x28) with false. change (eqb Byte.x0a Byte.x29) with false.
      change (eqb Byte.x0a Byte.x2c) with false. cbn [andb]. rewrite <- app_assoc. by apply IH.
    + by apply comment_line.
  - cbn [render_token meaning_token app]. rewrite <- app_assoc. cbn [app].
    rewrite (scan_comment _ _ _ (render ts ++ tail)); [by apply IH|].
    by apply comment_block.
Qed.

(** The arguments from [arg] on, and what follows them. *)
Fixpoint render_arguments (arg : list token) args tail : bytes :=
  render arg ++ match args with [] => Byte.x29 :: tail | arg' :: args => Byte.x2c :: render_arguments arg' args tail end.
Fixpoint arguments_ok (arg : list token) args tail : Prop :=
  nested 0 arg = Some 0 ∧
  match args with
  | [] => tokens_ok arg (Byte.x29 :: tail)
  | arg' :: args => tokens_ok arg (Byte.x2c :: render_arguments arg' args tail) ∧ arguments_ok arg' args tail
  end.

Lemma scan_all arg args tail : arguments_ok arg args tail →
  scan 1 [] (render_arguments arg args tail) = existsb content_argument_uses_reserved_table (meaning <$> arg :: args).
Proof.
  revert arg. induction args as [|arg' args IH]; intros arg [Hn Hok]; cbn [render_arguments fmap list_fmap existsb].
  - rewrite (scan_tokens arg 0 0) by done. rewrite scan_byte by (done || by apply comment_plain).
    change (eqb Byte.x29 Byte.x28) with false. change (eqb Byte.x29 Byte.x29) with true. cbn. by rewrite orb_false_r.
  - destruct Hok as [Hok Hrest]. rewrite (scan_tokens arg 0 0) by done. rewrite scan_byte by (done || by apply comment_plain).
    change (eqb Byte.x2c Byte.x28) with false. change (eqb Byte.x2c Byte.x29) with false.
    change (eqb Byte.x2c Byte.x2c) with true. cbn [andb Nat.eqb app]. rewrite IH by done.
    by destruct (content_argument_uses_reserved_table (meaning arg)).
Qed.

(** The text before the arguments has no open parenthesis of its own. *)
Definition no_paren t : bool := match t with TByte b => neqb b Byte.x28 | _ => true end.

Lemma open_comment l rest : comment l = Some rest → open_paren l = open_paren rest.
Proof.
  intros Hc. unfold open_paren at 1. destruct l as [|b l]; [done|]. cbn [length unquoted_open_paren]. rewrite Hc.
  apply comment_length in Hc. cbn in Hc. apply paren_fuel; lia.
Qed.
Lemma open_quote b close l : closing b = Some close → open_paren (b :: l) = open_paren (quoted close l).2.
Proof.
  intros Hc. unfold open_paren at 1. cbn [length unquoted_open_paren]. rewrite closing_comment, Hc by eauto.
  pose proof (quoted_length close l) as Hl. apply paren_fuel; lia.
Qed.
Lemma open_byte b l : closing b = None → comment (b :: l) = None →
  open_paren (b :: l) = if eqb b Byte.x28 then Some l else open_paren l.
Proof. intros Hc Hm. unfold open_paren at 1. cbn [length unquoted_open_paren]. by rewrite Hm, Hc. Qed.

Lemma open_tokens ts tail : tokens_ok ts (Byte.x28 :: tail) → forallb no_paren ts = true →
  open_paren (render ts ++ Byte.x28 :: tail) = Some tail.
Proof.
  induction ts as [|t ts IH]; intros Hok Hp.
  { cbn [render mbind list_bind app]. by rewrite open_byte by (done || by apply comment_plain). }
  destruct Hok as [Ht Hok]. cbn [forallb] in Hp. apply andb_true_iff in Hp as [Hp Hps]. specialize (IH Hok Hps).
  change (render (t :: ts)) with (render_token t ++ render ts). rewrite <- app_assoc.
  destruct t as [b|open body|body|body]; cbn [token_ok no_paren] in Ht, Hp.
  - destruct Ht as [Hc Hm]. cbn [render_token app]. rewrite open_byte by done. unfold neqb in Hp.
    by destruct (eqb b Byte.x28).
  - destruct Ht as [[close Hc] Hh]. unfold close_of in Hh. rewrite Hc in Hh. cbn in Hh.
    cbn [render_token]. unfold close_of. rewrite Hc. cbn [app]. rewrite <- app_assoc.
    cbn [app].
    by rewrite (open_quote _ close _ Hc), quoted_doubled.
  - cbn [render_token app]. rewrite <- app_assoc. cbn [app]. rewrite (open_comment _ (Byte.x0a :: render ts ++ Byte.x28 :: tail)).
    + rewrite open_byte by (done || by apply comment_plain). done.
    + by apply comment_line.
  - cbn [render_token app]. rewrite <- app_assoc. cbn [app]. rewrite (open_comment _ (render ts ++ Byte.x28 :: tail)); [done|].
    by apply comment_block.
Qed.

(** ** The spelling of an argument *)

Definition word_byte (b : Byte.byte) : bool := in_range b 65 90 || in_range b 97 122 || eqb b Byte.x5f.
Definition blank l : bool := forallb is_ascii_whitespace l.
(** A word, bare or between quotes. *)
Definition spell (quote : option Byte.byte) word : bytes :=
  match quote with None => word | Some open => open :: word ++ [close_of open] end.
Definition quote_ok (quote : option Byte.byte) : bool :=
  match quote with None => true | Some open => if closing open then true else false end.

(** An end of a token that trimming keeps. *)
Definition edge l : bool := match l with b :: _ => negb (is_ascii_whitespace b) | [] => false end.

Lemma word_lower l : forallb word_byte (ascii_lower <$> l) = forallb word_byte l.
Proof. induction l as [|b l IH]; cbn [fmap list_fmap forallb]; [done|]. rewrite IH. f_equal. by destruct b. Qed.
Lemma word_ignore_case l l' : eq_ignore_ascii_case l l' = true → forallb word_byte l' = true → forallb word_byte l = true.
Proof. unfold eq_ignore_ascii_case. rewrite eqb_true. intros He Hl. by rewrite <- word_lower, He, word_lower. Qed.
Lemma reserved_word name : reserved_table_name name = true → forallb word_byte name = true.
Proof.
  unfold reserved_table_name, matches_ignore_ascii_case. rewrite existsb_exists. intros [t [Ht He]].
  apply (word_ignore_case _ _ He). by repeat destruct Ht as [<-|Ht].
Qed.
Lemma word_str l : forallb word_byte l = true → is_str l = true.
Proof.
  intros Hl. apply is_str_ascii. rewrite forallb_forall in *. intros b Hb. specialize (Hl b Hb). by destruct b.
Qed.

Lemma trim_start_blank l rest : blank l = true → trim_ascii_start (l ++ rest) = trim_ascii_start rest.
Proof. induction l as [|b l IH]; cbn; [done|]. intros [-> Hl]%andb_true_iff. by apply IH. Qed.
Lemma trim_start_edge l : edge l = true → trim_ascii_start l = l.
Proof. destruct l as [|b l]; cbn; [done|]. by intros ->%negb_true_iff. Qed.
Lemma trim_tight l m r : blank l = true → blank r = true → edge m = true → edge (rev m) = true → trim_ascii (l ++ m ++ r) = m.
Proof.
  intros Hl Hr Hm Hm'. unfold trim_ascii. rewrite trim_start_blank by done.
  rewrite (trim_start_edge (m ++ r)) by (destruct m; done). rewrite rev_app_distr, trim_start_blank.
  - by rewrite trim_start_edge, rev_involutive.
  - unfold blank in *. rewrite forallb_forall in *. intros b Hb. apply Hr. by rewrite in_rev.
Qed.

Definition plain_byte (b : Byte.byte) : bool :=
  (if closing b then false else true) && neqb b Byte.x28 && neqb b Byte.x29 && neqb b Byte.x3d.

Lemma word_plain b : word_byte b = true → plain_byte b = true ∧ is_ascii_whitespace b = false.
Proof. by destruct b. Qed.
Lemma blank_plain b : is_ascii_whitespace b = true → plain_byte b = true.
Proof. by destruct b. Qed.
Lemma plain_closing b : plain_byte b = true → closing b = None.
Proof. unfold plain_byte. by destruct (closing b). Qed.
Lemma closing_edge b c : closing b = Some c →
  is_ascii_whitespace b = false ∧ is_ascii_whitespace c = false ∧ word_byte c = false ∧ eqb Byte.x3d c = false.
Proof. destruct b; (discriminate || by intros [= <-]). Qed.
Lemma doubled_word close word : word_byte close = false → forallb word_byte word = true → doubled close word = word.
Proof.
  intros Hc. induction word as [|b word IH]; [done|]. intros [Hb Hw]%andb_true_iff.
  change (doubled close (b :: word)) with ((if eqb b close then [b; b] else [b]) ++ doubled close word).
  rewrite (proj2 (eqb_false b close)) by congruence. by rewrite IH.
Qed.

Lemma spell_edges quote word : quote_ok quote = true → word ≠ [] → forallb word_byte word = true →
  edge (spell quote word) = true ∧ edge (rev (spell quote word)) = true.
Proof.
  intros Hq Hne Hw. rewrite forallb_forall in Hw. destruct quote as [open|]; cbn [quote_ok spell] in *.
  - unfold close_of. destruct (closing open) as [c|] eqn:Hc; [|done]. apply closing_edge in Hc as (Ho & Hc & _).
    cbn [edge rev].
    rewrite Ho, rev_app_distr. change (rev [c]) with [c]. cbn [app edge]. by rewrite Hc.
  - split.
    + destruct word as [|b word]; [done|]. cbn [edge]. destruct (word_plain b) as [_ ->]; [apply Hw; by left|done].
    + destruct (rev word) as [|b r] eqn:Hr; [destruct word; [done|]; cbn in Hr; by destruct (rev word)|].
      cbn [edge]. destruct (word_plain b) as [_ ->]; [|done]. apply Hw. rewrite in_rev, Hr. by left.
Qed.
Lemma undouble_word close word : word_byte close = false → forallb word_byte word = true → undouble close (word ++ [close]) = word.
Proof.
  intros Hc. induction word as [|b word IH]; [done|]. intros [Hb Hw]%andb_true_iff. specialize (IH Hw).
  assert (eqb b close = false) as Hn by (rewrite eqb_false; congruence).
  cbn [app undouble]. destruct (word ++ [close]) as [|c l] eqn:Hl; [by destruct word|]. rewrite Hn. cbn [andb]. by rewrite IH.
Qed.
Lemma dequote_spell quote word : quote_ok quote = true → forallb word_byte word = true →
  dequote_whole_sql_token (spell quote word) = word.
Proof.
  intros Hq Hw. destruct quote as [open|]; cbn in Hq |- *.
  - unfold close_of. destruct (closing open) as [c|] eqn:Hc; [|done]. apply closing_edge in Hc as (_ & _ & Hc & _). cbn [app].
    rewrite app_comm_cons, last_snoc, neqb_refl. rewrite length_app, Nat.add_comm. cbn [orb length Nat.add Nat.ltb Nat.leb].
    by apply undouble_word.
  - destruct word as [|b word]; [done|]. cbn in Hw |- *. apply andb_true_iff in Hw as [Hb _].
    by rewrite (plain_closing b) by apply (word_plain b Hb).
Qed.

Lemma equal_plain l fuel before rest : forallb plain_byte l = true → length (l ++ rest) ≤ fuel →
  unquoted_equal fuel 0 before (l ++ rest) = unquoted_equal (fuel - length l) 0 (before ++ l) rest.
Proof.
  revert fuel before. induction l as [|b l IH]; intros fuel before Hl Hf; [by rewrite Nat.sub_0_r, app_nil_r|].
  cbn [forallb] in Hl. apply andb_true_iff in Hl as [Hb Hl]. destruct fuel as [|fuel]; [cbn in Hf; lia|].
  cbn [app unquoted_equal length Nat.sub]. rewrite (plain_closing b Hb).
  unfold plain_byte, neqb in Hb. rewrite !andb_true_iff, !negb_true_iff in Hb. destruct Hb as [[[_ ->] ->] ->]. cbn [andb].
  rewrite IH by (done || (cbn in Hf; lia)). by rewrite <- app_assoc.
Qed.
Lemma equal_key quote key gap rest fuel : quote_ok quote = true → forallb word_byte key = true → blank gap = true →
  length (spell quote key ++ gap ++ Byte.x3d :: rest) ≤ fuel →
  unquoted_equal fuel 0 [] (spell quote key ++ gap ++ Byte.x3d :: rest) = Some (spell quote key ++ gap, rest).
Proof.
  intros Hq Hk Hg Hf.
  assert (forallb plain_byte gap = true) as Hgp.
  { unfold blank in Hg. rewrite forallb_forall in *. intros b Hb. by apply blank_plain, Hg. }
  destruct quote as [open|].
  - cbn [spell quote_ok app] in *. unfold close_of in *. destruct (closing open) as [c|] eqn:Hc; [|done]. cbn [app] in *.
    destruct fuel as [|fuel]; [cbn in Hf; lia|]. cbn [unquoted_equal]. rewrite Hc. apply closing_edge in Hc as (_ & Hcw & Hcb & Hce).
    assert (head (gap ++ Byte.x3d :: rest) ≠ Some c) as Hh.
    { destruct gap as [|g gap]; cbn [app head]; intros Hs; injection Hs as Hs; subst.
      { by rewrite eqb_refl in Hce. }
      unfold blank in Hg. cbn [forallb] in Hg. by rewrite Hcw in Hg. }
    pose proof (quoted_doubled c key _ Hh) as Hqd. rewrite doubled_word in Hqd by done.
    rewrite <- app_assoc. cbn [app]. rewrite Hqd.
    cbn [app]. rewrite equal_plain; [|done|].
    2:{ cbn [length] in Hf. rewrite !length_app in *. cbn in *. lia. }
    destruct (fuel - length gap) eqn:Hfl.
    { cbn [length] in Hf. rewrite !length_app in Hf. cbn in Hf. lia. }
    cbn [unquoted_equal]. change (closing Byte.x3d) with (@None Byte.byte). reflexivity.
  - cbn [spell] in *. rewrite app_assoc, equal_plain.
    + destruct (fuel - length (key ++ gap)) eqn:Hfl; [rewrite !length_app in *; cbn in Hf; lia|]. reflexivity.
    + rewrite forallb_app, Hgp, andb_true_r. rewrite forallb_forall in *. intros b Hb. by apply word_plain, Hk.
    + by rewrite <- app_assoc.
Qed.

(** An argument that makes a reserved table the content of the virtual table: the key [content] in
    any case, and a reserved name in any case, each bare or quoted, with blanks around them. *)
Definition names_reserved argument : Prop :=
  ∃ before quote key after before' quote' name after',
    argument = before ++ spell quote key ++ after ++ Byte.x3d :: before' ++ spell quote' name ++ after'
    ∧ forallb blank [before; after; before'; after'] = true ∧ quote_ok quote = true ∧ quote_ok quote' = true
    ∧ eq_ignore_ascii_case key (lit "content") = true ∧ reserved_table_name name = true.

Lemma edge_app m r : edge m = true → edge (m ++ r) = true.
Proof. by destruct m. Qed.
Lemma names_reserved_found argument : names_reserved argument → content_argument_uses_reserved_table argument = true.
Proof.
  intros (before & quote & key & after & before' & quote' & name & after' & -> & Hb & Hq & Hq' & Hk & Hn).
  cbn [forallb] in Hb. rewrite !andb_true_iff in Hb. destruct Hb as (Hb1 & Hb2 & Hb3 & Hb4 & _).
  assert (forallb word_byte key = true) as Hkw by (by apply (word_ignore_case _ _ Hk)).
  assert (key ≠ []) as Hke by (by intros ->). assert (name ≠ []) as Hne by (by intros ->).
  pose proof (reserved_word _ Hn) as Hnw.
  destruct (spell_edges quote key) as [He1 He2]; [done..|]. destruct (spell_edges quote' name) as [He3 He4]; [done..|].
  unfold content_argument_uses_reserved_table.
  replace (before ++ _) with (before ++ (spell quote key ++ after ++ Byte.x3d :: before' ++ spell quote' name) ++ after')
    by (by rewrite <- !app_assoc; cbn [app]; rewrite <- !app_assoc).
  rewrite trim_tight; [|done|done|by apply edge_app|].
  2:{ rewrite !rev_app_distr. cbn [rev]. rewrite rev_app_distr, <- !app_assoc. by apply edge_app. }
  rewrite equal_key by done. pose proof (trim_tight [] (spell quote key) after) as Ht. cbn [app] in Ht. rewrite Ht by done.
  rewrite dequote_spell, Hk by done. cbn [negb].
  pose proof (trim_tight before' (spell quote' name) []) as Ht'. rewrite app_nil_r in Ht'. rewrite Ht', dequote_spell by done.
  by rewrite (word_str _ Hnw), Hn.
Qed.

Definition virtual_table_definition (pre : list token) (arg : list token) args tail : bytes :=
  render pre ++ Byte.x28 :: render_arguments arg args tail.

(** C18. The check of virtual tables reads a definition argument by argument: whatever quotes,
    comments and nested parentheses the text uses, it tests exactly the arguments of the definition,
    with each comment read as a space, and nothing before the first parenthesis or after the closing
    one.  So no spelling hides a reserved table: a schema with a virtual table whose arguments name
    one as their [content], in any case, bare or quoted, is rejected. *)
Theorem reserved_content_rejected schema row pre arg args tail :
  tokens_ok pre (Byte.x28 :: render_arguments arg args tail) → forallb no_paren pre = true → arguments_ok arg args tail →
  let sql := virtual_table_definition pre arg args tail in
  virtual_table_uses_reserved_content sql = existsb content_argument_uses_reserved_table (meaning <$> arg :: args)
  ∧ (row ∈ schema → virtual_table_row row = Some sql → Exists names_reserved (meaning <$> arg :: args) →
     ∃ e, validate_reserved_schema schema = Err e).
Proof.
  intros Hpre Hp Hok. cbv zeta.
  assert (virtual_table_uses_reserved_content (virtual_table_definition pre arg args tail)
    = existsb content_argument_uses_reserved_table (meaning <$> arg :: args)) as Heq.
  { unfold virtual_table_uses_reserved_content. fold (open_paren (virtual_table_definition pre arg args tail)).
    unfold virtual_table_definition. rewrite open_tokens by done. by apply scan_all. }
  split; [done|]. intros Hin Hrow Hex. unfold validate_reserved_schema.
  destruct (existsb unexpected_row schema); cbn; [by eexists|].
  assert (existsb virtual_table_uses_reserved_content (omap virtual_table_row schema) = true) as ->; [|by eexists].
  apply existsb_exists. exists (virtual_table_definition pre arg args tail).
  split; [apply list_elem_of_In, list_elem_of_omap; by exists row|].
  rewrite Heq. apply existsb_exists. apply Exists_exists in Hex as (l & Hl & Hr).
  exists l. split; [by apply list_elem_of_In|by apply names_reserved_found].
Qed.

(** [CREATE VIRTUAL TABLE x USING fts5(prefix=(a,b), CoNtEnT /* option */ = '__rhiza_KV')] *)
Definition hidden_prefix : list token := TByte <$> lit "CREATE VIRTUAL TABLE x USING fts5".
Definition hidden_first : list token := TByte <$> lit "prefix=(a,b)".
Definition hidden_content : list token :=
  (TByte <$> lit " CoNtEnT ") ++ [TBlock (lit " option ")] ++ (TByte <$> lit " = ") ++ [TQuote Byte.x27 (lit "__rhiza_KV")].
Definition hidden_row : SchemaRow :=
  mkSchemaRow (lit "table") (lit "x") (lit "x") (Some (virtual_table_definition hidden_prefix hidden_first [hidden_content] [])).

Lemma reserved_content_witness :
  virtual_table_uses_reserved_content (virtual_table_definition hidden_prefix hidden_first [hidden_content] []) = true
  ∧ ∃ e, validate_reserved_schema [hidden_row] = Err e.
Proof.
  pose proof (reserved_content_rejected [hidden_row] hidden_row hidden_prefix hidden_first [hidden_content] []) as Ht.
  destruct Ht as [Ht1 Ht2].
  - by repeat split.
  - reflexivity.
  - by repeat split; try eexists.
  - split; [rewrite Ht1; vm_compute; reflexivity|]. apply Ht2; [by left|reflexivity|].
    right. left. exists (lit " "), None, (lit "CoNtEnT"), (lit "   "), (lit " "), (Some Byte.x27), (lit "__rhiza_KV"), [].
    by repeat split.
Defined.
