(* ===== verification/SqlExecute.v ===== *)
(** * SqlExecute: running SQL on a connection

    Models the execution of statements and queries of [crates/rhiza-sql/src/lib.rs] with their limits,
    over SQLite as a parameter ([SqliteEngine]): what it does with one statement. *)

From S2P Require Import Prelude Bytes Text Core SqlPages Qwal SqlCommand SqlPolicy.
From Stdlib Require Strings.Byte.

(** An error of rusqlite, as far as the code looks into it. *)
Inductive RusqliteError : Type := OperationInterrupted | OtherSqliteError.
Inductive ValueRef : Type := RefNull | RefInteger (value : Z) | RefReal (bits : N) | RefText (value : bytes) | RefBlob (value : bytes).
Record PreparedStatement : Type := mkPreparedStatement { ps_columns : list bytes; ps_readonly : bool }.

(** SQLite.  A connection is opened on the bytes of a closed database; what is written through it stays in
    it, and in the [-wal] file beside the database ([staging_wal]).  [set_wal_mode] asks for a write-ahead log and gives the journal mode
    that holds.  A statement is prepared under an authorizer, which it
    asks about the actions of the statement; a query returns its rows up to the end or to an
    error.  [total_changes] and [changes] are SQLite's counters.  [fresh_database] is the database that the statements of [create_new] make,
    [execute_put] the statement of a put and [kv_lookup] the one of a read of a key. *)
Class SqliteEngine : Type := {
  Connection : Type;
  sqlite_connect : bytes → result RusqliteError Connection;
  set_wal_mode : Connection → result RusqliteError bytes;
  pragma_update : Connection → bytes → bytes → result RusqliteError Connection;
  sqlite_prepare : (AuthContext → Authorization) → Connection → bytes → result RusqliteError PreparedStatement;
  sqlite_execute : Connection → bytes → list SqlValue → result RusqliteError Connection;
  sqlite_query : Connection → bytes → list SqlValue → result RusqliteError (list (result RusqliteError (list ValueRef)) * Connection);
  total_changes : Connection → N;
  changes : Connection → N;
  temp_object : Connection → result SqlError (option bytes);
  schema_rows : Connection → result SqlError (list SchemaRow);
  integrity_messages : Connection → result RusqliteError (list bytes);
  fresh_database : result SqlError bytes;
  execute_put : Connection → bytes → bytes → result SqlError Connection;
  kv_lookup : Connection → bytes → result SqlError (option bytes);
  staging_wal : Connection → option bytes
}.

Definition sqlite_error (error : RusqliteError) : SqlError := SqliteError "{error}".
Definition sql_query_error (error : RusqliteError) : SqlError :=
  match error with
  | OperationInterrupted => ResourceExhausted "SQL query execution timed out"
  | OtherSqliteError => sqlite_error error
  end.

Definition sql_value (value : ValueRef) : result SqlError SqlValue :=
  match value with
  | RefNull => Ok SqlNull
  | RefInteger value => Ok (SqlInteger value)
  | RefReal bits => if is_finite bits then Ok (SqlReal bits) else Err (InvalidCommand "SQL real result must be finite")
  | RefText value => v ← from_utf8 value (InvalidCommand "SQL TEXT result is not valid UTF-8"); Ok (SqlText v)
  | RefBlob value => Ok (SqlBlob value)
  end.

Section execute.
Context `{SqliteEngine}.

(** [open_connection]; [sqlite_open] keeps only whether it succeeds. *)
Definition sql_connect (file : bytes) : result SqlError Connection :=
  conn ← map_err sqlite_error (sqlite_connect file);
  journal_mode ← map_err sqlite_error (set_wal_mode conn);
  _ ← reject_if (negb (eq_ignore_ascii_case journal_mode (lit "wal"))) (SqliteError "SQLite refused WAL journal mode: {journal_mode}");
  try_fold (λ conn setting, map_err sqlite_error (pragma_update conn setting.1 setting.2)) conn
    [(lit "synchronous", lit "OFF"); (lit "foreign_keys", lit "ON"); (lit "trusted_schema", lit "OFF"); (lit "wal_autocheckpoint", lit "0")].
Definition sqlite_open (file : bytes) : result SqlError () := _ ← sql_connect file; Ok ().

Definition integrity_check (conn : Connection) : result SqlError () :=
  messages ← map_err (λ _, InvalidSnapshot "{err}") (integrity_messages conn);
  if eqb messages [lit "ok"] then Ok ()
  else Err (InvalidSnapshot match messages with [] => "integrity_check returned no result" | _ => "{messages}" end).
(** On a connection opened read-only on the file. *)
Definition reject_legacy_user_database (file : bytes) : result SqlError () :=
  conn ← map_err sqlite_error (sqlite_connect file);
  rows ← schema_rows conn;
  reject_if (existsb (λ row, existsb (eqb (sc_name row)) [lit "__rhiza_meta"; lit "__rhiza_requests"]) rows)
    (IdentityMismatch "legacy table {table} requires snapshot bootstrap into QWAL storage").

(** ** Commands *)

(** The values of a row: their sizes are counted as they are read; a row has the columns of the statement. *)
Definition read_value (row : list ValueRef) (acc : list SqlValue * N) (column : nat) : result SqlError (list SqlValue * N) :=
  let '(values, returning_bytes) := acc in
  cell ← ok_or (row !! column) (SqliteError "{error}");
  value ← sql_value cell;
  returning_bytes ← add_returning_bytes returning_bytes (sql_value_size value);
  Ok (values ++ [value], returning_bytes).

Definition read_row (column_count : nat) (acc : list (list SqlValue) * N * N) (row : result RusqliteError (list ValueRef)) :
    result SqlError (list (list SqlValue) * N * N) :=
  let '(rows, returning_rows, returning_bytes) := acc in
  row ← map_err sqlite_error row;
  returning_rows ← ok_or (checked_add returning_rows 1) (InvalidCommand "SQL RETURNING row count overflow");
  _ ← reject_if (MAX_RETURNING_ROWS <? returning_rows)%N (InvalidCommand "SQL RETURNING exceeds {MAX_RETURNING_ROWS} rows");
  '(values, returning_bytes) ← try_fold (read_value row) ([], returning_bytes) (seq 0 column_count);
  Ok (rows ++ [values], returning_rows, returning_bytes).

(** The results so far, the rows and bytes returned so far, the connection. *)
Record Execution : Type := mkExecution {
  ex_results : list SqlStatementResult; ex_rows : N; ex_bytes : N; ex_conn : Connection
}.

Definition execute_statement (acc : Execution) (operation : SqlStatement) : result SqlError Execution :=
  let conn := ex_conn acc in
  statement ← map_err sqlite_error (sqlite_prepare (λ context, authorize_sql context PhysicalWrite) conn (st_sql operation));
  let total_changes_before := total_changes conn in
  '(returning, returning_rows, returning_bytes, conn) ←
    match ps_columns statement with
    | [] =>
        conn ← map_err sqlite_error (sqlite_execute conn (st_sql operation) (st_parameters operation));
        Ok (None, ex_rows acc, ex_bytes acc, conn)
    | columns =>
        returning_bytes ← try_fold (λ total column, add_returning_bytes total (blen column)) (ex_bytes acc) columns;
        '(stepped, conn) ← map_err sqlite_error (sqlite_query conn (st_sql operation) (st_parameters operation));
        '(rows, returning_rows, returning_bytes) ←
          try_fold (read_row (length columns)) ([], ex_rows acc, returning_bytes) stepped;
        Ok (Some (mkSqlQuery columns rows), returning_rows, returning_bytes, conn)
    end;
  _ ← reject_if (total_changes conn <? total_changes_before)%N (SqliteError "SQLite total_changes moved backwards");
  let rows_affected := if (total_changes conn - total_changes_before =? 0)%N then 0%N else changes conn in
  Ok (mkExecution (ex_results acc ++ [mkSqlStatement rows_affected returning]) returning_rows returning_bytes conn).

(** An error leaves the connection to the rollback of the caller. *)
Definition execute_sql_statements (conn : Connection) (statements : list SqlStatement) :
    result SqlError (SqlCommandResult * Connection) :=
  execution ← try_fold execute_statement (mkExecution [] 0 0 conn) statements;
  left_behind ← temp_object (ex_conn execution);
  _ ← validate_temp_schema_empty left_behind;
  schema ← schema_rows (ex_conn execution);
  _ ← validate_reserved_schema schema;
  Ok (mkSqlResult (ex_results execution), ex_conn execution).

(** ** Queries *)

Definition query_value (max_bytes : N) (row : list ValueRef) (acc : list SqlValue * N) (column : nat) :
    result SqlError (list SqlValue * N) :=
  let '(values, result_bytes) := acc in
  cell ← ok_or (row !! column) (sql_query_error OtherSqliteError);
  value ← sql_value cell;
  result_bytes ← ok_or (checked_add result_bytes (sql_value_size value)) (InvalidCommand "SQL result size overflow");
  _ ← reject_if (max_bytes <? result_bytes)%N (InvalidCommand "SQL query exceeds {max_bytes} result bytes");
  Ok (values ++ [value], result_bytes).

Definition query_row (max_rows max_bytes : N) (column_count : nat) (acc : list (list SqlValue) * N)
    (row : result RusqliteError (list ValueRef)) : result SqlError (list (list SqlValue) * N) :=
  let '(rows, result_bytes) := acc in
  row ← map_err sql_query_error row;
  _ ← reject_if (eqb (N.of_nat (length rows)) max_rows) (InvalidCommand "SQL query exceeds {max_rows} rows");
  '(values, result_bytes) ← try_fold (query_value max_bytes row) ([], result_bytes) (seq 0 column_count);
  Ok (rows ++ [values], result_bytes).

(** The query on the canonical connection; a deadline that passes shows as [OperationInterrupted]. *)
Definition run_query (conn : Connection) (query : SqlStatement) (max_rows max_bytes : N) : result SqlError SqlQueryResult :=
  statement ← map_err sql_query_error (sqlite_prepare (λ context, authorize_sql context ReadOnly) conn (st_sql query));
  _ ← reject_if (negb (ps_readonly statement)) (InvalidCommand "SQL query must be read-only");
  let columns := ps_columns statement in
  '(stepped, _) ← map_err sql_query_error (sqlite_query conn (st_sql query) (st_parameters query));
  let result_bytes := foldl (λ total column, total + blen column)%N 0%N columns in
  '(rows, _) ← try_fold (query_row max_rows max_bytes (length columns)) ([], result_bytes) stepped;
  Ok (mkSqlQuery columns rows).
End execute.

(** ** Limits *)

Section limits.
Context `{SqliteEngine}.

Lemma read_values row columns (values0 values : list SqlValue) (total0 total1 total : N) :
  try_fold (read_value row) (values0, total1) columns = Ok (values, total) →
  try_fold (λ total value, add_returning_bytes total (sql_value_size value)) total0 values0 = Ok total1 →
  try_fold (λ total value, add_returning_bytes total (sql_value_size value)) total0 values = Ok total
  ∧ length values = length values0 + length columns.
Proof.
  revert values0 total1. induction columns as [|c columns IH]; intros values0 total1; cbn [try_fold].
  { intros [= <- <-]%Ok_inj Hv. split; [done|cbn; lia]. }
  intros Hf Hv. apply bind_Ok_inv in Hf as ([values1 total2] & Hc & Hf). unfold read_value in Hc.
  apply bind_Ok_inv in Hc as (cell & _ & Hc). apply bind_Ok_inv in Hc as (v & _ & Hc). apply bind_Ok_inv in Hc as (t & Ht & Hc).
  apply Ok_inj in Hc. injection Hc as <- <-. apply IH in Hf as [Hr Hl].
  - split; [done|]. rewrite Hl, length_app. cbn. lia.
  - rewrite try_fold_snoc, Hv. done.
Qed.

Lemma read_rows n stepped (rows0 rows : list (list SqlValue)) (r0 r1 r t0 t1 t : N) :
  try_fold (read_row n) (rows0, r1, t1) stepped = Ok (rows, r, t) →
  r1 = (r0 + N.of_nat (length rows0))%N → (r1 ≤ MAX_RETURNING_ROWS)%N → try_fold (check_returning_row n) t0 rows0 = Ok t1 →
  r = (r0 + N.of_nat (length rows))%N ∧ (r ≤ MAX_RETURNING_ROWS)%N ∧ try_fold (check_returning_row n) t0 rows = Ok t.
Proof.
  revert rows0 r1 t1. induction stepped as [|row stepped IH]; intros rows0 r1 t1; cbn [try_fold].
  { intros Hf. apply Ok_inj in Hf. by injection Hf as <- <- <-. }
  intros Hf Hr Hm Hv. apply bind_Ok_inv in Hf as ([[rows1 r2] t2] & Hc & Hf). unfold read_row in Hc.
  apply bind_Ok_inv in Hc as (cells & _ & Hc). apply bind_Ok_inv in Hc as (r3 & Hr3 & Hc). rewrite ok_or_Ok, checked_add_Some in Hr3.
  apply bind_Ok_inv in Hc as ([] & Hle & Hc). rewrite reject_if_Ok, N.ltb_ge in Hle. apply bind_Ok_inv in Hc as ([values t3] & Hvs & Hc).
  apply Ok_inj in Hc. injection Hc as <- <- <-. apply (IH _ _ _ Hf); [rewrite length_app; cbn; lia|done|].
  rewrite try_fold_snoc, Hv. cbn [mbind result_bind]. unfold check_returning_row.
  apply (read_values _ _ _ _ t1) in Hvs as [Hvs Hl]; [|done]. rewrite length_seq in Hl. cbn in Hl. by rewrite Hl, neqb_refl.
Qed.

(** The counters while executing are those of the check of the result. *)
Definition counted (acc : Execution) : Prop :=
  (ex_rows acc ≤ MAX_RETURNING_ROWS)%N ∧ try_fold check_returning (0%N, 0%N) (ex_results acc) = Ok (ex_rows acc, ex_bytes acc).

Lemma statement_counted acc operation acc' : counted acc → execute_statement acc operation = Ok acc' → counted acc'.
Proof.
  intros [Hr Hc] He. unfold execute_statement in He. apply bind_Ok_inv in He as (statement & _ & He).
  apply bind_Ok_inv in He as ([[[returning r] t] conn] & Hs & He). apply bind_Ok_inv in He as (? & _ & He). apply Ok_inj in He as <-.
  unfold counted. cbn [ex_rows ex_results ex_bytes]. rewrite try_fold_snoc, Hc. cbn [mbind result_bind]. destruct (ps_columns statement) as [|c columns].
  - apply bind_Ok_inv in Hs as (? & _ & Hs). apply Ok_inj in Hs. by injection Hs as <- <- <- <-.
  - set (names := c :: columns) in *. apply bind_Ok_inv in Hs as (t1 & Ht1 & Hs). apply bind_Ok_inv in Hs as ([stepped conn'] & _ & Hs).
    apply bind_Ok_inv in Hs as ([[rows r1] t2] & Hrow & Hs). apply Ok_inj in Hs. injection Hs as <- <- <- <-.
    apply (read_rows _ _ _ _ (ex_rows acc) _ _ t1) in Hrow as (-> & Hle & Hrows); [|cbn; lia|done|done]. split; [done|].
    assert (checked_add (ex_rows acc) (N.of_nat (length rows)) = Some (ex_rows acc + N.of_nat (length rows))%N) as Hadd.
    { apply checked_add_Some. split; [done|]. etransitivity; [exact Hle|]. vm_compute. discriminate. }
    unfold check_returning. cbn [ss_returning sq_rows sq_columns]. rewrite Hadd. cbn [ok_or mbind result_bind]. rewrite (proj2 (N.ltb_ge _ _) Hle). cbn [reject_if mbind result_bind]. by rewrite Ht1; cbn [mbind result_bind]; rewrite Hrows.
Qed.

(** C19. A result that execution returns passes the check that its encoding makes: the rows and
    the bytes are within the limits that are counted over all statements, and every row has the
    width of its columns; so the receipt of a command that succeeded can be encoded. *)
Theorem executed_result_bounded (conn conn' : Connection) (statements : list SqlStatement) (r : SqlCommandResult) :
  execute_sql_statements conn statements = Ok (r, conn') →
  validate_sql_result_bounds r = Ok () ∧ length (sr_statement_results r) = length statements.
Proof.
  unfold execute_sql_statements. intros He. apply bind_Ok_inv in He as (execution & Hx & He).
  do 4 (apply bind_Ok_inv in He as (? & _ & He)). apply Ok_inj in He. injection He as <- <-.
  assert (∀ l acc acc', try_fold execute_statement acc l = Ok acc' → counted acc →
    counted acc' ∧ length (ex_results acc') = length (ex_results acc) + length l) as Hall.
  { clear. intros l. induction l as [|o l IH]; intros acc acc'; cbn [try_fold].
    { intros <-%Ok_inj Hc. split; [done|cbn; lia]. }
    intros Hf Hc. apply bind_Ok_inv in Hf as (acc1 & Ho & Hf). apply IH in Hf as [Hk Hl]; [|by eapply statement_counted].
    split; [done|]. rewrite Hl. unfold execute_statement in Ho. apply bind_Ok_inv in Ho as (? & _ & Ho).
    apply bind_Ok_inv in Ho as ([[[? ?] ?] ?] & _ & Ho). apply bind_Ok_inv in Ho as (? & _ & Ho). apply Ok_inj in Ho as <-.
    cbn. rewrite length_app. cbn. lia. }
  destruct (Hall _ _ _ Hx) as [[_ Hc] Hl]; [by split|]. unfold validate_sql_result_bounds. cbn. by rewrite Hc.
Qed.
End limits.
