(* ===== verification/SqlControl.v ===== *)
(** * SqlControl: the control sidecar of the SQL state machine

    Models [crates/rhiza-sql/src/control.rs]: the sidecar database that holds the
    identity of a node, the applied tip, the receipts of requests, the intent of a
    pending apply and the embedded log, with every operation on it.

    A sidecar is the contents of its four tables.  The declared types and [CHECK]s of the
    tables make the rows typed: a hash column has 32 bytes and an integer column is not negative.  A
    transaction is a function to the tables after its commit; an error rolls it back
    and leaves the tables as they were.  I/O errors of SQLite are outside.
    [serde_json] is a parameter; an unused value of the source ([path]) is left out. *)

From stdpp Require Import strings.
From S2P Require Import Prelude Bytes Text Core ConfigChange ConfigState LogSegment SqlPages Qwal.
From Stdlib Require Strings.Byte.

Definition CONTROL_MAGIC : bytes := lit "RHIZA-SQL-CONTROL" ++ [Byte.x00; Byte.x06].
Definition CONTROL_SCHEMA_VERSION : N := 6.
Definition CONTROL_SNAPSHOT_MAGIC : bytes := lit "QCTL" ++ [Byte.x00; Byte.x06].
Definition MAX_RESULT_BLOB_BYTES : N := 512 * 1024.
Definition SQLITE_VARIABLE_LIMIT : nat := 999.
Definition RECEIPT_LOOKUP_CHUNK_SIZE : nat := SQLITE_VARIABLE_LIMIT.
Definition RECEIPT_INSERT_CHUNK_SIZE : nat := (SQLITE_VARIABLE_LIMIT - 2) / 3.
Definition REQUIRED_META_KEYS : list string :=
  ["magic"; "schema_version"; "cluster_id"; "node_id"; "epoch"; "configuration_state"; "recovery_generation";
   "materializer_fingerprint"; "page_size"; "page_count"; "state_root"; "applied_tip"]%string.

Record ControlIdentity : Type := mkIdentity {
  ci_cluster_id : bytes; ci_node_id : bytes; ci_epoch : N; ci_configuration_state : ConfigurationState;
  ci_recovery_generation : N; ci_materializer_fingerprint : LogHash; ci_user_state : StateIdentityV3
}.
Record RequestReceipt : Type := mkReceipt {
  rr_request_id : bytes; rr_request_digest : LogHash; rr_original_anchor : LogAnchor; rr_result_blob : bytes
}.
Record PendingApply : Type := mkPending {
  pa_base : LogAnchor; pa_entry : LogAnchor; pa_base_state : StateIdentityV3; pa_target_state : StateIdentityV3
}.
Record ReplicatedSnapshot : Type := mkReplicated {
  rs_cluster_id : bytes; rs_epoch : N; rs_configuration_state : ConfigurationState; rs_recovery_generation : N;
  rs_materializer_fingerprint : LogHash; rs_user_state : StateIdentityV3; rs_applied_tip : LogAnchor;
  rs_receipts : list RequestReceipt
}.
Record ApplyProgress : Type := mkProgress { ap_applied_index : N; ap_applied_hash : LogHash }.
#[export] Instance ControlIdentity_eq_dec : EqDecision ControlIdentity.
Proof. solve_decision. Defined.
#[export] Instance RequestReceipt_eq_dec : EqDecision RequestReceipt.
Proof. solve_decision. Defined.
#[export] Instance PendingApply_eq_dec : EqDecision PendingApply.
Proof. solve_decision. Defined.
#[export] Instance ReplicatedSnapshot_eq_dec : EqDecision ReplicatedSnapshot.
Proof. solve_decision. Defined.
#[export] Instance ApplyProgress_eq_dec : EqDecision ApplyProgress.
Proof. solve_decision. Defined.

(** A row of [request_receipts], under its request id. *)
Record ReceiptRow : Type := mkRow { rw_digest : LogHash; rw_log_index : N; rw_log_hash : LogHash; rw_blob : bytes }.

(** The tables [control_meta], [request_receipts], [pending_apply] (at most its one row)
    and [embedded_qlog]. *)
Record ControlDb : Type := mkControl {
  ct_meta : gmap string bytes; ct_receipts : gmap bytes ReceiptRow; ct_pending : option PendingApply;
  ct_embedded : gmap N bytes
}.

Definition set_meta (meta : gmap string bytes) (db : ControlDb) : ControlDb :=
  mkControl meta (ct_receipts db) (ct_pending db) (ct_embedded db).
Definition set_receipts (receipts : gmap bytes ReceiptRow) (db : ControlDb) : ControlDb :=
  mkControl (ct_meta db) receipts (ct_pending db) (ct_embedded db).
Definition set_pending (pending : option PendingApply) (db : ControlDb) : ControlDb :=
  mkControl (ct_meta db) (ct_receipts db) pending (ct_embedded db).
Definition set_embedded (embedded : gmap N bytes) (db : ControlDb) : ControlDb :=
  mkControl (ct_meta db) (ct_receipts db) (ct_pending db) embedded.

(** [slice.chunks(n)] *)
Fixpoint chunks_fuel {A} (fuel n : nat) (l : list A) : list (list A) :=
  match fuel, l with
  | S fuel, _ :: _ => take n l :: chunks_fuel fuel n (drop n l)
  | _, _ => []
  end.
Definition chunks {A} (n : nat) (l : list A) : list (list A) := chunks_fuel (length l) n l.

(** [i64::try_from] *)
Definition u64_to_sql (value : N) : result SqlError N :=
  if (value <? 2 ^ 63)%N then Ok value else Err (ResourceExhausted "control integer exceeds SQLite i64").

Definition validate_state (state : StateIdentityV3) : result SqlError () :=
  reject_if (negb ((512 <=? si_page_size state)%N && (si_page_size state <=? 65536)%N)
             || negb (is_power_of_two (si_page_size state)) || (si_page_count state =? 0)%N
             || eqb (si_state_root state) LogHash_ZERO) (IdentityMismatch "user_state").

Definition validate_new_identity (identity : ControlIdentity) : result SqlError () :=
  _ ← reject_if (blen (ci_cluster_id identity) =? 0)%N (IdentityMismatch "cluster_id");
  _ ← reject_if (blen (ci_node_id identity) =? 0)%N (IdentityMismatch "node_id");
  _ ← reject_if (ci_epoch identity =? 0)%N (IdentityMismatch "epoch");
  validate_state (ci_user_state identity).

(** ** Metadata *)

Implicit Types (db : ControlDb) (key : string).

Definition put_meta key (value : bytes) db : ControlDb := set_meta (<[key := value]> (ct_meta db)) db.
Definition get_meta db key : result SqlError bytes :=
  ok_or (ct_meta db !! key) (SqliteError "control sidecar is missing {key}").
Definition put_u64 key (value : N) db : ControlDb := put_meta key (be_bytes 8 value) db.
Definition meta_u64 db key : result SqlError N :=
  value ← get_meta db key;
  _ ← reject_if (neqb (blen value) 8%N) (SqliteError "invalid control u64 {key}");
  Ok (be_value value).
Definition put_hash key (value : LogHash) db : ControlDb := put_meta key (as_bytes value) db.
Definition meta_hash db key : result SqlError LogHash :=
  value ← get_meta db key;
  ok_or (array32_of value) (SqliteError "invalid control hash {key}").
Definition put_state (state : StateIdentityV3) db : result SqlError ControlDb :=
  _ ← validate_state state;
  Ok (put_hash "state_root" (si_state_root state)
        (put_u64 "page_count" (si_page_count state) (put_u64 "page_size" (si_page_size state) db))).
Definition meta_state db : result SqlError StateIdentityV3 :=
  page_size ← meta_u64 db "page_size";
  _ ← reject_if (negb (is_u32 page_size)) (SqliteError "invalid control page_size");
  page_count ← meta_u64 db "page_count";
  _ ← reject_if (negb (is_u32 page_count)) (SqliteError "invalid control page_count");
  state_root ← meta_hash db "state_root";
  let state := mkStateIdentity page_size page_count state_root in
  _ ← validate_state state;
  Ok state.
Definition meta_text db key : result SqlError bytes :=
  value ← get_meta db key;
  from_utf8 value (SqliteError "invalid control text {key}").
Definition anchor_bytes (value : LogAnchor) : bytes := be_bytes 8 (la_index value) ++ as_bytes (la_hash value).
Definition put_anchor key (value : LogAnchor) db : ControlDb := put_meta key (anchor_bytes value) db.
(** The slices are inside the 40 bytes of the guard. *)
Definition meta_anchor db key : result SqlError LogAnchor :=
  value ← get_meta db key;
  _ ← reject_if (neqb (blen value) 40%N) (SqliteError "invalid control anchor {key}");
  h ← ok_or (array32_of (index_range value 8 40)) (SqlPanic "length checked");
  Ok (mkLogAnchor (be_value (index_range value 0 8)) h).

(** ** Receipts *)

Definition receipt_from_row (request_id : bytes) (row : ReceiptRow) : RequestReceipt :=
  mkReceipt request_id (rw_digest row) (mkLogAnchor (rw_log_index row) (rw_log_hash row)) (rw_blob row).

Definition receipt_conflict (request_id : bytes) (existing : RequestReceipt) : SqlError :=
  RequestConflict request_id (la_index (rr_original_anchor existing)) (la_hash (rr_original_anchor existing)).

(** The slot of one request: its receipt, nothing, or a conflict. *)
Definition align_request db (request : bytes * LogHash) : result SqlError (option RequestReceipt) :=
  let '(request_id, request_digest) := request in
  match receipt_from_row request_id <$> ct_receipts db !! request_id with
  | Some receipt =>
      if neqb (rr_request_digest receipt) request_digest
      then Err (receipt_conflict request_id receipt) else Ok (Some receipt)
  | None => Ok None
  end.
(** One [SELECT] with a bound variable for each request; the rows come in the order of the
    requests.  More variables than the limit the code assumes are refused here, though SQLite
    may be built with a higher one. *)
Definition lookup_request_chunk db (requests : list (bytes * LogHash)) :
    result SqlError (list (result SqlError (option RequestReceipt))) :=
  _ ← reject_if (SQLITE_VARIABLE_LIMIT <? length requests)%nat (SqliteError "too many SQL variables");
  Ok (align_request db <$> requests).

Definition check_unique_id (request_ids : gset bytes) (request : bytes * LogHash) : result SqlError (gset bytes) :=
  _ ← reject_if (bool_decide (request.1 ∈ request_ids)) (InvalidCommand "duplicate request id in bulk lookup: {request_id}");
  Ok ({[request.1]} ∪ request_ids).

Definition lookup_requests_from db (requests : list (bytes * LogHash)) :
    result SqlError (list (result SqlError (option RequestReceipt))) :=
  match requests with
  | [] => Ok []
  | _ =>
      _ ← reject_if (MAX_QWAL_V3_RECEIPTS <? N.of_nat (length requests))%N
            (ResourceExhausted "request lookup exceeds {} members");
      _ ← try_fold check_unique_id ∅ requests;
      try_fold (λ aligned chunk, rows ← lookup_request_chunk db chunk; Ok (aligned ++ rows)) []
        (chunks RECEIPT_LOOKUP_CHUNK_SIZE requests)
  end.
Definition lookup_requests := lookup_requests_from.

Definition lookup_request db (request_id : bytes) (request_digest : LogHash) : result SqlError (option RequestReceipt) :=
  aligned ← lookup_requests db [(request_id, request_digest)];
  match last aligned with
  | Some r => r
  | None => Err (SqlPanic "one request produces one aligned lookup")
  end.

(** [INSERT INTO request_receipts] of one row: the request id is the primary key. *)
Definition insert_row (row : bytes * ReceiptRow) db : result SqlError ControlDb :=
  match ct_receipts db !! row.1 with
  | Some _ => Err (SqliteError "UNIQUE constraint failed: request_receipts.request_id")
  | None => Ok (set_receipts (<[row.1 := row.2]> (ct_receipts db)) db)
  end.

Definition insert_receipt_chunk (anchor : LogAnchor) db (receipts : list RequestReceipt) : result SqlError ControlDb :=
  let bind_count := (2 + length receipts * 3)%nat in
  _ ← reject_if (SQLITE_VARIABLE_LIMIT <? bind_count)%nat (SqlPanic "bind_count <= SQLITE_VARIABLE_LIMIT");
  log_index ← u64_to_sql (la_index anchor);
  try_fold (λ db receipt,
      insert_row (rr_request_id receipt,
                  mkRow (rr_request_digest receipt) log_index (la_hash anchor) (rr_result_blob receipt)) db)
    db receipts.

Definition insert_receipts_bulk (anchor : LogAnchor) (receipts : list RequestReceipt) db : result SqlError ControlDb :=
  match receipts with
  | [] => Ok db
  | _ =>
      _ ← reject_if (MAX_QWAL_V3_RECEIPTS <? N.of_nat (length receipts))%N
            (ResourceExhausted "bulk receipt insert exceeds the QWAL receipt limit");
      try_fold (insert_receipt_chunk anchor) db (chunks RECEIPT_INSERT_CHUNK_SIZE receipts)
  end.

Definition insert_or_validate_receipt db (receipt : RequestReceipt) : result SqlError ControlDb :=
  match receipt_from_row (rr_request_id receipt) <$> ct_receipts db !! rr_request_id receipt with
  | Some existing =>
      if eqb existing receipt then Ok db else Err (receipt_conflict (rr_request_id receipt) existing)
  | None =>
      log_index ← u64_to_sql (la_index (rr_original_anchor receipt));
      insert_row (rr_request_id receipt,
                  mkRow (rr_request_digest receipt) log_index (la_hash (rr_original_anchor receipt)) (rr_result_blob receipt)) db
  end.

(** [SELECT ... FROM request_receipts ORDER BY request_id] *)
Definition all_receipts db : list RequestReceipt :=
  (λ row, receipt_from_row row.1 row.2) <$> sort_by fst (map_to_list (ct_receipts db)).

(** ** The pending apply *)

Definition pending_from db : result SqlError (option PendingApply) :=
  match ct_pending db with
  | None => Ok None
  | Some pending =>
      _ ← validate_state (pa_base_state pending);
      _ ← validate_state (pa_target_state pending);
      Ok (Some pending)
  end.
Definition pending := pending_from.

(** The row has the primary key 1; [entry_index] is declared positive. *)
Definition insert_pending (value : PendingApply) db : result SqlError ControlDb :=
  _ ← validate_state (pa_base_state value);
  _ ← validate_state (pa_target_state value);
  _ ← u64_to_sql (la_index (pa_base value));
  _ ← u64_to_sql (la_index (pa_entry value));
  _ ← reject_if (match ct_pending db with Some _ => true | None => false end)
        (SqliteError "UNIQUE constraint failed: pending_apply.singleton");
  _ ← reject_if (la_index (pa_entry value) =? 0)%N (SqliteError "CHECK constraint failed: entry_index > 0");
  Ok (set_pending (Some value) db).

(** ** Operations *)

Section control.
Context `{Sha256} `{Serde SqlCommandResult} `{Serde ConfigurationState} `{Serde ReplicatedSnapshot}.

Definition put_configuration (value : ConfigurationState) db : result SqlError ControlDb :=
  encoded ← ok_or (to_serialized value) (SqliteError "{error}");
  Ok (put_meta "configuration_state" encoded db).
Definition meta_configuration db : result SqlError ConfigurationState :=
  value ← get_meta db "configuration_state";
  ok_or (from_serialized value) (SqliteError "invalid control configuration: {error}").

Definition validate_receipt (receipt : RequestReceipt) : result SqlError () :=
  _ ← reject_if ((blen (rr_request_id receipt) =? 0)%N || (u16_max <? blen (rr_request_id receipt))%N)
        (InvalidCommand "request id must contain 1..=65535 bytes");
  _ ← reject_if (MAX_RESULT_BLOB_BYTES <? blen (rr_result_blob receipt))%N
        (ResourceExhausted "request result exceeds {MAX_RESULT_BLOB_BYTES} bytes");
  validate_sql_result_blob_bounds (rr_result_blob receipt).
Definition validate_receipts (receipts : list RequestReceipt) : result SqlError () :=
  try_fold (λ _ receipt, validate_receipt receipt) () receipts.
Definition validate_all_receipts db : result SqlError () := validate_receipts (all_receipts db).

(** *** Opening *)

(** [initialize] in the new, empty database. *)
Definition initialize (identity : ControlIdentity) : result SqlError ControlDb :=
  let db := mkControl ∅ ∅ None ∅ in
  let db := put_u64 "schema_version" CONTROL_SCHEMA_VERSION (put_meta "magic" CONTROL_MAGIC db) in
  let db := put_meta "node_id" (ci_node_id identity) (put_meta "cluster_id" (ci_cluster_id identity) db) in
  db ← put_configuration (ci_configuration_state identity) (put_u64 "epoch" (ci_epoch identity) db);
  let db := put_u64 "recovery_generation" (ci_recovery_generation identity) db in
  let db := put_hash "materializer_fingerprint" (ci_materializer_fingerprint identity) db in
  db ← put_state (ci_user_state identity) db;
  Ok (put_anchor "applied_tip" (mkLogAnchor 0 LogHash_ZERO) db).

(** [ControlStore::create] for a path that does not exist. *)
Definition control_create (identity : ControlIdentity) : result SqlError ControlDb :=
  _ ← validate_new_identity identity;
  initialize identity.

Definition control_identity db : result SqlError ControlIdentity :=
  cluster_id ← meta_text db "cluster_id";
  node_id ← meta_text db "node_id";
  epoch ← meta_u64 db "epoch";
  configuration_state ← meta_configuration db;
  recovery_generation ← meta_u64 db "recovery_generation";
  materializer_fingerprint ← meta_hash db "materializer_fingerprint";
  user_state ← meta_state db;
  Ok (mkIdentity cluster_id node_id epoch configuration_state recovery_generation materializer_fingerprint user_state).

Definition control_applied_tip db : result SqlError ApplyProgress :=
  anchor ← meta_anchor db "applied_tip"; Ok (mkProgress (la_index anchor) (la_hash anchor)).
Definition control_configuration_state := meta_configuration.
Definition control_recovery_generation db : result SqlError N := meta_u64 db "recovery_generation".
Definition control_user_state := meta_state.

(** [validate_schema]; the declarations of the tables are the type [ControlDb]. *)
Definition validate_schema db : result SqlError () :=
  magic ← get_meta db "magic";
  _ ← reject_if (neqb magic CONTROL_MAGIC) (SqliteError "invalid control sidecar magic");
  version ← meta_u64 db "schema_version";
  _ ← reject_if (neqb version CONTROL_SCHEMA_VERSION) (SqliteError "unsupported control sidecar schema version {version}");
  _ ← try_fold (λ _ key, _ ← get_meta db key; Ok ()) () REQUIRED_META_KEYS;
  _ ← reject_if (neqb (size (ct_meta db)) (length REQUIRED_META_KEYS))
        (SqliteError "control sidecar has unknown or duplicate metadata");
  identity ← control_identity db;
  _ ← validate_new_identity identity;
  _ ← meta_anchor db "applied_tip";
  _ ← pending_from db;
  validate_all_receipts db.

Definition open_existing_unchecked db : result SqlError ControlDb := _ ← validate_schema db; Ok db.

Definition validate_identity db (expected : ControlIdentity) : result SqlError () :=
  actual ← control_identity db;
  _ ← reject_if (neqb (ci_cluster_id actual) (ci_cluster_id expected)) (IdentityMismatch "cluster_id");
  _ ← reject_if (neqb (ci_node_id actual) (ci_node_id expected)) (IdentityMismatch "node_id");
  _ ← reject_if (neqb (ci_epoch actual) (ci_epoch expected)) (IdentityMismatch "epoch");
  _ ← reject_if (neqb (ci_configuration_state actual) (ci_configuration_state expected)) (IdentityMismatch "configuration_state");
  _ ← reject_if (neqb (ci_recovery_generation actual) (ci_recovery_generation expected)) (IdentityMismatch "recovery_generation");
  _ ← reject_if (neqb (ci_materializer_fingerprint actual) (ci_materializer_fingerprint expected))
        (IdentityMismatch "materializer_fingerprint");
  reject_if (neqb (ci_user_state actual) (ci_user_state expected)) (IdentityMismatch "user_state").
Definition control_open_existing db (identity : ControlIdentity) : result SqlError ControlDb :=
  _ ← validate_new_identity identity;
  db ← open_existing_unchecked db;
  _ ← validate_identity db identity;
  Ok db.

(** [ControlStore::open] on what is at the path. *)
Definition control_open (existing : option ControlDb) (identity : ControlIdentity) : result SqlError ControlDb :=
  match existing with
  | Some db => control_open_existing db identity
  | None => control_create identity
  end.
Definition read_identity db : result SqlError ControlIdentity := db ← open_existing_unchecked db; control_identity db.

(** *** The embedded log *)

Definition decode_embedded_log_entry (encoded cluster_id : bytes) : result SqlError LogEntry :=
  entries ← map_err (λ _, InvalidEntry "{error}") (decode_segment_for_cluster encoded cluster_id);
  match entries with
  | [entry] => Ok entry
  | _ => Err (InvalidEntry "embedded qlog value must contain exactly one entry")
  end.

Definition insert_or_validate_embedded_entry (entry : LogEntry) db : result SqlError ControlDb :=
  cluster_id ← meta_text db "cluster_id";
  epoch ← meta_u64 db "epoch";
  configuration ← meta_configuration db;
  _ ← reject_if (neqb (le_cluster_id entry) cluster_id || neqb (le_epoch entry) epoch
                 || negb (is_ok (validate_entry configuration entry)))
        (InvalidEntry "embedded qlog entry identity is invalid");
  index ← u64_to_sql (le_index entry);
  match ct_embedded db !! index with
  | Some existing =>
      decoded ← decode_embedded_log_entry existing cluster_id;
      if eqb decoded entry then Ok db else Err (InvalidEntry "embedded qlog index already contains another entry")
  | None =>
      _ ← reject_if (index =? 0)%N (SqliteError "CHECK constraint failed: log_index > 0");
      Ok (set_embedded (<[index := encode_segment [entry]]> (ct_embedded db)) db)
  end.

(** One row of the interval. *)
Definition embedded_row (cluster_id : bytes) (acc : N * list LogEntry) (row : N * bytes) :
    result SqlError (N * list LogEntry) :=
  let '(expected, entries) := acc in
  _ ← reject_if (neqb row.1 expected) (InvalidEntry "embedded qlog is missing index {expected}");
  entry ← decode_embedded_log_entry row.2 cluster_id;
  _ ← reject_if (neqb (le_index entry) row.1) (InvalidEntry "embedded qlog key does not match its entry index");
  expected ← ok_or (checked_add expected 1) (InvalidEntry "embedded qlog index overflow");
  Ok (expected, entries ++ [entry]).

Definition control_embedded_log_entries db (from_index through_index : N) : result SqlError (list LogEntry) :=
  if (through_index <? from_index)%N then Ok [] else
  from_index ← u64_to_sql from_index;
  through ← u64_to_sql through_index;
  let rows := sort_by fst (filter (λ row, (from_index <= row.1 <= through)%N) (map_to_list (ct_embedded db))) in
  cluster_id ← meta_text db "cluster_id";
  '(expected, entries) ← try_fold (embedded_row cluster_id) (from_index, []) rows;
  _ ← reject_if (expected <=? through_index)%N (InvalidEntry "embedded qlog is missing index {expected}");
  Ok entries.

Definition control_compact_embedded_log_before (anchor_index : N) db : result SqlError ControlDb :=
  applied ← meta_anchor db "applied_tip";
  _ ← reject_if (la_index applied <? anchor_index)%N
        (InvalidEntry "cannot compact embedded qlog before anchor {anchor_index} beyond applied index {applied_index}");
  anchor_index ← u64_to_sql anchor_index;
  Ok (set_embedded (filter (λ row, (anchor_index <= row.1)%N) (ct_embedded db)) db).

(** *** Applying *)

Definition entry_anchor (entry : LogEntry) : LogAnchor := mkLogAnchor (le_index entry) (le_hash entry).

Definition begin_pending_with_entry (value : PendingApply) (entry : LogEntry) db : result SqlError ControlDb :=
  _ ← reject_if (neqb (entry_anchor entry) (pa_entry value) || neqb (recompute_hash entry) (le_hash entry))
        (InvalidEntry "embedded qlog entry does not match the pending apply");
  db ← insert_or_validate_embedded_entry entry db;
  existing ← pending_from db;
  match existing with
  | Some existing =>
      if eqb existing value then Ok db else Err (InvalidEntry "a different physical apply is already pending")
  | None =>
      tip ← meta_anchor db "applied_tip";
      user_state ← meta_state db;
      _ ← reject_if (neqb (pa_base value) tip || neqb (pa_base_state value) user_state)
            (InvalidEntry "pending apply does not match the committed base");
      next ← ok_or (checked_add (la_index tip) 1) (InvalidEntry "applied index is exhausted");
      _ ← reject_if (neqb (la_index (pa_entry value)) next) (InvalidEntry "pending apply entry is not the next slot");
      insert_pending value db
  end.

Definition commit_metadata_only_entry_with_log (expected_base : LogAnchor) (entry : LogEntry)
    (expected_configuration : ConfigurationState) (expected_user_state : StateIdentityV3) db : result SqlError ControlDb :=
  expected_entry_index ← ok_or (checked_add (la_index expected_base) 1) (InvalidEntry "applied index is exhausted");
  _ ← reject_if (neqb (le_index entry) expected_entry_index || neqb (recompute_hash entry) (le_hash entry))
        (InvalidEntry "metadata-only embedded entry is invalid or not the next slot");
  existing ← pending_from db;
  let mismatch := InvalidEntry "metadata-only embedded commit does not match the committed base" in
  _ ← reject_if (match existing with Some _ => true | None => false end) mismatch;
  tip ← meta_anchor db "applied_tip";
  _ ← reject_if (neqb tip expected_base) mismatch;
  configuration ← meta_configuration db;
  _ ← reject_if (neqb configuration expected_configuration) mismatch;
  user_state ← meta_state db;
  _ ← reject_if (neqb user_state expected_user_state) mismatch;
  db ← insert_or_validate_embedded_entry entry db;
  Ok (put_anchor "applied_tip" (entry_anchor entry) db).

(** The checks of the loop over the receipts; [request_ids] is its [HashSet]. *)
Definition check_applied_receipt (entry : LogAnchor) (acc : N * gset bytes) (receipt : RequestReceipt) :
    result SqlError (N * gset bytes) :=
  let '(result_bytes, request_ids) := acc in
  _ ← validate_receipt receipt;
  result_bytes ← ok_or (checked_add result_bytes (blen (rr_result_blob receipt)))
    (ResourceExhausted "receipt result bytes overflow");
  _ ← reject_if (MAX_QWAL_V3_BYTES <? result_bytes)%N (ResourceExhausted "receipt results exceed {} bytes");
  _ ← reject_if (neqb (rr_original_anchor receipt) entry)
        (InvalidEntry "request receipt anchor does not match applied entry");
  _ ← reject_if (bool_decide (rr_request_id receipt ∈ request_ids))
        (InvalidEntry "applied receipt request ids must be unique");
  Ok (result_bytes, {[rr_request_id receipt]} ∪ request_ids).

(** The receipts that are not stored yet. *)
Definition push_absent (absent : list RequestReceipt) (row : RequestReceipt * result SqlError (option RequestReceipt)) :
    result SqlError (list RequestReceipt) :=
  let '(receipt, existing) := row in
  existing ← existing;
  match existing with
  | None => Ok (absent ++ [receipt])
  | Some existing =>
      if eqb existing receipt then Ok absent else Err (receipt_conflict (rr_request_id receipt) existing)
  end.

Definition receipt_keys (receipts : list RequestReceipt) : list (bytes * LogHash) :=
  (λ receipt, (rr_request_id receipt, rr_request_digest receipt)) <$> receipts.

Definition commit_applied_transaction (value : PendingApply) (configuration_state : ConfigurationState)
    (receipts : list RequestReceipt) db : result SqlError ControlDb :=
  _ ← reject_if (MAX_QWAL_V3_RECEIPTS <? N.of_nat (length receipts))%N
        (ResourceExhausted "applied receipt batch exceeds {} members");
  configuration ← meta_configuration db;
  _ ← reject_if (cs_config_id configuration_state <? cs_config_id configuration)%N
        (InvalidEntry "configuration state moved backwards");
  _ ← try_fold (check_applied_receipt (pa_entry value)) (0%N, ∅) receipts;
  existing ← lookup_requests_from db (receipt_keys receipts);
  absent ← try_fold push_absent [] (zip receipts existing);
  db ← insert_receipts_bulk (pa_entry value) absent db;
  let db := put_anchor "applied_tip" (pa_entry value) db in
  db ← put_configuration configuration_state db;
  db ← put_state (pa_target_state value) db;
  Ok (set_pending None db).

Definition commit_applied (value : PendingApply) (configuration_state : ConfigurationState)
    (receipts : list RequestReceipt) db : result SqlError ControlDb :=
  _ ← reject_if (MAX_QWAL_V3_RECEIPTS <? N.of_nat (length receipts))%N
        (ResourceExhausted "applied receipt batch exceeds {} members");
  existing ← pending_from db;
  _ ← reject_if (neqb existing (Some value)) (InvalidEntry "pending apply intent is missing or different");
  commit_applied_transaction value configuration_state receipts db.

Definition commit_rebuildable_apply (value : PendingApply) (entry : LogEntry) (configuration_state : ConfigurationState)
    (receipts : list RequestReceipt) db : result SqlError ControlDb :=
  existing ← pending_from db;
  let mismatch := InvalidEntry "rebuildable apply does not exactly extend the committed base" in
  _ ← reject_if (match existing with Some existing => neqb existing value | None => false end) mismatch;
  tip ← meta_anchor db "applied_tip";
  _ ← reject_if (neqb tip (pa_base value)) mismatch;
  user_state ← meta_state db;
  _ ← reject_if (neqb user_state (pa_base_state value)) mismatch;
  _ ← reject_if (neqb (entry_anchor entry) (pa_entry value) || neqb (recompute_hash entry) (le_hash entry)) mismatch;
  db ← insert_or_validate_embedded_entry entry db;
  commit_applied_transaction value configuration_state receipts db.

(** *** Snapshots of the replicated part *)

Definition encode_snapshot (snapshot : ReplicatedSnapshot) : result SqlError bytes :=
  body ← ok_or (to_serialized snapshot) (InvalidSnapshot "{error}");
  Ok (CONTROL_SNAPSHOT_MAGIC ++ as_bytes (digest [body]) ++ body).

(** [previous] is the request id before. *)
Definition check_sorted_receipt (previous : option bytes) (receipt : RequestReceipt) : result SqlError (option bytes) :=
  _ ← validate_receipt receipt;
  _ ← reject_if (match previous with Some id => leb (rr_request_id receipt) id | None => false end)
        (InvalidSnapshot "control snapshot receipts are not uniquely sorted");
  Ok (Some (rr_request_id receipt)).

Definition decode_snapshot (encoded : bytes) : result SqlError ReplicatedSnapshot :=
  payload ← ok_or (strip_prefix CONTROL_SNAPSHOT_MAGIC encoded) (InvalidSnapshot "control snapshot magic/version is invalid");
  _ ← reject_if (blen payload <? 32)%N (InvalidSnapshot "control snapshot is truncated");
  expected ← ok_or (array32_of (index_range payload 0 32)) (SqlPanic "32-byte checked slice");
  let body := drop 32 payload in
  _ ← reject_if (neqb (digest [body]) expected) (InvalidSnapshot "control snapshot digest mismatch");
  snapshot ← ok_or (from_serialized body) (InvalidSnapshot "{error}");
  canonical ← ok_or (to_serialized snapshot) (InvalidSnapshot "{error}");
  _ ← reject_if (neqb canonical body) (InvalidSnapshot "control snapshot encoding is not canonical");
  _ ← try_fold check_sorted_receipt None (rs_receipts snapshot);
  Ok snapshot.

Definition export_replicated_snapshot db : result SqlError bytes :=
  existing ← pending_from db;
  _ ← reject_if (match existing with Some _ => true | None => false end)
        (InvalidSnapshot "cannot export control state while apply is pending");
  tip ← meta_anchor db "applied_tip";
  cluster_id ← meta_text db "cluster_id";
  epoch ← meta_u64 db "epoch";
  configuration_state ← meta_configuration db;
  recovery_generation ← meta_u64 db "recovery_generation";
  materializer_fingerprint ← meta_hash db "materializer_fingerprint";
  user_state ← meta_state db;
  encode_snapshot (mkReplicated cluster_id epoch configuration_state recovery_generation materializer_fingerprint
                     user_state tip (all_receipts db)).

Definition import_replicated_snapshot_with_recovery_generation (encoded : bytes) (recovery_generation : option N) db :
    result SqlError ControlDb :=
  snapshot ← decode_snapshot encoded;
  let recovery_generation := default (rs_recovery_generation snapshot) recovery_generation in
  _ ← reject_if (recovery_generation =? 0)%N (InvalidSnapshot "control snapshot recovery generation must be positive");
  local ← control_identity db;
  _ ← reject_if (neqb (rs_cluster_id snapshot) (ci_cluster_id local)) (IdentityMismatch "cluster_id");
  _ ← reject_if (neqb (rs_epoch snapshot) (ci_epoch local)) (IdentityMismatch "epoch");
  _ ← reject_if (neqb (rs_materializer_fingerprint snapshot) (ci_materializer_fingerprint local))
        (IdentityMismatch "materializer_fingerprint");
  _ ← validate_receipts (rs_receipts snapshot);
  db ← try_fold insert_or_validate_receipt (set_receipts ∅ db) (rs_receipts snapshot);
  db ← put_configuration (rs_configuration_state snapshot) db;
  let db := put_u64 "recovery_generation" recovery_generation db in
  _ ← validate_state (rs_user_state snapshot);
  db ← put_state (rs_user_state snapshot) db;
  let db := put_anchor "applied_tip" (rs_applied_tip snapshot) db in
  Ok (set_embedded ∅ (set_pending None db)).
End control.
