(* ===== verification/SqlMachine.v ===== *)
(** * SqlMachine: the SQL state machine

    Models [SqliteStateMachine] of [crates/rhiza-sql/src/lib.rs]: applying log entries
    (installing page effects in the canonical database or promoting a prepared copy),
    preparing effects, the fence and the retry rules after a failure, opening, receipts,
    snapshots and restore.

    An operation runs in a small state and error monad: the machine that is left behind
    matters also when it fails.  The canonical database is a file: its bytes, and a stamp for the metadata
    ([PreparedBaseSeal]: device, inode, length, times) that every write renews.  SQLite
    is a parameter ([SqliteEngine] of [SqlExecute]).  Opening, closing and
    checkpointing the canonical connection, through which nothing is written, leave the file as it
    is, and closing it removes its sidecars.  [Hooks] are the three points where the
    tests of the code inject a failure. *)

From S2P Require Import Prelude Bytes Text Core ConfigChange ConfigState LogSegment SqlPages WalCapture Qwal QwalFile SqlCommand SqlPolicy SqlExecute SqlControl.
From Stdlib Require Strings.Byte.

Definition QWAL_SNAPSHOT_V3_MAGIC : bytes := lit "QSNP" ++ [Byte.x00; Byte.x04].

Record DbFile : Type := mkDbFile { df_bytes : bytes; df_stamp : N }.

Record PreparedTarget : Type := mkPrepared {
  pt_artifact : DbFile; pt_target_seal : option N; pt_base_seal : option N;
  pt_cluster_id : bytes; pt_node_id : bytes; pt_epoch : N; pt_configuration_id : N; pt_recovery_generation : N;
  pt_materializer_fingerprint : bytes; pt_base_index : N; pt_base_hash : LogHash; pt_base_state : StateIdentityV3;
  pt_target_state : StateIdentityV3; pt_effect_digest : LogHash
}.

(** [sm_conn]: whether the canonical connection is open; [sm_cache] and [sm_seal] are the
    [CanonicalPageStateV3]; [sm_clock] is above every stamp given so far. *)
Record SqliteStateMachine : Type := mkMachine {
  sm_file : DbFile; sm_conn : bool; sm_control : ControlDb; sm_pending_fence : bool;
  sm_cache : PageStateCacheV3; sm_seal : option N; sm_uncommitted_effect : option LogHash;
  sm_prepared_target : option PreparedTarget; sm_clock : N
}.

Record ApplyOutcome : Type := mkOutcome { ao_progress : ApplyProgress; ao_sql_result : option SqlCommandResult }.
Record RequestOutcome : Type := mkRequestOutcome { ro_original_log_index : N; ro_original_log_hash : LogHash }.
Record SqlBatchMember : Type := mkMember { bm_command : SqlCommand; bm_request_payload : bytes }.
Record SqlBatchPreparation : Type := mkPreparation {
  bp_effect : option bytes; bp_results : list (result SqlError SqlCommandResult)
}.
Record PreparedQwalMutation : Type := mkMutation {
  pm_receipts : list QwalReceiptV3; pm_results : list (result SqlError SqlCommandResult)
}.
Record QwalSnapshotV3 : Type := mkQwalSnapshot { qs_user_db : bytes; qs_replicated_control : bytes; qs_user_state : StateIdentityV3 }.
#[export] Instance QwalSnapshotV3_eq_dec : EqDecision QwalSnapshotV3.
Proof. solve_decision. Defined.
(** [Snapshot] with the fields of its [SnapshotManifest] that the restore reads. *)
Record Snapshot : Type := mkSnapshot {
  sn_cluster_id : bytes; sn_configuration_state : ConfigurationState; sn_epoch : N; sn_index : N; sn_applied_hash : LogHash;
  sn_created_by : bytes; sn_executor_fingerprint : option LogHash; sn_db_bytes : bytes
}.

Record RecoverySnapshot : Type := mkRecoverySnapshot { rv_snapshot : Snapshot; rv_anchor : RecoveryAnchor }.

(** The points of failure: after a page was written, before a control commit, between the
    durable intent and its commit. *)
Record Hooks : Type := mkHooks {
  hk_after_page : N → result SqlError (); hk_control_commit : result SqlError (); hk_pending_commit : result SqlError ()
}.
Definition no_faults : Hooks := mkHooks (λ _, Ok ()) (Ok ()) (Ok ()).

(** ** The monad *)

Definition machine (A : Type) : Type := SqliteStateMachine → result SqlError A * SqliteStateMachine.

#[export] Instance machine_ret : MRet machine := λ A a m, (Ok a, m).
#[export] Instance machine_bind : MBind machine := λ A B k c m,
  match c m with
  | (Ok a, m) => k a m
  | (Err e, m) => (Err e, m)
  end.
Definition fails {A} (e : SqlError) : machine A := λ m, (Err e, m).
Definition lift {A} (r : result SqlError A) : machine A := λ m, (r, m).
Definition gets {A} (f : SqliteStateMachine → A) : machine A := λ m, (Ok (f m), m).
Definition modify (f : SqliteStateMachine → SqliteStateMachine) : machine () := λ m, (Ok (), f m).
(** [let _ = c;] *)
Definition ignore {A} (c : machine A) : machine () := λ m, (Ok (), snd (c m)).
Definition guard_that (c : bool) (e : SqlError) : machine () := lift (reject_if c e).

Definition with_file (file : DbFile) (m : SqliteStateMachine) : SqliteStateMachine :=
  mkMachine file (sm_conn m) (sm_control m) (sm_pending_fence m) (sm_cache m) (sm_seal m) (sm_uncommitted_effect m)
    (sm_prepared_target m) (sm_clock m).
Definition with_conn (open : bool) (m : SqliteStateMachine) : SqliteStateMachine :=
  mkMachine (sm_file m) open (sm_control m) (sm_pending_fence m) (sm_cache m) (sm_seal m) (sm_uncommitted_effect m)
    (sm_prepared_target m) (sm_clock m).
Definition with_control (db : ControlDb) (m : SqliteStateMachine) : SqliteStateMachine :=
  mkMachine (sm_file m) (sm_conn m) db (sm_pending_fence m) (sm_cache m) (sm_seal m) (sm_uncommitted_effect m)
    (sm_prepared_target m) (sm_clock m).
Definition with_fence (fence : bool) (m : SqliteStateMachine) : SqliteStateMachine :=
  mkMachine (sm_file m) (sm_conn m) (sm_control m) fence (sm_cache m) (sm_seal m) (sm_uncommitted_effect m)
    (sm_prepared_target m) (sm_clock m).
Definition with_page_state (cache : PageStateCacheV3) (seal : option N) (m : SqliteStateMachine) : SqliteStateMachine :=
  mkMachine (sm_file m) (sm_conn m) (sm_control m) (sm_pending_fence m) cache seal (sm_uncommitted_effect m)
    (sm_prepared_target m) (sm_clock m).
Definition with_uncommitted (effect : option LogHash) (m : SqliteStateMachine) : SqliteStateMachine :=
  mkMachine (sm_file m) (sm_conn m) (sm_control m) (sm_pending_fence m) (sm_cache m) (sm_seal m) effect
    (sm_prepared_target m) (sm_clock m).
Definition with_prepared (prepared : option PreparedTarget) (m : SqliteStateMachine) : SqliteStateMachine :=
  mkMachine (sm_file m) (sm_conn m) (sm_control m) (sm_pending_fence m) (sm_cache m) (sm_seal m) (sm_uncommitted_effect m)
    prepared (sm_clock m).

(** New contents of the file, with a new stamp. *)
Definition write_file (contents : bytes) (m : SqliteStateMachine) : SqliteStateMachine :=
  mkMachine (mkDbFile contents (sm_clock m)) (sm_conn m) (sm_control m) (sm_pending_fence m) (sm_cache m) (sm_seal m)
    (sm_uncommitted_effect m) (sm_prepared_target m) (sm_clock m + 1).

(** ** Connections and seals *)

Section machine.
Context `{Sha256} `{SqliteEngine} `{SqlExecutor} `{Serde SqlCommandResult} `{Serde QwalEnvelopeV3}
  `{Serde ConfigurationState} `{Serde ReplicatedSnapshot} `{Serde SqlCommandV2Envelope} `{Serde QwalSnapshotV3}.
Implicit Types (effect : QwalEnvelopeV3) (entry : LogEntry) (payload : bytes).

(** A result read from the control sidecar. *)
Definition control {A} (f : ControlDb → result SqlError A) : machine A := λ m, (f (sm_control m), m).
(** A transaction on the control sidecar. *)
Definition transact (f : ControlDb → result SqlError ControlDb) : machine () := db ← control f; modify (with_control db).

Definition open_connection : machine () := λ m, (sqlite_open (df_bytes (sm_file m)), m).
Definition with_connection : machine () :=
  conn ← gets sm_conn; guard_that (negb conn) (SqliteError "SQLite connection is closed").
Definition close_connection : machine () := modify (with_conn false).
Definition reopen_connection : machine () :=
  _ ← open_connection;
  conn ← gets sm_conn;
  _ ← guard_that conn (SqliteError "refusing to replace an open SQLite connection");
  modify (with_conn true).
Definition reopen_if_closed : machine () :=
  gets sm_conn ≫= λ conn : bool, if conn then mret () else reopen_connection.
(** [wal_checkpoint(TRUNCATE)] *)
Definition checkpoint_truncate : machine () := with_connection.

Definition sqlite_sidecars_absent : machine bool := conn ← gets sm_conn; mret (negb conn).

Definition prepared_base_metadata_matches (seal : option N) (file : DbFile) : bool :=
  match seal with Some seal => (seal =? df_stamp file)%N | None => false end.

Definition ensure_page_state_sealed : machine () :=
  m ← gets id;
  guard_that (negb (prepared_base_metadata_matches (sm_seal m) (sm_file m)))
    (InvalidEntry "canonical SQLite file no longer matches the cached page-state seal").
Definition open_bound_canonical : machine () :=
  absent ← sqlite_sidecars_absent;
  _ ← guard_that (negb absent) (InvalidEntry "closed canonical SQLite database still has WAL sidecars");
  ensure_page_state_sealed.
Definition seal_held_canonical : machine (option N) :=
  absent ← sqlite_sidecars_absent;
  _ ← guard_that (negb absent)
        (InvalidEntry "closed canonical SQLite database has WAL sidecars while refreshing its seal");
  m ← gets id; mret (Some (df_stamp (sm_file m))).

Definition ensure_no_pending_apply : machine () :=
  fence ← gets sm_pending_fence;
  guard_that fence (InvalidEntry "canonical SQLite state is unavailable while a QWAL apply is pending").

(** [cache.identity()] *)
Definition canonical_identity : machine StateIdentityV3 :=
  cache ← gets sm_cache; lift (cache_identity cache).

(** ** Prepared targets *)

Definition prepared_matches (prepared : PreparedTarget) effect payload (identity : ControlIdentity) : bool :=
  eqb (pt_cluster_id prepared) (qe_cluster_id effect) && eqb (pt_cluster_id prepared) (ci_cluster_id identity)
  && eqb (pt_node_id prepared) (ci_node_id identity)
  && eqb (pt_epoch prepared) (qe_epoch effect) && eqb (pt_epoch prepared) (ci_epoch identity)
  && eqb (pt_configuration_id prepared) (qe_configuration_id effect)
  && eqb (pt_recovery_generation prepared) (qe_recovery_generation effect)
  && eqb (pt_materializer_fingerprint prepared) (qe_materializer_fingerprint effect)
  && eqb (pt_base_index prepared) (qe_base_index effect) && eqb (pt_base_hash prepared) (qe_base_hash effect)
  && eqb (pt_base_state prepared) (qe_base_state effect) && eqb (pt_target_state prepared) (qe_target_state effect)
  && eqb (pt_effect_digest prepared) (digest [payload]).

Definition discard_prepared_target : machine () := modify (with_prepared None).

Definition discard_prepared_target_unless effect payload (identity : ControlIdentity) : machine () :=
  prepared ← gets sm_prepared_target;
  match prepared with
  | Some prepared => if prepared_matches prepared effect payload identity then mret () else modify (with_prepared None)
  | None => mret ()
  end.

Definition take_matching_prepared_target effect payload : machine (option PreparedTarget) :=
  identity ← control control_identity;
  prepared ← gets sm_prepared_target;
  _ ← modify (with_prepared None);
  mret (match prepared with
        | Some prepared => if prepared_matches prepared effect payload identity then Some prepared else None
        | None => None
        end).

Definition prepared_base_still_sealed (prepared : PreparedTarget) : machine bool :=
  m ← gets id;
  absent ← sqlite_sidecars_absent;
  mret (prepared_base_metadata_matches (pt_base_seal prepared) (sm_file m) && absent).

(** The artifact is a private closed file without sidecars. *)
Definition promote_prepared_target (prepared : PreparedTarget) effect : machine bool :=
  prepared_base_still_sealed prepared ≫= λ sealed : bool,
  if negb sealed then mret false else
  if negb (prepared_base_metadata_matches (pt_target_seal prepared) (pt_artifact prepared)) then mret false else
  if neqb (blen (df_bytes (pt_artifact prepared)))
       (si_page_size (qe_target_state effect) * si_page_count (qe_target_state effect))%N
  then mret false else
  _ ← modify (write_file (df_bytes (pt_artifact prepared)));
  mret true.

(** ** Installing an effect *)

Definition remember_uncommitted_effect payload : machine () := modify (with_uncommitted (Some (digest [payload]))).

(** Whether the pages have to be installed; [false] when the target is in place already. *)
Definition preverify_page_state_transition effect payload (anchor : LogAnchor) : machine bool :=
  _ ← ensure_page_state_sealed;
  current ← canonical_identity;
  if eqb current (qe_target_state effect) && neqb current (qe_base_state effect) then
    installed ← gets sm_uncommitted_effect;
    let exact_in_process_replay := eqb installed (Some (digest [payload])) in
    gets sm_pending_fence ≫= λ fence : bool,
    durable_replay ← (if exact_in_process_replay || negb fence then mret false
                      else
                        existing ← control pending_from;
                        mret (match existing with
                              | Some existing =>
                                  eqb (pa_base_state existing) (qe_base_state effect)
                                  && eqb (pa_target_state existing) (qe_target_state effect)
                                  && eqb (pa_entry existing) anchor
                              | None => false
                              end));
    _ ← guard_that (negb exact_in_process_replay && negb durable_replay)
          (InvalidEntry "QWAL target is installed without an exact in-process replay seal");
    mret false
  else
    _ ← guard_that (neqb current (qe_base_state effect))
          (InvalidEntry "QWAL base page state does not match the canonical cache");
    cache ← gets sm_cache;
    target ← lift (overlay cache (si_page_count (qe_target_state effect)) (effect_patches effect));
    _ ← guard_that (neqb target (qe_target_state effect)) (InvalidEntry "QWAL target page state mismatch");
    mret (neqb current (qe_target_state effect)).

Definition publish_page_state_after_install effect : machine () :=
  seal ← seal_held_canonical;
  m ← gets id;
  '(target, cache) ← lift (apply_patch (sm_cache m) (si_page_count (qe_target_state effect)) (effect_patches effect));
  (* the cache is changed before its identity is compared *)
  _ ← modify (with_page_state cache (sm_seal m));
  _ ← guard_that (neqb target (qe_target_state effect))
        (InvalidEntry "installed QWAL target page state invariant failed");
  modify (with_page_state cache seal).

(** [apply_preverified_qwal_in_place] on the canonical file; nothing is written when its checks fail. *)
Definition apply_in_place (hooks : Hooks) effect : machine () := λ m,
  let file := df_bytes (sm_file m) in
  match check_base file effect with
  | Err e => (Err e, m)
  | Ok _ =>
      let '(r, file') := apply_preverified_qwal_in_place (hk_after_page hooks) file effect in
      (r, write_file file' m)
  end.

Definition verify_installed effect : machine () := λ m, (verify_installed_pages (df_bytes (sm_file m)) effect, m).

(** The part of [install_qwal_effect] that promotes the prepared copy; [false] to fall back to patching. *)
Definition install_promoted effect payload : machine bool :=
  prepared ← take_matching_prepared_target effect payload;
  match prepared with
  | None => mret false
  | Some prepared =>
      _ ← close_connection;
      promote_prepared_target prepared effect ≫= λ promoted : bool,
      if promoted then
        _ ← verify_installed effect;
        _ ← publish_page_state_after_install effect;
        _ ← remember_uncommitted_effect payload;
        _ ← reopen_connection;
        mret true
      else
        _ ← reopen_connection;
        mret false
  end.

Definition install_qwal_effect (hooks : Hooks) effect payload (anchor : LogAnchor) : machine () :=
  preverify_page_state_transition effect payload anchor ≫= λ install : bool,
  if negb install then
    _ ← remember_uncommitted_effect payload;
    reopen_if_closed
  else
    install_promoted effect payload ≫= λ promoted : bool,
    if promoted then mret () else
    _ ← checkpoint_truncate;
    _ ← close_connection;
    _ ← open_bound_canonical;
    _ ← apply_in_place hooks effect;
    _ ← publish_page_state_after_install effect;
    _ ← remember_uncommitted_effect payload;
    reopen_connection.

(** ** Applying an entry *)

Definition decode_qwal_command payload : result SqlError QwalEnvelopeV3 :=
  _ ← reject_if (match strip_prefix QWAL_V3_MAGIC payload with Some _ => false | None => true end)
        (InvalidCommand "QWAL-only SQLite apply requires a QWAL v3 payload");
  decode_qwal_v3 payload.

Definition validate_qwal_identity effect (identity : ControlIdentity) (configuration : ConfigurationState) :
    result SqlError () :=
  reject_if (neqb (qe_cluster_id effect) (ci_cluster_id identity) || neqb (qe_epoch effect) (ci_epoch identity)
             || neqb (qe_configuration_id effect) (cs_config_id configuration)
             || neqb (qe_recovery_generation effect) (ci_recovery_generation identity)
             || neqb (Some (qe_materializer_fingerprint effect)) (to_hex (ci_materializer_fingerprint identity))
             || neqb (qe_base_state effect) (ci_user_state identity))
    (InvalidEntry "QWAL effect identity or materializer fingerprint mismatch").

(** The loop over the receipts of the effect: decoded results and the receipts to store. *)
Definition effect_receipt (anchor : LogAnchor) (acc : list SqlCommandResult * list RequestReceipt) (receipt : QwalReceiptV3) :
    result SqlError (list SqlCommandResult * list RequestReceipt) :=
  let '(results, receipts) := acc in
  r ← decode_sql_result (qr_result_blob receipt);
  canonical ← encode_sql_result r;
  _ ← reject_if (neqb canonical (qr_result_blob receipt)) (InvalidEntry "QWAL result is not canonically encoded");
  Ok (results ++ [r],
      receipts ++ [mkReceipt (qr_request_id receipt) (qr_request_digest receipt) anchor (qr_result_blob receipt)]).

(** Every stored receipt of the effect must be the one to store. *)
Definition check_existing (row : RequestReceipt * result SqlError (option RequestReceipt)) : result SqlError () :=
  let '(expected, existing) := row in
  existing ← existing;
  match existing with
  | None => Ok ()
  | Some existing =>
      reject_if (neqb existing expected) (InvalidEntry "QWAL request receipt already belongs to another entry or result")
  end.

Definition outcome_at entry (sql_result : option SqlCommandResult) : ApplyOutcome :=
  mkOutcome (mkProgress (le_index entry) (le_hash entry)) sql_result.

(** The entry at the applied index, again. *)
Definition reapply_entry entry (tip : ApplyProgress) : machine ApplyOutcome :=
  _ ← guard_that (neqb (le_hash entry) (ap_applied_hash tip))
        (InvalidEntry "current index was reapplied with a different hash");
  sql_result ← (if eqb (le_entry_type entry) Command then
                  effect ← lift (decode_qwal_command (le_payload entry));
                  match qe_receipts effect with
                  | [receipt] =>
                      stored ← control (λ db, lookup_request db (qr_request_id receipt) (qr_request_digest receipt));
                      match stored with
                      | Some stored => r ← lift (decode_sql_result (rr_result_blob stored)); mret (Some r)
                      | None => mret None
                      end
                  | _ => mret None
                  end
                else mret None);
  mret (mkOutcome tip sql_result).

Definition apply_metadata_entry (hooks : Hooks) entry (base_anchor : LogAnchor)
    (current_configuration next_configuration : ConfigurationState) : machine ApplyOutcome :=
  _ ← discard_prepared_target;
  _ ← lift (match le_entry_type entry with
            | Noop => reject_if (negb (blen (le_payload entry) =? 0)%N) (InvalidEntry "Noop payload must be empty")
            | ConfigChangeEntry => Ok ()
            | _ => Err (InvalidEntry "entry type {:?} is unsupported by QWAL")
            end);
  user_state ← control control_user_state;
  _ ← (if eqb (le_entry_type entry) Noop && eqb next_configuration current_configuration then
         transact (commit_metadata_only_entry_with_log base_anchor entry current_configuration user_state)
       else
         let value := mkPending base_anchor (entry_anchor entry) user_state user_state in
         _ ← modify (with_fence true);
         _ ← transact (begin_pending_with_entry value entry);
         _ ← lift (hk_pending_commit hooks);
         _ ← transact (commit_applied value next_configuration []);
         modify (with_fence false));
  mret (outcome_at entry None).

Definition single_result (results : list SqlCommandResult) : option SqlCommandResult :=
  match results with [r] => Some r | _ => None end.

Definition apply_command_entry (hooks : Hooks) entry (identity : ControlIdentity) (base_anchor : LogAnchor)
    (current_configuration next_configuration : ConfigurationState) : machine ApplyOutcome :=
  effect ← (match decode_qwal_command (le_payload entry) with
            | Ok effect => mret effect
            | Err e => _ ← discard_prepared_target; fails e
            end);
  _ ← discard_prepared_target_unless effect (le_payload entry) identity;
  _ ← lift (validate_qwal_identity effect identity current_configuration);
  _ ← guard_that (neqb (qe_base_index effect) (la_index base_anchor) || neqb (qe_base_hash effect) (la_hash base_anchor))
        (InvalidEntry "QWAL effect base does not match the applied tip");
  '(results, receipts) ← lift (try_fold (effect_receipt (entry_anchor entry)) ([], []) (qe_receipts effect));
  existing ← control (λ db, lookup_requests db (receipt_keys receipts));
  _ ← lift (try_fold (λ _ row, check_existing row) () (zip receipts existing));
  let value := mkPending base_anchor (entry_anchor entry) (qe_base_state effect) (qe_target_state effect) in
  _ ← modify (with_fence true);
  _ ← install_qwal_effect hooks effect (le_payload entry) (entry_anchor entry);
  _ ← (λ m, match (_ ← lift (hk_control_commit hooks);
                   transact (commit_rebuildable_apply value entry next_configuration receipts)) m with
            | (Ok _, m) => (Ok (), m)
            | (Err e, m) => (Err e, snd (close_connection m))
            end);
  _ ← modify (with_fence false);
  _ ← modify (with_uncommitted None);
  mret (outcome_at entry (single_result results)).

Definition apply_qwal_entry (hooks : Hooks) entry : machine ApplyOutcome :=
  identity ← control control_identity;
  _ ← guard_that (neqb (le_cluster_id entry) (ci_cluster_id identity)) (InvalidEntry "cluster_id does not match sidecar");
  _ ← guard_that (neqb (le_epoch entry) (ci_epoch identity)) (InvalidEntry "epoch does not match sidecar");
  tip ← control control_applied_tip;
  if eqb (le_index entry) (ap_applied_index tip) then reapply_entry entry tip else
  next_index ← lift (ok_or (checked_add (ap_applied_index tip) 1) (InvalidEntry "applied index is exhausted"));
  _ ← guard_that (neqb (le_index entry) next_index || neqb (le_prev_hash entry) (ap_applied_hash tip))
        (InvalidEntry "entry does not extend the QWAL applied tip");
  current_configuration ← control control_configuration_state;
  next_configuration ← lift (map_err (λ _, InvalidEntry "{error}") (validate_entry current_configuration entry));
  let base_anchor := mkLogAnchor (ap_applied_index tip) (ap_applied_hash tip) in
  if neqb (le_entry_type entry) Command
  then apply_metadata_entry hooks entry base_anchor current_configuration next_configuration
  else apply_command_entry hooks entry identity base_anchor current_configuration next_configuration.

(** After a failed control commit only the installed effect may be applied, and after
    a durable intent only its entry. *)
Definition check_retry entry : machine () :=
  installed ← gets sm_uncommitted_effect;
  match installed with
  | Some installed =>
      guard_that (neqb (le_entry_type entry) Command || neqb installed (digest [le_payload entry]))
        (InvalidEntry "only the exact installed QWAL effect may retry after control failure")
  | None =>
      gets sm_pending_fence ≫= λ fence : bool,
      if fence then
        existing ← control pending_from;
        guard_that (neqb (pa_entry <$> existing) (Some (entry_anchor entry)))
          (InvalidEntry "only the exact durable pending entry may retry physical apply")
      else mret ()
  end.

Definition apply_entry_with_result (hooks : Hooks) entry : machine ApplyOutcome :=
  _ ← ensure_page_state_sealed;
  _ ← guard_that (neqb (recompute_hash entry) (le_hash entry)) (InvalidEntry "hash does not match entry contents");
  _ ← check_retry entry;
  apply_qwal_entry hooks entry.
End machine.
