(* ===== verification/SqlNode.v ===== *)
(** * SqlNode: opening, preparing and moving the SQL state machine

    Models the rest of [SqliteStateMachine] of [crates/rhiza-sql/src/lib.rs]: creating
    and opening a database with its sidecar, preparing an effect from a batch of commands on a private
    copy, receipts of requests, the embedded log, snapshots and their restore. *)

From S2P Require Import Prelude Bytes Text Core ConfigChange ConfigState LogSegment SqlPages WalCapture Qwal QwalFile SqlCommand SqlPolicy SqlExecute SqlControl SqlMachine.
From Stdlib Require Strings.Byte.

Section node.
Context `{Sha256} `{SqliteEngine} `{SqlExecutor} `{Serde SqlCommandResult} `{Serde QwalEnvelopeV3}
  `{Serde ConfigurationState} `{Serde ReplicatedSnapshot} `{Serde SqlCommandV2Envelope} `{Serde QwalSnapshotV3}.

(** ** Opening *)

(** The cache and the seal of a closed file. *)
Definition rebuild_sealed_page_state (sidecars_absent : bool) (file : DbFile) : result SqlError (PageStateCacheV3 * option N) :=
  _ ← reject_if (negb sidecars_absent)
        (InvalidEntry "closed canonical SQLite database has WAL sidecars during page-state rebuild");
  cache ← rebuild_page_state_from_file (df_bytes file) (blen (df_bytes file));
  Ok (cache, Some (df_stamp file)).

(** The page state, and whether an apply is pending. *)
Definition validate_control_database_pair (sidecars_absent : bool) (file : DbFile) (db : ControlDb) :
    result SqlError (PageStateCacheV3 * option N * bool) :=
  '(cache, seal) ← rebuild_sealed_page_state sidecars_absent file;
  actual ← cache_identity cache;
  existing ← pending_from db;
  match existing with
  | Some existing =>
      tip ← control_applied_tip db;
      expected_entry_index ← ok_or (checked_add (ap_applied_index tip) 1)
        (InvalidEntry "pending QWAL entry index is exhausted");
      let mismatch := InvalidEntry "pending QWAL intent does not extend the committed control state" in
      _ ← reject_if (neqb (pa_base existing) (mkLogAnchor (ap_applied_index tip) (ap_applied_hash tip))) mismatch;
      user_state ← control_user_state db;
      _ ← reject_if (neqb (pa_base_state existing) user_state) mismatch;
      _ ← reject_if (neqb (la_index (pa_entry existing)) expected_entry_index) mismatch;
      if eqb actual (pa_base_state existing) then Ok (cache, seal, true) else
      if eqb actual (pa_target_state existing) then
        _ ← (verify ← map_err sqlite_error (sqlite_connect (df_bytes file)); integrity_check verify);
        Ok (cache, seal, true)
      else Err (InvalidEntry "pending QWAL database state matches neither base nor target")
  | None =>
      user_state ← control_user_state db;
      _ ← reject_if (neqb actual user_state)
            (InvalidEntry "canonical SQLite page state does not match the control sidecar");
      Ok (cache, seal, false)
  end.

Definition sql_open_existing_file (sidecars_absent : bool) (file : DbFile) (db : ControlDb) (clock : N) :
    result SqlError SqliteStateMachine :=
  db ← open_existing_unchecked db;
  '(cache, seal, fence) ← validate_control_database_pair sidecars_absent file db;
  _ ← reject_legacy_user_database (df_bytes file);
  _ ← sqlite_open (df_bytes file);
  Ok (mkMachine file true db fence cache seal None None clock).

(** The database that SQLite creates, with its sidecar; an error removes both files. *)
Definition sql_create_new (cluster_id node_id : bytes) (epoch : N) (configuration_state : ConfigurationState) :
    result SqlError SqliteStateMachine :=
  contents ← fresh_database;
  let file := mkDbFile contents 0 in
  '(cache, seal) ← rebuild_sealed_page_state true file;
  fingerprint ← sql_executor_fingerprint;
  state ← cache_identity cache;
  db ← control_create (mkIdentity cluster_id node_id epoch configuration_state 1 fingerprint state);
  _ ← sqlite_open contents;
  Ok (mkMachine file true db false cache seal None None 1).

Definition validate_control_identity (db : ControlDb) (cluster_id node_id : bytes) (epoch : N) : result SqlError () :=
  identity ← control_identity db;
  _ ← reject_if (neqb (ci_cluster_id identity) cluster_id) (IdentityMismatch "cluster_id");
  _ ← reject_if (neqb (ci_node_id identity) node_id) (IdentityMismatch "node_id");
  _ ← reject_if (neqb (ci_epoch identity) epoch) (IdentityMismatch "epoch");
  fingerprint ← sql_executor_fingerprint;
  reject_if (neqb (ci_materializer_fingerprint identity) fingerprint) (IdentityMismatch "SQLite QWAL materializer fingerprint").

(** What is at the path: the database file and its sidecar, each if it exists. *)
Definition open_with_configuration (sidecars_absent : bool) (file : option DbFile) (sidecar : option ControlDb) (clock : N)
    (cluster_id node_id : bytes) (epoch : N) (configuration_state : ConfigurationState) : result SqlError SqliteStateMachine :=
  match file, sidecar with
  | None, None => sql_create_new cluster_id node_id epoch configuration_state
  | Some file, Some sidecar =>
      m ← sql_open_existing_file sidecars_absent file sidecar clock;
      _ ← validate_control_identity (sm_control m) cluster_id node_id epoch;
      Ok m
  | Some _, None =>
      Err (IdentityMismatch "QWAL control sidecar is missing; install a QWAL snapshot instead of auto-migrating")
  | None, Some _ => Err (IdentityMismatch "canonical SQLite database is missing beside its QWAL control sidecar")
  end.

Definition sql_open (sidecars_absent : bool) (file : option DbFile) (sidecar : option ControlDb) (clock : N)
    (cluster_id node_id : bytes) (epoch config_id : N) : result SqlError SqliteStateMachine :=
  open_with_configuration sidecars_absent file sidecar clock cluster_id node_id epoch (active config_id LogHash_ZERO).

(** ** Preparing an effect *)

(** The closure of [prepare_qwal_effect]: the encoded effect with the staged copy, or only the
    results when no member succeeded. *)
Definition stage_effect (base_index : N) (base_hash : LogHash) (identity : ControlIdentity) (base_state : StateIdentityV3)
    (mutation : Connection → result SqlError (PreparedQwalMutation * Connection)) :
    machine (list (result SqlError SqlCommandResult) * option (bytes * QwalEnvelopeV3 * option N * DbFile)) :=
  _ ← close_connection;
  absent ← sqlite_sidecars_absent;
  _ ← guard_that (negb absent) (InvalidEntry "closed SQLite base still has WAL sidecars");
  m ← gets id;
  let base_file := df_bytes (sm_file m) in
  let base_seal := Some (df_stamp (sm_file m)) in
  _ ← guard_that (negb (prepared_base_metadata_matches (sm_seal m) (sm_file m)))
        (InvalidEntry "closed SQLite base no longer matches the cached page-state seal");
  let base_file_bytes := blen base_file in
  let page_size := si_page_size base_state in
  let base_db_pages := (base_file_bytes / page_size)%N in
  _ ← guard_that (negb (is_u32 base_db_pages)) (ResourceExhausted "SQLite base page count overflows");
  staging ← lift (sql_connect base_file);
  '(changes, staging) ← lift (mutation staging);
  match pm_receipts changes with
  | [] => mret (pm_results changes, None)
  | receipts =>
      capture ← lift (match staging_wal staging with
                      | Some wal => capture_wal true (blen wal) wal base_db_pages MAX_QWAL_V3_BYTES
                      | None => Ok NoChange
                      end);
      '(target, pages) ← lift (materialize_wal_capture base_file base_file page_size base_file_bytes capture);
      let target_page_count := (blen target / page_size)%N in
      _ ← guard_that (negb (is_u32 target_page_count)) (ResourceExhausted "SQLite target page count overflows");
      let patches := (λ page, mkPatch (qp_page_no page) (qp_after_image page)) <$> pages in
      target_state ← lift (overlay (sm_cache m) target_page_count patches);
      fingerprint ← lift (ok_or (to_hex (ci_materializer_fingerprint identity)) (SqlPanic "to_hex"));
      let effect := mkQwal (ci_cluster_id identity) (ci_epoch identity) (cs_config_id (ci_configuration_state identity))
                      (ci_recovery_generation identity) base_index base_hash base_state target_state fingerprint
                      receipts pages in
      encoded ← lift (encode_qwal_v3 effect);
      mret (pm_results changes, Some (encoded, effect, base_seal, mkDbFile target (sm_clock m)))
  end.

(** Stage, then open the canonical connection again; its error counts only when staging succeeded. *)
Definition reopening {A} (c : machine A) : machine A := λ m,
  match c m with
  | (Ok a, m) => (_ ← reopen_if_closed; mret a) m
  | (Err e, m) => (Err e, snd (reopen_if_closed m))
  end.

Definition prepare_qwal_effect (base_index : N) (base_hash : LogHash)
    (mutation : ControlDb → Connection → result SqlError (PreparedQwalMutation * Connection)) : machine SqlBatchPreparation :=
  _ ← ensure_page_state_sealed;
  _ ← ensure_no_pending_apply;
  tip ← control control_applied_tip;
  _ ← guard_that (neqb tip (mkProgress base_index base_hash))
        (InvalidEntry "QWAL effect base does not match the materialized SQLite tip");
  identity ← control control_identity;
  base_state ← canonical_identity;
  _ ← guard_that (neqb base_state (ci_user_state identity))
        (InvalidEntry "cached SQLite base state does not match the control sidecar");
  db ← gets sm_control;
  '(results, staged) ← reopening (stage_effect base_index base_hash identity base_state (mutation db));
  match staged with
  | None => _ ← discard_prepared_target; mret (mkPreparation None results)
  | Some (encoded, effect, base_seal, artifact) =>
      let prepared :=
        mkPrepared artifact (Some (df_stamp artifact)) base_seal (qe_cluster_id effect) (ci_node_id identity)
          (qe_epoch effect) (qe_configuration_id effect) (qe_recovery_generation effect)
          (qe_materializer_fingerprint effect) (qe_base_index effect) (qe_base_hash effect) (qe_base_state effect)
          (qe_target_state effect) (digest [encoded]) in
      _ ← modify (with_prepared (Some prepared));
      mret (mkPreparation (Some encoded) results)
  end.

(** The validation of one member; [seen] is the [HashSet] of request ids. *)
Definition preflight_member (seen : gset bytes) (member : SqlBatchMember) : result SqlError () * gset bytes :=
  let command := bm_command member in
  match (_ ← validate_sql_command command;
         decoded ← decode_sql_command (bm_request_payload member);
         reject_if (neqb decoded command) (InvalidCommand "SQL batch member is not the canonical QSQL v2 command")) with
  | Err e => (Err e, seen)
  | Ok _ =>
      if bool_decide (sc_request_id command ∈ seen)
      then (Err (InvalidCommand "SQL batch member repeats a request_id"), seen)
      else (Ok (), {[sc_request_id command]} ∪ seen)
  end.
Fixpoint preflight (seen : gset bytes) (members : list SqlBatchMember) : list (SqlBatchMember * result SqlError ()) :=
  match members with
  | [] => []
  | member :: members =>
      let '(validation, seen) := preflight_member seen member in (member, validation) :: preflight seen members
  end.
Definition lookup_key (member : SqlBatchMember) : bytes * LogHash :=
  (sc_request_id (bm_command member), digest [bm_request_payload member]).
(** The receipts of the valid members come in their order. *)
Fixpoint align_lookups (members : list (SqlBatchMember * result SqlError ()))
    (lookups : list (result SqlError (option RequestReceipt))) :
    list (SqlBatchMember * result SqlError (option RequestReceipt)) :=
  match members with
  | [] => []
  | (member, Err e) :: members => (member, Err e) :: align_lookups members lookups
  | (member, Ok _) :: members =>
      match lookups with
      | lookup :: lookups => (member, lookup) :: align_lookups members lookups
      | [] => (member, Err (SqlPanic "every SQL batch member has one preflight result")) :: align_lookups members []
      end
  end.

(** One member inside its savepoint: an error rolls it back. *)
Definition run_member (acc : list QwalReceiptV3 * list (result SqlError SqlCommandResult) * Connection)
    (row : SqlBatchMember * result SqlError (option RequestReceipt)) :
    list QwalReceiptV3 * list (result SqlError SqlCommandResult) * Connection :=
  let '(receipts, results, staging) := acc in
  let '(member, preflight) := row in
  match preflight with
  | Err e => (receipts, results ++ [Err e], staging)
  | Ok (Some _) =>
      (receipts, results ++ [Err (InvalidCommand "request was already materialized; return its stored receipt")], staging)
  | Ok None =>
      match ('(r, staging') ← execute_sql_statements staging (sc_statements (bm_command member));
             blob ← encode_sql_result r; Ok (r, blob, staging')) with
      | Ok (r, blob, staging') =>
          (receipts ++ [mkQwalReceipt (sc_request_id (bm_command member)) (digest [bm_request_payload member]) blob],
           results ++ [Ok r], staging')
      | Err e => (receipts, results ++ [Err e], staging)
      end
  end.

Definition batch_mutation (members : list SqlBatchMember) (db : ControlDb) (staging : Connection) :
    result SqlError (PreparedQwalMutation * Connection) :=
  let checked := preflight ∅ members in
  let valid := omap (λ row, match row.2 with Ok _ => Some (lookup_key row.1) | Err _ => None end) checked in
  lookups ← lookup_requests db valid;
  let '(receipts, results, staging') := foldl run_member ([], [], staging) (align_lookups checked lookups) in
  Ok (mkMutation receipts results, match receipts with [] => staging | _ => staging' end).

Definition prepare_sql_batch_effect (members : list SqlBatchMember) (base_index : N) (base_hash : LogHash) :
    machine SqlBatchPreparation :=
  _ ← guard_that ((N.of_nat (length members) =? 0)%N || (MAX_QWAL_V3_RECEIPTS <? N.of_nat (length members))%N)
        (InvalidCommand "SQL batch must contain 1..={MAX_QWAL_V3_RECEIPTS} members");
  prepare_qwal_effect base_index base_hash (batch_mutation members).

Definition put_mutation (request_id key value payload : bytes) (db : ControlDb) (staging : Connection) :
    result SqlError (PreparedQwalMutation * Connection) :=
  let request_digest := digest [payload] in
  stored ← lookup_request db request_id request_digest;
  _ ← reject_if (match stored with Some _ => true | None => false end)
        (InvalidCommand "request was already materialized; return its stored receipt");
  staging ← execute_put staging key value;
  let r := mkSqlResult [] in
  blob ← encode_sql_result r;
  Ok (mkMutation [mkQwalReceipt request_id request_digest blob] [Ok r], staging).

Definition prepare_put_effect (request_id key value payload : bytes) (base_index : N) (base_hash : LogHash) : machine bytes :=
  canonical_request ← lift (encode_put_request request_id key value);
  _ ← guard_that (neqb payload canonical_request) (InvalidCommand "put effect request is not the canonical put command");
  preparation ← prepare_qwal_effect base_index base_hash (put_mutation request_id key value payload);
  lift (ok_or (bp_effect preparation) (InvalidCommand "put effect unexpectedly produced no successful member")).

Definition validate_sql_write (command : SqlCommand) : machine () :=
  request ← lift (encode_sql_command command);
  tip ← control control_applied_tip;
  preparation ← prepare_sql_batch_effect [mkMember command request] (ap_applied_index tip) (ap_applied_hash tip);
  match bp_results preparation with
  | r :: _ => _ ← lift r; mret ()
  | [] => fails (SqlPanic "one-member batch returns one result")
  end.

(** ** Reads *)

Definition outcome_of (receipt : RequestReceipt) : RequestOutcome :=
  mkRequestOutcome (la_index (rr_original_anchor receipt)) (la_hash (rr_original_anchor receipt)).

Definition sql_check_request (request_id payload : bytes) : machine (option RequestOutcome) :=
  _ ← with_connection;
  _ ← ensure_no_pending_apply;
  stored ← control (λ db, lookup_request db request_id (digest [payload]));
  mret (outcome_of <$> stored).

Definition check_payload (request : bytes * bytes) : result SqlError () :=
  command ← decode_sql_command request.2;
  reject_if (neqb (sc_request_id command) request.1)
    (InvalidCommand "SQL payload request_id does not match lookup request_id").
Definition checked_lookup (row : result SqlError () * result SqlError (option RequestReceipt)) :
    result SqlError (option (RequestOutcome * option SqlCommandResult)) :=
  _ ← row.1;
  receipt ← row.2;
  match receipt with
  | None => Ok None
  | Some receipt => r ← decode_sql_result (rr_result_blob receipt); Ok (Some (outcome_of receipt, Some r))
  end.
Definition check_sql_requests (requests : list (bytes * bytes)) :
    machine (list (result SqlError (option (RequestOutcome * option SqlCommandResult)))) :=
  _ ← with_connection;
  _ ← ensure_no_pending_apply;
  let validations := check_payload <$> requests in
  receipts ← control (λ db, lookup_requests db ((λ request, (request.1, digest [request.2])) <$> requests));
  mret (checked_lookup <$> zip validations receipts).
Definition check_sql_request (request_id payload : bytes) : machine (option (RequestOutcome * option SqlCommandResult)) :=
  aligned ← check_sql_requests [(request_id, payload)];
  match last aligned with
  | Some r => lift r
  | None => fails (SqlPanic "one SQL request produces one aligned lookup")
  end.

Definition get_value (key : bytes) : machine (option bytes) :=
  _ ← ensure_no_pending_apply;
  _ ← with_connection;
  m ← gets id;
  conn ← lift (sql_connect (df_bytes (sm_file m)));
  lift (kv_lookup conn key).
(** The deadline of [query_sql_with_timeout] is in the answers of SQLite. *)
Definition query_sql (query : SqlStatement) (max_rows max_bytes : N) : machine SqlQueryResult :=
  _ ← lift (validate_sql_statement query);
  _ ← ensure_no_pending_apply;
  _ ← guard_that ((max_rows =? 0)%N || (max_bytes =? 0)%N) (InvalidCommand "SQL query limits must be positive");
  _ ← with_connection;
  m ← gets id;
  conn ← lift (sql_connect (df_bytes (sm_file m)));
  lift (run_query conn query max_rows max_bytes).

Definition sql_applied_tip : machine ApplyProgress := control control_applied_tip.
Definition sql_embedded_log_entries (from_index through_index : N) : machine (list LogEntry) :=
  control (λ db, control_embedded_log_entries db from_index through_index).
Definition sql_compact_embedded_log_before (anchor_index : N) : machine () :=
  transact (control_compact_embedded_log_before anchor_index).

Definition canonical_db_digest : machine LogHash :=
  _ ← ensure_no_pending_apply;
  _ ← checkpoint_truncate;
  _ ← close_connection;
  m ← gets id;
  _ ← reopen_connection;
  mret (digest [df_bytes (sm_file m)]).

(** ** Snapshots *)

Definition encode_qwal_snapshot (snapshot : QwalSnapshotV3) : result SqlError bytes :=
  body ← ok_or (to_serialized snapshot) (InvalidSnapshot "QSNP encode failed: {error}");
  Ok (QWAL_SNAPSHOT_V3_MAGIC ++ body).
Definition decode_qwal_snapshot (encoded : bytes) : result SqlError QwalSnapshotV3 :=
  body ← ok_or (strip_prefix QWAL_SNAPSHOT_V3_MAGIC encoded) (InvalidSnapshot "QWAL snapshot magic is missing");
  snapshot ← ok_or (from_serialized body) (InvalidSnapshot "QSNP decode failed: {error}");
  canonical ← ok_or (to_serialized snapshot) (InvalidSnapshot "QSNP re-encode failed: {error}");
  _ ← reject_if (neqb canonical body) (InvalidSnapshot "QWAL snapshot is not canonically encoded");
  Ok snapshot.

(** The bytes of a snapshot, read from the closed database. *)
Definition snapshot_bytes (identity : ControlIdentity) : machine bytes :=
  _ ← open_bound_canonical;
  m ← gets id;
  let user_db := df_bytes (sm_file m) in
  _ ← seal_held_canonical;
  cache ← lift (page_state_from_database_bytes user_db);
  state ← lift (cache_identity cache);
  _ ← guard_that (neqb state (ci_user_state identity))
        (InvalidSnapshot "canonical database page state does not match control sidecar");
  replicated_control ← control export_replicated_snapshot;
  lift (encode_qwal_snapshot (mkQwalSnapshot user_db replicated_control state)).

(** The connection is opened again also after an error. *)
Definition then_reopen {A} (c : machine A) : machine A := λ m,
  match c m with
  | (Ok a, m) => (_ ← reopen_connection; mret a) m
  | (Err e, m) => (Err e, snd (reopen_connection m))
  end.

Definition sql_create_snapshot (target : N) : machine Snapshot :=
  _ ← ensure_page_state_sealed;
  _ ← ensure_no_pending_apply;
  tip ← control control_applied_tip;
  _ ← guard_that (neqb (ap_applied_index tip) target)
        (InvalidSnapshot "snapshot target {target} does not match applied index {}");
  identity ← control control_identity;
  fingerprint ← lift sql_executor_fingerprint;
  _ ← checkpoint_truncate;
  _ ← close_connection;
  db_bytes ← then_reopen (snapshot_bytes identity);
  mret (mkSnapshot (ci_cluster_id identity) (ci_configuration_state identity) (ci_epoch identity) target
          (ap_applied_hash tip) (ci_node_id identity) (Some fingerprint) db_bytes).

(** The database file and the sidecar that a restore publishes at an unused path. *)
Definition restore_snapshot_file_with_recovery_generation (snapshot : Snapshot) (target_node_id : bytes)
    (recovery_generation : option N) : result SqlError (bytes * ControlDb) :=
  _ ← reject_if (blen target_node_id =? 0)%N (InvalidSnapshot "target node_id is empty");
  container ← decode_qwal_snapshot (sn_db_bytes snapshot);
  fingerprint ← sql_executor_fingerprint;
  _ ← reject_if (neqb (sn_executor_fingerprint snapshot) (Some fingerprint))
        (InvalidSnapshot "QWAL snapshot materializer fingerprint does not match local SQLite");
  _ ← (restore_conn ← map_err (λ _, InvalidSnapshot "{err}") (sqlite_connect (qs_user_db container)); integrity_check restore_conn);
  cache ← page_state_from_database_bytes (qs_user_db container);
  state ← cache_identity cache;
  _ ← reject_if (neqb state (qs_user_state container))
        (InvalidSnapshot "QWAL snapshot database does not match its page state");
  db ← control_create (mkIdentity (sn_cluster_id snapshot) target_node_id (sn_epoch snapshot)
                         (sn_configuration_state snapshot) 1 fingerprint (qs_user_state container));
  db ← import_replicated_snapshot_with_recovery_generation (qs_replicated_control container) recovery_generation db;
  imported_tip ← control_applied_tip db;
  configuration_state ← control_configuration_state db;
  user_state ← control_user_state db;
  _ ← reject_if (neqb (ap_applied_index imported_tip) (sn_index snapshot)
                 || neqb (ap_applied_hash imported_tip) (sn_applied_hash snapshot)
                 || neqb configuration_state (sn_configuration_state snapshot)
                 || neqb user_state (qs_user_state container)
                 || match recovery_generation with
                    | Some expected => negb (match control_recovery_generation db with Ok g => eqb g expected | Err _ => false end)
                    | None => false
                    end)
        (InvalidSnapshot "QWAL snapshot manifest does not match replicated control state");
  Ok (qs_user_db container, db).
Definition sql_restore_snapshot_file (snapshot : Snapshot) (target_node_id : bytes) : result SqlError (bytes * ControlDb) :=
  restore_snapshot_file_with_recovery_generation snapshot target_node_id None.

(** *** Recovery snapshots *)

(** [format!("snapshot-{index:015}")] *)
Definition snapshot_id (index : N) : bytes := lit "snapshot-" ++ decimal_padded 15 index.

Definition sql_create_recovery_snapshot (recovery_generation : N) : machine RecoverySnapshot :=
  _ ← guard_that (recovery_generation =? 0)%N (InvalidSnapshot "recovery_generation must be positive");
  tip ← control control_applied_tip;
  let target := ap_applied_index tip in
  _ ← guard_that (target =? 0)%N (InvalidSnapshot "recovery snapshot requires an applied entry");
  snapshot ← sql_create_snapshot target;
  mret (mkRecoverySnapshot snapshot
          (anchor_new_with_configuration (sn_cluster_id snapshot) (sn_epoch snapshot) (sn_configuration_state snapshot)
             recovery_generation (mkLogAnchor (sn_index snapshot) (sn_applied_hash snapshot))
             (mkSnapshotIdentity (snapshot_id (sn_index snapshot)) (digest [sn_db_bytes snapshot]) (blen (sn_db_bytes snapshot))
                (sn_executor_fingerprint snapshot)))).

Definition sql_restore_recovery_snapshot_file (db_bytes : bytes) (anchor : RecoveryAnchor) (target_node_id : bytes) :
    result SqlError (bytes * ControlDb) :=
  _ ← reject_if (blen target_node_id =? 0)%N (InvalidSnapshot "target node_id is empty");
  _ ← reject_if (neqb (si_size_bytes (ra_snapshot anchor)) (blen db_bytes)
                 || neqb (si_digest (ra_snapshot anchor)) (digest [db_bytes]))
        (InvalidSnapshot "recovery anchor does not match snapshot bytes");
  _ ← match si_executor_fingerprint (ra_snapshot anchor) with
      | Some fingerprint =>
          expected ← sql_executor_fingerprint;
          reject_if (neqb fingerprint expected)
            (InvalidSnapshot "recovery snapshot executor fingerprint {} does not match local {}")
      | None => Err (InvalidSnapshot "QWAL recovery snapshot is missing a materializer fingerprint")
      end;
  fingerprint ← sql_executor_fingerprint;
  let manifest :=
    mkSnapshot (ra_cluster_id anchor) (ra_configuration_state anchor) (ra_epoch anchor) (la_index (ra_compacted anchor))
      (la_hash (ra_compacted anchor)) target_node_id (Some fingerprint) db_bytes in
  _ ← reject_if (neqb (snapshot_id (sn_index manifest)) (si_snapshot_id (ra_snapshot anchor)))
        (InvalidSnapshot "recovery snapshot id does not match compacted index");
  restore_snapshot_file_with_recovery_generation manifest target_node_id (Some (ra_recovery_generation anchor)).
End node.
