(* ===== verification/SqlSpec.v ===== *)
(** * SqlSpec: what the log means to the SQL state machine

    The abstract state of a replica (the bytes of the database, the receipts, the
    configuration, the tip) and how an entry changes it, and the operations of the control sidecar as
    updates of what it reads as. *)

From stdpp Require Import strings.
From S2P Require Import Prelude Bytes Text Core ConfigChange ConfigState LogSegment SqlPages SqlMerkle SqlPatch WalCapture Qwal QwalFile SqlCommand SqlPolicy SqlExecute SqlControl SqlMachine SqlNode.
From Stdlib Require Strings.Byte.

(** ** Laws of the serializers *)

(** A configuration state that can be read again: the successor of a bound stop is well formed. *)
Definition config_wf `{Sha256} (c : ConfigurationState) : Prop :=
  match c with Stopped _ _ _ (Bound s _) => successor_wf s | _ => True end.

(** [serde_json] writes every configuration state and reads it back. *)
Class ConfigLaws `{Sha256} `{Serde ConfigurationState} : Prop := {
  config_reads (c : ConfigurationState) body : config_wf c → to_serialized c = Some body → from_serialized body = Some c
}.

(** A decoded effect has the integer types of the source. *)
Class EffectTypes `{Serde QwalEnvelopeV3} : Prop := {
  effect_u32 body (effect : QwalEnvelopeV3) : from_serialized body = Some effect →
    is_u32 (si_page_count (qe_target_state effect)) = true
}.

(** ** The abstract state *)

Record SqlState : Type := mkSqlState {
  ss_file : bytes; ss_receipts : gmap bytes ReceiptRow; ss_configuration : ConfigurationState; ss_tip : LogAnchor
}.

Definition receipt_row (e : LogEntry) (receipt : QwalReceiptV3) : bytes * ReceiptRow :=
  (qr_request_id receipt, mkRow (qr_request_digest receipt) (le_index e) (le_hash e) (qr_result_blob receipt)).

Section spec.
Context `{Sha256} `{Serde SqlCommandResult} `{Serde QwalEnvelopeV3}.

(** The database file after an effect: its pages replaced, the file cut or extended to the target size. *)
Definition patch_file (effect : QwalEnvelopeV3) (file : bytes) : bytes :=
  concat (target_pages effect (chunks_exact (si_page_size (qe_base_state effect)) file)).

(** One entry: an effect patches the database and adds its receipts, whose requests are new. *)
Definition spec_apply (s : SqlState) (e : LogEntry) : option SqlState :=
  match validate_entry (ss_configuration s) e with
  | Err _ => None
  | Ok configuration =>
      if eqb (le_entry_type e) Command then
        match decode_qwal_v3 (le_payload e) with
        | Err _ => None
        | Ok effect =>
            let rows := receipt_row e <$> qe_receipts effect in
            if forallb (λ row, negb (bool_decide (is_Some (ss_receipts s !! row.1)))) rows then
              Some (mkSqlState (patch_file effect (ss_file s)) (list_to_map rows ∪ ss_receipts s) configuration (entry_anchor e))
            else None
        end
      else Some (mkSqlState (ss_file s) (ss_receipts s) configuration (entry_anchor e))
  end.

Fixpoint spec_run (s : SqlState) (log : list LogEntry) : option SqlState :=
  match log with
  | [] => Some s
  | e :: log => s ← spec_apply s e; spec_run s log
  end.

Lemma spec_run_snoc s log e s1 s2 : spec_run s log = Some s1 → spec_apply s1 e = Some s2 → spec_run s (log ++ [e]) = Some s2.
Proof.
  revert s. induction log as [|e' log IH]; intros s Hr Ha; cbn in *.
  - injection Hr as ->. by rewrite Ha.
  - destruct (spec_apply s e') as [s'|]; [|done]. cbn in *. by apply IH.
Qed.
End spec.

(** ** Chunks *)

Section chunking.
Context {A : Type}.

Lemma chunks_fuel_spec (fuel n : nat) (l : list A) : 0 < n → length l ≤ fuel →
  concat (chunks_fuel fuel n l) = l ∧ Forall (λ chunk, length chunk ≤ n) (chunks_fuel fuel n l).
Proof.
  intros Hn. revert l. induction fuel as [|fuel IH]; intros l Hl.
  { destruct l; [by repeat constructor|cbn in Hl; lia]. }
  destruct l as [|x l]; [by repeat constructor|]. cbn [chunks_fuel concat].
  destruct (IH (drop n (x :: l))) as [IH1 IH2]. { rewrite length_drop. cbn in *. lia. }
  rewrite IH1, take_drop. split; [done|]. constructor; [rewrite length_take; lia|done].
Qed.
Lemma chunks_spec (n : nat) (l : list A) : 0 < n → concat (chunks n l) = l ∧ Forall (λ chunk, length chunk ≤ n) (chunks n l).
Proof. intros Hn. by apply chunks_fuel_spec. Qed.

Lemma try_fold_concat {E B} (f : B → A → result E B) (b : B) (ls : list (list A)) :
  try_fold (λ b l, try_fold f b l) b ls = try_fold f b (concat ls).
Proof.
  revert b. induction ls as [|l ls IH]; intros b; cbn; [done|]. rewrite try_fold_app.
  destruct (try_fold f b l); cbn; [apply IH|done].
Qed.
Lemma try_fold_ext {E B} (P : A → Prop) (f g : B → A → result E B) (b : B) (l : list A) :
  Forall P l → (∀ b x, P x → f b x = g b x) → try_fold f b l = try_fold g b l.
Proof.
  intros Hf He. revert b. induction Hf as [|x l Hx Hf IH]; intros b; cbn; [done|]. rewrite He by done.
  destruct (g b x); cbn; [apply IH|done].
Qed.
End chunking.

(** ** What the sidecar reads as *)

Definition set_ci_configuration (c : ConfigurationState) (id : ControlIdentity) : ControlIdentity :=
  mkIdentity (ci_cluster_id id) (ci_node_id id) (ci_epoch id) c (ci_recovery_generation id)
    (ci_materializer_fingerprint id) (ci_user_state id).
Definition set_ci_state (s : StateIdentityV3) (id : ControlIdentity) : ControlIdentity :=
  mkIdentity (ci_cluster_id id) (ci_node_id id) (ci_epoch id) (ci_configuration_state id) (ci_recovery_generation id)
    (ci_materializer_fingerprint id) s.

Section reads.
Context `{Sha256} `{Serde SqlCommandResult} `{Serde QwalEnvelopeV3} `{Serde ConfigurationState} `{Serde ReplicatedSnapshot}
  `{!ConfigLaws}.
Implicit Types (db : ControlDb) (id : ControlIdentity) (tip : LogAnchor).

Record ctl_reads db id tip : Prop := {
  cr_identity : control_identity db = Ok id;
  cr_tip : meta_anchor db "applied_tip" = Ok tip;
  cr_wf : config_wf (ci_configuration_state id)
}.

Lemma get_put_ne db key key' value : key ≠ key' → get_meta (put_meta key value db) key' = get_meta db key'.
Proof. intros Hne. unfold get_meta, put_meta, set_meta. cbn. by rewrite lookup_insert_ne. Qed.
Lemma get_put_eq db key value : get_meta (put_meta key value db) key = Ok value.
Proof. unfold get_meta, put_meta, set_meta. cbn. by rewrite lookup_insert_eq. Qed.

Lemma identity_parts db id : control_identity db = Ok id ↔
  meta_text db "cluster_id" = Ok (ci_cluster_id id) ∧ meta_text db "node_id" = Ok (ci_node_id id)
  ∧ meta_u64 db "epoch" = Ok (ci_epoch id) ∧ meta_configuration db = Ok (ci_configuration_state id)
  ∧ meta_u64 db "recovery_generation" = Ok (ci_recovery_generation id)
  ∧ meta_hash db "materializer_fingerprint" = Ok (ci_materializer_fingerprint id) ∧ meta_state db = Ok (ci_user_state id).
Proof.
  unfold control_identity. split.
  - intros Hi. apply bind_Ok_inv in Hi as (? & H1' & Hi). apply bind_Ok_inv in Hi as (? & H2' & Hi).
    apply bind_Ok_inv in Hi as (? & H3' & Hi). apply bind_Ok_inv in Hi as (? & H4' & Hi).
    apply bind_Ok_inv in Hi as (? & H5' & Hi). apply bind_Ok_inv in Hi as (? & H6' & Hi).
    apply bind_Ok_inv in Hi as (? & H7' & Hi). apply Ok_inj in Hi as <-. done.
  - intros (-> & -> & -> & -> & -> & -> & ->). by destruct id.
Qed.

(** Reads of other keys are not changed by a write. *)
Lemma text_frame db key key' value : key ≠ key' → meta_text (put_meta key value db) key' = meta_text db key'.
Proof. intros Hne. unfold meta_text. by rewrite get_put_ne. Qed.
Lemma u64_frame db key key' value : key ≠ key' → meta_u64 (put_meta key value db) key' = meta_u64 db key'.
Proof. intros Hne. unfold meta_u64. by rewrite get_put_ne. Qed.
Lemma hash_frame db key key' value : key ≠ key' → meta_hash (put_meta key value db) key' = meta_hash db key'.
Proof. intros Hne. unfold meta_hash. by rewrite get_put_ne. Qed.
Lemma anchor_frame db key key' value : key ≠ key' → meta_anchor (put_meta key value db) key' = meta_anchor db key'.
Proof. intros Hne. unfold meta_anchor. by rewrite get_put_ne. Qed.
Lemma configuration_frame db key value : key ≠ "configuration_state"%string →
  meta_configuration (put_meta key value db) = meta_configuration db.
Proof. intros Hne. unfold meta_configuration. by rewrite get_put_ne. Qed.
Lemma state_frame db key value : key ≠ "page_size"%string → key ≠ "page_count"%string → key ≠ "state_root"%string →
  meta_state (put_meta key value db) = meta_state db.
Proof. intros ???. unfold meta_state. by rewrite !u64_frame, hash_frame. Qed.
Lemma u64_put db key n : is_u64 n = true → meta_u64 (put_u64 key n db) key = Ok n.
Proof.
  intros Hu. unfold meta_u64, put_u64. rewrite get_put_eq. cbn [mbind result_bind]. rewrite blen_be_bytes.
  change (neqb (N.of_nat 8) 8%N) with false. cbn [reject_if mbind result_bind].
  by rewrite be_value_bytes by by apply is_u64_bound.
Qed.
Lemma hash_put db key h : meta_hash (put_hash key h db) key = Ok h.
Proof. unfold meta_hash, put_hash. rewrite get_put_eq. cbn [mbind result_bind]. by rewrite array32_of_as_bytes. Qed.

(** The reads depend on the table [control_meta] only. *)
Lemma reads_meta db db' id tip : ct_meta db' = ct_meta db → ctl_reads db id tip → ctl_reads db' id tip.
Proof.
  intros Hm [Hi Ht Hw].
  assert (∀ key, get_meta db' key = get_meta db key) as Hg by (intros key; unfold get_meta; by rewrite Hm).
  split; [|unfold meta_anchor in *; by rewrite Hg|done].
  unfold control_identity, meta_state, meta_text, meta_u64, meta_configuration, meta_hash in *. by rewrite !Hg.
Qed.

Lemma anchor_bytes_read db a : is_u64 (la_index a) = true → meta_anchor (put_anchor "applied_tip" a db) "applied_tip" = Ok a.
Proof.
  intros Hu. unfold meta_anchor, put_anchor. rewrite get_put_eq. cbn [mbind result_bind]. unfold anchor_bytes.
  rewrite blen_app, blen_be_bytes, blen_as_bytes. cbn [N.of_nat]. change (neqb (N.of_nat 8 + 32)%N 40%N) with false.
  cbn [reject_if mbind result_bind].
  rewrite (index_range_Some _ 8 40 (as_bytes (la_hash a))).
  2: { apply (slice_at _ (be_bytes 8 (la_index a)) _ []); [by rewrite app_nil_r|by rewrite blen_be_bytes|by rewrite blen_as_bytes]. }
  rewrite array32_of_as_bytes. cbn [ok_or mbind result_bind].
  rewrite (index_range_Some _ 0 8 (be_bytes 8 (la_index a))) by (apply (slice_prefix (be_bytes 8 (la_index a)))).
  rewrite be_value_bytes by by apply is_u64_bound. by destruct a.
Qed.

Lemma reads_put_anchor db id tip a : ctl_reads db id tip → is_u64 (la_index a) = true →
  ctl_reads (put_anchor "applied_tip" a db) id a.
Proof.
  intros [Hi _ Hw] Hu. split; [|by apply anchor_bytes_read|done]. rewrite identity_parts in *. unfold put_anchor.
  by rewrite !text_frame, !u64_frame, hash_frame, configuration_frame, state_frame by done.
Qed.

Lemma reads_put_configuration db db' id tip c : ctl_reads db id tip → config_wf c →
  put_configuration c db = Ok db' → ctl_reads db' (set_ci_configuration c id) tip.
Proof.
  intros [Hi Ht Hw] Hc Hp. unfold put_configuration in Hp. apply bind_Ok_inv in Hp as (body & Hb & Hp).
  rewrite ok_or_Ok in Hb. apply Ok_inj in Hp as <-. split; [|by rewrite anchor_frame|done].
  rewrite identity_parts in *. rewrite !text_frame, !u64_frame, hash_frame, state_frame by done. cbn.
  unfold meta_configuration. rewrite get_put_eq. cbn [mbind result_bind]. rewrite (config_reads _ _ Hc Hb). naive_solver.
Qed.

Lemma reads_put_state db db' id tip s : ctl_reads db id tip → is_u32 (si_page_size s) = true → is_u32 (si_page_count s) = true →
  put_state s db = Ok db' → ctl_reads db' (set_ci_state s id) tip.
Proof.
  intros [Hi Ht Hw] H1' H2' Hp. unfold put_state in Hp. apply bind_Ok_inv in Hp as ([] & Hv & Hp). apply Ok_inj in Hp as <-.
  assert (∀ n, is_u32 n = true → is_u64 n = true) as Hu.
  { unfold is_u32, is_u64, u32_max, u64_max. intros n. rewrite !N.leb_le. lia. }
  split; [| |done].
  - rewrite identity_parts in *. unfold put_hash at 1 2 3 4 5 6, put_u64 at 1 2 3 4 5 6 7 8 9 10 11 12.
    rewrite !text_frame, !u64_frame, !hash_frame, !configuration_frame by done. cbn.
    destruct Hi as (-> & -> & -> & -> & -> & -> & _). split_and!; try done.
    unfold meta_state. unfold put_hash. rewrite !u64_frame by done. fold (put_hash "state_root" (si_state_root s)
      (put_u64 "page_count" (si_page_count s) (put_u64 "page_size" (si_page_size s) db))).
    rewrite hash_put, u64_put by auto. unfold put_u64 at 1. rewrite u64_frame, u64_put by auto.
    cbn [mbind result_bind]. rewrite H1'. cbn [negb reject_if mbind result_bind]. rewrite H2'.
    cbn [negb reject_if mbind result_bind]. destruct s. cbn in *. by rewrite Hv.
  - unfold put_hash, put_u64. by rewrite !anchor_frame.
Qed.

(** ** Receipts *)

Lemma check_unique_ids ids0 (requests : list (bytes * LogHash)) r : try_fold check_unique_id ids0 requests = Ok r →
  NoDup requests.*1 ∧ Forall (λ request, request.1 ∉ ids0) requests.
Proof.
  revert ids0. induction requests as [|[i d] requests IH]; intros ids0; cbn [try_fold].
  { by repeat constructor. }
  intros Hf. apply bind_Ok_inv in Hf as (ids1 & Hc & Hf). unfold check_unique_id in Hc. cbn [fst] in Hc.
  apply bind_Ok_inv in Hc as ([] & Hr & Hc). rewrite reject_if_Ok, bool_decide_eq_false in Hr. apply Ok_inj in Hc as <-.
  apply IH in Hf as [Hnd Hall]. split.
  - cbn. constructor; [|done]. intros ([i' d'] & -> & Hin)%list_elem_of_fmap. rewrite Forall_forall in Hall.
    specialize (Hall _ Hin). set_solver.
  - constructor; [done|]. eapply Forall_impl; [exact Hall|]. set_solver.
Qed.

Lemma lookup_chunks_rows db acc cs rows :
  try_fold (λ aligned chunk, rows ← lookup_request_chunk db chunk; Ok (aligned ++ rows)) acc cs = Ok rows →
  rows = acc ++ (align_request db <$> concat cs).
Proof.
  revert acc. induction cs as [|c cs IH]; intros acc; cbn [try_fold concat].
  { intros <-%Ok_inj. by rewrite app_nil_r. }
  intros Hf. apply bind_Ok_inv in Hf as (acc' & Ha & Hf). apply bind_Ok_inv in Ha as (r & Hr & Ha). apply Ok_inj in Ha as <-.
  unfold lookup_request_chunk in Hr. apply bind_Ok_inv in Hr as ([] & _ & Hr). apply Ok_inj in Hr as <-.
  rewrite (IH _ Hf), fmap_app. by rewrite <- app_assoc.
Qed.

(** A bulk lookup answers each request by its own row; the ids are distinct. *)
Lemma lookup_requests_Ok db requests rows : lookup_requests_from db requests = Ok rows →
  rows = align_request db <$> requests ∧ NoDup requests.*1.
Proof.
  unfold lookup_requests_from. destruct requests as [|q requests]; [intros <-%Ok_inj; split; [done|constructor]|].
  set (reqs := q :: requests). intros Hl. apply bind_Ok_inv in Hl as ([] & _ & Hl). apply bind_Ok_inv in Hl as (ids & Hu & Hl).
  destruct (check_unique_ids _ _ _ Hu) as [Hnd _]. split; [|done].
  destruct (chunks_spec RECEIPT_LOOKUP_CHUNK_SIZE reqs) as [Hc Hf]; [unfold RECEIPT_LOOKUP_CHUNK_SIZE, SQLITE_VARIABLE_LIMIT; lia|].
  rewrite <- Hc. by apply lookup_chunks_rows in Hl.
Qed.

Definition stored_row (anchor : LogAnchor) (receipt : RequestReceipt) : bytes * ReceiptRow :=
  (rr_request_id receipt, mkRow (rr_request_digest receipt) (la_index anchor) (la_hash anchor) (rr_result_blob receipt)).

(** The other tables of two sidecars are the same. *)
Definition same_but_receipts db db' : Prop :=
  ct_meta db' = ct_meta db ∧ ct_pending db' = ct_pending db ∧ ct_embedded db' = ct_embedded db.

Lemma insert_rows_Ok (rows : list (bytes * ReceiptRow)) db db' :
  try_fold (λ db row, insert_row row db) db rows = Ok db' →
  same_but_receipts db db' ∧ Forall (λ row, ct_receipts db !! row.1 = None) rows
  ∧ ct_receipts db' = list_to_map rows ∪ ct_receipts db.
Proof.
  revert db. induction rows as [|[k v] rows IH]; intros db; cbn [try_fold].
  { intros <-%Ok_inj. split_and!; [done|constructor|]. by rewrite list_to_map_nil, map_empty_union. }
  intros Hf. apply bind_Ok_inv in Hf as (db1 & Hi & Hf). unfold insert_row in Hi. cbn [fst snd] in Hi.
  destruct (ct_receipts db !! k) as [|] eqn:Hk; [done|]. apply Ok_inj in Hi as <-.
  apply IH in Hf as ((Hm & Hp & He) & Hall & Hr). cbn in *.
  assert (Forall (λ row, row.1 ≠ k ∧ ct_receipts db !! row.1 = None) rows) as Hall'.
  { eapply Forall_impl; [exact Hall|]. intros [k' v']. cbn. intros Hn. destruct (decide (k = k')) as [->|Hne].
    - by rewrite lookup_insert_eq in Hn.
    - rewrite lookup_insert_ne in Hn by done. done. }
  split_and!; [done|..].
  - constructor; [done|]. eapply Forall_impl; [exact Hall'|]. naive_solver.
  - rewrite Hr, <- insert_union_l. symmetry. apply insert_union_r. apply not_elem_of_list_to_map_1.
    intros (row & -> & Hin)%list_elem_of_fmap. rewrite Forall_forall in Hall'. by destruct (Hall' row Hin) as [? _].
Qed.

Lemma insert_receipts_Ok anchor receipts db db' : insert_receipts_bulk anchor receipts db = Ok db' →
  same_but_receipts db db' ∧ Forall (λ receipt, ct_receipts db !! rr_request_id receipt = None) receipts
  ∧ ct_receipts db' = list_to_map (stored_row anchor <$> receipts) ∪ ct_receipts db.
Proof.
  unfold insert_receipts_bulk. destruct receipts as [|r0 receipts]; [intros <-%Ok_inj; split_and!; [done|constructor|]; cbn [fmap list_fmap]; by rewrite list_to_map_nil, map_empty_union|].
  set (l := r0 :: receipts). intros Hi. apply bind_Ok_inv in Hi as ([] & _ & Hi).
  destruct (chunks_spec RECEIPT_INSERT_CHUNK_SIZE l) as [Hc _]; [vm_compute; lia|].
  assert (∀ cs db, try_fold (insert_receipt_chunk anchor) db cs = Ok db' →
    try_fold (λ db row, insert_row row db) db (stored_row anchor <$> concat cs) = Ok db') as Hcs.
  { clear. intros cs. induction cs as [|c cs IH]; intros db; cbn [try_fold concat]; [done|].
    intros Hf. apply bind_Ok_inv in Hf as (db1 & Hi & Hf). unfold insert_receipt_chunk in Hi.
    apply bind_Ok_inv in Hi as ([] & _ & Hi). apply bind_Ok_inv in Hi as (i & Hu & Hi).
    assert (i = la_index anchor) as -> by (unfold u64_to_sql in Hu; destruct (_ <? _)%N; [by apply Ok_inj in Hu|done]).
    assert (try_fold (λ db row, insert_row row db) db (stored_row anchor <$> c) = Ok db1) as Hone.
    { rewrite <- Hi. clear. revert db. induction c as [|r c IH]; intros db; cbn; [done|].
      unfold stored_row at 1. destruct (insert_row _ _); cbn; [apply IH|done]. }
    rewrite fmap_app.
    replace ((stored_row anchor <$> c) ++ (stored_row anchor <$> concat cs))
      with (concat [stored_row anchor <$> c; stored_row anchor <$> concat cs]) by (cbn; by rewrite app_nil_r).
    rewrite <- try_fold_concat. cbn [try_fold]. rewrite Hone. cbn [mbind result_bind]. rewrite (IH _ Hf). done. }
  apply Hcs in Hi. rewrite Hc in Hi. apply insert_rows_Ok in Hi as (Hs & Hall & Hr).
  split_and!; [done| |done]. rewrite Forall_fmap in Hall. exact Hall.
Qed.

(** Receipts of an entry that was not applied yet. *)
Definition rows_before (n : N) (R : gmap bytes ReceiptRow) : Prop := ∀ k row, R !! k = Some row → (rw_log_index row < n)%N.

Lemma push_absent_fresh anchor db acc receipts absent :
  rows_before (la_index anchor) (ct_receipts db) → Forall (λ receipt, rr_original_anchor receipt = anchor) receipts →
  try_fold push_absent acc (zip receipts (align_request db <$> receipt_keys receipts)) = Ok absent →
  absent = acc ++ receipts.
Proof.
  intros Hb Hall. revert acc. induction Hall as [|r receipts Hr Hall IH]; intros acc; cbn [fmap list_fmap receipt_keys zip zip_with try_fold].
  { intros <-%Ok_inj. by rewrite app_nil_r. }
  intros Hf. apply bind_Ok_inv in Hf as (acc1 & Hp & Hf). unfold push_absent, align_request in Hp.
  destruct (ct_receipts db !! rr_request_id r) as [row|] eqn:Hrow; cbn [fmap option_fmap option_map] in Hp.
  - exfalso. destruct (neqb _ _); [done|]. cbn [mbind result_bind] in Hp.
    destruct (eqb _ r) eqn:He; [|done]. rewrite eqb_true in He. specialize (Hb _ _ Hrow).
    rewrite <- He in Hr. rewrite <- Hr in Hb. cbn in Hb. lia.
  - cbn [mbind result_bind] in Hp. apply Ok_inj in Hp as <-. rewrite (IH _ Hf), <- app_assoc. done.
Qed.

Lemma applied_anchors anchor acc receipts r : try_fold (check_applied_receipt anchor) acc receipts = Ok r →
  Forall (λ receipt, rr_original_anchor receipt = anchor) receipts.
Proof.
  revert acc. induction receipts as [|x receipts IH]; intros acc; cbn [try_fold]; [by constructor|].
  intros Hf. apply bind_Ok_inv in Hf as (acc1 & Hc & Hf). constructor; [|by eapply IH].
  destruct acc as [n ids]. unfold check_applied_receipt in Hc. res_inv. by bool_prop.
Qed.

(** ** Transactions *)

Lemma insert_embedded_Ok e db db' : insert_or_validate_embedded_entry e db = Ok db' →
  ct_meta db' = ct_meta db ∧ ct_receipts db' = ct_receipts db ∧ ct_pending db' = ct_pending db.
Proof.
  unfold insert_or_validate_embedded_entry. intros Hi. apply bind_Ok_inv in Hi as (c & _ & Hi).
  apply bind_Ok_inv in Hi as (ep & _ & Hi). apply bind_Ok_inv in Hi as (g & _ & Hi). apply bind_Ok_inv in Hi as ([] & _ & Hi).
  apply bind_Ok_inv in Hi as (i & _ & Hi). destruct (ct_embedded db !! i) as [old|].
  - apply bind_Ok_inv in Hi as (e' & _ & Hi). destruct (eqb e' e); [by apply Ok_inj in Hi as <-|done].
  - apply bind_Ok_inv in Hi as ([] & _ & Hi). by apply Ok_inj in Hi as <-.
Qed.

Lemma pending_from_Ok db p : pending_from db = Ok p → p = ct_pending db.
Proof. unfold pending_from. destruct (ct_pending db) as [q|]; [|by intros <-%Ok_inj]. intros Hp. res_inv. by simplify_eq. Qed.

Lemma put_keeps db : (∀ c db', put_configuration c db = Ok db' →
    ct_receipts db' = ct_receipts db ∧ ct_pending db' = ct_pending db)
  ∧ (∀ s db', put_state s db = Ok db' → ct_receipts db' = ct_receipts db ∧ ct_pending db' = ct_pending db).
Proof.
  split; [unfold put_configuration|unfold put_state]; intros x db' Hp; apply bind_Ok_inv in Hp as (b & _ & Hp);
    by apply Ok_inj in Hp as <-.
Qed.

Lemma commit_transaction_Ok db id tip value cfg receipts db' :
  ctl_reads db id tip → config_wf cfg → is_u64 (la_index (pa_entry value)) = true →
  is_u32 (si_page_size (pa_target_state value)) = true → is_u32 (si_page_count (pa_target_state value)) = true →
  rows_before (la_index (pa_entry value)) (ct_receipts db) →
  commit_applied_transaction value cfg receipts db = Ok db' →
  ctl_reads db' (set_ci_state (pa_target_state value) (set_ci_configuration cfg id)) (pa_entry value)
  ∧ ct_pending db' = None ∧ Forall (λ receipt, ct_receipts db !! rr_request_id receipt = None) receipts
  ∧ ct_receipts db' = list_to_map (stored_row (pa_entry value) <$> receipts) ∪ ct_receipts db
  ∧ NoDup (rr_request_id <$> receipts).
Proof.
  intros Hrd Hwf Hu H1' H2' Hb Hc. unfold commit_applied_transaction in Hc.
  apply bind_Ok_inv in Hc as ([] & _ & Hc). apply bind_Ok_inv in Hc as (g & _ & Hc). apply bind_Ok_inv in Hc as ([] & _ & Hc).
  apply bind_Ok_inv in Hc as (acc & Hchk & Hc). apply bind_Ok_inv in Hc as (rows & Hl & Hc).
  apply bind_Ok_inv in Hc as (absent & Hab & Hc). apply bind_Ok_inv in Hc as (db1 & Hins & Hc).
  apply bind_Ok_inv in Hc as (db2 & Hcf & Hc). apply bind_Ok_inv in Hc as (db3 & Hst & Hc). apply Ok_inj in Hc as <-.
  apply lookup_requests_Ok in Hl as [-> Hnd]. apply applied_anchors in Hchk.
  apply (push_absent_fresh _ _ _ _ _ Hb Hchk) in Hab as ->. cbn [app] in Hins.
  apply insert_receipts_Ok in Hins as ((Hm & Hp & He) & Hall & Hr).
  pose proof (reads_meta _ db1 _ _ Hm Hrd) as Hrd1. apply (reads_put_anchor _ _ _ (pa_entry value)) in Hrd1; [|done].
  pose proof (reads_put_configuration _ _ _ _ _ Hrd1 Hwf Hcf) as Hrd2.
  pose proof (reads_put_state _ _ _ _ _ Hrd2 H1' H2' Hst) as Hrd3.
  apply (proj1 (put_keeps _)) in Hcf as [Hr2 _]. apply (proj2 (put_keeps _)) in Hst as [Hr3 _].
  split_and!; [by apply (reads_meta db3)|done|done|cbn; by rewrite Hr3, Hr2|].
  unfold receipt_keys in Hnd. by rewrite <- list_fmap_compose in Hnd.
Qed.

Lemma commit_rebuildable_Ok db id tip value e cfg receipts db' :
  ctl_reads db id tip → config_wf cfg → is_u64 (le_index e) = true →
  is_u32 (si_page_size (pa_target_state value)) = true → is_u32 (si_page_count (pa_target_state value)) = true →
  rows_before (la_index (pa_entry value)) (ct_receipts db) → pa_entry value = entry_anchor e →
  commit_rebuildable_apply value e cfg receipts db = Ok db' →
  ctl_reads db' (set_ci_state (pa_target_state value) (set_ci_configuration cfg id)) (entry_anchor e)
  ∧ ct_pending db' = None ∧ Forall (λ receipt, ct_receipts db !! rr_request_id receipt = None) receipts
  ∧ ct_receipts db' = list_to_map (stored_row (entry_anchor e) <$> receipts) ∪ ct_receipts db
  ∧ NoDup (rr_request_id <$> receipts).
Proof.
  intros Hrd Hwf Hu H1' H2' Hb Hva Hc. unfold commit_rebuildable_apply in Hc.
  apply bind_Ok_inv in Hc as (p & _ & Hc). apply bind_Ok_inv in Hc as ([] & _ & Hc). apply bind_Ok_inv in Hc as (t & _ & Hc).
  apply bind_Ok_inv in Hc as ([] & _ & Hc). apply bind_Ok_inv in Hc as (s & _ & Hc). apply bind_Ok_inv in Hc as ([] & _ & Hc).
  apply bind_Ok_inv in Hc as ([] & _ & Hc). apply bind_Ok_inv in Hc as (db1 & He & Hc).
  apply insert_embedded_Ok in He as (Hm & Hr & Hp). rewrite <- Hr in Hb |- *. rewrite <- Hva.
  apply (commit_transaction_Ok db1 id tip); try done; [by eapply reads_meta|by rewrite Hva].
Qed.

Lemma begin_pending_Ok db id tip value e db' : ctl_reads db id tip →
  begin_pending_with_entry value e db = Ok db' →
  ctl_reads db' id tip ∧ ct_receipts db' = ct_receipts db ∧ ct_pending db' = Some value
  ∧ (ct_pending db = Some value ∨ ct_pending db = None ∧ pa_base value = tip ∧ pa_base_state value = ci_user_state id).
Proof.
  intros Hrd Hb. unfold begin_pending_with_entry in Hb. apply bind_Ok_inv in Hb as ([] & _ & Hb).
  apply bind_Ok_inv in Hb as (db1 & He & Hb). apply insert_embedded_Ok in He as (Hm & Hr & Hp).
  pose proof (reads_meta _ db1 _ _ Hm Hrd) as Hrd1. apply bind_Ok_inv in Hb as (p & Hpf & Hb). apply pending_from_Ok in Hpf.
  destruct p as [q|].
  - destruct (eqb q value) eqn:Hq; [|done]. rewrite eqb_true in Hq. subst q. apply Ok_inj in Hb as <-.
    rewrite <- Hp, <- Hpf. naive_solver.
  - pose proof Hrd1 as [Hi Ht Hw]. rewrite Ht in Hb. cbn [mbind result_bind] in Hb.
    pose proof Hi as Hi'. rewrite identity_parts in Hi'. destruct Hi' as (_ & _ & _ & _ & _ & _ & Hs). rewrite Hs in Hb.
    cbn [mbind result_bind] in Hb. apply bind_Ok_inv in Hb as ([] & Hg & Hb). rewrite reject_if_Ok, orb_false_iff, !neqb_false in Hg.
    apply bind_Ok_inv in Hb as (n & _ & Hb). apply bind_Ok_inv in Hb as ([] & _ & Hb).
    unfold insert_pending in Hb. do 6 (apply bind_Ok_inv in Hb as (? & _ & Hb)). apply Ok_inj in Hb as <-.
    split_and!; [by apply (reads_meta db1)|done|done|]. right. rewrite <- Hp, <- Hpf. done.
Qed.

Lemma commit_metadata_Ok db id tip base e cfg s db' : ctl_reads db id tip → is_u64 (le_index e) = true →
  commit_metadata_only_entry_with_log base e cfg s db = Ok db' →
  ctl_reads db' id (entry_anchor e) ∧ ct_receipts db' = ct_receipts db ∧ ct_pending db' = None.
Proof.
  intros Hrd Hu Hc. unfold commit_metadata_only_entry_with_log in Hc. apply bind_Ok_inv in Hc as (n & _ & Hc).
  apply bind_Ok_inv in Hc as ([] & _ & Hc). apply bind_Ok_inv in Hc as (p & Hp & Hc). apply bind_Ok_inv in Hc as ([] & Hg & Hc).
  cbv zeta in Hc. do 6 (apply bind_Ok_inv in Hc as (? & _ & Hc)). apply bind_Ok_inv in Hc as (db1 & He & Hc). apply Ok_inj in Hc as <-.
  apply insert_embedded_Ok in He as (Hm & Hr & Hp'). apply pending_from_Ok in Hp as ->. rewrite reject_if_Ok in Hg.
  destruct (ct_pending db) eqn:Hpd; [done|]. split_and!; [|done|done].
  eapply reads_put_anchor; [by eapply reads_meta|done].
Qed.

Lemma commit_applied_Ok db id tip value cfg db' : ctl_reads db id tip → config_wf cfg →
  is_u64 (la_index (pa_entry value)) = true → is_u32 (si_page_size (pa_target_state value)) = true →
  is_u32 (si_page_count (pa_target_state value)) = true → rows_before (la_index (pa_entry value)) (ct_receipts db) →
  commit_applied value cfg [] db = Ok db' →
  ctl_reads db' (set_ci_state (pa_target_state value) (set_ci_configuration cfg id)) (pa_entry value)
  ∧ ct_pending db' = None ∧ ct_receipts db' = ct_receipts db ∧ ct_pending db = Some value.
Proof.
  intros Hrd Hwf Hu H1' H2' Hb Hc. unfold commit_applied in Hc. apply bind_Ok_inv in Hc as ([] & _ & Hc).
  apply bind_Ok_inv in Hc as (p & Hp & Hc). apply pending_from_Ok in Hp as ->. apply bind_Ok_inv in Hc as ([] & Hg & Hc).
  rewrite reject_if_Ok, neqb_false in Hg.
  destruct (commit_transaction_Ok _ _ _ _ _ _ _ Hrd Hwf Hu H1' H2' Hb Hc) as (Hr & Hpd & _ & Hrec & _).
  split_and!; [done|done| |done]. rewrite Hrec. cbn [fmap list_fmap]. by rewrite list_to_map_nil, map_empty_union.
Qed.
End reads.
