(* ===== verification/SqlInstall.v ===== *)
(** * SqlInstall: installing an effect in the running machine

    Triples over the monad of [SqlMachine], the states of a machine between operations
    ([phase]), and what [install_qwal_effect] does: it leaves the patched database
    with its page state, or a fenced machine. *)

From stdpp Require Import strings.
From S2P Require Import Prelude Bytes Text Core ConfigChange ConfigState LogSegment SqlPages SqlMerkle SqlPatch WalCapture Qwal QwalFile SqlCommand SqlPolicy SqlExecute SqlControl SqlMachine SqlNode SqlSpec.
From Stdlib Require Strings.Byte.

(** ** Triples *)

(** From [P], the computation returns in [Q] or fails in [X]. *)
Definition triple {A} (P : SqliteStateMachine → Prop) (c : machine A) (Q : A → SqliteStateMachine → Prop)
    (X : SqliteStateMachine → Prop) : Prop :=
  ∀ m, P m → match c m with (Ok a, m') => Q a m' | (Err _, m') => X m' end.

Section triples.
Context {A : Type}.
Implicit Types (P X : SqliteStateMachine → Prop) (Q : A → SqliteStateMachine → Prop).

Lemma triple_bind {B} P (c : machine B) (k : B → machine A) (R : B → SqliteStateMachine → Prop) Q X :
  triple P c R X → (∀ b, triple (R b) (k b) Q X) → triple P (c ≫= k) Q X.
Proof.
  intros Hc Hk m Hm. specialize (Hc m Hm). unfold mbind, machine_bind.
  destruct (c m) as [[b|e] m']; [by apply Hk|done].
Qed.
Lemma triple_ret P Q X a : (∀ m, P m → Q a m) → triple P (mret a) Q X.
Proof. intros Hq m Hm. by apply Hq. Qed.
Lemma triple_lift P Q X (r : result SqlError A) :
  (∀ a m, r = Ok a → P m → Q a m) → (∀ m, P m → X m) → triple P (lift r) Q X.
Proof. intros Hq Hx m Hm. unfold lift. destruct r; [by apply Hq|by apply Hx]. Qed.
Lemma triple_control P Q X (f : ControlDb → result SqlError A) :
  (∀ a m, f (sm_control m) = Ok a → P m → Q a m) → (∀ m, P m → X m) → triple P (control f) Q X.
Proof. intros Hq Hx m Hm. unfold control. destruct (f (sm_control m)) eqn:Hf; [by apply Hq|by apply Hx]. Qed.
Lemma triple_gets P Q X (f : SqliteStateMachine → A) : (∀ m, P m → Q (f m) m) → triple P (gets f) Q X.
Proof. intros Hq m Hm. by apply Hq. Qed.
Lemma triple_weaken P P' Q Q' X X' (c : machine A) :
  (∀ m, P m → P' m) → (∀ a m, Q' a m → Q a m) → (∀ m, X' m → X m) → triple P' c Q' X' → triple P c Q X.
Proof.
  intros Hp Hq Hx Hc m Hm. specialize (Hc m (Hp m Hm)). destruct (c m) as [[a|e] m']; [by apply Hq|by apply Hx].
Qed.
End triples.

Lemma triple_modify P (Q : () → SqliteStateMachine → Prop) X f : (∀ m, P m → Q () (f m)) → triple P (modify f) Q X.
Proof. intros Hq m Hm. by apply Hq. Qed.
Lemma triple_guard P (Q : () → SqliteStateMachine → Prop) X c e :
  (∀ m, c = false → P m → Q () m) → (∀ m, P m → X m) → triple P (guard_that c e) Q X.
Proof. intros Hq Hx. apply triple_lift; [|done]. intros [] m Hr. apply Hq. by rewrite reject_if_Ok in Hr. Qed.

(** Unfolds one layer of the monad. *)
Ltac run := cbv beta iota delta [mbind machine_bind mret machine_ret gets guard_that lift modify fails control id].

(** ** Databases and effects *)

Section files.
Context `{Sha256} `{Serde SqlCommandResult}.
Implicit Types (effect : QwalEnvelopeV3) (file : bytes).

Definition db_state file (cache : PageStateCacheV3) (state : StateIdentityV3) : Prop :=
  page_state_from_database_bytes file = Ok cache ∧ cache_identity cache = Ok state.

(** The state of a database determines its bytes. *)
Lemma db_state_binds file file' cache cache' state :
  db_state file cache state → db_state file' cache' state → file = file' ∨ collision.
Proof.
  intros [(ps & pages & -> & Hp & -> & _)%page_state_Ok Hi] [(ps' & pages' & -> & Hp' & -> & _)%page_state_Ok Hi'].
  rewrite cache_identity_merkle in Hi, Hi' by done. apply Ok_inj in Hi, Hi'. rewrite <- Hi' in Hi.
  apply merkle_identity_binds in Hi as [[_ ->]|]; [by left|by right|done|done].
Qed.

Lemma rebuild_page_state file cache : rebuild_page_state_from_file file (blen file) = Ok cache →
  page_state_from_database_bytes file = Ok cache.
Proof.
  unfold rebuild_page_state_from_file, page_state_from_database_bytes. intros Hr.
  apply bind_Ok_inv in Hr as (header & Hh & Hr). rewrite ok_or_Ok in Hh. rewrite Hh. cbn [ok_or mbind result_bind].
  apply bind_Ok_inv in Hr as (ps & Hp & Hr). rewrite Hp. cbn [mbind result_bind].
  assert (take (N.to_nat (blen file / ps)) (chunks_exact ps file) = chunks_exact ps file) as Ht.
  { apply take_ge. unfold chunks_exact. by rewrite length_fmap, length_seq. }
  rewrite Ht in Hr. apply bind_Ok_inv in Hr as (c & Hf & Hr). apply bind_Ok_inv in Hr as (? & _ & Hr). by rewrite <- Hr.
Qed.

(** The pages of a file with a state, at the page size of the state. *)
Lemma db_state_pages file cache state : db_state file cache state →
  let pages := chunks_exact (si_page_size state) file in
  file = concat pages ∧ pages_ok (si_page_size state) pages ∧ cache = merkle_cache (si_page_size state) pages
  ∧ N.of_nat (length pages) = si_page_count state ∧ sqlite_page_size_from_file file = Ok (si_page_size state)
  ∧ state = merkle_identity (si_page_size state) pages.
Proof.
  intros [(ps & pages & -> & Hp & -> & Hs)%page_state_Ok Hi]. rewrite cache_identity_merkle in Hi by done.
  apply Ok_inj in Hi. subst state. cbn. pose proof Hp as (Hps & _ & _ & Hf). destruct (page_size_word _ Hps) as [_ Hsz].
  rewrite chunks_concat by (done || lia). done.
Qed.

(** An accepted effect on its base: the page state after it. *)
Lemma patch_file_state effect file cache : qwal_validate effect = Ok () →
  is_u32 (si_page_count (qe_target_state effect)) = true → db_state file cache (qe_base_state effect) →
  overlay cache (si_page_count (qe_target_state effect)) (effect_patches effect) = Ok (qe_target_state effect) →
  ∃ cache', apply_patch cache (si_page_count (qe_target_state effect)) (effect_patches effect) = Ok (qe_target_state effect, cache')
  ∧ (check_new_header (patch_file effect file) (si_page_size (qe_target_state effect)) = Ok () →
     db_state (patch_file effect file) cache' (qe_target_state effect)).
Proof.
  intros Hv Hu (_ & Hp & -> & Hl & _ & _)%db_state_pages Ho.
  destruct (patched_state effect _ Hv Hp Hl Hu) as (Hn & Hov & Hap & Hst). rewrite Ho in Hov. apply Ok_inj in Hov.
  eexists. split; [by rewrite Hap, <- Hov|]. intros Hh. split; [by apply Hst|].
  rewrite cache_identity_merkle by done. by rewrite <- Hov.
Qed.

Lemma installed_pages effect after file cache file' : is_u32 (si_page_count (qe_target_state effect)) = true →
  db_state file cache (qe_base_state effect) →
  apply_preverified_qwal_in_place after file effect = (Ok (), file') →
  file' = patch_file effect file ∧ check_new_header file' (si_page_size (qe_target_state effect)) = Ok ().
Proof.
  intros Hu (Hf & Hp & _ & Hl & _ & _)%db_state_pages Ha. unfold patch_file.
  set (pages := chunks_exact (si_page_size (qe_base_state effect)) file) in *. rewrite Hf in Ha.
  destruct (check_base (concat pages) effect) as [n|e] eqn:Hc.
  2: { unfold apply_preverified_qwal_in_place in Ha. by rewrite Hc in Ha. }
  destruct (install_outcome after effect pages n Hc) as (r & f & Ha' & Hr); [apply Hp|done|].
  rewrite Ha' in Ha. injection Ha as -> ->. destruct Hr as [Hr ->]; [by left|]. done.
Qed.

Lemma verified_pages effect file cache : qwal_validate effect = Ok () → is_u32 (si_page_count (qe_target_state effect)) = true →
  db_state file cache (qe_base_state effect) → verify_installed_pages (patch_file effect file) effect = Ok () →
  check_new_header (patch_file effect file) (si_page_size (qe_target_state effect)) = Ok ().
Proof.
  intros Hv Hu (_ & Hp & _ & Hl & _ & _)%db_state_pages Hi. unfold patch_file in *.
  rewrite verify_written in Hi; [done|done| |done|done].
  destruct (qwal_validate_patch effect Hv) as (_ & Hpe & _). rewrite <- Hpe. apply Hp.
Qed.
End files.

(** ** Machines that hold a database *)

Section holds.
Context `{Sha256} `{Serde SqlCommandResult} `{Serde QwalEnvelopeV3}.
Implicit Types (m : SqliteStateMachine) (file : bytes) (effect : QwalEnvelopeV3).

(** The file has these bytes, and the cache and the seal are of this file. *)
Definition holds m file (state : StateIdentityV3) : Prop :=
  df_bytes (sm_file m) = file ∧ db_state file (sm_cache m) state ∧ sm_seal m = Some (df_stamp (sm_file m)).

(** A prepared copy of [base]: the result of an effect on it, whose encoding it names. *)
Definition artifact_ok (base : bytes) (p : PreparedTarget) : Prop :=
  ∃ effect payload, encode_qwal_v3 effect = Ok payload ∧ pt_effect_digest p = digest [payload]
  ∧ df_bytes (pt_artifact p) = patch_file effect base.

(** Stamps are older than the clock; a prepared copy whose seal is the stamp of the file is a copy of the file. *)
Definition stamps_ok m : Prop :=
  (df_stamp (sm_file m) < sm_clock m)%N
  ∧ ∀ p stamp, sm_prepared_target m = Some p → pt_base_seal p = Some stamp →
      (stamp < sm_clock m)%N ∧ (stamp = df_stamp (sm_file m) → artifact_ok (df_bytes (sm_file m)) p).

Lemma holds_seal m file state : holds m file state → prepared_base_metadata_matches (sm_seal m) (sm_file m) = true.
Proof. intros (_ & _ & ->). apply N.eqb_refl. Qed.

Lemma stamps_no_prepared m : stamps_ok m → stamps_ok (with_prepared None m).
Proof. intros [Hc _]. by split. Qed.
Lemma stamps_write m contents : stamps_ok m → stamps_ok (write_file contents m).
Proof.
  intros [Hc Hp]. split; cbn; [lia|]. intros p stamp Hs Hb. destruct (Hp p stamp Hs Hb) as [Hlt _]. split; [lia|].
  intros ->. lia.
Qed.

(** An effect that leaves the state as it is leaves the file as it is. *)
Lemma noop_patch effect file cache : qwal_validate effect = Ok () →
  is_u32 (si_page_count (qe_target_state effect)) = true → db_state file cache (qe_base_state effect) →
  overlay cache (si_page_count (qe_target_state effect)) (effect_patches effect) = Ok (qe_target_state effect) →
  qe_target_state effect = qe_base_state effect → patch_file effect file = file ∨ collision.
Proof.
  intros Hv Hu (Hf & Hp & -> & Hl & _ & Hi)%db_state_pages Ho He.
  destruct (patched_state effect _ Hv Hp Hl Hu) as (Hn & Hov & _). rewrite Ho in Hov. apply Ok_inj in Hov.
  rewrite He in Hov. rewrite Hi in Hov at 1. symmetry in Hov.
  apply merkle_identity_binds in Hov as [[_ Hov]|]; [|by right|done|done].
  left. unfold patch_file. rewrite Hov. by symmetry.
Qed.
End holds.

Lemma decoded_valid `{Serde SqlCommandResult} `{Serde QwalEnvelopeV3} `{!EffectTypes} payload effect :
  decode_qwal_v3 payload = Ok effect → qwal_validate effect = Ok () ∧ is_u32 (si_page_count (qe_target_state effect)) = true.
Proof. unfold decode_qwal_v3. intros Hd. res_inv. bool_prop. split; [by destruct v2|]. by eapply effect_u32. Qed.

Section install.
Context `{Sha256} `{SqliteEngine} `{SqlExecutor} `{Serde SqlCommandResult} `{Serde QwalEnvelopeV3}
  `{Serde ConfigurationState} `{Serde ReplicatedSnapshot} `{!PostcardLaws} `{!EffectTypes}.
Context (db : ControlDb) (file : bytes) (effect : QwalEnvelopeV3) (payload : bytes) (hooks : Hooks) (anchor : LogAnchor).
Context (Hdecode : decode_qwal_v3 payload = Ok effect).
Implicit Types m : SqliteStateMachine.

Let target := qe_target_state effect.
Let new_file := patch_file effect file.

Lemma effect_valid : qwal_validate effect = Ok () ∧ is_u32 (si_page_count (qe_target_state effect)) = true.
Proof. by eapply decoded_valid. Qed.

Definition fenced m : Prop := sm_control m = db ∧ sm_pending_fence m = true ∧ stamps_ok m.
Definition base_ready m : Prop :=
  fenced m ∧ sm_uncommitted_effect m = None ∧ holds m file (qe_base_state effect).
Definition verified_ready m : Prop := base_ready m ∧ overlay (sm_cache m) (si_page_count target) (effect_patches effect) = Ok target.
Definition installed m : Prop :=
  fenced m ∧ sm_uncommitted_effect m = Some (digest [payload]) ∧ holds m new_file target.
Definition broken m : Prop := fenced m ∧ sm_uncommitted_effect m = None.
Definition failed m : Prop := broken m ∨ installed m.

Lemma failed_conn b m : failed m → failed (with_conn b m).
Proof. done. Qed.

Lemma reopen_spec (P : SqliteStateMachine → Prop) : (∀ b m, P m → P (with_conn b m)) →
  triple P reopen_connection (λ _, P) P ∧ triple P reopen_if_closed (λ _, P) P.
Proof.
  intros Hc. assert (triple P reopen_connection (λ _, P) P) as Hr.
  { intros m Hm. unfold reopen_connection, open_connection. run.
    destruct (sqlite_open _) as [[]|]; [|done]. destruct (sm_conn m); [done|]. cbn. by apply Hc. }
  split; [done|]. intros m Hm. unfold reopen_if_closed. run.
  destruct (sm_conn m); [done|]. by apply Hr.
Qed.

Lemma preverify_spec : triple base_ready (preverify_page_state_transition effect payload anchor)
  (λ install m, verified_ready m ∧ install = neqb (qe_base_state effect) target) broken.
Proof.
  intros m Hm. pose proof Hm as (Hf & Hu & Hh). pose proof Hh as (Hb & [Hst Hid] & _).
  unfold preverify_page_state_transition, ensure_page_state_sealed, canonical_identity. run. rewrite (holds_seal _ _ _ Hh). cbn [negb reject_if]. rewrite Hid, neqb_refl, andb_false_r.
  cbn [reject_if]. fold target. destruct (overlay _ _ _) as [t|] eqn:Ho; [|by split].
  destruct (neqb t target) eqn:Ht; cbn [reject_if]; [by split|]. rewrite neqb_false in Ht. subst t. split; [|done]. by split.
Qed.

Lemma publish_spec m : fenced m → sm_uncommitted_effect m = None → sm_conn m = false → df_bytes (sm_file m) = new_file →
  ∀ cache', apply_patch (sm_cache m) (si_page_count target) (effect_patches effect) = Ok (target, cache') →
  db_state new_file cache' target →
  match (_ ← publish_page_state_after_install effect; _ ← remember_uncommitted_effect payload; reopen_connection) m with
  | (Ok _, m') => installed m' | (Err _, m') => failed m' end.
Proof.
  intros Hf Hu Hconn Hb cache' Ha Hd. unfold publish_page_state_after_install, seal_held_canonical, sqlite_sidecars_absent.
  unfold remember_uncommitted_effect. run. rewrite Hconn. cbn [negb reject_if]. fold target. rewrite Ha. rewrite neqb_refl. cbn [reject_if].
  set (m1 := with_uncommitted _ _).
  assert (installed m1) as Hi.
  { unfold m1. destruct Hf as (? & ? & Hst). split_and!; try done. }
  destruct (reopen_spec installed) as [Hr _]; [done|]. specialize (Hr m1 Hi).
  destruct (reopen_connection m1) as [[]]; [done|by right].
Qed.

Lemma verified_conn b m : verified_ready m → verified_ready (with_conn b m).
Proof. done. Qed.

Lemma new_state m : verified_ready m →
  ∃ cache', apply_patch (sm_cache m) (si_page_count target) (effect_patches effect) = Ok (target, cache')
  ∧ (check_new_header new_file (si_page_size target) = Ok () → db_state new_file cache' target).
Proof.
  intros ((_ & _ & _ & Hd & _) & Ho). destruct effect_valid as [Hv Hu]. by apply patch_file_state.
Qed.

(** A prepared copy that matches the effect, on the base it was made of, is the patched file. *)
Lemma matching_artifact m p stamp identity : stamps_ok m → sm_prepared_target m = Some p →
  pt_base_seal p = Some stamp → stamp = df_stamp (sm_file m) → prepared_matches p effect payload identity = true →
  df_bytes (pt_artifact p) = patch_file effect (df_bytes (sm_file m)) ∨ collision.
Proof.
  intros [_ Hp] Hs Hb -> Hm. destruct (Hp _ _ Hs Hb) as [_ Ha]. destruct (Ha eq_refl) as (e0 & p0 & He & Hd & Hf).
  unfold prepared_matches in Hm. rewrite !andb_true_iff, !eqb_true in Hm. destruct Hm as [_ Hm]. rewrite Hd in Hm.
  unfold digest in Hm. apply sha256_inj_or_collision in Hm as [Hm|]; [|by right]. cbn in Hm. rewrite !app_nil_r in Hm. subst p0.
  apply encode_decodes in He. rewrite Hdecode in He. apply Ok_inj in He as <-. by left.
Qed.

Lemma promoted_spec : triple verified_ready (install_promoted effect payload)
  (λ promoted m, collision ∨ if promoted then installed m else verified_ready m) (λ m, collision ∨ failed m).
Proof.
  intros m Hm. pose proof Hm as (((Hc & Hfe & Hs) & Hu & Hh) & Ho). pose proof Hh as (Hb & Hd & Hsl).
  destruct (new_state m Hm) as (cache' & Hap & Hnew). destruct effect_valid as [Hv Hu32].
  assert (verified_ready (with_prepared None m)) as Hm0.
  { split; [|done]. split; [|done]. split_and!; [done|done|by apply stamps_no_prepared]. }
  assert (match reopen_connection (with_conn false (with_prepared None m)) with
          | (Ok _, m') => verified_ready m' | (Err _, m') => broken m' end) as Hback.
  { destruct (reopen_spec verified_ready verified_conn) as [Hr _]. specialize (Hr _ (verified_conn false _ Hm0)).
    destruct (reopen_connection _) as [[]]; [done|]. split; apply Hr. }
  unfold install_promoted, take_matching_prepared_target. run.
  destruct (control_identity (sm_control m)) as [identity|] eqn:Hi; [|right; by left].
  destruct (sm_prepared_target m) as [p|] eqn:Hp; [|by right].
  destruct (prepared_matches p effect payload identity) eqn:Hpm; [|by right].
  unfold close_connection, promote_prepared_target, prepared_base_still_sealed, sqlite_sidecars_absent. run.
  cbn [with_conn with_prepared sm_conn sm_file negb]. rewrite andb_true_r.
  destruct (prepared_base_metadata_matches (pt_base_seal p) (sm_file m)) eqn:Hseal; cbn [negb].
  2: { destruct (reopen_connection _) as [[]]; [by right|right; by left]. }
  destruct (prepared_base_metadata_matches (pt_target_seal p) (pt_artifact p)); cbn [negb].
  2: { destruct (reopen_connection _) as [[]]; [by right|right; by left]. }
  destruct (neqb (blen (df_bytes (pt_artifact p))) _).
  { destruct (reopen_connection _) as [[]]; [by right|right; by left]. }
  clear Hback. unfold prepared_base_metadata_matches in Hseal. destruct (pt_base_seal p) as [stamp|] eqn:Hbs; [|done].
  rewrite N.eqb_eq in Hseal.
  set (m1 := write_file _ _). assert (fenced m1) as Hf1.
  { split_and!; [done|done|]. apply stamps_write, stamps_no_prepared. done. }
  destruct (matching_artifact m p stamp identity Hs Hp Hbs Hseal Hpm) as [Ha|Hcol].
  2: { destruct (verify_installed effect m1) as [[]]; [|by left]. destruct (publish_page_state_after_install effect _) as [[]]; [|by left].
       destruct (remember_uncommitted_effect payload _) as [[]]; [|by left]. destruct (reopen_connection _) as [[]]; by left. }
  rewrite Hb in Ha. fold new_file in Ha.
  unfold verify_installed. change (df_bytes (sm_file m1)) with (df_bytes (pt_artifact p)). rewrite Ha.
  destruct (verify_installed_pages new_file effect) as [[]|] eqn:Hver; [|right; left; by split].
  assert (db_state new_file cache' target) as Hnd.
  { apply Hnew. by eapply verified_pages. }
  pose proof (publish_spec m1 Hf1 Hu eq_refl Ha cache' Hap Hnd) as Hpub. cbv beta iota delta [mbind machine_bind] in Hpub.
  destruct (publish_page_state_after_install effect m1) as [[]]; [|by right].
  destruct (remember_uncommitted_effect payload _) as [[]]; [|by right]. destruct (reopen_connection _) as [[]]; by right.
Qed.

Lemma in_place_spec m : verified_ready m → match
    (_ ← checkpoint_truncate; _ ← close_connection; _ ← open_bound_canonical; _ ← apply_in_place hooks effect;
     _ ← publish_page_state_after_install effect; _ ← remember_uncommitted_effect payload; reopen_connection) m with
  | (Ok _, m') => installed m' | (Err _, m') => failed m' end.
Proof.
  intros Hm. pose proof Hm as ((Hf & Hu & Hh) & Ho). pose proof Hh as (Hb & Hd & Hsl).
  destruct (new_state m Hm) as (cache' & Hap & Hnew). destruct effect_valid as [Hv Hu32].
  unfold checkpoint_truncate, with_connection, close_connection, open_bound_canonical, sqlite_sidecars_absent,
    ensure_page_state_sealed, apply_in_place. run.
  destruct (negb (sm_conn m)); cbn [reject_if]; [left; by split|]. cbn [with_conn sm_conn sm_seal sm_file negb reject_if].
  rewrite (holds_seal _ _ _ Hh). cbn [negb reject_if]. rewrite Hb.
  destruct (check_base file effect) as [n|]; [|left; by split].
  destruct (apply_preverified_qwal_in_place (hk_after_page hooks) file effect) as [r file'] eqn:Ha.
  set (m1 := write_file file' _). assert (fenced m1) as Hf1.
  { destruct Hf as (? & ? & Hs). split_and!; [done|done|]. by apply stamps_write. }
  destruct r as [[]|]; [|left; by split].
  destruct (installed_pages _ _ _ _ _ Hu32 Hd Ha) as [Hfile Hhead]. rewrite Hfile in Hhead.
  pose proof (publish_spec m1 Hf1 Hu eq_refl Hfile cache' Hap (Hnew Hhead)) as Hpub. exact Hpub.
Qed.

(** Installing an effect on its base. *)
Lemma install_spec : triple base_ready (install_qwal_effect hooks effect payload anchor)
  (λ _ m, collision ∨ installed m) (λ m, collision ∨ failed m).
Proof.
  unfold install_qwal_effect. eapply triple_bind.
  { eapply (triple_weaken _ _ _ _ _ _ _ (λ m H, H) (λ a m H, H)); [|apply preverify_spec]. intros m Hb. right. by left. }
  intros install. destruct install; cbn [negb].
  - eapply triple_bind; [eapply (triple_weaken _ _ _ _ _ _ _); [|exact (λ a m H, H)|exact (λ m H, H)|apply promoted_spec]; by intros m [Hm _]|].
    intros promoted m [Hc|Hm].
    { match goal with |- match ?x with _ => _ end => destruct x as [[]] end; by left. }
    destruct promoted; [by right|]. pose proof (in_place_spec m Hm) as Hi.
    match goal with |- match ?x with _ => _ end => destruct x as [[]] end; by right.
  - intros m [Hm He]. pose proof Hm as ((Hf & Hu & Hh) & Ho). pose proof Hh as (Hb & Hd & Hsl).
    symmetry in He. rewrite neqb_false in He. destruct effect_valid as [Hv Hu32].
    destruct (noop_patch effect file (sm_cache m) Hv Hu32 Hd Ho (eq_sym He)) as [Hp|Hc].
    2: { match goal with |- match ?x with _ => _ end => destruct x as [[]] end; by left. }
    unfold remember_uncommitted_effect. run. set (m1 := with_uncommitted _ m).
    assert (installed m1) as Hi.
    { split_and!; [done|done|]. unfold new_file. rewrite Hp. split_and!; [done| |done]. by rewrite <- He. }
    destruct (reopen_spec installed) as [_ Hr]; [done|]. specialize (Hr m1 Hi).
    destruct (reopen_if_closed m1) as [[]]; right; [done|by right].
Qed.

(** Installing again what is installed. *)
Lemma reinstall_spec : triple installed (install_qwal_effect hooks effect payload anchor) (λ _, installed) installed.
Proof.
  intros m Hm. pose proof Hm as (Hf & Hu & Hh). pose proof Hh as (Hb & [Hst Hid] & Hsl).
  assert (match (_ ← remember_uncommitted_effect payload; reopen_if_closed) m with
          | (Ok _, m') => installed m' | (Err _, m') => installed m' end) as Hre.
  { unfold remember_uncommitted_effect. run. destruct (reopen_spec installed) as [_ Hr]; [done|]. by apply Hr. }
  unfold install_qwal_effect, preverify_page_state_transition, ensure_page_state_sealed, canonical_identity. run.
  rewrite (holds_seal _ _ _ Hh). cbn [negb reject_if]. rewrite Hid. fold target. rewrite eqb_refl. cbn [andb].
  destruct (neqb target (qe_base_state effect)) eqn:Hne.
  - rewrite Hu, eqb_refl. cbn [orb negb andb reject_if]. exact Hre.
  - cbn [reject_if]. destruct (overlay _ _ _) as [t|]; [|done]. destruct (neqb t target); cbn [reject_if]; [done|].
    rewrite neqb_refl. cbn [negb]. exact Hre.
Qed.
End install.
