(* ===== verification/SqlHistory.v ===== *)
(** * SqlHistory: the SQL database is a function of the log

    The states a machine passes through ([phase]), what every operation does to them,
    and the theorem that whatever applications, failures, preparations, crashes,
    reopenings and restores led to a machine that serves, its database file has
    the bytes, and its sidecar the receipts, that running the applied log gives. *)

From stdpp Require Import strings.
From S2P Require Import Prelude Bytes Text Core ConfigChange ConfigState LogSegment SqlPages SqlMerkle SqlPatch WalCapture Qwal QwalFile SqlCommand SqlPolicy SqlExecute SqlControl SqlMachine SqlNode SqlSpec SqlInstall.
From Stdlib Require Strings.Byte.

Section history.
Context `{Sha256} `{SqliteEngine} `{SqlExecutor} `{Serde SqlCommandResult} `{Serde QwalEnvelopeV3}
  `{Serde ConfigurationState} `{Serde ReplicatedSnapshot} `{Serde SqlCommandV2Envelope} `{Serde QwalSnapshotV3}
  `{!PostcardLaws} `{!EffectTypes} `{!ConfigLaws}.
Implicit Types (m : SqliteStateMachine) (e : LogEntry) (s : SqlState) (id : ControlIdentity) (db : ControlDb).

(** ** The invariant *)

Record ctl_ok s id db : Prop := {
  co_reads : ctl_reads db id (ss_tip s);
  co_config : ci_configuration_state id = ss_configuration s;
  co_receipts : ct_receipts db = ss_receipts s;
  co_before : rows_before (la_index (ss_tip s) + 1) (ss_receipts s);
  co_file : ∃ cache, db_state (ss_file s) cache (ci_user_state id);
  co_tip : is_u64 (la_index (ss_tip s)) = true
}.

(** At rest; with a durable intent of an entry without effect; with an installed effect
    whose commit failed; or fenced after an installation that failed. *)
Inductive phase s id m : Prop :=
| at_rest : sm_pending_fence m = false → sm_uncommitted_effect m = None → ct_pending (sm_control m) = None →
    holds m (ss_file s) (ci_user_state id) → phase s id m
| with_intent p e : sm_pending_fence m = true → sm_uncommitted_effect m = None → ct_pending (sm_control m) = Some p →
    holds m (ss_file s) (ci_user_state id) → pa_base_state p = pa_target_state p →
    pa_entry p = entry_anchor e → recompute_hash e = le_hash e → entry_in_range e = true →
    le_entry_type e ≠ Command → phase s id m
| with_effect effect payload : ct_pending (sm_control m) = None → decode_qwal_v3 payload = Ok effect →
    qe_base_state effect = ci_user_state id → installed (sm_control m) (ss_file s) effect payload m → phase s id m
| is_fenced : sm_pending_fence m = true → sm_uncommitted_effect m = None → ct_pending (sm_control m) = None → phase s id m.

Definition sql_inv s m : Prop := ∃ id, ctl_ok s id (sm_control m) ∧ phase s id m ∧ stamps_ok m.

(** Fields that the invariant does not read. *)
Lemma installed_no_prepared db file effect payload m : installed db file effect payload m →
  installed db file effect payload (with_prepared None m).
Proof. intros ((? & ? & ?) & ? & ?). split_and!; [|done|done]. split_and!; [done|done|by apply stamps_no_prepared]. Qed.
Lemma inv_no_prepared s m : sql_inv s m → sql_inv s (with_prepared None m).
Proof.
  intros (id & Hc & Hp & Hs). exists id. split_and!; [done| |by apply stamps_no_prepared].
  destruct Hp; [by apply at_rest|by eapply with_intent| |by apply is_fenced].
  eapply with_effect; [done..|]. by apply installed_no_prepared.
Qed.
Lemma inv_conn b s m : sql_inv s m → sql_inv s (with_conn b m).
Proof.
  intros (id & Hc & Hp & Hs). exists id. split_and!; [done| |done].
  destruct Hp; [by apply at_rest|by eapply with_intent|by eapply with_effect|by apply is_fenced].
Qed.

Lemma validate_entry_wf c e c' : config_wf c → validate_entry c e = Ok c' → config_wf c'.
Proof.
  intros Hc Hv. apply validate_entry_sound in Hv as [_ Hs]. destruct Hs as [| |i d e s Hr| |]; try done.
  apply recognize_parts_wf in Hr. exact Hr.
Qed.

(** ** Reads do not change the machine *)

Lemma reapply_same e tip m : snd (reapply_entry e tip m) = m.
Proof.
  unfold reapply_entry. run. destruct (reject_if _ _); [|done]. destruct (eqb _ _); [|done].
  destruct (decode_qwal_command _) as [effect|]; [|done]. destruct (qe_receipts effect) as [|r [|]]; [done| |done].
  destruct (lookup_request _ _ _) as [[stored|]|]; [|done|done]. by destruct (decode_sql_result _).
Qed.

Lemma effect_receipts_Ok anchor acc receipts r : try_fold (effect_receipt anchor) acc receipts = Ok r →
  r.2 = acc.2 ++ ((λ x, mkReceipt (qr_request_id x) (qr_request_digest x) anchor (qr_result_blob x)) <$> receipts).
Proof.
  revert acc. induction receipts as [|x receipts IH]; intros [rs rc]; cbn [try_fold].
  { intros <-%Ok_inj. cbn. by rewrite app_nil_r. }
  intros Hf. apply bind_Ok_inv in Hf as (acc1 & Hc & Hf). apply IH in Hf. unfold effect_receipt in Hc. res_inv. simplify_eq.
  rewrite Hf. cbn. by rewrite <- app_assoc.
Qed.

Lemma decode_command payload effect : decode_qwal_command payload = Ok effect → decode_qwal_v3 payload = Ok effect.
Proof. unfold decode_qwal_command. intros Hd. by apply bind_Ok_inv in Hd as (? & _ & Hd). Qed.

(** What may follow the retry rules. *)
Definition may_apply s id e m : Prop :=
  match sm_uncommitted_effect m with
  | None => holds m (ss_file s) (ci_user_state id)
            ∧ (sm_pending_fence m = false ∧ ct_pending (sm_control m) = None
               ∨ sm_pending_fence m = true ∧ le_entry_type e ≠ Command
                 ∧ ∃ p, ct_pending (sm_control m) = Some p ∧ pa_base_state p = pa_target_state p ∧ pa_entry p = entry_anchor e)
  | Some _ => le_entry_type e = Command ∧ ct_pending (sm_control m) = None
      ∧ ∃ effect, decode_qwal_v3 (le_payload e) = Ok effect ∧ qe_base_state effect = ci_user_state id
                  ∧ installed (sm_control m) (ss_file s) effect (le_payload e) m
  end.

Lemma may_apply_no_prepared s id e m : may_apply s id e m → may_apply s id e (with_prepared None m).
Proof.
  unfold may_apply. cbn. destruct (sm_uncommitted_effect m); [|done]. intros (? & ? & effect & ? & ? & ?). split_and!; [done|done|].
  exists effect. split_and!; try done. by apply installed_no_prepared.
Qed.

Lemma check_retry_Ok s id e m m' : phase s id m → entry_in_range e = true → recompute_hash e = le_hash e →
  check_retry e m = (Ok (), m') → m' = m ∧ (may_apply s id e m ∨ collision).
Proof.
  intros Hp Hr Hh. unfold check_retry. run.
  destruct (sm_uncommitted_effect m) as [d|] eqn:Hu.
  - destruct (_ || _) eqn:Hg; [done|]. intros [= <-]. split; [done|].
    rewrite orb_false_iff, !neqb_false in Hg. destruct Hg as [Ht Hd].
    destruct Hp as [|p e0|effect payload Hn Hdec Hb Hi|]; try congruence.
    pose proof Hi as (_ & Hu' & _). rewrite Hu in Hu'. injection Hu' as Hu'. rewrite Hd in Hu'. unfold digest in Hu'.
    apply sha256_inj_or_collision in Hu' as [Hq|]; [|by right]. cbn in Hq. rewrite !app_nil_r in Hq. subst payload.
    left. unfold may_apply. rewrite Hu. eauto 10.
  - destruct (sm_pending_fence m) eqn:Hf.
    + destruct (pending_from (sm_control m)) as [existing|] eqn:Hpf; [|done]. apply pending_from_Ok in Hpf.
      destruct (neqb _ _) eqn:Hg; [done|]. intros [= <-]. split; [done|]. rewrite neqb_false in Hg.
      destruct Hp as [|p e0 _ _ Hpd Hho Hpt Hpe Hre Hra Hty|effect payload _ _ _ (_ & Hu' & _)|_ _ Hpd]; [congruence| |congruence|].
      * rewrite Hpf, Hpd in Hg. cbn in Hg. injection Hg as Hg. rewrite Hpe in Hg. unfold entry_anchor in Hg. injection Hg as Hi Hha.
        destruct (entry_hash_binds e0 e Hra Hr Hre Hh Hha) as [->|]; [|by right].
        left. unfold may_apply. rewrite Hu. split; [done|]. right. eauto 10.
      * rewrite Hpf, Hpd in Hg. done.
    + intros [= <-]. split; [done|]. destruct Hp as [_ _ Hpd Hho| |effect payload _ _ _ (_ & Hu' & _)|]; try congruence.
      left. unfold may_apply. rewrite Hu. eauto.
Qed.

(** ** Entries without effect *)

(** What the code has checked of the next entry. *)
Record next_entry s e next : Prop := {
  ne_range : entry_in_range e = true;
  ne_hash : recompute_hash e = le_hash e;
  ne_index : le_index e = (la_index (ss_tip s) + 1)%N;
  ne_valid : validate_entry (ss_configuration s) e = Ok next
}.

Definition metadata_step s e next : SqlState := mkSqlState (ss_file s) (ss_receipts s) next (entry_anchor e).

Lemma spec_metadata s e next : next_entry s e next → le_entry_type e ≠ Command → spec_apply s e = Some (metadata_step s e next).
Proof. intros [_ _ _ Hv] Ht. unfold spec_apply. rewrite Hv. by rewrite (proj2 (eqb_false _ _) Ht). Qed.

Lemma rows_before_weaken n k R : rows_before n R → (n ≤ k)%N → rows_before k R.
Proof. intros Hb Hk i row Hr. specialize (Hb i row Hr). lia. Qed.

Lemma metadata_ctl s id id' e next db db' : ctl_ok s id db → next_entry s e next →
  ctl_reads db' id' (entry_anchor e) → ci_configuration_state id' = next → ci_user_state id' = ci_user_state id →
  ct_receipts db' = ct_receipts db → ctl_ok (metadata_step s e next) id' db'.
Proof.
  intros [Hr Hg Hrec Hb Hf Ht] [Hra _ Hi _] Hr' Hg' Hu Hrec'. split; cbn; [done|done|congruence| |by rewrite Hu|].
  - eapply rows_before_weaken; [exact Hb|]. lia.
  - unfold entry_in_range in Hra. rewrite !andb_true_iff in Hra. tauto.
Qed.

Lemma meta_state_u32 db state : meta_state db = Ok state → is_u32 (si_page_size state) = true ∧ is_u32 (si_page_count state) = true.
Proof. unfold meta_state. intros Hm. res_inv. simplify_eq. cbn. by rewrite negb_false_iff in *. Qed.

(** Setting the fence for an entry that may be applied. *)
Lemma inv_fence s id e m : ctl_ok s id (sm_control m) → stamps_ok m → may_apply s id e m → entry_in_range e = true →
  recompute_hash e = le_hash e → sm_uncommitted_effect m = None → sql_inv s (with_fence true m).
Proof.
  intros Hc Hs Hma Hra Hh Hu. unfold may_apply in Hma. rewrite Hu in Hma. destruct Hma as [Hho Hma]. exists id.
  split_and!; [done| |done]. destruct Hma as [[_ Hp]|(_ & Hty & p & Hp & Hbt & Hpe)]; [by apply is_fenced|].
  by apply (with_intent _ _ _ p e).
Qed.

Lemma metadata_spec s id hooks e base next m :
  ctl_ok s id (sm_control m) → phase s id m → stamps_ok m → may_apply s id e m → next_entry s e next →
  le_entry_type e ≠ Command →
  match apply_metadata_entry hooks e base (ss_configuration s) next m with
  | (Ok _, m') => sql_inv (metadata_step s e next) m'
  | (Err _, m') => sql_inv s m'
  end.
Proof.
  intros Hc Hph Hs Hma Hne Hty. pose proof Hma as Hma'. unfold may_apply in Hma'.
  destruct (sm_uncommitted_effect m) as [d|] eqn:Hu; [by destruct Hma'|]. destruct Hma' as [Hh Hma'].
  pose proof Hc as [Hrd Hcf Hrec Hb [cache Hfile] Htip]. pose proof Hne as [Hra Hhash Hi Hv].
  assert (is_u64 (le_index e) = true) as Hu64 by (unfold entry_in_range in Hra; rewrite !andb_true_iff in Hra; tauto).
  pose proof (stamps_no_prepared _ Hs) as Hs'. set (m0 := with_prepared None m).
  assert (sql_inv s m0) as Hinv0 by (apply inv_no_prepared; exists id; done).
  assert (sql_inv s (with_fence true m0)) as Hinv1.
  { apply (inv_fence _ id e); try done. unfold may_apply. change (sm_uncommitted_effect m0) with (sm_uncommitted_effect m).
    by rewrite Hu. }
  unfold apply_metadata_entry, discard_prepared_target. run. fold m0.
  lazymatch goal with |- context [match ?r with Ok _ => match control_user_state _ with _ => _ end | Err _ => _ end] =>
    destruct r as [[]|] end; [|done].
  pose proof (cr_identity _ _ _ Hrd) as Hid. rewrite identity_parts in Hid. destruct Hid as (_ & _ & _ & _ & _ & _ & Hst).
  change (sm_control m0) with (sm_control m). unfold control_user_state. rewrite Hst. unfold transact.
  destruct (eqb (le_entry_type e) Noop && eqb next (ss_configuration s)) eqn:Hnoop.
  - run. change (sm_control m0) with (sm_control m).
    destruct (commit_metadata_only_entry_with_log _ _ _ _ _) as [db'|] eqn:Hcm; [|done].
    rewrite andb_true_iff, !eqb_true in Hnoop. destruct Hnoop as [_ ->].
    destruct (commit_metadata_Ok _ _ _ _ _ _ _ _ Hrd Hu64 Hcm) as (Hrd' & Hrec' & Hpd').
    exists id. split_and!; [by apply (metadata_ctl s id id e (ss_configuration s) (sm_control m))| |done].
    destruct Hma' as [[Hf Hp]|(Hf & _ & p & Hp & _)]; [by apply at_rest|].
    exfalso. unfold commit_metadata_only_entry_with_log in Hcm. apply bind_Ok_inv in Hcm as (? & _ & Hcm).
    apply bind_Ok_inv in Hcm as (? & _ & Hcm). apply bind_Ok_inv in Hcm as (pd & Hpf & Hcm). apply pending_from_Ok in Hpf as ->.
    rewrite Hp in Hcm. done.
  - run. change (sm_control (with_fence true m0)) with (sm_control m).
    set (value := mkPending base (entry_anchor e) (ci_user_state id) (ci_user_state id)).
    destruct (begin_pending_with_entry value e (sm_control m)) as [db1|] eqn:Hbp; [|done].
    destruct (begin_pending_Ok _ _ _ _ _ _ Hrd Hbp) as (Hrd1 & Hrec1 & Hpd1 & _).
    assert (ctl_ok s id db1) as Hc1 by (split; [done|done|congruence|done|by exists cache|done]).
    assert (sql_inv s (with_control db1 (with_fence true m0))) as Hinv2.
    { exists id. split_and!; [done| |done]. by apply (with_intent _ _ _ value e). }
    destruct (hk_pending_commit hooks); [|done].
    change (sm_control (with_control db1 (with_fence true m0))) with db1.
    destruct (commit_applied value next [] db1) as [db2|] eqn:Hca; [|done].
    apply (commit_applied_Ok _ id (ss_tip s)) in Hca as (Hrd2 & Hpd2 & Hrec2 & _); try done.
    + exists (set_ci_state (ci_user_state id) (set_ci_configuration next id)). split_and!; [|by apply at_rest|done].
      apply (metadata_ctl s id _ e next (sm_control m)); try done. cbn. congruence.
    + eapply validate_entry_wf; [|exact Hv]. rewrite <- Hcf. apply (cr_wf _ _ _ Hrd).
    + by apply (meta_state_u32 (sm_control m)).
    + by apply (meta_state_u32 (sm_control m)).
    + rewrite Hrec1, Hrec. cbn. by rewrite Hi.
Qed.

(** ** Entries with an effect *)

Definition effect_rows e (effect : QwalEnvelopeV3) : list (bytes * ReceiptRow) := receipt_row e <$> qe_receipts effect.
Definition effect_step s e (effect : QwalEnvelopeV3) next : SqlState :=
  mkSqlState (patch_file effect (ss_file s)) (list_to_map (effect_rows e effect) ∪ ss_receipts s) next (entry_anchor e).
Definition receipts_at (anchor : LogAnchor) (effect : QwalEnvelopeV3) : list RequestReceipt :=
  (λ x, mkReceipt (qr_request_id x) (qr_request_digest x) anchor (qr_result_blob x)) <$> qe_receipts effect.

Lemma stored_rows e effect : stored_row (entry_anchor e) <$> receipts_at (entry_anchor e) effect = effect_rows e effect.
Proof. unfold receipts_at, effect_rows. rewrite <- list_fmap_compose. done. Qed.

Lemma spec_effect s e effect next : next_entry s e next → le_entry_type e = Command →
  decode_qwal_v3 (le_payload e) = Ok effect →
  Forall (λ receipt, ss_receipts s !! rr_request_id receipt = None) (receipts_at (entry_anchor e) effect) →
  spec_apply s e = Some (effect_step s e effect next).
Proof.
  intros [_ _ _ Hv] Ht Hd Hall. unfold spec_apply. rewrite Hv, Ht, eqb_refl, Hd. cbn zeta. fold (effect_rows e effect).
  assert (forallb (λ row : bytes * ReceiptRow, negb (bool_decide (is_Some (ss_receipts s !! row.1)))) (effect_rows e effect) = true) as ->; [|done].
  rewrite <- stored_rows, forallb_forall. intros row Hin%list_elem_of_In. apply list_elem_of_fmap in Hin as (x & -> & Hx).
  rewrite Forall_forall in Hall. specialize (Hall x Hx). cbn. rewrite bool_decide_eq_false_2; [done|]. rewrite Hall. by intros [? ?].
Qed.

(** The commit of an installed effect. *)
Lemma effect_commit_spec s id e effect next m db' : ctl_ok s id (sm_control m) → next_entry s e next →
  decode_qwal_v3 (le_payload e) = Ok effect → installed (sm_control m) (ss_file s) effect (le_payload e) m →
  commit_rebuildable_apply (mkPending (ss_tip s) (entry_anchor e) (qe_base_state effect) (qe_target_state effect)) e next
    (receipts_at (entry_anchor e) effect) (sm_control m) = Ok db' →
  Forall (λ receipt, ss_receipts s !! rr_request_id receipt = None) (receipts_at (entry_anchor e) effect)
  ∧ sql_inv (effect_step s e effect next) (with_uncommitted None (with_fence false (with_control db' m))).
Proof.
  intros Hc Hne Hdec Hin Hcm. pose proof Hc as [Hrd Hcf Hrec Hb [cache Hfile] Htip]. pose proof Hne as [Hra Hhash Hi Hv].
  assert (is_u64 (le_index e) = true) as Hu64 by (unfold entry_in_range in Hra; rewrite !andb_true_iff in Hra; tauto).
  assert (qwal_validate effect = Ok () ∧ is_u32 (si_page_count (qe_target_state effect)) = true) as [Hval Hu32] by (by eapply decoded_valid).
  destruct (qwal_validate_patch effect Hval) as (Hps & _). destruct (page_size_word _ Hps) as [_ Hsz].
  apply (commit_rebuildable_Ok _ id (ss_tip s)) in Hcm as (Hrd' & Hpd & Hall & Hrec' & Hnd); try done.
  2: { eapply validate_entry_wf; [|exact Hv]. rewrite <- Hcf. apply (cr_wf _ _ _ Hrd). }
  2: { cbn. unfold is_u32, u32_max. rewrite N.leb_le. lia. }
  2: { rewrite Hrec. cbn. by rewrite Hi. }
  rewrite Hrec in Hall, Hrec'. split; [done|]. destruct Hin as ((_ & _ & Hst) & _ & Hh).
  exists (set_ci_state (qe_target_state effect) (set_ci_configuration next id)). split_and!; [|by apply at_rest|done]. split; cbn; [done|done| | |exists (sm_cache m); apply Hh|done].
  - by rewrite Hrec', stored_rows.
  - intros k row [Hr|[_ Hr]]%lookup_union_Some_raw.
    + apply elem_of_list_to_map_2 in Hr. apply list_elem_of_fmap in Hr as (x & Hx & _). unfold receipt_row in Hx. simplify_eq. cbn. lia.
    + specialize (Hb k row Hr). lia.
Qed.

Lemma may_apply_fence s id e effect m : may_apply s id e m → le_entry_type e = Command → stamps_ok m →
  decode_qwal_v3 (le_payload e) = Ok effect → qe_base_state effect = ci_user_state id → ct_pending (sm_control m) = None
  ∧ (base_ready (sm_control m) (ss_file s) effect (with_fence true m)
     ∨ installed (sm_control m) (ss_file s) effect (le_payload e) (with_fence true m)).
Proof.
  intros Hma Ht Hs Hd Hb. unfold may_apply in Hma. destruct (sm_uncommitted_effect m) as [d|] eqn:Hu.
  - destruct Hma as (_ & Hp & effect' & Hd' & Hb' & Hi). rewrite Hd in Hd'. apply Ok_inj in Hd' as <-. split; [done|]. right.
    destruct Hi as ((? & ? & ?) & ? & ?). by split_and!.
  - destruct Hma as [Hh [[Hf Hp]|(_ & ? & _)]]; [|done]. split; [done|]. left. rewrite <- Hb in Hh. by split_and!.
Qed.

(** Installing the effect of the entry that may be applied. *)
Lemma install_any s id hooks e effect m : may_apply s id e m → le_entry_type e = Command → stamps_ok m →
  decode_qwal_v3 (le_payload e) = Ok effect → qe_base_state effect = ci_user_state id →
  match install_qwal_effect hooks effect (le_payload e) (entry_anchor e) (with_fence true m) with
  | (Ok _, m') => collision ∨ installed (sm_control m) (ss_file s) effect (le_payload e) m'
  | (Err _, m') => collision ∨ failed (sm_control m) (ss_file s) effect (le_payload e) m'
  end.
Proof.
  intros Hma Ht Hs Hd Hb. destruct (may_apply_fence s id e effect m) as [_ [Hr|Hi]]; [done..| |].
  - exact (install_spec _ _ _ _ hooks (entry_anchor e) Hd _ Hr).
  - pose proof (reinstall_spec _ _ _ _ hooks (entry_anchor e) _ Hi) as Hre.
    destruct (install_qwal_effect _ _ _ _ _) as [[]]; right; [done|by right].
Qed.

Lemma failed_inv s id e effect m m' : ctl_ok s id (sm_control m) → ct_pending (sm_control m) = None →
  decode_qwal_v3 (le_payload e) = Ok effect → qe_base_state effect = ci_user_state id →
  failed (sm_control m) (ss_file s) effect (le_payload e) m' → sql_inv s m'.
Proof.
  intros Hc Hp Hd Hb [((Hc' & Hf & Hs) & Hu)|Hi]; exists id.
  - rewrite Hc'. split_and!; [done| |done]. apply is_fenced; [done|done|by rewrite Hc'].
  - pose proof Hi as ((Hc' & _ & Hs) & _). rewrite <- Hc' in Hp, Hc, Hi. split_and!; [done| |done]. by eapply with_effect.
Qed.

Lemma command_spec s id hooks e next m :
  ctl_ok s id (sm_control m) → phase s id m → stamps_ok m → may_apply s id e m → next_entry s e next →
  le_entry_type e = Command →
  match apply_command_entry hooks e id (ss_tip s) (ss_configuration s) next m with
  | (Ok _, m') => collision ∨ ∃ s', spec_apply s e = Some s' ∧ sql_inv s' m'
  | (Err _, m') => collision ∨ sql_inv s m'
  end.
Proof.
  intros Hc Hph Hs Hma Hne Hty. assert (sql_inv s m) as Hinv by (by exists id). unfold apply_command_entry.
  destruct (decode_qwal_command (le_payload e)) as [effect|err] eqn:Hdec.
  2: { unfold discard_prepared_target, fails. run. right. by apply inv_no_prepared. }
  apply decode_command in Hdec.
  assert (∃ m1, discard_prepared_target_unless effect (le_payload e) id m = (Ok (), m1)
                ∧ sql_inv s m1 ∧ stamps_ok m1 ∧ may_apply s id e m1 ∧ sm_control m1 = sm_control m) as (m1 & Hm1 & Hinv1 & Hs1 & Hma1 & Hc1).
  { unfold discard_prepared_target_unless. run. destruct (sm_prepared_target m) as [p|]; [destruct (prepared_matches _ _ _ _)|]; eauto 10.
    eexists. split; [done|]. split_and!; [by apply inv_no_prepared|by apply stamps_no_prepared| |done].
    by apply may_apply_no_prepared. }
  run. rewrite Hm1. rewrite <- Hc1 in Hc.
  destruct (validate_qwal_identity _ _ _) as [[]|] eqn:Hvi; [|by right].
  assert (qe_base_state effect = ci_user_state id) as Hb.
  { unfold validate_qwal_identity in Hvi. rewrite reject_if_Ok, !orb_false_iff, !neqb_false in Hvi. tauto. }
  destruct (reject_if _ _) as [[]|]; [|by right].
  destruct (try_fold (effect_receipt _) _ _) as [[results receipts]|] eqn:Hrc; [|by right].
  apply effect_receipts_Ok in Hrc. cbn in Hrc. fold (receipts_at (entry_anchor e) effect) in Hrc. subst receipts.
  destruct (lookup_requests _ _) as [existing|]; [|by right].
  destruct (try_fold _ _ _) as [|]; [|by right].
  destruct (may_apply_fence s id e effect m1) as [Hp _]; [done..|].
  pose proof (install_any s id hooks e effect m1 Hma1 Hty Hs1 Hdec Hb) as Hin.
  destruct (install_qwal_effect _ _ _ _ _) as [[[]|] m2].
  2: { destruct Hin as [|Hin]; [by left|right]. by eapply failed_inv. }
  destruct Hin as [Hcol|Hin].
  { match goal with |- match ?x with _ => _ end => destruct x as [[]] end; by left. }
  pose proof Hin as ((Hc2 & _ & _) & _). rewrite <- Hc2 in Hc, Hp, Hin.
  assert (sql_inv s (with_conn false m2)) as Hinv2 by (apply inv_conn; eapply (failed_inv s id e effect m2); eauto; by right).
  destruct (hk_control_commit hooks) as [|]; [|by right]. unfold transact. run.
  destruct (commit_rebuildable_apply _ _ _ _ _) as [db'|] eqn:Hcm; [|by right].
  destruct (effect_commit_spec _ _ _ _ _ _ _ Hc Hne Hdec Hin Hcm) as [Hall Hfin]. right.
  eexists. split; [by eapply spec_effect|]. exact Hfin.
Qed.

(** ** An application, on every path *)

Lemma apply_preserves s hooks e m : sql_inv s m → entry_in_range e = true →
  match apply_entry_with_result hooks e m with
  | (Ok _, m') => collision
      ∨ le_index e = la_index (ss_tip s) ∧ sql_inv s m'
      ∨ follows (la_index (ss_tip s)) (la_hash (ss_tip s)) e = true ∧ recompute_hash e = le_hash e
        ∧ ∃ s', spec_apply s e = Some s' ∧ sql_inv s' m'
  | (Err _, m') => collision ∨ sql_inv s m'
  end.
Proof.
  intros Hinv Hra. pose proof Hinv as (id & Hc & Hph & Hs). unfold apply_entry_with_result, ensure_page_state_sealed. run.
  destruct (reject_if _ _) as [[]|]; [|by right]. destruct (reject_if (neqb (recompute_hash e) _) _) as [[]|] eqn:Hh; [|by right].
  rewrite reject_if_Ok, neqb_false in Hh. destruct (check_retry e m) as [[[]|] m0] eqn:Hcr.
  2: { right. assert (m0 = m) as ->; [|done]. clear -Hcr. unfold check_retry in Hcr. revert Hcr. run.
       destruct (sm_uncommitted_effect m); [by intros [= _ <-]|]. destruct (sm_pending_fence m); [|done].
       destruct (pending_from _); by intros [= _ <-]. }
  destruct (check_retry_Ok s id e m m0 Hph Hra Hh Hcr) as [-> [Hma|Hcol]].
  2: { match goal with |- match ?x with _ => _ end => destruct x as [[]] end; by left. }
  pose proof Hc as [Hrd Hcf Hrec Hb Hf Htip]. pose proof Hrd as [Hid Ht _].
  unfold apply_qwal_entry, control_applied_tip. run. rewrite Hid, Ht. cbn [mbind result_bind].
  destruct (reject_if _ _) as [[]|]; [|by right]. destruct (reject_if _ _) as [[]|]; [|by right]. cbn [ap_applied_index ap_applied_hash].
  destruct (eqb (le_index e) _) eqn:Hi.
  { rewrite eqb_true in Hi. pose proof (reapply_same e (mkProgress (la_index (ss_tip s)) (la_hash (ss_tip s))) m) as Hre.
    destruct (reapply_entry _ _ _) as [[]]; cbn in Hre; subst; [by right; left|by right]. }
  destruct (checked_add (la_index (ss_tip s)) 1) as [n|] eqn:Hn; [|by right]. cbn [ok_or].
  destruct (reject_if _ _) as [[]|] eqn:Hg; [|by right]. rewrite reject_if_Ok, orb_false_iff, !neqb_false in Hg. destruct Hg as [Hin Hpv].
  pose proof Hid as Hid'. rewrite identity_parts in Hid'. destruct Hid' as (_ & _ & _ & Hmc & _).
  unfold control_configuration_state. rewrite Hmc, Hcf.
  destruct (validate_entry (ss_configuration s) e) as [next|] eqn:Hv; [|by right]. cbn [map_err].
  assert (n = (la_index (ss_tip s) + 1)%N) as -> by (unfold checked_add in Hn; by case_match; simplify_eq).
  assert (next_entry s e next) as Hne by (by split).
  assert (follows (la_index (ss_tip s)) (la_hash (ss_tip s)) e = true) as Hfo.
  { unfold follows. by rewrite Hin, Hpv, !eqb_refl. }
  assert (mkLogAnchor (la_index (ss_tip s)) (la_hash (ss_tip s)) = ss_tip s) as -> by (by destruct (ss_tip s)).
  destruct (neqb (le_entry_type e) Command) eqn:Hty.
  - rewrite neqb_true in Hty. pose proof (metadata_spec s id hooks e (ss_tip s) next m Hc Hph Hs Hma Hne Hty) as Hm.
    destruct (apply_metadata_entry _ _ _ _ _ _) as [[]]; [|by right]. right. right. split_and!; [done|done|].
    eexists. split; [by apply spec_metadata|done].
  - rewrite neqb_false in Hty. pose proof (command_spec s id hooks e next m Hc Hph Hs Hma Hne Hty) as Hm.
    destruct (apply_command_entry _ _ _ _ _ _ _) as [[]]; [|done]. destruct Hm as [|Hm]; [by left|]. by right; right.
Qed.
End history.
