(* ===== verification/SqlTrace.v ===== *)
(** * SqlTrace: histories of the SQL state machine

    The operations around the application of entries (preparing effects, compaction of the embedded log, digests,
    snapshots, reopening after a crash, creation and restore) on the invariant of
    [SqlHistory], and the theorems over every history: a machine that serves is the
    state its log gives, replicas with the same tip are identical, and an interrupted application can be completed. *)

From stdpp Require Import strings.
From S2P Require Import Prelude Bytes Text Core ConfigChange ConfigState LogSegment SqlPages SqlMerkle SqlPatch WalCapture Qwal QwalFile SqlCommand SqlPolicy SqlExecute SqlControl SqlMachine SqlNode SqlSpec SqlInstall SqlHistory.
From Stdlib Require Strings.Byte.

(** The serializers of the two snapshots read back what they wrote. *)
Class SnapshotLaws `{Sha256} `{Serde ReplicatedSnapshot} `{Serde QwalSnapshotV3} : Prop := {
  replicated_reads (x : ReplicatedSnapshot) body : config_wf (rs_configuration_state x) →
    to_serialized x = Some body → from_serialized body = Some x;
  container_reads (x : QwalSnapshotV3) body : to_serialized x = Some body → from_serialized body = Some x
}.

Section trace.
Context `{Sha256} `{SqliteEngine} `{SqlExecutor} `{Serde SqlCommandResult} `{Serde QwalEnvelopeV3}
  `{Serde ConfigurationState} `{Serde ReplicatedSnapshot} `{Serde SqlCommandV2Envelope} `{Serde QwalSnapshotV3}
  `{!PostcardLaws} `{!EffectTypes} `{!ConfigLaws} `{!SnapshotLaws}.
Implicit Types (m : SqliteStateMachine) (e : LogEntry) (s : SqlState) (id : ControlIdentity) (db : ControlDb).

(** ** Preparing *)

Lemma overlay_count ps pages target patches state : pages_ok ps pages → is_u32 target = true →
  overlay (merkle_cache ps pages) target patches = Ok state → si_page_count state = target.
Proof.
  intros Hp Hu Ho. pose proof Ho as Ho'. unfold overlay in Ho'. apply bind_Ok_inv in Ho' as (hashed & Hh & _).
  apply (validate_and_hash_Ok _ _ _ _ Hu) in Hh as [Hok _]. cbn in Hok.
  rewrite overlay_Ok in Ho by done. apply Ok_inj in Ho as <-. cbn. rewrite length_patch_pages. lia.
Qed.

(** What a staged effect does to its base: the staged file. *)
Lemma staged_file base cache wal capture staged changed effect : db_state base cache (qe_base_state effect) →
  let ps := si_page_size (qe_base_state effect) in
  capture = NoChange ∨ capture_wal true (blen wal) wal (blen base / ps) MAX_QWAL_V3_BYTES = Ok capture →
  materialize_wal_capture base base ps (blen base) capture = Ok (staged, changed) →
  is_u32 (blen staged / ps) = true →
  overlay cache (blen staged / ps) (page_patch <$> changed) = Ok (qe_target_state effect) → qe_pages effect = changed →
  staged = patch_file effect base.
Proof.
  intros (Hf & Hp & -> & Hl & _ & _)%db_state_pages ps Hcap Hmat Hu Hov Hpg. unfold patch_file. fold ps in Hf, Hp, Hl, Hov |- *.
  set (pages := chunks_exact ps base) in *. clearbody pages. subst base. pose proof Hp as (Hps & _ & _ & Hfull). destruct (page_size_word _ Hps) as [_ Hsz].
  assert (∀ qs, full_pages ps qs → (blen (concat qs) / ps)%N = N.of_nat (length qs)) as Hdiv.
  { intros qs Hq. rewrite (blen_concat ps qs Hq). rewrite N.div_mul by lia. done. }
  unfold target_pages. rewrite (overlay_count _ _ _ _ _ Hp Hu Hov).
  replace (effect_patches effect) with (page_patch <$> changed) by (by rewrite <- Hpg).
  assert (∀ c, capture = Committed c → staged = concat (patch_pages (N.to_nat (wc_target_db_pages c)) (page_patch <$> changed) pages)
    ∧ (blen staged / ps)%N = wc_target_db_pages c) as Hcom.
  { intros c ->. destruct Hcap as [|Hcap]; [done|]. rewrite Hdiv in Hcap by done.
    destruct (staged_pages _ _ _ _ _ _ _ Hp Hcap Hmat) as (Hu32 & _ & Hok & ->). split; [done|].
    rewrite <- (N2Nat.id (wc_target_db_pages c)) in Hu32, Hok. rewrite Hdiv, length_patch_pages by apply (patch_pages_ok ps pages _ _ Hp Hu32 Hok). lia. }
  destruct capture as [|c].
  - unfold materialize_wal_capture in Hmat. apply bind_Ok_inv in Hmat as (? & _ & Hmat). apply Ok_inj in Hmat. injection Hmat as <- <-.
    rewrite Hdiv by done. unfold patch_pages, vec_resize. cbn. by rewrite Nat2N.id, take_ge, Nat.sub_diag, app_nil_r by lia.
  - destruct (Hcom c eq_refl) as [Hs ->]. done.
Qed.

(** The connection is the only part of the machine that staging changes. *)
Lemma stage_spec i h id mutation m : db_state (df_bytes (sm_file m)) (sm_cache m) (ci_user_state id) →
  match stage_effect i h id (ci_user_state id) mutation m with
  | (Ok (_, staged), m') => m' = with_conn false m ∧ ∀ encoded effect seal artifact, staged = Some (encoded, effect, seal, artifact) →
      encode_qwal_v3 effect = Ok encoded ∧ seal = Some (df_stamp (sm_file m)) ∧ df_bytes artifact = patch_file effect (df_bytes (sm_file m))
  | (Err _, m') => m' = with_conn false m
  end.
Proof.
  intros Hd. unfold stage_effect, close_connection, sqlite_sidecars_absent. run. cbn [with_conn sm_conn negb reject_if sm_file sm_seal sm_cache].
  destruct (reject_if _ _) as [[]|]; [|done]. destruct (reject_if _ _) as [[]|]; [|done].
  destruct (sql_connect _) as [staging|]; [|done]. destruct (mutation staging) as [[changes staging']|]; [|done].
  destruct (pm_receipts changes) as [|r rs]; [done|].
  destruct (match staging_wal staging' with Some _ => _ | None => _ end) as [capture|] eqn:Hcap; [|done].
  destruct (materialize_wal_capture _ _ _ _ _) as [[target pages]|] eqn:Hmat; [|done].
  destruct (reject_if _ _) as [[]|] eqn:Hu; [|done]. rewrite reject_if_Ok, negb_false_iff in Hu.
  destruct (overlay _ _ _) as [state|] eqn:Hov; [|done]. destruct (ok_or _ _) as [fp|]; [|done].
  destruct (encode_qwal_v3 _) as [encoded|] eqn:Henc; [|done]. split; [done|].
  intros ? ? ? ? [= <- <- <- <-]. split_and!; [done|done|]. cbn [df_bytes].
  apply (staged_file _ (sm_cache m) (default [] (staging_wal staging')) capture target pages); try done.
  destruct (staging_wal staging') as [wal|]; [by right|left]. by apply Ok_inj in Hcap.
Qed.

(** A machine that serves is at rest. *)
Lemma serving_phase s id m : phase s id m → sm_pending_fence m = false →
  sm_uncommitted_effect m = None ∧ ct_pending (sm_control m) = None ∧ holds m (ss_file s) (ci_user_state id).
Proof. intros [| |effect payload _ _ _ ((_ & Hf' & _) & _)|] Hf; congruence || done. Qed.

Lemma inv_prepared s m p stamp : sql_inv s m → sm_pending_fence m = false → pt_base_seal p = Some stamp →
  stamp = df_stamp (sm_file m) → artifact_ok (df_bytes (sm_file m)) p → sql_inv s (with_prepared (Some p) m).
Proof.
  intros (id & Hc & Hp & [Hs _]) Hf Hb -> Ha. exists id. destruct (serving_phase _ _ _ Hp Hf) as (? & ? & ?).
  split_and!; [done|by apply at_rest|]. split; [done|]. intros p' stamp' [= <-] Hb'. rewrite Hb in Hb'. injection Hb' as <-. by split.
Qed.

Lemma prepare_preserves s i h mutation m : sql_inv s m → sql_inv s (snd (prepare_qwal_effect i h mutation m)).
Proof.
  intros Hinv. pose proof Hinv as (id & Hc & Hp & Hs). unfold prepare_qwal_effect, ensure_page_state_sealed, ensure_no_pending_apply, canonical_identity. run.
  destruct (reject_if _ _) as [[]|]; [|done]. destruct (reject_if (sm_pending_fence m) _) as [[]|] eqn:Hf; [|done].
  rewrite reject_if_Ok in Hf. destruct (serving_phase _ _ _ Hp Hf) as (Hu & Hpd & Hh). pose proof Hh as (Hb & Hd & _).
  destruct (control_applied_tip _); [|done]. destruct (reject_if _ _) as [[]|]; [|done].
  rewrite (cr_identity _ _ _ (co_reads _ _ _ Hc)). pose proof Hd as [_ Hci]. rewrite Hci, neqb_refl. cbn [reject_if].
  unfold reopening. rewrite <- Hb in Hd. pose proof (stage_spec i h id (mutation (sm_control m)) m Hd) as Hst.
  assert (∀ b, sql_inv s (with_conn b m)) as Hinv' by (intros b; by apply inv_conn).
  destruct (stage_effect _ _ _ _ _ m) as [[[results staged]|] m1]; [destruct Hst as [-> Hst]|subst m1].
  all: destruct (reopen_spec (λ m', ∃ b, m' = with_conn b m)) as [_ Hr]; [by intros b ? [? ->]; exists b|].
  all: specialize (Hr _ (ex_intro _ false eq_refl)); run; destruct (reopen_if_closed _) as [[]]; destruct Hr as [b ->]; try apply Hinv'.
  destruct staged as [[[[encoded effect] seal] artifact]|].
  2: { unfold discard_prepared_target. run. by apply inv_no_prepared. }
  destruct (Hst _ _ _ _ eq_refl) as (Henc & -> & Hart). eapply inv_prepared; [by apply Hinv'|done|done|done|].
  by exists effect, encoded.
Qed.

(** ** Operations that leave the replicated state as it is *)

Lemma inv_embedded s m embedded : sql_inv s m → sql_inv s (with_control (set_embedded embedded (sm_control m)) m).
Proof.
  intros (id & [Hr ? ? ? ? ?] & Hp & Hs). exists id. split_and!; [split; try done; by apply (reads_meta (sm_control m))| |done].
  destruct Hp as [| |effect payload ? ? ? ((_ & ? & ?) & ? & ?)|]; [by apply at_rest|by eapply with_intent| |by apply is_fenced].
  by apply (with_effect _ _ _ effect payload).
Qed.

Lemma compact_preserves s i m : sql_inv s m → sql_inv s (snd (sql_compact_embedded_log_before i m)).
Proof.
  intros Hinv. unfold sql_compact_embedded_log_before, transact, control_compact_embedded_log_before. run.
  destruct (meta_anchor _ _); [|done]. cbn [mbind result_bind]. destruct (reject_if _ _); [|done]. cbn [mbind result_bind].
  destruct (u64_to_sql _); [|done]. by apply inv_embedded.
Qed.

(** A computation that changes the connection only. *)
Definition connection_only {A} (c : machine A) : Prop := ∀ m b, ∃ b', snd (c (with_conn b m)) = with_conn b' m.

Lemma connection_inv {A} (c : machine A) s m : connection_only c → sql_inv s m → sql_inv s (snd (c m)).
Proof.
  intros Hc Hinv. destruct (Hc m (sm_conn m)) as [b Hb].
  assert (with_conn (sm_conn m) m = m) as Hm by (by destruct m). rewrite Hm in Hb. rewrite Hb. by apply inv_conn.
Qed.

Lemma connection_bind {A B} (c : machine A) (k : A → machine B) : connection_only c → (∀ a, connection_only (k a)) →
  connection_only (c ≫= k).
Proof.
  intros Hc Hk m b. destruct (Hc m b) as [b1 H1']. unfold mbind, machine_bind.
  destruct (c (with_conn b m)) as [[a|] m1]; cbn in H1'; subst m1; [by apply Hk|by exists b1].
Qed.
Lemma connection_lift {A} (r : result SqlError A) : connection_only (lift r).
Proof. intros m b. by exists b. Qed.
Lemma connection_gets {A} (f : SqliteStateMachine → A) : connection_only (gets f).
Proof. intros m b. by exists b. Qed.
Lemma connection_control {A} (f : ControlDb → result SqlError A) : connection_only (control f).
Proof. intros m b. by exists b. Qed.
Lemma connection_ret {A} (a : A) : connection_only (mret a).
Proof. intros m b. by exists b. Qed.
Lemma connection_close : connection_only close_connection.
Proof. intros m b. by exists false. Qed.
Lemma connection_reopen : connection_only reopen_connection.
Proof.
  intros m b. unfold reopen_connection, open_connection. run. destruct (sqlite_open _); [|by exists b].
  destruct (sm_conn _); [by exists b|by exists true].
Qed.
Lemma connection_then {A} (c : machine A) : connection_only c → connection_only (then_reopen c).
Proof.
  intros Hc m b. destruct (Hc m b) as [b1 H1']. unfold then_reopen. destruct (c (with_conn b m)) as [[a|] m1]; cbn in H1'; subst m1.
  - apply connection_bind; [apply connection_reopen|intros; apply connection_ret].
  - apply connection_reopen.
Qed.
#[local] Hint Resolve connection_bind connection_lift connection_gets connection_control connection_ret connection_close
  connection_reopen connection_then : connection.
#[local] Ltac connection := repeat (intros; first [progress eauto 2 with connection nocore | apply connection_bind | apply connection_then]).

Lemma digest_connection : connection_only canonical_db_digest.
Proof. unfold canonical_db_digest, ensure_no_pending_apply, checkpoint_truncate, with_connection, guard_that. connection. Qed.
Lemma snapshot_connection target : connection_only (sql_create_snapshot target).
Proof.
  unfold sql_create_snapshot, snapshot_bytes, open_bound_canonical, seal_held_canonical, sqlite_sidecars_absent, ensure_page_state_sealed,
    ensure_no_pending_apply, checkpoint_truncate, with_connection, guard_that. connection.
Qed.

(** ** Opening *)

(** What a crash leaves: a sidecar with the state of the log, and perhaps the intent of an entry without effect. *)
Definition durable s db : Prop := ∃ id, ctl_ok s id db ∧
  (ct_pending db = None ∨ ∃ p e, ct_pending db = Some p ∧ pa_base_state p = pa_target_state p ∧ pa_entry p = entry_anchor e
     ∧ recompute_hash e = le_hash e ∧ entry_in_range e = true ∧ le_entry_type e ≠ Command).

Lemma inv_durable s m : sql_inv s m → durable s (sm_control m).
Proof. intros (id & Hc & Hp & _). exists id. split; [done|]. destruct Hp; [by left|right; eauto 10|by left|by left]. Qed.

(** Whatever the crash made of the database file: what opens is the database of the sidecar. *)
Lemma open_durable s db absent file clock m : durable s db → (df_stamp file < clock)%N →
  sql_open_existing_file absent file db clock = Ok m → sql_inv s m ∨ collision.
Proof.
  intros (id & Hc & Hp) Hst Ho. unfold sql_open_existing_file, open_existing_unchecked in Ho.
  apply bind_Ok_inv in Ho as (db' & Hdb & Ho). apply bind_Ok_inv in Hdb as (? & _ & Hdb). apply Ok_inj in Hdb as <-.
  apply bind_Ok_inv in Ho as ([[cache seal] fence] & Hv & Ho). apply bind_Ok_inv in Ho as (? & _ & Ho). apply bind_Ok_inv in Ho as (? & _ & Ho).
  apply Ok_inj in Ho as <-. unfold validate_control_database_pair, rebuild_sealed_page_state in Hv.
  apply bind_Ok_inv in Hv as ([cache' seal'] & Hr & Hv). apply bind_Ok_inv in Hr as (? & _ & Hr). apply bind_Ok_inv in Hr as (c & Hrb & Hr).
  apply Ok_inj in Hr. injection Hr as <- <-. apply rebuild_page_state in Hrb. apply bind_Ok_inv in Hv as (actual & Ha & Hv).
  apply bind_Ok_inv in Hv as (existing & Hpe & Hv). apply pending_from_Ok in Hpe as ->.
  pose proof (cr_identity _ _ _ (co_reads _ _ _ Hc)) as Hid. rewrite identity_parts in Hid. destruct Hid as (_ & _ & _ & _ & _ & _ & Hus).
  pose proof Hc as [_ _ _ _ [cache0 Hfile] _].
  assert (actual = ci_user_state id → let m := mkMachine file true db fence c (Some (df_stamp file)) None None clock in
    holds m (ss_file s) (ci_user_state id) ∧ stamps_ok m ∨ collision) as Hh.
  { intros ->. destruct (db_state_binds _ _ _ _ _ (conj Hrb Ha) Hfile) as [He|]; [left|by right]. unfold holds. cbn. rewrite He.
    split_and!; [done| |done|by split]. split; [by rewrite <- He|done]. }
  destruct Hp as [Hpd|(p & e & Hpd & Hbt & Hpe & Hre & Hra & Hty)]; rewrite Hpd in Hv; unfold control_user_state in Hv.
  - rewrite Hus in Hv. cbn [mbind result_bind] in Hv. apply bind_Ok_inv in Hv as (? & Hg & Hv).
    rewrite reject_if_Ok, neqb_false in Hg. apply Ok_inj in Hv. injection Hv as <- <- <-.
    destruct (Hh Hg) as [[Hho Hs]|]; [left|by right]. exists id. split_and!; [done|by apply at_rest|done].
  - apply bind_Ok_inv in Hv as (tip & _ & Hv). apply bind_Ok_inv in Hv as (n & _ & Hv). apply bind_Ok_inv in Hv as (? & _ & Hv).
    rewrite Hus in Hv. cbn [mbind result_bind] in Hv. apply bind_Ok_inv in Hv as (? & Hg & Hv).
    rewrite reject_if_Ok, neqb_false in Hg. apply bind_Ok_inv in Hv as (? & _ & Hv).
    rewrite <- Hbt in Hv. destruct (eqb actual (pa_base_state p)) eqn:Heq; [|done]. rewrite eqb_true in Heq.
    apply Ok_inj in Hv. injection Hv as <- <- <-. rewrite Hg in Heq.
    destruct (Hh Heq) as [[Hho Hs]|]; [left|by right]. exists id. split_and!; [done| |done]. by apply (with_intent _ _ _ p e).
Qed.

(** The identities the source's types allow. *)
Record identity_ok id : Prop := {
  ik_cluster : is_str (ci_cluster_id id) = true;
  ik_node : is_str (ci_node_id id) = true;
  ik_epoch : is_u64 (ci_epoch id) = true;
  ik_generation : is_u64 (ci_recovery_generation id) = true;
  ik_config : config_wf (ci_configuration_state id);
  ik_size : is_u32 (si_page_size (ci_user_state id)) = true;
  ik_count : is_u32 (si_page_count (ci_user_state id)) = true
}.

Lemma text_put db key value : is_str value = true → meta_text (put_meta key value db) key = Ok value.
Proof. intros Hs. unfold meta_text. rewrite get_put_eq. cbn [mbind result_bind]. by apply from_utf8_Ok. Qed.

(** A new sidecar reads as its identity, at the origin of the log, without receipts. *)
Lemma create_reads id db : identity_ok id → control_create id = Ok db →
  ctl_reads db id (mkLogAnchor 0 LogHash_ZERO) ∧ ct_receipts db = ∅ ∧ ct_pending db = None.
Proof.
  intros [] Hc. unfold control_create, initialize in Hc. apply bind_Ok_inv in Hc as (? & _ & Hc).
  apply bind_Ok_inv in Hc as (db1 & Hcf & Hc). apply bind_Ok_inv in Hc as (db2 & Hps & Hc). apply Ok_inj in Hc as <-.
  unfold put_configuration in Hcf. apply bind_Ok_inv in Hcf as (body & Hb & Hcf). rewrite ok_or_Ok in Hb. apply Ok_inj in Hcf as <-.
  unfold put_state in Hps. apply bind_Ok_inv in Hps as ([] & Hvs & Hps). apply Ok_inj in Hps as <-.
  assert (∀ n, is_u32 n = true → is_u64 n = true) as Hu.
  { unfold is_u32, is_u64, u32_max, u64_max. intros n. rewrite !N.leb_le. lia. }
  split; [|done]. split; [|by apply anchor_bytes_read|done]. rewrite identity_parts.
  unfold put_anchor, meta_state, meta_configuration, meta_hash, meta_text, meta_u64, put_hash, put_u64.
  repeat (rewrite get_put_eq || rewrite get_put_ne by done). cbn [mbind result_bind]. rewrite !array32_of_as_bytes, !blen_be_bytes, !be_value_bytes by (apply is_u64_bound; auto).
  change (neqb (N.of_nat 8) 8%N) with false. cbn [reject_if mbind result_bind ok_or].
  rewrite ik_size0, ik_count0. cbn [negb reject_if mbind result_bind]. rewrite (config_reads _ _ ik_config0 Hb).
  destruct (ci_user_state id) as [ps pc root] eqn:Hst. cbn in *. rewrite Hvs.
  split_and!; try done; by apply from_utf8_Ok.
Qed.

(** The state of a new database. *)
Definition genesis (file : bytes) (configuration : ConfigurationState) : SqlState :=
  mkSqlState file ∅ configuration (mkLogAnchor 0 LogHash_ZERO).

Lemma create_inv c n epoch cfg m : is_str c = true → is_str n = true → is_u64 epoch = true → config_wf cfg →
  sql_create_new c n epoch cfg = Ok m → ∃ file, fresh_database = Ok file ∧ sql_inv (genesis file cfg) m.
Proof.
  intros Hcs Hns Hep Hwf Hc. unfold sql_create_new, rebuild_sealed_page_state in Hc. apply bind_Ok_inv in Hc as (contents & Hfr & Hc).
  apply bind_Ok_inv in Hc as ([cache seal] & Hr & Hc). apply bind_Ok_inv in Hr as (? & _ & Hr). apply bind_Ok_inv in Hr as (c0 & Hrb & Hr).
  apply Ok_inj in Hr. injection Hr as <- <-. apply rebuild_page_state in Hrb. cbn [df_bytes df_stamp] in *.
  apply bind_Ok_inv in Hc as (fp & _ & Hc). apply bind_Ok_inv in Hc as (state & Hst & Hc). apply bind_Ok_inv in Hc as (db & Hdb & Hc).
  apply bind_Ok_inv in Hc as (? & _ & Hc). apply Ok_inj in Hc as <-. exists contents. split; [done|].
  pose proof (conj Hrb Hst : db_state contents c0 state) as Hd. pose proof Hd as (_ & (Hps & _ & Hlu & _) & _ & Hl & _ & _)%db_state_pages.
  destruct (page_size_word _ Hps) as [_ Hsz].
  apply create_reads in Hdb as (Hrd & Hrec & Hpd). 2: { split; cbn; try done; [|by rewrite <- Hl]. unfold is_u32, u32_max. rewrite N.leb_le. lia. }
  exists (mkIdentity c n epoch cfg 1 fp state). split_and!; [|by apply at_rest|by split]. split; cbn; try done. by exists c0.
Qed.

(** ** Snapshots *)

Lemma encode_container_decodes x encoded : encode_qwal_snapshot x = Ok encoded → decode_qwal_snapshot encoded = Ok x.
Proof.
  unfold encode_qwal_snapshot, decode_qwal_snapshot. intros He. apply bind_Ok_inv in He as (body & Hb & He).
  rewrite ok_or_Ok in Hb. apply Ok_inj in He as <-. rewrite strip_prefix_app. cbn [ok_or mbind result_bind].
  rewrite (container_reads _ _ Hb). cbn [ok_or mbind result_bind]. rewrite Hb. cbn [ok_or mbind result_bind]. by rewrite neqb_refl.
Qed.

(** The decoder accepts an encoding as the snapshot it encodes, or refuses its receipts. *)
Lemma encode_snapshot_decodes x encoded y : config_wf (rs_configuration_state x) →
  encode_snapshot x = Ok encoded → decode_snapshot encoded = Ok y → y = x.
Proof.
  intros Hw He Hd. unfold encode_snapshot in He. apply bind_Ok_inv in He as (body & Hb & He). rewrite ok_or_Ok in Hb. apply Ok_inj in He as <-.
  unfold decode_snapshot in Hd. rewrite strip_prefix_app in Hd. cbn [ok_or mbind result_bind] in Hd.
  apply bind_Ok_inv in Hd as (? & _ & Hd). apply bind_Ok_inv in Hd as (? & _ & Hd). apply bind_Ok_inv in Hd as (? & _ & Hd).
  rewrite (drop_app_length' _ _ 32) in Hd by (by rewrite length_as_bytes). rewrite (replicated_reads _ _ Hw Hb) in Hd. cbn [ok_or mbind result_bind] in Hd.
  apply bind_Ok_inv in Hd as (? & _ & Hd). apply bind_Ok_inv in Hd as (? & _ & Hd). apply bind_Ok_inv in Hd as (? & _ & Hd). by apply Ok_inj in Hd.
Qed.

(** Importing receipts into an empty table. *)
Lemma import_receipts rows db db' : NoDup rows.*1 → Forall (λ row, ct_receipts db !! row.1 = None) rows →
  try_fold insert_or_validate_receipt db ((λ row, receipt_from_row row.1 row.2) <$> rows) = Ok db' →
  same_but_receipts db db' ∧ ct_receipts db' = list_to_map rows ∪ ct_receipts db.
Proof.
  revert db. induction rows as [|[k row] rows IH]; intros db Hnd Hall; cbn [try_fold fmap list_fmap].
  { intros <-%Ok_inj. by rewrite list_to_map_nil, map_empty_union. }
  inversion Hall as [|? ? Hk Hall']; subst. inversion Hnd as [|? ? Hni Hnd']; subst. cbn in Hk, Hni.
  intros Hf. apply bind_Ok_inv in Hf as (db1 & Hi & Hf). unfold insert_or_validate_receipt, insert_row in Hi. cbn in Hi. rewrite Hk in Hi.
  cbn in Hi. apply bind_Ok_inv in Hi as (i & Hu & Hi). apply Ok_inj in Hi as <-.
  assert (i = rw_log_index row) as -> by (unfold u64_to_sql in Hu; destruct (_ <? _)%N; [by apply Ok_inj in Hu|done]).
  apply IH in Hf as ((? & ? & ?) & Hr); [|done|].
  - split; [done|]. rewrite Hr. cbn. destruct row. cbn. rewrite <- insert_union_l. symmetry. apply insert_union_r.
    by apply not_elem_of_list_to_map_1.
  - rewrite Forall_forall in *. intros row' Hin. cbn. rewrite lookup_insert_ne; [by apply Hall'|]. intros ->. apply Hni.
    apply list_elem_of_fmap. by exists row'.
Qed.

Lemma import_all db db0 db' : ct_receipts db0 = ∅ → try_fold insert_or_validate_receipt db0 (all_receipts db) = Ok db' →
  same_but_receipts db0 db' ∧ ct_receipts db' = ct_receipts db.
Proof.
  intros He Hf. unfold all_receipts in Hf. pose proof (sort_by_perm fst (map_to_list (ct_receipts db))) as Hperm.
  assert (NoDup (sort_by fst (map_to_list (ct_receipts db))).*1) as Hnd by (rewrite Hperm; apply NoDup_fst_map_to_list).
  apply import_receipts in Hf as [Hs Hr]; [|done|].
  - split; [done|]. rewrite Hr, He, map_union_empty. rewrite (list_to_map_proper _ _ Hnd Hperm). apply list_to_map_to_list.
  - apply Forall_forall. intros row _. by rewrite He.
Qed.

(** A snapshot with the database, the control state and the identity of a machine in state [s]. *)
Definition snapshot_of s db (snap : Snapshot) : Prop :=
  ∃ id replicated, ctl_ok s id db ∧ sn_cluster_id snap = ci_cluster_id id ∧ sn_epoch snap = ci_epoch id
  ∧ sn_configuration_state snap = ci_configuration_state id ∧ export_replicated_snapshot db = Ok replicated
  ∧ encode_qwal_snapshot (mkQwalSnapshot (ss_file s) replicated (ci_user_state id)) = Ok (sn_db_bytes snap).

Lemma snapshot_parts s t m snap m1 : sql_inv s m → sql_create_snapshot t m = (Ok snap, m1) → snapshot_of s (sm_control m) snap.
Proof.
  intros (id & Hc & Hp & Hs) Hcr. pose proof (cr_identity _ _ _ (co_reads _ _ _ Hc)) as Hid. exists id. revert Hcr.
  unfold sql_create_snapshot, ensure_page_state_sealed, ensure_no_pending_apply, checkpoint_truncate, with_connection, close_connection. run.
  destruct (reject_if _ _) as [[]|]; [|done]. destruct (reject_if (sm_pending_fence m) _) as [[]|] eqn:Hf; [|done].
  rewrite reject_if_Ok in Hf. destruct (serving_phase _ _ _ Hp Hf) as (Hu & Hpd & Hb & Hd & _).
  destruct (control_applied_tip _) as [tip|]; [|done]. destruct (reject_if _ _) as [[]|]; [|done]. rewrite Hid.
  destruct sql_executor_fingerprint as [fp|]; [|done]. destruct (reject_if _ _) as [[]|]; [|done].
  unfold then_reopen. destruct (snapshot_bytes id (with_conn false m)) as [[encoded|] m2] eqn:Hsb; [|done]. run.
  destruct (reopen_connection m2) as [[[]|] m3]; [|done]. intros [= <- _]. cbn. revert Hsb.
  unfold snapshot_bytes, open_bound_canonical, seal_held_canonical, sqlite_sidecars_absent, ensure_page_state_sealed. run.
  cbn [with_conn sm_conn sm_file sm_control negb reject_if]. rewrite Hb.
  destruct (reject_if _ _) as [[]|]; [|done]. destruct (page_state_from_database_bytes _); [|done].
  destruct (cache_identity _) as [state|]; [|done]. destruct (neqb state _) eqn:Hst; [done|]. rewrite neqb_false in Hst. subst state. cbn [reject_if].
  destruct (export_replicated_snapshot _) as [replicated|]; [|done]. intros [= He _]. by exists replicated.
Qed.

Lemma meta_u64_range db key n : meta_u64 db key = Ok n → is_u64 n = true.
Proof.
  unfold meta_u64. intros Hm. apply bind_Ok_inv in Hm as (l & _ & Hm). apply bind_Ok_inv in Hm as (? & Hl & Hm). apply Ok_inj in Hm as <-.
  rewrite reject_if_Ok, neqb_false in Hl. apply is_u64_bound. pose proof (be_value_bound l) as Hb. unfold blen in Hl. by replace (length l) with 8 in Hb by lia.
Qed.

(** The identity in a sidecar is one the types allow. *)
Lemma reads_identity_ok db id tip : ctl_reads db id tip → identity_ok id.
Proof.
  intros [Hi _ Hw]. rewrite identity_parts in Hi. destruct Hi as (Hc & Hn & He & _ & Hg & _ & Hs). pose proof (meta_state_u32 _ _ Hs) as [? ?].
  split; try done; try (by eapply meta_u64_range); unfold meta_text in *.
  - apply bind_Ok_inv in Hc as (l & _ & Hc). by apply from_utf8_Ok in Hc as [-> ?].
  - apply bind_Ok_inv in Hn as (l & _ & Hn). by apply from_utf8_Ok in Hn as [-> ?].
Qed.

Lemma reads_put_generation db id tip g : ctl_reads db id tip → is_u64 g = true →
  ∃ id', ctl_reads (put_u64 "recovery_generation" g db) id' tip ∧ ci_configuration_state id' = ci_configuration_state id
  ∧ ci_user_state id' = ci_user_state id.
Proof.
  intros [Hi Ht Hw] Hg.
  exists (mkIdentity (ci_cluster_id id) (ci_node_id id) (ci_epoch id) (ci_configuration_state id) g (ci_materializer_fingerprint id) (ci_user_state id)).
  split; [|done]. split; [|unfold put_u64; by rewrite anchor_frame|done]. rewrite identity_parts in *. cbn.
  rewrite u64_put by done. unfold put_u64. rewrite !text_frame, u64_frame, hash_frame, configuration_frame, state_frame by done. naive_solver.
Qed.

Lemma export_parts db id tip encoded : ctl_reads db id tip → export_replicated_snapshot db = Ok encoded →
  encode_snapshot (mkReplicated (ci_cluster_id id) (ci_epoch id) (ci_configuration_state id) (ci_recovery_generation id)
                     (ci_materializer_fingerprint id) (ci_user_state id) tip (all_receipts db)) = Ok encoded.
Proof.
  intros [Hi Ht _] He. rewrite identity_parts in Hi. destruct Hi as (Hc & _ & Hep & Hcf & Hg & Hm & Hs). unfold export_replicated_snapshot in He.
  apply bind_Ok_inv in He as (? & _ & He). apply bind_Ok_inv in He as (? & _ & He).
  rewrite Ht, Hc, Hep, Hcf, Hg, Hm, Hs in He. exact He.
Qed.

Lemma import_spec db0 id0 tip0 x encoded generation db dbs : ctl_reads db0 id0 tip0 → encode_snapshot x = Ok encoded →
  config_wf (rs_configuration_state x) → is_u64 (rs_recovery_generation x) = true → is_u64 (la_index (rs_applied_tip x)) = true →
  is_u32 (si_page_size (rs_user_state x)) = true → is_u32 (si_page_count (rs_user_state x)) = true →
  (∀ g, generation = Some g → is_u64 g = true) → rs_receipts x = all_receipts dbs →
  import_replicated_snapshot_with_recovery_generation encoded generation db0 = Ok db →
  ∃ id, ctl_reads db id (rs_applied_tip x) ∧ ci_configuration_state id = rs_configuration_state x
  ∧ ci_user_state id = rs_user_state x ∧ ct_receipts db = ct_receipts dbs ∧ ct_pending db = None.
Proof.
  intros Hrd Henc Hw Hg Ht Hps Hpc Hgen Hrec Him. unfold import_replicated_snapshot_with_recovery_generation in Him.
  apply bind_Ok_inv in Him as (y & Hx & Him). apply (encode_snapshot_decodes _ _ _ Hw Henc) in Hx as ->.
  do 6 (apply bind_Ok_inv in Him as (? & _ & Him)). apply bind_Ok_inv in Him as (db1 & Hf & Him). rewrite Hrec in Hf.
  apply import_all in Hf as ((Hm & _ & _) & Hr1); [|done]. apply (reads_meta _ db1) in Hrd; [|done].
  apply bind_Ok_inv in Him as (db2 & Hpcf & Him). apply bind_Ok_inv in Him as (? & _ & Him). apply bind_Ok_inv in Him as (db3 & Hpst & Him).
  apply Ok_inj in Him as <-. pose proof (reads_put_configuration _ _ _ _ _ Hrd Hw Hpcf) as Hrd2.
  destruct (reads_put_generation _ _ _ (default (rs_recovery_generation x) generation) Hrd2) as (id' & Hrd3 & Hc3 & _).
  { destruct generation as [g|]; [by apply Hgen|done]. }
  pose proof (reads_put_state _ _ _ _ _ Hrd3 Hps Hpc Hpst) as Hrd4. apply (reads_put_anchor _ _ _ _) with (2 := Ht) in Hrd4.
  apply (proj1 (put_keeps _)) in Hpcf as [Hr2 _]. apply (proj2 (put_keeps _)) in Hpst as [Hr3 _].
  eexists. split_and!; [by eapply (reads_meta (put_anchor "applied_tip" (rs_applied_tip x) db3))|by cbn; rewrite Hc3|done| |done].
  cbn. rewrite Hr3. cbn. congruence.
Qed.

(** A restored snapshot has the state of the log that the donor had. *)
Lemma restore_durable s db0 snap node generation file db : snapshot_of s db0 snap →
  is_str node = true → (∀ g, generation = Some g → is_u64 g = true) →
  restore_snapshot_file_with_recovery_generation snap node generation = Ok (file, db) → file = ss_file s ∧ durable s db.
Proof.
  intros (id & replicated & Hc & Hcl & Hep & Hcf & Hex & Henc) Hns Hgen Hre.
  pose proof Hc as [Hrd Hcfg Hrec Hb Hfile Htip]. pose proof (reads_identity_ok _ _ _ Hrd) as [].
  unfold restore_snapshot_file_with_recovery_generation in Hre. apply bind_Ok_inv in Hre as (? & _ & Hre).
  rewrite (encode_container_decodes _ _ Henc) in Hre. cbn [mbind result_bind qs_user_db qs_user_state qs_replicated_control] in Hre.
  do 6 (apply bind_Ok_inv in Hre as (? & _ & Hre)).
  apply bind_Ok_inv in Hre as (dbn & Hdb0 & Hre). apply bind_Ok_inv in Hre as (db1 & Him & Hre).
  do 4 (apply bind_Ok_inv in Hre as (? & _ & Hre)). apply Ok_inj in Hre. injection Hre as <- <-. split; [done|].
  rewrite Hcl, Hep, Hcf in Hdb0. apply create_reads in Hdb0 as (Hrd0 & _); [|by split].
  apply (export_parts _ _ _ _ Hrd) in Hex.
  apply (import_spec _ _ _ _ _ _ _ db0 Hrd0 Hex) in Him as (id' & Hrd' & Hcf' & Hus & Hrec' & Hpd); try done.
  cbn in Hrd', Hcf', Hus. exists id'. split; [|by left]. split; try done; [congruence|congruence|]. by rewrite Hus.
Qed.

Lemma recovery_parts s g m recovery m1 : sql_inv s m → sql_create_recovery_snapshot g m = (Ok recovery, m1) →
  snapshot_of s (sm_control m) (rv_snapshot recovery) ∧ ra_recovery_generation (rv_anchor recovery) = g
  ∧ ra_cluster_id (rv_anchor recovery) = sn_cluster_id (rv_snapshot recovery) ∧ ra_epoch (rv_anchor recovery) = sn_epoch (rv_snapshot recovery)
  ∧ ra_configuration_state (rv_anchor recovery) = sn_configuration_state (rv_snapshot recovery).
Proof.
  intros Hinv. unfold sql_create_recovery_snapshot. run. destruct (reject_if _ _) as [[]|]; [|done].
  destruct (control_applied_tip _) as [tip|]; [|done]. destruct (reject_if _ _) as [[]|]; [|done].
  destruct (sql_create_snapshot _ m) as [[snap|] m2] eqn:Hcr; [|done]. intros [= <- _]. by split; [eapply snapshot_parts|].
Qed.

Lemma recovery_connection g : connection_only (sql_create_recovery_snapshot g).
Proof. pose proof snapshot_connection. unfold sql_create_recovery_snapshot, guard_that. connection. Qed.

(** Restoring the bytes of a recovery snapshot under its anchor. *)
Lemma recovery_durable s g m recovery m1 node file db : sql_inv s m → sql_create_recovery_snapshot g m = (Ok recovery, m1) →
  is_u64 g = true → is_str node = true →
  sql_restore_recovery_snapshot_file (sn_db_bytes (rv_snapshot recovery)) (rv_anchor recovery) node = Ok (file, db) →
  file = ss_file s ∧ durable s db.
Proof.
  intros Hinv Hcr Hg Hns Hre. destruct (recovery_parts _ _ _ _ _ Hinv Hcr) as ((id & replicated & Hc & Hcl & Hep & Hcf & Hex & Henc) & Hrg & Hac & Hae & Hacf).
  unfold sql_restore_recovery_snapshot_file in Hre. do 5 (apply bind_Ok_inv in Hre as (? & _ & Hre)). rewrite Hac, Hae, Hacf in Hre.
  apply (restore_durable s (sm_control m)) in Hre; [done| |done|].
  - exists id, replicated. done.
  - intros g' [= <-]. by rewrite Hrg.
Qed.
End trace.
