(* ===== verification/SqlReplica.v ===== *)
(** * SqlReplica: replicas of a SQL database

    Histories of a machine: creation, applications with any injected failure,
    preparations, compaction, digests, snapshots, crashes with any contents of the database file, and
    restores from another replica; and what holds after every history.  A crash is one of
    the process: the committed transactions of the sidecar survive it (the sidecar is not synced, so a power
    failure may take them; that is outside the model), and the database file may have any bytes. *)

From stdpp Require Import strings.
From S2P Require Import Prelude Bytes Text Core ConfigChange ConfigState LogSegment SqlPages SqlMerkle SqlPatch WalCapture Qwal QwalFile SqlCommand SqlPolicy SqlExecute SqlControl SqlMachine SqlNode SqlSpec SqlInstall SqlHistory SqlTrace.
From Stdlib Require Strings.Byte.

(** The log after an application that returned: an entry at the applied index was applied before. *)
Definition record (log : list LogEntry) (e : LogEntry) : list LogEntry :=
  if (le_index e =? N.of_nat (length log))%N then log else log ++ [e].

Section replica.
Context `{Sha256} `{SqliteEngine} `{SqlExecutor} `{Serde SqlCommandResult} `{Serde QwalEnvelopeV3}
  `{Serde ConfigurationState} `{Serde ReplicatedSnapshot} `{Serde SqlCommandV2Envelope} `{Serde QwalSnapshotV3}.
Implicit Types (m : SqliteStateMachine) (e : LogEntry) (s : SqlState) (log : list LogEntry).

Section histories.
Context (cluster_id : bytes) (epoch : N) (configuration : ConfigurationState).

(** A machine of the cluster, with the log it has applied. *)
Inductive sql_history : list LogEntry → SqliteStateMachine → Prop :=
| created node_id m : is_str node_id = true → sql_create_new cluster_id node_id epoch configuration = Ok m →
    sql_history [] m
| applied log m hooks e outcome m' : sql_history log m → entry_in_range e = true →
    apply_entry_with_result hooks e m = (Ok outcome, m') → sql_history (record log e) m'
| apply_failed log m hooks e err m' : sql_history log m → entry_in_range e = true →
    apply_entry_with_result hooks e m = (Err err, m') → sql_history log m'
| prepared log m base_index base_hash mutation : sql_history log m →
    sql_history log (snd (prepare_qwal_effect base_index base_hash mutation m))
| compacted log m index : sql_history log m → sql_history log (snd (sql_compact_embedded_log_before index m))
| digested log m : sql_history log m → sql_history log (snd (canonical_db_digest m))
| snapshotted log m target : sql_history log m → sql_history log (snd (sql_create_snapshot target m))
| reopened log m absent file clock m' : sql_history log m → (df_stamp file < clock)%N →
    sql_open_existing_file absent file (sm_control m) clock = Ok m' → sql_history log m'
| restored log m target snapshot m1 node_id generation file stamp db clock m' : sql_history log m →
    sql_create_snapshot target m = (Ok snapshot, m1) → is_str node_id = true → (∀ g, generation = Some g → is_u64 g = true) →
    restore_snapshot_file_with_recovery_generation snapshot node_id generation = Ok (file, db) → (stamp < clock)%N →
    sql_open_existing_file true (mkDbFile file stamp) db clock = Ok m' → sql_history log m'
| recovery_made log m generation : sql_history log m → sql_history log (snd (sql_create_recovery_snapshot generation m))
| recovered log m generation recovery m1 node_id file stamp db clock m' : sql_history log m →
    sql_create_recovery_snapshot generation m = (Ok recovery, m1) → is_u64 generation = true → is_str node_id = true →
    sql_restore_recovery_snapshot_file (sn_db_bytes (rv_snapshot recovery)) (rv_anchor recovery) node_id = Ok (file, db) →
    (stamp < clock)%N → sql_open_existing_file true (mkDbFile file stamp) db clock = Ok m' → sql_history log m'.
End histories.

Context `{!PostcardLaws} `{!EffectTypes} `{!ConfigLaws} `{!SnapshotLaws}.
Context (cluster_id : bytes) (epoch : N) (configuration : ConfigurationState).
Context (Hcluster : is_str cluster_id = true) (Hepoch : is_u64 epoch = true) (Hconfiguration : config_wf configuration).
Notation history := (sql_history cluster_id epoch configuration).

Lemma spec_apply_tip s e s' : spec_apply s e = Some s' → ss_tip s' = entry_anchor e.
Proof. unfold spec_apply. intros Ha. repeat case_match; by simplify_eq. Qed.

(** What a log leads to. *)
Record log_state file log s : Prop := {
  ls_run : spec_run (genesis file configuration) log = Some s;
  ls_chain : chained 0 LogHash_ZERO log = true;
  ls_tip : ss_tip s = mkLogAnchor (N.of_nat (length log)) (tip_hash LogHash_ZERO log)
}.

Lemma log_state_nil file : log_state file [] (genesis file configuration).
Proof. by split. Qed.

Lemma chained_extend i h log e : chained i h log = true → follows (i + N.of_nat (length log)) (tip_hash h log) e = true →
  recompute_hash e = le_hash e → entry_in_range e = true → chained i h (log ++ [e]) = true.
Proof.
  revert i h. induction log as [|x log IH]; intros i h; cbn [app chained length].
  - rewrite N.add_0_r. unfold tip_hash. cbn. intros _ Hf Hr Hg. by rewrite Hf, Hr, eqb_refl, Hg.
  - rewrite !andb_true_iff. intros [[[Hx Hr] Hg] Hc] Hf Hre Hra. split; [done|]. apply IH; try done.
    unfold follows in Hx. rewrite andb_true_iff, !eqb_true in Hx. destruct Hx as [-> _].
    replace (i + 1 + N.of_nat (length log))%N with (i + N.of_nat (S (length log)))%N by lia.
    replace (tip_hash (le_hash x) log) with (tip_hash h (x :: log)); [done|]. unfold tip_hash. rewrite last_cons. by destruct (last log).
Qed.

Lemma log_state_snoc file log s e s' : log_state file log s → follows (la_index (ss_tip s)) (la_hash (ss_tip s)) e = true →
  recompute_hash e = le_hash e → entry_in_range e = true → spec_apply s e = Some s' → log_state file (record log e) s'.
Proof.
  intros [Hr Hc Ht] Hf Hh Hra Ha. rewrite Ht in Hf. cbn in Hf. unfold record.
  assert (le_index e = (N.of_nat (length log) + 1)%N) as Hi.
  { unfold follows in Hf. rewrite andb_true_iff, !eqb_true in Hf. tauto. }
  rewrite (proj2 (N.eqb_neq _ _)) by lia. split.
  - by eapply spec_run_snoc.
  - by apply chained_extend.
  - rewrite (spec_apply_tip _ _ _ Ha), tip_hash_snoc, length_app. unfold entry_anchor. f_equal. cbn. lia.
Qed.

Lemma history_inv log m : history log m →
  (∃ file s, fresh_database = Ok file ∧ log_state file log s ∧ sql_inv s m) ∨ collision.
Proof.
  induction 1 as [node m Hn Hc|log m hooks e outcome m' Hh IH Hra Ha|log m hooks e err m' Hh IH Hra Ha|log m bi bh mu Hh IH
    |log m i Hh IH|log m Hh IH|log m t Hh IH|log m absent file clock m' Hh IH Hst Ho
    |log m t snap m1 node gen file stamp db clock m' Hh IH Hcr Hn Hg Hre Hst Ho|log m g Hh IH
    |log m g rec m1 node file stamp db clock m' Hh IH Hcr Hg Hn Hre Hst Ho].
  1: { apply create_inv in Hc as (file & Hf & Hi); [|done..]. left. exists file, (genesis file configuration). split_and!; [done|apply log_state_nil|done]. }
  all: destruct IH as [(file0 & s & Hf & Hl & Hi)|]; [|by right].
  - pose proof (apply_preserves s hooks e m Hi Hra) as Hp. rewrite Ha in Hp. destruct Hp as [|[[Hx Hp]|(Hfo & Hre & s' & Hs' & Hp)]]; [by right|left|left].
    + exists file0, s. split_and!; [done| |done]. unfold record. rewrite (ls_tip _ _ _ Hl) in Hx. cbn in Hx. by rewrite Hx, N.eqb_refl.
    + exists file0, s'. split_and!; [done|by eapply log_state_snoc|done].
  - pose proof (apply_preserves s hooks e m Hi Hra) as Hp. rewrite Ha in Hp. destruct Hp as [|Hp]; [by right|left; by exists file0, s].
  - left. exists file0, s. split_and!; [done|done|by apply prepare_preserves].
  - left. exists file0, s. split_and!; [done|done|by apply compact_preserves].
  - left. exists file0, s. split_and!; [done|done|]. apply connection_inv; [apply digest_connection|done].
  - left. exists file0, s. split_and!; [done|done|]. apply connection_inv; [apply snapshot_connection|done].
  - apply (open_durable s) in Ho as [|]; [left; by exists file0, s|by right|by apply inv_durable|done].
  - destruct (restore_durable _ _ _ _ _ _ _ (snapshot_parts _ _ _ _ _ Hi Hcr) Hn Hg Hre) as [-> Hd].
    apply (open_durable s) in Ho as [|]; [left; by exists file0, s|by right|done|done].
  - left. exists file0, s. split_and!; [done|done|]. apply connection_inv; [apply recovery_connection|done].
  - destruct (recovery_durable _ _ _ _ _ _ _ _ Hi Hcr Hg Hn Hre) as [-> Hd].
    apply (open_durable s) in Ho as [|]; [left; by exists file0, s|by right|done|done].
Qed.

(** What the sidecar answers. *)
Lemma ctl_answers s id db : ctl_ok s id db →
  control_applied_tip db = Ok (mkProgress (la_index (ss_tip s)) (la_hash (ss_tip s)))
  ∧ control_configuration_state db = Ok (ss_configuration s).
Proof.
  intros [[Hi Ht _] Hc _ _ _ _]. unfold control_applied_tip. rewrite Ht. split; [done|].
  rewrite identity_parts in Hi. destruct Hi as (_ & _ & _ & Hm & _). unfold control_configuration_state. by rewrite Hm, Hc.
Qed.



(** ** Requests *)

(** The receipts in the effects of a log. *)
Definition entry_rows e : list (bytes * ReceiptRow) :=
  if eqb (le_entry_type e) Command then
    match decode_qwal_v3 (le_payload e) with Ok effect => receipt_row e <$> qe_receipts effect | Err _ => [] end
  else [].
Definition log_rows log : list (bytes * ReceiptRow) := log ≫= entry_rows.

Lemma receipts_unique acc receipts r : try_fold check_receipt acc receipts = Ok r →
  NoDup (qr_request_id <$> receipts) ∧ Forall (λ receipt, qr_request_id receipt ∉ acc.2) receipts.
Proof.
  revert acc. induction receipts as [|x receipts IH]; intros [n ids]; cbn [try_fold fmap list_fmap]; [by repeat constructor|].
  intros Hf. apply bind_Ok_inv in Hf as (acc1 & Hc & Hf). apply IH in Hf as [Hnd Hall]. unfold check_receipt in Hc. res_inv. simplify_eq.
  rewrite bool_decide_eq_false in *. cbn [snd] in *. rewrite Forall_forall in Hall. split.
  - constructor; [|done]. intros (y & He & Hy)%list_elem_of_fmap. specialize (Hall y Hy). rewrite He in Hall. set_solver.
  - constructor; [done|]. apply Forall_forall. intros y Hy. specialize (Hall y Hy). set_solver.
Qed.

Lemma entry_rows_unique e : NoDup (entry_rows e).*1.
Proof.
  unfold entry_rows. destruct (eqb _ _); [|constructor]. destruct (decode_qwal_v3 _) as [effect|] eqn:Hd; [|constructor].
  apply decoded_valid in Hd as [Hv _]. unfold qwal_validate in Hv. do 6 (apply bind_Ok_inv in Hv as (? & _ & Hv)).
  apply bind_Ok_inv in Hv as (? & Hr & _). apply receipts_unique in Hr as [Hr _]. by rewrite <- list_fmap_compose.
Qed.

Lemma spec_apply_rows s e s' : spec_apply s e = Some s' →
  Forall (λ row, ss_receipts s !! row.1 = None) (entry_rows e) ∧ ss_receipts s' = list_to_map (entry_rows e) ∪ ss_receipts s.
Proof.
  unfold spec_apply, entry_rows. destruct (validate_entry _ _); [|done]. destruct (eqb _ _).
  - destruct (decode_qwal_v3 _) as [effect|]; [|done]. cbv zeta. destruct (forallb _ _) eqn:Hf; [|done]. intros [= <-]. split; [|done].
    apply Forall_forall. intros row Hin. rewrite forallb_forall in Hf. specialize (Hf row (proj1 (list_elem_of_In _ _) Hin)).
    rewrite negb_true_iff, bool_decide_eq_false in Hf. by apply eq_None_not_Some.
  - intros [= <-]. split; [constructor|]. cbn. by rewrite map_empty_union.
Qed.

Lemma spec_run_rows s log s' : spec_run s log = Some s' →
  NoDup (log_rows log).*1 ∧ Forall (λ row, ss_receipts s !! row.1 = None) (log_rows log)
  ∧ ss_receipts s' = list_to_map (log_rows log) ∪ ss_receipts s.
Proof.
  revert s. induction log as [|e log IH]; intros s; cbn [spec_run].
  { intros [= <-]. split_and!; [constructor|constructor|]. cbn. by rewrite map_empty_union. }
  destruct (spec_apply s e) as [s1|] eqn:Ha; [|done]. intros Hr. apply IH in Hr as (Hnd & Hall & Hs').
  apply spec_apply_rows in Ha as [Hf Hs1]. change (log_rows (e :: log)) with (entry_rows e ++ log_rows log).
  assert (∀ row, row ∈ log_rows log → row.1 ∉ (entry_rows e).*1 ∧ ss_receipts s !! row.1 = None) as Hnew.
  { intros row Hin. rewrite Forall_forall in Hall. specialize (Hall row Hin). rewrite Hs1 in Hall.
    apply lookup_union_None in Hall as [Hl Hn]. split; [|done]. by apply not_elem_of_list_to_map. }
  split_and!.
  - rewrite fmap_app. apply NoDup_app. split_and!; [apply entry_rows_unique| |done]. intros k Hk (row & -> & Hin)%list_elem_of_fmap.
    by destruct (Hnew row Hin).
  - apply Forall_app. split; [done|]. apply Forall_forall. intros row Hin. by apply Hnew.
  - rewrite Hs', Hs1, list_to_map_app, assoc by apply _. f_equal. apply map_union_comm, map_disjoint_list_to_map_l, Forall_forall.
    intros row Hin. apply not_elem_of_list_to_map. by apply Hnew.
Qed.

End replica.
