(* ===== verification/SqlRetry.v ===== *)
(** * SqlRetry: completing an interrupted application

    When the commit in the sidecar fails after the pages of an effect were installed, the
    machine is fenced; applying the same entry again completes what the failure interrupted. *)

From stdpp Require Import strings.
From S2P Require Import Prelude Bytes Text Core ConfigChange ConfigState LogSegment SqlPages SqlMerkle SqlPatch WalCapture Qwal QwalFile SqlCommand SqlPolicy SqlExecute SqlControl SqlMachine SqlNode SqlSpec SqlInstall SqlHistory SqlTrace SqlReplica.
From Stdlib Require Strings.Byte.

(** The commit in the sidecar fails. *)
Definition control_fault (err : SqlError) : Hooks := mkHooks (λ _, Ok ()) (Err err) (Ok ()).

Section retry.
Context `{Sha256} `{SqliteEngine} `{SqlExecutor} `{Serde SqlCommandResult} `{Serde QwalEnvelopeV3}
  `{Serde ConfigurationState} `{Serde ReplicatedSnapshot} `{Serde SqlCommandV2Envelope} `{Serde QwalSnapshotV3}
  `{!PostcardLaws} `{!EffectTypes} `{!ConfigLaws} `{!SnapshotLaws}.
Implicit Types (m : SqliteStateMachine) (e : LogEntry) (s : SqlState) (id : ControlIdentity) (db : ControlDb).

(** Two machines that an installation does not tell apart. *)
Definition same_pages m m' : Prop :=
  sm_file m' = sm_file m ∧ sm_cache m' = sm_cache m ∧ sm_seal m' = sm_seal m ∧ sm_uncommitted_effect m' = sm_uncommitted_effect m.

Lemma reopen_if_closed_same m : sm_cache (snd (reopen_if_closed m)) = sm_cache m.
Proof. unfold reopen_if_closed, reopen_connection, open_connection. run. destruct (sm_conn m) eqn:Hc; [done|]. destruct (sqlite_open _); [|done]. by rewrite Hc. Qed.

(** An effect without change needs its overlay again, on the same cache. *)
Lemma noop_install hooks effect payload anchor m mi : qe_base_state effect = qe_target_state effect →
  cache_identity (sm_cache m) = Ok (qe_target_state effect) →
  install_qwal_effect hooks effect payload anchor m = (Ok (), mi) →
  overlay (sm_cache mi) (si_page_count (qe_target_state effect)) (effect_patches effect) = Ok (qe_target_state effect).
Proof.
  intros He Hi. unfold install_qwal_effect, preverify_page_state_transition, ensure_page_state_sealed, canonical_identity, remember_uncommitted_effect. run.
  destruct (reject_if _ _) as [[]|]; [|done]. rewrite Hi, He, eqb_refl, neqb_refl. cbn [andb negb reject_if].
  destruct (overlay _ _ _) as [t|] eqn:Ho; [|done]. destruct (neqb t _) eqn:Ht; cbn [reject_if]; [done|]. rewrite neqb_false in Ht. subst t.
  cbn [negb]. intros Hm. pose proof (reopen_if_closed_same (with_uncommitted (Some (digest [payload])) m)) as Hs.
  rewrite Hm in Hs. cbn in Hs. by rewrite Hs.
Qed.

(** Installing again, on a closed connection, what was installed. *)
Lemma replay_install hooks effect payload anchor db file m :
  (qe_base_state effect = qe_target_state effect →
   overlay (sm_cache m) (si_page_count (qe_target_state effect)) (effect_patches effect) = Ok (qe_target_state effect)) →
  installed db file effect payload m → sm_conn m = false → sqlite_open (df_bytes (sm_file m)) = Ok () →
  install_qwal_effect hooks effect payload anchor m = (Ok (), with_conn true (with_uncommitted (Some (digest [payload])) m)).
Proof.
  intros Hov (_ & Hu & Hh) Hcl Hop. pose proof Hh as (_ & [_ Hid] & _).
  assert (reopen_if_closed (with_uncommitted (Some (digest [payload])) m) = (Ok (), with_conn true (with_uncommitted (Some (digest [payload])) m))) as Hre.
  { unfold reopen_if_closed, reopen_connection, open_connection. run.
    set (m0 := with_uncommitted _ m). assert (sm_conn m0 = false) as Hc0 by done. assert (sm_file m0 = sm_file m) as Hf0 by done.
    rewrite !Hc0, Hf0, Hop. done. }
  unfold install_qwal_effect, preverify_page_state_transition, ensure_page_state_sealed, canonical_identity, remember_uncommitted_effect. run.
  rewrite (holds_seal _ _ _ Hh). cbn [negb reject_if]. rewrite Hid, eqb_refl. cbn [andb].
  destruct (neqb (qe_target_state effect) (qe_base_state effect)) eqn:Hne.
  - rewrite Hu, eqb_refl. cbn [orb negb andb reject_if]. apply Hre.
  - cbn [reject_if]. rewrite neqb_false in Hne. rewrite Hov by done. rewrite neqb_refl. cbn [reject_if negb]. apply Hre.
Qed.

Lemma discard_unless_cases effect payload id m : ∃ m1, discard_prepared_target_unless effect payload id m = (Ok (), m1)
  ∧ (m1 = m ∨ m1 = with_prepared None m).
Proof.
  unfold discard_prepared_target_unless. run. destruct (sm_prepared_target m) as [p|]; [destruct (prepared_matches _ _ _ _)|]; eauto.
Qed.

(** The entry with the fault, and then again. *)
Lemma retry_command s id e next err m outcome m1 err' m2 :
  ctl_ok s id (sm_control m) → phase s id m → stamps_ok m → may_apply s id e m → next_entry s e next → le_entry_type e = Command →
  apply_command_entry no_faults e id (ss_tip s) (ss_configuration s) next m = (Ok outcome, m1) →
  apply_command_entry (control_fault err) e id (ss_tip s) (ss_configuration s) next m = (Err err', m2) →
  sqlite_open (df_bytes (sm_file m2)) = Ok () →
  collision ∨ err' = err ∧ sm_control m2 = sm_control m ∧ sm_pending_fence m2 = true
  ∧ (∃ effect, installed (sm_control m) (ss_file s) effect (le_payload e) m2) ∧ ∃ m3,
    apply_command_entry no_faults e id (ss_tip s) (ss_configuration s) next m2 = (Ok outcome, m3)
    ∧ sm_control m3 = sm_control m1 ∧ sm_file m3 = sm_file m1 ∧ sm_pending_fence m3 = false.
Proof.
  intros Hc Hph Hs Hma Hne Hty Hr1 Hr2 Hop. unfold apply_command_entry in Hr1, Hr2.
  destruct (decode_qwal_command (le_payload e)) as [effect|] eqn:Hdec; [|done]. pose proof (decode_command _ _ Hdec) as Hdec'.
  destruct (discard_unless_cases effect (le_payload e) id m) as (md & Hmd & Hmd'). 
  assert (sm_control md = sm_control m ∧ stamps_ok md ∧ may_apply s id e md) as (Hcd & Hsd & Hmad).
  { destruct Hmd' as [->| ->]; [done|]. split_and!; [done|by apply stamps_no_prepared|by apply may_apply_no_prepared]. }
  revert Hr1 Hr2. run. rewrite Hmd. cbv beta iota.
  destruct (validate_qwal_identity _ _ _) as [[]|] eqn:Hvi; [|done]. destruct (reject_if _ _) as [[]|] eqn:Hbs; [|done].
  destruct (try_fold (effect_receipt _) _ _) as [[results receipts]|] eqn:Hrc; [|done].
  rewrite Hcd. destruct (lookup_requests _ _) as [existing|] eqn:Hlk; [|done]. destruct (try_fold _ () (zip receipts existing)) as [[]|] eqn:Hex; [|done].
  assert (qe_base_state effect = ci_user_state id) as Hb.
  { unfold validate_qwal_identity in Hvi. rewrite reject_if_Ok, !orb_false_iff, !neqb_false in Hvi. tauto. }
  assert (∀ m', install_qwal_effect (control_fault err) effect (le_payload e) (entry_anchor e) m' =
    install_qwal_effect no_faults effect (le_payload e) (entry_anchor e) m') as -> by done.
  pose proof (install_any s id no_faults e effect md Hmad Hty Hsd Hdec' Hb) as Hin. rewrite Hcd in Hin.
  destruct (install_qwal_effect no_faults effect _ _ _) as [[[]|] mi] eqn:Hinst; [|done].
  destruct Hin as [|Hin]; [by left|]. pose proof Hin as ((Hci & Hfi & Hsi) & Hui & Hhi).
  unfold transact. run. cbn [hk_control_commit no_faults control_fault]. rewrite Hci.
  destruct (commit_rebuildable_apply _ _ _ _ _) as [db'|] eqn:Hcm; [|done]. intros [= <- <-] [= <- <-]. right. split_and!; [done|done|done|by exists effect|].
  change (snd (close_connection mi)) with (with_conn false mi) in *. set (m2 := with_conn false mi) in *. destruct (discard_unless_cases effect (le_payload e) id m2) as (md2 & Hmd2 & Hmd2').
  set (mf := with_fence true md2).
  assert (installed (sm_control m) (ss_file s) effect (le_payload e) mf ∧ sm_conn mf = false ∧ sm_file mf = sm_file mi
          ∧ sm_cache mf = sm_cache mi ∧ sm_control md2 = sm_control m) as (Hinf & Hclf & Hff & Hcaf & Hcd2).
  { unfold mf, installed, fenced. destruct Hmd2' as [->| ->]; split_and!; try done. by apply stamps_no_prepared. }
  assert (install_qwal_effect no_faults effect (le_payload e) (entry_anchor e) mf
          = (Ok (), with_conn true (with_uncommitted (Some (digest [le_payload e])) mf))) as Hreplay.
  { apply (replay_install _ _ _ _ (sm_control m) (ss_file s)); [|done|done|by rewrite Hff]. rewrite Hcaf. intros He.
    refine (noop_install _ _ _ _ _ _ He _ Hinst).
    destruct (may_apply_fence s id e effect md Hmad Hty Hsd Hdec' Hb) as [_ [(_ & _ & _ & [_ Hi] & _)|(_ & _ & _ & [_ Hi] & _)]]; congruence. }
  eexists. split; [|split_and!].
  - unfold apply_command_entry. rewrite Hdec. run. rewrite Hmd2. cbv beta iota. rewrite Hvi, Hbs, Hrc, Hcd2, Hlk, Hex.
    fold mf. rewrite Hreplay. unfold transact. run. cbn [hk_control_commit no_faults].
    set (mr := with_conn true _). assert (sm_control mr = sm_control m) as -> by done. rewrite Hcm. reflexivity.
  - done.
  - cbn. done.
  - done.
Qed.

(** The way of an entry to [apply_command_entry]. *)
Record reaches s id e next m : Prop := {
  re_seal : prepared_base_metadata_matches (sm_seal m) (sm_file m) = true;
  re_retry : check_retry e m = (Ok (), m);
  re_ctl : ctl_ok s id (sm_control m);
  re_cluster : le_cluster_id e = ci_cluster_id id;
  re_epoch : le_epoch e = ci_epoch id;
  re_prev : le_prev_hash e = la_hash (ss_tip s);
  re_next : next_entry s e next;
  re_command : le_entry_type e = Command
}.

Lemma reaches_command s id e next m hooks : reaches s id e next m →
  apply_entry_with_result hooks e m = apply_command_entry hooks e id (ss_tip s) (ss_configuration s) next m.
Proof.
  intros [Hse Hre Hc Hcl Hep Hpv [Hra Hh Hi Hv] Hty]. pose proof Hc as [[Hid Ht _] Hcf _ _ _ _].
  unfold apply_entry_with_result, ensure_page_state_sealed, apply_qwal_entry, control_applied_tip, control_configuration_state. run.
  rewrite Hse, Hh, neqb_refl. cbn [negb reject_if]. rewrite Hre, Hid. cbn [reject_if]. rewrite Hcl, Hep, !neqb_refl, Ht. cbn [reject_if mbind result_bind ap_applied_index ap_applied_hash].
  assert (eqb (le_index e) (la_index (ss_tip s)) = false) as -> by (rewrite eqb_false; lia).
  assert (checked_add (la_index (ss_tip s)) 1 = Some (le_index e)) as ->.
  { apply checked_add_Some. split; [done|]. unfold entry_in_range, is_u64 in Hra. rewrite !andb_true_iff in Hra. rewrite <- Hi. destruct Hra as [[_ Hra] _]. by apply N.leb_le in Hra. }
  cbn [ok_or]. rewrite Hpv, !neqb_refl. cbn [orb reject_if]. rewrite identity_parts in Hid. destruct Hid as (_ & _ & _ & Hmc & _).
  rewrite Hmc, Hcf, Hv. cbn [map_err]. rewrite Hty, neqb_refl. by destruct (ss_tip s).
Qed.

(** An application either does not come to the commit of an effect, or reaches it from a machine that may apply it. *)
Lemma apply_or_reaches s e m : sql_inv s m → entry_in_range e = true →
  (∀ hooks, hk_pending_commit hooks = Ok () → apply_entry_with_result hooks e m = apply_entry_with_result no_faults e m)
  ∨ (∃ id next, reaches s id e next m ∧ phase s id m ∧ stamps_ok m ∧ may_apply s id e m) ∨ collision.
Proof.
  intros (id & Hc & Hph & Hs) Hra. pose proof Hc as [[Hid Ht Hw] Hcf _ _ _ _].
  unfold apply_entry_with_result, ensure_page_state_sealed, apply_qwal_entry, control_applied_tip, control_configuration_state. run.
  destruct (prepared_base_metadata_matches _ _) eqn:Hse; cbn [negb reject_if]; [|by left].
  destruct (neqb (recompute_hash e) _) eqn:Hh; cbn [reject_if]; [by left|]. rewrite neqb_false in Hh.
  destruct (check_retry e m) as [[[]|] m0] eqn:Hcr; [|by left].
  destruct (check_retry_Ok s id e m m0 Hph Hra Hh Hcr) as [-> [Hma|Hcol]]; [|by right; right]. rewrite Hid, Ht. cbn [mbind result_bind].
  destruct (neqb (le_cluster_id e) _) eqn:Hcl; cbn [reject_if]; [by left|]. destruct (neqb (le_epoch e) _) eqn:Hep; cbn [reject_if]; [by left|].
  destruct (eqb (le_index e) _); [by left|]. destruct (ok_or _ _) as [n|] eqn:Hn; [|by left].
  destruct (neqb (le_index e) n || _) eqn:Hg; cbn [reject_if]; [by left|].
  pose proof Hid as Hid'. rewrite identity_parts in Hid'. destruct Hid' as (_ & _ & _ & Hmc & _). rewrite Hmc, Hcf.
  destruct (validate_entry _ _) as [next|] eqn:Hv; cbn [map_err]; [|by left].
  destruct (neqb (le_entry_type e) Command) eqn:Hty.
  - left. intros hooks Hk. unfold apply_metadata_entry. rewrite Hk. done.
  - right. left. rewrite orb_false_iff, !neqb_false in *. rewrite ok_or_Ok, checked_add_Some in Hn. destruct Hn as [-> _], Hg as [Hi Hpv].
    exists id, next. by split_and!.
Qed.

End retry.
