(* ===== verification/SqlWitnesses.v ===== *)
(** * SqlWitnesses: the SQL theorems on concrete data

    A database of two pages of 512 bytes, a write-ahead log that rewrites its header
    page and adds a third page, the effect made of it, and a database of the same
    identity on another node. *)

From S2P Require Import Prelude Bytes Text Core SqlPages SqlMerkle SqlPatch WalCapture Qwal QwalFile.
From Stdlib Require Strings.Byte.

(** ** Databases *)

(** A header page that declares [count] pages of 512 bytes, filled with [fill]. *)
Definition sample_header_page (count : N) (fill : Byte.byte) : bytes :=
  SQLITE_MAGIC ++ be_bytes 2 512 ++ replicate 10 Byte.x00 ++ be_bytes 4 count ++ replicate 480 fill.
Definition sample_page (fill : Byte.byte) : bytes := replicate 512 fill.

Definition sample_base_pages : list bytes := [sample_header_page 2 Byte.x00; sample_page Byte.x01].
Definition sample_patches : list PageStatePatchV3 :=
  [mkPatch 1 (sample_header_page 3 Byte.x07); mkPatch 3 (sample_page Byte.x03)].
Definition sample_base_file : bytes := concat sample_base_pages.

Definition sample_cache : PageStateCacheV3 :=
  match @from_pages sample_sha256 512 sample_base_pages with Ok cache => cache | Err _ => mkCache 0 0 [] end.
Definition sample_result : StateIdentityV3 * PageStateCacheV3 :=
  match @apply_patch sample_sha256 sample_cache 3 sample_patches with
  | Ok r => r
  | Err _ => (mkStateIdentity 0 0 LogHash_ZERO, sample_cache)
  end.

Lemma page_state_incremental_witness :
  let h := sample_sha256 in
  from_pages 512 (patch_pages 3 sample_patches sample_base_pages) = Ok sample_result.2
  ∧ overlay sample_cache 3 sample_patches = Ok sample_result.1.
Proof.
  cbn zeta.
  pose proof (@page_state_incremental sample_sha256 512 3 sample_base_pages sample_patches sample_cache
    ltac:(vm_compute; reflexivity) ltac:(vm_compute; reflexivity)) as Hi.
  assert (@apply_patch sample_sha256 sample_cache 3 sample_patches = Ok sample_result) as He by (vm_compute; reflexivity).
  rewrite He in Hi. rewrite (surjective_pairing sample_result) in Hi. destruct Hi as (_ & Ho & Hf & _). by split.
Defined.

Lemma state_identity_binds_witness :
  let h := sample_sha256 in
  (512%N = 512%N ∧ sample_base_pages = sample_base_pages) ∨ collision.
Proof.
  cbn zeta. apply (@state_identity_binds sample_sha256 512 512 sample_base_pages sample_base_pages sample_cache sample_cache);
    vm_compute; reflexivity.
Defined.

(** ** A write-ahead log *)

(** Page 3 is written twice; the last frame commits three pages. *)
Definition sample_frames : list WalFrame :=
  [mkWalFrame 3 0 (sample_page Byte.x09); mkWalFrame 1 0 (sample_header_page 3 Byte.x07);
   mkWalFrame 3 3 (sample_page Byte.x03)].
Definition sample_wal : bytes := wal_file LittleOrder 512 0 (11%N, 12%N) sample_frames.
Definition sample_commit : WalCommit := wal_commit 512 sample_frames.

Lemma wal_capture_exact_witness :
  capture_wal true (blen sample_wal) sample_wal 2 MAX_QWAL_V3_BYTES = Ok (Committed sample_commit)
  ∧ wc_pages sample_commit = [mkWalPage 1 (sample_header_page 3 Byte.x07); mkWalPage 3 (sample_page Byte.x03)].
Proof.
  split; [|vm_compute; reflexivity].
  assert (capture_wal true (blen sample_wal) sample_wal 2 MAX_QWAL_V3_BYTES = Ok (Committed sample_commit)) as Hc
    by (vm_compute; reflexivity).
  destruct (wal_capture_exact (blen sample_wal) sample_wal 2 MAX_QWAL_V3_BYTES sample_commit) as [Hs Hb];
    [vm_compute; split; discriminate|vm_compute; reflexivity|].
  apply Hb, Hs, Hc.
Defined.

(** ** The effect of the transaction *)

(** Serializers that know one result and one effect. *)
Definition sample_sql_result : SqlCommandResult := mkSqlResult [mkSqlStatement 1 None].
Definition sample_result_serde : Serde SqlCommandResult := {|
  to_serialized := λ r, if decide (r = sample_sql_result) then Some [Byte.x01; Byte.x01; Byte.x00] else None;
  from_serialized := λ b, if decide (b = [Byte.x01; Byte.x01; Byte.x00]) then Some sample_sql_result else None
|}.

Definition sample_base_state : StateIdentityV3 :=
  match @cache_identity sample_sha256 sample_cache with Ok s => s | Err _ => mkStateIdentity 0 0 LogHash_ZERO end.
Definition sample_receipt : QwalReceiptV3 :=
  mkQwalReceipt (lit "r-1") LogHash_ZERO (SQL_RESULT_V1_MAGIC ++ [Byte.x01; Byte.x01; Byte.x00]).
Definition sample_changed : list QwalPageV3 :=
  [mkQwalPage 1 (sample_header_page 3 Byte.x07); mkQwalPage 3 (sample_page Byte.x03)].
Definition sample_effect : QwalEnvelopeV3 :=
  mkQwal (lit "cluster-a") 1 1 1 4 LogHash_ZERO sample_base_state sample_result.1 (lit "materializer")
    [sample_receipt] sample_changed.
Definition sample_staged : bytes := concat [sample_header_page 3 Byte.x07; sample_page Byte.x01; sample_page Byte.x03].

Definition sample_envelope_serde : Serde QwalEnvelopeV3 := {|
  to_serialized := λ e, if decide (e = sample_effect) then Some [Byte.x09] else None;
  from_serialized := λ b, if decide (b = [Byte.x09]) then Some sample_effect else None
|}.

Lemma sample_postcard_laws : @PostcardLaws sample_envelope_serde.
Proof.
  split; unfold to_serialized, from_serialized; cbn.
  - intros effect body Hb. destruct (decide (effect = sample_effect)) as [->|]; [|done].
    assert (body = [Byte.x09]) as -> by congruence. by rewrite decide_True.
  - intros effect. by destruct (decide (effect = sample_effect)).
Qed.

Lemma qwal_installs_target_witness :
  let h := sample_sha256 in
  page_state_from_database_bytes sample_staged = Ok sample_result.2.
Proof.
  cbn zeta.
  destruct (@qwal_installs_target sample_sha256 sample_result_serde sample_base_file sample_staged sample_effect sample_cache)
    as (cache' & Ha & Hs); [vm_compute; reflexivity..|].
  rewrite Hs. f_equal.
  assert (@apply_patch sample_sha256 sample_cache (si_page_count (qe_target_state sample_effect)) (effect_patches sample_effect)
    = Ok sample_result) as He by (vm_compute; reflexivity).
  rewrite Ha in He. apply Ok_inj in He. exact (f_equal snd He).
Defined.

Lemma staged_effect_replicates_witness :
  let h := sample_sha256 in let s := sample_result_serde in
  apply_preverified_qwal_in_place (λ _, Ok ()) sample_base_file sample_effect = (Ok (), sample_staged).
Proof.
  cbn zeta.
  apply (@staged_effect_replicates sample_sha256 sample_result_serde sample_base_file sample_wal sample_staged (blen sample_wal)
    sample_cache sample_commit sample_changed sample_effect); vm_compute; reflexivity.
Defined.

Lemma qwal_codec_exact_witness :
  let s := sample_result_serde in let e := sample_envelope_serde in
  decode_qwal_v3 (QWAL_V3_MAGIC ++ [Byte.x09]) = Ok sample_effect.
Proof.
  cbn zeta.
  apply (@qwal_codec_exact sample_result_serde sample_envelope_serde sample_postcard_laws).
  vm_compute. reflexivity.
Defined.
