(* ===== verification/SqlReplicaWitnesses.v ===== *)
(** * SqlReplicaWitnesses: the replica theorems on concrete machines

    Two nodes that create the sample database, a transaction prepared on one of them, its
    effect applied on both, on the other one after a failed control commit, and a third node
    restored from a snapshot. *)

From stdpp Require Import strings.
From S2P Require Import Prelude Bytes Text Core ConfigChange ConfigState LogSegment SqlPages SqlMerkle SqlPatch WalCapture Qwal QwalFile SqlCommand SqlPolicy SqlExecute SqlControl SqlMachine SqlNode SqlSpec SqlInstall SqlHistory SqlTrace SqlReplica SqlRetry SqlWitnesses.
From Stdlib Require Strings.Byte.

(** ** Parameters *)

(** A serializer that numbers the values of a list. *)
Definition table_serde {A} `{EqDecision A} (l : list A) : Serde A := {|
  to_serialized := λ x, row ← list_find (x =.) l; b ← Byte.of_N (N.of_nat row.1); Some [b];
  from_serialized := λ body, match body with [b] => l !! N.to_nat (Byte.to_N b) | _ => None end
|}.

Lemma table_reads {A} `{EqDecision A} (l : list A) (x : A) body :
  @to_serialized _ (table_serde l) x = Some body → @from_serialized _ (table_serde l) body = Some x ∧ body ≠ [].
Proof.
  cbn. destruct (list_find _ l) as [[i y]|] eqn:Hf; [|done]. cbn. destruct (Byte.of_N _) as [b|] eqn:Hb; [|done]. intros [= <-].
  split; [|done]. apply list_find_Some in Hf as (Hl & <- & _). apply Byte.to_of_N in Hb. by rewrite Hb, Nat2N.id.
Qed.

Definition replica_cluster : bytes := lit "cluster-a".
Definition replica_fingerprint : LogHash := sample_sha256 (lit "sqlite").
Definition replica_configuration : ConfigurationState := Active 1 LogHash_ZERO.

(** A SQLite whose statements change one row each; what they wrote is the sample write-ahead log: the header
    page rewritten and a page added.  A connection is its number of changes. *)
Definition replica_engine : SqliteEngine := {|
  Connection := N; sqlite_connect := λ _, Ok 0%N; set_wal_mode := λ _, Ok (lit "wal"); pragma_update := λ conn _ _, Ok conn;
  sqlite_prepare := λ _ _ _, Ok (mkPreparedStatement [] false);
  sqlite_execute := λ conn _ _, Ok (conn + 1)%N; sqlite_query := λ conn _ _, Ok ([], conn);
  total_changes := λ conn, conn; changes := λ _, 1%N; temp_object := λ _, Ok None; schema_rows := λ _, Ok [];
  integrity_messages := λ _, Ok [lit "ok"]; fresh_database := Ok sample_base_file;
  execute_put := λ conn _ _, Ok (conn + 1)%N; kv_lookup := λ _ _, Ok None; staging_wal := λ _, Some sample_wal
|}.
Definition replica_executor : SqlExecutor := Ok replica_fingerprint.

(** The command of a client, and its request. *)
Definition replica_command : SqlCommand := mkSqlCommand (lit "r-1") [mkStatement (lit "INSERT INTO t VALUES (1)") []].
Definition replica_request : bytes := SQL_COMMAND_V2_MAGIC ++ [Byte.x00].
#[export] Instance SqlCommandV2Envelope_eq_dec : EqDecision SqlCommandV2Envelope.
Proof. solve_decision. Defined.
Definition replica_command_serde : Serde SqlCommandV2Envelope := table_serde [mkSqlEnvelope replica_fingerprint replica_command].
Definition replica_receipt : QwalReceiptV3 :=
  let h := sample_sha256 in mkQwalReceipt (lit "r-1") (digest [replica_request]) (qr_result_blob sample_receipt).

Definition replica_effect : QwalEnvelopeV3 :=
  mkQwal replica_cluster 1 1 1 0 LogHash_ZERO sample_base_state sample_result.1 (default [] (to_hex replica_fingerprint))
    [replica_receipt] sample_changed.

Definition replica_envelope_serde : Serde QwalEnvelopeV3 := table_serde [replica_effect].
Definition replica_config_serde : Serde ConfigurationState := table_serde [replica_configuration].

(** The entry with the effect, and an empty entry after it. *)
Definition replica_payload : bytes := QWAL_V3_MAGIC ++ [Byte.x00].
Definition replica_entry : LogEntry :=
  let h := sample_sha256 in seal_entry replica_cluster 1 1 1 Command replica_payload LogHash_ZERO.
Definition replica_noop : LogEntry :=
  let h := sample_sha256 in seal_entry replica_cluster 1 1 2 Noop [] (le_hash replica_entry).

(** The snapshots after both entries. *)
Definition replica_replicated : ReplicatedSnapshot :=
  mkReplicated replica_cluster 1 replica_configuration 1 replica_fingerprint sample_result.1 (entry_anchor replica_noop)
    [mkReceipt (lit "r-1") (qr_request_digest replica_receipt) (entry_anchor replica_entry) (qr_result_blob sample_receipt)].
Definition replica_replicated_serde : Serde ReplicatedSnapshot := table_serde [replica_replicated].
Definition replica_container : QwalSnapshotV3 :=
  mkQwalSnapshot sample_staged
    (let h := sample_sha256 in CONTROL_SNAPSHOT_MAGIC ++ as_bytes (digest [[Byte.x00]]) ++ [Byte.x00]) sample_result.1.
Definition replica_container_serde : Serde QwalSnapshotV3 := table_serde [replica_container].

#[export] Existing Instances sample_sha256 replica_engine replica_executor sample_result_serde replica_envelope_serde replica_config_serde
  replica_command_serde replica_replicated_serde replica_container_serde.

#[export] Instance replica_postcard : PostcardLaws.
Proof.
  split; [by intros effect body [? _]%table_reads|]. intros effect Hs. by apply table_reads in Hs as [_ ?].
Qed.
#[export] Instance replica_effect_types : EffectTypes.
Proof.
  split. intros body effect. unfold from_serialized. cbn. destruct body as [|b [|]]; [done| |done].
  destruct (N.to_nat (Byte.to_N b)); cbn; [|done]. intros [= <-]. vm_compute. reflexivity.
Qed.
#[export] Instance replica_config_laws : ConfigLaws.
Proof. split. by intros c body _ [? _]%table_reads. Qed.
#[export] Instance replica_snapshot_laws : SnapshotLaws.
Proof. split; [by intros x body _ [? _]%table_reads|by intros x body [? _]%table_reads]. Qed.

(** ** Machines *)

Definition no_machine : SqliteStateMachine :=
  mkMachine (mkDbFile [] 0) false (mkControl ∅ ∅ None ∅) true sample_cache None None None 0.
Definition made (r : result SqlError SqliteStateMachine) : SqliteStateMachine := match r with Ok m => m | Err _ => no_machine end.

Definition node_a : SqliteStateMachine := made (sql_create_new replica_cluster (lit "node-a") 1 replica_configuration).
Definition node_b : SqliteStateMachine := made (sql_create_new replica_cluster (lit "node-b") 1 replica_configuration).

(** The command of the client, staged in a batch. *)
Definition replica_batch : list SqlBatchMember := [mkMember replica_command replica_request].
Definition node_a_prepared : SqliteStateMachine := snd (prepare_qwal_effect 0 LogHash_ZERO (batch_mutation replica_batch) node_a).
Definition node_a_applied : SqliteStateMachine := snd (apply_entry_with_result no_faults replica_entry node_a_prepared).

Definition fault : Hooks := control_fault (SqlIo "disk full").
Definition node_b_failed : SqliteStateMachine := snd (apply_entry_with_result fault replica_entry node_b).
Definition node_b_applied : SqliteStateMachine := snd (apply_entry_with_result no_faults replica_entry node_b_failed).
Definition node_a_tip : SqliteStateMachine := snd (apply_entry_with_result no_faults replica_noop node_a_applied).
Definition node_b_tip : SqliteStateMachine := snd (apply_entry_with_result no_faults replica_noop node_b_applied).

(** A third node, from a snapshot of the first; then a crash after which it opens again. *)
Definition replica_snapshot : Snapshot :=
  match fst (sql_create_snapshot 2 node_a_tip) with
  | Ok snapshot => snapshot
  | Err _ => mkSnapshot [] replica_configuration 0 0 LogHash_ZERO [] None []
  end.
Definition replica_restored : bytes * ControlDb :=
  match restore_snapshot_file_with_recovery_generation replica_snapshot (lit "node-c") (Some 2%N) with
  | Ok r => r
  | Err _ => ([], sm_control no_machine)
  end.
Definition node_c : SqliteStateMachine :=
  made (sql_open_existing_file true (mkDbFile replica_restored.1 0) replica_restored.2 1).

Notation replica := (sql_history replica_cluster 1 replica_configuration).

Lemma replica_applied log m hooks e outcome : replica log m → entry_in_range e = true →
  fst (apply_entry_with_result hooks e m) = Ok outcome → replica (record log e) (snd (apply_entry_with_result hooks e m)).
Proof. intros Hh Hr Ha. eapply applied; [done..|]. rewrite <- Ha. apply surjective_pairing. Qed.
Lemma replica_failed log m hooks e err : replica log m → entry_in_range e = true →
  fst (apply_entry_with_result hooks e m) = Err err → replica log (snd (apply_entry_with_result hooks e m)).
Proof. intros Hh Hr Ha. eapply apply_failed; [done..|]. rewrite <- Ha. apply surjective_pairing. Qed.

Definition replica_outcome : ApplyOutcome := outcome_at replica_entry (Some sample_sql_result).
Definition replica_log : list LogEntry := [replica_entry; replica_noop].

Lemma node_a_history : replica replica_log node_a_tip.
Proof.
  apply (replica_applied [replica_entry] node_a_applied no_faults replica_noop (outcome_at replica_noop None));
    [|vm_compute; reflexivity..].
  apply (replica_applied [] node_a_prepared no_faults replica_entry replica_outcome); [|vm_compute; reflexivity..].
  apply prepared. apply (created _ _ _ (lit "node-a")); vm_compute; reflexivity.
Qed.

Lemma node_b_created : replica [] node_b.
Proof. apply (created _ _ _ (lit "node-b")); vm_compute; reflexivity. Qed.

Lemma node_b_history : replica replica_log node_b_tip.
Proof.
  apply (replica_applied [replica_entry] node_b_applied no_faults replica_noop (outcome_at replica_noop None));
    [|vm_compute; reflexivity..].
  apply (replica_applied [] node_b_failed no_faults replica_entry replica_outcome); [|vm_compute; reflexivity..].
  apply (replica_failed [] node_b fault replica_entry (SqlIo "disk full")); [apply node_b_created|vm_compute; reflexivity..].
Qed.

Lemma node_c_history : replica replica_log node_c.
Proof.
  apply (restored _ _ _ _ node_a_tip 2 replica_snapshot (snd (sql_create_snapshot 2 node_a_tip)) (lit "node-c") (Some 2%N)
    replica_restored.1 0 replica_restored.2 1); [apply node_a_history|vm_compute; reflexivity|vm_compute; reflexivity| | |done|vm_compute; reflexivity].
  - by intros g [= <-].
  - vm_compute. reflexivity.
Qed.

(** ** Witnesses *)





(** ** Results *)

(** The same SQLite, where every statement returns a row of two columns. *)
Definition returning_engine : SqliteEngine := {|
  Connection := N; sqlite_connect := λ _, Ok 0%N; set_wal_mode := λ _, Ok (lit "wal"); pragma_update := λ conn _ _, Ok conn;
  sqlite_prepare := λ _ _ _, Ok (mkPreparedStatement [lit "id"; lit "name"] false);
  sqlite_execute := λ conn _ _, Ok (conn + 1)%N;
  sqlite_query := λ conn _ _, Ok ([Ok [RefInteger (Z.of_N conn); RefText (lit "row")]], (conn + 1)%N);
  total_changes := λ conn, conn; changes := λ _, 1%N; temp_object := λ _, Ok None; schema_rows := λ _, Ok [];
  integrity_messages := λ _, Ok [lit "ok"]; fresh_database := Ok sample_base_file;
  execute_put := λ conn _ _, Ok (conn + 1)%N; kv_lookup := λ _ _, Ok None; staging_wal := λ _, Some sample_wal
|}.
Definition returning_statements : list SqlStatement :=
  [mkStatement (lit "INSERT INTO t VALUES (1) RETURNING id, name") []; mkStatement (lit "INSERT INTO t VALUES (2) RETURNING id, name") []].
Definition returning_result : SqlCommandResult :=
  mkSqlResult [mkSqlStatement 1 (Some (mkSqlQuery [lit "id"; lit "name"] [[SqlInteger 0; SqlText (lit "row")]]));
               mkSqlStatement 1 (Some (mkSqlQuery [lit "id"; lit "name"] [[SqlInteger 1; SqlText (lit "row")]]))].

Lemma executed_result_bounded_witness :
  @execute_sql_statements returning_engine 0%N returning_statements = Ok (returning_result, 2%N)
  ∧ validate_sql_result_bounds returning_result = Ok ().
Proof.
  split; [vm_compute; reflexivity|].
  apply (@executed_result_bounded returning_engine 0%N 2%N returning_statements returning_result). vm_compute. reflexivity.
Defined.
